(* ===== verification/_CoqProject ===== *)
-Q . S2P
Prelude.v
Fraction.v
Error.v
Endian.v
Buffer.v
Codec.v
FramedServer.v
Channel.v
Poller.v
Connection.v
ConnectionFacts.v
ConnectionRuns.v
ConnectionStream.v
EventLoop.v
LoopWakeup.v
Connector.v
Acceptor.v
Lru.v
Str.v
Served.v
TcpServer.v
ServerConnections.v
TcpClient.v
ClientConnections.v
ConfigValue.v
Config.v
Ini.v
BlockingQueue.v
SerialExecutor.v
ThreadPool.v
ShardedExecutor.v
TimerQueue.v
Latch.v
DoubleLink.v
TimerWheel.v
Log.v
AsyncLogger.v
Sink.v
ObjectPool.v
Double.v
Metrics.v
KcpSession.v
KcpServer.v
KcpClient.v
TreeConfig.v
Coro.v
Application.v
