(* ===== verification/Prelude.v ===== *)
(** * dbase: a verification development

    dbase is a C++20 base library: TCP connections over an event loop, byte buffers and
    framing, timers, thread pools and queues, a cache, exact fractions, string utilities and
    configuration files, logging, sessions of a reliable protocol over UDP, coroutines and the
    frame of an application.  This development models the
    components below as executable functions, translated from the sources under
    [src/code], and proves what each of them promises.

    ** Conventions (this file)

    A computation yields [res A]: a value ([Ok]), an exception ([Throw]), undefined
    behaviour ([Undef]: an access out of bounds, a null or dangling pointer, a signed
    overflow, a failed [assert]) or [NoFuel].  A member function is an [M S A], from the
    object to a result and the object it leaves behind, also when it throws.  Machine
    integers are [Z] with their wrap-around written out ([u32], [u64]) or undefined on
    overflow ([i64]).  Strings and byte arrays are lists of [ascii].  Loops that are not
    structural take fuel; every theorem about such a loop shows the fuel given by the
    model is enough, so [NoFuel] never occurs in a conclusion: 130 rounds for the two
    Euclidean loops on 64-bit numbers, which halve every second round; one round more
    than the bytes of a buffer or string for the loops that consume them; one round more
    than twice the timers there are and can still be added for [processTimers]; one round more
    than the work the coroutines have left for [RunAll].
    [wp] is the total-correctness judgement used for stateful code: it excludes undefined
    behaviour and [NoFuel], so what it proves of a loop includes that the loop ends.

    ** Files

    - [Fraction]: [math/fraction.cpp], [fraction.h].  The object is the pair of members.
      Products, quotients, sums, comparison and construction are exact or throw under
      exactly the stated conditions, and so are expressions of any size; they are never
      undefined and results are canonical.  [op_mul_assign] is shown to leave a wrong object
      behind on an overflow.
    - [Error]: [error.h], [error.cpp].  Error codes, [Error], [Result].
    - [Endian]: byte order and integer access of [net/buffer.cpp].
    - [Buffer]: [net/buffer.cpp], [buffer.h].  A vector with a reader and a writer index.
      Every sequence of operations refines a queue of bytes as long as the index arithmetic
      has room, which is stated of each operation; the exact condition under
      which [append] writes out of bounds; the outcomes of reading and writing a
      descriptor; integer round trips.
    - [Codec]: [net/length_field_codec.cpp] over [Buffer].  [encode] and [tryDecode] agree
      with their specifications over unbounded integers, with the one input class where the
      64-bit sum wraps.
    - [FramedServer]: [net/framed_tcp_server.cpp], the message path over [Codec].  Payloads
      sent arrive once, in order, whatever the chunks the stream is cut into; every input
      is handled without undefined behaviour.
    - [Channel], [Poller]: [net/channel.cpp], [epoll_poller.cpp], [select_poller.cpp].  Event
      masks, registration and dispatch; both pollers implement the class [PollerOps] and
      watch the same events after any sequence of calls.
    - [Connection]: [net/tcp_connection.cpp] over [Buffer], [Codec], [Channel]: the object with
      every handler and public member, called by the loop, by callbacks (which follow a
      script of calls) and by other threads (as functors).  [ConnectionFacts] has what each
      handler does, as [wp] lemmas; [ConnectionRuns] the invariant of whole runs: bytes leave
      in the order accepted, nothing waits without a reason, closing happens once, for
      callbacks that keep a codec and the callbacks installed and without the late
      [shutdown] of another thread;
      [ConnectionStream] the end-to-end delivery of frames, the draining of the output, and
      concrete runs in which the code does not do what it means to.
    - [EventLoop]: the timers of [net/event_loop.cpp]: a priority queue of shared objects,
      re-entrant callbacks, 64-bit times.  [processTimers] ends and runs what is due, in
      order; the time-out given to the poller.  [LoopWakeup]: the same class as a step
      relation with other threads: [queueInLoop], [quit], the wake-up socket pair.
    - [Connector]: [net/connector.cpp].  Attempts, retries and the channel of an attempt, for
      every order of calls, functors, timers and poller reports: no socket is lost, the
      connector does not stall, delays back off to the maximum.
    - [Acceptor]: [net/acceptor.cpp] and the choice of a loop of
      [net/event_loop_thread_pool.cpp].  [Served]: what an owner of connections uses of one
      and relies on, as classes.  [TcpServer]: [net/tcp_server.cpp], the server with its
      registry and the queues of its loops, against [Served]: in every interleaving of the
      loops a connection is established and destroyed once, in its own loop, and the
      server comes to rest.  [TcpClient]: [net/tcp_client.cpp] over [Connector] and [Served]:
      at most one connection is open, and the client keeps connecting.
      [ServerConnections] and [ClientConnections] instantiate these with [Connection].
    - [KcpSession]: [net/kcp_session.cpp] against the documented interface of the vendored
      protocol (the classes [Kcp], [KcpLaws]): the update timer stays armed, messages are handed
      over once and in order, closing is reported once; runs in which it misbehaves.
    - [KcpServer]: [net/kcp_server.cpp], [net/kcp_packet.cpp].  Routing of datagrams to sessions in
      their loops and the life of a session, against an interface [KcpSession] implements.
    - [KcpClient]: [net/kcp_client.cpp] over [KcpSession]: its channel and its sessions, and runs in
      which the poller keeps a destroyed channel.
    - [Lru]: [cache/lru_cache.h].  Node list and iterator index refine a bounded recency
      list, with the calls of the eviction callback.
    - [Str]: [str/str.cpp].  Splitting, joining, replacing, trimming, number parsing.
    - [ConfigValue], [Config]: [config/config_value.cpp], [config/config.cpp].  Dotted
      paths into a tree, assignment and its frame, typed access, the cached flat map.
    - [Ini]: [config/ini_config.cpp] over [Str] and [Config].  Written texts are read back;
      errors are reported at the first malformed line.
    - [TreeConfig]: [config/json_config.cpp], [config/toml_config.cpp], [config/xml_config.cpp].  The
      conversions of the trees of the third-party parsers, which are parameters, to values.
    - [BlockingQueue]: [sync/blocking_queue.h].  Threads, the mutex and the condition
      variables as a step relation.  Values leave in the order they entered, the bound holds,
      and no wake-up is lost: a thread stays blocked only while it has a reason.
    - [SerialExecutor]: [thread/serial_executor.cpp], proved against the class [TaskQueue],
      which [BlockingQueue] implements.  Tasks run one at a time in order, and none is
      stranded in the queue.
    - [ThreadPool]: [thread/thread_pool.cpp], proved against the class [WorkQueue], which
      extends [TaskQueue]: every accepted task runs once, also when the pool is stopped.
      [ShardedExecutor]: [thread/sharded_executor.cpp] over [SerialExecutor].
    - [Application]: [app/application.cpp].  The command line is read back, and in every run the pid
      file is removed exactly when it was written and the shutdown callback follows exit code 0.
    - [Coro]: [coro/coroutine_scheduler.cpp], [coro/task.h].  Coroutines as stacks of frames: every
      call returns, and an interleaved coroutine does what it does alone; a run that uses a
      destroyed frame.
    - [TimerQueue]: [thread/timer_queue.cpp]: worker, condition variable, cancellation by id
      and by generation, and the hand-over of tasks to a thread pool.  Once [cancel] has
      returned, the worker executes the task at most once more, nothing runs early, no wake-up
      is lost; copies handed to a pool before run all the same, and a refused one ends the
      worker.
    - [Latch]: [sync/count_down_latch.cpp].
    - [Log]: [log/log.cpp]: events, their text, the synchronous logger.  [AsyncLogger]:
      [log/async_logger.cpp], queue and worker as steps of threads: nothing accepted is lost
      or reordered, the sinks see what the synchronous logger would write, and the worker
      catches up; runs in which [stop] and [flush] hang.  [Sink]: the sinks of [log/sink.cpp]
      that write files, over a directory with failing operations and a buffering stream that
      may fail: while the stream works rotation keeps the newest lines, daily files hold the
      lines of their day; what a failed write, flush or size query leaves behind.
    - [ObjectPool]: [memory/object_pool.h]: objects lent by threads to each other; each object
      is in one place, idle objects are clean, and no step touches a destroyed pool when none of
      its members is running at its destruction or called after it; a run in which the deleter
      of a shared object races with the destructor.
    - [Double]: binary64 numbers, and half-a-unit rounding of products.  [Metrics]:
      [metrics/histogram.h], [counter.h], [gauge.h], [metrics/registry.cpp].  Order statistics of the
      last samples, with exact percentile indices; the registry gives each name one metric of
      one type; the compare-and-swap loop of a gauge is linearizable.
    - [DoubleLink]: the intrusive list of [time/timer_wheel.h] on a heap of nodes refines a
      family of disjoint lists and follows no bad pointer.
    - [TimerWheel]: [time/timer_wheel.cpp].  Five wheels with cascades refine a schedule of
      deadlines: polled once per tick, a timer fires exactly when it is due, once, while
      callbacks register and unregister timers.  The condition on callbacks, at the ticks where
      the second wheel moves, is necessary.  Slots are lists, which is what [DoubleLink] refines.

    Each file has its definitions first, then lemmas, then the numbered properties and an
    instance of each property that has hypotheses.

    ** What is a parameter

    Code outside the repository is an argument of the definitions that use it: the system
    calls behind [readFdResult] and [writeFdResult], the answers of [write], [epoll_wait] and
    [select], the interest list of the kernel (the class [EpollKernel], with the documented
    effects of [epoll_ctl] and an instance), [strerror], [strtod], [std::hash], the reading of
    files and what the file system answers, the printing and conversion of [double], the byte
    order of the host, the largest size of a vector, the time, the KCP protocol (the class
    [Kcp]), the parsers of JSON, TOML and XML, and the callbacks of the user.

    ** Concurrency

    In [BlockingQueue], [SerialExecutor], [ThreadPool], [ShardedExecutor], [TimerQueue], [Latch],
    [AsyncLogger], [ObjectPool] and [LoopWakeup] a state holds the program counter of every thread, and the theorems hold
    in every state that any interleaving reaches, by induction on the steps.  What happens
    while a mutex is held is one step (in [TimerQueue], where a loop runs under the mutex, the
    other threads wait).  Liveness is proved as a bound on the steps the threads take by
    themselves together with what holds when none of them can move, or as an invariant of the
    states in which a thread sleeps.  Accesses to atomics are sequentially consistent, which is
    stronger than the acquire and release orders of the code.  Tasks and callbacks return.
    The public operations of [LRUCache] hold its mutex for their whole bodies, so an
    interleaving is a sequence of operations, which its refinement theorem quantifies over.
    [Connection], [Connector], [Poller] and the timers of [EventLoop] run in the thread of their loop; calls
    from other threads reach them as functors.  In [TcpServer] and [KcpServer] every loop has its queue of functors and the
    loops run in any order, a functor being one step.  The other modelled classes are used from one
    thread.

    ** Not modelled

    Sockets and addresses are system calls; the KCP protocol itself ([ikcp.c]), asio and the
    parsers of JSON, TOML and XML are vendored.  [fs], [platform], [random], [time] and the thread
    wrappers are glue over the operating system and the standard library.  [toDouble] and stream output of
    [Fraction] use floating point and streams.  In [FramedServer] the setters that forward
    callbacks to [TcpServer] are left out; in [EventLoop] and [ThreadPool] the creation of
    threads and socket pairs. *)

From stdpp Require Import base list gmap strings.
From Stdlib Require Import ZArith Lia Ascii.

Local Open Scope Z_scope.

(** Keep integer arithmetic folded under [simpl]. *)
#[global] Arguments Z.compare : simpl never.
#[global] Arguments Z.eqb : simpl nomatch.
#[global] Arguments Z.modulo : simpl never.
#[global] Arguments Z.div : simpl never.
#[global] Arguments Z.gcd : simpl never.
#[global] Arguments Z.quot : simpl never.

(** ** Results of C++ computations

    A computation that returns, throws, runs into undefined behaviour (an
    out-of-bounds access, a signed overflow, a division by zero), or has used up
    the fuel given to the loop that models a C++ loop. *)

Inductive exn : Type :=
  | out_of_range
  | length_error
  | invalid_argument
  | logic_error
  | domain_error
  | overflow_error
  | runtime_error
  | bad_function_call
  | bad_variant_access.

#[global] Instance exn_eq_dec : EqDecision exn.
Proof. solve_decision. Defined.

Inductive res (A : Type) : Type :=
  | Ok (a : A)
  | Throw (e : exn)
  | Undef
  | NoFuel.
Arguments Ok {A} _.
Arguments Throw {A} _.
Arguments Undef {A}.
Arguments NoFuel {A}.

Definition res_bind {A B} (m : res A) (k : A → res B) : res B :=
  match m with
  | Ok a => k a
  | Throw e => Throw e
  | Undef => Undef
  | NoFuel => NoFuel
  end.

(** A member function runs on its object and leaves it in some state, also when
    it throws. *)
Definition M (S A : Type) : Type := S → res A * S.

Definition ret {S A} (a : A) : M S A := λ s, (Ok a, s).
Definition throw {S A} (e : exn) : M S A := λ s, (Throw e, s).
Definition undef {S A} : M S A := λ s, (Undef, s).
Definition get {S} : M S S := λ s, (Ok s, s).
Definition put {S} (s : S) : M S () := λ _, (Ok tt, s).
Definition modify {S} (f : S → S) : M S () := λ s, (Ok tt, f s).
Definition gets {S A} (f : S → A) : M S A := λ s, (Ok (f s), s).
Definition lift {S A} (r : res A) : M S A := λ s, (r, s).

Definition bind {S A B} (m : M S A) (k : A → M S B) : M S B :=
  λ s, match m s with
       | (Ok a, s') => k a s'
       | (Throw e, s') => (Throw e, s')
       | (Undef, s') => (Undef, s')
       | (NoFuel, s') => (NoFuel, s')
       end.

Declare Scope cpp_scope.
Delimit Scope cpp_scope with cpp.

Notation "'let?' x ':=' m 'in' k" := (res_bind m (λ x, k))
  (at level 10, x pattern, m at level 100, k at level 200,
   format "'[v' 'let?'  x  ':='  m  'in' '/' k ']'") : cpp_scope.
Notation "'let!' x ':=' m 'in' k" := (bind m (λ x, k))
  (at level 10, x pattern, m at level 100, k at level 200,
   format "'[v' 'let!'  x  ':='  m  'in' '/' k ']'") : cpp_scope.
Notation "m ;;; k" := (bind m (λ _, k))
  (at level 199, right associativity) : cpp_scope.

Open Scope cpp_scope.

Create HintDb cpp.
Create Rewrite HintDb zlist.

(** Running a computation step by step. *)
Section run_lemmas.
Context {S A B : Type}.

Lemma bind_get (k : S → M S B) s : bind get k s = k s s.
Proof. done. Qed.
Lemma bind_ret (a : A) (k : A → M S B) s : bind (ret a) k s = k a s.
Proof. done. Qed.
Lemma bind_modify f (k : () → M S B) s : bind (modify f) k s = k tt (f s).
Proof. done. Qed.
Lemma bind_put s' (k : () → M S B) s : bind (put s') k s = k tt s'.
Proof. done. Qed.
Lemma bind_lift_ok (a : A) (k : A → M S B) s : bind (lift (Ok a)) k s = k a s.
Proof. done. Qed.
Lemma bind_lift_throw e (k : A → M S B) s : bind (lift (Throw e)) k s = (Throw e, s).
Proof. done. Qed.
Lemma bind_throw e (k : A → M S B) s : bind (throw e) k s = (Throw e, s).
Proof. done. Qed.
Lemma bind_Ok (m : M S A) (k : A → M S B) s a s' :
  m s = (Ok a, s') → bind m k s = k a s'.
Proof. intros H. unfold bind. by rewrite H. Qed.
Lemma bind_Throw (m : M S A) (k : A → M S B) s e s' :
  m s = (Throw e, s') → bind m k s = (Throw e, s').
Proof. intros H. unfold bind. by rewrite H. Qed.

End run_lemmas.

Lemma bind_assoc {S A B C} (m : M S A) (f : A → M S B) (g : B → M S C) s :
  bind (bind m f) g s = bind m (λ a, bind (f a) g) s.
Proof. unfold bind. by destruct (m s) as [[]]. Qed.

Lemma bind_ext {S A B} (m : M S A) (f g : A → M S B) s :
  (∀ a s', f a s' = g a s') → bind m f s = bind m g s.
Proof. intros H. unfold bind. by destruct (m s) as [[]]. Qed.

Create Rewrite HintDb run.
#[export] Hint Rewrite @bind_assoc @bind_get @bind_ret @bind_modify @bind_put
  @bind_lift_ok @bind_lift_throw @bind_throw : run.

(** Evaluate the leading effects of the goal. *)
Ltac run := repeat (progress autorewrite with run; cbv beta iota).

(** ** Total correctness

    [wp m s Q E]: run from [s], [m] returns with [Q], or throws with [E]; it neither runs
    out of fuel nor is undefined. *)
Definition wp {S A} (m : M S A) (s : S) (Q : A → S → Prop) (E : exn → S → Prop) : Prop :=
  match m s with
  | (Ok a, s') => Q a s'
  | (Throw e, s') => E e s'
  | _ => False
  end.

(** Nothing is thrown. *)
Definition nothrow {S} : exn → S → Prop := λ _ _, False.

Section wp_lemmas.
Context {S A B : Type}.
Implicit Types (s : S) (m : M S A).

Lemma wp_bind m (k : A → M S B) s Q E :
  wp m s (λ a s', wp (k a) s' Q E) E → wp (bind m k) s Q E.
Proof. unfold wp, bind. by destruct (m s) as [[]]. Qed.

Lemma wp_mono m s (Q Q' : A → S → Prop) (E E' : exn → S → Prop) :
  wp m s Q E → (∀ a s', Q a s' → Q' a s') → (∀ e s', E e s' → E' e s') → wp m s Q' E'.
Proof. unfold wp. destruct (m s) as [[]]; auto. Qed.

Lemma wp_seq m (k : A → M S B) s P Q E :
  wp m s P E → (∀ a s', P a s' → wp (k a) s' Q E) → wp (bind m k) s Q E.
Proof. intros Hm Hk. apply wp_bind. by eapply wp_mono. Qed.

(** The first part throws nothing. *)
Lemma wp_calm m (k : A → M S B) s P Q E :
  wp m s P nothrow → (∀ a s', P a s' → wp (k a) s' Q E) → wp (bind m k) s Q E.
Proof. intros Hm Hk. apply wp_bind. by eapply wp_mono. Qed.

Lemma wp_ret (a : A) s Q E : Q a s → wp (ret a) s Q E.
Proof. done. Qed.

Lemma wp_run m s a s' (Q : A → S → Prop) E : m s = (Ok a, s') → Q a s' → wp m s Q E.
Proof. unfold wp. by intros ->. Qed.

Lemma wp_run_seq (m : M S B) (k : B → M S A) s b s' Q E :
  m s = (Ok b, s') → wp (k b) s' Q E → wp (bind m k) s Q E.
Proof. unfold wp, bind. by intros ->. Qed.

Lemma wp_modify f s (Q : () → S → Prop) E : Q tt (f s) → wp (modify f) s Q E.
Proof. done. Qed.

Lemma wp_get (k : S → M S A) s Q E : wp (k s) s Q E → wp (bind get k) s Q E.
Proof. done. Qed.

Lemma wp_modify_seq f (k : () → M S A) s Q E :
  wp (k tt) (f s) Q E → wp (bind (modify f) k) s Q E.
Proof. done. Qed.

Lemma wp_lift_seq {C} (a : C) (k : C → M S A) s Q E :
  wp (k a) s Q E → wp (bind (lift (Ok a)) k) s Q E.
Proof. done. Qed.

Lemma wp_assoc {C D} (m : M S C) (f : C → M S D) (g : D → M S A) s Q E :
  wp (bind (bind m f) g) s Q E → wp (bind m (λ c, bind (f c) g)) s Q E.
Proof. unfold wp. by rewrite bind_assoc. Qed.

Lemma wp_inv m s Q : wp m s Q nothrow → ∃ a s', m s = (Ok a, s') ∧ Q a s'.
Proof. unfold wp, nothrow. destruct (m s) as [[]]; naive_solver. Qed.

End wp_lemmas.

(** ** Machine integers *)

Definition wrap (w z : Z) : Z := z mod 2 ^ w.
Definition u8 : Z → Z := wrap 8.
Definition u16 : Z → Z := wrap 16.
Definition u32 : Z → Z := wrap 32.
Definition u64 : Z → Z := wrap 64.

(** The value of a w-bit pattern read as a two's complement integer. *)
Definition swrap (w z : Z) : Z := (z + 2 ^ (w - 1)) mod 2 ^ w - 2 ^ (w - 1).

Definition INT64_MIN : Z := - 2 ^ 63.
Definition INT64_MAX : Z := 2 ^ 63 - 1.

Definition in_i64b (z : Z) : bool := (INT64_MIN <=? z) && (z <=? INT64_MAX).
Definition in_i64 (z : Z) : Prop := INT64_MIN ≤ z ≤ INT64_MAX.
Definition in_u64 (z : Z) : Prop := 0 ≤ z < 2 ^ 64.

Lemma in_i64b_spec z : reflect (in_i64 z) (in_i64b z).
Proof. unfold in_i64b, in_i64. apply iff_reflect. lia. Qed.

(** Signed arithmetic is undefined on overflow. *)
Definition i64 (z : Z) : res Z := if in_i64b z then Ok z else Undef.
Definition i64_neg (a : Z) : res Z := i64 (- a).
Definition i64_add (a b : Z) : res Z := i64 (a + b).
Definition i64_sub (a b : Z) : res Z := i64 (a - b).
Definition i64_mul (a b : Z) : res Z := i64 (a * b).
(** C++ division truncates toward zero. *)
Definition i64_div (a b : Z) : res Z := if b =? 0 then Undef else i64 (Z.quot a b).

Lemma i64_Ok z : in_i64 z → i64 z = Ok z.
Proof. intros H. unfold i64. by destruct (in_i64b_spec z). Qed.

Lemma wrap_range w z : 0 ≤ w → 0 ≤ wrap w z < 2 ^ w.
Proof. intros. apply Z.mod_pos_bound. lia. Qed.

Lemma wrap_small w z : 0 ≤ z < 2 ^ w → wrap w z = z.
Proof. apply Z.mod_small. Qed.

Lemma u64_small z : in_u64 z → u64 z = z.
Proof. apply wrap_small. Qed.

Lemma u64_range z : in_u64 (u64 z).
Proof. apply (wrap_range 64). lia. Qed.

(** ** Characters, byte strings and C++ [std::string] *)

Abbreviation str := (list ascii).

Definition lit (s : string) : str := String.list_ascii_of_string s.

Definition byte_of_Z (z : Z) : ascii := ascii_of_N (Z.to_N (u8 z)).
Definition Z_of_byte (c : ascii) : Z := Z.of_N (N_of_ascii c).

Definition NUL : ascii := byte_of_Z 0.

Lemma Z_of_byte_range c : 0 ≤ Z_of_byte c < 2 ^ 8.
Proof. unfold Z_of_byte. pose proof (N_ascii_bounded c). lia. Qed.

Lemma Z_of_byte_of_Z z : Z_of_byte (byte_of_Z z) = u8 z.
Proof.
  unfold Z_of_byte, byte_of_Z. pose proof (wrap_range 8 z ltac:(lia)).
  rewrite N_ascii_embedding; unfold u8; lia.
Qed.

Lemma byte_of_Z_of_byte c : byte_of_Z (Z_of_byte c) = c.
Proof.
  unfold byte_of_Z. pose proof (Z_of_byte_range c).
  unfold u8. rewrite wrap_small by done. unfold Z_of_byte.
  by rewrite N2Z.id, ascii_N_embedding.
Qed.

(** Position of the first occurrence of a pattern. *)
Fixpoint is_prefix (pat s : str) : bool :=
  match pat, s with
  | [], _ => true
  | p :: pat, c :: s => bool_decide (p = c) && is_prefix pat s
  | _ :: _, [] => false
  end.

Fixpoint find_sub (pat s : str) : option nat :=
  if is_prefix pat s then Some 0%nat
  else match s with
       | [] => None
       | _ :: s => S <$> find_sub pat s
       end.

Fixpoint find_char (c : ascii) (s : str) : option nat :=
  match s with
  | [] => None
  | x :: s => if bool_decide (x = c) then Some 0%nat else S <$> find_char c s
  end.

(** Decimal digits ([std::to_string]). *)
Definition digit (d : Z) : ascii := byte_of_Z (48 + d).

Fixpoint dec_digits (fuel : nat) (z : Z) : str :=
  match fuel with
  | O => []
  | S fuel => if z <? 10 then [digit z] else dec_digits fuel (z / 10) ++ [digit (z mod 10)]
  end.

Definition to_string (z : Z) : str :=
  if z <? 0 then lit "-" ++ dec_digits (S (Z.to_nat (Z.log2 (- z)))) (- z)
  else dec_digits (S (Z.to_nat (Z.log2 z))) z.

(** ** Lists indexed by machine integers *)

Definition zlen {A} (l : list A) : Z := Z.of_nat (length l).
Definition ztake {A} (n : Z) (l : list A) : list A := take (Z.to_nat n) l.
Definition zdrop {A} (n : Z) (l : list A) : list A := drop (Z.to_nat n) l.

(** The [len] bytes at offset [off] of an array, undefined out of bounds. *)
Definition mem_read {A} (v : list A) (off len : Z) : res (list A) :=
  if (0 <=? off) && (0 <=? len) && (off + len <=? zlen v)
  then Ok (ztake len (zdrop off v)) else Undef.

Definition mem_write {A} (v : list A) (off : Z) (data : list A) : res (list A) :=
  if (0 <=? off) && (off + zlen data <=? zlen v)
  then Ok (ztake off v ++ data ++ zdrop (off + zlen data) v) else Undef.

Lemma zlen_nonneg {A} (l : list A) : 0 ≤ zlen l.
Proof. unfold zlen. lia. Qed.
Lemma zlen_app {A} (l k : list A) : zlen (l ++ k) = zlen l + zlen k.
Proof. unfold zlen. rewrite length_app. lia. Qed.
Lemma zlen_nil {A} : zlen ([] : list A) = 0.
Proof. done. Qed.
Lemma zlen_cons {A} (x : A) l : zlen (x :: l) = 1 + zlen l.
Proof. unfold zlen. simpl. lia. Qed.
Lemma zlen_replicate {A} n (x : A) : 0 ≤ n → zlen (replicate (Z.to_nat n) x) = n.
Proof. unfold zlen. rewrite length_replicate. lia. Qed.
Lemma zlen_ztake {A} n (l : list A) : 0 ≤ n → zlen (ztake n l) = Z.min n (zlen l).
Proof. unfold zlen, ztake. rewrite length_take. lia. Qed.
Lemma zlen_zdrop {A} n (l : list A) : 0 ≤ n ≤ zlen l → zlen (zdrop n l) = zlen l - n.
Proof. unfold zlen, zdrop. rewrite length_drop. lia. Qed.
Lemma zlen_zero {A} (l : list A) : zlen l = 0 → l = [].
Proof. destruct l; [done|]. rewrite zlen_cons. pose proof (zlen_nonneg l). lia. Qed.

#[export] Hint Rewrite @zlen_app @zlen_nil @zlen_cons : zlist.

Lemma zdrop_zdrop {A} n m (l : list A) :
  0 ≤ n → 0 ≤ m → zdrop n (zdrop m l) = zdrop (m + n) l.
Proof. intros. unfold zdrop. rewrite drop_drop. f_equal. lia. Qed.
Lemma ztake_ztake {A} n m (l : list A) : n ≤ m → ztake n (ztake m l) = ztake n l.
Proof. intros. unfold ztake. rewrite take_take. f_equal. lia. Qed.
Lemma ztake_zdrop {A} n (l : list A) : ztake n l ++ zdrop n l = l.
Proof. apply take_drop. Qed.
Lemma ztake_app_le {A} n (l k : list A) : n ≤ zlen l → ztake n (l ++ k) = ztake n l.
Proof. intros. unfold ztake, zlen in *. apply take_app_le. lia. Qed.
Lemma ztake_app_ge {A} n (l k : list A) :
  zlen l ≤ n → ztake n (l ++ k) = l ++ ztake (n - zlen l) k.
Proof. intros. unfold ztake, zlen in *. rewrite take_app_ge by lia. do 2 f_equal. lia. Qed.
Lemma zdrop_app_le {A} n (l k : list A) : n ≤ zlen l → zdrop n (l ++ k) = zdrop n l ++ k.
Proof. intros. unfold zdrop, zlen in *. apply drop_app_le. lia. Qed.
Lemma zdrop_app_ge {A} n (l k : list A) :
  zlen l ≤ n → zdrop n (l ++ k) = zdrop (n - zlen l) k.
Proof. intros. unfold zdrop, zlen in *. rewrite drop_app_ge by lia. f_equal. lia. Qed.
Lemma ztake_all {A} n (l : list A) : zlen l ≤ n → ztake n l = l.
Proof. intros. unfold ztake, zlen in *. apply take_ge. lia. Qed.
Lemma zdrop_all {A} n (l : list A) : zlen l ≤ n → zdrop n l = [].
Proof. intros. unfold zdrop, zlen in *. apply drop_ge. lia. Qed.
Lemma ztake_0 {A} (l : list A) : ztake 0 l = [].
Proof. done. Qed.
Lemma zdrop_0 {A} (l : list A) : zdrop 0 l = l.
Proof. done. Qed.
Lemma zdrop_ztake {A} n m (l : list A) :
  0 ≤ n → zdrop n (ztake m l) = ztake (m - n) (zdrop n l).
Proof.
  intros. unfold ztake, zdrop. rewrite skipn_firstn_comm. f_equal. lia.
Qed.

Lemma mem_read_Ok {A} (v : list A) off len :
  0 ≤ off → 0 ≤ len → off + len ≤ zlen v → mem_read v off len = Ok (ztake len (zdrop off v)).
Proof. intros. unfold mem_read. by replace (_ && _ && _) with true by lia. Qed.

Lemma mem_write_Ok {A} (v : list A) off data :
  0 ≤ off → off + zlen data ≤ zlen v →
  mem_write v off data = Ok (ztake off v ++ data ++ zdrop (off + zlen data) v).
Proof. intros. unfold mem_write. by replace (_ && _) with true by lia. Qed.

(** ** Lists without duplicates *)

(** Selecting by a projection with distinct values. *)
Section distinct.
Context {A B : Type} `{EqDecision B} (f : A → B).

Lemma filter_eq_absent b (l : list A) : b ∉ f <$> l → filter (λ y, f y = b) l = [].
Proof.
  intros Hb. induction l as [|y l IH]; [done|]. rewrite fmap_cons, not_elem_of_cons in Hb.
  rewrite filter_cons_False by naive_solver. naive_solver.
Qed.

Lemma filter_ne_absent b (l : list A) : b ∉ f <$> l → filter (λ y, f y ≠ b) l = l.
Proof.
  intros Hb. induction l as [|y l IH]; [done|]. rewrite fmap_cons, not_elem_of_cons in Hb.
  rewrite filter_cons_True by naive_solver. f_equal. naive_solver.
Qed.

Lemma distinct_split l1 x l2 : NoDup (f <$> (l1 ++ x :: l2)) →
  (f x ∉ f <$> l1) ∧ (f x ∉ f <$> l2) ∧ NoDup (f <$> (l1 ++ l2)).
Proof.
  rewrite !fmap_app, fmap_cons, !NoDup_app, NoDup_cons. intros (H1 & Hd & Hx & H2).
  split_and!; set_solver.
Qed.

Lemma filter_eq_split b l1 x l2 : NoDup (f <$> (l1 ++ x :: l2)) → f x = b →
  filter (λ y, f y = b) (l1 ++ x :: l2) = [x].
Proof.
  intros Hn <-. destruct (distinct_split _ _ _ Hn) as (H1 & H2 & _).
  by rewrite filter_app, filter_cons_True, !filter_eq_absent.
Qed.

Lemma filter_ne_split b l1 x l2 : NoDup (f <$> (l1 ++ x :: l2)) → f x = b →
  filter (λ y, f y ≠ b) (l1 ++ x :: l2) = l1 ++ l2.
Proof.
  intros Hn <-. destruct (distinct_split _ _ _ Hn) as (H1 & H2 & _).
  rewrite filter_app, filter_cons_False, !filter_ne_absent by (done || tauto). done.
Qed.

End distinct.

(** ** Counting threads

    The sum of [f] over the program counters of all threads, and how a step of one thread
    changes it. *)
Section tally.
Context {A : Type}.
Implicit Types (f : A → nat) (ts : list A).

Definition tally f ts : nat := sum_list_with f ts.

Lemma tally_nil f : tally f [] = 0%nat.
Proof. done. Qed.
Lemma tally_cons f x ts : tally f (x :: ts) = (f x + tally f ts)%nat.
Proof. done. Qed.
Lemma tally_app f l l' : tally f (l ++ l') = (tally f l + tally f l')%nat.
Proof. unfold tally. by rewrite sum_list_with_app. Qed.

Lemma tally_insert f ts t p p' : ts !! t = Some p →
  (tally f (<[t := p']> ts) + f p = tally f ts + f p')%nat.
Proof.
  revert t. induction ts as [|x ts IH]; intros [|t] H; [done..| |]; simpl in *.
  - injection H as <-. lia.
  - specialize (IH t H). lia.
Qed.

Lemma tally_zero f ts : Forall (λ p, f p = 0%nat) ts → tally f ts = 0%nat.
Proof. induction 1; simpl; lia. Qed.

Lemma tally_pos f ts t p : ts !! t = Some p → (f p ≤ tally f ts)%nat.
Proof.
  revert t. induction ts as [|x ts IH]; intros [|t] H; [done..| |]; simpl in *.
  - injection H as <-. lia.
  - specialize (IH t H). lia.
Qed.

Lemma tally_two f ts t1 t2 p1 p2 : ts !! t1 = Some p1 → ts !! t2 = Some p2 → t1 ≠ t2 →
  (f p1 + f p2 ≤ tally f ts)%nat.
Proof.
  revert t1 t2. induction ts as [|x ts IH]; intros [|t1] [|t2] H1 H2 Hne; try done; simpl in *.
  - injection H1 as <-. pose proof (tally_pos f ts t2 p2 H2). lia.
  - injection H2 as <-. pose proof (tally_pos f ts t1 p1 H1). lia.
  - specialize (IH t1 t2 H1 H2 ltac:(congruence)). lia.
Qed.

Lemma tally_bound f ts n : (∀ p, f p ≤ n)%nat → (tally f ts ≤ n * length ts)%nat.
Proof. intros Hf. induction ts as [|p ts IH]; simpl; [lia|]. specialize (Hf p). lia. Qed.

Lemma tally_witness f ts : (0 < tally f ts)%nat → ∃ t p, ts !! t = Some p ∧ (0 < f p)%nat.
Proof.
  induction ts as [|x ts IH]; simpl; [lia|]. intros H. destruct (f x) as [|k] eqn:E.
  - destruct IH as (t & p & Ht & Hp); [lia|]. by exists (S t), p.
  - exists 0%nat, x. split; [done|lia].
Qed.

End tally.

Lemma zlen_seq m n : zlen (seq m n) = Z.of_nat n.
Proof. unfold zlen. by rewrite length_seq. Qed.
