(* ===== verification/Fraction.v ===== *)
(** * [dbase::math::Fraction] (code/src/math/fraction.cpp, fraction.h)

    Exact rationals over [std::int64_t].  An object is the pair of members
    [num_] and [den_]; member functions that assign run in [M Fraction], so that
    the object an exception leaves behind is visible.  Signed overflow is
    undefined behaviour ([Undef]); the loops of [gcdU64] and
    [compareUnsignedFractions] take fuel, shown sufficient for every 64-bit
    input. *)

From S2P Require Import Prelude.
From stdpp Require Import base list.
From Stdlib Require Import ZArith Lia Zdivisibility.

Local Open Scope Z_scope.

Record Fraction : Type := mkFraction { num_ : Z; den_ : Z }.

(** std::strong_ordering *)
Abbreviation strong_ordering := comparison.

(** ** Checked 64-bit arithmetic *)

Definition absToUint64 (x : Z) : res Z :=
  if 0 <=? x then Ok (u64 x)
  else let? t := i64_add x 1 in
       let? n := i64_neg t in
       Ok (u64 (u64 n + 1)).

Definition safeNegate (x : Z) : res Z :=
  if x =? INT64_MIN then Throw overflow_error else i64_neg x.

Definition safeAdd (a b : Z) : res Z :=
  let? hi := if 0 <? b then i64_sub INT64_MAX b else Ok 0 in
  if (0 <? b) && (hi <? a) then Throw overflow_error
  else
    let? lo := if b <? 0 then i64_sub INT64_MIN b else Ok 0 in
    if (b <? 0) && (a <? lo) then Throw overflow_error
    else i64_add a b.

Definition safeSub (a b : Z) : res Z :=
  if b =? INT64_MIN then Throw overflow_error
  else let? nb := i64_neg b in safeAdd a nb.

Definition safeMul (a b : Z) : res Z :=
  if (a =? 0) || (b =? 0) then Ok 0
  else if a =? 1 then Ok b
  else if b =? 1 then Ok a
  else if a =? -1 then safeNegate b
  else if b =? -1 then safeNegate a
  else
    let? ovf :=
      if 0 <? a then
        if 0 <? b then let? q := i64_div INT64_MAX b in Ok (q <? a)
        else let? q := i64_div INT64_MIN a in Ok (b <? q)
      else
        if 0 <? b then let? q := i64_div INT64_MIN b in Ok (a <? q)
        else let? q := i64_div INT64_MAX b in Ok (a <? q) in
    if ovf : bool then Throw overflow_error else i64_mul a b.

Definition safeCastU64ToI64 (x : Z) : res Z :=
  if x =? 0 then Ok 0
  else if u64 INT64_MAX <? x then Throw overflow_error
  else Ok x.

(** [while (b != 0) { t = a % b; a = b; b = t; }] *)
Fixpoint gcd_loop (fuel : nat) (a b : Z) : res Z :=
  match fuel with
  | O => NoFuel
  | S fuel => if b =? 0 then Ok a else gcd_loop fuel b (a mod b)
  end.

(** Two iterations halve [b], so 64-bit operands need at most 2 * 64 + 1. *)
Definition loop_fuel : nat := 130.

Definition gcdU64 (a b : Z) : res Z := gcd_loop loop_fuel a b.

(** The [for (;;)] of [compareUnsignedFractions]. *)
Fixpoint compare_loop (fuel : nat) (reversed : bool) (a b c d : Z)
    : res strong_ordering :=
  match fuel with
  | O => NoFuel
  | S fuel =>
      if (b =? 0) || (d =? 0) then Undef else
      let q1 := a / b in
      let q2 := c / d in
      if negb (q1 =? q2) then
        let less := q1 <? q2 in
        Ok (if negb reversed then (if less then Lt else Gt)
            else (if less then Gt else Lt))
      else
        let r1 := a mod b in
        let r2 := c mod d in
        if (r1 =? 0) || (r2 =? 0) then
          if (r1 =? 0) && (r2 =? 0) then Ok Eq
          else
            let less := r1 =? 0 in
            Ok (if negb reversed then (if less then Lt else Gt)
                else (if less then Gt else Lt))
        else compare_loop fuel (negb reversed) b r1 d r2
  end.

Definition compareUnsignedFractions (a b c d : Z) : res strong_ordering :=
  compare_loop loop_fuel false a b c d.

(** ** Construction and normalization *)

Definition set_num (n : Z) : M Fraction () := modify (λ f, mkFraction n (den_ f)).
Definition set_den (d : Z) : M Fraction () := modify (λ f, mkFraction (num_ f) d).

(** [gcdU64(absToUint64(x), absToUint64(y))] cast to [value_type]. *)
Definition gcdAbs (x y : Z) : res Z :=
  let? ux := absToUint64 x in
  let? uy := absToUint64 y in
  let? g_u := gcdU64 ux uy in
  safeCastU64ToI64 g_u.

Definition normalize : M Fraction () :=
  let! f := get in
  if den_ f =? 0 then throw invalid_argument
  else if num_ f =? 0 then set_den 1
  else
    let! g := lift (gcdAbs (num_ f) (den_ f)) in
    let! n := lift (i64_div (num_ f) g) in
    set_num n;;;
    let! d := lift (i64_div (den_ f) g) in
    set_den d;;;
    if d <? 0 then
      if d =? INT64_MIN then throw overflow_error
      else
        let! n' := lift (safeNegate n) in
        set_num n';;;
        let! d' := lift (i64_neg d) in
        set_den d'
    else ret tt.

Definition Fraction_default : Fraction := mkFraction 0 1.
Definition Fraction_of_int (numerator : Z) : Fraction := mkFraction numerator 1.

(** An exception in the constructor leaves no object. *)
Definition Fraction_make (numerator denominator : Z) : res Fraction :=
  match normalize (mkFraction numerator denominator) with
  | (Ok _, f) => Ok f
  | (Throw e, _) => Throw e
  | (Undef, _) => Undef
  | (NoFuel, _) => NoFuel
  end.

Definition numerator (f : Fraction) : Z := num_ f.
Definition denominator (f : Fraction) : Z := den_ f.
Definition isZero (f : Fraction) : bool := num_ f =? 0.

(** ** Operators *)

Definition op_pos (f : Fraction) : Fraction := f.

Definition op_neg (f : Fraction) : res Fraction :=
  let? n := safeNegate (num_ f) in Fraction_make n (den_ f).

Definition op_add_assign (other : Fraction) : M Fraction () :=
  let! f := get in
  let! g := lift (gcdAbs (den_ f) (den_ other)) in
  let! left_mul := lift (i64_div (den_ other) g) in
  let! right_mul := lift (i64_div (den_ f) g) in
  let! l := lift (safeMul (num_ f) left_mul) in
  let! r := lift (safeMul (num_ other) right_mul) in
  let! new_num := lift (safeAdd l r) in
  let! new_den := lift (safeMul (den_ f) left_mul) in
  set_num new_num;;;
  set_den new_den;;;
  normalize.

Definition op_sub_assign (other : Fraction) : M Fraction () :=
  let! f := get in
  let! g := lift (gcdAbs (den_ f) (den_ other)) in
  let! left_mul := lift (i64_div (den_ other) g) in
  let! right_mul := lift (i64_div (den_ f) g) in
  let! l := lift (safeMul (num_ f) left_mul) in
  let! r := lift (safeMul (num_ other) right_mul) in
  let! new_num := lift (safeSub l r) in
  let! new_den := lift (safeMul (den_ f) left_mul) in
  set_num new_num;;;
  set_den new_den;;;
  normalize.

Definition op_mul_assign (other : Fraction) : M Fraction () :=
  let! f := get in
  if (num_ f =? 0) || (num_ other =? 0) then
    set_num 0;;; set_den 1
  else
    let! g1 := lift (gcdAbs (num_ f) (den_ other)) in
    let! a := lift (i64_div (num_ f) g1) in
    let! d := lift (i64_div (den_ other) g1) in
    let! g2 := lift (gcdAbs (num_ other) (den_ f)) in
    let! c := lift (i64_div (num_ other) g2) in
    let! b := lift (i64_div (den_ f) g2) in
    let! n := lift (safeMul a c) in
    set_num n;;;
    let! m := lift (safeMul b d) in
    set_den m;;;
    normalize.

Definition op_div_assign (other : Fraction) : M Fraction () :=
  let! f := get in
  if num_ other =? 0 then throw domain_error
  else if num_ f =? 0 then set_den 1
  else
    let! g1 := lift (gcdAbs (num_ f) (num_ other)) in
    let! a := lift (i64_div (num_ f) g1) in
    let! c := lift (i64_div (num_ other) g1) in
    let! g2 := lift (gcdAbs (den_ other) (den_ f)) in
    let! d := lift (i64_div (den_ other) g2) in
    let! b := lift (i64_div (den_ f) g2) in
    let! n := lift (safeMul a d) in
    set_num n;;;
    let! m := lift (safeMul b c) in
    set_den m;;;
    normalize.

(** The binary operators take [lhs] by value and return it. *)
Definition by_value (op : Fraction → M Fraction ()) (lhs rhs : Fraction)
    : res Fraction :=
  match op rhs lhs with
  | (Ok _, f) => Ok f
  | (Throw e, _) => Throw e
  | (Undef, _) => Undef
  | (NoFuel, _) => NoFuel
  end.

Definition op_add : Fraction → Fraction → res Fraction := by_value op_add_assign.
Definition op_sub : Fraction → Fraction → res Fraction := by_value op_sub_assign.
Definition op_mul : Fraction → Fraction → res Fraction := by_value op_mul_assign.
Definition op_div : Fraction → Fraction → res Fraction := by_value op_div_assign.

Definition op_eq (lhs rhs : Fraction) : bool :=
  (num_ lhs =? num_ rhs) && (den_ lhs =? den_ rhs).

Definition op_spaceship (lhs rhs : Fraction) : res strong_ordering :=
  if (num_ lhs =? num_ rhs) && (den_ lhs =? den_ rhs) then Ok Eq
  else if (num_ lhs <? 0) && (0 <=? num_ rhs) then Ok Lt
  else if (0 <=? num_ lhs) && (num_ rhs <? 0) then Ok Gt
  else
    let? lhs_abs := absToUint64 (num_ lhs) in
    let? rhs_abs := absToUint64 (num_ rhs) in
    let? ord := compareUnsignedFractions lhs_abs (u64 (den_ lhs))
                                         rhs_abs (u64 (den_ rhs)) in
    Ok (if num_ lhs <? 0 then
          match ord with
          | Lt => Gt
          | Gt => Lt
          | Eq => ord
          end
        else ord).

(** Expressions over fractions, evaluated with the constructors and operators. *)
Inductive expr : Type :=
  | Int (n : Z)
  | Make (n d : Z)
  | Pos (e : expr)
  | Neg (e : expr)
  | Add (l r : expr)
  | Sub (l r : expr)
  | Mul (l r : expr)
  | Div (l r : expr).

Fixpoint eval (e : expr) : res Fraction :=
  match e with
  | Int n => Ok (Fraction_of_int n)
  | Make n d => Fraction_make n d
  | Pos e => let? f := eval e in Ok (op_pos f)
  | Neg e => let? f := eval e in op_neg f
  | Add l r => let? f := eval l in let? g := eval r in op_add f g
  | Sub l r => let? f := eval l in let? g := eval r in op_sub f g
  | Mul l r => let? f := eval l in let? g := eval r in op_mul f g
  | Div l r => let? f := eval l in let? g := eval r in op_div f g
  end.

(** The literals are 64-bit. *)
Fixpoint literals_ok (e : expr) : Prop :=
  match e with
  | Int n => in_i64 n
  | Make n d => in_i64 n ∧ in_i64 d
  | Pos e | Neg e => literals_ok e
  | Add l r | Sub l r | Mul l r | Div l r => literals_ok l ∧ literals_ok r
  end.

(** The value over unbounded integers, [None] when a denominator or divisor is zero. *)
Fixpoint value (e : expr) : option (Z * Z) :=
  let both (k : Z → Z → Z → Z → option (Z * Z)) (x y : option (Z * Z)) :=
    match x, y with Some (a, b), Some (c, d) => k a b c d | _, _ => None end in
  match e with
  | Int n => Some (n, 1)
  | Make n d => if d =? 0 then None else Some (n, d)
  | Pos e => value e
  | Neg e => match value e with Some (n, d) => Some (- n, d) | None => None end
  | Add l r => both (λ a b c d, Some (a * d + c * b, b * d)) (value l) (value r)
  | Sub l r => both (λ a b c d, Some (a * d - c * b, b * d)) (value l) (value r)
  | Mul l r => both (λ a b c d, Some (a * c, b * d)) (value l) (value r)
  | Div l r => both (λ a b c d, if c =? 0 then None else Some (a * d, b * c)) (value l) (value r)
  end.

(** ** The checked operations are exact *)

(** The result when it is representable, [std::overflow_error] otherwise. *)
Definition checked (z : Z) : res Z := if in_i64b z then Ok z else Throw overflow_error.

Ltac unfold_i64 :=
  unfold checked, i64_div, i64_neg, i64_add, i64_sub, i64_mul, i64, in_i64b, in_i64,
    INT64_MIN, INT64_MAX in *.

(** Decide a range test of the goal with [lia]. *)
Ltac decide_if :=
  match goal with
  | |- context [if ?b then _ else _] =>
      first [ replace b with true by lia
            | replace b with false by lia
            | destruct b eqn:? ]
  end.
Ltac solve_ranges := repeat (progress (simpl res_bind) || decide_if); (reflexivity || lia || (f_equal; lia)).

Lemma absToUint64_abs x : in_i64 x → absToUint64 x = Ok (Z.abs x).
Proof.
  intros H. unfold absToUint64, u64, wrap. unfold_i64.
  destruct (0 <=? x) eqn:E.
  - rewrite Z.mod_small by lia. f_equal. lia.
  - do 2 (decide_if; simpl res_bind).
    rewrite (Z.mod_small (- _)), Z.mod_small by lia. f_equal. lia.
Qed.

Lemma safeNegate_checked x : in_i64 x → safeNegate x = checked (- x).
Proof. intros H. unfold safeNegate. unfold_i64. solve_ranges. Qed.

Lemma safeAdd_checked a b : in_i64 a → in_i64 b → safeAdd a b = checked (a + b).
Proof. intros Ha Hb. unfold safeAdd. unfold_i64. solve_ranges. Qed.

Lemma safeSub_checked a b :
  in_i64 a → in_i64 b → b ≠ INT64_MIN → safeSub a b = checked (a - b).
Proof.
  intros Ha Hb Hm. unfold safeSub.
  replace (b =? INT64_MIN) with false by lia.
  unfold i64_neg. rewrite i64_Ok by (unfold_i64; lia). simpl.
  rewrite safeAdd_checked by (unfold_i64; lia). f_equal.
Qed.

Lemma safeSub_min a : safeSub a INT64_MIN = Throw overflow_error.
Proof. unfold safeSub. by rewrite Z.eqb_refl. Qed.

Lemma i64_div_Ok a b : in_i64 a → b ≠ 0 → b ≠ -1 → i64_div a b = Ok (Z.quot a b).
Proof.
  intros Ha Hb Hm. unfold i64_div.
  replace (b =? 0) with false by lia. apply i64_Ok.
  destruct (decide (b = 1)) as [->|H1]; [by rewrite Z.quot_1_r|].
  pose proof (Z.mul_quot_le (Z.abs a) (Z.abs b)) as Hq.
  rewrite Z.quot_abs in Hq by done. unfold_i64. nia.
Qed.

Lemma safeMul_checked a b : in_i64 a → in_i64 b → safeMul a b = checked (a * b).
Proof.
  intros Ha Hb. unfold safeMul.
  destruct (Z.eqb_spec a 0) as [->|Ha0]; [reflexivity|].
  destruct (Z.eqb_spec b 0) as [->|Hb0]; [by rewrite Z.mul_0_r|]. simpl.
  destruct (Z.eqb_spec a 1) as [->|Ha1]; [rewrite Z.mul_1_l; unfold_i64; solve_ranges|].
  destruct (Z.eqb_spec b 1) as [->|Hb1]; [rewrite Z.mul_1_r; unfold_i64; solve_ranges|].
  destruct (Z.eqb_spec a (-1)) as [->|Ham].
  { rewrite safeNegate_checked by done. f_equal; lia. }
  destruct (Z.eqb_spec b (-1)) as [->|Hbm].
  { rewrite safeNegate_checked by done. f_equal; lia. }
  rewrite !i64_div_Ok by (unfold_i64; lia). simpl.
  pose proof (Z.quot_rem' INT64_MAX b). pose proof (Z.rem_bound_abs INT64_MAX b).
  pose proof (Z.quot_rem' INT64_MIN b). pose proof (Z.rem_bound_abs INT64_MIN b).
  pose proof (Z.quot_rem' INT64_MIN a). pose proof (Z.rem_bound_abs INT64_MIN a).
  pose proof (Z.rem_nonneg INT64_MAX b). pose proof (Z.rem_nonpos INT64_MIN b).
  pose proof (Z.rem_nonpos INT64_MIN a).
  unfold checked, i64_mul, i64.
  destruct (0 <? a) eqn:?, (0 <? b) eqn:?; simpl;
    match goal with |- context [if ?q <? ?p then _ else _] => destruct (q <? p) eqn:? end;
    destruct (in_i64b_spec (a * b)); try reflexivity; exfalso;
    unfold_i64; nia.
Qed.

(** ** The two Euclidean loops *)

Lemma mod_halves a b : 0 < b < a → 2 * (a mod b) < a.
Proof.
  intros H. pose proof (Z.mod_pos_bound a b). pose proof (Z.div_mod a b).
  assert (1 ≤ a / b) by (apply Z.div_le_lower_bound; lia). nia.
Qed.

Lemma gcd_loop_gcd k : ∀ fuel a b,
  0 ≤ a → 0 ≤ b < 2 ^ Z.of_nat k → (2 * k + 1 ≤ fuel)%nat →
  gcd_loop fuel a b = Ok (Z.gcd a b).
Proof.
  induction k as [|k IH]; intros fuel a b Ha Hb Hf.
  - destruct fuel as [|fuel]; [lia|]. simpl in *.
    assert (b = 0) as -> by lia. simpl. rewrite Z.gcd_0_r. f_equal. lia.
  - destruct fuel as [|[|fuel]]; [lia..|]. simpl.
    destruct (Z.eqb_spec b 0) as [->|Hb0].
    { rewrite Z.gcd_0_r. f_equal. lia. }
    pose proof (Z.mod_pos_bound a b ltac:(lia)) as Hr.
    destruct (Z.eqb_spec (a mod b) 0) as [E|Hr0].
    { rewrite (Z.gcd_comm a), <- Z.gcd_mod, E, Z.gcd_0_l by lia. f_equal. lia. }
    pose proof (mod_halves b (a mod b) ltac:(lia)).
    pose proof (Z.mod_pos_bound b (a mod b) ltac:(lia)).
    rewrite Nat2Z.inj_succ, Z.pow_succ_r in Hb by lia.
    rewrite IH by lia. f_equal.
    by rewrite (Z.gcd_comm (a mod b)), !Z.gcd_mod, Z.gcd_comm by lia.
Qed.

Lemma gcdU64_gcd a b : in_u64 a → in_u64 b → gcdU64 a b = Ok (Z.gcd a b).
Proof.
  intros Ha Hb. unfold in_u64 in *.
  apply (gcd_loop_gcd 64); [lia|apply Hb|unfold loop_fuel; lia].
Qed.

(** The order of [a/b] and [c/d], flipped when [reversed]. *)
Definition cmp_frac (reversed : bool) (a b c d : Z) : comparison :=
  let o := a * d ?= c * b in if reversed then CompOpp o else o.

Lemma frac_lt_of_quot a b c d : 0 < b → 0 < d → a / b < c / d → a * d < c * b.
Proof.
  intros Hb Hd Hq.
  pose proof (Z.mul_succ_div_gt a b Hb). pose proof (Z.mul_div_le c d Hd).
  assert (b * d * Z.succ (a / b) ≤ b * d * (c / d)) by (apply Z.mul_le_mono_nonneg_l; lia).
  nia.
Qed.

Lemma compare_quot_ne a b c d :
  0 < b → 0 < d → a / b ≠ c / d →
  (a * d ?= c * b) = if a / b <? c / d then Lt else Gt.
Proof.
  intros. destruct (Z.ltb_spec (a / b) (c / d)).
  - apply Z.compare_lt_iff. by apply frac_lt_of_quot.
  - apply Z.compare_gt_iff. apply frac_lt_of_quot; lia.
Qed.

Lemma compare_quot_eq a b c d :
  0 < b → 0 < d → a / b = c / d →
  (a * d ?= c * b) = (a mod b * d ?= c mod d * b).
Proof.
  intros Hb Hd E.
  rewrite (Z.compare_sub (a * d)), (Z.compare_sub (a mod b * d)). f_equal.
  rewrite !Z.mod_eq, E by lia. ring.
Qed.

Lemma compare_loop_cmp k : ∀ fuel reversed a b c d,
  0 ≤ a → 0 < b < 2 ^ Z.of_nat k → 0 ≤ c → 0 < d → (2 * k ≤ fuel)%nat →
  compare_loop fuel reversed a b c d = Ok (cmp_frac reversed a b c d).
Proof.
  (* one iteration, given that the loop is right on the remainders *)
  assert (Hstep : ∀ fuel reversed a b c d,
    0 ≤ a → 0 < b → 0 ≤ c → 0 < d →
    (0 < a mod b → 0 < c mod d →
       compare_loop fuel (negb reversed) b (a mod b) d (c mod d)
         = Ok (cmp_frac (negb reversed) b (a mod b) d (c mod d))) →
    compare_loop (S fuel) reversed a b c d = Ok (cmp_frac reversed a b c d)).
  { intros fuel reversed a b c d Ha Hb Hc Hd IH. simpl.
    replace (b =? 0) with false by lia. replace (d =? 0) with false by lia. simpl.
    destruct (Z.eqb_spec (a / b) (c / d)) as [E|E]; simpl; unfold cmp_frac.
    - rewrite (compare_quot_eq a b c d) by done.
      pose proof (Z.mod_pos_bound a b Hb). pose proof (Z.mod_pos_bound c d Hd).
      destruct (Z.eqb_spec (a mod b) 0) as [->|Hr1];
        destruct (Z.eqb_spec (c mod d) 0) as [->|Hr2]; simpl.
      + rewrite !Z.mul_0_l. by destruct reversed.
      + rewrite Z.mul_0_l.
        replace (0 ?= c mod d * b) with Lt by (symmetry; apply Z.compare_lt_iff; nia).
        by destruct reversed.
      + rewrite Z.mul_0_l.
        replace (a mod b * d ?= 0) with Gt by (symmetry; apply Z.compare_gt_iff; nia).
        by destruct reversed.
      + rewrite IH by lia. f_equal. unfold cmp_frac.
        rewrite (Z.compare_antisym (d * (a mod b))), (Z.mul_comm b), (Z.mul_comm d).
        destruct reversed; simpl; by rewrite ?CompOpp_involutive.
    - rewrite (compare_quot_ne a b c d) by done.
      by destruct (_ <? _), reversed. }
  induction k as [|k IH]; intros fuel reversed a b c d Ha Hb Hc Hd Hf.
  { simpl in Hb. lia. }
  destruct fuel as [|[|fuel]]; [lia..|].
  pose proof (Z.mod_pos_bound a b ltac:(lia)).
  rewrite Nat2Z.inj_succ, Z.pow_succ_r in Hb by lia.
  apply Hstep; [lia..|]. intros. apply Hstep; [lia..|]. intros.
  pose proof (mod_halves b (a mod b) ltac:(lia)). apply IH; lia.
Qed.

Lemma compareUnsignedFractions_cmp a b c d :
  in_u64 a → in_u64 b → in_u64 c → in_u64 d → 0 < b → 0 < d →
  compareUnsignedFractions a b c d = Ok (a * d ?= c * b).
Proof.
  unfold in_u64. intros. unfold compareUnsignedFractions.
  rewrite (compare_loop_cmp 64) by (unfold loop_fuel; lia). done.
Qed.

(** ** Canonical form *)

(** The class invariant: a positive denominator in lowest terms, both members
    64-bit. *)
Definition wf (f : Fraction) : Prop :=
  in_i64 (num_ f) ∧ in_i64 (den_ f) ∧ 0 < den_ f ∧ Z.gcd (num_ f) (den_ f) = 1.

(** The canonical representative of [n/d] over unbounded integers. *)
Definition reduced (n d : Z) : Fraction :=
  let g := Z.gcd n d in mkFraction (Z.sgn d * (n / g)) (Z.abs d / g).

Definition fits (f : Fraction) : bool := in_i64b (num_ f) && in_i64b (den_ f).

(** [f] denotes the rational [n/d]. *)
Definition denotes (f : Fraction) (n d : Z) : Prop := num_ f * d = n * den_ f.

Lemma gcd_pos_r n d : d ≠ 0 → 0 < Z.gcd n d.
Proof.
  intros Hd. pose proof (Z.gcd_nonneg n d).
  assert (Z.gcd n d ≠ 0) by (intros E; apply Z.gcd_eq_0 in E; lia). lia.
Qed.

Lemma gcd_le_r n d : 0 < d → Z.gcd n d ≤ d.
Proof. intros. apply Z.divide_pos_le; [done|apply Z.gcd_divide_r]. Qed.

(** [n = g * (n / g)] for a divisor [g]. *)
Lemma div_exact_mul g n : 0 < g → (g | n) → n = g * (n / g).
Proof. intros Hg [k ->]. rewrite Z.div_mul by lia. ring. Qed.

Lemma gcd_div_self n d : d ≠ 0 → Z.gcd (n / Z.gcd n d) (d / Z.gcd n d) = 1.
Proof. intros Hd. apply Z.gcd_div_gcd; [|done]. pose proof (gcd_pos_r n d Hd). lia. Qed.

Lemma reduced_coprime n d : d ≠ 0 →
  0 < den_ (reduced n d) ∧ Z.gcd (num_ (reduced n d)) (den_ (reduced n d)) = 1 ∧
  denotes (reduced n d) n d.
Proof.
  intros Hd. unfold reduced, denotes. simpl.
  pose proof (gcd_pos_r n d Hd) as Hg. pose proof (gcd_div_self n d Hd) as H1.
  pose proof (div_exact_mul _ n Hg (Z.gcd_divide_l n d)) as Hn.
  pose proof (div_exact_mul _ d Hg (Z.gcd_divide_r n d)) as Hdd.
  set (g := Z.gcd n d) in *. set (n' := n / g) in *. set (d' := d / g) in *.
  assert (Habs : Z.abs d / g = Z.abs d').
  { rewrite Hdd at 1. rewrite Z.abs_mul, (Z.abs_eq g), Z.mul_comm, Z.div_mul by lia. done. }
  rewrite Habs. assert (d' ≠ 0) by nia.
  assert (Hs : Z.sgn d = Z.sgn d') by (rewrite Hdd, Z.sgn_mul, (Z.sgn_pos g) by lia; lia).
  rewrite Hs. split_and!; [lia| |].
  - destruct (Z.lt_ge_cases d' 0).
    + rewrite Z.sgn_neg, Z.gcd_abs_r by lia.
      by replace (-1 * n') with (- n') by lia; rewrite Z.gcd_opp_l.
    + by rewrite Z.sgn_pos, Z.mul_1_l, Z.gcd_abs_r by lia.
  - destruct (Z.lt_ge_cases d' 0);
      [rewrite Z.sgn_neg by lia|rewrite Z.sgn_pos by lia]; nia.
Qed.

Lemma reduced_wf n d : d ≠ 0 → fits (reduced n d) = true → wf (reduced n d).
Proof.
  intros Hd Hf. destruct (reduced_coprime n d Hd) as (? & ? & _).
  unfold fits in Hf. apply andb_prop in Hf as [H1 H2].
  destruct (in_i64b_spec (num_ (reduced n d))), (in_i64b_spec (den_ (reduced n d)));
    done.
Qed.

Lemma gcdAbs_checked x y : in_i64 x → in_i64 y → gcdAbs x y = checked (Z.gcd x y).
Proof.
  intros Hx Hy. unfold gcdAbs. rewrite !absToUint64_abs by done. simpl.
  rewrite gcdU64_gcd by (unfold in_u64, in_i64, INT64_MIN, INT64_MAX in *; lia).
  rewrite Z.gcd_abs_l, Z.gcd_abs_r. simpl.
  pose proof (Z.gcd_nonneg x y). unfold safeCastU64ToI64.
  rewrite u64_small by done. unfold_i64. solve_ranges.
Qed.

Lemma gcdAbs_Ok x y : in_i64 x → in_i64 y → 0 < y → gcdAbs x y = Ok (Z.gcd x y).
Proof.
  intros Hx Hy Hp. rewrite gcdAbs_checked by done. unfold checked.
  pose proof (gcd_le_r x y Hp). pose proof (Z.gcd_nonneg x y).
  destruct (in_i64b_spec (Z.gcd x y)); [done|]. unfold_i64. lia.
Qed.

Lemma i64_div_exact n g : in_i64 n → 0 < g → (g | n) → i64_div n g = Ok (n / g).
Proof.
  intros Hn Hg [k ->]. rewrite i64_div_Ok by (done || lia).
  by rewrite Z.quot_mul, Z.div_mul by lia.
Qed.

Lemma div_in_i64 n g : in_i64 n → 0 < g → (g | n) → in_i64 (n / g).
Proof. intros Hn Hg [k ->]. rewrite Z.div_mul by lia. unfold_i64. nia. Qed.

(** With a positive denominator normalization never throws. *)
Lemma normalize_pos n d : in_i64 n → in_i64 d → 0 < d →
  normalize (mkFraction n d) = (Ok tt, reduced n d).
Proof.
  intros Hn Hd Hp. unfold normalize, bind, get. simpl.
  replace (d =? 0) with false by lia.
  destruct (Z.eqb_spec n 0) as [->|Hn0].
  - unfold reduced. rewrite Z.gcd_0_l, Z.sgn_pos, Z.abs_eq, Z.div_0_l, Z.div_same by lia.
    done.
  - pose proof (gcd_pos_r n d ltac:(lia)) as Hg.
    pose proof (Z.gcd_divide_l n d). pose proof (Z.gcd_divide_r n d).
    unfold lift, set_num, set_den, modify, ret. rewrite gcdAbs_Ok by done.
    rewrite !i64_div_exact by done. simpl.
    assert (0 < d / Z.gcd n d).
    { apply Z.div_str_pos. split; [done|]. by apply gcd_le_r. }
    replace (d / Z.gcd n d <? 0) with false by lia.
    unfold reduced. by rewrite Z.sgn_pos, Z.abs_eq, Z.mul_1_l by lia.
Qed.

(** ** Canonical forms are unique *)

Lemma coprime_divide n d m : Z.gcd n d = 1 → (d | n * m) → (d | m).
Proof. intros H Hd. apply (Z.gauss _ n); [done|]. by rewrite Z.gcd_comm. Qed.

Lemma canonical_unique n d n' d' :
  0 < d → 0 < d' → Z.gcd n d = 1 → Z.gcd n' d' = 1 → n * d' = n' * d → n = n' ∧ d = d'.
Proof.
  intros Hd Hd' Hg Hg' E.
  assert (d = d') as <-.
  { apply Z.divide_antisym_nonneg; [lia..| |].
    - apply (coprime_divide n); [done|]. exists n'. lia.
    - apply (coprime_divide n'); [done|]. exists n. lia. }
  split; [|done]. nia.
Qed.

Lemma reduced_unique n d n' d' :
  d ≠ 0 → 0 < d' → Z.gcd n' d' = 1 → n' * d = n * d' → reduced n d = mkFraction n' d'.
Proof.
  intros Hd Hd' Hg E. destruct (reduced_coprime n d Hd) as (Hp & Hc & Hden).
  destruct (reduced n d) as [rn rd]. unfold denotes in Hden. simpl in *.
  destruct (canonical_unique rn rd n' d') as [-> ->]; try done. nia.
Qed.

Lemma reduced_scale g n d : 0 < g → d ≠ 0 → reduced (n * g) (d * g) = reduced n d.
Proof.
  intros Hg Hd. destruct (reduced_coprime n d Hd) as (Hp & Hc & Hden).
  unfold denotes in Hden. destruct (reduced n d) as [rn rd]. simpl in *.
  apply reduced_unique; try done; nia.
Qed.

Lemma coprime_mul a b c d :
  Z.gcd a b = 1 → Z.gcd a d = 1 → Z.gcd c b = 1 → Z.gcd c d = 1 →
  Z.gcd (a * c) (b * d) = 1.
Proof.
  intros. apply Z.coprime_mul_l; by apply Z.coprime_mul_r.
Qed.

Lemma gcd_1_div a b p q : (p | a) → (q | b) → Z.gcd a b = 1 → Z.gcd p q = 1.
Proof.
  intros Hp Hq H. apply Z.divide_1_r_nonneg; [apply Z.gcd_nonneg|].
  rewrite <- H. apply Z.gcd_greatest; (etrans; [|done]).
  - apply Z.gcd_divide_l.
  - apply Z.gcd_divide_r.
Qed.

Lemma div_divide g n : 0 < g → (g | n) → (n / g | n).
Proof. intros Hg [k ->]. rewrite Z.div_mul by lia. exists g. ring. Qed.

(** Cross-cancelling before multiplying gives lowest terms at once. *)
Lemma cross_reduced n1 d1 n2 d2 :
  0 < d1 → 0 < d2 → Z.gcd n1 d1 = 1 → Z.gcd n2 d2 = 1 →
  let g1 := Z.gcd n1 d2 in let g2 := Z.gcd n2 d1 in
  reduced (n1 * n2) (d1 * d2) =
    mkFraction (n1 / g1 * (n2 / g2)) (d1 / g2 * (d2 / g1)).
Proof.
  intros H1 H2 C1 C2 g1 g2.
  pose proof (gcd_pos_r n1 d2 ltac:(lia)) as Hg1.
  pose proof (gcd_pos_r n2 d1 ltac:(lia)) as Hg2. fold g1 in Hg1. fold g2 in Hg2.
  pose proof (Z.gcd_divide_l n1 d2). pose proof (Z.gcd_divide_r n1 d2).
  pose proof (Z.gcd_divide_l n2 d1). pose proof (Z.gcd_divide_r n2 d1).
  pose proof (div_exact_mul g1 n1 Hg1 ltac:(done)) as En1.
  pose proof (div_exact_mul g1 d2 Hg1 ltac:(done)) as Ed2.
  pose proof (div_exact_mul g2 n2 Hg2 ltac:(done)) as En2.
  pose proof (div_exact_mul g2 d1 Hg2 ltac:(done)) as Ed1.
  apply reduced_unique; [nia|nia| |].
  - apply coprime_mul.
    + eapply gcd_1_div; [..|exact C1]; by apply div_divide.
    + by apply gcd_div_self; lia.
    + by apply gcd_div_self; lia.
    + eapply gcd_1_div; [..|exact C2]; by apply div_divide.
  - clear -En1 En2 Ed1 Ed2. clearbody g1 g2.
    generalize dependent (n1 / g1). generalize dependent (n2 / g2).
    generalize dependent (d1 / g2). generalize dependent (d2 / g1).
    intros. subst. ring.
Qed.

(** ** Constructor *)

Lemma fits_reduced_pos n d : in_i64 n → in_i64 d → 0 < d → fits (reduced n d) = true.
Proof.
  intros Hn Hd Hp. pose proof (gcd_pos_r n d ltac:(lia)) as Hg.
  unfold fits, reduced. simpl. rewrite Z.sgn_pos, Z.abs_eq, Z.mul_1_l by lia.
  pose proof (div_in_i64 n _ Hn Hg (Z.gcd_divide_l n d)).
  pose proof (div_in_i64 d _ Hd Hg (Z.gcd_divide_r n d)).
  apply andb_true_iff.
  by destruct (in_i64b_spec (n / Z.gcd n d)), (in_i64b_spec (d / Z.gcd n d)).
Qed.

(** A 64-bit gcd overflows [int64] only for [INT64_MIN / INT64_MIN]. *)
Lemma gcd_in_i64 n d : in_i64 n → in_i64 d → n ≠ 0 → d ≠ 0 →
  in_i64b (Z.gcd n d) = negb ((n =? INT64_MIN) && (d =? INT64_MIN)).
Proof.
  intros Hn Hd Hn0 Hd0.
  pose proof (Z.gcd_nonneg n d).
  assert (Z.gcd n d ≤ Z.abs n).
  { apply Z.divide_pos_le; [lia|]. apply Z.divide_abs_r, Z.gcd_divide_l. }
  assert (Z.gcd n d ≤ Z.abs d).
  { apply Z.divide_pos_le; [lia|]. apply Z.divide_abs_r, Z.gcd_divide_r. }
  destruct (Z.eqb_spec n INT64_MIN) as [->|]; [|unfold_i64; lia].
  destruct (Z.eqb_spec d INT64_MIN) as [->|]; [done|unfold_i64; lia].
Qed.

(** For a negative denominator normalization negates both members, unless that
    overflows. *)
Lemma normalize_neg n d : in_i64 n → in_i64 d → n ≠ 0 → d < 0 →
  fst (normalize (mkFraction n d)) =
    (if (n =? INT64_MIN) && (d =? INT64_MIN) then Throw overflow_error
     else if fits (reduced n d) then Ok tt else Throw overflow_error) ∧
  (fst (normalize (mkFraction n d)) = Ok tt →
     snd (normalize (mkFraction n d)) = reduced n d).
Proof.
  intros Hn Hd Hn0 Hneg. unfold normalize, bind, get, lift. simpl.
  replace (d =? 0) with false by lia. replace (n =? 0) with false by lia.
  rewrite gcdAbs_checked by done. unfold checked. rewrite gcd_in_i64 by (done || lia).
  destruct ((n =? INT64_MIN) && (d =? INT64_MIN)); simpl; [done|].
  pose proof (gcd_pos_r n d ltac:(lia)) as Hg.
  pose proof (div_exact_mul _ d Hg (Z.gcd_divide_r n d)) as Ed.
  pose proof (div_in_i64 n _ Hn Hg (Z.gcd_divide_l n d)).
  pose proof (div_in_i64 d _ Hd Hg (Z.gcd_divide_r n d)).
  assert (d / Z.gcd n d < 0) by nia.
  assert (Z.abs d / Z.gcd n d = - (d / Z.gcd n d)) as Ha.
  { rewrite Z.abs_neq by lia. rewrite Ed at 1. rewrite Z.mul_comm, <- Z.mul_opp_l.
    by rewrite Z.div_mul by lia. }
  rewrite !i64_div_exact by (done || apply Z.gcd_divide_l || apply Z.gcd_divide_r).
  simpl. replace (d / Z.gcd n d <? 0) with true by lia.
  unfold fits, reduced. simpl. rewrite Ha, Z.sgn_neg by lia.
  set (d' := d / Z.gcd n d) in *. set (n' := n / Z.gcd n d) in *.
  replace (-1 * n') with (- n') by lia.
  rewrite safeNegate_checked by done. unfold set_num, set_den, modify, throw.
  clearbody d' n'. unfold_i64.
  repeat (decide_if; simpl); split; (done || lia).
Qed.

Lemma Fraction_make_full n d : in_i64 n → in_i64 d → d ≠ 0 →
  Fraction_make n d =
    if (n =? INT64_MIN) && (d =? INT64_MIN) then Throw overflow_error
    else if fits (reduced n d) then Ok (reduced n d) else Throw overflow_error.
Proof.
  intros Hn Hd Hd0. unfold Fraction_make.
  destruct (Z.lt_ge_cases d 0) as [Hneg|Hpos].
  - destruct (decide (n = 0)) as [->|Hn0].
    + unfold normalize, bind, get. simpl. replace (d =? 0) with false by lia. simpl.
      replace (reduced 0 d) with (mkFraction 0 1); [done|].
      symmetry. apply reduced_unique; done || lia.
    + destruct (normalize_neg n d) as [Hf Hs]; try done.
      destruct (normalize (mkFraction n d)) as [r f']. simpl in *. rewrite Hf in Hs |- *.
      destruct (_ && _); [done|]. destruct (fits _); [|done]. by rewrite Hs.
  - rewrite normalize_pos by (done || lia).
    rewrite fits_reduced_pos by (done || lia).
    replace ((n =? INT64_MIN) && (d =? INT64_MIN)) with false; [done|].
    unfold_i64. lia.
Qed.

(** ** Addition and subtraction *)

(** The common text of [operator+=] and [operator-=]. *)
Definition add_sub (op : Z → Z → res Z) (other : Fraction) : M Fraction () :=
  let! f := get in
  let! g := lift (gcdAbs (den_ f) (den_ other)) in
  let! left_mul := lift (i64_div (den_ other) g) in
  let! right_mul := lift (i64_div (den_ f) g) in
  let! l := lift (safeMul (num_ f) left_mul) in
  let! r := lift (safeMul (num_ other) right_mul) in
  let! new_num := lift (op l r) in
  let! new_den := lift (safeMul (den_ f) left_mul) in
  set_num new_num;;;
  set_den new_den;;;
  normalize.

(** The scaled numerators and the common denominator of [f] and [o]. *)
Definition scaled_l (f o : Fraction) : Z := num_ f * (den_ o / Z.gcd (den_ f) (den_ o)).
Definition scaled_r (f o : Fraction) : Z := num_ o * (den_ f / Z.gcd (den_ f) (den_ o)).
Definition common_den (f o : Fraction) : Z := den_ f * (den_ o / Z.gcd (den_ f) (den_ o)).

Lemma scaled_facts f o : wf f → wf o → let g := Z.gcd (den_ f) (den_ o) in
  0 < g ∧ 0 < common_den f o ∧
  scaled_l f o * g = num_ f * den_ o ∧ scaled_r f o * g = num_ o * den_ f ∧
  common_den f o * g = den_ f * den_ o.
Proof.
  intros (_ & _ & Hf & _) (_ & _ & Ho & _) g.
  unfold scaled_l, scaled_r, common_den. fold g.
  pose proof (gcd_pos_r (den_ f) (den_ o) ltac:(lia)) as Hg. fold g in Hg.
  pose proof (div_exact_mul g (den_ f) Hg (Z.gcd_divide_l _ _)) as E1.
  pose proof (div_exact_mul g (den_ o) Hg (Z.gcd_divide_r _ _)) as E2.
  split_and!; nia.
Qed.

Lemma add_sub_spec op h f o : wf f → wf o →
  (∀ a b, in_i64 a → in_i64 b → op a b = Ok (h a b) ∧ in_i64 (h a b) ∨
                                 op a b = Throw overflow_error) →
  add_sub op o f =
    (if in_i64b (scaled_l f o) && in_i64b (scaled_r f o) && in_i64b (common_den f o)
     then match op (scaled_l f o) (scaled_r f o) with
          | Ok n => (Ok tt, reduced n (common_den f o))
          | _ => (Throw overflow_error, f)
          end
     else (Throw overflow_error, f)).
Proof.
  intros Hf Ho Hop. destruct (scaled_facts f o Hf Ho) as (Hg & Hc & _).
  destruct Hf as (Hn & Hd & Hp & _), Ho as (Hn' & Hd' & Hp' & _).
  unfold add_sub, bind, get, lift. rewrite gcdAbs_Ok by done.
  pose proof (div_in_i64 _ _ Hd Hg (Z.gcd_divide_l _ _)).
  pose proof (div_in_i64 _ _ Hd' Hg (Z.gcd_divide_r _ _)).
  rewrite !i64_div_exact by (done || apply Z.gcd_divide_l || apply Z.gcd_divide_r).
  rewrite !safeMul_checked by done.
  fold (scaled_l f o). fold (scaled_r f o). fold (common_den f o).
  set (l := scaled_l f o) in *. set (r := scaled_r f o) in *. set (c := common_den f o) in *.
  unfold checked.
  destruct (in_i64b_spec l) as [Hl|]; simpl; [|done].
  destruct (in_i64b_spec r) as [Hr|]; simpl; [|done].
  destruct (Hop l r Hl Hr) as [[-> Hh]| ->]; simpl.
  - destruct (in_i64b_spec c); simpl; [|done]. by rewrite normalize_pos.
  - by destruct (in_i64b c).
Qed.

Lemma reduced_common f o n n' : wf f → wf o →
  n * Z.gcd (den_ f) (den_ o) = n' →
  reduced n (common_den f o) = reduced n' (den_ f * den_ o).
Proof.
  intros Hf Ho <-. destruct (scaled_facts f o Hf Ho) as (Hg & Hc & _ & _ & <-).
  symmetry. apply reduced_scale; lia.
Qed.

Lemma wf_reduced_pos n d : in_i64 n → in_i64 d → 0 < d → wf (reduced n d).
Proof. intros. apply reduced_wf; [lia|]. by apply fits_reduced_pos. Qed.

Lemma op_add_assign_eq f o : wf f → wf o →
  op_add_assign o f =
    if in_i64b (scaled_l f o) && in_i64b (scaled_r f o) && in_i64b (common_den f o)
       && in_i64b (scaled_l f o + scaled_r f o)
    then (Ok tt, reduced (num_ f * den_ o + num_ o * den_ f) (den_ f * den_ o))
    else (Throw overflow_error, f).
Proof.
  intros Hf Ho. change (op_add_assign o) with (add_sub safeAdd o).
  rewrite (add_sub_spec _ Z.add) by (done || intros a b Ha Hb;
    rewrite safeAdd_checked by done; unfold checked;
    destruct (in_i64b_spec (a + b)); auto).
  destruct (in_i64b_spec (scaled_l f o)); simpl; [|done].
  destruct (in_i64b_spec (scaled_r f o)); simpl; [|done].
  destruct (in_i64b (common_den f o)); simpl; [|done].
  rewrite safeAdd_checked by done. unfold checked.
  destruct (in_i64b (_ + _)); [|done]. f_equal.
  apply reduced_common; [done..|]. destruct (scaled_facts f o Hf Ho). nia.
Qed.

Lemma op_sub_assign_eq f o : wf f → wf o →
  op_sub_assign o f =
    if in_i64b (scaled_l f o) && in_i64b (scaled_r f o) && in_i64b (common_den f o)
       && negb (scaled_r f o =? INT64_MIN) && in_i64b (scaled_l f o - scaled_r f o)
    then (Ok tt, reduced (num_ f * den_ o - num_ o * den_ f) (den_ f * den_ o))
    else (Throw overflow_error, f).
Proof.
  intros Hf Ho. change (op_sub_assign o) with (add_sub safeSub o).
  rewrite (add_sub_spec _ Z.sub); [|done..|].
  - destruct (in_i64b_spec (scaled_l f o)); simpl; [|done].
    destruct (in_i64b_spec (scaled_r f o)); simpl; [|done].
    destruct (in_i64b (common_den f o)); simpl; [|done].
    destruct (Z.eqb_spec (scaled_r f o) INT64_MIN) as [->|]; simpl; [done|].
    rewrite safeSub_checked by done. unfold checked.
    destruct (in_i64b (_ - _)); [|done]. f_equal.
    apply reduced_common; [done..|]. destruct (scaled_facts f o Hf Ho). nia.
  - intros a b Ha Hb. destruct (decide (b = INT64_MIN)) as [->|]; [by right|].
    rewrite safeSub_checked by done. unfold checked.
    destruct (in_i64b_spec (a - b)); auto.
Qed.

(** ** Multiplication and division *)

(** Multiplication is exact and complete: on canonical operands [operator*]
    returns the canonical product whenever both of its members are 64-bit
    representable, and throws [std::overflow_error] otherwise; it never overflows
    on an intermediate value. *)
Lemma mul_exact f o : wf f → wf o →
  op_mul f o = if fits (reduced (num_ f * num_ o) (den_ f * den_ o))
               then Ok (reduced (num_ f * num_ o) (den_ f * den_ o))
               else Throw overflow_error.
Proof.
  destruct f as [n1 d1], o as [n2 d2].
  intros (Hn1 & Hd1 & Hp1 & C1) (Hn2 & Hd2 & Hp2 & C2). simpl in *.
  unfold op_mul, by_value, op_mul_assign, bind, get. simpl.
  destruct (Z.eqb_spec n1 0) as [->|Hz1]; simpl.
  { replace (reduced (0 * n2) _) with (mkFraction 0 1); [done|].
    symmetry. apply reduced_unique; done || nia. }
  destruct (Z.eqb_spec n2 0) as [->|Hz2]; simpl.
  { replace (reduced (n1 * 0) _) with (mkFraction 0 1); [done|].
    symmetry. apply reduced_unique; done || nia. }
  unfold lift. rewrite !gcdAbs_Ok by done.
  pose proof (gcd_pos_r n1 d2 ltac:(lia)). pose proof (gcd_pos_r n2 d1 ltac:(lia)).
  pose proof (Z.gcd_divide_l n1 d2). pose proof (Z.gcd_divide_r n1 d2).
  pose proof (Z.gcd_divide_l n2 d1). pose proof (Z.gcd_divide_r n2 d1).
  rewrite !i64_div_exact by done. simpl. rewrite !safeMul_checked by by apply div_in_i64.
  pose proof (reduced_coprime (n1 * n2) (d1 * d2) ltac:(nia)) as (Hp & Hc & _).
  rewrite (cross_reduced n1 d1 n2 d2) in * by done. unfold fits, checked. simpl in *.
  set (n := n1 / _ * _) in *. set (d := d1 / _ * _) in *. clearbody n d.
  destruct (in_i64b_spec n); simpl; [|done].
  destruct (in_i64b_spec d); simpl; [|done].
  rewrite normalize_pos by done. f_equal. apply reduced_unique; done || lia.
Qed.

(** Division on canonical operands returns a canonical fraction that denotes
    the exact quotient; it throws [std::domain_error] exactly for a zero divisor
    and [std::overflow_error] otherwise, and never has undefined behaviour. *)
Lemma div_exact f o : wf f → wf o →
  match op_div f o with
  | Ok q => num_ o ≠ 0 ∧ wf q ∧ denotes q (num_ f * den_ o) (den_ f * num_ o)
  | Throw e => e = if num_ o =? 0 then domain_error else overflow_error
  | _ => False
  end.
Proof.
  destruct f as [n1 d1], o as [n2 d2].
  intros (Hn1 & Hd1 & Hp1 & C1) (Hn2 & Hd2 & Hp2 & C2). simpl in *.
  unfold op_div, by_value, op_div_assign, bind, get. simpl.
  destruct (Z.eqb_spec n2 0) as [->|Hz2]; simpl; [done|].
  destruct (Z.eqb_spec n1 0) as [->|Hz1]; simpl.
  { split_and!; [done| |unfold denotes; simpl; lia].
    unfold wf, in_i64; simpl. unfold_i64. split_and!; (done || lia). }
  unfold lift. rewrite gcdAbs_checked by done. unfold checked at 1.
  destruct (in_i64b (Z.gcd n1 n2)); simpl; [|done].
  pose proof (gcd_pos_r n1 n2 ltac:(lia)) as Hg1.
  pose proof (gcd_pos_r d2 d1 ltac:(lia)) as Hg2.
  pose proof (Z.gcd_divide_l n1 n2) as D1. pose proof (Z.gcd_divide_r n1 n2) as D2.
  pose proof (Z.gcd_divide_l d2 d1) as D3. pose proof (Z.gcd_divide_r d2 d1) as D4.
  rewrite gcdAbs_Ok by done.
  rewrite !i64_div_exact by done. simpl. rewrite !safeMul_checked by by apply div_in_i64.
  pose proof (div_exact_mul _ n1 Hg1 D1). pose proof (div_exact_mul _ n2 Hg1 D2).
  pose proof (div_exact_mul _ d2 Hg2 D3). pose proof (div_exact_mul _ d1 Hg2 D4).
  set (g1 := Z.gcd n1 n2) in *. set (g2 := Z.gcd d2 d1) in *.
  set (a := n1 / g1) in *. set (c := n2 / g1) in *. set (d := d2 / g2) in *.
  set (b := d1 / g2) in *. clearbody a b c d g1 g2. unfold checked.
  destruct (in_i64b_spec (a * d)) as [Hn|]; simpl; [|done].
  destruct (in_i64b_spec (b * c)) as [Hd|]; simpl; [|done].
  assert (b * c ≠ 0) as Hbc by nia.
  pose proof (Fraction_make_full (a * d) (b * c) Hn Hd Hbc) as Hm.
  unfold Fraction_make in Hm.
  destruct (normalize _) as [[u|e| |] q]; simpl in *; revert Hm;
    (destruct (_ && _); [|destruct (fits _) eqn:Hfit]); intros Hm; simplify_eq; try done.
  destruct (reduced_coprime (a * d) (b * c) Hbc) as (_ & _ & Hden).
  unfold denotes in Hden |- *.
  split_and!; [done|by apply reduced_wf|].
  subst.
  transitivity (num_ (reduced (a * d) (b * c)) * (b * c) * (g1 * g2)); [ring|].
  rewrite Hden. ring.
Qed.

(** ** Comparison *)

#[local] Opaque compareUnsignedFractions.

Lemma spaceship_abs n1 d1 n2 d2 : wf (mkFraction n1 d1) → wf (mkFraction n2 d2) →
  (let? lhs_abs := absToUint64 n1 in
   let? rhs_abs := absToUint64 n2 in
   compareUnsignedFractions lhs_abs (u64 d1) rhs_abs (u64 d2))
  = Ok (Z.abs n1 * d2 ?= Z.abs n2 * d1).
Proof.
  intros (Hn1 & Hd1 & Hp1 & _) (Hn2 & Hd2 & Hp2 & _). simpl in *.
  rewrite !absToUint64_abs by done. simpl.
  rewrite !u64_small by (unfold in_u64; unfold_i64; lia).
  rewrite compareUnsignedFractions_cmp by (unfold in_u64; unfold_i64; lia). done.
Qed.

Lemma op_spaceship_cmp f o : wf f → wf o →
  op_spaceship f o = Ok (num_ f * den_ o ?= num_ o * den_ f).
Proof.
  destruct f as [n1 d1], o as [n2 d2]. intros Hf Ho.
  pose proof (spaceship_abs n1 d1 n2 d2 Hf Ho) as Habs.
  destruct Hf as (Hn1 & Hd1 & Hp1 & _), Ho as (Hn2 & Hd2 & Hp2 & _).
  unfold op_spaceship. cbn [num_ den_] in *.
  destruct (_ && _) eqn:E.
  { assert (n1 = n2) as -> by lia. assert (d1 = d2) as -> by lia.
    by rewrite Z.compare_refl. }
  rewrite !absToUint64_abs in Habs |- * by done. cbn [res_bind] in *.
  rewrite Habs. cbn [res_bind]. clear Habs.
  destruct (Z.ltb_spec n1 0), (Z.ltb_spec n2 0).
  - replace (0 <=? n2) with false by lia. replace (0 <=? n1) with false by lia. simpl.
    rewrite !Z.abs_neq, !Z.mul_opp_l, Z.compare_opp by lia.
    rewrite (Z.compare_antisym (n1 * d2)). by destruct (n1 * d2 ?= n2 * d1).
  - replace (0 <=? n2) with true by lia. simpl. f_equal. symmetry.
    apply Z.compare_lt_iff. nia.
  - replace (0 <=? n1) with true by lia. simpl. rewrite ?andb_false_l.
    f_equal. symmetry. apply Z.compare_gt_iff. nia.
  - replace (0 <=? n1) with true by lia. simpl. by rewrite !Z.abs_eq by lia.
Qed.

(** C36: Comparison is exact: on canonical operands [operator<=>] returns the order
    of the two rationals (the 128-bit cross products, which the code never forms),
    and [operator==] holds exactly when the rationals are equal. *)
Theorem compare_exact f o : wf f → wf o →
  op_spaceship f o = Ok (num_ f * den_ o ?= num_ o * den_ f) ∧
  (op_eq f o = true ↔ num_ f * den_ o = num_ o * den_ f).
Proof.
  intros Hf Ho. split; [by apply op_spaceship_cmp|].
  destruct f as [n1 d1], o as [n2 d2].
  destruct Hf as (_ & _ & Hp1 & C1), Ho as (_ & _ & Hp2 & C2). unfold op_eq. simpl in *.
  rewrite andb_true_iff, !Z.eqb_eq. split; [by intros [-> ->]|].
  by apply canonical_unique.
Qed.

(** Addition and subtraction on canonical operands: the operator either stores
    the canonical form of the exact sum (difference) and leaves a canonical object,
    or throws [std::overflow_error] and leaves the object as it was (the strong
    guarantee); which of the two happens is decided by whether the scaled
    numerators, their sum (difference) and the common denominator are 64-bit. *)
Lemma add_sub_assign_exact f o : wf f → wf o →
  op_add_assign o f =
    (if in_i64b (scaled_l f o) && in_i64b (scaled_r f o) && in_i64b (common_den f o)
        && in_i64b (scaled_l f o + scaled_r f o)
     then (Ok tt, reduced (num_ f * den_ o + num_ o * den_ f) (den_ f * den_ o))
     else (Throw overflow_error, f)) ∧
  op_sub_assign o f =
    (if in_i64b (scaled_l f o) && in_i64b (scaled_r f o) && in_i64b (common_den f o)
        && negb (scaled_r f o =? INT64_MIN) && in_i64b (scaled_l f o - scaled_r f o)
     then (Ok tt, reduced (num_ f * den_ o - num_ o * den_ f) (den_ f * den_ o))
     else (Throw overflow_error, f)) ∧
  wf (snd (op_add_assign o f)) ∧ wf (snd (op_sub_assign o f)).
Proof.
  intros Hf Ho. rewrite op_add_assign_eq, op_sub_assign_eq by done.
  destruct (scaled_facts f o Hf Ho) as (Hg & Hc & El & Er & _).
  split_and!; [done..| |].
  - rewrite <- (reduced_common f o (scaled_l f o + scaled_r f o)) by (done || nia).
    destruct (_ && in_i64b (_ + _)) eqn:E; [|done]. simpl.
    repeat (apply andb_prop in E as [E ?]). apply wf_reduced_pos; unfold_i64; lia.
  - rewrite <- (reduced_common f o (scaled_l f o - scaled_r f o)) by (done || nia).
    destruct (_ && in_i64b (_ - _)) eqn:E; [|done]. simpl.
    repeat (apply andb_prop in E as [E ?]). apply wf_reduced_pos; unfold_i64; lia.
Qed.

(** The two-argument constructor: [std::invalid_argument] for a zero
    denominator, otherwise the canonical form of [n/d] when it is 64-bit
    representable and [std::overflow_error] when it is not, with the one
    exception of [INT64_MIN / INT64_MIN], which throws although it equals 1. *)
Lemma make_exact n d : in_i64 n → in_i64 d →
  Fraction_make n d =
    (if d =? 0 then Throw invalid_argument
     else if (n =? INT64_MIN) && (d =? INT64_MIN) then Throw overflow_error
     else if fits (reduced n d) then Ok (reduced n d) else Throw overflow_error) ∧
  (∀ f, Fraction_make n d = Ok f → wf f ∧ denotes f n d).
Proof.
  intros Hn Hd. destruct (Z.eqb_spec d 0) as [->|Hd0]; [done|].
  rewrite Fraction_make_full by done. split; [done|]. intros f.
  destruct (_ && _); [done|]. destruct (fits _) eqn:E; [|done]. intros [= <-].
  split; [by apply reduced_wf|]. by apply reduced_coprime.
Qed.

(** ** Expressions *)

(** An outcome for the value [v]: a canonical fraction that denotes it, or an exception, which
    is [overflow_error] whenever there is a value. *)
Definition sound (r : res Fraction) (v : option (Z * Z)) : Prop :=
  match r with
  | Ok f => wf f ∧ ∃ n d, v = Some (n, d) ∧ d ≠ 0 ∧ denotes f n d
  | Throw e => e = overflow_error ∨ v = None ∧ (e = domain_error ∨ e = invalid_argument)
  | _ => False
  end.

Lemma make_sound n d : in_i64 n → in_i64 d → sound (Fraction_make n d) (if d =? 0 then None else Some (n, d)).
Proof.
  intros Hn Hd. destruct (make_exact n d Hn Hd) as [E Hok].
  destruct (Z.eqb_spec d 0) as [->|Hd0]; [rewrite E; right; by auto|].
  destruct (Fraction_make n d) as [f|e| |] eqn:Em; cbn.
  - destruct (Hok f eq_refl) as [Hw Hden]. split; [done|]. by exists n, d.
  - left. destruct (_ && _); [congruence|]. destruct (fits _); congruence.
  - destruct (_ && _); [congruence|]. destruct (fits _); congruence.
  - destruct (_ && _); [congruence|]. destruct (fits _); congruence.
Qed.

(** A fraction stands for any pair it denotes. *)
Lemma sound_denotes r n d n' d' : sound r (Some (n, d)) → d ≠ 0 → d' ≠ 0 → n * d' = n' * d →
  sound r (Some (n', d')).
Proof.
  intros Hs Hd Hd' E. destruct r as [f|e| |]; try done.
  - destruct Hs as [Hw (a & b & [= <- <-] & _ & Hden)]. split; [done|]. exists n', d'.
    split_and!; try done. unfold denotes in *. apply (Z.mul_cancel_r _ _ d); [done|].
    transitivity (num_ f * d * d'); [ring|]. rewrite Hden.
    transitivity (n * d' * den_ f); [ring|]. rewrite E. ring.
  - destruct Hs as [?|[? _]]; [by left|done].
Qed.

Lemma wf_pos f : wf f → 0 < den_ f.
Proof. by intros (_ & _ & ? & _). Qed.

Lemma neg_sound f : wf f → sound (op_neg f) (Some (- num_ f, den_ f)).
Proof.
  intros (Hn & Hd & Hp & _). unfold op_neg. rewrite safeNegate_checked by done. unfold checked.
  destruct (in_i64b_spec (- num_ f)) as [Hi|]; [|by left]. cbn [res_bind].
  pose proof (make_sound (- num_ f) (den_ f) Hi Hd) as H.
  by destruct (Z.eqb_spec (den_ f) 0); [lia|].
Qed.

Lemma add_sound f g : wf f → wf g →
  sound (op_add f g) (Some (num_ f * den_ g + num_ g * den_ f, den_ f * den_ g)).
Proof.
  intros Hf Hg. destruct (add_sub_assign_exact f g Hf Hg) as (E & _ & Hw & _).
  unfold op_add, by_value. rewrite E in *. destruct (_ && _); [|by left]. cbn in *.
  destruct Hf as (_ & _ & Hp & _), Hg as (_ & _ & Hp' & _).
  split; [done|]. eexists _, _. split; [done|]. split; [nia|]. apply reduced_coprime. nia.
Qed.

Lemma sub_sound f g : wf f → wf g →
  sound (op_sub f g) (Some (num_ f * den_ g - num_ g * den_ f, den_ f * den_ g)).
Proof.
  intros Hf Hg. destruct (add_sub_assign_exact f g Hf Hg) as (_ & E & _ & Hw).
  unfold op_sub, by_value. rewrite E in *. destruct (_ && _); [|by left]. cbn in *.
  destruct Hf as (_ & _ & Hp & _), Hg as (_ & _ & Hp' & _).
  split; [done|]. eexists _, _. split; [done|]. split; [nia|]. apply reduced_coprime. nia.
Qed.

Lemma mul_sound f g : wf f → wf g → sound (op_mul f g) (Some (num_ f * num_ g, den_ f * den_ g)).
Proof.
  intros Hf Hg. rewrite mul_exact by done. destruct (fits _) eqn:E; [|by left].
  destruct Hf as (_ & _ & Hp & _), Hg as (_ & _ & Hp' & _). assert (den_ f * den_ g ≠ 0) by nia.
  split; [by apply reduced_wf|]. eexists _, _. split; [done|]. split; [done|]. by apply reduced_coprime.
Qed.

Lemma div_sound f g : wf f → wf g → sound (op_div f g)
  (if num_ g =? 0 then None else Some (num_ f * den_ g, den_ f * num_ g)).
Proof.
  intros Hf Hg. pose proof (div_exact f g Hf Hg) as H. destruct Hf as (_ & _ & Hp & _).
  destruct (op_div f g) as [q|e| |]; try done; cbn.
  - destruct H as (Hz & Hw & Hd). destruct (Z.eqb_spec (num_ g) 0); [done|].
    split; [done|]. eexists _, _. split; [done|]. split; [nia|done].
  - destruct (num_ g =? 0); [|by left]. right. by auto.
Qed.

Lemma sound_bind2 (op : Fraction → Fraction → res Fraction) l r v w k :
  sound l v → sound r w →
  (∀ f g a b c d, wf f → wf g → b ≠ 0 → d ≠ 0 → denotes f a b → denotes g c d → sound (op f g) (k a b c d)) →
  sound (let? f := l in let? g := r in op f g)
    match v, w with Some (a, b), Some (c, d) => k a b c d | _, _ => None end.
Proof.
  intros Hl Hr Hop. destruct l as [f|e| |]; try done.
  - destruct Hl as [Hf (a & b & -> & Hb & Hfd)]. destruct r as [g|e| |]; try done.
    + destruct Hr as [Hg (c & d & -> & Hd & Hgd)]. by apply Hop.
    + destruct Hr as [?|[-> ?]]; [by left|right; done].
  - destruct Hl as [?|[-> ?]]; [by left|right; done].
Qed.

(** C35: The class invariant holds for everything the public operations return: an expression
    of any size over 64-bit literals evaluates to a fraction in lowest terms with a positive
    denominator that is exactly the value of the expression over the rationals, or it throws:
    [std::overflow_error], or [std::domain_error] or [std::invalid_argument] when a divisor or
    denominator is zero.  It never has undefined behaviour. *)
Theorem expression_sound e : literals_ok e → sound (eval e) (value e).
Proof.
  induction e as [n|n d|e IH|e IH|l IHl r IHr|l IHl r IHr|l IHl r IHr|l IHl r IHr]; cbn [literals_ok eval value].
  - intros Hn. split; [|exists n, 1; unfold denotes; cbn; split_and!; lia || done].
    unfold wf. cbn. rewrite Z.gcd_1_r. split_and!; try done.
  - intros [Hn Hd]. by apply make_sound.
  - intros Hok. specialize (IH Hok). by destruct (eval e).
  - intros Hok. specialize (IH Hok). destruct (eval e) as [f|ex| |]; try done.
    + destruct IH as [Hw (n & d & -> & Hd & Hden)]. cbn [res_bind].
      pose proof (wf_pos f Hw).
      eapply sound_denotes; [by apply neg_sound|lia|done|]. unfold denotes in Hden. lia.
    + destruct IH as [?|[-> ?]]; [by left|by right].
  - intros [Hl Hr]. apply sound_bind2; auto. intros f g a b c d Hf Hg Hb Hd Hfa Hgc.
    pose proof (wf_pos f Hf). pose proof (wf_pos g Hg). unfold denotes in *.
    eapply sound_denotes; [by apply add_sound|nia|nia|].
    transitivity (num_ f * b * (den_ g * d) + num_ g * d * (den_ f * b)); [ring|].
    rewrite Hfa, Hgc. ring.
  - intros [Hl Hr]. apply sound_bind2; auto. intros f g a b c d Hf Hg Hb Hd Hfa Hgc.
    pose proof (wf_pos f Hf). pose proof (wf_pos g Hg). unfold denotes in *.
    eapply sound_denotes; [by apply sub_sound|nia|nia|].
    transitivity (num_ f * b * (den_ g * d) - num_ g * d * (den_ f * b)); [ring|].
    rewrite Hfa, Hgc. ring.
  - intros [Hl Hr]. apply sound_bind2; auto. intros f g a b c d Hf Hg Hb Hd Hfa Hgc.
    pose proof (wf_pos f Hf). pose proof (wf_pos g Hg). unfold denotes in *.
    eapply sound_denotes; [by apply mul_sound|nia|nia|].
    transitivity (num_ f * b * (num_ g * d)); [ring|]. rewrite Hfa, Hgc. ring.
  - intros [Hl Hr]. apply sound_bind2; auto. intros f g a b c d Hf Hg Hb Hd Hfa Hgc.
    pose proof (div_sound f g Hf Hg) as H. unfold denotes in Hfa, Hgc.
    pose proof (wf_pos f Hf). pose proof (wf_pos g Hg).
    destruct (Z.eqb_spec (num_ g) 0), (Z.eqb_spec c 0); try done; try nia.
    eapply sound_denotes; [exact H|nia|nia|].
    transitivity (num_ f * b * (c * den_ g)); [ring|]. rewrite Hfa, <- Hgc. ring.
Qed.

(** [operator*=] lacks the strong guarantee that [operator+=] has: it assigns
    the new numerator before the multiplication of the denominators can throw, so
    an overflow leaves an object that denotes another number. *)
Lemma mul_assign_overflow_corrupts :
  ∃ f o f', wf f ∧ wf o ∧ op_mul_assign o f = (Throw overflow_error, f') ∧
            ¬ denotes f' (num_ f) (den_ f).
Proof.
  exists (mkFraction 5 (2 ^ 62)), (mkFraction 7 3), (mkFraction 35 (2 ^ 62)).
  unfold wf, in_i64, denotes, INT64_MIN, INT64_MAX. simpl.
  split_and!; (lia || reflexivity).
Qed.

(** ** Witnesses *)

#[local] Transparent compareUnsignedFractions.

Ltac solve_wf :=
  unfold wf, in_i64, INT64_MIN, INT64_MAX; simpl; split_and!; (lia || reflexivity).

Definition half : Fraction := mkFraction 1 2.
Definition third_neg : Fraction := mkFraction (-1) 3.

Lemma half_wf : wf half. Proof. solve_wf. Qed.
Lemma third_neg_wf : wf third_neg. Proof. solve_wf. Qed.

Lemma compare_exact_witness :
  op_spaceship half third_neg = Ok Gt ∧ (op_eq half third_neg = true ↔ 3 = -2).
Proof. exact (compare_exact half third_neg half_wf third_neg_wf). Defined.

(** 1/2 * (3/4 - 5) / (-7) and 1 / (1/3 - 2/6) *)
Definition expr1 : expr := Div (Mul (Make 1 2) (Sub (Make 3 4) (Int 5))) (Neg (Int 7)).
Definition expr2 : expr := Div (Int 1) (Sub (Make 1 3) (Make 2 6)).

Lemma expression_sound_witness : sound (Ok (mkFraction 17 56)) (value expr1) ∧
  sound (Throw domain_error) (value expr2).
Proof.
  split.
  - apply (expression_sound expr1). cbn. unfold in_i64, INT64_MIN, INT64_MAX. split_and!; lia.
  - apply (expression_sound expr2). cbn. unfold in_i64, INT64_MIN, INT64_MAX. split_and!; lia.
Defined.
