(* ===== verification/Error.v ===== *)
(** * [dbase::Error] and [dbase::Result] (code/include/dbase/error/error.h,
    code/src/error/error.cpp)

    The error values that the library returns instead of throwing.  [std::strerror]
    is a parameter ([systemErrorMessage]). *)

From S2P Require Import Prelude.
From stdpp Require Import base list strings.
From Stdlib Require Import ZArith Ascii.

Local Open Scope Z_scope.

Inductive ErrorCode : Type :=
  | Ok_ | InvalidArgument | NotFound | AlreadyExists | IOError | Timeout
  | NotSupported | SystemError | ParseError | InvalidState | Cancelled
  | WouldBlock | EndOfFile | Unknown.

#[global] Instance ErrorCode_eq_dec : EqDecision ErrorCode.
Proof. solve_decision. Defined.

(** [static_cast<int>(code)] *)
Definition ErrorCode_int (code : ErrorCode) : Z :=
  match code with
  | Ok_ => 0 | InvalidArgument => 1 | NotFound => 2 | AlreadyExists => 3 | IOError => 4
  | Timeout => 5 | NotSupported => 6 | SystemError => 7 | ParseError => 8
  | InvalidState => 9 | Cancelled => 10 | WouldBlock => 11 | EndOfFile => 12 | Unknown => 13
  end.

Record Error : Type := mkError { m_code : ErrorCode; m_message : str }.

Definition Error_default : Error := mkError Ok_ [].
Definition Error_ok (e : Error) : bool := bool_decide (m_code e = Ok_).

Definition ErrorCode_toString (code : ErrorCode) : str :=
  lit match code with
      | Ok_ => "Ok"
      | InvalidArgument => "InvalidArgument"
      | NotFound => "NotFound"
      | AlreadyExists => "AlreadyExists"
      | IOError => "IOError"
      | Timeout => "Timeout"
      | NotSupported => "NotSupported"
      | SystemError => "SystemError"
      | ParseError => "ParseError"
      | InvalidState => "InvalidState"
      | Cancelled => "Cancelled"
      | WouldBlock => "WouldBlock"
      | EndOfFile => "EndOfFile"
      | Unknown => "Unknown"
      end.

Definition Error_toString (e : Error) : str :=
  match m_message e with
  | [] => ErrorCode_toString (m_code e)
  | msg => ErrorCode_toString (m_code e) ++ lit ": " ++ msg
  end.

(** [std::strerror] is outside the repository. *)
Definition makeSystemError (systemErrorMessage : Z → str) (message : str) (code : Z) : Error :=
  let message := match message with [] => [] | _ => message ++ lit ": " end in
  mkError SystemError
    (message ++ systemErrorMessage code ++ lit " (code=" ++ to_string code ++ lit ")").

(** ** [Result<T>] *)

Inductive Result (T : Type) : Type :=
  | Value (v : T)
  | Err (e : Error).
Arguments Value {T} _.
Arguments Err {T} _.

Definition hasValue {T} (r : Result T) : bool :=
  match r with Value _ => true | Err _ => false end.
Definition hasError {T} (r : Result T) : bool :=
  match r with Value _ => false | Err _ => true end.

(** [value()] and [error()] throw [BadResultAccess], a [std::logic_error]. *)
Definition value {T} (r : Result T) : res T :=
  match r with Value v => Ok v | Err _ => Throw logic_error end.
Definition error {T} (r : Result T) : res Error :=
  match r with Value _ => Throw logic_error | Err e => Ok e end.
Definition valueOr {T} (r : Result T) (defaultValue : T) : T :=
  match r with Value v => v | Err _ => defaultValue end.

Definition makeErrorResult {T} (code : ErrorCode) (message : str) : Result T :=
  Err (mkError code message).

(** ** [Result<void>]: an [Error] whose code [Ok] means success *)

Record ResultVoid : Type := mkResultVoid { m_error : Error }.

Definition ResultVoid_default : ResultVoid := mkResultVoid Error_default.
Definition void_hasValue (r : ResultVoid) : bool := Error_ok (m_error r).
Definition void_hasError (r : ResultVoid) : bool := negb (Error_ok (m_error r)).
Definition void_value (r : ResultVoid) : res () :=
  if void_hasError r then Throw logic_error else Ok tt.
Definition void_error (r : ResultVoid) : res Error :=
  if negb (void_hasError r) then Throw logic_error else Ok (m_error r).
Definition makeVoidError (code : ErrorCode) (message : str) : ResultVoid :=
  mkResultVoid (mkError code message).
