(* ===== verification/Endian.v ===== *)
(** * Integers on the wire (code/src/net/buffer.cpp, anonymous namespace)

    The integer types of the buffer's accessors, [byteswapValue],
    [hostToBigEndian]/[bigEndianToHost] and [readInteger]/[writeInteger].  The byte
    order of the host is a section variable; the lemmas show that what is written
    is the big-endian encoding on either kind of host. *)

From S2P Require Import Prelude.
From stdpp Require Import base list.
From Stdlib Require Import ZArith Lia Ascii.

Local Open Scope Z_scope.

(** ** Integers and their object representation *)

(** The integer types of the accessors. *)
Inductive int_type : Type :=
  | Int8 | Int16 | Int32 | Int64 | UInt8 | UInt16 | UInt32 | UInt64.

Definition sizeof (T : int_type) : Z :=
  match T with
  | Int8 | UInt8 => 1
  | Int16 | UInt16 => 2
  | Int32 | UInt32 => 4
  | Int64 | UInt64 => 8
  end.

Definition is_signed (T : int_type) : bool :=
  match T with Int8 | Int16 | Int32 | Int64 => true | _ => false end.

(** [static_cast<T>] and [static_cast<std::make_unsigned_t<T>>]. *)
Definition cast (T : int_type) (z : Z) : Z :=
  if is_signed T then swrap (8 * sizeof T) z else wrap (8 * sizeof T) z.
Definition to_unsigned (T : int_type) (z : Z) : Z := wrap (8 * sizeof T) z.

Definition in_type (T : int_type) (z : Z) : Prop :=
  if is_signed T then - 2 ^ (8 * sizeof T - 1) ≤ z < 2 ^ (8 * sizeof T - 1)
  else 0 ≤ z < 2 ^ (8 * sizeof T).

Definition byteswap16 (value : Z) : Z :=
  u16 (Z.lor (Z.shiftl value 8) (Z.shiftr value 8)).

Definition byteswap32 (value : Z) : Z :=
  Z.lor (Z.lor (Z.lor
    (u32 (Z.shiftl (Z.land value 0x000000FF) 24))
    (u32 (Z.shiftl (Z.land value 0x0000FF00) 8)))
    (Z.shiftr (Z.land value 0x00FF0000) 8))
    (Z.shiftr (Z.land value 0xFF000000) 24).

Definition byteswap64 (value : Z) : Z :=
  Z.lor (Z.lor (Z.lor (Z.lor (Z.lor (Z.lor (Z.lor
    (u64 (Z.shiftl (Z.land value 0x00000000000000FF) 56))
    (u64 (Z.shiftl (Z.land value 0x000000000000FF00) 40)))
    (u64 (Z.shiftl (Z.land value 0x0000000000FF0000) 24)))
    (u64 (Z.shiftl (Z.land value 0x00000000FF000000) 8)))
    (Z.shiftr (Z.land value 0x000000FF00000000) 8))
    (Z.shiftr (Z.land value 0x0000FF0000000000) 24))
    (Z.shiftr (Z.land value 0x00FF000000000000) 40))
    (Z.shiftr (Z.land value 0xFF00000000000000) 56).

Definition byteswapValue (T : int_type) (value : Z) : Z :=
  match T with
  | Int8 | UInt8 => value
  | Int16 | UInt16 => byteswap16 value
  | Int32 | UInt32 => byteswap32 value
  | Int64 | UInt64 => byteswap64 value
  end.

(** The [n] low bytes of a value, least significant first, and back. *)
Fixpoint le_bytes (n : nat) (z : Z) : str :=
  match n with
  | O => []
  | S n => byte_of_Z z :: le_bytes n (Z.shiftr z 8)
  end.

Fixpoint le_value (l : str) : Z :=
  match l with
  | [] => 0
  | c :: l => Z_of_byte c + 2 ^ 8 * le_value l
  end.

(** [native_little] is [std::endian::native == std::endian::little]. *)
Section byte_order.
Context (native_little : bool).

(** [std::memcpy] of an object of type [T] to and from memory. *)
Definition object_bytes (T : int_type) (z : Z) : str :=
  let l := le_bytes (Z.to_nat (sizeof T)) z in if native_little then l else rev l.
Definition object_of_bytes (T : int_type) (l : str) : Z :=
  cast T (le_value (if native_little then l else rev l)).

Definition hostToBigEndian (T : int_type) (value : Z) : Z :=
  if sizeof T =? 1 then value
  else
    let raw := to_unsigned T value in
    let raw := if native_little then byteswapValue T raw else raw in
    cast T raw.

Definition bigEndianToHost (T : int_type) (value : Z) : Z :=
  if sizeof T =? 1 then value
  else
    let raw := to_unsigned T value in
    let raw := if native_little then byteswapValue T raw else raw in
    cast T raw.

Definition readInteger (T : int_type) (data : str) : Z :=
  bigEndianToHost T (object_of_bytes T data).
Definition writeInteger (T : int_type) (value : Z) : str :=
  object_bytes T (hostToBigEndian T value).

End byte_order.

(** ** Byte strings of integers *)

Definition nbytes (T : int_type) : nat := Z.to_nat (sizeof T).

(** The big-endian encoding of a value. *)
Definition be_bytes (T : int_type) (z : Z) : str := rev (le_bytes (nbytes T) z).
Definition be_value (T : int_type) (l : str) : Z := cast T (le_value (rev l)).

Lemma length_le_bytes n z : length (le_bytes n z) = n.
Proof. revert z. induction n as [|n IH]; intros z; simpl; [done|]. by rewrite IH. Qed.

Lemma zlen_be_bytes T z : zlen (be_bytes T z) = sizeof T.
Proof. unfold zlen, be_bytes. rewrite length_rev, length_le_bytes. by destruct T. Qed.

Lemma byte_of_Z_bits x y :
  (∀ i, 0 ≤ i < 8 → Z.testbit x i = Z.testbit y i) → byte_of_Z x = byte_of_Z y.
Proof.
  intros H. unfold byte_of_Z, u8, wrap. do 2 f_equal. apply Z.bits_inj'. intros i Hi.
  destruct (Z.lt_ge_cases i 8).
  - rewrite !Z.mod_pow2_bits_low by lia. apply H. lia.
  - by rewrite !Z.mod_pow2_bits_high by lia.
Qed.

Lemma le_bytes_mod n : ∀ z m, Z.of_nat n * 8 ≤ m → le_bytes n (z mod 2 ^ m) = le_bytes n z.
Proof.
  induction n as [|n IH]; intros z m Hm; [done|]. cbn [le_bytes]. f_equal.
  - apply byte_of_Z_bits. intros i Hi. apply Z.mod_pow2_bits_low. lia.
  - replace (Z.shiftr (z mod 2 ^ m) 8) with (Z.shiftr z 8 mod 2 ^ (m - 8)).
    + apply IH. lia.
    + apply Z.bits_inj'. intros i Hi. rewrite Z.shiftr_spec by lia.
      destruct (Z.lt_ge_cases i (m - 8)).
      * rewrite !Z.mod_pow2_bits_low, Z.shiftr_spec by lia. done.
      * by rewrite !Z.mod_pow2_bits_high by lia.
Qed.

Lemma le_value_le_bytes n z : le_value (le_bytes n z) = z mod 2 ^ (Z.of_nat n * 8).
Proof.
  revert z. induction n as [|n IH]; intros z; cbn [le_bytes le_value].
  - by rewrite Z.mod_1_r.
  - rewrite IH, Z_of_byte_of_Z, Z.shiftr_div_pow2 by lia. unfold u8, wrap.
    replace (Z.of_nat (S n) * 8) with (8 + Z.of_nat n * 8) by lia.
    by rewrite Z.pow_add_r, Z.rem_mul_r by lia.
Qed.

Lemma le_value_range l : 0 ≤ le_value l < 2 ^ (zlen l * 8).
Proof.
  induction l as [|c l IH]; [done|]. cbn [le_value]. rewrite zlen_cons.
  pose proof (Z_of_byte_range c). pose proof (zlen_nonneg l).
  replace ((1 + zlen l) * 8) with (8 + zlen l * 8) by lia.
  rewrite Z.pow_add_r by lia. lia.
Qed.

Lemma le_bytes_le_value l : le_bytes (length l) (le_value l) = l.
Proof.
  induction l as [|c l IH]; [done|]. cbn [le_bytes le_value length].
  pose proof (Z_of_byte_range c). f_equal.
  - rewrite <- (byte_of_Z_of_byte c) at 2. unfold byte_of_Z, u8, wrap. do 2 f_equal.
    rewrite Z.mul_comm, Z.mod_add by lia. done.
  - rewrite Z.shiftr_div_pow2, Z.mul_comm, Z.div_add, Z.div_small by lia. done.
Qed.

(** ** Casts *)

Lemma cast_to_unsigned T z : cast T (wrap (8 * sizeof T) z) = cast T z.
Proof.
  unfold cast, wrap. destruct (is_signed T).
  - unfold swrap. by rewrite Zplus_mod_idemp_l.
  - unfold wrap. apply Z.mod_mod. by destruct T.
Qed.

Lemma to_unsigned_cast T z : to_unsigned T (cast T z) = to_unsigned T z.
Proof.
  unfold to_unsigned, cast, swrap, wrap. destruct (is_signed T).
  - rewrite Zminus_mod_idemp_l. f_equal. lia.
  - apply Z.mod_mod. by destruct T.
Qed.

Lemma cast_in_type T z : in_type T z → cast T z = z.
Proof.
  unfold in_type, cast, swrap, wrap. destruct T; simpl;
    intros; rewrite Z.mod_small; lia.
Qed.

Lemma le_bytes_cast T z : le_bytes (nbytes T) (cast T z) = le_bytes (nbytes T) z.
Proof.
  assert (∀ x, le_bytes (nbytes T) (to_unsigned T x) = le_bytes (nbytes T) x) as H.
  { intros x. apply le_bytes_mod. by destruct T. }
  by rewrite <- H, to_unsigned_cast, H.
Qed.

(** ** Byte swapping reverses the bytes *)

Lemma le_bytes_eq n x y :
  (∀ i, 0 ≤ i < 8 * Z.of_nat n → Z.testbit x i = Z.testbit y i) →
  le_bytes n x = le_bytes n y.
Proof.
  revert x y. induction n as [|n IH]; intros x y H; [done|]. cbn [le_bytes]. f_equal.
  - apply byte_of_Z_bits. intros i Hi. apply H. lia.
  - apply IH. intros i Hi. rewrite !Z.shiftr_spec by lia. apply H. lia.
Qed.

(** Compute the bits of a masked and shifted word, for a bit index below 8. *)
Ltac byte_index i :=
  let H := fresh in
  assert (i = 0 ∨ i = 1 ∨ i = 2 ∨ i = 3 ∨ i = 4 ∨ i = 5 ∨ i = 6 ∨ i = 7) as H by lia;
  repeat destruct H as [H|H]; subst i.
Ltac word_bits :=
  apply byte_of_Z_bits; intros i Hi; byte_index i;
  unfold u16, u32, u64, wrap;
  repeat (rewrite ?Z.shiftr_spec, ?Z.lor_spec, ?Z.land_spec by lia;
          rewrite ?Z.mod_pow2_bits_low by lia;
          rewrite ?Z.shiftl_spec by lia);
  cbn -[Z.testbit Z.add];
  repeat match goal with
         | |- context [Z.testbit (Zpos ?p) ?k] =>
             let b := eval vm_compute in (Z.testbit (Zpos p) k) in
             change (Z.testbit (Zpos p) k) with b
         | |- context [Z.testbit ?v ?k] =>
             let k' := eval vm_compute in k in progress change k with k'
         end;
  rewrite ?Z.testbit_neg_r by lia; rewrite ?Z.mod_pow2_bits_high by lia;
  rewrite ?andb_false_r, ?andb_true_r, ?orb_false_r, ?orb_false_l; try reflexivity.

Ltac word_bytes := repeat (apply (f_equal2 (@cons ascii)); [word_bits|]); reflexivity.

Lemma byteswap16_bytes v :
  0 ≤ v < 2 ^ 16 → le_bytes 2 (byteswap16 v) = rev (le_bytes 2 v).
Proof.
  intros Hv. rewrite <- (Z.mod_small v (2 ^ 16)) by lia.
  cbn [le_bytes rev app]. unfold byteswap16. word_bytes.
Qed.

Lemma byteswap32_bytes v : le_bytes 4 (byteswap32 v) = rev (le_bytes 4 v).
Proof. cbn [le_bytes rev app]. unfold byteswap32. word_bytes. Qed.

Lemma byteswap64_bytes v : le_bytes 8 (byteswap64 v) = rev (le_bytes 8 v).
Proof. cbn [le_bytes rev app]. unfold byteswap64. word_bytes. Qed.

Lemma byteswapValue_bytes T v :
  0 ≤ v < 2 ^ (8 * sizeof T) →
  le_bytes (nbytes T) (byteswapValue T v) = rev (le_bytes (nbytes T) v).
Proof.
  intros Hv. destruct T; simpl in Hv; unfold nbytes, byteswapValue;
    first [reflexivity | by apply byteswap16_bytes | apply byteswap32_bytes
          | apply byteswap64_bytes].
Qed.

Lemma to_unsigned_range T z : 0 ≤ to_unsigned T z < 2 ^ (8 * sizeof T).
Proof. apply wrap_range. by destruct T. Qed.

Lemma le_bytes_to_unsigned T z :
  le_bytes (nbytes T) (to_unsigned T z) = le_bytes (nbytes T) z.
Proof. apply le_bytes_mod. by destruct T. Qed.

Lemma length_nbytes T : Z.of_nat (nbytes T) = sizeof T.
Proof. by destruct T. Qed.

(** What [writeInteger] stores is the big-endian encoding, whatever the host. *)
Lemma writeInteger_be native T z : writeInteger native T z = be_bytes T z.
Proof.
  unfold writeInteger, object_bytes, hostToBigEndian, be_bytes. fold (nbytes T).
  destruct (sizeof T =? 1) eqn:E.
  { destruct T, native; simpl in E; done. }
  destruct native.
  - by rewrite le_bytes_cast, byteswapValue_bytes, le_bytes_to_unsigned
      by apply to_unsigned_range.
  - by rewrite le_bytes_cast, le_bytes_to_unsigned.
Qed.

Lemma cast_le_value T l z :
  length l = nbytes T → le_bytes (nbytes T) z = l → cast T z = cast T (le_value l).
Proof.
  intros Hl Hz. rewrite <- Hz, le_value_le_bytes, length_nbytes, Z.mul_comm.
  symmetry. apply cast_to_unsigned.
Qed.

(** What [readInteger] returns is the value of the big-endian encoding. *)
Lemma readInteger_be native T l :
  length l = nbytes T → readInteger native T l = be_value T l.
Proof.
  intros Hl. unfold readInteger, bigEndianToHost, object_of_bytes, be_value.
  destruct (sizeof T =? 1) eqn:E.
  { assert (nbytes T = 1%nat) as H1 by (destruct T; simpl in E; done).
    rewrite H1 in Hl. destruct l as [|c [|]]; try done. by destruct native. }
  destruct native.
  - apply cast_le_value; [by rewrite length_rev|].
    rewrite byteswapValue_bytes by apply to_unsigned_range.
    rewrite le_bytes_to_unsigned, le_bytes_cast, <- Hl. f_equal. apply le_bytes_le_value.
  - rewrite to_unsigned_cast. apply cast_to_unsigned.
Qed.

(** [peekInt8] and [appendInt8] skip the conversion, which is the identity there. *)
Lemma object_bytes_single native T z :
  sizeof T = 1 → object_bytes native T z = be_bytes T z.
Proof. intros H. destruct T, native; done. Qed.

Lemma object_of_bytes_single native T l :
  sizeof T = 1 → length l = nbytes T → object_of_bytes native T l = be_value T l.
Proof.
  intros HT Hl. assert (nbytes T = 1%nat) as H1 by (unfold nbytes; lia).
  rewrite H1 in Hl. destruct l as [|c [|]]; try done. by destruct native.
Qed.

(** Decoding inverts encoding on the values of the type. *)
Lemma be_value_be_bytes T z : in_type T z → be_value T (be_bytes T z) = z.
Proof.
  intros Hz. unfold be_value, be_bytes. rewrite rev_involutive, le_value_le_bytes.
  rewrite length_nbytes, Z.mul_comm. rewrite <- (cast_in_type T z Hz) at 2.
  apply cast_to_unsigned.
Qed.
