(* ===== verification/Buffer.v ===== *)
(** * [dbase::net::Buffer] (code/src/net/buffer.cpp, buffer.h)

    A growable byte buffer: a vector with a reader and a writer index, [kCheapPrepend]
    bytes reserved in front.  Indices are [std::size_t] and their arithmetic wraps;
    copies go through [mem_read]/[mem_write], which are undefined out of bounds.
    A pointer into the buffer is its offset.  Failed [assert]s are undefined
    behaviour.  The system calls behind [readFdResult] and [writeFdResult] are
    arguments.  [append(const Buffer&)] is modelled for a distinct object. *)

From S2P Require Import Prelude Error Endian.
From stdpp Require Import base list strings.
From Stdlib Require Import ZArith Lia Ascii.

Local Open Scope Z_scope.

(** ** The buffer *)

Definition kCheapPrepend : Z := 8.
Definition kInitialSize : Z := 1024.

Record Buffer : Type := mkBuffer {
  m_buffer : str;
  m_readerIndex : Z;
  m_writerIndex : Z;
}.

(** [std::vector<char>::max_size()] *)
Definition MAX_SIZE : Z := 2 ^ 63 - 1.

(** [std::vector<char>(n)]: zeroed, [std::length_error] beyond [max_size()]. *)
Definition vector_make (n : Z) : res str :=
  if MAX_SIZE <? n then Throw length_error else Ok (replicate (Z.to_nat n) NUL).

Definition Buffer_make (initialSize : Z) : res Buffer :=
  let? v := vector_make (u64 (kCheapPrepend + initialSize)) in
  Ok (mkBuffer v kCheapPrepend kCheapPrepend).

Definition readableBytes (b : Buffer) : Z := u64 (m_writerIndex b - m_readerIndex b).
Definition writableBytes (b : Buffer) : Z := u64 (zlen (m_buffer b) - m_writerIndex b).
Definition prependableBytes (b : Buffer) : Z := m_readerIndex b.
Definition capacity (b : Buffer) : Z := zlen (m_buffer b).
Definition peek (b : Buffer) : Z := m_readerIndex b.
Definition beginWrite (b : Buffer) : Z := m_writerIndex b.

Definition set_indices (r w : Z) : M Buffer () :=
  modify (λ b, mkBuffer (m_buffer b) r w).
Definition set_vector (v : str) : M Buffer () :=
  modify (λ b, mkBuffer v (m_readerIndex b) (m_writerIndex b)).
(** [std::memcpy] into the buffer. *)
Definition store (off : Z) (data : str) : M Buffer () :=
  let! b := get in
  let! v := lift (mem_write (m_buffer b) off data) in
  set_vector v.

Definition readableView (b : Buffer) : res str :=
  mem_read (m_buffer b) (peek b) (readableBytes b).

Definition CR : ascii := byte_of_Z 13.
Definition LF : ascii := byte_of_Z 10.

(** Offsets from the start of the buffer, [None] for [nullptr]. *)
Definition findCRLF (b : Buffer) : res (option Z) :=
  let? v := readableView b in
  Ok ((λ i, peek b + Z.of_nat i) <$> find_sub [CR; LF] v).

Definition findEOL (b : Buffer) : res (option Z) :=
  let? v := readableView b in
  Ok ((λ i, peek b + Z.of_nat i) <$> find_char LF v).

(** ** Consuming *)

Definition retrieveAll : M Buffer () := set_indices kCheapPrepend kCheapPrepend.

Definition retrieve (len : Z) : M Buffer () :=
  let! b := get in
  if len <? readableBytes b
  then set_indices (u64 (m_readerIndex b + len)) (m_writerIndex b)
  else retrieveAll.

Definition retrieveUntil (end_ : Z) : M Buffer () :=
  let! b := get in
  if (peek b <=? end_) && (end_ <=? beginWrite b)
  then retrieve (u64 (end_ - peek b))
  else undef.

Definition retrieveAsString (len : Z) : M Buffer str :=
  let! b := get in
  if readableBytes b <? len then throw out_of_range
  else
    let! result := lift (mem_read (m_buffer b) (peek b) len) in
    retrieve len;;;
    ret result.

Definition retrieveAllAsString : M Buffer str :=
  let! b := get in retrieveAsString (readableBytes b).

Definition clear : M Buffer () := retrieveAll.

(** ** Growing *)

Definition makeSpace (len : Z) : M Buffer () :=
  let! b := get in
  let readable := readableBytes b in
  (if readable =? 0 then set_indices kCheapPrepend kCheapPrepend else ret tt);;;
  let! b := get in
  if (readable =? 0) && (len <=? writableBytes b) then ret tt
  else if len <=? u64 (u64 (writableBytes b + prependableBytes b) - kCheapPrepend) then
    let! data := lift (mem_read (m_buffer b) (peek b) readable) in
    store kCheapPrepend data;;;
    set_indices kCheapPrepend (u64 (kCheapPrepend + readable))
  else
    let newSize := Z.max (u64 (zlen (m_buffer b) * 2))
                         (u64 (u64 (kCheapPrepend + readable) + len)) in
    let! newBuffer := lift (vector_make newSize) in
    let! data := lift (mem_read (m_buffer b) (peek b) readable) in
    let! newBuffer := lift (mem_write newBuffer kCheapPrepend data) in
    set_vector newBuffer;;;
    set_indices kCheapPrepend (u64 (kCheapPrepend + readable)).

Definition ensureWritableBytes (len : Z) : M Buffer () :=
  let! b := get in
  if writableBytes b <? len then makeSpace len else ret tt.

Definition hasWritten (len : Z) : M Buffer () :=
  let! b := get in
  if len <=? writableBytes b
  then set_indices (m_readerIndex b) (u64 (m_writerIndex b + len))
  else undef.

Definition unwrite (len : Z) : M Buffer () :=
  let! b := get in
  if len <=? readableBytes b
  then set_indices (m_readerIndex b) (u64 (m_writerIndex b - len))
  else undef.

(** ** Appending and prepending *)

Definition append (data : str) : M Buffer () :=
  if zlen data =? 0 then ret tt
  else
    ensureWritableBytes (zlen data);;;
    let! b := get in
    store (beginWrite b) data;;;
    hasWritten (zlen data).

(** [append] of a [const char] pointer: a NUL-terminated array or [nullptr]. *)
Definition append_cstr (data : option str) : M Buffer () :=
  match data with
  | None => ret tt
  | Some d => match find_char NUL d with
              | Some n => append (take n d)
              | None => undef
              end
  end.

Definition append_buffer (other : Buffer) : M Buffer () :=
  let! data := lift (readableView other) in append data.

Definition prepend (data : str) : M Buffer () :=
  if zlen data =? 0 then ret tt
  else
    let! b := get in
    if prependableBytes b <? zlen data then throw out_of_range
    else
      set_indices (u64 (m_readerIndex b - zlen data)) (m_writerIndex b);;;
      let! b := get in
      store (m_readerIndex b) data.

Definition shrink (reserve : Z) : M Buffer () :=
  let! b := get in
  let! other := lift (Buffer_make (u64 (readableBytes b + reserve))) in
  let! data := lift (readableView b) in
  match append data other with
  | (Ok _, other) => put other
  | (Throw e, _) => throw e
  | (Undef, _) => undef
  | (NoFuel, _) => lift NoFuel
  end.

Definition swap (a b : Buffer) : Buffer * Buffer := (b, a).

(** ** Integer accessors

    [native_little] is [std::endian::native == std::endian::little]; the theorems
    hold for both byte orders. *)

Section accessors.
Context (native_little : bool).

(** [peekInt16] and its like. *)
Definition peekInteger (T : int_type) (b : Buffer) : res Z :=
  if readableBytes b <? sizeof T then Throw out_of_range
  else let? data := mem_read (m_buffer b) (peek b) (sizeof T) in
       Ok (readInteger native_little T data).

(** [peekInt8] and [peekUInt8] read the byte as it is. *)
Definition peekByte (T : int_type) (b : Buffer) : res Z :=
  if readableBytes b <? sizeof T then Throw out_of_range
  else let? data := mem_read (m_buffer b) (peek b) (sizeof T) in
       Ok (object_of_bytes native_little T data).

Definition peekInt8 : Buffer → res Z := peekByte Int8.
Definition peekInt16 : Buffer → res Z := peekInteger Int16.
Definition peekInt32 : Buffer → res Z := peekInteger Int32.
Definition peekInt64 : Buffer → res Z := peekInteger Int64.
Definition peekUInt8 : Buffer → res Z := peekByte UInt8.
Definition peekUInt16 : Buffer → res Z := peekInteger UInt16.
Definition peekUInt32 : Buffer → res Z := peekInteger UInt32.
Definition peekUInt64 : Buffer → res Z := peekInteger UInt64.

(** The accessor of a type. *)
Definition peekInt (T : int_type) : Buffer → res Z :=
  match T with
  | Int8 => peekInt8 | Int16 => peekInt16 | Int32 => peekInt32 | Int64 => peekInt64
  | UInt8 => peekUInt8 | UInt16 => peekUInt16 | UInt32 => peekUInt32 | UInt64 => peekUInt64
  end.

Definition readInt (T : int_type) : M Buffer Z :=
  let! b := get in
  let! value := lift (peekInt T b) in
  retrieve (sizeof T);;;
  ret value.

Definition readInt8 : M Buffer Z := readInt Int8.
Definition readInt16 : M Buffer Z := readInt Int16.
Definition readInt32 : M Buffer Z := readInt Int32.
Definition readInt64 : M Buffer Z := readInt Int64.
Definition readUInt8 : M Buffer Z := readInt UInt8.
Definition readUInt16 : M Buffer Z := readInt UInt16.
Definition readUInt32 : M Buffer Z := readInt UInt32.
Definition readUInt64 : M Buffer Z := readInt UInt64.

(** [appendInt8]: append the object's byte. *)
Definition appendByte (T : int_type) (value : Z) : M Buffer () :=
  append (object_bytes native_little T value).

Definition appendInteger (T : int_type) (value : Z) : M Buffer () :=
  ensureWritableBytes (sizeof T);;;
  let! b := get in
  store (beginWrite b) (writeInteger native_little T value);;;
  hasWritten (sizeof T).

Definition appendInt8 : Z → M Buffer () := appendByte Int8.
Definition appendInt16 : Z → M Buffer () := appendInteger Int16.
Definition appendInt32 : Z → M Buffer () := appendInteger Int32.
Definition appendInt64 : Z → M Buffer () := appendInteger Int64.
Definition appendUInt8 : Z → M Buffer () := appendByte UInt8.
Definition appendUInt16 : Z → M Buffer () := appendInteger UInt16.
Definition appendUInt32 : Z → M Buffer () := appendInteger UInt32.
Definition appendUInt64 : Z → M Buffer () := appendInteger UInt64.

Definition appendInt (T : int_type) : Z → M Buffer () :=
  match T with
  | Int8 => appendInt8 | Int16 => appendInt16
  | Int32 => appendInt32 | Int64 => appendInt64
  | UInt8 => appendUInt8 | UInt16 => appendUInt16
  | UInt32 => appendUInt32 | UInt64 => appendUInt64
  end.

Definition prependByte (T : int_type) (value : Z) : M Buffer () :=
  prepend (object_bytes native_little T value).

Definition prependInteger (T : int_type) (value : Z) : M Buffer () :=
  let! b := get in
  if prependableBytes b <? sizeof T then throw out_of_range
  else
    set_indices (u64 (m_readerIndex b - sizeof T)) (m_writerIndex b);;;
    let! b := get in
    store (m_readerIndex b) (writeInteger native_little T value).

Definition prependInt8 : Z → M Buffer () := prependByte Int8.
Definition prependInt16 : Z → M Buffer () := prependInteger Int16.
Definition prependInt32 : Z → M Buffer () := prependInteger Int32.
Definition prependInt64 : Z → M Buffer () := prependInteger Int64.
Definition prependUInt8 : Z → M Buffer () := prependByte UInt8.
Definition prependUInt16 : Z → M Buffer () := prependInteger UInt16.
Definition prependUInt32 : Z → M Buffer () := prependInteger UInt32.
Definition prependUInt64 : Z → M Buffer () := prependInteger UInt64.

Definition prependInt (T : int_type) : Z → M Buffer () :=
  match T with
  | Int8 => prependInt8 | Int16 => prependInt16
  | Int32 => prependInt32 | Int64 => prependInt64
  | UInt8 => prependUInt8 | UInt16 => prependUInt16
  | UInt32 => prependUInt32 | UInt64 => prependUInt64
  end.

End accessors.

(** ** Reading from and writing to a descriptor (POSIX branch) *)

Inductive IoStatus : Type := IoOk | IoWouldBlock | IoEndOfFile | IoEmpty.
Record IoResult : Type := mkIoResult { bytes : Z; status : IoStatus }.

Definition hasBytes (r : IoResult) : bool :=
  match status r with IoOk => 0 <? bytes r | _ => false end.

(** What a system call did: transferred bytes, or failed with an [errno]. *)
Inductive io_outcome (A : Type) : Type :=
  | IoDone (a : A)
  | IoFail (err : Z).
Arguments IoDone {A} _.
Arguments IoFail {A} _.

Definition EAGAIN : Z := 11.
Definition EWOULDBLOCK : Z := 11.
Definition isWouldBlockError (err : Z) : bool := (err =? EAGAIN) || (err =? EWOULDBLOCK).

Definition EXTRABUF : Z := 64 * 1024.

Section fd_io.
Context (systemErrorMessage : Z → str).

(** The bytes [vec[0..iovcnt)] can take: the second element is passed only when the
    writable part is shorter than [extrabuf]. *)
Definition readv_capacity (b : Buffer) : Z :=
  writableBytes b + (if writableBytes b <? EXTRABUF then EXTRABUF else 0).

(** [readv] on the writable part of the buffer (and [extrabuf] when that part is
    short) scattered [data]. *)
Definition readFdResult (readv : io_outcome str) : M Buffer (Result IoResult) :=
  let! b := get in
  let writable := writableBytes b in
  match readv with
  | IoDone data =>
      let n := zlen data in
      if readv_capacity b <? n then undef
      else if 0 <? n then
        store (beginWrite b) (ztake writable data);;;
        (if n <=? writable then hasWritten n
         else hasWritten writable;;; append (zdrop writable data));;;
        ret (Value (mkIoResult n IoOk))
      else ret (Value (mkIoResult 0 IoEndOfFile))
  | IoFail err =>
      if isWouldBlockError err then ret (Value (mkIoResult 0 IoWouldBlock))
      else ret (Err (makeSystemError systemErrorMessage
                       (lit "Buffer::readFdResult failed") err))
  end.

(** [write] accepted [n] bytes of the readable part. *)
Definition writeFdResult (write : str → io_outcome Z) : M Buffer (Result IoResult) :=
  let! b := get in
  let readable := readableBytes b in
  if readable =? 0 then ret (Value (mkIoResult 0 IoEmpty))
  else
    let! data := lift (mem_read (m_buffer b) (peek b) readable) in
    match write data with
    | IoDone n =>
        if 0 <? n then
          retrieve n;;;
          ret (Value (mkIoResult n IoOk))
        else ret (Value (mkIoResult 0 IoEndOfFile))
    | IoFail err =>
        if isWouldBlockError err then ret (Value (mkIoResult 0 IoWouldBlock))
        else ret (Err (makeSystemError systemErrorMessage
                         (lit "Buffer::writeFdResult failed") err))
    end.

Definition bytes_or_zero (r : Result IoResult) : Z :=
  match r with
  | Value (mkIoResult n IoOk) => n
  | _ => 0
  end.

Definition readFd (readv : io_outcome str) : M Buffer Z :=
  let! r := readFdResult readv in ret (bytes_or_zero r).
Definition writeFd (write : str → io_outcome Z) : M Buffer Z :=
  let! r := writeFdResult write in ret (bytes_or_zero r).

End fd_io.

(** ** Invariant and abstraction *)

(** The indices are ordered and within the vector, which holds at least the
    reserved bytes. *)
Definition inv (b : Buffer) : Prop :=
  0 ≤ m_readerIndex b ≤ m_writerIndex b ∧ m_writerIndex b ≤ zlen (m_buffer b) ∧
  kCheapPrepend ≤ zlen (m_buffer b) ≤ MAX_SIZE.

(** The bytes a client can read. *)
Definition content (b : Buffer) : str :=
  ztake (m_writerIndex b - m_readerIndex b) (zdrop (m_readerIndex b) (m_buffer b)).

(** [makeSpace] needs room for the reserved bytes: this fails after prepending into
    them when the tail is short too. *)
Definition can_grow (b : Buffer) (len : Z) : Prop :=
  len ≤ zlen (m_buffer b) - m_writerIndex b ∨
  m_writerIndex b = m_readerIndex b ∨
  kCheapPrepend ≤ zlen (m_buffer b) - m_writerIndex b + m_readerIndex b.

(** The vector has to grow, even without the bytes already read, and beyond
    [max_size()]. *)
Definition too_big (b : Buffer) (len : Z) : Prop :=
  zlen (m_buffer b) - m_writerIndex b < len ∧
  zlen (m_buffer b) < kCheapPrepend + (m_writerIndex b - m_readerIndex b) + len ∧
  MAX_SIZE < Z.max (2 * zlen (m_buffer b))
                   (kCheapPrepend + (m_writerIndex b - m_readerIndex b) + len).

(** The reserved bytes are untouched. *)
Definition unprepended (b : Buffer) : Prop := kCheapPrepend ≤ m_readerIndex b.

Ltac buf_lia :=
  unfold inv, can_grow, too_big, unprepended, capacity, kCheapPrepend, MAX_SIZE, in_u64 in *;
  cbn [m_buffer m_readerIndex m_writerIndex] in *; lia.

Section invariant_facts.
Context (b : Buffer) (Hb : inv b).

Lemma readableBytes_eq : readableBytes b = m_writerIndex b - m_readerIndex b.
Proof. apply u64_small. buf_lia. Qed.

Lemma writableBytes_eq : writableBytes b = zlen (m_buffer b) - m_writerIndex b.
Proof. apply u64_small. buf_lia. Qed.

Lemma zlen_content : zlen (content b) = m_writerIndex b - m_readerIndex b.
Proof.
  unfold content. rewrite zlen_ztake, zlen_zdrop by buf_lia. buf_lia.
Qed.

Lemma readableView_content : readableView b = Ok (content b).
Proof.
  unfold readableView, peek. rewrite readableBytes_eq. apply mem_read_Ok; buf_lia.
Qed.

Lemma mem_read_content len :
  0 ≤ len ≤ zlen (content b) →
  mem_read (m_buffer b) (peek b) len = Ok (ztake len (content b)).
Proof.
  rewrite zlen_content. intros Hl. unfold content, peek.
  rewrite mem_read_Ok by buf_lia. by rewrite ztake_ztake by lia.
Qed.

End invariant_facts.

Lemma Buffer_make_spec n : 0 ≤ n ≤ MAX_SIZE - kCheapPrepend →
  ∃ b, Buffer_make n = Ok b ∧ inv b ∧ content b = [] ∧ unprepended b ∧
       m_writerIndex b = kCheapPrepend ∧ zlen (m_buffer b) = kCheapPrepend + n.
Proof.
  intros Hn. unfold Buffer_make, vector_make. rewrite u64_small by buf_lia.
  replace (MAX_SIZE <? kCheapPrepend + n) with false by lia. simpl.
  eexists; split; [done|].
  pose proof (zlen_replicate (kCheapPrepend + n) NUL ltac:(buf_lia)) as Hl.
  split_and!; [|done|buf_lia|done|done]. unfold inv. simpl. rewrite Hl. buf_lia.
Qed.

(** ** Consuming *)

Lemma retrieve_spec b len : inv b → 0 ≤ len →
  ∃ b', retrieve len b = (Ok tt, b') ∧ inv b' ∧ content b' = zdrop len (content b) ∧
        capacity b' = capacity b ∧ (unprepended b → unprepended b').
Proof.
  intros Hb Hl. unfold retrieve, bind, get. rewrite readableBytes_eq by done.
  pose proof (zlen_content b Hb) as Hc.
  destruct (Z.ltb_spec len (m_writerIndex b - m_readerIndex b)) as [Hlt|Hge].
  - rewrite u64_small by buf_lia. eexists; split; [done|].
    split_and!; [buf_lia| |done|buf_lia]. unfold content. simpl.
    rewrite zdrop_ztake, zdrop_zdrop by buf_lia. f_equal. lia.
  - eexists; split; [done|]. split_and!; [buf_lia| |done|buf_lia].
    rewrite zdrop_all by lia. done.
Qed.

Lemma retrieveAsString_spec b len : inv b → 0 ≤ len →
  (zlen (content b) < len ∧ retrieveAsString len b = (Throw out_of_range, b)) ∨
  ∃ b', len ≤ zlen (content b) ∧ retrieveAsString len b = (Ok (ztake len (content b)), b') ∧
        inv b' ∧ content b' = zdrop len (content b) ∧
        capacity b' = capacity b ∧ (unprepended b → unprepended b').
Proof.
  intros Hb Hl. unfold retrieveAsString. run.
  rewrite readableBytes_eq by done. pose proof (zlen_content b Hb) as Hc.
  destruct (Z.ltb_spec (m_writerIndex b - m_readerIndex b) len); [left; split; [lia|done]|].
  right. destruct (retrieve_spec b len Hb Hl) as (b' & Hr & Hi & Hco & Hu).
  exists b'. split; [lia|]. split; [|done].
  rewrite mem_read_content by (done || lia). run. by rewrite (bind_Ok _ _ _ _ _ Hr).
Qed.

(** ** Growing *)

Lemma ztake_zdrop_mid {A} (a d c : list A) off :
  zlen a = off → ztake (zlen d) (zdrop off (a ++ d ++ c)) = d.
Proof.
  intros <-. rewrite zdrop_app_ge, Z.sub_diag, zdrop_0 by lia.
  rewrite ztake_app_le, ztake_all by lia. done.
Qed.

(** A vector that holds [data] behind the reserved bytes. *)
Lemma relocated v data v' :
  mem_write v kCheapPrepend data = Ok v' → kCheapPrepend ≤ zlen v ≤ MAX_SIZE →
  let b' := mkBuffer v' kCheapPrepend (kCheapPrepend + zlen data) in
  inv b' ∧ content b' = data ∧ zlen v' = zlen v ∧ unprepended b'.
Proof.
  intros Hw Hv. unfold mem_write in Hw. destruct (_ && _) eqn:E; [|done].
  injection Hw as <-. pose proof (zlen_nonneg data).
  assert (zlen (ztake kCheapPrepend v) = kCheapPrepend) as Ht
    by (rewrite zlen_ztake; buf_lia).
  assert (zlen (ztake kCheapPrepend v ++ data ++ zdrop (kCheapPrepend + zlen data) v)
          = zlen v) as Hz.
  { rewrite !zlen_app, Ht, zlen_zdrop by buf_lia. lia. }
  split_and!; [| |done|buf_lia].
  - unfold inv. simpl. rewrite Hz. buf_lia.
  - unfold content. simpl.
    replace (kCheapPrepend + zlen data - kCheapPrepend) with (zlen data) by lia.
    by apply ztake_zdrop_mid.
Qed.

(** The vector is never reallocated to more than twice what is needed. *)
Definition growth_bound (b : Buffer) (len : Z) (b' : Buffer) : Prop :=
  zlen (m_buffer b') ≤
    Z.max (zlen (m_buffer b)) (2 * (kCheapPrepend + zlen (content b) + len)).

(** What [makeSpace] and its callers achieve: room for [len] bytes, or
    [std::length_error], with the readable bytes unchanged. *)
Definition grown (b : Buffer) (len : Z) (out : res () * Buffer) : Prop :=
  let b' := snd out in
  inv b' ∧ content b' = content b ∧ (unprepended b → unprepended b') ∧
  ((fst out = Ok tt ∧ len ≤ zlen (m_buffer b') - m_writerIndex b' ∧ growth_bound b len b') ∨
   (fst out = Throw length_error ∧ too_big b len)).

(** The buffer after the first [if] of [makeSpace]. *)
Definition reset_if_empty (b : Buffer) : Buffer :=
  if m_writerIndex b - m_readerIndex b =? 0
  then mkBuffer (m_buffer b) kCheapPrepend kCheapPrepend else b.

Lemma reset_if_empty_spec b len : inv b → let b1 := reset_if_empty b in
  inv b1 ∧ m_buffer b1 = m_buffer b ∧ content b1 = content b ∧
  m_writerIndex b1 - m_readerIndex b1 = m_writerIndex b - m_readerIndex b ∧
  (unprepended b → unprepended b1) ∧
  (can_grow b len → zlen (m_buffer b) - m_writerIndex b < len →
   kCheapPrepend ≤ zlen (m_buffer b1) - m_writerIndex b1 + m_readerIndex b1).
Proof.
  intros Hb b1. subst b1. unfold reset_if_empty.
  destruct (Z.eqb_spec (m_writerIndex b - m_readerIndex b) 0) as [E|E].
  - split_and!; try buf_lia; [done|].
    rewrite (zlen_zero (content b)) by (rewrite zlen_content; done). done.
  - split_and!; try done; buf_lia.
Qed.

(** Moving the readable bytes behind the reserved ones, in place or in a new
    vector. *)
Lemma relocate_into b v :
  inv b → kCheapPrepend + zlen (content b) ≤ zlen v ≤ MAX_SIZE →
  ∃ v', mem_write v kCheapPrepend (content b) = Ok v' ∧ zlen v' = zlen v ∧
    let b' := mkBuffer v' kCheapPrepend (kCheapPrepend + zlen (content b)) in
    inv b' ∧ content b' = content b ∧ unprepended b'.
Proof.
  intros Hb Hv. pose proof (zlen_nonneg (content b)).
  destruct (mem_write v kCheapPrepend (content b)) as [v'|e| |] eqn:Ew.
  2-4: exfalso; unfold mem_write in Ew; destruct (_ && _) eqn:Eb in Ew; done || buf_lia.
  destruct (relocated _ _ _ Ew) as (Hi & Hco & Hz & Hu); [buf_lia|].
  by exists v'.
Qed.

Lemma makeSpace_spec b len : inv b → 0 ≤ len ≤ MAX_SIZE → can_grow b len →
  zlen (m_buffer b) - m_writerIndex b < len → grown b len (makeSpace len b).
Proof.
  intros Hb Hl Hg Hw. pose proof (zlen_content b Hb) as Hc.
  destruct (reset_if_empty_spec b len Hb) as (Hi1 & Hv1 & Hc1 & Hn1 & Hu1 & Hroom).
  specialize (Hroom Hg Hw).
  unfold makeSpace. run. rewrite readableBytes_eq by done. rewrite <- Hc in *.
  set (n := zlen (content b)) in *.
  assert (Hreset : (if n =? 0 then set_indices kCheapPrepend kCheapPrepend else ret tt) b
                   = (Ok tt, reset_if_empty b)).
  { unfold reset_if_empty. rewrite <- Hc. by destruct (n =? 0). }
  rewrite (bind_Ok _ _ _ _ _ Hreset). run. clear Hreset.
  set (b1 := reset_if_empty b) in *. clearbody b1.
  rewrite writableBytes_eq by done. unfold prependableBytes.
  rewrite mem_read_content by (done || (rewrite Hc1; fold n; unfold n; lia || buf_lia)).
  rewrite ztake_all, Hc1 by (rewrite Hc1; fold n; lia).
  assert (0 ≤ n) by apply zlen_nonneg.
  rewrite (u64_small (_ - m_writerIndex b1 + _)), (u64_small (_ - kCheapPrepend)),
    (u64_small (kCheapPrepend + n)), (u64_small (zlen _ * 2)),
    (u64_small (_ + len)) by buf_lia.
  destruct ((n =? 0) && _) eqn:Ez.
  { split_and!; try done. left. simpl. unfold growth_bound. rewrite Hv1 in *.
    split_and!; [done|lia|lia]. }
  case Z.leb_spec; intros Hfit.
  - (* move the bytes down *)
    destruct (relocate_into b (m_buffer b1)) as (v' & Ew & Hz & Hi & Hco & Hu);
      [done|fold n; buf_lia|].
    run. unfold store. run. rewrite Ew. run. unfold set_vector. run. simpl.
    split_and!; try done. left. simpl. unfold growth_bound. rewrite Hv1 in *. fold n.
    split_and!; [done|buf_lia|buf_lia].
  - (* a larger vector *)
    unfold vector_make.
    set (newSize := Z.max (zlen (m_buffer b1) * 2) (kCheapPrepend + n + len)).
    destruct (Z.ltb_spec MAX_SIZE newSize) as [Hbig|Hok].
    { run. split_and!; try done. right. simpl. split; [done|].
      unfold newSize in Hbig. rewrite Hv1 in *. unfold too_big. rewrite <- Hc. lia. }
    assert (kCheapPrepend + n + len ≤ newSize ≤ 2 * (kCheapPrepend + n + len))
      by (unfold newSize; rewrite Hv1 in *; buf_lia).
    clearbody newSize.
    pose proof (zlen_replicate newSize NUL ltac:(buf_lia)) as Hzr.
    destruct (relocate_into b (replicate (Z.to_nat newSize) NUL))
      as (v' & Ew & Hz & Hi & Hco & Hu); [done|rewrite Hzr; fold n; buf_lia|].
    run. rewrite Ew. run. unfold set_vector. run. simpl.
    split_and!; try done. left. unfold growth_bound. simpl. fold n.
    rewrite Hz, Hzr. split_and!; [done|lia|lia].
Qed.

Lemma ensureWritableBytes_spec b len : inv b → 0 ≤ len ≤ MAX_SIZE → can_grow b len →
  grown b len (ensureWritableBytes len b).
Proof.
  intros Hb Hl Hg. unfold ensureWritableBytes, bind, get, ret.
  rewrite writableBytes_eq by done.
  destruct (Z.ltb_spec (zlen (m_buffer b) - m_writerIndex b) len).
  - by apply makeSpace_spec.
  - split_and!; try done. left. simpl. unfold growth_bound. split_and!; lia || done.
Qed.

(** ** Appending *)

(** Storing [data] at the writer index and advancing it. *)
Lemma store_hasWritten b data :
  inv b → zlen data ≤ zlen (m_buffer b) - m_writerIndex b →
  ∃ b', (let! b := get in store (beginWrite b) data;;; hasWritten (zlen data)) b = (Ok tt, b') ∧
        inv b' ∧ content b' = content b ++ data ∧ m_readerIndex b' = m_readerIndex b ∧
        zlen (m_buffer b') = zlen (m_buffer b).
Proof.
  intros Hb Hd. pose proof (zlen_nonneg data). unfold store, hasWritten, beginWrite. run.
  rewrite mem_write_Ok by buf_lia. run. unfold set_vector. run.
  set (v' := ztake (m_writerIndex b) (m_buffer b) ++ data ++
             zdrop (m_writerIndex b + zlen data) (m_buffer b)).
  assert (Ht : zlen (ztake (m_writerIndex b) (m_buffer b)) = m_writerIndex b)
    by (rewrite zlen_ztake; buf_lia).
  assert (Hz : zlen v' = zlen (m_buffer b)).
  { unfold v'. rewrite !zlen_app, Ht, zlen_zdrop by buf_lia. lia. }
  unfold writableBytes. simpl. rewrite Hz, u64_small by buf_lia.
  replace (zlen data <=? _) with true by lia.
  rewrite u64_small by buf_lia. eexists; split; [done|].
  split_and!; [|unfold content; simpl|done|done].
  { unfold inv. simpl. rewrite Hz. buf_lia. }
  unfold v'. rewrite zdrop_app_le by buf_lia.
  rewrite zdrop_ztake by buf_lia. fold (content b).
  rewrite ztake_app_ge by (rewrite zlen_content by done; lia). f_equal.
  rewrite zlen_content, ztake_app_le, ztake_all by (done || lia). done.
Qed.

(** [append]: the bytes are added at the end, or [std::length_error]. *)
Definition appended (b : Buffer) (data : str) (out : res () * Buffer) : Prop :=
  let b' := snd out in
  inv b' ∧ (unprepended b → unprepended b') ∧
  ((fst out = Ok tt ∧ content b' = content b ++ data ∧ growth_bound b (zlen data) b') ∨
   (fst out = Throw length_error ∧ content b' = content b ∧ too_big b (zlen data))).

Lemma append_spec b data : inv b → zlen data ≤ MAX_SIZE → can_grow b (zlen data) →
  appended b data (append data b).
Proof.
  intros Hb Hd Hg. unfold append. pose proof (zlen_nonneg data).
  destruct (Z.eqb_spec (zlen data) 0) as [E|E].
  { rewrite (zlen_zero _ E). split_and!; try done. left. rewrite app_nil_r.
    split_and!; [done..|]. unfold growth_bound. simpl. lia. }
  destruct (ensureWritableBytes_spec b (zlen data)) as (Hi & Hc & Hu & Hr); [done|lia|done|].
  destruct (ensureWritableBytes (zlen data) b) as [r b1] eqn:Ee. simpl in *.
  destruct Hr as [(-> & Hw & Hgb)|[-> Hbig]].
  - rewrite (bind_Ok _ _ _ _ _ Ee).
    destruct (store_hasWritten b1 data Hi Hw) as (b2 & -> & Hi2 & Hc2 & Hr2 & Hz2).
    split_and!; [done|unfold unprepended in *; simpl; by rewrite Hr2|].
    left. unfold growth_bound in *. simpl. by rewrite Hc2, Hc, Hz2.
  - rewrite (bind_Throw _ _ _ _ _ Ee). split_and!; try done. by right.
Qed.

(** Far below [max_size()] appending cannot fail. *)
Lemma append_fits b data : inv b → unprepended b → zlen (m_buffer b) ≤ 2 ^ 62 →
  zlen (content b) + zlen data ≤ 2 ^ 60 →
  ∃ b', append data b = (Ok tt, b') ∧ inv b' ∧ unprepended b' ∧
        content b' = content b ++ data ∧ zlen (m_buffer b') ≤ 2 ^ 62.
Proof.
  intros Hb Hu Hz Hl. pose proof (zlen_nonneg (content b)).
  pose proof (zlen_content b Hb).
  destruct (append_spec b data) as (Hi & Hu' & Hr); [done|buf_lia|buf_lia|].
  destruct (append data b) as [r b']. simpl in *. exists b'.
  destruct Hr as [(-> & Hc & Hg)|(_ & _ & Hbig)]; [|buf_lia].
  split_and!; auto. unfold growth_bound in Hg. buf_lia.
Qed.

(** With room for the data nothing is reallocated. *)
Lemma append_in_place b data :
  inv b → zlen data ≤ zlen (m_buffer b) - m_writerIndex b →
  ∃ b', append data b = (Ok tt, b') ∧ inv b' ∧ content b' = content b ++ data ∧
        m_readerIndex b' = m_readerIndex b ∧ zlen (m_buffer b') = zlen (m_buffer b).
Proof.
  intros Hb Hd. unfold append, ensureWritableBytes.
  destruct (Z.eqb_spec (zlen data) 0) as [E|E].
  { exists b. rewrite (zlen_zero _ E), app_nil_r. done. }
  run. rewrite writableBytes_eq by done. replace (_ <? zlen data) with false by lia. run.
  exact (store_hasWritten b data Hb Hd).
Qed.

Lemma appendInteger_append native T v :
  appendInteger native T v = append (be_bytes T v).
Proof.
  unfold appendInteger, append. rewrite writeInteger_be, !zlen_be_bytes. by destruct T.
Qed.

Lemma appendInt_append native T v : appendInt native T v = append (be_bytes T v).
Proof.
  destruct T; simpl; first [apply appendInteger_append
    | unfold appendInt8, appendUInt8, appendByte; by rewrite object_bytes_single].
Qed.

(** ** Prepending *)

Lemma prepend_spec b data : inv b →
  (m_readerIndex b < zlen data ∧ prepend data b = (Throw out_of_range, b)) ∨
  ∃ b', prepend data b = (Ok tt, b') ∧ inv b' ∧ content b' = data ++ content b ∧
        m_readerIndex b' = m_readerIndex b - zlen data ∧
        m_writerIndex b' = m_writerIndex b ∧ zlen (m_buffer b') = zlen (m_buffer b).
Proof.
  intros Hb. unfold prepend. pose proof (zlen_nonneg data).
  destruct (Z.eqb_spec (zlen data) 0) as [E|E].
  { right. exists b. rewrite (zlen_zero _ E), zlen_nil. split_and!; try done. lia. }
  run. unfold prependableBytes.
  destruct (Z.ltb_spec (m_readerIndex b) (zlen data)); [by left|right].
  rewrite u64_small by buf_lia. unfold store, set_indices. run. simpl.
  rewrite mem_write_Ok by buf_lia. run. unfold set_vector, modify. simpl.
  set (r' := m_readerIndex b - zlen data).
  replace (r' + zlen data) with (m_readerIndex b) by (unfold r'; lia).
  assert (Ht : zlen (ztake r' (m_buffer b)) = r')
    by (rewrite zlen_ztake; unfold r'; buf_lia).
  assert (Hz : zlen (ztake r' (m_buffer b) ++ data ++ zdrop (m_readerIndex b) (m_buffer b))
               = zlen (m_buffer b)).
  { rewrite !zlen_app, Ht, zlen_zdrop by buf_lia. unfold r'. lia. }
  eexists; split; [done|]. split_and!; [|unfold content; simpl|done..].
  { unfold inv. simpl. rewrite Hz. unfold r'. buf_lia. }
  rewrite zdrop_app_ge, Ht, Z.sub_diag, zdrop_0 by lia.
  rewrite ztake_app_ge by (unfold r'; buf_lia). do 2 f_equal. unfold r'. lia.
Qed.

Lemma prependInt_prepend native T v : prependInt native T v = prepend (be_bytes T v).
Proof.
  assert (Hm : prependInteger native T v = prepend (be_bytes T v)).
  { unfold prependInteger, prepend. rewrite writeInteger_be, !zlen_be_bytes. by destruct T. }
  destruct T; simpl; try exact Hm;
    unfold prependInt8, prependUInt8, prependByte; by rewrite object_bytes_single.
Qed.

(** ** Reading integers *)

Lemma length_ztake_sizeof T (l : str) :
  sizeof T ≤ zlen l → length (ztake (sizeof T) l) = nbytes T.
Proof. intros H. unfold ztake, zlen, nbytes in *. rewrite length_take. lia. Qed.

Lemma peekInt_spec native T b : inv b →
  peekInt native T b =
    if zlen (content b) <? sizeof T then Throw out_of_range
    else Ok (be_value T (ztake (sizeof T) (content b))).
Proof.
  intros Hb. pose proof (zlen_content b Hb) as Hc.
  assert (Hread : ∀ f, (if readableBytes b <? sizeof T then Throw out_of_range
            else let? data := mem_read (m_buffer b) (peek b) (sizeof T) in Ok (f data))
          = if zlen (content b) <? sizeof T then Throw out_of_range
            else Ok (f (ztake (sizeof T) (content b))) : res Z).
  { intros f. rewrite readableBytes_eq, Hc by done. case Z.ltb_spec; intros; [done|].
    rewrite mem_read_content by (done || (destruct T; simpl in *; lia)). done. }
  assert (Hbig : peekInteger native T b = _) by apply Hread.
  assert (Hone : peekByte native T b = _) by apply Hread.
  destruct (Z.ltb_spec (zlen (content b)) (sizeof T)) as [|Hlen].
  - destruct T; done.
  - apply length_ztake_sizeof in Hlen.
    destruct T; simpl; first
      [ etrans; [exact Hbig|]; f_equal; by apply readInteger_be
      | etrans; [exact Hone|]; f_equal; by apply object_of_bytes_single ].
Qed.

Lemma readInt_spec native T b : inv b →
  (zlen (content b) < sizeof T ∧ readInt native T b = (Throw out_of_range, b)) ∨
  ∃ b', sizeof T ≤ zlen (content b) ∧
        readInt native T b = (Ok (be_value T (ztake (sizeof T) (content b))), b') ∧
        inv b' ∧ content b' = zdrop (sizeof T) (content b) ∧
        (unprepended b → unprepended b').
Proof.
  intros Hb. unfold readInt. run. rewrite peekInt_spec by done.
  destruct (Z.ltb_spec (zlen (content b)) (sizeof T)); run; [by left|right].
  destruct (retrieve_spec b (sizeof T) Hb) as (b' & Hr & ? & ? & ? & ?); [by destruct T|].
  exists b'. by rewrite (bind_Ok _ _ _ _ _ Hr).
Qed.

(** ** The unsafe case of [makeSpace] *)

Lemma ensureWritableBytes_undef b len : inv b → 0 ≤ len ≤ MAX_SIZE → ¬ can_grow b len →
  fst (ensureWritableBytes len b) = Undef.
Proof.
  intros Hb Hl Hg. unfold can_grow in Hg. pose proof (zlen_content b Hb) as Hc.
  unfold ensureWritableBytes, makeSpace. run. rewrite writableBytes_eq by done.
  replace (_ <? len) with true by lia. run. rewrite readableBytes_eq by done.
  replace (_ =? 0) with false by lia. run. simpl.
  rewrite writableBytes_eq by done. unfold prependableBytes.
  rewrite (u64_small (_ - m_writerIndex b + _)) by buf_lia.
  unfold u64, wrap. rewrite <- (Z.mod_add _ 1) by lia.
  rewrite Z.mod_small by buf_lia. replace (len <=? _) with true by buf_lia.
  rewrite mem_read_content, ztake_all by (done || lia || buf_lia). run.
  unfold store. run. unfold mem_write. rewrite Hc.
  replace (_ && _) with false by buf_lia. done.
Qed.

(** [append] never copies out of bounds except in one case, where it does: after
    a [prepend] into the reserved bytes, when the tail is too short for the data and
    tail and head together hold less than [kCheapPrepend] bytes, the subtraction in
    [makeSpace] wraps around and the readable bytes are moved past the end of the
    vector. *)
Lemma append_undef_iff b data :
  inv b → 0 < zlen data ≤ MAX_SIZE →
  (fst (append data b) = Undef ↔
   ¬ (zlen data ≤ writableBytes b ∨ readableBytes b = 0 ∨
      kCheapPrepend ≤ writableBytes b + prependableBytes b)).
Proof.
  intros Hb Hd. rewrite writableBytes_eq, readableBytes_eq by done.
  unfold prependableBytes. split.
  - intros Hu Hg. destruct (append_spec b data) as (_ & _ & H); [done|lia|buf_lia|].
    rewrite Hu in H. by destruct H as [[]|[]].
  - intros Hg. unfold append. replace (zlen data =? 0) with false by lia.
    pose proof (ensureWritableBytes_undef b (zlen data) Hb ltac:(lia) ltac:(buf_lia)) as He.
    unfold bind. destruct (ensureWritableBytes (zlen data) b) as [r b']. simpl in He.
    by subst r.
Qed.

(** ** Descriptor input and output *)

(** [readFdResult] stores what fits, then appends the rest from the stack buffer. *)
Lemma readFdResult_stored msg b data :
  inv b → unprepended b → zlen data ≤ readv_capacity b → 0 < zlen data →
  ∃ b1, inv b1 ∧ unprepended b1 ∧ content b1 = content b ++ ztake (writableBytes b) data ∧
    zlen (m_buffer b1) = zlen (m_buffer b) ∧
    readFdResult msg (IoDone data) b =
      (append (zdrop (writableBytes b) data);;; ret (Value (mkIoResult (zlen data) IoOk))) b1.
Proof.
  intros Hb Hu Hcap Hp. unfold readFdResult. run.
  replace (readv_capacity b <? zlen data) with false by lia.
  replace (0 <? zlen data) with true by lia.
  rewrite writableBytes_eq by done. set (w := zlen (m_buffer b) - m_writerIndex b).
  assert (Hw : zlen (ztake w data) = Z.min w (zlen data))
    by (rewrite zlen_ztake; unfold w; buf_lia).
  destruct (store_hasWritten b (ztake w data) Hb) as (b1 & Hs & Hi1 & Hc1 & Hr1 & Hz1);
    [fold w; lia|].
  revert Hs. unfold bind at 1, get at 1. intros Hs.
  destruct (store (beginWrite b) (ztake w data) b) as [[[]|e| |] bs] eqn:Est;
    unfold bind in Hs; rewrite Est in Hs; try done.
  rewrite (bind_Ok _ _ _ _ _ Est). exists b1.
  split_and!; [done|unfold unprepended in *; lia|done|done|].
  destruct (Z.leb_spec (zlen data) w) as [Hfit|Hover]; rewrite Hw in Hs.
  - rewrite Z.min_r in Hs by lia. rewrite (bind_Ok _ _ _ _ _ Hs), zdrop_all by lia. done.
  - rewrite Z.min_l in Hs by lia. rewrite bind_assoc, (bind_Ok _ _ _ _ _ Hs). done.
Qed.

(** Far below [max_size()] exactly the delivered bytes are appended. *)
Lemma readFdResult_fits msg b data :
  inv b → unprepended b → zlen (m_buffer b) ≤ 2 ^ 62 → zlen data ≤ readv_capacity b →
  zlen (content b) + zlen data ≤ 2 ^ 60 →
  ∃ b', readFdResult msg (IoDone data) b
        = (Ok (Value (mkIoResult (zlen data) (if 0 <? zlen data then IoOk else IoEndOfFile))), b') ∧
    inv b' ∧ unprepended b' ∧ content b' = content b ++ data ∧ zlen (m_buffer b') ≤ 2 ^ 62.
Proof.
  intros Hb Hu Hz Hcap Hl. pose proof (zlen_nonneg data).
  destruct (Z.ltb_spec 0 (zlen data)) as [Hp|Hn].
  - destruct (readFdResult_stored msg b data Hb Hu Hcap Hp)
      as (b1 & Hi1 & Hu1 & Hc1 & Hz1 & ->).
    destruct (append_fits b1 (zdrop (writableBytes b) data) Hi1 Hu1)
      as (b2 & Ha & Hi2 & Hu2 & Hc2 & Hz2); [lia| |].
    { rewrite Hc1, zlen_app, <- Z.add_assoc, <- zlen_app, ztake_zdrop. lia. }
    rewrite (bind_Ok _ _ _ _ _ Ha). exists b2. split_and!; try done.
    by rewrite Hc2, Hc1, <- app_assoc, ztake_zdrop.
  - assert (zlen data = 0) as E by lia. exists b. unfold readFdResult. run.
    replace (readv_capacity b <? zlen data) with false by lia.
    by rewrite E, (zlen_zero _ E), app_nil_r.
Qed.

(** [writeFdResult] removes from the front exactly the bytes the kernel accepted
    and hands it exactly the readable bytes; an empty buffer makes no system call,
    and a failed or refused write leaves the buffer unchanged. *)
Lemma writeFdResult_spec msg b write :
  inv b →
  let '(r, b') := writeFdResult msg write b in
  inv b' ∧ (unprepended b → unprepended b') ∧ zlen (m_buffer b') = zlen (m_buffer b) ∧
  if zlen (content b) =? 0 then b' = b ∧ r = Ok (Value (mkIoResult 0 IoEmpty))
  else match write (content b) with
       | IoDone n =>
           if 0 <? n then content b' = zdrop n (content b) ∧ r = Ok (Value (mkIoResult n IoOk))
           else b' = b ∧ r = Ok (Value (mkIoResult 0 IoEndOfFile))
       | IoFail err =>
           b' = b ∧ r = Ok (if isWouldBlockError err then Value (mkIoResult 0 IoWouldBlock)
                            else Err (makeSystemError msg (lit "Buffer::writeFdResult failed") err))
       end.
Proof.
  intros Hb. pose proof (zlen_content b Hb) as Hc. unfold writeFdResult. run.
  rewrite readableBytes_eq by done. rewrite <- Hc.
  destruct (Z.eqb_spec (zlen (content b)) 0); [done|].
  rewrite mem_read_content, ztake_all by (done || lia || (pose proof (zlen_nonneg (content b)); lia)).
  run. destruct (write (content b)) as [k|err].
  - destruct (Z.ltb_spec 0 k); [|done].
    destruct (retrieve_spec b k Hb) as (b' & Hr & Hi & Hco & Hcap & Hu); [lia|].
    rewrite (bind_Ok _ _ _ _ _ Hr). by split_and!.
  - by destruct (isWouldBlockError err).
Qed.

(** ** Refinement of a queue of bytes *)

Inductive op : Type :=
  | OpAppend (data : str)
  | OpAppendInt (T : int_type) (v : Z)
  | OpAppendCstr (data : option str)
  | OpAppendBuffer (other : Buffer)
  | OpPrepend (data : str)
  | OpPrependInt (T : int_type) (v : Z)
  | OpHasWritten (data : str)           (* [data] is written at [beginWrite()] first *)
  | OpRetrieve (len : Z)
  | OpRetrieveUntil (n : Z)             (* up to [peek() + n] *)
  | OpRetrieveAll
  | OpRetrieveAsString (len : Z)
  | OpRetrieveAllAsString
  | OpPeekInt (T : int_type)
  | OpReadInt (T : int_type)
  | OpEnsureWritable (len : Z)
  | OpUnwrite (len : Z)
  | OpShrink (reserve : Z)
  | OpView
  | OpFindEOL
  | OpFindCRLF.

(** What a client observes; positions count from [peek()]. *)
Inductive answer : Type :=
  | AUnit
  | AInt (z : Z)
  | AStr (s : str)
  | APos (p : option Z).

Definition answer_unit (m : M Buffer ()) : M Buffer answer := m;;; ret AUnit.
Definition relative (b : Buffer) (p : option Z) : answer := APos ((λ i, i - peek b) <$> p).

Definition exec (native : bool) (o : op) : M Buffer answer :=
  match o with
  | OpAppend data => answer_unit (append data)
  | OpAppendInt T v => answer_unit (appendInt native T v)
  | OpAppendCstr data => answer_unit (append_cstr data)
  | OpAppendBuffer other => answer_unit (append_buffer other)
  | OpPrepend data => answer_unit (prepend data)
  | OpPrependInt T v => answer_unit (prependInt native T v)
  | OpHasWritten data => answer_unit (let! b := get in store (beginWrite b) data;;; hasWritten (zlen data))
  | OpRetrieveUntil n => answer_unit (let! b := get in retrieveUntil (peek b + n))
  | OpRetrieve len => answer_unit (retrieve len)
  | OpRetrieveAll => answer_unit retrieveAll
  | OpRetrieveAsString len => let! s := retrieveAsString len in ret (AStr s)
  | OpRetrieveAllAsString => let! s := retrieveAllAsString in ret (AStr s)
  | OpPeekInt T => let! b := get in let! z := lift (peekInt native T b) in ret (AInt z)
  | OpReadInt T => let! z := readInt native T in ret (AInt z)
  | OpEnsureWritable len => answer_unit (ensureWritableBytes len)
  | OpUnwrite len => answer_unit (unwrite len)
  | OpShrink reserve => answer_unit (shrink reserve)
  | OpView => let! b := get in let! s := lift (readableView b) in ret (AStr s)
  | OpFindEOL => let! b := get in let! p := lift (findEOL b) in ret (relative b p)
  | OpFindCRLF => let! b := get in let! p := lift (findCRLF b) in ret (relative b p)
  end.

(** The bytes before the terminating NUL *)
Definition cstr (data : option str) : str :=
  match data with
  | None => []
  | Some d => match find_char NUL d with Some n => take n d | None => [] end
  end.

(** The specification: a list of bytes. *)
Definition spec (o : op) (l : str) : res answer * str :=
  match o with
  | OpAppend data => (Ok AUnit, l ++ data)
  | OpAppendInt T v => (Ok AUnit, l ++ be_bytes T v)
  | OpAppendCstr data => (Ok AUnit, l ++ cstr data)
  | OpAppendBuffer other => (Ok AUnit, l ++ content other)
  | OpPrepend data => (Ok AUnit, data ++ l)
  | OpPrependInt T v => (Ok AUnit, be_bytes T v ++ l)
  | OpHasWritten data => (Ok AUnit, l ++ data)
  | OpRetrieveUntil n => (Ok AUnit, zdrop n l)
  | OpRetrieve len => (Ok AUnit, zdrop len l)
  | OpRetrieveAll => (Ok AUnit, [])
  | OpRetrieveAsString len =>
      if zlen l <? len then (Throw out_of_range, l)
      else (Ok (AStr (ztake len l)), zdrop len l)
  | OpRetrieveAllAsString => (Ok (AStr l), [])
  | OpPeekInt T =>
      if zlen l <? sizeof T then (Throw out_of_range, l)
      else (Ok (AInt (be_value T (ztake (sizeof T) l))), l)
  | OpReadInt T =>
      if zlen l <? sizeof T then (Throw out_of_range, l)
      else (Ok (AInt (be_value T (ztake (sizeof T) l))), zdrop (sizeof T) l)
  | OpEnsureWritable _ | OpShrink _ => (Ok AUnit, l)
  | OpUnwrite len => (Ok AUnit, ztake (zlen l - len) l)
  | OpView => (Ok (AStr l), l)
  | OpFindEOL => (Ok (APos (Z.of_nat <$> find_char LF l)), l)
  | OpFindCRLF => (Ok (APos (Z.of_nat <$> find_sub [CR; LF] l)), l)
  end.

(** Arguments a caller may pass: lengths of objects in memory, terminated strings, pointers into
    the readable bytes, and no [hasWritten] or [unwrite] of more than there is. *)
Definition op_ok (o : op) (b : Buffer) : Prop :=
  match o with
  | OpAppend data => zlen data ≤ MAX_SIZE
  | OpAppendCstr (Some d) => is_Some (find_char NUL d) ∧ zlen d ≤ MAX_SIZE
  | OpAppendBuffer other => inv other
  | OpHasWritten data => zlen data ≤ writableBytes b
  | OpEnsureWritable len => 0 ≤ len ≤ MAX_SIZE
  | OpShrink reserve => 0 ≤ reserve ≤ MAX_SIZE ∧ kCheapPrepend + zlen (content b) + reserve ≤ 2 * MAX_SIZE
  | OpRetrieve len | OpRetrieveAsString len => 0 ≤ len
  | OpRetrieveUntil n | OpUnwrite n => 0 ≤ n ≤ zlen (content b)
  | _ => True
  end.

(** How many bytes the operation makes room for in this buffer *)
Definition needs (o : op) : option Z :=
  match o with
  | OpAppend data => Some (zlen data)
  | OpAppendInt T _ => Some (sizeof T)
  | OpAppendCstr data => Some (zlen (cstr data))
  | OpAppendBuffer other => Some (zlen (content other))
  | OpEnsureWritable len => Some len
  | _ => None
  end.

(** [makeSpace] will not copy out of bounds ([append_undef_iff]). *)
Definition room (o : op) (b : Buffer) : Prop :=
  match needs o with Some len => can_grow b len | None => True end.

Definition prepends (o : op) : bool := match o with OpPrepend _ | OpPrependInt _ _ => true | _ => false end.

(** The exceptions of an operation that the list of bytes does not explain: an allocation
    fails, or there are too few bytes in front of the reader index. *)
Definition refusal (o : op) : option exn :=
  match o with
  | OpAppend _ | OpAppendInt _ _ | OpAppendCstr _ | OpAppendBuffer _ | OpEnsureWritable _ | OpShrink _ => Some length_error
  | OpPrepend _ | OpPrependInt _ _ => Some out_of_range
  | _ => None
  end.

(** [out] is what the specification answers, or a refusal without effect. *)
Definition simulates (o : op) (b : Buffer) (out : res answer * Buffer) : Prop :=
  inv (snd out) ∧ (prepends o = false → unprepended b → unprepended (snd out)) ∧
  ((fst out, content (snd out)) = spec o (content b) ∨
   (∃ e, refusal o = Some e ∧ fst out = Throw e ∧ content (snd out) = content b)).

Lemma unprepended_can_grow b len : inv b → unprepended b → can_grow b len.
Proof. buf_lia. Qed.

Lemma answer_unit_run m b r b' :
  m b = (r, b') →
  answer_unit m b = (match r with Ok _ => Ok AUnit | Throw e => Throw e
                     | Undef => Undef | NoFuel => NoFuel end, b').
Proof. intros H. unfold answer_unit, bind. rewrite H. by destruct r. Qed.

(** An operation that comes down to [append] *)
Lemma exec_append native o data b : inv b → zlen data ≤ MAX_SIZE → can_grow b (zlen data) →
  exec native o b = answer_unit (append data) b → spec o (content b) = (Ok AUnit, content b ++ data) →
  refusal o = Some length_error → simulates o b (exec native o b).
Proof.
  intros Hb Hd Hg -> Hs Hf.
  destruct (append_spec b data) as (Hi & Hu' & Hr); [done..|].
  destruct (append data b) as [r b'] eqn:E. rewrite (answer_unit_run _ _ _ _ E). simpl in *.
  unfold simulates. simpl. rewrite Hs. destruct Hr as [(-> & -> & _)|(-> & -> & _)]; eauto 10.
Qed.

Lemma exec_prepend native o data b : inv b → exec native o b = answer_unit (prepend data) b →
  spec o (content b) = (Ok AUnit, data ++ content b) → refusal o = Some out_of_range → prepends o = true →
  simulates o b (exec native o b).
Proof.
  intros Hb -> Hs Hf Hp. unfold simulates. rewrite Hp, Hs.
  destruct (prepend_spec b data Hb) as [[_ E]|(b' & E & Hi & Hc & _)]; rewrite (answer_unit_run _ _ _ _ E); simpl; (split; [done|]; split; [done|]).
  - right. eauto.
  - left. by rewrite Hc.
Qed.

Lemma exec_shrink native n b : inv b → 0 ≤ n ≤ MAX_SIZE ∧ kCheapPrepend + zlen (content b) + n ≤ 2 * MAX_SIZE →
  simulates (OpShrink n) b (exec native (OpShrink n) b).
Proof.
  intros Hb Hn. pose proof (zlen_content b Hb) as Hc.
  cbn [exec]. unfold simulates.
  assert (Hs : shrink n b = (Throw length_error, b) ∨
    ∃ b', shrink n b = (Ok tt, b') ∧ inv b' ∧ unprepended b' ∧ content b' = content b).
  { unfold shrink. run. rewrite readableBytes_eq by done. rewrite u64_small by buf_lia.
    destruct (Z.le_gt_cases (zlen (content b) + n) (MAX_SIZE - kCheapPrepend)) as [Hle|Hgt].
    - right. destruct (Buffer_make_spec (zlen (content b) + n))
        as (b0 & Hm & Hi0 & Hc0 & Hu0 & Hw0 & Hz0); [buf_lia|].
      rewrite <- Hc, Hm, readableView_content by done. run.
      destruct (append_spec b0 (content b)) as (Hi & Hu' & Hr);
        [done|buf_lia|by apply unprepended_can_grow|].
      destruct (append (content b) b0) as [r b1]. simpl in *.
      assert (zlen (content b0) = 0) as Hl0 by (by rewrite Hc0).
      rewrite zlen_content in Hl0 by done.
      destruct Hr as [(-> & Hc1 & _)|(_ & _ & Hbig)].
      + exists b1. rewrite Hc1, Hc0. auto.
      + exfalso. unfold too_big in Hbig.
        buf_lia.
    - left. rewrite <- Hc. unfold Buffer_make, vector_make. rewrite u64_small by buf_lia.
      replace (_ <? _) with true by buf_lia. done. }
  destruct Hs as [Hs|(b' & Hs & Hi & Hu' & Hco)]; rewrite (answer_unit_run _ _ _ _ Hs); simpl.
  - eauto 10.
  - rewrite Hco. auto.
Qed.

Lemma exec_retrieveAsString native len b : inv b → 0 ≤ len →
  simulates (OpRetrieveAsString len) b (exec native (OpRetrieveAsString len) b).
Proof.
  intros Hb Ho. unfold simulates. cbn [exec spec].
  destruct (retrieveAsString_spec b len Hb Ho)
    as [[Hl Hr]|(b' & Hl & Hr & Hi & Hco & _ & Hu')].
  - rewrite (bind_Throw _ _ _ _ _ Hr). replace (_ <? len) with true by lia. auto.
  - rewrite (bind_Ok _ _ _ _ _ Hr). replace (_ <? len) with false by lia.
    simpl. rewrite Hco. auto.
Qed.

Lemma exec_retrieveAllAsString native b : inv b →
  simulates OpRetrieveAllAsString b (exec native OpRetrieveAllAsString b).
Proof.
  intros Hb. unfold simulates. cbn [exec spec]. unfold retrieveAllAsString. run.
  rewrite readableBytes_eq, <- zlen_content by done.
  destruct (retrieveAsString_spec b (zlen (content b)) Hb (zlen_nonneg _))
    as [[Hl _]|(b' & Hl & Hr & Hi & Hco & _ & Hu')]; [lia|].
  rewrite (bind_Ok _ _ _ _ _ Hr). simpl. rewrite Hco, ztake_all, zdrop_all by lia. auto.
Qed.

Lemma exec_readInt native T b : inv b →
  simulates (OpReadInt T) b (exec native (OpReadInt T) b).
Proof.
  intros Hb. unfold simulates. cbn [exec spec].
  destruct (readInt_spec native T b Hb) as [[Hl Hr]|(b' & Hl & Hr & Hi & Hco & Hu')].
  - rewrite (bind_Throw _ _ _ _ _ Hr). replace (_ <? sizeof T) with true by lia. auto.
  - rewrite (bind_Ok _ _ _ _ _ Hr). replace (_ <? sizeof T) with false by lia.
    simpl. rewrite Hco. auto.
Qed.

Lemma exec_ensureWritable native len b : inv b → can_grow b len → 0 ≤ len ≤ MAX_SIZE →
  simulates (OpEnsureWritable len) b (exec native (OpEnsureWritable len) b).
Proof.
  intros Hb Hg Ho. unfold simulates. cbn [exec].
  destruct (ensureWritableBytes_spec b len) as (Hi & Hco & Hu' & Hr); [done..|].
  destruct (ensureWritableBytes len b) as [r b'] eqn:E.
  rewrite (answer_unit_run _ _ _ _ E). simpl in *.
  destruct Hr as [[-> _]|[-> _]]; rewrite Hco; eauto 10.
Qed.

Lemma exec_unwrite native len b : inv b → 0 ≤ len ≤ zlen (content b) →
  simulates (OpUnwrite len) b (exec native (OpUnwrite len) b).
Proof.
  intros Hb Ho. pose proof (zlen_content b Hb) as Hc. unfold simulates. cbn [exec].
  assert (Hr : unwrite len b = (Ok tt, mkBuffer (m_buffer b) (m_readerIndex b)
                                         (m_writerIndex b - len))).
  { unfold unwrite. run. rewrite readableBytes_eq by done.
    replace (_ <=? _) with true by lia. rewrite u64_small by buf_lia. done. }
  rewrite (answer_unit_run _ _ _ _ Hr). simpl. split_and!; [buf_lia|done|left].
  f_equal. unfold content at 1. simpl. rewrite Hc. unfold content.
  rewrite ztake_ztake by lia. f_equal. lia.
Qed.

Lemma relative_offset b (p : option nat) :
  relative b ((λ i, peek b + Z.of_nat i) <$> p) = APos (Z.of_nat <$> p).
Proof. unfold relative. destruct p; simpl; do 2 f_equal. lia. Qed.

Lemma exec_hasWritten native data b : inv b → zlen data ≤ writableBytes b →
  simulates (OpHasWritten data) b (exec native (OpHasWritten data) b).
Proof.
  intros Hb Ho. rewrite writableBytes_eq in Ho by done. cbn [exec].
  destruct (store_hasWritten b data Hb Ho) as (b' & E & Hi & Hc & Hr & _). rewrite (answer_unit_run _ _ _ _ E).
  unfold simulates. simpl. rewrite Hc. split_and!; [done|unfold unprepended; by rewrite Hr|by left].
Qed.

Lemma exec_retrieveUntil native n b : inv b → 0 ≤ n ≤ zlen (content b) →
  simulates (OpRetrieveUntil n) b (exec native (OpRetrieveUntil n) b).
Proof.
  intros Hb Ho. pose proof (zlen_content b Hb) as Hc. cbn [exec].
  destruct (retrieve_spec b n Hb) as (b' & Hr & Hi & Hco & _ & Hu'); [lia|].
  assert (E : (let! b := get in retrieveUntil (peek b + n)) b = (Ok tt, b')).
  { unfold retrieveUntil, peek, beginWrite. run. replace (_ && _) with true by (symmetry; apply andb_true_iff; split; buf_lia).
    replace (m_readerIndex b + n - m_readerIndex b) with n by lia. rewrite u64_small by buf_lia. done. }
  rewrite (answer_unit_run _ _ _ _ E). unfold simulates. simpl. rewrite Hco. auto.
Qed.

Lemma exec_simulates native o b : inv b → op_ok o b → room o b → simulates o b (exec native o b).
Proof.
  intros Hb Ho Hg. destruct o as [data|T v|data|other|data|T v|data|len|n| |len| |T|T|len|len|n| | | ].
  - by apply (exec_append native (OpAppend data) data).
  - apply (exec_append native (OpAppendInt T v) (be_bytes T v)); rewrite ?zlen_be_bytes; try done; [by destruct T|].
    cbn [exec]. by rewrite appendInt_append.
  - apply (exec_append native (OpAppendCstr data) (cstr data)); try done; destruct data as [d|]; try done.
    + destruct Ho as [[n Hn] Hd]. cbn [cstr]. rewrite Hn. unfold zlen in *. rewrite length_take. lia.
    + destruct Ho as [[n Hn] Hd]. cbn [exec append_cstr cstr]. by rewrite Hn.
  - apply (exec_append native (OpAppendBuffer other) (content other)); try done.
    + rewrite zlen_content by done. cbn in Ho. buf_lia.
    + cbn [exec]. unfold append_buffer. by rewrite readableView_content.
  - by apply (exec_prepend native (OpPrepend data) data).
  - apply (exec_prepend native (OpPrependInt T v) (be_bytes T v)); try done. cbn [exec]. by rewrite prependInt_prepend.
  - by apply exec_hasWritten.
  - cbn [exec]. destruct (retrieve_spec b len Hb Ho) as (b' & Hr & Hi & Hco & _ & Hu').
    rewrite (answer_unit_run _ _ _ _ Hr). unfold simulates. simpl. rewrite Hco. auto.
  - by apply exec_retrieveUntil.
  - unfold simulates. simpl. split_and!; [buf_lia|buf_lia|by left].
  - by apply exec_retrieveAsString.
  - by apply exec_retrieveAllAsString.
  - unfold simulates. cbn [exec spec]. run. rewrite peekInt_spec by done.
    case Z.ltb_spec; intros; run; simpl; auto.
  - by apply exec_readInt.
  - by apply exec_ensureWritable.
  - by apply exec_unwrite.
  - by apply exec_shrink.
  - unfold simulates. cbn [exec spec]. run. rewrite readableView_content by done.
    run. simpl. auto.
  - unfold simulates. cbn [exec spec]. run. unfold findEOL.
    rewrite readableView_content by done. cbn [res_bind]. run. simpl.
    rewrite relative_offset. auto.
  - unfold simulates. cbn [exec spec]. run. unfold findCRLF.
    rewrite readableView_content by done. cbn [res_bind]. run. simpl.
    rewrite relative_offset. auto.
Qed.

(** A history of operations with their outcomes, as the specification allows it.  A refusal
    has no effect on the readable bytes. *)
Inductive history : str → list (op * res answer) → str → Prop :=
  | history_nil l : history l [] l
  | history_spec l o tr l' :
      history (snd (spec o l)) tr l' → history l ((o, fst (spec o l)) :: tr) l'
  | history_refused l o e tr l' :
      refusal o = Some e → history l tr l' → history l ((o, Throw e) :: tr) l'.

Fixpoint run_ops (native : bool) (os : list op) (b : Buffer)
    : list (op * res answer) * Buffer :=
  match os with
  | [] => ([], b)
  | o :: os => let '(r, b1) := exec native o b in
               let '(tr, b2) := run_ops native os b1 in ((o, r) :: tr, b2)
  end.

(** A condition holds before each operation of the run. *)
Fixpoint along (P : op → Buffer → Prop) (native : bool) (os : list op) (b : Buffer) : Prop :=
  match os with
  | [] => True
  | o :: os => P o b ∧ along P native os (snd (exec native o b))
  end.

Lemma unprepended_room o b : inv b → unprepended b → room o b.
Proof. intros Hb Hu. unfold room. destruct (needs o); [by apply unprepended_can_grow|done]. Qed.

Lemma run_simulates native os : ∀ b, inv b → along op_ok native os b →
  unprepended b ∧ Forall (λ o, prepends o = false) os ∨ along room native os b →
  let '(tr, b') := run_ops native os b in history (content b) tr (content b') ∧ inv b'.
Proof.
  induction os as [|o os IH]; intros b Hb Hok Hroom; simpl; [split; [constructor|done]|].
  destruct Hok as [Ho Hos].
  assert (Hg : room o b) by (destruct Hroom as [[Hu _]|[? _]]; [by apply unprepended_room|done]).
  destruct (exec_simulates native o b Hb Ho Hg) as (Hi & Hu' & Hr).
  assert (Hroom1 : unprepended (snd (exec native o b)) ∧ Forall (λ o, prepends o = false) os ∨
    along room native os (snd (exec native o b))).
  { destruct Hroom as [[Hu Hp]|[_ ?]]; [left|by right]. apply Forall_cons in Hp as [Hp ?]. auto. }
  specialize (IH _ Hi Hos Hroom1). clear Hroom Hroom1. destruct (exec native o b) as [r b1]. simpl in *.
  destruct (run_ops native os b1) as [tr b2]. destruct IH as [Hh ?].
  split; [|done]. destruct Hr as [Hr|(e & Hf & -> & Hc)].
  - assert (r = fst (spec o (content b))) as -> by (by rewrite <- Hr).
    apply history_spec. by rewrite <- Hr.
  - rewrite Hc in Hh. by constructor.
Qed.


(** ** Integers survive the wire *)

Definition append_all (native : bool) (vs : list (int_type * Z)) : M Buffer () :=
  foldr (λ '(T, v) k, appendInt native T v;;; k) (ret tt) vs.

Fixpoint read_all (native : bool) (Ts : list int_type) : M Buffer (list Z) :=
  match Ts with
  | [] => ret []
  | T :: Ts => let! v := readInt native T in
               let! vs := read_all native Ts in
               ret (v :: vs)
  end.

Definition wire (vs : list (int_type * Z)) : str := vs ≫= λ '(T, v), be_bytes T v.

Lemma append_all_content native vs : ∀ b b',
  inv b → unprepended b → append_all native vs b = (Ok tt, b') →
  inv b' ∧ content b' = content b ++ wire vs.
Proof.
  induction vs as [|[T v] vs IH]; intros b b' Hb Hu H; simpl in *.
  { injection H as <-. split; [done|]. unfold wire. simpl. by rewrite app_nil_r. }
  rewrite appendInt_append in H.
  destruct (append_spec b (be_bytes T v)) as (Hi & Hu' & Hr);
    [done|rewrite zlen_be_bytes; by destruct T|by apply unprepended_can_grow|].
  unfold bind in H. destruct (append (be_bytes T v) b) as [r b1]. simpl in *.
  destruct Hr as [(-> & Hc & _)|(-> & _)]; [|done].
  apply IH in H as [? Hc']; [|done|auto]. by rewrite Hc', Hc, <- app_assoc.
Qed.

Lemma read_all_wire native vs : ∀ b l,
  inv b → Forall (λ '(T, v), in_type T v) vs → content b = wire vs ++ l →
  ∃ b', read_all native (fst <$> vs) b = (Ok (snd <$> vs), b') ∧ inv b' ∧ content b' = l.
Proof.
  induction vs as [|[T v] vs IH]; intros b l Hb Hv Hc; simpl; [by exists b|].
  apply Forall_cons in Hv as [HT Hv]. simpl in Hc. rewrite <- app_assoc in Hc.
  pose proof (zlen_be_bytes T v) as Hlen. pose proof (zlen_nonneg (wire vs ++ l)).
  destruct (readInt_spec native T b Hb) as [[Hl _]|(b1 & _ & Hr & Hi & Hc1 & _)].
  { rewrite Hc, zlen_app in Hl. lia. }
  rewrite Hc, ztake_app_le, ztake_all, be_value_be_bytes in Hr by (done || lia).
  rewrite Hc, zdrop_app_ge, Hlen, Z.sub_diag, zdrop_0 in Hc1 by lia.
  destruct (IH b1 l) as (b2 & Hr2 & Hi2 & Hc2); [done..|].
  exists b2. rewrite (bind_Ok _ _ _ _ _ Hr), (bind_Ok _ _ _ _ _ Hr2). auto.
Qed.

(** Integers written on one host are read back on another, whatever the byte
    orders: after appending any sequence of values of the eight integer types to an
    empty buffer, the buffer holds their big-endian encodings and reading the same
    types in order returns exactly the values and empties the buffer. *)
Lemma integers_roundtrip writer reader vs b b1 :
  inv b → unprepended b → content b = [] →
  Forall (λ '(T, v), in_type T v) vs →
  append_all writer vs b = (Ok tt, b1) →
  content b1 = wire vs ∧
  ∃ b2, read_all reader (fst <$> vs) b1 = (Ok (snd <$> vs), b2) ∧ content b2 = [].
Proof.
  intros Hb Hu Hc Hv Ha.
  destruct (append_all_content writer vs b b1) as [Hi Hc1]; [done..|].
  rewrite Hc in Hc1. split; [done|].
  destruct (read_all_wire reader vs b1 []) as (b2 & ? & _ & ?);
    [done|done|by rewrite app_nil_r|eauto].
Qed.

(** ** Witnesses *)

(** A buffer of 8 writable bytes, filled, with a 64-bit header prepended. *)
Definition full_prepended : Buffer :=
  mkBuffer (replicate 16 NUL) 0 16.

Lemma full_prepended_reached :
  (let? b := Buffer_make 8 in
   Ok (snd (bind (append (replicate 8 NUL)) (λ _, prependUInt64 true 0) b)))
  = Ok full_prepended.
Proof. reflexivity. Qed.

Definition small_buffer : Buffer := mkBuffer (replicate 16 NUL) 8 8.

Lemma small_buffer_inv : inv small_buffer ∧ unprepended small_buffer.
Proof. unfold inv, unprepended, kCheapPrepend, MAX_SIZE, zlen. simpl. lia. Qed.

Definition ex_ops : list op :=
  [OpAppend (lit "ab"); OpAppendInt UInt16 513; OpPrepend (lit "h"); OpRetrieveUntil 2; OpPrepend (lit "0123456789x");
   OpRetrieveAsString 1; OpReadInt UInt16; OpReadInt Int8; OpHasWritten (lit "z"); OpView].

