(* ===== verification/Codec.v ===== *)
(** * [dbase::net::LengthFieldCodec] (code/src/net/length_field_codec.cpp)

    Length-prefixed frames over [Buffer]: the length field has 1, 2, 4 or 8 bytes and
    counts the payload or the whole frame.  64-bit arithmetic on lengths wraps as in
    the code. *)

From S2P Require Import Prelude Endian Buffer.
From stdpp Require Import base list strings.
From Stdlib Require Import ZArith Lia Ascii.

Local Open Scope Z_scope.

Inductive LengthMode : Type := PayloadOnly | WholeFrame.
Inductive DecodeStatus : Type :=
  | DecodeOk | NeedMoreData | InvalidLength | ExceedMaxFrameLength.

#[global] Instance LengthMode_eq_dec : EqDecision LengthMode.
Proof. solve_decision. Defined.

Record DecodeResult : Type := mkDecodeResult { dr_status : DecodeStatus; dr_payload : str }.

Record LengthFieldCodec : Type := mkCodec {
  m_lengthFieldBytes : Z;
  m_lengthMode : LengthMode;
  m_maxFrameLength : Z;
}.

Definition LengthFieldCodec_make (lengthFieldBytes : Z) (lengthMode : LengthMode)
    (maxFrameLength : Z) : res LengthFieldCodec :=
  if negb (lengthFieldBytes =? 1) && negb (lengthFieldBytes =? 2)
     && negb (lengthFieldBytes =? 4) && negb (lengthFieldBytes =? 8)
  then Throw invalid_argument
  else if maxFrameLength =? 0 then Throw invalid_argument
  else Ok (mkCodec lengthFieldBytes lengthMode maxFrameLength).

Section codec.
Context (native_little : bool) (c : LengthFieldCodec).

Definition peekLengthField (buffer : Buffer) : res Z :=
  let n := m_lengthFieldBytes c in
  if n =? 1 then peekUInt8 native_little buffer
  else if n =? 2 then peekUInt16 native_little buffer
  else if n =? 4 then peekUInt32 native_little buffer
  else if n =? 8 then peekUInt64 native_little buffer
  else Throw logic_error.

Definition appendLengthField (value : Z) : M Buffer () :=
  let n := m_lengthFieldBytes c in
  if n =? 1 then appendUInt8 native_little (u8 value)
  else if n =? 2 then appendUInt16 native_little (u16 value)
  else if n =? 4 then appendUInt32 native_little (u32 value)
  else if n =? 8 then appendUInt64 native_little (u64 value)
  else throw logic_error.

(** [encode(payload, outBuffer)] *)
Definition encode (payload : str) : M Buffer () :=
  let n := m_lengthFieldBytes c in
  let payloadLength := zlen payload in
  let frameLength := u64 (payloadLength + n) in
  let encodedLength :=
    match m_lengthMode c with PayloadOnly => payloadLength | WholeFrame => frameLength end in
  (if n =? 1 then if 2 ^ 8 - 1 <? encodedLength then throw length_error else ret tt
   else if n =? 2 then if 2 ^ 16 - 1 <? encodedLength then throw length_error else ret tt
   else if n =? 4 then if 2 ^ 32 - 1 <? encodedLength then throw length_error else ret tt
   else if n =? 8 then ret tt
   else throw logic_error);;;
  if m_maxFrameLength c <? frameLength then throw length_error
  else
    ensureWritableBytes frameLength;;;
    appendLengthField encodedLength;;;
    append payload.

(** [encode(payload)]: into a new buffer. *)
Definition encode_new (payload : str) : res Buffer :=
  let? outBuffer := Buffer_make (u64 (zlen payload + m_lengthFieldBytes c)) in
  match encode payload outBuffer with
  | (Ok _, b) => Ok b
  | (Throw e, _) => Throw e
  | (Undef, _) => Undef
  | (NoFuel, _) => NoFuel
  end.

Definition tryDecode : M Buffer DecodeResult :=
  let n := m_lengthFieldBytes c in
  let! buffer := get in
  if readableBytes buffer <? n then ret (mkDecodeResult NeedMoreData [])
  else
    let! encodedLength := lift (peekLengthField buffer) in
    if bool_decide (m_lengthMode c = WholeFrame) && (encodedLength <? n)
    then ret (mkDecodeResult InvalidLength [])
    else
      let '(payloadLength, frameLength) :=
        match m_lengthMode c with
        | PayloadOnly => (encodedLength, u64 (encodedLength + n))
        | WholeFrame => (u64 (encodedLength - n), encodedLength)
        end in
      if m_maxFrameLength c <? frameLength then ret (mkDecodeResult ExceedMaxFrameLength [])
      else if readableBytes buffer <? frameLength then ret (mkDecodeResult NeedMoreData [])
      else
        retrieve n;;;
        let! payload := retrieveAsString payloadLength in
        ret (mkDecodeResult DecodeOk payload).

End codec.

(** ** Frames *)

(** A codec the constructor returns. *)
Definition valid (c : LengthFieldCodec) : Prop :=
  (m_lengthFieldBytes c = 1 ∨ m_lengthFieldBytes c = 2 ∨
   m_lengthFieldBytes c = 4 ∨ m_lengthFieldBytes c = 8) ∧
  0 < m_maxFrameLength c < 2 ^ 64.

(** The unsigned type of the length field. *)
Definition field_type (c : LengthFieldCodec) : int_type :=
  if m_lengthFieldBytes c =? 1 then UInt8
  else if m_lengthFieldBytes c =? 2 then UInt16
  else if m_lengthFieldBytes c =? 4 then UInt32
  else UInt64.

Definition encoded_length (c : LengthFieldCodec) (payload : str) : Z :=
  match m_lengthMode c with
  | PayloadOnly => zlen payload
  | WholeFrame => zlen payload + m_lengthFieldBytes c
  end.

Definition frame (c : LengthFieldCodec) (payload : str) : str :=
  be_bytes (field_type c) (encoded_length c payload) ++ payload.

(** A payload whose frame is within the configured and the representable limits. *)
Definition encodable (c : LengthFieldCodec) (payload : str) : Prop :=
  encoded_length c payload < 2 ^ (8 * m_lengthFieldBytes c) ∧
  zlen payload + m_lengthFieldBytes c ≤ m_maxFrameLength c ∧
  zlen payload + m_lengthFieldBytes c ≤ MAX_SIZE.

Section valid_codec.
Context (native : bool) (c : LengthFieldCodec) (Hc : valid c).

Lemma make_valid n mode m :
  0 ≤ m < 2 ^ 64 → LengthFieldCodec_make n mode m = Ok c → c = mkCodec n mode m ∧ valid c.
Proof.
  intros Hm. unfold LengthFieldCodec_make.
  destruct (_ && _) eqn:E; [done|]. destruct (Z.eqb_spec m 0); [done|].
  intros [= <-]. split; [done|]. split; simpl; lia.
Qed.

Lemma sizeof_field : sizeof (field_type c) = m_lengthFieldBytes c.
Proof. destruct Hc as [[H|[H|[H|H]]] _]; unfold field_type; rewrite H; done. Qed.

Lemma field_range : 1 ≤ m_lengthFieldBytes c ≤ 8.
Proof. destruct Hc as [[H|[H|[H|H]]] _]; lia. Qed.

Lemma field_unsigned z :
  in_type (field_type c) z ↔ 0 ≤ z < 2 ^ (8 * m_lengthFieldBytes c).
Proof.
  rewrite <- sizeof_field. unfold in_type, field_type. by repeat case Z.eqb_spec.
Qed.

Lemma peekLengthField_spec b : inv b →
  peekLengthField native c b = peekInt native (field_type c) b.
Proof.
  intros Hb. unfold peekLengthField, field_type.
  destruct Hc as [[H|[H|[H|H]]] _]; rewrite H; done.
Qed.

Lemma appendLengthField_append v :
  0 ≤ v < 2 ^ (8 * m_lengthFieldBytes c) →
  appendLengthField native c v = append (be_bytes (field_type c) v).
Proof.
  intros Hv. rewrite <- (appendInt_append native). unfold appendLengthField, field_type.
  destruct Hc as [[H|[H|[H|H]]] _]; rewrite H in *; simpl;
    unfold u8, u16, u32, u64; by rewrite wrap_small.
Qed.

Lemma be_value_unsigned l :
  0 ≤ be_value (field_type c) l < 2 ^ (8 * m_lengthFieldBytes c).
Proof.
  rewrite <- sizeof_field. unfold be_value, cast.
  replace (is_signed (field_type c)) with false
    by (unfold field_type; by repeat case_match).
  apply wrap_range. unfold field_type. by repeat case_match.
Qed.

Lemma zlen_frame p : zlen (frame c p) = m_lengthFieldBytes c + zlen p.
Proof. unfold frame. by rewrite zlen_app, zlen_be_bytes, sizeof_field. Qed.

End valid_codec.

(** ** Encoding *)

Section encoding.
Context (native : bool) (c : LengthFieldCodec) (Hc : valid c).

Lemma encoded_length_range p : encodable c p →
  0 ≤ encoded_length c p < 2 ^ (8 * m_lengthFieldBytes c).
Proof.
  intros (H & _). split; [|done]. unfold encoded_length.
  pose proof (zlen_nonneg p). pose proof (field_range c Hc). by case_match; lia.
Qed.

(** The guards of [encode] in terms of exact lengths. *)
Lemma encode_run p b : zlen p ≤ MAX_SIZE →
  encode native c p b =
    if (encoded_length c p <? 2 ^ (8 * m_lengthFieldBytes c))
       && (zlen p + m_lengthFieldBytes c <=? m_maxFrameLength c)
    then (ensureWritableBytes (zlen p + m_lengthFieldBytes c);;;
          appendLengthField native c (encoded_length c p);;; append p) b
    else (Throw length_error, b).
Proof.
  intros Hp. pose proof (zlen_nonneg p). pose proof (field_range c Hc).
  unfold encode. rewrite (u64_small (zlen p + _)) by buf_lia.
  fold (encoded_length c p).
  assert (He : encoded_length c p < 2 ^ 64)
    by (unfold encoded_length; case_match; buf_lia).
  set (el := encoded_length c p) in *. set (fl := zlen p + m_lengthFieldBytes c).
  rewrite (Z.ltb_antisym fl).
  destruct Hc as [[H1|[H1|[H1|H1]]] _]; rewrite H1; simpl; unfold bind at 1.
  - destruct (Z.ltb_spec (2 ^ 8 - 1) el), (Z.ltb_spec el (2 ^ (8 * 1))), (fl <=? _);
      done || lia.
  - destruct (Z.ltb_spec (2 ^ 16 - 1) el), (Z.ltb_spec el (2 ^ (8 * 2))), (fl <=? _);
      done || lia.
  - destruct (Z.ltb_spec (2 ^ 32 - 1) el), (Z.ltb_spec el (2 ^ (8 * 4))), (fl <=? _);
      done || lia.
  - replace (el <? _) with true by lia. by destruct (fl <=? _).
Qed.

(** Reserving the frame and appending the field and the payload. *)
Lemma encode_frame p b : inv b → unprepended b → encodable c p →
  let out := encode native c p b in
  inv (snd out) ∧ unprepended (snd out) ∧
  ((fst out = Ok tt ∧ content (snd out) = content b ++ frame c p) ∨
   (fst out = Throw length_error ∧ content (snd out) = content b ∧
    too_big b (zlen p + m_lengthFieldBytes c))).
Proof.
  intros Hb Hu Hp. pose proof (encoded_length_range p Hp) as Hl.
  destruct Hp as (H1 & H2 & H3). pose proof (field_range c Hc).
  pose proof (zlen_nonneg p).
  rewrite encode_run by lia. replace (_ && _) with true by lia.
  destruct (ensureWritableBytes_spec b (zlen p + m_lengthFieldBytes c))
    as (Hi & Hco & Hu' & Hr); [done|lia|by apply unprepended_can_grow|].
  destruct (ensureWritableBytes _ b) as [r b1] eqn:E. simpl in *.
  destruct Hr as [(-> & Hroom & _)|[-> Hbig]].
  2: { rewrite (bind_Throw _ _ _ _ _ E). simpl. auto 6. }
  rewrite (bind_Ok _ _ _ _ _ E), appendLengthField_append by done.
  pose proof (zlen_be_bytes (field_type c) (encoded_length c p)) as Hz.
  rewrite sizeof_field in Hz by done.
  destruct (append_in_place b1 (be_bytes (field_type c) (encoded_length c p)))
    as (b2 & Ha & Hi2 & Hc2 & Hr2 & Hz2); [done|lia|].
  rewrite (bind_Ok _ _ _ _ _ Ha).
  pose proof (zlen_content b2 Hi2) as Hl2. rewrite Hc2, zlen_app in Hl2.
  rewrite zlen_content in Hl2 by done.
  destruct (append_in_place b2 p) as (b3 & -> & Hi3 & Hc3 & Hr3 & _); [done|lia|].
  simpl. split_and!; [done|unfold unprepended in *; rewrite Hr3, Hr2; auto|].
  left. split; [done|]. rewrite Hc3, Hc2, Hco, <- app_assoc. done.
Qed.

(** Whether [encode] accepts a payload. *)
Definition encodableb (p : str) : bool :=
  (encoded_length c p <? 2 ^ (8 * m_lengthFieldBytes c))
  && (zlen p + m_lengthFieldBytes c <=? m_maxFrameLength c).

Lemma encodableb_spec p : zlen p ≤ MAX_SIZE - 8 → encodableb p = true ↔ encodable c p.
Proof.
  intros. pose proof (field_range c Hc). unfold encodableb, encodable.
  rewrite andb_true_iff. lia.
Qed.

Lemma encode_spec p b : inv b → unprepended b → zlen p ≤ MAX_SIZE - 8 →
  let out := encode native c p b in
  inv (snd out) ∧ unprepended (snd out) ∧
  if encodableb p
  then (fst out = Ok tt ∧ content (snd out) = content b ++ frame c p) ∨
       (fst out = Throw length_error ∧ content (snd out) = content b ∧
        too_big b (zlen p + m_lengthFieldBytes c))
  else out = (Throw length_error, b).
Proof.
  intros Hb Hu Hp. destruct (encodableb p) eqn:E.
  - apply encode_frame; [done..|]. by apply encodableb_spec.
  - simpl. rewrite encode_run by lia. fold (encodableb p). by rewrite E.
Qed.

End encoding.

(** ** Decoding *)

(** [tryDecode] over a list of bytes, with exact arithmetic. *)
Definition decode_spec (c : LengthFieldCodec) (l : str) : DecodeResult * str :=
  let n := m_lengthFieldBytes c in
  if zlen l <? n then (mkDecodeResult NeedMoreData [], l)
  else
    let len := be_value (field_type c) (ztake n l) in
    let frameLength := match m_lengthMode c with PayloadOnly => len + n | WholeFrame => len end in
    if frameLength <? n then (mkDecodeResult InvalidLength [], l)
    else if m_maxFrameLength c <? frameLength
    then (mkDecodeResult ExceedMaxFrameLength [], l)
    else if zlen l <? frameLength then (mkDecodeResult NeedMoreData [], l)
    else (mkDecodeResult DecodeOk (ztake (frameLength - n) (zdrop n l)), zdrop frameLength l).

(** The length field of [l] makes the 64-bit frame length wrap around to a value
    that passes the length limit. *)
Definition length_wraps (c : LengthFieldCodec) (l : str) : bool :=
  let n := m_lengthFieldBytes c in
  let len := be_value (field_type c) (ztake n l) in
  bool_decide (m_lengthMode c = PayloadOnly) && (n <=? zlen l) &&
  (2 ^ 64 <=? len + n) && (len + n - 2 ^ 64 <=? m_maxFrameLength c).

Section decoding.
Context (native : bool) (c : LengthFieldCodec) (Hc : valid c).

Lemma tryDecode_take b p rest : inv b →
  content b = p ++ rest → m_lengthFieldBytes c ≤ zlen p →
  ∃ b', (retrieve (m_lengthFieldBytes c);;;
         let! payload := retrieveAsString (zlen p - m_lengthFieldBytes c) in
         ret (mkDecodeResult DecodeOk payload)) b
        = (Ok (mkDecodeResult DecodeOk (zdrop (m_lengthFieldBytes c) p)), b') ∧
        inv b' ∧ content b' = rest ∧ capacity b' = capacity b ∧
        (unprepended b → unprepended b').
Proof.
  intros Hb Hp Hn. pose proof (field_range c Hc). pose proof (zlen_nonneg rest).
  destruct (retrieve_spec b (m_lengthFieldBytes c) Hb) as (b1 & Hr & Hi & Hco & Hcap & Hu);
    [lia|].
  rewrite (bind_Ok _ _ _ _ _ Hr). rewrite Hp, zdrop_app_le in Hco by lia.
  pose proof (zlen_zdrop (m_lengthFieldBytes c) p ltac:(lia)) as Hz.
  destruct (retrieveAsString_spec b1 (zlen p - m_lengthFieldBytes c) Hi)
    as [[Hlt _]|(b2 & _ & Hr2 & Hi2 & Hc2 & Hcap2 & Hu2)]; [lia| |].
  { rewrite Hco, zlen_app in Hlt. lia. }
  rewrite (bind_Ok _ _ _ _ _ Hr2). exists b2.
  rewrite Hco in *. rewrite ztake_app_le, ztake_all by lia.
  split_and!; [done|done| |congruence|auto].
  rewrite Hc2, zdrop_app_ge, Hz, Z.sub_diag, zdrop_0 by lia. done.
Qed.

End decoding.

(** Without wrap-around [tryDecode] is its specification. *)
Lemma tryDecode_run native c b : valid c → inv b → length_wraps c (content b) = false →
  let '(r, b') := tryDecode native c b in
  inv b' ∧ (unprepended b → unprepended b') ∧ capacity b' = capacity b ∧
  r = Ok (fst (decode_spec c (content b))) ∧ content b' = snd (decode_spec c (content b)).
Proof.
  intros Hc Hb Hw. pose proof (field_range c Hc). pose proof (zlen_content b Hb) as Hzc.
  unfold tryDecode, decode_spec. run. rewrite readableBytes_eq by done. rewrite <- Hzc.
  set (l := content b) in *. set (n := m_lengthFieldBytes c) in *.
  destruct (Z.ltb_spec (zlen l) n) as [|Hn]; [done|].
  rewrite peekLengthField_spec, peekInt_spec by done. fold l. rewrite sizeof_field by done.
  fold n. replace (zlen l <? n) with false by lia. run.
  pose proof (be_value_unsigned c Hc (ztake n l)) as Hlen. fold n in Hlen.
  unfold length_wraps in Hw. fold n in Hw.
  set (len := be_value (field_type c) (ztake n l)) in *.
  assert (2 ^ (8 * n) ≤ 2 ^ 64) by (apply Z.pow_le_mono_r; lia).
  assert (∀ fl, n ≤ fl ≤ zlen l → ∃ b',
    (retrieve n;;; let! payload := retrieveAsString (fl - n) in
       ret (mkDecodeResult DecodeOk payload)) b
    = (Ok (mkDecodeResult DecodeOk (ztake (fl - n) (zdrop n l))), b') ∧
    inv b' ∧ content b' = zdrop fl l ∧ capacity b' = capacity b ∧
    (unprepended b → unprepended b')) as Htake.
  { intros fl Hfl. pose proof (zlen_ztake fl l ltac:(lia)) as Hzt.
    destruct (tryDecode_take c Hc b (ztake fl l) (zdrop fl l)) as (b' & Hr & ?);
      [done|by rewrite ztake_zdrop|fold n; lia|].
    exists b'. rewrite Hzt, Z.min_l, zdrop_ztake in Hr by lia. done. }
  destruct (m_lengthMode c); simpl in *.
  - replace (len + n <? n) with false by lia.
    destruct (Z.lt_ge_cases (len + n) (2 ^ 64)) as [Hs|Hbig].
    + rewrite u64_small by (unfold in_u64; lia).
      destruct (m_maxFrameLength c <? len + n); [done|].
      destruct (Z.ltb_spec (zlen l) (len + n)); [done|].
      destruct (Htake (len + n)) as (b' & Hr & ? & ? & ? & ?); [lia|].
      replace (len + n - n) with len in * by lia. by rewrite Hr.
    + (* a wrapped length that passes the limit is excluded *)
      assert (u64 (len + n) = len + n - 2 ^ 64) as ->.
      { unfold u64, wrap. rewrite <- (Z.mod_add _ (-1)), Z.mod_small; lia. }
      destruct Hc as [_ Hmax].
      replace (m_maxFrameLength c <? len + n) with true by lia.
      by replace (m_maxFrameLength c <? _) with true by lia.
  - destruct (Z.ltb_spec len n); [done|].
    rewrite u64_small by (unfold in_u64; lia).
    destruct (m_maxFrameLength c <? len); [done|].
    destruct (Z.ltb_spec (zlen l) len); [done|].
    destruct (Htake len) as (b' & Hr & ? & ? & ? & ?); [lia|]. by rewrite Hr.
Qed.

(** A wrapped length: the field is consumed and the payload read fails. *)
Lemma tryDecode_wraps native c b : valid c → inv b → length_wraps c (content b) = true →
  ∃ b', tryDecode native c b = (Throw out_of_range, b') ∧ inv b' ∧
        (unprepended b → unprepended b') ∧ capacity b' = capacity b ∧
        content b' = zdrop (m_lengthFieldBytes c) (content b).
Proof.
  intros Hc Hb Hw. pose proof (field_range c Hc). pose proof (zlen_content b Hb) as Hzc.
  unfold length_wraps in Hw. set (n := m_lengthFieldBytes c) in *.
  pose proof (be_value_unsigned c Hc (ztake n (content b))) as Hlen. fold n in Hlen.
  assert (2 ^ (8 * n) ≤ 2 ^ 64) by (apply Z.pow_le_mono_r; lia).
  unfold tryDecode. fold n. run. rewrite readableBytes_eq, <- Hzc by done.
  rewrite peekLengthField_spec, peekInt_spec, sizeof_field by done. fold n.
  set (len := be_value (field_type c) (ztake n (content b))) in *.
  apply andb_true_iff in Hw as [Hw Hlim]. apply andb_true_iff in Hw as [Hw Hbig].
  apply andb_true_iff in Hw as [Hmode Hfit]. apply bool_decide_eq_true in Hmode.
  rewrite Hmode. replace (zlen (content b) <? n) with false by lia. run. simpl.
  assert (u64 (len + n) = len + n - 2 ^ 64) as ->.
  { unfold u64, wrap. rewrite <- (Z.mod_add _ (-1)), Z.mod_small; lia. }
  replace (m_maxFrameLength c <? _) with false by lia.
  replace (zlen (content b) <? _) with false by lia.
  destruct (retrieve_spec b n Hb) as (b1 & Hr & Hi & Hco & Hcap & Hu); [lia|].
  rewrite (bind_Ok _ _ _ _ _ Hr). exists b1.
  destruct (retrieveAsString_spec b1 len Hi) as [[_ Hs]|(b2 & Hle & _)]; [lia| |].
  - by rewrite (bind_Throw _ _ _ _ _ Hs).
  - pose proof (zlen_content b1 Hi). buf_lia.
Qed.

(** C32: [tryDecode] decodes exactly: it behaves as the specification over the readable
    bytes with exact arithmetic and consumes a frame only when it returns its payload,
    except when the length field wraps the 64-bit frame length around to one within
    the limit; then it throws [std::out_of_range] after consuming the field. *)
Theorem tryDecode_exact native c b : valid c → inv b →
  let '(r, b') := tryDecode native c b in
  inv b' ∧ (unprepended b → unprepended b') ∧
  if length_wraps c (content b)
  then r = Throw out_of_range ∧ content b' = zdrop (m_lengthFieldBytes c) (content b)
  else r = Ok (fst (decode_spec c (content b))) ∧
       content b' = snd (decode_spec c (content b)).
Proof.
  intros Hc Hb. destruct (length_wraps c (content b)) eqn:Hw.
  - destruct (tryDecode_wraps native c b Hc Hb Hw) as (b' & -> & ? & ? & _ & ?). done.
  - pose proof (tryDecode_run native c b Hc Hb Hw) as H.
    destruct (tryDecode native c b) as [r b']. tauto.
Qed.

(** [encode] appends exactly the frame of the payload, leaving what the buffer held in
    front of it, or throws [std::length_error]: with the buffer untouched when the length
    does not fit the field or the frame exceeds the limit, and otherwise only when the
    vector cannot grow. *)
Lemma encode_exact native c p b : valid c → inv b → unprepended b →
  zlen p ≤ MAX_SIZE - 8 →
  let '(r, b') := encode native c p b in
  inv b' ∧ unprepended b' ∧
  if encodableb c p
  then (r = Ok tt ∧ content b' = content b ++ frame c p) ∨
       (r = Throw length_error ∧ content b' = content b ∧
        too_big b (zlen p + m_lengthFieldBytes c))
  else r = Throw length_error ∧ b' = b.
Proof.
  intros Hc Hb Hu Hp. pose proof (encode_spec native c Hc p b Hb Hu Hp) as H.
  destruct (encode native c p b) as [r b']. simpl in H. destruct (encodableb c p); [done|].
  destruct H as (? & ? & [= -> ->]). done.
Qed.

(** ** Decoding a stream of frames *)

Section frames.
Context (c : LengthFieldCodec) (Hc : valid c).

(** What a proper prefix of a frame still misses. *)
Definition incomplete (part : str) : Prop :=
  ∃ q k, encodable c q ∧ k ≠ [] ∧ part ++ k = frame c q.

Lemma frame_field p l : encodable c p →
  ztake (m_lengthFieldBytes c) (frame c p ++ l)
  = be_bytes (field_type c) (encoded_length c p).
Proof.
  intros Hp. unfold frame. rewrite <- app_assoc, ztake_app_le;
    [apply ztake_all|]; rewrite zlen_be_bytes, sizeof_field by done; lia.
Qed.

Lemma frame_field_value p l : encodable c p →
  be_value (field_type c) (ztake (m_lengthFieldBytes c) (frame c p ++ l))
  = encoded_length c p.
Proof.
  intros Hp. rewrite frame_field by done. apply be_value_be_bytes.
  apply field_unsigned; [done|]. by apply encoded_length_range.
Qed.

Lemma decode_frame p l : encodable c p →
  decode_spec c (frame c p ++ l) = (mkDecodeResult DecodeOk p, l).
Proof.
  intros Hp. unfold decode_spec. rewrite frame_field_value by done.
  pose proof (zlen_frame c Hc p) as Hz. pose proof (zlen_nonneg p).
  pose proof (zlen_nonneg l). pose proof (field_range c Hc).
  destruct Hp as (_ & Hm & _). rewrite zlen_app, Hz.
  set (n := m_lengthFieldBytes c) in *.
  replace (_ <? n) with false by lia.
  replace (match m_lengthMode c with PayloadOnly => encoded_length c p + n
           | WholeFrame => encoded_length c p end) with (n + zlen p)
    by (unfold encoded_length; fold n; destruct (m_lengthMode c); lia).
  replace (n + zlen p <? n) with false by lia.
  replace (m_maxFrameLength c <? _) with false by lia.
  replace (_ <? n + zlen p) with false by lia.
  rewrite (zdrop_app_ge (n + zlen p)), Hz, Z.sub_diag, zdrop_0 by lia. f_equal. f_equal.
  assert (zlen (be_bytes (field_type c) (encoded_length c p)) = n) as Hb
    by (by rewrite zlen_be_bytes, sizeof_field).
  unfold frame. rewrite <- app_assoc, zdrop_app_ge, Hb, Z.sub_diag, zdrop_0 by lia.
  rewrite ztake_app_le, ztake_all by lia. done.
Qed.

Lemma incomplete_field part : incomplete part → m_lengthFieldBytes c ≤ zlen part →
  ∃ q, encodable c q ∧ zlen part < zlen (frame c q) ∧
    be_value (field_type c) (ztake (m_lengthFieldBytes c) part) = encoded_length c q.
Proof.
  intros (q & k & Hq & Hk & He) Hl. exists q. split_and!; [done| |].
  - rewrite <- He, zlen_app. destruct k; [done|]. rewrite zlen_cons.
    pose proof (zlen_nonneg k). lia.
  - rewrite <- (frame_field_value q []) by done.
    by rewrite app_nil_r, <- He, ztake_app_le.
Qed.

Lemma decode_incomplete part : incomplete part →
  decode_spec c part = (mkDecodeResult NeedMoreData [], part).
Proof.
  intros Hi. unfold decode_spec. destruct (Z.ltb_spec (zlen part) (m_lengthFieldBytes c));
    [done|].
  destruct (incomplete_field part Hi) as (q & (_ & Hm & _) & Hz & ->); [done|].
  rewrite zlen_frame in Hz by done. pose proof (field_range c Hc). pose proof (zlen_nonneg q).
  unfold encoded_length. set (n := m_lengthFieldBytes c) in *.
  destruct (m_lengthMode c); (replace (_ <? n) with false by lia);
    (replace (m_maxFrameLength c <? _) with false by lia);
    (by replace (zlen part <? _) with true by lia).
Qed.

Lemma encodable_no_wrap q l : encodable c q →
  be_value (field_type c) (ztake (m_lengthFieldBytes c) l) = encoded_length c q →
  length_wraps c l = false.
Proof.
  intros (_ & Hm & _) He. unfold length_wraps. rewrite He. unfold encoded_length.
  destruct Hc as [_ Hmax]. destruct (m_lengthMode c); simpl; lia.
Qed.

Lemma frame_no_wrap p l : encodable c p → length_wraps c (frame c p ++ l) = false.
Proof. intros Hp. apply (encodable_no_wrap p); [done|]. by apply frame_field_value. Qed.

Lemma incomplete_no_wrap part : incomplete part → length_wraps c part = false.
Proof.
  intros Hi. destruct (Z.le_gt_cases (m_lengthFieldBytes c) (zlen part)).
  - destruct (incomplete_field part Hi) as (q & ? & _ & ?); [done|].
    by apply (encodable_no_wrap q).
  - unfold length_wraps. replace (_ <=? zlen part) with false by lia.
    by rewrite andb_false_r.
Qed.

(** The bytes of a sequence of frames. *)
Definition frames (ps : list str) : str := concat (frame c <$> ps).

Lemma frames_cons p ps : frames (p :: ps) = frame c p ++ frames ps.
Proof. done. Qed.

(** Cutting a stream anywhere cuts it after some frames, inside the next one. *)
Lemma frames_cut ps : ∀ part l1 l2,
  Forall (encodable c) ps → incomplete part → l1 ++ l2 = frames ps ++ part →
  ∃ ps1 ps2 part1, ps = ps1 ++ ps2 ∧ l1 = frames ps1 ++ part1 ∧ incomplete part1 ∧
    part1 ++ l2 = frames ps2 ++ part.
Proof.
  induction ps as [|p ps IH]; intros part l1 l2 Hps Hi He.
  - exists [], [], l1. unfold frames in *. simpl in *. split_and!; try done.
    destruct Hi as (q & k & Hq & Hk & Hf). exists q, (l2 ++ k). split_and!; [done| |].
    + intros [-> ->]%app_nil. done.
    + by rewrite app_assoc, He.
  - apply Forall_cons in Hps as [Hp Hps]. rewrite frames_cons, <- app_assoc in He.
    apply app_eq_inv in He as [(k & -> & He)|(k & Hk & He)].
    + destruct (IH part k l2) as (ps1 & ps2 & part1 & -> & -> & Hp1 & H2); [done..|].
      exists (p :: ps1), ps2, part1. split_and!; try done.
      by rewrite frames_cons, <- app_assoc.
    + destruct k as [|x k].
      * (* the cut is right after the frame *)
        rewrite app_nil_r in Hk. simpl in He.
        destruct (IH part [] l2) as (ps1 & ps2 & part1 & -> & H1 & Hp1 & H2); [done..|].
        exists (p :: ps1), ps2, part1. split_and!; try done.
        by rewrite frames_cons, <- app_assoc, <- H1, app_nil_r.
      * exists [], (p :: ps), l1. split_and!; try done.
        { by exists p, (x :: k). }
        by rewrite frames_cons, Hk, He, <- !app_assoc.
Qed.

Lemma nonempty_frames_complete p ps part l :
  encodable c p → incomplete l → l = frames (p :: ps) ++ part → False.
Proof.
  intros Hp Hl ->. apply decode_incomplete in Hl.
  by rewrite frames_cons, <- app_assoc, decode_frame in Hl.
Qed.

Lemma frames_length ps : Z.of_nat (length ps) ≤ zlen (frames ps).
Proof.
  induction ps as [|p ps IH]; [done|]. rewrite frames_cons, zlen_app, zlen_frame by done.
  pose proof (field_range c Hc). pose proof (zlen_nonneg p). simpl. lia.
Qed.

(** Decoding consumes from the front. *)
Lemma decode_spec_suffix l : ∃ k, 0 ≤ k ∧ snd (decode_spec c l) = zdrop k l.
Proof.
  pose proof (field_range c Hc). unfold decode_spec.
  destruct (zlen l <? m_lengthFieldBytes c); [by exists 0|].
  set (fl := match m_lengthMode c with PayloadOnly => _ | WholeFrame => _ end).
  destruct (Z.ltb_spec fl (m_lengthFieldBytes c)); [by exists 0|].
  destruct (_ <? fl); [by exists 0|]. destruct (Z.ltb_spec (zlen l) fl); [by exists 0|].
  exists fl. split; [lia|done].
Qed.

(** What [tryDecode] does to the buffer, in all cases. *)
Lemma tryDecode_cases native b : inv b →
  ∃ r b' k, tryDecode native c b = (r, b') ∧ inv b' ∧ (unprepended b → unprepended b') ∧
    capacity b' = capacity b ∧ 0 ≤ k ∧ content b' = zdrop k (content b) ∧
    (r = Throw out_of_range ∧ length_wraps c (content b) = true ∨
     r = Ok (fst (decode_spec c (content b))) ∧
       content b' = snd (decode_spec c (content b))).
Proof.
  intros Hb. destruct (length_wraps c (content b)) eqn:Hw.
  - destruct (tryDecode_wraps native c b Hc Hb Hw) as (b' & Ht & ? & ? & ? & ?).
    pose proof (field_range c Hc). eexists _, b', _. split_and!; eauto. lia.
  - pose proof (tryDecode_run native c b Hc Hb Hw) as Ht.
    destruct (tryDecode native c b) as [r b']. destruct Ht as (? & ? & ? & ? & Hco).
    destruct (decode_spec_suffix (content b)) as (k & ? & Hk).
    eexists _, b', k. split_and!; auto. by rewrite Hco.
Qed.

(** Every frame decoded shortens the input. *)
Lemma decode_spec_shorter l p rest :
  decode_spec c l = (mkDecodeResult DecodeOk p, rest) → zlen rest < zlen l.
Proof.
  pose proof (field_range c Hc). unfold decode_spec.
  destruct (Z.ltb_spec (zlen l) (m_lengthFieldBytes c)); [done|].
  set (fl := match m_lengthMode c with PayloadOnly => _ | WholeFrame => _ end).
  destruct (Z.ltb_spec fl (m_lengthFieldBytes c)); [done|].
  destruct (_ <? fl); [done|]. destruct (Z.ltb_spec (zlen l) fl); [done|].
  intros [= _ <-]. rewrite zlen_zdrop by lia. lia.
Qed.

End frames.

(** ** Witnesses *)

(** An 8-byte length field of [2^64 - 1] passes the limit as a frame of 7 bytes. *)
Definition wrap_codec : LengthFieldCodec := mkCodec 8 PayloadOnly 1024.
Definition wrap_buffer : Buffer :=
  snd (append (replicate 8 (byte_of_Z 255) ++ lit "xyz") small_buffer).

Lemma small_valid n mode m : (n = 1 ∨ n = 2 ∨ n = 4 ∨ n = 8) → 0 < m < 2 ^ 64 →
  valid (mkCodec n mode m).
Proof. by split. Qed.

Lemma tryDecode_exact_witness :
  fst (tryDecode true wrap_codec wrap_buffer) = Throw out_of_range ∧
  content (snd (tryDecode true wrap_codec wrap_buffer)) = lit "xyz".
Proof.
  pose proof (tryDecode_exact true wrap_codec wrap_buffer
    (small_valid 8 PayloadOnly 1024 ltac:(auto) ltac:(lia))
    ltac:(unfold inv; vm_compute; repeat split; discriminate)) as H.
  vm_compute in H. destruct H as (_ & _ & H). exact H.
Defined.
