(* ===== verification/FramedServer.v ===== *)
(** * [dbase::net::FramedTcpServer] (code/src/net/framed_tcp_server.cpp)

    The framing layer of the TCP server: [send] encodes a payload into a fresh buffer,
    [onRawMessage] decodes every complete frame of the input buffer, hands its payload
    to the frame callback and closes the connection on a bad length.  The callbacks are
    a list of events; a payload callback does not touch the input buffer, which it never
    receives. *)

From S2P Require Import Prelude Endian Buffer Codec.
From stdpp Require Import base list strings.
From Stdlib Require Import ZArith Lia Ascii.

Local Open Scope Z_scope.

Inductive FrameEvent : Type :=
  | FrameMessage (payload : str)
  | ForceClose.

(** The input buffer of a connection and the events so far. *)
Abbreviation Session := (Buffer * list FrameEvent)%type.

Definition on_buffer {A} (m : M Buffer A) : M Session A :=
  λ s, let '(r, b) := m (fst s) in (r, (b, snd s)).
Definition emit (e : FrameEvent) : M Session () := modify (λ s, (fst s, snd s ++ [e])).

Record FramedTcpServer : Type := mkFramed {
  m_codec : LengthFieldCodec;
  m_frameMessageCallback : bool;  (* whether a callback is set *)
}.

Definition setFrameMessageCallback (cb : bool) (s : FramedTcpServer) : FramedTcpServer :=
  mkFramed (m_codec s) cb.

Section server.
Context (native_little : bool) (server : FramedTcpServer) (conn : bool).

(** The bytes [send] passes to [conn->send]; [conn] says whether the pointer is set. *)
Definition send (payload : str) : res str :=
  if negb conn then Throw invalid_argument
  else
    let? out := Buffer_make kInitialSize in
    match encode native_little (m_codec server) payload out with
    | (Ok _, out) => readableView out
    | (Throw e, _) => Throw e
    | (Undef, _) => Undef
    | (NoFuel, _) => NoFuel
    end.

(** [for (;;)] of [onRawMessage] *)
Fixpoint onRawMessage_loop (fuel : nat) : M Session () :=
  match fuel with
  | O => lift NoFuel
  | S fuel =>
      let! result := on_buffer (tryDecode native_little (m_codec server)) in
      match dr_status result with
      | DecodeOk =>
          (if m_frameMessageCallback server then emit (FrameMessage (dr_payload result))
           else ret tt);;;
          onRawMessage_loop fuel
      | NeedMoreData => ret tt
      | InvalidLength | ExceedMaxFrameLength =>
          if conn then emit ForceClose else ret tt
      end
  end.

(** Every round but the last consumes a length field. *)
Definition onRawMessage : M Session () :=
  let! s := get in onRawMessage_loop (S (Z.to_nat (readableBytes (fst s)))).

(** Data arriving from the peer in [chunks], the message callback run after each. *)
Fixpoint receive (chunks : list str) : M Session () :=
  match chunks with
  | [] => ret tt
  | chunk :: chunks => on_buffer (append chunk);;; onRawMessage;;; receive chunks
  end.

End server.

(** ** Lemmas *)

Lemma on_buffer_run {A} (m : M Buffer A) b t r b' :
  m b = (r, b') → on_buffer m (b, t) = (r, (b', t)).
Proof. intros H. unfold on_buffer. simpl. by rewrite H. Qed.

Section server_facts.
Context (native : bool) (server : FramedTcpServer) (conn : bool).
Let c := m_codec server.
Context (Hc : valid c).

Lemma onRawMessage_loop_total fuel : ∀ b t, inv b → unprepended b →
  zlen (content b) < Z.of_nat fuel →
  let '(r, (b', _)) := onRawMessage_loop native server conn fuel (b, t) in
  (r = Ok tt ∨ r = Throw out_of_range) ∧ inv b' ∧ unprepended b'.
Proof.
  induction fuel as [|fuel IH]; intros b t Hb Hu Hf;
    [pose proof (zlen_nonneg (content b)); lia|].
  simpl. destruct (length_wraps c (content b)) eqn:Hw.
  - destruct (tryDecode_wraps native c b Hc Hb Hw) as (b' & Ht & ? & ? & _).
    rewrite (bind_Throw _ _ _ _ _ (on_buffer_run _ _ t _ _ Ht)). auto.
  - pose proof (tryDecode_run native c b Hc Hb Hw) as Ht.
    destruct (tryDecode native c b) as [r b'] eqn:Et.
    destruct Ht as (Hi & Hu' & _ & -> & Hco). fold c.
    rewrite (bind_Ok _ _ _ _ _ (on_buffer_run _ _ t _ _ Et)).
    destruct (decode_spec c (content b)) as [[st p] rest] eqn:Ed. simpl in *.
    destruct st.
    2-4: destruct conn; simpl; auto 6.
    apply decode_spec_shorter in Ed; [|done]. unfold emit.
    destruct (m_frameMessageCallback server); run; simpl; apply IH; auto; rewrite Hco; lia.
Qed.

(** Delivering complete frames followed by the beginning of one. *)
Lemma onRawMessage_loop_frames ps part : ∀ fuel b t,
  m_frameMessageCallback server = true →
  inv b → unprepended b → Forall (encodable c) ps → incomplete c part →
  content b = frames c ps ++ part → Z.of_nat (length ps) < Z.of_nat fuel →
  ∃ b', onRawMessage_loop native server conn fuel (b, t)
        = (Ok tt, (b', t ++ (FrameMessage <$> ps))) ∧
        inv b' ∧ unprepended b' ∧ content b' = part ∧ capacity b' = capacity b.
Proof.
  intros fuel b t Hcb. revert fuel b t.
  induction ps as [|p ps IH]; intros fuel b t Hb Hu Hps Hpart Hco Hf;
    (destruct fuel as [|fuel]; [simpl in Hf; lia|]); simpl.
  - unfold frames in Hco. simpl in Hco. fold c.
    pose proof (tryDecode_run native c b Hc Hb) as Ht. rewrite Hco in Ht.
    rewrite incomplete_no_wrap, decode_incomplete in Ht by done. specialize (Ht eq_refl).
    destruct (tryDecode native c b) as [r b'] eqn:Et.
    destruct Ht as (Hi & Hu' & Hcap & -> & Hco').
    rewrite (bind_Ok _ _ _ _ _ (on_buffer_run _ _ t _ _ Et)). simpl.
    exists b'. rewrite app_nil_r. auto 6.
  - apply Forall_cons in Hps as [Hp Hps]. fold c.
    rewrite frames_cons, <- app_assoc in Hco.
    pose proof (tryDecode_run native c b Hc Hb) as Ht. rewrite Hco in Ht.
    rewrite frame_no_wrap, decode_frame in Ht by done. specialize (Ht eq_refl).
    destruct (tryDecode native c b) as [r b1] eqn:Et.
    destruct Ht as (Hi & Hu' & Hcap & -> & Hco').
    rewrite (bind_Ok _ _ _ _ _ (on_buffer_run _ _ t _ _ Et)). simpl.
    rewrite Hcb. unfold emit. run. simpl.
    destruct (IH fuel b1 (t ++ [FrameMessage p])) as (b' & -> & ? & ? & ? & ?);
      [auto..|simpl in Hf; lia|].
    exists b'. rewrite <- app_assoc. split_and!; [done..|congruence].
Qed.

Lemma onRawMessage_frames ps part b t :
  m_frameMessageCallback server = true →
  inv b → unprepended b → Forall (encodable c) ps → incomplete c part →
  content b = frames c ps ++ part →
  ∃ b', onRawMessage native server conn (b, t) = (Ok tt, (b', t ++ (FrameMessage <$> ps))) ∧
        inv b' ∧ unprepended b' ∧ content b' = part ∧ capacity b' = capacity b.
Proof.
  intros Hcb Hb Hu Hps Hpart Hco. unfold onRawMessage. run. cbn [fst].
  apply (onRawMessage_loop_frames ps part); try done.
  rewrite readableBytes_eq, <- zlen_content, Hco, zlen_app by done.
  pose proof (zlen_nonneg part).
  pose proof (frames_length c Hc ps). lia.
Qed.

Lemma receive_frames chunks : ∀ ps part b t,
  m_frameMessageCallback server = true →
  inv b → unprepended b → capacity b ≤ 2 ^ 62 →
  Forall (encodable c) ps → incomplete c part → incomplete c (content b) →
  content b ++ concat chunks = frames c ps ++ part →
  zlen (content b) + zlen (concat chunks) ≤ 2 ^ 60 →
  ∃ b', receive native server conn chunks (b, t)
        = (Ok tt, (b', t ++ (FrameMessage <$> ps))) ∧
        inv b' ∧ unprepended b' ∧ content b' = part.
Proof.
  induction chunks as [|chunk chunks IH];
    intros ps part b t Hcb Hb Hu Hcap Hps Hpart Hin Hs Hz; simpl in *.
  - rewrite app_nil_r in Hs. destruct ps as [|p ps].
    + exists b. rewrite app_nil_r. done.
    + apply Forall_cons in Hps as [Hp _].
      by destruct (nonempty_frames_complete c Hc p ps part (content b)).
  - rewrite zlen_app in Hz. pose proof (zlen_nonneg (concat chunks)).
    destruct (append_fits b chunk) as (b1 & Ha & Hi1 & Hu1 & Hc1 & Hz1); [done..|lia|].
    rewrite (bind_Ok _ _ _ _ _ (on_buffer_run _ _ t _ _ Ha)).
    rewrite app_assoc, <- Hc1 in Hs.
    destruct (frames_cut c ps part _ _ Hps Hpart Hs)
      as (ps1 & ps2 & part1 & -> & Hco1 & Hpart1 & Hs2).
    apply Forall_app in Hps as [Hps1 Hps2].
    destruct (onRawMessage_frames ps1 part1 b1 t) as (b2 & Hr & Hi2 & Hu2 & Hco2 & Hcap2);
      [done..|].
    rewrite (bind_Ok _ _ _ _ _ Hr).
    assert (zlen part1 ≤ zlen (content b) + zlen chunk).
    { rewrite <- zlen_app, <- Hc1, Hco1, zlen_app. pose proof (zlen_nonneg (frames c ps1)). lia. }
    destruct (IH ps2 part b2 (t ++ (FrameMessage <$> ps1))) as (b' & -> & ?); auto.
    + unfold capacity in *. lia.
    + by rewrite Hco2.
    + by rewrite Hco2.
    + rewrite Hco2. lia.
    + exists b'. by rewrite fmap_app, app_assoc.
Qed.

(** [send] produces the frame of its payload. *)
Lemma send_frame p w : zlen p ≤ MAX_SIZE - 8 →
  send native server conn p = Ok w → encodable c p ∧ w = frame c p.
Proof.
  intros Hp. unfold send. destruct conn; [|done]. cbn [negb].
  destruct (Buffer_make_spec kInitialSize) as (b & -> & Hb & Hco & Hu & _);
    [unfold kInitialSize; buf_lia|]. cbn [res_bind]. fold c.
  destruct (encode_spec native c Hc p b) as (Hi & _ & H); [done..|].
  destruct (encode native c p b) as [r b']. simpl in *.
  destruct (encodableb c p) eqn:E; [|by injection H as -> ->].
  destruct H as [[-> Hc']|[-> _]]; [|done].
  unfold readableView. rewrite readableBytes_eq by done.
  unfold inv in Hi. rewrite mem_read_Ok by (unfold peek; lia).
  intros [= <-]. split; [by apply encodableb_spec|]. unfold peek.
  fold (content b'). by rewrite Hc', Hco.
Qed.

End server_facts.

(** C10: the framing layer is a faithful channel over a byte stream: whatever payloads a
    peer sends with [send], and however TCP cuts the bytes into chunks, the receiver's
    callback gets exactly these payloads, in order, once each, with no other event, and
    the buffer holds only the beginning of the next frame.  Neither side's byte order
    matters. *)
Theorem stream_delivery writer reader server ps wires part chunks b :
  valid (m_codec server) → m_frameMessageCallback server = true →
  inv b → unprepended b → capacity b ≤ 2 ^ 62 → content b = [] →
  Forall (λ p, zlen p ≤ MAX_SIZE - 8) ps →
  Forall2 (λ p w, send writer server true p = Ok w) ps wires →
  incomplete (m_codec server) part →
  concat chunks = concat wires ++ part → zlen (concat chunks) ≤ 2 ^ 60 →
  ∃ b', receive reader server true chunks (b, []) = (Ok tt, (b', FrameMessage <$> ps)) ∧
        content b' = part.
Proof.
  intros Hc Hcb Hb Hu Hcap Hco Hp Hw Hpart Hs Hz.
  assert (Forall (encodable (m_codec server)) ps ∧ wires = frame (m_codec server) <$> ps)
    as [Hps ->].
  { clear - Hc Hp Hw. revert Hp. induction Hw as [|p w ps ws H Hw IH]; [done|].
    intros [Hp1 Hp2]%Forall_cons. destruct (IH Hp2) as [? ->].
    apply send_frame in H as [? ->]; [|done..]. simpl. auto. }
  destruct (receive_frames reader server true Hc chunks ps part b [])
    as (b' & Hr & _ & _ & ?); try done.
  - destruct Hpart as (q & k & Hq & Hk & He). rewrite Hco. exists q, (frame (m_codec server) q).
    split_and!; [done| |done]. intros Hf. rewrite Hf in He. by apply app_nil in He as [_ ?].
  - by rewrite Hco.
  - by rewrite Hco.
  - by exists b'.
Qed.

(** [onRawMessage] terminates on every input, well-formed or not: it returns, or
    [tryDecode] throws on a wrapped length; it never touches memory out of bounds. *)
Lemma onRawMessage_total native server conn b t :
  valid (m_codec server) → inv b → unprepended b →
  let '(r, (b', _)) := onRawMessage native server conn (b, t) in
  (r = Ok tt ∨ r = Throw out_of_range) ∧ inv b' ∧ unprepended b'.
Proof.
  intros Hc Hb Hu. unfold onRawMessage. run. apply onRawMessage_loop_total; [done..|].
  simpl. rewrite readableBytes_eq, <- zlen_content by done.
  pose proof (zlen_nonneg (content b)). lia.
Qed.

(** ** Witnesses *)

Definition ex_server : FramedTcpServer := mkFramed (mkCodec 2 PayloadOnly 64) true.
Definition ex_chunks : list str :=
  [[NUL]; [byte_of_Z 2] ++ lit "h"; lit "i" ++ [NUL; byte_of_Z 1] ++ lit "!" ++ [NUL]].

Lemma stream_delivery_witness : ∃ b',
  receive true ex_server true ex_chunks (small_buffer, [])
  = (Ok tt, (b', [FrameMessage (lit "hi"); FrameMessage (lit "!")])) ∧ content b' = [NUL].
Proof.
  apply (stream_delivery false true ex_server [lit "hi"; lit "!"]
    [[NUL; byte_of_Z 2] ++ lit "hi"; [NUL; byte_of_Z 1] ++ lit "!"] [NUL] ex_chunks small_buffer).
  - apply small_valid; auto; lia.
  - reflexivity.
  - exact (proj1 small_buffer_inv).
  - exact (proj2 small_buffer_inv).
  - vm_compute. discriminate.
  - reflexivity.
  - repeat constructor; vm_compute; discriminate.
  - repeat constructor; vm_compute; reflexivity.
  - exists (lit "q"), ([byte_of_Z 1] ++ lit "q"). split_and!; [|discriminate|reflexivity].
    split_and!; vm_compute; (reflexivity || discriminate).
  - reflexivity.
  - vm_compute. discriminate.
Defined.
