(* ===== verification/Channel.v ===== *)
(** * [dbase::net::Channel] (code/src/net/channel.cpp, channel.h)

    A descriptor with the events its owner wants, the events the poller reported and the
    four callbacks.  Event masks are 32-bit integers.  Every change of the wanted events
    is passed on to the poller of the loop, which is a class: [Poller.v] gives its two
    implementations.  The pointer to a channel is its field [addr]. *)

From S2P Require Import Prelude.
From stdpp Require Import base gmap list.
From Stdlib Require Import ZArith Lia.

Local Open Scope Z_scope.

Definition kNoneEvent : Z := 0.
Definition kReadEvent : Z := Z.shiftl 1 0.
Definition kWriteEvent : Z := Z.shiftl 1 1.
Definition kErrorEvent : Z := Z.shiftl 1 2.
Definition kCloseEvent : Z := Z.shiftl 1 3.

(** [~mask] on [std::uint32_t] *)
Definition u32_not (mask : Z) : Z := Z.lxor mask (Z.ones 32).

Record Channel : Type := mkChannel {
  addr : Z;
  m_fd : Z;
  m_events : Z;
  m_revents : Z;
  m_edgeTriggered : bool;
  m_tied : bool;
}.

Definition kInvalidSocket : Z := -1.

(** The constructor, with whether the loop is set and the address of the new object. *)
Definition Channel_make (this : Z) (loop : bool) (fd : Z) : res Channel :=
  if negb loop then Throw invalid_argument
  else if fd =? kInvalidSocket then Throw invalid_argument
  else Ok (mkChannel this fd kNoneEvent kNoneEvent false false).

Definition set_events (e : Z) (ch : Channel) : Channel :=
  mkChannel (addr ch) (m_fd ch) e (m_revents ch) (m_edgeTriggered ch) (m_tied ch).
Definition setRevents (e : Z) (ch : Channel) : Channel :=
  mkChannel (addr ch) (m_fd ch) (m_events ch) e (m_edgeTriggered ch) (m_tied ch).
Definition set_edge (on : bool) (ch : Channel) : Channel :=
  mkChannel (addr ch) (m_fd ch) (m_events ch) (m_revents ch) on (m_tied ch).
(** [tie]: the owner itself is given to [handleEvent]. *)
Definition tie (ch : Channel) : Channel :=
  mkChannel (addr ch) (m_fd ch) (m_events ch) (m_revents ch) (m_edgeTriggered ch) true.

Definition isNoneEvent (ch : Channel) : bool := m_events ch =? kNoneEvent.
Definition isReading (ch : Channel) : bool := negb (Z.land (m_events ch) kReadEvent =? 0).
Definition isWriting (ch : Channel) : bool := negb (Z.land (m_events ch) kWriteEvent =? 0).

(** ** What a channel asks of a poller *)

Class PollerOps (P : Type) : Type := {
  updateChannel : option Channel → M P ();
  removeChannel : option Channel → M P ();
}.

(** The channel registered for a descriptor. *)
Class Poller (P : Type) `{PollerOps P} : Type := {
  poller_ok : P → Prop;
  registered : P → gmap Z Z;
  updateChannel_law : ∀ p ch, poller_ok p →
    wp (updateChannel (Some ch)) p
       (λ _ p', poller_ok p' ∧
          registered p' = if isNoneEvent ch then delete (m_fd ch) (registered p)
                          else <[m_fd ch := addr ch]> (registered p))
       nothrow;
  removeChannel_law : ∀ p ch, poller_ok p →
    wp (removeChannel (Some ch)) p
       (λ _ p', poller_ok p' ∧ registered p' = delete (m_fd ch) (registered p)) nothrow;
}.

(** ** The operations, on a channel and the poller of its loop *)

Section operations.
Context {P : Type} `{PollerOps P}.

Abbreviation Watched := (Channel * P)%type.

Definition on_poller (m : Channel → M P ()) : M Watched () :=
  λ s, let '(r, p) := m (fst s) (snd s) in (r, (fst s, p)).
Definition set_channel (f : Channel → Channel) : M Watched () :=
  modify (λ s, (f (fst s), snd s)).

Definition update : M Watched () := on_poller (λ ch, updateChannel (Some ch)).
Definition remove : M Watched () := on_poller (λ ch, removeChannel (Some ch)).

Definition enableReading : M Watched () :=
  set_channel (λ ch, set_events (Z.lor (m_events ch) kReadEvent) ch);;; update.
Definition enableWriting : M Watched () :=
  set_channel (λ ch, set_events (Z.lor (m_events ch) kWriteEvent) ch);;; update.
Definition disableReading : M Watched () :=
  set_channel (λ ch, set_events (Z.land (m_events ch) (u32_not kReadEvent)) ch);;; update.
Definition disableWriting : M Watched () :=
  set_channel (λ ch, set_events (Z.land (m_events ch) (u32_not kWriteEvent)) ch);;; update.
Definition disableAll : M Watched () := set_channel (set_events kNoneEvent);;; update.

Definition setEdgeTriggered (on : bool) : M Watched () :=
  let! s := get in
  if eqb (m_edgeTriggered (fst s)) on then ret tt
  else
    set_channel (set_edge on);;;
    let! s := get in
    if negb (isNoneEvent (fst s)) then update else ret tt.

End operations.

(** ** Dispatching an event

    The callbacks run on the state [S] of the owner, where [channel] finds the channel and
    [alive] says whether the owner tied to it still exists. *)

Section dispatch.
Context {S : Type} (channel : S → Channel) (alive : S → bool).

Record Callbacks : Type := mkCallbacks {
  m_readCallback : option (M S ());
  m_writeCallback : option (M S ());
  m_closeCallback : option (M S ());
  m_errorCallback : option (M S ());
}.

Definition setReadCallback (cb : option (M S ())) (c : Callbacks) : Callbacks :=
  mkCallbacks cb (m_writeCallback c) (m_closeCallback c) (m_errorCallback c).
Definition setWriteCallback (cb : option (M S ())) (c : Callbacks) : Callbacks :=
  mkCallbacks (m_readCallback c) cb (m_closeCallback c) (m_errorCallback c).
Definition setCloseCallback (cb : option (M S ())) (c : Callbacks) : Callbacks :=
  mkCallbacks (m_readCallback c) (m_writeCallback c) cb (m_errorCallback c).
Definition setErrorCallback (cb : option (M S ())) (c : Callbacks) : Callbacks :=
  mkCallbacks (m_readCallback c) (m_writeCallback c) (m_closeCallback c) cb.

Definition when_reported (mask : Z) (cb : option (M S ())) : M S () :=
  let! s := get in
  if negb (Z.land (m_revents (channel s)) mask =? 0) then
    match cb with Some cb => cb | None => ret tt end
  else ret tt.

Definition handleEventWithGuard (c : Callbacks) : M S () :=
  when_reported kErrorEvent (m_errorCallback c);;;
  when_reported kReadEvent (m_readCallback c);;;
  when_reported kWriteEvent (m_writeCallback c);;;
  when_reported kCloseEvent (m_closeCallback c).

Definition handleEvent (c : Callbacks) : M S () :=
  let! s := get in
  if m_tied (channel s) && negb (alive s) then ret tt
  else handleEventWithGuard c.

End dispatch.

Arguments Callbacks S : clear implicits.

(** ** The bits of an event mask *)

(** What [isReading] and [isWriting] say after each operation. *)
Lemma mask_single e k : 0 ≤ k → negb (Z.land e (Z.shiftl 1 k) =? 0) = Z.testbit e k.
Proof.
  intros Hk. rewrite Z.shiftl_1_l. destruct (Z.testbit e k) eqn:E.
  - apply negb_true_iff, Z.eqb_neq. intros H0.
    apply (f_equal (λ z, Z.testbit z k)) in H0.
    by rewrite Z.land_spec, E, Z.pow2_bits_true, Z.bits_0 in H0.
  - apply negb_false_iff, Z.eqb_eq. apply Z.bits_inj'. intros i Hi.
    rewrite Z.land_spec, Z.bits_0. destruct (Z.eq_dec i k) as [->|Hne]; [by rewrite E|].
    rewrite Z.pow2_bits_false by done. apply andb_false_r.
Qed.

Lemma isReading_bit ch : isReading ch = Z.testbit (m_events ch) 0.
Proof. by apply mask_single. Qed.
Lemma isWriting_bit ch : isWriting ch = Z.testbit (m_events ch) 1.
Proof. by apply mask_single. Qed.

(** Setting and clearing a bit. *)
Lemma testbit_set e k i : 0 ≤ i → 0 ≤ k →
  Z.testbit (Z.lor e (Z.shiftl 1 k)) i = (i =? k) || Z.testbit e i.
Proof.
  intros Hi Hk. rewrite Z.lor_spec, Z.shiftl_1_l, Z.pow2_bits_eqb by done.
  rewrite Z.eqb_sym. apply orb_comm.
Qed.

Lemma testbit_clear e k i : 0 ≤ i < 32 → 0 ≤ k →
  Z.testbit (Z.land e (u32_not (Z.shiftl 1 k))) i = negb (i =? k) && Z.testbit e i.
Proof.
  intros Hi Hk. unfold u32_not.
  rewrite Z.land_spec, Z.lxor_spec, Z.shiftl_1_l, Z.pow2_bits_eqb, Z.testbit_ones_nonneg by lia.
  rewrite Z.eqb_sym. replace (i <? 32) with true by lia. rewrite xorb_true_r. apply andb_comm.
Qed.

Section bits.
Context (ch : Channel).

Definition read_on := set_events (Z.lor (m_events ch) kReadEvent) ch.
Definition write_on := set_events (Z.lor (m_events ch) kWriteEvent) ch.
Definition read_off := set_events (Z.land (m_events ch) (u32_not kReadEvent)) ch.
Definition write_off := set_events (Z.land (m_events ch) (u32_not kWriteEvent)) ch.

Lemma read_on_bits : isReading read_on = true ∧ isWriting read_on = isWriting ch.
Proof. rewrite isReading_bit, !isWriting_bit. split; apply testbit_set; lia. Qed.
Lemma write_on_bits : isWriting write_on = true ∧ isReading write_on = isReading ch.
Proof. rewrite isWriting_bit, !isReading_bit. split; apply testbit_set; lia. Qed.
Lemma read_off_bits : isReading read_off = false ∧ isWriting read_off = isWriting ch.
Proof. rewrite isReading_bit, !isWriting_bit. split; apply testbit_clear; lia. Qed.
Lemma write_off_bits : isWriting write_off = false ∧ isReading write_off = isReading ch.
Proof. rewrite isWriting_bit, !isReading_bit. split; apply testbit_clear; lia. Qed.

Lemma isNoneEvent_bits : isReading ch = true ∨ isWriting ch = true → isNoneEvent ch = false.
Proof.
  rewrite isReading_bit, isWriting_bit. unfold isNoneEvent, kNoneEvent.
  destruct (Z.eqb_spec (m_events ch) 0) as [->|]; [|done].
  rewrite !Z.bits_0. naive_solver.
Qed.

End bits.

Lemma none_bits ch : isReading (set_events kNoneEvent ch) = false ∧
  isWriting (set_events kNoneEvent ch) = false.
Proof. done. Qed.
