(* ===== verification/Poller.v ===== *)
(** * [dbase::net::EpollPoller] and [SelectPoller] (code/src/net/epoll_poller.cpp,
      select_poller.cpp)

    Both map descriptors to channel pointers; the epoll one mirrors this in the kernel with
    [epoll_ctl], the select one builds its descriptor sets on every [poll].  The kernel is
    a class with the documented behaviour of [epoll_ctl]; what [epoll_wait] and [select]
    answer is an argument.  Channels live in a store indexed by their address. *)

From S2P Require Import Prelude Channel.
From stdpp Require Import base gmap list.
From Stdlib Require Import ZArith Lia.

Local Open Scope Z_scope.

(** ** The kernel's interest list *)

Inductive ctl : Type := EPOLL_CTL_ADD | EPOLL_CTL_DEL | EPOLL_CTL_MOD.
Record epoll_event : Type := mkEvent { ev_events : Z; ev_ptr : Z }.

#[global] Instance epoll_event_eq_dec : EqDecision epoll_event.
Proof. solve_decision. Defined.

Definition EPOLLIN : Z := 1.
Definition EPOLLPRI : Z := 2.
Definition EPOLLOUT : Z := 4.
Definition EPOLLERR : Z := 8.
Definition EPOLLHUP : Z := 16.
Definition EPOLLRDHUP : Z := 8192.
Definition EPOLLET : Z := 2147483648.
Definition EINTR : Z := 4.

(** epoll_ctl(2): adding needs a descriptor that is not in the list, changing and removing
    one that is.  [None] is success. *)
Class EpollKernel (K : Type) : Type := {
  epoll_ctl : ctl → Z → epoll_event → K → option Z * K;
  interest : K → gmap Z epoll_event;
  ctl_add k fd ev : interest k !! fd = None →
    ∃ k', epoll_ctl EPOLL_CTL_ADD fd ev k = (None, k') ∧ interest k' = <[fd := ev]> (interest k);
  ctl_mod k fd ev : is_Some (interest k !! fd) →
    ∃ k', epoll_ctl EPOLL_CTL_MOD fd ev k = (None, k') ∧ interest k' = <[fd := ev]> (interest k);
  ctl_del k fd ev : is_Some (interest k !! fd) →
    ∃ k', epoll_ctl EPOLL_CTL_DEL fd ev k = (None, k') ∧ interest k' = delete fd (interest k);
}.

(** Channels by address. *)
Abbreviation Store := (gmap Z Channel).

Definition set_revents_at (ptr revents : Z) (h : Store) : option Store :=
  (λ ch, <[ptr := setRevents revents ch]> h) <$> h !! ptr.

(** ** [EpollPoller] *)

Section epoll.
Context {K : Type} `{EpollKernel K}.

Record EpollPoller : Type := mkEpoll {
  m_epollFd : K;
  m_events_size : Z;  (* size of the vector [m_events] *)
  m_channels : gmap Z Z;
}.

Definition kInitEventListSize : Z := 16.

(** The constructor: [epoll_create1] gave the kernel object, or failed. *)
Definition EpollPoller_make (created : option K) : res EpollPoller :=
  match created with
  | Some k => Ok (mkEpoll k kInitEventListSize ∅)
  | None => Throw runtime_error
  end.

Definition toEpollEvents (ch : Channel) : Z :=
  let events := 0 in
  let events := if isReading ch
                then Z.lor events (Z.lor (Z.lor EPOLLIN EPOLLPRI) EPOLLRDHUP) else events in
  let events := if isWriting ch then Z.lor events EPOLLOUT else events in
  if m_edgeTriggered ch then Z.lor events EPOLLET else events.

Definition fromEpollEvents (e : Z) : Z :=
  let revents := kNoneEvent in
  let revents := if negb (Z.land e EPOLLERR =? 0) then Z.lor revents kErrorEvent else revents in
  let revents := if negb (Z.land e (Z.lor EPOLLIN EPOLLPRI) =? 0)
                 then Z.lor revents kReadEvent else revents in
  let revents := if negb (Z.land e EPOLLOUT =? 0) then Z.lor revents kWriteEvent else revents in
  if negb (Z.land e (Z.lor EPOLLRDHUP EPOLLHUP) =? 0)
  then Z.lor revents kCloseEvent else revents.

Definition set_m_channels (c : gmap Z Z) : M EpollPoller () :=
  modify (λ p, mkEpoll (m_epollFd p) (m_events_size p) c).

Definition epoll_update (operation : ctl) (ch : Channel) : M EpollPoller () :=
  let ev := mkEvent (toEpollEvents ch) (addr ch) in
  let! p := get in
  let '(err, k) := epoll_ctl operation (m_fd ch) ev (m_epollFd p) in
  put (mkEpoll k (m_events_size p) (m_channels p));;;
  match err with None => ret tt | Some _ => throw runtime_error end.

Definition epoll_updateChannel (channel : option Channel) : M EpollPoller () :=
  match channel with
  | None => throw invalid_argument
  | Some ch =>
      let fd := m_fd ch in
      let! p := get in
      let it := m_channels p !! fd in
      if isNoneEvent ch then
        match it with
        | Some _ =>
            epoll_update EPOLL_CTL_DEL ch;;;
            let! p := get in set_m_channels (delete fd (m_channels p))
        | None => ret tt
        end
      else
        match it with
        | None =>
            set_m_channels (<[fd := addr ch]> (m_channels p));;;
            epoll_update EPOLL_CTL_ADD ch
        | Some _ => epoll_update EPOLL_CTL_MOD ch
        end
  end.

Definition epoll_removeChannel (channel : option Channel) : M EpollPoller () :=
  match channel with
  | None => ret tt
  | Some ch =>
      let! p := get in
      match m_channels p !! m_fd ch with
      | None => ret tt
      | Some _ =>
          epoll_update EPOLL_CTL_DEL ch;;;
          let! p := get in set_m_channels (delete (m_fd ch) (m_channels p))
      end
  end.

(** The [for] loop of [poll] over the reported events. *)
Fixpoint epoll_report (evs : list epoll_event) (h : Store) : res (list Z * Store) :=
  match evs with
  | [] => Ok ([], h)
  | ev :: evs =>
      if ev_ptr ev =? 0 then epoll_report evs h
      else
        match set_revents_at (ev_ptr ev) (fromEpollEvents (ev_events ev)) h with
        | None => Undef
        | Some h =>
            let? rest := epoll_report evs h in
            Ok (ev_ptr ev :: fst rest, snd rest)
        end
  end.

(** [poll], given what [epoll_wait] answered: the active channels, with the reported events
    stored in them.  [activeChannels] says whether the list is given. *)
Definition epoll_poll (activeChannels : bool) (wait : list epoll_event + Z)
    : M (EpollPoller * Store) (list Z) :=
  if negb activeChannels then throw invalid_argument
  else
    let! s := get in
    match wait with
    | inr errno => if errno =? EINTR then ret [] else throw runtime_error
    | inl evs =>
        let! reported := lift (epoll_report evs (snd s)) in
        let '(active, h) := reported in
        let p := fst s in
        (if zlen evs =? m_events_size p
         then put (mkEpoll (m_epollFd p) (u64 (m_events_size p * 2)) (m_channels p), h)
         else put (p, h));;;
        ret active
    end.

#[global] Instance epoll_ops : PollerOps EpollPoller :=
  { updateChannel := epoll_updateChannel; removeChannel := epoll_removeChannel }.

(** The kernel watches exactly the descriptors of [m_channels]. *)
Definition epoll_ok (p : EpollPoller) : Prop :=
  dom (m_channels p) = dom (interest (m_epollFd p)).

Lemma epoll_ok_lookup p fd : epoll_ok p →
  (is_Some (m_channels p !! fd) ↔ is_Some (interest (m_epollFd p) !! fd)).
Proof. intros Hp. rewrite <- !elem_of_dom. by rewrite Hp. Qed.

(** What [epoll_update] does when [epoll_ctl] succeeds. *)
Lemma epoll_update_run op ch p k :
  epoll_ctl op (m_fd ch) (mkEvent (toEpollEvents ch) (addr ch)) (m_epollFd p) = (None, k) →
  epoll_update op ch p = (Ok tt, mkEpoll k (m_events_size p) (m_channels p)).
Proof. intros Hc. unfold epoll_update. run. by rewrite Hc. Qed.

(** The effect on the interest list. *)
Definition updated (ch : Channel) (l : gmap Z epoll_event) : gmap Z epoll_event :=
  if isNoneEvent ch then delete (m_fd ch) l
  else <[m_fd ch := mkEvent (toEpollEvents ch) (addr ch)]> l.

Lemma epoll_delete_run p ch : epoll_ok p → is_Some (m_channels p !! m_fd ch) →
  ∃ p', (epoll_update EPOLL_CTL_DEL ch;;;
         let! p := get in set_m_channels (delete (m_fd ch) (m_channels p))) p = (Ok tt, p') ∧
    epoll_ok p' ∧ interest (m_epollFd p') = delete (m_fd ch) (interest (m_epollFd p)).
Proof.
  intros Hp Hs. apply (epoll_ok_lookup _ _ Hp) in Hs.
  destruct (ctl_del _ _ (mkEvent (toEpollEvents ch) (addr ch)) Hs) as (k' & Hk & Hi).
  eexists. split; [by rewrite (bind_Ok _ _ _ _ _ (epoll_update_run _ _ _ _ Hk))|].
  split; [|done]. unfold epoll_ok in *. cbn. by rewrite Hi, !dom_delete_L, Hp.
Qed.

Lemma epoll_update_exact p ch : epoll_ok p →
  wp (epoll_updateChannel (Some ch)) p
     (λ _ p', epoll_ok p' ∧ interest (m_epollFd p') = updated ch (interest (m_epollFd p)))
     nothrow.
Proof.
  intros Hp. unfold epoll_updateChannel, updated, wp. run.
  pose proof (epoll_ok_lookup p (m_fd ch) Hp) as Hl. unfold epoll_ok in Hp |- *.
  set (ev := mkEvent (toEpollEvents ch) (addr ch)).
  destruct (isNoneEvent ch), (m_channels p !! m_fd ch) as [a|] eqn:E.
  - destruct (epoll_delete_run p ch Hp) as (p' & -> & Hok & Hi); [by eexists|done].
  - split; [done|]. symmetry. apply delete_id, eq_None_not_Some. by intros [? ?]%Hl.
  - destruct (ctl_mod (m_epollFd p) (m_fd ch) ev) as (k' & Hk & Hi); [by apply Hl|].
    rewrite (epoll_update_run _ _ _ _ Hk). split; [|done].
    cbn. rewrite Hi, dom_insert_lookup_L; [done|by apply Hl].
  - destruct (ctl_add (m_epollFd p) (m_fd ch) ev) as (k' & Hk & Hi).
    { apply eq_None_not_Some. by intros [? ?]%Hl. }
    unfold set_m_channels. run. rewrite (epoll_update_run _ _ (mkEpoll _ _ _) _ Hk). split; [|done].
    cbn. by rewrite Hi, !dom_insert_L, Hp.
Qed.

Lemma epoll_remove_exact p ch : epoll_ok p →
  wp (epoll_removeChannel (Some ch)) p
     (λ _ p', epoll_ok p' ∧
        interest (m_epollFd p') = delete (m_fd ch) (interest (m_epollFd p)))
     nothrow.
Proof.
  intros Hp. unfold epoll_removeChannel, wp. run.
  pose proof (epoll_ok_lookup p (m_fd ch) Hp) as Hl.
  destruct (m_channels p !! m_fd ch) as [a|] eqn:E.
  - destruct (epoll_delete_run p ch Hp) as (p' & -> & Hok & Hi); [by eexists|done].
  - split; [done|]. symmetry. apply delete_id, eq_None_not_Some. by intros [? ?]%Hl.
Qed.

#[global] Program Instance epoll_poller : Poller EpollPoller :=
  { poller_ok := epoll_ok; registered p := ev_ptr <$> interest (m_epollFd p) }.
Next Obligation.
  intros p ch Hp. eapply wp_mono; [by apply epoll_update_exact| |done].
  intros _ p' [Hok Hi]. split; [done|]. rewrite Hi. unfold updated.
  destruct (isNoneEvent ch); [by rewrite fmap_delete|by rewrite fmap_insert].
Qed.
Next Obligation.
  intros p ch Hp. eapply wp_mono; [by apply epoll_remove_exact| |done].
  intros _ p' [Hok Hi]. split; [done|]. by rewrite Hi, fmap_delete.
Qed.

End epoll.

(** A kernel that keeps just the list: the laws of [EpollKernel] can hold. *)
Definition list_ctl (op : ctl) (fd : Z) (ev : epoll_event) (k : gmap Z epoll_event)
    : option Z * gmap Z epoll_event :=
  match op, k !! fd with
  | EPOLL_CTL_ADD, None => (None, <[fd := ev]> k)
  | EPOLL_CTL_ADD, Some _ => (Some 17, k)  (* EEXIST *)
  | EPOLL_CTL_MOD, Some _ => (None, <[fd := ev]> k)
  | EPOLL_CTL_DEL, Some _ => (None, delete fd k)
  | _, None => (Some 2, k)  (* ENOENT *)
  end.

#[global] Program Instance list_kernel : EpollKernel (gmap Z epoll_event) :=
  { epoll_ctl := list_ctl; interest k := k }.
Next Obligation. simpl. intros k fd ev Hn. rewrite Hn. eauto. Qed.
Next Obligation. simpl. intros k fd ev [x Hx]. rewrite Hx. eauto. Qed.
Next Obligation. simpl. intros k fd ev [x Hx]. rewrite Hx. eauto. Qed.

(** ** [SelectPoller] *)

Record SelectPoller : Type := mkSelect { sel_channels : gmap Z Z }.

Definition select_updateChannel (channel : option Channel) : M SelectPoller () :=
  match channel with
  | None => throw invalid_argument
  | Some ch =>
      if isNoneEvent ch then modify (λ p, mkSelect (delete (m_fd ch) (sel_channels p)))
      else modify (λ p, mkSelect (<[m_fd ch := addr ch]> (sel_channels p)))
  end.

Definition select_removeChannel (channel : option Channel) : M SelectPoller () :=
  match channel with
  | None => ret tt
  | Some ch => modify (λ p, mkSelect (delete (m_fd ch) (sel_channels p)))
  end.

#[global] Instance select_ops : PollerOps SelectPoller :=
  { updateChannel := select_updateChannel; removeChannel := select_removeChannel }.

#[global] Program Instance select_poller : Poller SelectPoller :=
  { poller_ok _ := True; registered := sel_channels }.
Next Obligation. intros p ch _. unfold wp. cbn. by destruct (isNoneEvent ch). Qed.
Next Obligation. done. Qed.

Definition FD_SETSIZE : Z := 1024.
Record fd_sets : Type := mkSets { readSet : gset Z; writeSet : gset Z; exceptSet : gset Z }.

(** [FD_SET] beyond the fixed size writes out of bounds. *)
Definition FD_SET (fd : Z) (s : gset Z) : res (gset Z) :=
  if (0 <=? fd) && (fd <? FD_SETSIZE) then Ok ({[fd]} ∪ s) else Undef.
Definition FD_SET_if (b : bool) (fd : Z) (s : gset Z) : res (gset Z) :=
  if b then FD_SET fd s else Ok s.

(** The first loop of [poll], with [maxFd]. *)
Fixpoint select_collect (l : list (Z * Z)) (h : Store) (s : fd_sets) (maxFd : Z)
    : res (fd_sets * Z) :=
  match l with
  | [] => Ok (s, maxFd)
  | (fd, ptr) :: l =>
      match h !! ptr with
      | None => Undef
      | Some ch =>
          let? r := FD_SET_if (isReading ch) fd (readSet s) in
          let? w := FD_SET_if (isWriting ch) fd (writeSet s) in
          let? e := FD_SET fd (exceptSet s) in
          select_collect l h (mkSets r w e) (if maxFd <? fd then fd else maxFd)
      end
  end.

Definition select_revents (s : fd_sets) (fd : Z) : Z :=
  let revents := kNoneEvent in
  let revents := if bool_decide (fd ∈ readSet s) then Z.lor revents kReadEvent else revents in
  let revents := if bool_decide (fd ∈ writeSet s) then Z.lor revents kWriteEvent else revents in
  if bool_decide (fd ∈ exceptSet s) then Z.lor revents kErrorEvent else revents.

(** The second loop. *)
Fixpoint select_report (l : list (Z * Z)) (s : fd_sets) (h : Store) : res (list Z * Store) :=
  match l with
  | [] => Ok ([], h)
  | (fd, ptr) :: l =>
      let revents := select_revents s fd in
      if revents =? kNoneEvent then select_report l s h
      else
        match set_revents_at ptr revents h with
        | None => Undef
        | Some h =>
            let? rest := select_report l s h in
            Ok (ptr :: fst rest, snd rest)
        end
  end.

(** [poll]: [select] answers the number of ready descriptors and the sets it leaves, or
    fails. *)
Definition select_poll (activeChannels : bool) (timeoutMs : Z)
    (select : Z → fd_sets → Z * Z → (Z * fd_sets) + Z) : M (SelectPoller * Store) (list Z) :=
  if negb activeChannels then throw invalid_argument
  else
    let! s := get in
    let l := map_to_list (sel_channels (fst s)) in
    let! collected := lift (select_collect l (snd s) (mkSets ∅ ∅ ∅) 0) in
    let '(sets, maxFd) := collected in
    let tv := (Z.quot timeoutMs 1000, Z.rem timeoutMs 1000 * 1000) in
    match select (maxFd + 1) sets tv with
    | inr _ => throw runtime_error
    | inl (readyCount, ready) =>
        if readyCount =? 0 then ret []
        else
          let! reported := lift (select_report l ready (snd s)) in
          put (fst s, snd reported);;;
          ret (fst reported)
    end.

(** ** Channels of a loop *)

Inductive ChannelOp : Type :=
  | EnableReading | EnableWriting | DisableReading | DisableWriting | DisableAll
  | SetEdgeTriggered (on : bool) | Remove.

Section loop.
Context {P : Type} `{PollerOps P}.

Definition channel_op (o : ChannelOp) : M (Channel * P) () :=
  match o with
  | EnableReading => enableReading
  | EnableWriting => enableWriting
  | DisableReading => disableReading
  | DisableWriting => disableWriting
  | DisableAll => disableAll
  | SetEdgeTriggered on => setEdgeTriggered on
  | Remove => Channel.remove
  end.

(** A member call through a pointer. *)
Definition through (a : Z) (m : M (Channel * P) ()) : M (Store * P) () :=
  λ s, match fst s !! a with
       | None => (Undef, s)
       | Some ch => let '(r, (ch, p)) := m (ch, snd s) in (r, (<[a := ch]> (fst s), p))
       end.

Fixpoint channel_ops (os : list (Z * ChannelOp)) : M (Store * P) () :=
  match os with
  | [] => ret tt
  | (a, o) :: os => through a (channel_op o);;; channel_ops os
  end.

End loop.

(** What an operation leaves in the channel and asks of the poller. *)
Definition op_channel (o : ChannelOp) (ch : Channel) : Channel :=
  match o with
  | EnableReading => read_on ch
  | EnableWriting => write_on ch
  | DisableReading => read_off ch
  | DisableWriting => write_off ch
  | DisableAll => set_events kNoneEvent ch
  | SetEdgeTriggered on => if eqb (m_edgeTriggered ch) on then ch else set_edge on ch
  | Remove => ch
  end.

Inductive Request : Type := Update | Forget | Nothing.

Definition op_request (o : ChannelOp) (ch : Channel) : Request :=
  match o with
  | SetEdgeTriggered on =>
      if eqb (m_edgeTriggered ch) on then Nothing
      else if isNoneEvent ch then Nothing else Update
  | Remove => Forget
  | _ => Update
  end.

Definition request {P} `{PollerOps P} (q : Request) (ch : Channel) : M P () :=
  match q with
  | Update => updateChannel (Some ch)
  | Forget => removeChannel (Some ch)
  | Nothing => ret tt
  end.

Lemma channel_op_run {P} `{PollerOps P} o ch (p : P) :
  channel_op o (ch, p) =
  let '(r, p') := request (op_request o ch) (op_channel o ch) p in (r, (op_channel o ch, p')).
Proof.
  destruct o as [| | | | |on|]; try done. simpl. unfold setEdgeTriggered. run. cbn [fst].
  destruct (eqb (m_edgeTriggered ch) on); [done|]. unfold set_channel. run. cbn.
  unfold isNoneEvent. cbn. by destruct (m_events ch =? kNoneEvent).
Qed.

Lemma op_channel_same o ch : addr (op_channel o ch) = addr ch ∧ m_fd (op_channel o ch) = m_fd ch.
Proof. destruct o; simpl; by try case_match. Qed.

(** Without an update of the poller nothing it looks at has changed. *)
Lemma op_unrequested o ch : op_request o ch = Nothing →
  op_channel o ch = ch ∨ isNoneEvent ch = true.
Proof. destruct o; simpl; try done. repeat case_match; naive_solver. Qed.

(** ** The two pollers watch the same *)

(** Channels know their address and have descriptors of their own. *)
Definition store_ok (h : Store) : Prop :=
  (∀ a ch, h !! a = Some ch → addr ch = a) ∧
  (∀ a b c d, h !! a = Some c → h !! b = Some d → m_fd c = m_fd d → a = b).

Section agree.
Context {K : Type} `{EpollKernel K}.

(** An entry of the interest list says what its channel wants now. *)
Definition watches (h : Store) (l : gmap Z epoll_event) : Prop :=
  ∀ fd ev, l !! fd = Some ev →
    ∃ ch, h !! ev_ptr ev = Some ch ∧ m_fd ch = fd ∧ isNoneEvent ch = false ∧
          ev_events ev = toEpollEvents ch.

Record agree (h : Store) (pe : EpollPoller (K := K)) (ps : SelectPoller) : Prop := {
  agree_store : store_ok h;
  agree_epoll : epoll_ok pe;
  agree_watches : watches h (interest (m_epollFd pe));
  agree_select : sel_channels ps = ev_ptr <$> interest (m_epollFd pe);
}.

Lemma store_ok_insert h a ch ch' :
  store_ok h → h !! a = Some ch → addr ch' = addr ch → m_fd ch' = m_fd ch →
  store_ok (<[a := ch']> h).
Proof.
  intros [Ha Hf] Hl Hadd Hfd. split.
  - intros b c. rewrite lookup_insert_Some. intros [[<- <-]|[_ ?]]; [|by apply Ha].
    rewrite Hadd. by apply Ha.
  - intros b b' c d. rewrite !lookup_insert_Some.
    intros [[<- <-]|[? Hb]] [[<- <-]|[? Hb']] He; try done.
    + apply (Hf a b' ch d); auto; congruence.
    + apply (Hf b a c ch); auto; congruence.
    + by apply (Hf b b' c d).
Qed.

(** Entries of the other descriptors are as before. *)
Lemma watches_other h l a ch ch' :
  store_ok h → h !! a = Some ch → watches h l →
  watches (<[a := ch']> h) (delete (m_fd ch) l).
Proof.
  intros Hst Ha Hw fd ev [Hne He]%lookup_delete_Some.
  destruct (Hw fd ev He) as (c & Hc & Hfd & ?). exists c. split; [|done].
  rewrite lookup_insert_ne; [done|]. intros ->. congruence.
Qed.

Lemma watches_updated h l a ch ch' :
  store_ok h → h !! a = Some ch → addr ch' = a → m_fd ch' = m_fd ch → watches h l →
  watches (<[a := ch']> h) (updated ch' l).
Proof.
  intros Hst Ha Hadd Hfd Hw. pose proof (watches_other h l a ch ch' Hst Ha Hw) as Ho.
  unfold updated. rewrite Hfd. destruct (isNoneEvent ch') eqn:En; [done|].
  intros fd ev [[<- <-]|[Hne He]]%lookup_insert_Some;
    [|by apply (Ho fd ev), lookup_delete_Some].
  exists ch'. simpl. by rewrite Hadd, lookup_insert_eq.
Qed.

(** An entry whose channel wants nothing would be wrong. *)
Lemma watches_none h l a ch :
  store_ok h → h !! a = Some ch → watches h l → isNoneEvent ch = true → l !! m_fd ch = None.
Proof.
  intros [_ Hf] Ha Hw Hn. destruct (l !! m_fd ch) as [ev|] eqn:E; [|done].
  destruct (Hw _ _ E) as (c & Hc & Hfd & Hcn & _).
  assert (ev_ptr ev = a) as Heq by by apply (Hf _ _ c ch). congruence.
Qed.

Lemma agree_step h pe ps a o : agree h pe ps → is_Some (h !! a) →
  ∃ h' pe' ps',
    through a (channel_op o) (h, pe) = (Ok tt, (h', pe')) ∧
    through a (channel_op o) (h, ps) = (Ok tt, (h', ps')) ∧
    agree h' pe' ps' ∧ m_fd <$> h' = m_fd <$> h.
Proof.
  intros [Hst Hok Hw Hs] [ch Ha]. unfold through. cbn [fst snd]. rewrite Ha, !channel_op_run.
  destruct (op_channel_same o ch) as [Hadd Hfd].
  set (ch' := op_channel o ch) in *. pose proof (proj1 Hst _ _ Ha) as Haddr.
  assert (Hdom : m_fd <$> <[a := ch']> h = m_fd <$> h).
  { rewrite fmap_insert, Hfd. apply insert_id. by rewrite lookup_fmap, Ha. }
  pose proof (store_ok_insert h a ch ch' Hst Ha Hadd Hfd) as Hst'.
  destruct (op_request o ch) eqn:Eq; cbn [request].
  - destruct (wp_inv _ _ _ (epoll_update_exact pe ch' Hok)) as ([] & pe' & Hr & Hok' & Hi).
    cbn [updateChannel epoll_ops]. rewrite Hr.
    eexists _, pe', (mkSelect (if isNoneEvent ch' then delete (m_fd ch') (sel_channels ps)
                               else <[m_fd ch' := addr ch']> (sel_channels ps))).
    split; [done|]. split; [|split; [split|]]; [|done|done| | |done].
    + cbn. unfold select_updateChannel. by destruct (isNoneEvent ch').
    + rewrite Hi. apply (watches_updated h _ a ch); (done || congruence).
    + rewrite Hi. unfold updated. cbn. destruct (isNoneEvent ch').
      * by rewrite fmap_delete, Hs.
      * by rewrite fmap_insert, Hs.
  - destruct (wp_inv _ _ _ (epoll_remove_exact pe ch' Hok)) as ([] & pe' & Hr & Hok' & Hi).
    cbn [removeChannel epoll_ops]. rewrite Hr.
    eexists _, pe', (mkSelect _). split; [done|]. split; [done|]. split; [split|]; try done.
    + rewrite Hi, Hfd. by apply watches_other.
    + by rewrite Hi, fmap_delete, <- Hs.
  - eexists _, pe, ps. do 2 (split; [done|]). split; [split|]; try done.
    destruct (op_unrequested o ch Eq) as [Hsame|Hn].
    + subst ch'. by rewrite Hsame, insert_id.
    + rewrite <- (delete_id (interest (m_epollFd pe)) (m_fd ch)); [by apply watches_other|].
      by apply (watches_none h _ a).
Qed.

Lemma agree_ops os : ∀ h pe ps, agree h pe ps → Forall (λ ao, is_Some (h !! fst ao)) os →
  ∃ h' pe' ps',
    channel_ops os (h, pe) = (Ok tt, (h', pe')) ∧
    channel_ops os (h, ps) = (Ok tt, (h', ps')) ∧ agree h' pe' ps' ∧
    m_fd <$> h' = m_fd <$> h.
Proof.
  induction os as [|[a o] os IH]; intros h pe ps Hag Hos; simpl.
  - by exists h, pe, ps.
  - apply Forall_cons in Hos as [Ha Hos].
    destruct (agree_step h pe ps a o Hag Ha) as (h1 & pe1 & ps1 & Hr1 & Hr2 & Hag1 & Hd).
    rewrite (bind_Ok _ _ _ _ _ Hr1), (bind_Ok _ _ _ _ _ Hr2). rewrite <- Hd.
    apply IH; [done|]. eapply Forall_impl; [exact Hos|]. intros [b ob]. simpl.
    by rewrite <- !elem_of_dom, <- (dom_fmap_L m_fd h), <- Hd, dom_fmap_L.
Qed.

End agree.

(** The descriptor sets of [select], for small descriptors. *)
Definition collected (f : Channel → bool) (h : Store) (l : list (Z * Z)) (fd : Z) : Prop :=
  ∃ p ch, (fd, p) ∈ l ∧ h !! p = Some ch ∧ f ch = true.

Lemma collected_cons (f : Channel → bool) h fd p ch l (x : gset Z) fd' : h !! p = Some ch →
  (fd' ∈ (if f ch then {[fd]} ∪ x else x) ∨ collected f h l fd') ↔
  (fd' ∈ x ∨ collected f h ((fd, p) :: l) fd').
Proof.
  intros Hch. unfold collected. setoid_rewrite elem_of_cons. split.
  - intros [Hx|(p' & c & ? & ?)]; [|right; by exists p', c; auto].
    destruct (f ch) eqn:E; [|by left].
    apply elem_of_union in Hx as [->%elem_of_singleton|?]; [|by left].
    right. exists p, ch. auto.
  - intros [Hx|(p' & c & [[= -> ->]|Hin] & Hc & Hf)].
    + left. destruct (f ch); [set_solver|done].
    + left. rewrite Hch in Hc. injection Hc as ->. rewrite Hf. set_solver.
    + right. by exists p', c.
Qed.

Lemma select_collect_sets h l : ∀ s m,
  Forall (λ fp, is_Some (h !! snd fp) ∧ 0 ≤ fst fp < FD_SETSIZE) l →
  ∃ s' m', select_collect l h s m = Ok (s', m') ∧
    (∀ fd, fd ∈ readSet s' ↔ fd ∈ readSet s ∨ collected isReading h l fd) ∧
    (∀ fd, fd ∈ writeSet s' ↔ fd ∈ writeSet s ∨ collected isWriting h l fd).
Proof.
  induction l as [|[fd p] l IH]; intros s m Hl; cbn [select_collect].
  - exists s, m. split; [done|]. unfold collected. split; intros fd; (split; [auto|]);
      intros [?|(? & ? & Hin & _)]; auto; by apply elem_of_nil in Hin.
  - apply Forall_cons in Hl as [[[ch Hch] Hfd] Hl]. cbn in Hch, Hfd. rewrite Hch.
    assert (Hset : ∀ x : gset Z, FD_SET fd x = Ok ({[fd]} ∪ x)).
    { intros x. unfold FD_SET. by replace ((0 <=? fd) && (fd <? FD_SETSIZE)) with true by lia. }
    assert (Hset' : ∀ b (x : gset Z), FD_SET_if b fd x = Ok (if b then {[fd]} ∪ x else x)).
    { intros [] x; [apply Hset|done]. }
    rewrite !Hset', Hset. cbn [res_bind].
    edestruct IH as (s' & m' & -> & Hr & Hw); [done|]. exists s', m'. split; [done|].
    split; intros fd'; [rewrite Hr|rewrite Hw]; by apply collected_cons.
Qed.

(** The bits of an epoll mask. *)
Lemma toEpollEvents_bits ch :
  negb (Z.land (toEpollEvents ch) EPOLLIN =? 0) = isReading ch ∧
  negb (Z.land (toEpollEvents ch) EPOLLOUT =? 0) = isWriting ch.
Proof.
  unfold toEpollEvents. by destruct (isReading ch), (isWriting ch), (m_edgeTriggered ch).
Qed.

(** C29: the two pollers are interchangeable: whatever operations are run on any number of
    channels with descriptors of their own below [FD_SETSIZE], while [epoll_ctl] succeeds, both accept every call, leave the same
    channels, and watch the same descriptors for the same channel objects; the mask the
    kernel holds for a descriptor is never stale, and asks for input or output exactly when
    the descriptor is in the read or the write set of [select]. *)
Theorem pollers_agree {K} `{EpollKernel K} h k ps os :
  store_ok h → interest k = ∅ → sel_channels ps = ∅ →
  Forall (λ ao, is_Some (h !! fst ao)) os →
  (∀ a ch, h !! a = Some ch → 0 ≤ m_fd ch < FD_SETSIZE) →
  ∃ h' pe' ps' sets maxFd,
    channel_ops os (h, mkEpoll k kInitEventListSize ∅) = (Ok tt, (h', pe')) ∧
    channel_ops os (h, ps) = (Ok tt, (h', ps')) ∧
    sel_channels ps' = ev_ptr <$> interest (m_epollFd pe') ∧
    select_collect (map_to_list (sel_channels ps')) h' (mkSets ∅ ∅ ∅) 0 = Ok (sets, maxFd) ∧
    ∀ fd ev, interest (m_epollFd pe') !! fd = Some ev →
      (∃ ch, h' !! ev_ptr ev = Some ch ∧ ev_events ev = toEpollEvents ch) ∧
      (Z.land (ev_events ev) EPOLLIN ≠ 0 ↔ fd ∈ readSet sets) ∧
      (Z.land (ev_events ev) EPOLLOUT ≠ 0 ↔ fd ∈ writeSet sets).
Proof.
  intros Hst Hk Hps Hos Hfd.
  destruct (agree_ops os h (mkEpoll k kInitEventListSize ∅) ps) as
    (h' & pe' & ps' & Hr1 & Hr2 & [Hst' Hok Hw Hs] & Hfds); [|done|].
  { split; [done| | |]; unfold epoll_ok, watches; cbn; rewrite Hk.
    - by rewrite !dom_empty_L.
    - intros fd ev. by rewrite lookup_empty.
    - by rewrite fmap_empty. }
  assert (Hreg : ∀ fd p, (fd, p) ∈ map_to_list (sel_channels ps') ↔
    ∃ ev, interest (m_epollFd pe') !! fd = Some ev ∧ p = ev_ptr ev).
  { intros fd p. rewrite elem_of_map_to_list, Hs, lookup_fmap, fmap_Some. naive_solver. }
  destruct (select_collect_sets h' (map_to_list (sel_channels ps')) (mkSets ∅ ∅ ∅) 0)
    as (sets & maxFd & Hc & Hrd & Hwr).
  { apply Forall_forall. intros [fd p] (ev & Hev & ->)%Hreg. cbn.
    destruct (Hw fd ev Hev) as (ch & Hch & <- & _). split; [by eexists|].
    apply (f_equal (.!! ev_ptr ev)) in Hfds. rewrite !lookup_fmap, Hch in Hfds.
    destruct (h !! ev_ptr ev) as [c|] eqn:Ec; [|done]. injection Hfds as ->. by apply (Hfd (ev_ptr ev)). }
  exists h', pe', ps', sets, maxFd. do 4 (split; [done|]). intros fd ev Hev.
  destruct (Hw fd ev Hev) as (ch & Hch & _ & _ & Heq). split; [by exists ch|].
  destruct (toEpollEvents_bits ch) as [Hbr Hbw].
  assert (Hcol : ∀ f, collected f h' (map_to_list (sel_channels ps')) fd ↔ f ch = true).
  { intros f. unfold collected. split.
    - intros (p & c & (ev' & Hev' & ->)%Hreg & Hc' & Hf). congruence.
    - intros Hf. exists (ev_ptr ev), ch. rewrite Hreg. eauto. }
  rewrite Hrd, Hwr, !Hcol, Heq, <- Hbr, <- Hbw. cbn [readSet writeSet].
  rewrite !negb_true_iff, !Z.eqb_neq. set_solver.
Qed.

Definition ex_store : Store :=
  <[1 := mkChannel 1 7 0 0 false false]> (<[2 := mkChannel 2 9 0 0 false false]> ∅).
Definition ex_channel_ops : list (Z * ChannelOp) :=
  [(1, EnableReading); (2, EnableWriting); (1, SetEdgeTriggered true); (2, EnableReading);
   (2, DisableWriting); (1, DisableAll); (1, Remove); (1, EnableWriting)].

Lemma pollers_agree_witness : ∃ h' pe' ps' sets maxFd,
  channel_ops ex_channel_ops (ex_store, mkEpoll (K := gmap Z epoll_event) ∅ 16 ∅)
    = (Ok tt, (h', pe')) ∧
  interest (m_epollFd pe') !! 9 = Some (mkEvent 8195 2) ∧
  select_collect (map_to_list (sel_channels ps')) h' (mkSets ∅ ∅ ∅) 0 = Ok (sets, maxFd) ∧
  9 ∈ readSet sets.
Proof.
  destruct (pollers_agree (K := gmap Z epoll_event) ex_store ∅ (mkSelect ∅) ex_channel_ops)
    as (h' & pe' & ps' & sets & maxFd & Hr & _ & _ & Hc & Hall).
  - split.
    + intros a ch. unfold ex_store. rewrite !lookup_insert_Some, lookup_empty. naive_solver.
    + intros a b c d. unfold ex_store. rewrite !lookup_insert_Some, !lookup_empty. naive_solver.
  - done.
  - done.
  - repeat constructor; by eexists.
  - intros a ch. unfold ex_store, FD_SETSIZE. rewrite !lookup_insert_Some, lookup_empty.
    intros [[_ <-]|[_ [[_ <-]|[_ ?]]]]; simpl; (lia || done).
  - exists h', pe', ps', sets, maxFd. split; [done|].
    assert (He : interest (m_epollFd pe') !! 9 = Some (mkEvent 8195 2)).
    { vm_compute in Hr. injection Hr as <- <-. reflexivity. }
    split; [done|]. split; [done|]. apply (Hall 9 _ He). discriminate.
Defined.
