(* ===== verification/Connection.v ===== *)
(** * [dbase::net::TcpConnection] (code/src/net/tcp_connection.cpp, tcp_connection.h)

    A connection: its state, its channel, its input and output buffers, the optional codec,
    the limits of the output buffer and the flow control of the input.  The state of a run
    also holds the world around the object: the poller of the loop, what the coming
    [readv], [write] and [getsockopt] calls answer, the clock, the functors queued in the
    loop, and a trace.  [Accepted] and [Discarded] entries of the trace are history only:
    the messages [sendInLoop] took on, and the bytes of them it gave up.

    A user callback may call the connection again.  What the callbacks of a run do is its
    [script]: the n-th callback invoked makes the calls of the n-th entry (none when the
    script has ended), and an exception of such a call is caught there.  So the nesting of
    callbacks is bounded by the length of the script.

    [m_channel] is never null.  Members that end in [InLoop] and the handlers run only in
    the thread of the loop, so their assertion holds; the argument [here] of the public
    members is [isInLoopThread()].  The branches for Linux are the ones modelled. *)

From S2P Require Import Prelude Error Endian Buffer Codec Channel.
From stdpp Require Import base gmap list.
From Stdlib Require Import ZArith Lia Ascii.

Local Open Scope Z_scope.

Inductive State : Type := Disconnected | Connecting | Connected | Disconnecting.
Inductive OutputOverflowPolicy : Type := Ignore | CloseConnection | ReportError.

#[global] Instance State_eq_dec : EqDecision State.
Proof. solve_decision. Defined.

Definition kCodecError : Z := -1001.
Definition kOutputBufferOverflowError : Z := -1002.

Definition isWouldBlockError (err : Z) : bool := (err =? EAGAIN) || (err =? EWOULDBLOCK).

Record FlowControl : Type := mkFlow {
  m_autoReadFlowControlEnabled : bool;
  m_readPauseHighWaterMark : Z;
  m_readResumeLowWaterMark : Z;
  m_readPausedByFlowControl : bool;
}.

Record Ticks : Type := mkTicks {
  m_connectedAtTick : Z;
  m_lastActiveAtTick : Z;
  m_lastProbeAtTick : Z;
}.

(** Which of the user's callbacks are set. *)
Record UserCallbacks : Type := mkUser {
  m_connectionCallback : bool;
  m_messageCallback : bool;
  m_frameMessageCallback : bool;
  m_writeCompleteCallback : bool;
  m_closeCallback : bool;
  m_errorCallback : bool;
  m_highWaterMarkCallback : bool;
}.

(** An invocation of one of them. *)
Inductive Event : Type :=
  | OnConnection
  | OnMessage
  | OnFrame (payload : str)
  | OnWriteComplete
  | OnClose
  | OnError (err : Z)
  | OnHighWaterMark (bytes : Z).

(** What the user calls. *)
Inductive Op : Type :=
  | OpSend (data : str)
  | OpSendInput
  | OpSendFrame (payload : str)
  | OpShutdown
  | OpForceClose
  | OpStartRead
  | OpStopRead
  | OpEnableFlowControl (pauseHighWaterMark resumeLowWaterMark : Z)
  | OpDisableFlowControl
  | OpSetMaxOutputBufferBytes (bytes : Z)
  | OpSetOutputOverflowPolicy (policy : OutputOverflowPolicy)
  | OpSetEdgeTriggered (on : bool)
  | OpSetLengthFieldCodec (codec : option LengthFieldCodec)
  | OpSetCallbacks (cbs : UserCallbacks)
  | OpRetrieve (len : Z)
  | OpMarkKeepAliveProbeSent
  | OpConnectDestroyed.

(** Functors that other threads queue in the loop. *)
Inductive Task : Type :=
  | TaskSend (data : str)
  | TaskShutdown
  | TaskForceClose
  | TaskStartRead
  | TaskStopRead.

Inductive Item : Type :=
  | Callback (e : Event)
  | Accepted (data : str)
  | Discarded (data : str)
  | Written (data : str)
  | ShutdownWrite.

#[global] Instance Task_eq_dec : EqDecision Task.
Proof. solve_decision. Defined.
#[global] Instance Event_eq_dec : EqDecision Event.
Proof. solve_decision. Defined.
#[global] Instance Item_eq_dec : EqDecision Item.
Proof. solve_decision. Defined.

(** What the kernel does with a [write]: takes at most so many bytes, or fails. *)
Inductive WriteAnswer : Type := Takes (limit : Z) | Refuses (err : Z).

(** One [write] transfers at most this much (write(2)). *)
Definition MAX_RW_COUNT : Z := 2147479552.

(** The answer of the next [write] of [data]; a socket with no more answers blocks. *)
Definition kernel_write (ws : list WriteAnswer) (data : str) : io_outcome Z :=
  match ws with
  | [] => IoFail EAGAIN
  | Refuses err :: _ => IoFail err
  | Takes limit :: _ => IoDone (Z.min (Z.max 0 limit) (Z.min MAX_RW_COUNT (zlen data)))
  end.

(** The next [readv] into [cap] bytes: what does not fit is left for the next one. *)
Definition kernel_readv (cap : Z) (rs : list (io_outcome str))
    : io_outcome str * list (io_outcome str) :=
  match rs with
  | [] => (IoFail EAGAIN, [])
  | IoFail err :: rs => (IoFail err, rs)
  | IoDone data :: rs =>
      if zlen data <=? cap then (IoDone data, rs)
      else (IoDone (ztake cap data), IoDone (zdrop cap data) :: rs)
  end.

Section connection.
Context {P : Type} `{PollerOps P}.

Record Conn : Type := mkConn {
  m_state : State;
  m_channel : Channel;
  m_inputBuffer : Buffer;
  m_outputBuffer : Buffer;
  m_codec : option LengthFieldCodec;
  m_maxOutputBufferBytes : Z;
  m_outputOverflowPolicy : OutputOverflowPolicy;
  m_flow : FlowControl;
  m_edgeTriggered : bool;
  m_ticks : Ticks;
  m_callbacks : UserCallbacks;
  (* the world *)
  poller : P;
  reads : list (io_outcome str);
  writes : list WriteAnswer;
  socketErrors : list Z;
  now : Z;  (* nanoseconds *)
  pending : list Task;
  script : list (list Op);
  trace : list Item;
}.

Definition set_state (x : State) (c : Conn) : Conn :=
  mkConn x (m_channel c) (m_inputBuffer c) (m_outputBuffer c) (m_codec c)
    (m_maxOutputBufferBytes c) (m_outputOverflowPolicy c) (m_flow c) (m_edgeTriggered c)
    (m_ticks c) (m_callbacks c) (poller c) (reads c) (writes c) (socketErrors c) (now c)
    (pending c) (script c) (trace c).
Definition set_channel (x : Channel) (c : Conn) : Conn :=
  mkConn (m_state c) x (m_inputBuffer c) (m_outputBuffer c) (m_codec c) (m_maxOutputBufferBytes c)
    (m_outputOverflowPolicy c) (m_flow c) (m_edgeTriggered c) (m_ticks c) (m_callbacks c)
    (poller c) (reads c) (writes c) (socketErrors c) (now c) (pending c) (script c) (trace c).
Definition set_input (x : Buffer) (c : Conn) : Conn :=
  mkConn (m_state c) (m_channel c) x (m_outputBuffer c) (m_codec c) (m_maxOutputBufferBytes c)
    (m_outputOverflowPolicy c) (m_flow c) (m_edgeTriggered c) (m_ticks c) (m_callbacks c)
    (poller c) (reads c) (writes c) (socketErrors c) (now c) (pending c) (script c) (trace c).
Definition set_output (x : Buffer) (c : Conn) : Conn :=
  mkConn (m_state c) (m_channel c) (m_inputBuffer c) x (m_codec c) (m_maxOutputBufferBytes c)
    (m_outputOverflowPolicy c) (m_flow c) (m_edgeTriggered c) (m_ticks c) (m_callbacks c)
    (poller c) (reads c) (writes c) (socketErrors c) (now c) (pending c) (script c) (trace c).
Definition set_codec (x : option LengthFieldCodec) (c : Conn) : Conn :=
  mkConn (m_state c) (m_channel c) (m_inputBuffer c) (m_outputBuffer c) x
    (m_maxOutputBufferBytes c) (m_outputOverflowPolicy c) (m_flow c) (m_edgeTriggered c)
    (m_ticks c) (m_callbacks c) (poller c) (reads c) (writes c) (socketErrors c) (now c)
    (pending c) (script c) (trace c).
Definition set_max (x : Z) (c : Conn) : Conn :=
  mkConn (m_state c) (m_channel c) (m_inputBuffer c) (m_outputBuffer c) (m_codec c) x
    (m_outputOverflowPolicy c) (m_flow c) (m_edgeTriggered c) (m_ticks c) (m_callbacks c)
    (poller c) (reads c) (writes c) (socketErrors c) (now c) (pending c) (script c) (trace c).
Definition set_policy (x : OutputOverflowPolicy) (c : Conn) : Conn :=
  mkConn (m_state c) (m_channel c) (m_inputBuffer c) (m_outputBuffer c) (m_codec c)
    (m_maxOutputBufferBytes c) x (m_flow c) (m_edgeTriggered c) (m_ticks c) (m_callbacks c)
    (poller c) (reads c) (writes c) (socketErrors c) (now c) (pending c) (script c) (trace c).
Definition set_flow (x : FlowControl) (c : Conn) : Conn :=
  mkConn (m_state c) (m_channel c) (m_inputBuffer c) (m_outputBuffer c) (m_codec c)
    (m_maxOutputBufferBytes c) (m_outputOverflowPolicy c) x (m_edgeTriggered c) (m_ticks c)
    (m_callbacks c) (poller c) (reads c) (writes c) (socketErrors c) (now c) (pending c)
    (script c) (trace c).
Definition set_edge (x : bool) (c : Conn) : Conn :=
  mkConn (m_state c) (m_channel c) (m_inputBuffer c) (m_outputBuffer c) (m_codec c)
    (m_maxOutputBufferBytes c) (m_outputOverflowPolicy c) (m_flow c) x (m_ticks c) (m_callbacks c)
    (poller c) (reads c) (writes c) (socketErrors c) (now c) (pending c) (script c) (trace c).
Definition set_ticks (x : Ticks) (c : Conn) : Conn :=
  mkConn (m_state c) (m_channel c) (m_inputBuffer c) (m_outputBuffer c) (m_codec c)
    (m_maxOutputBufferBytes c) (m_outputOverflowPolicy c) (m_flow c) (m_edgeTriggered c) x
    (m_callbacks c) (poller c) (reads c) (writes c) (socketErrors c) (now c) (pending c)
    (script c) (trace c).
Definition set_callbacks (x : UserCallbacks) (c : Conn) : Conn :=
  mkConn (m_state c) (m_channel c) (m_inputBuffer c) (m_outputBuffer c) (m_codec c)
    (m_maxOutputBufferBytes c) (m_outputOverflowPolicy c) (m_flow c) (m_edgeTriggered c)
    (m_ticks c) x (poller c) (reads c) (writes c) (socketErrors c) (now c) (pending c) (script c)
    (trace c).
Definition set_poller (x : P) (c : Conn) : Conn :=
  mkConn (m_state c) (m_channel c) (m_inputBuffer c) (m_outputBuffer c) (m_codec c)
    (m_maxOutputBufferBytes c) (m_outputOverflowPolicy c) (m_flow c) (m_edgeTriggered c)
    (m_ticks c) (m_callbacks c) x (reads c) (writes c) (socketErrors c) (now c) (pending c)
    (script c) (trace c).
Definition set_reads (x : list (io_outcome str)) (c : Conn) : Conn :=
  mkConn (m_state c) (m_channel c) (m_inputBuffer c) (m_outputBuffer c) (m_codec c)
    (m_maxOutputBufferBytes c) (m_outputOverflowPolicy c) (m_flow c) (m_edgeTriggered c)
    (m_ticks c) (m_callbacks c) (poller c) x (writes c) (socketErrors c) (now c) (pending c)
    (script c) (trace c).
Definition set_writes (x : list WriteAnswer) (c : Conn) : Conn :=
  mkConn (m_state c) (m_channel c) (m_inputBuffer c) (m_outputBuffer c) (m_codec c)
    (m_maxOutputBufferBytes c) (m_outputOverflowPolicy c) (m_flow c) (m_edgeTriggered c)
    (m_ticks c) (m_callbacks c) (poller c) (reads c) x (socketErrors c) (now c) (pending c)
    (script c) (trace c).
Definition set_socketErrors (x : list Z) (c : Conn) : Conn :=
  mkConn (m_state c) (m_channel c) (m_inputBuffer c) (m_outputBuffer c) (m_codec c)
    (m_maxOutputBufferBytes c) (m_outputOverflowPolicy c) (m_flow c) (m_edgeTriggered c)
    (m_ticks c) (m_callbacks c) (poller c) (reads c) (writes c) x (now c) (pending c) (script c)
    (trace c).
Definition set_now (x : Z) (c : Conn) : Conn :=
  mkConn (m_state c) (m_channel c) (m_inputBuffer c) (m_outputBuffer c) (m_codec c)
    (m_maxOutputBufferBytes c) (m_outputOverflowPolicy c) (m_flow c) (m_edgeTriggered c)
    (m_ticks c) (m_callbacks c) (poller c) (reads c) (writes c) (socketErrors c) x (pending c)
    (script c) (trace c).
Definition set_pending (x : list Task) (c : Conn) : Conn :=
  mkConn (m_state c) (m_channel c) (m_inputBuffer c) (m_outputBuffer c) (m_codec c)
    (m_maxOutputBufferBytes c) (m_outputOverflowPolicy c) (m_flow c) (m_edgeTriggered c)
    (m_ticks c) (m_callbacks c) (poller c) (reads c) (writes c) (socketErrors c) (now c) x
    (script c) (trace c).
Definition set_script (x : list (list Op)) (c : Conn) : Conn :=
  mkConn (m_state c) (m_channel c) (m_inputBuffer c) (m_outputBuffer c) (m_codec c)
    (m_maxOutputBufferBytes c) (m_outputOverflowPolicy c) (m_flow c) (m_edgeTriggered c)
    (m_ticks c) (m_callbacks c) (poller c) (reads c) (writes c) (socketErrors c) (now c)
    (pending c) x (trace c).
Definition set_trace (x : list Item) (c : Conn) : Conn :=
  mkConn (m_state c) (m_channel c) (m_inputBuffer c) (m_outputBuffer c) (m_codec c)
    (m_maxOutputBufferBytes c) (m_outputOverflowPolicy c) (m_flow c) (m_edgeTriggered c)
    (m_ticks c) (m_callbacks c) (poller c) (reads c) (writes c) (socketErrors c) (now c)
    (pending c) (script c) x.

Definition on_channel (m : M (Channel * P) ()) : M Conn () :=
  λ c, let '(r, (ch, p)) := m (m_channel c, poller c) in
       (r, set_poller p (set_channel ch c)).
Definition on_input {A} (m : M Buffer A) : M Conn A :=
  λ c, let '(r, b) := m (m_inputBuffer c) in (r, set_input b c).
Definition on_output {A} (m : M Buffer A) : M Conn A :=
  λ c, let '(r, b) := m (m_outputBuffer c) in (r, set_output b c).
Definition record (i : Item) : M Conn () := modify (λ c, set_trace (trace c ++ [i]) c).
Definition queueInLoop (t : Task) : M Conn () := modify (λ c, set_pending (pending c ++ [t]) c).
Definition setState (st : State) : M Conn () := modify (set_state st).
Definition set_paused (b : bool) : M Conn () :=
  modify (λ c, let f := m_flow c in
    set_flow (mkFlow (m_autoReadFlowControlEnabled f) (m_readPauseHighWaterMark f)
                     (m_readResumeLowWaterMark f) b) c).

(** ** Construction and access *)

(** The constructor: the loop has to be set and the socket valid ([Channel]). *)
Definition TcpConnection_make (this : Z) (loop : bool) (fd : Z) (p : P) : res Conn :=
  let? ch := Channel_make this loop fd in
  let? inb := Buffer_make kInitialSize in
  let? outb := Buffer_make kInitialSize in
  if negb loop then Throw invalid_argument
  else Ok (mkConn Connecting ch inb outb None (64 * 1024 * 1024) CloseConnection
                  (mkFlow false 0 0 false) false (mkTicks 0 0 0)
                  (mkUser false false false false false false false)
                  p [] [] [] 0 [] [] []).

Definition state (c : Conn) : State := m_state c.
Definition connected (c : Conn) : bool := bool_decide (state c = Connected).
Definition disconnected (c : Conn) : bool := bool_decide (state c = Disconnected).
Definition reading (c : Conn) : bool := isReading (m_channel c).

(** Time points in nanoseconds, ticks in microseconds. *)
Definition toTick (tp : Z) : Z := Z.quot tp 1000.
Definition fromTick (tick : Z) : Z := if tick <=? 0 then 0 else tick * 1000.

Definition connectedAt (c : Conn) : Z := fromTick (m_connectedAtTick (m_ticks c)).
Definition lastActiveAt (c : Conn) : Z := fromTick (m_lastActiveAtTick (m_ticks c)).
Definition lastProbeAt (c : Conn) : Z := fromTick (m_lastProbeAtTick (m_ticks c)).

Definition idle_ms (c : Conn) (tick : Z) : Z :=
  if tick =? 0 then 0 else Z.quot (now c - fromTick tick) 1000000.
Definition idleFor (c : Conn) : Z := idle_ms c (m_lastActiveAtTick (m_ticks c)).
Definition probeIdleFor (c : Conn) : Z := idle_ms c (m_lastProbeAtTick (m_ticks c)).

Definition touchActive : M Conn () :=
  modify (λ c, set_ticks (mkTicks (m_connectedAtTick (m_ticks c)) (toTick (now c)) 0) c).
Definition markKeepAliveProbeSent : M Conn () :=
  modify (λ c, set_ticks (mkTicks (m_connectedAtTick (m_ticks c))
                                  (m_lastActiveAtTick (m_ticks c)) (toTick (now c))) c).

(** ** Flow control *)

Definition enableAutoReadFlowControl (pauseHighWaterMark resumeLowWaterMark : Z) : M Conn () :=
  if pauseHighWaterMark =? 0 then modify (set_flow (mkFlow false 0 0 false))
  else
    let low := if pauseHighWaterMark <=? resumeLowWaterMark
               then pauseHighWaterMark / 2 else resumeLowWaterMark in
    modify (λ c, set_flow (mkFlow true pauseHighWaterMark low
                                  (m_readPausedByFlowControl (m_flow c))) c).

Definition disableAutoReadFlowControl : M Conn () := modify (set_flow (mkFlow false 0 0 false)).

Definition maybePauseReadForFlowControl : M Conn () :=
  let! c := get in
  let f := m_flow c in
  if negb (m_autoReadFlowControlEnabled f) then ret tt
  else if m_readPausedByFlowControl f then ret tt
  else if readableBytes (m_outputBuffer c) <? m_readPauseHighWaterMark f then ret tt
  else
    (if isReading (m_channel c) then on_channel disableReading else ret tt);;;
    set_paused true.

Definition maybeResumeReadForFlowControl : M Conn () :=
  let! c := get in
  let f := m_flow c in
  if negb (m_autoReadFlowControlEnabled f) then ret tt
  else if negb (m_readPausedByFlowControl f) then ret tt
  else if m_readResumeLowWaterMark f <? readableBytes (m_outputBuffer c) then ret tt
  else
    (if negb (isReading (m_channel c)) then on_channel enableReading else ret tt);;;
    set_paused false.

Definition startReadInLoop : M Conn () :=
  let! c := get in
  (if negb (isReading (m_channel c)) then on_channel enableReading else ret tt);;;
  set_paused false.
Definition stopReadInLoop : M Conn () :=
  let! c := get in
  if isReading (m_channel c) then on_channel disableReading else ret tt.

Definition startRead (here : bool) : M Conn () :=
  if here then startReadInLoop else queueInLoop TaskStartRead.
Definition stopRead (here : bool) : M Conn () :=
  if here then stopReadInLoop else queueInLoop TaskStopRead.

(** ** System calls *)

(** [SocketOps::write], with [errno]: the result is cast to [int]. *)
Definition SocketOps_write (data : str) : M Conn (Z * Z) :=
  let! c := get in
  let answer := kernel_write (writes c) data in
  modify (set_writes (tail (writes c)));;;
  match answer with
  | IoDone n => record (Written (ztake n data));;; ret (swrap 32 n, 0)
  | IoFail err => ret (-1, err)
  end.

Definition SocketOps_getSocketError : M Conn Z :=
  let! c := get in
  modify (set_socketErrors (tail (socketErrors c)));;;
  ret (default 0 (head (socketErrors c))).

Definition shutdownWrite : M Conn () := record ShutdownWrite.

Section handlers.
Context (native_little : bool) (systemErrorMessage : Z → str) (user : Event → M Conn ()).

(** [m_outputBuffer.writeFdResult(fd)] *)
Definition output_writeFdResult : M Conn (Result IoResult) :=
  let! c := get in
  let data := content (m_outputBuffer c) in
  let answer := kernel_write (writes c) data in
  let! r := on_output (writeFdResult systemErrorMessage (λ _, answer)) in
  (if readableBytes (m_outputBuffer c) =? 0 then ret tt
   else
     modify (set_writes (tail (writes c)));;;
     match answer with
     | IoDone n => record (Written (ztake n data))
     | IoFail _ => ret tt
     end);;;
  ret r.

(** [m_inputBuffer.readFdResult(fd)] *)
Definition input_readFdResult : M Conn (Result IoResult) :=
  let! c := get in
  let '(answer, rest) := kernel_readv (readv_capacity (m_inputBuffer c)) (reads c) in
  modify (set_reads rest);;;
  on_input (readFdResult systemErrorMessage answer).

(** ** Handlers *)

(** A user callback, when it is set. *)
Definition callback (cb : UserCallbacks → bool) (e : Event) : M Conn () :=
  let! c := get in
  if cb (m_callbacks c) then record (Callback e);;; user e else ret tt.

Definition handleClose : M Conn () :=
  let! c := get in
  if bool_decide (state c = Disconnected) then ret tt
  else
    setState Disconnected;;;
    on_channel disableAll;;;
    callback m_connectionCallback OnConnection;;;
    callback m_closeCallback OnClose.

Definition handleErrorAndClose (err : Z) : M Conn () :=
  callback m_errorCallback (OnError err);;;
  if negb (isWouldBlockError err) then handleClose else ret tt.

Definition handleError : M Conn () :=
  let! err := SocketOps_getSocketError in
  if err =? 0 then ret tt else handleErrorAndClose err.

Definition notifyHighWaterMark (bytes : Z) : M Conn () :=
  callback m_highWaterMarkCallback (OnHighWaterMark bytes).

Definition handleOutputOverflow : M Conn () :=
  let! c := get in
  match m_outputOverflowPolicy c with
  | Ignore => ret tt
  | CloseConnection =>
      callback m_errorCallback (OnError kOutputBufferOverflowError);;;
      handleClose
  | ReportError => callback m_errorCallback (OnError kOutputBufferOverflowError)
  end.

Definition handleOutputBufferAppend (data : str) : M Conn bool :=
  let! c := get in
  let oldBytes := readableBytes (m_outputBuffer c) in
  let newBytes := u64 (oldBytes + zlen data) in
  if m_maxOutputBufferBytes c <? newBytes then
    record (Discarded data);;;
    handleOutputOverflow;;;
    ret false
  else
    on_output (append data);;;
    (if m_highWaterMarkCallback (m_callbacks c) && (oldBytes <? m_maxOutputBufferBytes c)
        && (m_maxOutputBufferBytes c <=? newBytes)
     then notifyHighWaterMark newBytes else ret tt);;;
    ret true.

(** The end of the branches of [sendInLoop] that leave data in the output buffer. *)
Definition append_and_watch (data : str) : M Conn () :=
  let! ok := handleOutputBufferAppend data in
  if negb ok then ret tt
  else
    on_channel enableWriting;;;
    maybePauseReadForFlowControl.

Definition sendInLoop (data : str) : M Conn () :=
  let! c := get in
  if bool_decide (state c = Disconnected) || (zlen data =? 0) then ret tt
  else
    record (Accepted data);;;
    if negb (isWriting (m_channel c)) && (readableBytes (m_outputBuffer c) =? 0) then
      let! answer := SocketOps_write data in
      let '(n, err) := answer in
      if 0 <=? n then
        let written := n in
        if written <? zlen data then append_and_watch (zdrop written data)
        else callback m_writeCompleteCallback OnWriteComplete
      else if isWouldBlockError err then append_and_watch data
      else
        record (Discarded data);;;
        handleErrorAndClose err
    else
      let! ok := handleOutputBufferAppend data in
      if negb ok then ret tt
      else
        let! c := get in
        (if negb (isWriting (m_channel c)) then on_channel enableWriting else ret tt);;;
        maybePauseReadForFlowControl.

Definition shutdownInLoop : M Conn () :=
  let! c := get in
  if bool_decide (state c = Disconnected) then ret tt
  else if negb (isWriting (m_channel c)) && (readableBytes (m_outputBuffer c) =? 0)
  then shutdownWrite else ret tt.

Definition forceCloseInLoop : M Conn () :=
  let! c := get in
  if bool_decide (state c = Disconnected) then ret tt else handleClose.

(** [for (;;)] of [handleCodecMessages]; the codec and the callback are looked up in every
    round. *)
Fixpoint handleCodecMessages_loop (fuel : nat) : M Conn () :=
  match fuel with
  | O => lift NoFuel
  | S fuel =>
      let! c := get in
      match m_codec c with
      | None => undef
      | Some codec =>
          let! result := on_input (tryDecode native_little codec) in
          match dr_status result with
          | NeedMoreData => ret tt
          | DecodeOk =>
              (if m_frameMessageCallback (m_callbacks c)
               then callback m_frameMessageCallback (OnFrame (dr_payload result))
               else throw bad_function_call);;;
              handleCodecMessages_loop fuel
          | InvalidLength | ExceedMaxFrameLength =>
              callback m_errorCallback (OnError kCodecError);;;
              handleClose
          end
      end
  end.

(** Every frame takes at least the bytes of its length field. *)
Definition handleCodecMessages : M Conn () :=
  let! c := get in
  handleCodecMessages_loop (S (Z.to_nat (readableBytes (m_inputBuffer c)))).

(** What [handleRead] does with new input. *)
Definition deliver : M Conn () :=
  let! c := get in
  if bool_decide (is_Some (m_codec c)) && m_frameMessageCallback (m_callbacks c)
  then handleCodecMessages
  else callback m_messageCallback OnMessage.

(** [for (;;)] of [handleRead] *)
Fixpoint handleRead_loop (fuel : nat) : M Conn () :=
  match fuel with
  | O => lift NoFuel
  | S fuel =>
      let! r := input_readFdResult in
      match r with
      | Err e => handleErrorAndClose (ErrorCode_int (m_code e))
      | Value io =>
          match status io with
          | IoOk => touchActive;;; deliver;;; handleRead_loop fuel
          | IoWouldBlock => ret tt
          | IoEndOfFile => handleClose
          | IoEmpty => ret tt
          end
      end
  end.

(** The [readv] calls still to come: one for every byte at most. *)
Definition reads_size (rs : list (io_outcome str)) : nat :=
  sum_list_with (λ r, match r with IoDone data => S (length data) | IoFail _ => 1%nat end) rs.

Definition handleRead : M Conn () :=
  let! c := get in handleRead_loop (S (reads_size (reads c))).

(** The [while] of [handleWrite]; [false] when the function returns from inside it. *)
Fixpoint handleWrite_loop (fuel : nat) : M Conn bool :=
  match fuel with
  | O => lift NoFuel
  | S fuel =>
      let! c := get in
      if 0 <? readableBytes (m_outputBuffer c) then
        let! r := output_writeFdResult in
        match r with
        | Err e => handleErrorAndClose (ErrorCode_int (m_code e));;; ret false
        | Value io =>
            match status io with
            | IoOk => maybeResumeReadForFlowControl;;; handleWrite_loop fuel
            | IoWouldBlock => ret false
            | IoEndOfFile => handleClose;;; ret false
            | IoEmpty => ret true
            end
        end
      else ret true
  end.

(** Every round takes a byte from the buffer. *)
Definition handleWrite : M Conn () :=
  let! c := get in
  if negb (isWriting (m_channel c)) then ret tt
  else
    let! go_on := handleWrite_loop (S (Z.to_nat (readableBytes (m_outputBuffer c)))) in
    if negb go_on then ret tt
    else
      let! c := get in
      if 0 <? readableBytes (m_outputBuffer c) then ret tt
      else
        on_channel disableWriting;;;
        maybeResumeReadForFlowControl;;;
        callback m_writeCompleteCallback OnWriteComplete;;;
        let! c := get in
        if bool_decide (state c = Disconnecting) then shutdownInLoop else ret tt.

(** The callbacks the constructor gives to the channel. *)
Definition channel_callbacks : Callbacks Conn :=
  mkCallbacks (Some handleRead) (Some handleWrite) (Some handleClose) (Some handleError).

(** ** Public operations *)

Definition connectEstablished (here : bool) : M Conn () :=
  if negb here then throw runtime_error
  else
    let! c := get in
    if negb (bool_decide (state c = Connecting)) then throw logic_error
    else
      setState Connected;;;
      modify (λ c, set_ticks (mkTicks (toTick (now c)) (toTick (now c)) 0) c);;;
      on_channel (setEdgeTriggered (m_edgeTriggered c));;;
      modify (λ c, set_channel (tie (m_channel c)) c);;;
      on_channel enableReading;;;
      callback m_connectionCallback OnConnection.

Definition connectDestroyed (here : bool) : M Conn () :=
  if negb here then throw runtime_error
  else
    let! c := get in
    (if negb (bool_decide (state c = Disconnected)) then
       setState Disconnected;;;
       callback m_connectionCallback OnConnection
     else ret tt);;;
    on_channel disableAll;;;
    on_channel Channel.remove.

Definition send (here : bool) (data : str) : M Conn () :=
  let! c := get in
  if bool_decide (state c = Disconnected) || (zlen data =? 0) then ret tt
  else if here then sendInLoop data
  else queueInLoop (TaskSend data).

(** [send(inputBuffer())] *)
Definition send_input (here : bool) : M Conn () :=
  let! c := get in
  let! data := lift (readableView (m_inputBuffer c)) in
  send here data;;;
  on_input retrieveAll.

Definition sendFrame (here : bool) (payload : str) : M Conn () :=
  let! c := get in
  match m_codec c with
  | None => send here payload
  | Some codec =>
      let! buffer := lift (Buffer_make kInitialSize) in
      let '(r, buffer) := Codec.encode native_little codec payload buffer in
      let! _ := lift r in
      let! data := lift (readableView buffer) in
      send here data
  end.

Definition shutdown (here : bool) : M Conn () :=
  let! c := get in
  if negb (bool_decide (state c = Connected)) then ret tt
  else
    setState Disconnecting;;;
    if here then shutdownInLoop else queueInLoop TaskShutdown.

Definition forceClose (here : bool) : M Conn () :=
  let! c := get in
  if bool_decide (state c = Disconnected) then ret tt
  else if here then forceCloseInLoop else queueInLoop TaskForceClose.

Definition run_op (here : bool) (o : Op) : M Conn () :=
  match o with
  | OpSend data => send here data
  | OpSendInput => send_input here
  | OpSendFrame payload => sendFrame here payload
  | OpShutdown => shutdown here
  | OpForceClose => forceClose here
  | OpStartRead => startRead here
  | OpStopRead => stopRead here
  | OpEnableFlowControl high low => enableAutoReadFlowControl high low
  | OpDisableFlowControl => disableAutoReadFlowControl
  | OpSetMaxOutputBufferBytes bytes => modify (set_max bytes)
  | OpSetOutputOverflowPolicy p => modify (set_policy p)
  | OpSetEdgeTriggered on => modify (set_edge on)
  | OpSetLengthFieldCodec codec => modify (set_codec codec)
  | OpSetCallbacks cbs => modify (set_callbacks cbs)
  | OpRetrieve len => on_input (retrieve len)
  | OpMarkKeepAliveProbeSent => markKeepAliveProbeSent
  | OpConnectDestroyed => connectDestroyed here
  end.

(** A call whose exception the user catches. *)
Definition catching (m : M Conn ()) : M Conn () :=
  λ c, match m c with
       | (Throw _, c') => (Ok tt, c')
       | out => out
       end.

Fixpoint run_ops (os : list Op) : M Conn () :=
  match os with
  | [] => ret tt
  | o :: os => catching (run_op true o);;; run_ops os
  end.

Definition run_task (t : Task) : M Conn () :=
  match t with
  | TaskSend data => sendInLoop data
  | TaskShutdown => shutdownInLoop
  | TaskForceClose => forceCloseInLoop
  | TaskStartRead => startReadInLoop
  | TaskStopRead => stopReadInLoop
  end.

End handlers.

(** ** Runs *)

Section runs.
Context (native_little : bool) (systemErrorMessage : Z → str).

(** The user's callbacks follow the script; [n] bounds their nesting. *)
Fixpoint react (n : nat) (e : Event) : M Conn () :=
  match n with
  | O => lift NoFuel
  | S n =>
      let! c := get in
      match script c with
      | [] => ret tt
      | os :: rest =>
          modify (set_script rest);;;
          run_ops native_little (react n) os
      end
  end.

(** What can happen next. *)
Inductive Action : Type :=
  | Establish                (* [connectEstablished] *)
  | Ready (revents : Z)      (* the poller reports events *)
  | RunTask                  (* the loop runs the oldest queued functor *)
  | Call (o : Op)            (* a call in the thread of the loop *)
  | Remote (o : Op)          (* a call in another thread *)
  | LateShutdown             (* another thread, in [shutdown], has found the connection
                                connected some time ago and goes on *)
  | Pass (ns : Z).           (* time passes *)

Definition act (a : Action) : M Conn () :=
  let! c := get in
  let user := react (S (length (script c))) in
  match a with
  | Establish => connectEstablished user true
  | Ready revents =>
      modify (λ c, set_channel (setRevents revents (m_channel c)) c);;;
      handleEvent m_channel (λ _, true)
        (channel_callbacks native_little systemErrorMessage user)
  | RunTask =>
      match pending c with
      | [] => ret tt
      | t :: ts => modify (set_pending ts);;; run_task user t
      end
  | Call o => run_op native_little user true o
  | Remote o => run_op native_little user false o
  | LateShutdown => setState Disconnecting;;; queueInLoop TaskShutdown
  | Pass ns => modify (λ c, set_now (now c + ns) c)
  end.

(** Whoever runs the loop may catch an exception and go on. *)
Fixpoint run_actions (acts : list Action) : M Conn () :=
  match acts with
  | [] => ret tt
  | a :: acts => catching (act a);;; run_actions acts
  end.

End runs.

End connection.

Arguments Conn P : clear implicits.
