(* ===== verification/ConnectionFacts.v ===== *)
(** * Correctness of [TcpConnection]

    An invariant of every run, whatever the user's callbacks do: the bytes written and the
    bytes in the output buffer are the accepted messages in order, unless some were
    discarded; the output buffer is watched while it holds bytes; a reader paused by flow
    control is resumed; a shutdown is carried out; a connection closes once. *)

From S2P Require Import Prelude Error Endian Buffer Codec Channel Connection.
From stdpp Require Import base gmap list.
From Stdlib Require Import ZArith Lia Ascii.

Local Open Scope Z_scope.

(** ** What a trace says *)

(** The bytes on the wire, the bytes of the accepted messages. *)
Definition wire (t : list Item) : str :=
  t ≫= λ i, match i with Written d => d | _ => [] end.
Definition taken (t : list Item) : str :=
  t ≫= λ i, match i with Accepted d => d | _ => [] end.
Definition lossless (t : list Item) : bool :=
  forallb (λ i, match i with Discarded _ => false | _ => true end) t.
Definition closes (t : list Item) : nat :=
  length (filter (λ i, i = Callback OnClose) t).
(** The payloads given to the frame callback. *)
Definition delivered (t : list Item) : list str :=
  t ≫= λ i, match i with Callback (OnFrame p) => [p] | _ => [] end.

Lemma wire_app t u : wire (t ++ u) = wire t ++ wire u.
Proof. apply bind_app. Qed.
Lemma taken_app t u : taken (t ++ u) = taken t ++ taken u.
Proof. apply bind_app. Qed.
Lemma lossless_app t u : lossless (t ++ u) = lossless t && lossless u.
Proof. apply forallb_app. Qed.
Lemma closes_app t u : closes (t ++ u) = (closes t + closes u)%nat.
Proof. unfold closes. by rewrite filter_app, length_app. Qed.
Lemma delivered_app t u : delivered (t ++ u) = delivered t ++ delivered u.
Proof. apply bind_app. Qed.

(** The bytes still to be read. *)
Definition reads_bytes (rs : list (io_outcome str)) : Z :=
  foldr (λ r n, match r with IoDone d => zlen d + n | IoFail _ => n end) 0 rs.

(** ** Calls that stay within the limits of the model *)

Definition op_ok (o : Op) : Prop :=
  match o with
  | OpSend data => zlen data ≤ MAX_SIZE
  | OpSendFrame payload => zlen payload ≤ MAX_SIZE - 8
  | OpEnableFlowControl high low => 0 ≤ high ∧ 0 ≤ low
  | OpSetMaxOutputBufferBytes n => 0 ≤ n ≤ 2 ^ 60
  | OpRetrieve len => 0 ≤ len
  | OpSetLengthFieldCodec codec => match codec with Some k => valid k | None => True end
  | _ => True
  end.

(** Inside a callback the codec may be replaced but not removed, and the callbacks are left
    alone: [handleCodecMessages] would follow a null pointer ([codec_removed_in_callback]) or
    call an empty function.  A [quiet] user does not replace the codec or consume the input
    either. *)
Definition script_op_ok (quiet : bool) (o : Op) : Prop :=
  op_ok o ∧
  match o with
  | OpSetLengthFieldCodec None | OpSetCallbacks _ => False
  | OpSetLengthFieldCodec (Some _) | OpRetrieve _ | OpSendInput => quiet = false
  | _ => True
  end.

Definition task_ok (t : Task) : Prop :=
  match t with TaskSend data => zlen data ≤ MAX_SIZE | _ => True end.

(** What other threads may call. *)
Definition remote_ok (o : Op) : Prop :=
  match o with
  | OpSend _ | OpSendFrame _ | OpShutdown | OpForceClose | OpStartRead | OpStopRead => op_ok o
  | _ => False
  end.

(** Changing the channel and telling the poller. *)
Definition with_channel {P} (ch : Channel) (p : P) (c : Conn P) : Conn P :=
  set_poller p (set_channel ch c).

(** Evaluate the fields of updated connections. *)
Ltac conn := cbn [with_channel m_state m_channel m_inputBuffer m_outputBuffer m_codec m_maxOutputBufferBytes
  m_outputOverflowPolicy m_flow m_edgeTriggered m_ticks m_callbacks poller reads writes
  socketErrors now pending script trace set_state set_channel set_input set_output set_codec
  set_max set_policy set_flow set_edge set_ticks set_callbacks set_poller set_reads set_writes
  set_socketErrors set_now set_pending set_script set_trace] in *.

Lemma wp_catching {P} {POps : PollerOps P} (m : M (Conn P) ()) c Q :
  wp m c Q (λ _, Q tt) → wp (catching m) c Q nothrow.
Proof. unfold wp, catching. by destruct (m c) as [[[]|e| |] c']. Qed.

Section facts.
Context {P : Type} {POps : PollerOps P} {PLaws : Poller P} (quiet : bool).
Implicit Types (c : Conn P).

(** ** The invariant *)

Definition output (c : Conn P) : str := content (m_outputBuffer c).
Definition input (c : Conn P) : str := content (m_inputBuffer c).
Definition writing (c : Conn P) : bool := isWriting (m_channel c).
Definition paused (c : Conn P) : bool := m_readPausedByFlowControl (m_flow c).

(** The poller knows what the channel wants. *)
Definition watched (ch : Channel) (p : P) : Prop :=
  poller_ok p ∧ registered p !! m_fd ch = if isNoneEvent ch then None else Some (addr ch).

Record buffer_fits (b : Buffer) (more : Z) : Prop := {
  fits_inv : inv b;
  fits_unprepended : unprepended b;
  fits_capacity : zlen (m_buffer b) ≤ 2 ^ 62;
  fits_content : zlen (content b) + more ≤ 2 ^ 60;
}.

Definition flow_ok (f : FlowControl) : Prop :=
  (m_autoReadFlowControlEnabled f = true →
     0 ≤ m_readResumeLowWaterMark f < m_readPauseHighWaterMark f) ∧
  (m_readPausedByFlowControl f = true → m_autoReadFlowControlEnabled f = true).

(** [rest]: bytes accepted that are neither written nor in the output buffer yet. *)
Record core (rest : str) (c : Conn P) : Prop := {
  core_input : buffer_fits (m_inputBuffer c) (reads_bytes (reads c));
  core_output : buffer_fits (m_outputBuffer c) 0;
  core_max : m_maxOutputBufferBytes c ≤ 2 ^ 60;
  core_codec : match m_codec c with Some k => valid k | None => True end;
  core_bytes : lossless (trace c) = true → wire (trace c) ++ output c ++ rest = taken (trace c);
  core_flow : flow_ok (m_flow c);
  core_closes : (closes (trace c) ≤ 1)%nat ∧
    ((0 < closes (trace c))%nat → m_state c = Disconnected);
  core_watched : watched (m_channel c) (poller c);
  core_script : Forall (Forall (script_op_ok quiet)) (script c);
  core_pending : Forall task_ok (pending c);
}.

Definition pause_ok (c : Conn P) : Prop := paused c = true → output c ≠ [].

(** Holds whenever a callback is called. *)
Record base (c : Conn P) : Prop := {
  base_core : core [] c;
  base_writing : writing c = true → output c ≠ [];
  base_paused : pause_ok c;
}.

(** Unsent bytes are watched; broken while the high water mark is reported. *)
Definition sending (c : Conn P) : Prop :=
  m_state c ≠ Disconnected → output c ≠ [] → writing c = true.

(** A shutdown is waiting for the buffer, queued, or done; broken between the last write
    and the end of [handleWrite]. *)
Definition shutting (c : Conn P) : Prop :=
  m_state c = Disconnecting →
  output c ≠ [] ∨ ShutdownWrite ∈ trace c ∨ TaskShutdown ∈ pending c.

(** What no call of the user undoes. *)
Record mono (c c' : Conn P) : Prop := {
  mono_script : (length (script c') ≤ length (script c))%nat;
  mono_reads : reads c' = reads c;
  mono_input : zlen (input c') ≤ zlen (input c);
  mono_quiet : quiet = true → m_inputBuffer c' = m_inputBuffer c;
  mono_output : output c `prefix_of` output c';
  mono_codec : quiet = true → m_codec c' = m_codec c;
  mono_has_codec : is_Some (m_codec c) → is_Some (m_codec c');
  mono_callbacks : m_callbacks c' = m_callbacks c;
  mono_closed : m_state c = Disconnected → m_state c' = Disconnected;
  mono_trace : trace c `prefix_of` trace c';
  mono_frames : delivered (trace c') = delivered (trace c);
  mono_pending : pending c `prefix_of` pending c';
}.

Record prior (c c' : Conn P) : Prop := {
  prior_mono : mono c c';
  prior_sending : sending c → sending c';
  prior_shutting : shutting c → shutting c';
  prior_closes : m_state c = Disconnected → closes (trace c') = closes (trace c);
}.

Record evolves (c c' : Conn P) : Prop := {
  evolves_prior : prior c c';
  evolves_base : base c';
}.

#[global] Instance mono_preorder : PreOrder mono.
Proof.
  split.
  - intros c. by split.
  - intros c1 c2 c3 [? ? ? Hq ? Hk] [? ? ? Hq' ? Hk']. split; try (etrans; eassumption); auto; try lia.
    + intros Hqu. by rewrite Hq', Hq.
    + intros Hqu. by rewrite Hk', Hk.
Qed.

#[global] Instance prior_preorder : PreOrder prior.
Proof.
  split.
  - intros c. by split.
  - intros c1 c2 c3 [Hm ? ? Hcl] [Hm' ? ? Hcl']. split; auto; [by transitivity c2|].
    intros Hd. rewrite Hcl'; [auto|]. by apply Hm.
Qed.

Lemma evolves_refl c : base c → evolves c c.
Proof. by split. Qed.

Lemma evolves_after c1 c2 c3 : prior c1 c2 → evolves c2 c3 → evolves c1 c3.
Proof. intros ? []. split; [by transitivity c2|done]. Qed.

Lemma evolves_trans c1 c2 c3 : evolves c1 c2 → evolves c2 c3 → evolves c1 c3.
Proof. intros []. by apply evolves_after. Qed.

Lemma evolves_closed c c' : evolves c c' → m_state c = Disconnected →
  m_state c' = Disconnected ∧ closes (trace c') = closes (trace c).
Proof. intros [[[] ? ? ?] ?] ?. auto. Qed.

(** ** Steps on single fields *)

Lemma readable_output c rest : core rest c →
  readableBytes (m_outputBuffer c) = zlen (output c).
Proof.
  intros [_ [Hi _ _ _] _ _ _ _ _ _ _ _]. rewrite readableBytes_eq by done.
  symmetry. by apply zlen_content.
Qed.

Lemma output_empty c : zlen (output c) = 0 ↔ output c = [].
Proof. split; [apply zlen_zero|]. by intros ->. Qed.

Lemma output_nonempty c : 0 < zlen (output c) ↔ output c ≠ [].
Proof. rewrite <- output_empty. pose proof (zlen_nonneg (output c)). lia. Qed.

(** An entry of the trace that counts for nothing. *)
Definition neutral (i : Item) : Prop :=
  wire [i] = [] ∧ taken [i] = [] ∧ lossless [i] = true ∧ closes [i] = 0%nat ∧ delivered [i] = [].

Lemma core_record rest c i : core rest c → neutral i →
  core rest (set_trace (trace c ++ [i]) c).
Proof.
  intros [] (Hw & Ht & Hl & Hc & _). split; conn; try done.
  - rewrite wire_app, taken_app, lossless_app, Hw, Ht, Hl, !app_nil_r, andb_true_r. done.
  - by rewrite closes_app, Hc, Nat.add_0_r.
Qed.

(** Extending the trace. *)
Lemma mono_record c l : delivered l = [] → mono c (set_trace (trace c ++ l) c).
Proof.
  intros Hl. split; conn; try done; [by apply prefix_app_r|].
  by rewrite delivered_app, Hl, app_nil_r.
Qed.

Lemma prior_record c i : closes [i] = 0%nat → delivered [i] = [] →
  prior c (set_trace (trace c ++ [i]) c).
Proof.
  intros Hi Hde. split; [by apply mono_record|done| |].
  - intros Hs Hd. conn. destruct (Hs Hd) as [?|[?|?]]; set_solver.
  - intros _. conn. by rewrite closes_app, Hi, Nat.add_0_r.
Qed.

Lemma evolves_record c i : base c → neutral i → evolves c (set_trace (trace c ++ [i]) c).
Proof.
  intros [Hc Hw Hp] Hi. split; [by apply prior_record; apply Hi|].
  split; [by apply core_record|done|done].
Qed.

Lemma update_run f c :
  watched (m_channel c) (poller c) →
  m_fd (f (m_channel c)) = m_fd (m_channel c) → addr (f (m_channel c)) = addr (m_channel c) →
  ∃ p, on_channel (Channel.set_channel f;;; update) c = (Ok tt, with_channel (f (m_channel c)) p c) ∧
       watched (f (m_channel c)) p.
Proof.
  intros [Hp Hr] Hfd Ha. set (ch := f (m_channel c)) in *.
  destruct (wp_inv _ _ _ (updateChannel_law (poller c) ch Hp)) as ([] & p & Hu & Hp' & Hr').
  exists p. split.
  - unfold on_channel, Channel.set_channel, update, on_poller. run. cbn [fst snd].
    fold ch. by rewrite Hu.
  - split; [done|]. rewrite Hr'. destruct (isNoneEvent ch).
    + apply lookup_delete_eq.
    + apply lookup_insert_eq.
Qed.

Lemma core_channel rest c ch p : core rest c → watched ch p → core rest (with_channel ch p c).
Proof. intros [] Hw. by split. Qed.

Lemma evolves_channel c ch p : base c → watched ch p →
  (isWriting ch = true → output c ≠ []) →
  (writing c = true → isWriting ch = true ∨ m_state c = Disconnected) →
  evolves c (with_channel ch p c).
Proof.
  intros [Hc Hw Hp] Hwa Hon Hoff. split; [split; [by split| |done|done]|].
  - intros Hs Hd Ho. conn. destruct (Hoff (Hs Hd Ho)) as [?|?]; done.
  - split; [by apply core_channel|done|done].
Qed.

Lemma evolves_disconnected c : base c → evolves c (set_state Disconnected c).
Proof.
  intros [[? ? ? ? ? ? [? ?]] ? ?]. split; [split|].
  - by split.
  - intros _ Hne. by destruct Hne.
  - by intros _ Hne.
  - done.
  - split; [|done..]. by split.
Qed.

(** The operations of the channel. *)
Lemma enableReading_wp c : base c →
  wp (on_channel enableReading) c (λ _ c', ∃ ch p, c' = with_channel ch p c ∧ evolves c c') nothrow.
Proof.
  intros Hb. destruct (update_run (λ ch, read_on ch) c) as (p & Hr & Hw); [apply Hb|done..|].
  eapply wp_run; [exact Hr|]. eexists _, p. split; [done|].
  destruct (read_on_bits (m_channel c)) as [_ Hwr].
  apply evolves_channel; try done; rewrite Hwr; [apply Hb|auto].
Qed.

Lemma disableReading_wp c : base c →
  wp (on_channel disableReading) c (λ _ c', ∃ ch p, c' = with_channel ch p c ∧ evolves c c') nothrow.
Proof.
  intros Hb. destruct (update_run (λ ch, read_off ch) c) as (p & Hr & Hw); [apply Hb|done..|].
  eapply wp_run; [exact Hr|]. eexists _, p. split; [done|].
  destruct (read_off_bits (m_channel c)) as [_ Hwr].
  apply evolves_channel; try done; rewrite Hwr; [apply Hb|auto].
Qed.

Lemma enableWriting_wp c : base c → output c ≠ [] →
  wp (on_channel enableWriting) c
     (λ _ c', (∃ ch p, c' = with_channel ch p c) ∧ evolves c c' ∧ writing c' = true) nothrow.
Proof.
  intros Hb Ho. destruct (update_run (λ ch, write_on ch) c) as (p & Hr & Hw); [apply Hb|done..|].
  eapply wp_run; [exact Hr|]. destruct (write_on_bits (m_channel c)) as [Hwr _].
  split; [by eexists _, p|]. split; [|done]. apply evolves_channel; auto.
Qed.

(** At the end of [handleWrite]. *)
Lemma disableWriting_wp c : core [] c → pause_ok c → output c = [] →
  wp (on_channel disableWriting) c
     (λ _ c', mono c c' ∧ trace c' = trace c ∧ base c' ∧ sending c' ∧ output c' = [] ∧
        m_state c' = m_state c ∧ writing c' = false ∧ script c' = script c) nothrow.
Proof.
  intros Hc Hp Ho.
  destruct (update_run (λ ch, write_off ch) c) as (p & Hr & Hw); [apply Hc|done..|].
  eapply wp_run; [exact Hr|]. destruct (write_off_bits (m_channel c)) as [Hwr _].
  split; [by split|]. split; [done|].
  split; [|split; [|by split_and!]; intros _ Hne; by destruct Hne].
  split; [by apply core_channel| |done]. unfold writing. conn. congruence.
Qed.

Lemma disableAll_wp c : base c → m_state c = Disconnected →
  wp (on_channel disableAll) c
     (λ _ c', ∃ ch p, c' = with_channel ch p c ∧ evolves c c' ∧ isNoneEvent ch = true) nothrow.
Proof.
  intros Hb Hd. destruct (update_run (set_events kNoneEvent) c) as (p & Hr & Hw); [apply Hb|done..|].
  eapply wp_run; [exact Hr|]. eexists _, p. split; [done|]. split; [|done].
  apply evolves_channel; auto.
Qed.

Lemma remove_wp c : base c → isNoneEvent (m_channel c) = true →
  wp (on_channel Channel.remove) c (λ _ c', evolves c c') nothrow.
Proof.
  intros Hb Hn. pose proof (core_watched _ _ (base_core _ Hb)) as [Hp Hr].
  destruct (wp_inv _ _ _ (removeChannel_law (poller c) (m_channel c) Hp))
    as ([] & p & Hu & Hp' & Hr').
  apply (wp_run _ _ tt (with_channel (m_channel c) p c)).
  { unfold on_channel, Channel.remove, on_poller. cbn [fst snd]. by rewrite Hu. }
  apply evolves_channel; [done| |apply Hb|auto].
  split; [done|]. by rewrite Hr', Hn, lookup_delete_eq.
Qed.

Lemma setEdgeTriggered_wp on c : base c →
  wp (on_channel (setEdgeTriggered on)) c (λ _ c', evolves c c') nothrow.
Proof.
  intros Hb. pose proof (core_watched _ _ (base_core _ Hb)) as [Hp Hr].
  unfold wp, on_channel, setEdgeTriggered. run. cbn [fst].
  destruct (Bool.eqb _ _).
  - apply (evolves_channel c (m_channel c) (poller c)); [done|by split|apply Hb|auto].
  - unfold Channel.set_channel. run. cbn [fst snd].
    change (isNoneEvent (Channel.set_edge _ _)) with (isNoneEvent (m_channel c)).
    destruct (isNoneEvent (m_channel c)) eqn:En; cbn [negb].
    + apply (evolves_channel c (Channel.set_edge on (m_channel c)) (poller c));
        [done| |apply Hb|auto]. split; [done|].
      change (isNoneEvent (Channel.set_edge _ _)) with (isNoneEvent (m_channel c)).
      by rewrite En.
    + destruct (wp_inv _ _ _ (updateChannel_law (poller c) (Channel.set_edge on (m_channel c)) Hp))
        as ([] & p & Hu & Hp' & Hr').
      unfold update, on_poller. cbn [fst snd]. rewrite Hu.
      apply (evolves_channel c (Channel.set_edge on (m_channel c)) p); [done| |apply Hb|auto].
      split; [done|]. rewrite Hr'.
      change (isNoneEvent (Channel.set_edge _ _)) with (isNoneEvent (m_channel c)).
      rewrite En. apply lookup_insert_eq.
Qed.

(** ** Flow control *)

Lemma evolves_paused c b : base c →
  (b = true → m_autoReadFlowControlEnabled (m_flow c) = true ∧ output c ≠ []) →
  wp (set_paused b) c (λ _ c', evolves c c') nothrow.
Proof.
  intros [Hc Hw Hp] Hb. apply wp_modify. split; [by split|].
  split; [|done|].
  - destruct Hc. split; try done. conn. destruct core_flow0 as [Hf _]. split; [done|].
    conn. naive_solver.
  - intros Hp'. by apply Hb.
Qed.

Lemma maybePause_wp c : base c →
  wp maybePauseReadForFlowControl c (λ _ c', evolves c c') nothrow.
Proof.
  intros Hb. unfold maybePauseReadForFlowControl. apply wp_get.
  destruct (m_autoReadFlowControlEnabled (m_flow c)) eqn:He; [|by apply evolves_refl].
  destruct (m_readPausedByFlowControl (m_flow c)); [by apply evolves_refl|].
  rewrite (readable_output _ _ (base_core _ Hb)).
  destruct (Z.ltb_spec (zlen (output c)) (m_readPauseHighWaterMark (m_flow c))) as [|Hge];
    [by apply evolves_refl|].
  assert (Ho : output c ≠ []).
  { apply output_nonempty. destruct (core_flow _ _ (base_core _ Hb)) as [Hf _].
    specialize (Hf He). lia. }
  destruct (isReading (m_channel c)).
  - eapply wp_seq; [by apply disableReading_wp|]. intros [] c' (ch & p & -> & Hev). cbv beta.
    eapply wp_mono; [apply evolves_paused; [apply Hev|done]| |done].
    intros [] c'' Hev'. by eapply evolves_trans.
  - by apply evolves_paused.
Qed.

(** Only the reading side changed. *)
Record same (c c' : Conn P) : Prop := {
  same_mono : mono c c';
  same_state : m_state c' = m_state c;
  same_trace : trace c' = trace c;
  same_pending : pending c' = pending c;
  same_output : output c' = output c;
  same_writing : writing c' = writing c;
  same_writes : writes c' = writes c;
  same_script : script c' = script c;
}.

Lemma same_evolves c c' : base c → same c c' → core [] c' → pause_ok c' → evolves c c'.
Proof.
  intros [Hc Hw Hp] [Hm Hst Ht Hpe Ho Hwr _ _] Hc' Hp'. split; [split; [done| | |by rewrite Ht]|].
  - intros Hs. unfold sending. by rewrite Hst, Ho, Hwr.
  - intros Hs. unfold shutting. by rewrite Hst, Ho, Ht, Hpe.
  - split; [done|by rewrite Hwr, Ho|done].
Qed.

(** Also between the last write and the end of [handleWrite], where the channel is still
    writing: a paused reader of an empty buffer is always resumed. *)
Lemma maybeResume_wp c : core [] c →
  wp maybeResumeReadForFlowControl c (λ _ c', same c c' ∧ core [] c' ∧ pause_ok c') nothrow.
Proof.
  intros Hc. pose proof (core_flow _ _ Hc) as [Hlow Hen].
  unfold maybeResumeReadForFlowControl. apply wp_get.
  assert (Hstop : pause_ok c → same c c ∧ core [] c ∧ pause_ok c) by by split.
  destruct (m_autoReadFlowControlEnabled (m_flow c)) eqn:Ee; cbn [negb].
  2: { apply Hstop. intros Hp. unfold paused in Hp. by specialize (Hen Hp). }
  destruct (m_readPausedByFlowControl (m_flow c)) eqn:Ep; cbn [negb].
  2: { apply Hstop. intros Hp. unfold paused in Hp. congruence. }
  rewrite (readable_output _ _ Hc). specialize (Hlow eq_refl).
  destruct (Z.ltb_spec (m_readResumeLowWaterMark (m_flow c)) (zlen (output c))) as [Hlt|Hge].
  { apply Hstop. intros _. apply output_nonempty. lia. }
  assert (Hdone : ∀ ch p, watched ch p → isWriting ch = isWriting (m_channel c) →
    wp (set_paused false) (with_channel ch p c)
       (λ _ c', same c c' ∧ core [] c' ∧ pause_ok c') nothrow).
  { intros ch p Hw Hwr. apply wp_modify. split; [by split|]. split; [|done].
    destruct Hc. split; try done. }
  destruct (isReading (m_channel c)); cbn [negb].
  - apply (Hdone (m_channel c) (poller c)); [apply Hc|done].
  - destruct (update_run (λ ch, read_on ch) c) as (p & Hr & Hw); [apply Hc|done..|].
    apply wp_bind. eapply wp_run; [exact Hr|]. apply Hdone; [done|]. apply read_on_bits.
Qed.

Lemma startRead_wp c : base c → wp startReadInLoop c (λ _ c', evolves c c') nothrow.
Proof.
  intros Hb. unfold startReadInLoop. apply wp_get. destruct (negb _).
  - eapply wp_seq; [by apply enableReading_wp|]. intros [] c' (ch & p & -> & Hev). cbv beta.
    eapply wp_mono; [apply evolves_paused; [apply Hev|done]| |done].
    intros [] c'' Hev'. by eapply evolves_trans.
  - by apply evolves_paused.
Qed.

Lemma stopRead_wp c : base c → wp stopReadInLoop c (λ _ c', evolves c c') nothrow.
Proof.
  intros Hb. unfold stopReadInLoop. apply wp_get. destruct (isReading _).
  - eapply wp_mono; [by apply disableReading_wp| |done]. naive_solver.
  - by apply evolves_refl.
Qed.

(** ** The handlers

    The user's callbacks keep the invariant while the script allows them. *)
Section handlers.
Context (native : bool) (msg : Z → str) (user : Event → M (Conn P) ()) (n : nat).

Definition user_ok : Prop := ∀ e c, base c → (length (script c) < n)%nat →
  wp (user e) c (λ _ c', evolves c c') nothrow.

(** Where a handler can start. *)
Definition ready (c : Conn P) : Prop := base c ∧ (length (script c) < n)%nat.

Lemma ready_evolves c c' : ready c → evolves c c' → ready c'.
Proof. intros [_ Hn] [[[]] ?]. split; [done|lia]. Qed.

Context (Huser : user_ok).

(** Callbacks that neither close nor deliver. *)
Definition plain (e : Event) : Prop :=
  match e with OnClose | OnFrame _ => False | _ => True end.

Lemma neutral_callback e : plain e → neutral (Callback e).
Proof. by destruct e. Qed.

(** Continue after a step. *)
Lemma wp_then {A} (m : M (Conn P) ()) (k : M (Conn P) A) c (Q : A → Conn P → Prop) E :
  wp m c (λ _ c', evolves c c') nothrow → ready c →
  (∀ c', evolves c c' → ready c' → wp k c' Q E) → wp (m;;; k) c Q E.
Proof.
  intros Hm Hr Hk. apply wp_bind. eapply wp_mono; [exact Hm| |done].
  intros [] c' Hev. apply Hk; [done|]. by eapply ready_evolves.
Qed.

Lemma wp_last (m : M (Conn P) ()) c c0 :
  evolves c0 c → wp m c (λ _ c', evolves c c') nothrow → wp m c (λ _ c', evolves c0 c') nothrow.
Proof. intros H0 Hm. eapply wp_mono; [exact Hm| |done]. intros [] c' Hev. by eapply evolves_trans. Qed.

Lemma callback_wp cb e c : ready c → plain e →
  wp (callback user cb e) c (λ _ c', evolves c c') nothrow.
Proof.
  intros [Hb Hn] He. unfold callback. apply wp_get. destruct (cb _); [|by apply evolves_refl].
  apply wp_modify_seq. pose proof (evolves_record c _ Hb (neutral_callback e He)) as Hev.
  eapply wp_last; [exact Hev|]. apply Huser; [apply Hev|done].
Qed.

(** Reporting the close of a connection that was open. *)
Lemma close_callback_wp cb c0 c : m_state c0 ≠ Disconnected → closes (trace c) = 0%nat →
  m_state c = Disconnected → evolves c0 c → ready c →
  wp (callback user cb OnClose) c (λ _ c', evolves c0 c' ∧ m_state c' = Disconnected) nothrow.
Proof.
  intros H0 Hcl Hd Hev [Hb Hn]. unfold callback. apply wp_get. destruct (cb _); [|done].
  apply wp_modify_seq. set (c1 := set_trace _ c).
  assert (Hb1 : base c1).
  { destruct Hb as [[] Hw Hp]. split; [|done..]. split; try done; subst c1; conn.
    - rewrite wire_app, taken_app, lossless_app, andb_true_r.
      change (wire [_]) with (@nil ascii). change (taken [_]) with (@nil ascii).
      by rewrite !app_nil_r in *.
    - rewrite closes_app, Hcl. change (closes [_]) with 1%nat. by split; [lia|]. }
  eapply wp_mono; [apply Huser; [done|exact Hn]| |done]. intros [] c' Hev'.
  split; [|by apply (evolves_closed c1 c')].
  destruct Hev as [[Hm Hs Hsh _] _], Hev' as [[Hm' Hs' Hsh' _] Hb'].
  split; [split|done]; [| | |done].
  - transitivity c; [done|]. transitivity c1; [by apply mono_record|done].
  - intros Hs0. by apply Hs', Hs.
  - intros _. apply Hsh'. intros Hd'. subst c1. conn. by rewrite Hd in Hd'.
Qed.

(** Handing a frame to the user. *)
Lemma frame_callback_wp cb payload c : ready c → cb (m_callbacks c) = true →
  let c1 := set_trace (trace c ++ [Callback (OnFrame payload)]) c in
  wp (callback user cb (OnFrame payload)) c (λ _ c', ready c1 ∧ evolves c1 c') nothrow.
Proof.
  intros [[Hc Hw Hp] Hn] Hcb. cbv zeta. unfold callback. apply wp_get. rewrite Hcb.
  apply wp_modify_seq. set (c1 := set_trace _ c).
  assert (Hr1 : ready c1).
  { split; [|done]. split; [|done..]. destruct Hc. split; try done; subst c1; conn.
    - rewrite wire_app, taken_app, lossless_app, andb_true_r.
      change (wire [_]) with (@nil ascii). change (taken [_]) with (@nil ascii).
      by rewrite !app_nil_r in *.
    - by rewrite closes_app, Nat.add_0_r. }
  eapply wp_mono; [by apply Huser; apply Hr1| |done]. by intros [] c'.
Qed.

Lemma handleClose_wp c : ready c →
  wp (handleClose user) c (λ _ c', evolves c c' ∧ m_state c' = Disconnected) nothrow.
Proof.
  intros Hr. unfold handleClose, state. apply wp_get.
  case_bool_decide as Hd; [split; [apply evolves_refl, Hr|done]|].
  assert (Hcl : closes (trace c) = 0%nat).
  { destruct (closes (trace c)) eqn:E; [done|].
    destruct Hd. apply (core_closes _ _ (base_core _ (proj1 Hr))). lia. }
  apply wp_modify_seq. set (c1 := set_state Disconnected c).
  assert (Hev1 : evolves c c1) by apply evolves_disconnected, Hr.
  apply wp_bind. eapply wp_mono; [apply disableAll_wp; [apply Hev1|done]| |done].
  intros [] c2 (ch & p & _ & Hev2 & _). destruct (evolves_closed _ _ Hev2) as [Hd2 Hcl2]; [done|].
  apply wp_then; [apply callback_wp; [|done]|..]; try by repeat (eapply ready_evolves; [|done]).
  intros c3 Hev3 Hr3. destruct (evolves_closed _ _ Hev3) as [Hd3 Hcl3]; [done|].
  apply (close_callback_wp _ c); try done.
  - rewrite Hcl3, Hcl2. done.
  - eapply evolves_trans; [|done]. by eapply evolves_trans.
Qed.

Lemma handleClose_evolves c : ready c →
  wp (handleClose user) c (λ _ c', evolves c c') nothrow.
Proof. intros Hr. eapply wp_mono; [by apply handleClose_wp| |done]. by intros [] c' []. Qed.

Lemma handleErrorAndClose_wp err c : ready c →
  wp (handleErrorAndClose user err) c (λ _ c', evolves c c') nothrow.
Proof.
  intros Hr. unfold handleErrorAndClose. apply wp_then; [by apply callback_wp|done|].
  intros c1 Hev Hr1. destruct (negb _); [|done]. eapply wp_last; [done|].
  by apply handleClose_evolves.
Qed.

Lemma handleOutputOverflow_wp c : ready c →
  wp (handleOutputOverflow user) c (λ _ c', evolves c c') nothrow.
Proof.
  intros Hr. unfold handleOutputOverflow. apply wp_get. destruct (m_outputOverflowPolicy c).
  - apply evolves_refl, Hr.
  - apply wp_then; [by apply callback_wp|done|]. intros c1 Hev Hr1.
    eapply wp_last; [done|]. by apply handleClose_evolves.
  - by apply callback_wp.
Qed.

(** A message was accepted, of which [rest] has to go to the buffer. *)
Definition owing (rest : str) (c : Conn P) : Prop :=
  core rest c ∧ (writing c = true → output c ≠ []) ∧ pause_ok c ∧
  (length (script c) < n)%nat ∧ zlen rest ≤ MAX_SIZE.

Lemma owing_discarded rest c i : owing rest c → i = Discarded rest →
  ready (set_trace (trace c ++ [i]) c).
Proof.
  intros ([] & Hw & Hp & Hn & _) ->. split; [|done]. split; [|done..]. split; try done; conn.
  - rewrite lossless_app, andb_false_r. done.
  - by rewrite closes_app, Nat.add_0_r.
Qed.

(** The data is in the buffer; the caller still has to watch it. *)
Definition appended_to (c c' : Conn P) : Prop :=
  ready c' ∧ output c' ≠ [] ∧ ∀ c'', evolves c' c'' → sending c'' → evolves c c''.

Lemma append_owing data c : owing data c → data ≠ [] →
  zlen (output c) + zlen data ≤ 2 ^ 60 →
  wp (on_output (append data)) c (λ _ c', appended_to c c' ∧ m_callbacks c' = m_callbacks c) nothrow.
Proof.
  intros (Hc & Hw & Hp & Hn & _) Hd Hz. destruct Hc as [Hin [Hi Hu Hcap _]].
  destruct (append_fits (m_outputBuffer c) data) as (b & Ha & Hi' & Hu' & Hco & Hcap'); [done..|].
  apply (wp_run _ _ tt (set_output b c)); [unfold on_output; by rewrite Ha|].
  assert (Hout : output (set_output b c) = output c ++ data) by done.
  assert (Hne : output c ++ data ≠ []) by by intros [_ ?]%app_nil.
  split; [|done]. split; [|split; [by rewrite Hout|]].
  - split; [|done]. split; [|by rewrite Hout|by intros ?; rewrite Hout].
    split; try done; conn.
    + split; try done. rewrite Hco. rewrite zlen_app. unfold output in Hz. lia.
    + intros Hl. rewrite Hout, app_nil_r. auto.
  - intros c'' [[[? ? ? ? Hpo ? ? ? ? ? ?] ? Hsh ?] ?] Hs. split; [split|done]; try done.
    + split; try done. rewrite Hout in Hpo. etrans; [|exact Hpo]. by apply prefix_app_r.
    + intros Hs0. apply Hsh. intros _. left. by rewrite Hout.
Qed.

Lemma handleOutputBufferAppend_wp data c : owing data c → data ≠ [] →
  wp (handleOutputBufferAppend user data) c
     (λ ok c', if ok then appended_to c c' else evolves c c') nothrow.
Proof.
  intros Ho Hd. pose proof Ho as (Hc & Hw & Hp & Hn & Hz). unfold handleOutputBufferAppend.
  apply wp_get. rewrite (readable_output _ _ Hc).
  pose proof (zlen_nonneg (output c)). pose proof (zlen_nonneg data).
  pose proof (fits_content _ _ (core_output _ _ Hc)) as Hlen.
  change (content (m_outputBuffer c)) with (output c) in Hlen.
  rewrite u64_small by (unfold in_u64, MAX_SIZE in *; lia).
  destruct (Z.ltb_spec (m_maxOutputBufferBytes c) (zlen (output c) + zlen data)) as [Hov|Hfit].
  - apply wp_modify_seq. set (c1 := set_trace _ c).
    assert (Hr : ready c1) by by eapply owing_discarded.
    apply wp_then; [by apply handleOutputOverflow_wp|done|]. intros c2 Hev Hr2.
    apply wp_ret. eapply evolves_after; [|done]. by apply prior_record.
  - pose proof (core_max _ _ Hc).
    apply wp_bind. eapply wp_mono; [apply append_owing; [done|done|lia]| |done].
    intros [] c1 [(Hr1 & Hne & Hk) _]. apply wp_bind. destruct (_ && _).
    + eapply wp_mono; [apply callback_wp; [done|done]| |done]. intros [] c2 Hev.
      apply wp_ret. split; [by eapply ready_evolves|]. split.
      * destruct Hev as [[[? ? ? ? [k ->]]] _]. by intros [? _]%app_nil.
      * intros c3 Hev3 Hs. apply Hk; [by eapply evolves_trans|done].
    + by apply wp_ret, wp_ret.
Qed.

Lemma append_and_watch_wp data c : owing data c → data ≠ [] →
  wp (append_and_watch user data) c (λ _ c', evolves c c') nothrow.
Proof.
  intros Ho Hd. unfold append_and_watch. apply wp_bind.
  eapply wp_mono; [by apply handleOutputBufferAppend_wp| |done].
  intros ok c1 H1. destruct ok; [|done]. destruct H1 as (Hr1 & Hne & Hk). cbn [negb].
  apply wp_bind. eapply wp_mono; [apply enableWriting_wp; [apply Hr1|done]| |done].
  intros [] c2 (_ & Hev2 & Hw2).
  eapply wp_mono; [apply maybePause_wp, Hev2| |done].
  intros [] c3 Hev3. apply Hk; [by eapply evolves_trans|]. apply Hev3. by intros _ _.
Qed.

(** Entries of a [sendInLoop]. *)
Lemma prior_wrote c l ws : closes l = 0%nat → delivered l = [] →
  prior c (set_trace (trace c ++ l) (set_writes ws c)).
Proof.
  intros Hl Hde. split; [|done| |].
  - split; conn; try done; [by apply prefix_app_r|]. by rewrite delivered_app, Hde, app_nil_r.
  - intros Hs Hd. conn. destruct (Hs Hd) as [?|[?|?]]; set_solver.
  - intros _. conn. by rewrite closes_app, Hl, Nat.add_0_r.
Qed.

Lemma owing_accepted c data l ws w : ready c → output c = [] ∨ w = [] →
  closes l = 0%nat → wire l = w → taken l = data → lossless l = true → ∀ rest,
  data = w ++ rest → zlen rest ≤ MAX_SIZE →
  owing rest (set_trace (trace c ++ l) (set_writes ws c)).
Proof.
  intros [[[] Hw Hp] Hn] Ho Hcl Hwi Hta Hl rest Hd Hz. split; [|done].
  split; try done; conn.
  - rewrite lossless_app, wire_app, taken_app, Hl, Hwi, Hta, andb_true_r, Hd. intros Hlo.
    rewrite <- core_bytes0, app_nil_r by done. change (output _) with (output c).
    destruct Ho as [->| ->]; by rewrite <- ?app_assoc, ?app_nil_r.
  - by rewrite closes_app, Hcl, Nat.add_0_r.
Qed.

Lemma owing_nil c : owing [] c → ready c.
Proof. by intros (? & ? & ? & ? & _). Qed.

(** What a [write] of the socket answers. *)
Lemma kernel_write_bound ws data k : kernel_write ws data = IoDone k →
  0 ≤ k ≤ zlen data ∧ swrap 32 k = k.
Proof.
  unfold kernel_write. destruct ws as [|[limit|err] ws]; [done| |done]. intros [= <-].
  pose proof (zlen_nonneg data). split; [unfold MAX_RW_COUNT; lia|].
  unfold swrap, MAX_RW_COUNT. rewrite Z.mod_small; lia.
Qed.

Lemma write_wp data c : ready c → output c = [] → zlen data ≤ MAX_SIZE →
  let c1 := set_trace (trace c ++ [Accepted data]) c in
  wp (SocketOps_write data) c1
     (λ a c', prior c c' ∧
        (0 ≤ fst a ≤ zlen data ∧ owing (zdrop (fst a) data) c' ∨
         fst a < 0 ∧ owing data c')) nothrow.
Proof.
  intros Hr Ho Hz. cbv zeta. unfold SocketOps_write. apply wp_get. conn.
  apply wp_modify_seq. conn.
  destruct (kernel_write (writes c) data) as [k|err] eqn:Ek.
  - apply kernel_write_bound in Ek as [Hk ->]. apply wp_modify_seq, wp_ret. conn.
    rewrite <- app_assoc.
    change (set_trace ?t (set_writes ?ws _)) with (set_trace t (set_writes ws c)).
    split; [by apply prior_wrote|]. left. split; [done|].
    apply (owing_accepted c data _ _ (ztake k data)); try done.
    + by left.
    + cbn. by rewrite app_nil_r.
    + cbn. by rewrite app_nil_r.
    + by rewrite ztake_zdrop.
    + cbn [fst]. rewrite zlen_zdrop; lia.
  - apply wp_ret.
    change (set_writes ?ws (set_trace ?t c)) with (set_trace t (set_writes ws c)).
    split; [by apply prior_wrote|]. right. split; [cbn; lia|].
    apply (owing_accepted c data _ _ []); try done; [by left|]. cbn. by rewrite app_nil_r.
Qed.

Lemma sendInLoop_wp data c : ready c → zlen data ≤ MAX_SIZE →
  wp (sendInLoop user data) c (λ _ c', evolves c c') nothrow.
Proof.
  intros Hr Hz. unfold sendInLoop, state. apply wp_get.
  destruct (bool_decide _ || _) eqn:E; [apply evolves_refl, Hr|].
  apply orb_false_iff in E as [_ Hd%Z.eqb_neq].
  assert (data ≠ []) by by intros ->. apply wp_modify_seq.
  rewrite (readable_output c []) by apply Hr.
  destruct (negb (isWriting (m_channel c)) && (zlen (output c) =? 0)) eqn:E.
  - apply andb_true_iff in E as [_ Ho%Z.eqb_eq%output_empty]. apply wp_bind.
    eapply wp_mono; [by apply write_wp| |done]. intros [k err] c1 [Hpr Hc1]. cbn [fst] in Hc1.
    destruct Hc1 as [[Hk How]|[Hk How]].
    + replace (0 <=? k) with true by lia. destruct (Z.ltb_spec k (zlen data)) as [Hlt|Hge].
      * eapply wp_mono; [apply append_and_watch_wp; [done|]| |done].
        { intros He%(f_equal zlen). rewrite zlen_zdrop, zlen_nil in He by lia. lia. }
        intros [] c2 Hev. by eapply evolves_after.
      * rewrite zdrop_all in How by lia. apply owing_nil in How.
        eapply wp_mono; [by apply callback_wp| |done]. intros [] c2 Hev. by eapply evolves_after.
    + replace (0 <=? k) with false by lia. destruct (isWouldBlockError err).
      * eapply wp_mono; [by apply append_and_watch_wp| |done].
        intros [] c2 Hev. by eapply evolves_after.
      * apply wp_modify_seq. eapply wp_mono; [apply handleErrorAndClose_wp| |done].
        { by eapply owing_discarded. }
        intros [] c2 Hev. eapply evolves_after; [exact Hpr|].
        eapply evolves_after; [|exact Hev]. by apply prior_record.
  - set (c1 := set_trace _ c).
    assert (How : owing data c1).
    { apply (owing_accepted c data [Accepted data] (writes c) []); try done; [by right|].
      cbn. by rewrite app_nil_r. }
    assert (Hpr : prior c c1) by by apply prior_record.
    apply wp_bind. eapply wp_mono; [by apply handleOutputBufferAppend_wp| |done].
    intros ok c2 H2. destruct ok; [|by eapply evolves_after]. cbn [negb].
    destruct H2 as (Hr2 & Hne & Hk). apply wp_get.
    assert (Hend : ∀ c3, evolves c2 c3 → writing c3 = true →
      wp maybePauseReadForFlowControl c3 (λ _ c', evolves c c') nothrow).
    { intros c3 Hev3 Hw3. eapply wp_mono; [apply maybePause_wp, Hev3| |done].
      intros [] c4 Hev4. eapply evolves_after; [done|]. apply Hk; [by eapply evolves_trans|].
      apply Hev4. by intros _ _. }
    destruct (isWriting (m_channel c2)) eqn:Ew; cbn [negb]; apply wp_bind.
    + apply Hend; [apply evolves_refl, Hr2|done].
    + eapply wp_mono; [apply enableWriting_wp; [apply Hr2|done]| |done].
      intros [] c3 (_ & Hev3 & Hw3). by apply Hend.
Qed.

Lemma shutdownInLoop_wp c : ready c →
  wp shutdownInLoop c (λ _ c', evolves c c' ∧ shutting c') nothrow.
Proof.
  intros [Hb _]. unfold shutdownInLoop, state. apply wp_get.
  case_bool_decide as Hd; [split; [by apply evolves_refl|]; intros ?; congruence|].
  rewrite (readable_output c []) by apply Hb.
  destruct (negb _ && _) eqn:E.
  - apply wp_modify. split; [by apply evolves_record|]. intros _. right; left. conn. set_solver.
  - split; [by apply evolves_refl|]. intros _. left.
    apply andb_false_iff in E as [Ew%negb_false_iff|Eo%Z.eqb_neq].
    + by apply (base_writing _ Hb).
    + by rewrite <- output_empty.
Qed.

Lemma shutdown_wp c : ready c → wp (shutdown true) c (λ _ c', evolves c c') nothrow.
Proof.
  intros Hr. unfold shutdown, state. apply wp_get.
  case_bool_decide as Hst; cbn [negb]; [|apply evolves_refl, Hr]. apply wp_modify_seq.
  set (c1 := set_state Disconnecting c).
  assert (Hr1 : ready c1).
  { destruct Hr as [[[? ? ? ? ? ? [? Hcl]] ? ?] Hn]. split; [|done]. split; [|done..].
    split; try done. split; [done|]. intros ?%Hcl. congruence. }
  eapply wp_mono; [by apply shutdownInLoop_wp| |done].
  intros [] c2 [[[Hm Hs _ _] Hb] Hsh]. split; [split|done]; try done.
  - transitivity c1; [|done]. split; try done. conn. congruence.
  - intros Hs0. apply Hs. intros _. apply Hs0. congruence.
  - intros ?. congruence.
Qed.

Lemma forceCloseInLoop_wp c : ready c →
  wp (forceCloseInLoop user) c (λ _ c', evolves c c') nothrow.
Proof.
  intros Hr. unfold forceCloseInLoop. apply wp_get.
  case_bool_decide; [apply evolves_refl, Hr|by apply handleClose_evolves].
Qed.

Lemma forceClose_wp c : ready c → wp (forceClose user true) c (λ _ c', evolves c c') nothrow.
Proof.
  intros Hr. unfold forceClose. apply wp_get.
  case_bool_decide; [apply evolves_refl, Hr|by apply forceCloseInLoop_wp].
Qed.

Lemma send_wp data c : ready c → zlen data ≤ MAX_SIZE →
  wp (send user true data) c (λ _ c', evolves c c') nothrow.
Proof.
  intros Hr Hz. unfold send. apply wp_get.
  destruct (_ || _); [apply evolves_refl, Hr|by apply sendInLoop_wp].
Qed.

(** Consuming input. *)
Lemma evolves_input c b k : quiet = false → base c → 0 ≤ k → inv b → unprepended b →
  zlen (m_buffer b) = zlen (m_buffer (m_inputBuffer c)) →
  content b = zdrop k (input c) → evolves c (set_input b c).
Proof.
  intros Hq [[[Hi Hu Hc Hz]] Hw Hp] Hk Hi' Hu' Hcap Hco.
  assert (zlen (content b) ≤ zlen (input c)).
  { rewrite Hco. unfold zdrop, zlen. rewrite length_drop. lia. }
  split; [by split; [split; try done; congruence| | |]|]. split; [|done..]. split; try done. conn.
  split; [done..|lia|]. unfold input in *. lia.
Qed.

Lemma retrieve_wp len c : quiet = false → base c → 0 ≤ len →
  wp (on_input (retrieve len)) c (λ _ c', evolves c c') nothrow.
Proof.
  intros Hq Hb Hl. pose proof (core_input _ _ (base_core _ Hb)) as [Hi Hu Hc Hz].
  destruct (retrieve_spec (m_inputBuffer c) len Hi Hl) as (b & Hr & Hi' & Hco & Hcap & Hu').
  apply (wp_run _ _ tt (set_input b c)); [unfold on_input; by rewrite Hr|].
  eapply evolves_input; eauto.
Qed.

Lemma retrieveAll_wp c : quiet = false → base c → wp (on_input retrieveAll) c (λ _ c', evolves c c') nothrow.
Proof.
  intros Hq Hb. pose proof (core_input _ _ (base_core _ Hb)) as [Hi Hu Hc Hz].
  apply (evolves_input _ _ (zlen (input c))); try done.
  - apply zlen_nonneg.
  - buf_lia.
  - by rewrite zdrop_all.
Qed.

Lemma send_input_wp c : quiet = false → ready c → wp (send_input user true) c (λ _ c', evolves c c') nothrow.
Proof.
  intros Hq Hr. unfold send_input. apply wp_get.
  pose proof (core_input _ _ (base_core _ (proj1 Hr))) as [Hi Hu Hc Hz].
  rewrite readableView_content by done. apply wp_lift_seq.
  apply wp_then; [apply send_wp; [done|]|done|].
  - assert (0 ≤ reads_bytes (reads c)).
    { clear. induction (reads c) as [|[d|e] rs IH]; simpl; [lia| |done].
      pose proof (zlen_nonneg d). lia. }
    unfold input, MAX_SIZE. lia.
  - intros c1 Hev Hr1. eapply wp_last; [done|]. apply retrieveAll_wp; [done|apply Hr1].
Qed.

(** The bytes [sendFrame] passes on: the encoder may refuse the payload. *)
Lemma encoded_wp codec payload c (k : str → M (Conn P) ()) (Q : () → Conn P → Prop)
    (E : exn → Conn P → Prop) :
  valid codec → zlen payload ≤ MAX_SIZE - 8 →
  (∀ data, zlen data ≤ MAX_SIZE → (encodable codec payload → data = frame codec payload) →
     wp (k data) c Q E) →
  (∀ e, E e c) →
  wp (let! buffer := lift (Buffer_make kInitialSize) in
      let '(r, buffer) := Codec.encode native codec payload buffer in
      let! _ := lift r in
      let! data := lift (readableView buffer) in
      k data) c Q E.
Proof.
  intros Hv Hp Hk HE.
  destruct (Buffer_make_spec kInitialSize) as (b & -> & Hb & Hco & Hu & _);
    [unfold kInitialSize; buf_lia|]. apply wp_lift_seq.
  destruct (encode_spec native codec Hv payload b) as (Hi & Hu' & Hs); [done..|].
  destruct (Codec.encode native codec payload b) as [r b']. cbn [fst snd] in *.
  assert (Hmax : zlen (content b') ≤ MAX_SIZE).
  { rewrite zlen_content by done. clear - Hi. buf_lia. }
  destruct (encodableb codec payload) eqn:Ee.
  - destruct Hs as [[-> Hc']|[-> _]]; [|by apply HE]. apply wp_lift_seq.
    rewrite readableView_content by done. apply wp_lift_seq, Hk; [done|]. intros _.
    by rewrite Hc', Hco.
  - injection Hs as -> _. apply HE.
Qed.

Lemma sendFrame_wp payload c : ready c → zlen payload ≤ MAX_SIZE - 8 →
  wp (sendFrame native user true payload) c (λ _ c', evolves c c') (λ _ c', evolves c c').
Proof.
  intros Hr Hz. unfold sendFrame. apply wp_get.
  pose proof (core_codec _ _ (base_core _ (proj1 Hr))) as Hv.
  assert (Hsend : ∀ data, zlen data ≤ MAX_SIZE →
    wp (send user true data) c (λ _ c', evolves c c') (λ _ c', evolves c c')).
  { intros data Hd. eapply wp_mono; [by apply send_wp|done|done]. }
  destruct (m_codec c) as [codec|]; [|apply Hsend; lia].
  apply encoded_wp; [done|done|auto|]. intros _. apply evolves_refl, Hr.
Qed.

Lemma connectDestroyed_wp c : ready c →
  wp (connectDestroyed user true) c (λ _ c', evolves c c') nothrow.
Proof.
  intros Hr. unfold connectDestroyed, state. cbn [negb]. apply wp_get.
  apply (wp_seq _ _ _ (λ _ c1, evolves c c1 ∧ m_state c1 = Disconnected)).
  - case_bool_decide as Hd; cbn [negb]; [split; [apply evolves_refl, Hr|done]|].
    apply wp_modify_seq. set (c1 := set_state Disconnected c).
    assert (Hev1 : evolves c c1) by apply evolves_disconnected, Hr.
    eapply wp_mono; [apply callback_wp; [by eapply ready_evolves|done]| |done].
    intros [] c2 Hev2. split; [by eapply evolves_trans|by apply (evolves_closed _ _ Hev2)].
  - intros [] c1 [Hev1 Hd1]. eapply wp_seq; [apply disableAll_wp; [apply Hev1|done]|].
    intros [] c2 (ch & p & -> & Hev2 & Hn).
    eapply wp_last; [by eapply evolves_trans|]. apply remove_wp; [apply Hev2|done].
Qed.

Lemma evolves_flow c f : base c → flow_ok f →
  (m_readPausedByFlowControl f = true → paused c = true) → evolves c (set_flow f c).
Proof.
  intros [[] Hw Hp] Hf Hpa. split; [by split; [split| | |]|]. split; [by split|done|].
  intros ?. by apply Hp, Hpa.
Qed.

Lemma run_op_wp o c : ready c → script_op_ok quiet o →
  wp (run_op native user true o) c (λ _ c', evolves c c') (λ _ c', evolves c c').
Proof.
  intros Hr [Ho Hs]. pose proof Hr as [Hb _].
  assert (Hup : ∀ m, wp m c (λ _ c', evolves c c') nothrow →
    wp m c (λ (_ : ()) c', evolves c c') (λ _ c', evolves c c')).
  { intros m Hm. by eapply wp_mono; [exact Hm| |]. }
  destruct o; cbn [run_op op_ok] in *; try done; first [by apply sendFrame_wp|apply Hup].
  - by apply send_wp.
  - by apply send_input_wp.
  - by apply shutdown_wp.
  - by apply forceClose_wp.
  - by apply startRead_wp.
  - by apply stopRead_wp.
  - unfold enableAutoReadFlowControl. destruct (Z.eqb_spec pauseHighWaterMark 0);
      apply wp_modify, evolves_flow; try done.
    split; cbn; [|by intros _]. intros _.
    destruct (Z.leb_spec pauseHighWaterMark resumeLowWaterMark); [|lia].
    split; [apply Z.div_pos; lia|apply Z.div_lt; lia].
  - by apply wp_modify, evolves_flow.
  - apply wp_modify. destruct Hb as [[] Hw Hp]. split; [by split; [split| | |]|].
    split; [|done..]. split; try done. conn. lia.
  - apply wp_modify. destruct Hb as [[] Hw Hp]. split; [by split; [split| | |]|]. by split; [split|..].
  - apply wp_modify. destruct Hb as [[] Hw Hp]. split; [by split; [split| | |]|]. by split; [split|..].
  - destruct codec as [k|]; [|done]. apply wp_modify. destruct Hb as [[] Hw Hp]. split; [split; [split| | |]|by split; [split|..]];
      conn; try done; by rewrite Hs.
  - by apply retrieve_wp.
  - apply wp_modify. destruct Hb as [[] Hw Hp]. split; [by split; [split| | |]|]. by split; [split|..].
  - by apply connectDestroyed_wp.
Qed.

Lemma run_ops_wp os c : ready c → Forall (script_op_ok quiet) os →
  wp (run_ops native user os) c (λ _ c', evolves c c') nothrow.
Proof.
  intros Hr Hos. revert c Hr. induction Hos as [|o os Ho Hos IH]; intros c Hr.
  - apply evolves_refl, Hr.
  - cbn [run_ops]. apply wp_then; [|done|].
    + apply wp_catching. by apply run_op_wp.
    + intros c1 Hev Hr1. eapply wp_last; [done|]. by apply IH.
Qed.

End handlers.

(** The callbacks of a run. *)
Lemma react_ok native n : user_ok (react native n) n.
Proof.
  induction n as [|n IH]; intros e c Hb Hn; [lia|]. cbn [react]. apply wp_get.
  destruct (script c) as [|os rest] eqn:Es; [by apply evolves_refl|].
  apply wp_modify_seq. set (c1 := set_script rest c).
  assert (Hos : Forall (script_op_ok quiet) os ∧ Forall (Forall (script_op_ok quiet)) rest).
  { apply Forall_cons. rewrite <- Es. apply Hb. }
  assert (Hev : evolves c c1).
  { destruct Hb as [[] Hw Hp]. split; [split; [split; try done| | |]; try done|].
    - conn. rewrite Es. simpl. lia.
    - split; [|done..]. split; try done. apply Hos. }
  eapply (wp_last _ _ c); [done|]. eapply (run_ops_wp native _ n IH); [|apply Hos].
  split; [apply Hev|]. simpl in *. lia.
Qed.

End facts.
