(* ===== verification/ConnectionRuns.v ===== *)
(** * Runs of a [TcpConnection]

    The handlers of the loop ([handleRead], [handleWrite], ...) and whole runs keep the
    invariant of [ConnectionFacts.v]; the properties of the component follow. *)

From S2P Require Import Prelude Error Endian Buffer Codec Channel Connection ConnectionFacts.
From stdpp Require Import base gmap list strings.
From Stdlib Require Import ZArith Lia Ascii.

Local Open Scope Z_scope.

(** A call outside the callbacks. *)
Definition call_ok (quiet : bool) (o : Op) : Prop :=
  op_ok o ∧ match o with OpRetrieve _ | OpSendInput => quiet = false | _ => True end.

Section handlers.
Context {P : Type} {POps : PollerOps P} {PLaws : Poller P} (quiet : bool).
Context (native : bool) (msg : Z → str) (user : Event → M (Conn P) ()) (n : nat).
Context (Huser : user_ok quiet user n).
Implicit Types (c : Conn P).

Abbreviation core := (ConnectionFacts.core quiet).
Abbreviation base := (ConnectionFacts.base quiet).
Abbreviation prior := (ConnectionFacts.prior quiet).
Abbreviation evolves := (ConnectionFacts.evolves quiet).
Abbreviation same := (ConnectionFacts.same quiet).
Abbreviation ready := (ConnectionFacts.ready quiet).

(** What no step of the loop undoes. *)
Record goes (c c' : Conn P) : Prop := {
  goes_script : (length (script c') ≤ length (script c))%nat;
  goes_closed : m_state c = Disconnected →
    m_state c' = Disconnected ∧ closes (trace c') = closes (trace c);
  goes_trace : trace c `prefix_of` trace c';
}.

Record goes_on (c c' : Conn P) : Prop := {
  on_goes : goes c c';
  on_base : base c';
  on_sending : sending c → sending c';
  on_shutting : shutting c → shutting c';
}.

#[global] Instance goes_preorder : PreOrder goes.
Proof.
  split.
  - intros c. by split.
  - intros c1 c2 c3 [? Hd ?] [? Hd' ?]. split; [lia| |by etrans].
    intros [H1 H2]%Hd. destruct (Hd' H1) as [? ?]. split; [done|congruence].
Qed.

Lemma goes_on_refl c : base c → goes_on c c.
Proof. by split. Qed.

Lemma goes_on_trans c1 c2 c3 : goes_on c1 c2 → goes_on c2 c3 → goes_on c1 c3.
Proof. intros [] []. split; auto. by transitivity c2. Qed.

Lemma prior_goes c c' : prior c c' → goes c c'.
Proof. intros [[] ? ? ?]. split; auto. Qed.

Lemma evolves_goes_on c c' : evolves c c' → goes_on c c'.
Proof. intros [Hp ?]. split; [by apply prior_goes|done|apply Hp|apply Hp]. Qed.

Lemma ready_goes c c' : ready n c → goes_on c c' → ready n c'.
Proof. intros [_ Hn] [[]]. split; [done|lia]. Qed.

(** ** Input *)

Lemma kernel_readv_spec cap rs a rest : 0 < cap → kernel_readv cap rs = (a, rest) →
  match a with
  | IoDone d => zlen d ≤ cap ∧ reads_bytes rest + zlen d = reads_bytes rs ∧
                (reads_size rest < reads_size rs)%nat
  | IoFail _ => reads_bytes rest = reads_bytes rs
  end.
Proof.
  intros Hc. unfold kernel_readv. destruct rs as [|[d|err] rs]; [by intros [= <- <-]| |].
  - destruct (Z.leb_spec (zlen d) cap); intros [= <- <-]; simpl; [lia|].
    rewrite zlen_ztake, zlen_zdrop by lia. split; [lia|]. split; [lia|].
    unfold zdrop, zlen in *. rewrite length_drop. lia.
  - by intros [= <- <-].
Qed.

(** Reading: bytes move from the kernel to the input buffer. *)
Lemma input_readFdResult_wp c : ready n c →
  wp (input_readFdResult msg) c
     (λ r c', goes_on c c' ∧ ready n c' ∧ m_codec c' = m_codec c ∧
        m_callbacks c' = m_callbacks c ∧ trace c' = trace c ∧
        ∃ cap a, 0 < cap ∧ kernel_readv cap (reads c) = (a, reads c') ∧
        match a with
        | IoDone d =>
            r = Value (mkIoResult (zlen d) (if 0 <? zlen d then IoOk else IoEndOfFile)) ∧
            input c' = input c ++ d
        | IoFail err =>
            r = (if Buffer.isWouldBlockError err then Value (mkIoResult 0 IoWouldBlock)
                 else Err (makeSystemError msg (lit "Buffer::readFdResult failed") err)) ∧
            input c' = input c
        end) nothrow.
Proof.
  intros [[Hc Hw Hp] Hn]. unfold input_readFdResult. apply wp_get.
  destruct Hc as [[Hi Hu Hcap Hz] ? ? ? ? ? ? ? ? ?].
  set (cap := readv_capacity (m_inputBuffer c)).
  assert (Hpos : 0 < cap).
  { unfold cap, readv_capacity, EXTRABUF. rewrite writableBytes_eq by done.
    destruct (_ <? _) eqn:E; unfold inv in Hi; lia. }
  destruct (kernel_readv cap (reads c)) as [a rest] eqn:Ek.
  pose proof (kernel_readv_spec _ _ _ _ Hpos Ek) as Hk.
  apply wp_modify_seq. unfold wp, on_input. conn.
  assert (Hbase : ∀ b, buffer_fits b (reads_bytes rest) →
    let c' := set_input b (set_reads rest c) in
    goes_on c c' ∧ ready n c' ∧ m_codec c' = m_codec c ∧
        m_callbacks c' = m_callbacks c ∧ trace c' = trace c).
  { intros b Hf. assert (base (set_input b (set_reads rest c))) by by split; [split|..].
    by split_and!. }
  destruct a as [d|err].
  - destruct Hk as (Hd & Hrb & Hsz). pose proof (zlen_nonneg d).
    assert (0 ≤ reads_bytes rest).
    { clear. induction rest as [|[x|e] rs IH]; simpl; [lia| |done].
      pose proof (zlen_nonneg x). lia. }
    destruct (readFdResult_fits msg (m_inputBuffer c) d) as (b & -> & Hi' & Hu' & Hco & Hcap');
      [done..|lia|].
    destruct (Hbase b) as (? & ? & ? & ? & ?); [split; try done; rewrite Hco, zlen_app; lia|].
    split_and!; try done. by exists cap, (IoDone d).
  - unfold readFdResult. run.
    destruct (Hbase (m_inputBuffer c)) as (? & ? & ? & ? & ?); [split; try done; lia|].
    destruct (Buffer.isWouldBlockError err) eqn:Ew; unfold ret; split_and!; try done;
      exists cap, (IoFail err); by rewrite Ew.
Qed.

(** After some progress. *)
Lemma wp_goes {A} (m : M (Conn P) A) c0 c : goes_on c0 c →
  wp m c (λ _ c', goes_on c c') (λ _ c', goes_on c c') →
  wp m c (λ _ c', goes_on c0 c') (λ _ c', goes_on c0 c').
Proof.
  intros H0 Hm. eapply wp_mono; [exact Hm| |]; intros ? c' Hc'; by eapply goes_on_trans.
Qed.

(** A handler that only evolves the connection. *)
Lemma wp_evolves_goes (m : M (Conn P) ()) c E :
  wp m c (λ _ c', evolves c c') E → (∀ e c', E e c' → evolves c c') →
  wp m c (λ _ c', goes_on c c') (λ _ c', goes_on c c').
Proof.
  intros Hm HE. eapply wp_mono; [exact Hm| |]; intros ? c' Hc'; apply evolves_goes_on; eauto.
Qed.

Lemma tryDecode_wp codec c : ready n c → m_codec c = Some codec →
  wp (on_input (tryDecode native codec)) c
     (λ r c', (∃ b, c' = set_input b c) ∧ goes_on c c' ∧ ready n c' ∧
        r = fst (decode_spec codec (input c)) ∧ input c' = snd (decode_spec codec (input c)))
     (λ _ c', goes_on c c' ∧ length_wraps codec (input c) = true).
Proof.
  intros Hr Hcd. pose proof Hr as [[Hc Hw Hp] Hn].
  pose proof (core_codec _ _ _ Hc) as Hv. rewrite Hcd in Hv.
  pose proof Hc as [[Hi Hu Hcap Hz] ? ? ? ? ? ? ? ? ?].
  destruct (tryDecode_cases codec Hv native (m_inputBuffer c) Hi)
    as (r & b & k & Ht & Hi' & Hu' & Hcap' & Hk & Hco & Hres).
  unfold wp, on_input. rewrite Ht.
  assert (Hb : base (set_input b c)).
  { split; [|done..]. split; try done. conn. split; [done|auto|unfold capacity in *; lia|].
    enough (zlen (content b) ≤ zlen (content (m_inputBuffer c))) by lia.
    rewrite Hco. unfold zdrop, zlen. rewrite length_drop. lia. }
  assert (Hg : goes_on c (set_input b c)) by by split.
  destruct Hres as [[-> ?]|[-> Hs]]; [done|]. split_and!; [by eexists|done|done|done|done].
Qed.

(** One round of [handleCodecMessages] that delivers a frame. *)
Lemma deliver_frame_wp payload c : ready n c → m_frameMessageCallback (m_callbacks c) = true →
  wp (callback user m_frameMessageCallback (OnFrame payload)) c
     (λ _ c', goes_on c c' ∧ ready n c' ∧ reads c' = reads c ∧
        (quiet = true → m_codec c' = m_codec c) ∧ (is_Some (m_codec c) → is_Some (m_codec c')) ∧
        m_callbacks c' = m_callbacks c ∧ zlen (input c') ≤ zlen (input c) ∧
        (quiet = true → m_inputBuffer c' = m_inputBuffer c) ∧
        delivered (trace c') = delivered (trace c) ++ [payload]) nothrow.
Proof.
  intros Hr Hcb. eapply wp_mono; [by eapply frame_callback_wp| |done].
  intros [] c2 [Hr1 Hev]. set (c1 := set_trace _ c) in *.
  assert (Hg1 : goes_on c c1).
  { split; [split; [done| |by apply prefix_app_r]|apply Hr1|done|].
    - intros ?. split; [done|]. subst c1. conn. by rewrite closes_app, Nat.add_0_r.
    - intros Hs Hd. subst c1. conn. destruct (Hs Hd) as [?|[?|?]]; set_solver. }
  split; [eapply goes_on_trans; [exact Hg1|by apply evolves_goes_on]|].
  split; [by eapply ready_evolves|]. destruct Hev as [[[] ? ? ?] ?]. split_and!; try done.
  rewrite mono_frames. subst c1. conn. by rewrite delivered_app.
Qed.

Lemma handleCodecMessages_loop_wp fuel : ∀ c, ready n c → is_Some (m_codec c) →
  m_frameMessageCallback (m_callbacks c) = true → zlen (input c) < Z.of_nat fuel →
  wp (handleCodecMessages_loop native user fuel) c
     (λ _ c', goes_on c c' ∧ reads c' = reads c) (λ _ c', goes_on c c').
Proof.
  induction fuel as [|fuel IH]; intros c Hr [codec Hcd] Hcb Hf;
    [pose proof (zlen_nonneg (input c)); lia|].
  cbn [handleCodecMessages_loop]. apply wp_get. rewrite Hcd. apply wp_bind.
  pose proof (core_codec _ _ _ (base_core _ _ (proj1 Hr))) as Hv. rewrite Hcd in Hv.
  eapply wp_mono; [by apply tryDecode_wp| |by intros e c1 [? _]].
  intros r c1 ([b ->] & Hg1 & Hr1 & -> & Hin1).
  destruct (decode_spec codec (input c)) as [[st p] rest] eqn:Ed. cbn [fst snd dr_status dr_payload] in *.
  assert (Hbad : wp (callback user m_errorCallback (OnError kCodecError);;; handleClose user)
    (set_input b c) (λ _ c', goes_on c c' ∧ reads c' = reads c) (λ _ c', goes_on c c')).
  { eapply wp_then; [by apply callback_wp with n|done|]. intros c2 Hev2 Hr2.
    eapply wp_mono; [by apply handleClose_evolves with n| |done]. intros [] c3 Hev3.
    pose proof (evolves_trans _ _ _ _ Hev2 Hev3) as Hev. split.
    - eapply goes_on_trans; [done|by apply evolves_goes_on].
    - destruct Hev as [[[] ? ? ?] ?]. done. }
  destruct st; [|by split|done|done]. rewrite Hcb. apply wp_bind.
  eapply wp_mono; [by apply deliver_frame_wp| |done].
  intros [] c2 (Hg2 & Hr2 & Hrd2 & _ & Hcd2 & Hcb2 & Hin2 & _).
  apply decode_spec_shorter in Ed; [|done].
  assert (Hg : goes_on c c2) by by eapply goes_on_trans.
  eapply wp_mono; [apply IH; [done|..]| |].
  - apply Hcd2. conn. by rewrite Hcd.
  - by rewrite Hcb2.
  - rewrite Hin1 in Hin2. lia.
  - intros [] c3 [Hg3 Hrd3]. split; [by eapply goes_on_trans|]. by rewrite Hrd3, Hrd2.
  - intros e c3 Hg3. by eapply goes_on_trans.
Qed.

Lemma deliver_wp c : ready n c →
  wp (deliver native user) c
     (λ _ c', goes_on c c' ∧ reads c' = reads c) (λ _ c', goes_on c c').
Proof.
  intros Hr. unfold deliver. apply wp_get.
  destruct (bool_decide _ && _) eqn:E.
  - apply andb_true_iff in E as [Hs%bool_decide_eq_true Hcb].
    unfold handleCodecMessages. apply wp_get. apply handleCodecMessages_loop_wp; try done.
    pose proof (core_input _ _ _ (base_core _ _ (proj1 Hr))) as [Hi _ _ _].
    rewrite readableBytes_eq, <- zlen_content by done.
    pose proof (zlen_nonneg (input c)). unfold input. lia.
  - eapply wp_mono; [by apply callback_wp with n| |done]. intros [] c' Hev.
    split; [by apply evolves_goes_on|]. by destruct Hev as [[[] ? ? ?] ?].
Qed.

Lemma handleRead_loop_wp fuel : ∀ c, ready n c → (reads_size (reads c) < fuel)%nat →
  wp (handleRead_loop native msg user fuel) c (λ _ c', goes_on c c') (λ _ c', goes_on c c').
Proof.
  induction fuel as [|fuel IH]; intros c Hr Hf; [lia|]. cbn [handleRead_loop]. apply wp_bind.
  eapply wp_mono; [by apply input_readFdResult_wp| |done].
  intros r c1 (Hg & Hr1 & _ & _ & _ & cap & a & Hcap & Hk & Hres).
  apply (wp_goes _ _ _ Hg). apply kernel_readv_spec in Hk; [|done].
  destruct r as [io|e].
  - destruct (status io) eqn:Es; [|apply goes_on_refl, Hr1| |apply goes_on_refl, Hr1].
    + assert (Hsz : (reads_size (reads c1) < reads_size (reads c))%nat).
      { destruct a as [d|err]; [apply Hk|]. destruct Hres as [Hres _].
        destruct (Buffer.isWouldBlockError err); [|done]. injection Hres as ->. done. }
      apply wp_modify_seq. set (c2 := set_ticks _ c1).
      assert (Hev2 : evolves c1 c2).
      { destruct Hr1 as [[[] ? ?] _]. split; [by split; [split| | |]|]. by split; [split|..]. }
      assert (Hr2 : ready n c2) by by eapply ready_evolves.
      apply (wp_goes _ _ _ (evolves_goes_on _ _ Hev2)). apply wp_bind.
      eapply wp_mono; [by apply deliver_wp| |].
      * intros [] c3 [Hg3 Hrd3]. apply (wp_goes _ _ _ Hg3). apply IH.
        -- by eapply ready_goes.
        -- rewrite Hrd3. subst c2. conn. lia.
      * done.
    + eapply wp_evolves_goes; [by apply handleClose_evolves with n|done].
  - eapply wp_evolves_goes; [by apply handleErrorAndClose_wp with n|done].
Qed.

Lemma handleRead_wp c : ready n c →
  wp (handleRead native msg user) c (λ _ c', goes_on c c') (λ _ c', goes_on c c').
Proof. intros Hr. apply wp_get, handleRead_loop_wp; [done|lia]. Qed.

(** ** Output *)

(** Inside the loop of [handleWrite]: the buffer may have become empty. *)
Definition draining (c : Conn P) : Prop :=
  core [] c ∧ pause_ok c ∧ writing c = true ∧ (length (script c) < n)%nat.

Lemma draining_ready c : draining c → output c ≠ [] → ready n c.
Proof. intros (? & ? & ? & ?) Ho. by split. Qed.

(** A write of the output buffer. *)
Lemma output_writeFdResult_wp c : draining c → output c ≠ [] →
  wp (output_writeFdResult msg) c
     (λ r c', goes c c' ∧ writing c' = true ∧ m_state c' = m_state c ∧
        (length (script c') < n)%nat ∧ core [] c' ∧
        (script c' = script c ∧ writes c' = tail (writes c) ∧
         wire (trace c') ++ output c' = wire (trace c) ++ output c ∧
         match kernel_write (writes c) (output c) with
         | IoDone k => 0 < k → (∃ io, r = Value io ∧ status io = IoOk) ∧
                               output c' = zdrop k (output c)
         | IoFail _ => True
         end) ∧
        match r with
        | Value io =>
            match status io with
            | IoOk => zlen (output c') < zlen (output c)
            | IoEmpty => False
            | _ => output c' = output c ∧ pause_ok c'
            end
        | Err _ => output c' = output c ∧ pause_ok c'
        end) nothrow.
Proof.
  intros (Hc & Hp & Hwr & Hn) Ho. unfold output_writeFdResult. apply wp_get.
  rewrite (readable_output _ _ _ Hc). pose proof Hc as [_ [Hi Hu Hcap Hz] _ _ Hby].
  apply output_nonempty in Ho. fold (output c).
  pose proof (writeFdResult_spec msg (m_outputBuffer c)
    (λ _, kernel_write (writes c) (output c)) Hi) as Hspec.
  destruct (writeFdResult msg (λ _, kernel_write (writes c) (output c)) (m_outputBuffer c))
    as [r b] eqn:Er. change (content (m_outputBuffer c)) with (output c) in Hspec.
  replace (zlen (output c) =? 0) with false in * by lia.
  destruct Hspec as (Hi' & Hu' & Hcap' & Hcase).
  assert (Hrun : on_output (writeFdResult msg (λ _, kernel_write (writes c) (output c))) c
                 = (r, set_output b c)) by (unfold on_output; by rewrite Er).
  destruct (kernel_write (writes c) (output c)) as [k|err] eqn:Ek.
  - apply kernel_write_bound in Ek as [Hk _].
    assert (Hb : content b = zdrop k (output c) ∧
      r = Ok (Value (mkIoResult k (if 0 <? k then IoOk else IoEndOfFile)))).
    { destruct (Z.ltb_spec 0 k); destruct Hcase as [-> ->]; [done|].
      by replace k with 0 by lia. }
    destruct Hb as [Hb ->]. unfold wp. rewrite (bind_Ok _ _ _ _ _ Hrun). run. conn.
    unfold record. run. conn. unfold ret. set (c' := set_trace _ _).
    assert (Hout : output c' = zdrop k (output c)) by done.
    split; [split; [done| |by apply prefix_app_r]|].
    { intros ?. split; [done|]. unfold c'. conn. by rewrite closes_app, Nat.add_0_r. }
    split_and!; try done.
    + destruct Hc. split; try done; unfold c'; conn.
      * split; auto; [lia|]. rewrite Hb, zlen_zdrop; unfold output in *; lia.
      * rewrite wire_app, taken_app, lossless_app, andb_true_r. intros Hl.
        fold c'. rewrite Hout, !app_nil_r, <- core_bytes, app_nil_r by done.
        change (wire [_]) with (ztake k (output c) ++ []).
        by rewrite app_nil_r, <- app_assoc, ztake_zdrop.
      * by rewrite closes_app, Nat.add_0_r.
    + rewrite Hout. unfold c'. conn. rewrite wire_app.
      change (wire [_]) with (ztake k (output c) ++ []).
      by rewrite app_nil_r, <- app_assoc, ztake_zdrop.
    + intros Hk'. replace (0 <? k) with true by lia. by split; [eexists|].
    + cbn [status]. rewrite Hout. destruct (Z.ltb_spec 0 k); [rewrite zlen_zdrop; lia|].
      replace k with 0 by lia. split; [done|]. intros Hpa. rewrite Hout.
      replace k with 0 by lia. by apply Hp.
  - destruct Hcase as [-> ->]. unfold wp. rewrite (bind_Ok _ _ _ _ _ Hrun). run. conn.
    assert (core [] (set_writes (tail (writes c)) (set_output (m_outputBuffer c) c)))
      by (destruct Hc; by split).
    split; [by split|]. by destruct (Buffer.isWouldBlockError err); split_and!.
Qed.

Lemma same_goes c c' : same c c' → goes c c'.
Proof. intros [[] ? Ht]. split; auto. intros ?. split; [auto|by rewrite Ht]. Qed.

Lemma handleWrite_loop_wp fuel : ∀ c, draining c → zlen (output c) < Z.of_nat fuel →
  wp (handleWrite_loop msg user fuel) c
     (λ go_on c', goes c c' ∧
        if go_on then draining c' ∧ output c' = []
        else base c' ∧ sending c' ∧ shutting c') nothrow.
Proof.
  induction fuel as [|fuel IH]; intros c Hd Hf; [pose proof (zlen_nonneg (output c)); lia|].
  cbn [handleWrite_loop]. apply wp_get. rewrite (readable_output _ c []) by apply Hd.
  destruct (Z.ltb_spec 0 (zlen (output c))) as [Hne|He].
  2: { apply wp_ret. split; [done|]. split; [done|]. apply output_empty.
       pose proof (zlen_nonneg (output c)). lia. }
  apply output_nonempty in Hne. apply wp_bind.
  eapply wp_mono; [by apply output_writeFdResult_wp| |done].
  intros r c1 (Hg1 & Hw1 & Hst1 & Hn1 & Hc1 & _ & Hr).
  assert (Hsame : output c1 = output c ∧ pause_ok c1 → ready n c1 ∧ sending c1 ∧ shutting c1).
  { intros [Ho1 Hp1]. split; [|split].
    - apply draining_ready; [done|by rewrite Ho1].
    - by intros _ _.
    - intros _. left. by rewrite Ho1. }
  assert (Hleave : ∀ m : M (Conn P) (), ready n c1 ∧ sending c1 ∧ shutting c1 →
    wp m c1 (λ _ c', evolves c1 c') nothrow →
    wp (m;;; ret false) c1 (λ go_on c', goes c c' ∧
      if go_on then draining c' ∧ output c' = []
      else base c' ∧ sending c' ∧ shutting c') nothrow).
  { intros m (Hr1 & Hs1 & Hsh1) Hm. apply wp_bind. eapply wp_mono; [exact Hm| |done].
    intros [] c2 [Hpr2 Hb2]. split; [transitivity c1; [done|by apply prior_goes]|].
    destruct Hpr2. auto. }
  destruct r as [io|e].
  - destruct (status io) eqn:Es.
    + apply wp_bind. eapply wp_mono; [by apply maybeResume_wp| |done].
      intros [] c2 (Hsm & Hc2 & Hp2). eapply wp_mono; [apply IH| |done].
      * destruct Hsm as [? ? ? ? ? Hwr ? Hsc].
        split_and!; [done|done|by rewrite Hwr|by rewrite Hsc].
      * rewrite (same_output _ _ _ Hsm). lia.
      * intros go c3 [Hg3 Hc3]. split; [|done]. transitivity c1; [done|].
        transitivity c2; [by apply same_goes|done].
    + apply wp_ret. destruct (Hsame Hr) as ([? _] & ? & ?). by split.
    + destruct (Hsame Hr) as (Hr1 & ?). apply Hleave; [auto|]. by apply handleClose_evolves with n.
    + done.
  - destruct (Hsame Hr) as (Hr1 & ?). apply Hleave; [auto|].
    by apply handleErrorAndClose_wp with n.
Qed.

Lemma handleWrite_wp c : ready n c →
  wp (handleWrite msg user) c (λ _ c', goes_on c c') nothrow.
Proof.
  intros Hr. unfold handleWrite, state. apply wp_get.
  destruct (isWriting (m_channel c)) eqn:Ew; cbn [negb]; [|apply goes_on_refl, Hr].
  assert (Hd : draining c) by (destruct Hr as [[? ? ?] ?]; by split_and!).
  rewrite (readable_output _ c []) by apply Hd. apply wp_bind.
  eapply wp_mono; [apply handleWrite_loop_wp; [done|]| |done].
  { pose proof (zlen_nonneg (output c)). lia. }
  intros [|] c1 [Hg1 Hc1]; cbn [negb]; [|destruct Hc1 as (? & ? & ?); by split].
  destruct Hc1 as [(Hco1 & Hp1 & Hw1 & Hn1) Ho1]. apply wp_get.
  rewrite (readable_output _ _ _ Hco1), Ho1. cbn [zlen length Z.of_nat Z.ltb Z.compare].
  change (0 <? 0) with false. cbv iota.
  eapply wp_seq; [by apply disableWriting_wp|]. intros [] c2 (Hm2 & Ht2 & Hb2 & Hs2 & Ho2 & _).
  eapply wp_seq; [apply maybeResume_wp, Hb2|]. intros [] c3 (Hsm3 & Hc3 & Hp3).
  pose proof (same_evolves _ _ _ Hb2 Hsm3 Hc3 Hp3) as Hev3.
  assert (Hr3 : ready n c3).
  { eapply ready_evolves; [|done]. destruct Hm2. split; [done|lia]. }
  assert (Hg3 : goes c c3).
  { transitivity c1; [done|]. transitivity c2; [|by apply same_goes].
    destruct Hm2. split; [done| |done]. rewrite Ht2. auto. }
  assert (Hs3 : sending c3) by by apply Hev3.
  eapply wp_then; [by apply callback_wp with n|done|]. intros c4 [Hpr4 Hb4] Hr4. apply wp_get.
  assert (Hg4 : goes c c4) by (transitivity c3; [done|by apply prior_goes]).
  case_bool_decide as Hst.
  - eapply wp_mono; [by eapply shutdownInLoop_wp| |done].
    intros [] c5 [[Hpr5 Hb5] Hsh5]. split; [transitivity c4; [done|by apply prior_goes]|done| |done].
    intros _. by apply Hpr5, Hpr4.
  - apply wp_ret. split; [done|done| |].
    + intros _. by apply Hpr4.
    + intros _ Hd'. by destruct Hst.
Qed.

Lemma handleError_wp c : ready n c →
  wp (handleError user) c (λ _ c', goes_on c c') nothrow.
Proof.
  intros Hr. unfold handleError, SocketOps_getSocketError. apply wp_bind, wp_get, wp_modify_seq, wp_ret.
  set (c1 := set_socketErrors _ c).
  assert (Hev : evolves c c1).
  { destruct Hr as [[[] ? ?] _]. split; [by split; [split| | |]|]. by split; [split|..]. }
  destruct (_ =? 0); [by apply evolves_goes_on|].
  eapply wp_mono; [apply handleErrorAndClose_wp with n; [done|by eapply ready_evolves]| |done].
  intros [] c2 Hev2. apply evolves_goes_on. by eapply evolves_trans.
Qed.

(** An event of the poller. *)
Lemma when_reported_wp mask cb c : ready n c →
  (∀ c, ready n c → wp cb c (λ _ c', goes_on c c') (λ _ c', goes_on c c')) →
  wp (when_reported m_channel mask (Some cb)) c
     (λ _ c', goes_on c c' ∧ ready n c') (λ _ c', goes_on c c').
Proof.
  intros Hr Hcb. unfold when_reported. apply wp_get. destruct (negb _).
  - eapply wp_mono; [by apply Hcb| |done]. intros [] c' Hg. split; [done|by eapply ready_goes].
  - apply wp_ret. split; [apply goes_on_refl, Hr|done].
Qed.

Lemma handleEvent_wp c : ready n c →
  wp (handleEvent m_channel (λ _, true) (channel_callbacks native msg user)) c
     (λ _ c', goes_on c c') (λ _ c', goes_on c c').
Proof.
  intros Hr. unfold handleEvent. apply wp_get. rewrite andb_false_r.
  unfold handleEventWithGuard, channel_callbacks. cbn [m_readCallback Channel.m_writeCallback
    Channel.m_closeCallback Channel.m_errorCallback].
  assert (Hup : ∀ (m : M (Conn P) ()) c0, wp m c0 (λ _ c', goes_on c0 c') nothrow →
    wp m c0 (λ _ c', goes_on c0 c') (λ _ c', goes_on c0 c')).
  { intros m c0 Hm. by eapply wp_mono; [exact Hm| |]. }
  assert (Hseq : ∀ mask cb (k : M (Conn P) ()) c0, ready n c0 →
    (∀ c, ready n c → wp cb c (λ _ c', goes_on c c') (λ _ c', goes_on c c')) →
    (∀ c, ready n c → wp k c (λ _ c', goes_on c c') (λ _ c', goes_on c c')) →
    wp (when_reported m_channel mask (Some cb);;; k) c0
       (λ _ c', goes_on c0 c') (λ _ c', goes_on c0 c')).
  { intros mask cb k c0 Hr0 Hcb Hk. apply wp_bind.
    eapply wp_mono; [by apply when_reported_wp| |done].
    intros [] c1 [Hg1 Hr1]. apply (wp_goes _ _ _ Hg1). by apply Hk. }
  apply Hseq; [done|intros; by apply Hup, handleError_wp|]. intros c1 Hr1.
  apply Hseq; [done|intros; by apply handleRead_wp|]. intros c2 Hr2.
  apply Hseq; [done|intros; by apply Hup, handleWrite_wp|]. intros c3 Hr3.
  eapply wp_mono; [apply when_reported_wp; [done|]| |done].
  - intros c4 Hr4. eapply wp_evolves_goes; [by apply handleClose_evolves with n|done].
  - by intros [] c5 [? _].
Qed.

(** A new connection is established without an exception. *)
Lemma connectEstablished_new c : ready n c → m_state c = Connecting →
  wp (connectEstablished user true) c (λ _ c', evolves c c') nothrow.
Proof.
  intros Hr Hst. unfold connectEstablished, state. cbn [negb]. apply wp_get.
  rewrite bool_decide_true by done. cbn [negb].
  apply wp_modify_seq, wp_modify_seq. set (c1 := set_ticks _ _).
  assert (Hev1 : evolves c c1).
  { destruct Hr as [[[? ? ? ? ? ? [? Hcl]] ? ?] _]. split; [split; [split| | |]|]; try done.
    - by rewrite Hst.
    - intros Hs _ Hne. apply Hs; [by rewrite Hst|done].
    - split; [|done..]. split; try done. split; [done|]. intros ?%Hcl. congruence. }
  assert (Hr1 : ready n c1) by by eapply ready_evolves.
  eapply wp_last; [exact Hev1|].
  eapply wp_then; [apply setEdgeTriggered_wp, Hr1|done|]. intros c2 Hev2 Hr2.
  apply wp_modify_seq. set (c3 := set_channel _ c2).
  assert (Hev3 : evolves c2 c3).
  { apply (evolves_channel _ c2 (tie (m_channel c2)) (poller c2)); [apply Hr2| |apply Hr2|auto].
    apply (base_core _ _ (proj1 Hr2)). }
  assert (Hr3 : ready n c3) by by eapply ready_evolves.
  eapply wp_then; [|done|].
  { eapply wp_mono; [apply enableReading_wp, Hr3| |done]. intros [] c' (? & ? & _ & Hev).
    exact Hev. }
  intros c4 Hev4 Hr4. eapply wp_last; [|by apply callback_wp with n].
  eapply evolves_trans; [done|]. by eapply evolves_trans.
Qed.

Lemma connectEstablished_wp c : ready n c →
  wp (connectEstablished user true) c (λ _ c', evolves c c') (λ _ c', evolves c c').
Proof.
  intros Hr. destruct (decide (m_state c = Connecting)) as [Hst|Hst].
  - by eapply wp_mono; [by apply connectEstablished_new|done|].
  - unfold connectEstablished, state. cbn [negb]. apply wp_get. rewrite bool_decide_false by done.
    apply evolves_refl, Hr.
Qed.

(** ** Tasks and calls of other threads *)

Lemma run_task_wp t c : ready n c → task_ok t →
  wp (run_task user t) c (λ _ c', evolves c c' ∧ (t = TaskShutdown → shutting c')) nothrow.
Proof.
  intros Hr Ht.
  assert (Hup : ∀ m : M (Conn P) (), t ≠ TaskShutdown → wp m c (λ _ c', evolves c c') nothrow →
    wp m c (λ _ c', evolves c c' ∧ (t = TaskShutdown → shutting c')) nothrow).
  { intros m Hne Hm. by eapply wp_mono; [exact Hm| |]. }
  destruct t; cbn [run_task]; try (apply Hup; [done|]).
  - by apply sendInLoop_wp with n.
  - eapply wp_mono; [by eapply shutdownInLoop_wp| |done]. by intros [] c' [].
  - by apply forceCloseInLoop_wp with n.
  - apply startRead_wp, Hr.
  - apply stopRead_wp, Hr.
Qed.

Lemma queueInLoop_wp t c : ready n c → task_ok t →
  wp (queueInLoop t) c (λ _ c', goes_on c c') nothrow.
Proof.
  intros [[[] Hw Hp] Hn] Ht. apply wp_modify. split; [by split| |done|].
  - split; [|done..]. split; try done. conn. apply Forall_app. auto.
  - intros Hs Hd. conn. destruct (Hs Hd) as [?|[?|?]]; set_solver.
Qed.

Lemma remote_wp o c : ready n c → remote_ok o →
  wp (run_op native user false o) c (λ _ c', goes_on c c') (λ _ c', goes_on c c').
Proof.
  intros Hr Ho.
  assert (Hq : ∀ t, task_ok t → wp (queueInLoop t) c (λ _ c', goes_on c c') (λ _ c', goes_on c c')).
  { intros t Ht. by eapply wp_mono; [by apply queueInLoop_wp| |]. }
  assert (Hsend : ∀ data, zlen data ≤ MAX_SIZE →
    wp (send user false data) c (λ _ c', goes_on c c') (λ _ c', goes_on c c')).
  { intros data Hz. unfold send. apply wp_get. destruct (_ || _); [apply goes_on_refl, Hr|].
    by apply Hq. }
  destruct o; cbn [run_op remote_ok op_ok] in *; try done.
  - by apply Hsend.
  - unfold sendFrame. apply wp_get. pose proof (core_codec _ _ _ (base_core _ _ (proj1 Hr))) as Hv.
    destruct (m_codec c) as [codec|]; [|apply Hsend; lia].
    apply encoded_wp; [done|done|auto|]. intros _. apply goes_on_refl, Hr.
  - unfold shutdown, state. apply wp_get. case_bool_decide as Hst; cbn [negb];
      [|apply goes_on_refl, Hr].
    apply wp_modify_seq, wp_modify. destruct Hr as [[[? ? ? ? ? ? [? Hcl]] Hw Hp] Hn].
    split; [by split; try done; rewrite Hst| | |].
    + split; [|done..]. split; try done; conn.
      * split; [done|]. intros ?%Hcl. congruence.
      * apply Forall_app. auto.
    + intros Hs _ Hne. apply Hs; [by rewrite Hst|done].
    + intros _ _. right; right. conn. set_solver.
  - unfold forceClose. apply wp_get. case_bool_decide; [apply goes_on_refl, Hr|by apply Hq].
  - by apply Hq.
  - by apply Hq.
Qed.

(** A call in the thread of the loop, outside the callbacks: also the codec and the
    callbacks may be changed. *)
Lemma call_wp o c : ready n c → call_ok quiet o →
  wp (run_op native user true o) c (λ _ c', goes_on c c') (λ _ c', goes_on c c').
Proof.
  intros Hr [Ho Hq].
  assert (Hup : script_op_ok quiet o →
    wp (run_op native user true o) c (λ _ c', goes_on c c') (λ _ c', goes_on c c')).
  { intros Hs. eapply wp_evolves_goes; [by apply run_op_wp with n|done]. }
  destruct o; try (by apply Hup); cbn [run_op op_ok] in *; apply wp_modify;
    destruct Hr as [[[] ? ?] ?]; (split; [by split| |done|done]); by split; [split|..].
Qed.

End handlers.

(** ** Runs *)

Section runs.
Context {P : Type} {POps : PollerOps P} {PLaws : Poller P} (quiet native : bool).
Context (msg : Z → str).
Implicit Types (c : Conn P).

Abbreviation base := (ConnectionFacts.base quiet).
Abbreviation goes_on := (ConnectionRuns.goes_on quiet).

(** Everything but the second half of a [shutdown] of another thread *)
Definition action_ok (a : Action) : Prop :=
  match a with
  | Call o => call_ok quiet o
  | Remote o => remote_ok o
  | LateShutdown => False
  | _ => True
  end.

Lemma act_wp a c : base c → action_ok a →
  wp (act native msg a) c (λ _ c', goes_on c c') (λ _ c', goes_on c c').
Proof.
  intros Hb Ha. unfold act. apply wp_get.
  set (n := S (length (script c))). pose proof (react_ok quiet native n) as Hu.
  assert (Hr : ready quiet n c) by (split; [done|lia]).
  destruct a; cbn [action_ok] in Ha.
  - eapply wp_evolves_goes; [by apply connectEstablished_wp with n|done].
  - apply wp_modify_seq. set (c1 := set_channel _ c).
    assert (Hev : evolves quiet c c1).
    { apply (evolves_channel _ c (setRevents revents (m_channel c)) (poller c));
        [done|apply Hb|apply Hb|auto]. }
    apply (wp_goes _ _ _ _ (evolves_goes_on _ _ _ Hev)). apply handleEvent_wp with n; [done|].
    by eapply ready_evolves.
  - destruct (pending c) as [|t ts] eqn:Ep; [by apply goes_on_refl|]. apply wp_modify_seq.
    set (c1 := set_pending ts c).
    assert (Ht : task_ok t ∧ Forall task_ok ts).
    { apply Forall_cons. rewrite <- Ep. apply Hb. }
    assert (Hr1 : ready quiet n c1).
    { destruct Hb as [[] ? ?]. split; [|apply Hr]. split; [|done..]. split; try done. apply Ht. }
    eapply wp_mono; [apply run_task_wp with n; [done|done|apply Ht]| |done].
    intros [] c2 [[Hpr Hb2] Hsh]. destruct (prior_goes _ _ _ Hpr) as [Hsc Hcl Htr].
    split; [split; [exact Hsc|exact Hcl|exact Htr]|done|exact (prior_sending _ _ _ Hpr)|].
    intros Hs. destruct (decide (t = TaskShutdown)) as [->|Hne]; [by apply Hsh|].
    apply Hpr. intros Hd. destruct (Hs Hd) as [?|[?|Hin]]; [by left|by right; left|].
    right; right. rewrite Ep in Hin. set_solver.
  - by apply call_wp with n.
  - by apply remote_wp with n.
  - done.
  - apply wp_modify. destruct Hb as [[] ? ?]. split; [by split| |done|done]. by split; [split|..].
Qed.

(** The second half of a [shutdown] of another thread, before any close *)
Lemma late_wp c : base c → m_state c ≠ Disconnected →
  wp (act native msg LateShutdown) c (λ _ c', goes_on c c') (λ _ c', goes_on c c').
Proof.
  intros [[? ? ? ? ? ? [? Hcl]] Hw Hp] Hst. unfold act. apply wp_get, wp_modify_seq, wp_modify.
  split; [by split| | |].
  - split; [|done..]. split; try done; conn.
    + split; [done|]. intros ?. by destruct Hst; apply Hcl.
    + apply Forall_app. split; [done|]. by apply Forall_singleton.
  - intros Hs _ Hne. by apply Hs.
  - intros _ _. right; right. conn. set_solver.
Qed.

Definition possible (a : Action) : Prop := a = LateShutdown ∨ action_ok a.

(** No [shutdown] of another thread is overtaken by a close: when it stores [Disconnecting] the
    connection is not yet [Disconnected]. *)
Fixpoint timely (acts : list Action) (c : Conn P) : Prop :=
  match acts with
  | [] => True
  | a :: acts => (a = LateShutdown → m_state c ≠ Disconnected) ∧ timely acts (snd (catching (act native msg a) c))
  end.

Lemma run_actions_timely acts : ∀ c, base c → Forall possible acts → timely acts c →
  wp (run_actions native msg acts) c (λ _ c', goes_on c c') nothrow.
Proof.
  induction acts as [|a acts IH]; intros c Hb Ha Ht; [by apply goes_on_refl|].
  apply Forall_cons in Ha as [Ha Has]. destruct Ht as [Ht Hts]. cbn [run_actions].
  assert (Hact : wp (catching (act native msg a)) c (λ _ c', goes_on c c') nothrow).
  { apply wp_catching. destruct Ha as [->|Ha]; [by apply late_wp; auto|by apply act_wp]. }
  destruct (wp_inv _ _ _ Hact) as ([] & c1 & E & Hg). rewrite E in Hts. cbn [snd] in Hts.
  apply (wp_run_seq _ _ _ _ _ _ _ E).
  eapply wp_mono; [apply IH; [apply Hg|done|done]| |done]. intros [] c2 Hg2. by eapply goes_on_trans.
Qed.

Lemma action_ok_timely acts : Forall action_ok acts → Forall possible acts ∧ ∀ c, timely acts c.
Proof.
  induction 1 as [|a acts Ha _ [IH1 IH2]]; [by split|]. split; [constructor; [by right|done]|].
  intros c. split; [|done]. by intros ->.
Qed.

Lemma run_actions_wp acts c : base c → Forall action_ok acts →
  wp (run_actions native msg acts) c (λ _ c', goes_on c c') nothrow.
Proof. intros Hb [Hp Ht]%action_ok_timely. by apply run_actions_timely. Qed.

(** The two parts of a run *)
Lemma timely_app acts more : ∀ c, timely (acts ++ more) c →
  timely acts c ∧ ∀ c1, run_actions native msg acts c = (Ok tt, c1) → timely more c1.
Proof.
  induction acts as [|a acts IH]; intros c; [by split; [|intros c1 [= <-]]|].
  cbn [app timely run_actions]. intros [H1 H2]. apply IH in H2 as [H2 H3].
  split; [done|]. intros c1. unfold bind. destruct (catching (act native msg a) c) as [[[]| | |] c2]; auto; done.
Qed.

(** A new connection in its world. *)
Definition launch (c : Conn P) (rs : list (io_outcome str)) (ws : list WriteAnswer)
    (errs : list Z) (sc : list (list Op)) : Conn P :=
  set_reads rs (set_writes ws (set_socketErrors errs (set_script sc c))).

Definition launch_ok (p : P) (fd : Z) (rs : list (io_outcome str)) (sc : list (list Op)) : Prop :=
  poller_ok p ∧ registered p !! fd = None ∧ reads_bytes rs ≤ 2 ^ 60 ∧
  Forall (Forall (script_op_ok quiet)) sc.

Lemma launch_base this fd p c rs ws errs sc :
  TcpConnection_make this true fd p = Ok c → launch_ok p fd rs sc →
  base (launch c rs ws errs sc) ∧ sending (launch c rs ws errs sc) ∧
  shutting (launch c rs ws errs sc).
Proof.
  intros Hc (Hp & Hfd & Hrs & Hsc). unfold TcpConnection_make, Channel_make in Hc. cbn [negb] in Hc.
  destruct (fd =? kInvalidSocket); [done|]. cbn [res_bind] in Hc.
  destruct (Buffer_make_spec kInitialSize) as (b & Hb & Hi & Hco & Hu & _ & Hcap);
    [unfold kInitialSize; buf_lia|].
  rewrite Hb in Hc. cbn [res_bind] in Hc. injection Hc as <-.
  assert (Hfit : ∀ m, m ≤ 2 ^ 60 → buffer_fits b m).
  { intros m Hm. split; [done|done| |rewrite Hco, zlen_nil; lia].
    revert Hcap. unfold capacity, kInitialSize, kCheapPrepend. lia. }
  split_and!; [split; [split|..]; unfold launch; conn; try done| |].
  - by apply Hfit.
  - by apply Hfit.
  - intros _. unfold output. conn. by rewrite Hco.
  - change (closes []) with 0%nat. split; [lia|]. intros ?. lia.
  - intros _ Hne. by destruct Hne.
  - by intros ?.
Qed.

(** Every run of a new connection ends, in a state with the invariant. *)
Lemma run_launch_timely this fd p c rs ws errs sc acts :
  TcpConnection_make this true fd p = Ok c → launch_ok p fd rs sc → Forall possible acts →
  timely acts (launch c rs ws errs sc) →
  ∃ c', run_actions native msg acts (launch c rs ws errs sc) = (Ok tt, c') ∧
        base c' ∧ sending c' ∧ shutting c'.
Proof.
  intros Hc Hl Ha Ht. destruct (launch_base this fd p c rs ws errs sc Hc Hl) as (Hb & Hs & Hsh).
  destruct (wp_inv _ _ _ (run_actions_timely acts _ Hb Ha Ht)) as ([] & c' & Hr & [? ? ? ?]).
  exists c'. auto.
Qed.

Lemma run_launch this fd p c rs ws errs sc acts :
  TcpConnection_make this true fd p = Ok c → launch_ok p fd rs sc → Forall action_ok acts →
  ∃ c', run_actions native msg acts (launch c rs ws errs sc) = (Ok tt, c') ∧
        base c' ∧ sending c' ∧ shutting c'.
Proof. intros Hc Hl [Hp Ht]%action_ok_timely. by eapply run_launch_timely. Qed.

End runs.

(** C1: a connection never reorders, duplicates or invents output.  In every run (whatever
    the kernel answers, whichever events the poller reports, whatever other threads call, and
    whatever the user's callbacks call except that they do not remove the codec or change the
    callbacks), as long as nothing was discarded, the bytes written to the socket followed by
    the output buffer are the accepted messages, in the order they were accepted; no run gets
    stuck or touches memory out of bounds.  Left out are two things the code gets wrong: a
    callback that removes the codec, after which [handleCodecMessages] follows a null pointer
    ([codec_removed_in_callback]), and a [shutdown] of another thread that is overtaken by a
    close ([timely], [connection_corner_cases] (6)). *)
Theorem connection_bytes_in_order {P} {POps : PollerOps P} {PLaws : Poller P}
    native msg this fd (p : P) c rs ws errs sc acts :
  TcpConnection_make this true fd p = Ok c → launch_ok false p fd rs sc →
  Forall (possible false) acts → timely native msg acts (launch c rs ws errs sc) →
  ∃ c', run_actions native msg acts (launch c rs ws errs sc) = (Ok tt, c') ∧
    (lossless (trace c') = true →
     wire (trace c') ++ content (m_outputBuffer c') = taken (trace c')).
Proof.
  intros Hc Hl Ha Ht.
  destruct (run_launch_timely false native msg this fd p c rs ws errs sc acts Hc Hl Ha Ht) as (c' & Hr & Hb & _).
  exists c'. split; [done|]. intros Hlo.
  pose proof (core_bytes _ _ _ (base_core _ _ Hb) Hlo) as Hby. by rewrite app_nil_r in Hby.
Qed.

(** C3: nothing a connection owes is forgotten.  In runs of any length in which no [shutdown] of
    another thread is overtaken by a close ([timely]; [late_shutdown_forgets] shows what such a
    [shutdown] does) and the callbacks do not remove the codec or change the callbacks: while an
    open connection has unsent bytes its channel wants output and is registered with the
    poller; input paused by flow control means there are unsent bytes, whose sending will
    resume it; a connection that is shutting down has unsent bytes, has the shutdown
    queued, or has shut down the sending side of the socket. *)
Theorem connection_keeps_going {P} {POps : PollerOps P} {PLaws : Poller P}
    native msg this fd (p : P) c rs ws errs sc acts :
  TcpConnection_make this true fd p = Ok c → launch_ok false p fd rs sc →
  Forall (possible false) acts → timely native msg acts (launch c rs ws errs sc) →
  ∃ c', run_actions native msg acts (launch c rs ws errs sc) = (Ok tt, c') ∧
    (m_state c' ≠ Disconnected → content (m_outputBuffer c') ≠ [] →
       isWriting (m_channel c') = true ∧
       registered (poller c') !! m_fd (m_channel c') = Some (addr (m_channel c'))) ∧
    (m_readPausedByFlowControl (m_flow c') = true → content (m_outputBuffer c') ≠ []) ∧
    (m_state c' = Disconnecting →
       content (m_outputBuffer c') ≠ [] ∨ ShutdownWrite ∈ trace c' ∨
       TaskShutdown ∈ pending c').
Proof.
  intros Hc Hl Ha Ht.
  destruct (run_launch_timely false native msg this fd p c rs ws errs sc acts Hc Hl Ha Ht)
    as (c' & Hr & [Hco Hw Hp] & Hs & Hsh).
  exists c'. split; [done|]. split; [|split; [done|exact Hsh]].
  intros Hst Ho. assert (Hwr : isWriting (m_channel c') = true) by by apply Hs.
  split; [done|]. destruct (core_watched _ _ _ Hco) as [_ ->].
  by rewrite (isNoneEvent_bits (m_channel c')) by auto.
Qed.

(** C21: a connection is closed once and for good: however a run goes on after the state is
    [Disconnected], the state stays so, and the close callback is called at most once in a
    run.  For runs in which no [shutdown] of another thread is overtaken by the close
    ([timely]: such a [shutdown] turns [Disconnected] into [Disconnecting] again, and a second
    close follows, [connection_corner_cases] (6)) and the callbacks do not remove the codec or
    change the callbacks. *)
Theorem connection_closes_once {P} {POps : PollerOps P} {PLaws : Poller P}
    native msg this fd (p : P) c rs ws errs sc acts more :
  TcpConnection_make this true fd p = Ok c → launch_ok false p fd rs sc →
  Forall (possible false) (acts ++ more) → timely native msg (acts ++ more) (launch c rs ws errs sc) →
  ∃ c1 c2, run_actions native msg acts (launch c rs ws errs sc) = (Ok tt, c1) ∧
    run_actions native msg more c1 = (Ok tt, c2) ∧
    (closes (trace c2) ≤ 1)%nat ∧
    (m_state c1 = Disconnected →
       m_state c2 = Disconnected ∧ closes (trace c2) = closes (trace c1)).
Proof.
  intros Hc Hl [Ha Hm]%Forall_app [Ht Htm]%timely_app.
  destruct (run_launch_timely false native msg this fd p c rs ws errs sc acts Hc Hl Ha Ht) as (c1 & Hr1 & Hb1 & _).
  specialize (Htm c1 Hr1).
  destruct (wp_inv _ _ _ (run_actions_timely false native msg more c1 Hb1 Hm Htm)) as ([] & c2 & Hr2 & Hg).
  exists c1, c2. split; [done|]. split; [done|]. split.
  - apply (core_closes _ _ _ (base_core _ _ (on_base _ _ _ Hg))).
  - apply Hg.
Qed.
