(* ===== verification/ConnectionStream.v ===== *)
(** * Messages between two [TcpConnection]s

    What a connection reads it delivers, what it has to send it sends: the frames that one
    side puts on the wire reach the frame callback of the other, however the kernel cuts
    the stream; the output buffer drains when the kernel takes it. *)

From S2P Require Import Prelude Error Endian Buffer Codec Channel Poller.
From S2P Require Import Connection ConnectionFacts ConnectionRuns.
From stdpp Require Import base gmap list strings.
From Stdlib Require Import ZArith Lia Ascii.

Local Open Scope Z_scope.

(** ** Receiving *)

Section receiving.
Context {P : Type} {POps : PollerOps P} {PLaws : Poller P}.
Context (native : bool) (msg : Z → str) (user : Event → M (Conn P) ()) (n : nat).
Context (Huser : user_ok true user n).
Context (codec : LengthFieldCodec) (Hv : valid codec).
Implicit Types (c : Conn P).

(** The user gets frames. *)
Definition framed (c : Conn P) : Prop :=
  ready true n c ∧ m_codec c = Some codec ∧ m_frameMessageCallback (m_callbacks c) = true.

(** What a round of reading does. *)
Definition got (ps : list str) (c c' : Conn P) : Prop :=
  framed c' ∧ reads c' = reads c ∧ delivered (trace c') = delivered (trace c) ++ ps.

Lemma handleCodecMessages_loop_frames ps part : ∀ fuel c,
  framed c → Forall (encodable codec) ps → incomplete codec part →
  input c = frames codec ps ++ part → (length ps < fuel)%nat →
  wp (handleCodecMessages_loop native user fuel) c
     (λ _ c', got ps c c' ∧ input c' = part) nothrow.
Proof.
  induction ps as [|p ps IH]; intros fuel c (Hr & Hcd & Hcb) Hps Hpart Hin Hf;
    (destruct fuel as [|fuel]; [simpl in Hf; lia|]); cbn [handleCodecMessages_loop];
    apply wp_get; rewrite Hcd; apply wp_bind.
  - eapply wp_mono; [by eapply tryDecode_wp| |].
    + intros r c1 ([b ->] & _ & Hr1 & -> & Hin1). change (frames codec []) with (@nil ascii) in Hin.
      rewrite Hin in *. cbn [app] in *. rewrite decode_incomplete in * by done. cbn.
      split; [|done]. split_and!; [done..|]. by rewrite app_nil_r.
    + intros e c1 [_ Hw]. rewrite Hin in Hw. cbn [app] in Hw.
      by rewrite incomplete_no_wrap in Hw.
  - apply Forall_cons in Hps as [Hp Hps]. rewrite frames_cons, <- app_assoc in Hin.
    eapply wp_mono; [by eapply tryDecode_wp| |].
    + intros r c1 ([b ->] & _ & Hr1 & -> & Hin1). rewrite Hin in *.
      rewrite decode_frame in * by done. cbn [fst snd dr_status dr_payload] in *. rewrite Hcb.
      apply wp_bind. eapply wp_mono; [by eapply deliver_frame_wp| |done].
      intros [] c2 (_ & Hr2 & Hrd2 & Hcd2 & _ & Hcb2 & _ & Hq2 & Hde2). specialize (Hq2 eq_refl). specialize (Hcd2 eq_refl).
      eapply wp_mono; [apply (IH fuel c2); try done| |done].
      * split_and!; [done|by rewrite Hcd2|by rewrite Hcb2].
      * unfold input. by rewrite Hq2.
      * simpl in Hf. lia.
      * intros [] c3 [(Hfr & Hrd & Hde) Hin3]. split; [|done]. split_and!; [done| |].
        -- by rewrite Hrd, Hrd2.
        -- by rewrite Hde, Hde2, <- app_assoc.
    + intros e c1 [_ Hw]. rewrite Hin in Hw. by rewrite frame_no_wrap in Hw.
Qed.

Lemma deliver_frames ps part c :
  framed c → Forall (encodable codec) ps → incomplete codec part →
  input c = frames codec ps ++ part →
  wp (deliver native user) c (λ _ c', got ps c c' ∧ input c' = part) nothrow.
Proof.
  intros (Hr & Hcd & Hcb) Hps Hpart Hin. unfold deliver. apply wp_get.
  rewrite Hcd, Hcb, bool_decide_true by by eexists. cbn [andb].
  unfold handleCodecMessages. apply wp_get. apply handleCodecMessages_loop_frames; try done.
  pose proof (core_input _ _ _ (base_core _ _ (proj1 Hr))) as [Hi _ _ _].
  rewrite readableBytes_eq, <- zlen_content by done. fold (input c). rewrite Hin, zlen_app.
  pose proof (frames_length codec Hv ps). pose proof (zlen_nonneg part). lia.
Qed.

(** A stream in pieces. *)
Definition stream (rs : list (io_outcome str)) : str :=
  rs ≫= λ r, match r with IoDone d => d | IoFail _ => [] end.
Definition pieces (rs : list (io_outcome str)) : Prop :=
  Forall (λ r, match r with IoDone d => d ≠ [] | IoFail _ => False end) rs.

Lemma kernel_readv_pieces cap rs a rest : 0 < cap → pieces rs → kernel_readv cap rs = (a, rest) →
  (rs = [] ∧ a = IoFail EAGAIN) ∨
  ∃ d, a = IoDone d ∧ d ≠ [] ∧ d ++ stream rest = stream rs ∧ pieces rest.
Proof.
  intros Hc Hp. unfold kernel_readv. destruct rs as [|[d|err] rs]; [by intros [= <- <-]; left| |];
    apply Forall_cons in Hp as [Hd Hp]; [|done].
  destruct (Z.leb_spec (zlen d) cap); intros [= <- <-]; right; eexists; (split; [done|]).
  - done.
  - split; [|split].
    + intros He%(f_equal zlen). rewrite zlen_ztake, zlen_nil in He by lia. lia.
    + change (stream (IoDone ?x :: rs)) with (x ++ stream rs). by rewrite app_assoc, ztake_zdrop.
    + constructor; [|done]. intros He%(f_equal zlen). rewrite zlen_zdrop, zlen_nil in He by lia. lia.
Qed.

Lemma handleRead_loop_frames fuel : ∀ ps part c,
  framed c → Forall (encodable codec) ps → incomplete codec part → incomplete codec (input c) →
  pieces (reads c) → input c ++ stream (reads c) = frames codec ps ++ part →
  (reads_size (reads c) < fuel)%nat →
  wp (handleRead_loop native msg user fuel) c
     (λ _ c', framed c' ∧ input c' = part ∧
        delivered (trace c') = delivered (trace c) ++ ps) nothrow.
Proof.
  induction fuel as [|fuel IH]; intros ps part c Hfr Hps Hpart Hinc Hpi Hs Hf; [lia|].
  cbn [handleRead_loop]. apply wp_bind. pose proof Hfr as (Hr & Hcd & Hcb).
  eapply wp_mono; [by eapply input_readFdResult_wp| |done].
  intros r c1 (_ & Hr1 & Hcd1 & Hcb1 & Ht1 & cap & a & Hcap & Hk & Hres).
  pose proof (kernel_readv_spec _ _ _ _ Hcap Hk) as Hsz.
  destruct (kernel_readv_pieces _ _ _ _ Hcap Hpi Hk) as [[Hnil ->]|(d & -> & Hd & Hst & Hpi1)].
  - destruct Hres as [-> Hin1]. cbn. rewrite Hnil, app_nil_r in Hs.
    assert (Hps0 : ps = []).
    { destruct ps as [|p ps]; [done|]. apply Forall_cons in Hps as [Hp _].
      by destruct (nonempty_frames_complete codec Hv p ps part (input c)). }
    subst ps. change (frames codec []) with (@nil ascii) in Hs. split_and!.
    + by split_and!; [done|rewrite Hcd1|rewrite Hcb1].
    + by rewrite Hin1.
    + by rewrite app_nil_r, Ht1.
  - destruct Hres as [-> Hin1]. destruct Hsz as (_ & _ & Hsz).
    assert (0 < zlen d).
    { pose proof (zlen_nonneg d). assert (zlen d ≠ 0) by (intros He; by apply Hd, zlen_zero). lia. }
    replace (0 <? zlen d) with true by lia. cbn [status].
    rewrite <- Hst, app_assoc, <- Hin1 in Hs.
    destruct (frames_cut codec ps part _ _ Hps Hpart Hs)
      as (ps1 & ps2 & part1 & -> & Hco1 & Hpart1 & Hs2).
    apply Forall_app in Hps as [Hps1 Hps2]. apply wp_modify_seq. set (c2 := set_ticks _ c1).
    assert (Hfr2 : framed c2).
    { split; [|by split; [rewrite <- Hcd|rewrite <- Hcb]; subst c2; conn; rewrite ?Hcd1, ?Hcb1].
      destruct Hr1 as [[[] ? ?] ?]. split; [|done]. by split; [split|..]. }
    apply wp_bind. eapply wp_mono; [by apply (deliver_frames ps1 part1)| |done].
    intros [] c3 [(Hfr3 & Hrd3 & Hde3) Hin3].
    change (reads c2) with (reads c1) in Hrd3. change (trace c2) with (trace c1) in Hde3.
    eapply wp_mono; [apply (IH ps2 part c3); try done| |done].
    + by rewrite Hin3.
    + by rewrite Hrd3.
    + by rewrite Hin3, Hrd3.
    + rewrite Hrd3. lia.
    + intros [] c4 (? & ? & Hde4). split_and!; [done..|].
      by rewrite Hde4, Hde3, Ht1, <- app_assoc.
Qed.

End receiving.

(** A connection that is given a codec and the callbacks of its user, and established. *)
Definition set_up (codec : LengthFieldCodec) (cbs : UserCallbacks) : list Action :=
  [Call (OpSetLengthFieldCodec (Some codec)); Call (OpSetCallbacks cbs); Establish].

Lemma set_up_framed {P} {POps : PollerOps P} {PLaws : Poller P}
    native msg this fd (p : P) c rs ws errs sc codec cbs :
  TcpConnection_make this true fd p = Ok c → launch_ok true p fd rs sc →
  valid codec → m_frameMessageCallback cbs = true →
  ∃ c', run_actions native msg (set_up codec cbs) (launch c rs ws errs sc) = (Ok tt, c') ∧
    framed (S (length (script c'))) codec c' ∧ reads c' = rs ∧ input c' = [] ∧
    delivered (trace c') = [].
Proof.
  intros Hc Hl Hv Hcb. destruct (launch_base true this fd p c rs ws errs sc Hc Hl) as (Hb & _).
  assert (Hin : input (launch c rs ws errs sc) = [] ∧ trace c = []).
  { unfold TcpConnection_make, Channel_make in Hc. cbn [negb] in Hc.
    destruct (fd =? kInvalidSocket); [done|]. cbn [res_bind] in Hc.
    destruct (Buffer_make_spec kInitialSize) as (b & Hbm & _ & Hco & _);
      [unfold kInitialSize; buf_lia|].
    rewrite Hbm in Hc. cbn [res_bind] in Hc. injection Hc as <-. done. }
  destruct Hin as [Hin Htr].
  set (c1 := set_callbacks cbs (set_codec (Some codec) (launch c rs ws errs sc))).
  assert (Hb1 : base true c1) by (destruct Hb as [[] ? ?]; by split; [split|..]).
  set (n := S (length (script c1))). pose proof (react_ok true native n) as Hu.
  assert (Hr1 : ready true n c1) by (split; [done|unfold n; lia]).
  destruct (wp_inv _ _ _ (wp_catching _ _ _ (connectEstablished_wp true (react native n) n Hu c1 Hr1)))
    as ([] & c2 & Hrun & Hev).
  exists c2. split.
  { cbn [set_up run_actions]. rewrite (bind_Ok _ _ _ tt (set_codec (Some codec) (launch c rs ws errs sc))) by done.
    rewrite (bind_Ok _ _ _ tt c1) by done. rewrite (bind_Ok _ _ _ tt c2) by exact Hrun. done. }
  destruct Hev as [[[] ? ? ?] Hb2]. split; [|split_and!].
  - split; [split; [exact Hb2|lia]|]. by rewrite mono_codec, mono_callbacks by done.
  - by rewrite mono_reads.
  - unfold input. rewrite mono_quiet by done. exact Hin.
  - rewrite mono_frames. unfold c1, launch. conn. by rewrite Htr.
Qed.

(** C2: the frames one connection sends arrive at the other.  Take any run of a sender that
    has accepted the frames of the payloads [ps] and lost nothing, and any cut of the bytes
    it has put on the wire so far into pieces read by a receiver with the same codec.  The
    read handler of the receiver delivers to the frame callback the first payloads, in
    order and once each (all of them when the output buffer of the sender is empty),
    whatever the callbacks of either side call meanwhile, except that the receiver's do not
    consume the input, replace the codec or change the callbacks (the sender's may do all but
    remove the codec and change the callbacks); no [shutdown] of another thread is overtaken
    by a close of the sender. *)
Theorem frames_end_to_end {P Q} {POps : PollerOps P} {PLaws : Poller P}
    {QOps : PollerOps Q} {QLaws : Poller Q} native native' msg codec ps
    this fd (p : P) c rs ws errs sc acts c' this' fd' (q : Q) d rs' ws' errs' sc' cbs :
  valid codec → encodable codec [] → Forall (encodable codec) ps →
  TcpConnection_make this true fd p = Ok c → launch_ok false p fd rs sc →
  Forall (action_ok false) acts →
  run_actions native msg acts (launch c rs ws errs sc) = (Ok tt, c') →
  lossless (trace c') = true → taken (trace c') = frames codec ps →
  TcpConnection_make this' true fd' q = Ok d → launch_ok true q fd' rs' sc' →
  m_frameMessageCallback cbs = true →
  pieces rs' → stream rs' = wire (trace c') →
  ∃ d1 d2, run_actions native' msg (set_up codec cbs) (launch d rs' ws' errs' sc') = (Ok tt, d1) ∧
    handleRead native' msg (react native' (S (length (script d1)))) d1 = (Ok tt, d2) ∧
    delivered (trace d2) `prefix_of` ps ∧
    (content (m_outputBuffer c') = [] → delivered (trace d2) = ps).
Proof.
  intros Hv He Hps Hc Hl Ha Hrun Hlo Hta Hd Hl' Hcb Hpi Hst.
  destruct (run_launch false native msg this fd p c rs ws errs sc acts Hc Hl Ha)
    as (c'' & Hrun' & Hb & _).
  rewrite Hrun in Hrun'. injection Hrun' as <-.
  pose proof (core_bytes _ _ _ (base_core _ _ Hb) Hlo) as Hby. rewrite app_nil_r, Hta in Hby.
  assert (Hnil : incomplete codec []).
  { exists [], (frame codec []). split_and!; [done| |done]. intros Hf%(f_equal zlen).
    rewrite zlen_frame, zlen_nil in Hf by done. pose proof (field_range codec Hv).
    lia. }
  destruct (frames_cut codec ps [] (wire (trace c')) (output c') Hps Hnil)
    as (ps1 & ps2 & part1 & -> & Hw & Hpart1 & Hrest); [by rewrite app_nil_r|].
  apply Forall_app in Hps as [Hps1 Hps2].
  destruct (set_up_framed native' msg this' fd' q d rs' ws' errs' sc' codec cbs Hd Hl' Hv Hcb)
    as (d1 & Hr1 & Hfr & Hrd & Hin & Hde).
  exists d1. set (n := S (length (script d1))) in *.
  destruct (wp_inv _ _ _ (handleRead_loop_frames native' msg (react native' n) n
    (react_ok true native' n) codec Hv (S (reads_size (reads d1))) ps1 part1 d1 Hfr Hps1 Hpart1
    ltac:(by rewrite Hin) ltac:(by rewrite Hrd) ltac:(by rewrite Hin, Hrd, Hst) ltac:(lia)))
    as ([] & d2 & Hr2 & _ & _ & Hde2).
  exists d2. split; [done|]. split; [exact Hr2|]. rewrite Hde2, Hde. cbn [app].
  split; [by apply prefix_app_r|]. intros Ho. fold (output c') in Ho.
  rewrite Ho, !app_nil_r in Hrest. destruct ps2 as [|p2 ps2]; [by rewrite app_nil_r|].
  apply Forall_cons in Hps2 as [Hp2 _].
  destruct (nonempty_frames_complete codec Hv p2 ps2 [] part1); [done|done|by rewrite app_nil_r].
Qed.

(** ** Draining the output *)

(** What a list of answers can take. *)
Definition takes (ks : list Z) : Z := foldr (λ k n, Z.min k MAX_RW_COUNT + n) 0 ks.

(** What one write takes of [z] bytes. *)
Definition taking (k z : Z) : Z := Z.min (Z.max 0 k) (Z.min MAX_RW_COUNT z).

Lemma kernel_write_takes k ws data :
  kernel_write (Takes k :: ws) data = IoDone (taking k (zlen data)).
Proof. done. Qed.

Lemma taking_bounds k z : 0 < k → 0 < z → 0 < taking k z ≤ z.
Proof. unfold taking, MAX_RW_COUNT. lia. Qed.

Lemma takes_cons k ks z : 0 < k → Forall (λ k, 0 < k) ks → 0 < z → z ≤ takes (k :: ks) →
  z - taking k z ≤ takes ks.
Proof.
  intros Hk Hks Hz. assert (0 ≤ takes ks).
  { induction Hks as [|x l Hx _ IH]; simpl; [lia|]. unfold MAX_RW_COUNT. lia. }
  change (takes (k :: ks)) with (Z.min k MAX_RW_COUNT + takes ks).
  unfold taking, MAX_RW_COUNT. lia.
Qed.

Section draining.
Context {P : Type} {POps : PollerOps P} {PLaws : Poller P}.
Context (quiet : bool) (msg : Z → str) (user : Event → M (Conn P) ()) (n : nat).
Implicit Types (c : Conn P).

Lemma handleWrite_loop_drains fuel : ∀ ks more c,
  draining quiet n c → zlen (output c) < Z.of_nat fuel →
  writes c = (Takes <$> ks) ++ more → Forall (λ k, 0 < k) ks → zlen (output c) ≤ takes ks →
  wp (handleWrite_loop msg user fuel) c
     (λ go_on c', go_on = true ∧ draining quiet n c' ∧ output c' = [] ∧
        wire (trace c') = wire (trace c) ++ output c ∧
        script c' = script c ∧ m_state c' = m_state c) nothrow.
Proof.
  induction fuel as [|fuel IH]; intros ks more c Hd Hf Hws Hks Ht;
    [pose proof (zlen_nonneg (output c)); lia|].
  cbn [handleWrite_loop]. apply wp_get. rewrite (readable_output _ c []) by apply Hd.
  destruct (Z.ltb_spec 0 (zlen (output c))) as [Hne|He].
  2: { pose proof (zlen_nonneg (output c)). assert (Ho : output c = []) by (apply zlen_zero; lia).
       apply wp_ret. rewrite Ho, app_nil_r. done. }
  destruct ks as [|k ks]; [simpl in Ht; lia|]. apply Forall_cons in Hks as [Hk Hks].
  apply output_nonempty in Hne. apply wp_bind.
  eapply wp_mono; [by eapply output_writeFdResult_wp| |done].
  intros r c1 (_ & Hw1 & Hst1 & Hn1 & Hc1 & (Hsc1 & Hws1 & Hwi1 & Hkw) & _).
  apply output_nonempty in Hne. rewrite Hws, fmap_cons, <- app_comm_cons in Hkw, Hws1.
  rewrite kernel_write_takes in Hkw. pose proof (taking_bounds k (zlen (output c)) Hk Hne) as Hm.
  set (m := taking k (zlen (output c))) in *. cbn [tail] in Hws1.
  destruct Hkw as [(io & -> & Hio) Ho1]; [lia|]. rewrite Hio. apply wp_bind.
  eapply wp_mono; [by apply maybeResume_wp| |done]. intros [] c2 (Hsm & Hc2 & Hp2).
  destruct Hsm as [? Hst2 Ht2 ? Ho2 Hw2 Hws2 Hsc2].
  assert (Hz : zlen (output c2) = zlen (output c) - m) by (rewrite Ho2, Ho1, zlen_zdrop; lia).
  eapply wp_mono; [apply (IH ks more c2)| |done].
  - split_and!; [done|done|by rewrite Hw2|by rewrite Hsc2].
  - lia.
  - by rewrite Hws2.
  - done.
  - rewrite Hz. by apply takes_cons.
  - intros go c3 (-> & Hd3 & Ho3 & Hwi3 & Hsc3 & Hst3). split_and!; try done; try congruence.
Qed.

(** With a user whose callbacks do nothing more. *)
Lemma handleWrite_drains ks more c :
  (∀ e c, script c = [] → user e c = (Ok tt, c)) →
  ready quiet n c → script c = [] → writing c = true →
  writes c = (Takes <$> ks) ++ more → Forall (λ k, 0 < k) ks → zlen (output c) ≤ takes ks →
  wp (handleWrite msg user) c
     (λ _ c', wire (trace c') = wire (trace c) ++ output c ∧ output c' = [] ∧
        writing c' = false ∧ paused c' = false ∧
        (m_state c = Disconnecting → ShutdownWrite ∈ trace c')) nothrow.
Proof.
  intros Hq [[Hc Hw Hp] Hn] Hsc Hwr Hws Hks Ht. unfold handleWrite, state. apply wp_get.
  change (isWriting (m_channel c)) with (writing c). rewrite Hwr. cbn [negb].
  rewrite (readable_output _ c []) by done. apply wp_bind. pose proof (zlen_nonneg (output c)).
  eapply wp_mono; [eapply (handleWrite_loop_drains _ ks more c); try done; lia| |done].
  intros go c1 (-> & (Hc1 & Hp1 & _ & Hn1) & Ho1 & Hwi1 & Hsc1 & Hst1). cbn [negb]. apply wp_get.
  rewrite (readable_output _ _ _ Hc1), Ho1. change (0 <? zlen []) with false. cbv iota.
  eapply wp_seq; [by apply disableWriting_wp|].
  intros [] c2 (_ & Ht2 & Hb2 & _ & Ho2 & Hst2 & Hw2 & Hsc2).
  eapply wp_seq; [apply maybeResume_wp, Hb2|]. intros [] c3 (Hsm3 & Hc3 & Hp3).
  destruct Hsm3 as [_ Hst3 Ht3 _ Ho3 Hw3 _ Hsc3].
  assert (Hpa3 : paused c3 = false).
  { destruct (paused c3) eqn:E; [|done]. destruct (Hp3 E). congruence. }
  assert (Hcb : ∃ c4, callback user m_writeCompleteCallback OnWriteComplete c3 = (Ok tt, c4) ∧
    m_state c4 = m_state c3 ∧ output c4 = [] ∧ writing c4 = false ∧ paused c4 = false ∧
    wire (trace c4) = wire (trace c3) ∧ core quiet [] c4).
  { unfold callback. run. destruct (m_writeCompleteCallback _); [|exists c3; split_and!; (done || congruence)].
    unfold record. run. rewrite Hq by (conn; congruence). eexists. split; [done|].
    split_and!; try done; try (unfold output, writing in *; conn; congruence).
    - conn. rewrite wire_app. apply app_nil_r.
    - by apply core_record. }
  destruct Hcb as (c4 & Hrun4 & Hst4 & Ho4 & Hw4 & Hpa4 & Hwi4 & Hc4).
  apply (wp_run_seq _ _ _ _ _ _ _ Hrun4), wp_get.
  assert (Hwi : wire (trace c4) = wire (trace c) ++ output c) by congruence.
  assert (Hst : m_state c4 = m_state c) by congruence. rewrite Hst.
  case_bool_decide as Hdis; [|by split_and!]. unfold shutdownInLoop, state. apply wp_get.
  rewrite bool_decide_false by congruence. fold (writing c4).
  rewrite (readable_output _ _ _ Hc4), Hw4, Ho4. cbn [negb andb].
  change (zlen [] =? 0) with true. cbv iota. apply wp_modify. conn.
  split_and!; try done.
  - rewrite wire_app. change (wire [_]) with (@nil ascii). by rewrite app_nil_r.
  - intros _. set_solver.
Qed.

End draining.

(** Output is sent when the kernel takes it.  In any state a run reaches, when the channel
    wants output and the following writes can take the whole output buffer, one call of
    [handleWrite] puts exactly the buffered bytes on the wire, empties the buffer, stops
    asking for output, lets a paused reader go on, and shuts down the sending side if that
    was waiting. *)
Lemma output_drains {P} {POps : PollerOps P} {PLaws : Poller P}
    native msg this fd (p : P) c rs ws errs sc acts c' ks more :
  TcpConnection_make this true fd p = Ok c → launch_ok false p fd rs sc →
  Forall (action_ok false) acts →
  run_actions native msg acts (launch c rs ws errs sc) = (Ok tt, c') →
  script c' = [] → isWriting (m_channel c') = true →
  Forall (λ k, 0 < k) ks → zlen (content (m_outputBuffer c')) ≤ takes ks →
  ∃ c2, handleWrite msg (react native 1) (set_writes ((Takes <$> ks) ++ more) c') = (Ok tt, c2) ∧
    wire (trace c2) = wire (trace c') ++ content (m_outputBuffer c') ∧
    content (m_outputBuffer c2) = [] ∧ isWriting (m_channel c2) = false ∧
    m_readPausedByFlowControl (m_flow c2) = false ∧
    (m_state c' = Disconnecting → ShutdownWrite ∈ trace c2).
Proof.
  intros Hc Hl Ha Hrun Hsc Hwr Hks Ht.
  destruct (run_launch false native msg this fd p c rs ws errs sc acts Hc Hl Ha)
    as (c'' & Hrun' & Hb & _).
  rewrite Hrun in Hrun'. injection Hrun' as <-.
  set (c1 := set_writes _ c').
  destruct (wp_inv _ _ _ (handleWrite_drains false msg (react native 1) 1 ks more c1
    ltac:(intros e x Hx; cbn [react]; run; by rewrite Hx)
    ltac:(split; [destruct Hb as [[] ? ?]; by split; [split|..]|unfold c1; conn; by rewrite Hsc; simpl; lia])
    Hsc Hwr eq_refl Hks Ht)) as ([] & c2 & Hr2 & Hres).
  by exists c2.
Qed.

(** ** Corner cases, on the select poller *)

Definition all_callbacks : UserCallbacks := mkUser true true true true true true true.

Definition ex_conn (rs : list (io_outcome str)) (ws : list WriteAnswer) (sc : list (list Op))
    : res (Conn SelectPoller) :=
  let? c := TcpConnection_make 1 true 7 (mkSelect ∅) in
  Ok (launch c rs ws [] sc).

(** A run of an established connection with all callbacks set. *)
Definition ex_run (rs : list (io_outcome str)) (ws : list WriteAnswer) (sc : list (list Op))
    (acts : list Action) : res (Conn SelectPoller) :=
  let? c := ex_conn rs ws sc in
  match run_actions true (λ _, []) (Call (OpSetCallbacks all_callbacks) :: Establish :: acts) c with
  | (Ok _, c) => Ok c
  | _ => Undef
  end.

Definition observe {A} (f : Conn SelectPoller → A) (r : res (Conn SelectPoller)) : option A :=
  match r with Ok c => Some (f c) | _ => None end.

(** Cases the handlers get wrong, each in a concrete run.  (1) A high water mark callback
    that closes the connection leaves the closed connection registered for output.  (2)
    Turning flow control off while input is paused leaves input off for good, though
    nothing pauses it any more.  (3) A message that overflows after part of it was written
    directly is cut on the wire under the policy [Ignore], and the next one follows the
    fragment.  (4) A reader the user stopped is started again when flow control resumes it.
    (5) A failed read reports the number of the library's error code, not [errno].  (6) A
    [shutdown] in another thread that found the connection connected before it was closed
    makes it [Disconnecting] again, and it closes a second time.  (7) After a close caused
    by bad input the connection goes on reading and reports the error again. *)
Lemma connection_corner_cases :
  observe (λ c, (m_state c, isWriting (m_channel c), registered (poller c) !! 7))
    (ex_run [] [] [[]; [OpForceClose]]
      [Call (OpSetMaxOutputBufferBytes 4); Call (OpSend (lit "abcd"))])
  = Some (Disconnected, true, Some 1) ∧
  observe (λ c, (content (m_outputBuffer c), isReading (m_channel c), paused c, m_state c))
    (ex_run [] [Refuses EAGAIN; Takes 10] []
      [Call (OpEnableFlowControl 4 2); Call (OpSend (lit "abcdef")); Call OpDisableFlowControl;
       Ready kWriteEvent])
  = Some ([], false, false, Connected) ∧
  observe (λ c, (wire (trace c), m_state c))
    (ex_run [] [Takes 2; Takes 10] []
      [Call (OpSetOutputOverflowPolicy Ignore); Call (OpSetMaxOutputBufferBytes 3);
       Call (OpSend (lit "abcdefgh")); Call (OpSend (lit "xyz"))])
  = Some (lit "abxyz", Connected) ∧
  observe (λ c, isReading (m_channel c))
    (ex_run [] [Refuses EAGAIN; Takes 10] []
      [Call (OpEnableFlowControl 4 2); Call OpStopRead; Call (OpSend (lit "abcdef"));
       Ready kWriteEvent])
  = Some true ∧
  observe (λ c, bool_decide (Callback (OnError 7) ∈ trace c))
    (ex_run [IoFail 104] [] [] [Ready kReadEvent])
  = Some true ∧
  observe (λ c, (m_state c, closes (trace c)))
    (ex_run [] [] [] [Call OpForceClose; LateShutdown; Call OpForceClose])
  = Some (Disconnected, 2%nat) ∧
  observe (λ c, length (filter (λ i, i = Callback (OnError kCodecError)) (trace c)))
    (ex_run [IoDone (lit "zzzz"); IoDone (lit "zzzz")] [] []
      [Call (OpSetLengthFieldCodec (Some (mkCodec 1 PayloadOnly 16))); Ready kReadEvent])
  = Some 2%nat.
Proof. vm_compute. split_and!; reflexivity. Qed.

(** A frame callback that removes the codec ([setLengthFieldCodec(nullptr)]) while
    [handleCodecMessages] runs: the loop asks the removed codec for the next frame. *)
Theorem codec_removed_in_callback :
  let codec := mkCodec 1 PayloadOnly 16 in
  ex_run [IoDone [byte_of_Z 1; byte_of_Z 65]] [] [[]; [OpSetLengthFieldCodec None]]
    [Call (OpSetLengthFieldCodec (Some codec)); Ready kReadEvent] = Undef.
Proof. vm_compute. reflexivity. Qed.

(** A [shutdown] of another thread that is overtaken by a close leaves a connection that is
    [Disconnecting] with bytes that nobody will send: not writing and not registered. *)
Theorem late_shutdown_forgets :
  observe (λ c, (m_state c, content (m_outputBuffer c), isWriting (m_channel c), registered (poller c) !! 7))
    (ex_run [] [Refuses EAGAIN] [] [Call (OpSend (lit "abc")); Call OpForceClose; LateShutdown; RunTask])
  = Some (Disconnecting, lit "abc", false, None).
Proof. vm_compute. reflexivity. Qed.

(** ** Witnesses *)

Definition ex_new : Conn SelectPoller :=
  match TcpConnection_make 1 true 7 (mkSelect ∅) with
  | Ok c => c
  | _ => mkConn Connecting (mkChannel 1 7 0 0 false false) small_buffer small_buffer None 0 Ignore
           (mkFlow false 0 0 false) false (mkTicks 0 0 0) all_callbacks (mkSelect ∅)
           [] [] [] 0 [] [] []
  end.

(** The callback of the second message sends another one; the rest is sent later. *)
Definition ex_script : list (list Op) := [[]; [OpSend (lit "more")]].
Definition ex_writes : list WriteAnswer := [Takes 5; Takes 2].
Definition ex_actions : list Action :=
  [Call (OpSetCallbacks all_callbacks); Establish; Call (OpSend (lit "hello"));
   Remote (OpSend (lit "bye")); RunTask].

Lemma ex_new_made : TcpConnection_make 1 true 7 (mkSelect ∅) = Ok ex_new.
Proof. vm_compute. reflexivity. Defined.

Lemma ex_launch_ok quiet rs sc : reads_bytes rs ≤ 2 ^ 60 → Forall (Forall (script_op_ok quiet)) sc →
  launch_ok quiet (mkSelect ∅) 7 rs sc.
Proof. intros ? ?. split; [exact I|]. split; [reflexivity|]. by split. Defined.

Lemma ex_script_ok : Forall (Forall (script_op_ok false)) ex_script.
Proof. repeat constructor; vm_compute; discriminate. Defined.

Lemma ex_actions_ok : Forall (action_ok false) ex_actions.
Proof. repeat constructor; vm_compute; discriminate. Defined.

Definition ex_more : list Action := [Call OpForceClose; Call OpForceClose; Ready 15; Call OpConnectDestroyed].

Lemma ex_actions_timely more : Forall (action_ok false) more →
  Forall (possible false) (ex_actions ++ more) ∧ ∀ c : Conn SelectPoller, timely true (λ _, []) (ex_actions ++ more) c.
Proof. intros Hm. apply action_ok_timely, Forall_app. split; [exact ex_actions_ok|exact Hm]. Qed.

Lemma connection_bytes_in_order_witness : ∃ c',
  run_actions true (λ _, []) ex_actions (launch ex_new [] ex_writes [] ex_script) = (Ok tt, c') ∧
  wire (trace c') ++ content (m_outputBuffer c') = lit "hellomorebye" ∧
  wire (trace c') = lit "hellomo".
Proof.
  destruct (connection_bytes_in_order true (λ _, []) 1 7 (mkSelect ∅) ex_new [] ex_writes []
    ex_script ex_actions ex_new_made (ex_launch_ok false [] ex_script ltac:(vm_compute; discriminate) ex_script_ok)
    (proj1 (ex_actions_timely [] (Forall_nil_2 _))) (proj2 (ex_actions_timely [] (Forall_nil_2 _)) _)) as (c' & Hr & Hw).
  exists c'. split; [exact Hr|].
  vm_compute in Hr. injection Hr as <-. split; [rewrite Hw by reflexivity|]; reflexivity.
Defined.

Lemma connection_keeps_going_witness : ∃ c',
  run_actions true (λ _, []) ex_actions (launch ex_new [] ex_writes [] ex_script) = (Ok tt, c') ∧
  m_state c' = Connected ∧ isWriting (m_channel c') = true ∧ registered (poller c') !! 7 = Some 1.
Proof.
  destruct (connection_keeps_going true (λ _, []) 1 7 (mkSelect ∅) ex_new [] ex_writes []
    ex_script ex_actions ex_new_made (ex_launch_ok false [] ex_script ltac:(vm_compute; discriminate) ex_script_ok)
    (proj1 (ex_actions_timely [] (Forall_nil_2 _))) (proj2 (ex_actions_timely [] (Forall_nil_2 _)) _)) as (c' & Hr & Hw & _).
  exists c'. split; [exact Hr|].
  vm_compute in Hr. injection Hr as <-. split; [reflexivity|]. apply Hw; discriminate.
Defined.

Lemma connection_closes_once_witness : ∃ c1 c2,
  run_actions true (λ _, []) (ex_actions ++ [Call OpForceClose])
    (launch ex_new [] ex_writes [] ex_script) = (Ok tt, c1) ∧
  run_actions true (λ _, []) [Call OpForceClose; Ready 15; Call OpConnectDestroyed] c1 = (Ok tt, c2) ∧
  m_state c2 = Disconnected ∧ closes (trace c2) = 1%nat.
Proof.
  destruct (connection_closes_once true (λ _, []) 1 7 (mkSelect ∅) ex_new [] ex_writes []
    ex_script (ex_actions ++ [Call OpForceClose]) [Call OpForceClose; Ready 15; Call OpConnectDestroyed]
    ex_new_made (ex_launch_ok false [] ex_script ltac:(vm_compute; discriminate) ex_script_ok)
    (proj1 (ex_actions_timely ex_more ltac:(repeat constructor))) (proj2 (ex_actions_timely ex_more ltac:(repeat constructor)) _)) as (c1 & c2 & Hr1 & Hr2 & _ & Hcl).
  exists c1, c2. split; [exact Hr1|]. split; [exact Hr2|].
  vm_compute in Hr1. injection Hr1 as <-. destruct (Hcl eq_refl) as [? ->]. split; [done|reflexivity].
Defined.

(** Two frames, the second one partly on the wire; the receiver sends while it receives. *)
Definition ex_codec : LengthFieldCodec := mkCodec 2 PayloadOnly 64.
Definition ex_frame_actions : list Action :=
  set_up ex_codec all_callbacks ++ [Call (OpSendFrame (lit "hi")); Call (OpSendFrame (lit "you"));
    Ready kWriteEvent].
Definition ex_pieces : list (io_outcome str) :=
  [IoDone [NUL]; IoDone ([byte_of_Z 2] ++ lit "hi" ++ [NUL]); IoDone [byte_of_Z 3]].

Definition ex_sender : Conn SelectPoller :=
  snd (run_actions false (λ _, []) ex_frame_actions (launch ex_new [] [Takes 3; Takes 3] [] [])).
Definition ex_closing : Conn SelectPoller :=
  snd (run_actions true (λ _, []) (ex_actions ++ [Call OpShutdown])
         (launch ex_new [] ex_writes [] ex_script)).

Lemma frames_end_to_end_witness : ∃ c' d1 d2,
  run_actions false (λ _, []) ex_frame_actions (launch ex_new [] [Takes 3; Takes 3] [] [])
    = (Ok tt, c') ∧
  run_actions true (λ _, []) (set_up ex_codec all_callbacks)
    (launch ex_new ex_pieces [] [] [[]; [OpSendFrame (lit "ok"); OpShutdown]]) = (Ok tt, d1) ∧
  handleRead true (λ _, []) (react true (S (length (script d1)))) d1 = (Ok tt, d2) ∧
  delivered (trace d2) `prefix_of` [lit "hi"; lit "you"].
Proof.
  exists ex_sender.
  destruct (frames_end_to_end false true (λ _, []) ex_codec [lit "hi"; lit "you"]
    1 7 (mkSelect ∅) ex_new [] [Takes 3; Takes 3] [] [] ex_frame_actions ex_sender
    1 7 (mkSelect ∅) ex_new ex_pieces [] [] [[]; [OpSendFrame (lit "ok"); OpShutdown]] all_callbacks)
    as (d1 & d2 & H1 & H2 & H3 & _).
  - apply small_valid; auto; lia.
  - split_and!; vm_compute; (reflexivity || discriminate).
  - repeat constructor; vm_compute; (reflexivity || discriminate).
  - exact ex_new_made.
  - apply ex_launch_ok; [vm_compute; discriminate|constructor].
  - repeat constructor; vm_compute; (reflexivity || discriminate).
  - vm_compute. reflexivity.
  - vm_compute. reflexivity.
  - vm_compute. reflexivity.
  - exact ex_new_made.
  - apply ex_launch_ok; [vm_compute; discriminate|].
    repeat constructor; vm_compute; (reflexivity || discriminate).
  - reflexivity.
  - repeat constructor; discriminate.
  - vm_compute. reflexivity.
  - exists d1, d2. split; [vm_compute; reflexivity|]. done.
Defined.
