(* ===== verification/EventLoop.v ===== *)
(** * [dbase::net::EventLoop] (code/src/net/event_loop.cpp, event_loop.h)

    The timers of a loop: a priority queue of shared timer objects, the map of the timers
    that are not cancelled, and [processTimers], whose callbacks may add and cancel timers
    again.  The objects live in a store indexed by their id (which is never reused); the
    queue and the map hold pointers to them.  What the callbacks do is a script: the n-th
    callback makes the calls of the n-th entry.  Every read of the clock may advance it.
    Times are 64-bit nanoseconds, delays and intervals 64-bit milliseconds. *)

From S2P Require Import Prelude.
From stdpp Require Import base gmap list sorting.
From Stdlib Require Import ZArith Lia.

Local Open Scope Z_scope.

Record TimerTask : Type := mkTask {
  t_id : Z;
  t_expiration : Z;
  t_interval : Z;
  t_repeat : bool;
  t_cancelled : bool;
  t_callback : bool;  (* whether the callback is set *)
}.

Definition set_cancelled (t : TimerTask) : TimerTask :=
  mkTask (t_id t) (t_expiration t) (t_interval t) (t_repeat t) true (t_callback t).
Definition set_expiration (e : Z) (t : TimerTask) : TimerTask :=
  mkTask (t_id t) e (t_interval t) (t_repeat t) (t_cancelled t) (t_callback t).

(** What a callback calls. *)
Inductive LoopOp : Type :=
  | RunAfter (delay : Z) (cb : bool)
  | RunEvery (interval : Z) (cb : bool)
  | CancelTimer (id : Z).

Record Loop : Type := mkLoop {
  objects : gmap Z TimerTask;
  m_timers : list Z;          (* the priority queue *)
  m_timerMap : gset Z;        (* maps an id to its object *)
  m_nextTimerId : Z;
  wakeups : nat;              (* calls of [wakeup] *)
  clock : Z;
  ticks : list Z;             (* how much the next reads of the clock advance it *)
  script : list (list LoopOp);
  fired : list (Z * Z);       (* expiration and id of the callbacks run so far *)
}.

Definition set_objects (x : gmap Z TimerTask) (l : Loop) : Loop :=
  mkLoop x (m_timers l) (m_timerMap l) (m_nextTimerId l) (wakeups l) (clock l) (ticks l)
    (script l) (fired l).
Definition set_timers (x : list Z) (l : Loop) : Loop :=
  mkLoop (objects l) x (m_timerMap l) (m_nextTimerId l) (wakeups l) (clock l) (ticks l)
    (script l) (fired l).
Definition set_timerMap (x : gset Z) (l : Loop) : Loop :=
  mkLoop (objects l) (m_timers l) x (m_nextTimerId l) (wakeups l) (clock l) (ticks l)
    (script l) (fired l).
Definition set_nextTimerId (x : Z) (l : Loop) : Loop :=
  mkLoop (objects l) (m_timers l) (m_timerMap l) x (wakeups l) (clock l) (ticks l)
    (script l) (fired l).
Definition set_wakeups (x : nat) (l : Loop) : Loop :=
  mkLoop (objects l) (m_timers l) (m_timerMap l) (m_nextTimerId l) x (clock l) (ticks l)
    (script l) (fired l).
Definition set_clock (x : Z) (y : list Z) (l : Loop) : Loop :=
  mkLoop (objects l) (m_timers l) (m_timerMap l) (m_nextTimerId l) (wakeups l) x y
    (script l) (fired l).
Definition set_script (x : list (list LoopOp)) (l : Loop) : Loop :=
  mkLoop (objects l) (m_timers l) (m_timerMap l) (m_nextTimerId l) (wakeups l) (clock l) (ticks l)
    x (fired l).
Definition set_fired (x : list (Z * Z)) (l : Loop) : Loop :=
  mkLoop (objects l) (m_timers l) (m_timerMap l) (m_nextTimerId l) (wakeups l) (clock l) (ticks l)
    (script l) x.

(** [Clock::now()] *)
Definition Clock_now : M Loop Z :=
  let! l := get in
  let t := clock l + Z.max 0 (default 0 (head (ticks l))) in
  modify (set_clock t (tail (ticks l)));;;
  ret t.

(** [std::chrono::milliseconds] as clock units. *)
Definition ms (n : Z) : Z := n * 1000000.

(** A point in time and a duration: 64-bit signed arithmetic on nanoseconds. *)
Definition add_ms (now delay : Z) : M Loop Z :=
  lift (let? n := i64_mul delay 1000000 in i64_add now n).

Definition wakeup : M Loop () := modify (λ l, set_wakeups (S (wakeups l)) l).

(** A shared pointer is never dangling. *)
Definition deref (id : Z) : M Loop TimerTask :=
  let! l := get in
  match objects l !! id with Some t => ret t | None => undef end.

(** [TimerCompare]: the one that is later sinks. *)
Definition later (lhs rhs : TimerTask) : bool :=
  if negb (t_expiration lhs =? t_expiration rhs)
  then t_expiration rhs <? t_expiration lhs
  else t_id rhs <? t_id lhs.

(** [m_timers.top()]: a timer that is later than no other. *)
Fixpoint top_of (objs : gmap Z TimerTask) (q : list Z) : option Z :=
  match q with
  | [] => None
  | x :: q =>
      match top_of objs q with
      | None => Some x
      | Some y =>
          match objs !! x, objs !! y with
          | Some tx, Some ty => if later tx ty then Some y else Some x
          | _, _ => Some x
          end
      end
  end.

(** [m_timers.pop()] removes the top. *)
Fixpoint remove_first (x : Z) (q : list Z) : list Z :=
  match q with
  | [] => []
  | y :: q => if bool_decide (x = y) then q else y :: remove_first x q
  end.

Definition addTimerInLoop (timerTask : Z) : M Loop () :=
  let! t := deref timerTask in
  let! l := get in
  let! wake :=
    match top_of (objects l) (m_timers l) with
    | None => ret true
    | Some top => let! u := deref top in ret (t_expiration t <? t_expiration u)
    end in
  modify (λ l, set_timerMap ({[t_id t]} ∪ m_timerMap l) l);;;
  modify (λ l, set_timers (timerTask :: m_timers l) l);;;
  if wake : bool then wakeup else ret tt.

Definition cancelTimerInLoop (timerId : Z) : M Loop () :=
  let! l := get in
  if bool_decide (timerId ∈ m_timerMap l) then
    let! t := deref timerId in
    modify (λ l, set_objects (<[timerId := set_cancelled t]> (objects l)) l);;;
    modify (λ l, set_timerMap (m_timerMap l ∖ {[timerId]}) l)
  else ret tt.

(** The public members, called in the thread of the loop. *)
Definition runAt (expiration interval : Z) (repeat cb : bool) : M Loop Z :=
  if negb cb then throw invalid_argument
  else
    let! l := get in
    let id := m_nextTimerId l in
    modify (set_nextTimerId (u64 (id + 1)));;;
    modify (λ l, set_objects (<[id := mkTask id expiration interval repeat false cb]> (objects l)) l);;;
    addTimerInLoop id;;;
    ret id.

Definition runAfter (delay : Z) (cb : bool) : M Loop Z :=
  let delay := if delay <? 0 then 0 else delay in
  let! now := Clock_now in
  let! expiration := add_ms now delay in
  runAt expiration 0 false cb.

Definition runEvery (interval : Z) (cb : bool) : M Loop Z :=
  if interval <=? 0 then throw invalid_argument
  else
    let! now := Clock_now in
    let! expiration := add_ms now interval in
    runAt expiration interval true cb.

Definition cancelTimer (timerId : Z) : M Loop () :=
  if timerId =? 0 then ret tt else cancelTimerInLoop timerId.

Definition run_loop_op (o : LoopOp) : M Loop () :=
  match o with
  | RunAfter delay cb => let! _ := runAfter delay cb in ret tt
  | RunEvery interval cb => let! _ := runEvery interval cb in ret tt
  | CancelTimer id => cancelTimer id
  end.

(** A callback catches what its calls throw. *)
Definition catching_op (o : LoopOp) : M Loop () :=
  λ l, match run_loop_op o l with
       | (Throw _, l') => (Ok tt, l')
       | out => out
       end.

Fixpoint run_loop_ops (os : list LoopOp) : M Loop () :=
  match os with
  | [] => ret tt
  | o :: os => catching_op o;;; run_loop_ops os
  end.

(** [timerTask->callback()] *)
Definition call_timer (t : TimerTask) : M Loop () :=
  modify (λ l, set_fired (fired l ++ [(t_expiration t, t_id t)]) l);;;
  let! l := get in
  match script l with
  | [] => ret tt
  | os :: rest => modify (set_script rest);;; run_loop_ops os
  end.

(** The end of a turn: a repeating timer goes back into the queue, another one is forgotten. *)
Definition rearm (x : Z) : M Loop () :=
  let! t := deref x in
  if t_repeat t && negb (t_cancelled t) then
    let! now' := Clock_now in
    let! expiration := add_ms now' (t_interval t) in
    modify (λ l, set_objects (<[x := set_expiration expiration t]> (objects l)) l);;;
    modify (λ l, set_timers (x :: m_timers l) l)
  else modify (λ l, set_timerMap (m_timerMap l ∖ {[t_id t]}) l).

(** The [while] of [processTimers]. *)
Fixpoint processTimers_loop (now : Z) (fuel : nat) : M Loop () :=
  match fuel with
  | O => lift NoFuel
  | S fuel =>
      let! l := get in
      match top_of (objects l) (m_timers l) with
      | None => ret tt
      | Some timerTask =>
          let pop := modify (λ l, set_timers (remove_first timerTask (m_timers l)) l) in
          let! t := deref timerTask in
          if t_cancelled t then pop;;; processTimers_loop now fuel
          else if now <? t_expiration t then ret tt
          else
            pop;;;
            let! l := get in
            if negb (bool_decide (t_id t ∈ m_timerMap l)) then processTimers_loop now fuel
            else
              (if negb (t_cancelled t) && t_callback t then call_timer t else ret tt);;;
              rearm timerTask;;;
              processTimers_loop now fuel
      end
  end.

(** A timer is run at most once and then popped at most once more, cancelled. *)
Definition script_size (sc : list (list LoopOp)) : nat := sum_list_with length sc.

Definition processTimers : M Loop () :=
  let! now := Clock_now in
  let! l := get in
  processTimers_loop now (S (2 * (length (m_timers l) + script_size (script l)))).

Definition getPollTimeoutMs : M Loop Z :=
  let! l := get in
  match top_of (objects l) (m_timers l) with
  | None => ret 10000
  | Some timerTask =>
      let! now := Clock_now in
      let! t := deref timerTask in
      if t_cancelled t then ret 0
      else if t_expiration t <=? now then ret 0
      else
        let! span := lift (i64_sub (t_expiration t) now) in
        let diff := Z.quot span 1000000 in
        if diff <=? 0 then ret 0
        else if 2147483647 <? diff then ret 2147483647
        else ret diff
  end.

(** A new loop at a time, with the clock readings and the callbacks to come. *)
Definition EventLoop_new (now : Z) (ts : list Z) (sc : list (list LoopOp)) : Loop :=
  mkLoop ∅ [] ∅ 1 0 now ts sc [].

(** What the thread of the loop does with the timers: calls of the public members from
    event handlers and functors, and the two members [loop] calls. *)
Inductive LoopCall : Type :=
  | Api (o : LoopOp)
  | ProcessTimers
  | PollTimeout.

Definition run_call (c : LoopCall) : M Loop () :=
  match c with
  | Api o => catching_op o
  | ProcessTimers => processTimers
  | PollTimeout => let! _ := getPollTimeoutMs in ret tt
  end.

Fixpoint run_calls (cs : list LoopCall) : M Loop () :=
  match cs with
  | [] => ret tt
  | c :: cs => run_call c;;; run_calls cs
  end.

(** ** The queue *)

(** Timers fire by expiration, then by id. *)
Definition key_le (k k' : Z * Z) : Prop :=
  fst k < fst k' ∨ fst k = fst k' ∧ snd k ≤ snd k'.
Definition key (t : TimerTask) : Z * Z := (t_expiration t, t_id t).

#[global] Instance key_le_trans : Transitive key_le.
Proof. intros [a b] [c d] [e f]. unfold key_le. cbn. lia. Qed.

Lemma later_spec t u : if later t u then key_le (key u) (key t) else key_le (key t) (key u).
Proof.
  unfold later, key_le, key. cbn.
  destruct (Z.eqb_spec (t_expiration t) (t_expiration u)); cbn [negb].
  - destruct (Z.ltb_spec (t_id u) (t_id t)); lia.
  - destruct (Z.ltb_spec (t_expiration u) (t_expiration t)); lia.
Qed.

(** All pointers of the queue are valid. *)
Definition points (objs : gmap Z TimerTask) (q : list Z) : Prop :=
  ∀ id, id ∈ q → is_Some (objs !! id).

Lemma top_of_spec objs q : points objs q →
  match top_of objs q with
  | None => q = []
  | Some x => x ∈ q ∧ ∃ t, objs !! x = Some t ∧
      ∀ y u, y ∈ q → objs !! y = Some u → key_le (key t) (key u)
  end.
Proof.
  induction q as [|x q IH]; intros Hp; [done|]. cbn [top_of].
  destruct (Hp x) as [tx Hx]; [left|]. specialize (IH ltac:(intros id ?; apply Hp; by right)).
  assert (Hrefl : ∀ t, key_le (key t) (key t)) by (intros t; right; split; [done|lia]).
  destruct (top_of objs q) as [y|].
  - destruct IH as (Hy & ty & Hty & Hmin). rewrite Hx, Hty. pose proof (later_spec tx ty) as Hl.
    destruct (later tx ty).
    + split; [by right|]. exists ty. split; [done|]. intros z u [->|Hz]%elem_of_cons Hu; [|eauto].
      rewrite Hx in Hu. by injection Hu as <-.
    + split; [left|]. exists tx. split; [done|]. intros z u [->|Hz]%elem_of_cons Hu.
      * rewrite Hx in Hu. by injection Hu as <-.
      * etrans; [done|]. eauto.
  - subst q. split; [left|]. exists tx. split; [done|].
    intros z u [->|Hz]%elem_of_cons Hu; [|by apply elem_of_nil in Hz].
    rewrite Hx in Hu. by injection Hu as <-.
Qed.

Lemma remove_first_elem x y q : NoDup q → y ∈ remove_first x q ↔ y ∈ q ∧ y ≠ x.
Proof.
  induction q as [|z q IH]; intros Hn; cbn [remove_first]; [set_solver|].
  apply NoDup_cons in Hn as [Hz Hn]. case_bool_decide as E; [set_solver|].
  rewrite !elem_of_cons, IH by done. set_solver.
Qed.

Lemma remove_first_NoDup x q : NoDup q → NoDup (remove_first x q).
Proof.
  induction q as [|z q IH]; intros Hn; cbn [remove_first]; [done|].
  pose proof Hn as Hn'. apply NoDup_cons in Hn as [Hz Hn]. case_bool_decide as E; [done|].
  apply NoDup_cons. split; [|auto]. by rewrite remove_first_elem by done; intros [? _].
Qed.

(** ** The invariant *)

Definition live (objs : gmap Z TimerTask) (id : Z) : Prop :=
  ∃ t, objs !! id = Some t ∧ t_cancelled t = false.

(** Sums of times and delays do not overflow before [2 * horizon]: some 146 years each. *)
Definition horizon : Z := 2 ^ 62 - 1.

Definition op_ok (o : LoopOp) : Prop :=
  match o with
  | RunAfter d _ | RunEvery d _ => ms d ≤ horizon
  | CancelTimer _ => True
  end.

Definition tick_sum (ts : list Z) : Z := foldr (λ t s, Z.max 0 t + s) 0 ts.

Definition cancelled (objs : gmap Z TimerTask) (id : Z) : Prop :=
  ∃ t, objs !! id = Some t ∧ t_cancelled t = true.

Record task_ok (next id : Z) (t : TimerTask) : Prop := {
  task_id : t_id t = id;
  task_range : 0 < id < next;
  task_callback : t_callback t = true;
  task_interval : t_repeat t = true → 0 < t_interval t;
  task_span : 0 ≤ ms (t_interval t) ≤ horizon;
  task_expiration : in_i64 (t_expiration t);
}.

(** [cur] is the timer whose callback is running: it is in the map but not in the queue. *)
Record loop_inv (cur : option Z) (l : Loop) : Prop := {
  loop_nodup : NoDup (m_timers l);
  loop_points : points (objects l) (m_timers l);
  loop_tasks : map_Forall (task_ok (m_nextTimerId l)) (objects l);
  loop_cur : ∀ id, cur = Some id → (id ∉ m_timers l) ∧ is_Some (objects l !! id);
  loop_map : ∀ id, id ∈ m_timerMap l ↔ (id ∈ m_timers l ∨ cur = Some id) ∧ live (objects l) id;
  loop_next : 0 < m_nextTimerId l;
  loop_time : 0 ≤ clock l ∧ clock l + tick_sum (ticks l) ≤ horizon;
  loop_script : Forall (Forall op_ok) (script l);
}.

(** An object only changes by being cancelled, unless it fires. *)
Definition aged (t t' : TimerTask) : Prop := t' = t ∨ t' = set_cancelled t.

(** What [k] calls of a callback change. *)
Record ext (k : nat) (l l' : Loop) : Prop := {
  ext_fired : fired l' = fired l;
  ext_script : script l' = script l;
  ext_clock : clock l ≤ clock l';
  ext_next : m_nextTimerId l ≤ m_nextTimerId l' ≤ m_nextTimerId l + Z.of_nat k;
  ext_queue : ∃ new, m_timers l' = new ++ m_timers l ∧ (length new ≤ k)%nat ∧
    ∀ id, id ∈ new → m_nextTimerId l ≤ id ∧
      ∃ t, objects l' !! id = Some t ∧ clock l ≤ t_expiration t;
  ext_objects : ∀ id t, objects l !! id = Some t → ∃ t', objects l' !! id = Some t' ∧ aged t t';
}.

Lemma aged_trans t1 t2 t3 : aged t1 t2 → aged t2 t3 → aged t1 t3.
Proof. intros [->| ->] [->| ->]; unfold aged; auto. Qed.

Lemma ext_refl k l : ext k l l.
Proof.
  split; try done; [lia| |].
  - exists []. split_and!; [done|simpl; lia|]. intros id ?%elem_of_nil. done.
  - intros id t Ht. exists t. by split; [|left].
Qed.

Lemma ext_trans k k' l1 l2 l3 : ext k l1 l2 → ext k' l2 l3 → ext (k + k') l1 l3.
Proof.
  intros [Hf Hs Hc Hn (new & Hq & Hl & Hnew) Ho] [Hf' Hs' Hc' Hn' (new' & Hq' & Hl' & Hnew') Ho'].
  split; try congruence; try lia.
  - exists (new' ++ new). split_and!.
    + by rewrite Hq', Hq, app_assoc.
    + rewrite length_app. lia.
    + intros id [Hin|Hin]%elem_of_app.
      * destruct (Hnew' id Hin) as (? & t & ? & ?). split; [lia|]. exists t. split; [done|lia].
      * destruct (Hnew id Hin) as (? & t & Ht & ?). split; [done|].
        destruct (Ho' id t Ht) as (t' & ? & Hag). exists t'. split; [done|].
        by destruct Hag as [->| ->].
  - intros id t Ht. destruct (Ho id t Ht) as (t' & Ht' & Ha).
    destruct (Ho' id t' Ht') as (t'' & ? & Ha'). exists t''. split; [done|by eapply aged_trans].
Qed.

Lemma task_ok_mono n n' id t : n ≤ n' → task_ok n id t → task_ok n' id t.
Proof. intros ? []. split; try done. lia. Qed.

(** ** The calls of a callback *)

Lemma loop_points_top cur l x : loop_inv cur l → top_of (objects l) (m_timers l) = Some x →
  x ∈ m_timers l ∧ ∃ t, objects l !! x = Some t ∧ t_id t = x ∧
    ∀ y u, y ∈ m_timers l → objects l !! y = Some u → key_le (key t) (key u).
Proof.
  intros Hi Ht. pose proof (top_of_spec _ _ (loop_points _ _ Hi)) as H. rewrite Ht in H.
  destruct H as (Hx & t & Hl & Hmin). split; [done|]. exists t. split_and!; [done| |done].
  apply (loop_tasks _ _ Hi _ _ Hl).
Qed.

(** Adding a timer whose expiration is not in the past. *)
Lemma runAt_run cur l e iv rep : loop_inv cur l → m_nextTimerId l + 1 < 2 ^ 64 →
  clock l ≤ e ≤ INT64_MAX → (rep = true → 0 < iv) → 0 ≤ ms iv ≤ horizon →
  wp (runAt e iv rep true) l (λ _ l', loop_inv cur l' ∧ ext 1 l l') nothrow.
Proof.
  intros Hi Hn He Hiv Hsp. unfold runAt. cbn [negb]. apply wp_get.
  apply wp_modify_seq, wp_modify_seq. rewrite u64_small by (pose proof (loop_next _ _ Hi); unfold in_u64; lia).
  set (id := m_nextTimerId l). set (t := mkTask id e iv rep false true).
  set (l1 := set_objects _ _).
  assert (Hobj : objects l1 = <[id := t]> (objects l)) by done.
  assert (Hnew : objects l !! id = None).
  { destruct (objects l !! id) as [u|] eqn:E; [|done].
    pose proof (task_range _ _ _ (loop_tasks _ _ Hi _ _ E)). unfold id in *. lia. }
  assert (Hnq : id ∉ m_timers l).
  { intros Hin. apply (loop_points _ _ Hi) in Hin as [u Hu]. congruence. }
  unfold addTimerInLoop. apply wp_bind, wp_bind. unfold deref at 1. apply wp_get.
  rewrite Hobj, lookup_insert_eq. apply wp_ret, wp_get.
  apply (wp_seq _ _ _ (λ _ l2, l2 = l1)).
  { destruct (top_of (objects l1) (m_timers l1)) as [x|] eqn:Et; [|done].
    assert (Hx : is_Some (objects l1 !! x)).
    { pose proof (top_of_spec (objects l1) (m_timers l1)) as Hs. rewrite Et in Hs.
      destruct Hs as (_ & u & ? & _); [|by eexists].
      intros y Hy. rewrite Hobj. apply (loop_points _ _ Hi) in Hy as [u Hu].
      rewrite lookup_insert_ne; [by eexists|]. congruence. }
    destruct Hx as [u Hu]. apply wp_bind. unfold deref. apply wp_get. rewrite Hu. done. }
  intros wake l2 ->. apply wp_modify_seq, wp_modify_seq.
  set (l3 := set_timers _ _).
  assert (Hfin : loop_inv cur l3 ∧ ext 1 l l3).
  { split; [split|split]; try done.
    - by apply NoDup_cons; split; [|apply Hi].
    - intros y [->|Hy]%elem_of_cons; unfold l3; cbn; rewrite ?lookup_insert_eq; [by eexists|].
      apply (loop_points _ _ Hi) in Hy as [u Hu]. rewrite lookup_insert_ne; [by eexists|]. congruence.
    - unfold l3. cbn. apply map_Forall_insert; [done|]. split.
      + pose proof (loop_next _ _ Hi). pose proof (proj1 (loop_time _ _ Hi)).
        split; try done; unfold id, in_i64, INT64_MIN; cbn; lia.
      + intros y u Hu. eapply task_ok_mono; [|by apply (loop_tasks _ _ Hi)]. unfold id. cbn. lia.
    - intros y Hy. destruct (loop_cur _ _ Hi y Hy) as [Hq [u Hu]].
      assert (y ≠ id) by congruence. unfold l3. cbn. split; [set_solver|].
      rewrite lookup_insert_ne by done. by eexists.
    - intros y. unfold l3, live. cbn. rewrite elem_of_union, elem_of_singleton, (loop_map _ _ Hi).
      unfold live. destruct (decide (y = id)) as [->|Hne].
      + rewrite lookup_insert_eq, elem_of_cons. naive_solver.
      + rewrite lookup_insert_ne, elem_of_cons by done. naive_solver.
    - unfold l3, id. cbn. pose proof (loop_next _ _ Hi). lia.
    - apply Hi.
    - apply Hi.
    - unfold l3, id. cbn. lia.
    - exists [id]. split_and!; [done|done|]. intros y ->%list_elem_of_singleton.
      split; [done|]. exists t. unfold l3. cbn. rewrite lookup_insert_eq. split; [done|apply He].
    - intros y u Hu. exists u. unfold l3. cbn. split; [|by left].
      rewrite lookup_insert_ne; [done|]. congruence. }
  destruct wake; [|done]. destruct Hfin as [[] []]. split; by split.
Qed.

Lemma add_ms_run l now d : 0 ≤ now ≤ horizon → 0 ≤ ms d ≤ horizon →
  add_ms now d l = (Ok (now + ms d), l).
Proof.
  unfold horizon, ms. intros Hn Hd. unfold add_ms, lift, i64_mul, i64_add.
  rewrite (i64_Ok (d * 1000000)) by (unfold in_i64, INT64_MIN, INT64_MAX; lia).
  cbn [res_bind]. by rewrite i64_Ok by (unfold in_i64, INT64_MIN, INT64_MAX; lia).
Qed.

Lemma Clock_now_wp cur l : loop_inv cur l →
  wp Clock_now l (λ t l', loop_inv cur l' ∧ ext 0 l l' ∧ t = clock l' ∧ clock l ≤ t ∧
    ∃ ts, l' = set_clock t ts l) nothrow.
Proof.
  intros Hi. unfold Clock_now. apply wp_get, wp_modify_seq, wp_ret.
  set (d := Z.max 0 _). assert (Ht : 0 ≤ d ∧ d + tick_sum (tail (ticks l)) = tick_sum (ticks l)).
  { unfold d. destruct (ticks l); cbn; lia. }
  clearbody d. split_and!; try done; [| |cbn; lia|by eexists].
  - destruct Hi as [? ? ? ? ? ? Htm ?]. split; try done. cbn [clock ticks set_clock]. lia.
  - pose proof (ext_refl 0 l) as []. split; try done. cbn. lia.
Qed.

Lemma cancel_run cur l id : loop_inv cur l →
  wp (cancelTimer id) l (λ _ l', loop_inv cur l' ∧ ext 1 l l') nothrow.
Proof.
  intros Hi. unfold cancelTimer. destruct (id =? 0); [split; [done|apply ext_refl]|].
  unfold cancelTimerInLoop. apply wp_get.
  case_bool_decide as Hin; [|split; [done|apply ext_refl]].
  pose proof Hin as [Hor (t & Ht & Hc)]%(loop_map _ _ Hi).
  apply wp_bind. unfold deref. apply wp_get. rewrite Ht. apply wp_ret, wp_modify_seq, wp_modify.
  cbn [objects m_timerMap set_objects].
  destruct Hi as [Hnd Hpt Htk Hcu Hmap Hnx Htm Hsc]. split; [split|split]; cbn; try done.
  - intros y Hy. destruct (decide (y = id)) as [->|?].
    + rewrite lookup_insert_eq. by eexists.
    + rewrite lookup_insert_ne by done. by apply Hpt.
  - apply map_Forall_insert_2; [|done]. destruct (Htk _ _ Ht). by split.
  - intros y Hy. split; [by apply Hcu|]. destruct (decide (y = id)) as [->|?].
    + rewrite lookup_insert_eq. by eexists.
    + rewrite lookup_insert_ne by done. by apply Hcu.
  - intros y. rewrite elem_of_difference, elem_of_singleton, Hmap. unfold live.
    destruct (decide (y = id)) as [->|Hne].
    + rewrite lookup_insert_eq. split; [by intros [_ []]|]. intros [_ (u & [= <-] & Hu)]. done.
    + rewrite lookup_insert_ne by done. naive_solver.
  - lia.
  - exists []. split_and!; [done|simpl; lia|]. by intros y ?%elem_of_nil.
  - intros y u Hu. destruct (decide (y = id)) as [->|Hne].
    + exists (set_cancelled t). rewrite lookup_insert_eq. split; [done|right; congruence].
    + exists u. rewrite lookup_insert_ne by done. by split; [|left].
Qed.

Lemma tick_sum_nonneg ts : 0 ≤ tick_sum ts.
Proof. unfold tick_sum. induction ts as [|t ts IH]; cbn [foldr]; [done|]. lia. Qed.

Lemma loop_clock cur l : loop_inv cur l → 0 ≤ clock l ≤ horizon.
Proof. intros Hi. pose proof (tick_sum_nonneg (ticks l)). pose proof (loop_time _ _ Hi). lia. Qed.

Lemma loop_op_run cur l o : loop_inv cur l → op_ok o → m_nextTimerId l + 1 < 2 ^ 64 →
  wp (catching_op o) l (λ _ l', loop_inv cur l' ∧ ext 1 l l') nothrow.
Proof.
  intros Hi Hok Hn.
  assert (Hadd : ∀ d iv rep (cb : bool), 0 ≤ ms d ≤ horizon → (rep = true → 0 < iv) →
    0 ≤ ms iv ≤ horizon →
    wp (let! now := Clock_now in let! e := add_ms now d in runAt e iv rep cb) l
       (λ _ l', loop_inv cur l' ∧ ext 1 l l') (λ _ l', loop_inv cur l' ∧ ext 1 l l')).
  { intros d iv rep cb Hd Hiv Hsp. apply wp_bind. eapply wp_mono; [by apply Clock_now_wp| |done].
    intros t l1 (Hi1 & Hex & -> & Hc & ts & Heq). pose proof (loop_clock _ _ Hi1) as Hcl.
    eapply wp_run_seq; [by apply add_ms_run|]. destruct cb; [|split; [done|]].
    - eapply wp_mono; [apply (runAt_run cur l1); try done| |done].
      + by rewrite Heq.
      + unfold horizon, INT64_MAX in *. lia.
      + intros id l2 [Hi2 Hex2]. split; [done|]. by apply (ext_trans 0 1 l l1 l2).
    - apply (ext_trans 0 1 l l1 l1); [done|apply ext_refl]. }
  assert (Hcatch : ∀ m : M Loop (), run_loop_op o = m →
    wp m l (λ _ l', loop_inv cur l' ∧ ext 1 l l') (λ _ l', loop_inv cur l' ∧ ext 1 l l') →
    wp (catching_op o) l (λ _ l', loop_inv cur l' ∧ ext 1 l l') nothrow).
  { intros m Hm. unfold wp, catching_op. rewrite Hm. by destruct (m l) as [[]]. }
  destruct o as [d cb|iv cb|id]; (eapply Hcatch; [reflexivity|]); cbn [run_loop_op op_ok] in *.
  - apply wp_bind. eapply wp_mono; [apply (Hadd (if d <? 0 then 0 else d)); [|done|done]| |done].
    + destruct (Z.ltb_spec d 0); [done|]. unfold ms in *. lia.
    + done.
  - apply wp_bind. unfold runEvery. destruct (Z.leb_spec iv 0); [split; [done|apply ext_refl]|].
    eapply wp_mono; [apply (Hadd iv); unfold ms in *; lia| |done]. done.
  - eapply wp_mono; [by apply cancel_run|done|done].
Qed.

Lemma loop_ops_run cur os : ∀ l, loop_inv cur l → Forall op_ok os →
  m_nextTimerId l + Z.of_nat (length os) < 2 ^ 64 →
  wp (run_loop_ops os) l (λ _ l', loop_inv cur l' ∧ ext (length os) l l') nothrow.
Proof.
  induction os as [|o os IH]; intros l Hi Hok Hn; [split; [done|apply ext_refl]|].
  apply Forall_cons in Hok as [Ho Hok].
  cbn [run_loop_ops length] in *. apply wp_bind.
  eapply wp_mono; [apply (loop_op_run cur); [done|done|lia]| |done]. intros [] l1 [Hi1 Hex].
  eapply wp_mono; [apply IH; [done|done|]| |done].
  - destruct (ext_next _ _ _ Hex). lia.
  - intros [] l2 [Hi2 Hex2]. split; [done|]. by apply (ext_trans 1 (length os) l l1 l2).
Qed.

(** ** One turn of [processTimers] *)

(** A bound of the ids that can still be given out. *)
Definition ids_used (l : Loop) : Z := m_nextTimerId l + Z.of_nat (script_size (script l)).

Lemma call_timer_run cur l t : loop_inv cur l →
  ids_used l < 2 ^ 64 →
  wp (call_timer t) l (λ _ l', loop_inv cur l' ∧
    ext (length (default [] (head (script l))))
      (set_script (tail (script l)) (set_fired (fired l ++ [key t]) l)) l') nothrow.
Proof.
  intros Hi Hn. unfold call_timer. apply wp_modify_seq, wp_get. cbn [script set_fired].
  pose proof (loop_script _ _ Hi) as Hsc.
  assert (Hi' : ∀ sc, Forall (Forall op_ok) sc →
    loop_inv cur (set_script sc (set_fired (fired l ++ [key t]) l))) by (destruct Hi; by split).
  destruct (script l) as [|os rest] eqn:E; cbn [head tail default].
  - split; [|pose proof (ext_refl 0 (set_script [] (set_fired (fired l ++ [key t]) l))) as []].
    + destruct (Hi' [] (Forall_nil_2 _)). rewrite <- E in *. by split.
    + split; cbn in *; rewrite ?E; try done.
  - apply Forall_cons in Hsc as [Hos Hrest]. apply wp_modify_seq.
    apply loop_ops_run; [by apply Hi'|done|]. unfold ids_used in Hn. rewrite E in Hn. cbn in *. lia.
Qed.

(** What firing [x] does to the loop, [k] being the calls of its callback. *)
Record turn (x : Z) (t : TimerTask) (l l' : Loop) : Prop := {
  turn_inv : loop_inv None l';
  turn_fired : fired l' = fired l ++ [key t];
  turn_clock : clock l ≤ clock l';
  turn_rest : ∃ k new back, (script_size (script l') + k = script_size (script l))%nat ∧
    m_nextTimerId l ≤ m_nextTimerId l' ≤ m_nextTimerId l + Z.of_nat k ∧
    m_timers l' = back ++ new ++ remove_first x (m_timers l) ∧ (length new ≤ k)%nat ∧
    (∀ id, id ∈ new → m_nextTimerId l ≤ id ∧
      ∃ u, objects l' !! id = Some u ∧ clock l ≤ t_expiration u) ∧
    (back = [] ∨ back = [x] ∧ ∃ u, objects l' !! x = Some u ∧ clock l < t_expiration u);
  turn_objects : ∀ id u, id ≠ x → objects l !! id = Some u →
    ∃ u', objects l' !! id = Some u' ∧ aged u u';
}.

(** Popping a timer to run it. *)
Lemma pop_inv l x cur : loop_inv None l → x ∈ m_timers l →
  (cur = Some x ∨ cur = None ∧ ¬ live (objects l) x) →
  loop_inv cur (set_timers (remove_first x (m_timers l)) l).
Proof.
  intros [Hnd Hpt Htk Hcu Hmap Hnx Htm Hsc] Hx Hcur. split; try done; cbn.
  - by apply remove_first_NoDup.
  - intros y [Hy _]%remove_first_elem; [|done]. by apply Hpt.
  - intros y ->. destruct Hcur as [[= ->]|[? _]]; [|done].
    rewrite remove_first_elem by done. split; [naive_solver|by apply Hpt].
  - intros y. rewrite Hmap, remove_first_elem by done.
    destruct (decide (y = x)) as [->|Hne]; naive_solver.
Qed.

Lemma rearm_run x l : loop_inv (Some x) l →
  wp (rearm x) l (λ _ l', loop_inv None l' ∧ fired l' = fired l ∧ script l' = script l ∧
    m_nextTimerId l' = m_nextTimerId l ∧ clock l ≤ clock l' ∧
    (∀ id, id ≠ x → objects l' !! id = objects l !! id) ∧
    (m_timers l' = m_timers l ∨ m_timers l' = x :: m_timers l ∧
       ∃ u, objects l' !! x = Some u ∧ clock l < t_expiration u)) nothrow.
Proof.
  intros Hi. destruct (loop_cur _ _ Hi x eq_refl) as [Hq [t Ht]].
  pose proof (loop_tasks _ _ Hi _ _ Ht) as [Hid Hr Hcb Hiv Hsp Hex].
  unfold rearm. apply wp_bind. unfold deref. apply wp_get. rewrite Ht. apply wp_ret.
  destruct (t_repeat t && negb (t_cancelled t)) eqn:E.
  - apply andb_prop in E as [Hrep Hc%negb_true_iff]. specialize (Hiv Hrep).
    apply wp_bind. eapply wp_mono; [by apply (Clock_now_wp (Some x))| |done].
    intros now l1 (Hi1 & _ & -> & Hcl & ts & Heq). pose proof (loop_clock _ _ Hi1) as Hc1.
    eapply wp_run_seq; [by apply add_ms_run|].
    apply wp_modify_seq, wp_modify. cbn [set_timers set_objects objects m_timers m_timerMap fired
      script m_nextTimerId clock ticks wakeups].
    assert (Ho : objects l1 = objects l ∧ m_timers l1 = m_timers l ∧ fired l1 = fired l ∧
      script l1 = script l ∧ m_nextTimerId l1 = m_nextTimerId l) by (by rewrite Heq).
    destruct Ho as (Eo & Eq & Ef & Es & En). rewrite Eo, Eq. split_and!; try done.
    + rewrite <- Eo, <- Eq. destruct Hi1 as [Hnd Hpt Htk Hcu Hmap Hnx Htm Hsc].
      split; cbn; try done.
      * apply NoDup_cons. split; [by apply Hcu|done].
      * intros y Hy. destruct (decide (y = x)) as [->|?]; [rewrite lookup_insert_eq; by eexists|].
        rewrite lookup_insert_ne by done. apply Hpt. set_solver.
      * apply map_Forall_insert_2; [|done]. rewrite En.
        split; try done. cbn. unfold in_i64, INT64_MIN, INT64_MAX, horizon in *. lia.
      * intros y. rewrite Hmap, elem_of_cons. unfold live.
        destruct (decide (y = x)) as [->|?].
        -- rewrite lookup_insert_eq, Eo, Ht. cbn. naive_solver.
        -- rewrite lookup_insert_ne by done. naive_solver.
    + intros y Hy. by rewrite lookup_insert_ne.
    + right. split; [done|]. rewrite lookup_insert_eq. eexists. split; [done|].
      cbn. unfold ms. lia.
  - apply wp_modify. cbn [set_timerMap objects m_timers fired script m_nextTimerId clock].
    split_and!; try done; [|by left]. destruct Hi as [Hnd Hpt Htk Hcu Hmap Hnx Htm Hsc].
    split; cbn; try done. intros y. rewrite Hid, elem_of_difference, elem_of_singleton, Hmap.
    split; [naive_solver|]. intros [[Hy|?] Hl]; [|done]. split; [tauto|]. intros ->. by apply Hq.
Qed.

Lemma turn_run x t l : loop_inv None l → x ∈ m_timers l → objects l !! x = Some t →
  ids_used l < 2 ^ 64 →
  wp (call_timer t;;; rearm x) (set_timers (remove_first x (m_timers l)) l)
    (λ _ l', turn x t l l') nothrow.
Proof.
  intros Hi Hx Ht Hn. pose proof (pop_inv l x (Some x) Hi Hx (or_introl eq_refl)) as Hi1.
  apply wp_bind. eapply wp_mono; [by apply (call_timer_run (Some x))| |done].
  intros [] l2 [Hi2 [Hf Hs Hc Hnx (new & Hq & Hlen & Hnew) Ho]].
  eapply wp_mono; [by apply rearm_run| |done].
  intros [] l3 (Hi3 & Hf3 & Hs3 & Hn3 & Hc3 & Ho3 & Hq3). cbn in Hf, Hs, Hc, Hnx, Hq, Ho.
  assert (Hsz : (script_size (script l3) + length (default [] (head (script l))) =
    script_size (script l))%nat).
  { rewrite Hs3, Hs. destruct (script l); cbn; [done|]. unfold script_size. lia. }
  split; [done|congruence|lia| |].
  - assert (Hnew3 : ∀ id, id ∈ new → m_nextTimerId l ≤ id ∧
      ∃ u, objects l3 !! id = Some u ∧ clock l ≤ t_expiration u).
    { intros id Hin. destruct (Hnew id Hin) as (Hle & u & Hu & He). split; [done|].
      exists u. split; [|done]. rewrite Ho3; [done|]. intros ->.
      pose proof (task_range _ _ _ (loop_tasks _ _ Hi _ _ Ht)). cbn in Hle. lia. }
    exists (length (default [] (head (script l)))), new.
    destruct Hq3 as [Hq3|[Hq3 (u & Hu & He)]].
    + exists []. rewrite Hq3, Hq, Hn3. split_and!; try done; [apply Hnx|apply Hnx|by left].
    + exists [x]. rewrite Hq3, Hq, Hn3. split_and!; try done; [apply Hnx|apply Hnx|].
      right. split; [done|]. exists u. split; [done|lia].
  - intros id u Hne Hu. rewrite Ho3 by done. by apply Ho.
Qed.

(** ** The whole loop *)

(** [fs] are the callbacks run since [l0]. *)
Record run_inv (now : Z) (l0 : Loop) (fs : list (Z * Z)) (l : Loop) : Prop := {
  run_start : loop_inv None l0;
  run_loop : loop_inv None l;
  run_ids : ids_used l ≤ ids_used l0 < 2 ^ 64;
  run_next : m_nextTimerId l0 ≤ m_nextTimerId l;
  run_clock : now ≤ clock l;
  run_fired : fired l = fired l0 ++ fs;
  run_sorted : StronglySorted key_le fs;
  run_due : Forall (λ k, fst k ≤ now) fs;
  run_le : ∀ k id t, k ∈ fs → id ∈ m_timers l → objects l !! id = Some t → key_le k (key t);
  run_again : ∀ k, k ∈ fs → snd k < m_nextTimerId l ∧
    ∀ t, snd k ∈ m_timers l → objects l !! snd k = Some t → now < t_expiration t;
  run_once : NoDup (snd <$> fs);
  run_todo : ∀ id t, id ∈ m_timerMap l0 → objects l0 !! id = Some t → t_expiration t ≤ now →
    (t_expiration t, id) ∈ fs ∨ cancelled (objects l) id ∨
    (id ∈ m_timers l ∧ objects l !! id = Some t);
  run_dead : ∀ id, id < m_nextTimerId l0 → id ∉ m_timerMap l0 →
    (id ∉ m_timerMap l) ∧ id ∉ snd <$> fs;
}.

(** What is left to do. *)
Definition weight (now : Z) (objs : gmap Z TimerTask) (id : Z) : nat :=
  match objs !! id with
  | Some t => if now <? t_expiration t then 1 else 2
  | None => 2
  end.
Definition work (now : Z) (l : Loop) : nat :=
  (sum_list_with (weight now (objects l)) (m_timers l) + 2 * script_size (script l))%nat.

Lemma timer_weight_bound now objs id : (1 ≤ weight now objs id ≤ 2)%nat.
Proof. unfold weight. destruct (objs !! id); [|lia]. destruct (_ <? _); lia. Qed.

Lemma remove_first_sum f x q : x ∈ q →
  sum_list_with f q = (f x + sum_list_with f (remove_first x q))%nat.
Proof.
  induction q as [|y q IH]; intros Hx; [by apply elem_of_nil in Hx|]. cbn.
  case_bool_decide as E; [by subst|]. apply elem_of_cons in Hx as [?|Hx]; [done|].
  cbn. rewrite IH by done. lia.
Qed.

Lemma weights_le now objs q : (sum_list_with (weight now objs) q ≤ 2 * length q)%nat.
Proof. induction q as [|x q IH]; cbn; [lia|]. pose proof (timer_weight_bound now objs x). lia. Qed.

Lemma sum_list_with_ext {A} (f g : A → nat) q :
  (∀ x, x ∈ q → f x = g x) → sum_list_with f q = sum_list_with g q.
Proof. induction q as [|x q IH]; intros H; cbn; [done|]. rewrite H, IH; set_solver. Qed.

Lemma turn_work now x t l l' : loop_inv None l → now ≤ clock l → x ∈ m_timers l →
  objects l !! x = Some t → t_expiration t ≤ now → turn x t l l' → (work now l' < work now l)%nat.
Proof.
  intros Hi Hc Hx Ht He [_ _ _ (k & new & back & Hk & _ & Hq & Hlen & _ & Hback) Ho].
  unfold work. rewrite Hq, !sum_list_with_app.
  rewrite (remove_first_sum _ x (m_timers l)) by done.
  assert (weight now (objects l) x = 2%nat) as ->.
  { unfold weight. rewrite Ht. by destruct (Z.ltb_spec now (t_expiration t)); [lia|]. }
  rewrite (sum_list_with_ext (weight now (objects l')) (weight now (objects l)) (remove_first _ _)).
  - pose proof (weights_le now (objects l') new).
    assert (sum_list_with (weight now (objects l')) back ≤ 1)%nat; [|lia].
    destruct Hback as [->|[-> (u & Hu & Hle)]]; cbn; [lia|]. unfold weight. rewrite Hu.
    destruct (Z.ltb_spec now (t_expiration u)); lia.
  - intros y [Hy Hne]%remove_first_elem; [|by apply Hi].
    destruct (loop_points _ _ Hi y Hy) as [u Hu]. destruct (Ho y u Hne Hu) as (u' & Hu' & Hag).
    unfold weight. rewrite Hu, Hu'. by destruct Hag as [->| ->].
Qed.

Lemma StronglySorted_snoc {A} (R : A → A → Prop) xs x :
  StronglySorted R xs → (∀ y, y ∈ xs → R y x) → StronglySorted R (xs ++ [x]).
Proof.
  induction xs as [|z xs IH]; cbn; intros Hs Hx; [repeat constructor|].
  apply StronglySorted_inv in Hs as [Hs Hz]. constructor.
  - apply IH; [done|]. intros y Hy. apply Hx. by right.
  - apply Forall_app. split; [done|]. apply Forall_singleton, Hx. by left.
Qed.

(** Where a timer that is queued after the turn comes from. *)
Lemma turn_queued x t l l' y u : loop_inv None l → turn x t l l' →
  y ∈ m_timers l' → objects l' !! y = Some u →
  (y = x ∧ clock l < t_expiration u) ∨ (m_nextTimerId l ≤ y ∧ clock l ≤ t_expiration u) ∨
  (y ∈ m_timers l ∧ y ≠ x ∧ ∃ v, objects l !! y = Some v ∧ aged v u).
Proof.
  intros Hi [_ _ _ (k & new & back & _ & _ & Hq & _ & Hnew & Hback) Ho] Hy Hu.
  rewrite Hq in Hy. apply elem_of_app in Hy as [Hy|[Hy|Hy]%elem_of_app].
  - left. destruct Hback as [->|[-> (w & Hw & ?)]]; [by apply elem_of_nil in Hy|].
    apply list_elem_of_singleton in Hy as ->. split; [done|]. congruence.
  - right; left. destruct (Hnew y Hy) as (? & w & ? & ?). split; [done|]. congruence.
  - right; right. apply remove_first_elem in Hy as [Hy Hne]; [|by apply Hi].
    split_and!; [done|done|]. destruct (loop_points _ _ Hi y Hy) as [v Hv].
    exists v. split; [done|]. destruct (Ho y v Hne Hv) as (w & ? & ?). congruence.
Qed.

Lemma aged_key v u : aged v u → key u = key v.
Proof. by intros [->| ->]. Qed.

Lemma turn_map x t l l' y : loop_inv None l → x ∈ m_timerMap l → turn x t l l' →
  y < m_nextTimerId l → y ∉ m_timerMap l → y ∉ m_timerMap l'.
Proof.
  intros Hi Hx Htn Hlt Hy [[Hq|?] (u & Hu & Hc)]%(loop_map _ _ (turn_inv _ _ _ _ Htn)); [|done].
  destruct (turn_queued x t l l' y u) as [[-> _]|[[? _]|(Hq' & _ & v & Hv & Hag)]]; try done; [lia|].
  apply Hy, (loop_map _ _ Hi). split; [by left|]. exists v. split; [done|].
  destruct Hag as [->| ->]; done.
Qed.

Lemma run_turn now l0 fs l x t l' : run_inv now l0 fs l → x ∈ m_timers l →
  objects l !! x = Some t → t_cancelled t = false → t_expiration t ≤ now →
  (∀ y u, y ∈ m_timers l → objects l !! y = Some u → key_le (key t) (key u)) →
  turn x t l l' → run_inv now l0 (fs ++ [key t]) l'.
Proof.
  intros [Hi0 Hi Hids Hnx Hcl Hf Hso Hdue Hle Hag Hon Htodo Hdead] Hx Ht Hc He Hmin Htn.
  pose proof (turn_inv _ _ _ _ Htn) as Hi'.
  pose proof (loop_tasks _ _ Hi _ _ Ht) as [Hid Hr _ _ _ _].
  assert (Hxm : x ∈ m_timerMap l) by (apply (loop_map _ _ Hi); split; [by left|by exists t]).
  assert (Hxf : x ∉ snd <$> fs).
  { intros (k & -> & Hk)%list_elem_of_fmap. destruct (Hag k Hk) as [_ H]. specialize (H t Hx Ht). lia. }
  pose proof (λ y u, turn_queued x t l l' y u Hi Htn) as Hqd.
  assert (Hkey : ∀ y u, objects l' !! y = Some u → t_id u = y)
    by (intros y u Hu; apply (loop_tasks _ _ Hi' _ _ Hu)).
  rewrite Forall_forall in Hdue. pose proof Htn as [_ Hf' Hc' Hrest Ho].
  destruct Hrest as (k & new & back & Hk & Hn & Hq & _).
  split; try done; try (unfold ids_used in *; lia).
  - rewrite Hf', Hf. by rewrite <- app_assoc.
  - apply StronglySorted_snoc; [done|]. intros y Hy. by apply (Hle y x t).
  - apply Forall_app. split; [by apply Forall_forall|]. by apply Forall_singleton.
  - intros y id u [Hy| ->%list_elem_of_singleton]%elem_of_app Hin Hu; unfold key_le; cbn;
      rewrite (Hkey id u Hu); destruct (Hqd id u Hin Hu) as [[-> ?]|[[? ?]|(Hin' & _ & v & Hv & Hk')]].
    + left. specialize (Hdue y Hy). cbn in Hdue. lia.
    + specialize (Hdue y Hy). destruct (Hag y Hy) as [? _]. cbn in Hdue. lia.
    + pose proof (Hle y id v Hy Hin' Hv) as H. rewrite <- (aged_key v u Hk') in H.
      unfold key_le in H. cbn in H. by rewrite (Hkey id u Hu) in H.
    + lia.
    + lia.
    + pose proof (Hmin id v Hin' Hv) as H. rewrite <- (aged_key v u Hk') in H.
      unfold key_le in H. cbn in H. by rewrite (Hkey id u Hu) in H.
  - intros y [Hy| ->%list_elem_of_singleton]%elem_of_app.
    + destruct (Hag y Hy) as [Hlt Hnow]. split; [lia|]. intros u Hin Hu.
      destruct (Hqd _ u Hin Hu) as [[_ ?]|[[? ?]|(Hin' & _ & v & Hv & Hk')]]; [lia|lia|].
      pose proof (Hnow v Hin' Hv). by destruct Hk' as [->| ->].
    + cbn. rewrite Hid. split; [lia|]. intros u Hin Hu.
      destruct (Hqd _ u Hin Hu) as [[_ ?]|[[? ?]|(_ & ? & _)]]; [lia|lia|done].
  - rewrite fmap_app. apply NoDup_app. split_and!; [done| |apply NoDup_singleton].
    intros y Hy ->%list_elem_of_singleton. cbn in Hy. by rewrite Hid in Hy.
  - intros id u Hm Hu Hdu. destruct (Htodo id u Hm Hu Hdu) as [H|[H|[Hin Hu']]].
    + left. apply elem_of_app. by left.
    + right; left. destruct H as (w & Hw & Hcw).
      destruct (Ho id w) as (w' & ? & [->| ->]); [congruence|done|by exists w|].
      by exists (set_cancelled w).
    + destruct (decide (id = x)) as [->|Hne].
      * left. apply elem_of_app. right. apply list_elem_of_singleton. unfold key. congruence.
      * right. destruct (Ho id u Hne Hu') as (u' & Hu2 & [->| ->]); [right|left].
        -- split; [|done]. rewrite Hq, !elem_of_app, remove_first_elem by apply Hi. tauto.
        -- by exists (set_cancelled u).
  - intros id Hlt Hm. destruct (Hdead id Hlt Hm) as [Hm' Hf2]. split.
    + apply (turn_map x t l); try done. lia.
    + rewrite fmap_app, elem_of_app. intros [?| ->%list_elem_of_singleton]; [done|].
      cbn in *. rewrite Hid in *. done.
Qed.

Lemma run_pop now l0 fs l x t : run_inv now l0 fs l → x ∈ m_timers l →
  objects l !! x = Some t → t_cancelled t = true →
  run_inv now l0 fs (set_timers (remove_first x (m_timers l)) l).
Proof.
  intros [Hi0 Hi Hids Hnx Hcl Hf Hso Hdue Hle Hag Hon Htodo Hdead] Hx Ht Hc.
  assert (Hxl : ¬ live (objects l) x) by (intros (u & ? & ?); congruence).
  pose proof (λ y, remove_first_elem x y (m_timers l) (loop_nodup _ _ Hi)) as Hrem.
  split; try done; cbn.
  - apply pop_inv; [done|done|by right].
  - intros k id u Hk [Hin _]%Hrem Hu. by apply (Hle k id u).
  - intros k Hk. destruct (Hag k Hk) as [Hlt H]. split; [done|]. intros u [Hin _]%Hrem Hu. auto.
  - intros id u Hm Hu He. destruct (Htodo id u Hm Hu He) as [?|[?|[Hin Hu']]]; [tauto|tauto|].
    destruct (decide (id = x)) as [->|Hne].
    + right; left. by exists t.
    + right; right. by rewrite Hrem.
Qed.

Lemma pop_work now l x : x ∈ m_timers l →
  (work now (set_timers (remove_first x (m_timers l)) l) < work now l)%nat.
Proof.
  intros Hx. unfold work. cbn [objects m_timers script set_timers]. rewrite (remove_first_sum _ x (m_timers l)) by done.
  pose proof (timer_weight_bound now (objects l) x). lia.
Qed.

Lemma processTimers_loop_run now l0 fuel : ∀ fs l, run_inv now l0 fs l → (work now l < fuel)%nat →
  wp (processTimers_loop now fuel) l (λ _ l', ∃ fs', run_inv now l0 fs' l' ∧
    ∀ id t, id ∈ m_timers l' → objects l' !! id = Some t → now < t_expiration t) nothrow.
Proof.
  induction fuel as [|fuel IH]; intros fs l Hr Hw; [lia|]. pose proof (run_loop _ _ _ _ Hr) as Hi.
  cbn [processTimers_loop]. apply wp_get.
  destruct (top_of (objects l) (m_timers l)) as [x|] eqn:Et.
  - destruct (loop_points_top _ _ _ Hi Et) as (Hx & t & Ht & Hid & Hmin).
    apply wp_bind. unfold deref at 1. apply wp_get. rewrite Ht. apply wp_ret.
    destruct (t_cancelled t) eqn:Hc.
    { apply wp_modify_seq. eapply IH; [by eapply run_pop|]. pose proof (pop_work now l x Hx). lia. }
    destruct (Z.ltb_spec now (t_expiration t)) as [Hlt|He].
    { exists fs. split; [done|]. intros y u Hy Hu. pose proof (Hmin y u Hy Hu) as Hk.
      unfold key_le in Hk. cbn in Hk. lia. }
    assert (Hxm : x ∈ m_timerMap l) by (apply (loop_map _ _ Hi); split; [by left|by exists t]).
    apply wp_modify_seq, wp_get. cbn [m_timerMap set_timers]. rewrite Hid.
    rewrite bool_decide_true by done.
    rewrite (task_callback _ _ _ (loop_tasks _ _ Hi _ _ Ht)). cbn [negb andb].
    pose proof (run_ids _ _ _ _ Hr) as Hids.
    pose proof (turn_run x t l Hi Hx Ht ltac:(lia)) as Htn.
    apply wp_assoc.
    eapply (wp_seq _ _ _ (λ _ l', turn x t l l')); [done|]. intros [] l' Htn'.
    eapply IH; [by eapply run_turn|].
    pose proof (turn_work now x t l l' Hi (run_clock _ _ _ _ Hr) Hx Ht He Htn'). lia.
  - exists fs. split; [done|]. intros y u Hy. pose proof (top_of_spec _ _ (loop_points _ _ Hi)) as H.
    rewrite Et in H. rewrite H in Hy. by apply elem_of_nil in Hy.
Qed.

Lemma work_bound now l : (work now l ≤ 2 * (length (m_timers l) + script_size (script l)))%nat.
Proof. unfold work. pose proof (weights_le now (objects l) (m_timers l)). lia. Qed.

(** The time a clock read returns. *)
Definition read_time (l : Loop) : Z := clock l + Z.max 0 (default 0 (head (ticks l))).

Lemma run_inv_start l l1 : loop_inv None l1 → fired l1 = fired l → ∀ now, now ≤ clock l1 →
  ids_used l1 < 2 ^ 64 → run_inv now l1 [] l1.
Proof.
  intros Hi Hf now Hc Hn. split; try done; try lia.
  - by rewrite app_nil_r.
  - constructor.
  - by intros k id t Hk%elem_of_nil.
  - by intros k Hk%elem_of_nil.
  - constructor.
  - intros id t [[?|?] (u & ? & ?)]%(loop_map _ _ Hi) Ht He; [|done]. by right; right.
  - intros id ? ?. split; [done|apply not_elem_of_nil].
Qed.

Lemma processTimers_run l : loop_inv None l →
  ids_used l < 2 ^ 64 →
  ∃ l' fs, processTimers l = (Ok tt, l') ∧
    run_inv (read_time l) (set_clock (read_time l) (tail (ticks l)) l) fs l' ∧
    ∀ id t, id ∈ m_timers l' → objects l' !! id = Some t → read_time l < t_expiration t.
Proof.
  intros Hi Hn.
  assert (Hrun : wp processTimers l (λ _ l', ∃ fs,
    run_inv (read_time l) (set_clock (read_time l) (tail (ticks l)) l) fs l' ∧
    ∀ id t, id ∈ m_timers l' → objects l' !! id = Some t → read_time l < t_expiration t) nothrow).
  { unfold processTimers. pose proof (Clock_now_wp None l Hi) as (now & l1 & Hnow & Hi1 & _)%wp_inv.
    assert (E : Clock_now l = (Ok (read_time l), set_clock (read_time l) (tail (ticks l)) l)) by done.
    rewrite E in Hnow. injection Hnow as <- <-. eapply wp_run_seq; [exact E|].
    apply wp_get. apply processTimers_loop_run with (fs := []).
    - by apply (run_inv_start l).
    - pose proof (work_bound (read_time l) (set_clock (read_time l) (tail (ticks l)) l)). lia. }
  apply wp_inv in Hrun as ([] & l' & Hp & fs & H). by exists l', fs.
Qed.

(** ** The poll time-out *)

Lemma getPollTimeoutMs_run l : loop_inv None l →
  ∃ r l', getPollTimeoutMs l = (Ok r, l') ∧ 0 ≤ r ≤ 2147483647 ∧
    match top_of (objects l) (m_timers l) with
    | None => r = 10000 ∧ l' = l
    | Some x => l' = set_clock (read_time l) (tail (ticks l)) l ∧
        ∃ t, objects l !! x = Some t ∧
          (r = 0 ∧ (t_cancelled t = true ∨ t_expiration t < read_time l + ms 1) ∨
           ms r ≤ t_expiration t - read_time l ∧
           (r = 2147483647 ∨ t_expiration t < read_time l + ms (r + 1)))
    end.
Proof.
  intros Hi. unfold getPollTimeoutMs. rewrite bind_get.
  destruct (top_of (objects l) (m_timers l)) as [x|] eqn:Et.
  2: { exists 10000, l. split_and!; by try lia. }
  destruct (loop_points_top _ _ _ Hi Et) as (Hx & t & Ht & _).
  assert (E : Clock_now l = (Ok (read_time l), set_clock (read_time l) (tail (ticks l)) l)) by done.
  pose proof (Clock_now_wp None l Hi) as (now & l1 & Hnow & Hi1 & _)%wp_inv.
  rewrite E in Hnow. injection Hnow as <- <-. pose proof (loop_clock _ _ Hi1) as Hcl. cbn in Hcl.
  rewrite (bind_Ok _ _ _ _ _ E). unfold deref. rewrite (bind_Ok _ _ _ t (set_clock (read_time l) (tail (ticks l)) l)).
  2: { rewrite bind_get. cbn [objects set_clock]. by rewrite Ht. }
  destruct (loop_tasks _ _ Hi _ _ Ht) as [_ _ _ _ _ Hex].
  generalize dependent (read_time l). intros now E Hi1 Hcl. clear E. unfold in_i64, INT64_MIN, INT64_MAX, horizon in *.
  destruct (t_cancelled t) eqn:Hc.
  { exists 0. eexists. split; [done|]. split; [lia|]. split; [done|]. exists t. split; [done|]. tauto. }
  destruct (Z.leb_spec (t_expiration t) now).
  { exists 0. eexists. split; [done|]. split; [lia|]. split; [done|]. exists t. split; [done|].
    unfold ms. left. split; [done|]. right. lia. }
  unfold i64_sub. rewrite i64_Ok by (unfold in_i64, INT64_MIN, INT64_MAX; lia).
  rewrite bind_lift_ok. cbv zeta. rewrite Z.quot_div_nonneg by lia.
  pose proof (Z.div_mod (t_expiration t - now) 1000000 ltac:(lia)) as Hdm.
  pose proof (Z.mod_pos_bound (t_expiration t - now) 1000000 ltac:(lia)) as Hmb.
  set (d := (t_expiration t - now) / 1000000) in *.
  destruct (Z.leb_spec d 0); [exists 0|destruct (Z.ltb_spec 2147483647 d);
    [exists 2147483647|exists d]]; eexists; (split; [done|]; split; [lia|]; split; [done|];
    exists t; split; [done|]; unfold ms; lia).
Qed.

(** ** Any sequence of calls *)

Definition call_ok (c : LoopCall) : Prop := match c with Api o => op_ok o | _ => True end.
Definition call_ids (c : LoopCall) : nat := match c with Api _ => 1 | _ => 0 end.

(** The clock stays below [horizon], delays are at most that, and the ids do not wrap. *)
Record calls_ok (now : Z) (ts : list Z) (sc : list (list LoopOp)) (cs : list LoopCall) : Prop := {
  calls_time : 0 ≤ now ∧ now + tick_sum ts ≤ horizon;
  calls_script : Forall (Forall op_ok) sc;
  calls_ops : Forall call_ok cs;
  calls_ids : Z.of_nat (script_size sc + sum_list_with call_ids cs) < 2 ^ 64 - 1;
}.

Lemma new_inv now ts sc cs : calls_ok now ts sc cs → loop_inv None (EventLoop_new now ts sc).
Proof.
  intros [Ht Hs _ _]. split; try done; cbn.
  - constructor.
  - by intros id ?%elem_of_nil.
  - intros id. rewrite elem_of_nil. set_solver.
Qed.

Lemma run_calls_run cs : ∀ l, loop_inv None l → Forall call_ok cs →
  ids_used l + Z.of_nat (sum_list_with call_ids cs) < 2 ^ 64 →
  wp (run_calls cs) l (λ _ l', loop_inv None l' ∧ ids_used l' < 2 ^ 64) nothrow.
Proof.
  induction cs as [|c cs IH]; intros l Hi Hok Hids; [split; [done|]; cbn in Hids; lia|].
  apply Forall_cons in Hok as [Hc Hok]. cbn [run_calls].
  change (sum_list_with call_ids (c :: cs)) with (call_ids c + sum_list_with call_ids cs)%nat in Hids.
  apply (wp_seq _ _ _ (λ _ l', loop_inv None l' ∧ ids_used l' ≤ ids_used l + Z.of_nat (call_ids c))).
  - unfold ids_used in *. destruct c as [o| |]; cbn [run_call call_ids call_ok] in *.
    + eapply wp_mono; [apply (loop_op_run None); [done|done|lia]| |done].
      intros [] l' [Hi' [_ Hs _ Hn _ _]]. split; [done|]. rewrite Hs. lia.
    + destruct (processTimers_run l Hi) as (l' & fs & Hp & Hr & _); [unfold ids_used; lia|].
      eapply wp_run; [exact Hp|]. split; [apply Hr|].
      pose proof (run_ids _ _ _ _ Hr) as H. unfold ids_used in H. cbn [m_nextTimerId script set_clock] in H. lia.
    + destruct (getPollTimeoutMs_run l Hi) as (r & l' & Hp & _ & Htop).
      eapply wp_run_seq; [exact Hp|]. apply wp_ret.
      destruct (top_of _ _); destruct Htop as [? Htop]; subst l'; [|split; [done|lia]].
      pose proof (Clock_now_wp None l Hi) as (now & l1 & Hnow & Hi1 & _)%wp_inv.
      injection Hnow as <- <-. split; [exact Hi1|]. cbn [m_nextTimerId script set_clock]. lia.
  - intros [] l' [Hi' Hle]. apply IH; [done|done|lia].
Qed.

Lemma reached_inv now ts sc cs : calls_ok now ts sc cs →
  ∃ l, run_calls cs (EventLoop_new now ts sc) = (Ok tt, l) ∧ loop_inv None l ∧ ids_used l < 2 ^ 64.
Proof.
  intros Hok. pose proof (new_inv _ _ _ _ Hok) as Hi. destruct Hok as [_ _ Hops Hids].
  pose proof (run_calls_run cs _ Hi Hops) as H.
  apply wp_inv in H as ([] & l & ? & ?); [by exists l|].
  change (1 + Z.of_nat (script_size sc) + Z.of_nat (sum_list_with call_ids cs) < 2 ^ 64). lia.
Qed.

(** ** Properties *)

(** C9: Whatever calls were made on a new loop before, in whatever order, [processTimers]
    returns.  With [now] the time it reads at its start, it runs the callbacks of timers that
    are due ([fs], expiration and id), none early, each timer at most once, by expiration
    and then by id, although the callbacks may add and cancel timers again.  Every timer that
    was set and due has run or was cancelled meanwhile; a timer that was cancelled or had
    ended before does not run; afterwards no due timer is left in the queue. *)
Theorem processTimers_exact now0 ts sc cs : calls_ok now0 ts sc cs →
  ∃ l l' fs, run_calls cs (EventLoop_new now0 ts sc) = (Ok tt, l) ∧
    let now := read_time l in
    processTimers l = (Ok tt, l') ∧
    fired l' = fired l ++ fs ∧ Forall (λ k, fst k ≤ now) fs ∧
    StronglySorted key_le fs ∧ NoDup (snd <$> fs) ∧
    (∀ id t, id ∈ m_timerMap l → objects l !! id = Some t → t_expiration t ≤ now →
      (t_expiration t, id) ∈ fs ∨ cancelled (objects l') id) ∧
    (∀ id, id < m_nextTimerId l → id ∉ m_timerMap l →
      (id ∉ m_timerMap l') ∧ id ∉ snd <$> fs) ∧
    (∀ id t, id ∈ m_timers l' → objects l' !! id = Some t → now < t_expiration t).
Proof.
  intros Hok. destruct (reached_inv _ _ _ _ Hok) as (l & Hl & Hi & Hids).
  destruct (processTimers_run l Hi Hids) as (l' & fs & Hp & Hr & Hq).
  exists l, l', fs. split; [done|]. cbn zeta.
  destruct Hr as [_ _ _ _ _ Hf Hso Hdue _ _ Hon Htodo Hdead]. split_and!; try done.
  intros id t Hm Ht He. destruct (Htodo id t Hm Ht He) as [?|[?|[Hin Ht']]]; [by left|by right|].
  specialize (Hq id t Hin Ht'). lia.
Qed.

Lemma processTimers_exact_witness :
  calls_ok 1000 [5; 3] [[RunAfter 0 true; CancelTimer 2]; [RunEvery 7 true]]
    [Api (RunAfter 0 true); Api (RunAfter 0 true); Api (RunEvery 1 true); Api (RunAfter 0 false)] ∧
  ∃ l l' fs, run_calls
      [Api (RunAfter 0 true); Api (RunAfter 0 true); Api (RunEvery 1 true); Api (RunAfter 0 false)]
      (EventLoop_new 1000 [5; 3] [[RunAfter 0 true; CancelTimer 2]; [RunEvery 7 true]])
      = (Ok tt, l) ∧ processTimers l = (Ok tt, l') ∧ fired l' = fired l ++ fs.
Proof.
  assert (Hok : calls_ok 1000 [5; 3] [[RunAfter 0 true; CancelTimer 2]; [RunEvery 7 true]]
    [Api (RunAfter 0 true); Api (RunAfter 0 true); Api (RunEvery 1 true); Api (RunAfter 0 false)]).
  { split; [vm_compute; by split|repeat apply Forall_cons_2; (apply Forall_nil_2 || (vm_compute; done))..|vm_compute; done]. }
  split; [exact Hok|].
  destruct (processTimers_exact _ _ _ _ Hok) as (l & l' & fs & H1 & H2 & H3 & _).
  exists l, l', fs. exact (conj H1 (conj H2 H3)).
Defined.


