(* ===== verification/LoopWakeup.v ===== *)
(** * Functors and wake-ups of [dbase::net::EventLoop] (code/src/net/event_loop.cpp) with
    [WakeupChannel] (code/src/net/wakeup_channel.cpp)

    The thread of the loop and any number of other threads that queue functors or ask the
    loop to quit, as a step relation.  A step is one access to the shared state: the queue
    under its mutex, an atomic flag, a read or write of the socket pair.  What a callback
    does is the list of the calls it makes; what the kernel reports from [poll] besides the
    wake-up descriptor, and which timers are due, is up to the environment. *)

From S2P Require Import Prelude.
From stdpp Require Import base list relations.
From Stdlib Require Import Lia.

#[local] Set Warnings "-register-all".

(** What a callback calls on its loop.  A functor is the list of its calls. *)
Inductive Action : Type :=
  | QueueInLoop (cb : list Action)
  | QuitLoop.
Abbreviation Functor := (list Action).

(** What is handled for a channel that [poll] reports. *)
Inductive Event : Type :=
  | EWakeup
  | EHandler (cb : Functor).

(** Where the thread of the loop is, between two callbacks. *)
Inductive Phase : Type :=
  | PBefore                         (* [loop] is not called yet *)
  | PCheck                          (* [while (!m_quit)] *)
  | PTimers1 (cbs : list Functor)   (* the callbacks still to run *)
  | PPoll
  | PEvents (active : list Event)
  | PReading (active : list Event)  (* in [handleWakeupRead] *)
  | PCalling                        (* [doPendingFunctors]: sets the flag *)
  | PSwap
  | PRun (functors : list Functor)
  | PClear
  | PTimers2 (cbs : list Functor)
  | PDone.

(** Another thread, before a call or between its change and its [wakeup]. *)
Inductive OPc : Type := OIdle | OWake.

Record World : Type := mkWorld {
  phase : Phase;
  acts : list Action;               (* what the running callback still calls *)
  pushed : bool;                    (* in [queueInLoop], after the push *)
  others : list OPc;
  m_pendingFunctors : list Functor;
  m_callingPendingFunctors : bool;
  m_quit : bool;
  unread : nat;                     (* bytes in the socket pair *)
  queued : list Functor;            (* all functors pushed so far *)
  ran : list Functor;               (* all functors started so far *)
}.

Definition set_phase (x : Phase) (w : World) : World :=
  mkWorld x (acts w) (pushed w) (others w) (m_pendingFunctors w) (m_callingPendingFunctors w)
    (m_quit w) (unread w) (queued w) (ran w).
Definition set_acts (x : list Action) (w : World) : World :=
  mkWorld (phase w) x (pushed w) (others w) (m_pendingFunctors w) (m_callingPendingFunctors w)
    (m_quit w) (unread w) (queued w) (ran w).
Definition set_pushed (x : bool) (w : World) : World :=
  mkWorld (phase w) (acts w) x (others w) (m_pendingFunctors w) (m_callingPendingFunctors w)
    (m_quit w) (unread w) (queued w) (ran w).
Definition set_other (t : nat) (x : OPc) (w : World) : World :=
  mkWorld (phase w) (acts w) (pushed w) (<[t := x]> (others w)) (m_pendingFunctors w)
    (m_callingPendingFunctors w) (m_quit w) (unread w) (queued w) (ran w).
Definition set_calling (x : bool) (w : World) : World :=
  mkWorld (phase w) (acts w) (pushed w) (others w) (m_pendingFunctors w) x
    (m_quit w) (unread w) (queued w) (ran w).
Definition set_quit (x : bool) (w : World) : World :=
  mkWorld (phase w) (acts w) (pushed w) (others w) (m_pendingFunctors w)
    (m_callingPendingFunctors w) x (unread w) (queued w) (ran w).
Definition set_unread (x : nat) (w : World) : World :=
  mkWorld (phase w) (acts w) (pushed w) (others w) (m_pendingFunctors w)
    (m_callingPendingFunctors w) (m_quit w) x (queued w) (ran w).
Definition set_ran (x : list Functor) (w : World) : World :=
  mkWorld (phase w) (acts w) (pushed w) (others w) (m_pendingFunctors w)
    (m_callingPendingFunctors w) (m_quit w) (unread w) (queued w) x.

(** [m_pendingFunctors.emplace_back] under the mutex. *)
Definition push_functor (f : Functor) (w : World) : World :=
  mkWorld (phase w) (acts w) (pushed w) (others w) (m_pendingFunctors w ++ [f])
    (m_callingPendingFunctors w) (m_quit w) (unread w) (queued w ++ [f]) (ran w).

(** [functors.swap(m_pendingFunctors)] under the mutex. *)
Definition swap_functors (w : World) : World :=
  mkWorld (PRun (m_pendingFunctors w)) (acts w) (pushed w) (others w) []
    (m_callingPendingFunctors w) (m_quit w) (unread w) (queued w) (ran w).

(** [WakeupChannel::wakeup]: one byte into a socket pair that holds [cap] bytes at most;
    a failing write is ignored. *)
Definition wakeup (cap : nat) (w : World) : World :=
  set_unread (if Nat.ltb (unread w) cap then S (unread w) else unread w) w.

(** One round of [WakeupChannel::handleRead]. *)
Definition handleRead_round (active : list Event) (w : World) : World :=
  let n := Nat.min 256 (unread w) in
  set_phase (if Nat.ltb n 256 then PEvents active else PReading active)
    (set_unread (unread w - n) w).

Definition start_callback (cb : Functor) (ph : Phase) (w : World) : World :=
  set_acts cb (set_phase ph w).

Section steps.

(** The capacity of the socket pair, and what timer callbacks may be. *)
Context (cap : nat) (timer : Functor → Prop).

(** The calls of the running callback, in the thread of the loop. *)
Inductive act_step : World → World → Prop :=
  | act_push w f rest : acts w = QueueInLoop f :: rest → pushed w = false →
      act_step w (set_pushed true (set_acts rest (push_functor f w)))
  | act_wake w : pushed w = true →
      act_step w (set_pushed false (if m_callingPendingFunctors w then wakeup cap w else w))
  | act_quit w rest : acts w = QuitLoop :: rest → pushed w = false →
      act_step w (set_acts rest (set_quit true w)).

(** [EventLoop::loop] and [doPendingFunctors] between two callbacks. *)
Inductive phase_step (w : World) : World → Prop :=
  | ph_start : phase w = PBefore → phase_step w (set_phase PCheck (set_quit false w))
  | ph_exit : phase w = PCheck → m_quit w = true → phase_step w (set_phase PDone w)
  | ph_timers1 cbs : phase w = PCheck → m_quit w = false → Forall timer cbs →
      phase_step w (set_phase (PTimers1 cbs) w)
  | ph_timer1 cb cbs : phase w = PTimers1 (cb :: cbs) →
      phase_step w (start_callback cb (PTimers1 cbs) w)
  | ph_poll : phase w = PTimers1 [] → phase_step w (set_phase PPoll w)
  | ph_active active : phase w = PPoll → (EWakeup ∈ active ↔ 0 < unread w) →
      phase_step w (set_phase (PEvents active) w)
  | ph_wakeup active : phase w = PEvents (EWakeup :: active) →
      phase_step w (set_phase (PReading active) w)
  | ph_read active : phase w = PReading active → phase_step w (handleRead_round active w)
  | ph_handler cb active : phase w = PEvents (EHandler cb :: active) →
      phase_step w (start_callback cb (PEvents active) w)
  | ph_pending : phase w = PEvents [] → phase_step w (set_phase PCalling w)
  | ph_calling : phase w = PCalling → phase_step w (set_phase PSwap (set_calling true w))
  | ph_swap : phase w = PSwap → phase_step w (swap_functors w)
  | ph_functor f fs : phase w = PRun (f :: fs) →
      phase_step w (set_ran (ran w ++ [f]) (start_callback f (PRun fs) w))
  | ph_ran : phase w = PRun [] → phase_step w (set_phase PClear w)
  | ph_timers2 cbs : phase w = PClear → Forall timer cbs →
      phase_step w (set_phase (PTimers2 cbs) (set_calling false w))
  | ph_timer2 cb cbs : phase w = PTimers2 (cb :: cbs) →
      phase_step w (start_callback cb (PTimers2 cbs) w)
  | ph_again : phase w = PTimers2 [] → phase_step w (set_phase PCheck w).

Inductive step : World → World → Prop :=
  | step_act w w' : act_step w w' → step w w'
  | step_phase w w' : acts w = [] → pushed w = false → phase_step w w' → step w w'
  | step_queue w t f : others w !! t = Some OIdle → step w (set_other t OWake (push_functor f w))
  | step_quit w t : others w !! t = Some OIdle → step w (set_other t OWake (set_quit true w))
  | step_wake w t : others w !! t = Some OWake → step w (set_other t OIdle (wakeup cap w)).

(** A new loop, whose thread makes the calls [pre] before it calls [loop]. *)
Definition EventLoop_init (n : nat) (pre : Functor) : World :=
  mkWorld PBefore pre false (replicate n OIdle) [] false false 0 [] [].

Definition reaches (pre : Functor) (n : nat) : World → Prop :=
  rtc step (EventLoop_init n pre).

End steps.

(** ** The invariant *)

(** The functors taken out of the queue that have not started. *)
Definition in_run (ph : Phase) : list Functor := match ph with PRun fs => fs | _ => [] end.

(** The loop takes the queue before it polls again. *)
Definition swap_ahead (ph : Phase) : bool :=
  match ph with PEvents _ | PReading _ | PCalling | PSwap => true | _ => false end.

(** The loop looks at [m_quit] (or sets it) before it polls again. *)
Definition check_ahead (ph : Phase) : bool :=
  match ph with PTimers1 _ | PPoll => false | _ => true end.

Definition flag_set (ph : Phase) : bool :=
  match ph with PSwap | PRun _ | PClear => true | _ => false end.

(** Callbacks that may queue functors run here. *)
Definition may_call (ph : Phase) : bool :=
  match ph with PEvents _ | PRun _ => true | _ => false end.

Definition waking (w : World) : Prop := 0 < unread w ∨ OWake ∈ others w.

Record loop_ok (w : World) : Prop := {
  ok_order : queued w = ran w ++ in_run (phase w) ++ m_pendingFunctors w;
  ok_flag : m_callingPendingFunctors w = flag_set (phase w);
  ok_calls : may_call (phase w) = false → acts w = [] ∧ pushed w = false;
  ok_timers : ∀ cbs, phase w = PTimers1 cbs ∨ phase w = PTimers2 cbs → Forall (λ cb, cb = []) cbs;
  ok_pending : m_pendingFunctors w ≠ [] →
    swap_ahead (phase w) = true ∨ waking w ∨ flag_set (phase w) = true ∧ pushed w = true;
  ok_quit : m_quit w = true → check_ahead (phase w) = true ∨ waking w;
}.

Section invariant.
Context (cap : nat) (Hcap : 0 < cap).

Lemma wakeup_unread w : 0 < unread (wakeup cap w).
Proof. unfold wakeup. cbn [unread set_unread]. destruct (Nat.ltb_spec (unread w) cap); lia. Qed.

Lemma act_ok w w' : loop_ok w → act_step cap w w' → loop_ok w'.
Proof.
  intros [Ho Hf Hc Ht Hp Hq] Hs.
  assert (Hm : may_call (phase w) = true).
  { destruct (may_call (phase w)) eqn:E; [done|]. destruct (Hc eq_refl) as [Ha Hpu].
    inversion Hs; subst; congruence. }
  inversion Hs as [w0 f rest Ha Hpu|w0 Hpu|w0 rest Ha Hpu]; subst.
  - split; cbn; try done.
    + rewrite Ho. by rewrite <- !app_assoc.
    + by rewrite Hm.
    + intros _. destruct (phase w); cbn in *; auto; discriminate.
  - destruct (m_callingPendingFunctors w) eqn:E; split; cbn; try done; try congruence.
    + intros _. right; left. left. apply wakeup_unread.
    + intros _. right. left. apply wakeup_unread.
    + intros Hne. destruct (Hp Hne) as [?|[?|[Hfl _]]]; [by left|by right; left|congruence].
  - split; cbn; try done; try congruence.
    intros _. destruct (phase w); cbn in *; auto; discriminate.
Qed.

(** Timer callbacks that make no calls. *)
Definition silent (cb : Functor) : Prop := cb = [].

Lemma handleRead_cases active w : ∃ ph k, handleRead_round active w = set_phase ph (set_unread k w) ∧
  (ph = PEvents active ∨ ph = PReading active).
Proof.
  unfold handleRead_round. eexists _, _. split; [reflexivity|]. destruct (Nat.ltb _ _); auto.
Qed.

Lemma phase_ok w w' : loop_ok w → acts w = [] → pushed w = false →
  phase_step silent w w' → loop_ok w'.
Proof.
  intros [Ho Hf Hc Ht Hp Hq] Ha Hpu Hs.
  assert (Hp' : m_pendingFunctors w ≠ [] → swap_ahead (phase w) = true ∨ waking w).
  { intros Hne. destruct (Hp Hne) as [?|[?|[_ ?]]]; [tauto|tauto|congruence]. }
  clear Hp Hc. unfold waking in *.
  inversion Hs as [Hph|Hph|cbs Hph ? Hcb|cb cbs Hph|Hph|active Hph|active Hph|active Hph|cb active Hph
    |Hph|Hph|Hph|f fs Hph|Hph|cbs Hph Hcb|cb cbs Hph|Hph]; subst; rewrite Hph in *;
    try (destruct (handleRead_cases active w) as (ph & k & -> & [->| ->]));
    split; unfold waking; cbn in *; rewrite ?Hph; cbn; try done; try tauto;
    try (intros; congruence); try (intros cbs' [[= <-]|[= <-]]; done);
    try (pose proof (Ht (cb :: cbs) ltac:(auto)) as [-> Hcbs]%Forall_cons);
    try (intros cbs' [[= <-]|[= <-]]; done); try (by rewrite ?app_nil_r, <- ?app_assoc).
Qed.

Lemma other_in w t x : others w !! t = Some x → (<[t := OWake]> (others w) : list OPc) !! t = Some OWake.
Proof. intros H. apply list_lookup_insert_eq. by eapply lookup_lt_Some. Qed.

Lemma step_ok w w' : loop_ok w → step cap silent w w' → loop_ok w'.
Proof.
  intros Hok Hs. inversion Hs as [? ? Ha|? ? ? ? Hph|? t f Ht|? t Ht|? t Ht]; subst.
  - by eapply act_ok.
  - by eapply phase_ok.
  - destruct Hok as [Ho Hf Hc Hti Hp Hq].
    assert (Hw : waking (set_other t OWake (push_functor f w)))
      by (right; cbn; eapply list_elem_of_lookup_2, (other_in w t OIdle); done).
    split; cbn; try done; [|tauto..]. rewrite Ho. by rewrite <- !app_assoc.
  - destruct Hok as [Ho Hf Hc Hti Hp Hq].
    assert (Hw : waking (set_other t OWake (set_quit true w)))
      by (right; cbn; eapply list_elem_of_lookup_2, (other_in w t OIdle); done).
    split; cbn; try done; tauto.
  - destruct Hok as [Ho Hf Hc Hti Hp Hq].
    assert (Hw : waking (set_other t OIdle (wakeup cap w))) by (left; apply (wakeup_unread w)).
    split; cbn; try done; tauto.
Qed.

Lemma init_ok n : loop_ok (EventLoop_init n []).
Proof. split; try done. by intros cbs [?|?]. Qed.

Lemma reaches_ok n w : reaches cap silent [] n w → loop_ok w.
Proof.
  unfold reaches. intros Hr. pose proof (init_ok n) as Hok. induction Hr; [done|].
  eauto using step_ok.
Qed.

End invariant.

(** ** Properties *)


(** Take the step named by a rule of [phase_step]. *)
Tactic Notation "ph" uconstr(rule) :=
  eapply rtc_l; [eapply step_phase; [reflexivity|reflexivity|eapply rule]; try reflexivity|].
Tactic Notation "act" uconstr(rule) := eapply rtc_l; [eapply step_act, rule; reflexivity|].


(** A functor queued, or [quit] called, by a timer callback that runs before [poll] writes no
    wake-up byte: the loop goes to sleep with the functor in the queue and the request to
    quit unseen, and so does a loop whose thread queued a functor before it called [loop]. *)
Theorem timer_calls_not_noticed :
  (∃ w, reaches 8 (λ _, True) [] 1 w ∧ phase w = PPoll ∧ unread w = 0 ∧ others w = [OIdle] ∧
     m_pendingFunctors w = [[]] ∧ m_quit w = true) ∧
  (∃ w, reaches 8 silent [QueueInLoop []] 1 w ∧ phase w = PPoll ∧ unread w = 0 ∧
     others w = [OIdle] ∧ m_pendingFunctors w = [[]]).
Proof.
  split; [exists (mkWorld PPoll [] false [OIdle] [[]] false true 0 [[]] [])
         |exists (mkWorld PPoll [] false [OIdle] [[]] false false 0 [[]] [])];
    unfold reaches; (split; [|repeat split]).
  - ph ph_start. ph (ph_timers1 _ _ [[QueueInLoop []; QuitLoop]]); [by repeat constructor|].
    ph ph_timer1. act act_push. act act_wake. act act_quit. ph ph_poll. apply rtc_refl.
  - act act_push. act act_wake. ph ph_start. ph (ph_timers1 _ _ []); [constructor|]. ph ph_poll.
    apply rtc_refl.
Qed.
