(* ===== verification/Connector.v ===== *)
(** * [dbase::net::Connector] (code/src/net/connector.cpp, connector.h)

    Connecting to a server, with retries.  The members, the part of the event loop they use
    (queued functors and armed timers) and the sockets they own are one state; a run is a list
    of events: calls of the public members in the thread of the loop, functors, timers, and
    what the poller reports, with the answers of the system calls.  The callback for a new
    connection is the last thing [handleWrite] does, so that its calls are the events that
    follow.  [dangling] are the sockets whose [Channel] was destroyed while it was registered
    with the poller; [gave_up] records that the last attempt failed with an error that is not
    retried.  Descriptors are numbered in the order in which they are made, and making one
    succeeds ([createTcpNonblockingOrDie] throws otherwise, before anything has changed). *)

From S2P Require Import Prelude.
From stdpp Require Import base gmap list.
From Stdlib Require Import ZArith Lia.

Local Open Scope Z_scope.

Inductive State : Type := Disconnected | Connecting | Connected.

#[global] Instance State_eq_dec : EqDecision State.
Proof. solve_decision. Defined.

Inductive Functor : Type :=
  | FStart              (* [startInLoop] *)
  | FStop               (* [stopInLoop] *)
  | FRestart            (* [setState(Disconnected); startInLoop()] *)
  | FDelete (fd : Z).   (* [delete rawChannel] *)

#[global] Instance Functor_eq_dec : EqDecision Functor.
Proof. solve_decision. Defined.

Record Connector : Type := mkConnector {
  m_started : bool;
  m_state : State;
  m_channel : option Z;      (* the descriptor of the channel *)
  m_socket : option Z;
  m_initialRetryDelayMs : Z;
  m_maxRetryDelayMs : Z;
  m_retryDelayMs : Z;
  m_newConnectionCallback : bool;
  m_retryTimerId : Z;
  (* the event loop *)
  functors : list Functor;
  timers : list (Z * Z);     (* armed timers that call [startInLoop]: id and delay *)
  nextTimerId : Z;
  (* the kernel *)
  answers : list (bool * Z); (* of the next calls of [connect]: success, error code *)
  nextFd : Z;
  opened : gset Z;
  delivered : list Z;
  dangling : list Z;
  gave_up : bool;
}.

Definition Connector_make (cbset : bool) (ans : list (bool * Z)) : Connector :=
  mkConnector false Disconnected None None 500 30000 500 cbset 0 [] [] 1 ans 0 ∅ [] [] false.

Definition set_started x c := mkConnector x (m_state c) (m_channel c) (m_socket c) (m_initialRetryDelayMs c)
  (m_maxRetryDelayMs c) (m_retryDelayMs c) (m_newConnectionCallback c) (m_retryTimerId c) (functors c)
  (timers c) (nextTimerId c) (answers c) (nextFd c) (opened c) (delivered c) (dangling c) (gave_up c).
Definition set_state x c := mkConnector (m_started c) x (m_channel c) (m_socket c) (m_initialRetryDelayMs c)
  (m_maxRetryDelayMs c) (m_retryDelayMs c) (m_newConnectionCallback c) (m_retryTimerId c) (functors c)
  (timers c) (nextTimerId c) (answers c) (nextFd c) (opened c) (delivered c) (dangling c) (gave_up c).
Definition set_channel x c := mkConnector (m_started c) (m_state c) x (m_socket c) (m_initialRetryDelayMs c)
  (m_maxRetryDelayMs c) (m_retryDelayMs c) (m_newConnectionCallback c) (m_retryTimerId c) (functors c)
  (timers c) (nextTimerId c) (answers c) (nextFd c) (opened c) (delivered c) (dangling c) (gave_up c).
Definition set_socket x c := mkConnector (m_started c) (m_state c) (m_channel c) x (m_initialRetryDelayMs c)
  (m_maxRetryDelayMs c) (m_retryDelayMs c) (m_newConnectionCallback c) (m_retryTimerId c) (functors c)
  (timers c) (nextTimerId c) (answers c) (nextFd c) (opened c) (delivered c) (dangling c) (gave_up c).
Definition set_delays i m d c := mkConnector (m_started c) (m_state c) (m_channel c) (m_socket c) i
  m d (m_newConnectionCallback c) (m_retryTimerId c) (functors c)
  (timers c) (nextTimerId c) (answers c) (nextFd c) (opened c) (delivered c) (dangling c) (gave_up c).
Definition set_callback x c := mkConnector (m_started c) (m_state c) (m_channel c) (m_socket c)
  (m_initialRetryDelayMs c) (m_maxRetryDelayMs c) (m_retryDelayMs c) x (m_retryTimerId c) (functors c)
  (timers c) (nextTimerId c) (answers c) (nextFd c) (opened c) (delivered c) (dangling c) (gave_up c).
Definition set_timer i ts n c := mkConnector (m_started c) (m_state c) (m_channel c) (m_socket c)
  (m_initialRetryDelayMs c) (m_maxRetryDelayMs c) (m_retryDelayMs c) (m_newConnectionCallback c) i
  (functors c) ts n (answers c) (nextFd c) (opened c) (delivered c) (dangling c) (gave_up c).
Definition set_functors x c := mkConnector (m_started c) (m_state c) (m_channel c) (m_socket c)
  (m_initialRetryDelayMs c) (m_maxRetryDelayMs c) (m_retryDelayMs c) (m_newConnectionCallback c)
  (m_retryTimerId c) x (timers c) (nextTimerId c) (answers c) (nextFd c) (opened c) (delivered c)
  (dangling c) (gave_up c).
Definition set_kernel a n o c := mkConnector (m_started c) (m_state c) (m_channel c) (m_socket c)
  (m_initialRetryDelayMs c) (m_maxRetryDelayMs c) (m_retryDelayMs c) (m_newConnectionCallback c)
  (m_retryTimerId c) (functors c) (timers c) (nextTimerId c) a n o (delivered c) (dangling c) (gave_up c).
Definition set_ghost d g u c := mkConnector (m_started c) (m_state c) (m_channel c) (m_socket c)
  (m_initialRetryDelayMs c) (m_maxRetryDelayMs c) (m_retryDelayMs c) (m_newConnectionCallback c)
  (m_retryTimerId c) (functors c) (timers c) (nextTimerId c) (answers c) (nextFd c) (opened c) d g u.

(** ** The loop and the kernel *)

Definition queueInLoop (f : Functor) : M Connector () :=
  modify (λ c, set_functors (functors c ++ [f]) c).

Definition runAfter (delay : Z) : M Connector Z :=
  let delay := if delay <? 0 then 0 else delay in
  let! c := get in
  modify (set_timer (m_retryTimerId c) ((nextTimerId c, delay) :: timers c) (nextTimerId c + 1));;;
  ret (nextTimerId c).

Definition cancelTimer (timerId : Z) : M Connector () :=
  modify (λ c, set_timer (m_retryTimerId c) (filter (λ t, fst t ≠ timerId) (timers c)) (nextTimerId c) c).

Definition close (sock : option Z) : M Connector () :=
  modify (λ c, match sock with
               | None => c
               | Some fd => set_kernel (answers c) (nextFd c) (opened c ∖ {[fd]}) c
               end).

(** [createTcpNonblockingOrDie] *)
Definition createNonblockingSocket : M Connector Z :=
  let! c := get in
  modify (λ c, set_kernel (answers c) (nextFd c + 1) ({[nextFd c]} ∪ opened c) c);;;
  ret (nextFd c).

(** [SocketOps::connect], with the error that [getSocketError] or [errno] then gives *)
Definition SocketOps_connect : M Connector (bool * Z) :=
  let! c := get in
  modify (λ c, set_kernel (tail (answers c)) (nextFd c) (opened c) c);;;
  ret (default (false, 111) (head (answers c))).

(** Error codes of Linux: EINPROGRESS, EALREADY, EWOULDBLOCK *)
Definition isInProgressError (err : Z) : bool := (err =? 115) || (err =? 114) || (err =? 11).
(** ECONNREFUSED, ENETUNREACH, EHOSTUNREACH, ETIMEDOUT, ECONNRESET *)
Definition isRetryableConnectError (err : Z) : bool :=
  (err =? 111) || (err =? 101) || (err =? 113) || (err =? 110) || (err =? 104).

(** ** The members *)

Definition setState (s : State) : M Connector () := modify (set_state s).

Definition cancelRetry : M Connector () :=
  let! c := get in
  if negb (m_retryTimerId c =? 0) then
    cancelTimer (m_retryTimerId c);;;
    modify (λ c, set_timer 0 (timers c) (nextTimerId c) c)
  else ret tt.

(** [int] arithmetic *)
Definition i32_mul (a b : Z) : res Z :=
  if (- 2 ^ 31 <=? a * b) && (a * b <? 2 ^ 31) then Ok (a * b) else Undef.

Definition retry : M Connector () :=
  setState Disconnected;;;
  let! c := get in
  if negb (m_started c) then ret tt
  else
    cancelRetry;;;
    let! id := runAfter (m_retryDelayMs c) in
    modify (λ c, set_timer id (timers c) (nextTimerId c) c);;;
    if m_retryDelayMs c <? m_maxRetryDelayMs c then
      let! d := lift (i32_mul (m_retryDelayMs c) 2) in
      modify (set_delays (m_initialRetryDelayMs c) (m_maxRetryDelayMs c)
        (if m_maxRetryDelayMs c <? d then m_maxRetryDelayMs c else d))
    else ret tt.

(** [m_channel = make_unique] destroys the channel that was there, registered or not. *)
Definition connecting (sock : Z) : M Connector () :=
  setState Connecting;;;
  modify (set_socket (Some sock));;;
  modify (λ c, set_ghost (delivered c) (match m_channel c with None => [] | Some fd => [fd] end ++ dangling c)
                 (gave_up c) c);;;
  modify (set_channel (Some sock)).

Definition note_failure (b : bool) : M Connector () :=
  modify (λ c, set_ghost (delivered c) (dangling c) b c).

Definition connect : M Connector () :=
  note_failure false;;;
  let! sock := createNonblockingSocket in
  let! answer := SocketOps_connect in
  let '(ok, err) := answer in
  if ok then
    if (err =? 0) || isInProgressError err then connecting sock
    else if isRetryableConnectError err then close (Some sock);;; retry
    else close (Some sock);;; note_failure true
  else if isInProgressError err then connecting sock
  else
    close (Some sock);;;
    if isRetryableConnectError err then retry else note_failure true.

Definition startInLoop : M Connector () :=
  let! c := get in
  if negb (m_started c) then ret tt
  else if bool_decide (m_state c = Disconnected) then connect
  else ret tt.

Definition removeAndResetChannelRaw : M Connector (option Z) :=
  let! c := get in
  let sock := m_socket c in
  (match m_channel c with
   | Some fd => modify (set_channel None);;; queueInLoop (FDelete fd)
   | None => ret tt
   end);;;
  modify (set_socket None);;;
  ret sock.

Definition removeAndResetChannel : M Connector () :=
  let! sock := removeAndResetChannelRaw in ret tt.

Definition stopInLoop : M Connector () :=
  modify (set_started false);;;
  let! c := get in
  if bool_decide (m_state c = Connecting) then
    let! sock := removeAndResetChannelRaw in
    setState Disconnected;;;
    close sock
  else if bool_decide (is_Some (m_channel c)) then
    let! sock := removeAndResetChannelRaw in close sock
  else ret tt.

(** [err] is the answer of [getSocketError], [self] that of [isSelfConnect]. *)
Definition handleWrite (err : Z) (self : bool) : M Connector () :=
  let! c := get in
  if negb (bool_decide (m_state c = Connecting)) then ret tt
  else
    let! sock := removeAndResetChannelRaw in
    if negb (err =? 0) then close sock;;; retry
    else if self then close sock;;; retry
    else
      setState Connected;;;
      let! c := get in
      modify (set_delays (m_initialRetryDelayMs c) (m_maxRetryDelayMs c) (m_initialRetryDelayMs c));;;
      if m_started c && m_newConnectionCallback c then
        match sock with
        | None => undef
        | Some fd => modify (λ c, set_ghost (delivered c ++ [fd]) (dangling c) (gave_up c)
                                   (set_kernel (answers c) (nextFd c) (opened c ∖ {[fd]}) c))
        end
      else close sock.

Definition handleError : M Connector () :=
  let! c := get in
  if negb (bool_decide (m_state c = Connecting)) then ret tt
  else
    let! sock := removeAndResetChannelRaw in
    close sock;;;
    retry.

(** ** The public members, in the thread of the loop *)

Definition start : M Connector () := modify (set_started true);;; startInLoop.

Definition stop : M Connector () :=
  modify (set_started false);;; cancelRetry;;; queueInLoop FStop.

Definition restart : M Connector () :=
  cancelRetry;;;
  modify (λ c, set_delays (m_initialRetryDelayMs c) (m_maxRetryDelayMs c) (m_initialRetryDelayMs c) c);;;
  modify (set_started true);;;
  queueInLoop FRestart.

Definition setRetryDelayMs (initialDelayMs maxDelayMs : Z) : M Connector () :=
  let initialDelayMs := if initialDelayMs <=? 0 then 1 else initialDelayMs in
  let maxDelayMs := if maxDelayMs <? initialDelayMs then initialDelayMs else maxDelayMs in
  modify (set_delays initialDelayMs maxDelayMs initialDelayMs).

Definition setNewConnectionCallback (cbset : bool) : M Connector () := modify (set_callback cbset).

(** [~Connector] in the thread of the loop *)
Definition Connector_destroy : M Connector () :=
  cancelRetry;;; stopInLoop;;; setState Disconnected;;; modify (set_started false).

(** ** Runs *)

Definition run_functor (f : Functor) : M Connector () :=
  match f with
  | FStart => startInLoop
  | FStop => stopInLoop
  | FRestart => setState Disconnected;;; startInLoop
  | FDelete _ => ret tt
  end.

Inductive Event : Type :=
  | EStart
  | EStartOther                        (* [start] in another thread *)
  | EStop
  | ERestart
  | ESetRetryDelayMs (initial max : Z)
  | EFunctor                           (* the loop runs the next functor *)
  | ETimer                             (* the retry timer is due *)
  | EWritable (err : Z) (self : bool)  (* reported for the channel *)
  | EError.

Definition run_event (e : Event) : M Connector () :=
  match e with
  | EStart => start
  | EStartOther => modify (set_started true);;; queueInLoop FStart
  | EStop => stop
  | ERestart => restart
  | ESetRetryDelayMs i m => setRetryDelayMs i m
  | EFunctor =>
      let! c := get in
      match functors c with
      | [] => ret tt
      | f :: fs => modify (set_functors fs);;; run_functor f
      end
  | ETimer =>
      let! c := get in
      match timers c with
      | [] => ret tt
      | _ :: ts => modify (set_timer (m_retryTimerId c) ts (nextTimerId c));;; startInLoop
      end
  | EWritable err self =>
      let! c := get in
      if bool_decide (is_Some (m_channel c)) then handleWrite err self else ret tt
  | EError =>
      let! c := get in
      if bool_decide (is_Some (m_channel c)) then handleError else ret tt
  end.

Fixpoint run_events (es : list Event) : M Connector () :=
  match es with
  | [] => ret tt
  | e :: es => run_event e;;; run_events es
  end.

(** The delays whose double is an [int] *)
Definition delay_limit : Z := 2 ^ 30.
Definition event_ok (e : Event) : bool :=
  match e with
  | ESetRetryDelayMs initial max => (initial <=? delay_limit) && (max <=? delay_limit)
  | _ => true
  end.

(** Whether no [FRestart] runs while a connection is being made. *)
Definition restarts_now (e : Event) (c : Connector) : bool :=
  match e, functors c with
  | EFunctor, FRestart :: _ => bool_decide (m_state c = Connecting)
  | _, _ => false
  end.
Fixpoint restarts_ok (es : list Event) (c : Connector) : bool :=
  match es with
  | [] => true
  | e :: es => negb (restarts_now e c) && restarts_ok es (run_event e c).2
  end.

(** ** The invariant *)

Definition as_set (o : option Z) : gset Z := match o with Some fd => {[fd]} | None => ∅ end.

Record conr_inv (strict : bool) (c : Connector) : Prop := {
  cn_channel : m_channel c = m_socket c;
  cn_connecting : m_state c = Connecting → is_Some (m_socket c);
  cn_opened : opened c = as_set (m_socket c) ∪ list_to_set (dangling c);
  cn_apart : ∀ fd, m_socket c = Some fd → fd ∉ dangling c;
  cn_fresh : ∀ fd, fd ∈ opened c ∨ fd ∈ delivered c → fd < nextFd c;
  cn_delivered : NoDup (delivered c) ∧ ∀ fd, fd ∈ delivered c → fd ∉ opened c;
  cn_timers : timers c = [] ∨ ∃ d, timers c = [(m_retryTimerId c, d)] ∧ 0 < d ≤ delay_limit;
  cn_timer_ids : 0 < nextTimerId c ∧ 0 ≤ m_retryTimerId c < nextTimerId c ∧
    (timers c ≠ [] → m_retryTimerId c ≠ 0);
  cn_delays : 0 < m_initialRetryDelayMs c ≤ m_retryDelayMs c ∧ m_retryDelayMs c ≤ m_maxRetryDelayMs c
    ∧ m_maxRetryDelayMs c ≤ delay_limit;
  cn_strict : strict = true → dangling c = [] ∧ (is_Some (m_channel c) → m_state c = Connecting);
}.

(** An attempt is under way or will be made. *)
Definition trying (c : Connector) : Prop :=
  m_started c = true → m_state c = Disconnected →
  timers c ≠ [] ∨ FStart ∈ functors c ∨ FRestart ∈ functors c ∨ gave_up c = true.

(** What the steps below leave alone. *)
Definition same_rest (c c' : Connector) : Prop :=
  m_started c' = m_started c ∧ functors c' = functors c ∧ m_maxRetryDelayMs c' = m_maxRetryDelayMs c ∧
  m_initialRetryDelayMs c' = m_initialRetryDelayMs c ∧ answers c' = answers c ∧ nextFd c' = nextFd c ∧
  delivered c' = delivered c ∧ m_newConnectionCallback c' = m_newConnectionCallback c.

Lemma cancelRetry_run strict c : conr_inv strict c →
  wp cancelRetry c (λ _ c', conr_inv strict c' ∧ timers c' = [] ∧ m_retryTimerId c' = 0 ∧
    same_rest c c' ∧ m_state c' = m_state c ∧ m_retryDelayMs c' = m_retryDelayMs c) nothrow.
Proof.
  intros Hi. pose proof Hi as [H1 H2 H3 Ha H4 H5 H6 H7 H8 H9]. unfold cancelRetry. apply wp_get.
  destruct (Z.eqb_spec (m_retryTimerId c) 0) as [E|E]; cbn [negb].
  - apply wp_ret. assert (timers c = []) as Et.
    { destruct (timers c) as [|t ts] eqn:Et; [done|]. destruct H7 as (_ & _ & H7). by destruct H7. }
    by split_and!.
  - unfold cancelTimer. apply wp_modify_seq, wp_modify. cbn.
    assert (filter (λ t, fst t ≠ m_retryTimerId c) (timers c) = []) as ->.
    { destruct H6 as [->|(d & -> & _)]; [done|]. by rewrite filter_cons_False; [|cbn; tauto]. }
    split_and!; try done. split; cbn; try done; [by left|]. split_and!; try lia. done.
Qed.

Lemma i32_mul_ok a b : - 2 ^ 31 ≤ a * b < 2 ^ 31 → i32_mul a b = Ok (a * b).
Proof. intros H. unfold i32_mul. by rewrite (proj2 (Z.leb_le _ _)), (proj2 (Z.ltb_lt _ _)) by lia. Qed.

(** The next delay *)
Definition next_delay (d max : Z) : Z := if d <? max then Z.min (2 * d) max else d.

Lemma retry_run strict c : conr_inv strict (set_state Disconnected c) →
  wp retry c (λ _ c', conr_inv strict c' ∧ trying c' ∧ m_state c' = Disconnected ∧ same_rest c c' ∧
    (m_started c = true → timers c' = [(m_retryTimerId c', m_retryDelayMs c)] ∧
      m_retryDelayMs c' = next_delay (m_retryDelayMs c) (m_maxRetryDelayMs c))) nothrow.
Proof.
  intros Hi. unfold retry, setState. apply wp_modify_seq, wp_get.
  assert (Hst : m_state (set_state Disconnected c) = Disconnected) by done.
  assert (Hsame : ∀ c', same_rest (set_state Disconnected c) c' → same_rest c c') by done.
  change (m_started c) with (m_started (set_state Disconnected c)).
  change (m_retryDelayMs c) with (m_retryDelayMs (set_state Disconnected c)).
  change (m_maxRetryDelayMs c) with (m_maxRetryDelayMs (set_state Disconnected c)).
  generalize dependent (set_state Disconnected c). intros c0 Hi Hst Hsame.
  destruct (m_started c0) eqn:Es; cbn [negb].
  2: { apply wp_ret. split_and!; try done; [|by apply Hsame]. intros ?. congruence. }
  pose proof (cn_delays _ _ Hi) as Hd. unfold delay_limit in Hd.
  apply (wp_seq _ _ _ _ _ _ (cancelRetry_run strict c0 Hi)).
  intros [] c1 (Hi1 & Et & Ei & Hr & Hst1 & E1). destruct Hr as (Hs1 & Hf1 & E2 & E3 & Hr).
  unfold runAfter. rewrite <- E1, <- E2, <- E3. rewrite <- E1, <- E2, <- E3 in Hd.
  rewrite (proj2 (Z.ltb_ge (m_retryDelayMs c1) 0)) by lia. cbv zeta.
  assert (Hr' : same_rest c0 c1) by done. clear Hi.
  apply wp_bind, wp_get, wp_modify_seq. rewrite Et. apply wp_ret, wp_modify_seq.
  cbn [timers nextTimerId set_timer].
  assert (Hi2 : ∀ d, 0 < m_initialRetryDelayMs c1 ≤ d ∧ d ≤ m_maxRetryDelayMs c1 →
    conr_inv strict (set_delays (m_initialRetryDelayMs c1) (m_maxRetryDelayMs c1) d
      (set_timer (nextTimerId c1) [(nextTimerId c1, m_retryDelayMs c1)] (nextTimerId c1 + 1) c1))).
  { intros d Hrange. destruct Hi1 as [H1 H2 H3 Ha H4 H5 H6 H7 H8 H9]. split; cbn; try done.
    - right. exists (m_retryDelayMs c1). unfold delay_limit. split; [done|lia].
    - lia.
    - unfold delay_limit. lia. }
  assert (Hlow : m_initialRetryDelayMs c1 ≤ 2 * m_retryDelayMs c1) by lia.
  set (c2 := set_delays (m_initialRetryDelayMs c1) (m_maxRetryDelayMs c1)
    (next_delay (m_retryDelayMs c1) (m_maxRetryDelayMs c1))
    (set_timer (nextTimerId c1) [(nextTimerId c1, m_retryDelayMs c1)] (nextTimerId c1 + 1) c1)).
  assert (Hfin : ∀ c3, c3 = c2 → conr_inv strict c3 ∧ trying c3 ∧ m_state c3 = Disconnected ∧ same_rest c c3 ∧
    (true = true → timers c3 = [(m_retryTimerId c3, m_retryDelayMs c1)] ∧
      m_retryDelayMs c3 = next_delay (m_retryDelayMs c1) (m_maxRetryDelayMs c1))).
  { intros c3 ->. split_and!; try done.
    - apply Hi2. unfold next_delay. destruct (Z.ltb_spec (m_retryDelayMs c1) (m_maxRetryDelayMs c1)); lia.
    - intros _ _. by left.
    - cbn. congruence.
    - by apply Hsame. }
  destruct (Z.ltb_spec (m_retryDelayMs c1) (m_maxRetryDelayMs c1)) as [Hlt|Hge].
  - rewrite i32_mul_ok by lia. apply wp_lift_seq, wp_modify, Hfin. unfold c2, next_delay, set_delays, set_timer. cbn.
    rewrite (proj2 (Z.ltb_lt _ _) Hlt). f_equal.
    destruct (Z.ltb_spec (m_maxRetryDelayMs c1) (m_retryDelayMs c1 * 2)); lia.
  - apply wp_ret, Hfin. unfold c2, next_delay. rewrite (proj2 (Z.ltb_ge _ _) Hge). by destruct c1.
Qed.

Lemma opened_fresh strict c : conr_inv strict c → (nextFd c ∉ opened c) ∧ (nextFd c ∉ delivered c).
Proof. intros Hi. pose proof (cn_fresh _ _ Hi (nextFd c)) as H. split; intros Hin; specialize (H ltac:(auto)); lia. Qed.

(** A connection attempt: [a] are the answers left, [g] the new [gave_up]. *)
Definition after_socket (a : list (bool * Z)) (g : bool) (c : Connector) : Connector :=
  set_ghost (delivered c) (dangling c) g (set_kernel a (nextFd c + 1) ({[nextFd c]} ∪ opened c) c).

Lemma connecting_run strict c a g : conr_inv strict c → m_state c = Disconnected →
  wp (connecting (nextFd c)) (after_socket a g c) (λ _ c', conr_inv strict c' ∧ m_state c' = Connecting ∧
    m_channel c' = Some (nextFd c) ∧ timers c' = timers c ∧ delivered c' = delivered c ∧
    m_started c' = m_started c ∧ m_newConnectionCallback c' = m_newConnectionCallback c ∧
    m_initialRetryDelayMs c' = m_initialRetryDelayMs c) nothrow.
Proof.
  intros Hi Hst. destruct (opened_fresh strict c Hi) as [Ho Hd].
  unfold connecting, setState. do 3 apply wp_modify_seq. apply wp_modify.
  split_and!; try done. destruct Hi as [H1 H2 H3 Ha H4 [H5 H5'] H6 H7 H8 H9]. split; cbn; try done.
  - rewrite H3, H1. destruct (m_socket c) as [fd|]; cbn; set_solver.
  - intros ? [= <-]. rewrite H1. destruct (m_socket c) as [fd|]; cbn in *; set_solver.
  - intros fd [[->%elem_of_singleton|Hfd]%elem_of_union|Hfd]; [lia|..];
      assert (fd < nextFd c) by auto; lia.
  - split; [done|]. intros fd Hfd. specialize (H5' fd Hfd). set_solver.
  - intros Hs. destruct (H9 Hs) as [-> Hc]. split; [|done].
    destruct (m_channel c) as [fd|]; [|done]. rewrite Hst in Hc. by specialize (Hc ltac:(eauto)).
Qed.

(** A socket that was made and closed again leaves nothing but the counter. *)
Lemma attempt_inv strict c a g : conr_inv strict c →
  conr_inv strict (set_kernel a (nextFd c + 1) (({[nextFd c]} ∪ opened c) ∖ {[nextFd c]}) (after_socket a g c)).
Proof.
  intros Hi. destruct (opened_fresh strict c Hi) as [Ho Hd].
  assert (({[nextFd c]} ∪ opened c) ∖ {[nextFd c]} = opened c) as -> by set_solver.
  destruct Hi as [H1 H2 H3 Ha H4 H5 H6 H7 H8 H9]. split; cbn; try done.
  intros fd Hfd. specialize (H4 fd Hfd). lia.
Qed.

Definition after_failure (a : list (bool * Z)) (c c' : Connector) : Prop :=
  same_rest (set_kernel a (nextFd c + 1) (opened c) c) c' ∧ m_state c' = m_state c ∧
  m_retryDelayMs c' = m_retryDelayMs c.

Lemma failed_run strict c a g (k : M Connector ()) Q : conr_inv strict c →
  (∀ c', conr_inv strict c' → after_failure a c c' → wp k c' Q nothrow) →
  wp (close (Some (nextFd c));;; k) (after_socket a g c) Q nothrow.
Proof. intros Hi Hk. unfold close. apply wp_modify_seq, Hk; [by apply attempt_inv|done]. Qed.

(** The branches of [connect], by the answer of the system calls *)
Definition pending (answer : bool * Z) : bool :=
  answer.1 && (answer.2 =? 0) || isInProgressError answer.2.
Definition retried (answer : bool * Z) : bool :=
  negb (pending answer) && isRetryableConnectError answer.2.

Lemma connect_cases c Q :
  let a := tail (answers c) in let answer := default (false, 111) (head (answers c)) in
  (pending answer = true → wp (connecting (nextFd c)) (after_socket a false c) Q nothrow) →
  (pending answer = false → retried answer = false →
    wp (close (Some (nextFd c));;; note_failure true) (after_socket a false c) Q nothrow) →
  (retried answer = true → wp (close (Some (nextFd c));;; retry) (after_socket a false c) Q nothrow) →
  wp connect c Q nothrow.
Proof.
  cbv zeta. unfold connect, note_failure, createNonblockingSocket, SocketOps_connect.
  intros Hp Hn Hr. apply wp_modify_seq, wp_bind, wp_get, wp_modify_seq, wp_ret.
  apply wp_bind, wp_get, wp_modify_seq, wp_ret.
  cbn [answers nextFd opened set_kernel set_ghost delivered dangling].
  destruct (default (false, 111) (head (answers c))) as [ok err]. unfold retried, pending in *. cbn [fst snd] in *.
  change (set_kernel _ _ _ _) with (after_socket (tail (answers c)) false c).
  destruct ok, (err =? 0), (isInProgressError err), (isRetryableConnectError err); cbn in *; auto.
Qed.

Lemma connect_run strict c : conr_inv strict c → m_state c = Disconnected →
  wp connect c (λ _ c', conr_inv strict c' ∧ trying c') nothrow.
Proof.
  intros Hi Hst. apply connect_cases; intros _; [|intros _|].
  - eapply wp_mono; [by apply connecting_run| |done]. intros [] c' (Hi' & Hst' & _).
    split; [done|]. intros _ ?. congruence.
  - apply (failed_run strict); [done|]. intros c' Hi' _. apply wp_modify.
    split; [by destruct Hi'|by intros _ _; auto].
  - apply (failed_run strict); [done|]. intros c' Hi' (_ & Hst' & _).
    eapply wp_mono; [apply retry_run|naive_solver|done].
    rewrite Hst in Hst'. by destruct c'; cbn in *; subst.
Qed.

(** What the loop has taken note of before a step may be used up by it. *)
Definition step_ok (strict : bool) (m : M Connector ()) (c : Connector) : Prop :=
  wp m c (λ _ c', conr_inv strict c' ∧ trying c') nothrow.

Lemma startInLoop_run strict c : conr_inv strict c → step_ok strict startInLoop c.
Proof.
  intros Hi. unfold step_ok, startInLoop. apply wp_get.
  destruct (m_started c) eqn:Es; cbn [negb]; [|apply wp_ret; split; [done|intros ?; congruence]].
  case_bool_decide as Hst; [|apply wp_ret; split; [done|intros _ ?; congruence]].
  eapply wp_mono; [by apply connect_run|naive_solver|done].
Qed.

(** The channel is taken out, and the socket handed to the caller, still open. *)
Lemma removeAndResetChannelRaw_run strict c (k : option Z → M Connector ()) Q E : conr_inv strict c →
  (∀ c', c' = set_socket None (set_channel None (set_functors (functors c') c)) →
    (∃ ds, functors c' = functors c ++ (FDelete <$> ds)) → wp (k (m_socket c)) c' Q E) →
  wp (bind removeAndResetChannelRaw k) c Q E.
Proof.
  intros Hi Hk. unfold removeAndResetChannelRaw, queueInLoop. apply wp_bind, wp_get.
  destruct (m_channel c) as [fd|] eqn:Ec.
  - eapply wp_run_seq; [reflexivity|]. apply wp_modify_seq. apply wp_ret, Hk; [done|by exists [fd]].
  - eapply wp_run_seq; [reflexivity|]. apply wp_modify_seq. apply wp_ret, Hk.
    + destruct c; cbn in *. by subst.
    + exists []. by rewrite app_nil_r.
Qed.

(** The state once the socket of the attempt is closed *)
Definition closed (fs : list Functor) (c : Connector) : Connector :=
  set_kernel (answers c) (nextFd c) (opened c ∖ as_set (m_socket c))
    (set_socket None (set_channel None (set_functors fs c))).

Lemma closed_inv strict c fs st : conr_inv strict c → st ≠ Connecting →
  conr_inv strict (set_state st (closed fs c)).
Proof.
  intros [H1 H2 H3 Ha H4 [H5 H5'] H6 H7 H8 H9] Hst. split; cbn; try done.
  - rewrite H3. destruct (m_socket c) as [fd|]; cbn; [specialize (Ha fd eq_refl)|]; set_solver.
  - intros fd Hfd. apply H4. set_solver.
  - split; [done|]. intros fd Hfd. specialize (H5' fd Hfd). set_solver.
  - intros Hs. split; [by apply H9|by intros [? [=]]].
Qed.

Lemma close_eq c fs st :
  close (m_socket c) (set_state st (set_socket None (set_channel None (set_functors fs c))))
  = (Ok tt, set_state st (closed fs c)).
Proof.
  unfold close, closed, modify. destruct (m_socket c) as [fd|]; cbn [as_set]; [done|].
  rewrite difference_empty_L. by destruct c.
Qed.

(** The same without a change of state *)
Lemma close_eq_same c c' : c' = set_socket None (set_channel None (set_functors (functors c') c)) →
  close (m_socket c) c' = (Ok tt, set_state (m_state c) (closed (functors c') c)).
Proof. intros ->. etransitivity; [|by apply close_eq]. by destruct c. Qed.

Lemma stopInLoop_run strict c : conr_inv strict c →
  wp stopInLoop c (λ _ c', conr_inv strict c' ∧ m_started c' = false ∧ timers c' = timers c ∧
    m_state c' ≠ Connecting) nothrow.
Proof.
  intros Hi. unfold stopInLoop. apply wp_modify_seq, wp_get.
  assert (Hi0 : conr_inv strict (set_started false c)) by by destruct Hi.
  assert (Hs : m_started (set_started false c) = false) by done.
  change (timers c) with (timers (set_started false c)).
  generalize dependent (set_started false c). clear c Hi. intros c Hi Hs.
  case_bool_decide as Hst; [|case_bool_decide as Hc; [|by apply wp_ret]];
    apply (removeAndResetChannelRaw_run strict); try done; intros c' Hc' _.
  - apply wp_modify_seq. rewrite Hc'. eapply wp_run; [by apply close_eq|].
    split; [by apply closed_inv|done].
  - eapply wp_run; [by apply close_eq_same|]. split; [by apply closed_inv|done].
Qed.

(** The destructor: only dangling sockets are left. *)
Lemma destroy_run strict c : conr_inv strict c →
  wp Connector_destroy c (λ _ c', timers c' = [] ∧ m_started c' = false ∧
    (strict = true → opened c' = ∅)) nothrow.
Proof.
  intros Hi. unfold Connector_destroy. eapply wp_seq; [by apply (cancelRetry_run strict)|].
  intros [] c1 (Hi1 & Ht & _).
  eapply wp_seq; [by apply (stopInLoop_run strict)|]. intros [] c2 (Hi2 & Hs & Ht2 & Hst).
  apply wp_modify_seq, wp_modify. cbn. split_and!; [congruence|done|]. intros Es.
  rewrite (cn_opened _ _ Hi2). destruct (cn_strict _ _ Hi2 Es) as [-> Hc]. rewrite (cn_channel _ _ Hi2) in Hc.
  destruct (m_socket c2) as [fd|]; [|set_solver]. by destruct Hst, Hc.
Qed.

Lemma close_retry_run strict c c' : conr_inv strict c →
  c' = set_socket None (set_channel None (set_functors (functors c') c)) →
  step_ok strict (close (m_socket c);;; retry) c'.
Proof.
  intros Hi Hc'. unfold step_ok. eapply wp_run_seq; [by apply close_eq_same|].
  eapply wp_mono; [apply retry_run, (closed_inv _ _ _ Disconnected Hi); done|naive_solver|done].
Qed.

Lemma handleError_run strict c : conr_inv strict c → trying c → step_ok strict handleError c.
Proof.
  intros Hi Ht. unfold step_ok, handleError. apply wp_get. case_bool_decide; cbn [negb]; [|by apply wp_ret].
  apply (removeAndResetChannelRaw_run strict); [done|]. intros c' Hc' _. by apply close_retry_run.
Qed.

Lemma connected_trying c : m_state c = Connected → trying c.
Proof. intros H _ ?. congruence. Qed.

(** The connection is made: the socket goes to the callback. *)
Lemma deliver_inv strict c fs fd : conr_inv strict c → m_socket c = Some fd →
  conr_inv strict (set_ghost (delivered c ++ [fd]) (dangling c) (gave_up c)
    (set_state Connected (closed fs c))).
Proof.
  intros Hi Hfd. pose proof (closed_inv strict c fs Connected Hi ltac:(done)) as [H1 H2 H3 Ha H4 H5 H6 H7 H8 H9].
  assert (Hin : fd ∈ opened c) by (rewrite (cn_opened _ _ Hi), Hfd; cbn; set_solver).
  pose proof (cn_fresh _ _ Hi fd ltac:(auto)) as Hlt. destruct (cn_delivered _ _ Hi) as [Hn Hd].
  split; cbn; cbn in *; try done.
  - intros x [Hx|[Hx| ->%list_elem_of_singleton]%elem_of_app]; auto.
  - split.
    + apply NoDup_app. split_and!; [done|set_solver|apply NoDup_singleton].
    + intros x [Hx| ->%list_elem_of_singleton]%elem_of_app; [by apply H5|]. rewrite Hfd. cbn. set_solver.
Qed.

Lemma set_delays_inv strict i m d c : conr_inv strict c → 0 < i ≤ d ∧ d ≤ m ≤ delay_limit →
  conr_inv strict (set_delays i m d c).
Proof. intros [] Hd. by split. Qed.

Lemma handleWrite_delivers strict c fd : conr_inv strict c → m_state c = Connecting → m_socket c = Some fd →
  m_started c = true → m_newConnectionCallback c = true →
  wp (handleWrite 0 false) c (λ _ c', conr_inv strict c' ∧ m_state c' = Connected ∧
    delivered c' = delivered c ++ [fd] ∧ m_retryDelayMs c' = m_initialRetryDelayMs c ∧ timers c' = timers c) nothrow.
Proof.
  intros Hi Hst Hfd Hs Hcb. unfold handleWrite. apply wp_get. rewrite bool_decide_true by done. cbn [negb].
  apply (removeAndResetChannelRaw_run strict); [done|]. intros c' Hc' _. cbn [Z.eqb negb].
  apply wp_modify_seq, wp_get, wp_modify_seq. rewrite Hfd, Hc'. cbn [set_state m_started m_newConnectionCallback].
  cbn [set_socket set_channel set_functors m_started m_newConnectionCallback]. rewrite Hs, Hcb.
  apply wp_modify. split_and!; try done. pose proof (cn_delays _ _ Hi) as Hd.
  pose proof (deliver_inv strict c (functors c') fd Hi Hfd) as Hdl. unfold closed in Hdl. rewrite Hfd in Hdl.
  by apply (set_delays_inv _ (m_initialRetryDelayMs c) (m_maxRetryDelayMs c) (m_initialRetryDelayMs c))
    in Hdl; [|lia].
Qed.

Lemma handleWrite_run strict err self c : conr_inv strict c → trying c → step_ok strict (handleWrite err self) c.
Proof.
  intros Hi Ht. unfold step_ok, handleWrite. apply wp_get.
  case_bool_decide as Hst; cbn [negb]; [|by apply wp_ret].
  destruct (cn_connecting _ _ Hi Hst) as [fd Hfd].
  apply (removeAndResetChannelRaw_run strict); [done|]. intros c' Hc' _.
  destruct (negb (err =? 0)); [by apply close_retry_run|]. destruct self; [by apply close_retry_run|].
  apply wp_modify_seq, wp_get, wp_modify_seq. rewrite Hfd.
  pose proof (cn_delays _ _ Hi) as Hd. rewrite Hc'. cbn [set_state m_started m_newConnectionCallback].
  destruct (_ && _); apply wp_modify; (split; [|by apply connected_trying]).
  - pose proof (deliver_inv strict c (functors c') fd Hi Hfd) as Hdl. unfold closed in Hdl. rewrite Hfd in Hdl.
    by apply (set_delays_inv _ (m_initialRetryDelayMs c) (m_maxRetryDelayMs c) (m_initialRetryDelayMs c))
      in Hdl; [|lia].
  - pose proof (closed_inv strict c (functors c') Connected Hi ltac:(done)) as Hdl.
    unfold closed in Hdl. rewrite Hfd in Hdl.
    by apply (set_delays_inv _ (m_initialRetryDelayMs c) (m_maxRetryDelayMs c) (m_initialRetryDelayMs c))
      in Hdl; [|cbn; lia].
Qed.

(** Changes that the invariant does not look at *)
Lemma set_functors_inv strict fs c : conr_inv strict c → conr_inv strict (set_functors fs c).
Proof. by intros []. Qed.
Lemma set_started_inv strict b c : conr_inv strict c → conr_inv strict (set_started b c).
Proof. by intros []. Qed.
Create HintDb conr.
#[local] Hint Resolve set_functors_inv set_started_inv set_delays_inv : conr.

(** The loop takes the timer off before it calls it. *)
Lemma timer_due_inv strict c t ts : conr_inv strict c → timers c = t :: ts →
  conr_inv strict (set_timer (m_retryTimerId c) ts (nextTimerId c) c).
Proof.
  intros [] Et. split; try done; cbn; rewrite Et in *; [left; naive_solver|].
  destruct cn_timers0 as [[=]|(d & [= _ ->] & _)]. naive_solver.
Qed.

Lemma stopped_trying c : m_started c = false → trying c.
Proof. intros H ?. congruence. Qed.

Lemma stop_run strict c : conr_inv strict c → step_ok strict stop c.
Proof.
  intros Hi. unfold step_ok, stop. apply wp_modify_seq.
  eapply wp_seq; [apply (cancelRetry_run strict); auto with conr|].
  intros [] c1 (Hi1 & _ & _ & (Hs & _) & _). apply wp_modify.
  split; [auto with conr|by apply stopped_trying].
Qed.

Lemma restart_run strict c : conr_inv strict c → step_ok strict restart c.
Proof.
  intros Hi. unfold step_ok, restart.
  eapply wp_seq; [by apply (cancelRetry_run strict)|].
  intros [] c1 (Hi1 & _). pose proof (cn_delays _ _ Hi1) as Hd.
  apply wp_modify_seq, wp_modify_seq, wp_modify. split.
  - apply set_functors_inv, set_started_inv, set_delays_inv; [done|lia].
  - intros _ _. right; right; left. cbn. set_solver.
Qed.

Lemma setRetryDelayMs_run strict i m c : conr_inv strict c → trying c → event_ok (ESetRetryDelayMs i m) = true →
  step_ok strict (setRetryDelayMs i m) c.
Proof.
  intros Hi Ht [Hi1%Z.leb_le Hm%Z.leb_le]%andb_true_iff. unfold delay_limit in *. apply wp_modify. split; [|done].
  apply set_delays_inv; [done|]. unfold delay_limit.
  destruct (Z.leb_spec i 0); case_match eqn:Hlt; apply Z.ltb_lt in Hlt || apply Z.ltb_ge in Hlt; lia.
Qed.

Lemma functor_run strict f c : conr_inv strict c →
  (strict = true → f = FRestart → m_state c ≠ Connecting) → (f = FStart ∨ f = FRestart ∨ trying c) →
  step_ok strict (run_functor f) c.
Proof.
  intros Hi Hs Ht. destruct f; cbn [run_functor].
  - by apply startInLoop_run.
  - eapply wp_mono; [by apply stopInLoop_run| |done]. intros [] c' (Hi' & Hst & _). split; [done|by apply stopped_trying].
  - apply wp_modify_seq, startInLoop_run. destruct Hi. split; try done. intros Es.
    destruct (cn_strict0 Es) as [Hd Hc]. split; [done|]. intros Hch. by destruct (Hs Es eq_refl (Hc Hch)).
  - apply wp_ret. split; [done|]. naive_solver.
Qed.

Lemma run_event_run strict e c : conr_inv strict c → trying c → event_ok e = true →
  (strict = true → restarts_now e c = false) → step_ok strict (run_event e) c.
Proof.
  intros Hi Ht He Hr. destruct e as [| | | |i m| | |err self|]; cbn [run_event].
  - unfold step_ok, start. apply wp_modify_seq, startInLoop_run. auto with conr.
  - apply wp_modify_seq, wp_modify. split; [auto with conr|]. intros _ _. right; left. cbn. set_solver.
  - by apply stop_run.
  - by apply restart_run.
  - by apply setRetryDelayMs_run.
  - apply wp_get. cbn [restarts_now] in Hr. destruct (functors c) as [|f fs] eqn:Ef; [by apply wp_ret|].
    apply wp_modify_seq, functor_run; [auto with conr|..].
    + intros Es ->. cbn. by specialize (Hr Es); case_bool_decide.
    + destruct f; auto; right; right; intros Hst Hd; destruct (Ht Hst Hd) as [?|Hf]; auto;
        rewrite Ef, !elem_of_cons in Hf; cbn; intuition congruence.
  - apply wp_get. destruct (timers c) as [|t ts] eqn:Et; [by apply wp_ret|].
    apply wp_modify_seq, startInLoop_run. by eapply timer_due_inv.
  - apply wp_get. case_bool_decide; [by apply handleWrite_run|by apply wp_ret].
  - apply wp_get. case_bool_decide; [by apply handleError_run|by apply wp_ret].
Qed.

Lemma run_events_run strict es c : conr_inv strict c → trying c → forallb event_ok es = true →
  (strict = true → restarts_ok es c = true) → step_ok strict (run_events es) c.
Proof.
  revert c. induction es as [|e es IH]; intros c Hi Ht He Hr; cbn [run_events]; [by apply wp_ret|].
  cbn in He. apply andb_true_iff in He as [He Hes].
  destruct (wp_inv _ _ _ (run_event_run strict e c Hi Ht He ltac:(intros Hs; specialize (Hr Hs); cbn in Hr;
    by destruct (restarts_now e c)))) as ([] & c1 & E & Hi1 & Ht1).
  eapply wp_run_seq; [exact E|]. apply IH; try done.
  intros Hs. specialize (Hr Hs). cbn in Hr. rewrite E in Hr. by apply andb_true_iff in Hr as [_ Hr].
Qed.

Lemma make_inv strict cbset ans : conr_inv strict (Connector_make cbset ans) ∧ trying (Connector_make cbset ans).
Proof.
  split; [|done]. split; cbn; unfold delay_limit; try done; try lia; try set_solver.
  split; [constructor|set_solver].
Qed.

(** ** Backing off *)

(** The server refuses the attempt that [startInLoop] makes. *)
Lemma refused_run c answer rest : conr_inv true c → m_started c = true → m_state c = Disconnected →
  answers c = answer :: rest → retried answer = true →
  wp startInLoop c (λ _ c', conr_inv true c' ∧ m_state c' = Disconnected ∧
    same_rest (set_kernel rest (nextFd c + 1) (opened c) c) c' ∧
    timers c' = [(m_retryTimerId c', m_retryDelayMs c)] ∧
    m_retryDelayMs c' = next_delay (m_retryDelayMs c) (m_maxRetryDelayMs c)) nothrow.
Proof.
  intros Hi Hs Hst Ha Hr. unfold startInLoop. apply wp_get. rewrite Hs, bool_decide_true by done. cbn [negb].
  apply connect_cases; rewrite Ha; cbn [default head tail from_option id]; [|by rewrite Hr|].
  { intros Hp. unfold retried in Hr. by rewrite Hp in Hr. }
  intros _. apply (failed_run true); [done|]. intros c1 Hi1 ((Hs1 & Hr1) & Hst1 & Hd1).
  eapply wp_mono; [apply (retry_run true)| |done].
  { rewrite Hst in Hst1. by destruct c1; cbn in *; subst. }
  intros [] c2 (Hi2 & _ & Hst2 & Hr2 & Hd2). unfold same_rest in *. cbn in *.
  rewrite Hd1 in Hd2. destruct (Hd2 ltac:(congruence)) as [-> ->].
  destruct Hr1 as (? & ? & ? & ? & ? & ? & ?), Hr2 as (? & ? & ? & ? & ? & ? & ? & ?).
  split_and!; try done; congruence.
Qed.

(** The delay before the attempt that follows [k] refused ones *)
Definition backoff (initial max : Z) (k : nat) : Z := Z.min (initial * 2 ^ Z.of_nat k) max.

Lemma backoff_next initial max k : 0 < initial ≤ max →
  next_delay (backoff initial max k) max = backoff initial max (S k).
Proof.
  intros H. unfold backoff, next_delay. rewrite Nat2Z.inj_succ, Z.pow_succ_r by lia.
  assert (0 < 2 ^ Z.of_nat k) by (apply Z.pow_pos_nonneg; lia).
  destruct (Z.ltb_spec (Z.min (initial * 2 ^ Z.of_nat k) max) max); nia.
Qed.

Lemma timer_refused_run k c answers0 rest : conr_inv true c → m_started c = true → m_state c = Disconnected →
  answers c = answers0 ++ rest → length answers0 = k → forallb retried answers0 = true →
  (∃ id d, timers c = [(id, d)]) → ∀ n, m_retryDelayMs c = backoff (m_initialRetryDelayMs c) (m_maxRetryDelayMs c) n →
  wp (run_events (replicate k ETimer)) c (λ _ c', conr_inv true c' ∧ m_state c' = Disconnected ∧
    same_rest (set_kernel rest (nextFd c + Z.of_nat k) (opened c) c) c' ∧
    (∃ id, timers c' = match k with
                       | O => timers c
                       | S j => [(id, backoff (m_initialRetryDelayMs c) (m_maxRetryDelayMs c) (n + j))]
                       end) ∧
    m_retryDelayMs c' = backoff (m_initialRetryDelayMs c) (m_maxRetryDelayMs c) (n + k)) nothrow.
Proof.
  revert c answers0. induction k as [|k IH]; intros c as0 Hi Hs Hst Ha Hl Hall (id & d & Et) n Hn.
  { destruct as0; [|done]. apply wp_ret. cbn [replicate]. rewrite Nat.add_0_r. split_and!; try done.
    unfold same_rest. cbn. split_and!; try done. lia. }
  destruct as0 as [|a as0]; [done|]. cbn in Hall. apply andb_true_iff in Hall as [Hr Hall].
  pose proof (cn_delays _ _ Hi) as Hd. cbn [replicate run_events run_event]. apply wp_bind, wp_get. rewrite Et.
  apply wp_modify_seq. eapply wp_mono.
  { apply (refused_run _ a (as0 ++ rest)); try done. by eapply timer_due_inv. }
  2: done.
  intros [] c1 (Hi1 & Hst1 & Hr1 & Et1 & Hd1). unfold same_rest in Hr1. cbn in Hr1, Et1, Hd1.
  destruct Hr1 as (R1 & R2 & R3 & R4 & R5 & R6 & R7 & R8).
  rewrite Hn, backoff_next in Hd1 by lia.
  eapply wp_mono; [apply (IH c1 as0 Hi1); try done; [congruence|by injection Hl|eauto|]| |done].
  { by rewrite R3, R4. }
  intros [] c2 (Hi2 & Hst2 & Hr2 & [id2 Et2] & Hd2). rewrite R3, R4 in *.
  split_and!; [done|done| | |].
  - unfold same_rest in *. cbn in *. destruct Hr2 as (? & ? & ? & ? & ? & ? & ? & ?).
    split_and!; try congruence. lia.
  - destruct k as [|j].
    + exists (m_retryTimerId c1). rewrite Et2, Et1, Hn, Nat.add_0_r. done.
    + exists id2. rewrite Et2. by rewrite Nat.add_succ_comm.
  - rewrite Hd2. by rewrite Nat.add_succ_comm.
Qed.

Lemma attempt_made strict c : conr_inv strict c → m_started c = true → m_state c = Disconnected →
  wp startInLoop c (λ _ c', nextFd c' = nextFd c + 1) nothrow.
Proof.
  intros Hi Hs Hst. unfold startInLoop. apply wp_get. rewrite Hs, bool_decide_true by done. cbn [negb].
  apply connect_cases; intros _; [done|intros _|]; apply (failed_run strict); try done;
    intros c1 Hi1 (Hr & Hst1 & _); unfold same_rest in Hr; cbn in Hr.
  - apply wp_modify. cbn. tauto.
  - eapply wp_mono; [apply (retry_run strict)| |done].
    + rewrite Hst in Hst1. by destruct c1; cbn in *; subst.
    + intros [] c2 (_ & _ & _ & Hr2 & _). unfold same_rest in Hr2.
      destruct Hr as (_ & _ & _ & _ & _ & <- & _), Hr2 as (_ & _ & _ & _ & _ & -> & _). done.
Qed.

(** After [Connected] only [restart] makes another attempt. *)
Definition settled (c : Connector) : Prop := m_state c = Connected ∧ FRestart ∉ functors c.

Definition keeps (n : Z) (c' : Connector) : Prop := settled c' ∧ nextFd c' = n.

Lemma cancelRetry_keeps c : settled c → wp cancelRetry c (λ _ c', keeps (nextFd c) c') nothrow.
Proof. intros Hc. unfold cancelRetry. apply wp_get. by destruct (negb _); [apply wp_modify_seq, wp_modify|apply wp_ret]. Qed.

Lemma removeAndResetChannelRaw_keeps c (k : option Z → M Connector ()) Q E : settled c →
  (∀ c', keeps (nextFd c) c' → ∀ sock, wp (k sock) c' Q E) → wp (bind removeAndResetChannelRaw k) c Q E.
Proof.
  intros [Hs Hf] Hk. unfold removeAndResetChannelRaw, queueInLoop. apply wp_bind, wp_get.
  destruct (m_channel c) as [fd|]; (eapply wp_run_seq; [reflexivity|]); apply wp_modify_seq; apply wp_ret, Hk;
    repeat split; cbn; try done. rewrite elem_of_app, list_elem_of_singleton. naive_solver.
Qed.

Lemma close_keeps sock c n : keeps n c → wp (close sock) c (λ _ c', keeps n c') nothrow.
Proof. intros H. apply wp_modify. by destruct sock. Qed.

Lemma stopInLoop_keeps c : settled c → wp stopInLoop c (λ _ c', keeps (nextFd c) c') nothrow.
Proof.
  intros [Hs Hf]. unfold stopInLoop. apply wp_modify_seq, wp_get. cbn [m_state set_started].
  rewrite bool_decide_false by congruence. case_bool_decide; [|by apply wp_ret].
  apply removeAndResetChannelRaw_keeps; [done|]. intros c' Hc' sock. by apply close_keeps.
Qed.

Lemma run_event_keeps e c : settled c → e ≠ ERestart →
  wp (run_event e) c (λ _ c', keeps (nextFd c) c') nothrow.
Proof.
  intros Hc He. pose proof Hc as [Hs Hf].
  assert (Hq : ∀ f c1, keeps (nextFd c) c1 → f ≠ FRestart → wp (queueInLoop f) c1 (λ _ c', keeps (nextFd c) c') nothrow).
  { intros f c1 [[Hs1 Hf1] Hn] Hfr. apply wp_modify. repeat split; cbn; try done.
    rewrite elem_of_app, list_elem_of_singleton. naive_solver. }
  assert (Hst : ∀ c1, keeps (nextFd c) c1 → wp startInLoop c1 (λ _ c', keeps (nextFd c) c') nothrow).
  { intros c1 Hc1. pose proof Hc1 as [[Hs1 _] _]. unfold startInLoop. apply wp_get.
    rewrite (bool_decide_false (m_state c1 = _)) by congruence. by destruct (negb _); apply wp_ret. }
  destruct e as [| | | |i m| | |err self|]; cbn [run_event].
  - by apply wp_modify_seq, Hst.
  - by apply wp_modify_seq, Hq.
  - unfold stop. apply wp_modify_seq. eapply wp_seq; [by apply cancelRetry_keeps|].
    intros [] c1 Hc1. by apply Hq.
  - done.
  - by apply wp_modify.
  - apply wp_get. destruct (functors c) as [|f fs] eqn:Ef; [by apply wp_ret|]. rewrite elem_of_cons in Hf.
    assert (keeps (nextFd c) (set_functors fs c)) as Hk by (repeat split; cbn; naive_solver).
    apply wp_modify_seq. destruct f; cbn [run_functor].
    + by apply Hst.
    + exact (stopInLoop_keeps (set_functors fs c) (proj1 Hk)).
    + naive_solver.
    + by apply wp_ret.
  - apply wp_get. destruct (timers c); [by apply wp_ret|]. by apply wp_modify_seq, Hst.
  - apply wp_get. unfold handleWrite. case_bool_decide; [|by apply wp_ret]. apply wp_get.
    rewrite bool_decide_false by congruence. by apply wp_ret.
  - apply wp_get. unfold handleError. case_bool_decide; [|by apply wp_ret]. apply wp_get.
    rewrite bool_decide_false by congruence. by apply wp_ret.
Qed.

Lemma run_events_keeps es c : settled c → ERestart ∉ es →
  wp (run_events es) c (λ _ c', keeps (nextFd c) c') nothrow.
Proof.
  revert c. induction es as [|e es IH]; intros c Hc He; cbn [run_events]; [by apply wp_ret|].
  rewrite elem_of_cons in He. eapply wp_seq; [apply run_event_keeps; [done|naive_solver]|].
  intros [] c1 [Hc1 <-]. apply IH; [done|naive_solver].
Qed.

(** The first attempt is refused. *)
Lemma first_refused_run i m answer rest cbset : 0 < i ≤ m ∧ m ≤ delay_limit → retried answer = true →
  wp (run_events [ESetRetryDelayMs i m; EStart]) (Connector_make cbset (answer :: rest)) (λ _ c',
    conr_inv true c' ∧ m_state c' = Disconnected ∧ m_started c' = true ∧ answers c' = rest ∧ nextFd c' = 1 ∧
    delivered c' = [] ∧ m_newConnectionCallback c' = cbset ∧ m_initialRetryDelayMs c' = i ∧
    m_maxRetryDelayMs c' = m ∧ m_retryDelayMs c' = backoff i m 1 ∧ ∃ id, timers c' = [(id, i)]) nothrow.
Proof.
  intros Him Hr. cbn [run_events run_event]. apply wp_modify_seq.
  rewrite (proj2 (Z.leb_gt i 0)), (proj2 (Z.ltb_ge m i)) by lia.
  unfold start. apply wp_bind, wp_modify_seq.
  eapply wp_mono; [eapply (refused_run _ answer rest); try done|..].
  { apply set_started_inv, set_delays_inv; [apply make_inv|lia]. }
  2: done.
  intros [] c1 (Hi1 & Hst1 & Hr1 & Et1 & Hd1). unfold same_rest in Hr1. cbn in Hr1, Et1, Hd1.
  destruct Hr1 as (R1 & R2 & R3 & R4 & R5 & R6 & R7 & R8). apply wp_ret. split_and!; try done; [|eauto].
  rewrite Hd1, <- backoff_next by lia. f_equal. unfold backoff. cbn. lia.
Qed.

(** No attempt, no socket. *)
Lemma idle_opened c : conr_inv true c → m_state c ≠ Connecting → opened c = ∅.
Proof.
  intros Hi Hst. destruct (cn_strict _ _ Hi eq_refl) as [Hd Hc].
  rewrite (cn_opened _ _ Hi), Hd, <- (cn_channel _ _ Hi). destruct (m_channel c); [|set_solver].
  by destruct Hst, Hc.
Qed.

(** The attempt of the retry timer succeeds. *)
Lemma accepted_run c id d rest : conr_inv true c → m_started c = true → m_state c = Disconnected →
  m_newConnectionCallback c = true → answers c = (false, 115) :: rest → timers c = [(id, d)] →
  opened c = ∅ ∧ ∃ c', run_events [ETimer; EWritable 0 false] c = (Ok tt, c') ∧ m_state c' = Connected ∧
    delivered c' = delivered c ++ [nextFd c] ∧ m_retryDelayMs c' = m_initialRetryDelayMs c ∧ opened c' = ∅ ∧
    timers c' = [].
Proof.
  intros Hi Hs Hst Hcb Ha Ht. split; [apply idle_opened; congruence|].
  destruct (wp_inv (run_events [ETimer; EWritable 0 false]) c (λ _ c', m_state c' = Connected ∧
    delivered c' = delivered c ++ [nextFd c] ∧ m_retryDelayMs c' = m_initialRetryDelayMs c ∧ opened c' = ∅ ∧
    timers c' = [])) as ([] & c' & E & H); [|eauto].
  cbn [run_events]. eapply wp_seq.
  { apply wp_get. rewrite Ht. apply wp_modify_seq. unfold startInLoop. apply wp_get.
    cbn [m_started m_state set_timer]. rewrite Hs, bool_decide_true by done. cbn [negb].
    apply connect_cases; cbn [answers set_timer]; rewrite Ha; [intros _|done..].
    apply (connecting_run true); [by eapply timer_due_inv|done]. }
  intros [] c1 (Hi1 & Hst1 & Hc1 & Ht1 & Hd1 & Hs1 & Hcb1 & Hn1). cbn in *.
  eapply wp_seq.
  { apply wp_get. rewrite bool_decide_true by by rewrite Hc1.
    apply (handleWrite_delivers true _ (nextFd c)); try congruence. by rewrite <- (cn_channel _ _ Hi1). }
  intros [] c2 (Hi2 & Hst2 & Hd2 & Hm2 & Ht2). apply wp_ret. split_and!; try congruence.
  apply idle_opened; congruence.
Qed.

Lemma run_events_app es es' c : run_events (es ++ es') c = bind (run_events es) (λ _, run_events es') c.
Proof.
  revert c. induction es as [|e es IH]; intros c; cbn [run_events app]; [done|].
  rewrite bind_assoc. unfold bind at 1 2. by destruct (run_event e c) as [[] c1].
Qed.

(** ** What an owner sees of a step *)

(** A step that starts in [Connected] stays there, and only one that ends there delivers. *)
Record moves (started : bool) (c c' : Connector) : Prop := {
  mv_functors : ∃ ds, functors c' = functors c ++ (FDelete <$> ds);
  mv_callback : m_newConnectionCallback c' = m_newConnectionCallback c;
  mv_started : m_started c' = started;
  mv_connected : m_state c = Connected → m_state c' = Connected ∧ delivered c' = delivered c;
  mv_delivers : m_state c ≠ Connected →
    m_state c' ≠ Connected ∧ delivered c' = delivered c ∨
    m_state c' = Connected ∧ (delivered c' = delivered c ∧ m_started c && m_newConnectionCallback c = false ∨
      m_started c = true ∧ ∃ fd, delivered c' = delivered c ++ [fd]);
}.

Lemma moves_refl c : moves (m_started c) c c.
Proof. split; auto. exists []. by rewrite app_nil_r. Qed.

(** Steps that leave the functors and the rest alone and fail to connect *)
Lemma moves_rest c c' : same_rest c c' → m_state c ≠ Connected → m_state c' ≠ Connected →
  moves (m_started c) c c'.
Proof. intros (H1 & H2 & _ & _ & _ & _ & H3 & H4) Hc Hc'. split; try done; [|by left]. exists []. by rewrite app_nil_r. Qed.

Lemma startInLoop_quiet strict c : conr_inv strict c →
  wp startInLoop c (λ _ c', moves (m_started c) c c' ∧ delivered c' = delivered c) nothrow.
Proof.
  intros Hi. unfold startInLoop. apply wp_get.
  destruct (m_started c) eqn:Es; cbn [negb]; [|apply wp_ret; rewrite <- Es; auto using moves_refl].
  case_bool_decide as Hst; [|apply wp_ret; rewrite <- Es; auto using moves_refl].
  assert (Hmv : ∀ k c', same_rest (set_kernel k (nextFd c + 1) (opened c) c) c' → m_state c' ≠ Connected →
    moves true c c' ∧ delivered c' = delivered c).
  { intros k c' Hr Hc'. rewrite <- Es. destruct Hr as (H1 & H2 & _ & _ & _ & _ & H3 & H4). cbn in *.
    split; [|done]. split; try done; [exists []; by rewrite app_nil_r|congruence|by left]. }
  apply connect_cases; intros _; [|intros _|].
  - unfold connecting, setState. do 3 apply wp_modify_seq. apply wp_modify.
    split; [|done]. split; cbn; try done; [exists []; by rewrite app_nil_r|congruence|by left].
  - apply (failed_run strict); [done|]. intros c' _ (Hr & Hst' & _). apply wp_modify. eapply Hmv; [exact Hr|cbn; congruence].
  - apply (failed_run strict); [done|]. intros c1 Hi1 (Hr & Hst1 & _).
    eapply wp_mono; [apply (retry_run strict)| |done].
    + rewrite Hst in Hst1. by destruct c1; cbn in *; subst.
    + intros [] c2 (_ & _ & Hst2 & Hr2 & _). eapply (Hmv (tail (answers c))); [|congruence].
      unfold same_rest in *. cbn in *. destruct Hr as (? & ? & ? & ? & ? & ? & ? & ?), Hr2 as (? & ? & ? & ? & ? & ? & ? & ?).
      split_and!; congruence.
Qed.

Lemma startInLoop_moves strict c : conr_inv strict c → wp startInLoop c (λ _ c', moves (m_started c) c c') nothrow.
Proof. intros Hi. eapply wp_mono; [by apply (startInLoop_quiet strict)|naive_solver|done]. Qed.

Lemma closed_moves c fs ds st : fs = functors c ++ (FDelete <$> ds) →
  (m_state c = Connected ↔ st = Connected) → moves (m_started c) c (set_state st (closed fs c)).
Proof. intros Hf Hst. split; cbn; try done; [by exists ds|tauto|]. intros Hc. left. tauto. Qed.

Lemma close_retry_moves strict c c' ds : conr_inv strict c → m_state c = Connecting →
  c' = set_socket None (set_channel None (set_functors (functors c') c)) →
  functors c' = functors c ++ (FDelete <$> ds) →
  wp (close (m_socket c);;; retry) c' (λ _ c', moves (m_started c) c c') nothrow.
Proof.
  intros Hi Hst Hc' Hf. eapply wp_run_seq; [by apply close_eq_same|].
  eapply wp_mono; [apply (retry_run strict), (closed_inv _ _ _ Disconnected Hi); done| |done].
  intros [] c2 (_ & _ & Hst2 & (H1 & H2 & _ & _ & _ & _ & H3 & H4) & _). cbn in *.
  split; try done; [exists ds; congruence|congruence|left; split; congruence].
Qed.

Lemma handleWrite_moves strict err self c : conr_inv strict c →
  wp (handleWrite err self) c (λ _ c', moves (m_started c) c c') nothrow.
Proof.
  intros Hi. unfold handleWrite. apply wp_get.
  case_bool_decide as Hst; cbn [negb]; [|apply wp_ret, moves_refl].
  destruct (cn_connecting _ _ Hi Hst) as [fd Hfd].
  apply (removeAndResetChannelRaw_run strict); [done|]. intros c' Hc' [ds Hf].
  destruct (negb (err =? 0)); [by eapply close_retry_moves|]. destruct self; [by eapply close_retry_moves|].
  apply wp_modify_seq, wp_get, wp_modify_seq. rewrite Hfd, Hc'. cbn.
  destruct (m_started c && m_newConnectionCallback c) eqn:Ecb; apply wp_modify;
    (split; cbn; [by exists ds|done|done|congruence|]); intros _; right; (split; [done|]); [right|by left].
  apply andb_true_iff in Ecb as [? _]. eauto.
Qed.

Lemma handleError_moves strict c : conr_inv strict c → wp handleError c (λ _ c', moves (m_started c) c c') nothrow.
Proof.
  intros Hi. unfold handleError. apply wp_get. case_bool_decide; cbn [negb]; [|apply wp_ret, moves_refl].
  apply (removeAndResetChannelRaw_run strict); [done|]. intros c' Hc' [ds Hf]. by eapply close_retry_moves.
Qed.

Lemma stopInLoop_moves strict c : conr_inv strict c → wp stopInLoop c (λ _ c', moves false c c') nothrow.
Proof.
  intros Hi. unfold stopInLoop. apply wp_modify_seq, wp_get.
  assert (Hi0 : conr_inv strict (set_started false c)) by by destruct Hi.
  assert (Hmv : ∀ fs ds st, fs = functors c ++ (FDelete <$> ds) → (m_state c = Connected ↔ st = Connected) →
    moves false c (set_state st (closed fs (set_started false c)))).
  { intros fs ds st Hf Hst. split; cbn; try done; [by exists ds|tauto|]. intros Hc. left. tauto. }
  case_bool_decide as Hst; [|case_bool_decide as Hc].
  - apply (removeAndResetChannelRaw_run strict); [done|]. intros c' Hc' [ds Hf].
    apply wp_modify_seq. rewrite Hc'. eapply wp_run; [by apply close_eq|]. apply (Hmv _ ds); [done|].
    cbn in Hst. split; congruence.
  - apply (removeAndResetChannelRaw_run strict); [done|]. intros c' Hc' [ds Hf].
    eapply wp_run; [by apply close_eq_same|]. by apply (Hmv _ ds).
  - apply wp_ret. split; cbn; try done; [exists []; by rewrite app_nil_r|by left].
Qed.

(** What the loop does for the connector *)
Definition loop_event (e : Event) : bool :=
  match e with EFunctor | ETimer | EWritable _ _ | EError => true | _ => false end.

(** The functor that the step runs, and the state in which its effect begins *)
Definition popped (e : Event) (c : Connector) : option Functor :=
  match e with EFunctor => head (functors c) | _ => None end.
Definition begun (e : Event) (c : Connector) : Connector :=
  match e with
  | EFunctor => match functors c with
                | [] => c
                | FRestart :: fs => set_state Disconnected (set_functors fs c)
                | _ :: fs => set_functors fs c
                end
  | _ => c
  end.

Lemma loop_event_moves strict e c : conr_inv strict c → loop_event e = true →
  (strict = true → restarts_now e c = false) →
  wp (run_event e) c (λ _ c', moves (m_started c && negb (bool_decide (popped e c = Some FStop))) (begun e c) c') nothrow.
Proof.
  intros Hi He Hr.
  assert (Hb : m_started c && negb false = m_started c) by apply andb_true_r.
  destruct e as [| | | |i m| | |err self|]; try done; cbn [run_event popped begun]; try rewrite bool_decide_false, Hb by done.
  - apply wp_get. cbn [restarts_now] in Hr. destruct (functors c) as [|f fs] eqn:Ef; cbn [head].
    { rewrite bool_decide_false, Hb by done. apply wp_ret, moves_refl. }
    apply wp_modify_seq. pose proof (set_functors_inv strict fs c Hi) as Hi'.
    destruct f; cbn [run_functor]; [rewrite bool_decide_false, Hb by done|..|].
    + exact (startInLoop_moves strict _ Hi').
    + rewrite bool_decide_true by done. cbn [negb]. rewrite andb_false_r. exact (stopInLoop_moves strict _ Hi').
    + rewrite bool_decide_false, Hb by done. apply wp_modify_seq.
      apply (startInLoop_moves strict (set_state Disconnected (set_functors fs c))). destruct Hi'. split; try done.
      intros Es. destruct (cn_strict0 Es) as [Hd Hc]. split; [done|]. intros Hch.
      specialize (Hr Es). case_bool_decide; [done|]. by destruct (Hc Hch).
    + rewrite bool_decide_false, Hb by done. apply wp_ret. exact (moves_refl (set_functors fs c)).
  - apply wp_get. destruct (timers c) as [|t ts] eqn:Et; [apply wp_ret, moves_refl|].
    apply wp_modify_seq. eapply wp_mono; [apply (startInLoop_moves strict); by eapply timer_due_inv| |done].
    by intros [] c' [].
  - apply wp_get. case_bool_decide; [by apply (handleWrite_moves strict)|apply wp_ret, moves_refl].
  - apply wp_get. case_bool_decide; [by apply (handleError_moves strict)|apply wp_ret, moves_refl].
Qed.

(** A connector that was stopped has nothing more to deliver. *)
Lemma loop_events_stopped es c : conr_inv false c → m_started c = false → forallb loop_event es = true →
  wp (run_events es) c (λ _ c', delivered c' = delivered c) nothrow.
Proof.
  intros Hi Hs He. revert c Hi Hs. induction es as [|e es IH]; intros c Hi Hs; cbn [run_events]; [by apply wp_ret|].
  cbn in He. apply andb_true_iff in He as [He Hes].
  pose proof (run_event_run false e c Hi (stopped_trying c Hs) ltac:(by destruct e) ltac:(done)) as Hr.
  pose proof (loop_event_moves false e c Hi He ltac:(done)) as Hm. unfold step_ok, wp, bind in *.
  destruct (run_event e c) as [[] c']; try done. destruct Hr as [Hi' _].
  destruct Hm as [_ _ H3 H4 H5]. rewrite Hs in H3. cbn in H3.
  assert (Hb : m_started (begun e c) = false ∧ delivered (begun e c) = delivered c).
  { destruct e; try done. cbn. destruct (functors c) as [|[] fs]; done. }
  destruct Hb as [Hb1 Hb2].
  assert (Hd : delivered c' = delivered c).
  { rewrite <- Hb2. destruct (decide (m_state (begun e c) = Connected)) as [Hc|Hc]; [by apply H4|].
    destruct (H5 Hc) as [[_ ?]|[_ [[? _]|[? _]]]]; [done|done|congruence]. }
  rewrite <- Hd. by apply IH.
Qed.

(** ** The theorems *)

(** C22: In every run (any order of start, stop, restart, functors, timers, poller reports and
    answers of the system calls, with delays of at most 2^30 ms) the connector returns from
    every step, and its sockets are accounted for: a socket is open only as the one of the
    attempt under way or because a restart replaced its channel ([dangling]), and those given to
    the callback are distinct and no longer owned.  At most one retry timer is armed, its id is
    the remembered one, and the delay stays between the initial and the maximal one.  If no
    restart runs in the middle of an attempt then nothing dangles, and the destructor closes
    all that is left. *)
Theorem connector_sockets cbset ans es : forallb event_ok es = true →
  ∃ c, run_events es (Connector_make cbset ans) = (Ok tt, c) ∧
    opened c = as_set (m_socket c) ∪ list_to_set (dangling c) ∧
    NoDup (delivered c) ∧ (∀ fd, fd ∈ delivered c → fd ∉ opened c) ∧
    (timers c = [] ∨ ∃ d, timers c = [(m_retryTimerId c, d)] ∧ 0 < d ≤ delay_limit) ∧
    0 < m_initialRetryDelayMs c ≤ m_retryDelayMs c ∧ m_retryDelayMs c ≤ m_maxRetryDelayMs c ∧
    ∃ c', Connector_destroy c = (Ok tt, c') ∧ timers c' = [] ∧ m_started c' = false ∧
      (restarts_ok es (Connector_make cbset ans) = true → dangling c = [] ∧ opened c' = ∅).
Proof.
  intros He. set (strict := restarts_ok es (Connector_make cbset ans)).
  destruct (make_inv strict cbset ans) as [Hi Ht].
  destruct (wp_inv _ _ _ (run_events_run strict es _ Hi Ht He ltac:(done))) as ([] & c & E & Hc & _).
  pose proof Hc as [H1 H2 H3 Ha H4 [H5 H5'] H6 H7 H8 H9]. exists c. split_and!; try done; try tauto.
  destruct (wp_inv _ _ _ (destroy_run strict c Hc)) as ([] & c' & E' & Hd). exists c'. naive_solver.
Qed.

Lemma connector_sockets_witness : ∃ c,
  run_events [EStart; ETimer; EWritable 0 false; ERestart; EFunctor; EFunctor; EStop; EFunctor; EFunctor]
    (Connector_make true [(false, 111); (false, 115); (true, 0)]) = (Ok tt, c) ∧ delivered c = [1] ∧ opened c = ∅.
Proof.
  destruct (connector_sockets true [(false, 111); (false, 115); (true, 0)]
    [EStart; ETimer; EWritable 0 false; ERestart; EFunctor; EFunctor; EStop; EFunctor; EFunctor] eq_refl)
    as (c & E & _).
  exists c. split; [exact E|]. vm_compute in E. injection E as <-. split; reflexivity.
Defined.

(** The connector does not stall: in every run, when it is started, an attempt is under way
    and its channel is there for the poller to report, or a timer or a functor that makes the next
    attempt is pending, or the last attempt failed with an error that is not retried, or it is
    connected; and the retry timer, when it is due, does make an attempt on a new socket. *)
Lemma connector_keeps_trying cbset ans es : forallb event_ok es = true →
  ∃ c, run_events es (Connector_make cbset ans) = (Ok tt, c) ∧
    (m_started c = true →
      match m_state c with
      | Connected => True
      | Connecting => is_Some (m_channel c)
      | Disconnected => timers c ≠ [] ∨ FStart ∈ functors c ∨ FRestart ∈ functors c ∨ gave_up c = true
      end) ∧
    (m_started c = true → m_state c = Disconnected → timers c ≠ [] →
      ∃ c', run_event ETimer c = (Ok tt, c') ∧ nextFd c' = nextFd c + 1).
Proof.
  intros He. destruct (make_inv false cbset ans) as [Hi Ht].
  destruct (wp_inv _ _ _ (run_events_run false es _ Hi Ht He ltac:(done))) as ([] & c & E & Hc & Htc).
  exists c. split_and!; [done|..].
  - intros Hs. destruct (m_state c) eqn:Est; [by apply Htc| |done].
    rewrite (cn_channel _ _ Hc). by apply (cn_connecting _ _ Hc).
  - intros Hs Hst Hts. destruct (timers c) as [|t ts] eqn:Et; [done|].
    destruct (wp_inv (run_event ETimer) c (λ _ c', nextFd c' = nextFd c + 1)) as ([] & c' & E' & Hn); [|eauto].
    apply wp_get. rewrite Et. apply wp_modify_seq.
    apply (attempt_made false (set_timer (m_retryTimerId c) ts (nextTimerId c) c)); [by eapply timer_due_inv|done..].
Qed.

(** Exponential backoff: when the server refuses the first k+1 attempts, the retry timer armed
    after them has delay min(initial * 2^k, max) and no socket is open; when it then accepts, the
    next attempt is made on that timer, its socket goes to the callback, and the delay is the
    initial one again. *)
Lemma connector_backoff i m k refusals rest : 0 < i ≤ m ∧ m ≤ delay_limit →
  length refusals = S k → forallb retried refusals = true →
  ∃ c id, run_events ([ESetRetryDelayMs i m; EStart] ++ replicate k ETimer)
      (Connector_make true (refusals ++ (false, 115) :: rest)) = (Ok tt, c) ∧
    timers c = [(id, backoff i m k)] ∧ opened c = ∅ ∧
    ∃ c', run_events [ETimer; EWritable 0 false] c = (Ok tt, c') ∧ m_state c' = Connected ∧
      delivered c' = [Z.of_nat (S k)] ∧ m_retryDelayMs c' = i ∧ opened c' = ∅ ∧ timers c' = [].
Proof.
  intros Him Hl Hall. destruct refusals as [|a as0]; [done|]. cbn in Hall. apply andb_true_iff in Hall as [Hr Hall].
  destruct (wp_inv _ _ _ (first_refused_run i m a (as0 ++ (false, 115) :: rest) true Him Hr))
    as ([] & c1 & E1 & Hi1 & Hst1 & Hs1 & Ha1 & Hn1 & Hdl1 & Hcb1 & Ei1 & Em1 & Hd1 & id1 & Et1).
  destruct (wp_inv _ _ _ (timer_refused_run k c1 as0 ((false, 115) :: rest) Hi1 Hs1 Hst1 Ha1 ltac:(by injection Hl)
    Hall ltac:(eauto) 1 ltac:(by rewrite Ei1, Em1))) as ([] & c2 & E2 & Hi2 & Hst2 & Hr2 & [id2 Et2] & _).
  unfold same_rest in Hr2. cbn in Hr2. destruct Hr2 as (R1 & _ & R3 & R4 & R5 & R6 & R7 & R8).
  assert (Htm : ∃ id, timers c2 = [(id, backoff i m k)]).
  { rewrite Ei1, Em1 in Et2. destruct k; [|by exists id2]. exists id1. rewrite Et2, Et1. unfold backoff.
    do 3 f_equal. cbn. lia. }
  destruct Htm as [id Htm]. exists c2, id.
  destruct (accepted_run c2 id (backoff i m k) rest) as [Ho Hacc]; try congruence.
  split_and!; try done.
  - rewrite run_events_app. change ((a :: as0) ++ _) with (a :: as0 ++ (false, 115) :: rest).
    unfold bind. by rewrite E1.
  - destruct Hacc as (c' & E' & ? & Hdl & Hd & ? & ?). exists c'. split_and!; try done; [|congruence].
    rewrite Hdl, R7, Hdl1, R6, Hn1. cbn. f_equal. lia.
Qed.

(** Once connected, [start] and [stop] make no further attempt: only [restart] does. *)
Theorem connector_needs_restart c es : settled c → ERestart ∉ es →
  ∃ c', run_events es c = (Ok tt, c') ∧ m_state c' = Connected ∧ nextFd c' = nextFd c.
Proof.
  intros Hc He. destruct (wp_inv _ _ _ (run_events_keeps es c Hc He)) as ([] & c' & E & [[Hs _] Hn]).
  exists c'. by split_and!.
Qed.

(** The double of the delay is not an [int]; a restart in the middle of an attempt leaves the old
    channel with the poller; [stop] followed by [start] in the thread of the loop stops. *)
Theorem connector_corner_cases :
  (run_events [ESetRetryDelayMs (2 ^ 30) (2 ^ 30 + 1); EStart] (Connector_make true [(false, 111)])).1 = Undef ∧
  dangling (run_events [EStart; ERestart; EFunctor] (Connector_make true [(false, 115); (false, 115)])).2 = [0] ∧
  m_started (run_events [EStop; EStart; EFunctor] (Connector_make true [(false, 115)])).2 = false.
Proof. by vm_compute. Qed.
