(* ===== verification/Acceptor.v ===== *)
(** * [dbase::net::Acceptor] and [dbase::net::EventLoopThreadPool] (code/src/net/acceptor.cpp,
    code/src/net/event_loop_thread_pool.cpp)

    The parts that servers share: accepting until the kernel has no more connections, and the
    choice of an I/O loop.  What [accept] answers is a list of the world; a list that has ended
    answers EAGAIN.  The callback runs on the object that holds the acceptor, so [acceptAvailable]
    is written over any state with an acceptor in it. *)

From S2P Require Import Prelude.
From stdpp Require Import base list.
From Stdlib Require Import ZArith Lia.

Local Open Scope Z_scope.

(** ** Accepting *)

(** Error codes of Linux: EAGAIN (EWOULDBLOCK); EINTR; ECONNABORTED, EPROTO, EPERM *)
Definition isWouldBlockError (err : Z) : bool := err =? 11.
Definition isInterruptedError (err : Z) : bool := err =? 4.
Definition isTransientAcceptError (err : Z) : bool := (err =? 103) || (err =? 71) || (err =? 1).

(** What [accept] answers: a peer, or an error. *)
Inductive AcceptAnswer (W : Type) : Type := Peer (w : W) | Fails (err : Z).
Arguments Peer {W} _.
Arguments Fails {W} _.

Record Acceptor (W : Type) : Type := mkAcceptor {
  m_listening : bool;
  m_edgeTriggered : bool;
  m_newConnectionCallback : bool;
  backlog : list (AcceptAnswer W);
}.
Arguments mkAcceptor {W} _ _ _ _.
Arguments m_listening {W} _.
Arguments m_edgeTriggered {W} _.
Arguments m_newConnectionCallback {W} _.
Arguments backlog {W} _.

Section acceptor.
Context {W : Type}.
Implicit Types (a : Acceptor W).

(** The constructor: [setReuseAddr], [setIpv6Only] for IPv6, [setReusePort] if asked for, [bind];
    the arguments are whether the system calls succeed. *)
Definition Acceptor_make (ipv6 reusePort : bool) (setReuseAddr setIpv6Only setReusePort bind : bool)
    : res (Acceptor W) :=
  if negb setReuseAddr then Throw runtime_error
  else if ipv6 && negb setIpv6Only then Throw runtime_error
  else if reusePort && negb setReusePort then Throw runtime_error
  else if negb bind then Throw runtime_error
  else Ok (mkAcceptor false false false []).

Definition setNewConnectionCallback (cb : bool) a : Acceptor W :=
  mkAcceptor (m_listening a) (m_edgeTriggered a) cb (backlog a).
Definition setEdgeTriggered (on : bool) a : Acceptor W :=
  mkAcceptor (m_listening a) on (m_newConnectionCallback a) (backlog a).
Definition set_backlog (l : list (AcceptAnswer W)) a : Acceptor W :=
  mkAcceptor (m_listening a) (m_edgeTriggered a) (m_newConnectionCallback a) l.

(** [accepted] is whether the system call [listen] succeeds. *)
Definition listen (accepted : bool) : M (Acceptor W) () :=
  let! a := get in
  if m_listening a then ret tt
  else if negb accepted then throw runtime_error
  else modify (λ a, mkAcceptor true (m_edgeTriggered a) (m_newConnectionCallback a) (backlog a)).

(** An object of type [Host] with an acceptor in it, whose callback is [newConnection]. *)
Context {Host : Type} (acceptor : Host → Acceptor W) (set_acceptor : Acceptor W → Host → Host).
Context (newConnection : W → M Host ()).

Definition SocketOps_accept : M Host (AcceptAnswer W) :=
  let! s := get in
  match backlog (acceptor s) with
  | [] => ret (Fails 11)
  | ans :: l => modify (set_acceptor (set_backlog l (acceptor s)));;; ret ans
  end.

(** Without a callback the accepted socket is closed at once. *)
Fixpoint acceptAvailable_loop (fuel : nat) (acceptedCount : Z) : M Host Z :=
  match fuel with
  | O => lift NoFuel
  | S fuel =>
      let! ans := SocketOps_accept in
      match ans with
      | Peer w =>
          let! s := get in
          (if m_newConnectionCallback (acceptor s) then newConnection w else ret tt);;;
          acceptAvailable_loop fuel (u64 (acceptedCount + 1))
      | Fails err =>
          if isWouldBlockError err then ret acceptedCount
          else if isInterruptedError err || isTransientAcceptError err then
            acceptAvailable_loop fuel acceptedCount
          else throw runtime_error
      end
  end.

Definition acceptAvailable : M Host Z :=
  let! s := get in
  if negb (m_listening (acceptor s)) then throw logic_error
  else acceptAvailable_loop (S (length (backlog (acceptor s)))) 0.

(** ** What it does

    [accepted l] are the peers before the answer that ends the loop; [fatal l] tells whether that
    answer is an error that is thrown. *)
Fixpoint accepted (l : list (AcceptAnswer W)) : list W :=
  match l with
  | [] => []
  | Peer w :: l => w :: accepted l
  | Fails err :: l =>
      if negb (isWouldBlockError err) && (isInterruptedError err || isTransientAcceptError err)
      then accepted l else []
  end.

Fixpoint fatal (l : list (AcceptAnswer W)) : bool :=
  match l with
  | [] => false
  | Peer _ :: l => fatal l
  | Fails err :: l =>
      if isWouldBlockError err then false
      else if isInterruptedError err || isTransientAcceptError err then fatal l else true
  end.

(** [Q] holds of the peers handed over so far. *)
Context (Q : list W → Host → Prop).
Hypothesis acceptor_set : ∀ a s, acceptor (set_acceptor a s) = a.
Hypothesis Q_skip : ∀ dn err l s, backlog (acceptor s) = Fails err :: l → Q dn s →
  Q dn (set_acceptor (set_backlog l (acceptor s)) s).
Hypothesis callback_run : ∀ dn w l s, backlog (acceptor s) = Peer w :: l → Q dn s →
  wp (newConnection w) (set_acceptor (set_backlog l (acceptor s)) s)
    (λ _ s', Q (dn ++ [w]) s' ∧ acceptor s' = set_backlog l (acceptor s)) nothrow.

Lemma acceptAvailable_loop_run fuel : ∀ n s dn,
  m_newConnectionCallback (acceptor s) = true → (length (backlog (acceptor s)) < fuel)%nat → 0 ≤ n < 2 ^ 64 → Q dn s →
  wp (acceptAvailable_loop fuel n) s
    (λ k s', fatal (backlog (acceptor s)) = false ∧ Q (dn ++ accepted (backlog (acceptor s))) s' ∧
       k = u64 (n + zlen (accepted (backlog (acceptor s)))))
    (λ e s', fatal (backlog (acceptor s)) = true ∧ e = runtime_error ∧
       Q (dn ++ accepted (backlog (acceptor s))) s').
Proof.
  induction fuel as [|fuel IH]; intros n s dn Hcb Hf Hn HQ; [lia|]. cbn [acceptAvailable_loop].
  unfold SocketOps_accept. apply wp_bind, wp_get.
  assert (Hend : u64 (n + zlen ([] : list W)) = n) by (rewrite zlen_nil, Z.add_0_r; by apply wrap_small).
  destruct (backlog (acceptor s)) as [|x l] eqn:E; cbn [accepted fatal length] in *.
  { apply wp_ret. unfold wp, ret. cbn. by rewrite app_nil_r, Hend. }
  apply wp_modify_seq, wp_ret. destruct x as [w|err].
  - apply wp_get. rewrite acceptor_set. cbn [m_newConnectionCallback set_backlog]. rewrite Hcb.
    eapply wp_calm; [by apply callback_run|]. intros [] s2 [HQ2 Ha2]. eapply wp_mono.
    + apply (IH _ _ (dn ++ [w])); rewrite ?Ha2; [done|cbn; lia|apply (wrap_range 64); lia|done].
    + rewrite Ha2. cbn [backlog set_backlog]. rewrite <- app_assoc. intros k s3 (? & ? & ->). split_and!; try done.
      rewrite zlen_cons. unfold u64, wrap. rewrite Zplus_mod_idemp_l. f_equal. lia.
    + rewrite Ha2. cbn [backlog set_backlog]. by rewrite <- app_assoc.
  - pose proof (Q_skip dn err l s E HQ) as HQ'. destruct (isWouldBlockError err); cbn [negb andb].
    { apply wp_ret. by rewrite app_nil_r, Hend. }
    destruct (isInterruptedError err || isTransientAcceptError err).
    + eapply wp_mono; [apply (IH _ _ dn); rewrite ?acceptor_set; [done|cbn; lia|done|done]|..];
        by rewrite acceptor_set.
    + unfold wp, throw. by rewrite app_nil_r.
Qed.

(** Every connection the kernel has is handed to the callback, in the order of arrival, before
    the function returns (or throws, after an error that is not transient). *)
Lemma acceptAvailable_run s : m_listening (acceptor s) = true → m_newConnectionCallback (acceptor s) = true →
  Q [] s →
  wp acceptAvailable s
    (λ k s', fatal (backlog (acceptor s)) = false ∧ Q (accepted (backlog (acceptor s))) s' ∧
       k = u64 (zlen (accepted (backlog (acceptor s)))))
    (λ e s', fatal (backlog (acceptor s)) = true ∧ e = runtime_error ∧ Q (accepted (backlog (acceptor s))) s').
Proof.
  intros Hl Hcb HQ. unfold acceptAvailable. apply wp_get. rewrite Hl. cbn [negb].
  by apply (acceptAvailable_loop_run _ 0 s []); [|lia..|].
Qed.

End acceptor.

(** ** The loops of a server *)

(** Loop 0 is the base loop, the others run in threads of the pool. *)
Record EventLoopThreadPool : Type := mkPool {
  m_threadCount : Z;
  m_loops : list nat;
  m_next : Z;
  m_started : bool;
}.

Definition EventLoopThreadPool_make (threadCount : Z) : EventLoopThreadPool :=
  mkPool threadCount [] 0 false.

(** [startLoop] of a new thread returns its loop. *)
Definition pool_start : M EventLoopThreadPool () :=
  let! p := get in
  if m_started p then throw logic_error
  else put (mkPool (m_threadCount p) (m_loops p ++ seq 1 (Z.to_nat (m_threadCount p))) (m_next p) true).

Definition getNextLoop : M EventLoopThreadPool nat :=
  let! p := get in
  match m_loops p with
  | [] => ret 0%nat
  | _ =>
      match m_loops p !! Z.to_nat (m_next p) with
      | None => undef
      | Some loop =>
          let next := u64 (m_next p + 1) in
          put (mkPool (m_threadCount p) (m_loops p) (if zlen (m_loops p) <=? next then 0 else next) (m_started p));;;
          ret loop
      end
  end.

Definition getLoopForHash (hashCode : Z) (p : EventLoopThreadPool) : res nat :=
  match m_loops p with
  | [] => Ok 0%nat
  | _ => match m_loops p !! Z.to_nat (hashCode mod zlen (m_loops p)) with
         | None => Undef
         | Some loop => Ok loop
         end
  end.

(** A started pool of [n] loops that has been asked [k] times *)
Record pool_at (n : nat) (k : nat) (p : EventLoopThreadPool) : Prop := {
  pool_loops : m_loops p = seq 1 n;
  pool_next : (0 < n)%nat → m_next p = Z.of_nat (k mod n);
  pool_small : Z.of_nat n < 2 ^ 63;
}.

(** The loop of the k-th connection: round robin *)
Definition loop_of (n k : nat) : nat := match n with O => O | _ => S (k mod n) end.

Lemma pool_start_run c : 0 ≤ c < 2 ^ 63 →
  ∃ p, pool_start (EventLoopThreadPool_make c) = (Ok tt, p) ∧ pool_at (Z.to_nat c) 0 p.
Proof.
  intros Hc. eexists. split; [reflexivity|]. split; cbn; [done| |lia].
  intros _. by rewrite Nat.Div0.mod_0_l.
Qed.

Lemma getNextLoop_run n k p : pool_at n k p →
  wp getNextLoop p (λ l p', l = loop_of n k ∧ (l ≤ n)%nat ∧ pool_at n (S k) p') nothrow.
Proof.
  intros [Hl Hn Hs]. unfold getNextLoop. apply wp_get. rewrite Hl.
  destruct n as [|n]; [apply wp_ret; split_and!; [done|done|split; done || lia]|]. specialize (Hn ltac:(lia)).
  assert (Hm : (k mod S n < S n)%nat) by by apply Nat.mod_upper_bound.
  cbn [seq]. change (1%nat :: seq 2 n) with (seq 1 (S n)). rewrite Hn, Nat2Z.id.
  rewrite (lookup_seq_lt 1 (S n) (k mod S n) Hm).
  unfold wp, bind, put, ret. split_and!; [done|unfold loop_of; lia|]. split; cbn [m_loops m_next]; [done|intros _|lia].
  unfold u64. rewrite wrap_small by lia. rewrite zlen_seq.
  pose proof (Nat.Div0.div_mod k (S n)) as Hk.
  destruct (Z.leb_spec (Z.of_nat (S n)) (Z.of_nat (k mod S n) + 1)) as [Hge|Hlt].
  - assert (k mod S n = n)%nat as E by lia. replace (S k) with (0 + (k / S n + 1) * S n)%nat by lia.
    by rewrite Nat.Div0.mod_add, Nat.Div0.mod_0_l.
  - replace (S k) with (S (k mod S n) + (k / S n) * S n)%nat by lia.
    rewrite Nat.Div0.mod_add, (Nat.mod_small (S (k mod S n))) by lia. lia.
Qed.

Lemma getLoopForHash_run n k p h : pool_at n k p → 0 ≤ h →
  ∃ l, getLoopForHash h p = Ok l ∧ (l ≤ n)%nat ∧ l = match n with O => O | _ => S (Z.to_nat (h mod Z.of_nat n)) end.
Proof.
  intros [Hl Hn Hs] Hh. unfold getLoopForHash. rewrite Hl. destruct n as [|n]; [exists O; by split_and!|].
  cbn [seq]. change (1%nat :: seq 2 n) with (seq 1 (S n)). rewrite zlen_seq.
  pose proof (Z.mod_pos_bound h (Z.of_nat (S n)) ltac:(lia)).
  rewrite (lookup_seq_lt 1 (S n)) by lia. eexists. split; [done|lia].
Qed.
