(* ===== verification/Lru.v ===== *)
(** * [dbase::cache::LRUCache] (code/include/dbase/cache/lru_cache.h)

    A recency list of nodes and an index from keys to list iterators.  An iterator is
    the identity of its node; dereferencing one whose node is gone is undefined.  The
    eviction callback is the log of its calls.  Each public operation holds the mutex
    for its whole body, so it is one atomic step; the callback runs under the mutex and
    cannot call back into the cache. *)

From S2P Require Import Prelude Error.
From stdpp Require Import base list gmap strings.
From Stdlib Require Import ZArith Lia.

Local Open Scope Z_scope.

Section lru.
Context {K V : Type} `{Countable K}.

Record node : Type := mkNode { n_id : nat; first : K; second : V }.

Record LRUCache : Type := mkLRU {
  m_capacity : Z;
  m_items : list node;
  m_index : gmap K nat;
  m_evictCallback : bool;
  evict_log : list (K * V);    (* calls of the eviction callback *)
  next_id : nat;               (* identity of the next list node *)
}.

Definition LRUCache_make (capacity : Z) : res LRUCache :=
  if capacity =? 0 then Throw invalid_argument
  else Ok (mkLRU capacity [] ∅ false [] 0).

(** ** [std::list] by node identity *)

Definition set_items (l : list node) : M LRUCache () :=
  modify (λ c, mkLRU (m_capacity c) l (m_index c) (m_evictCallback c) (evict_log c) (next_id c)).
Definition set_index (m : gmap K nat) : M LRUCache () :=
  modify (λ c, mkLRU (m_capacity c) (m_items c) m (m_evictCallback c) (evict_log c) (next_id c)).
Definition log_evict (kv : K * V) : M LRUCache () :=
  modify (λ c, mkLRU (m_capacity c) (m_items c) (m_index c) (m_evictCallback c)
                     (evict_log c ++ [kv]) (next_id c)).

Definition find_node (it : nat) (l : list node) : option node :=
  head (filter (λ n, n_id n = it) l).
Definition without (it : nat) (l : list node) : list node := filter (λ n, n_id n ≠ it) l.
Definition deref (it : nat) (l : list node) : res node :=
  match find_node it l with Some n => Ok n | None => Undef end.
Definition set_second (it : nat) (v : V) (l : list node) : list node :=
  (λ n, if bool_decide (n_id n = it) then mkNode it (first n) v else n) <$> l.

Definition emplace_front (k : K) (v : V) : M LRUCache () :=
  modify (λ c, mkLRU (m_capacity c) (mkNode (next_id c) k v :: m_items c) (m_index c)
                     (m_evictCallback c) (evict_log c) (S (next_id c))).

(** [m_items.back()] and [m_items.front()] *)
Definition back (l : list node) : res node :=
  match last l with Some n => Ok n | None => Undef end.
Definition front (l : list node) : res node :=
  match head l with Some n => Ok n | None => Undef end.

(** ** Operations *)

Definition setEvictCallback (cb : bool) : M LRUCache () :=
  modify (λ c, mkLRU (m_capacity c) (m_items c) (m_index c) cb (evict_log c) (next_id c)).

Definition capacity (c : LRUCache) : Z := m_capacity c.
Definition size (c : LRUCache) : Z := Z.of_nat (base.size (m_index c)).
Definition empty (c : LRUCache) : bool := bool_decide (m_index c = ∅).
Definition contains (key : K) (c : LRUCache) : bool := bool_decide (is_Some (m_index c !! key)).

Definition clear : M LRUCache () := set_items [];;; set_index ∅.

Definition touch (it : nat) : M LRUCache () :=
  let! c := get in
  if bool_decide (n_id <$> head (m_items c) = Some it) then ret tt
  else
    let! n := lift (deref it (m_items c)) in
    set_items (n :: without it (m_items c)).

(** [while (m_index.size() > m_capacity)] *)
Fixpoint evict_loop (fuel : nat) : M LRUCache () :=
  match fuel with
  | O => lift NoFuel
  | S fuel =>
      let! c := get in
      if m_capacity c <? size c then
        let! n := lift (back (m_items c)) in
        (if m_evictCallback c then log_evict (first n, second n) else ret tt);;;
        set_index (base.delete (first n) (m_index c));;;
        set_items (removelast (m_items c));;;
        evict_loop fuel
      else ret tt
  end.

(** The list shrinks in every round. *)
Definition evictIfNeeded : M LRUCache () :=
  let! c := get in evict_loop (S (length (m_items c))).

Definition putImpl (key : K) (value : V) : M LRUCache () :=
  let! c := get in
  match m_index c !! key with
  | Some it =>
      let! _ := lift (deref it (m_items c)) in
      set_items (set_second it value (m_items c));;;
      touch it
  | None =>
      emplace_front key value;;;
      let! c := get in
      let! n := lift (front (m_items c)) in
      (match m_index c !! first n with
       | Some _ => ret tt
       | None => set_index (<[first n := n_id n]> (m_index c))
       end);;;
      evictIfNeeded
  end.

Definition put (key : K) (value : V) : M LRUCache () := putImpl key value.

Definition get (key : K) : M LRUCache (option V) :=
  let! c := Prelude.get in
  match m_index c !! key with
  | None => ret None
  | Some it =>
      touch it;;;
      let! c := Prelude.get in
      let! n := lift (deref it (m_items c)) in
      ret (Some (second n))
  end.

Definition getOrError (key : K) : M LRUCache (Result V) :=
  let! value := get key in
  ret match value with
      | None => makeErrorResult NotFound (lit "cache key not found")
      | Some v => Value v
      end.

Definition peek (key : K) (c : LRUCache) : res (option V) :=
  match m_index c !! key with
  | None => Ok None
  | Some it => let? n := deref it (m_items c) in Ok (Some (second n))
  end.

Definition remove (key : K) : M LRUCache bool :=
  let! c := Prelude.get in
  match m_index c !! key with
  | None => ret false
  | Some it =>
      let! _ := lift (deref it (m_items c)) in
      set_items (without it (m_items c));;;
      set_index (base.delete key (m_index c));;;
      ret true
  end.

Definition popLru : M LRUCache (option (K * V)) :=
  let! c := Prelude.get in
  match m_items c with
  | [] => ret None
  | _ =>
      let! n := lift (back (m_items c)) in
      set_index (base.delete (first n) (m_index c));;;
      set_items (removelast (m_items c));;;
      ret (Some (first n, second n))
  end.

Definition popMru : M LRUCache (option (K * V)) :=
  let! c := Prelude.get in
  match m_items c with
  | [] => ret None
  | _ =>
      let! n := lift (front (m_items c)) in
      set_index (base.delete (first n) (m_index c));;;
      set_items (tail (m_items c));;;
      ret (Some (first n, second n))
  end.

Definition lru (c : LRUCache) : res (option (K * V)) :=
  match m_items c with
  | [] => Ok None
  | l => let? n := back l in Ok (Some (first n, second n))
  end.

Definition mru (c : LRUCache) : res (option (K * V)) :=
  match m_items c with
  | [] => Ok None
  | l => let? n := front l in Ok (Some (first n, second n))
  end.

(** ** Specification: a recency list of at most [capacity] entries *)

Inductive op : Type :=
  | OpPut (k : K) (v : V) | OpGet (k : K) | OpGetOrError (k : K) | OpPeek (k : K)
  | OpRemove (k : K) | OpPopLru | OpPopMru | OpLru | OpMru | OpClear
  | OpContains (k : K) | OpSize | OpEmpty | OpSetEvictCallback (cb : bool).

Inductive answer : Type :=
  | AUnit | ABool (b : bool) | ASize (n : Z) | AValue (v : option V)
  | AResult (r : Result V) | APair (kv : option (K * V)).

Definition exec (o : op) : M LRUCache answer :=
  match o with
  | OpPut k v => put k v;;; ret AUnit
  | OpGet k => let! r := get k in ret (AValue r)
  | OpGetOrError k => let! r := getOrError k in ret (AResult r)
  | OpPeek k => let! c := Prelude.get in let! r := lift (peek k c) in ret (AValue r)
  | OpRemove k => let! r := remove k in ret (ABool r)
  | OpPopLru => let! r := popLru in ret (APair r)
  | OpPopMru => let! r := popMru in ret (APair r)
  | OpLru => let! c := Prelude.get in let! r := lift (lru c) in ret (APair r)
  | OpMru => let! c := Prelude.get in let! r := lift (mru c) in ret (APair r)
  | OpClear => clear;;; ret AUnit
  | OpContains k => gets (λ c, ABool (contains k c))
  | OpSize => gets (λ c, ASize (size c))
  | OpEmpty => gets (λ c, ABool (empty c))
  | OpSetEvictCallback cb => setEvictCallback cb;;; ret AUnit
  end.

(** The most recently used entry first. *)
Abbreviation entries := (list (K * V)).

Definition find_key (k : K) (l : entries) : option V :=
  snd <$> head (filter (λ e, e.1 = k) l).
Definition drop_key (k : K) (l : entries) : entries := filter (λ e, e.1 ≠ k) l.

(** Answer, entries afterwards, evicted entries. *)
Definition spec (cap : Z) (o : op) (l : entries) : answer * entries * entries :=
  match o with
  | OpPut k v =>
      let l' := (k, v) :: drop_key k l in (AUnit, ztake cap l', zdrop cap l')
  | OpGet k =>
      match find_key k l with
      | Some v => (AValue (Some v), (k, v) :: drop_key k l, [])
      | None => (AValue None, l, [])
      end
  | OpGetOrError k =>
      match find_key k l with
      | Some v => (AResult (Value v), (k, v) :: drop_key k l, [])
      | None => (AResult (Err (mkError NotFound (lit "cache key not found"))), l, [])
      end
  | OpPeek k => (AValue (find_key k l), l, [])
  | OpRemove k => (ABool (bool_decide (k ∈ l.*1)), drop_key k l, [])
  | OpPopLru => (APair (last l), removelast l, [])
  | OpPopMru => (APair (head l), tail l, [])
  | OpLru => (APair (last l), l, [])
  | OpMru => (APair (head l), l, [])
  | OpClear => (AUnit, [], [])
  | OpContains k => (ABool (bool_decide (k ∈ l.*1)), l, [])
  | OpSize => (ASize (zlen l), l, [])
  | OpEmpty => (ABool (bool_decide (l = [])), l, [])
  | OpSetEvictCallback _ => (AUnit, l, [])
  end.

Definition callback_after (o : op) (cb : bool) : bool :=
  match o with OpSetEvictCallback cb' => cb' | _ => cb end.

(** ** Invariant *)

Definition abs (c : LRUCache) : entries := (λ n, (first n, second n)) <$> m_items c.

Definition index_of (l : list node) : gmap K nat :=
  list_to_map ((λ n, (first n, n_id n)) <$> l).

Record wf (c : LRUCache) : Prop := {
  inv_ids : NoDup (n_id <$> m_items c);
  inv_keys : NoDup (first <$> m_items c);
  inv_index : m_index c = index_of (m_items c);
  inv_fresh : Forall (λ n, (n_id n < next_id c)%nat) (m_items c);
  inv_capacity : 0 < m_capacity c;
}.

Definition inv (c : LRUCache) : Prop := wf c ∧ zlen (m_items c) ≤ m_capacity c.

Lemma index_keys l : ((λ n, (first n, n_id n)) <$> l).*1 = first <$> l.
Proof. by rewrite <- list_fmap_compose. Qed.

Lemma index_perm l l' : NoDup (first <$> l) → l ≡ₚ l' → index_of l = index_of l'.
Proof.
  intros Hn Hp. apply list_to_map_proper; [by rewrite index_keys|]. by apply fmap_Permutation.
Qed.

Lemma index_cons n l : index_of (n :: l) = <[first n := n_id n]> (index_of l).
Proof. done. Qed.

Lemma index_None k l : index_of l !! k = None ↔ k ∉ first <$> l.
Proof. unfold index_of. by rewrite <- not_elem_of_list_to_map, index_keys. Qed.

Lemma index_delete n l : first n ∉ first <$> l →
  base.delete (first n) (index_of (n :: l)) = index_of l.
Proof. intros Hn. rewrite index_cons. apply delete_insert_id. by apply index_None. Qed.

Lemma index_size l : NoDup (first <$> l) → base.size (index_of l) = length l.
Proof.
  intros Hn. unfold index_of. rewrite map_size_list_to_map by (by rewrite index_keys).
  by rewrite length_fmap.
Qed.

(** The node an index entry denotes. *)
Lemma index_Some k it l : index_of l !! k = Some it →
  ∃ l1 v l2, l = l1 ++ mkNode it k v :: l2.
Proof.
  intros Hk. apply elem_of_list_to_map_2, list_elem_of_fmap in Hk as ([i k' v] & [= -> ->] & Hin).
  apply list_elem_of_split in Hin as (l1 & l2 & ->). by exists l1, v, l2.
Qed.

(** ** Simulation *)

Section split.
Context (l1 l2 : list node) (it : nat) (k : K) (v : V).
Let l := l1 ++ mkNode it k v :: l2.
Context (Hids : NoDup (n_id <$> l)) (Hkeys : NoDup (first <$> l)).

Lemma deref_split : deref it l = Ok (mkNode it k v).
Proof. unfold deref, find_node, l. by rewrite (filter_eq_split n_id). Qed.

Lemma without_split : without it l = l1 ++ l2.
Proof. by apply (filter_ne_split n_id). Qed.

Lemma set_second_split v' : set_second it v' l = l1 ++ mkNode it k v' :: l2.
Proof.
  destruct (distinct_split _ _ _ _ Hids) as (H1 & H2 & _). unfold set_second, l.
  rewrite fmap_app, fmap_cons. simpl. rewrite bool_decide_true by done. simpl in *.
  assert (∀ l' : list node, it ∉ n_id <$> l' →
    (λ n, if bool_decide (n_id n = it) then mkNode it (first n) v' else n) <$> l' = l') as Hid.
  { intros l' Hl. induction l' as [|n l' IH]; [done|]. rewrite !fmap_cons in *.
    rewrite not_elem_of_cons in Hl. rewrite bool_decide_false by naive_solver.
    f_equal. naive_solver. }
  by rewrite !Hid.
Qed.

Definition pairs (l : list node) : entries := (λ n, (first n, second n)) <$> l.

Lemma pairs_keys (l' : list node) : (pairs l').*1 = first <$> l'.
Proof. unfold pairs. by rewrite <- list_fmap_compose. Qed.

Lemma find_key_split : find_key k (pairs l) = Some v.
Proof.
  pose proof Hkeys as Hk. rewrite <- pairs_keys in Hk. unfold find_key, l, pairs in *.
  rewrite fmap_app, fmap_cons in *. by rewrite (filter_eq_split fst).
Qed.

Lemma drop_key_split : drop_key k (pairs l) = pairs (l1 ++ l2).
Proof.
  pose proof Hkeys as Hk. rewrite <- pairs_keys in Hk. unfold drop_key, l, pairs in *.
  rewrite fmap_app, fmap_cons in *. by rewrite (filter_ne_split fst), fmap_app.
Qed.

End split.

Lemma find_key_absent k (l : list node) : k ∉ first <$> l → find_key k (pairs l) = None.
Proof. intros Hk. unfold find_key. by rewrite filter_eq_absent by (by rewrite pairs_keys). Qed.

Lemma drop_key_absent k (l : list node) : k ∉ first <$> l → drop_key k (pairs l) = pairs l.
Proof. intros Hk. unfold drop_key. by rewrite filter_ne_absent by (by rewrite pairs_keys). Qed.

(** Moving a node to the front; a node that is in front already stays. *)
Lemma touch_spec c l1 n l2 :
  inv c → m_items c = l1 ++ n :: l2 →
  touch (n_id n) c = (Ok tt, snd (set_items (n :: l1 ++ l2) c)) ∧
  inv (snd (set_items (n :: l1 ++ l2) c)).
Proof.
  intros [[Hids Hkeys Hindex Hfresh Hcap] Hsize] Hl. rewrite Hl in *.
  assert (Hp : l1 ++ n :: l2 ≡ₚ n :: l1 ++ l2) by (by rewrite Permutation_middle).
  split.
  - unfold touch. run. rewrite Hl. case_bool_decide as Hh.
    + destruct l1 as [|n1 l1]; simpl in *.
      * unfold ret. f_equal. destruct c; simpl in *. by subst.
      * exfalso. injection Hh as Hh. apply NoDup_cons in Hids as [Hn _]. apply Hn.
        rewrite Hh, fmap_app. set_solver.
    + destruct n as [it k v]. simpl. rewrite deref_split by done. run.
      by rewrite without_split.
  - split; [constructor|]; cbn [set_items modify snd m_items m_index m_capacity next_id];
      try done.
    1,2: by rewrite <- Hp.
    + rewrite Hindex. by apply index_perm.
    + by rewrite <- Hp.
    + unfold zlen in *. by rewrite <- Hp.
Qed.

Lemma key_cases c k : wf c →
  (m_index c !! k = None ∧ k ∉ first <$> m_items c) ∨
  ∃ l1 it v l2, m_items c = l1 ++ mkNode it k v :: l2 ∧ m_index c !! k = Some it.
Proof.
  intros Hc. destruct (m_index c !! k) as [it|] eqn:E; rewrite inv_index in E by done.
  - right. destruct (index_Some _ _ _ E) as (l1 & v & l2 & Hl). by exists l1, it, v, l2.
  - left. split; [done|]. by apply index_None.
Qed.

(** Unlinking a node and its index entry. *)
Lemma wf_remove c l1 n l2 log : wf c → m_items c = l1 ++ n :: l2 →
  wf (mkLRU (m_capacity c) (l1 ++ l2) (base.delete (first n) (m_index c))
            (m_evictCallback c) log (next_id c)).
Proof.
  intros [Hids Hkeys Hindex Hfresh Hcap] Hl. rewrite Hl in *.
  destruct (distinct_split _ _ _ _ Hids) as (_ & _ & Hids').
  destruct (distinct_split _ _ _ _ Hkeys) as (Hn1 & Hn2 & Hkeys').
  constructor; simpl; try done.
  - rewrite Hindex, (index_perm (l1 ++ n :: l2) (n :: l1 ++ l2));
      [|done|by rewrite Permutation_middle].
    apply index_delete. rewrite fmap_app, elem_of_app. tauto.
  - rewrite Forall_app, Forall_cons in Hfresh. apply Forall_app. tauto.
Qed.

Lemma size_length c : wf c → size c = zlen (m_items c).
Proof. intros Hc. unfold size. by rewrite inv_index, index_size by apply Hc. Qed.

Lemma inv_remove c l1 n l2 log : inv c → m_items c = l1 ++ n :: l2 →
  inv (mkLRU (m_capacity c) (l1 ++ l2) (base.delete (first n) (m_index c))
             (m_evictCallback c) log (next_id c)).
Proof.
  intros [Hc Hs] Hl. split; [by apply wf_remove|]. simpl. rewrite Hl in Hs.
  unfold zlen in *. rewrite length_app in *. simpl in Hs. lia.
Qed.

Lemma evict_log_run c kv :
  (if m_evictCallback c then log_evict kv else ret tt) c
  = (Ok tt, mkLRU (m_capacity c) (m_items c) (m_index c) (m_evictCallback c)
       (evict_log c ++ if m_evictCallback c then [kv] else []) (next_id c)).
Proof.
  destruct c as [? ? ? [] ? ?]; [done|]. unfold ret. simpl. by rewrite app_nil_r.
Qed.

(** At most one entry is beyond the capacity. *)
Lemma evictIfNeeded_spec c : wf c → zlen (m_items c) ≤ m_capacity c + 1 →
  ∃ c', evictIfNeeded c = (Ok tt, c') ∧ inv c' ∧ abs c' = ztake (m_capacity c) (abs c) ∧
    m_capacity c' = m_capacity c ∧ m_evictCallback c' = m_evictCallback c ∧
    evict_log c' = evict_log c ++
      (if m_evictCallback c then zdrop (m_capacity c) (abs c) else []).
Proof.
  intros Hc Hs. unfold evictIfNeeded. run.
  assert (Ha : zlen (abs c) = zlen (m_items c)) by (unfold zlen, abs; by rewrite length_fmap).
  destruct (Z.le_gt_cases (zlen (m_items c)) (m_capacity c)) as [Hle|Hgt].
  - exists c. cbn [evict_loop]. run. rewrite size_length by done.
    replace (_ <? _) with false by lia. rewrite ztake_all, zdrop_all by lia.
    split_and!; try done. by destruct (m_evictCallback c); rewrite app_nil_r.
  - pose proof (inv_capacity _ Hc) as Hcap.
    destruct (exists_last (l := m_items c)) as (l & n & El).
    { intros E. rewrite E, zlen_nil in Hgt. lia. }
    assert (zlen (m_items c) = zlen l + 1) as Hz
      by (rewrite El, zlen_app, zlen_cons, zlen_nil; lia).
    set (c1 := mkLRU (m_capacity c) l (base.delete (first n) (m_index c)) (m_evictCallback c)
      (evict_log c ++ if m_evictCallback c then [(first n, second n)] else []) (next_id c)).
    assert (wf c1) as Hc1.
    { pose proof (wf_remove c l n [] (evict_log c1) Hc El) as W. by rewrite app_nil_r in W. }
    assert (abs c = pairs l ++ [(first n, second n)]) as Habs
      by (unfold abs; by rewrite El, fmap_app).
    assert (zlen (pairs l) = zlen l) as Hzp by (unfold zlen, pairs; by rewrite length_fmap).
    exists c1. split_and!; try done.
    + rewrite El, length_app, Nat.add_comm. cbn [evict_loop length Nat.add]. run.
      rewrite size_length by done. replace (_ <? _) with true by lia.
      unfold back. rewrite El, last_snoc, removelast_last. run.
      rewrite (bind_Ok _ _ _ _ _ (evict_log_run c (first n, second n))).
      unfold set_index, set_items. run. simpl.
      fold c1. rewrite size_length by done.
      by replace (_ <? _) with false by (simpl; lia).
    + split; [done|]. simpl. lia.
    + rewrite Habs. change (abs c1) with (pairs l). rewrite ztake_app_le, ztake_all; lia || done.
    + rewrite Habs. simpl. rewrite zdrop_app_ge by lia. by replace (_ - _) with 0 by lia.
Qed.

(** The result of an operation agrees with the specification. *)
Definition simulates (c : LRUCache) (o : op) : Prop :=
  let '(a, l, ev) := spec (m_capacity c) o (abs c) in
  ∃ c', exec o c = (Ok a, c') ∧ inv c' ∧ abs c' = l ∧ m_capacity c' = m_capacity c ∧
    m_evictCallback c' = callback_after o (m_evictCallback c) ∧
    evict_log c' = evict_log c ++ (if m_evictCallback c then ev else []).

Lemma no_eviction (b : bool) (l : entries) : l = l ++ (if b then [] else []).
Proof. by destruct b; rewrite app_nil_r. Qed.

Lemma touch_abs c n l1 l2 :
  abs (snd (set_items (n :: l1 ++ l2) c)) = (first n, second n) :: pairs (l1 ++ l2).
Proof. done. Qed.

Lemma put_existing c k v l1 it v0 l2 : inv c →
  m_items c = l1 ++ mkNode it k v0 :: l2 → m_index c !! k = Some it →
  simulates c (OpPut k v).
Proof.
  intros [Hc Hs] Hl Hk. pose proof (inv_ids _ Hc) as Hids. pose proof (inv_keys _ Hc) as Hkeys.
  rewrite Hl in Hids, Hkeys.
  set (c1 := snd (set_items (l1 ++ mkNode it k v :: l2) c)).
  assert (inv c1) as Hc1.
  { pose proof (inv_index _ Hc) as Hi. pose proof (inv_fresh _ Hc) as Hf.
    pose proof (inv_capacity _ Hc). rewrite Hl in Hi, Hf, Hs.
    rewrite fmap_app, fmap_cons in Hids. rewrite fmap_app, fmap_cons in Hkeys.
    split; [constructor|]; simpl; rewrite ?fmap_app, ?fmap_cons; try done.
    - rewrite Hi. unfold index_of. by rewrite !fmap_app, !fmap_cons.
    - rewrite Forall_app, Forall_cons in *. done.
    - unfold zlen in *. rewrite length_app in *. done. }
  unfold simulates. cbn [spec callback_after]. change (abs c) with (pairs (m_items c)).
  rewrite Hl, drop_key_split by done.
  destruct (touch_spec c1 l1 (mkNode it k v) l2 Hc1 eq_refl) as [Ht Hi].
  exists (snd (set_items (mkNode it k v :: l1 ++ l2) c1)).
  assert (zlen ((k, v) :: pairs (l1 ++ l2)) ≤ m_capacity c) as Hz.
  { rewrite Hl in Hs. revert Hs. unfold zlen, pairs. simpl. rewrite length_fmap, !length_app.
    simpl. lia. }
  rewrite ztake_all, zdrop_all by done. split_and!; try done; [|apply no_eviction].
  cbn [exec]. unfold put, putImpl. run. rewrite Hk, Hl, deref_split by done. run.
  rewrite set_second_split by done. unfold set_items at 1. run.
  by rewrite (bind_Ok _ _ _ _ _ Ht).
Qed.

Lemma put_new c k v : inv c → m_index c !! k = None → k ∉ first <$> m_items c →
  simulates c (OpPut k v).
Proof.
  intros [Hc Hs] Hk Hn.
  set (c1 := mkLRU (m_capacity c) (mkNode (next_id c) k v :: m_items c)
     (<[k := next_id c]> (m_index c)) (m_evictCallback c) (evict_log c) (S (next_id c))).
  assert (wf c1) as Hc1.
  { destruct Hc as [Hids Hkeys Hi Hf Hcap]. constructor; simpl; try done.
    - apply NoDup_cons. split; [|done]. intros (n & E & Hin)%list_elem_of_fmap.
      rewrite Forall_forall in Hf. specialize (Hf _ Hin). lia.
    - by apply NoDup_cons.
    - by rewrite Hi.
    - apply Forall_cons. split; [simpl; lia|]. eapply Forall_impl; [done|]. simpl. lia. }
  destruct (evictIfNeeded_spec c1 Hc1) as (c' & He & Hi & Ha & Hcap & Hcb & Hlog).
  { simpl. rewrite zlen_cons. lia. }
  unfold simulates. cbn [spec callback_after]. change (abs c) with (pairs (m_items c)).
  rewrite drop_key_absent by done. exists c'. split_and!; try done.
  cbn [exec]. unfold put, putImpl. run. rewrite Hk. unfold emplace_front. run. simpl.
  unfold front. cbn [head]. run. cbn [first n_id]. rewrite Hk. run. unfold set_index. run. simpl. fold c1. by rewrite (bind_Ok _ _ _ _ _ He).
Qed.

Lemma get_run c k : inv c →
  ((k ∉ first <$> m_items c) ∧ get k c = (Ok None, c)) ∨
  ∃ l1 it v l2, m_items c = l1 ++ mkNode it k v :: l2 ∧
    get k c = (Ok (Some v), snd (set_items (mkNode it k v :: l1 ++ l2) c)) ∧
    inv (snd (set_items (mkNode it k v :: l1 ++ l2) c)).
Proof.
  intros Hc. unfold get. run.
  destruct (key_cases c k (proj1 Hc)) as [[Hk Hn]|(l1 & it & v & l2 & Hl & Hk)]; rewrite Hk.
  - left. done.
  - right. exists l1, it, v, l2.
    destruct (touch_spec c l1 (mkNode it k v) l2 Hc Hl) as [Ht Hi].
    split_and!; try done. rewrite (bind_Ok _ _ _ _ _ Ht). run.
    unfold deref, find_node. simpl. rewrite filter_cons_True by done. done.
Qed.

Lemma simulates_get c k : inv c → simulates c (OpGet k) ∧ simulates c (OpGetOrError k).
Proof.
  intros Hc. unfold simulates. cbn [spec callback_after].
  change (abs c) with (pairs (m_items c)).
  destruct (get_run c k Hc) as [[Hn Hg]|(l1 & it & v & l2 & Hl & Hg & Hi)].
  - rewrite find_key_absent by done. cbn [exec]. unfold getOrError.
    split; exists c; run; rewrite (bind_Ok _ _ _ _ _ Hg); split_and!;
      done || apply no_eviction.
  - pose proof (inv_ids _ (proj1 Hc)) as Hids. pose proof (inv_keys _ (proj1 Hc)) as Hkeys.
    rewrite Hl in Hids, Hkeys |- *. rewrite find_key_split, drop_key_split by done.
    cbn [exec]. unfold getOrError. split; eexists; run; rewrite (bind_Ok _ _ _ _ _ Hg);
      split_and!; done || apply no_eviction.
Qed.

Lemma elem_keys k (l : list node) : bool_decide (k ∈ (pairs l).*1) = bool_decide (k ∈ first <$> l).
Proof. by rewrite pairs_keys. Qed.

Lemma simulates_remove c k : inv c → simulates c (OpRemove k).
Proof.
  intros Hc. unfold simulates. cbn [spec callback_after exec].
  change (abs c) with (pairs (m_items c)). rewrite elem_keys.
  destruct (key_cases c k (proj1 Hc)) as [[Hk Hn]|(l1 & it & v & l2 & Hl & Hk)].
  - rewrite drop_key_absent, bool_decide_false by done. exists c.
    split_and!; try done; [|apply no_eviction]. unfold remove. run. by rewrite Hk.
  - pose proof (inv_ids _ (proj1 Hc)) as Hids. pose proof (inv_keys _ (proj1 Hc)) as Hkeys.
    pose proof (inv_remove c l1 _ l2 (evict_log c) Hc Hl) as Hi.
    rewrite Hl in Hids, Hkeys |- *. rewrite drop_key_split by done.
    rewrite bool_decide_true by (rewrite fmap_app; set_solver).
    eexists. split_and!; [|exact Hi|done..|apply no_eviction].
    unfold remove. run. rewrite Hk, Hl, deref_split by done. run.
    rewrite without_split by done. done.
Qed.

Lemma pairs_snoc l n : pairs (l ++ [n]) = pairs l ++ [(first n, second n)].
Proof. unfold pairs. by rewrite fmap_app. Qed.

Lemma simulates_pop c : inv c → simulates c OpPopLru ∧ simulates c OpPopMru.
Proof.
  intros Hc. unfold simulates. cbn [spec callback_after exec].
  change (abs c) with (pairs (m_items c)). unfold popLru, popMru. run.
  split.
  - destruct (decide (m_items c = [])) as [E|E].
    + rewrite E. exists c. unfold abs. rewrite E. split_and!; done || apply no_eviction.
    + destruct (exists_last E) as (l & n & Hl).
      pose proof (inv_remove c l n [] (evict_log c) Hc Hl) as Hi. rewrite app_nil_r in Hi.
      eexists. rewrite Hl. split_and!; [|exact Hi|..|apply no_eviction]; try done.
      * unfold back. rewrite pairs_snoc, !last_snoc, removelast_last. by destruct l.
      * unfold abs. by rewrite pairs_snoc, removelast_last.
  - destruct (m_items c) as [|n l] eqn:Hl.
    + exists c. unfold abs. rewrite Hl. split_and!; done || apply no_eviction.
    + pose proof (inv_remove c [] n l (evict_log c) Hc Hl) as Hi. simpl in Hi.
      eexists. split_and!; [|exact Hi|done..|apply no_eviction]. done.
Qed.

Lemma simulates_query c o : inv c →
  match o with
  | OpPeek _ | OpLru | OpMru | OpContains _ | OpSize | OpEmpty => True
  | _ => False
  end → simulates c o.
Proof.
  intros Hc Ho. destruct o; try done; unfold simulates; cbn [spec callback_after exec];
    change (abs c) with (pairs (m_items c)); exists c;
    (split_and!; [|done..|apply no_eviction]).
  - unfold peek. run.
    destruct (key_cases c k (proj1 Hc)) as [[Hk Hn]|(l1 & it & v & l2 & Hl & Hk)]; rewrite Hk.
    + by rewrite find_key_absent.
    + pose proof (inv_ids _ (proj1 Hc)) as Hids. pose proof (inv_keys _ (proj1 Hc)) as Hkeys.
      rewrite Hl in Hids, Hkeys |- *. by rewrite find_key_split, deref_split.
  - unfold lru, back. run. destruct (decide (m_items c = [])) as [E|E]; [by rewrite E|].
    destruct (exists_last E) as (l & n & Hl). rewrite Hl, pairs_snoc, last_snoc.
    destruct (l ++ [n]) as [|n' l'] eqn:En; [by apply app_nil in En as []|].
    by rewrite <- En, last_snoc.
  - unfold mru, front. run. by destruct (m_items c).
  - unfold gets, contains. rewrite elem_keys. do 3 f_equal. apply bool_decide_ext.
    rewrite inv_index, <- not_eq_None_Some, index_None by apply Hc.
    destruct (decide (k ∈ first <$> m_items c)); tauto.
  - unfold gets. rewrite size_length by apply Hc. unfold zlen, pairs. by rewrite length_fmap.
  - unfold gets, empty. do 3 f_equal. apply bool_decide_ext. unfold pairs.
    rewrite inv_index by apply Hc. destruct (m_items c) as [|n l]; [done|].
    split; [|done]. intros E. rewrite index_cons in E. by apply insert_non_empty in E.
Qed.

Lemma exec_entries c o : inv c → simulates c o.
Proof.
  intros Hc. pose proof (simulates_query c o Hc) as Hq.
  destruct o; try (by apply Hq); clear Hq.
  - destruct (key_cases c k (proj1 Hc)) as [[Hk Hn]|(l1 & it & v0 & l2 & Hl & Hk)].
    + by apply put_new.
    + by apply (put_existing c k v l1 it v0 l2).
  - by apply simulates_get.
  - by apply simulates_get.
  - by apply simulates_remove.
  - by apply simulates_pop.
  - by apply simulates_pop.
  - unfold simulates. cbn [spec callback_after exec]. eexists.
    split_and!; [done| |done..|apply no_eviction].
    pose proof (inv_capacity _ (proj1 Hc)). split; [constructor|]; simpl; try done;
      try constructor. rewrite zlen_nil. lia.
  - unfold simulates. cbn [spec callback_after exec]. eexists.
    split_and!; [done| |done..|apply no_eviction].
    destruct Hc as [[? ? ? ? ?] ?]. by split; [constructor|].
Qed.

(** ** Sequences of operations *)

Fixpoint run_ops (os : list op) (c : LRUCache) : list (res answer) * LRUCache :=
  match os with
  | [] => ([], c)
  | o :: os =>
      let '(r, c) := exec o c in
      let '(rs, c) := run_ops os c in (r :: rs, c)
  end.

(** Answers, entries, and the calls of the eviction callback. *)
Fixpoint spec_ops (cap : Z) (os : list op) (l : entries) (cb : bool)
    : list answer * entries * entries :=
  match os with
  | [] => ([], l, [])
  | o :: os =>
      let '(a, l, ev) := spec cap o l in
      let '(rs, l, evs) := spec_ops cap os l (callback_after o cb) in
      (a :: rs, l, (if cb then ev else []) ++ evs)
  end.

Lemma run_ops_spec os : ∀ c, inv c →
  let '(rs, c') := run_ops os c in
  let '(rs', l, evs) := spec_ops (m_capacity c) os (abs c) (m_evictCallback c) in
  rs = Ok <$> rs' ∧ abs c' = l ∧ evict_log c' = evict_log c ++ evs ∧
  inv c' ∧ m_capacity c' = m_capacity c.
Proof.
  induction os as [|o os IH]; intros c Hc; simpl.
  { rewrite app_nil_r. done. }
  pose proof (exec_entries c o Hc) as Hs. unfold simulates in Hs.
  destruct (spec (m_capacity c) o (abs c)) as [[a l] ev].
  destruct Hs as (c1 & -> & Hc1 & <- & Hcap & <- & Hlog).
  specialize (IH c1 Hc1). rewrite Hcap in IH.
  destruct (run_ops os c1) as [rs c2].
  destruct (spec_ops (m_capacity c) os (abs c1) (m_evictCallback c1)) as [[rs' l'] evs].
  destruct IH as (-> & -> & Hlog2 & ? & ?). rewrite Hlog2, Hlog, <- app_assoc. done.
Qed.

(** ** Retention *)

(** Operations that neither store nor remove [k]. *)
Definition keeps (k : K) (o : op) : bool :=
  match o with
  | OpPut k' _ | OpRemove k' => negb (bool_decide (k' = k))
  | OpPopLru | OpPopMru | OpClear => false
  | _ => true
  end.

(** The other keys used by a sequence of operations. *)
Definition uses (k : K) (o : op) : gset K :=
  match o with
  | OpPut k' _ | OpGet k' | OpGetOrError k' => {[k']} ∖ {[k]}
  | _ => ∅
  end.
Definition used (k : K) (os : list op) : gset K := ⋃ (uses k <$> os).

(** [k] is behind keys of [U] only. *)
Definition within (k : K) (v : V) (U : gset K) (l : entries) : Prop :=
  NoDup l.*1 ∧ ∃ l1 l2, l = l1 ++ (k, v) :: l2 ∧ ∀ k', k' ∈ l1.*1 → k' ∈ U.

Lemma within_length (k : K) (v : V) (U : gset K) l1 l2 :
  NoDup (l1 ++ (k, v) :: l2).*1 → (∀ k', k' ∈ l1.*1 → k' ∈ U) →
  (length l1 ≤ base.size U)%nat.
Proof.
  rewrite fmap_app, NoDup_app. intros [Hn _] HU.
  rewrite <- (length_fmap fst), <- (size_list_to_set (C := gset K)) by done.
  apply subseteq_size. intros k' Hk. apply elem_of_list_to_set in Hk. auto.
Qed.

Lemma drop_key_nodup k (l : entries) : NoDup l.*1 → NoDup (drop_key k l).*1 ∧ k ∉ (drop_key k l).*1.
Proof.
  intros Hn. split.
  - unfold drop_key. eapply sublist_NoDup; [done|]. apply fmap_sublist, sublist_filter.
  - intros ([k' v] & -> & [Hne _]%list_elem_of_filter)%list_elem_of_fmap. done.
Qed.

Lemma within_touch k v (U : gset K) k' v' l : k' ≠ k → within k v U l →
  within k v ({[k']} ∪ U) ((k', v') :: drop_key k' l).
Proof.
  intros Hne (Hn & l1 & l2 & -> & HU).
  destruct (drop_key_nodup k' _ Hn) as [Hn' Hk']. split; [by apply NoDup_cons|].
  exists ((k', v') :: drop_key k' l1), (drop_key k' l2). split.
  - unfold drop_key. by rewrite filter_app, filter_cons_True.
  - intros x Hx. rewrite fmap_cons, elem_of_cons in Hx.
    destruct Hx as [->|Hx]; [set_solver|]. apply elem_of_union_r, HU.
    unfold drop_key in Hx. apply list_elem_of_fmap in Hx as (e & -> & [_ He]%list_elem_of_filter).
    by apply list_elem_of_fmap_2.
Qed.

Lemma within_mono k v (U U' : gset K) l : U ⊆ U' → within k v U l → within k v U' l.
Proof. intros HU (Hn & l1 & l2 & -> & H1). split; [done|]. exists l1, l2. set_solver. Qed.

Lemma within_take k v (U : gset K) l cap : Z.of_nat (base.size U) < cap →
  within k v U l → within k v U (ztake cap l).
Proof.
  intros Hs (Hn & l1 & l2 & -> & HU). pose proof (within_length k v U l1 l2 Hn HU).
  assert (ztake cap (l1 ++ (k, v) :: l2) = l1 ++ (k, v) :: ztake (cap - zlen l1 - 1) l2) as E.
  { rewrite ztake_app_ge by (unfold zlen; lia). f_equal. unfold ztake.
    by replace (Z.to_nat (cap - zlen l1)) with (S (Z.to_nat (cap - zlen l1 - 1)))
      by (unfold zlen; lia). }
  split; [|exists l1, (ztake (cap - zlen l1 - 1) l2); done].
  eapply sublist_NoDup; [done|]. apply fmap_sublist, sublist_take.
Qed.

Lemma within_drop k v (U : gset K) k' l : k' ≠ k → within k v U l → within k v U (drop_key k' l).
Proof.
  intros Hne Hw. pose proof Hw as (Hn & _).
  destruct (within_touch k v U k' v l Hne Hw) as (_ & l1 & l2 & E & HU).
  split; [by apply drop_key_nodup|]. destruct l1 as [|e l1]; simpl in E; [congruence|].
  injection E as <- E. exists l1, l2. split; [done|].
  intros x Hx. assert (x ∈ {[k']} ∪ U) as [Hk%elem_of_singleton|?]%elem_of_union; [|subst x|done].
  - apply HU. set_solver.
  - destruct (drop_key_nodup k' l Hn) as [_ Hd]. rewrite E, fmap_app in Hd. set_solver.
Qed.

Lemma within_find k v (U : gset K) l : within k v U l → find_key k l = Some v.
Proof.
  intros (Hn & l1 & l2 & -> & _). unfold find_key. by rewrite (filter_eq_split fst).
Qed.

Lemma within_get k v (U : gset K) l : within k v U l → within k v U ((k, v) :: drop_key k l).
Proof.
  intros (Hn & l1 & l2 & -> & _). destruct (drop_key_nodup k _ Hn).
  split; [by apply NoDup_cons|]. exists [], (drop_key k (l1 ++ (k, v) :: l2)). split; [done|set_solver].
Qed.

Lemma within_step k v (U : gset K) l cap o :
  Z.of_nat (base.size (uses k o ∪ U)) < cap → keeps k o = true →
  within k v U l → within k v (uses k o ∪ U) (snd (fst (spec cap o l))).
Proof.
  intros Hs Ho Hw.
  assert (∀ k', within k v (({[k']} ∖ {[k]}) ∪ U)
    (match find_key k' l with Some v' => (k', v') :: drop_key k' l | None => l end)) as Hget.
  { intros k'. destruct (decide (k' = k)) as [->|Hne].
    - rewrite (within_find k v U l Hw). apply (within_mono _ _ U); [set_solver|].
      by apply within_get.
    - destruct (find_key k' l) as [v'|].
      + apply (within_mono _ _ ({[k']} ∪ U)); [set_solver|]. by apply within_touch.
      + apply (within_mono _ _ U); [set_solver|done]. }
  destruct o; simpl in *; try done;
    try (apply (within_mono _ _ U); [set_solver|done]).
  - apply negb_true_iff, bool_decide_eq_false in Ho. apply within_take; [done|].
    apply (within_mono _ _ ({[k0]} ∪ U)); [set_solver|]. by apply within_touch.
  - specialize (Hget k0). by destruct (find_key k0 l).
  - specialize (Hget k0). by destruct (find_key k0 l).
  - apply negb_true_iff, bool_decide_eq_false in Ho.
    apply (within_mono _ _ U); [set_solver|]. by apply within_drop.
Qed.

Lemma within_ops k v cap os : ∀ (U : gset K) l cb,
  forallb (keeps k) os = true → Z.of_nat (base.size (used k os ∪ U)) < cap →
  within k v U l → within k v (used k os ∪ U) (snd (fst (spec_ops cap os l cb))).
Proof.
  induction os as [|o os IH]; intros U l cb Hk Hs Hw; simpl in *.
  { apply (within_mono _ _ U); [set_solver|done]. }
  apply andb_true_iff in Hk as [Hk Hks].
  assert (used k (o :: os) ∪ U = used k os ∪ (uses k o ∪ U)) as Hu
    by (unfold used; simpl; set_solver).
  rewrite Hu in *.
  pose proof (within_step k v U l cap o) as Hstep.
  destruct (spec cap o l) as [[a l'] ev]. simpl in *.
  specialize (IH (uses k o ∪ U) l' (callback_after o cb)).
  destruct (spec_ops cap os l' (callback_after o cb)) as [[rs l''] evs]. simpl in *.
  apply IH; [done..|]. apply Hstep; [|done..].
  eapply Z.le_lt_trans; [|exact Hs]. apply inj_le, subseteq_size. set_solver.
Qed.

End lru.
Arguments node : clear implicits.
Arguments LRUCache K V {_ _}.
Arguments inv {K V _ _} c.
Arguments op : clear implicits.
Arguments answer : clear implicits.

(** C19: on any sequence of operations the cache is the recency list of its
    specification: every answer, the entries and their order, and the calls of the
    eviction callback agree; the list and the index stay consistent, so no operation
    dereferences a dead iterator, and the size never exceeds the capacity. *)
Theorem lru_refines {K V} `{Countable K} (os : list (op K V)) (c : LRUCache K V) : inv c →
  let '(rs, c') := run_ops os c in
  let '(rs', l, evs) := spec_ops (m_capacity c) os (abs c) (m_evictCallback c) in
  rs = Ok <$> rs' ∧ abs c' = l ∧ evict_log c' = evict_log c ++ evs ∧
  inv c' ∧ size c' = zlen l ∧ zlen l ≤ m_capacity c.
Proof.
  intros Hc. pose proof (run_ops_spec os c Hc) as Hr.
  destruct (run_ops os c) as [rs c'].
  destruct (spec_ops _ os (abs c) _) as [[rs' l] evs].
  destruct Hr as (-> & <- & -> & Hc' & Hcap). split_and!; try done.
  - rewrite size_length by apply Hc'. unfold zlen, abs. by rewrite length_fmap.
  - rewrite <- Hcap. unfold abs, zlen. rewrite length_fmap. apply Hc'.
Qed.

(** An entry is retained while fewer than [capacity] other keys are used: after
    [put(k, v)] and operations that store, look up successfully or not, or remove other
    keys, [peek(k)] still returns [v]. *)
Lemma lru_retains {K V} `{Countable K} (os : list (op K V)) (c : LRUCache K V) k v :
  inv c → forallb (keeps k) os = true →
  Z.of_nat (base.size (used k os)) < m_capacity c →
  peek k (snd (run_ops (OpPut k v :: os) c)) = Ok (Some v).
Proof.
  intros Hc Hk Hs. pose proof (run_ops_spec (OpPut k v :: os) c Hc) as Hr.
  assert (within k v (used k os)
    (snd (fst (spec_ops (m_capacity c) (OpPut k v :: os) (abs c) (m_evictCallback c))))) as Hw.
  { cbn [spec_ops spec callback_after].
    pose proof (within_ops k v (m_capacity c) os ∅
      (ztake (m_capacity c) ((k, v) :: drop_key k (abs c))) (m_evictCallback c)) as Hw.
    rewrite union_empty_r_L in Hw.
    destruct (spec_ops _ os _ _) as [[rs' l] evs]. simpl in *. apply Hw; [done..|].
    apply within_take; [by rewrite size_empty; lia|].
    assert (NoDup (abs c).*1) as Hn.
    { change (abs c) with (pairs (m_items c)). rewrite pairs_keys. apply Hc. }
    destruct (drop_key_nodup k _ Hn). split; [by apply NoDup_cons|].
    exists [], (drop_key k (abs c)). set_solver. }
  destruct (run_ops (OpPut k v :: os) c) as [rs c'].
  destruct (spec_ops _ (OpPut k v :: os) _ _) as [[rs' l] evs]. simpl in *.
  destruct Hr as (_ & <- & _ & Hc' & _). apply within_find in Hw.
  pose proof (exec_entries c' (OpPeek k) Hc') as (c'' & He & _).
  cbn [spec] in He. rewrite Hw in He. cbn [exec] in He. unfold bind, lift, Prelude.get, ret in He.
  destruct (peek k c') as [r| | |]; congruence.
Qed.

(** ** Witnesses *)

Definition ex_cache : LRUCache nat nat := mkLRU 2 [] ∅ true [] 0.

Lemma ex_cache_make : LRUCache_make (K := nat) (V := nat) 2
  = Ok (mkLRU 2 [] ∅ false [] 0).
Proof. reflexivity. Qed.

Lemma ex_cache_inv : inv ex_cache.
Proof. split; [constructor|]; simpl; done || constructor. Qed.

Lemma lru_refines_witness :
  run_ops [OpPut 1%nat 10%nat; OpPut 2 20; OpGet 1; OpPut 3 30; OpGet 2; OpLru]%nat ex_cache
    = ([Ok AUnit; Ok AUnit; Ok (AValue (Some 10%nat)); Ok AUnit; Ok (AValue None);
        Ok (APair (Some (1, 10)%nat))],
       snd (run_ops [OpPut 1%nat 10%nat; OpPut 2 20; OpGet 1; OpPut 3 30; OpGet 2; OpLru]%nat
              ex_cache)) ∧
  evict_log (snd (run_ops [OpPut 1%nat 10%nat; OpPut 2 20; OpGet 1; OpPut 3 30; OpGet 2; OpLru]%nat
              ex_cache)) = [(2, 20)%nat].
Proof.
  pose proof (lru_refines [OpPut 1%nat 10%nat; OpPut 2 20; OpGet 1; OpPut 3 30; OpGet 2; OpLru]%nat
    ex_cache ex_cache_inv) as Hr.
  destruct (run_ops _ ex_cache) as [rs c']. cbn in Hr.
  destruct Hr as (-> & _ & Hlog & _). split; [reflexivity|exact Hlog].
Defined.
