(* ===== verification/Str.v ===== *)
(** * [dbase::str] (code/src/str/str.cpp)

    String utilities over byte strings.  A [std::string_view] is its characters; [npos]
    is [None]; loops over positions keep their indices.  [std::tolower], [std::toupper]
    and [std::from_chars] are modelled for the "C" locale and base 10; [std::strtod] is
    an argument. *)

From S2P Require Import Prelude Error.
From stdpp Require Import base list strings.
From Stdlib Require Import ZArith Lia Ascii.

Local Open Scope Z_scope.

(** ** [std::string_view] *)

Definition size (s : str) : Z := zlen s.
Definition substr (s : str) (pos len : Z) : res str :=
  if size s <? pos then Throw out_of_range else Ok (ztake len (zdrop pos s)).
Definition substr_from (s : str) (pos : Z) : res str :=
  if size s <? pos then Throw out_of_range else Ok (zdrop pos s).

(** [find(part, pos)] and [find(ch, pos)] *)
Definition find (s part : str) (pos : Z) : option Z :=
  if size s <? pos then None else (λ i, pos + Z.of_nat i) <$> find_sub part (zdrop pos s).
Definition find_ch (s : str) (c : ascii) (pos : Z) : option Z :=
  if size s <? pos then None else (λ i, pos + Z.of_nat i) <$> find_char c (zdrop pos s).

Definition in_chars (chars : str) (c : ascii) : bool := bool_decide (c ∈ chars).

Fixpoint find_first_not_of (s chars : str) : option nat :=
  match s with
  | [] => None
  | c :: s => if in_chars chars c then S <$> find_first_not_of s chars else Some 0%nat
  end.

Fixpoint find_last_not_of (s chars : str) : option nat :=
  match s with
  | [] => None
  | c :: s => match find_last_not_of s chars with
              | Some i => Some (S i)
              | None => if in_chars chars c then None else Some 0%nat
              end
  end.

(** ** Case *)

Definition is_upper (c : ascii) : bool := (65 <=? Z_of_byte c) && (Z_of_byte c <=? 90).
Definition is_lower (c : ascii) : bool := (97 <=? Z_of_byte c) && (Z_of_byte c <=? 122).
Definition lowerAscii (c : ascii) : ascii :=
  if is_upper c then byte_of_Z (Z_of_byte c + 32) else c.
Definition upperAscii (c : ascii) : ascii :=
  if is_lower c then byte_of_Z (Z_of_byte c - 32) else c.

Definition toLower (s : str) : str := lowerAscii <$> s.
Definition toUpper (s : str) : str := upperAscii <$> s.

Fixpoint equalsIgnoreCase_loop (lhs rhs : str) : bool :=
  match lhs, rhs with
  | c :: lhs, d :: rhs =>
      if negb (bool_decide (lowerAscii c = lowerAscii d)) then false
      else equalsIgnoreCase_loop lhs rhs
  | _, _ => true
  end.

Definition equalsIgnoreCase (lhs rhs : str) : bool :=
  if negb (size lhs =? size rhs) then false else equalsIgnoreCase_loop lhs rhs.

(** ** Prefixes, suffixes, search *)

Definition startsWith (s prefix : str) : bool :=
  (size prefix <=? size s) && bool_decide (ztake (size prefix) s = prefix).
Definition endsWith (s suffix : str) : bool :=
  (size suffix <=? size s) && bool_decide (zdrop (size s - size suffix) s = suffix).
Definition contains (s part : str) : bool := bool_decide (is_Some (find s part 0)).

Definition removePrefixView (s prefix : str) : str :=
  if startsWith s prefix then zdrop (size prefix) s else s.
Definition removeSuffixView (s suffix : str) : str :=
  if endsWith s suffix then ztake (size s - size suffix) s else s.

(** ** Trimming *)

Definition default_chars : str := [byte_of_Z 32; byte_of_Z 13; byte_of_Z 10; byte_of_Z 9].

Definition trimImplLeft (s chars : str) : str :=
  match find_first_not_of s chars with None => [] | Some pos => drop pos s end.
Definition trimImplRight (s chars : str) : str :=
  match find_last_not_of s chars with None => [] | Some pos => take (pos + 1) s end.

Definition trimLeftView (s chars : str) : str := trimImplLeft s chars.
Definition trimRightView (s chars : str) : str := trimImplRight s chars.
Definition trimView (s chars : str) : str := trimImplRight (trimImplLeft s chars) chars.
Definition trimLeft (s chars : str) : str := trimLeftView s chars.
Definition trimRight (s chars : str) : str := trimRightView s chars.
Definition trim (s chars : str) : str := trimView s chars.

(** ** Splitting and joining *)

(** [while (begin <= str.size())] of both [splitView] overloads: [look] is the search
    and [width] the size of the delimiter. *)
Fixpoint splitView_loop (fuel : nat) (s : str) (look : Z → option Z) (width : Z)
    (keepEmpty : bool) (begin : Z) (out : list str) : res (list str) :=
  match fuel with
  | O => NoFuel
  | S fuel =>
      if size s <? begin then Ok out
      else
        let pos := look begin in
        let len := match pos with None => size s - begin | Some p => p - begin end in
        let? out := (if negb (len =? 0) || keepEmpty
                     then let? part := substr s begin len in Ok (out ++ [part])
                     else Ok out) in
        match pos with
        | None => Ok out
        | Some p => splitView_loop fuel s look width keepEmpty (p + width) out
        end
  end.

(** Every round but the last moves [begin] forward. *)
Definition split_fuel (s : str) : nat := S (S (length s)).

Definition splitView_char (s : str) (delim : ascii) (keepEmpty : bool) : res (list str) :=
  splitView_loop (split_fuel s) s (find_ch s delim) 1 keepEmpty 0 [].

Definition splitView (s delim : str) (keepEmpty : bool) : res (list str) :=
  match delim with
  | [] => Ok (match s with [] => if keepEmpty then [s] else [] | _ => [s] end)
  | _ => splitView_loop (split_fuel s) s (find s delim) (size delim) keepEmpty 0 []
  end.

Definition split_char (s : str) (delim : ascii) (keepEmpty : bool) : res (list str) :=
  splitView_char s delim keepEmpty.
Definition split (s delim : str) (keepEmpty : bool) : res (list str) :=
  splitView s delim keepEmpty.

(** [for (i = 0; i < parts.size(); ++i)] of [join] *)
Fixpoint join_loop (i : nat) (parts : list str) (delim : str) (out : str) : str :=
  match parts with
  | [] => out
  | p :: parts =>
      let out := if (i =? 0)%nat then out else out ++ delim in
      join_loop (S i) parts delim (out ++ p)
  end.

Definition join (parts : list str) (delim : str) : str :=
  match parts with [] => [] | _ => join_loop 0 parts delim [] end.

(** ** Replacing *)

Definition replaceFirst (s from to : str) : res str :=
  match from with
  | [] => Ok s
  | _ =>
      match find s from 0 with
      | None => Ok s
      | Some pos =>
          let? a := substr s 0 pos in
          let? b := substr_from s (pos + size from) in
          Ok (a ++ to ++ b)
      end
  end.

Fixpoint replaceAll_loop (fuel : nat) (s from to : str) (begin : Z) (out : str) : res str :=
  match fuel with
  | O => NoFuel
  | S fuel =>
      if begin <? size s then
        match find s from begin with
        | None => let? rest := substr_from s begin in Ok (out ++ rest)
        | Some pos =>
            let? part := substr s begin (pos - begin) in
            replaceAll_loop fuel s from to (pos + size from) (out ++ part ++ to)
        end
      else Ok out
  end.

Definition replaceAll (s from to : str) : res str :=
  match from with
  | [] => Ok s
  | _ => replaceAll_loop (split_fuel s) s from to 0 []
  end.

(** ** Numbers *)

Definition is_digit (c : ascii) : bool := (48 <=? Z_of_byte c) && (Z_of_byte c <=? 57).
Definition digit_value (c : ascii) : Z := Z_of_byte c - 48.

Fixpoint digits_prefix (s : str) : str :=
  match s with
  | c :: s => if is_digit c then c :: digits_prefix s else []
  | [] => []
  end.
Definition dec_value (ds : str) : Z := foldl (λ acc c, acc * 10 + digit_value c) 0 ds.

Inductive from_chars_result : Type :=
  | FC_ok (value : Z) (consumed : Z)
  | FC_invalid
  | FC_out_of_range.

(** [std::from_chars] for a signed type with the given bounds: an optional minus sign and
    the longest run of digits. *)
Definition from_chars (lo hi : Z) (s : str) : from_chars_result :=
  let '(neg, body) :=
    match s with
    | c :: s' => if bool_decide (c = byte_of_Z 45) then (true, s') else (false, s)
    | [] => (false, s)
    end in
  let ds := digits_prefix body in
  match ds with
  | [] => FC_invalid
  | _ =>
      let v := if neg then - dec_value ds else dec_value ds in
      if (lo <=? v) && (v <=? hi) then FC_ok v (size ds + (if neg then 1 else 0))
      else FC_out_of_range
  end.

Definition makeParseError {T} (input typeName : str) : Result T :=
  makeErrorResult ParseError
    (lit "failed to parse '" ++ input ++ lit "' as " ++ typeName).

(** The common body of [toInt] and [toInt64]. *)
Definition parse_int (lo hi : Z) (typeName : str) (s0 : str) : Result Z :=
  let s := trimView s0 default_chars in
  match s with
  | [] => makeParseError s0 typeName
  | _ =>
      match from_chars lo hi s with
      | FC_ok v n => if negb (n =? size s) then makeParseError s0 typeName else Value v
      | _ => makeParseError s0 typeName
      end
  end.

Definition toInt (s : str) : Result Z := parse_int (- 2 ^ 31) (2 ^ 31 - 1) (lit "int32") s.
Definition toInt64 (s : str) : Result Z := parse_int INT64_MIN INT64_MAX (lit "int64") s.

(** [strtod] returns the value and the number of characters read of a C string. *)
Definition toDouble {D} (strtod : str → D * Z) (s0 : str) : Result D :=
  let s := trim s0 default_chars in
  match s with
  | [] => makeParseError s0 (lit "double")
  | _ =>
      let '(v, n) := strtod s in
      if negb (n =? size s) then makeParseError s0 (lit "double") else Value v
  end.

Definition toBool (s0 : str) : Result bool :=
  let s := toLower (trimView s0 default_chars) in
  if bool_decide (s = lit "true") || bool_decide (s = lit "1")
     || bool_decide (s = lit "yes") || bool_decide (s = lit "on") then Value true
  else if bool_decide (s = lit "false") || bool_decide (s = lit "0")
     || bool_decide (s = lit "no") || bool_decide (s = lit "off") then Value false
  else makeParseError s0 (lit "bool").

(** ** Searching *)

Lemma is_prefix_spec d s : is_prefix d s = true ↔ ∃ k, s = d ++ k.
Proof.
  revert s. induction d as [|c d IH]; intros s; simpl; [naive_solver|].
  destruct s as [|x s]; [naive_solver|].
  rewrite andb_true_iff, bool_decide_eq_true, IH. naive_solver.
Qed.

(** [d] occurs in [s] at [i]. *)
Definition occurs (d s : str) (i : nat) : Prop := ∃ a k, s = a ++ d ++ k ∧ length a = i.

Lemma occurs_0 d s : occurs d s 0 ↔ is_prefix d s = true.
Proof.
  rewrite is_prefix_spec. split.
  - intros (a & k & -> & Ha). apply nil_length_inv in Ha as ->. by exists k.
  - intros [k ->]. by exists [], k.
Qed.

Lemma occurs_S d x s i : occurs d (x :: s) (S i) ↔ occurs d s i.
Proof.
  split.
  - intros ([|y a] & k & E & Ha); [done|]. injection E as -> ->. exists a, k. naive_solver.
  - intros (a & k & -> & Ha). exists (x :: a), k. simpl. naive_solver.
Qed.

Lemma find_sub_Some d s i : find_sub d s = Some i →
  occurs d s i ∧ ∀ j, (j < i)%nat → ¬ occurs d s j.
Proof.
  revert i. induction s as [|x s IH]; intros i; cbn [find_sub].
  - destruct (is_prefix d []) eqn:E; [|done]. intros [= <-]. split; [by apply occurs_0|lia].
  - destruct (is_prefix d (x :: s)) eqn:E.
    + intros [= <-]. split; [by apply occurs_0|lia].
    + intros (j & Hj & ->)%fmap_Some. destruct (IH j Hj) as [Ho Hn].
      split; [by apply occurs_S|]. intros [|k] Hk.
      * rewrite occurs_0. congruence.
      * rewrite occurs_S. apply Hn. lia.
Qed.

Lemma find_sub_None d s : find_sub d s = None → ∀ j, ¬ occurs d s j.
Proof.
  induction s as [|x s IH]; cbn [find_sub].
  - destruct (is_prefix d []) eqn:E; [done|]. intros _ j (a & k & Hs & Ha).
    symmetry in Hs. apply app_nil in Hs as [-> Hs]. apply app_nil in Hs as [-> ->]. done.
  - destruct (is_prefix d (x :: s)) eqn:E; [done|]. intros Hn%fmap_None [|j].
    + rewrite occurs_0. congruence.
    + rewrite occurs_S. by apply IH.
Qed.

Lemma find_char_sub c s : find_char c s = find_sub [c] s.
Proof.
  induction s as [|x s IH]; [done|]. cbn [find_char find_sub is_prefix].
  rewrite IH, andb_true_r. do 2 case_bool_decide; congruence.
Qed.

Lemma occurs_split d s i : occurs d s i → s = take i s ++ d ++ drop (i + length d) s.
Proof.
  intros (a & k & -> & <-). rewrite take_app_length, drop_app_add', drop_app_length by done.
  done.
Qed.

Lemma find_sub_split d s i : find_sub d s = Some i →
  s = take i s ++ d ++ drop (i + length d) s.
Proof. intros [Ho _]%find_sub_Some. by apply occurs_split. Qed.

(** A piece before the first occurrence does not contain the delimiter. *)
Lemma find_sub_before d s i : d ≠ [] → find_sub d s = Some i → find_sub d (take i s) = None.
Proof.
  intros Hd [Ho Hn]%find_sub_Some. destruct (find_sub d (take i s)) as [j|] eqn:E; [|done].
  apply find_sub_Some in E as [(a & k & Hs & Ha) _]. exfalso.
  assert (length (take i s) = length a + length d + length k)%nat as Hl
    by (rewrite Hs, !length_app; lia).
  rewrite length_take in Hl. assert (0 < length d)%nat by (destruct d; [done|simpl; lia]).
  apply (Hn j); [lia|]. exists a, (k ++ drop i s). split; [|done].
  rewrite <- (take_drop i s) at 1. rewrite Hs, <- !app_assoc. done.
Qed.

(** ** Splitting *)

(** The pieces of [s] between the occurrences of [d], found from left to right. *)
Inductive pieces (d : str) : str → list str → Prop :=
  | pieces_last s : find_sub d s = None → pieces d s [s]
  | pieces_cons s i ps : find_sub d s = Some i → pieces d (drop (i + length d) s) ps →
      pieces d s (take i s :: ps).

Definition kept (keepEmpty : bool) (ps : list str) : list str :=
  if keepEmpty then ps else filter (λ p, p ≠ []) ps.

Lemma kept_cons k p ps :
  kept k (p :: ps) = (if negb (zlen p =? 0) || k then [p] else []) ++ kept k ps.
Proof.
  unfold kept. destruct k; [by rewrite orb_true_r|]. rewrite orb_false_r.
  destruct (Z.eqb_spec (zlen p) 0) as [E|E]; simpl.
  - by rewrite filter_cons_False by (rewrite (zlen_zero _ E); tauto).
  - rewrite filter_cons_True; [done|]. by intros ->.
Qed.

Lemma pieces_inv d s ps : pieces d s ps → ∃ p ps', ps = p :: ps'.
Proof. intros []; eauto. Qed.

Section loops.
Context (s d : str) (Hd : d ≠ []).

Lemma d_pos : (0 < length d)%nat.
Proof. destruct d; [done|simpl; lia]. Qed.

(** The search from [begin], in terms of the rest of the string. *)
Definition looks (look : Z → option Z) : Prop :=
  ∀ begin, 0 ≤ begin ≤ zlen s →
    look begin = (λ i, begin + Z.of_nat i) <$> find_sub d (zdrop begin s).

Lemma looks_find : looks (find s d).
Proof. intros b Hb. unfold find, size. by replace (zlen s <? b) with false by lia. Qed.

Lemma substr_ok begin len : 0 ≤ begin ≤ zlen s → substr s begin len = Ok (ztake len (zdrop begin s)).
Proof. intros Hb. unfold substr, size. by replace (zlen s <? begin) with false by lia. Qed.

(** An occurrence in the rest is within the string. *)
Lemma find_bound begin i : 0 ≤ begin ≤ zlen s → find_sub d (zdrop begin s) = Some i →
  begin + Z.of_nat i + zlen d ≤ zlen s ∧
  drop (i + length d) (zdrop begin s) = zdrop (begin + Z.of_nat i + zlen d) s.
Proof.
  intros Hb Hf. pose proof (find_sub_split _ _ _ Hf) as Hs. apply (f_equal zlen) in Hs.
  rewrite zlen_zdrop, !zlen_app in Hs by done.
  pose proof (find_sub_Some _ _ _ Hf) as [(a & k & Ha & Hl) _].
  apply (f_equal zlen) in Ha. rewrite zlen_zdrop, !zlen_app in Ha by done.
  pose proof (zlen_nonneg k). pose proof (zlen_nonneg d). split; [unfold zlen in *; lia|].
  unfold zdrop. rewrite drop_drop. f_equal. unfold zlen in *. lia.
Qed.

Lemma splitView_loop_spec look k : looks look → ∀ fuel begin out,
  0 ≤ begin ≤ zlen s → zlen s - begin + 1 < Z.of_nat fuel →
  ∃ ps, pieces d (zdrop begin s) ps ∧
    splitView_loop fuel s look (zlen d) k begin out = Ok (out ++ kept k ps).
Proof.
  intros Hlook. pose proof d_pos. induction fuel as [|fuel IH]; intros begin out Hb Hf; [lia|].
  cbn [splitView_loop]. unfold size. replace (zlen s <? begin) with false by lia.
  rewrite Hlook by done. destruct (find_sub d (zdrop begin s)) as [i|] eqn:E; simpl.
  - destruct (find_bound begin i Hb E) as [Hbound Hdrop]. pose proof (zlen_nonneg d).
    assert (1 ≤ zlen d) by (unfold zlen; lia).
    destruct (IH (begin + Z.of_nat i + zlen d)
      (out ++ (if negb (Z.of_nat i =? 0) || k then [take i (zdrop begin s)] else [])))
      as (ps & Hps & Hloop); [lia|lia|].
    exists (take i (zdrop begin s) :: ps). split.
    + apply pieces_cons; [done|]. by rewrite Hdrop.
    + rewrite kept_cons, app_assoc.
      assert (zlen (take i (zdrop begin s)) = Z.of_nat i) as ->.
      { pose proof (zlen_zdrop begin s Hb). unfold zlen in *. rewrite length_take. lia. }
      replace (begin + Z.of_nat i - begin) with (Z.of_nat i) by lia.
      rewrite substr_ok by done. unfold ztake. rewrite Nat2Z.id.
      destruct (negb (Z.of_nat i =? 0) || k); simpl; [done|].
      by rewrite app_nil_r in Hloop |- *.
  - exists [zdrop begin s]. split; [by apply pieces_last|].
    rewrite kept_cons. unfold kept. rewrite zlen_zdrop, substr_ok by done.
    rewrite ztake_all by (rewrite zlen_zdrop; lia).
    destruct (negb (zlen s - begin =? 0) || k); simpl; by destruct k; rewrite ?app_nil_r.
Qed.

End loops.

Lemma looks_find_ch s c : looks s [c] (find_ch s c).
Proof.
  intros b Hb. unfold find_ch, size. replace (zlen s <? b) with false by lia.
  by rewrite find_char_sub.
Qed.

Lemma split_fuel_ok (s : str) : zlen s - 0 + 1 < Z.of_nat (split_fuel s).
Proof. unfold split_fuel, zlen. lia. Qed.

Lemma splitView_spec s d k : d ≠ [] →
  ∃ ps, pieces d s ps ∧ splitView s d k = Ok (kept k ps).
Proof.
  intros Hd. pose proof (zlen_nonneg s).
  destruct (splitView_loop_spec s d Hd (find s d) k (looks_find s d) (split_fuel s) 0 [])
    as (ps & Hps & Hl); [lia|apply split_fuel_ok|].
  exists ps. split; [done|]. by destruct d.
Qed.

Lemma splitView_char_spec s c k :
  ∃ ps, pieces [c] s ps ∧ splitView_char s c k = Ok (kept k ps).
Proof.
  pose proof (zlen_nonneg s).
  destruct (splitView_loop_spec s [c] ltac:(done) (find_ch s c) k (looks_find_ch s c) (split_fuel s) 0 [])
    as (ps & Hps & Hl); [lia|apply split_fuel_ok|]. eauto.
Qed.

(** Pieces are determined by the string. *)
Lemma pieces_det d s ps ps' : pieces d s ps → pieces d s ps' → ps = ps'.
Proof.
  intros H. revert ps'. induction H as [s Hn|s i ps Hi _ IH]; intros ps' H'; inversion H'; subst;
    try congruence.
  replace i0 with i in * by congruence. f_equal. auto.
Qed.

(** ** Joining *)

Fixpoint intersperse (parts : list str) (delim : str) : str :=
  match parts with
  | [] => []
  | [p] => p
  | p :: parts => p ++ delim ++ intersperse parts delim
  end.

Lemma join_loop_spec parts delim : ∀ i out, (0 < i)%nat →
  join_loop i parts delim out = out ++ concat ((λ p, delim ++ p) <$> parts).
Proof.
  induction parts as [|p parts IH]; intros i out Hi; simpl; [by rewrite app_nil_r|].
  destruct (Nat.eqb_spec i 0); [lia|]. rewrite IH by lia. by rewrite <- !app_assoc.
Qed.

Lemma intersperse_concat p parts delim :
  intersperse (p :: parts) delim = p ++ concat ((λ p, delim ++ p) <$> parts).
Proof.
  revert p. induction parts as [|q parts IH]; intros p; [by rewrite app_nil_r|].
  change (intersperse (p :: q :: parts) delim)
    with (p ++ delim ++ intersperse (q :: parts) delim).
  rewrite IH. simpl. by rewrite <- app_assoc.
Qed.

Lemma join_intersperse parts delim : join parts delim = intersperse parts delim.
Proof.
  destruct parts as [|p parts]; [done|]. rewrite intersperse_concat. unfold join. simpl.
  by rewrite join_loop_spec by lia.
Qed.

Lemma pieces_join d s ps : pieces d s ps → join ps d = s.
Proof.
  rewrite join_intersperse. induction 1 as [s Hn|s i ps Hi Hp IH]; [done|].
  destruct (pieces_inv _ _ _ Hp) as (p & ps' & ->).
  change (take i s ++ d ++ intersperse (p :: ps') d = s). rewrite IH.
  symmetry. by apply find_sub_split.
Qed.

Lemma pieces_free d s ps : d ≠ [] → pieces d s ps → Forall (λ p, find_sub d p = None) ps.
Proof.
  intros Hd. induction 1 as [s Hn|s i ps Hi Hp IH]; [by repeat constructor|].
  constructor; [by apply find_sub_before|done].
Qed.

Lemma find_sub_char c p rest : c ∉ p → find_sub [c] (p ++ c :: rest) = Some (length p).
Proof.
  intros Hc. rewrite <- find_char_sub. induction p as [|x p IH]; simpl.
  - by rewrite bool_decide_true.
  - apply not_elem_of_cons in Hc as [Hx Hc]. rewrite bool_decide_false by done.
    by rewrite IH.
Qed.

Lemma find_sub_char_None c p : c ∉ p → find_sub [c] p = None.
Proof.
  intros Hc. rewrite <- find_char_sub. induction p as [|x p IH]; [done|]. simpl.
  apply not_elem_of_cons in Hc as [Hx Hc]. rewrite bool_decide_false by done. by rewrite IH.
Qed.

Lemma pieces_intersperse c p parts : Forall (λ p, c ∉ p) (p :: parts) →
  pieces [c] (intersperse (p :: parts) [c]) (p :: parts).
Proof.
  revert p. induction parts as [|q parts IH]; intros p [Hp Hps]%Forall_cons.
  - apply pieces_last. by apply find_sub_char_None.
  - change (intersperse (p :: q :: parts) [c]) with (p ++ c :: intersperse (q :: parts) [c]).
    set (rest := intersperse (q :: parts) [c]).
    pose proof (pieces_cons [c] (p ++ c :: rest) (length p) (q :: parts)
      (find_sub_char c p rest Hp)) as H.
    rewrite take_app_length in H. apply H.
    rewrite drop_app_add'; [|done]. simpl. rewrite drop_0. by apply IH.
Qed.

(** ** Replacing *)

Lemma replaceAll_loop_spec s from to : from ≠ [] → ∀ fuel begin out,
  0 ≤ begin ≤ zlen s → zlen s - begin + 1 < Z.of_nat fuel →
  ∃ ps, pieces from (zdrop begin s) ps ∧
    replaceAll_loop fuel s from to begin out = Ok (out ++ join ps to).
Proof.
  intros Hd. pose proof (d_pos from Hd).
  induction fuel as [|fuel IH]; intros begin out Hb Hf; [lia|].
  cbn [replaceAll_loop]. unfold size. destruct (Z.ltb_spec begin (zlen s)) as [Hlt|Hge].
  - rewrite (looks_find s from) by done.
    destruct (find_sub from (zdrop begin s)) as [i|] eqn:E; simpl.
    + destruct (find_bound s from begin i Hb E) as [Hbound Hdrop].
      assert (1 ≤ zlen from) by (unfold zlen; lia).
      rewrite substr_ok by done. simpl.
      replace (begin + Z.of_nat i - begin) with (Z.of_nat i) by lia.
      unfold ztake. rewrite Nat2Z.id.
      destruct (IH (begin + Z.of_nat i + zlen from) (out ++ take i (zdrop begin s) ++ to))
        as (ps & Hps & ->); [lia|lia|].
      exists (take i (zdrop begin s) :: ps). split.
      * apply pieces_cons; [done|]. by rewrite Hdrop.
      * destruct (pieces_inv _ _ _ Hps) as (p & ps' & ->).
        rewrite !join_intersperse, <- !app_assoc. done.
    + exists [zdrop begin s]. split; [by apply pieces_last|].
      unfold substr_from, size. by replace (zlen s <? begin) with false by lia.
  - exists [[]]. rewrite zdrop_all by lia. split.
    + apply pieces_last. by destruct from.
    + by rewrite app_nil_r.
Qed.

(** ** Trimming *)

Lemma in_chars_spec chars c : in_chars chars c = true ↔ c ∈ chars.
Proof. apply bool_decide_eq_true. Qed.

Lemma trimImplLeft_spec s chars : ∃ l, s = l ++ trimImplLeft s chars ∧
  Forall (λ c, c ∈ chars) l ∧
  match trimImplLeft s chars with [] => True | c :: _ => c ∉ chars end.
Proof.
  unfold trimImplLeft. induction s as [|c s IH]; [by exists []|]. simpl.
  destruct (in_chars chars c) eqn:E.
  - apply in_chars_spec in E. destruct IH as (l & Hs & Hl & Hm).
    destruct (find_first_not_of s chars) as [i|]; simpl.
    + exists (c :: l). simpl. rewrite <- Hs. auto.
    + exists (c :: l). rewrite app_nil_r in Hs |- *. subst l. auto.
  - exists []. simpl. split_and!; [done|constructor|]. rewrite <- in_chars_spec. congruence.
Qed.

Lemma find_last_not_of_spec s chars :
  match find_last_not_of s chars with
  | Some i => ∃ a c r, s = a ++ c :: r ∧ length a = i ∧ (c ∉ chars) ∧ Forall (λ c, c ∈ chars) r
  | None => Forall (λ c, c ∈ chars) s
  end.
Proof.
  induction s as [|x s IH]; simpl; [constructor|].
  destruct (find_last_not_of s chars) as [i|].
  - destruct IH as (a & c & r & -> & <- & ? & ?). by exists (x :: a), c, r.
  - destruct (in_chars chars x) eqn:E.
    + apply in_chars_spec in E. auto.
    + exists [], x, s. split_and!; try done. rewrite <- in_chars_spec. congruence.
Qed.

Lemma trimImplRight_spec s chars : ∃ r, s = trimImplRight s chars ++ r ∧
  Forall (λ c, c ∈ chars) r ∧
  match last (trimImplRight s chars) with None => True | Some c => c ∉ chars end.
Proof.
  unfold trimImplRight. pose proof (find_last_not_of_spec s chars) as H.
  destruct (find_last_not_of s chars) as [i|]; [|by exists s].
  destruct H as (a & c & r & -> & <- & Hc & Hr). exists r.
  assert (take (length a + 1) (a ++ c :: r) = a ++ [c]) as ->.
  { by rewrite take_app_add', firstn_cons, take_0 by done. }
  rewrite last_snoc. split_and!; [by rewrite <- app_assoc|done..].
Qed.

Lemma trimImplRight_prefix s chars : s = [] ∨ head s = head (trimImplRight s chars) ∨
  trimImplRight s chars = [].
Proof.
  destruct (trimImplRight_spec s chars) as (r & Hs & _).
  destruct (trimImplRight s chars) as [|c t]; [auto|]. right; left. by rewrite Hs.
Qed.

(** ** Numerals *)

Definition minus : ascii := byte_of_Z 45.
Abbreviation all_digits ds := (Forall (λ c, is_digit c = true) ds).

(** [s] is the decimal numeral of [z]. *)
Definition numeral (s : str) (z : Z) : Prop :=
  ∃ ds, ds ≠ [] ∧ all_digits ds ∧
    ((s = ds ∧ z = dec_value ds) ∨ (s = minus :: ds ∧ z = - dec_value ds)).

Lemma digits_prefix_split s : all_digits (digits_prefix s) ∧
  ∃ rest, s = digits_prefix s ++ rest.
Proof.
  induction s as [|c s (IH1 & rest & IH2)]; simpl; [by split; [constructor|exists []]|].
  destruct (is_digit c) eqn:E.
  - split; [by constructor|]. exists rest. simpl. by rewrite <- IH2.
  - split; [constructor|]. by exists (c :: s).
Qed.

Lemma digits_prefix_all ds : all_digits ds → digits_prefix ds = ds.
Proof. induction 1 as [|c ds Hc _ IH]; [done|]. simpl. by rewrite Hc, IH. Qed.

Lemma digits_prefix_full s : zlen (digits_prefix s) = zlen s → all_digits s.
Proof.
  destruct (digits_prefix_split s) as (Hd & rest & Hs). intros Hl.
  rewrite Hs in Hl at 2. rewrite zlen_app in Hl.
  rewrite (zlen_zero rest) in Hs by lia. rewrite app_nil_r in Hs. by rewrite Hs.
Qed.

Lemma minus_not_digit ds : ds ≠ [] → all_digits ds → ∃ c ds', ds = c :: ds' ∧ c ≠ minus.
Proof.
  intros Hne Hd. destruct ds as [|c ds]; [done|]. apply Forall_cons in Hd as [Hc _].
  exists c, ds. split; [done|]. by intros ->.
Qed.

Lemma FC_ok_inj a b c d : FC_ok a b = FC_ok c d → a = c ∧ b = d.
Proof. by intros [= -> ->]. Qed.

Lemma from_chars_full lo hi s z :
  from_chars lo hi s = FC_ok z (size s) ↔ numeral s z ∧ lo ≤ z ≤ hi.
Proof.
  unfold size. split.
  - unfold from_chars, size. destruct s as [|c s]; [done|].
    case_bool_decide as Ec.
    + destruct (digits_prefix s) as [|x ds] eqn:E; [done|].
      destruct (_ && _) eqn:Eb; [|done]. intros [<- Hl]%FC_ok_inj. rewrite <- E in *.
      rewrite zlen_cons in Hl. assert (all_digits s) as Hs by (apply digits_prefix_full; lia).
      rewrite digits_prefix_all in * by done. split; [|lia].
      exists s. split_and!; [by rewrite E|done|]. right. by rewrite Ec.
    + destruct (digits_prefix (c :: s)) as [|x ds] eqn:E; [done|].
      destruct (_ && _) eqn:Eb; [|done]. intros [<- Hl]%FC_ok_inj. rewrite <- E in *.
      rewrite Z.add_0_r in Hl. apply digits_prefix_full in Hl.
      rewrite digits_prefix_all in * by done. split; [|lia].
      exists (c :: s). split_and!; [done|done|by left].
  - intros [(ds & Hne & Hd & [[-> ->]|[-> ->]]) Hr]; unfold from_chars, size.
    + destruct (minus_not_digit ds Hne Hd) as (c & ds' & -> & Hc).
      rewrite bool_decide_false by done. rewrite digits_prefix_all by done.
      replace (_ && _) with true by lia. by rewrite Z.add_0_r.
    + rewrite bool_decide_true by done. rewrite digits_prefix_all by done.
      destruct ds as [|c ds]; [done|]. replace (_ && _) with true by lia.
      f_equal. rewrite (zlen_cons minus). lia.
Qed.

Lemma parse_int_spec lo hi ty s z :
  parse_int lo hi ty s = Value z ↔ numeral (trimView s default_chars) z ∧ lo ≤ z ≤ hi.
Proof.
  rewrite <- from_chars_full. unfold parse_int.
  destruct (trimView s default_chars) as [|c t] eqn:Et; [done|].
  destruct (from_chars lo hi (c :: t)) as [v n| |]; [|done..].
  destruct (Z.eqb_spec n (size (c :: t))) as [->|Hn]; cbn [negb].
  - split; congruence.
  - split; [done|]. by intros [_ ?]%FC_ok_inj.
Qed.

Lemma parse_int_error lo hi ty s :
  (∀ z, parse_int lo hi ty s ≠ Value z) → parse_int lo hi ty s = makeParseError s ty.
Proof.
  unfold parse_int. intros Hn. destruct (trimView s default_chars); [done|].
  destruct (from_chars _ _ _) as [v n| |]; [|done..]. destruct (negb _); [done|]. naive_solver.
Qed.

Lemma digit_spec d : 0 ≤ d ≤ 9 → is_digit (digit d) = true ∧ digit_value (digit d) = d.
Proof.
  intros Hd. unfold is_digit, digit_value, digit. rewrite Z_of_byte_of_Z.
  unfold u8. rewrite wrap_small by lia. lia.
Qed.

Lemma dec_value_snoc ds c : dec_value (ds ++ [c]) = dec_value ds * 10 + digit_value c.
Proof. unfold dec_value. by rewrite foldl_app. Qed.

Lemma dec_digits_spec fuel : ∀ z, 0 ≤ z < 2 ^ Z.of_nat fuel → (0 < fuel)%nat →
  dec_value (dec_digits fuel z) = z ∧ all_digits (dec_digits fuel z) ∧ dec_digits fuel z ≠ [].
Proof.
  induction fuel as [|fuel IH]; intros z Hz Hf; [lia|]. cbn [dec_digits].
  destruct (Z.ltb_spec z 10) as [Hlt|Hge].
  - destruct (digit_spec z ltac:(lia)) as [Hd Hv]. unfold dec_value. simpl. rewrite Hv.
    split_and!; [lia|by repeat constructor|done].
  - rewrite Nat2Z.inj_succ, Z.pow_succ_r in Hz by lia.
    destruct fuel as [|fuel]; [simpl in Hz; lia|].
    destruct (IH (z / 10)) as (Hv & Hd & Hne); [|lia|].
    { split; [apply Z.div_pos; lia|]. apply Z.div_lt_upper_bound; lia. }
    pose proof (Z.mod_pos_bound z 10 ltac:(lia)).
    destruct (digit_spec (z mod 10) ltac:(lia)) as [Hd2 Hv2].
    rewrite dec_value_snoc, Hv, Hv2. pose proof (Z.div_mod z 10 ltac:(lia)).
    split_and!; [lia|by apply Forall_app; split; [|repeat constructor]|].
    intros E. by apply app_nil in E as [].
Qed.

Lemma to_string_numeral z : numeral (to_string z) z.
Proof.
  assert (∀ v, 0 ≤ v → v < 2 ^ Z.of_nat (S (Z.to_nat (Z.log2 v)))) as Hb.
  { intros v Hv. rewrite Nat2Z.inj_succ, Z2Nat.id by apply Z.log2_nonneg.
    destruct (Z.eq_dec v 0) as [->|]; [done|]. apply Z.log2_spec. lia. }
  unfold to_string. destruct (Z.ltb_spec z 0).
  - destruct (dec_digits_spec (S (Z.to_nat (Z.log2 (- z)))) (- z)) as (Hv & Hd & Hne);
      [split; [lia|apply Hb; lia]|lia|].
    exists (dec_digits (S (Z.to_nat (Z.log2 (- z)))) (- z)). split_and!; [done..|]. right.
    split; [done|lia].
  - destruct (dec_digits_spec (S (Z.to_nat (Z.log2 z))) z) as (Hv & Hd & Hne);
      [split; [lia|apply Hb; lia]|lia|].
    exists (dec_digits (S (Z.to_nat (Z.log2 z))) z). split_and!; [done..|]. by left.
Qed.

(** Trimming what does not start or end with white space changes nothing. *)
Lemma trim_id s chars : match head s with None => True | Some c => c ∉ chars end →
  match last s with None => True | Some c => c ∉ chars end → trimView s chars = s.
Proof.
  intros Hh Hl. unfold trimView.
  assert (trimImplLeft s chars = s) as ->.
  { destruct s as [|c s]; [done|]. unfold trimImplLeft. simpl in *.
    destruct (in_chars chars c) eqn:E; [by apply in_chars_spec in E|done]. }
  unfold trimImplRight. pose proof (find_last_not_of_spec s chars) as H.
  destruct (find_last_not_of s chars) as [i|].
  - destruct H as (a & c & r & -> & <- & Hc & Hr).
    destruct (exists_last (l := c :: r)) as (k & x & E); [done|].
    assert (r = []) as ->.
    { destruct r as [|y r]; [done|]. rewrite E, app_assoc, last_snoc in Hl.
      exfalso. apply Hl. rewrite Forall_forall in Hr. apply Hr.
      destruct k as [|z k]; [done|]. injection E as -> E. rewrite E.
      apply elem_of_app. right. by apply list_elem_of_singleton. }
    by rewrite take_app_add', firstn_cons, take_0 by done.
  - destruct s as [|c s]; [done|]. apply Forall_cons in H as [Hc _]. done.
Qed.

Lemma digit_not_blank c : is_digit c = true → c ∉ default_chars.
Proof.
  intros Hd Hin. unfold default_chars in Hin.
  rewrite !elem_of_cons, elem_of_nil in Hin. destruct Hin as [->|[->|[->|[->|[]]]]]; done.
Qed.

Lemma numeral_trim s z : numeral s z → trimView s default_chars = s.
Proof.
  intros (ds & Hne & Hd & Hs). destruct (exists_last Hne) as (ds' & c & E).
  pose proof Hd as Hd'. rewrite E, Forall_app, Forall_cons in Hd'. destruct Hd' as (_ & Hc & _).
  apply trim_id.
  - destruct Hs as [[-> _]|[-> _]]; simpl.
    + destruct ds as [|x ds]; [done|]. apply Forall_cons in Hd as [Hx _].
      by apply digit_not_blank.
    + apply (bool_decide_unpack (minus ∉ default_chars)). by vm_compute.
  - destruct Hs as [[-> _]|[-> _]]; rewrite E, ?app_comm_cons, last_snoc;
      by apply digit_not_blank.
Qed.

(** ** Properties *)

(** [split] cuts a string exactly at its delimiters: with [keepEmpty] the parts
    joined by the delimiter are the string and no part contains the delimiter; without
    it the parts are the same ones less the empty ones.  It never throws. *)
Lemma split_exact s d : d ≠ [] →
  ∃ ps, split s d true = Ok ps ∧ split s d false = Ok (filter (λ p, p ≠ []) ps) ∧
    join ps d = s ∧ Forall (λ p, contains p d = false) ps.
Proof.
  intros Hd. destruct (splitView_spec s d true Hd) as (ps & Hps & Ht).
  destruct (splitView_spec s d false Hd) as (ps' & Hps' & Hf).
  rewrite <- (pieces_det _ _ _ _ Hps Hps') in Hf.
  exists ps. split_and!; [done|done|by apply pieces_join|].
  eapply Forall_impl; [by eapply pieces_free|]. intros p Hp.
  unfold contains, find. change (zdrop 0 p) with p. rewrite Hp.
  apply bool_decide_eq_false. unfold size. pose proof (zlen_nonneg p).
  replace (zlen p <? 0) with false by lia. by intros [? ?].
Qed.

(** Splitting at a character undoes joining with it: any non-empty list of parts
    that do not contain the character is recovered from its join. *)
Lemma split_join_roundtrip c p parts : Forall (λ p, c ∉ p) (p :: parts) →
  split_char (join (p :: parts) [c]) c true = Ok (p :: parts).
Proof.
  intros Hp. rewrite join_intersperse.
  destruct (splitView_char_spec (intersperse (p :: parts) [c]) c true) as (ps & Hps & Hs).
  unfold split_char. rewrite Hs. unfold kept. f_equal.
  eapply pieces_det; [done|]. by apply pieces_intersperse.
Qed.

(** [replaceAll] is splitting at [from] and joining with [to]. *)
Lemma replaceAll_split_join s from to : from ≠ [] →
  ∃ ps, split s from true = Ok ps ∧ replaceAll s from to = Ok (join ps to).
Proof.
  intros Hf. destruct (splitView_spec s from true Hf) as (ps & Hps & Ht).
  pose proof (zlen_nonneg s).
  destruct (replaceAll_loop_spec s from to Hf (split_fuel s) 0 []) as (ps' & Hps' & Hr);
    [lia|apply split_fuel_ok|].
  rewrite zdrop_0 in Hps'. rewrite <- (pieces_det _ _ _ _ Hps Hps') in Hr.
  exists ps. split; [done|]. by destruct from.
Qed.

(** [trim] removes exactly the surrounding characters of the set: what is cut off on
    either side consists of them, and what is left neither starts nor ends with one. *)
Lemma trim_exact s chars : ∃ l r, s = l ++ trim s chars ++ r ∧
  Forall (λ c, c ∈ chars) l ∧ Forall (λ c, c ∈ chars) r ∧
  match head (trim s chars) with None => True | Some c => c ∉ chars end ∧
  match last (trim s chars) with None => True | Some c => c ∉ chars end.
Proof.
  unfold trim, trimView. destruct (trimImplLeft_spec s chars) as (l & Hs & Hl & Hh).
  destruct (trimImplRight_spec (trimImplLeft s chars) chars) as (r & Ht & Hr & Hlast).
  exists l, r. split_and!; [by rewrite <- Ht|done..| |done].
  destruct (trimImplRight (trimImplLeft s chars) chars) as [|c t]; [done|].
  by rewrite Ht in Hh.
Qed.

(** [toInt] and [toInt64] accept exactly the decimal numerals of their range, with
    surrounding white space, and return their value; anything else is a [ParseError]
    that quotes the input. *)
Lemma toInt_exact s :
  (∀ z, toInt64 s = Value z ↔ numeral (trim s default_chars) z ∧ in_i64 z) ∧
  (∀ z, toInt s = Value z ↔ numeral (trim s default_chars) z ∧ - 2 ^ 31 ≤ z < 2 ^ 31) ∧
  ((∀ z, toInt64 s ≠ Value z) → toInt64 s = makeParseError s (lit "int64")) ∧
  ((∀ z, toInt s ≠ Value z) → toInt s = makeParseError s (lit "int32")).
Proof.
  split_and!.
  - intros z. unfold toInt64. apply parse_int_spec.
  - intros z. unfold toInt. rewrite parse_int_spec. unfold trim. intuition lia.
  - apply parse_int_error.
  - apply parse_int_error.
Qed.

(** [toInt64] reads back what [std::to_string] prints. *)
Lemma toInt64_roundtrip z : in_i64 z → toInt64 (to_string z) = Value z.
Proof.
  intros Hz. unfold toInt64. apply parse_int_spec. pose proof (to_string_numeral z) as Hn.
  by rewrite (numeral_trim _ _ Hn).
Qed.

(** ** Witnesses *)
