(* ===== verification/Served.v ===== *)
(** * What [TcpServer] and [TcpClient] need of a connection

    The class [ServedConn] has the operations that an owner of connections uses, the class
    [ServedConnLaws] what it relies on: a new connection is established without an exception,
    and calls its close callback at most once.  [ServerConnections.v] gives the instance for
    [Connection].  The interval of the idle check is the same in both owners. *)

From S2P Require Import Prelude Error Endian Buffer Codec Channel Connection.
From stdpp Require Import base list.
From Stdlib Require Import ZArith Lia.

Local Open Scope Z_scope.

(** What the owner sets on a new connection *)
Record Settings : Type := mkSettings {
  m_codec : option LengthFieldCodec;
  m_maxOutputBufferBytes : Z;
  m_outputOverflowPolicy : OutputOverflowPolicy;
  m_autoReadFlowControlEnabled : bool;
  m_readPauseHighWaterMark : Z;
  m_readResumeLowWaterMark : Z;
  m_edgeTriggered : bool;
  m_connectionCallback : bool;
  m_messageCallback : bool;
  m_frameMessageCallback : bool;
  m_writeCompleteCallback : bool;
  m_highWaterMarkCallback : bool;
}.

(** What the owner runs on a connection, in the loop of the connection *)
Inductive Job : Type :=
  | Establish                 (* [connectEstablished] *)
  | Destroy                   (* [connectDestroyed] *)
  | Heartbeat                 (* [markKeepAliveProbeSent], then the user's callback *)
  | Idle (callback : bool)    (* the user's callback, or [forceClose] *)
  | Shutdown.                 (* [shutdown] *)

#[global] Instance Job_eq_dec : EqDecision Job.
Proof. solve_decision. Defined.

(** A connection as its owner sees it.  [World]: the socket and what the network will do;
    [Act]: whatever else happens to a connection. *)
Class ServedConn (C World Act : Type) : Type := {
  c_make : Settings → World → res C;
  c_run : Job → M C ();
  c_act : Act → M C ();
  c_closes : C → nat;         (* calls of the close callback so far *)
  c_connecting : C → bool;    (* not yet established *)
  c_connected : C → bool;
  c_idleFor : C → Z;
  c_lastProbeAt : C → Z;
  c_probeIdleFor : C → Z;
}.

Definition settings_ok (t : Settings) : Prop :=
  match m_codec t with Some k => valid k | None => True end ∧
  0 ≤ m_maxOutputBufferBytes t ≤ 2 ^ 60 ∧
  0 ≤ m_readResumeLowWaterMark t ∧ 0 ≤ m_readPauseHighWaterMark t.

Class ServedConnLaws (C World Act : Type) {ops : ServedConn C World Act} : Type := {
  c_ok : C → Prop;
  world_ok : World → Prop;
  act_ok : Act → Prop;
  c_connecting_not c : c_connecting c = true → c_connected c = false;
  c_make_ok s w : settings_ok s → world_ok w →
    ∃ c, c_make s w = Ok c ∧ c_ok c ∧ c_closes c = 0%nat ∧ c_connecting c = true;
  c_closes_once c : c_ok c → (c_closes c ≤ 1)%nat;
  c_establish_ok c : c_ok c → c_connecting c = true →
    wp (c_run Establish) c (λ _ c', c_ok c' ∧ (c_closes c ≤ c_closes c')%nat) nothrow;
  c_run_ok j c : c_ok c →
    wp (c_run j) c (λ _ c', c_ok c' ∧ (c_closes c ≤ c_closes c')%nat)
      (λ _ c', c_ok c' ∧ (c_closes c ≤ c_closes c')%nat);
  c_act_ok a c : c_ok c → act_ok a →
    wp (c_act a) c (λ _ c', c_ok c' ∧ (c_closes c ≤ c_closes c')%nat)
      (λ _ c', c_ok c' ∧ (c_closes c ≤ c_closes c')%nat);
}.

(** Milliseconds *)
Definition baseInterval (idleTimeout heartbeatInterval : Z) : Z :=
  if (0 <? idleTimeout) && (0 <? heartbeatInterval) then
    Z.min (Z.max 1000 (Z.quot idleTimeout 2)) heartbeatInterval
  else if 0 <? idleTimeout then Z.max 1000 (Z.quot idleTimeout 2)
  else if 0 <? heartbeatInterval then heartbeatInterval
  else 0.
