(* ===== verification/TcpServer.v ===== *)
(** * [dbase::net::TcpServer] (code/src/net/tcp_server.cpp, tcp_server.h)

    A server: the acceptor in the base loop, the registry of connections, the choice of an I/O
    loop for each, their removal after they have closed, and the check for idle ones.

    The state of a run holds the server, the connections made so far (numbered), and the queue of
    functors of every loop; loop 0 is the base loop.  A label is what happens next: a functor of
    one of the loops runs, the poller reports new connections, a connection does something in its
    loop, the idle timer is due, the user calls a setter or [start].  So the lists of labels are
    the interleavings of the threads.  An exception of a label reaches whoever runs the loop,
    which may go on.

    The connections are those of [Served.v].  A call of the user's
    heartbeat or idle callback is the last thing its functor does, so what it calls are labels
    that follow. *)

From S2P Require Import Prelude Error Endian Buffer Codec Channel Connection Str Acceptor Served.
From stdpp Require Import base gmap list strings.
From Stdlib Require Import ZArith Lia Ascii.

Local Open Scope Z_scope.

Inductive Functor : Type :=
  | FInit                     (* the thread's start callback *)
  | FJob (i : nat) (j : Job)
  | FRemove (i : nat).        (* [removeConnectionInLoop] *)

#[global] Instance Functor_eq_dec : EqDecision Functor.
Proof. solve_decision. Defined.

Section server.
Context {C World Act : Type} `{ServedConn C World Act}.

Record TcpServer : Type := mkServer {
  m_name : str;
  m_acceptor : Acceptor World;
  m_acceptChannel : bool;
  m_threadPool : option EventLoopThreadPool;
  m_started : bool;
  m_nextConnId : Z;
  m_threadCount : Z;
  m_settings : Settings;
  m_idleTimeout : Z;
  m_heartbeatInterval : Z;
  m_idleCheckTimerId : option Z;     (* the interval of the armed timer *)
  m_threadInitCallback : bool;
  m_heartbeatCallback : bool;
  m_idleCallback : bool;
  m_connections : gmap str nat;
}.

(** A connection with its name and loop; [e_log] is history: what the server has run on it and
    in which loop. *)
Record Entry : Type := mkEntry {
  e_conn : C;
  e_name : str;
  e_loop : nat;
  e_log : list (nat * Job);
}.

Record Sys : Type := mkSys {
  server : TcpServer;
  conns : list Entry;
  queues : list (list Functor);
}.

(** ** Updates *)

Definition set_acceptor x v := mkServer (m_name v) x (m_acceptChannel v) (m_threadPool v) (m_started v)
  (m_nextConnId v) (m_threadCount v) (m_settings v) (m_idleTimeout v) (m_heartbeatInterval v)
  (m_idleCheckTimerId v) (m_threadInitCallback v) (m_heartbeatCallback v) (m_idleCallback v) (m_connections v).
Definition set_acceptChannel x v := mkServer (m_name v) (m_acceptor v) x (m_threadPool v) (m_started v)
  (m_nextConnId v) (m_threadCount v) (m_settings v) (m_idleTimeout v) (m_heartbeatInterval v)
  (m_idleCheckTimerId v) (m_threadInitCallback v) (m_heartbeatCallback v) (m_idleCallback v) (m_connections v).
Definition set_pool x v := mkServer (m_name v) (m_acceptor v) (m_acceptChannel v) x (m_started v)
  (m_nextConnId v) (m_threadCount v) (m_settings v) (m_idleTimeout v) (m_heartbeatInterval v)
  (m_idleCheckTimerId v) (m_threadInitCallback v) (m_heartbeatCallback v) (m_idleCallback v) (m_connections v).
Definition set_started x v := mkServer (m_name v) (m_acceptor v) (m_acceptChannel v) (m_threadPool v) x
  (m_nextConnId v) (m_threadCount v) (m_settings v) (m_idleTimeout v) (m_heartbeatInterval v)
  (m_idleCheckTimerId v) (m_threadInitCallback v) (m_heartbeatCallback v) (m_idleCallback v) (m_connections v).
Definition set_nextConnId x v := mkServer (m_name v) (m_acceptor v) (m_acceptChannel v) (m_threadPool v)
  (m_started v) x (m_threadCount v) (m_settings v) (m_idleTimeout v) (m_heartbeatInterval v)
  (m_idleCheckTimerId v) (m_threadInitCallback v) (m_heartbeatCallback v) (m_idleCallback v) (m_connections v).
Definition set_threadCount x v := mkServer (m_name v) (m_acceptor v) (m_acceptChannel v) (m_threadPool v)
  (m_started v) (m_nextConnId v) x (m_settings v) (m_idleTimeout v) (m_heartbeatInterval v)
  (m_idleCheckTimerId v) (m_threadInitCallback v) (m_heartbeatCallback v) (m_idleCallback v) (m_connections v).
Definition set_settings x v := mkServer (m_name v) (m_acceptor v) (m_acceptChannel v) (m_threadPool v)
  (m_started v) (m_nextConnId v) (m_threadCount v) x (m_idleTimeout v) (m_heartbeatInterval v)
  (m_idleCheckTimerId v) (m_threadInitCallback v) (m_heartbeatCallback v) (m_idleCallback v) (m_connections v).
Definition set_intervals idle heartbeat v := mkServer (m_name v) (m_acceptor v) (m_acceptChannel v)
  (m_threadPool v) (m_started v) (m_nextConnId v) (m_threadCount v) (m_settings v) idle heartbeat
  (m_idleCheckTimerId v) (m_threadInitCallback v) (m_heartbeatCallback v) (m_idleCallback v) (m_connections v).
Definition set_timer x v := mkServer (m_name v) (m_acceptor v) (m_acceptChannel v) (m_threadPool v)
  (m_started v) (m_nextConnId v) (m_threadCount v) (m_settings v) (m_idleTimeout v) (m_heartbeatInterval v)
  x (m_threadInitCallback v) (m_heartbeatCallback v) (m_idleCallback v) (m_connections v).
Definition set_user init heartbeat idle v := mkServer (m_name v) (m_acceptor v) (m_acceptChannel v)
  (m_threadPool v) (m_started v) (m_nextConnId v) (m_threadCount v) (m_settings v) (m_idleTimeout v)
  (m_heartbeatInterval v) (m_idleCheckTimerId v) init heartbeat idle (m_connections v).
Definition set_connections x v := mkServer (m_name v) (m_acceptor v) (m_acceptChannel v) (m_threadPool v)
  (m_started v) (m_nextConnId v) (m_threadCount v) (m_settings v) (m_idleTimeout v) (m_heartbeatInterval v)
  (m_idleCheckTimerId v) (m_threadInitCallback v) (m_heartbeatCallback v) (m_idleCallback v) x.

Definition with_server (f : TcpServer → TcpServer) (s : Sys) : Sys := mkSys (f (server s)) (conns s) (queues s).
Definition on_server (f : TcpServer → TcpServer) : M Sys () := modify (with_server f).

(** ** The loops *)

Definition queueInLoop (l : nat) (f : Functor) : M Sys () :=
  let! s := get in
  match queues s !! l with
  | None => undef
  | Some q => put (mkSys (server s) (conns s) (<[l := q ++ [f]]> (queues s)))
  end.

(** The close callback of a connection *)
Definition removeConnection (i : nat) : M Sys () := queueInLoop 0 (FRemove i).

Fixpoint times (n : nat) (m : M Sys ()) : M Sys () :=
  match n with O => ret tt | S n => m;;; times n m end.

(** [m] runs on connection [i]; each time it calls the close callback, [removeConnection] runs. *)
Definition on_conn (i : nat) (log : list (nat * Job)) (m : M C ()) : M Sys () :=
  let! s := get in
  match conns s !! i with
  | None => undef
  | Some e =>
      let '(r, c) := m (e_conn e) in
      put (mkSys (server s) (<[i := mkEntry c (e_name e) (e_loop e) (e_log e ++ log)]> (conns s)) (queues s));;;
      times (c_closes c - c_closes (e_conn e)) (removeConnection i);;;
      lift r
  end.

Definition removeConnectionInLoop (i : nat) : M Sys () :=
  let! s := get in
  match conns s !! i with
  | None => undef
  | Some e =>
      match m_connections (server s) !! e_name e with
      | None => ret tt
      | Some _ =>
          on_server (set_connections (delete (e_name e) (m_connections (server s))));;;
          queueInLoop (e_loop e) (FJob i Destroy)
      end
  end.

(** A functor runs in loop [l]. *)
Definition run_functor (l : nat) (f : Functor) : M Sys () :=
  match f with
  | FInit => ret tt
  | FJob i j => on_conn i [(l, j)] (c_run j)
  | FRemove i => removeConnectionInLoop i
  end.

(** From the thread of the base loop *)
Definition runInLoop (l : nat) (f : Functor) : M Sys () :=
  if bool_decide (l = 0%nat) then run_functor 0 f else queueInLoop l f.

(** ** The server *)

Definition TcpServer_make (name : str) (a : Acceptor World) : TcpServer :=
  mkServer (match name with [] => lit "TcpServer" | _ => name end) (setNewConnectionCallback true a) false None
    false 1 0 (mkSettings None (64 * 1024 * 1024) CloseConnection false 0 0 false false false false false false)
    0 0 None false false false ∅.

Definition getNextLoop : M Sys nat :=
  let! s := get in
  match m_threadPool (server s) with
  | None => ret 0%nat
  | Some p =>
      let '(r, p) := Acceptor.getNextLoop p in
      on_server (set_pool (Some p));;; lift r
  end.

Definition newConnection (w : World) : M Sys () :=
  let! ioLoop := getNextLoop in
  let! s := get in
  let v := server s in
  let! next := lift (i64_add (m_nextConnId v) 1) in
  on_server (set_nextConnId next);;;
  let connName := m_name v ++ lit "-" ++ to_string (m_nextConnId v) in
  let! c := lift (c_make (m_settings v) w) in
  let i := length (conns s) in
  modify (λ s, mkSys (server s) (conns s ++ [mkEntry c connName ioLoop []]) (queues s));;;
  on_server (λ v, match m_connections v !! connName with
                  | Some _ => v
                  | None => set_connections (<[connName := i]> (m_connections v)) v
                  end);;;
  runInLoop ioLoop (FJob i Establish).

Definition on_acceptor (m : M (Acceptor World) ()) : M Sys () :=
  let! s := get in
  let '(r, a) := m (m_acceptor (server s)) in
  on_server (set_acceptor a);;; lift r.

Definition acceptAvailable : M Sys Z :=
  Acceptor.acceptAvailable (λ s, m_acceptor (server s)) (λ a, with_server (set_acceptor a)) newConnection.

Definition startIdleCheck : M Sys () :=
  let! s := get in
  let interval := baseInterval (m_idleTimeout (server s)) (m_heartbeatInterval (server s)) in
  if interval <=? 0 then ret tt
  else on_server (set_timer (Some interval)).

Fixpoint queue_each (l : list (nat * Functor)) : M Sys () :=
  match l with
  | [] => ret tt
  | (loop, f) :: l => queueInLoop loop f;;; queue_each l
  end.

(** The first branch of the loop: closed for being idle; the second: probed. *)
Definition is_idle (v : TcpServer) (c : C) : bool :=
  c_connected c && (0 <? m_idleTimeout v) && (m_idleTimeout v <=? c_idleFor c).
Definition wants_probe (v : TcpServer) (c : C) : bool :=
  c_connected c && negb (is_idle v c) && (0 <? m_heartbeatInterval v) && m_heartbeatCallback v &&
  (let neverProbed := c_lastProbeAt c =? 0 in
   let probeExpired := negb neverProbed && (m_heartbeatInterval v <=? c_probeIdleFor c) in
   (m_heartbeatInterval v <=? c_idleFor c) && (neverProbed || probeExpired)).

(** The connections of the registry that pass a test, in the order of an iteration *)
Definition select (p : C → bool) (s : Sys) : list nat :=
  filter (λ i, match conns s !! i with Some e => p (e_conn e) | None => false end = true)
    (snd <$> map_to_list (m_connections (server s))).

Definition checkIdleConnections : M Sys () :=
  let! s := get in
  let v := server s in
  let target (j : Job) (i : nat) :=
    (match conns s !! i with Some e => e_loop e | None => 0%nat end, FJob i j) in
  if bool_decide (m_connections v = ∅) then ret tt
  else
    queue_each (target Heartbeat <$> select (wants_probe v) s);;;
    queue_each (target (Idle (m_idleCallback v)) <$> select (is_idle v) s).

(** [accepted] is whether the system call [listen] succeeds. *)
Definition start (accepted : bool) : M Sys () :=
  let! s := get in
  if m_started (server s) then ret tt
  else
    let '(r, p) := pool_start (EventLoopThreadPool_make (m_threadCount (server s))) in
    modify (λ s, mkSys (set_pool (Some p) (server s)) (conns s)
                   (match queues s with q :: _ => [q] | [] => [[]] end ++ replicate (length (m_loops p)) []));;;
    lift r;;;
    (if m_threadInitCallback (server s) then
       match m_loops p with
       | [] => ret tt
       | loops => queue_each ((λ l, (l, FInit)) <$> loops)
       end
     else ret tt);;;
    on_acceptor (listen accepted);;;
    on_server (set_acceptChannel true);;;
    startIdleCheck;;;
    on_server (set_started true).

Definition connectionCount (v : TcpServer) : Z := Z.of_nat (size (m_connections v)).

(** ** Setters *)

Definition if_not_started (f : TcpServer → TcpServer) : M Sys () :=
  let! s := get in
  if m_started (server s) then throw logic_error else on_server f.

Definition setLengthFieldCodec (codec : option LengthFieldCodec) : M Sys () :=
  if_not_started (λ v, let t := m_settings v in set_settings
    (mkSettings codec (m_maxOutputBufferBytes t) (m_outputOverflowPolicy t) (m_autoReadFlowControlEnabled t)
      (m_readPauseHighWaterMark t) (m_readResumeLowWaterMark t) (m_edgeTriggered t) (m_connectionCallback t)
      (m_messageCallback t) (m_frameMessageCallback t) (m_writeCompleteCallback t) (m_highWaterMarkCallback t)) v).
Definition setThreadCount (threadCount : Z) : M Sys () := if_not_started (set_threadCount threadCount).
Definition setThreadInitCallback (cb : bool) : M Sys () :=
  if_not_started (λ v, set_user cb (m_heartbeatCallback v) (m_idleCallback v) v).

Definition setMaxOutputBufferBytes (bytes : Z) : M Sys () :=
  on_server (λ v, let t := m_settings v in set_settings
    (mkSettings (m_codec t) bytes (m_outputOverflowPolicy t) (m_autoReadFlowControlEnabled t)
      (m_readPauseHighWaterMark t) (m_readResumeLowWaterMark t) (m_edgeTriggered t) (m_connectionCallback t)
      (m_messageCallback t) (m_frameMessageCallback t) (m_writeCompleteCallback t) (m_highWaterMarkCallback t)) v).
Definition setOutputOverflowPolicy (policy : OutputOverflowPolicy) : M Sys () :=
  on_server (λ v, let t := m_settings v in set_settings
    (mkSettings (m_codec t) (m_maxOutputBufferBytes t) policy (m_autoReadFlowControlEnabled t)
      (m_readPauseHighWaterMark t) (m_readResumeLowWaterMark t) (m_edgeTriggered t) (m_connectionCallback t)
      (m_messageCallback t) (m_frameMessageCallback t) (m_writeCompleteCallback t) (m_highWaterMarkCallback t)) v).
Definition set_flow (enabled : bool) (high low : Z) : M Sys () :=
  on_server (λ v, let t := m_settings v in set_settings
    (mkSettings (m_codec t) (m_maxOutputBufferBytes t) (m_outputOverflowPolicy t) enabled high low
      (m_edgeTriggered t) (m_connectionCallback t) (m_messageCallback t) (m_frameMessageCallback t)
      (m_writeCompleteCallback t) (m_highWaterMarkCallback t)) v).
Definition enableAutoReadFlowControl (pauseHighWaterMark resumeLowWaterMark : Z) : M Sys () :=
  if pauseHighWaterMark =? 0 then set_flow false 0 0
  else
    let resumeLowWaterMark :=
      if pauseHighWaterMark <=? resumeLowWaterMark then pauseHighWaterMark / 2 else resumeLowWaterMark in
    set_flow true pauseHighWaterMark resumeLowWaterMark.
Definition disableAutoReadFlowControl : M Sys () := set_flow false 0 0.
Definition enableEdgeTriggered (on : bool) : M Sys () :=
  on_server (λ v, let t := m_settings v in set_settings
    (mkSettings (m_codec t) (m_maxOutputBufferBytes t) (m_outputOverflowPolicy t)
      (m_autoReadFlowControlEnabled t) (m_readPauseHighWaterMark t) (m_readResumeLowWaterMark t) on
      (m_connectionCallback t) (m_messageCallback t) (m_frameMessageCallback t) (m_writeCompleteCallback t)
      (m_highWaterMarkCallback t)) v).
Definition enableAcceptorEdgeTriggered (on : bool) : M Sys () :=
  on_acceptor (modify (setEdgeTriggered on)).
Definition setIdleTimeout (timeout : Z) : M Sys () :=
  on_server (λ v, set_intervals timeout (m_heartbeatInterval v) v).
Definition setHeartbeatInterval (interval : Z) : M Sys () :=
  on_server (λ v, set_intervals (m_idleTimeout v) interval v).
Definition setHeartbeatCallback (cb : bool) : M Sys () :=
  on_server (λ v, set_user (m_threadInitCallback v) cb (m_idleCallback v) v).
Definition setIdleCallback (cb : bool) : M Sys () :=
  on_server (λ v, set_user (m_threadInitCallback v) (m_heartbeatCallback v) cb v).
(** [setConnectionCallback], [setMessageCallback], [setFrameMessageCallback],
    [setWriteCompleteCallback], [setHighWaterMarkCallback] *)
Definition setCallbacks (connection message frame writeComplete highWaterMark : bool) : M Sys () :=
  on_server (λ v, let t := m_settings v in set_settings
    (mkSettings (m_codec t) (m_maxOutputBufferBytes t) (m_outputOverflowPolicy t)
      (m_autoReadFlowControlEnabled t) (m_readPauseHighWaterMark t) (m_readResumeLowWaterMark t)
      (m_edgeTriggered t) connection message frame writeComplete highWaterMark) v).

(** [~TcpServer] *)
Definition TcpServer_destroy : M Sys () := on_server (set_timer None).

(** ** Runs *)

Inductive Setter : Type :=
  | SetLengthFieldCodec (codec : option LengthFieldCodec)
  | SetThreadCount (n : Z)
  | SetThreadInitCallback (cb : bool)
  | SetMaxOutputBufferBytes (bytes : Z)
  | SetOutputOverflowPolicy (policy : OutputOverflowPolicy)
  | EnableAutoReadFlowControl (high low : Z)
  | DisableAutoReadFlowControl
  | EnableEdgeTriggered (on : bool)
  | EnableAcceptorEdgeTriggered (on : bool)
  | SetIdleTimeout (ms : Z)
  | SetHeartbeatInterval (ms : Z)
  | SetHeartbeatCallback (cb : bool)
  | SetIdleCallback (cb : bool)
  | SetCallbacks (connection message frame writeComplete highWaterMark : bool).

Definition run_setter (x : Setter) : M Sys () :=
  match x with
  | SetLengthFieldCodec codec => setLengthFieldCodec codec
  | SetThreadCount n => setThreadCount n
  | SetThreadInitCallback cb => setThreadInitCallback cb
  | SetMaxOutputBufferBytes bytes => setMaxOutputBufferBytes bytes
  | SetOutputOverflowPolicy policy => setOutputOverflowPolicy policy
  | EnableAutoReadFlowControl high low => enableAutoReadFlowControl high low
  | DisableAutoReadFlowControl => disableAutoReadFlowControl
  | EnableEdgeTriggered on => enableEdgeTriggered on
  | EnableAcceptorEdgeTriggered on => enableAcceptorEdgeTriggered on
  | SetIdleTimeout ms => setIdleTimeout ms
  | SetHeartbeatInterval ms => setHeartbeatInterval ms
  | SetHeartbeatCallback cb => setHeartbeatCallback cb
  | SetIdleCallback cb => setIdleCallback cb
  | SetCallbacks a b c d e => setCallbacks a b c d e
  end.

Inductive Label : Type :=
  | LSet (x : Setter)
  | LStart (accepted : bool)
  | LArrive (ans : AcceptAnswer World)  (* the kernel has one more answer for [accept] *)
  | LAccept                             (* the poller reports the accepting channel *)
  | LRun (l : nat)                      (* loop [l] runs its next functor *)
  | LAct (i : nat) (a : Act)            (* something happens to connection [i] *)
  | LTick.                              (* the idle timer is due *)

(** The poller and the user know a connection once it is established. *)
Definition established (e : Entry) : bool := bool_decide (e_log e ≠ []).

Definition run_label (x : Label) : M Sys () :=
  let! s := get in
  match x with
  | LSet x => run_setter x
  | LStart accepted => start accepted
  | LArrive ans => on_acceptor (modify (λ a, set_backlog (backlog a ++ [ans]) a))
  | LAccept => if m_acceptChannel (server s) then let! _ := acceptAvailable in ret tt else ret tt
  | LRun l =>
      match queues s !! l with
      | Some (f :: q) => put (mkSys (server s) (conns s) (<[l := q]> (queues s)));;; run_functor l f
      | _ => ret tt
      end
  | LAct i a =>
      match conns s !! i with
      | Some e => if established e then on_conn i [] (c_act a) else ret tt
      | None => ret tt
      end
  | LTick =>
      match m_idleCheckTimerId (server s) with
      | Some _ => checkIdleConnections
      | None => ret tt
      end
  end.

(** Whoever runs the loop may catch an exception. *)
Definition catching (m : M Sys ()) : M Sys () :=
  λ s, match m s with (Throw _, s') => (Ok tt, s') | out => out end.

Fixpoint run_labels (xs : list Label) : M Sys () :=
  match xs with
  | [] => ret tt
  | x :: xs => catching (run_label x);;; run_labels xs
  end.

Definition launch (name : str) (a : Acceptor World) : Sys := mkSys (TcpServer_make name a) [] [[]].

End server.

Arguments TcpServer _ : clear implicits.
Arguments Entry _ : clear implicits.
Arguments Sys _ _ : clear implicits.
Arguments Label _ _ : clear implicits.

(** ** The invariant

    What is pending for connection [i]: [KProbe] are heartbeats and idle jobs. *)

Inductive kind : Type := KEst | KRem | KDes | KProbe.

Definition concerns (k : kind) (i : nat) (f : Functor) : nat :=
  match k, f with
  | KEst, FJob i' Establish | KRem, FRemove i' | KDes, FJob i' Destroy
  | KProbe, FJob i' (Heartbeat | Idle _ | Shutdown) => if bool_decide (i' = i) then 1 else 0
  | _, _ => 0
  end%nat.

Definition calls (log : list (nat * Job)) : list (nat * Job) :=
  filter (λ x, snd x = Establish ∨ snd x = Destroy) log.

(** The life of a connection: [p] what is pending, [reg] whether it is in the registry, [cl] the
    calls of its close callback, [l] its loop. *)
Inductive phase (p : kind → nat) (reg : bool) (cl : nat) (connecting : bool) (l : nat) (log : list (nat * Job)) : Prop :=
  | ph_new : p KEst = 1%nat → p KRem = 0%nat → p KDes = 0%nat → p KProbe = 0%nat → reg = true → cl = 0%nat →
      connecting = true → log = [] → phase p reg cl connecting l log
  | ph_open : p KEst = 0%nat → p KRem = 0%nat → p KDes = 0%nat → reg = true → cl = 0%nat →
      calls log = [(l, Establish)] → phase p reg cl connecting l log
  | ph_closed : p KEst = 0%nat → p KRem = 1%nat → p KDes = 0%nat → reg = true → cl = 1%nat →
      calls log = [(l, Establish)] → phase p reg cl connecting l log
  | ph_removed : p KEst = 0%nat → p KRem = 0%nat → p KDes = 1%nat → reg = false → cl = 1%nat →
      calls log = [(l, Establish)] → phase p reg cl connecting l log
  | ph_gone : p KEst = 0%nat → p KRem = 0%nat → p KDes = 0%nat → reg = false → cl = 1%nat →
      calls log = [(l, Establish); (l, Destroy)] → phase p reg cl connecting l log.

Section facts.
Context {C World Act : Type} {Ops : ServedConn C World Act} {Laws : ServedConnLaws C World Act}.
Implicit Types (s : Sys C World) (h : list (nat * Functor)) (e : Entry C).

Definition pending s h (i : nat) (k : kind) : nat :=
  tally (tally (concerns k i)) (queues s) + tally (λ x, concerns k i (snd x)) h.

(** A functor belongs to the loop of its connection. *)
Definition placed s (l : nat) (f : Functor) : Prop :=
  (l < length (queues s))%nat ∧
  match f with
  | FInit => True
  | FJob i _ => ∃ e, conns s !! i = Some e ∧ e_loop e = l
  | FRemove i => l = 0%nat ∧ is_Some (conns s !! i)
  end.

Definition connName (s : Sys C World) (i : nat) : str :=
  m_name (server s) ++ lit "-" ++ to_string (Z.of_nat (S i)).

Definition registered s (i : nat) : bool := bool_decide (m_connections (server s) !! connName s i = Some i).

Record entry_ok s h (i : nat) e : Prop := {
  en_conn : c_ok (e_conn e);
  en_name : e_name e = connName s i;
  en_loop : e_loop e = loop_of (pred (length (queues s))) i;
  en_bound : (e_loop e < length (queues s))%nat;
  en_phase : phase (pending s h i) (registered s i) (c_closes (e_conn e)) (c_connecting (e_conn e)) (e_loop e)
    (e_log e);
}.

Definition peers (l : list (AcceptAnswer World)) : Prop := ∀ w, Peer w ∈ l → world_ok w.

Record server_ok (n : nat) s : Prop := {
  so_settings : settings_ok (m_settings (server s));
  so_threads : 0 ≤ m_threadCount (server s) < 2 ^ 63;
  so_next : m_nextConnId (server s) = Z.of_nat (S (length (conns s)));
  so_callback : m_newConnectionCallback (m_acceptor (server s)) = true;
  so_backlog : peers (backlog (m_acceptor (server s)));
  so_count : (length (conns s) + length (backlog (m_acceptor (server s))) ≤ n)%nat;
  so_registry : ∀ nm i, m_connections (server s) !! nm = Some i → (i < length (conns s))%nat ∧ nm = connName s i;
  so_queues : (0 < length (queues s))%nat;
  so_started : if m_acceptChannel (server s) then
      m_started (server s) = true ∧ m_listening (m_acceptor (server s)) = true ∧
      ∃ p, m_threadPool (server s) = Some p ∧ pool_at (pred (length (queues s))) (length (conns s)) p
    else m_started (server s) = false ∧ conns s = [];
}.

(** [h]: functors taken from a queue or not put into one yet; [n]: connections that arrived *)
Record inv (n : nat) h s : Prop := {
  i_server : server_ok n s;
  i_entries : ∀ i e, conns s !! i = Some e → entry_ok s h i e;
  i_placed : ∀ l q f, queues s !! l = Some q → f ∈ q → placed s l f;
  i_held : ∀ l f, (l, f) ∈ h → placed s l f;
}.

(** Moving a functor between a queue and the hand *)
Lemma pending_push s h l f q i k : queues s !! l = Some q →
  pending (mkSys (server s) (conns s) (<[l := q ++ [f]]> (queues s))) h i k = pending s ((l, f) :: h) i k.
Proof.
  intros Hq. unfold pending. cbn [queues].
  pose proof (tally_insert (tally (concerns k i)) (queues s) l q (q ++ [f]) Hq) as Ht.
  rewrite tally_app, tally_cons, tally_nil in Ht. rewrite tally_cons. cbn [snd].
  lia.
Qed.

Lemma pending_pop s h l f q i k : queues s !! l = Some (f :: q) →
  pending (mkSys (server s) (conns s) (<[l := q]> (queues s))) ((l, f) :: h) i k = pending s h i k.
Proof.
  intros Hq. unfold pending. cbn [queues].
  pose proof (tally_insert (tally (concerns k i)) (queues s) l (f :: q) q Hq) as Ht.
  rewrite tally_cons in Ht. rewrite tally_cons. cbn [snd]. lia.
Qed.

Lemma phase_ext p p' reg cl cn l log : (∀ k, p k = p' k) → phase p reg cl cn l log → phase p' reg cl cn l log.
Proof.
  intros Hp. destruct 1; rewrite !Hp in *; [eapply ph_new|eapply ph_open|eapply ph_closed|eapply ph_removed|eapply ph_gone]; done.
Qed.

(** A change of the queues and of the hand that leaves the sums alone *)
Lemma inv_queues n h h' s qs : inv n h s → length qs = length (queues s) →
  (∀ i k, pending (mkSys (server s) (conns s) qs) h' i k = pending s h i k) →
  (∀ l q f, qs !! l = Some q → f ∈ q → placed s l f) → (∀ l f, (l, f) ∈ h' → placed s l f) →
  inv n h' (mkSys (server s) (conns s) qs).
Proof.
  intros [Hs He Hp Hh] Hl Hpe Hpl Hhl. split.
  - destruct Hs. split; cbn; rewrite ?Hl; done.
  - intros i e Hi. destruct (He i e Hi). split; cbn; rewrite ?Hl; try done.
    eapply phase_ext; [|exact en_phase0]. intros k. by rewrite Hpe.
  - intros l q f Hq Hf. destruct (Hpl l q f Hq Hf). split; cbn; rewrite ?Hl; done.
  - intros l f Hf. destruct (Hhl l f Hf). split; cbn; rewrite ?Hl; done.
Qed.

Lemma queueInLoop_run n h s l f : inv n ((l, f) :: h) s →
  wp (queueInLoop l f) s (λ _ s', inv n h s' ∧ server s' = server s) nothrow.
Proof.
  intros Hi. destruct (i_held _ _ _ Hi l f) as [Hl Hf]; [by left|].
  unfold queueInLoop. apply wp_get. destruct (lookup_lt_is_Some_2 _ _ Hl) as [q Hq]. rewrite Hq.
  unfold wp, put. split; [|done]. eapply inv_queues; [exact Hi|by rewrite length_insert|..].
  - intros i k. by apply pending_push.
  - intros l' q' f' Hq' Hf'. destruct (decide (l' = l)) as [->|Hne].
    + rewrite list_lookup_insert_eq in Hq' by done. injection Hq' as <-.
      apply elem_of_app in Hf' as [Hf'| ->%list_elem_of_singleton]; [by eapply (i_placed _ _ _ Hi)|done].
    + rewrite list_lookup_insert_ne in Hq' by done. by eapply (i_placed _ _ _ Hi).
  - intros l' f' Hf'. apply (i_held _ _ _ Hi). by right.
Qed.

Lemma server_pop_inv n h s l f q : inv n h s → queues s !! l = Some (f :: q) →
  inv n ((l, f) :: h) (mkSys (server s) (conns s) (<[l := q]> (queues s))).
Proof.
  intros Hi Hq. pose proof (i_placed _ _ _ Hi) as Hp. eapply inv_queues; [exact Hi|by rewrite length_insert|..].
  - intros i k. by apply pending_pop.
  - intros l' q' f' Hq' Hf'. destruct (decide (l' = l)) as [->|Hne].
    + rewrite list_lookup_insert_eq in Hq' by by eapply lookup_lt_Some. injection Hq' as <-.
      eapply Hp; [done|by right].
    + rewrite list_lookup_insert_ne in Hq' by done. by eapply Hp.
  - intros l' f' [[= -> ->]|Hf']%elem_of_cons; [eapply Hp; [done|by left]|by eapply (i_held _ _ _ Hi)].
Qed.

(** A step that changes connection [i] only, and trades functors in the hand *)
Lemma inv_entry n h h' s i e e' : inv n h s → conns s !! i = Some e →
  c_ok (e_conn e') → e_name e' = e_name e → e_loop e' = e_loop e →
  (∀ j k, j ≠ i → tally (λ x, concerns k j (snd x)) h' = tally (λ x, concerns k j (snd x)) h) →
  phase (pending s h' i) (registered s i) (c_closes (e_conn e')) (c_connecting (e_conn e')) (e_loop e') (e_log e') →
  (∀ l f, (l, f) ∈ h' → placed s l f) →
  inv n h' (mkSys (server s) (<[i := e']> (conns s)) (queues s)).
Proof.
  intros [Hs He Hp Hh] Hi Hok Hn Hl Hoth Hph Hpl.
  assert (Hpl' : ∀ l f, placed s l f → placed (mkSys (server s) (<[i := e']> (conns s)) (queues s)) l f).
  { intros l f [? Hf]. split; [done|]. destruct f as [|j jb|j]; cbn in *; [done| |].
    - destruct Hf as (ej & Hj & Hlj). destruct (decide (j = i)) as [->|Hne].
      + exists e'. rewrite list_lookup_insert_eq by by eapply lookup_lt_Some. split; [done|congruence].
      + exists ej. by rewrite list_lookup_insert_ne.
    - split; [apply Hf|]. apply lookup_lt_is_Some. rewrite length_insert. apply lookup_lt_is_Some, Hf. }
  split; [destruct Hs; split; cbn; rewrite ?length_insert; try done|..]; cbn.
  - destruct (m_acceptChannel _); [done|]. destruct so_started0 as [_ E0]. by rewrite E0, lookup_nil in Hi.
  - intros j ej Hj. destruct (decide (j = i)) as [->|Hne].
    + rewrite list_lookup_insert_eq in Hj by by eapply lookup_lt_Some. injection Hj as <-.
      destruct (He i e Hi). split; cbn; [done|by rewrite Hn|by rewrite Hl..|exact Hph].
    + rewrite list_lookup_insert_ne in Hj by done. destruct (He j ej Hj). split; cbn; try done.
      eapply phase_ext; [|exact en_phase0]. intros k. unfold pending. cbn. by rewrite Hoth.
  - intros l q f Hq Hf. by eapply Hpl', Hp.
  - intros l f Hf. by apply Hpl', Hpl.
Qed.

Lemma concerns_self k f i : f = FRemove i ∨ (∃ j, f = FJob i j) → ∀ i', i' ≠ i → concerns k i' f = 0%nat.
Proof.
  intros Hf i' Hne. destruct Hf as [->|[j ->]]; destruct k; try destruct j; cbn; try done;
    by rewrite bool_decide_false.
Qed.

(** What is pending for [i], when the hand changes by functors of [i] *)
Lemma pending_hold s h l f i k : pending s ((l, f) :: h) i k = (concerns k i f + pending s h i k)%nat.
Proof. unfold pending. rewrite tally_cons. cbn [snd]. lia. Qed.

Lemma pending_server s f h i k : pending (with_server f s) h i k = pending s h i k.
Proof. done. Qed.

Ltac pend := rewrite ?pending_server, ?pending_hold in *; cbn [concerns] in *; rewrite ?bool_decide_true in * by done.

(** A step of connection [i] after which its phase is one of these, and what is then in the hand *)
Lemma conn_step n h0 h s i e c log : inv n h0 s → conns s !! i = Some e → c_ok c →
  (c_closes (e_conn e) ≤ c_closes c)%nat →
  (∀ j k, j ≠ i → tally (λ x, concerns k j (snd x)) h0 = tally (λ x, concerns k j (snd x)) h) →
  (∀ l f, (l, f) ∈ h → (l, f) ∈ h0) →
  (c_closes c = c_closes (e_conn e) →
    phase (pending s h i) (registered s i) (c_closes c) (c_connecting c) (e_loop e) (e_log e ++ log)) →
  (c_closes (e_conn e) = 0%nat → c_closes c = 1%nat →
    phase (pending s ((0%nat, FRemove i) :: h) i) (registered s i) 1 (c_connecting c) (e_loop e) (e_log e ++ log)) →
  wp (times (c_closes c - c_closes (e_conn e)) (removeConnection i))
    (mkSys (server s) (<[i := mkEntry c (e_name e) (e_loop e) (e_log e ++ log)]> (conns s)) (queues s))
    (λ _ s', inv n h s' ∧ server s' = server s) nothrow.
Proof.
  intros Hi Hc Hok Hle Hoth Hsub Hsame Hclose.
  pose proof (c_closes_once _ (en_conn _ _ _ _ (i_entries _ _ _ Hi i e Hc))) as H1.
  pose proof (c_closes_once _ Hok) as H2.
  destruct (decide (c_closes c = c_closes (e_conn e))) as [E|E].
  - rewrite E, Nat.sub_diag. apply wp_ret. split; [|done].
    eapply inv_entry; try done; [by intros; symmetry; auto|by auto|].
    intros l f Hf. apply (i_held _ _ _ Hi). by apply Hsub.
  - replace (c_closes c - c_closes (e_conn e))%nat with 1%nat by lia. cbn [times].
    assert (c_closes (e_conn e) = 0%nat) as E0 by lia. assert (c_closes c = 1%nat) as E1 by lia.
    unfold removeConnection. eapply wp_seq.
    + apply (queueInLoop_run n h). eapply (inv_entry n h0 ((0%nat, FRemove i) :: h)); try done; cbn [e_conn e_name e_loop e_log].
      * intros j k Hne. rewrite tally_cons, concerns_self with (i := i) by auto. cbn. by rewrite Hoth.
      * rewrite E1. by apply Hclose.
      * intros l f [[= -> ->]|Hf]%elem_of_cons.
        -- split; [apply (i_server _ _ _ Hi)|]. split; [done|]. by eexists.
        -- apply (i_held _ _ _ Hi). by apply Hsub.
    + intros [] s' H'. by apply wp_ret.
Qed.

Lemma calls_app log log' : calls (log ++ log') = calls log ++ calls log'.
Proof. apply filter_app. Qed.

(** A connection that was established goes on, or closes. *)
Lemma live_phase (p p' : kind → nat) reg cl cl' cn cn' l log log' :
  phase p reg cl cn l log → p KEst = 0%nat → (∀ k, k ≠ KProbe → p' k = p k) → calls log' = calls log →
  (cl ≤ cl' ≤ 1)%nat →
  (cl' = cl → phase p' reg cl' cn' l log') ∧
  (cl = 0%nat → cl' = 1%nat → ∀ p'', (∀ k, k ≠ KProbe → p'' k = p k + match k with KRem => 1 | _ => 0 end)%nat →
     phase p'' reg 1 cn' l log').
Proof.
  intros Hph He Hp Hlog Hcl.
  assert (Hq : ∀ k, k ≠ KProbe → p' k = p k) by done. clear Hp.
  split; [intros ->|intros -> -> p'' Hp''].
  - destruct Hph; [lia|apply ph_open|apply ph_closed|apply ph_removed|apply ph_gone]; rewrite ?Hq, ?Hlog; done.
  - destruct Hph; try lia. apply ph_closed; rewrite ?Hp'', ?Hlog by done; lia || done.
Qed.

Lemma probe_calls log l j : j ≠ Establish → j ≠ Destroy → calls (log ++ [(l, j)]) = calls log.
Proof.
  intros H1 H2. rewrite calls_app. unfold calls at 2. rewrite filter_cons_False, filter_nil, app_nil_r; [done|].
  cbn. tauto.
Qed.

Lemma probe_phase s h i j e cn cl : j ≠ Establish → j ≠ Destroy →
  phase (pending s ((e_loop e, FJob i j) :: h) i) (registered s i) (c_closes (e_conn e)) (c_connecting (e_conn e))
    (e_loop e) (e_log e) → (c_closes (e_conn e) ≤ cl ≤ 1)%nat →
  (j = Establish → c_connecting (e_conn e) = true) ∧
  (cl = c_closes (e_conn e) → phase (pending s h i) (registered s i) cl cn (e_loop e) (e_log e ++ [(e_loop e, j)])) ∧
  (c_closes (e_conn e) = 0%nat → cl = 1%nat →
     phase (pending s ((0%nat, FRemove i) :: h) i) (registered s i) 1 cn (e_loop e) (e_log e ++ [(e_loop e, j)])).
Proof.
  intros H1 H2 Hph Hcl. split; [done|].
  assert (pending s ((e_loop e, FJob i j) :: h) i KEst = 0%nat) as HE.
  { destruct Hph; try done. destruct j; try done; pend; lia. }
  destruct (live_phase _ (pending s h i) _ _ cl _ cn _ _ (e_log e ++ [(e_loop e, j)]) Hph HE) as [HA HB];
    [intros k Hk; rewrite pending_hold; by destruct k, j|by apply probe_calls|done|].
  split; [done|]. intros H0 Hone. apply HB; [done|done|]. intros k Hk. rewrite !pending_hold.
  destruct k, j; cbn [concerns]; rewrite ?bool_decide_true by done; done || lia.
Qed.

(** What a job of the server does to the phase of its connection *)
Lemma job_phase s h i j e cn cl :
  phase (pending s ((e_loop e, FJob i j) :: h) i) (registered s i) (c_closes (e_conn e)) (c_connecting (e_conn e))
    (e_loop e) (e_log e) → (c_closes (e_conn e) ≤ cl ≤ 1)%nat →
  (j = Establish → c_connecting (e_conn e) = true) ∧
  (cl = c_closes (e_conn e) → phase (pending s h i) (registered s i) cl cn (e_loop e) (e_log e ++ [(e_loop e, j)])) ∧
  (c_closes (e_conn e) = 0%nat → cl = 1%nat →
     phase (pending s ((0%nat, FRemove i) :: h) i) (registered s i) 1 cn (e_loop e) (e_log e ++ [(e_loop e, j)])).
Proof.
  intros Hph Hcl. destruct j as [| | |cb|].
  - destruct Hph as [? ? ? ? Hr Hc0 Hcn Hlog| | | |]; pend; try lia. split; [done|]. rewrite Hlog.
    split; intros; [apply ph_open|apply ph_closed]; pend; try done; lia.
  - destruct Hph as [| | |? ? ? ? ? Hlog|]; pend; try lia. split; [done|]. split; [|lia]. intros ->.
    apply ph_gone; pend; try done; try lia. by rewrite calls_app, Hlog.
  - by apply probe_phase.
  - by apply probe_phase.
  - by apply probe_phase.
Qed.

(** Running something on a connection *)
Lemma on_conn_run n h0 h s i e log m : inv n h0 s → conns s !! i = Some e →
  wp m (e_conn e) (λ _ c, c_ok c ∧ (c_closes (e_conn e) ≤ c_closes c)%nat)
    (λ _ c, c_ok c ∧ (c_closes (e_conn e) ≤ c_closes c)%nat) →
  (∀ j k, j ≠ i → tally (λ x, concerns k j (snd x)) h0 = tally (λ x, concerns k j (snd x)) h) →
  (∀ l f, (l, f) ∈ h → (l, f) ∈ h0) →
  (∀ cl cn, (c_closes (e_conn e) ≤ cl ≤ 1)%nat →
    (cl = c_closes (e_conn e) → phase (pending s h i) (registered s i) cl cn (e_loop e) (e_log e ++ log)) ∧
    (c_closes (e_conn e) = 0%nat → cl = 1%nat →
      phase (pending s ((0%nat, FRemove i) :: h) i) (registered s i) 1 cn (e_loop e) (e_log e ++ log))) →
  wp (on_conn i log m) s (λ _ s', inv n h s' ∧ server s' = server s) (λ _ s', inv n h s' ∧ server s' = server s) ∧
  (∀ a c, m (e_conn e) = (Ok a, c) → wp (on_conn i log m) s (λ _ s', inv n h s' ∧ server s' = server s) nothrow).
Proof.
  intros Hi Hc Hm Hoth Hsub Hph. unfold wp in *.
  destruct (m (e_conn e)) as [r c] eqn:Em.
  assert (Hcl : c_ok c ∧ (c_closes (e_conn e) ≤ c_closes c)%nat) by by destruct r.
  destruct Hcl as [Hok Hle]. pose proof (c_closes_once _ Hok) as H1.
  destruct (Hph (c_closes c) (c_connecting c) ltac:(lia)) as [HA HB].
  pose proof (conn_step n h0 h s i e c log Hi Hc Hok Hle Hoth Hsub HA HB) as Hstep.
  destruct (wp_inv _ _ _ Hstep) as ([] & s' & Hs' & Hinv).
  assert (Hrun : on_conn i log m s = (r, s')).
  { unfold on_conn, bind, get, put, lift. by rewrite Hc, Em, Hs'. }
  rewrite Hrun. split; [by destruct r|]. by intros a c0 [= -> ->].
Qed.

Lemma run_job n h s l i j : inv n ((l, FJob i j) :: h) s →
  wp (run_functor l (FJob i j)) s (λ _ s', inv n h s' ∧ server s' = server s)
    (λ _ s', j ≠ Establish ∧ inv n h s' ∧ server s' = server s).
Proof.
  intros Hi. destruct (i_held _ _ _ Hi l (FJob i j)) as [Hl (e & He & <-)]; [by left|].
  pose proof (i_entries _ _ _ Hi i e He) as Hen. cbn [run_functor].
  pose proof (en_conn _ _ _ _ Hen) as Hok. pose proof (en_phase _ _ _ _ Hen) as Hph.
  pose proof (c_closes_once _ Hok) as Hone.
  destruct (on_conn_run n ((e_loop e, FJob i j) :: h) h s i e [(e_loop e, j)] (c_run j) Hi He) as [H1 H2].
  - by apply c_run_ok.
  - intros j' k Hne. by rewrite tally_cons, concerns_self with (i := i) by eauto.
  - intros l f Hf. by right.
  - intros cl cn Hcl. by destruct (job_phase s h i j e cn cl Hph Hcl).
  - destruct (decide (j = Establish)) as [->|Hne].
    + destruct (job_phase s h i Establish e true (c_closes (e_conn e)) Hph ltac:(lia)) as (Hcn & _).
      destruct (wp_inv _ _ _ (c_establish_ok _ Hok (Hcn eq_refl))) as ([] & c & Hc & _).
      eapply wp_mono; [by eapply H2|done|done].
    + eapply wp_mono; [apply H1|done|auto].
Qed.

Lemma connName_inj s i j : (Z.of_nat i < INT64_MAX) → (Z.of_nat j < INT64_MAX) → connName s i = connName s j → i = j.
Proof.
  unfold INT64_MAX. intros Hi Hj Heq. unfold connName in Heq. apply app_inv_head, app_inv_head in Heq.
  assert (toInt64 (to_string (Z.of_nat (S i))) = toInt64 (to_string (Z.of_nat (S j)))) as Ht by by rewrite Heq.
  rewrite !toInt64_roundtrip in Ht by (unfold in_i64, INT64_MIN, INT64_MAX; lia). injection Ht. lia.
Qed.

(** Taking connection [i] out of the registry *)
Lemma remove_inv n h s i e : inv n ((0%nat, FRemove i) :: h) s → conns s !! i = Some e → Z.of_nat n < INT64_MAX →
  m_connections (server s) !! e_name e = Some i ∧
  inv n ((e_loop e, FJob i Destroy) :: h)
    (with_server (set_connections (delete (e_name e) (m_connections (server s)))) s).
Proof.
  intros Hi He Hn. pose proof (i_entries _ _ _ Hi i e He) as Hen. destruct Hen as [Hok Hnm Hlp Hb Hph].
  assert (Hreg : m_connections (server s) !! connName s i = Some i ∧ c_closes (e_conn e) = 1%nat ∧
    pending s h i KEst = 0%nat ∧ pending s h i KRem = 0%nat ∧ pending s h i KDes = 0%nat ∧
    calls (e_log e) = [(e_loop e, Establish)]).
  { destruct Hph as [| |? ? ? Hr ? ?| |]; pend; try lia. unfold registered in Hr. apply bool_decide_eq_true in Hr.
    split_and!; try done; lia. }
  destruct Hreg as (Hreg & Hcl & P1 & P2 & P3 & Hlog). rewrite Hnm. split; [done|].
  destruct Hi as [Hs Hes Hp Hh]. pose proof Hs as [S1 S2 S3 S4 S5 S6 S7 S8 S9].
  split; [split; cbn; try done|..]; cbn.
  - intros nm j Hj. apply lookup_delete_Some in Hj as [_ Hj]. by apply S7.
  - intros j ej Hj. destruct (Hes j ej Hj) as [Hok' Hnm' Hlp' Hb' Hph']. split; try done.
    destruct (decide (j = i)) as [->|Hne].
    + replace ej with e by congruence. apply ph_removed; try done; pend; try lia.
      apply bool_decide_eq_false_2. change (connName _ i) with (connName s i).
      cbn [with_server server set_connections m_connections]. by rewrite lookup_delete_eq.
    + assert (registered (with_server (set_connections (delete (connName s i) (m_connections (server s)))) s) j
        = registered s j) as ->.
      { unfold registered. change (connName (with_server _ s) j) with (connName s j).
        cbn [with_server server set_connections m_connections]. rewrite lookup_delete_ne; [done|]. intros E. apply connName_inj in E; [done|..].
        - apply lookup_lt_Some in He. lia.
        - apply lookup_lt_Some in Hj. lia. }
      eapply phase_ext; [|exact Hph']. intros k. unfold pending. cbn [queues with_server]. rewrite !tally_cons.
      by rewrite !concerns_self with (i := i) by eauto.
  - intros l q f Hq Hf. exact (Hp l q f Hq Hf).
  - intros l f [[= -> ->]|Hf]%elem_of_cons; [split; [done|by exists e]|]. apply (Hh l f). by right.
Qed.

Lemma removeConnectionInLoop_run n h s i : inv n ((0%nat, FRemove i) :: h) s → Z.of_nat n < INT64_MAX →
  wp (removeConnectionInLoop i) s (λ _ s', inv n h s' ∧ m_acceptor (server s') = m_acceptor (server s)) nothrow.
Proof.
  intros Hi Hn. destruct (i_held _ _ _ Hi 0%nat (FRemove i)) as [_ [_ [e He]]]; [by left|].
  destruct (remove_inv n h s i e Hi He Hn) as [Hr Hi'].
  unfold removeConnectionInLoop. apply wp_get. rewrite He, Hr. apply wp_modify_seq.
  eapply wp_mono; [by apply queueInLoop_run|by intros [] s' [? ->]|done].
Qed.

(** Nothing is pending for a connection that does not exist. *)
Lemma pending_fresh n s i k : inv n [] s → conns s !! i = None → pending s [] i k = 0%nat.
Proof.
  intros Hi Hn. unfold pending. rewrite tally_nil, Nat.add_0_r. apply tally_zero, Forall_forall.
  intros q (l & Hl)%list_elem_of_lookup. apply tally_zero, Forall_forall. intros f Hf.
  destruct (i_placed _ _ _ Hi l q f Hl Hf) as [_ Hpl].
  destruct f as [|j jb|j]; [by destruct k| |]; apply (concerns_self k _ j); eauto; intros ->.
  - destruct Hpl as (e & He & _). congruence.
  - destruct Hpl as [_ [e He]]. congruence.
Qed.

(** A new connection is entered. *)
Lemma add_inv n s p c : inv n [] s → m_acceptChannel (server s) = true → Z.of_nat n < INT64_MAX →
  (length (conns s) + length (backlog (m_acceptor (server s))) < n)%nat →
  pool_at (pred (length (queues s))) (S (length (conns s))) p → c_ok c → c_closes c = 0%nat → c_connecting c = true →
  let i := length (conns s) in let l := loop_of (pred (length (queues s))) i in
  (l < length (queues s))%nat →
  m_connections (server s) !! connName s i = None ∧
  inv n [(l, FJob i Establish)]
    (mkSys (set_connections (<[connName s i := i]> (m_connections (server s)))
              (set_nextConnId (m_nextConnId (server s) + 1) (set_pool (Some p) (server s))))
       (conns s ++ [mkEntry c (connName s i) l []]) (queues s)).
Proof.
  intros Hi Hac Hn Hlt Hp Hok Hcl Hcn i l Hl. pose proof Hi as [Hs He Hpl _].
  pose proof Hs as [S1 S2 S3 S4 S5 S6 S7 S8 S9].
  assert (Hfresh : m_connections (server s) !! connName s i = None).
  { destruct (m_connections (server s) !! connName s i) as [j|] eqn:E; [|done].
    destruct (S7 _ _ E) as [Hj Hnm]. apply connName_inj in Hnm; unfold i in *; lia. }
  split; [done|]. set (s' := mkSys _ _ _).
  assert (Hname : ∀ j, connName s' j = connName s j) by done.
  assert (Hlook : ∀ j e, conns s !! j = Some e → conns s' !! j = Some e).
  { intros j e Hj. unfold s'. cbn. by apply lookup_app_l_Some. }
  assert (Hpl' : ∀ l f, placed s l f → placed s' l f).
  { intros l' f [? Hf]. split; [done|]. destruct f; cbn in *; [done|naive_solver|].
    destruct Hf as [-> [e Hj]]. split; [done|]. exists e. by apply Hlook. }
  split.
  - split; unfold s'; cbn; rewrite ?length_app; cbn; try done.
    + rewrite S3. lia.
    + lia.
    + intros nm j. change (connName _ j) with (connName s j).
      intros [[<- <-]|[_ Hj]]%lookup_insert_Some; [split; [unfold i; lia|done]|].
      destruct (S7 nm j Hj). split; [lia|done].
    + rewrite Hac in *. destruct S9 as (? & ? & ? & ? & ?). split_and!; try done. exists p. split; [done|].
      by rewrite Nat.add_1_r.
  - intros j e Hj. unfold s' in Hj. cbn in Hj.
    apply lookup_app_Some in Hj as [Hj|[Hge Hj]].
    + destruct (He j e Hj) as [E1 E2 E3 E4 E5]. pose proof (lookup_lt_Some _ _ _ Hj) as Hlj. split; try done.
      assert (registered s' j = registered s j) as ->.
      { unfold registered. rewrite Hname. unfold s'. cbn [server set_connections m_connections].
        rewrite lookup_insert_ne; [done|]. intros E. apply connName_inj in E; unfold i in *; lia. }
      eapply phase_ext; [|exact E5]. intros k. unfold pending, s'. cbn [queues]. rewrite tally_cons.
      rewrite concerns_self with (i := i); [done|eauto|unfold i; lia].
    + destruct (j - length (conns s))%nat as [|m] eqn:Em; [|done]. injection Hj as <-.
      assert (j = i) as -> by (unfold i; lia). split; cbn; try done.
      assert (Hz : ∀ k, pending s [] i k = 0%nat).
      { intros k. apply (pending_fresh n); [done|]. apply lookup_ge_None. unfold i. lia. }
      apply ph_new; try done; try (rewrite pending_hold; cbn [concerns]; rewrite ?bool_decide_true by done;
        by rewrite (Hz _ : pending s' [] i _ = _)).
      apply bool_decide_eq_true_2. rewrite Hname. unfold s'. cbn. by rewrite lookup_insert_eq.
  - intros l' q f Hq Hf. by eapply Hpl', Hpl.
  - intros l' f [= -> ->]%list_elem_of_singleton. split; [done|].
    exists (mkEntry c (connName s i) l []). split; [|done].
    unfold s', i. cbn [conns]. by rewrite lookup_app_r, Nat.sub_diag by done.
Qed.

Lemma runInLoop_run n s l f i : inv n [(l, f)] s → f = FJob i Establish →
  wp (runInLoop l f) s (λ _ s', inv n [] s' ∧ server s' = server s) nothrow.
Proof.
  intros Hi ->. unfold runInLoop. case_bool_decide as Hl; [subst|by apply queueInLoop_run].
  eapply wp_mono; [by apply run_job|done|]. intros e s' (? & _). done.
Qed.

Lemma newConnection_run n s w : inv n [] s → m_acceptChannel (server s) = true → Z.of_nat n < INT64_MAX →
  (length (conns s) + length (backlog (m_acceptor (server s))) < n)%nat → world_ok w →
  wp (newConnection w) s (λ _ s', inv n [] s' ∧ m_acceptor (server s') = m_acceptor (server s) ∧
    m_acceptChannel (server s') = true) nothrow.
Proof.
  intros Hi Hac Hn Hlt Hw. pose proof (i_server _ _ _ Hi) as [S1 S2 S3 S4 S5 S6 S7 S8 S9].
  rewrite Hac in S9. destruct S9 as (Hst & Hli & p & Hp & Hat).
  destruct (wp_inv _ _ _ (getNextLoop_run _ _ _ Hat)) as (l & p' & Hnext & -> & Hle & Hat').
  unfold newConnection, getNextLoop. apply wp_bind, wp_get. rewrite Hp, Hnext.
  apply wp_modify_seq. unfold wp at 1. cbn [lift]. apply wp_get.
  cbn [server with_server set_pool m_nextConnId m_settings m_name conns]. rewrite S3.
  unfold i64_add. rewrite i64_Ok by (unfold in_i64, INT64_MIN, INT64_MAX in *; lia).
  apply wp_lift_seq, wp_modify_seq.
  destruct (c_make_ok _ w S1 Hw) as (c & Hc & Hok & Hcl & Hcn). rewrite Hc. apply wp_lift_seq, wp_modify_seq.
  destruct (add_inv n s p' c Hi Hac Hn Hlt Hat' Hok Hcl Hcn) as [Hfresh Hadd]; [lia|].
  apply wp_modify_seq. cbn [with_server server conns queues set_pool set_nextConnId m_connections] in *.
  change (m_name (server s) ++ lit "-" ++ to_string (Z.of_nat (S (length (conns s)))))
    with (connName s (length (conns s))).
  rewrite S3 in Hadd.
  eapply wp_mono; [eapply runInLoop_run; [|done]| |done].
  - unfold with_server. cbn [server conns queues set_nextConnId set_pool m_connections]. rewrite Hfresh. exact Hadd.
  - intros [] s' [Hi' Hs']. split; [done|]. rewrite Hs'. cbn. rewrite Hfresh. done.
Qed.

(** A change of the server's own fields *)
Lemma inv_server n n' h s f : inv n h s → m_name (f (server s)) = m_name (server s) →
  m_connections (f (server s)) = m_connections (server s) → server_ok n' (with_server f s) →
  inv n' h (with_server f s).
Proof.
  intros [Hs He Hp Hh] Hn Hc Hs'. split; [done| | |].
  - intros i e Hi. destruct (He i e Hi) as [E1 E2 E3 E4 E5].
    assert (connName (with_server f s) i = connName s i) as Hnm by (unfold connName; cbn; by rewrite Hn).
    split; cbn; [done|by rewrite Hnm|done|done|]. unfold registered. rewrite Hnm. cbn. by rewrite Hc.
  - exact Hp.
  - exact Hh.
Qed.

Lemma backlog_inv n h s x l : inv n h s → backlog (m_acceptor (server s)) = x :: l →
  inv n h (with_server (set_acceptor (set_backlog l (m_acceptor (server s)))) s) ∧
  (length (conns s) + length l < n)%nat ∧ (∀ w, x = Peer w → world_ok w).
Proof.
  intros Hi Hb. pose proof (i_server _ _ _ Hi) as [S1 S2 S3 S4 S5 S6 S7 S8 S9].
  rewrite Hb in S5, S6. cbn in S6. split_and!; [|lia|].
  - eapply inv_server; try done. split; try done; cbn; [|lia]. intros w Hw. apply S5. by right.
  - intros w ->. apply S5. by left.
Qed.

(** Neither a step of the loops nor a call of the user breaks the invariant. *)
Definition keeps_inv (n : nat) (m : M (Sys C World) ()) s : Prop :=
  wp m s (λ _ s', inv n [] s') (λ _ s', inv n [] s').

Lemma acceptAvailable_inv n s : inv n [] s → m_acceptChannel (server s) = true → Z.of_nat n < INT64_MAX →
  keeps_inv n (let! _ := acceptAvailable in ret tt) s.
Proof.
  intros Hi Hac Hn. pose proof (i_server _ _ _ Hi) as [S1 S2 S3 S4 S5 S6 S7 S8 S9].
  rewrite Hac in S9. destruct S9 as (Hst & Hli & _).
  unfold keeps_inv. eapply wp_seq; [eapply wp_mono|].
  - apply (acceptAvailable_run _ _ _ (λ _ s, inv n [] s ∧ m_acceptChannel (server s) = true)); try done.
    + intros _ err l s1 Hb [Hi1 Ha1]. split; [|done]. by apply (backlog_inv _ _ _ _ _ Hi1 Hb).
    + intros _ w l s1 Hb [Hi1 Ha1]. destruct (backlog_inv _ _ _ _ _ Hi1 Hb) as (Hi2 & Hlt & Hw).
      eapply wp_mono; [apply (newConnection_run n); try done; by apply Hw| |done].
      intros [] s2 (? & -> & ?). done.
  - intros k s' (_ & [HQ _] & _). exact HQ.
  - intros e s' (_ & _ & [HQ _]). exact HQ.
  - intros k s' HQ. by apply wp_ret.
Qed.

(** A heartbeat or an idle job for a connection that is established *)
Lemma probe_inv n h s i e j : inv n h s → conns s !! i = Some e → j ≠ Establish → j ≠ Destroy →
  c_connected (e_conn e) = true → inv n ((e_loop e, FJob i j) :: h) s.
Proof.
  intros Hi He H1 H2 Hc. pose proof Hi as [Hs Hes Hp Hh]. split; [done| |done|].
  - intros i' e' He'. destruct (Hes i' e' He') as [E1 E2 E3 E4 E5]. split; try done.
    destruct (decide (i' = i)) as [->|Hne].
    + replace e' with e in * by congruence.
      assert (pending s h i KEst = 0%nat) as HE.
      { destruct E5 as [? ? ? ? ? ? Hcn ?| | | |]; try done. apply c_connecting_not in Hcn. congruence. }
      pose proof (c_closes_once _ E1) as Hone.
      destruct (live_phase _ (pending s ((e_loop e, FJob i j) :: h) i) _ _ (c_closes (e_conn e)) _
        (c_connecting (e_conn e)) _ _ (e_log e) E5 HE) as [HA _]; [|done|lia|by apply HA].
      intros k Hk. rewrite pending_hold. by destruct k, j.
    + eapply phase_ext; [|exact E5]. intros k. rewrite pending_hold.
      by rewrite concerns_self with (i := i) by eauto.
  - intros l f [[= -> ->]|Hf]%elem_of_cons; [|by apply Hh].
    split; [by apply (en_bound _ _ _ _ (Hes i e He))|by exists e].
Qed.

Lemma queue_each_run n s l : inv n [] s →
  (∀ s', inv n [] s' → conns s' = conns s → length (queues s') = length (queues s) →
     ∀ x, x ∈ l → inv n [x] s') →
  wp (queue_each l) s (λ _ s', inv n [] s' ∧ server s' = server s ∧ conns s' = conns s ∧
    length (queues s') = length (queues s)) nothrow.
Proof.
  revert s. induction l as [|[lp f] l IH]; intros s Hi Hl; cbn [queue_each]; [by apply wp_ret|].
  assert (Hx : inv n [(lp, f)] s) by (apply Hl; [done..|by left]).
  destruct (i_held _ _ _ Hx lp f) as [Hlt _]; [by left|].
  destruct (wp_inv _ _ _ (queueInLoop_run n [] s lp f Hx)) as ([] & s1 & E1 & Hi1 & Hs1).
  assert (conns s1 = conns s ∧ length (queues s1) = length (queues s)) as [Ec1 El1].
  { revert E1. unfold queueInLoop, bind, get. destruct (queues s !! lp); [|done]. intros [= <-]. cbn.
    by rewrite length_insert. }
  eapply wp_run_seq; [exact E1|]. eapply wp_mono; [apply IH; [done|]| |done].
  - intros s' Hi' Ec El x Hin. apply Hl; [done|congruence|congruence|by right].
  - intros [] s2 (? & ? & ? & ?). split_and!; [done|congruence..].
Qed.

Lemma select_connected p s i : (∀ c, p c = true → c_connected c = true) → i ∈ select p s →
  ∃ e, conns s !! i = Some e ∧ c_connected (e_conn e) = true.
Proof.
  intros Hp [Hi _]%list_elem_of_filter. destruct (conns s !! i) as [e|]; [|done]. eauto.
Qed.

Lemma checkIdleConnections_inv n s : inv n [] s → keeps_inv n checkIdleConnections s.
Proof.
  intros Hi. unfold keeps_inv, checkIdleConnections. apply wp_get.
  case_bool_decide; [by apply wp_ret|]. set (target := λ (j : Job) (i : nat),
    (match conns s !! i with Some e => e_loop e | None => 0%nat end, FJob i j)).
  assert (Hgo : ∀ j p s', j ≠ Establish → j ≠ Destroy → (∀ c, p c = true → c_connected c = true) →
    inv n [] s' → conns s' = conns s → wp (queue_each (target j <$> select p s)) s'
      (λ _ s'', inv n [] s'' ∧ conns s'' = conns s') nothrow).
  { intros j p s' H1 H2 Hp Hi' Ec.
    eapply wp_mono; [apply (queue_each_run n); [done|]|naive_solver|done]. intros s2 Hi2 Ec2 _ x (i & -> & Hin)%list_elem_of_fmap.
    destruct (select_connected p s i Hp Hin) as (e & He & Hc). unfold target. rewrite He.
    apply probe_inv; try done. congruence. }
  eapply wp_calm; [apply Hgo; try done|].
  - intros c Hc. unfold wants_probe in Hc. by destruct (c_connected c).
  - intros [] s1 (Hi1 & Ec1). eapply wp_mono; [apply Hgo; try done|by intros [] s2 [? _]|done].
    intros c Hc. unfold is_idle in Hc. by destruct (c_connected c).
Qed.

Definition setter_ok (x : Setter) : Prop :=
  match x with
  | SetLengthFieldCodec (Some k) => valid k
  | SetThreadCount k => 0 ≤ k < 2 ^ 63
  | SetMaxOutputBufferBytes bytes => 0 ≤ bytes ≤ 2 ^ 60
  | EnableAutoReadFlowControl high low => 0 ≤ high ∧ 0 ≤ low
  | _ => True
  end.

Definition label_ok (x : Label World Act) : Prop :=
  match x with
  | LSet x => setter_ok x
  | LArrive (Peer w) => world_ok w
  | LAct _ a => act_ok a
  | _ => True
  end.

Lemma run_setter_inv n s x : inv n [] s → setter_ok x → keeps_inv n (run_setter x) s.
Proof.
  intros Hi Hx. pose proof (i_server _ _ _ Hi) as [(S1 & S1' & S1'') S2 S3 S4 S5 S6 S7 S8 S9].
  assert (Hserver : ∀ f, m_name (f (server s)) = m_name (server s) →
    m_connections (f (server s)) = m_connections (server s) → server_ok n (with_server f s) →
    keeps_inv n (on_server f) s).
  { intros f Hn Hc Hs. by apply (inv_server n). }
  assert (Hguard : ∀ f, m_name (f (server s)) = m_name (server s) →
    m_connections (f (server s)) = m_connections (server s) → server_ok n (with_server f s) →
    keeps_inv n (if_not_started f) s).
  { intros f Hn Hc Hs. unfold keeps_inv, if_not_started. apply wp_get.
    destruct (m_started (server s)); [done|by apply Hserver]. }
  destruct x; cbn [run_setter setter_ok] in *.
  all: try (apply Hserver || apply Hguard; done || (split; try done; by split_and!)).
  unfold keeps_inv, enableAutoReadFlowControl. destruct (Z.eqb_spec high 0); [by apply Hserver|].
  apply Hserver; try done. split; try done. pose proof (Z.div_pos high 2). unfold settings_ok. cbn.
  destruct (Z.leb_spec high low); split_and!; try done; lia.
Qed.

Lemma init_inv n s l : inv n [] s → (l < length (queues s))%nat → inv n [(l, FInit)] s.
Proof.
  intros [Hs He Hp Hh] Hl. split; [done| |done|].
  - intros i e Hi. destruct (He i e Hi) as [E1 E2 E3 E4 E5]. split; try done.
    eapply phase_ext; [|exact E5]. intros k. rewrite pending_hold. by destruct k.
  - by intros l' f [= -> ->]%list_elem_of_singleton.
Qed.

(** The last part of [start] *)
Lemma listen_inv n s accepted p : inv n [] s → m_acceptChannel (server s) = false →
  m_threadPool (server s) = Some p → conns s = [] → pool_at (pred (length (queues s))) 0 p →
  keeps_inv n (on_acceptor (listen accepted);;; on_server (set_acceptChannel true);;; startIdleCheck;;;
    on_server (set_started true)) s.
Proof.
  intros Hi Eac Ep Enil Hat. pose proof (i_server _ _ _ Hi) as [S1 S2 S3 S4 S5 S6 S7 S8 S9]. rewrite Eac in S9.
  unfold keeps_inv, on_acceptor, listen. apply wp_bind, wp_get.
  assert (Hrest : ∀ a, m_listening a = true → m_newConnectionCallback a = true →
    backlog a = backlog (m_acceptor (server s)) →
    keeps_inv n (on_server (set_acceptChannel true);;; startIdleCheck;;; on_server (set_started true))
      (with_server (set_acceptor a) s)).
  { intros a Hl Hcb Hb. unfold keeps_inv. apply wp_modify_seq. unfold startIdleCheck. apply wp_bind, wp_get.
    cbn [server with_server set_acceptor set_acceptChannel m_idleTimeout m_heartbeatInterval].
    destruct (_ <=? 0); [apply wp_ret, wp_modify|apply wp_modify, wp_modify];
      unfold with_server; cbn [server conns queues];
      (match goal with |- inv _ _ (mkSys ?v _ _) => apply (inv_server n n [] s (λ _, v)) end;
       try done; split; cbn; rewrite ?Hb; try done; split_and!; try done; exists p; by rewrite Enil). }
  destruct (m_acceptor (server s)) as [li ed cb bl] eqn:Ea. cbn in S4, S5, Hrest. subst cb.
  destruct li; [|destruct accepted]; unfold bind at 2; cbn [get ret modify throw negb m_listening]; apply wp_modify_seq.
  - apply wp_ret. by apply Hrest.
  - apply wp_ret. by apply Hrest.
  - unfold lift, wp. apply (inv_server n); try done. by split; cbn; rewrite ?Eac.
Qed.

Lemma start_inv n s accepted : inv n [] s → keeps_inv n (start accepted) s.
Proof.
  intros Hi. pose proof Hi as [[S1 S2 S3 S4 S5 S6 S7 S8 S9] He Hp _]. unfold keeps_inv, start. apply wp_get.
  destruct (m_started (server s)) eqn:Est; [by apply wp_ret|].
  destruct (m_acceptChannel (server s)) eqn:Eac; [by destruct S9|]. destruct S9 as [_ Enil].
  destruct (pool_start_run (m_threadCount (server s)) S2) as (p & -> & Hat).
  pose proof (pool_loops _ _ _ Hat) as Hlo.
  assert (Hnone : ∀ l q f, queues s !! l = Some q → f ∈ q → f = FInit).
  { intros l q f Hq Hf. destruct (Hp l q f Hq Hf) as [_ Hf']. rewrite Enil in Hf'. destruct f; [done|naive_solver|].
    destruct Hf' as [_ [e Hf']]. done. }
  apply wp_modify_seq. set (s1 := mkSys _ _ _).
  assert (Hq1 : ∃ q, queues s1 = q :: replicate (Z.to_nat (m_threadCount (server s))) [] ∧ Forall (λ f, f = FInit) q).
  { unfold s1. cbn. rewrite Hlo, length_seq. destruct (queues s) as [|q qs] eqn:Eq; [cbn in S8; lia|].
    exists q. split; [done|]. apply Forall_forall. intros f Hf. by eapply (Hnone 0%nat q). }
  assert (Hat1 : pool_at (pred (length (queues s1))) 0 p).
  { destruct Hq1 as (q & -> & _). cbn. by rewrite length_replicate. }
  assert (Hi1 : inv n [] s1).
  { destruct Hq1 as (q & Hq1 & HF). split.
    - split; unfold s1; cbn; rewrite ?Eac, ?Enil in *; try done. rewrite length_app. destruct (queues s); cbn; lia.
    - unfold s1. cbn. by rewrite Enil.
    - intros l q' f Hq' Hf. split; [by eapply lookup_lt_Some|]. rewrite Hq1 in Hq'.
      destruct l as [|l]; cbn in Hq'.
      + injection Hq' as ->. rewrite Forall_forall in HF. by rewrite (HF f Hf).
      + apply lookup_replicate in Hq' as [-> _]. by apply elem_of_nil in Hf.
    - intros l f Hf. by apply elem_of_nil in Hf. }
  apply wp_lift_seq.
  assert (Hinit : wp (if m_threadInitCallback (server s) then
       match m_loops p with [] => ret tt | loops => queue_each ((λ l, (l, FInit)) <$> loops) end
     else ret tt) s1 (λ _ s', inv n [] s' ∧ server s' = server s1 ∧ conns s' = conns s1 ∧
       length (queues s') = length (queues s1)) nothrow).
  { destruct (m_threadInitCallback (server s)); [|by apply wp_ret].
    assert (Hq : wp (queue_each ((λ l, (l, FInit)) <$> m_loops p)) s1 (λ _ s', inv n [] s' ∧ server s' = server s1 ∧
      conns s' = conns s1 ∧ length (queues s') = length (queues s1)) nothrow).
    { apply queue_each_run; [done|]. intros s' Hi' Ec El x (l & -> & Hl)%list_elem_of_fmap.
      apply init_inv; [done|]. rewrite El. destruct Hq1 as (q & -> & _). rewrite Hlo in Hl. cbn.
      rewrite length_replicate. apply elem_of_seq in Hl. lia. }
    destruct (m_loops p); [by apply wp_ret|exact Hq]. }
  eapply wp_calm; [exact Hinit|]. intros [] s2 (Hi2 & Es2 & Ec2 & El2).
  assert (Hname : m_acceptChannel (server s2) = false ∧ m_threadPool (server s2) = Some p ∧ conns s2 = []).
  { rewrite Es2, Ec2. unfold s1. cbn. by rewrite Eac. }
  destruct Hname as (Eac2 & Ep2 & Enil2). rewrite <- El2 in Hat1.
  by apply (listen_inv n s2 accepted p).
Qed.



Lemma inv_mono n n' h s : inv n h s → (n ≤ n')%nat → inv n' h s.
Proof. intros [[] He Hp Hh] Hle. split; [|done..]. split; try done. lia. Qed.

Lemma inv_next n h s : inv n h s → inv (S n) h s.
Proof. intros Hi. eapply inv_mono; [exact Hi|lia]. Qed.

Lemma arrive_inv n s ans : inv n [] s → label_ok (LArrive ans) →
  inv (S n) [] (with_server (set_acceptor (set_backlog (backlog (m_acceptor (server s)) ++ [ans])
    (m_acceptor (server s)))) s).
Proof.
  intros Hi Hw. pose proof (i_server _ _ _ Hi) as [S1 S2 S3 S4 S5 S6 S7 S8 S9].
  apply (inv_server n); try done. split; try done; cbn; [|rewrite length_app; cbn; lia].
  intros w [Hin|Hin]%elem_of_app; [by apply S5|]. apply list_elem_of_singleton in Hin. by subst.
Qed.

Lemma act_inv n s i e a : inv n [] s → conns s !! i = Some e → established e = true → act_ok a →
  keeps_inv n (on_conn i [] (c_act a)) s.
Proof.
  intros Hi He Hest Ha. destruct (i_entries _ _ _ Hi i e He) as [Hok Hnm Hlp Hb Hph].
  assert (HE : pending s [] i KEst = 0%nat).
  { destruct Hph as [? ? ? ? ? ? ? Hlog| | | |]; try done. unfold established in Hest. by rewrite Hlog in Hest. }
  destruct (on_conn_run n [] [] s i e [] (c_act a) Hi He) as [H1 _]; try done.
  - by apply c_act_ok.
  - intros cl cn Hcl. rewrite app_nil_r.
    destruct (live_phase _ (pending s [] i) _ _ cl _ cn _ _ (e_log e) Hph HE) as [HA HB]; try done.
    split; [done|]. intros H0 Hone. apply HB; [done..|]. intros k Hk. rewrite pending_hold.
    destruct k; cbn [concerns]; rewrite ?bool_decide_true by done; done || lia.
  - eapply wp_mono; [exact H1|naive_solver..].
Qed.

Lemma run_label_inv n s x : inv n [] s → label_ok x → Z.of_nat n < INT64_MAX →
  keeps_inv (S n) (run_label x) s.
Proof.
  intros Hi Hx Hn. assert (Hup : ∀ m, keeps_inv n m s → keeps_inv (S n) m s).
  { intros m Hm. eapply wp_mono; [exact Hm|..]; intros; by apply inv_next. }
  destruct x as [x|accepted|ans| |l|i a|]; unfold keeps_inv, run_label; apply wp_get.
  - by apply Hup, run_setter_inv.
  - by apply Hup, start_inv.
  - unfold on_acceptor. apply wp_get. cbn [modify]. apply wp_modify_seq. apply wp_ret. by apply arrive_inv.
  - destruct (m_acceptChannel (server s)) eqn:Eac; [|by apply wp_ret, inv_next].
    by apply Hup, acceptAvailable_inv.
  - destruct (queues s !! l) as [[|f q]|] eqn:Eq; try by apply wp_ret, inv_next.
    apply (wp_modify_seq (λ _, mkSys (server s) (conns s) (<[l:=q]> (queues s)))).
    pose proof (server_pop_inv n [] s l f q Hi Eq) as Hi1. set (s1 := mkSys _ _ _) in *. destruct f as [|i j|i].
    + apply wp_ret, inv_next, (inv_queues n [(l, FInit)] [] s1 (queues s1)); try done.
      * intros i k. rewrite pending_hold. by destruct k.
      * apply (i_placed _ _ _ Hi1).
      * intros l' f Hf. by apply elem_of_nil in Hf.
    + eapply wp_mono; [by apply (run_job n)|..]; [intros [] s2 [? _]|intros ? s2 (_ & ? & _)]; by apply inv_next.
    + destruct (i_held _ _ _ Hi1 l (FRemove i)) as [_ [-> _]]; [by left|].
      eapply wp_mono; [by apply (removeConnectionInLoop_run n)| |done]. intros [] s2 [? _]. by apply inv_next.
  - destruct (conns s !! i) as [e|] eqn:Ee; [|by apply wp_ret, inv_next].
    destruct (established e) eqn:Eest; [|by apply wp_ret, inv_next].
    by apply Hup, (act_inv n s i e a).
  - destruct (m_idleCheckTimerId (server s)); [|by apply wp_ret, inv_next].
    by apply Hup, checkIdleConnections_inv.
Qed.

Lemma run_labels_inv xs : ∀ n s, inv n [] s → Forall label_ok xs → Z.of_nat (n + length xs) < INT64_MAX →
  ∃ s', run_labels xs s = (Ok tt, s') ∧ inv (n + length xs) [] s'.
Proof.
  induction xs as [|x xs IH]; intros n s Hi Hx Hn; cbn [run_labels length] in *.
  { exists s. by rewrite Nat.add_0_r. }
  apply Forall_cons in Hx as [Hx Hxs].
  pose proof (run_label_inv n s x Hi Hx ltac:(lia)) as Hl. unfold keeps_inv, wp in Hl.
  assert (∃ s1, catching (run_label x) s = (Ok tt, s1) ∧ inv (S n) [] s1) as (s1 & E1 & Hi1).
  { unfold catching. destruct (run_label x s) as [[[]|e| |] s1]; by eauto. }
  destruct (IH (S n) s1 Hi1 Hxs ltac:(lia)) as (s' & E' & Hi').
  exists s'. split; [unfold bind; by rewrite E1|]. by replace (n + S (length xs))%nat with (S n + length xs)%nat by lia.
Qed.

(** The acceptor given to the server has nothing in its backlog yet. *)
Lemma launch_inv name a : backlog a = [] → inv 0 [] (launch name a).
Proof.
  intros Hb. split.
  - split; cbn; rewrite ?Hb; try done; [|lia..]. by intros w Hw%elem_of_nil.
  - intros i e He. cbn in He. by rewrite lookup_nil in He.
  - intros [|l] q f Hq Hf; [|done]. injection Hq as <-. by apply elem_of_nil in Hf.
  - intros l f Hf. by apply elem_of_nil in Hf.
Qed.

(** ** Coming to rest

    What the queued functors can still cause: closing a connection queues its removal, which
    queues its destruction. *)
Definition weight (f : Functor) : nat :=
  match f with FInit | FJob _ Destroy => 1 | FRemove _ => 2 | FJob _ _ => 4 end.
Definition work s : nat := tally (tally weight) (queues s).
Definition queued s : nat := tally length (queues s).

(** How many of the loops in [ls], each asked in turn to run a functor, have one *)
Fixpoint effective (ls : list nat) s : nat :=
  match ls with
  | [] => 0
  | l :: ls =>
      (match queues s !! l with Some (_ :: _) => 1 | _ => 0 end + effective ls (catching (run_label (LRun l)) s).2)%nat
  end.

Lemma queueInLoop_work s l f s' : queueInLoop l f s = (Ok tt, s') → work s' = (work s + weight f)%nat.
Proof.
  unfold queueInLoop, bind, get, put, work. destruct (queues s !! l) as [q|] eqn:Eq; [|done]. intros [= <-]. cbn [queues].
  pose proof (tally_insert (tally weight) (queues s) l q (q ++ [f]) Eq) as Ht.
  rewrite tally_app, tally_cons, tally_nil in Ht. lia.
Qed.

Lemma times_work k i s r s' : times k (removeConnection i) s = (r, s') →
  r = Ok tt ∧ work s' = (work s + 2 * k)%nat ∨ r = Undef.
Proof.
  revert s. induction k as [|k IH]; intros s Hs; cbn [times] in Hs; [injection Hs as <- <-; left; split; [done|lia]|].
  unfold bind in Hs. destruct (removeConnection i s) as [r1 s1] eqn:E1.
  assert (r1 = Ok tt ∨ r1 = Undef) as [-> | ->].
  { revert E1. unfold removeConnection, queueInLoop, bind, get, put, undef.
    destruct (queues s !! 0%nat); intros [= <- _]; auto. }
  - apply queueInLoop_work in E1. cbn [weight] in E1. destruct (IH s1 Hs) as [[-> ?]|?]; [left; split; [done|lia]|auto].
  - injection Hs as <- _. auto.
Qed.

Lemma server_work_bound s : (work s ≤ 4 * queued s)%nat.
Proof.
  unfold work, queued. induction (queues s) as [|q qs IH]; [done|]. rewrite !tally_cons.
  pose proof (tally_bound weight q 4) as Hq. assert (∀ f, weight f ≤ 4)%nat as Hw by (intros []; cbn; try destruct j; lia).
  specialize (Hq Hw). lia.
Qed.

(** A functor that runs uses up more than it causes. *)
Lemma run_functor_work n s l f : inv n [(l, f)] s → Z.of_nat n < INT64_MAX →
  ∃ r s', run_functor l f s = (r, s') ∧ (work s' < work s + weight f)%nat.
Proof.
  intros Hi Hn. destruct f as [|i j|i].
  - exists (Ok tt), s. split; [done|]. cbn. lia.
  - destruct (i_held _ _ _ Hi l (FJob i j)) as [_ (e & He & Hl)]; [by left|].
    destruct (i_entries _ _ _ Hi i e He) as [Hok _ _ _ Hph]. rewrite <- Hl in Hph.
    pose proof (c_closes_once _ Hok) as Hone. pose proof (c_run_ok j _ Hok) as Hrun.
    pose proof (run_job n [] s l i j Hi) as Hwp. unfold wp in Hrun, Hwp. cbn [run_functor] in *.
    unfold on_conn, bind, get, put, lift in *. rewrite He in *.
    destruct (c_run j (e_conn e)) as [r c] eqn:Er.
    assert (Hcl : c_ok c ∧ (c_closes (e_conn e) ≤ c_closes c)%nat) by by destruct r.
    pose proof (c_closes_once _ (proj1 Hcl)) as Hone'.
    destruct (times _ _ _) as [r1 s1] eqn:Et. apply times_work in Et as [[-> Et]| ->]; [|done].
    eexists _, _. split; [reflexivity|]. rewrite Et.
    change (work (mkSys _ _ (queues s))) with (work s).
    destruct (decide (j = Destroy)) as [->|Hj].
    + destruct Hph as [| | |? ? ? ? Hc1 ?|]; pend; try lia. cbn. lia.
    + destruct j; try done; cbn; lia.
  - destruct (i_held _ _ _ Hi l (FRemove i)) as [_ [-> [e He]]]; [by left|].
    destruct (remove_inv n [] s i e Hi He Hn) as [Hr Hi'].
    destruct (wp_inv _ _ _ (queueInLoop_run _ _ _ _ _ Hi')) as ([] & s' & E & _).
    exists (Ok tt), s'. split.
    + cbn [run_functor]. unfold removeConnectionInLoop, bind, get. rewrite He, Hr. exact E.
    + apply queueInLoop_work in E. cbn [weight] in *. change (work (with_server _ s)) with (work s) in E. lia.
Qed.

Lemma run_loop_work n s l s' : inv n [] s → Z.of_nat n < INT64_MAX → catching (run_label (LRun l)) s = (Ok tt, s') →
  (match queues s !! l with Some (_ :: _) => 1 | _ => 0 end + work s' ≤ work s)%nat.
Proof.
  intros Hi Hn. unfold catching, run_label, bind at 1, get. destruct (queues s !! l) as [[|f q]|] eqn:Eq.
  - intros [= <-]. lia.
  - unfold bind, put. set (s1 := mkSys _ _ _). pose proof (server_pop_inv n [] s l f q Hi Eq) as Hi1.
    destruct (run_functor_work n s1 l f Hi1 Hn) as (r & s2 & -> & Hw).
    assert (work s1 + weight f = work s)%nat as E1.
    { unfold work, s1. cbn [queues]. pose proof (tally_insert (tally weight) (queues s) l (f :: q) q Eq) as Ht.
      rewrite tally_cons in Ht. lia. }
    destruct r as [[]|e| |]; intros [= <-]; lia.
  - intros [= <-]. lia.
Qed.

Lemma run_loops_work ls : ∀ n s, inv n [] s → Z.of_nat (n + length ls) < INT64_MAX →
  ∃ s', run_labels (LRun <$> ls) s = (Ok tt, s') ∧ inv (n + length ls) [] s' ∧ (effective ls s + work s' ≤ work s)%nat.
Proof.
  induction ls as [|l ls IH]; intros n s Hi Hn; cbn [length fmap list_fmap run_labels effective] in *.
  { exists s. rewrite Nat.add_0_r. split_and!; done || lia. }
  pose proof (run_label_inv n s (LRun l) Hi I ltac:(lia)) as Hl. unfold keeps_inv, wp in Hl.
  assert (∃ s1, catching (run_label (LRun l)) s = (Ok tt, s1) ∧ inv (S n) [] s1) as (s1 & E1 & Hi1).
  { unfold catching. destruct (run_label (LRun l) s) as [[[]|e| |] s1]; by eauto. }
  destruct (IH (S n) s1 Hi1 ltac:(lia)) as (s' & E' & Hi' & Hw').
  pose proof (run_loop_work n s l s1 Hi ltac:(lia) E1) as Hw1.
  exists s'. replace (n + S (length ls))%nat with (S n + length ls)%nat by lia. rewrite E1.
  split_and!; [unfold bind; by rewrite E1|done|]. cbn [snd]. lia.
Qed.

End facts.

(** ** The theorems *)

Section theorems.
Context {C World Act : Type} {Ops : ServedConn C World Act} {Laws : ServedConnLaws C World Act}.

(** What the invariant says of one connection *)
Lemma entry_life n (s : Sys C World) i e : inv n [] s → conns s !! i = Some e →
  let inside := m_connections (server s) !! e_name e = Some i in
  e_loop e = loop_of (pred (length (queues s))) i ∧
  calls (e_log e) `prefix_of` [(e_loop e, Establish); (e_loop e, Destroy)] ∧
  ((e_loop e, Destroy) ∈ e_log e → c_closes (e_conn e) = 1%nat ∧ ¬ inside) ∧
  (c_closes (e_conn e) = 0%nat → inside) ∧
  (queued s = 0%nat →
     inside ∧ c_closes (e_conn e) = 0%nat ∧ calls (e_log e) = [(e_loop e, Establish)] ∨
     ¬ inside ∧ c_closes (e_conn e) = 1%nat ∧
       calls (e_log e) = [(e_loop e, Establish); (e_loop e, Destroy)]).
Proof.
  intros Hi He inside. destruct (i_entries _ _ _ Hi i e He) as [Hok Hnm Hlp Hb Hph].
  assert (Hreg : registered s i = true ↔ inside).
  { unfold registered, inside. rewrite Hnm. apply bool_decide_eq_true. }
  assert (Hdes : (e_loop e, Destroy) ∈ e_log e → (e_loop e, Destroy) ∈ calls (e_log e)).
  { intros Hin. apply list_elem_of_filter. auto. }
  assert (Hrest : queued s = 0%nat → ∀ k, pending s [] i k = 0%nat).
  { intros Hq k. unfold pending. rewrite tally_nil, Nat.add_0_r. apply tally_zero, Forall_forall.
    intros q (l & Hl)%list_elem_of_lookup. pose proof (tally_pos length (queues s) l q Hl) as Hle.
    unfold queued in Hq. by rewrite (nil_length_inv q) by lia. }
  assert (Hfalse : registered s i = false → ¬ inside) by (rewrite <- Hreg; congruence).
  split; [done|].
  destruct Hph as [P1 P2 P3 P4 Hr Hc Hcn Hlog|P1 P2 P3 Hr Hc Hlog|P1 P2 P3 Hr Hc Hlog|P1 P2 P3 Hr Hc Hlog|P1 P2 P3 Hr Hc Hlog].
  - rewrite Hlog in *. split_and!; [by exists [(e_loop e, Establish); (e_loop e, Destroy)]|by intros ?%elem_of_nil
      |by intros _; apply Hreg|]. intros Hq. rewrite (Hrest Hq KEst) in P1. lia.
  - rewrite Hlog in *. split_and!; [by exists [(e_loop e, Destroy)]|set_solver|by intros _; apply Hreg|].
    intros _. left. split_and!; [by apply Hreg|done|done].
  - rewrite Hlog in *. split_and!; [by exists [(e_loop e, Destroy)]|set_solver|by intros _; apply Hreg|].
    intros Hq. rewrite (Hrest Hq KRem) in P2. lia.
  - rewrite Hlog in *. split_and!; [by exists [(e_loop e, Destroy)]|set_solver|by rewrite Hc|].
    intros Hq. rewrite (Hrest Hq KDes) in P3. lia.
  - rewrite Hlog in *. split_and!; [by exists []|by intros _; split; [|apply Hfalse]|by rewrite Hc|].
    intros _. right. split_and!; [by apply Hfalse|done|done].
Qed.

End theorems.

(** C5: the life of every connection of a server, in every interleaving of the base loop, the
    I/O loops, the connections and the user's calls: it is handed to the I/O loops in turn, is
    established once and in its own loop, stays in the registry as long as its close callback
    has not been called, and is destroyed at most once, in its own loop, after it has closed
    and left the registry.  Names are distinct and the registry has no other entries; nothing
    is undefined and no establishing fails. *)
Theorem server_lifecycle {C World Act} {Ops : ServedConn C World Act} {Laws : ServedConnLaws C World Act}
    name (a : Acceptor World) xs :
  backlog a = [] → Forall label_ok xs → Z.of_nat (length xs) < INT64_MAX →
  ∃ s, run_labels xs (launch name a) = (Ok tt, s) ∧
    (∀ i e, conns s !! i = Some e →
       e_loop e = loop_of (pred (length (queues s))) i ∧
       calls (e_log e) `prefix_of` [(e_loop e, Establish); (e_loop e, Destroy)] ∧
       ((e_loop e, Destroy) ∈ e_log e →
          c_closes (e_conn e) = 1%nat ∧ m_connections (server s) !! e_name e ≠ Some i) ∧
       (c_closes (e_conn e) = 0%nat → m_connections (server s) !! e_name e = Some i)) ∧
    (∀ i j e e', conns s !! i = Some e → conns s !! j = Some e' → e_name e = e_name e' → i = j) ∧
    (∀ nm i, m_connections (server s) !! nm = Some i → ∃ e, conns s !! i = Some e ∧ e_name e = nm).
Proof.
  intros Hb Hx Hn. destruct (run_labels_inv xs 0 _ (launch_inv name a Hb) Hx Hn) as (s & E & Hi).
  exists s. split_and!; [done|..].
  - intros i e He. by destruct (entry_life _ s i e Hi He) as (? & ? & ? & ? & _).
  - intros i j e e' He He' Hnm. destruct (i_entries _ _ _ Hi i e He), (i_entries _ _ _ Hi j e' He').
    pose proof (so_count _ _ (i_server _ _ _ Hi)) as Hc. apply lookup_lt_Some in He, He'.
    apply (connName_inj s); [lia..|congruence].
  - intros nm i Hr. destruct (so_registry _ _ (i_server _ _ _ Hi) nm i Hr) as [Hlt ->].
    destruct (lookup_lt_is_Some_2 _ _ Hlt) as [e He]. exists e. split; [done|]. apply (i_entries _ _ _ Hi i e He).
Qed.

(** C6: a server comes to rest.  After any run, when the loops only work off their queues, in
    any order, at most four functors run for each one that is queued; and when the queues are
    empty, every connection is either open, established and in the registry, or closed, out
    of the registry, and destroyed. *)
Theorem server_settles {C World Act} {Ops : ServedConn C World Act} {Laws : ServedConnLaws C World Act}
    name (a : Acceptor World) xs ls :
  backlog a = [] → Forall label_ok xs → Z.of_nat (length xs + length ls) < INT64_MAX →
  ∃ s s', run_labels xs (launch name a) = (Ok tt, s) ∧ run_labels (LRun <$> ls) s = (Ok tt, s') ∧
    (effective ls s ≤ 4 * queued s)%nat ∧
    (queued s' = 0%nat → ∀ i e, conns s' !! i = Some e →
       m_connections (server s') !! e_name e = Some i ∧ c_closes (e_conn e) = 0%nat ∧
         calls (e_log e) = [(e_loop e, Establish)] ∨
       m_connections (server s') !! e_name e ≠ Some i ∧ c_closes (e_conn e) = 1%nat ∧
         calls (e_log e) = [(e_loop e, Establish); (e_loop e, Destroy)]).
Proof.
  intros Hb Hx Hn. destruct (run_labels_inv xs 0 _ (launch_inv name a Hb) Hx ltac:(lia)) as (s & E & Hi).
  destruct (run_loops_work ls _ s Hi ltac:(lia)) as (s' & E' & Hi' & Hw).
  pose proof (server_work_bound s) as Hwb. exists s, s'. split_and!; [done|done|lia|].
  intros Hq i e He. destruct (entry_life _ s' i e Hi' He) as (_ & _ & _ & _ & H). by apply H.
Qed.
