(* ===== verification/ServerConnections.v ===== *)
(** * The connections of a [TcpServer]

    [Connection] is what [TcpServer] serves: the instance of [ServedConn] and its laws, from the
    invariant of [ConnectionRuns.v], so that the theorems of [TcpServer.v] hold of servers whose
    connections are [TcpConnection]s.  A [ConnWorld] is an accepted socket with what the kernel
    and the user's callbacks will do. *)

From S2P Require Import Prelude Error Endian Buffer Codec Channel Poller Connection ConnectionFacts ConnectionRuns ConnectionStream.
From S2P Require Import Str Acceptor Served TcpServer.
From stdpp Require Import base gmap list strings.
From Stdlib Require Import ZArith Lia Ascii.

Local Open Scope Z_scope.

Record ConnWorld (P : Type) : Type := mkWorld {
  w_this : Z;
  w_fd : Z;
  w_poller : P;
  w_reads : list (io_outcome str);
  w_writes : list WriteAnswer;
  w_errors : list Z;
  w_script : list (list Op);
}.
Arguments mkWorld {P} _ _ _ _ _ _ _.
Arguments w_this {P} _.
Arguments w_fd {P} _.
Arguments w_poller {P} _.
Arguments w_reads {P} _.
Arguments w_writes {P} _.
Arguments w_errors {P} _.
Arguments w_script {P} _.

Section served.
Context {P : Type} {POps : PollerOps P} (native : bool) (msg : Z → str).

(** What [newConnection] calls on the new connection *)
Definition configure (t : Settings) : list Op :=
  [OpSetCallbacks (mkUser (Served.m_connectionCallback t) (Served.m_messageCallback t)
     (Served.m_frameMessageCallback t) (Served.m_writeCompleteCallback t) true false
     (Served.m_highWaterMarkCallback t));
   OpSetLengthFieldCodec (Served.m_codec t);
   OpSetMaxOutputBufferBytes (Served.m_maxOutputBufferBytes t);
   OpSetOutputOverflowPolicy (Served.m_outputOverflowPolicy t);
   OpSetEdgeTriggered (Served.m_edgeTriggered t)] ++
  (if Served.m_autoReadFlowControlEnabled t then
     [OpEnableFlowControl (Served.m_readPauseHighWaterMark t) (Served.m_readResumeLowWaterMark t)]
   else []).

Definition make_conn (t : Settings) (w : ConnWorld P) : res (Conn P) :=
  let? c := TcpConnection_make (w_this w) true (w_fd w) (w_poller w) in
  match run_actions native msg (Call <$> configure t)
          (ConnectionRuns.launch c (w_reads w) (w_writes w) (w_errors w) (w_script w)) with
  | (Ok _, c) => Ok c
  | (Throw e, _) => Throw e
  | (Undef, _) => Undef
  | (NoFuel, _) => NoFuel
  end.

Definition run_conn (j : Job) : M (Conn P) () :=
  match j with
  | Served.Establish => act native msg Connection.Establish
  | Destroy => act native msg (Call OpConnectDestroyed)
  | Heartbeat => act native msg (Call OpMarkKeepAliveProbeSent)
  | Idle true => ret tt
  | Idle false => act native msg (Call OpForceClose)
  | Shutdown => act native msg (Call OpShutdown)
  end.

#[global] Instance conn_ops : ServedConn (Conn P) (ConnWorld P) Action := {|
  c_make := make_conn;
  c_run := run_conn;
  c_act := act native msg;
  c_closes := λ c, closes (trace c);
  c_connecting := λ c, bool_decide (m_state c = Connecting);
  c_connected := connected;
  c_idleFor := idleFor;
  c_lastProbeAt := lastProbeAt;
  c_probeIdleFor := probeIdleFor;
|}.

Context {PLaws : Poller P}.

Definition conn_world_ok (w : ConnWorld P) : Prop :=
  w_fd w ≠ kInvalidSocket ∧ launch_ok false (w_poller w) (w_fd w) (w_reads w) (w_script w).

Lemma configure_ok t : settings_ok t → Forall (action_ok false) (Call <$> configure t).
Proof.
  intros (Hc & Hm & Hl & Hh). unfold configure. rewrite fmap_app. apply Forall_app. split.
  - repeat constructor; cbn; try done; lia.
  - destruct (Served.m_autoReadFlowControlEnabled t); repeat constructor; cbn; lia.
Qed.

(** The setters touch neither the state nor the trace. *)
Definition is_setter (o : Op) : bool :=
  match o with
  | OpSetCallbacks _ | OpSetLengthFieldCodec _ | OpSetMaxOutputBufferBytes _ | OpSetOutputOverflowPolicy _
  | OpSetEdgeTriggered _ | OpEnableFlowControl _ _ => true
  | _ => false
  end.

Lemma setter_run o c : is_setter o = true →
  ∃ c', act native msg (Call o) c = (Ok tt, c') ∧ m_state c' = m_state c ∧ trace c' = trace c.
Proof.
  intros Ho. destruct o; try done; unfold act, bind, get; cbn [run_op];
    try (eexists; split; [reflexivity|done]).
  unfold Connection.enableAutoReadFlowControl. destruct (pauseHighWaterMark =? 0); eexists; (split; [reflexivity|done]).
Qed.

Lemma setters_run os : ∀ c, Forall (λ o, is_setter o = true) os →
  ∃ c', run_actions native msg (Call <$> os) c = (Ok tt, c') ∧ m_state c' = m_state c ∧ trace c' = trace c.
Proof.
  induction os as [|o os IH]; intros c Ho; [by exists c|]. apply Forall_cons in Ho as [Ho Hos].
  destruct (setter_run o c Ho) as (c1 & E1 & Es1 & Et1). destruct (IH c1 Hos) as (c2 & E2 & Es2 & Et2).
  exists c2. split_and!; [|congruence..]. cbn [fmap list_fmap run_actions]. unfold bind, Connection.catching. by rewrite E1.
Qed.

Lemma configure_setters t : Forall (λ o, is_setter o = true) (configure t).
Proof. unfold configure. apply Forall_app. split; [|destruct (Served.m_autoReadFlowControlEnabled t)]; by repeat constructor. Qed.

Lemma new_conn this fd (p : P) : fd ≠ kInvalidSocket →
  ∃ c, TcpConnection_make this true fd p = Ok c ∧ m_state c = Connecting ∧ trace c = [].
Proof.
  intros Hfd. unfold TcpConnection_make, Channel_make. cbn [negb].
  destruct (Z.eqb_spec fd kInvalidSocket); [done|]. cbn [res_bind].
  destruct (Buffer_make_spec kInitialSize) as (b & Hb & _); [unfold kInitialSize; buf_lia|].
  rewrite Hb. cbn [res_bind]. by eexists.
Qed.

Lemma make_conn_ok t w : settings_ok t → conn_world_ok w →
  ∃ c, make_conn t w = Ok c ∧ base false c ∧ closes (trace c) = 0%nat ∧ bool_decide (m_state c = Connecting) = true.
Proof.
  intros Ht [Hfd Hl]. unfold make_conn.
  destruct (new_conn (w_this w) (w_fd w) (w_poller w) Hfd) as (c & Ec & Hst & Htr).
  destruct (launch_base false _ _ _ _ _ (w_writes w) (w_errors w) _ Ec Hl) as (Hb & _).
  rewrite Ec. cbn [res_bind]. set (c0 := ConnectionRuns.launch _ _ _ _ _) in *.
  destruct (setters_run (configure t) c0 (configure_setters t)) as (c1 & E1 & Es1 & Et1).
  destruct (wp_inv _ _ _ (run_actions_wp false native msg _ c0 Hb (configure_ok t Ht))) as ([] & c2 & E2 & Hg).
  rewrite E1 in E2. injection E2 as <-. rewrite E1. exists c1. split_and!; [done|apply Hg|..].
  - rewrite Et1. unfold c0. cbn. by rewrite Htr.
  - rewrite Es1. unfold c0. cbn. by rewrite Hst.
Qed.

(** A step only adds to the trace. *)
Lemma goes_on_closes c c' : goes_on false c c' → base false c' ∧ (closes (trace c) ≤ closes (trace c'))%nat.
Proof.
  intros [[_ _ [t Ht]] Hb _ _]. split; [done|]. rewrite Ht, closes_app. lia.
Qed.

Lemma act_closes a c : base false c → action_ok false a →
  wp (act native msg a) c (λ _ c', base false c' ∧ (closes (trace c) ≤ closes (trace c'))%nat)
    (λ _ c', base false c' ∧ (closes (trace c) ≤ closes (trace c'))%nat).
Proof. intros Hb Ha. eapply wp_mono; [by apply act_wp|..]; intros; by apply goes_on_closes. Qed.

#[global] Program Instance conn_laws : ServedConnLaws (Conn P) (ConnWorld P) Action := {|
  c_ok := base false;
  world_ok := conn_world_ok;
  act_ok := action_ok false;
|}.
Next Obligation.
  intros c Hc. cbn in *. apply bool_decide_eq_true in Hc. unfold connected, state. by rewrite Hc.
Qed.
Next Obligation. intros t w Ht Hw. by apply make_conn_ok. Qed.
Next Obligation. intros c Hc. apply (core_closes _ _ _ (base_core _ _ Hc)). Qed.
Next Obligation.
  intros c Hc Hst. cbn in *. apply bool_decide_eq_true in Hst. unfold act. apply wp_get.
  set (n := S (length (script c))).
  eapply wp_mono; [apply (connectEstablished_new false) with (n := n)| |done].
  - apply (react_ok false native n).
  - split; [done|]. unfold n. lia.
  - done.
  - intros [] c' Hev. apply goes_on_closes. by apply evolves_goes_on.
Qed.
Next Obligation.
  intros [| | |[]|] c Hc; cbn [c_run conn_ops run_conn]; try (apply act_closes; [done|by split]).
  by apply wp_ret.
Qed.
Next Obligation. intros a c Hc Ha. by apply act_closes. Qed.

End served.

(** ** Instances of the theorems: two I/O loops, two connections, one of them closed *)

Definition ex_world : ConnWorld SelectPoller := mkWorld 1 7 (mkSelect ∅) [] [] [] [].

Definition ex_labels : list (Label (ConnWorld SelectPoller) Action) :=
  [LSet (SetThreadCount 2); LStart true; LArrive (Peer ex_world); LArrive (Peer ex_world); LAccept;
   LRun 1; LRun 2; LAct 0 (Call OpForceClose); LRun 0].

Definition ex_acceptor : Acceptor (ConnWorld SelectPoller) := mkAcceptor false false false [].

Lemma ex_labels_ok : Forall (label_ok (Laws := conn_laws true (λ _, []))) ex_labels.
Proof.
  assert (conn_world_ok ex_world).
  { split; [done|]. apply ex_launch_ok; [vm_compute; discriminate|constructor]. }
  repeat constructor; done.
Qed.

Lemma server_lifecycle_witness : ∃ s,
  run_labels (H := conn_ops true (λ _, [])) ex_labels (launch (lit "s") ex_acceptor) = (Ok tt, s) ∧
  ∀ i e, conns s !! i = Some e → calls (e_log e) `prefix_of` [(e_loop e, Served.Establish); (e_loop e, Destroy)].
Proof.
  destruct (server_lifecycle (Laws := conn_laws true (λ _, [])) (lit "s") ex_acceptor ex_labels eq_refl ex_labels_ok
    eq_refl) as (s & E & H & _).
  exists s. split; [exact E|]. intros i e He. apply (H i e He).
Defined.

Lemma server_settles_witness : ∃ s s',
  run_labels (H := conn_ops true (λ _, [])) ex_labels (launch (lit "s") ex_acceptor) = (Ok tt, s) ∧
  run_labels (H := conn_ops true (λ _, [])) (LRun <$> [1%nat]) s = (Ok tt, s') ∧
  (effective (Ops := conn_ops true (λ _, [])) [1%nat] s ≤ 4 * queued s)%nat.
Proof.
  destruct (server_settles (Laws := conn_laws true (λ _, [])) (lit "s") ex_acceptor ex_labels [1%nat] eq_refl ex_labels_ok
    eq_refl) as (s & s' & E & E' & H & _).
  exists s, s'. split; [exact E|]. split; [exact E'|exact H].
Defined.
