(* ===== verification/TcpClient.v ===== *)
(** * [dbase::net::TcpClient] (code/src/net/tcp_client.cpp, tcp_client.h)

    A client: a [Connector] that makes connections to one server, the connection it has at
    present, and the reconnecting after it has closed.  The state of a run holds the client, the
    connector with its part of the loop (see [Connector.v]), the connections made so far
    (numbered), and the queued functors that destroy connections; these touch nothing else, so
    their order among the functors of the connector does not matter.  A label is what happens
    next in the thread of the loop.  The connections are those of [Served.v]; the callbacks of
    the user come last in the members that call them, so what they call are labels that
    follow. *)

From S2P Require Import Prelude Error Endian Buffer Codec Channel Connection Served Connector.
From stdpp Require Import base gmap list.
From Stdlib Require Import ZArith Lia.

Local Open Scope Z_scope.

Record TcpClient : Type := mkClient {
  m_settings : Settings;
  m_heartbeatCallback : bool;
  m_idleCallback : bool;
  m_heartbeatInterval : Z;
  m_idleTimeout : Z;
  m_keepAliveTimerId : option Z;    (* the interval of the armed timer *)
  m_retry : bool;
  m_connectRequested : bool;
  m_connection : option nat;
}.

Definition set_intervals idle heartbeat c := mkClient (m_settings c) (m_heartbeatCallback c) (m_idleCallback c)
  heartbeat idle (m_keepAliveTimerId c) (m_retry c) (m_connectRequested c) (m_connection c).
Definition set_timer x c := mkClient (m_settings c) (m_heartbeatCallback c) (m_idleCallback c)
  (m_heartbeatInterval c) (m_idleTimeout c) x (m_retry c) (m_connectRequested c) (m_connection c).
Definition set_retry x c := mkClient (m_settings c) (m_heartbeatCallback c) (m_idleCallback c)
  (m_heartbeatInterval c) (m_idleTimeout c) (m_keepAliveTimerId c) x (m_connectRequested c) (m_connection c).
Definition set_requested x c := mkClient (m_settings c) (m_heartbeatCallback c) (m_idleCallback c)
  (m_heartbeatInterval c) (m_idleTimeout c) (m_keepAliveTimerId c) (m_retry c) x (m_connection c).
Definition set_connection x c := mkClient (m_settings c) (m_heartbeatCallback c) (m_idleCallback c)
  (m_heartbeatInterval c) (m_idleTimeout c) (m_keepAliveTimerId c) (m_retry c) (m_connectRequested c) x.
Definition set_user heartbeat idle c := mkClient (m_settings c) heartbeat idle
  (m_heartbeatInterval c) (m_idleTimeout c) (m_keepAliveTimerId c) (m_retry c) (m_connectRequested c) (m_connection c).
Definition set_settings x c := mkClient x (m_heartbeatCallback c) (m_idleCallback c)
  (m_heartbeatInterval c) (m_idleTimeout c) (m_keepAliveTimerId c) (m_retry c) (m_connectRequested c) (m_connection c).

(** What [newConnection] sets on a connection: the codec and four callbacks; the rest is as
    [TcpConnection] initialises it. *)
Definition client_settings (codec : option LengthFieldCodec) (connection message frame writeComplete : bool) : Settings :=
  mkSettings codec (64 * 1024 * 1024) CloseConnection false 0 0 false connection message frame writeComplete false.

Section client.
Context {C World Act : Type} `{ServedConn C World Act}.

(** [e_log] is history: what the client has run on the connection. *)
Record Entry : Type := mkEntry { e_conn : C; e_log : list Job }.

Record Sys : Type := mkSys {
  client : TcpClient;
  connector : Connector;
  conns : list Entry;
  destroys : list nat;       (* queued [connectDestroyed] *)
}.

Definition with_client (f : TcpClient → TcpClient) (s : Sys) : Sys :=
  mkSys (f (client s)) (connector s) (conns s) (destroys s).
Definition on_client (f : TcpClient → TcpClient) : M Sys () := modify (with_client f).

(** Calls of the connector that make no connection *)
Definition on_connector (m : M Connector ()) : M Sys () :=
  let! s := get in
  let '(r, k) := m (connector s) in
  put (mkSys (client s) k (conns s) (destroys s));;; lift r.

(** ** The connection *)

(** The close callback of connection [i] *)
Definition removeConnection (i : nat) : M Sys () :=
  on_client (λ c, if bool_decide (m_connection c = Some i) then set_connection None c else c);;;
  modify (λ s, mkSys (client s) (connector s) (conns s) (destroys s ++ [i]));;;
  let! s := get in
  if m_retry (client s) && m_connectRequested (client s) then on_connector restart else ret tt.

Fixpoint times (n : nat) (m : M Sys ()) : M Sys () :=
  match n with O => ret tt | S n => m;;; times n m end.

(** [m] runs on connection [i]; each time it calls the close callback, [removeConnection] runs. *)
Definition on_conn (i : nat) (log : list Job) (m : M C ()) : M Sys () :=
  let! s := get in
  match conns s !! i with
  | None => undef
  | Some e =>
      let '(r, c) := m (e_conn e) in
      put (mkSys (client s) (connector s) (<[i := mkEntry c (e_log e ++ log)]> (conns s)) (destroys s));;;
      times (c_closes c - c_closes (e_conn e)) (removeConnection i);;;
      lift r
  end.

Definition run_job (i : nat) (j : Job) : M Sys () := on_conn i [j] (c_run j).

Definition newConnection (w : World) : M Sys () :=
  let! s := get in
  if negb (m_connectRequested (client s)) then ret tt
  else
    let! c := lift (c_make (m_settings (client s)) w) in
    let i := length (conns s) in
    modify (λ s, mkSys (client s) (connector s) (conns s ++ [mkEntry c []]) (destroys s));;;
    on_client (set_connection (Some i));;;
    run_job i Establish.

(** An event of the connector; if it has made a connection (on a socket described by [w]) its
    callback follows. *)
Definition connector_event (e : Event) (w : World) : M Sys () :=
  let! s := get in
  on_connector (run_event e);;;
  let! s' := get in
  if (length (delivered (connector s)) <? length (delivered (connector s')))%nat then newConnection w else ret tt.

(** ** The members *)

Definition TcpClient_make : TcpClient :=
  mkClient (client_settings None false false false false) false false 0 0 None false false None.

Definition startKeepAliveCheck : M Sys () :=
  let! s := get in
  match m_keepAliveTimerId (client s) with
  | Some _ => ret tt
  | None =>
      let interval := baseInterval (m_idleTimeout (client s)) (m_heartbeatInterval (client s)) in
      if interval <=? 0 then ret tt else on_client (set_timer (Some interval))
  end.

Definition stopKeepAliveCheck : M Sys () := on_client (set_timer None).

Definition connect : M Sys () :=
  on_client (set_requested true);;;
  startKeepAliveCheck;;;
  on_connector start.

Definition disconnect : M Sys () :=
  on_client (set_requested false);;;
  let! s := get in
  match m_connection (client s) with
  | Some i => run_job i Shutdown
  | None => on_connector stop
  end.

Definition stop : M Sys () :=
  on_client (set_requested false);;;
  stopKeepAliveCheck;;;
  on_connector Connector.stop;;;
  let! s := get in
  match m_connection (client s) with
  | Some i => run_job i (Idle false)
  | None => ret tt
  end.

Definition checkKeepAlive : M Sys () :=
  let! s := get in
  let k := client s in
  match m_connection k with
  | None => ret tt
  | Some i =>
      match conns s !! i with
      | None => undef
      | Some e =>
          let c := e_conn e in
          if negb (c_connected c) then ret tt
          else if (0 <? m_idleTimeout k) && (m_idleTimeout k <=? c_idleFor c) then
            run_job i (Idle (m_idleCallback k))
          else if (0 <? m_heartbeatInterval k) && m_heartbeatCallback k then
            let neverProbed := c_lastProbeAt c =? 0 in
            let probeExpired := negb neverProbed && (m_heartbeatInterval k <=? c_probeIdleFor c) in
            if (m_heartbeatInterval k <=? c_idleFor c) && (neverProbed || probeExpired) then run_job i Heartbeat
            else ret tt
          else ret tt
      end
  end.

(** [~TcpClient] in the thread of the loop *)
Definition TcpClient_destroy : M Sys () :=
  stopKeepAliveCheck;;;
  on_client (set_requested false);;;
  let! s := get in
  on_client (set_connection None);;;
  (match m_connection (client s) with Some i => run_job i Destroy | None => ret tt end);;;
  on_connector Connector.stop.

(** ** Runs *)

Inductive Label : Type :=
  | LConnect
  | LDisconnect
  | LStop
  | LEnableRetry (on : bool)
  | LSetRetryDelayMs (initial max : Z)
  | LSetIntervals (idle heartbeat : Z)
  | LSetUser (heartbeat idle : bool)
  | LSetCallbacks (codec : option LengthFieldCodec) (connection message frame writeComplete : bool)
  | LConnector (e : Event) (w : World)  (* a functor, a timer or a report for the connector *)
  | LDestroy                            (* the loop runs the next [connectDestroyed] *)
  | LAct (i : nat) (a : Act)            (* something happens to connection [i] *)
  | LTick.                              (* the keep-alive timer is due *)

Definition run_label (x : Label) : M Sys () :=
  let! s := get in
  match x with
  | LConnect => connect
  | LDisconnect => disconnect
  | LStop => stop
  | LEnableRetry on => on_client (set_retry on)
  | LSetRetryDelayMs i m => on_connector (setRetryDelayMs i m)
  | LSetIntervals idle heartbeat => on_client (set_intervals idle heartbeat)
  | LSetUser heartbeat idle => on_client (set_user heartbeat idle)
  | LSetCallbacks codec cc mc fc wc => on_client (set_settings (client_settings codec cc mc fc wc))
  | LConnector e w => if loop_event e then connector_event e w else ret tt
  | LDestroy =>
      match destroys s with
      | [] => ret tt
      | i :: ds => put (mkSys (client s) (connector s) (conns s) ds);;; run_job i Destroy
      end
  | LAct i a =>
      match conns s !! i with
      | Some _ => on_conn i [] (c_act a)
      | None => ret tt
      end
  | LTick => match m_keepAliveTimerId (client s) with Some _ => checkKeepAlive | None => ret tt end
  end.

(** Whoever runs the loop may catch an exception. *)
Definition catching (m : M Sys ()) : M Sys () :=
  λ s, match m s with (Throw _, s') => (Ok tt, s') | out => out end.

Fixpoint run_labels (xs : list Label) : M Sys () :=
  match xs with
  | [] => ret tt
  | x :: xs => catching (run_label x);;; run_labels xs
  end.

Definition launch (ans : list (bool * Z)) : Sys :=
  mkSys TcpClient_make (Connector_make true ans) [] [].

Lemma run_labels_app xs ys s : run_labels (xs ++ ys) s = (run_labels xs;;; run_labels ys) s.
Proof.
  revert s. induction xs as [|x xs IH]; intros s; [done|]. cbn [app run_labels]. rewrite bind_assoc. by apply bind_ext.
Qed.

End client.

Arguments Entry _ : clear implicits.
Arguments Sys _ : clear implicits.
Arguments Label _ _ : clear implicits.

(** ** The connector and the connection *)

Definition restarts (fs : list Functor) : nat := tally (λ f, match f with FRestart => 1%nat | _ => 0%nat end) fs.

Lemma restarts_deletes fs ds : restarts (fs ++ (FDelete <$> ds)) = restarts fs.
Proof. unfold restarts. rewrite tally_app, (tally_zero _ (FDelete <$> ds)); [lia|]. apply Forall_fmap, Forall_true. done. Qed.

Lemma stops_deletes fs ds : FStop ∉ fs → FStop ∉ (fs ++ (FDelete <$> ds)).
Proof. intros H. rewrite elem_of_app, list_elem_of_fmap. intros [?|(? & [=] & _)]. done. Qed.

(** Connector [k] under a client whose connection is [o].  [live]: the client wants to be
    connected and nothing has stopped the connector. *)
Record link (live : bool) (k : Connector) (o : option nat) : Prop := {
  lk_inv : conr_inv true k;
  lk_trying : trying k;
  lk_callback : m_newConnectionCallback k = true;
  lk_once : (restarts (functors k) ≤ 1)%nat;
  lk_restart : restarts (functors k) ≠ 0%nat → m_state k = Connected ∧ o = None;
  lk_connected : is_Some o → m_state k = Connected;
  lk_live : live = true → m_started k = true ∧ (FStop ∉ functors k) ∧
    (m_state k = Connected → is_Some o ∨ restarts (functors k) ≠ 0%nat);
}.

Lemma link_none live k i : link live k (Some i) → link false k None.
Proof.
  intros [H1 H2 H3 H4 H5 H6 H7]. split; try done. intros Hr. destruct (H5 Hr) as [_ [=]].
Qed.

Lemma link_weaken live k o : link live k o → link false k o.
Proof. by intros []. Qed.

Lemma restarting k : restarts (functors k) = 0%nat → restarts_now EFunctor k = false.
Proof. cbn. destruct (functors k) as [|[]]; done. Qed.

Lemma link_calm live k o e : link live k o → restarts_now e k = false.
Proof.
  intros Hl. destruct e; try done. destruct (functors k) as [|f fs] eqn:Ef; [cbn; by rewrite Ef|].
  destruct f; cbn; rewrite Ef; try done. destruct (lk_restart _ _ _ Hl) as [-> _]; [|done].
  rewrite Ef. unfold restarts. rewrite tally_cons. lia.
Qed.

(** A step of the loop: the connection is as before, or there was none and one is made. *)
Definition advanced (live : bool) (k : Connector) (o : option nat) (k' : Connector) : Prop :=
  delivered k' = delivered k ∧ link live k' o ∨
  (length (delivered k) < length (delivered k'))%nat ∧ o = None ∧ ∀ i, link live k' (Some i).

Lemma link_advance live k0 k k' started : conr_inv true k' → trying k' →
  m_newConnectionCallback k = true → delivered k = delivered k0 → moves started k k' → ∀ o,
  (restarts (functors k) ≤ 1)%nat → (restarts (functors k) ≠ 0%nat → m_state k = Connected ∧ o = None) →
  (is_Some o → m_state k = Connected) →
  (live = true → started = true ∧ m_started k = true ∧ (FStop ∉ functors k) ∧
    (m_state k = Connected → is_Some o ∨ restarts (functors k) ≠ 0%nat)) →
  advanced live k0 o k'.
Proof.
  intros Hi Ht Hcb Hdl [(ds & Hf) H2 H3 H4 H5] o Hone Hre Hco Hlv. unfold advanced. rewrite <- Hdl.
  assert (Hrs : restarts (functors k') = restarts (functors k)) by (by rewrite Hf, restarts_deletes).
  assert (Hst : live = true → FStop ∉ functors k').
  { intros Hl. rewrite Hf. apply stops_deletes. by apply Hlv. }
  destruct (decide (m_state k = Connected)) as [Hc|Hc].
  { destruct (H4 Hc) as [Hc' Hd]. left. split; [done|]. split; rewrite ?Hrs; [done|done|congruence|done|..].
    - intros Hr. split; [done|]. by apply Hre.
    - done.
    - intros Hl. destruct (Hlv Hl) as (-> & _ & _ & Hor). auto. }
  assert (Hz : restarts (functors k) = 0%nat) by (destruct (restarts (functors k)); [done|]; by destruct Hre).
  assert (Ho : o = None) by (destruct o; [|done]; by destruct Hc, Hco). subst o.
  destruct (H5 Hc) as [[Hc' Hd]|[Hc' [[Hd Hn]|[_ [fd Hd]]]]].
  - left. split; [done|]. split; rewrite ?Hrs; [done|done|congruence|done|done|by intros [? ?]|].
    intros Hl. destruct (Hlv Hl) as (-> & _). split_and!; [done|auto|by intros].
  - left. split; [done|]. split; rewrite ?Hrs; [done|done|congruence|done|done|by intros [? ?]|].
    intros Hl. destruct (Hlv Hl) as (_ & Hs & _ & _). by rewrite Hs, Hcb in Hn.
  - right. split_and!; [rewrite Hd, length_app; cbn; lia|done|]. intros i.
    split; rewrite ?Hrs; [done|done|congruence|done|done|done|].
    intros Hl. destruct (Hlv Hl) as (-> & _). split_and!; eauto.
Qed.

Lemma link_loop live k o e : link live k o → loop_event e = true →
  wp (run_event e) k (λ _ k', advanced live k o k') nothrow.
Proof.
  intros Hl He. pose proof (link_calm _ _ _ e Hl) as Hc. destruct Hl as [H1 H2 H3 H4 H5 H6 H7].
  pose proof (run_event_run true e k H1 H2 ltac:(by destruct e) ltac:(done)) as Hr.
  pose proof (loop_event_moves true e k H1 He ltac:(done)) as Hm.
  unfold step_ok, wp in *. destruct (run_event e k) as [[] k']; try done. destruct Hr as [Hi Ht].
  set (started := m_started k && negb _) in Hm.
  assert (Hst : FStop ∉ functors k → started = m_started k).
  { intros Hn. subst started. rewrite bool_decide_false; [by apply andb_true_r|]. destruct e; try done. cbn.
    destruct (functors k) as [|f fs]; [done|]. cbn. set_solver. }
  destruct e; try done; cbn [begun] in Hm; try (eapply (link_advance live k k k' started); try done;
    intros Hl; destruct (H7 Hl) as (Hs & Hf & Hor); split_and!; [rewrite Hst|..]; done).
  destruct (functors k) as [|f fs] eqn:Ef.
  { eapply (link_advance live k k k' started); rewrite ?Ef; try done.
    intros Hl; destruct (H7 Hl) as (Hs & Hf & Hor); split_and!; [rewrite Hst|..]; done. }
  unfold restarts in *. rewrite tally_cons in *.
  assert (Hlv : live = true → started = true ∧ m_started k = true ∧ (FStop ∉ fs) ∧
    (m_state k = Connected → is_Some o ∨ restarts (f :: fs) ≠ 0%nat)).
  { intros Hl. destruct (H7 Hl) as (Hs & Hf & Hor). unfold restarts. rewrite tally_cons.
    split_and!; [by rewrite Hst|done|set_solver|done]. }
  unfold restarts in Hlv. rewrite tally_cons in Hlv.
  destruct f; cbn [begun] in Hm; (eapply (link_advance live k _ k' started); [done|done| | |exact Hm|..]);
    unfold restarts; cbn [functors m_state set_state set_functors m_started delivered m_newConnectionCallback];
    rewrite ?Nat.add_0_l in *; try done; try lia.
  - intros Ho. destruct H5 as [? ->]; [lia|]. by destruct Ho.
  - intros Hl. destruct (Hlv Hl) as (? & ? & ? & _). done.
Qed.

Lemma link_start live k o : link live k o ∨ m_state k = Disconnected ∧ (FStop ∉ functors k) ∧ link false k o →
  wp start k (λ _ k', link live k' o) nothrow.
Proof.
  intros Hl. assert (Hk : link false k o) by (destruct Hl as [Hl|(_ & _ & Hl)]; by apply link_weaken in Hl).
  destruct Hk as [H1 H2 H3 H4 H5 H6 _].
  pose proof (startInLoop_run true (set_started true k) (set_started_inv _ _ _ H1)) as Hr.
  pose proof (startInLoop_quiet true (set_started true k) (set_started_inv _ _ _ H1)) as Hm.
  unfold start, step_ok, wp in *. rewrite bind_modify.
  destruct (startInLoop _) as [[] k']; try done. destruct Hr as [Hi Ht], Hm as [Hm Hd].
  destruct (link_advance live k (set_started true k) k' true) with (o := o) as [[_ ?]|[? _]]; try done.
  - intros Hlive. cbn. destruct Hl as [Hl|(Hd' & Hs & Hl)]; [|split_and!; try done; congruence].
    by destruct (lk_live _ _ _ Hl Hlive) as (_ & ? & ?).
  - cbn in *. rewrite Hd in *. lia.
Qed.

Lemma restarts_snoc fs f : restarts (fs ++ [f]) = (restarts fs + restarts [f])%nat.
Proof. apply tally_app. Qed.

Lemma link_stop live k o : link live k o → wp Connector.stop k (λ _ k', link false k' o) nothrow.
Proof.
  intros [H1 H2 H3 H4 H5 H6 _]. unfold Connector.stop. apply wp_modify_seq.
  eapply wp_seq; [by apply (cancelRetry_run true), set_started_inv|].
  intros [] k1 (Hi1 & _ & _ & (Hs & Hf & _ & _ & _ & _ & _ & Hcb) & Hst & _). cbn in *.
  assert (Hr : restarts (functors k ++ [FStop]) = restarts (functors k)) by (rewrite restarts_snoc; cbn; lia).
  split; cbn [set_functors set_started set_delays functors m_state m_newConnectionCallback m_started];
    rewrite ?Hf, ?Hr, ?Hst; [by apply set_functors_inv|by apply stopped_trying|congruence|done..].
Qed.

Lemma link_restart live k i : link live k (Some i) → wp restart k (λ _ k', link live k' None) nothrow.
Proof.
  intros [H1 H2 H3 H4 H5 H6 H7].
  pose proof (restart_run true k H1) as Hr. unfold step_ok in Hr.
  assert (Hz : restarts (functors k) = 0%nat).
  { destruct (restarts (functors k)); [done|]. destruct H5 as [_ [=]]; done. }
  specialize (H6 ltac:(eauto)). unfold restart in *.
  destruct (wp_inv _ _ _ (cancelRetry_run true k H1)) as ([] & k1 & E & Hi1 & _ & _ & (Hs & Hf & _ & _ & _ & _ & _ & Hcb) & Hst & _).
  unfold wp, bind in *. rewrite E in *. cbn in *. destruct Hr as [Hi Ht].
  assert (Ho : restarts (functors k1 ++ [FRestart]) = 1%nat) by (rewrite Hf, restarts_snoc, Hz; done).
  split; cbn [set_functors set_started set_delays functors m_state m_newConnectionCallback m_started];
    rewrite ?Ho; [done|done|congruence|done|by rewrite Hst|by intros [? ?]|].
  intros Hl. destruct (H7 Hl) as (_ & Hn & _). rewrite Hf. split_and!; [done| |by right].
  rewrite elem_of_app, list_elem_of_singleton. by intros [?|[=]].
Qed.

Lemma link_delays live k o i m : link live k o → event_ok (ESetRetryDelayMs i m) = true →
  wp (setRetryDelayMs i m) k (λ _ k', link live k' o) nothrow.
Proof.
  intros [H1 H2 H3 H4 H5 H6 H7] He. pose proof (setRetryDelayMs_run true i m k H1 H2 He) as Hr.
  unfold step_ok, setRetryDelayMs, wp in *. cbn in *. destruct Hr as [Hi Ht]. by split.
Qed.

(** ** The invariant of the client *)

Section proofs.
Context {C World Act : Type} {Ops : ServedConn C World Act} {Laws : ServedConnLaws C World Act}.
Implicit Types (s : Sys C) (e : Entry C).

(** How often [j] is in the log, and how often the destruction of [i] is queued *)
Definition ran (j : Job) (log : list Job) : nat := tally (λ j', if bool_decide (j' = j) then 1%nat else 0%nat) log.
Definition queued (i : nat) (ds : list nat) : nat := tally (λ i', if bool_decide (i' = i) then 1%nat else 0%nat) ds.

(** [due] is a job that is about to run. *)
Definition owed (due : option (nat * Job)) (i : nat) (j : Job) : nat :=
  if bool_decide (due = Some (i, j)) then 1%nat else 0%nat.

Lemma owed_none i j : owed None i j = 0%nat.
Proof. done. Qed.
Lemma owed_self i j : owed (Some (i, j)) i j = 1%nat.
Proof. unfold owed. by rewrite bool_decide_true. Qed.
Lemma owed_other i j i' j' : i' ≠ i ∨ j' ≠ j → owed (Some (i, j)) i' j' = 0%nat.
Proof. intros H. unfold owed. rewrite bool_decide_false; [done|]. intros [= -> ->]. tauto. Qed.

Record entry_ok (due : option (nat * Job)) (ds : list nat) (o : option nat) (i : nat) e : Prop := {
  en_ok : c_ok (e_conn e);
  en_open : c_closes (e_conn e) = 0%nat ↔ o = Some i;
  en_established : (ran Establish (e_log e) + owed due i Establish = 1)%nat;
  en_destroyed : (ran Destroy (e_log e) + queued i ds + owed due i Destroy = c_closes (e_conn e))%nat;
}.

Record inv (live : bool) (due : option (nat * Job)) s : Prop := {
  iv_link : link live (connector s) (m_connection (client s));
  iv_bound : ∀ i, m_connection (client s) = Some i ∨ i ∈ destroys s → (i < length (conns s))%nat;
  iv_entry : ∀ i e, conns s !! i = Some e → entry_ok due (destroys s) (m_connection (client s)) i e;
  iv_settings : settings_ok (m_settings (client s));
  iv_live : live = true → m_retry (client s) = true ∧ m_connectRequested (client s) = true;
}.

Lemma ran_snoc j log j' : ran j (log ++ [j']) = (ran j log + if bool_decide (j' = j) then 1 else 0)%nat.
Proof. unfold ran. rewrite tally_app, tally_cons, tally_nil. lia. Qed.
Lemma queued_snoc i ds i' : queued i (ds ++ [i']) = (queued i ds + if bool_decide (i' = i) then 1 else 0)%nat.
Proof. unfold queued. rewrite tally_app, tally_cons, tally_nil. lia. Qed.
Lemma queued_cons i ds i' : queued i (i' :: ds) = ((if bool_decide (i' = i) then 1 else 0) + queued i ds)%nat.
Proof. apply tally_cons. Qed.

(** [log] is nothing that is counted, or it is what is due. *)
Definition settles (due due' : option (nat * Job)) (i : nat) (log : list Job) : Prop :=
  due' = due ∧ ran Establish log = 0%nat ∧ ran Destroy log = 0%nat ∨
  ∃ j, due = Some (i, j) ∧ due' = None ∧ log = [j].

Lemma settles_ran due due' i log j l : settles due due' i l → (j = Establish ∨ j = Destroy) →
  (ran j (log ++ l) + owed due' i j = ran j log + owed due i j)%nat.
Proof.
  intros Hs Hj. unfold ran at 1. rewrite tally_app. fold (ran j log) (ran j l).
  destruct Hs as [(-> & H1 & H2)|(j' & -> & -> & ->)].
  - destruct Hj as [-> | ->]; lia.
  - unfold owed, ran. rewrite tally_cons, tally_nil. rewrite (bool_decide_false (None = _)) by done.
    destruct (decide (j' = j)) as [->|Hn]; [rewrite !bool_decide_true by done|rewrite !bool_decide_false by congruence]; lia.
Qed.

Lemma settles_other due due' i i' l j : settles due due' i l → i' ≠ i → owed due' i' j = owed due i' j.
Proof.
  intros [(-> & _)|(j' & -> & -> & ->)] Hn; [done|]. unfold owed. by rewrite !bool_decide_false by congruence.
Qed.

(** Connection [i] makes a step: as long as it does not close ... *)
Lemma inv_step live due due' s i e c log : inv live due s → conns s !! i = Some e → settles due due' i log →
  c_ok c → c_closes c = c_closes (e_conn e) →
  inv live due' (mkSys (client s) (connector s) (<[i := mkEntry c (e_log e ++ log)]> (conns s)) (destroys s)).
Proof.
  intros [H1 H2 H3 H4 H5] He Hs Hok Hcl. pose proof (H3 i e He) as [E1 E2 E3 E4].
  split; cbn [client connector conns destroys]; rewrite ?length_insert; try done.
  intros i' e' [(<- & <- & _)|(Hn & He')]%list_lookup_insert_Some.
  - split; cbn [e_conn e_log]; rewrite ?Hcl; try done.
    + by rewrite (settles_ran due due') by auto.
    + pose proof (settles_ran due due' i (e_log e) Destroy log Hs ltac:(auto)). lia.
  - destruct (H3 i' e' He') as [F1 F2 F3 F4].
    split; try done; rewrite (settles_other due due' i i' log) by done; done.
Qed.

(** ... and when it does. *)
Lemma inv_close live live' due due' s k i e c log : inv live due s → conns s !! i = Some e → settles due due' i log →
  c_ok c → c_closes (e_conn e) = 0%nat → c_closes c = 1%nat → link live' k None → (live' = true → live = true) →
  inv live' due' (mkSys (set_connection None (client s)) k
    (<[i := mkEntry c (e_log e ++ log)]> (conns s)) (destroys s ++ [i])).
Proof.
  intros [H1 H2 H3 H4 H5] He Hs Hok Hcl Hcl' Hk Hlv. pose proof (H3 i e He) as [E1 E2 E3 E4].
  pose proof (proj1 E2 Hcl) as Ho. pose proof (lookup_lt_Some _ _ _ He) as Hlt.
  split; cbn [client connector conns destroys m_connection set_connection m_settings m_retry m_connectRequested];
    rewrite ?length_insert; try done; [| |by intros ?; apply H5, Hlv].
  - intros i' [[=]|[Hi'| ->%list_elem_of_singleton]%elem_of_app]; auto.
  - intros i' e' [(<- & <- & _)|(Hn & He')]%list_lookup_insert_Some.
    + split; cbn [e_conn e_log]; rewrite ?Hcl'; try done.
      * by rewrite (settles_ran due due') by auto.
      * pose proof (settles_ran due due' i (e_log e) Destroy log Hs ltac:(auto)).
        rewrite queued_snoc, bool_decide_true by done. lia.
    + destruct (H3 i' e' He') as [F1 F2 F3 F4].
      split; try done; try (rewrite (settles_other due due' i i' log) by done; done).
      * rewrite F2, Ho. split; [|done]. intros [= ->]. done.
      * rewrite queued_snoc, bool_decide_false, (settles_other due due' i i' log) by congruence. lia.
Qed.

Lemma removeConnection_run live due due' s i e c log : inv live due s → conns s !! i = Some e → settles due due' i log →
  c_ok c → c_closes (e_conn e) = 0%nat → c_closes c = 1%nat →
  wp (removeConnection i) (mkSys (client s) (connector s) (<[i := mkEntry c (e_log e ++ log)]> (conns s)) (destroys s))
    (λ _ s', inv live due' s') nothrow.
Proof.
  intros Hi He Hs Hok Hcl Hcl'. pose proof Hi as [H1 H2 H3 H4 H5]. pose proof (proj1 (en_open _ _ _ _ _ (H3 i e He)) Hcl) as Ho.
  unfold removeConnection, on_client, with_client. do 2 apply wp_modify_seq. cbn [client connector conns destroys].
  rewrite bool_decide_true by done. apply wp_get. cbn [client m_retry m_connectRequested set_connection].
  rewrite Ho in H1.
  destruct (m_retry (client s) && m_connectRequested (client s)) eqn:Er.
  - destruct (wp_inv _ _ _ (link_restart live (connector s) i H1)) as ([] & k & E & Hk).
    unfold on_connector. apply wp_get. cbn [connector]. rewrite E. unfold wp. cbn. by eapply (inv_close live).
  - apply wp_ret. destruct live.
    { destruct (H5 eq_refl) as [E1 E2]. by rewrite E1, E2 in Er. }
    eapply (inv_close false); try done. by eapply link_none.
Qed.

Lemma client_on_conn_run live due due' s i e log m : inv live due s → conns s !! i = Some e → settles due due' i log →
  ∀ E, wp m (e_conn e) (λ _ c, c_ok c ∧ (c_closes (e_conn e) ≤ c_closes c)%nat) (λ x c, E x c ∧ c_ok c ∧ (c_closes (e_conn e) ≤ c_closes c)%nat) →
  wp (on_conn i log m) s (λ _ s', inv live due' s') (λ x s', inv live due' s' ∧ ∃ c, E x c).
Proof.
  intros Hi He Hs E Hm. unfold on_conn. apply wp_get. rewrite He. unfold wp in Hm.
  destruct (m (e_conn e)) as [r c] eqn:Em.
  assert (Hc : c_ok c ∧ (c_closes (e_conn e) ≤ c_closes c)%nat ∧ ∀ s', inv live due' s' →
    wp (lift r) s' (λ _ s', inv live due' s') (λ x s', inv live due' s' ∧ ∃ c, E x c)).
  { destruct r; try done; [naive_solver|]. destruct Hm as (? & ? & ?). split_and!; try done. intros s' Hs'. split; eauto. }
  destruct Hc as (Hok & Hle & Hfin). pose proof (c_closes_once c Hok) as Hone.
  eapply wp_run_seq; [reflexivity|]. destruct (decide (c_closes c = c_closes (e_conn e))) as [Heq|Hne].
  - rewrite Heq, Nat.sub_diag. cbn [times]. eapply wp_run_seq; [reflexivity|]. apply Hfin. by eapply inv_step.
  - assert (c_closes (e_conn e) = 0%nat) as E0 by lia. assert (c_closes c = 1%nat) as E1 by lia.
    rewrite E0, E1. cbn [Nat.sub times].
    apply (wp_calm _ _ _ (λ _ s', inv live due' s')); [|by intros [] s' Hs'; apply Hfin].
    eapply wp_calm; [by eapply (removeConnection_run live due due' s i e c log)|].
    intros [] s' Hs'. by apply wp_ret.
Qed.

Lemma inv_with_client live live' due s f : inv live due s → m_connection (f (client s)) = m_connection (client s) →
  settings_ok (m_settings (f (client s))) → link live' (connector s) (m_connection (client s)) →
  (live' = true → m_retry (f (client s)) = true ∧ m_connectRequested (f (client s)) = true) →
  inv live' due (with_client f s).
Proof.
  intros [H1 H2 H3 H4 H5] E1 E2 Hk Hl. split; cbn [client connector conns destroys with_client]; rewrite ?E1; done.
Qed.

Lemma inv_connector live live' due s k : inv live due s → link live' k (m_connection (client s)) →
  (live' = true → m_retry (client s) = true ∧ m_connectRequested (client s) = true) →
  inv live' due (mkSys (client s) k (conns s) (destroys s)).
Proof. intros [H1 H2 H3 H4 H5] Hk Hl. split; cbn; auto. Qed.

Lemma inv_weaken live due s : inv live due s → inv false due s.
Proof. intros [H1 H2 H3 H4 H5]. split; try done. by eapply link_weaken. Qed.

(** Calls of the connector *)
Lemma on_connector_run live live' due s m : inv live due s →
  (live' = true → m_retry (client s) = true ∧ m_connectRequested (client s) = true) →
  wp m (connector s) (λ _ k, link live' k (m_connection (client s))) nothrow →
  wp (on_connector m) s (λ _ s', inv live' due s' ∧ client s' = client s ∧ conns s' = conns s) nothrow.
Proof.
  intros Hi Hl Hm. destruct (wp_inv _ _ _ Hm) as ([] & k & E & Hk). unfold on_connector. apply wp_get. rewrite E.
  unfold wp. cbn. split_and!; try done. by eapply (inv_connector live).
Qed.

Definition keeps_inv (live : bool) (m : M (Sys C) ()) s : Prop :=
  wp m s (λ _ s', inv live None s') (λ _ s', inv live None s').

(** A job that is not counted, and one that is due *)
Lemma run_job_run live due s i e j : inv live due s → conns s !! i = Some e → settles due None i [j] →
  keeps_inv live (run_job i j) s.
Proof.
  intros Hi He Hs. pose proof (en_ok _ _ _ _ _ (iv_entry _ _ _ Hi i e He)) as Hok.
  eapply wp_mono; [eapply (client_on_conn_run live due None s i e [j] (c_run j) Hi He Hs (λ _ _, True))|done|naive_solver].
  eapply wp_mono; [by apply c_run_ok|done|done].
Qed.

Lemma plain_job live s i e j : inv live None s → conns s !! i = Some e → j ≠ Establish → j ≠ Destroy →
  keeps_inv live (run_job i j) s.
Proof.
  intros Hi He H1 H2. eapply run_job_run; [done|done|]. left. unfold ran.
  rewrite !tally_cons, !tally_nil, !bool_decide_false by done. done.
Qed.

(** The connection that was made is the only open one. *)
Lemma client_newConnection_run live s k w : inv live None s → world_ok w → m_connection (client s) = None →
  (∀ i, link live k (Some i)) →
  wp (newConnection w) (mkSys (client s) k (conns s) (destroys s)) (λ _ s', inv live None s') nothrow.
Proof.
  intros Hi Hw Ho Hk. pose proof Hi as [H1 H2 H3 H4 H5]. unfold newConnection. apply wp_get. cbn [client conns].
  destruct (m_connectRequested (client s)) eqn:Er; cbn [negb].
  2: { apply wp_ret. destruct live; [by destruct (H5 eq_refl)|]. eapply inv_connector; try done.
       rewrite Ho. eapply link_none, (Hk 0%nat). }
  destruct (c_make_ok (m_settings (client s)) w H4 Hw) as (c & -> & Hok & Hcl & Hcn).
  apply wp_lift_seq. unfold on_client, with_client. do 2 apply wp_modify_seq. cbn [client connector conns destroys].
  set (i := length (conns s)). set (s' := mkSys _ _ _ _).
  assert (Hz : queued i (destroys s) = 0%nat).
  { apply tally_zero, Forall_forall. intros d Hd. rewrite bool_decide_false; [done|].
    specialize (H2 d ltac:(auto)). unfold i. lia. }
  assert (Hi' : inv live (Some (i, Establish)) s').
  { split; cbn [s' client connector conns destroys m_connection set_connection]; [by apply Hk| | |done|naive_solver].
    - intros i'. rewrite length_app. cbn. intros [[= <-]|Hd]; [unfold i; lia|]. specialize (H2 i' ltac:(auto)). lia.
    - intros i' e' [He'|[? He']]%lookup_app_Some.
      + destruct (H3 i' e' He') as [F1 F2 F3 F4]. pose proof (lookup_lt_Some _ _ _ He') as Hlt.
        assert (Hne : i' ≠ i) by (unfold i; lia). rewrite owed_none in F3, F4.
        split; rewrite ?owed_other by auto; try done. rewrite F2, Ho. split; congruence.
      + apply list_lookup_singleton_Some in He' as [E <-]. assert (i' = i) as -> by (unfold i; lia).
        split; cbn [e_conn e_log]; rewrite ?owed_self; try done. by rewrite owed_other, Hz, Hcl by auto. }
  assert (He : conns s' !! i = Some (mkEntry c [])) by by apply list_lookup_middle.
  unfold run_job.
  eapply wp_mono; [eapply (client_on_conn_run live _ None s' i _ [Establish] (c_run Establish) Hi' He _ (λ _ _, False))| |].
  - eapply wp_mono; [by apply c_establish_ok|done|done].
  - done.
  - intros x s2 [_ [? []]].
  Unshelve. right. by eexists.
Qed.

Lemma connector_event_run live s ev w : inv live None s → world_ok w → loop_event ev = true →
  wp (connector_event ev w) s (λ _ s', inv live None s') nothrow.
Proof.
  intros Hi Hw He. pose proof Hi as [H1 H2 H3 H4 H5]. unfold connector_event, on_connector. apply wp_get.
  destruct (wp_inv _ _ _ (link_loop _ _ _ ev H1 He)) as ([] & k & E & Hk).
  eapply wp_run_seq. { unfold bind, get. rewrite E. reflexivity. }
  apply wp_get. cbn [connector].
  destruct Hk as [[Hd Hk]|(Hd & Ho & Hk)].
  - rewrite Hd, Nat.ltb_irrefl. apply wp_ret. by eapply inv_connector.
  - rewrite (proj2 (Nat.ltb_lt _ _) Hd). by apply client_newConnection_run.
Qed.

(** ** Labels *)

Definition label_ok (x : Label World Act) : Prop :=
  match x with
  | LSetRetryDelayMs i m => event_ok (ESetRetryDelayMs i m) = true
  | LSetCallbacks codec _ _ _ _ => match codec with Some k => valid k | None => True end
  | LConnector _ w => world_ok w
  | LAct _ a => act_ok a
  | _ => True
  end.

(** Labels after which the client still wants to be connected *)
Definition insists (x : Label World Act) : bool :=
  match x with LDisconnect | LStop | LEnableRetry false => false | _ => true end.

Lemma startKeepAliveCheck_run live s : inv live None s →
  wp startKeepAliveCheck s (λ _ s', inv live None s' ∧ connector s' = connector s ∧
    m_connection (client s') = m_connection (client s) ∧ m_retry (client s') = m_retry (client s) ∧
    m_connectRequested (client s') = m_connectRequested (client s)) nothrow.
Proof.
  intros Hi. unfold startKeepAliveCheck. apply wp_get.
  destruct (m_keepAliveTimerId (client s)); [by apply wp_ret|]. case_match; [by apply wp_ret|].
  apply wp_modify. split; [|done]. eapply (inv_with_client live); try done; apply Hi.
Qed.

Lemma client_connect_run live s : inv live None s → wp connect s (λ _ s', inv live None s') nothrow.
Proof.
  intros Hi. unfold connect, on_client. apply wp_modify_seq.
  eapply wp_seq; [eapply (startKeepAliveCheck_run live), (inv_with_client live); try done; [apply Hi|apply Hi|]|].
  { intros Hl. by destruct (iv_live _ _ _ Hi Hl). }
  intros [] s1 (Hi1 & Hc & Ho & _).
  eapply wp_mono; [eapply (on_connector_run live live); [done|apply Hi1|]|naive_solver|done].
  apply link_start. left. apply Hi1.
Qed.

Lemma conn_there live s i : inv live None s → m_connection (client s) = Some i → ∃ e, conns s !! i = Some e.
Proof. intros Hi Ho. apply lookup_lt_is_Some_2. apply (iv_bound _ _ _ Hi). by left. Qed.

Lemma disconnect_run s : inv false None s → keeps_inv false disconnect s.
Proof.
  intros Hi. unfold keeps_inv, disconnect, on_client. apply wp_modify_seq, wp_get.
  assert (Hi' : inv false None (with_client (set_requested false) s)).
  { eapply (inv_with_client false); try done; apply Hi. }
  cbn [client with_client m_connection set_requested]. destruct (m_connection (client s)) as [i|] eqn:Ho.
  - destruct (conn_there _ _ i Hi Ho) as [e He]. by eapply plain_job.
  - eapply wp_mono; [eapply (on_connector_run false false); [done|done|]|naive_solver|done].
    eapply link_stop. apply Hi'.
Qed.

Lemma client_stop_run s : inv false None s → keeps_inv false stop s.
Proof.
  intros Hi. unfold keeps_inv, stop, stopKeepAliveCheck, on_client. do 2 apply wp_modify_seq.
  set (s1 := with_client _ _).
  assert (Hi1 : inv false None s1).
  { eapply (inv_with_client false); [eapply (inv_with_client false)|..]; try done; apply Hi. }
  eapply wp_calm; [eapply (on_connector_run false false); [done|done|eapply link_stop; apply Hi1]|].
  intros [] s2 (Hi2 & Hc & Hcs). apply wp_get. rewrite Hc. cbn [client s1 with_client m_connection set_requested set_timer].
  destruct (m_connection (client s)) as [i|] eqn:Ho; [|by apply wp_ret].
  assert (Ho2 : m_connection (client s2) = Some i) by by rewrite Hc.
  destruct (conn_there _ _ i Hi2 Ho2) as [e He]. by eapply plain_job.
Qed.

Lemma checkKeepAlive_run live s : inv live None s → keeps_inv live checkKeepAlive s.
Proof.
  intros Hi. unfold keeps_inv, checkKeepAlive. apply wp_get.
  destruct (m_connection (client s)) as [i|] eqn:Ho; [|by apply wp_ret].
  destruct (conn_there _ _ i Hi Ho) as [e He]. rewrite He. cbv zeta.
  repeat (match goal with |- context [if ?b then _ else _] => destruct b end); try (by apply wp_ret); by eapply plain_job.
Qed.

Lemma run_label_run live s x : inv live None s → label_ok x → (live = true → insists x = true) →
  keeps_inv live (run_label x) s.
Proof.
  intros Hi Hx Hl. unfold keeps_inv, run_label. apply wp_get.
  destruct x as [| | |on|i m|idle hb|hb idle|codec cc mc fc wc|ev w| |i a|].
  - eapply wp_mono; [by apply client_connect_run|done|done].
  - destruct live; [by specialize (Hl eq_refl)|]. by apply disconnect_run.
  - destruct live; [by specialize (Hl eq_refl)|]. by apply client_stop_run.
  - apply wp_modify. eapply (inv_with_client live); try done; [apply Hi|apply Hi|]. intros Hl'. destruct on; [|by specialize (Hl Hl')].
    by destruct (iv_live _ _ _ Hi Hl').
  - eapply wp_mono; [eapply (on_connector_run live live); [done|apply Hi|]|naive_solver|done]. apply link_delays; [apply Hi|done].
  - apply wp_modify. eapply (inv_with_client live); try done; apply Hi.
  - apply wp_modify. eapply (inv_with_client live); try done; apply Hi.
  - apply wp_modify. eapply (inv_with_client live); try done; apply Hi.
  - destruct (loop_event ev) eqn:Ev; [|by apply wp_ret]. eapply wp_mono; [by apply connector_event_run|done|done].
  - destruct (destroys s) as [|i ds] eqn:Ed; [by apply wp_ret|]. eapply wp_run_seq; [reflexivity|].
    assert (Hlt : is_Some (conns s !! i)).
    { apply lookup_lt_is_Some_2, (iv_bound _ _ _ Hi). right. rewrite Ed. set_solver. }
    destruct Hlt as [e He]. eapply (run_job_run live (Some (i, Destroy))); [|exact He|right; by eexists].
    destruct Hi as [H1 H2 H3 H4 H5]. split; cbn [client connector conns destroys]; try done.
    + intros i' Hi'. apply H2. rewrite Ed. set_solver.
    + intros i' e' He'. destruct (H3 i' e' He') as [F1 F2 F3 F4]. rewrite owed_none in F3, F4.
      rewrite Ed, queued_cons in F4. split; rewrite ?(owed_other i Destroy i' Establish) by auto; try done.
      rewrite <- F4. destruct (decide (i = i')) as [->|Hn].
      * rewrite owed_self, bool_decide_true by done. lia.
      * rewrite owed_other, bool_decide_false by auto. lia.
  - destruct (conns s !! i) as [e|] eqn:He; [|by apply wp_ret].
    eapply wp_mono; [eapply (client_on_conn_run live None None s i e [] (c_act a) Hi He _ (λ _ _, True))|done|naive_solver].
    eapply wp_mono; [apply c_act_ok; [apply (iv_entry _ _ _ Hi i e He)|done]|done|done].
    Unshelve. by left.
  - destruct (m_keepAliveTimerId (client s)); [|by apply wp_ret]. by apply checkKeepAlive_run.
Qed.

Lemma run_labels_run live xs : ∀ s, inv live None s → Forall label_ok xs → (live = true → forallb insists xs = true) →
  wp (run_labels xs) s (λ _ s', inv live None s') nothrow.
Proof.
  induction xs as [|x xs IH]; intros s Hi Hok Hl; cbn [run_labels]; [by apply wp_ret|].
  apply Forall_cons in Hok as [Hx Hxs]. cbn in Hl.
  apply (wp_seq _ _ _ (λ _ s', inv live None s')).
  - pose proof (run_label_run live s x Hi Hx) as Hr. unfold keeps_inv, catching, wp in *.
    destruct (run_label x s) as [[] s']; apply Hr; intros Hl'; specialize (Hl Hl'); by apply andb_true_iff in Hl as [? ?].
  - intros [] s' Hs'. apply IH; try done. intros Hl'. specialize (Hl Hl'). by apply andb_true_iff in Hl as [? ?].
Qed.

(** Before [connect]: only settings. *)
Definition setting (x : Label World Act) : bool :=
  match x with LEnableRetry _ | LSetRetryDelayMs _ _ | LSetIntervals _ _ | LSetUser _ _ | LSetCallbacks _ _ _ _ _ => true | _ => false end.

Definition prepared s : Prop :=
  inv false None s ∧ m_state (connector s) = Disconnected ∧ functors (connector s) = [].

Lemma settings_run xs : ∀ s, prepared s → Forall label_ok xs → forallb setting xs = true →
  wp (run_labels xs) s (λ _ s', prepared s') nothrow.
Proof.
  induction xs as [|x xs IH]; intros s (Hi & Hst & Hf) Hok Hs; cbn [run_labels]; [by apply wp_ret|].
  apply Forall_cons in Hok as [Hx Hxs]. cbn in Hs. apply andb_true_iff in Hs as [Hs Hss].
  apply (wp_seq _ _ _ (λ _ s', prepared s')); [|intros [] s' Hs'; by apply IH].
  pose proof (run_label_run false s x Hi Hx ltac:(done)) as Hr. unfold keeps_inv, catching, wp in *.
  destruct x; try done; cbn in *; by split_and!.
Qed.

Lemma connect_live s : prepared s → m_retry (client s) = true →
  wp connect s (λ _ s', inv true None s') nothrow.
Proof.
  intros (Hi & Hst & Hf) Hr. unfold connect, on_client. apply wp_modify_seq.
  eapply wp_seq; [eapply (startKeepAliveCheck_run false), (inv_with_client false); try done; apply Hi|].
  intros [] s1 (Hi1 & Hc & Ho & Hr1 & Hq1).
  eapply wp_mono; [eapply (on_connector_run false true); [done|by rewrite Hr1, Hq1|]|naive_solver|done].
  apply link_start. right. rewrite Hc. cbn. rewrite Hf. split_and!; [done|by apply not_elem_of_nil|].
  pose proof (iv_link _ _ _ Hi1) as Hl. by rewrite Hc in Hl.
Qed.

Lemma client_launch_inv ans : prepared (launch ans).
Proof.
  destruct (make_inv true true ans) as [H1 H2]. split_and!; try done.
  split; try done; cbn.
  - split; try done. cbn. lia.
  - intros i [?|?%not_elem_of_nil]; done.
Qed.

(** Nothing restarts the connector of a client that is not asked to connect. *)
Lemma removeConnection_calm s i : m_connectRequested (client s) = false →
  wp (removeConnection i) s (λ _ s', connector s' = connector s ∧ m_connectRequested (client s') = false) nothrow.
Proof.
  intros Hr. unfold removeConnection, on_client, with_client. do 2 apply wp_modify_seq. apply wp_get. cbn.
  case_bool_decide; cbn; rewrite Hr, andb_false_r; by apply wp_ret.
Qed.

Lemma times_calm n : ∀ s i, m_connectRequested (client s) = false →
  wp (times n (removeConnection i)) s (λ _ s', connector s' = connector s ∧ m_connectRequested (client s') = false) nothrow.
Proof.
  induction n as [|n IH]; intros s i Hr; cbn [times]; [by apply wp_ret|].
  eapply wp_seq; [by apply removeConnection_calm|]. intros [] s1 [Hk Hr1].
  eapply wp_mono; [by apply IH| |done]. intros [] s2 [-> ?]. done.
Qed.

Lemma client_destroy_run live s : inv live None s →
  wp TcpClient_destroy s (λ _ s', conr_inv true (connector s') ∧ m_started (connector s') = false) (λ _ _, True).
Proof.
  intros Hi. unfold TcpClient_destroy, stopKeepAliveCheck, on_client. do 2 apply wp_modify_seq. apply wp_get, wp_modify_seq.
  apply (wp_seq _ _ _ (λ _ s', connector s' = connector s)).
  - cbn [client with_client m_connection set_requested set_timer].
    destruct (m_connection (client s)) as [i|] eqn:Ho; [|by apply wp_ret].
    destruct (conn_there _ _ i Hi Ho) as [e He]. pose proof (en_ok _ _ _ _ _ (iv_entry _ _ _ Hi i e He)) as Hok.
    unfold run_job, on_conn. apply wp_get. cbn [conns with_client]. rewrite He.
    pose proof (c_run_ok Destroy (e_conn e) Hok) as Hc. unfold wp in Hc.
    destruct (c_run Destroy (e_conn e)) as [r c]. eapply wp_run_seq; [reflexivity|].
    eapply wp_calm; [by apply times_calm|]. intros [] s1 [Hk _]. destruct r; try done; exact Hk.
  - intros [] s1 Hk. pose proof (lk_inv _ _ _ (iv_link _ _ _ Hi)) as Hc. rewrite <- Hk in Hc.
    unfold on_connector. apply wp_get. unfold Connector.stop.
    destruct (wp_inv _ _ _ (cancelRetry_run true _ (set_started_inv _ false _ Hc))) as ([] & k & E & Hi2 & _ & _ & (Hs & _) & _).
    unfold wp, bind, modify, queueInLoop. rewrite E. cbn. split; [by apply set_functors_inv|done].
Qed.

End proofs.

(** C7: a client never has two connections.  In every run in which no [shutdown] of another
    thread is overtaken by a close (calls of the user, functors, timers
    and reports for the connector, whatever happens to the connections) exactly the connection
    that the client holds is open; every connection was established once, calls its close
    callback at most once, and is then destroyed once, the call being queued or done; the
    connector loses no socket, makes no attempt while a connection is open, and after the
    destructor never calls back. *)
Theorem client_one_connection {C World Act} {Ops : ServedConn C World Act} {Laws : ServedConnLaws C World Act} ans xs :
  Forall label_ok xs →
  ∃ s, run_labels xs (launch ans) = (Ok tt, s) ∧
    (∀ i e, conns s !! i = Some e → (c_closes (e_conn e) = 0%nat ↔ m_connection (client s) = Some i) ∧
       ran Establish (e_log e) = 1%nat ∧ (c_closes (e_conn e) ≤ 1)%nat ∧
       (ran Destroy (e_log e) + queued i (destroys s) = c_closes (e_conn e))%nat) ∧
    dangling (connector s) = [] ∧ (restarts (functors (connector s)) ≤ 1)%nat ∧
    (is_Some (m_connection (client s)) → opened (connector s) = ∅) ∧
    wp TcpClient_destroy s (λ _ s', ∀ es, forallb loop_event es = true →
      ∃ k, run_events es (connector s') = (Ok tt, k) ∧ delivered k = delivered (connector s')) (λ _ _, True).
Proof.
  intros Hx. destruct (client_launch_inv (Laws := Laws) ans) as [Hi _].
  destruct (wp_inv _ _ _ (run_labels_run false xs _ Hi Hx ltac:(done))) as ([] & s & E & Hs).
  exists s. pose proof Hs as [Hl H2 H3 H4 H5]. pose proof (lk_inv _ _ _ Hl) as Hc. split_and!; [done|..].
  - intros i e He. destruct (H3 i e He) as [F1 F2 F3 F4]. rewrite owed_none in F3, F4.
    split_and!; [done|lia|by apply c_closes_once|lia].
  - by apply (cn_strict _ _ Hc).
  - apply Hl.
  - intros Ho. apply idle_opened; [done|]. rewrite (lk_connected _ _ _ Hl Ho). done.
  - eapply wp_mono; [by eapply client_destroy_run| |done]. intros [] s' [Hc' Hst] es Hes.
    destruct (wp_inv _ _ _ (loop_events_stopped es (connector s') ltac:(by destruct Hc') Hst Hes)) as ([] & k & Ek & Hd). eauto.
Qed.

(** C8: a client that is to be connected stays or gets connected.  With retrying enabled, once
    [connect] was called, and as long as the user does not call [disconnect], [stop] or
    [enableRetry(false)], at every moment one connection is open, or an attempt is under way
    and its channel registered, or a timer or functor that makes the next attempt is pending,
    or the last attempt failed with an error that is not retried. *)
Theorem client_reconnects {C World Act} {Ops : ServedConn C World Act} {Laws : ServedConnLaws C World Act} ans pre xs :
  Forall label_ok (pre ++ xs) → forallb setting pre = true → forallb insists xs = true →
  ∃ s, run_labels (pre ++ LEnableRetry true :: LConnect :: xs) (launch ans) = (Ok tt, s) ∧
    ((∃ i e, m_connection (client s) = Some i ∧ conns s !! i = Some e ∧ c_closes (e_conn e) = 0%nat) ∨
     m_state (connector s) = Connecting ∧ is_Some (m_channel (connector s)) ∨
     timers (connector s) ≠ [] ∨ FStart ∈ functors (connector s) ∨ FRestart ∈ functors (connector s) ∨
     gave_up (connector s) = true).
Proof.
  intros [Hp Hx]%Forall_app Hset Hins.
  assert (Hrun : wp (run_labels (pre ++ LEnableRetry true :: LConnect :: xs)) (launch ans) (λ _ s, inv true None s) nothrow).
  { unfold wp. rewrite run_labels_app. fold (wp (run_labels pre;;; run_labels (LEnableRetry true :: LConnect :: xs)) (launch ans)
      (λ _ s, inv true None s) nothrow).
    eapply wp_seq; [by apply settings_run; [apply client_launch_inv|..]|]. intros [] s1 (Hi & Hst & Hf). cbn [run_labels].
    eapply wp_run_seq; [reflexivity|].
    destruct (wp_inv _ _ _ (connect_live (with_client (set_retry true) s1) ltac:(split_and!; try done;
      eapply (inv_with_client false); try done; apply Hi) eq_refl)) as ([] & s2 & E2 & Hi2).
    eapply (wp_run_seq _ _ _ tt s2); [|by apply (run_labels_run true)].
    unfold catching. change (run_label LConnect ?s) with (connect s). by rewrite E2. }
  destruct (wp_inv _ _ _ Hrun) as ([] & s & E & Hs). exists s. split; [done|].
  pose proof Hs as [Hl H2 H3 H4 H5]. destruct (lk_live _ _ _ Hl eq_refl) as (Hst & _ & Hcn).
  destruct (m_state (connector s)) eqn:Est.
  - right; right. by apply (lk_trying _ _ _ Hl).
  - right; left. split; [done|]. rewrite (cn_channel _ _ (lk_inv _ _ _ Hl)). by apply (cn_connecting _ _ (lk_inv _ _ _ Hl)).
  - destruct (Hcn eq_refl) as [[i Ho]|Hr].
    + left. destruct (conn_there _ s i Hs Ho) as [e He]. exists i, e. split_and!; try done. by apply (H3 i e He).
    + right; right; right; right; left. unfold restarts in Hr.
      destruct (tally_witness _ _ (proj1 (Nat.neq_0_lt_0 _) Hr)) as (t & f & Hf & Hpos). destruct f; try lia.
      by eapply list_elem_of_lookup_2.
Qed.
