(* ===== verification/ClientConnections.v ===== *)
(** * The connections of a [TcpClient]

    The theorems of [TcpClient.v] for [TcpConnection]s, with the instance of
    [ServerConnections.v]: a client whose first attempt is refused, whose second one succeeds,
    and which connects again after its connection was closed. *)

From S2P Require Import Prelude Error Endian Buffer Codec Channel Poller Connection ConnectionFacts ConnectionRuns ConnectionStream.
From S2P Require Import Served ServerConnections Connector TcpClient.
From stdpp Require Import base gmap list.
From Stdlib Require Import ZArith Lia.

Local Open Scope Z_scope.

Definition ex_answers : list (bool * Z) := [(false, 111); (false, 115); (true, 0)].

Definition ex_client_labels : list (Label (ConnWorld SelectPoller) Action) :=
  [LConnector ETimer ex_world; LConnector (EWritable 0 false) ex_world; LAct 0 (Call OpForceClose);
   LConnector EFunctor ex_world; LConnector EFunctor ex_world; LDestroy; LConnector (EWritable 0 false) ex_world; LTick].

Lemma ex_world_ok : conn_world_ok ex_world.
Proof. split; [done|]. apply ex_launch_ok; [vm_compute; discriminate|constructor]. Qed.

Lemma ex_client_labels_ok : Forall (label_ok (Laws := conn_laws true (λ _, []))) ex_client_labels.
Proof. pose proof ex_world_ok. repeat constructor; done. Qed.

Lemma client_one_connection_witness : ∃ s,
  run_labels (H := conn_ops true (λ _, [])) (LEnableRetry true :: LConnect :: ex_client_labels) (launch ex_answers) = (Ok tt, s) ∧
  length (conns s) = 2%nat ∧ m_connection (client s) = Some 1%nat ∧ opened (connector s) = ∅.
Proof.
  destruct (client_one_connection (Laws := conn_laws true (λ _, [])) ex_answers
    (LEnableRetry true :: LConnect :: ex_client_labels)
    ltac:(repeat (apply Forall_cons; split; [exact I|]); exact ex_client_labels_ok)) as (s & E & _ & _ & _ & H & _).
  exists s. split; [exact E|].
  assert (Hl : length (conns s) = 2%nat ∧ m_connection (client s) = Some 1%nat)
    by (vm_compute in E; injection E as <-; split; reflexivity).
  destruct Hl as [Hl Ho]. split; [exact Hl|]. split; [exact Ho|]. apply H. rewrite Ho. by eexists.
Defined.

Lemma client_reconnects_witness : ∃ s,
  run_labels (H := conn_ops true (λ _, [])) ([LSetIntervals 60000 0] ++ LEnableRetry true :: LConnect :: ex_client_labels)
    (launch ex_answers) = (Ok tt, s) ∧
  ((∃ i e, m_connection (client s) = Some i ∧ conns s !! i = Some e ∧ c_closes (ServedConn := conn_ops true (λ _, [])) (e_conn e) = 0%nat) ∨
   m_state (connector s) = Connecting ∧ is_Some (m_channel (connector s)) ∨
   timers (connector s) ≠ [] ∨ FStart ∈ functors (connector s) ∨ FRestart ∈ functors (connector s) ∨
   gave_up (connector s) = true).
Proof.
  exact (client_reconnects (Laws := conn_laws true (λ _, [])) ex_answers [LSetIntervals 60000 0] ex_client_labels
    ltac:(apply Forall_cons; split; [exact I|exact ex_client_labels_ok]) eq_refl eq_refl).
Defined.
