(* ===== verification/ConfigValue.v ===== *)
(** * [dbase::config::ConfigValue] (code/src/config/config_value.cpp)

    A dynamically typed configuration value.  [double] is a parameter [D] with the
    conversions the code uses; an [Object] is an association list with distinct keys,
    its order standing for the unspecified iteration order of [std::unordered_map]. *)

From S2P Require Import Prelude Error.
From stdpp Require Import base list strings.
From Stdlib Require Import ZArith Lia Ascii.

Local Open Scope Z_scope.

Section value.
Context {D : Type}.

Inductive ConfigValue : Type :=
  | Null
  | Bool (b : bool)
  | Int (z : Z)
  | UInt (z : Z)
  | Double (d : D)
  | String (s : str)
  | Array (a : list ConfigValue)
  | Object (o : list (str * ConfigValue)).

(** ** Constructors *)

Definition of_int (value : Z) : ConfigValue := Int value.
Definition of_unsigned (value : Z) : ConfigValue := UInt value.
(** [const char*], [None] for [nullptr] *)
Definition of_cstr (value : option str) : ConfigValue := String (default [] value).

(** ** Tests and access *)

Definition isNull (v : ConfigValue) : bool := match v with Null => true | _ => false end.
Definition isBool (v : ConfigValue) : bool := match v with Bool _ => true | _ => false end.
Definition isInt (v : ConfigValue) : bool := match v with Int _ => true | _ => false end.
Definition isUInt (v : ConfigValue) : bool := match v with UInt _ => true | _ => false end.
Definition isDouble (v : ConfigValue) : bool := match v with Double _ => true | _ => false end.
Definition isString (v : ConfigValue) : bool := match v with String _ => true | _ => false end.
Definition isArray (v : ConfigValue) : bool := match v with Array _ => true | _ => false end.
Definition isObject (v : ConfigValue) : bool := match v with Object _ => true | _ => false end.
Definition isNumber (v : ConfigValue) : bool := isInt v || isUInt v || isDouble v.

(** [std::get] throws [std::bad_variant_access]. *)
Definition asBool (v : ConfigValue) : res bool :=
  match v with Bool b => Ok b | _ => Throw bad_variant_access end.
Definition asInt (v : ConfigValue) : res Z :=
  match v with Int z => Ok z | _ => Throw bad_variant_access end.
Definition asUInt (v : ConfigValue) : res Z :=
  match v with UInt z => Ok z | _ => Throw bad_variant_access end.
Definition asDouble (v : ConfigValue) : res D :=
  match v with Double d => Ok d | _ => Throw bad_variant_access end.
Definition asString (v : ConfigValue) : res str :=
  match v with String s => Ok s | _ => Throw bad_variant_access end.
Definition asArray (v : ConfigValue) : res (list ConfigValue) :=
  match v with Array a => Ok a | _ => Throw bad_variant_access end.
Definition asObject (v : ConfigValue) : res (list (str * ConfigValue)) :=
  match v with Object o => Ok o | _ => Throw bad_variant_access end.

Definition typeName (v : ConfigValue) : str :=
  lit (if isNull v then "null"
       else if isBool v then "bool"
       else if isInt v then "int64"
       else if isUInt v then "uint64"
       else if isDouble v then "double"
       else if isString v then "string"
       else if isArray v then "array"
       else if isObject v then "object"
       else "unknown").

Definition makeTypeError (expected actual : str) : Error :=
  mkError InvalidArgument
    (lit "config value type mismatch, expected " ++ expected ++ lit ", actual " ++ actual).

(** ** Conversions *)

Section conversions.
Context (double_of_int : Z → D).

Definition tryGetBool (v : ConfigValue) : res (Result bool) :=
  if negb (isBool v) then Ok (Err (makeTypeError (lit "bool") (typeName v)))
  else let? b := asBool v in Ok (Value b).

Definition tryGetInt (v : ConfigValue) : res (Result Z) :=
  if isInt v then let? z := asInt v in Ok (Value z)
  else if isUInt v then
    let? value := asUInt v in
    if INT64_MAX <? value
    then Ok (Err (mkError InvalidArgument (lit "uint64 value out of int64 range")))
    else Ok (Value value)
  else Ok (Err (makeTypeError (lit "int64") (typeName v))).

Definition tryGetUInt (v : ConfigValue) : res (Result Z) :=
  if isUInt v then let? z := asUInt v in Ok (Value z)
  else if isInt v then
    let? value := asInt v in
    if value <? 0
    then Ok (Err (mkError InvalidArgument (lit "negative int64 cannot convert to uint64")))
    else Ok (Value value)
  else Ok (Err (makeTypeError (lit "uint64") (typeName v))).

Definition tryGetDouble (v : ConfigValue) : res (Result D) :=
  if isDouble v then let? d := asDouble v in Ok (Value d)
  else if isInt v then let? z := asInt v in Ok (Value (double_of_int z))
  else if isUInt v then let? z := asUInt v in Ok (Value (double_of_int z))
  else Ok (Err (makeTypeError (lit "double") (typeName v))).

Definition tryGetString (v : ConfigValue) : res (Result str) :=
  if negb (isString v) then Ok (Err (makeTypeError (lit "string") (typeName v)))
  else let? s := asString v in Ok (Value s).

Definition tryGetArray (v : ConfigValue) : res (Result (list ConfigValue)) :=
  if negb (isArray v) then Ok (Err (makeTypeError (lit "array") (typeName v)))
  else let? a := asArray v in Ok (Value a).

Definition tryGetObject (v : ConfigValue) : res (Result (list (str * ConfigValue))) :=
  if negb (isObject v) then Ok (Err (makeTypeError (lit "object") (typeName v)))
  else let? o := asObject v in Ok (Value o).

End conversions.

(** ** Printing *)

Definition quote : ascii := byte_of_Z 34.
Definition backslash : ascii := byte_of_Z 92.

Definition escape_char (ch : ascii) : str :=
  if bool_decide (ch = backslash) then [backslash; backslash]
  else if bool_decide (ch = quote) then [backslash; quote]
  else if bool_decide (ch = byte_of_Z 10) then [backslash; byte_of_Z 110]
  else if bool_decide (ch = byte_of_Z 13) then [backslash; byte_of_Z 114]
  else if bool_decide (ch = byte_of_Z 9) then [backslash; byte_of_Z 116]
  else [ch].

Definition escapeString (input : str) : str := input ≫= escape_char.

Definition quoted (s : str) : str := [quote] ++ escapeString s ++ [quote].

(** Comma-separated *)
Fixpoint commas (l : list str) : str :=
  match l with
  | [] => []
  | [s] => s
  | s :: l => s ++ [byte_of_Z 44] ++ commas l
  end.

(** [print_double] is [operator<<] of [std::ostream]. *)
Fixpoint toString (print_double : D → str) (v : ConfigValue) : str :=
  match v with
  | Null => lit "null"
  | Bool b => if b then lit "true" else lit "false"
  | Int z | UInt z => to_string z
  | Double d => print_double d
  | String s => s
  | Array a => [byte_of_Z 91] ++ commas (map (λ x, quoted (toString print_double x)) a)
               ++ [byte_of_Z 93]
  | Object o => [byte_of_Z 123]
      ++ commas (map (λ '(k, x), quoted k ++ [byte_of_Z 58] ++ quoted (toString print_double x)) o)
      ++ [byte_of_Z 125]
  end.

End value.
Arguments ConfigValue : clear implicits.

(** Induction through the elements of arrays and objects. *)
Section induction.
Context {D : Type} (P : ConfigValue D → Prop).
Context (Hscalar : ∀ v, isArray v = false → isObject v = false → P v)
        (Harray : ∀ a, Forall P a → P (Array a))
        (Hobject : ∀ o, Forall (λ e, P e.2) o → P (Object o)).

Lemma ConfigValue_nested_ind v : P v.
Proof.
  revert v. fix IH 1. intros v. destruct v as [| | | | | |a|o]; try by apply Hscalar.
  - apply Harray. induction a as [|x a IHa]; constructor; [apply IH|exact IHa].
  - apply Hobject. induction o as [|[k x] o IHo]; constructor; [apply IH|exact IHo].
Qed.

End induction.
