(* ===== verification/Config.v ===== *)
(** * [dbase::config::Config] (code/src/config/config.cpp)

    A tree of values addressed by dotted paths: a segment of digits indexes an array, any
    other one an object.  [set] creates what is missing and replaces containers of the
    wrong kind.  [values] flattens the tree into a cached map.  [MAX_ELEMS] is
    [std::vector<ConfigValue>::max_size()], below 2^63. *)

From stdpp Require Import base list gmap strings.
From Stdlib Require Import ZArith Lia Ascii.
From S2P Require Import Prelude Error Str ConfigValue.

Local Open Scope Z_scope.

Definition dot : ascii := byte_of_Z 46.

Definition isIndexSegment (segment : str) : bool :=
  match segment with [] => false | _ => forallb is_digit segment end.

(** [while (begin <= path.size())] of [splitPath] *)
Fixpoint splitPath_loop (fuel : nat) (path : str) (begin : Z) (parts : list str)
    : res (list str) :=
  match fuel with
  | O => NoFuel
  | S fuel =>
      if size path <? begin then Ok parts
      else
        match find_ch path dot begin with
        | None => let? part := substr_from path begin in Ok (parts ++ [part])
        | Some pos =>
            let? part := substr path begin (pos - begin) in
            splitPath_loop fuel path (pos + 1) (parts ++ [part])
        end
  end.

Definition splitPath (path : str) : res (list str) :=
  match path with
  | [] => Ok []
  | _ => splitPath_loop (split_fuel path) path 0 []
  end.

(** [std::size_t] arithmetic wraps. *)
Definition parseIndex (segment : str) : Z :=
  foldl (λ value ch, u64 (u64 (value * 10) + digit_value ch)) 0 segment.

Section config.
Context {D : Type} (MAX_ELEMS : Z).
Abbreviation Value_ := (ConfigValue D).

(** ** Paths *)

(** [std::unordered_map::find] *)
Definition obj_find (key : str) (o : list (str * Value_)) : option Value_ :=
  snd <$> head (filter (λ e, e.1 = key) o).
(** [o\[key\] = v] for the reference [operator\[\]] returns *)
Definition obj_assign (key : str) (v : Value_) (o : list (str * Value_)) : list (str * Value_) :=
  if bool_decide (key ∈ o.*1)
  then (λ e, if bool_decide (e.1 = key) then (key, v) else e) <$> o
  else o ++ [(key, v)].

(** The loop over the parts; [getByPathMutable] has the same body. *)
Fixpoint getByParts (current : Value_) (parts : list str) : res (option Value_) :=
  match parts with
  | [] => Ok (Some current)
  | part :: parts =>
      if isIndexSegment part then
        if negb (isArray current) then Ok None
        else
          let index := parseIndex part in
          let? arr := asArray current in
          if zlen arr <=? index then Ok None
          else match arr !! Z.to_nat index with
               | Some child => getByParts child parts
               | None => Undef
               end
      else
        if negb (isObject current) then Ok None
        else
          let? obj := asObject current in
          match obj_find part obj with
          | None => Ok None
          | Some child => getByParts child parts
          end
  end.

Definition getByPath (root : Value_) (path : str) : res (option Value_) :=
  match path with
  | [] => Ok (Some root)
  | _ => let? parts := splitPath path in getByParts root parts
  end.

(** [std::vector::resize]: value-initialized elements are null. *)
Definition resize (n : Z) (arr : list Value_) : res (list Value_) :=
  if MAX_ELEMS <? n then Throw length_error
  else Ok (ztake n arr ++ replicate (Z.to_nat (n - zlen arr)) Null).

(** [assignPath] on the part of the tree it is given; what it leaves behind is returned
    also when it throws. *)
Fixpoint assignPath (parts : list str) (value : Value_) (current : Value_)
    : res () * Value_ :=
  match parts with
  | [] => (Undef, current)
  | part :: rest =>
      if isIndexSegment part then
        let arrayIndex := parseIndex part in
        let arr := match current with Array a => a | _ => [] end in
        match (if zlen arr <=? arrayIndex then resize (u64 (arrayIndex + 1)) arr else Ok arr) with
        | Ok arr =>
            match arr !! Z.to_nat arrayIndex with
            | None => (Undef, Array arr)
            | Some child =>
                match rest with
                | [] => (Ok tt, Array (<[Z.to_nat arrayIndex := value]> arr))
                | _ =>
                    let '(r, child) := assignPath rest value child in
                    (r, Array (<[Z.to_nat arrayIndex := child]> arr))
                end
            end
        | Throw e => (Throw e, Array arr)
        | Undef => (Undef, Array arr)
        | NoFuel => (NoFuel, Array arr)
        end
      else
        let obj := match current with Object o => o | _ => [] end in
        match rest with
        | [] => (Ok tt, Object (obj_assign part value obj))
        | _ =>
            let child := default Null (obj_find part obj) in
            let '(r, child) := assignPath rest value child in
            (r, Object (obj_assign part child obj))
        end
  end.

(** ** The configuration *)

Record Config : Type := mkConfig {
  m_root : Value_;
  m_flatCacheDirty : bool;
  m_flatValues : gmap str Value_;
}.

Definition Config_make : Config := mkConfig (Object []) true ∅.

Definition makeNotFoundError (path : str) : Error :=
  mkError NotFound (lit "config path not found: " ++ path).

Definition get (c : Config) (path : str) : res (Result Value_) :=
  let? value := getByPath (m_root c) path in
  Ok match value with
     | None => Err (makeNotFoundError path)
     | Some v => Value v
     end.

Definition has (c : Config) (path : str) : res bool :=
  let? value := getByPath (m_root c) path in
  Ok (match value with None => false | Some _ => true end).

Definition require (c : Config) (path : str) : res ResultVoid :=
  let? h := has c path in
  Ok (if negb h then mkResultVoid (makeNotFoundError path) else ResultVoid_default).

(** [getString], [getInt], ...: [get] and a conversion. *)
Definition get_as {T} (conv : Value_ → res (Result T)) (c : Config) (path : str) : res (Result T) :=
  let? r := get c path in
  match r with
  | Err e => Ok (Err e)
  | Value v => conv v
  end.

Definition getString : Config → str → res (Result str) := get_as tryGetString.
Definition getInt : Config → str → res (Result Z) := get_as tryGetInt.
Definition getUInt : Config → str → res (Result Z) := get_as tryGetUInt.
Definition getDouble (double_of_int : Z → D) : Config → str → res (Result D) :=
  get_as (tryGetDouble double_of_int).
Definition getBool : Config → str → res (Result bool) := get_as tryGetBool.
Definition getArray : Config → str → res (Result (list Value_)) := get_as tryGetArray.
Definition getObject : Config → str → res (Result (list (str * Value_))) := get_as tryGetObject.

Definition or_default {T} (r : res (Result T)) (defaultValue : T) : res T :=
  let? r := r in Ok (match r with Err _ => defaultValue | Value v => v end).

Definition getStringOr c path d := or_default (getString c path) d.
Definition getIntOr c path d := or_default (getInt c path) d.
Definition getUIntOr c path d := or_default (getUInt c path) d.
Definition getDoubleOr double_of_int c path d := or_default (getDouble double_of_int c path) d.
Definition getBoolOr c path d := or_default (getBool c path) d.

Definition markFlatCacheDirty : M Config () :=
  modify (λ c, mkConfig (m_root c) true (m_flatValues c)).

Definition setRoot (root : Value_) : M Config () :=
  modify (λ c, mkConfig root (m_flatCacheDirty c) (m_flatValues c));;;
  markFlatCacheDirty.

(** The non-const [root()]: the caller then changes the tree with [f]. *)
Definition root_mutable (f : Value_ → Value_) : M Config () :=
  markFlatCacheDirty;;;
  modify (λ c, mkConfig (f (m_root c)) (m_flatCacheDirty c) (m_flatValues c)).

Definition set (path : str) (value : Value_) : M Config () :=
  match path with
  | [] => setRoot value
  | _ =>
      let! parts := lift (splitPath path) in
      match parts with
      | [] => setRoot value
      | _ =>
          let! c := Prelude.get in
          let '(r, root) := assignPath parts value (m_root c) in
          put (mkConfig root (m_flatCacheDirty c) (m_flatValues c));;;
          let! _ := lift r in
          markFlatCacheDirty
      end
  end.

(** The non-const [get]: the caller changes the node the pointer leads to with [f]. *)
Fixpoint updateByParts (f : Value_ → Value_) (current : Value_) (parts : list str) : Value_ :=
  match parts with
  | [] => f current
  | part :: parts =>
      match current with
      | Array a => Array (alter (λ child, updateByParts f child parts) (Z.to_nat (parseIndex part)) a)
      | Object o =>
          match obj_find part o with
          | Some child => Object (obj_assign part (updateByParts f child parts) o)
          | None => current
          end
      | _ => current
      end
  end.

Definition get_mutable (path : str) (f : Value_ → Value_) : M Config (Result ()) :=
  let! c := Prelude.get in
  let! value := lift (getByPath (m_root c) path) in
  match value with
  | None => ret (Err (makeNotFoundError path))
  | Some _ =>
      let! parts := lift (splitPath path) in
      put (mkConfig (updateByParts f (m_root c) parts) (m_flatCacheDirty c) (m_flatValues c));;;
      ret (Value tt)
  end.

(** ** Flattening *)

Definition childPath (path key : str) : str :=
  (match path with [] => [] | _ => path ++ [dot] end) ++ key.

Fixpoint flattenInto (value : Value_) (path : str) (flat : gmap str Value_) : gmap str Value_ :=
  let flat := match path with [] => flat | _ => <[path := value]> flat end in
  match value with
  | Object o =>
      (fix go (o : list (str * Value_)) (flat : gmap str Value_) :=
         match o with
         | [] => flat
         | (key, child) :: o => go o (flattenInto child (childPath path key) flat)
         end) o flat
  | Array a =>
      (fix go (i : nat) (a : list Value_) (flat : gmap str Value_) :=
         match a with
         | [] => flat
         | child :: a =>
             go (S i) a (flattenInto child (childPath path (to_string (Z.of_nat i))) flat)
         end) 0%nat a flat
  | _ => flat
  end.

Definition rebuildFlatCache : M Config () :=
  modify (λ c, mkConfig (m_root c) false (flattenInto (m_root c) [] ∅)).

Definition values : M Config (gmap str Value_) :=
  let! c := Prelude.get in
  (if m_flatCacheDirty c then rebuildFlatCache else ret tt);;;
  let! c := Prelude.get in
  ret (m_flatValues c).

End config.
Arguments Config : clear implicits.

(** ** Paths *)

Lemma splitPath_loop_spec path : ∀ fuel begin out,
  0 ≤ begin ≤ zlen path → zlen path - begin + 1 < Z.of_nat fuel →
  ∃ ps, pieces [dot] (zdrop begin path) ps ∧ splitPath_loop fuel path begin out = Ok (out ++ ps).
Proof.
  induction fuel as [|fuel IH]; intros begin out Hb Hf; [lia|].
  cbn [splitPath_loop]. unfold size. replace (zlen path <? begin) with false by lia.
  rewrite (looks_find_ch path dot) by done.
  destruct (find_sub [dot] (zdrop begin path)) as [i|] eqn:E; simpl.
  - destruct (find_bound path [dot] begin i Hb E) as [Hbound Hdrop].
    change (zlen [dot]) with 1 in *. rewrite substr_ok by done. simpl.
    replace (begin + Z.of_nat i - begin) with (Z.of_nat i) by lia.
    unfold ztake. rewrite Nat2Z.id.
    destruct (IH (begin + Z.of_nat i + 1) (out ++ [take i (zdrop begin path)]))
      as (ps & Hps & ->); [lia|lia|].
    exists (take i (zdrop begin path) :: ps). rewrite <- app_assoc. split; [|done].
    apply pieces_cons; [done|]. by rewrite Hdrop.
  - exists [zdrop begin path]. split; [by apply pieces_last|].
    unfold substr_from, size. by replace (zlen path <? begin) with false by lia.
Qed.

Lemma splitPath_spec path : path ≠ [] → ∃ ps, pieces [dot] path ps ∧ splitPath path = Ok ps.
Proof.
  intros Hp. pose proof (zlen_nonneg path).
  destruct (splitPath_loop_spec path (split_fuel path) 0 []) as (ps & Hps & Hl);
    [lia|apply split_fuel_ok|].
  exists ps. split; [done|]. by destruct path.
Qed.

Lemma parseIndex_range part : 0 ≤ parseIndex part < 2 ^ 64.
Proof.
  unfold parseIndex. destruct part as [|c part] using rev_ind; [done|].
  rewrite foldl_snoc. apply u64_range.
Qed.

Section trees.
Context {D : Type} (MAX_ELEMS : Z).
Abbreviation Value_ := (ConfigValue D).

(** Indices the vector can hold. *)
Definition index_ok (part : str) : Prop :=
  isIndexSegment part = true → parseIndex part < MAX_ELEMS.

Lemma obj_find_absent key (o : list (str * Value_)) : key ∉ o.*1 → obj_find key o = None.
Proof. intros Hk. unfold obj_find. by rewrite filter_eq_absent. Qed.

Lemma obj_find_cons key k (x : Value_) o :
  obj_find key ((k, x) :: o) = if decide (k = key) then Some x else obj_find key o.
Proof.
  unfold obj_find. case_decide as E.
  - by rewrite filter_cons_True.
  - by rewrite filter_cons_False.
Qed.

Lemma obj_find_Some key (o : list (str * Value_)) : key ∈ o.*1 → is_Some (obj_find key o).
Proof.
  induction o as [|[k x] o IH]; [set_solver|]. rewrite obj_find_cons, fmap_cons, elem_of_cons.
  case_decide; [by eexists|]. naive_solver.
Qed.

Lemma obj_find_map key v k (o : list (str * Value_)) :
  obj_find k ((λ e, if bool_decide (e.1 = key) then (key, v) else e) <$> o)
  = if decide (k = key) then (λ _, v) <$> obj_find k o else obj_find k o.
Proof.
  induction o as [|[k0 x] o IH]; [by case_decide|]. rewrite fmap_cons, obj_find_cons. simpl.
  case_bool_decide as E; rewrite obj_find_cons, IH; repeat case_decide; simpl in *; congruence.
Qed.

Lemma obj_find_app k (o o' : list (str * Value_)) :
  obj_find k (o ++ o') = match obj_find k o with Some x => Some x | None => obj_find k o' end.
Proof.
  induction o as [|[k0 x] o IH]; [done|]. rewrite <- app_comm_cons, !obj_find_cons.
  by case_decide.
Qed.

Lemma obj_find_assign key v k (o : list (str * Value_)) :
  obj_find k (obj_assign key v o) = if decide (k = key) then Some v else obj_find k o.
Proof.
  unfold obj_assign. case_bool_decide as E.
  - rewrite obj_find_map. case_decide as Ek; [|done]. subst k.
    destruct (obj_find_Some key o E) as [x ->]. done.
  - rewrite obj_find_app, obj_find_cons. case_decide as E1; [subst k|].
    + by rewrite obj_find_absent, decide_True.
    + rewrite decide_False by done. by destruct (obj_find k o).
Qed.

(** The array [assignPath] writes to. *)
Lemma grow_ok part (arr : list Value_) : 0 < MAX_ELEMS < 2 ^ 63 → isIndexSegment part = true → index_ok part →
  let i := parseIndex part in
  ∃ arr', (if zlen arr <=? i then resize MAX_ELEMS (u64 (i + 1)) arr else Ok arr) = Ok arr' ∧
    (Z.to_nat i < length arr')%nat ∧
    ∀ j x, arr !! j = Some x → arr' !! j = Some x.
Proof.
  intros HM Hi Hok i. pose proof (parseIndex_range part) as Hr. fold i in Hr.
  specialize (Hok Hi). fold i in Hok.
  destruct (Z.leb_spec (zlen arr) i) as [Hle|Hgt].
  - rewrite u64_small by (unfold in_u64; lia). unfold resize.
    replace (MAX_ELEMS <? i + 1) with false by lia. eexists; split; [done|].
    rewrite ztake_all by lia. split.
    + rewrite length_app, length_replicate. unfold zlen in *. lia.
    + intros j x Hj. by apply lookup_app_l_Some.
  - exists arr. split_and!; [done|unfold zlen in *; lia|done].
Qed.

Lemma assign_get parts v : 0 < MAX_ELEMS < 2 ^ 63 → ∀ cur : Value_, parts ≠ [] → Forall index_ok parts →
  ∃ cur', assignPath MAX_ELEMS parts v cur = (Ok tt, cur') ∧
          getByParts cur' parts = Ok (Some v).
Proof.
  intros HM. induction parts as [|part rest IH]; intros cur Hne Hoks; [done|].
  apply Forall_cons in Hoks as [Hok Hoks]. cbn [assignPath]. destruct (isIndexSegment part) eqn:Hi.
  - set (arr := match cur with Array a => a | _ => [] end).
    destruct (grow_ok part arr HM Hi Hok) as (arr' & -> & Hlen & _).
    pose proof (parseIndex_range part). set (i := parseIndex part) in *.
    destruct (lookup_lt_is_Some_2 arr' (Z.to_nat i) Hlen) as [child Hc]. rewrite Hc.
    assert (∀ x, getByParts (Array (<[Z.to_nat i := x]> arr')) (part :: rest)
                 = getByParts x rest) as Hget.
    { intros x. cbn [getByParts isArray negb asArray res_bind]. rewrite Hi. fold i.
      assert (zlen (<[Z.to_nat i:=x]> arr') = zlen arr') as ->
        by (unfold zlen; by rewrite length_insert).
      replace (zlen arr' <=? i) with false by (unfold zlen; lia).
      by rewrite list_lookup_insert_eq. }
    destruct rest as [|p rest].
    + eexists; split; [done|]. by rewrite Hget.
    + destruct (IH child) as (child' & -> & Hg); [done..|].
      eexists; split; [done|]. by rewrite Hget.
  - set (obj := match cur with Object o => o | _ => [] end).
    assert (∀ x, getByParts (Object (obj_assign part x obj)) (part :: rest)
                 = getByParts x rest) as Hget.
    { intros x. cbn [getByParts isObject negb asObject res_bind].
      by rewrite Hi, obj_find_assign, decide_True. }
    destruct rest as [|p rest].
    + eexists; split; [done|]. by rewrite Hget.
    + destruct (IH (default Null (obj_find part obj))) as (child' & -> & Hg); [done..|].
      eexists; split; [done|]. by rewrite Hget.
Qed.

(** What a segment selects: an index or a name. *)
Definition selector (part : str) : Z + str :=
  if isIndexSegment part then inl (parseIndex part) else inr part.

(** Paths that separate at some segment, where both select in the same kind of container. *)
Inductive diverge : list str → list str → Prop :=
  | diverge_here a b p q : selector a ≠ selector b → isIndexSegment a = isIndexSegment b →
      diverge (a :: p) (b :: q)
  | diverge_next a b p q : selector a = selector b → diverge p q → diverge (a :: p) (b :: q).

Lemma selector_inl part i : selector part = inl i → isIndexSegment part = true ∧ parseIndex part = i.
Proof. unfold selector. destruct (isIndexSegment part); naive_solver. Qed.
Lemma selector_inr part n : selector part = inr n → isIndexSegment part = false ∧ part = n.
Proof. unfold selector. destruct (isIndexSegment part); naive_solver. Qed.

(** A successful lookup of at least one segment. *)
Lemma get_cons (cur : Value_) part rest w : getByParts cur (part :: rest) = Ok (Some w) →
  (∃ a c, isIndexSegment part = true ∧ cur = Array a ∧
    a !! Z.to_nat (parseIndex part) = Some c ∧ getByParts c rest = Ok (Some w)) ∨
  (∃ o c, isIndexSegment part = false ∧ cur = Object o ∧ obj_find part o = Some c ∧
    getByParts c rest = Ok (Some w)).
Proof.
  cbn [getByParts]. destruct (isIndexSegment part) eqn:Hi.
  - destruct cur as [| | | | | |a|]; try done. cbn [isArray negb asArray res_bind].
    destruct (zlen a <=? _); [done|]. destruct (a !! _) as [c|] eqn:E; [|done].
    intros H. left. eauto 10.
  - destruct cur as [| | | | | | |o]; try done. cbn [isObject negb asObject res_bind].
    destruct (obj_find part o) as [c|] eqn:E; [|done]. intros H. right. eauto 10.
Qed.

Lemma get_array (a : list Value_) part rest c : isIndexSegment part = true →
  a !! Z.to_nat (parseIndex part) = Some c →
  getByParts (Array a) (part :: rest) = getByParts c rest.
Proof.
  intros Hi Hc. cbn [getByParts isArray negb asArray res_bind]. rewrite Hi.
  pose proof (parseIndex_range part). apply lookup_lt_Some in Hc as Hl.
  replace (zlen a <=? parseIndex part) with false by (unfold zlen; lia). by rewrite Hc.
Qed.

Lemma get_object (o : list (str * Value_)) part rest c : isIndexSegment part = false →
  obj_find part o = Some c → getByParts (Object o) (part :: rest) = getByParts c rest.
Proof.
  intros Hi Hc. cbn [getByParts isObject negb asObject res_bind]. by rewrite Hi, Hc.
Qed.

(** Growing an array that then has the index keeps its elements. *)
Lemma grow_keeps i (arr arr' : list Value_) c : 0 ≤ i < 2 ^ 64 →
  (if zlen arr <=? i then resize MAX_ELEMS (u64 (i + 1)) arr else Ok arr) = Ok arr' →
  arr' !! Z.to_nat i = Some c →
  (∀ j x, arr !! j = Some x → arr' !! j = Some x).
Proof.
  intros Hi. destruct (Z.leb_spec (zlen arr) i) as [Hle|Hgt]; [|naive_solver].
  unfold resize. destruct (MAX_ELEMS <? _); [done|]. intros [= <-] Hc j x Hj.
  destruct (decide (i = 2 ^ 64 - 1)) as [->|Hne].
  - replace (u64 (2 ^ 64 - 1 + 1)) with 0 in Hc by done. pose proof (zlen_nonneg arr).
    by replace (Z.to_nat (0 - zlen arr)) with 0%nat in Hc by lia.
  - rewrite u64_small by (unfold in_u64; lia). rewrite ztake_all by lia.
    by apply lookup_app_l_Some.
Qed.

Lemma selector_kind a b : selector a = selector b → isIndexSegment a = isIndexSegment b.
Proof. unfold selector. by destruct (isIndexSegment a), (isIndexSegment b). Qed.

(** Assigning in an array, and in an object. *)
Lemma assign_array part rest v (arr : list Value_) cur' : isIndexSegment part = true →
  assignPath MAX_ELEMS (part :: rest) v (Array arr) = (Ok tt, cur') →
  let i := Z.to_nat (parseIndex part) in
  ∃ arr' c c', (∀ j x, arr !! j = Some x → arr' !! j = Some x) ∧ arr' !! i = Some c ∧
    cur' = Array (<[i := c']> arr') ∧ (rest ≠ [] → assignPath MAX_ELEMS rest v c = (Ok tt, c')).
Proof.
  intros Hi. cbn [assignPath]. rewrite Hi. pose proof (parseIndex_range part) as Hr.
  destruct (if zlen arr <=? _ then _ else _) as [arr'| | |] eqn:Hg; try done.
  destruct (arr' !! _) as [c|] eqn:Hc; [|done].
  pose proof (grow_keeps _ _ _ _ Hr Hg Hc) as Hk. destruct rest as [|p rest].
  - intros [= <-]. by exists arr', c, v.
  - destruct (assignPath _ (p :: rest) v c) as [r c'] eqn:E. intros [= -> <-].
    by exists arr', c, c'.
Qed.

Lemma assign_object part rest v (obj : list (str * Value_)) cur' : isIndexSegment part = false →
  assignPath MAX_ELEMS (part :: rest) v (Object obj) = (Ok tt, cur') →
  ∃ c', cur' = Object (obj_assign part c' obj) ∧
    (rest ≠ [] → assignPath MAX_ELEMS rest v (default Null (obj_find part obj)) = (Ok tt, c')).
Proof.
  intros Hi. cbn [assignPath]. rewrite Hi. destruct rest as [|p rest].
  - intros [= <-]. by exists v.
  - destruct (assignPath _ (p :: rest) v _) as [r c'] eqn:E. intros [= -> <-]. by exists c'.
Qed.

Lemma assign_frame p q v w : diverge p q → ∀ cur cur' : Value_,
  getByParts cur q = Ok (Some w) → assignPath MAX_ELEMS p v cur = (Ok tt, cur') →
  getByParts cur' q = Ok (Some w).
Proof.
  induction 1 as [a b p q Hne Hk|a b p q Hs Hd IH]; intros cur cur' Hg Ha;
    apply get_cons in Hg as [(arr & c & Hb & -> & Hc & Hg)|(o & c & Hb & -> & Hc & Hg)].
  - apply assign_array in Ha as (arr' & d & d' & Hkeep & Hd & -> & _); [|congruence].
    rewrite (get_array _ _ _ c); [done..|]. rewrite list_lookup_insert_ne; [auto|].
    pose proof (parseIndex_range a). pose proof (parseIndex_range b).
    unfold selector in Hne. rewrite Hk, Hb in Hne. intros Heq. apply Hne. f_equal. lia.
  - apply assign_object in Ha as (d & -> & _); [|congruence].
    rewrite (get_object _ _ _ c); [done..|]. rewrite obj_find_assign, decide_False; [done|].
    unfold selector in Hne. rewrite Hk, Hb in Hne. congruence.
  - pose proof (selector_kind _ _ Hs) as Hk. unfold selector in Hs. rewrite Hk, Hb in Hs.
    injection Hs as Hs. apply assign_array in Ha as (arr' & d & d' & Hkeep & Hl & -> & Hrec);
      [|congruence].
    rewrite Hs in *. rewrite (Hkeep _ _ Hc) in Hl. injection Hl as <-.
    rewrite (get_array _ _ _ d'); [|done|apply list_lookup_insert_eq, (lookup_lt_Some _ _ c), Hkeep, Hc].
    apply (IH c); [done|]. apply Hrec. by inversion Hd.
  - pose proof (selector_kind _ _ Hs) as Hk. unfold selector in Hs. rewrite Hk, Hb in Hs.
    injection Hs as ->. apply assign_object in Ha as (d' & -> & Hrec); [|congruence].
    rewrite (get_object _ _ _ d'); [|done|by rewrite obj_find_assign, decide_True].
    rewrite Hc in Hrec. apply (IH c); [done|]. apply Hrec. by inversion Hd.
Qed.

End trees.

(** ** The flat map *)

Definition simple_key (key : str) : bool :=
  negb (isIndexSegment key) && negb (bool_decide (key = [])) && negb (bool_decide (dot ∈ key)).

(** Trees whose nodes are all addressable: no empty, dotted, numeric or repeated keys. *)
Fixpoint simple {D} (v : ConfigValue D) : bool :=
  match v with
  | Array a => (zlen a <=? 2 ^ 63) && forallb simple a
  | Object o => bool_decide (NoDup o.*1) && forallb (λ e, simple_key e.1 && simple e.2) o
  | _ => true
  end.

(** A segment as [flattenInto] prints it. *)
Definition printed (part : str) : Prop :=
  if isIndexSegment part then to_string (parseIndex part) = part else True.

Lemma dec_value_nonneg ds : all_digits ds → 0 ≤ dec_value ds.
Proof.
  induction ds as [|c ds IH] using rev_ind; [done|]. rewrite Forall_app, Forall_singleton.
  intros [Hds Hc]. rewrite dec_value_snoc. specialize (IH Hds).
  unfold is_digit, digit_value in *. lia.
Qed.

Lemma parseIndex_dec_value ds : all_digits ds → dec_value ds < 2 ^ 64 →
  parseIndex ds = dec_value ds.
Proof.
  induction ds as [|c ds IH] using rev_ind; [done|]. rewrite Forall_app, Forall_singleton.
  intros [Hds Hc]. rewrite dec_value_snoc. intros Hlt.
  assert (0 ≤ digit_value c ≤ 9) by (unfold is_digit, digit_value in *; lia).
  pose proof (dec_value_nonneg ds Hds).
  unfold parseIndex in *. rewrite foldl_snoc, IH by (done || lia).
  rewrite (u64_small (dec_value ds * 10)) by (unfold in_u64; lia).
  by rewrite u64_small by (unfold in_u64; lia).
Qed.

Lemma index_segment_digits ds : ds ≠ [] → all_digits ds → isIndexSegment ds = true.
Proof.
  intros Hne Hd. unfold isIndexSegment. destruct ds as [|c ds]; [done|].
  apply forallb_forall. intros x Hx. rewrite Forall_forall in Hd. by apply Hd, list_elem_of_In.
Qed.

Lemma to_string_index i : 0 ≤ i < 2 ^ 64 →
  isIndexSegment (to_string i) = true ∧ parseIndex (to_string i) = i ∧
  to_string i ≠ [] ∧ dot ∉ to_string i.
Proof.
  intros Hi. unfold to_string. replace (i <? 0) with false by lia.
  destruct (dec_digits_spec (S (Z.to_nat (Z.log2 i))) i) as (Hv & Hd & Hne); [|lia|].
  { split; [lia|]. rewrite Nat2Z.inj_succ, Z2Nat.id by apply Z.log2_nonneg.
    destruct (Z.eq_dec i 0) as [->|]; [done|]. apply Z.log2_spec. lia. }
  split_and!; [by apply index_segment_digits|rewrite parseIndex_dec_value; [done..|lia]|done|].
  intros Hdot. rewrite Forall_forall in Hd. by specialize (Hd _ Hdot).
Qed.

(** The path below [path] the segments lead to. *)
Definition extend (path : str) (parts : list str) : str := foldl childPath path parts.

Definition plain (part : str) : Prop := part ≠ [] ∧ dot ∉ part.

Lemma childPath_ne path key : key ≠ [] → childPath path key ≠ [].
Proof. unfold childPath. destruct key; [done|]. by destruct path. Qed.

Lemma extend_ne path parts : Forall plain parts → (path ≠ [] ∨ parts ≠ []) → extend path parts ≠ [].
Proof.
  intros Hp. revert path. induction Hp as [|p parts [Hp _] _ IH]; intros path H; [tauto|].
  apply IH. left. by apply childPath_ne.
Qed.

Lemma extend_intersperse path parts : path ≠ [] → Forall plain parts →
  extend path parts = intersperse (path :: parts) [dot].
Proof.
  intros Hpath Hp. revert path Hpath.
  induction Hp as [|p parts [Hp _] _ IH]; intros path Hpath; [done|].
  unfold extend. cbn [foldl]. fold (extend (childPath path p) parts).
  rewrite IH by by apply childPath_ne. unfold childPath.
  destruct path as [|c path]; [done|]. destruct parts as [|q parts]; simpl.
  - by rewrite <- app_assoc.
  - by rewrite <- !app_assoc.
Qed.

(** The printed path of plain segments splits into them. *)
Lemma splitPath_extend parts : parts ≠ [] → Forall plain parts → splitPath (extend [] parts) = Ok parts.
Proof.
  intros Hne Hp. pose proof (extend_ne [] parts Hp (or_intror Hne)) as Hne'.
  destruct (splitPath_spec _ Hne') as (ps & Hps & ->). f_equal.
  destruct parts as [|p parts]; [done|]. eapply pieces_det; [exact Hps|].
  apply Forall_cons in Hp as [[Hp Hd] Hps']. unfold extend. cbn [foldl].
  change (childPath [] p) with p. fold (extend p parts).
  rewrite extend_intersperse by done. apply pieces_intersperse.
  constructor; [done|]. eapply Forall_impl; [exact Hps'|]. by intros q [].
Qed.

Section flat.
Context {D : Type}.
Abbreviation Value_ := (ConfigValue D).
Implicit Types (v w : Value_) (flat : gmap str Value_).

(** The children of a node with their segments. *)
Definition children v : list (str * Value_) :=
  match v with
  | Object o => o
  | Array a => imap (λ i c, (to_string (Z.of_nat i), c)) a
  | _ => []
  end.

Lemma children_ind (P : Value_ → Prop) :
  (∀ v, (∀ k c, (k, c) ∈ children v → P c) → P v) → ∀ v, P v.
Proof.
  intros H v. induction v as [v Ha Ho|a IH|o IH] using ConfigValue_nested_ind; apply H; intros k c Hc.
  - destruct v; simpl in *; try done; set_solver.
  - apply elem_of_lookup_imap in Hc as (i & c' & [= -> ->] & Hi).
    by apply (Forall_lookup_1 _ _ _ _ IH Hi).
  - rewrite Forall_forall in IH. by apply (IH (k, c)).
Qed.

Definition flat_here (path : str) v flat : gmap str Value_ :=
  match path with [] => flat | _ => <[path := v]> flat end.
Definition flat_child (path : str) flat (e : str * Value_) : gmap str Value_ :=
  flattenInto e.2 (childPath path e.1) flat.

Lemma flattenInto_children v path flat :
  flattenInto v path flat = foldl (flat_child path) (flat_here path v flat) (children v).
Proof.
  destruct v as [| | | | | |a|o]; try done.
  - change (flattenInto (Array a) path flat) with
      ((fix go (i : nat) (a : list Value_) (flat : gmap str Value_) :=
         match a with
         | [] => flat
         | child :: a =>
             go (S i) a (flattenInto child (childPath path (to_string (Z.of_nat i))) flat)
         end) 0%nat a (flat_here path (Array a) flat)).
    unfold children. generalize (flat_here path (Array a) flat) as fl. clear flat.
    assert (imap (λ i c, (to_string (Z.of_nat i), c)) a
            = imap (λ i c, (to_string (Z.of_nat (0 + i)), c)) a) as -> by done.
    generalize 0%nat as n. induction a as [|x a IH]; intros n fl; [done|].
    rewrite imap_cons. cbn [foldl]. rewrite Nat.add_0_r. rewrite IH. f_equal.
    apply imap_ext. intros i y _. simpl. by rewrite Nat.add_succ_r.
  - change (flattenInto (Object o) path flat) with
      ((fix go (o : list (str * Value_)) (flat : gmap str Value_) :=
         match o with
         | [] => flat
         | (key, child) :: o => go o (flattenInto child (childPath path key) flat)
         end) o (flat_here path (Object o) flat)).
    unfold children. generalize (flat_here path (Object o) flat) as fl. clear flat.
    induction o as [|[k x] o IH]; intros fl; [done|]. apply IH.
Qed.

Lemma obj_find_elem k c (o : list (str * Value_)) : NoDup o.*1 → (k, c) ∈ o → obj_find k o = Some c.
Proof.
  intros Hn Hin. apply list_elem_of_split in Hin as (o1 & o2 & ->).
  unfold obj_find. by rewrite (filter_eq_split fst k o1 (k, c) o2).
Qed.

Lemma obj_find_in k c (o : list (str * Value_)) : obj_find k o = Some c → (k, c) ∈ o.
Proof.
  induction o as [|[k0 x] o IH]; [done|]. rewrite obj_find_cons, elem_of_cons.
  case_decide; [naive_solver|auto].
Qed.

(** A child is what its segment selects. *)
Lemma child_get v k c : simple v = true → (k, c) ∈ children v →
  plain k ∧ simple c = true ∧ ∀ rest, getByParts v (k :: rest) = getByParts c rest.
Proof.
  intros Hs Hc. destruct v as [| | | | | |a|o]; try by apply elem_of_nil in Hc.
  - cbn [simple] in Hs. apply andb_true_iff in Hs as [Hl Ha]. apply Z.leb_le in Hl.
    apply elem_of_lookup_imap in Hc as (i & c' & [= -> ->] & Hi).
    apply lookup_lt_Some in Hi as Hlt. unfold zlen in Hl.
    destruct (to_string_index (Z.of_nat i)) as (Hidx & Hp & Hne & Hdot); [lia|].
    split_and!; [by split| |].
    + rewrite forallb_forall in Ha. by eapply Ha, list_elem_of_In, list_elem_of_lookup_2.
    + intros rest. apply get_array; [done|]. by rewrite Hp, Nat2Z.id.
  - cbn [simple] in Hs. apply andb_true_iff in Hs as [Hn Ho]. apply bool_decide_eq_true in Hn.
    simpl in Hc. rewrite forallb_forall in Ho.
    specialize (Ho (k, c) ltac:(by apply list_elem_of_In)). simpl in Ho.
    apply andb_true_iff in Ho as [Hk Hc']. unfold simple_key in Hk.
    rewrite !andb_true_iff, !negb_true_iff, !bool_decide_eq_false in Hk.
    destruct Hk as [[Hi Hne] Hdot]. split_and!; [by split|done|].
    intros rest. apply get_object; [done|]. by apply obj_find_elem.
Qed.

Lemma get_child v part rest w : printed part → getByParts v (part :: rest) = Ok (Some w) →
  ∃ c, (part, c) ∈ children v ∧ getByParts c rest = Ok (Some w).
Proof.
  intros Hp Hg. apply get_cons in Hg as [(a & c & Hi & -> & Hc & Hg)|(o & c & Hi & -> & Hc & Hg)];
    exists c; (split; [|done]).
  - unfold printed in Hp. rewrite Hi in Hp. pose proof (parseIndex_range part).
    apply elem_of_lookup_imap. exists (Z.to_nat (parseIndex part)), c. split; [|done].
    by rewrite Z2Nat.id, Hp by lia.
  - by apply obj_find_in.
Qed.

Lemma flat_here_Some path v flat k : is_Some (flat !! k) → is_Some (flat_here path v flat !! k).
Proof.
  intros H. unfold flat_here. destruct path; [done|]. rewrite lookup_insert.
  by case_decide.
Qed.

Lemma flat_mono v : ∀ path flat k, is_Some (flat !! k) → is_Some (flattenInto v path flat !! k).
Proof.
  induction v as [v IH] using children_ind. intros path flat k Hk.
  rewrite flattenInto_children. apply (flat_here_Some path v) in Hk.
  generalize dependent (flat_here path v flat). clear flat.
  induction (children v) as [|[k0 c] l IHl]; intros fl Hk; [done|].
  cbn [foldl]. apply IHl; [set_solver|]. eapply IH; [left|done].
Qed.

Lemma flat_children_mono path (l : list (str * Value_)) : ∀ flat k,
  is_Some (flat !! k) → is_Some (foldl (flat_child path) flat l !! k).
Proof.
  induction l as [|e l IH]; intros flat k Hk; [done|]. cbn [foldl]. apply IH, flat_mono, Hk.
Qed.

Lemma flat_complete parts w : Forall printed parts → ∀ v path flat,
  getByParts v parts = Ok (Some w) → extend path parts ≠ [] →
  is_Some (flattenInto v path flat !! extend path parts).
Proof.
  induction 1 as [|p parts Hp _ IH]; intros v path flat Hg Hne; rewrite flattenInto_children.
  - apply flat_children_mono. unfold extend in *. simpl in *. unfold flat_here.
    destruct path; [done|]. by rewrite lookup_insert_eq.
  - destruct (get_child _ _ _ _ Hp Hg) as (c & Hc & Hg').
    apply list_elem_of_split in Hc as (l1 & l2 & ->). rewrite foldl_app. cbn [foldl].
    apply flat_children_mono. unfold flat_child at 1. by apply IH.
Qed.

Lemma flat_sound v : simple v = true → ∀ path flat k w, flattenInto v path flat !! k = Some w →
  flat !! k = Some w ∨
  ∃ parts, Forall plain parts ∧ k = extend path parts ∧ k ≠ [] ∧ getByParts v parts = Ok (Some w).
Proof.
  induction v as [v IH] using children_ind. intros Hs path flat k w.
  rewrite flattenInto_children.
  assert (∀ l fl, (∀ e, e ∈ l → e ∈ children v) → foldl (flat_child path) fl l !! k = Some w →
    fl !! k = Some w ∨ ∃ parts, Forall plain parts ∧ k = extend path parts ∧ k ≠ [] ∧
      getByParts v parts = Ok (Some w)) as Hl.
  { induction l as [|[k0 c] l IHl]; intros fl Hsub H; [by left|]. cbn [foldl] in H.
    apply IHl in H as [H|H]; [|by right|by intros e He; apply Hsub; right].
    destruct (child_get v k0 c Hs) as (Hk0 & Hc & Hget); [apply Hsub; left|].
    apply (IH k0) in H as [H|(parts & Hp & -> & Hne & Hg)]; [by left| |by apply Hsub; left|done].
    right. exists (k0 :: parts). split_and!; [by constructor|done|done|]. by rewrite Hget. }
  intros H. apply Hl in H as [H|H]; [|by right|done].
  unfold flat_here in H. destruct path as [|x path]; [by left|].
  apply lookup_insert_Some in H as [[<- <-]|[_ H]]; [|by left].
  right. exists []. split_and!; [constructor|done..].
Qed.

(** The flat map of a simple tree is the graph of [getByPath] on printed paths. *)
Lemma flat_get v k w : simple v = true → flattenInto v [] ∅ !! k = Some w →
  k ≠ [] ∧ getByPath v k = Ok (Some w).
Proof.
  intros Hs H. destruct (flat_sound v Hs _ _ _ _ H) as [H'|(parts & Hp & -> & Hne & Hg)];
    [by rewrite lookup_empty in H'|]. split; [done|].
  assert (parts ≠ []) as Hparts by by intros ->.
  pose proof (splitPath_extend parts Hparts Hp) as Hsplit.
  unfold getByPath. destruct (extend [] parts); [done|]. by rewrite Hsplit.
Qed.

Lemma getByPath_parts v k parts : splitPath k = Ok parts → k ≠ [] →
  getByPath v k = getByParts v parts.
Proof. intros Hs Hk. unfold getByPath. destruct k; [done|]. by rewrite Hs. Qed.

Lemma extend_split k parts : k ≠ [] → splitPath k = Ok parts → Forall plain parts →
  extend [] parts = k.
Proof.
  intros Hk Hs Hp. destruct (splitPath_spec k Hk) as (ps & Hps & Hs').
  rewrite Hs in Hs'. injection Hs' as <-. pose proof (pieces_join _ _ _ Hps) as Hj.
  rewrite join_intersperse in Hj. destruct (pieces_inv _ _ _ Hps) as (p & ps' & ->).
  apply Forall_cons in Hp as [[Hp Hd] Hp']. rewrite <- Hj.
  unfold extend. cbn [foldl]. change (childPath [] p) with p. by apply extend_intersperse.
Qed.

Lemma get_flat v k parts w : simple v = true → k ≠ [] → splitPath k = Ok parts →
  Forall plain parts → Forall printed parts →
  getByPath v k = Ok (Some w) → flattenInto v [] ∅ !! k = Some w.
Proof.
  intros Hs Hk Hsplit Hpl Hpr Hg. rewrite (getByPath_parts v k parts Hsplit Hk) in Hg.
  pose proof (extend_split k parts Hk Hsplit Hpl) as He.
  destruct (flat_complete parts w Hpr v [] ∅ Hg) as [w' Hw']; [by rewrite He|].
  rewrite He in Hw'. rewrite Hw'. destruct (flat_get v k w' Hs Hw') as [_ Hg'].
  rewrite (getByPath_parts v k parts Hsplit Hk) in Hg'. congruence.
Qed.

End flat.

(** ** Configurations in use *)

(** What a program reaches with the operations that change a configuration; references and
    pointers into the tree are used before the next call.  [stale]: since the flat cache was
    last marked, and while it was clean, a [set] threw or a node was changed through the
    pointer of the non-const [get], neither of which marks it. *)
Inductive reachable {D} (MAX_ELEMS : Z) : Config D → bool → Prop :=
  | reach_make : reachable MAX_ELEMS Config_make false
  | reach_setRoot c stale root c' : reachable MAX_ELEMS c stale →
      setRoot root c = (Ok tt, c') → reachable MAX_ELEMS c' false
  | reach_root c stale f c' : reachable MAX_ELEMS c stale →
      root_mutable f c = (Ok tt, c') → reachable MAX_ELEMS c' false
  | reach_set c stale path v c' : reachable MAX_ELEMS c stale →
      set MAX_ELEMS path v c = (Ok tt, c') → reachable MAX_ELEMS c' false
  | reach_set_throws c stale path v e c' : reachable MAX_ELEMS c stale →
      set MAX_ELEMS path v c = (Throw e, c') → reachable MAX_ELEMS c' (stale || negb (m_flatCacheDirty c))
  | reach_get_mutable c stale path f r c' : reachable MAX_ELEMS c stale →
      get_mutable path f c = (Ok r, c') → reachable MAX_ELEMS c' (stale || negb (m_flatCacheDirty c))
  | reach_values c stale m c' : reachable MAX_ELEMS c stale →
      values c = (Ok m, c') → reachable MAX_ELEMS c' stale.

(** A clean cache is the flattened tree. *)
Definition coherent {D} (c : Config D) : Prop :=
  m_flatCacheDirty c = false → m_flatValues c = flattenInto (m_root c) [] ∅.

Lemma set_parts {D} MAX_ELEMS path v (c : Config D) parts : path ≠ [] → splitPath path = Ok parts →
  set MAX_ELEMS path v c =
    let '(r, root) := assignPath MAX_ELEMS parts v (m_root c) in
    match r with
    | Ok _ => (Ok tt, mkConfig root true (m_flatValues c))
    | Throw e => (Throw e, mkConfig root (m_flatCacheDirty c) (m_flatValues c))
    | Undef => (Undef, mkConfig root (m_flatCacheDirty c) (m_flatValues c))
    | NoFuel => (NoFuel, mkConfig root (m_flatCacheDirty c) (m_flatValues c))
    end.
Proof.
  intros Hp Hs. destruct (splitPath_spec path Hp) as (ps & Hps & Hs').
  rewrite Hs in Hs'. injection Hs' as <-. destruct (pieces_inv _ _ _ Hps) as (q & qs & ->).
  unfold set. destruct path as [|x path]; [done|]. rewrite Hs. unfold bind, lift, Prelude.get, put.
  destruct (assignPath _ _ _ _) as [r root]. by destruct r as [[]| | |].
Qed.

Lemma set_dirty {D} MAX_ELEMS path v (c c' : Config D) :
  set MAX_ELEMS path v c = (Ok tt, c') → m_flatCacheDirty c' = true.
Proof.
  destruct (decide (path = [])) as [->|Hp]; [by intros [= <-]|].
  destruct (splitPath_spec path Hp) as (ps & _ & Hs). rewrite (set_parts _ _ _ _ ps Hp Hs).
  destruct (assignPath _ _ _ _) as [[[]| | |] root]; by intros [= <-].
Qed.

Lemma values_run {D} (c : Config D) :
  values c = (Ok (if m_flatCacheDirty c then flattenInto (m_root c) [] ∅ else m_flatValues c),
    if m_flatCacheDirty c then mkConfig (m_root c) false (flattenInto (m_root c) [] ∅) else c).
Proof. unfold values. run. by destruct (m_flatCacheDirty c) eqn:E. Qed.

(** Neither a [set] that throws nor the non-const [get] touches the mark. *)
Lemma set_throws_mark {D} MAX_ELEMS path v e (c c' : Config D) :
  set MAX_ELEMS path v c = (Throw e, c') → m_flatCacheDirty c' = m_flatCacheDirty c.
Proof.
  destruct (decide (path = [])) as [->|Hp]; [done|].
  destruct (splitPath_spec path Hp) as (ps & _ & Hs). rewrite (set_parts _ _ _ _ ps Hp Hs).
  destruct (assignPath _ _ _ _) as [[[]| | |] root]; by intros [= _ <-].
Qed.

Lemma get_mutable_mark {D} path f r (c c' : Config D) :
  get_mutable path f c = (Ok r, c') → m_flatCacheDirty c' = m_flatCacheDirty c.
Proof.
  unfold get_mutable, bind, Prelude.get, lift, put, ret. destruct (getByPath _ _) as [[w|]| | |]; try done; [|by intros [= _ <-]].
  destruct (splitPath path); by intros [= _ <-].
Qed.

Lemma reachable_coherent {D} MAX_ELEMS (c : Config D) stale : reachable MAX_ELEMS c stale → stale = false → coherent c.
Proof.
  unfold coherent. induction 1 as [|c st root c' _ _ H|c st f c' _ _ H|c st path v c' _ _ H|c st path v e c' _ _ H
    |c st path f r c' _ _ H|c st m c' _ IH H]; intros Hst.
  - done.
  - by injection H as <-.
  - by injection H as <-.
  - apply set_dirty in H. by rewrite H.
  - apply set_throws_mark in H. rewrite H. by destruct (m_flatCacheDirty c); [|rewrite orb_true_r in Hst].
  - apply get_mutable_mark in H. rewrite H. by destruct (m_flatCacheDirty c); [|rewrite orb_true_r in Hst].
  - rewrite values_run in H. injection H as _ <-. destruct (m_flatCacheDirty c) eqn:E; [done|auto].
Qed.

Lemma get_Value {D} (c : Config D) path v :
  get c path = Ok (Value v) ↔ getByPath (m_root c) path = Ok (Some v).
Proof.
  unfold get. destruct (getByPath _ _) as [[w|]| | |]; simpl; split; congruence.
Qed.

Lemma set_then_get {D} MAX_ELEMS path v (c : Config D) parts :
  0 < MAX_ELEMS < 2 ^ 63 → path ≠ [] → splitPath path = Ok parts →
  Forall (index_ok MAX_ELEMS) parts →
  ∃ c', set MAX_ELEMS path v c = (Ok tt, c') ∧ get c' path = Ok (Value v).
Proof.
  intros HM Hp Hs Hok. rewrite (set_parts _ _ _ _ parts Hp Hs).
  assert (parts ≠ []) as Hne.
  { intros ->. destruct (splitPath_spec path Hp) as (ps & Hps & Hs'). rewrite Hs in Hs'.
    injection Hs' as <-. inversion Hps. }
  destruct (assign_get MAX_ELEMS parts v HM (m_root c) Hne Hok) as (root & -> & Hg).
  eexists; split; [done|]. apply get_Value. by rewrite (getByPath_parts _ _ parts).
Qed.

Lemma set_keeps {D} MAX_ELEMS p q ps qs v w (c c' : Config D) :
  splitPath p = Ok ps → splitPath q = Ok qs → diverge ps qs →
  get c q = Ok (Value w) → set MAX_ELEMS p v c = (Ok tt, c') → get c' q = Ok (Value w).
Proof.
  intros Hp Hq Hd. rewrite !get_Value.
  assert (p ≠ []) as Hpne by (intros ->; injection Hp as <-; inversion Hd).
  assert (q ≠ []) as Hqne by (intros ->; injection Hq as <-; inversion Hd).
  rewrite (set_parts _ _ _ _ ps Hpne Hp), !(getByPath_parts _ q qs) by done. intros Hg.
  destruct (assignPath _ _ _ _) as [r root] eqn:E. destruct r as [[]| | |]; try done.
  intros [= <-]. exact (assign_frame _ _ _ _ _ Hd _ _ Hg E).
Qed.

(** [set] at a path whose array indices fit in a vector returns normally, whatever the
    tree held; [get] of the same path then finds exactly the value that was set.  Every
    path that separates from it at some segment, where both name an element of the same
    kind of container, still leads to the value it led to before.  The flat cache is marked
    for rebuilding. *)
Lemma config_set_exact {D} MAX_ELEMS path v (c : Config D) parts :
  0 < MAX_ELEMS < 2 ^ 63 → path ≠ [] → splitPath path = Ok parts →
  Forall (index_ok MAX_ELEMS) parts →
  ∃ c', set MAX_ELEMS path v c = (Ok tt, c') ∧ get c' path = Ok (Value v) ∧
    m_flatCacheDirty c' = true ∧
    ∀ q qs w, splitPath q = Ok qs → diverge parts qs →
      get c q = Ok (Value w) → get c' q = Ok (Value w).
Proof.
  intros HM Hp Hs Hok. destruct (set_then_get _ path v c parts HM Hp Hs Hok) as (c' & Hset & Hg).
  exists c'. split_and!; [done..|by apply set_dirty in Hset|].
  intros q qs w Hq Hd Hw. by apply (set_keeps MAX_ELEMS path q parts qs v w c).
Qed.

(** C37: in a configuration used through its operations in any order, [values] agrees with
    [get] unless, since the flat cache was last marked and while it was clean, a [set] threw or
    a node was changed through the pointer of the non-const [get] ([stale]; these two leave
    [values] behind, [config_stale_cache]): on a tree with plain distinct keys every entry of the flat map is what [get]
    returns for that path, every path [get] finds in the spelling [flattenInto] prints is
    an entry, and the call leaves the tree unchanged. *)
Theorem config_values_exact {D} MAX_ELEMS (c : Config D) :
  reachable MAX_ELEMS c false → simple (m_root c) = true →
  ∃ m c', values c = (Ok m, c') ∧ m_root c' = m_root c ∧
    (∀ k w, m !! k = Some w → get c k = Ok (Value w)) ∧
    (∀ k parts w, k ≠ [] → splitPath k = Ok parts → Forall plain parts → Forall printed parts →
       get c k = Ok (Value w) → m !! k = Some w).
Proof.
  intros Hr Hs. pose proof (reachable_coherent _ _ _ Hr eq_refl) as Hc. unfold coherent in Hc.
  rewrite values_run. eexists _, _. split; [done|].
  assert ((if m_flatCacheDirty c then flattenInto (m_root c) [] ∅ else m_flatValues c)
          = flattenInto (m_root c) [] ∅) as -> by (destruct (m_flatCacheDirty c); auto).
  split_and!; [by destruct (m_flatCacheDirty c)| |].
  - intros k w H. apply get_Value. by apply flat_get.
  - intros k parts w Hk Hsp Hpl Hpr Hg. apply get_Value in Hg. by eapply get_flat.
Qed.

Lemma getByParts_total {D} parts : ∀ cur : ConfigValue D, ∃ o, getByParts cur parts = Ok o.
Proof.
  induction parts as [|part rest IH]; intros cur; [by eexists|]. cbn [getByParts].
  destruct (isIndexSegment part), cur as [| | | | | |a|o];
    cbn [isArray isObject negb asArray asObject res_bind]; try by eexists.
  - pose proof (parseIndex_range part). destruct (Z.leb_spec (zlen a) (parseIndex part)); [by eexists|].
    destruct (lookup_lt_is_Some_2 a (Z.to_nat (parseIndex part))) as [c ->];
      [unfold zlen in *; lia|apply IH].
  - destruct (obj_find part o); [apply IH|by eexists].
Qed.

Lemma get_total {D} (c : Config D) path :
  (∃ v, get c path = Ok (Value v)) ∨ get c path = Ok (Err (makeNotFoundError path)).
Proof.
  assert (∃ o, getByPath (m_root c) path = Ok o) as [o Ho].
  { destruct (decide (path = [])) as [->|Hp]; [by eexists|].
    destruct (splitPath_spec path Hp) as (ps & _ & Hs).
    rewrite (getByPath_parts _ _ ps) by done. apply getByParts_total. }
  unfold get. rewrite Ho. destruct o; [left; by eexists|by right].
Qed.

(** [getInt] on every configuration and path: it yields the integer stored there, an
    unsigned one only when it fits in [int64_t], [NotFound] when the path leads nowhere,
    and [InvalidArgument] for every other value; it never throws. *)
Lemma config_getInt_exact {D} (c : Config D) path : ∃ r, getInt c path = Ok r ∧
  match r with
  | Value z => get c path = Ok (Value (Int z)) ∨
               (get c path = Ok (Value (UInt z)) ∧ z ≤ INT64_MAX)
  | Err e => (get c path = Ok (Err (makeNotFoundError path)) ∧ e = makeNotFoundError path) ∨
             (∃ v, get c path = Ok (Value v) ∧ m_code e = InvalidArgument ∧
                (∀ z, v ≠ Int z) ∧ ∀ z, v = UInt z → INT64_MAX < z)
  end.
Proof.
  unfold getInt, get_as. destruct (get_total c path) as [[v Hv]|Hn].
  - rewrite Hv. cbn [res_bind]. destruct v; unfold tryGetInt; simpl;
      try (eexists; split; [done|]; simpl; right; eexists; split_and!; done).
    + eexists; split; [done|]. by left.
    + destruct (Z.ltb_spec INT64_MAX z) as [Hlt|Hge]; (eexists; split; [done|]); simpl.
      * right. eexists; split_and!; [done..|]. by intros ? [= <-].
      * by right.
  - rewrite Hn. eexists; split; [done|]. by left.
Qed.

(** Two ways to a stale flat map.  An index too large for a vector makes [set] throw
    [length_error] after it has changed the tree, and the cache is not marked: [get] finds
    the container that was created while [values] keeps answering from before the call.
    A value changed through the pointer of the non-const [get] is not seen by [values]
    either. *)
Lemma config_stale_cache {D} MAX_ELEMS : 0 < MAX_ELEMS < 2 ^ 63 →
  ∃ c c1 m1 c2 m2, set MAX_ELEMS (lit "a") (Int 1) (Config_make (D:=D)) = (Ok tt, c) ∧
    set MAX_ELEMS (lit "b.18446744073709551614") (Int 2) (snd (values c))
      = (Throw length_error, c1) ∧
    get c1 (lit "b") = Ok (Value (Array [])) ∧ (values c1).1 = Ok m1 ∧ m1 !! lit "b" = None ∧
    get_mutable (lit "a") (λ _, Int 3) (snd (values c)) = (Ok (Value tt), c2) ∧
    get c2 (lit "a") = Ok (Value (Int 3)) ∧ (values c2).1 = Ok m2 ∧ m2 !! lit "a" = Some (Int 1).
Proof.
  intros HM. eexists _, _, _, _, _. split; [reflexivity|]. split.
  - rewrite (set_parts _ _ _ _ [lit "b"; lit "18446744073709551614"]) by done.
    cbn [assignPath]. change (isIndexSegment (lit "b")) with false.
    change (isIndexSegment (lit "18446744073709551614")) with true. cbv iota beta.
    change (parseIndex (lit "18446744073709551614")) with (2 ^ 64 - 2).
    unfold resize. change (u64 (2 ^ 64 - 2 + 1)) with (2 ^ 64 - 1).
    replace (MAX_ELEMS <? 2 ^ 64 - 1) with true by lia. vm_compute. reflexivity.
  - split_and!; reflexivity.
Qed.

(** ** Instances *)

Definition sample_root : ConfigValue Z :=
  Object [(lit "a", Array [Int 1; Object [(lit "x", Bool true)]]); (lit "b", Null)].

Lemma config_values_exact_witness : ∃ m c',
  values (mkConfig sample_root true ∅) = (Ok m, c') ∧ m !! lit "a.1.x" = Some (Bool true).
Proof.
  destruct (config_values_exact (2 ^ 58) (mkConfig sample_root true ∅)) as (m & c' & Hv & _ & _ & Hg).
  - apply (reach_setRoot _ Config_make false sample_root); [apply reach_make|reflexivity].
  - vm_compute. reflexivity.
  - exists m, c'. split; [exact Hv|].
    apply (Hg _ [lit "a"; lit "1"; lit "x"]); [done|reflexivity| | |reflexivity].
    + repeat constructor; unfold plain; try done; rewrite list_elem_of_In; vm_compute; naive_solver.
    + repeat constructor; unfold printed; vm_compute; done.
Defined.
