(* ===== verification/Ini.v ===== *)
(** * [dbase::config::IniConfig] (code/src/config/ini_config.cpp)

    Sections, [key=value] lines and comments, read into a [Config].  [strtod] and
    [fs::readText] are parameters: the value and the number of characters read of a C
    string, and the contents of a file or an error. *)

From stdpp Require Import base list gmap strings.
From Stdlib Require Import ZArith Lia Ascii.
From S2P Require Import Prelude Error Str ConfigValue Config.

Local Open Scope Z_scope.

Definition newline : ascii := byte_of_Z 10.
Definition carriage : ascii := byte_of_Z 13.
Definition equals : ascii := byte_of_Z 61.
Definition lbracket : ascii := byte_of_Z 91.
Definition rbracket : ascii := byte_of_Z 93.
Definition hash : ascii := byte_of_Z 35.
Definition semicolon : ascii := byte_of_Z 59.

Section ini.
Context {D : Type} (MAX_ELEMS : Z) (strtod : str → D * Z).

Definition makeParseError (lineNo : Z) (message : str) : Error :=
  mkError ParseError (lit "ini parse error at line " ++ to_string lineNo ++ lit ": " ++ message).

(** [std::tolower] in the C locale *)
Definition ini_toLower (input : str) : str := lowerAscii <$> input.

Definition tryParseBool (text : str) : option bool :=
  let lowered := ini_toLower (trim text default_chars) in
  if bool_decide (lowered = lit "true") || bool_decide (lowered = lit "yes")
     || bool_decide (lowered = lit "on") then Some true
  else if bool_decide (lowered = lit "false") || bool_decide (lowered = lit "no")
     || bool_decide (lowered = lit "off") then Some false
  else None.

Definition tryParseInt (text : str) : option Z :=
  let s := trim text default_chars in
  match s with
  | [] => None
  | _ => match from_chars INT64_MIN INT64_MAX s with
         | FC_ok v n => if n =? size s then Some v else None
         | _ => None
         end
  end.

Definition tryParseDouble (text : str) : option D :=
  let s := trim text default_chars in
  match s with
  | [] => None
  | _ => let '(v, n) := strtod s in if n =? size s then Some v else None
  end.

Definition parseValue (raw : str) : ConfigValue D :=
  let value := trim raw default_chars in
  match tryParseBool value with
  | Some b => Bool b
  | None =>
      match tryParseInt value with
      | Some z => Int z
      | None =>
          match tryParseDouble value with
          | Some d => Double d
          | None => String value
          end
      end
  end.

(** [std::getline]: a line without its newline and the rest, [None] at the end. *)
Definition getline (s : str) : option (str * str) :=
  match s with
  | [] => None
  | _ => match find_char newline s with
         | None => Some (s, [])
         | Some i => Some (take i s, drop (S i) s)
         end
  end.

(** One round of the loop: an error, or the section the next line belongs to. *)
Definition parse_line (lineNo : Z) (line currentSection : str) : M (Config D) (Error + str) :=
  let line := if bool_decide (last line = Some carriage) then removelast line else line in
  let trimmed := trim line default_chars in
  match trimmed with
  | [] => ret (inr currentSection)
  | front :: _ =>
      if bool_decide (front = hash) || bool_decide (front = semicolon)
      then ret (inr currentSection)
      else if bool_decide (front = lbracket) then
        if negb (bool_decide (last trimmed = Some rbracket))
        then ret (inl (makeParseError lineNo (lit "invalid section syntax")))
        else
          let! inner := lift (substr trimmed 1 (u64 (size trimmed - 2))) in
          let currentSection := trim inner default_chars in
          if bool_decide (currentSection = [])
          then ret (inl (makeParseError lineNo (lit "empty section name")))
          else ret (inr currentSection)
      else
        match find_ch trimmed equals 0 with
        | None => ret (inl (makeParseError lineNo (lit "missing '='")))
        | Some pos =>
            let! k := lift (substr trimmed 0 pos) in
            let key := trim k default_chars in
            let! value := lift (substr_from trimmed (pos + 1)) in
            if bool_decide (key = [])
            then ret (inl (makeParseError lineNo (lit "empty key")))
            else
              let key := if bool_decide (currentSection = []) then key
                         else currentSection ++ lit "." ++ key in
              set MAX_ELEMS key (parseValue value);;;
              ret (inr currentSection)
        end
  end.

(** [while (std::getline(iss, line))] *)
Fixpoint parse_loop (fuel : nat) (iss : str) (currentSection : str) (lineNo : Z)
    : M (Config D) (option Error) :=
  match fuel with
  | O => lift NoFuel
  | S fuel =>
      match getline iss with
      | None => ret None
      | Some (line, iss) =>
          let lineNo := u64 (lineNo + 1) in
          let! r := parse_line lineNo line currentSection in
          match r with
          | inl e => ret (Some e)
          | inr currentSection => parse_loop fuel iss currentSection lineNo
          end
      end
  end.

Definition parse (content : str) : res (Result (Config D)) :=
  match parse_loop (S (length content)) content [] 0 Config_make with
  | (Ok None, config) => Ok (Value config)
  | (Ok (Some e), _) => Ok (Err e)
  | (Throw e, _) => Throw e
  | (Undef, _) => Undef
  | (NoFuel, _) => NoFuel
  end.

Definition fromString (content : str) : res (Result (Config D)) := parse content.

Definition fromFile {Path : Type} (readText : Path → Result str) (path : Path)
    : res (Result (Config D)) :=
  match readText path with
  | Err e => Ok (Err e)
  | Value text => parse text
  end.

End ini.

(** ** Lines *)

(** The lines of a text: cut at the newlines, the last piece only when it is not empty. *)
Fixpoint drop_last_empty (ps : list str) : list str :=
  match ps with
  | [] => []
  | [p] => if bool_decide (p = []) then [] else [p]
  | p :: ps => p :: drop_last_empty ps
  end.

Section loop.
Context {D : Type} (MAX_ELEMS : Z) (strtod : str → D * Z).

(** The loop as a recursion over the lines. *)
Fixpoint run_lines (lines : list str) (section : str) (lineNo : Z)
    : M (Config D) (option Error) :=
  match lines with
  | [] => ret None
  | line :: lines =>
      let! r := parse_line MAX_ELEMS strtod (u64 (lineNo + 1)) line section in
      match r with
      | inl e => ret (Some e)
      | inr section => run_lines lines section (u64 (lineNo + 1))
      end
  end.

Lemma parse_loop_lines fuel : ∀ iss ps section lineNo c, pieces [newline] iss ps →
  (length iss < fuel)%nat →
  parse_loop MAX_ELEMS strtod fuel iss section lineNo c
  = run_lines (drop_last_empty ps) section lineNo c.
Proof.
  induction fuel as [|fuel IH]; intros iss ps section lineNo c Hps Hf; [lia|].
  cbn [parse_loop]. unfold getline. rewrite find_char_sub.
  destruct Hps as [s Hn|s i ps Hi Hps].
  - destruct s as [|x s]; [done|]. rewrite Hn. cbn [drop_last_empty].
    rewrite bool_decide_false by done. cbn [run_lines].
    apply bind_ext. intros [e|sec] c'; [done|]. destruct fuel as [|fuel]; [simpl in Hf; lia|]. done.
  - destruct s as [|x s]; [done|]. rewrite Hi.
    destruct (pieces_inv _ _ _ Hps) as (p & ps' & ->). cbn [run_lines drop_last_empty].
    change (length [newline]) with 1%nat in Hps. rewrite Nat.add_1_r in Hps.
    apply bind_ext. intros [e|sec] c'; [done|]. apply (IH _ (p :: ps')); [done|]. rewrite length_drop. simpl in *. lia.
Qed.

Lemma parse_lines content ps : pieces [newline] content ps →
  parse MAX_ELEMS strtod content =
    match run_lines (drop_last_empty ps) [] 0 Config_make with
    | (Ok None, config) => Ok (Value config)
    | (Ok (Some e), _) => Ok (Err e)
    | (Throw e, _) => Throw e
    | (Undef, _) => Undef
    | (NoFuel, _) => NoFuel
    end.
Proof. intros Hps. unfold parse. by rewrite (parse_loop_lines _ _ ps) by (done || lia). Qed.

(** ** Texts in plain form *)

(** No white space at the ends. *)
Definition unpadded (s : str) : bool :=
  match head s with None => true | Some c => negb (in_chars default_chars c) end
  && match last s with None => true | Some c => negb (in_chars default_chars c) end.

Definition one_line (s : str) : bool := negb (bool_decide (newline ∈ s)).

(** A section name, a key and a value that can be written as they are. *)
Definition section_ok (s : str) : bool := simple_key s && unpadded s && one_line s && (zlen s <? 2 ^ 63).
Definition key_ok (s : str) : bool :=
  simple_key s && unpadded s && one_line s && negb (bool_decide (equals ∈ s))
  && negb (bool_decide (head s = Some hash)) && negb (bool_decide (head s = Some semicolon))
  && negb (bool_decide (head s = Some lbracket)).
Definition value_ok (s : str) : bool := unpadded s && one_line s.

Definition section_line (s : str) : str := lbracket :: s ++ [rbracket].
Definition entry_line (e : str * str) : str := e.1 ++ equals :: e.2.
Definition section_lines (s : str * list (str * str)) : list str :=
  section_line s.1 :: map entry_line s.2.
Definition ini_text (secs : list (str * list (str * str))) : str :=
  concat (map (λ line, line ++ [newline]) (concat (map section_lines secs))).

Lemma in_chars_not chars c : negb (in_chars chars c) = true ↔ c ∉ chars.
Proof. rewrite negb_true_iff. unfold in_chars. apply bool_decide_eq_false. Qed.

Lemma unpadded_trim s : unpadded s = true → trim s default_chars = s.
Proof.
  unfold unpadded. rewrite andb_true_iff. intros [Hh Hl]. apply trim_id.
  - destruct (head s); [by apply in_chars_not|done].
  - destruct (last s); [by apply in_chars_not|done].
Qed.

(** A line in plain form is read as it is. *)
Lemma unpadded_line s : unpadded s = true →
  (if bool_decide (last s = Some carriage) then removelast s else s) = s.
Proof.
  unfold unpadded. rewrite andb_true_iff. intros [_ Hl]. case_bool_decide as E; [|done].
  by rewrite E in Hl.
Qed.

Lemma unpadded_section s : unpadded (section_line s) = true.
Proof. unfold unpadded, section_line. by rewrite app_comm_cons, last_snoc. Qed.

Lemma unpadded_entry e : e.1 ≠ [] → unpadded e.1 = true → unpadded e.2 = true →
  unpadded (entry_line e) = true.
Proof.
  destruct e as [[|x k] v]; [done|]. intros _. unfold entry_line, unpadded. simpl.
  rewrite !andb_true_iff. intros [Hk _] [_ Hv]. split; [done|].
  rewrite app_comm_cons. destruct v as [|y v] using rev_ind.
  - by rewrite last_snoc.
  - rewrite app_comm_cons, app_assoc, last_snoc in *. done.
Qed.

Lemma simple_key_spec k : simple_key k = true →
  isIndexSegment k = false ∧ k ≠ [] ∧ dot ∉ k.
Proof.
  unfold simple_key. rewrite !andb_true_iff, !negb_true_iff, !bool_decide_eq_false. naive_solver.
Qed.

Lemma parse_section_line n s sec c : section_ok s = true →
  parse_line MAX_ELEMS strtod n (section_line s) sec c = (Ok (inr s), c).
Proof.
  unfold section_ok. rewrite !andb_true_iff. intros [[[Hs Hu] Hn] Hlen].
  apply Z.ltb_lt in Hlen.
  apply simple_key_spec in Hs as (_ & Hne & _). pose proof (zlen_nonneg s).
  unfold parse_line. rewrite unpadded_line by apply unpadded_section.
  rewrite unpadded_trim by apply unpadded_section. unfold section_line at 1. cbv iota.
  change (bool_decide (lbracket = hash) || bool_decide (lbracket = semicolon)) with false.
  change (bool_decide (lbracket = lbracket)) with true. cbv iota.
  rewrite (bool_decide_true (last (section_line s) = Some rbracket))
    by (unfold section_line; by rewrite app_comm_cons, last_snoc).
  cbn [negb]. assert (zlen (section_line s) = zlen s + 2) as Hsz.
  { unfold section_line. rewrite zlen_cons, zlen_app. change (zlen [rbracket]) with 1. lia. }
  unfold substr, size. rewrite Hsz. replace (zlen s + 2 <? 1) with false by lia.
  replace (zlen s + 2 - 2) with (zlen s) by lia. rewrite u64_small by (unfold in_u64; lia).
  run. change (zdrop 1 (section_line s)) with (s ++ [rbracket]).
  rewrite ztake_app_le, ztake_all by lia. rewrite unpadded_trim by done.
  by rewrite bool_decide_false.
Qed.

Lemma find_equals k v : equals ∉ k → find_ch (k ++ equals :: v) equals 0 = Some (zlen k).
Proof.
  intros Hk. unfold find_ch. pose proof (zlen_nonneg (k ++ equals :: v)). unfold size.
  replace (_ <? 0) with false by lia. rewrite zdrop_0, find_char_sub, find_sub_char by done.
  done.
Qed.

Lemma parse_entry_line n e sec c : key_ok e.1 = true → value_ok e.2 = true → sec ≠ [] →
  parse_line MAX_ELEMS strtod n (entry_line e) sec c =
    (set MAX_ELEMS (sec ++ lit "." ++ e.1) (parseValue strtod e.2);;; ret (inr sec)) c.
Proof.
  destruct e as [k v]. unfold key_ok, value_ok. cbn [fst snd].
  rewrite !andb_true_iff, !negb_true_iff, !bool_decide_eq_false.
  intros ((((((Hs & Hu) & Hn) & Heq) & Hh) & Hsc) & Hb) [Hv Hvn] Hsec.
  apply simple_key_spec in Hs as (_ & Hne & _).
  pose proof (unpadded_entry (k, v) Hne Hu Hv) as Hline.
  unfold parse_line. rewrite unpadded_line, unpadded_trim by done.
  assert (∃ x k', k = x :: k') as (x & k' & Hk) by (destruct k; [done|eauto]).
  subst k. change (entry_line (x :: k', v)) with (x :: (k' ++ equals :: v)). cbv iota.
  simpl in Hh, Hsc, Hb.
  rewrite (bool_decide_false (x = hash)), (bool_decide_false (x = semicolon)),
    (bool_decide_false (x = lbracket)) by congruence. cbn [orb].
  change (x :: (k' ++ equals :: v)) with ((x :: k') ++ equals :: v).
  set (k := x :: k') in *. rewrite find_equals by done.
  pose proof (zlen_nonneg k). pose proof (zlen_nonneg v).
  assert (zlen (k ++ equals :: v) = zlen k + 1 + zlen v) as Hsz
    by (rewrite zlen_app, zlen_cons; lia).
  unfold substr, substr_from, size. rewrite Hsz.
  replace (_ <? 0) with false by lia. replace (_ <? zlen k + 1) with false by lia. run.
  rewrite zdrop_0, ztake_app_le, ztake_all by lia. rewrite unpadded_trim by done.
  rewrite !bool_decide_false by done.
  rewrite zdrop_app_ge by lia. by replace (zlen k + 1 - zlen k) with 1 by lia.
Qed.

(** *** Writing entries below sections *)

Definition entry_path (sec k : str) : str := sec ++ lit "." ++ k.

Lemma split_entry_path sec k : simple_key sec = true → simple_key k = true →
  splitPath (entry_path sec k) = Ok [sec; k] ∧ entry_path sec k ≠ [] ∧
  Forall (index_ok MAX_ELEMS) [sec; k].
Proof.
  intros Hs Hk. apply simple_key_spec in Hs as (Hsi & Hs & Hsd).
  apply simple_key_spec in Hk as (Hki & Hk & Hkd).
  assert (extend [] [sec; k] = entry_path sec k) as He.
  { unfold extend, entry_path. cbn [foldl]. unfold childPath at 2. cbn [app].
    unfold childPath. destruct sec; [done|]. by rewrite <- app_assoc. }
  split_and!.
  - rewrite <- He. apply splitPath_extend; [done|]. by repeat constructor.
  - unfold entry_path. by destruct sec.
  - repeat constructor; unfold index_ok; congruence.
Qed.

Lemma diverge_entries s k s' k' : simple_key s = true → simple_key k = true →
  simple_key s' = true → simple_key k' = true → (s, k) ≠ (s', k') → diverge [s; k] [s'; k'].
Proof.
  intros Hs Hk Hs' Hk' Hne. apply simple_key_spec in Hs as (Hs & _), Hk as (Hk & _).
  apply simple_key_spec in Hs' as (Hs' & _), Hk' as (Hk' & _).
  assert (∀ x, isIndexSegment x = false → selector x = inr x) as Hsel
    by (intros x Hx; unfold selector; by rewrite Hx).
  destruct (decide (s = s')) as [->|Hss].
  - apply diverge_next; [done|]. apply diverge_here; [|congruence].
    rewrite !Hsel by done. congruence.
  - apply diverge_here; [|congruence]. rewrite !Hsel by done. congruence.
Qed.

(** An entry: section, key and value text. *)
Abbreviation entry := (str * str * str)%type.
Definition entry_ok (e : entry) : bool :=
  simple_key e.1.1 && simple_key e.1.2.
Definition stored (c : Config D) (e : entry) : Prop :=
  get c (entry_path e.1.1 e.1.2) = Ok (Value (parseValue strtod e.2)).

Lemma set_entry (c : Config D) (past : list entry) e : 0 < MAX_ELEMS < 2 ^ 63 →
  NoDup (past ++ [e]).*1 → Forall (λ e, entry_ok e = true) (past ++ [e]) →
  Forall (stored c) past →
  ∃ c', set MAX_ELEMS (entry_path e.1.1 e.1.2) (parseValue strtod e.2) c = (Ok tt, c') ∧
        Forall (stored c') (past ++ [e]).
Proof.
  intros HM Hnd Hok Hst. rewrite Forall_app, Forall_singleton in Hok. destruct Hok as [Hpast He].
  unfold entry_ok in He. apply andb_true_iff in He as [Hs Hk].
  destruct (split_entry_path _ _ Hs Hk) as (Hsplit & Hne & Hidx).
  destruct (set_then_get MAX_ELEMS _ (parseValue strtod e.2) c _ HM Hne Hsplit Hidx)
    as (c' & Hset & Hget).
  exists c'. split; [done|]. rewrite Forall_app, Forall_singleton. split; [|done].
  rewrite Forall_forall in Hst, Hpast |- *. intros e' He'.
  pose proof (Hpast e' He') as Hok'. apply andb_true_iff in Hok' as [Hs' Hk'].
  destruct (split_entry_path _ _ Hs' Hk') as (Hsplit' & _ & _).
  eapply (set_keeps MAX_ELEMS); [exact Hsplit|exact Hsplit'| |by apply Hst|exact Hset].
  apply diverge_entries; [done..|]. rewrite <- !surjective_pairing. intros Heq.
  rewrite fmap_app, NoDup_app in Hnd. destruct Hnd as (_ & Hd & _).
  apply (Hd e'.1); [by apply list_elem_of_fmap_2|]. rewrite <- Heq. by left.
Qed.

Definition of_section (s : str * list (str * str)) : list entry := map (λ kv, (s.1, kv.1, kv.2)) s.2.
Definition entries (secs : list (str * list (str * str))) : list entry := concat (map of_section secs).

Definition section_good (s : str * list (str * str)) : bool :=
  section_ok s.1 && forallb (λ kv, key_ok kv.1 && value_ok kv.2) s.2.

Lemma key_ok_simple k : key_ok k = true → simple_key k = true.
Proof. unfold key_ok. rewrite !andb_true_iff. tauto. Qed.
Lemma section_ok_simple k : section_ok k = true → simple_key k = true.
Proof. unfold section_ok. rewrite !andb_true_iff. tauto. Qed.

Lemma run_entries sec kvs rest : 0 < MAX_ELEMS < 2 ^ 63 → section_ok sec = true →
  ∀ c past n, forallb (λ kv, key_ok kv.1 && value_ok kv.2) kvs = true →
  NoDup (past ++ of_section (sec, kvs)).*1 → Forall (λ e, entry_ok e = true) past →
  Forall (stored c) past →
  ∃ c' n', run_lines (map entry_line kvs ++ rest) sec n c = run_lines rest sec n' c' ∧
    Forall (stored c') (past ++ of_section (sec, kvs)) ∧
    Forall (λ e, entry_ok e = true) (past ++ of_section (sec, kvs)).
Proof.
  intros HM Hsec. induction kvs as [|[k v] kvs IH]; intros c past n Hkvs Hnd Hpast Hst.
  { exists c, n. unfold of_section. simpl. rewrite app_nil_r. done. }
  cbn [forallb fst snd] in Hkvs. rewrite !andb_true_iff in Hkvs. destruct Hkvs as [[Hk Hv] Hkvs].
  pose proof (section_ok_simple _ Hsec) as Hss. pose proof (key_ok_simple _ Hk) as Hks.
  change (of_section (sec, (k, v) :: kvs)) with ((sec, k, v) :: of_section (sec, kvs)) in *.
  rewrite cons_middle, app_assoc in Hnd |- *.
  assert (Forall (λ e, entry_ok e = true) (past ++ [(sec, k, v)])) as Hpast'.
  { rewrite Forall_app, Forall_singleton. split; [done|]. unfold entry_ok. simpl.
    by rewrite Hss, Hks. }
  destruct (set_entry c past (sec, k, v) HM) as (c1 & Hset & Hst1); [|done|done|].
  { rewrite fmap_app in Hnd. by apply NoDup_app in Hnd as (? & _). }
  destruct (IH c1 (past ++ [(sec, k, v)]) (u64 (n + 1)) Hkvs Hnd Hpast' Hst1)
    as (c' & n' & Hrun & Hst' & Hok').
  exists c', n'. split; [|done]. rewrite <- Hrun. cbn [map app run_lines].
  apply simple_key_spec in Hss as (_ & Hne & _).
  assert (parse_line MAX_ELEMS strtod (u64 (n + 1)) (entry_line (k, v)) sec c = (Ok (inr sec), c1)) as Hl.
  { rewrite parse_entry_line by done. by rewrite (bind_Ok _ _ _ _ _ Hset). }
  by rewrite (bind_Ok _ _ _ _ _ Hl).
Qed.

Lemma run_sections secs : 0 < MAX_ELEMS < 2 ^ 63 → ∀ c past sec n,
  forallb section_good secs = true → NoDup (past ++ entries secs).*1 →
  Forall (λ e, entry_ok e = true) past → Forall (stored c) past →
  ∃ c', run_lines (concat (map section_lines secs)) sec n c = (Ok None, c') ∧
    Forall (stored c') (past ++ entries secs).
Proof.
  intros HM. induction secs as [|[s kvs] secs IH]; intros c past sec n Hg Hnd Hok Hst.
  { exists c. unfold entries. simpl. by rewrite app_nil_r. }
  cbn [forallb] in Hg. apply andb_true_iff in Hg as [Hs Hg]. unfold section_good in Hs.
  apply andb_true_iff in Hs as [Hs Hkvs]. cbn [fst snd] in Hs, Hkvs.
  change (entries ((s, kvs) :: secs)) with (of_section (s, kvs) ++ entries secs) in *.
  rewrite app_assoc in Hnd |- *. cbn [map concat section_lines fst snd app run_lines].
  rewrite (bind_Ok _ _ _ _ _ (parse_section_line (u64 (n + 1)) s sec c Hs)). cbv beta iota.
  destruct (run_entries s kvs (concat (map section_lines secs)) HM Hs c past (u64 (n + 1)) Hkvs)
    as (c1 & n1 & -> & Hst1 & Hok1); [|done|done|].
  { rewrite fmap_app in Hnd. by apply NoDup_app in Hnd as (? & _). }
  by apply IH.
Qed.

End loop.

(** The lines of a text. *)
Lemma text_pieces lines : Forall (λ l, newline ∉ l) lines →
  pieces [newline] (concat (map (λ line, line ++ [newline]) lines)) (lines ++ [[]]) ∧
  drop_last_empty (lines ++ [[]]) = lines.
Proof.
  intros Hl. split.
  - assert (concat (map (λ line, line ++ [newline]) lines) = intersperse (lines ++ [[]]) [newline]) as ->.
    { clear Hl. induction lines as [|l lines IH]; [done|]. cbn [map concat]. rewrite IH.
      rewrite <- app_assoc. destruct lines; done. }
    destruct lines as [|l lines]; apply pieces_intersperse.
    + constructor; [set_solver|constructor].
    + rewrite app_comm_cons, Forall_app. split; [done|]. constructor; [set_solver|constructor].
  - clear Hl. induction lines as [|l lines IH]; [done|]. cbn [app drop_last_empty].
    destruct (lines ++ [[]]) eqn:E; [by destruct lines|]. by rewrite IH.
Qed.

Lemma one_line_spec s : one_line s = true ↔ newline ∉ s.
Proof. unfold one_line. rewrite negb_true_iff. apply bool_decide_eq_false. Qed.

Lemma text_one_line secs : forallb section_good secs = true →
  Forall (λ l, newline ∉ l) (concat (map section_lines secs)).
Proof.
  induction secs as [|[s kvs] secs IH]; [constructor|]. cbn [forallb map concat].
  rewrite andb_true_iff. intros [Hs Hg]. apply Forall_app. split; [|auto].
  unfold section_good in Hs. apply andb_true_iff in Hs as [Hs Hkvs]. cbn [fst snd] in *.
  unfold section_lines. cbn [fst snd]. constructor.
  - unfold section_ok in Hs. rewrite !andb_true_iff, one_line_spec in Hs.
    unfold section_line. set_solver.
  - apply Forall_forall. intros l Hl. apply list_elem_of_In, in_map_iff in Hl as ([k v] & <- & Hin).
    rewrite forallb_forall in Hkvs. specialize (Hkvs _ Hin). cbn [fst snd] in Hkvs.
    unfold key_ok, value_ok in Hkvs. rewrite !andb_true_iff, !one_line_spec in Hkvs.
    unfold entry_line. cbn [fst snd]. set_solver.
Qed.

(** *** Malformed lines *)

(** What is wrong with a line, if anything. *)
Definition malformed (line : str) : option str :=
  let text := trim (if bool_decide (last line = Some carriage) then removelast line else line)
                   default_chars in
  match text with
  | [] => None
  | front :: rest =>
      if bool_decide (front ∈ [hash; semicolon]) then None
      else if bool_decide (front = lbracket) then
        if negb (bool_decide (last text = Some rbracket)) then Some (lit "invalid section syntax")
        else if bool_decide (trim (removelast rest) default_chars = [])
             then Some (lit "empty section name") else None
      else match find_char equals text with
           | None => Some (lit "missing '='")
           | Some i => if bool_decide (trim (take i text) default_chars = [])
                       then Some (lit "empty key") else None
           end
  end.

Lemma removelast_take {A} (l : list A) : removelast l = take (pred (length l)) l.
Proof.
  destruct l as [|x l] using rev_ind; [done|]. rewrite removelast_last, length_app. cbn [length].
  replace (pred (length l + 1)) with (length l) by lia. by rewrite take_app_length.
Qed.

Lemma inner_substr text rest : text = lbracket :: rest → last text = Some rbracket →
  zlen text < 2 ^ 64 → substr text 1 (u64 (size text - 2)) = Ok (removelast rest).
Proof.
  intros -> Hl Hlen. unfold substr, size in *. rewrite zlen_cons in *.
  pose proof (zlen_nonneg rest).
  replace (1 + zlen rest <? 1) with false by lia. f_equal.
  assert (rest ≠ []) as Hne by (intros ->; by vm_compute in Hl).
  assert (1 ≤ zlen rest) by (destruct rest; [done|rewrite zlen_cons; pose proof (zlen_nonneg rest); lia]).
  rewrite u64_small by (unfold in_u64; lia). change (zdrop 1 (lbracket :: rest)) with rest.
  rewrite removelast_take. unfold ztake, zlen in *. f_equal. lia.
Qed.

Lemma trim_length s chars : (length (trim s chars) ≤ length s)%nat.
Proof.
  unfold trim, trimView. destruct (trimImplLeft_spec s chars) as (l & Hl & _).
  destruct (trimImplRight_spec (trimImplLeft s chars) chars) as (r & Hr & _).
  rewrite Hl at 2. rewrite length_app. rewrite Hr at 2. rewrite length_app. lia.
Qed.

Lemma chomp_length line :
  (length (if bool_decide (last line = Some carriage) then removelast line else line)
   ≤ length line)%nat.
Proof. case_bool_decide; [|lia]. rewrite removelast_take, length_take. lia. Qed.

Section errors.
Context {D : Type} (MAX_ELEMS : Z) (strtod : str → D * Z).

Lemma parse_line_malformed n line sec c : zlen line < 2 ^ 64 →
  match malformed line with
  | Some msg => parse_line MAX_ELEMS strtod n line sec c = (Ok (inl (makeParseError n msg)), c)
  | None => ∀ e c', parse_line MAX_ELEMS strtod n line sec c ≠ (Ok (inl e), c')
  end.
Proof.
  intros Hlen. unfold malformed, parse_line.
  pose proof (chomp_length line) as Hc.
  set (line' := if bool_decide (last line = Some carriage) then _ else _) in *.
  pose proof (trim_length line' default_chars) as Ht. set (text := trim line' default_chars) in *.
  assert (zlen text < 2 ^ 64) as Hz by (unfold zlen in *; lia). clearbody text. clear Hc Ht Hlen.
  destruct text as [|front rest] eqn:Htext; [done|].
  replace (bool_decide (front = hash) || bool_decide (front = semicolon))
    with (bool_decide (front ∈ [hash; semicolon]))
    by (repeat case_bool_decide; set_solver).
  destruct (bool_decide (front ∈ _)); [done|]. case_bool_decide as Hb.
  - case_bool_decide as Hl; [|done]. cbn [negb]. rewrite (inner_substr _ rest); [|by subst|done..].
    run. by case_bool_decide.
  - rewrite <- Htext in *. unfold find_ch, size. pose proof (zlen_nonneg text).
    replace (zlen text <? 0) with false by lia. rewrite zdrop_0.
    destruct (find_char equals text) as [i|] eqn:Hf; [|done].
    change ((λ i0 : nat, 0 + Z.of_nat i0) <$> Some i) with (Some (Z.of_nat i)). cbv iota.
    rewrite find_char_sub in Hf.
    destruct (find_bound text [equals] 0 i ltac:(lia) Hf) as [Hi _].
    change (zlen [equals]) with 1 in Hi.
    unfold substr, substr_from, size. replace (zlen text <? 0) with false by lia.
    replace (zlen text <? Z.of_nat i + 1) with false by lia. run.
    rewrite zdrop_0. unfold ztake. rewrite Nat2Z.id. case_bool_decide as Hk; [done|].
    intros e c'. unfold bind. by destruct (set _ _ _ _) as [[]].
Qed.

(** The first malformed line stops the run with its number. *)
Lemma run_lines_error lines : Forall (λ l, zlen l < 2 ^ 64) lines → ∀ sec n c e c',
  0 ≤ n → n + zlen lines < 2 ^ 64 →
  run_lines MAX_ELEMS strtod lines sec n c = (Ok (Some e), c') ↔
  ∃ i line msg, lines !! i = Some line ∧ malformed line = Some msg ∧
    e = makeParseError (n + Z.of_nat i + 1) msg ∧ run_lines MAX_ELEMS strtod (take i lines) sec n c = (Ok None, c').
Proof.
  induction 1 as [|line lines Hline _ IH]; intros sec n c e c' Hn Hlen.
  { split; [done|]. by intros (i & l & msg & Hl & _). }
  rewrite zlen_cons in Hlen. pose proof (zlen_nonneg lines).
  cbn [run_lines]. rewrite u64_small by (unfold in_u64; lia).
  pose proof (parse_line_malformed (n + 1) line sec c Hline) as Hm.
  destruct (malformed line) as [msg|] eqn:Hmal.
  - rewrite (bind_Ok _ _ _ _ _ Hm). split.
    + intros [= <- <-]. exists 0%nat, line, msg. split_and!; [done..|f_equal; lia|done].
    + intros ([|i] & l & msg' & Hl & Hml & -> & Hrun); [|].
      * injection Hl as <-. injection Hrun as <-. unfold ret. do 3 f_equal.
        rewrite Hmal in Hml. injection Hml as <-. f_equal. lia.
      * cbn [take run_lines] in Hrun. rewrite u64_small in Hrun by (unfold in_u64; lia).
        by rewrite (bind_Ok _ _ _ _ _ Hm) in Hrun.
  - destruct (parse_line MAX_ELEMS strtod (n + 1) line sec c) as [[[e0|sec']| | |] c1] eqn:Hpl;
      [by destruct (Hm e0 c1)| | | |].
    all: try (split; [unfold bind; rewrite Hpl; done|];
      intros ([|i] & l & msg' & Hl & Hml & -> & Hrun);
      [injection Hl as <-; congruence|];
      cbn [take run_lines] in Hrun; rewrite u64_small in Hrun by (unfold in_u64; lia);
      unfold bind in Hrun; by rewrite Hpl in Hrun).
    rewrite (bind_Ok _ _ _ _ _ Hpl), IH by lia. split.
    + intros (i & l & msg & Hl & Hml & -> & Hrun). exists (S i), l, msg.
      split_and!; [done..|f_equal; lia|].
      cbn [take run_lines]. rewrite u64_small by (unfold in_u64; lia).
      by rewrite (bind_Ok _ _ _ _ _ Hpl).
    + intros ([|i] & l & msg & Hl & Hml & -> & Hrun); [injection Hl as <-; congruence|].
      exists i, l, msg. split_and!; [done..|f_equal; lia|].
      cbn [take run_lines] in Hrun. rewrite u64_small in Hrun by (unfold in_u64; lia).
      by rewrite (bind_Ok _ _ _ _ _ Hpl) in Hrun.
Qed.

End errors.

Lemma pieces_bound d s ps : d ≠ [] → pieces d s ps →
  Forall (λ p, (length p ≤ length s)%nat) ps ∧ (length ps ≤ S (length s))%nat.
Proof.
  intros Hd. induction 1 as [s Hn|s i ps Hi Hps [IH1 IH2]].
  { split; [by repeat constructor|simpl; lia]. }
  pose proof (find_sub_split _ _ _ Hi) as Hs. apply (f_equal length) in Hs.
  rewrite !length_app in Hs. destruct d as [|x d]; [done|]. simpl in Hs. split.
  - constructor; [rewrite length_take; lia|]. eapply Forall_impl; [exact IH1|].
    intros p Hp. simpl in *. rewrite length_drop in Hp. lia.
  - simpl in *. rewrite length_drop in *. lia.
Qed.

Lemma drop_last_empty_sub ps : drop_last_empty ps `sublist_of` ps.
Proof.
  induction ps as [|p [|q ps] IH]; [constructor| |].
  - simpl. case_bool_decide; [apply sublist_nil_l|done].
  - by apply sublist_skip.
Qed.

Lemma sublist_elem_of {A} (l k : list A) x : l `sublist_of` k → x ∈ l → x ∈ k.
Proof. induction 1; set_solver. Qed.

Lemma tryParseInt_toInt64 text z : tryParseInt text = Some z ↔ toInt64 text = Value z.
Proof.
  unfold tryParseInt, toInt64, parse_int, Str.makeParseError, makeErrorResult.
  change (trim text default_chars) with (trimView text default_chars).
  destruct (trimView text default_chars) as [|x s]; [split; congruence|].
  destruct (from_chars _ _ _) as [v m| |]; [|split; congruence..].
  destruct (m =? size (x :: s)); simpl; split; congruence.
Qed.

Lemma tryParseBool_numeral text z : numeral (trim text default_chars) z → tryParseBool text = None.
Proof.
  intros (ds & Hne & Hd & Hs). unfold tryParseBool.
  assert (∃ x rest, trim text default_chars = x :: rest ∧ (is_digit x = true ∨ x = minus))
    as (x & rest & -> & Hx).
  { destruct Hs as [[-> _]|[-> _]]; [|eauto]. destruct ds as [|x ds]; [done|].
    apply Forall_cons in Hd as [Hx _]. eauto. }
  assert (∀ c rest', is_lower c = true → ini_toLower (x :: rest) ≠ c :: rest') as Hlow.
  { intros c rest' Hc [= Hxc _]. rewrite <- Hxc in Hc. clear Hxc.
    destruct Hx as [Hx| ->]; [|done]. unfold lowerAscii in Hc.
    assert (is_upper x = false) as Hu by (unfold is_upper, is_digit in *; lia).
    rewrite Hu in Hc. unfold is_lower, is_digit in *. lia. }
  rewrite !bool_decide_false by (by apply Hlow). done.
Qed.

Lemma parseValue_int {D} (strtod : str → D * Z) raw z :
  numeral (trim raw default_chars) z → in_i64 z → parseValue strtod raw = Int z.
Proof.
  intros Hn Hz. unfold parseValue.
  assert (trim (trim raw default_chars) default_chars = trim raw default_chars) as Ht
    by (by apply (numeral_trim _ z)).
  rewrite (tryParseBool_numeral _ z) by by rewrite Ht.
  assert (tryParseInt (trim raw default_chars) = Some z) as ->; [|done].
  apply tryParseInt_toInt64, parse_int_spec. change (trimView ?s ?c) with (trim s c).
  rewrite Ht. split; [done|]. exact Hz.
Qed.

Lemma numeral_value_ok s z : numeral s z → value_ok s = true.
Proof.
  intros (ds & Hne & Hd & Hs). unfold value_ok. rewrite andb_true_iff. split.
  - destruct (exists_last Hne) as (ds' & y & Hy).
    assert (is_digit y = true) as Hyd.
    { rewrite Hy, Forall_app, Forall_singleton in Hd. tauto. }
    assert (last s = Some y) as Hl.
    { destruct Hs as [[-> _]|[-> _]]; rewrite Hy, ?app_comm_cons, last_snoc; done. }
    unfold unpadded. rewrite Hl, andb_true_iff. split; [|by apply in_chars_not, digit_not_blank].
    destruct Hs as [[-> _]|[-> _]]; [|done]. destruct ds as [|x ds]; [done|].
    apply Forall_cons in Hd as [Hx _]. by apply in_chars_not, digit_not_blank.
  - apply one_line_spec. intros Hin.
    assert (newline ∈ ds) as Hin'.
    { destruct Hs as [[-> _]|[-> _]]; [done|]. by apply elem_of_cons in Hin as [Hbad|]. }
    rewrite Forall_forall in Hd. by specialize (Hd _ Hin').
Qed.

(** ** Properties *)

(** C38: reading back a written text: a list of sections with distinct section and key pairs,
    names without dots, white space at the ends or the characters of the syntax, and
    one-line values, written line by line, is read without an error, and [get] of
    [section.key] finds the value of every entry. *)
Theorem ini_roundtrip {D} MAX_ELEMS (strtod : str → D * Z) secs : 0 < MAX_ELEMS < 2 ^ 63 →
  forallb section_good secs = true → NoDup (entries secs).*1 →
  ∃ c, fromString MAX_ELEMS strtod (ini_text secs) = Ok (Value c) ∧
    ∀ sec k v, (sec, k, v) ∈ entries secs →
      get c (sec ++ lit "." ++ k) = Ok (Value (parseValue strtod v)).
Proof.
  intros HM Hg Hnd. destruct (text_pieces _ (text_one_line secs Hg)) as [Hps Hdrop].
  destruct (run_sections MAX_ELEMS strtod secs HM Config_make [] [] 0 Hg Hnd)
    as (c & Hrun & Hst); [constructor..|].
  exists c. split.
  - unfold fromString, ini_text. by rewrite (parse_lines _ _ _ _ Hps), Hdrop, Hrun.
  - intros sec k v Hin. rewrite Forall_forall in Hst. exact (Hst (sec, k, v) Hin).
Qed.

(** C40: [fromString] reports an error exactly when some line is malformed and all lines
    before it were taken: the error has code [ParseError] and carries the number of that
    line, counted from one, and what is wrong with it. *)
Theorem ini_error_exact {D} MAX_ELEMS (strtod : str → D * Z) content ps e :
  pieces [newline] content ps → zlen content < 2 ^ 63 →
  let lines := drop_last_empty ps in
  fromString MAX_ELEMS strtod content = Ok (Err e) ↔
  ∃ i line msg c, lines !! i = Some line ∧ malformed line = Some msg ∧
    e = makeParseError (Z.of_nat i + 1) msg ∧
    run_lines MAX_ELEMS strtod (take i lines) [] 0 Config_make = (Ok None, c).
Proof.
  intros Hps Hlen lines. unfold fromString. rewrite (parse_lines _ _ _ _ Hps). fold lines.
  destruct (pieces_bound [newline] content ps) as [Hb Hn]; [done..|].
  pose proof (drop_last_empty_sub ps) as Hsub. fold lines in Hsub.
  assert (Forall (λ l, zlen l < 2 ^ 64) lines) as Hl.
  { rewrite Forall_forall in Hb |- *. intros p Hp.
    specialize (Hb p (sublist_elem_of _ _ _ Hsub Hp)). unfold zlen in *. lia. }
  assert (0 + zlen lines < 2 ^ 64) as Hc.
  { apply sublist_length in Hsub. unfold zlen in *. lia. }
  pose proof (λ c', run_lines_error MAX_ELEMS strtod lines Hl [] 0 Config_make e c' ltac:(lia) Hc) as H.
  split.
  - destruct (run_lines _ _ _ _ _ _) as [[[e'|]| | |] c'] eqn:E; try done. intros [= ->].
    destruct (H c') as [H' _]. destruct (H' eq_refl) as (i & line & msg & ? & ? & ? & ?).
    by exists i, line, msg, c'.
  - intros (i & line & msg & c & Hi & Hm & He & Hr).
    destruct (H c) as [_ H']. rewrite H'; [done|]. by exists i, line, msg.
Qed.

(** Every 64-bit integer written in decimal under a section and a key is read back by
    [getInt]. *)
Lemma ini_int_roundtrip {D} MAX_ELEMS (strtod : str → D * Z) sec k z :
  0 < MAX_ELEMS < 2 ^ 63 → section_ok sec = true → key_ok k = true → in_i64 z →
  ∃ c, fromString MAX_ELEMS strtod (ini_text [(sec, [(k, to_string z)])]) = Ok (Value c) ∧
    getInt c (sec ++ lit "." ++ k) = Ok (Value z).
Proof.
  intros HM Hs Hk Hz. pose proof (to_string_numeral z) as Hn.
  assert (trim (to_string z) default_chars = to_string z) as Ht by (by apply (numeral_trim _ z)).
  assert (value_ok (to_string z) = true) as Hv by by apply (numeral_value_ok _ z).
  destruct (run_sections MAX_ELEMS strtod [(sec, [(k, to_string z)])] HM Config_make [] [] 0)
    as (c & Hrun & Hst); [|by apply NoDup_singleton|constructor..|].
  { cbn [forallb]. unfold section_good. cbn [fst snd forallb]. by rewrite Hs, Hk, Hv. }
  destruct (text_pieces _ (text_one_line [(sec, [(k, to_string z)])]
    ltac:(cbn [forallb]; unfold section_good; cbn [fst snd forallb]; by rewrite Hs, Hk, Hv)))
    as [Hps Hdrop].
  exists c. split.
  - unfold fromString, ini_text. by rewrite (parse_lines _ _ _ _ Hps), Hdrop, Hrun.
  - apply Forall_inv in Hst. unfold stored, entry_path in Hst. cbn [fst snd] in Hst.
    unfold getInt, get_as. rewrite Hst. cbn [res_bind].
    rewrite (parseValue_int strtod _ z); [done|by rewrite Ht|done].
Qed.

(** A key with the index 18446744073709551615 makes reading the text undefined, for
    every [strtod] and every vector bound: the size to grow to wraps around to zero and the
    element assigned is outside the array. *)
Lemma ini_index_undefined {D} MAX_ELEMS (strtod : str → D * Z) : 0 < MAX_ELEMS →
  fromString MAX_ELEMS strtod (lit "[hosts]" ++ [newline] ++ lit "18446744073709551615 = 1")
  = Undef.
Proof.
  intros HM. destruct MAX_ELEMS as [|p|p]; [done| |done]. lazy. reflexivity.
Qed.

(** ** Instances *)

(** A [strtod] that reads no number. *)
Definition no_double (s : str) : Z * Z := (0, 0).

Definition sample_secs : list (str * list (str * str)) :=
  [(lit "net", [(lit "host", lit "example.org"); (lit "port", lit "8080")]);
   (lit "log", [(lit "host", lit "a = b"); (lit "on", lit "Yes")])].

Lemma sample_good : forallb section_good sample_secs = true.
Proof. vm_compute. reflexivity. Qed.

Lemma sample_distinct : NoDup (entries sample_secs).*1.
Proof. apply (bool_decide_unpack (NoDup (entries sample_secs).*1)). vm_compute. exact I. Qed.

Lemma ini_roundtrip_witness : ∃ c,
  fromString (2 ^ 58) no_double (ini_text sample_secs) = Ok (Value c) ∧
  get c (lit "net" ++ lit "." ++ lit "port") = Ok (Value (Int 8080)).
Proof.
  destruct (ini_roundtrip (2 ^ 58) no_double sample_secs) as (c & Hc & Hg);
    [lia|apply sample_good|apply sample_distinct|].
  exists c. split; [exact Hc|]. rewrite (Hg _ _ (lit "8080")); [reflexivity|]. right. left.
Defined.

Definition bad_text : str := lit "a = 1" ++ [newline] ++ lit "; fine" ++ [newline] ++ lit "b".

Lemma ini_error_exact_witness : fromString (2 ^ 58) no_double bad_text
  = Ok (Err (makeParseError 3 (lit "missing '='"))).
Proof.
  destruct (splitView_spec bad_text [newline] true) as (ps & Hps & Hs); [done|].
  vm_compute in Hs. injection Hs as <-.
  apply (ini_error_exact (2 ^ 58) no_double bad_text _ (makeParseError 3 (lit "missing '='")) Hps);
    [done|].
  exists 2%nat, (lit "b"), (lit "missing '='"). eexists. split_and!; vm_compute; reflexivity.
Defined.
