(* ===== verification/BlockingQueue.v ===== *)
(** * [dbase::sync::BlockingQueue] (code/include/dbase/sync/blocking_queue.h)

    A bounded queue shared by threads.  What a thread does while it holds the mutex is one
    atomic step on the queue; the two condition variables are the sets of threads blocked on
    them.  A blocked thread wakes by a notification, spuriously, or in [popFor] when its time
    is up, and then takes the mutex again and tests the predicate again.  [notify_one] wakes
    any one blocked thread, if there is one.  [pushed] and [popped] are the history. *)

From stdpp Require Import base list relations.
From Stdlib Require Import ZArith Lia.
From S2P Require Import Prelude.

Local Open Scope Z_scope.

Section queue.
Context {T : Type}.

(** ** The queue *)

Record BlockingQueue : Type := mkQueue {
  m_capacity : Z;
  m_queue : list T;
  m_stopped : bool;
}.

Definition BlockingQueue_make (capacity : Z) : BlockingQueue := mkQueue capacity [] false.

Definition set_queue (l : list T) : M BlockingQueue () :=
  modify (λ q, mkQueue (m_capacity q) l (m_stopped q)).

Definition stopped (q : BlockingQueue) : bool := m_stopped q.
Definition empty (q : BlockingQueue) : bool := match m_queue q with [] => true | _ => false end.
Definition size (q : BlockingQueue) : Z := zlen (m_queue q).
Definition capacity (q : BlockingQueue) : Z := m_capacity q.

(** The predicates of the two waits *)
Definition pushable (q : BlockingQueue) : bool :=
  m_stopped q || (m_capacity q =? 0) || (size q <? m_capacity q).
Definition poppable (q : BlockingQueue) : bool := m_stopped q || negb (empty q).

(** [emplace] after [waitUntilPushable], until it unlocks *)
Definition emplace (value : T) : M BlockingQueue () :=
  let! q := get in
  if m_stopped q then throw runtime_error
  else set_queue (m_queue q ++ [value]).

(** [pop] and [popFor] after the wait, until they unlock *)
Definition pop : M BlockingQueue T :=
  let! q := get in
  match m_queue q with
  | [] => throw runtime_error
  | value :: l => set_queue l;;; ret value
  end.

Definition tryEmplaceImpl (value : T) : M BlockingQueue bool :=
  let! q := get in
  if m_stopped q then ret false
  else if negb (m_capacity q =? 0) && (m_capacity q <=? size q) then ret false
  else set_queue (m_queue q ++ [value]);;; ret true.

Definition tryPop : M BlockingQueue (option T) :=
  let! q := get in
  match m_queue q with
  | [] => ret None
  | value :: l => set_queue l;;; ret (Some value)
  end.

(** Whether it notifies *)
Definition stop : M BlockingQueue bool :=
  let! q := get in
  if m_stopped q then ret false
  else put (mkQueue (m_capacity q) (m_queue q) true);;; ret true.

(** ** Threads *)

Inductive pc : Type :=
  | Idle
  | Pushing (value : T)     (* in [emplace], to lock and test [pushable] *)
  | PushWait (value : T)    (* blocked on [m_notFull] *)
  | PushNotify              (* unlocked, to notify [m_notEmpty] *)
  | Popping (timed : bool)  (* in [pop] or [popFor], to lock and test [poppable] *)
  | PopWait (timed : bool)  (* blocked on [m_notEmpty] *)
  | PopExpired              (* the time of [popFor] is up, to lock and test once more *)
  | PopNotify (value : T).  (* unlocked, to notify [m_notFull] *)

Definition waits_empty (p : pc) : bool := match p with PopWait _ => true | _ => false end.
Definition waits_full (p : pc) : bool := match p with PushWait _ => true | _ => false end.
Definition wake (p : pc) : pc :=
  match p with
  | PushWait v => Pushing v
  | PopWait b => Popping b
  | p => p
  end.

Inductive notify_one (waits : pc → bool) (ts : list pc) : list pc → Prop :=
  | notify_some t p : ts !! t = Some p → waits p = true → notify_one waits ts (<[t := wake p]> ts)
  | notify_none : Forall (λ p, waits p = false) ts → notify_one waits ts ts.

Record sys : Type := mkSys {
  queue : BlockingQueue;
  threads : list pc;
  pushed : list T;
  popped : list T;
}.

(** A thread goes on by itself with the call it is in. *)
Inductive internal : sys → sys → Prop :=
  | push_block q ts u o t v : ts !! t = Some (Pushing v) → pushable q = false →
      internal (mkSys q ts u o) (mkSys q (<[t := PushWait v]> ts) u o)
  | push_run q q' ts u o t v : ts !! t = Some (Pushing v) → pushable q = true →
      emplace v q = (Ok tt, q') →
      internal (mkSys q ts u o) (mkSys q' (<[t := PushNotify]> ts) (u ++ [v]) o)
  | push_throw q q' ts u o t v e : ts !! t = Some (Pushing v) → pushable q = true →
      emplace v q = (Throw e, q') →
      internal (mkSys q ts u o) (mkSys q' (<[t := Idle]> ts) u o)
  | push_notify q ts ts' u o t : ts !! t = Some PushNotify → notify_one waits_empty ts ts' →
      internal (mkSys q ts u o) (mkSys q (<[t := Idle]> ts') u o)
  | pop_block q ts u o t b : ts !! t = Some (Popping b) → poppable q = false →
      internal (mkSys q ts u o) (mkSys q (<[t := PopWait b]> ts) u o)
  | pop_run q q' ts u o t p v : ts !! t = Some p → p ∈ [Popping false; Popping true; PopExpired] →
      poppable q = true → pop q = (Ok v, q') →
      internal (mkSys q ts u o) (mkSys q' (<[t := PopNotify v]> ts) u (o ++ [v]))
  | pop_throw q q' ts u o t p e : ts !! t = Some p → p ∈ [Popping false; Popping true; PopExpired] →
      poppable q = true → pop q = (Throw e, q') →
      internal (mkSys q ts u o) (mkSys q' (<[t := Idle]> ts) u o)
  | pop_expire q ts u o t : ts !! t = Some PopExpired → poppable q = false →
      internal (mkSys q ts u o) (mkSys q (<[t := Idle]> ts) u o)
  | pop_notify q ts ts' u o t v : ts !! t = Some (PopNotify v) → notify_one waits_full ts ts' →
      internal (mkSys q ts u o) (mkSys q (<[t := Idle]> ts') u o).

(** The program calls an operation, or the clock or the system wakes a blocked thread. *)
Inductive external : sys → sys → Prop :=
  | call_push q ts u o t v : ts !! t = Some Idle →
      external (mkSys q ts u o) (mkSys q (<[t := Pushing v]> ts) u o)
  | call_pop q ts u o t b : ts !! t = Some Idle →
      external (mkSys q ts u o) (mkSys q (<[t := Popping b]> ts) u o)
  | call_try_push q q' ts ts' u o t v : ts !! t = Some Idle →
      tryEmplaceImpl v q = (Ok true, q') → notify_one waits_empty ts ts' →
      external (mkSys q ts u o) (mkSys q' ts' (u ++ [v]) o)
  | call_try_push_no q q' ts u o t v : ts !! t = Some Idle →
      tryEmplaceImpl v q = (Ok false, q') →
      external (mkSys q ts u o) (mkSys q' ts u o)
  | call_try_pop q q' ts u o t v : ts !! t = Some Idle → tryPop q = (Ok (Some v), q') →
      external (mkSys q ts u o) (mkSys q' (<[t := PopNotify v]> ts) u (o ++ [v]))
  | call_try_pop_no q q' ts u o t : ts !! t = Some Idle → tryPop q = (Ok None, q') →
      external (mkSys q ts u o) (mkSys q' ts u o)
  | call_stop q q' ts u o t b : ts !! t = Some Idle → stop q = (Ok b, q') →
      external (mkSys q ts u o) (mkSys q' (if b : bool then wake <$> ts else ts) u o)
  | spurious q ts u o t p : ts !! t = Some p →
      external (mkSys q ts u o) (mkSys q (<[t := wake p]> ts) u o)
  | time_up q ts u o t : ts !! t = Some (PopWait true) →
      external (mkSys q ts u o) (mkSys q (<[t := PopExpired]> ts) u o).

Definition step (s s' : sys) : Prop := internal s s' ∨ external s s'.

Definition init (capacity : Z) (n : nat) : sys :=
  mkSys (BlockingQueue_make capacity) (replicate n Idle) [] [].

Definition reachable (capacity : Z) (n : nat) (s : sys) : Prop := rtc step (init capacity n) s.

End queue.
Arguments BlockingQueue : clear implicits.
Arguments pc : clear implicits.
Arguments sys : clear implicits.

(** ** Counting threads *)

Section tally.
Context {T : Type}.
Implicit Types (ts : list (pc T)) (p : pc T).

(** Blocked, awake and notifying threads of either condition variable *)
Definition blocked_pop (p : pc T) : nat := match p with PopWait _ => 1 | _ => 0 end%nat.
Definition awake_pop (p : pc T) : nat := match p with Popping _ | PopExpired => 1 | _ => 0 end%nat.
Definition notes_pop (p : pc T) : nat := match p with PushNotify => 1 | _ => 0 end%nat.
Definition blocked_push (p : pc T) : nat := match p with PushWait _ => 1 | _ => 0 end%nat.
Definition awake_push (p : pc T) : nat := match p with Pushing _ => 1 | _ => 0 end%nat.
Definition notes_push (p : pc T) : nat := match p with PopNotify _ => 1 | _ => 0 end%nat.

(** The effect of a notification on the counts. *)
Lemma notify_empty_counts ts ts' : notify_one waits_empty ts ts' →
  ((tally blocked_pop ts = 0 ∧ ts' = ts) ∨
   (tally blocked_pop ts = S (tally blocked_pop ts') ∧
    tally awake_pop ts' = S (tally awake_pop ts) ∧ tally notes_pop ts' = tally notes_pop ts ∧
    tally blocked_push ts' = tally blocked_push ts ∧ tally awake_push ts' = tally awake_push ts ∧
    tally notes_push ts' = tally notes_push ts))%nat.
Proof.
  intros [t p Hp Hw|Hn].
  - right. destruct p as [| | | | |b| |]; try done.
    pose proof (λ f, tally_insert f ts t _ (Popping b) Hp) as H.
    pose proof (H blocked_pop). pose proof (H awake_pop). pose proof (H notes_pop).
    pose proof (H blocked_push). pose proof (H awake_push). pose proof (H notes_push).
    simpl in *. lia.
  - left. split; [|done]. apply tally_zero. eapply Forall_impl; [exact Hn|]. by intros [].
Qed.

Lemma notify_full_counts ts ts' : notify_one waits_full ts ts' →
  ((tally blocked_push ts = 0 ∧ ts' = ts) ∨
   (tally blocked_push ts = S (tally blocked_push ts') ∧
    tally awake_push ts' = S (tally awake_push ts) ∧ tally notes_push ts' = tally notes_push ts ∧
    tally blocked_pop ts' = tally blocked_pop ts ∧ tally awake_pop ts' = tally awake_pop ts ∧
    tally notes_pop ts' = tally notes_pop ts))%nat.
Proof.
  intros [t p Hp Hw|Hn].
  - right. destruct p as [| |v| | | | |]; try done.
    pose proof (λ f, tally_insert f ts t _ (Pushing v) Hp) as H.
    pose proof (H blocked_pop). pose proof (H awake_pop). pose proof (H notes_pop).
    pose proof (H blocked_push). pose proof (H awake_push). pose proof (H notes_push).
    simpl in *. lia.
  - left. split; [|done]. apply tally_zero. eapply Forall_impl; [exact Hn|]. by intros [].
Qed.

(** The notifier itself is not woken. *)
Lemma notify_lookup waits ts ts' t p : notify_one waits ts ts' → ts !! t = Some p →
  waits p = false → ts' !! t = Some p.
Proof.
  intros [t' p' Hp' Hw|] Ht Hf; [|done]. rewrite list_lookup_insert_ne; [done|congruence].
Qed.

Lemma wake_counts ts : tally blocked_pop (wake <$> ts) = 0%nat ∧ tally blocked_push (wake <$> ts) = 0%nat.
Proof. induction ts as [|[] ts IH]; simpl; tauto. Qed.

(** ** The invariant *)

Record inv (s : sys T) : Prop := {
  inv_fifo : pushed s = popped s ++ m_queue (queue s);
  inv_capacity : m_capacity (queue s) ≠ 0 → size (queue s) ≤ m_capacity (queue s);
  inv_stopped : m_stopped (queue s) = true →
    tally blocked_pop (threads s) = 0%nat ∧ tally blocked_push (threads s) = 0%nat;
  (** every element is about to be taken or announced while consumers are blocked *)
  inv_notEmpty : (0 < tally blocked_pop (threads s))%nat →
    (length (m_queue (queue s)) ≤ tally notes_pop (threads s) + tally awake_pop (threads s))%nat;
  (** every free place is about to be filled or announced while producers are blocked *)
  inv_notFull : (0 < tally blocked_push (threads s))%nat →
    m_capacity (queue s) - size (queue s)
      ≤ Z.of_nat (tally notes_push (threads s) + tally awake_push (threads s));
  inv_unbounded : m_capacity (queue s) = 0 → tally blocked_push (threads s) = 0%nat;
}.

(** What the atomic sections do *)
Lemma emplace_cases (v : T) q r q' : emplace v q = (r, q') →
  (m_stopped q = true ∧ r = Throw runtime_error ∧ q' = q) ∨
  (m_stopped q = false ∧ r = Ok tt ∧ q' = mkQueue (m_capacity q) (m_queue q ++ [v]) false).
Proof.
  unfold emplace. run. destruct (m_stopped q) eqn:E; intros [= <- <-]; [by left|].
  right. by rewrite E.
Qed.

Lemma pop_cases (q : BlockingQueue T) r q' : pop q = (r, q') →
  (m_queue q = [] ∧ r = Throw runtime_error ∧ q' = q) ∨
  (∃ v l, m_queue q = v :: l ∧ r = Ok v ∧ q' = mkQueue (m_capacity q) l (m_stopped q)).
Proof.
  unfold pop. run. destruct (m_queue q) as [|v l] eqn:E; intros [= <- <-]; [by left|].
  right. by exists v, l.
Qed.

Lemma tryEmplace_cases (v : T) q r q' : tryEmplaceImpl v q = (r, q') →
  (r = Ok false ∧ q' = q) ∨
  (m_stopped q = false ∧ (m_capacity q ≠ 0 → size q < m_capacity q) ∧ r = Ok true ∧
   q' = mkQueue (m_capacity q) (m_queue q ++ [v]) false).
Proof.
  unfold tryEmplaceImpl. run. destruct (m_stopped q) eqn:E; [intros [= <- <-]; by left|].
  destruct (negb (m_capacity q =? 0) && (m_capacity q <=? size q)) eqn:Ec;
    intros [= <- <-]; [by left|]. right. rewrite E. split_and!; [done|lia|done..].
Qed.

Lemma tryPop_cases (q : BlockingQueue T) r q' : tryPop q = (r, q') →
  (m_queue q = [] ∧ r = Ok None ∧ q' = q) ∨
  (∃ v l, m_queue q = v :: l ∧ r = Ok (Some v) ∧ q' = mkQueue (m_capacity q) l (m_stopped q)).
Proof.
  unfold tryPop. run. destruct (m_queue q) as [|v l] eqn:E; intros [= <- <-]; [by left|].
  right. by exists v, l.
Qed.

Lemma stop_cases (q : BlockingQueue T) r q' : stop q = (r, q') →
  (m_stopped q = true ∧ r = Ok false ∧ q' = q) ∨
  (m_stopped q = false ∧ r = Ok true ∧ q' = mkQueue (m_capacity q) (m_queue q) true).
Proof.
  unfold stop. run. destruct (m_stopped q) eqn:E; intros [= <- <-]; [by left|by right].
Qed.

End tally.

(** The counts after thread [t] moves from [p] to [p']. *)
Ltac move_counts Ht p' :=
  let H := fresh in
  pose proof (λ f, tally_insert f _ _ _ p' Ht) as H;
  pose proof (H blocked_pop); pose proof (H awake_pop); pose proof (H notes_pop);
  pose proof (H blocked_push); pose proof (H awake_push); pose proof (H notes_push);
  clear H.

(** Linear arithmetic on the counts and on the length of the queue. *)
Ltac count_solve :=
  unfold size, zlen, pushable, poppable, empty in *;
  simpl in *; rewrite ?length_app in *; simpl in *; try lia; try done;
  try match goal with
  | Hs : m_stopped ?q = true → _ |- m_stopped ?q = true → _ =>
      let Hst := fresh in intros Hst; destruct (Hs Hst); lia
  end.

Section invariant.
Context {T : Type}.
Implicit Types (s : sys T).

Lemma inv_init capacity n : 0 ≤ capacity → inv (init (T:=T) capacity n).
Proof.
  intros Hc. assert (∀ f : pc T → nat, f Idle = 0%nat → tally f (replicate n Idle) = 0%nat) as H0.
  { intros f Hf. apply tally_zero. by apply Forall_replicate. }
  constructor; simpl; [done|intros; unfold size, zlen; simpl; lia|done|rewrite H0 by done; lia..].
Qed.

(** The two parts of the invariant the operations change: the queue and the counts. *)
Lemma inv_intro q ts u o : u = o ++ m_queue q →
  (m_capacity q ≠ 0 → size q ≤ m_capacity q) →
  (m_stopped q = true → tally blocked_pop ts = 0%nat ∧ tally blocked_push ts = 0%nat) →
  ((0 < tally blocked_pop ts)%nat →
    (length (m_queue q) ≤ tally notes_pop ts + tally awake_pop ts)%nat) →
  ((0 < tally blocked_push ts)%nat →
    m_capacity q - size q ≤ Z.of_nat (tally notes_push ts + tally awake_push ts)) →
  (m_capacity q = 0 → tally blocked_push ts = 0%nat) →
  inv (mkSys (T:=T) q ts u o).
Proof. by constructor. Qed.

Lemma poppable_false (q : BlockingQueue T) : poppable q = false → m_stopped q = false ∧ m_queue q = [].
Proof. unfold poppable, empty. destruct (m_stopped q), (m_queue q); naive_solver. Qed.

Lemma pushable_false (q : BlockingQueue T) : pushable q = false →
  m_stopped q = false ∧ m_capacity q ≠ 0 ∧ m_capacity q ≤ size q.
Proof. unfold pushable. destruct (m_stopped q); simpl; [done|]. lia. Qed.

Lemma pushable_true (q : BlockingQueue T) : pushable q = true → m_stopped q = false →
  m_capacity q ≠ 0 → size q < m_capacity q.
Proof. unfold pushable. intros H Hs. rewrite Hs in H. simpl in H. lia. Qed.

Lemma inv_internal s s' : internal s s' → inv s → inv s'.
Proof.
  intros [q ts u o t v Ht Hq|q q' ts u o t v Ht Hq He|q q' ts u o t v e Ht Hq He
    |q ts ts' u o t Ht Hn|q ts u o t b Ht Hq|q q' ts u o t p v Ht Hp Hq He
    |q q' ts u o t p e Ht Hp Hq He|q ts u o t Ht Hq|q ts ts' u o t v Ht Hn]
    [Hf Hc Hs HE HF HU]; simpl in *.
  - apply pushable_false in Hq as (Hst & Hc0 & Hfull).
    move_counts Ht (PushWait v). apply inv_intro; try rewrite Hst; count_solve.
  - apply emplace_cases in He as [(_ & ? & _)|(Hst & _ & ->)]; [done|].
    pose proof (pushable_true q Hq Hst). move_counts Ht (PushNotify (T:=T)).
    apply inv_intro; simpl; [by rewrite Hf, app_assoc|count_solve..].
  - apply emplace_cases in He as [(Hst & _ & ->)|(_ & ? & _)]; [|done].
    destruct (Hs Hst). move_counts Ht (Idle (T:=T)). apply inv_intro; count_solve.
  - move_counts (notify_lookup _ _ _ _ _ Hn Ht eq_refl) (Idle (T:=T)).
    apply notify_empty_counts in Hn as [[Hz ->]|Hn]; apply inv_intro; count_solve.
  - apply poppable_false in Hq as [Hst Hq]. move_counts Ht (PopWait (T:=T) b).
    apply inv_intro; try rewrite Hst; count_solve. rewrite Hq. simpl. lia.
  - apply pop_cases in He as [(_ & ? & _)|(v' & l & Hl & [= <-] & ->)]; [done|].
    assert (length (m_queue q) = S (length l)) as Hlen by (by rewrite Hl).
    rewrite Hl in Hf. move_counts Ht (PopNotify v).
    rewrite !elem_of_cons, elem_of_nil in Hp.
    destruct Hp as [->|[->|[->|[]]]]; apply inv_intro; simpl; try (by rewrite Hf, <- app_assoc);
      count_solve.
  - apply pop_cases in He as [(Hl & _ & ->)|(v' & l & _ & ? & _)]; [|done].
    move_counts Ht (Idle (T:=T)). rewrite !elem_of_cons, elem_of_nil in Hp.
    assert (m_stopped q = true) as Hst.
    { unfold poppable, empty in Hq. rewrite Hl in Hq. by destruct (m_stopped q). }
    destruct (Hs Hst). destruct Hp as [->|[->|[->|[]]]]; apply inv_intro; count_solve.
  - apply poppable_false in Hq as [Hst Hq]. move_counts Ht (Idle (T:=T)).
    apply inv_intro; try rewrite Hst; count_solve. rewrite Hq. simpl. lia.
  - move_counts (notify_lookup _ _ _ _ _ Hn Ht eq_refl) (Idle (T:=T)).
    apply notify_full_counts in Hn as [[Hz ->]|Hn]; apply inv_intro; count_solve.
Qed.

Lemma inv_external s s' : external s s' → inv s → inv s'.
Proof.
  intros [q ts u o t v Ht|q ts u o t b Ht|q q' ts ts' u o t v Ht He Hn|q q' ts u o t v Ht He
    |q q' ts u o t v Ht He|q q' ts u o t Ht He|q q' ts u o t b Ht He|q ts u o t p Ht|q ts u o t Ht]
    [Hf Hc Hs HE HF HU]; simpl in *.
  - move_counts Ht (Pushing v). apply inv_intro; count_solve.
  - move_counts Ht (Popping (T:=T) b). apply inv_intro; count_solve.
  - apply tryEmplace_cases in He as [[? _]|(Hst & Hroom & _ & ->)]; [done|].
    apply notify_empty_counts in Hn as [[Hz ->]|Hn]; apply inv_intro; simpl;
      try (by rewrite Hf, app_assoc); count_solve.
  - by apply tryEmplace_cases in He as [[_ ->]|(_ & _ & ? & _)].
  - apply tryPop_cases in He as [(_ & ? & _)|(v' & l & Hl & [= <-] & ->)]; [done|].
    assert (length (m_queue q) = S (length l)) as Hlen by (by rewrite Hl).
    rewrite Hl in Hf. move_counts Ht (PopNotify v).
    apply inv_intro; simpl; try (by rewrite Hf, <- app_assoc); count_solve.
  - by apply tryPop_cases in He as [(_ & _ & ->)|(v' & l & _ & ? & _)].
  - apply stop_cases in He as [(_ & [= ->] & ->)|(Hst & [= ->] & ->)]; [done|].
    destruct (wake_counts ts) as [H1 H2]. apply inv_intro; simpl; rewrite ?H1, ?H2; try done; lia.
  - move_counts Ht (wake p). apply inv_intro; try done; destruct p; count_solve.
  - move_counts Ht (PopExpired (T:=T)). apply inv_intro; count_solve.
Qed.

Lemma inv_reachable capacity n s : 0 ≤ capacity → reachable capacity n s → inv s.
Proof.
  intros Hc. unfold reachable. intros Hr.
  assert (∀ s1 s2, rtc step s1 s2 → inv s1 → inv s2) as H.
  { induction 1 as [|x y z [Hi|He] _ IH]; [done|..]; intros Hx; apply IH.
    - by eapply inv_internal.
    - by eapply inv_external. }
  eapply H; [exact Hr|]. by apply inv_init.
Qed.

End invariant.

(** ** Progress *)

Section progress.
Context {T : Type}.
Implicit Types (s : sys T) (p : pc T).

(** Nothing a thread does by itself goes up in this measure. *)
Definition weight (p : pc T) : nat :=
  match p with
  | Idle => 0
  | PushWait _ | PushNotify | PopWait _ | PopNotify _ => 2
  | Pushing _ | Popping _ | PopExpired => 3
  end.

Lemma notify_weight waits (ts ts' : list (pc T)) : notify_one waits ts ts' →
  (tally weight ts' ≤ S (tally weight ts))%nat.
Proof.
  intros [t p Hp _|_]; [|lia]. pose proof (tally_insert weight _ _ _ (wake p) Hp).
  destruct p; simpl in *; lia.
Qed.

Lemma internal_weight s s' : internal s s' →
  (tally weight (threads s') < tally weight (threads s))%nat.
Proof.
  intros [q ts u o t v Ht Hq|q q' ts u o t v Ht Hq He|q q' ts u o t v e Ht Hq He
    |q ts ts' u o t Ht Hn|q ts u o t b Ht Hq|q q' ts u o t p v Ht Hp Hq He
    |q q' ts u o t p e Ht Hp Hq He|q ts u o t Ht Hq|q ts ts' u o t v Ht Hn]; simpl.
  all: try (rewrite !elem_of_cons, elem_of_nil in Hp; destruct Hp as [->|[->|[->|[]]]]).
  all: try (pose proof (notify_weight _ _ _ Hn);
    pose proof (tally_insert weight _ _ _ Idle (notify_lookup _ _ _ _ _ Hn Ht eq_refl));
    simpl in *; lia).
  all: match goal with
    | Ht : _ !! ?t = Some _ |- (tally weight (<[?t := ?p']> _) < _)%nat =>
        pose proof (tally_insert weight _ _ _ p' Ht); simpl in *; lia
    end.
Qed.

Lemma weight_bound (ts : list (pc T)) : (tally weight ts ≤ 3 * length ts)%nat.
Proof. apply tally_bound. intros []; simpl; lia. Qed.

Lemma internal_nsteps k s s' : nsteps internal k s s' →
  (k + tally weight (threads s') ≤ tally weight (threads s))%nat.
Proof.
  induction 1 as [|k x y z H _ IH]; [lia|]. apply internal_weight in H. lia.
Qed.

Lemma notify_exists waits (ts : list (pc T)) : ∃ ts', notify_one waits ts ts'.
Proof.
  destruct (decide (Forall (λ p, waits p = false) ts)) as [Hn|Hn].
  { exists ts. by apply notify_none. }
  apply not_Forall_Exists in Hn; [|apply _]. apply Exists_exists in Hn as (p & Hin & Hp).
  apply list_elem_of_lookup in Hin as [t Ht]. eexists. apply (notify_some _ _ t p Ht).
  simpl in Hp. by destruct (waits p).
Qed.

(** A thread that is neither idle nor blocked can go on. *)
Lemma internal_enabled q ts u o t p : ts !! t = Some p →
  p = Idle ∨ blocked_pop p = 1%nat ∨ blocked_push p = 1%nat ∨
  ∃ s', internal (mkSys (T:=T) q ts u o) s'.
Proof.
  intros Ht. destruct p as [|v|v| |b|b| |v]; try tauto; right; right; right.
  - destruct (pushable q) eqn:Hq; [|eexists; by eapply push_block].
    destruct (emplace v q) as [r q'] eqn:He.
    pose proof (emplace_cases _ _ _ _ He) as [(_ & -> & _)|(_ & -> & _)]; eexists;
      [by eapply push_throw|by eapply push_run].
  - destruct (notify_exists waits_empty ts) as [ts' Hn]. eexists. by eapply push_notify.
  - destruct (poppable q) eqn:Hq; [|eexists; by eapply pop_block].
    destruct (pop q) as [r q'] eqn:He. assert (Popping b ∈ [Popping false; Popping true; PopExpired (T:=T)])
      by (rewrite !elem_of_cons; destruct b; tauto).
    pose proof (pop_cases _ _ _ He) as [(_ & -> & _)|(v & l & _ & -> & _)]; eexists;
      [by eapply pop_throw|by eapply pop_run].
  - destruct (poppable q) eqn:Hq; [|eexists; by eapply pop_expire].
    destruct (pop q) as [r q'] eqn:He. assert (PopExpired ∈ [Popping false; Popping true; PopExpired (T:=T)])
      by (rewrite !elem_of_cons; tauto).
    pose proof (pop_cases _ _ _ He) as [(_ & -> & _)|(v & l & _ & -> & _)]; eexists;
      [by eapply pop_throw|by eapply pop_run].
  - destruct (notify_exists waits_full ts) as [ts' Hn]. eexists. by eapply pop_notify.
Qed.

Lemma quiet_counts q ts u o : (∀ s', ¬ internal (mkSys (T:=T) q ts u o) s') →
  tally awake_pop ts = 0%nat ∧ tally notes_pop ts = 0%nat ∧
  tally awake_push ts = 0%nat ∧ tally notes_push ts = 0%nat.
Proof.
  intros Hq. assert (∀ p, p ∈ ts → p = Idle ∨ blocked_pop p = 1%nat ∨ blocked_push p = 1%nat) as H.
  { intros p Hp. apply list_elem_of_lookup in Hp as [t Ht].
    destruct (internal_enabled q ts u o t p Ht) as [?|[?|[?|[s' Hs']]]]; [auto..|].
    by destruct (Hq s'). }
  split_and!; apply tally_zero, Forall_forall; intros p Hp;
    (destruct (H p Hp) as [->|[Hb|Hb]]; [done|by destruct p..]).
Qed.

End progress.

(** ** Properties *)

(** In every interleaving of any number of threads the values leave the queue in the
    order they entered it, none lost, duplicated or invented; a bounded queue never holds
    more than its capacity; and once the queue is stopped nothing enters it any more. *)
Lemma queue_fifo {T} capacity n (s : sys T) : 0 ≤ capacity → reachable capacity n s →
  pushed s = popped s ++ m_queue (queue s) ∧
  (m_capacity (queue s) ≠ 0 → size (queue s) ≤ m_capacity (queue s)) ∧
  ∀ s', step s s' → m_stopped (queue s) = true →
    pushed s' = pushed s ∧ m_stopped (queue s') = true.
Proof.
  intros Hc Hr. destruct (inv_reachable capacity n s Hc Hr) as [Hf Hcap _ _ _ _].
  split_and!; [done..|]. intros s' [Hi|He] Hs; [destruct Hi|destruct He]; simpl in *.
  all: repeat match goal with
    | H : emplace _ _ = _ |- _ => apply emplace_cases in H
    | H : pop _ = _ |- _ => apply pop_cases in H
    | H : tryEmplaceImpl _ _ = _ |- _ => apply tryEmplace_cases in H
    | H : tryPop _ = _ |- _ => apply tryPop_cases in H
    | H : stop _ = _ |- _ => apply stop_cases in H
    | H : _ ∨ _ |- _ => destruct H
    | H : _ ∧ _ |- _ => destruct H
    | H : ∃ _, _ |- _ => destruct H
    end; simplify_eq; simpl; split; congruence.
Qed.

(** C13: no wake-up is lost.  From every reachable state the threads come to rest by
    themselves after at most three steps each, whatever the schedule; and at rest a
    thread is blocked in [pop] or [popFor] only if the queue is empty and not stopped, and
    in [push] only if it is bounded, full and not stopped. *)
Theorem queue_no_lost_wakeup {T} capacity n (s : sys T) : 0 ≤ capacity → reachable capacity n s →
  (∀ k s', nsteps internal k s s' → (k ≤ 3 * length (threads s))%nat) ∧
  ((∀ s', ¬ internal s s') → ∀ t p, threads s !! t = Some p →
    match p with
    | Idle => True
    | PopWait _ => m_queue (queue s) = [] ∧ m_stopped (queue s) = false
    | PushWait _ => m_capacity (queue s) ≠ 0 ∧ size (queue s) = m_capacity (queue s) ∧
                    m_stopped (queue s) = false
    | _ => False
    end).
Proof.
  intros Hc Hr. destruct (inv_reachable capacity n s Hc Hr) as [Hf Hcap Hs HE HF HU].
  split.
  - intros k s' Hk. apply internal_nsteps in Hk. pose proof (weight_bound (threads s)). lia.
  - destruct s as [q ts u o]. simpl in *. intros Hq t p Ht.
    destruct (quiet_counts q ts u o Hq) as (H1 & H2 & H3 & H4).
    rewrite H1, H2, H3, H4 in *.
    destruct (internal_enabled q ts u o t p Ht) as [->|[Hb|[Hb|[s' Hs']]]];
      [done|..|by destruct (Hq s')].
    + destruct p; try done. pose proof (tally_pos blocked_pop _ _ _ Ht). simpl in *.
      split; [apply nil_length_inv; lia|]. destruct (m_stopped q); [|done]. destruct Hs; [done|lia].
    + destruct p; try done. pose proof (tally_pos blocked_push _ _ _ Ht). simpl in *.
      assert (m_capacity q ≠ 0) as H0 by (intros E; specialize (HU E); lia).
      split_and!; [done|specialize (Hcap H0); lia|].
      destruct (m_stopped q); [|done]. destruct Hs; [done|lia].
Qed.

(** ** Instances *)

(** A full queue of capacity one and a blocked producer. *)
Definition full_sys : sys Z := mkSys (mkQueue 1 [5] false) [PushWait 7; Idle] [5] [].

Lemma full_reachable : reachable 1 2 full_sys.
Proof.
  eapply rtc_l.
  { right. apply (call_try_push _ (mkQueue 1 [5] false) _ [Idle; Idle] [] [] 1%nat 5);
      [reflexivity|reflexivity|]. apply notify_none. by repeat constructor. }
  eapply rtc_l; [right; by apply (call_push _ _ _ _ 0%nat 7)|].
  eapply rtc_l; [left; by apply (push_block _ _ _ _ 0%nat 7)|]. apply rtc_refl.
Qed.

Lemma full_quiet s' : ¬ internal full_sys s'.
Proof.
  intros H. inversion H; subst;
    repeat match goal with
    | H : _ !! ?t = Some _ |- _ => destruct t as [|[|?]]; simplify_eq/=
    | H : _ ∈ _ |- _ => rewrite !elem_of_cons, elem_of_nil in H; destruct H as [?|[?|[?|[]]]]
    end; done.
Qed.

Lemma queue_no_lost_wakeup_witness : size (queue full_sys) = m_capacity (queue full_sys).
Proof.
  destruct (queue_no_lost_wakeup 1 2 full_sys) as [_ H]; [lia|apply full_reachable|].
  exact (proj1 (proj2 (H full_quiet 0%nat (PushWait 7) eq_refl))).
Defined.
