(* ===== verification/SerialExecutor.v ===== *)
(** * [dbase::thread::SerialExecutor] (code/src/thread/serial_executor.cpp, serial_executor.h)

    Tasks run one after the other on a shared thread pool.  The executor is proved against
    the interface [TaskQueue] of its queue, which [BlockingQueue] implements.  Every access
    to an atomic member, every queue operation and every call of the pool is one step of the
    thread that makes it.  The pool is outside: [jobs] counts the drain jobs it has accepted
    and not begun, a worker begins one at any time, and [submit] of the pool may throw.  A
    task that submits to its own executor acts as a client thread of its own while it runs.
    [submitted] and [executed] are the histories of the queue's [push] and of the tasks
    begun; [halted] and [refused] record that [stop] was called and that the pool threw. *)

From stdpp Require Import base list relations.
From Stdlib Require Import ZArith Lia.
From S2P Require Import Prelude BlockingQueue.

(** ** What the executor needs of its queue *)

Class TaskQueue (Q T : Type) := {
  tq_push : T → M Q ();          (* once [tq_ready] holds *)
  tq_ready : Q → bool;           (* the wait of [push] is over *)
  tq_tryPop : M Q (option T);
  tq_empty : Q → bool;
  tq_stop : M Q bool;
  (** the tasks it holds, whether it is closed, and its invariant *)
  tq_items : Q → list T;
  tq_closed : Q → bool;
  tq_ok : Q → Prop;
  tq_push_spec v q r q' : tq_push v q = (r, q') →
    (tq_closed q = true ∧ r = Throw runtime_error ∧ q' = q) ∨
    (tq_closed q = false ∧ r = Ok tt ∧ tq_items q' = tq_items q ++ [v]);
  tq_tryPop_spec q r q' : tq_tryPop q = (r, q') →
    (tq_items q = [] ∧ r = Ok None ∧ q' = q) ∨
    (∃ v l, tq_items q = v :: l ∧ r = Ok (Some v) ∧ tq_items q' = l);
  tq_empty_spec q : tq_empty q = true ↔ tq_items q = [];
  tq_stop_spec q r q' : tq_stop q = (r, q') → (∃ b, r = Ok b) ∧ tq_items q' = tq_items q;
  tq_full q : tq_ok q → tq_ready q = false → tq_items q ≠ [];
  tq_push_ok v q r q' : tq_push v q = (r, q') → tq_ok q → tq_ok q';
  tq_tryPop_ok q r q' : tq_tryPop q = (r, q') → tq_ok q → tq_ok q';
  tq_stop_ok q r q' : tq_stop q = (r, q') → tq_ok q → tq_ok q';
}.

#[global] Program Instance BlockingQueue_TaskQueue {T} : TaskQueue (BlockingQueue T) T := {|
  tq_push := emplace;
  tq_ready := pushable;
  tq_tryPop := tryPop;
  tq_empty := BlockingQueue.empty;
  tq_stop := stop;
  tq_items := m_queue;
  tq_closed := m_stopped;
  tq_ok q := (0 ≤ m_capacity q)%Z;
|}.
Next Obligation. intros T v q r q' H. apply emplace_cases in H. naive_solver. Qed.
Next Obligation. intros T q r q' H. apply tryPop_cases in H. naive_solver. Qed.
Next Obligation. intros T q. unfold BlockingQueue.empty. by destruct (m_queue q). Qed.
Next Obligation. intros T q r q' H. apply stop_cases in H. naive_solver. Qed.
Next Obligation.
  intros T q Hq H Hl. apply pushable_false in H as (_ & H0 & Hs). unfold size, zlen in Hs.
  rewrite Hl in Hs. simpl in *. lia.
Qed.
Next Obligation. intros T v q r q' H Hq. apply emplace_cases in H. naive_solver. Qed.
Next Obligation. intros T q r q' H Hq. apply tryPop_cases in H. naive_solver. Qed.
Next Obligation. intros T q r q' H Hq. apply stop_cases in H. naive_solver. Qed.

Section executor.
Context {Q T : Type} `{!TaskQueue Q T}.

(** ** The executor *)

Record SerialExecutor : Type := mkExecutor {
  m_tasks : Q;
  m_started : bool;
  m_stopped : bool;
  m_running : bool;
}.

Definition SerialExecutor_make (q : Q) : SerialExecutor := mkExecutor q false false false.

Definition set_started (b : bool) (x : SerialExecutor) : SerialExecutor :=
  mkExecutor (m_tasks x) b (m_stopped x) (m_running x).
Definition set_stopped (b : bool) (x : SerialExecutor) : SerialExecutor :=
  mkExecutor (m_tasks x) (m_started x) b (m_running x).
Definition set_running (b : bool) (x : SerialExecutor) : SerialExecutor :=
  mkExecutor (m_tasks x) (m_started x) (m_stopped x) b.
Definition set_tasks (q : Q) (x : SerialExecutor) : SerialExecutor :=
  mkExecutor q (m_started x) (m_stopped x) (m_running x).

(** [started] is two loads, which [submit] makes one after the other (below). *)
Definition started (x : SerialExecutor) : bool := m_started x && negb (m_stopped x).
Definition stopped (x : SerialExecutor) : bool := m_stopped x.

(** ** Threads *)

Inductive pc : Type :=
  | Client                       (* outside of the executor *)
  | Worker                       (* a pool thread without a job *)
  | StartStore                   (* [start]: [m_started] set, to store [m_stopped] *)
  | StopQueue                    (* [stop]: [m_stopped] set, to stop the queue *)
  | SubStopped (task : T)        (* [submit]: [m_started] seen set, to load [m_stopped] *)
  | SubPush (task : T)           (* [submit]: in [push] *)
  | Sched (worker : bool)        (* [schedule], by [submit] or by [drain]: to exchange [m_running] *)
  | SchedSubmit (worker : bool)  (* [schedule]: to submit to the pool *)
  | SchedFail (worker : bool)    (* [schedule]: the pool threw, to store [m_running] *)
  | DrainPop                     (* [drain]: to call [tryPop] *)
  | DrainRun (task : T)          (* [drain]: running a task *)
  | DrainDone                    (* [drain]: queue seen empty, to store [m_running] *)
  | DrainEmpty                   (* [drain]: to test the queue once more *)
  | DrainStopped.                (* [drain]: to load [m_stopped] *)

Definition home (worker : bool) : pc := if worker then Worker else Client.

Record sys : Type := mkSys {
  exec : SerialExecutor;
  jobs : nat;
  threads : list pc;
  submitted : list T;
  executed : list T;
  halted : bool;
  refused : bool;
}.

Definition with_exec (x : SerialExecutor) (s : sys) : sys :=
  mkSys x (jobs s) (threads s) (submitted s) (executed s) (halted s) (refused s).
Definition goto (t : nat) (p : pc) (s : sys) : sys :=
  mkSys (exec s) (jobs s) (<[t := p]> (threads s)) (submitted s) (executed s) (halted s) (refused s).
Definition with_jobs (j : nat) (s : sys) : sys :=
  mkSys (exec s) j (threads s) (submitted s) (executed s) (halted s) (refused s).
Definition log_submitted (task : T) (s : sys) : sys :=
  mkSys (exec s) (jobs s) (threads s) (submitted s ++ [task]) (executed s) (halted s) (refused s).
Definition log_executed (task : T) (s : sys) : sys :=
  mkSys (exec s) (jobs s) (threads s) (submitted s) (executed s ++ [task]) (halted s) (refused s).
Definition log_halted (s : sys) : sys :=
  mkSys (exec s) (jobs s) (threads s) (submitted s) (executed s) true (refused s).
Definition log_refused (s : sys) : sys :=
  mkSys (exec s) (jobs s) (threads s) (submitted s) (executed s) (halted s) true.

(** A thread at [p] goes on with the call it is in. *)
Inductive moves (s : sys) (t : nat) : pc → sys → Prop :=
  | start_store :
      moves s t StartStore (goto t Client (with_exec (set_stopped false (exec s)) s))
  | stop_queue b q : tq_stop (m_tasks (exec s)) = (Ok b, q) →
      moves s t StopQueue (goto t Client (with_exec (set_tasks q (exec s)) s))
  | sub_accept task : m_stopped (exec s) = false → moves s t (SubStopped task) (goto t (SubPush task) s)
  | sub_reject task : m_stopped (exec s) = true → moves s t (SubStopped task) (goto t Client s)
  | sub_push task q : tq_ready (m_tasks (exec s)) = true →
      tq_push task (m_tasks (exec s)) = (Ok tt, q) →
      moves s t (SubPush task)
        (goto t (Sched false) (log_submitted task (with_exec (set_tasks q (exec s)) s)))
  | sub_throw task q e : tq_ready (m_tasks (exec s)) = true →
      tq_push task (m_tasks (exec s)) = (Throw e, q) →
      moves s t (SubPush task) (goto t Client (with_exec (set_tasks q (exec s)) s))
  | sched_win w : m_running (exec s) = false →
      moves s t (Sched w) (goto t (SchedSubmit w) (with_exec (set_running true (exec s)) s))
  | sched_lose w : m_running (exec s) = true → moves s t (Sched w) (goto t (home w) s)
  | sched_submit w : moves s t (SchedSubmit w) (goto t (home w) (with_jobs (S (jobs s)) s))
  | sched_throw w : moves s t (SchedSubmit w) (goto t (SchedFail w) (log_refused s))
  | sched_fail w :
      moves s t (SchedFail w) (goto t (home w) (with_exec (set_running false (exec s)) s))
  | worker_begin : (0 < jobs s)%nat →
      moves s t Worker (goto t DrainPop (with_jobs (pred (jobs s)) s))
  | drain_task task q : tq_tryPop (m_tasks (exec s)) = (Ok (Some task), q) →
      moves s t DrainPop
        (goto t (DrainRun task) (log_executed task (with_exec (set_tasks q (exec s)) s)))
  | drain_none q : tq_tryPop (m_tasks (exec s)) = (Ok None, q) →
      moves s t DrainPop (goto t DrainDone (with_exec (set_tasks q (exec s)) s))
  | drain_ran task : moves s t (DrainRun task) (goto t DrainPop s)
  | drain_done :
      moves s t DrainDone (goto t DrainEmpty (with_exec (set_running false (exec s)) s))
  | drain_empty : tq_empty (m_tasks (exec s)) = true → moves s t DrainEmpty (goto t Worker s)
  | drain_more : tq_empty (m_tasks (exec s)) = false → moves s t DrainEmpty (goto t DrainStopped s)
  | drain_again : m_stopped (exec s) = false → moves s t DrainStopped (goto t (Sched true) s)
  | drain_halt : m_stopped (exec s) = true → moves s t DrainStopped (goto t Worker s).

Definition internal (s s' : sys) : Prop :=
  ∃ t p, threads s !! t = Some p ∧ moves s t p s'.

(** The program calls an operation. *)
Inductive calls (s : sys) (t : nat) : sys → Prop :=
  | call_start : m_started (exec s) = false →
      calls s t (goto t StartStore (with_exec (set_started true (exec s)) s))
  | call_start_again : m_started (exec s) = true → calls s t s
  | call_stop : m_stopped (exec s) = false →
      calls s t (log_halted (goto t StopQueue (with_exec (set_stopped true (exec s)) s)))
  | call_stop_again : m_stopped (exec s) = true → calls s t s
  | call_submit (task : T) : m_started (exec s) = true → calls s t (goto t (SubStopped task) s)
  | call_submit_early (task : T) : m_started (exec s) = false → calls s t s.

Definition step (s s' : sys) : Prop :=
  internal s s' ∨ ∃ t, threads s !! t = Some Client ∧ calls s t s'.

Definition init (q : Q) (clients workers : nat) : sys :=
  mkSys (SerialExecutor_make q) 0 (replicate clients Client ++ replicate workers Worker)
    [] [] false false.

Definition reachable (q : Q) (clients workers : nat) (s : sys) : Prop :=
  rtc step (init q clients workers) s.

End executor.
Arguments SerialExecutor : clear implicits.
Arguments pc : clear implicits.
Arguments sys : clear implicits.

Section invariant.
Context {Q T : Type} `{!TaskQueue Q T}.
Implicit Types (s : sys Q T) (p : pc T).

(** Who holds [m_running], who will look at the queue again, who reports a failure of the
    pool, and who is a thread of the pool *)
Definition holder (p : pc T) : nat :=
  match p with
  | SchedSubmit _ | SchedFail _ | DrainPop | DrainRun _ | DrainDone => 1 | _ => 0
  end.
Definition pending (p : pc T) : nat :=
  match p with Sched _ | DrainEmpty | DrainStopped => 1 | _ => 0 end.
Definition failing (p : pc T) : nat := match p with SchedFail _ => 1 | _ => 0 end.
Definition pool_thread (p : pc T) : nat :=
  match p with
  | Worker | Sched true | SchedSubmit true | SchedFail true
  | DrainPop | DrainRun _ | DrainDone | DrainEmpty | DrainStopped => 1
  | _ => 0
  end.

Abbreviation items s := (tq_items (m_tasks (exec s))).

Record inv (workers : nat) s : Prop := {
  inv_ok : tq_ok (m_tasks (exec s));
  inv_run : (jobs s + tally holder (threads s) = if m_running (exec s) then 1 else 0)%nat;
  inv_fifo : submitted s = executed s ++ items s;
  inv_halt : m_stopped (exec s) = true → halted s = true;
  inv_fail : (0 < tally failing (threads s))%nat → refused s = true;
  inv_workers : tally pool_thread (threads s) = workers;
  (** a queue with tasks is being drained or will be looked at *)
  inv_serve : items s ≠ [] →
    m_running (exec s) = true ∨ (0 < tally pending (threads s))%nat ∨
    halted s = true ∨ refused s = true;
}.

Lemma serial_inv_init q clients workers : tq_ok q → tq_items q = [] →
  inv workers (init q clients workers).
Proof.
  intros Hok Hq.
  assert (∀ f : pc T → nat, f Client = 0%nat →
    tally f (replicate clients Client ++ replicate workers Worker) = (workers * f Worker)%nat) as H.
  { intros f Hf. unfold tally. rewrite sum_list_with_app.
    assert (sum_list_with f (replicate clients Client) = 0%nat) as ->.
    { apply (tally_zero f). by apply Forall_replicate. }
    induction workers as [|w IH]; simpl in *; lia. }
  constructor; simpl; rewrite ?H by done; simpl; try done; lia || (by rewrite Hq) || idtac.
Qed.

End invariant.

(** The counts after a thread at [p] moves to [p']. *)
Ltac step_counts Ht p' :=
  pose proof (tally_insert holder _ _ _ p' Ht); pose proof (tally_insert pending _ _ _ p' Ht);
  pose proof (tally_insert failing _ _ _ p' Ht); pose proof (tally_insert pool_thread _ _ _ p' Ht).

Section steps.
Context {Q T : Type} `{!TaskQueue Q T}.
Implicit Types (s : sys Q T) (p : pc T).
Abbreviation items s := (tq_items (m_tasks (exec s))).

(** A step of thread [t] from [p] to [p'] that leaves the tasks, the histories and the flags
    alone, given what it does to [m_running] and the jobs. *)
Lemma inv_goto n s t p p' x j : inv n s → threads s !! t = Some p →
  tq_items (m_tasks x) = items s → tq_ok (m_tasks x) → (m_stopped x = true → halted s = true) →
  pool_thread p' = pool_thread p →
  (j + holder p' + (if m_running (exec s) then 1 else 0)
   = jobs s + holder p + if m_running x then 1 else 0)%nat →
  (0 < failing p' → refused s = true)%nat →
  (m_running x = true ∨ (0 < pending p')%nat ∨ items s = [] ∨ halted s = true ∨ refused s = true ∨
   (m_running x = m_running (exec s) ∧ pending p = 0%nat)) →
  inv n (goto t p' (with_jobs j (with_exec x s))).
Proof.
  intros [Hok Hrun Hf Hh Hfa Hw Hs] Ht Hx Hokx Hst Hpool Hj Hfail Hserve.
  step_counts Ht p'. pose proof (tally_pos pending _ _ _ Ht).
  constructor; simpl; rewrite ?Hx; try done; try lia.
  - intros Hpos. destruct (Nat.eq_dec (failing p') 0) as [E|]; [|apply Hfail; lia].
    apply Hfa. lia.
  - intros Hne. specialize (Hs Hne).
    destruct Hserve as [?|[?|[?|[?|[?|[Hr Hp]]]]]]; try tauto; [right; left; lia|].
    destruct Hs as [?|[?|?]]; [left; congruence| |tauto]. right. left. lia.
Qed.

Lemma holder_running n s t p : inv n s → threads s !! t = Some p → holder p = 1%nat →
  m_running (exec s) = true ∧ jobs s = 0%nat.
Proof.
  intros [_ Hrun _ _ _ _ _] Ht Hp. pose proof (tally_pos holder _ _ _ Ht).
  destruct (m_running (exec s)); [split; [done|lia]|lia].
Qed.

Lemma with_jobs_id s : with_jobs (jobs s) s = s.
Proof. by destruct s. Qed.
Lemma with_exec_id s : with_exec (exec s) s = s.
Proof. by destruct s. Qed.
Lemma goto_jobs s t p j : goto t p (with_jobs j s) = goto t p (with_jobs j (with_exec (exec s) s)).
Proof. by rewrite with_exec_id. Qed.
Lemma goto_plain s t p : goto t p s = goto t p (with_jobs (jobs s) (with_exec (exec s) s)).
Proof. by rewrite with_exec_id, with_jobs_id. Qed.
Lemma goto_exec s t p x : goto t p (with_exec x s) = goto t p (with_jobs (jobs s) (with_exec x s)).
Proof. done. Qed.

Lemma inv_push n s t task q : inv n s → threads s !! t = Some (SubPush task) →
  tq_push task (m_tasks (exec s)) = (Ok tt, q) →
  inv n (goto t (Sched false) (log_submitted task (with_exec (set_tasks q (exec s)) s))).
Proof.
  intros [Hok Hrun Hf Hh Hfa Hw Hs] Ht Hq. pose proof (tq_push_ok _ _ _ _ Hq Hok).
  apply tq_push_spec in Hq as [(_ & ? & _)|(_ & _ & Hq)]; [done|].
  step_counts Ht (Sched (T:=T) false). constructor; simpl in *; try done; try lia.
  - by rewrite Hf, Hq, app_assoc.
  - intros Hpos. apply Hfa. lia.
Qed.

Lemma inv_pop n s t task q : inv n s → threads s !! t = Some DrainPop →
  tq_tryPop (m_tasks (exec s)) = (Ok (Some task), q) →
  inv n (goto t (DrainRun task) (log_executed task (with_exec (set_tasks q (exec s)) s))).
Proof.
  intros Hi Ht Hq. destruct (holder_running n s t _ Hi Ht eq_refl) as [Hr _].
  destruct Hi as [Hok Hrun Hf Hh Hfa Hw Hs]. pose proof (tq_tryPop_ok _ _ _ Hq Hok).
  apply tq_tryPop_spec in Hq as [(_ & ? & _)|(v & l & Hl & [= <-] & Hq)]; [done|].
  step_counts Ht (DrainRun task). constructor; simpl in *; try done; try lia.
  - by rewrite Hf, Hl, Hq, <- app_assoc.
  - intros Hpos. apply Hfa. lia.
  - intros _. by left.
Qed.

Ltac by_goto Hi Ht :=
  apply (inv_goto _ _ _ _ _ _ _ Hi Ht); simpl;
  try match goal with Hr : m_running _ = _ |- _ => rewrite ?Hr end;
  first [done | lia | tauto | right; left; lia].

Lemma inv_moves n s t p s' : inv n s → threads s !! t = Some p → moves s t p s' → inv n s'.
Proof.
  intros Hi Ht Hm.
  pose proof (λ H, holder_running n s t p Hi Ht H) as Hold.
  pose proof (inv_halt _ _ Hi) as Hhalt. pose proof (inv_ok _ _ Hi) as Hok.
  pose proof (inv_fail _ _ Hi) as Hfail. pose proof (tally_pos failing _ _ _ Ht) as Hfp.
  destruct Hm as [|b q Hq|task Hst|task Hst|task q Hr Hq|task q e Hr Hq|w Hr|w Hr|w|w|w|Hj|task q Hq
    |q Hq|task| |He|He|Hst|Hst].
  - rewrite goto_exec. by_goto Hi Ht.
  - destruct (tq_stop_spec _ _ _ Hq) as [_ Hitems]. pose proof (tq_stop_ok _ _ _ Hq Hok).
    rewrite goto_exec. by_goto Hi Ht.
  - rewrite goto_plain. by_goto Hi Ht.
  - rewrite goto_plain. by_goto Hi Ht.
  - by apply inv_push.
  - apply tq_push_spec in Hq as [(_ & _ & ->)|(_ & ? & _)]; [|done].
    rewrite goto_exec. by_goto Hi Ht.
  - rewrite goto_exec. destruct w; by_goto Hi Ht.
  - rewrite goto_plain. destruct w; by_goto Hi Ht.
  - destruct (Hold eq_refl) as [Hr Hj]. rewrite goto_jobs. destruct w; by_goto Hi Ht.
  - destruct Hi as [_ Hrun Hf _ Hfa Hw Hs]. step_counts Ht (SchedFail (T:=T) w).
    constructor; simpl in *; try done; try lia; try tauto.
  - destruct (Hold eq_refl) as [Hr Hj]. rewrite goto_exec. simpl in Hfp.
    assert (refused s = true) by (apply Hfail; lia). destruct w; by_goto Hi Ht.
  - rewrite goto_jobs. by_goto Hi Ht.
  - by apply inv_pop.
  - destruct (Hold eq_refl) as [Hr Hj].
    apply tq_tryPop_spec in Hq as [(_ & _ & ->)|(v & l & _ & ? & _)]; [|done].
    rewrite goto_exec. by_goto Hi Ht.
  - rewrite goto_plain. by_goto Hi Ht.
  - destruct (Hold eq_refl) as [Hr Hj]. rewrite goto_exec. by_goto Hi Ht.
  - apply tq_empty_spec in He. rewrite goto_plain. by_goto Hi Ht.
  - rewrite goto_plain. by_goto Hi Ht.
  - rewrite goto_plain. by_goto Hi Ht.
  - rewrite goto_plain. by_goto Hi Ht.
Qed.

Lemma inv_calls n s t s' : inv n s → threads s !! t = Some Client → calls s t s' → inv n s'.
Proof.
  intros Hi Ht Hm. pose proof (inv_halt _ _ Hi) as Hhalt. pose proof (inv_ok _ _ Hi) as Hok.
  destruct Hm as [Hs|Hs|Hs|Hs|task Hs|task Hs]; try done.
  - rewrite goto_exec. by_goto Hi Ht.
  - destruct Hi as [_ Hrun Hf _ Hfa Hw Hsv]. step_counts Ht (StopQueue (T:=T)).
    constructor; simpl in *; try done; try lia; try tauto. intros Hpos. apply Hfa. lia.
  - rewrite goto_plain. by_goto Hi Ht.
Qed.

Lemma serial_inv q clients workers s : tq_ok q → tq_items q = [] →
  reachable q clients workers s → inv workers s.
Proof.
  intros Hok Hq Hr.
  assert (∀ s1 s2, rtc step s1 s2 → inv workers s1 → inv workers s2) as H.
  { induction 1 as [|x y z [(t & p & Ht & Hm)|(t & Ht & Hc)] _ IH]; [done|..]; intros Hi; apply IH.
    - by eapply inv_moves.
    - by eapply inv_calls. }
  eapply H; [exact Hr|]. by apply serial_inv_init.
Qed.

(** ** Progress *)

(** A look at a queue that still has tasks may start a round, which then takes one. *)
Definition weight (more : bool) (p : pc T) : nat :=
  match p with
  | Client | Worker | SubStopped _ | SubPush _ => 0
  | StartStore | StopQueue | SchedFail _ => 1
  | Sched _ => 7
  | SchedSubmit _ => 6
  | DrainPop => 4
  | DrainRun _ => 5
  | DrainDone => if more then 10 else 3
  | DrainEmpty => if more then 9 else 2
  | DrainStopped => 8
  end.
Definition submitting (p : pc T) : nat :=
  match p with SubStopped _ => 2 | SubPush _ => 1 | _ => 0 end.
Definition has_items (q : Q) : bool := match tq_items q with [] => false | _ => true end.

(** Goes down with every step of a thread. *)
Definition measure s : nat :=
  (10 + 7 * length (threads s)) * tally submitting (threads s) + 2 * length (items s)
  + tally (weight (has_items (m_tasks (exec s)))) (threads s) + 5 * jobs s.

Lemma weight_flip (ts : list (pc T)) :
  tally (weight false) ts ≤ tally (weight true) ts ≤ tally (weight false) ts + 7 * length ts.
Proof. induction ts as [|[] ts IH]; simpl in *; lia. Qed.

Lemma weight_more b (ts : list (pc T)) :
  tally (weight false) ts ≤ tally (weight b) ts ≤ tally (weight false) ts + 7 * length ts.
Proof. pose proof (weight_flip ts). destruct b; lia. Qed.

Lemma measure_change s s' t p p' : threads s !! t = Some p → threads s' = <[t := p']> (threads s) →
  let K := 10 + 7 * length (threads s) in
  let m := has_items (m_tasks (exec s')) in
  K * submitting p' + weight m p' + 2 * length (items s') + 5 * jobs s'
    + tally (weight m) (threads s)
  < K * submitting p + weight m p + 2 * length (items s) + 5 * jobs s
    + tally (weight (has_items (m_tasks (exec s)))) (threads s) →
  measure s' < measure s.
Proof.
  intros Ht Hs K m Hlt. unfold measure. rewrite Hs, length_insert. fold K m.
  pose proof (tally_insert submitting _ _ _ p' Ht) as Hsub.
  pose proof (tally_insert (weight m) _ _ _ p' Ht) as Hw.
  apply (f_equal (Nat.mul K)) in Hsub. rewrite !Nat.mul_add_distr_l in Hsub. lia.
Qed.

Lemma has_items_eq (q q' : Q) : tq_items q' = tq_items q → has_items q' = has_items q.
Proof. unfold has_items. by intros ->. Qed.

Lemma measure_moves s t p s' : threads s !! t = Some p → moves s t p s' → measure s' < measure s.
Proof.
  intros Ht Hm.
  destruct Hm as [|b q Hq|task Hst|task Hst|task q Hr Hq|task q e Hr Hq|w Hr|w Hr|w|w|w|Hj|task q Hq
    |q Hq|task| |He|He|Hst|Hst].
  all: eapply (measure_change s _ t); [exact Ht|reflexivity|]; simpl.
  all: try (try destruct w; try destruct (has_items _); simpl; lia).
  - destruct (tq_stop_spec _ _ _ Hq) as [_ Hi]. rewrite (has_items_eq _ _ Hi), Hi. lia.
  - apply tq_push_spec in Hq as [(_ & ? & _)|(_ & _ & Hi)]; [done|].
    rewrite Hi, length_app. simpl.
    pose proof (weight_more (has_items q) (threads s)).
    pose proof (weight_more (has_items (m_tasks (exec s))) (threads s)). lia.
  - apply tq_push_spec in Hq as [(_ & _ & ->)|(_ & ? & _)]; [|done]. lia.
  - apply tq_tryPop_spec in Hq as [(_ & ? & _)|(v & l & Hl & _ & Hi)]; [done|].
    assert (has_items (m_tasks (exec s)) = true) as -> by (unfold has_items; by rewrite Hl).
    rewrite Hl, Hi. simpl. destruct (has_items q); [lia|].
    pose proof (weight_flip (threads s)). lia.
  - apply tq_tryPop_spec in Hq as [(Hl & _ & ->)|(v & l & _ & ? & _)]; [|done].
    assert (has_items (m_tasks (exec s)) = false) as -> by (unfold has_items; by rewrite Hl). lia.
  - assert (has_items (m_tasks (exec s)) = true) as ->; [|lia].
    unfold has_items. pose proof (tq_empty_spec (m_tasks (exec s))) as [_ H].
    destruct (tq_items _); [|done]. by rewrite H in He.
Qed.

Lemma serial_nsteps k s s' : nsteps internal k s s' → k + measure s' ≤ measure s.
Proof.
  induction 1 as [|k x y z (t & p & Ht & Hm) _ IH]; [lia|].
  pose proof (measure_moves _ _ _ _ Ht Hm). lia.
Qed.

(** ** Rest *)

Lemma enabled s t p : threads s !! t = Some p →
  match p with
  | Client => True
  | Worker => jobs s = 0 ∨ ∃ s', internal s s'
  | SubPush _ => tq_ready (m_tasks (exec s)) = false ∨ ∃ s', internal s s'
  | _ => ∃ s', internal s s'
  end.
Proof.
  intros Ht. assert (∀ s', moves s t p s' → ∃ s', internal s s') as Hgo
    by (intros s' Hm; exists s', t, p; done).
  destruct p as [| | | |task|task|w|w|w| |task| | |]; try done.
  - destruct (jobs s) eqn:E; [by left|]. right. eapply Hgo, worker_begin. lia.
  - eapply Hgo, start_store.
  - destruct (tq_stop (m_tasks (exec s))) as [r q] eqn:Hq.
    destruct (tq_stop_spec _ _ _ Hq) as [[b ->] _]. eapply Hgo. by eapply stop_queue.
  - destruct (m_stopped (exec s)) eqn:E; eapply Hgo; [by eapply sub_reject|by eapply sub_accept].
  - destruct (tq_ready (m_tasks (exec s))) eqn:Hr; [|by left]. right.
    destruct (tq_push task (m_tasks (exec s))) as [r q] eqn:Hq.
    pose proof (tq_push_spec _ _ _ _ Hq) as [(_ & -> & _)|(_ & -> & _)]; eapply Hgo;
      [by eapply sub_throw|by eapply sub_push].
  - destruct (m_running (exec s)) eqn:E; eapply Hgo; [by apply sched_lose|by apply sched_win].
  - eapply Hgo, sched_submit.
  - eapply Hgo, sched_fail.
  - destruct (tq_tryPop (m_tasks (exec s))) as [r q] eqn:Hq.
    pose proof (tq_tryPop_spec _ _ _ Hq) as [(_ & -> & _)|(v & l & _ & -> & _)]; eapply Hgo;
      [by eapply drain_none|by eapply drain_task].
  - eapply Hgo, drain_ran.
  - eapply Hgo, drain_done.
  - destruct (tq_empty (m_tasks (exec s))) eqn:E; eapply Hgo; [by apply drain_empty|by apply drain_more].
  - destruct (m_stopped (exec s)) eqn:E; eapply Hgo; [by apply drain_halt|by apply drain_again].
Qed.

(** When no thread can move, threads are outside or wait for room in the queue, and the pool
    has no job. *)
Lemma rest_threads n s t p : inv n s → 0 < n → (∀ s', ¬ internal s s') → threads s !! t = Some p →
  jobs s = 0 ∧ match p with
               | Client | Worker => True
               | SubPush _ => tq_ready (m_tasks (exec s)) = false
               | _ => False
               end.
Proof.
  intros Hi Hn Hq Ht. assert (¬ ∃ s', internal s s') as Hno by (intros [s' H]; by apply (Hq s')).
  split.
  - pose proof (inv_workers _ _ Hi) as Hw.
    destruct (tally_witness pool_thread (threads s)) as (t' & p' & Ht' & Hp'); [lia|].
    pose proof (enabled s t' p' Ht') as He.
    destruct p' as [| | | |task|task|w|w|w| |task| | |]; simpl in Hp'; try lia; tauto.
  - pose proof (enabled s t p Ht) as He. destruct p; try done; tauto.
Qed.

Lemma rest_empty n s : inv n s → 0 < n → (∀ s', ¬ internal s s') →
  halted s = false → refused s = false → items s = [].
Proof.
  intros Hi Hn Hq Hh Hr.
  assert (∀ f : pc T → nat, f Client = 0 → f Worker = 0 → (∀ v, f (SubPush v) = 0) →
    tally f (threads s) = 0) as Hz.
  { intros f H1 H2 H3. apply tally_zero, Forall_forall. intros p Hp.
    apply list_elem_of_lookup in Hp as [t Ht].
    destruct (rest_threads n s t p Hi Hn Hq Ht) as [_ H]. by destruct p. }
  destruct (tq_items (m_tasks (exec s))) as [|v l] eqn:E; [done|]. exfalso.
  destruct (inv_serve _ _ Hi) as [H|[H|[H|H]]]; [by rewrite E| | |congruence..].
  - pose proof (inv_run _ _ Hi) as Hrun. rewrite H, Hz in Hrun by done.
    destruct (tally_witness pool_thread (threads s)) as (t & p & Ht & _);
      [rewrite (inv_workers _ _ Hi); lia|].
    destruct (rest_threads n s t p Hi Hn Hq Ht) as [Hj _]. lia.
  - rewrite Hz in H by done. lia.
Qed.

End steps.

(** ** Properties *)

(** C34: in every interleaving of submitting, stopping and pool threads the tasks begin in
    the order they were put in the queue, none twice and none that was not submitted, and
    no two threads run a task at the same time. *)
Theorem serial_order {Q T} `{!TaskQueue Q T} q clients workers (s : sys Q T) :
  tq_ok q → tq_items q = [] → reachable q clients workers s →
  submitted s = executed s ++ tq_items (m_tasks (exec s)) ∧
  ∀ t1 t2 task1 task2, threads s !! t1 = Some (DrainRun task1) →
    threads s !! t2 = Some (DrainRun task2) → t1 = t2.
Proof.
  intros Hok Hq Hr. pose proof (serial_inv q clients workers s Hok Hq Hr) as Hi.
  split; [apply (inv_fifo _ _ Hi)|]. intros t1 t2 task1 task2 H1 H2.
  destruct (decide (t1 = t2)) as [|Hne]; [done|].
  pose proof (tally_two holder _ _ _ _ _ H1 H2 Hne) as H. simpl in H.
  pose proof (inv_run _ _ Hi). destruct (m_running (exec s)); lia.
Qed.

(** C12: no task is stranded.  From every reachable state all threads come to rest after a
    bounded number of steps, whatever the schedule; and at rest, if the executor was never
    stopped and the pool never refused a job, every submitted task has been executed, and
    no thread is left in a call. *)
Theorem serial_no_stranded {Q T} `{!TaskQueue Q T} q clients workers (s : sys Q T) :
  tq_ok q → tq_items q = [] → 0 < workers → reachable q clients workers s →
  (∀ k s', nsteps internal k s s' → k ≤ measure s) ∧
  ((∀ s', ¬ internal s s') → halted s = false → refused s = false →
    executed s = submitted s ∧ jobs s = 0 ∧
    ∀ t p, threads s !! t = Some p → p = Client ∨ p = Worker).
Proof.
  intros Hok Hq Hw Hr. pose proof (serial_inv q clients workers s Hok Hq Hr) as Hi. split.
  - intros k s' Hk. apply serial_nsteps in Hk. lia.
  - intros Hrest Hh Hre. pose proof (rest_empty _ _ Hi Hw Hrest Hh Hre) as He. split_and!.
    + by rewrite (inv_fifo _ _ Hi), He, app_nil_r.
    + destruct (tally_witness pool_thread (threads s)) as (t & p & Ht & _);
        [rewrite (inv_workers _ _ Hi); lia|].
      by apply (rest_threads _ _ _ _ Hi Hw Hrest Ht).
    + intros t p Ht. destruct (rest_threads _ _ _ _ Hi Hw Hrest Ht) as [_ H].
      destruct p; try done; [by left|by right|].
      by apply (tq_full _ (inv_ok _ _ Hi)) in H.
Qed.

(** ** Instances *)

(** One client, one worker, one task submitted and run, over an unbounded [BlockingQueue]. *)
Definition done_sys : sys (BlockingQueue Z) Z :=
  mkSys (mkExecutor (mkQueue 0 [] false) true false false) 0 [Client; Worker] [7%Z] [7%Z] false false.

(** One more step, by thread [t] at [p]. *)
Ltac by_thread t p := eapply rtc_l; [left; exists t, p; split; [reflexivity|]|].

Lemma done_reachable : reachable (BlockingQueue_make 0) 1 1 done_sys.
Proof.
  eapply rtc_l; [right; exists 0; split; [reflexivity|by apply call_start]|].
  by_thread 0 (StartStore (T:=Z)); [apply start_store|].
  eapply rtc_l; [right; exists 0; split; [reflexivity|by apply (call_submit _ _ 7%Z)]|].
  by_thread 0 (SubStopped 7%Z); [by apply sub_accept|].
  by_thread 0 (SubPush 7%Z); [by eapply sub_push|].
  by_thread 0 (Sched (T:=Z) false); [by apply sched_win|].
  by_thread 0 (SchedSubmit (T:=Z) false); [apply sched_submit|].
  by_thread 1 (Worker (T:=Z)); [apply worker_begin; simpl; lia|].
  by_thread 1 (DrainPop (T:=Z)); [by eapply drain_task|].
  by_thread 1 (DrainRun 7%Z); [apply drain_ran|].
  by_thread 1 (DrainPop (T:=Z)); [by eapply drain_none|].
  by_thread 1 (DrainDone (T:=Z)); [apply drain_done|].
  by_thread 1 (DrainEmpty (T:=Z)); [by apply drain_empty|].
  apply rtc_refl.
Qed.

Lemma done_rest s' : ¬ internal done_sys s'.
Proof.
  intros (t & p & Ht & Hm). destruct t as [|[|t]]; simplify_eq/=; inversion Hm. simpl in *. lia.
Qed.

Lemma serial_order_witness :
  submitted done_sys = executed done_sys ++ tq_items (m_tasks (exec done_sys)).
Proof.
  destruct (serial_order (BlockingQueue_make 0) 1 1 done_sys) as [H _];
    [simpl; lia|reflexivity|apply done_reachable|exact H].
Defined.

Lemma serial_no_stranded_witness : executed done_sys = submitted done_sys.
Proof.
  destruct (serial_no_stranded (BlockingQueue_make 0) 1 1 done_sys) as [_ H];
    [simpl; lia|reflexivity|lia|apply done_reachable|].
  exact (proj1 (H done_rest eq_refl eq_refl)).
Defined.
