(* ===== verification/ThreadPool.v ===== *)
(** * [dbase::thread::ThreadPool] (code/src/thread/thread_pool.cpp, thread_pool.h)

    A fixed number of workers take tasks from a shared queue.  The pool is proved against
    the interface [WorkQueue] of its queue, which [BlockingQueue] implements: a call of the
    queue that would block is a step that cannot be taken, which is what the absence of lost
    wake-ups of [BlockingQueue] allows.  Every access to an atomic member, every queue
    operation and every start or join of a worker is one step of the thread that makes it.
    [submitted], [begun] and [finished] are histories.  A task is a [packaged_task], which
    keeps what it throws; it returns, and acts as a client of its own while it runs.
    [start] and [stop] are not called while
    the other is under way. *)

From stdpp Require Import base list relations.
From Stdlib Require Import ZArith Lia.
From S2P Require Import Prelude BlockingQueue SerialExecutor.

#[local] Arguments tally : simpl never.

(** ** What the pool needs of its queue *)

Class WorkQueue (Q T : Type) `{!TaskQueue Q T} := {
  wq_pop : M Q T;                (* once [wq_ready] holds *)
  wq_ready : Q → bool;           (* the wait of [popFor] is over, other than by its time *)
  wq_pop_spec q r q' : wq_pop q = (r, q') →
    (tq_items q = [] ∧ r = Throw runtime_error ∧ q' = q) ∨
    (∃ v l, tq_items q = v :: l ∧ r = Ok v ∧ tq_items q' = l ∧ tq_closed q' = tq_closed q);
  wq_ready_spec q : wq_ready q = true ↔ tq_closed q = true ∨ tq_items q ≠ [];
  wq_pop_ok q r q' : wq_pop q = (r, q') → tq_ok q → tq_ok q';
  wq_push_closed v q r q' : tq_push v q = (r, q') → tq_closed q' = tq_closed q;
  wq_stop_closed q r q' : tq_stop q = (r, q') → tq_closed q' = true;
  wq_closed_ready q : tq_closed q = true → tq_ready q = true;
}.

#[global] Program Instance BlockingQueue_WorkQueue {T} : WorkQueue (BlockingQueue T) T := {|
  wq_pop := pop;
  wq_ready := poppable;
|}.
Next Obligation. intros T q r q' H. apply pop_cases in H. naive_solver. Qed.
Next Obligation.
  intros T q. cbn. unfold poppable, BlockingQueue.empty. destruct (BlockingQueue.m_stopped q), (m_queue q);
    cbn; naive_solver.
Qed.
Next Obligation. intros T q r q' H Hq. apply pop_cases in H. naive_solver. Qed.
Next Obligation. intros T v q r q' H. apply emplace_cases in H. naive_solver. Qed.
Next Obligation. intros T q r q' H. apply stop_cases in H. naive_solver. Qed.
Next Obligation. intros T q H. cbn in *. unfold pushable. by rewrite H. Qed.

Section pool.
Context {Q T : Type} `{!TaskQueue Q T, !WorkQueue Q T}.

(** ** The pool *)

Inductive worker : Type :=
  | WNew                (* a [Thread] that is not started *)
  | WPop                (* in [popFor] *)
  | WRun (task : T)     (* running a task *)
  | WDone.              (* [workerLoop] has returned *)

Record ThreadPool : Type := mkPool {
  m_threadCount : nat;
  m_tasks : Q;
  m_workers : list worker;
  m_started : bool;
  m_stopped : bool;
}.

Definition ThreadPool_make (threadCount : nat) (q : Q) : res ThreadPool :=
  if Nat.eqb threadCount 0 then Throw invalid_argument
  else Ok (mkPool threadCount q [] false true).

Definition set_tasks (q : Q) (x : ThreadPool) : ThreadPool :=
  mkPool (m_threadCount x) q (m_workers x) (m_started x) (m_stopped x).
Definition set_workers (ws : list worker) (x : ThreadPool) : ThreadPool :=
  mkPool (m_threadCount x) (m_tasks x) ws (m_started x) (m_stopped x).
Definition set_started (b : bool) (x : ThreadPool) : ThreadPool :=
  mkPool (m_threadCount x) (m_tasks x) (m_workers x) b (m_stopped x).
Definition set_stopped (b : bool) (x : ThreadPool) : ThreadPool :=
  mkPool (m_threadCount x) (m_tasks x) (m_workers x) (m_started x) b.

Definition started (x : ThreadPool) : bool := m_started x && negb (m_stopped x).
Definition stopped (x : ThreadPool) : bool := m_stopped x.
Definition pendingTaskCount (x : ThreadPool) : nat := length (tq_items (m_tasks x)).

(** ** Threads that call the pool *)

Inductive client : Type :=
  | CIdle
  | CStartStore              (* [start]: [m_started] set, to store [m_stopped] *)
  | CStartMake               (* [start]: to create the workers *)
  | CLaunch (i : nat)        (* [start]: to start worker [i] *)
  | CStop                    (* [stop]: to exchange [m_stopped] *)
  | CStopQueue               (* [stop]: to stop the queue *)
  | CJoin (i : nat)          (* [stop]: to join worker [i] *)
  | CSubStopped (task : T)   (* [submit]: [m_started] seen set, to load [m_stopped] *)
  | CSubPush (task : T).     (* [submit]: in [push] *)

Record sys : Type := mkSys {
  pool : ThreadPool;
  clients : list client;
  submitted : list T;
  begun : list T;
  finished : list T;
  launched : bool;           (* a worker was started *)
  ended : bool;              (* [stop] has joined the workers *)
}.

Definition with_pool (x : ThreadPool) (s : sys) : sys :=
  mkSys x (clients s) (submitted s) (begun s) (finished s) (launched s) (ended s).
Definition goto (t : nat) (c : client) (s : sys) : sys :=
  mkSys (pool s) (<[t := c]> (clients s)) (submitted s) (begun s) (finished s) (launched s) (ended s).
Definition log_submitted (task : T) (s : sys) : sys :=
  mkSys (pool s) (clients s) (submitted s ++ [task]) (begun s) (finished s) (launched s) (ended s).
Definition log_begun (task : T) (s : sys) : sys :=
  mkSys (pool s) (clients s) (submitted s) (begun s ++ [task]) (finished s) (launched s) (ended s).
Definition log_finished (task : T) (s : sys) : sys :=
  mkSys (pool s) (clients s) (submitted s) (begun s) (finished s ++ [task]) (launched s) (ended s).
Definition log_launched (s : sys) : sys :=
  mkSys (pool s) (clients s) (submitted s) (begun s) (finished s) true (ended s).
Definition log_ended (s : sys) : sys :=
  mkSys (pool s) (clients s) (submitted s) (begun s) (finished s) (launched s) true.

Definition with_worker (i : nat) (w : worker) (s : sys) : sys :=
  with_pool (set_workers (<[i := w]> (m_workers (pool s))) (pool s)) s.

(** A thread in a call of the pool goes on. *)
Inductive client_step (s : sys) (t : nat) : client → sys → Prop :=
  | start_store : client_step s t CStartStore
      (goto t CStartMake (with_pool (set_stopped false (pool s)) s))
  | start_make : client_step s t CStartMake
      (goto t (CLaunch 0) (with_pool (set_workers (replicate (m_threadCount (pool s)) WNew) (pool s)) s))
  | launch i : m_workers (pool s) !! i = Some WNew →
      client_step s t (CLaunch i) (log_launched (goto t (CLaunch (S i)) (with_worker i WPop s)))
  | launch_throw i : m_workers (pool s) !! i = Some WNew → client_step s t (CLaunch i) (goto t CStop s)
  | launch_end i : m_workers (pool s) !! i = None → client_step s t (CLaunch i) (goto t CIdle s)
  | stop_first : m_stopped (pool s) = false → client_step s t CStop
      (goto t CStopQueue (with_pool (set_stopped true (pool s)) s))
  | stop_again : m_stopped (pool s) = true → client_step s t CStop (goto t CIdle s)
  | stop_queue b q : tq_stop (m_tasks (pool s)) = (Ok b, q) → client_step s t CStopQueue
      (goto t (CJoin 0) (with_pool (set_tasks q (pool s)) s))
  | join i : m_workers (pool s) !! i = Some WDone → client_step s t (CJoin i) (goto t (CJoin (S i)) s)
  | join_skip i : m_workers (pool s) !! i = Some WNew → client_step s t (CJoin i) (goto t (CJoin (S i)) s)
  | join_end i : m_workers (pool s) !! i = None → client_step s t (CJoin i)
      (log_ended (goto t CIdle (with_pool (set_workers [] (pool s)) s)))
  | sub_accept task : m_stopped (pool s) = false → client_step s t (CSubStopped task) (goto t (CSubPush task) s)
  | sub_reject task : m_stopped (pool s) = true → client_step s t (CSubStopped task) (goto t CIdle s)
  | sub_push task q : tq_ready (m_tasks (pool s)) = true → tq_push task (m_tasks (pool s)) = (Ok tt, q) →
      client_step s t (CSubPush task)
        (goto t CIdle (log_submitted task (with_pool (set_tasks q (pool s)) s)))
  | sub_throw task q e : tq_ready (m_tasks (pool s)) = true → tq_push task (m_tasks (pool s)) = (Throw e, q) →
      client_step s t (CSubPush task) (goto t CIdle s).

(** [workerLoop]; a time-out of [popFor] only begins the next round. *)
Inductive worker_step (s : sys) (i : nat) : worker → sys → Prop :=
  | worker_pop task q : wq_ready (m_tasks (pool s)) = true → wq_pop (m_tasks (pool s)) = (Ok task, q) →
      worker_step s i WPop (log_begun task (with_worker i (WRun task) (with_pool (set_tasks q (pool s)) s)))
  | worker_end q e : wq_ready (m_tasks (pool s)) = true → wq_pop (m_tasks (pool s)) = (Throw e, q) →
      worker_step s i WPop (with_worker i WDone s)
  | worker_ran task : worker_step s i (WRun task) (log_finished task (with_worker i WPop s)).

Definition internal (s s' : sys) : Prop :=
  (∃ t c, clients s !! t = Some c ∧ client_step s t c s') ∨
  (∃ i w, m_workers (pool s) !! i = Some w ∧ worker_step s i w s').

Definition starting (c : client) : nat :=
  match c with CStartStore | CStartMake | CLaunch _ => 1 | _ => 0 end.
Definition stopping (c : client) : nat :=
  match c with CStop | CStopQueue | CJoin _ => 1 | _ => 0 end.

(** A client calls the pool. *)
Inductive calls (s : sys) (t : nat) : sys → Prop :=
  | call_start : m_started (pool s) = false → tally stopping (clients s) = 0 →
      calls s t (goto t CStartStore (with_pool (set_started true (pool s)) s))
  | call_start_again : m_started (pool s) = true → calls s t s
  | call_stop : tally starting (clients s) = 0 → calls s t (goto t CStop s)
  | call_submit (task : T) : m_started (pool s) = true → calls s t (goto t (CSubStopped task) s)
  | call_submit_early (task : T) : m_started (pool s) = false → calls s t s.

Definition step (s s' : sys) : Prop :=
  internal s s' ∨ ∃ t, clients s !! t = Some CIdle ∧ calls s t s'.

Definition init (x : ThreadPool) (n : nat) : sys := mkSys x (replicate n CIdle) [] [] [] false false.

Definition reachable (x : ThreadPool) (n : nat) (s : sys) : Prop := rtc step (init x n) s.

End pool.
Arguments worker : clear implicits.
Arguments client : clear implicits.
Arguments ThreadPool : clear implicits.
Arguments sys : clear implicits.

(** ** The invariant *)

Section invariant.
Context {Q T : Type} `{!TaskQueue Q T, !WorkQueue Q T}.
Implicit Types (s : sys Q T) (c : client T) (w : worker T).

Abbreviation items s := (tq_items (m_tasks (pool s))).
Abbreviation closed s := (tq_closed (m_tasks (pool s))).
Abbreviation workers s := (m_workers (pool s)).

Definition running w : list T := match w with WRun task => [task] | _ => [] end.
Definition runs (ws : list (worker T)) : list T := ws ≫= running.

(** [stop] that has won, and [start] before it stores [m_stopped] *)
Definition past c : nat := match c with CStopQueue | CJoin _ => 1 | _ => 0 end.
Definition early c : nat := match c with CStartStore => 1 | _ => 0 end.

Definition client_ok (n : nat) s c : Prop :=
  match c with
  | CStartStore | CStartMake => workers s = [] ∧ launched s = false
  | CLaunch i => length (workers s) = n ∧ i ≤ n ∧ launched s = bool_decide (0 < i) ∧
      ∀ j w, workers s !! j = Some w → (w = WNew ↔ i ≤ j)
  | CJoin i => closed s = true ∧
      ∀ j w, j < i → workers s !! j = Some w → w = WDone ∨ w = WNew
  | CSubStopped _ | CSubPush _ => m_started (pool s) = true
  | _ => True
  end.

Record control (n : nat) s : Prop := {
  c_count : m_threadCount (pool s) = n;
  c_clients : ∀ t c, clients s !! t = Some c → client_ok n s c;
  c_flags : m_stopped (pool s) = false → m_started (pool s) = true;
  c_starting : tally starting (clients s) ≤ (if m_started (pool s) then 1 else 0);
  c_exclusive : tally starting (clients s) = 0 ∨ tally stopping (clients s) = 0;
  c_past : 0 < tally past (clients s) → m_started (pool s) = true;
  c_stopped : m_started (pool s) = true → m_stopped (pool s) = true →
    0 < tally early (clients s) ∨ 0 < tally past (clients s) ∨ ended s = true;
  c_ended : ended s = true → m_started (pool s) = true ∧ tally starting (clients s) = 0 ∧
    workers s = [] ∧ closed s = true;
  c_unstarted : m_started (pool s) = false → workers s = [] ∧ launched s = false;
  c_launched : launched s = true → ended s = true ∨ ∃ w, workers s !! 0 = Some w ∧ w ≠ WNew;
  c_unlaunched : m_started (pool s) = true → launched s = true ∨
    0 < tally starting (clients s) ∨ 0 < tally stopping (clients s) ∨ ended s = true;
}.

Record data s : Prop := {
  d_ok : tq_ok (m_tasks (pool s));
  d_fifo : submitted s = begun s ++ items s;
  d_runs : begun s ≡ₚ finished s ++ runs (workers s);
  d_done : ∀ i, workers s !! i = Some WDone → closed s = true ∧ items s = [];
  d_ended : ended s = true → launched s = true → items s = [];
}.

Definition inv (n : nat) s : Prop := control n s ∧ data s.

Lemma runs_insert ws i w w' : ws !! i = Some w →
  runs (<[i := w']> ws) ++ running w ≡ₚ runs ws ++ running w'.
Proof.
  unfold runs. revert i. induction ws as [|x ws IH]; intros [|i] Hi; try done; cbn in *.
  - injection Hi as ->. rewrite (Permutation_app_comm (_ ++ _) (running w)), <- app_assoc.
    apply Permutation_app_head, Permutation_app_comm.
  - rewrite <- !app_assoc. f_equiv. by apply IH.
Qed.

(** *** The workers *)

Lemma client_ok_worker n s s' c i w w' : client_ok n s c → workers s !! i = Some w →
  workers s' = <[i := w']> (workers s) → w ≠ WNew → w' ≠ WNew → w ≠ WDone →
  launched s' = launched s → closed s' = closed s → m_started (pool s') = m_started (pool s) →
  client_ok n s' c.
Proof.
  intros Hok Hi Hws Hn Hn' Hd Hl Hc Hs. destruct c; cbn in *; rewrite ?Hl, ?Hs, ?Hc, ?Hws; try done.
  - destruct Hok as [E _]. by rewrite E in Hi.
  - destruct Hok as [E _]. by rewrite E in Hi.
  - rewrite length_insert. destruct Hok as (? & ? & ? & H). split_and!; try done.
    intros j u Hj. destruct (decide (i = j)) as [<-|Hne].
    + rewrite list_lookup_insert_eq in Hj by (by eapply lookup_lt_Some). injection Hj as <-.
      specialize (H i w Hi). naive_solver.
    + rewrite list_lookup_insert_ne in Hj by done. by apply H.
  - destruct Hok as [? H]. split; [done|]. intros j u Hj Hu. destruct (decide (i = j)) as [<-|Hne].
    + destruct (H i w Hj Hi); done.
    + rewrite list_lookup_insert_ne in Hu by done. by eapply H.
Qed.

Lemma control_worker n s s' i w w' : control n s → workers s !! i = Some w →
  workers s' = <[i := w']> (workers s) → w ≠ WNew → w' ≠ WNew → w ≠ WDone →
  launched s' = launched s → closed s' = closed s → ended s' = ended s → clients s' = clients s →
  m_started (pool s') = m_started (pool s) → m_stopped (pool s') = m_stopped (pool s) →
  m_threadCount (pool s') = m_threadCount (pool s) → control n s'.
Proof.
  intros [Hn Hcl Hf Hst Hex Hp Hsp He Hun Hla Hul] Hi Hws Hw Hw' Hd El Ec Ee Ecl Es Esp Et.
  split; rewrite ?El, ?Ee, ?Ecl, ?Es, ?Esp, ?Et, ?Ec; try done.
  - intros t c Hc. eapply client_ok_worker; eauto.
  - intros H. destruct (He H) as (? & ? & E & ?). by rewrite E in Hi.
  - intros H. destruct (Hun H) as [E ?]. by rewrite E in Hi.
  - intros H. destruct (Hla H) as [?|(u & Hu & Hne)]; [by left|right]. rewrite Hws.
    destruct (decide (i = 0)) as [->|?].
    + exists w'. split; [|done]. apply list_lookup_insert_eq. by eapply lookup_lt_Some.
    + exists u. by rewrite list_lookup_insert_ne.
Qed.

Lemma inv_worker n s i w s' : inv n s → workers s !! i = Some w → worker_step s i w s' → inv n s'.
Proof.
  intros [Hc [Hok Hf Hr Hd He]] Hi Hs.
  assert (Hrun : ∀ w', runs (<[i := w']> (workers s)) ++ running w ≡ₚ runs (workers s) ++ running w')
    by (intros w'; by apply runs_insert).
  assert (Hlen : i < length (workers s)) by (by eapply lookup_lt_Some).
  assert (Hnd : ∀ w' j, w' ≠ WDone → <[i := w']> (workers s) !! j = Some WDone → workers s !! j = Some WDone).
  { intros w' j Hne. destruct (decide (i = j)) as [<-|?].
    - rewrite list_lookup_insert_eq by done. congruence.
    - by rewrite list_lookup_insert_ne. }
  destruct Hs as [task q Hrd Hp|q e Hrd Hp|task].
  - pose proof (wq_pop_ok _ _ _ Hp Hok).
    apply wq_pop_spec in Hp as [(_ & ? & _)|(v & l & Hl & [= <-] & Hq & Hcl)]; [done|]. split.
    + eapply (control_worker n s _ i WPop (WRun task)); try done.
    + split; cbn; try done.
      * by rewrite Hf, Hl, Hq, <- app_assoc.
      * specialize (Hrun (WRun task)). cbn in Hrun. rewrite app_nil_r in Hrun.
        rewrite Hrun, Hr, app_assoc. done.
      * intros j Hj. apply Hnd in Hj; [|done]. destruct (Hd j Hj) as [_ E]. congruence.
      * intros H1 H2. specialize (He H1 H2). congruence.
  - apply wq_pop_spec in Hp as [(Hl & _ & ->)|(v & l & _ & ? & _)]; [|done].
    assert (closed s = true) by (apply wq_ready_spec in Hrd as [?|?]; done). split.
    + by eapply (control_worker n s _ i WPop WDone).
    + split; cbn; try done. specialize (Hrun WDone). cbn in Hrun. rewrite !app_nil_r in Hrun.
      by rewrite Hrun.
  - split; [by eapply (control_worker n s _ i (WRun task) WPop)|]. split; cbn; try done.
    + specialize (Hrun WPop). cbn in Hrun. rewrite app_nil_r in Hrun.
      rewrite Hr, <- Hrun, <- app_assoc. f_equiv. apply Permutation_app_comm.
    + intros j Hj. apply Hnd in Hj; [|done]. eauto.
Qed.

(** *** The clients *)

Lemma client_ok_same n s s' c : client_ok n s c → workers s' = workers s →
  launched s' = launched s → (closed s = true → closed s' = true) →
  (m_started (pool s) = true → m_started (pool s') = true) → client_ok n s' c.
Proof. intros Hok Hw Hl Hc Hs. destruct c; cbn in *; rewrite ?Hw, ?Hl; naive_solver. Qed.

Lemma clients_goto n s s' t c' : clients s' = <[t := c']> (clients s) → client_ok n s' c' →
  (∀ u d, u ≠ t → clients s !! u = Some d → client_ok n s' d) →
  ∀ u d, clients s' !! u = Some d → client_ok n s' d.
Proof.
  intros E Hc Ho u d. rewrite E. destruct (decide (u = t)) as [->|Hne].
  - intros Hu. destruct (decide (t < length (clients s))) as [Hlt|Hge].
    + rewrite list_lookup_insert_eq in Hu by done. by injection Hu as <-.
    + rewrite list_insert_ge in Hu by lia. apply lookup_lt_Some in Hu. lia.
  - rewrite list_lookup_insert_ne by done. eauto.
Qed.

(** While a thread is in [start] no other is in [start] or [stop]. *)
Lemma start_alone n s t c u d : control n s → clients s !! t = Some c → starting c = 1 →
  u ≠ t → clients s !! u = Some d → starting d = 0 ∧ stopping d = 0.
Proof.
  intros Hc Ht Hst Hne Hu. pose proof (c_starting _ _ Hc) as H1. pose proof (c_exclusive _ _ Hc) as H2.
  pose proof (tally_two starting _ _ _ _ _ Ht Hu ltac:(done)).
  pose proof (tally_pos starting _ _ _ Ht). pose proof (tally_pos stopping _ _ _ Hu).
  destruct (m_started (pool s)); lia.
Qed.

Lemma other_ok n s s' d : starting d = 0 → stopping d = 0 → client_ok n s d →
  (m_started (pool s) = true → m_started (pool s') = true) → client_ok n s' d.
Proof. destruct d; cbn; try done; auto. Qed.

End invariant.

(** The counts after client [t] moves from [c] to [c']. *)
Ltac client_counts Ht c' :=
  pose proof (tally_insert starting _ _ _ c' Ht); pose proof (tally_insert stopping _ _ _ c' Ht);
  pose proof (tally_insert past _ _ _ c' Ht); pose proof (tally_insert early _ _ _ c' Ht);
  pose proof (tally_pos starting _ _ _ Ht); pose proof (tally_pos stopping _ _ _ Ht);
  pose proof (tally_pos past _ _ _ Ht); pose proof (tally_pos early _ _ _ Ht);
  cbn [starting stopping past early] in *.

Section clients.
Context {Q T : Type} `{!TaskQueue Q T, !WorkQueue Q T}.
Implicit Types (s : sys Q T) (c : client T) (w : worker T).
Abbreviation items s := (tq_items (m_tasks (pool s))).
Abbreviation closed s := (tq_closed (m_tasks (pool s))).
Abbreviation workers s := (m_workers (pool s)).

Lemma early_starting (cs : list (client T)) : tally early cs ≤ tally starting cs.
Proof. unfold tally. induction cs as [|[] cs IH]; simpl in *; lia. Qed.

Lemma past_stopping (cs : list (client T)) : tally past cs ≤ tally stopping cs.
Proof. unfold tally. induction cs as [|[] cs IH]; simpl in *; lia. Qed.

(** A move of client [t] that leaves the workers and the histories of the workers alone. *)
Lemma control_goto n s t c c' s' : control n s → clients s !! t = Some c →
  clients s' = <[t := c']> (clients s) → m_threadCount (pool s') = m_threadCount (pool s) →
  workers s' = workers s → launched s' = launched s → ended s' = ended s →
  (closed s = true → closed s' = true) → m_started (pool s') = m_started (pool s) →
  m_stopped (pool s') = m_stopped (pool s) → client_ok n s' c' →
  (starting c' ≤ starting c) → (starting c' = 0 ∨ stopping c' = 0) →
  (stopping c' ≤ stopping c ∨ tally starting (clients s) ≤ starting c) →
  past c' = past c → early c' = early c →
  (starting c ≤ starting c' + stopping c' ∨ launched s = true) →
  (stopping c ≤ stopping c' ∨ m_started (pool s) = false ∨
     0 < tally past (clients s) + tally starting (clients s) ∨ ended s = true ∨ launched s = true) →
  control n s'.
Proof.
  intros Hc Ht Ecl En Ew El Ee Hcl Es Esp Hok H1 H2 H3 H4 H5 H6 H7. pose proof Hc as [? ? ? ? ? ? ? He ? ? ?].
  pose proof (tally_insert starting _ _ _ c' Ht) as T1.
  pose proof (tally_insert stopping _ _ _ c' Ht) as T2.
  pose proof (tally_insert past _ _ _ c' Ht) as T3.
  pose proof (tally_insert early _ _ _ c' Ht) as T4.
  pose proof (tally_pos starting _ _ _ Ht). pose proof (tally_pos stopping _ _ _ Ht).
  pose proof (past_stopping (<[t := c']> (clients s))).
  split; rewrite ?Ecl, ?En, ?Ew, ?El, ?Ee, ?Es, ?Esp; try done; try lia.
  - rewrite <- Ecl. eapply clients_goto; [done|done|]. intros u d _ Hu. eapply client_ok_same; eauto.
  - intros Hpos. apply c_past0. lia.
  - intros Hs Hp. destruct (c_stopped0 Hs Hp) as [?|[?|?]]; [left; lia|right; left; lia|by right; right].
  - intros E. destruct (He E) as (? & ? & ? & ?). split_and!; auto. lia.
  - intros Hs. destruct (c_unlaunched0 Hs) as [?|[?|[?|?]]]; [by left| | |by do 3 right].
    + destruct H6 as [?|?]; [|by left]. lia.
    + destruct H7 as [?|[?|[?|[?|?]]]]; [lia|congruence|lia|by do 3 right|by left].
Qed.

Lemma control_start_store n s t : control n s → clients s !! t = Some CStartStore →
  control n (goto t CStartMake (with_pool (set_stopped false (pool s)) s)).
Proof.
  intros Hc Ht. set (s' := goto _ _ _). pose proof Hc as [Hn Hcl Hf Hst Hex Hp Hsp He Hun Hla Hul].
  assert (Hcl' : ∀ u d, clients s' !! u = Some d → client_ok n s' d).
  { apply (clients_goto n s s' t CStartMake); [done|by apply (Hcl _ _ Ht)|]. intros u d Hne Hu.
    destruct (start_alone n s t _ u d Hc Ht eq_refl Hne Hu). by eapply (other_ok n s s' d); eauto. }
  client_counts Ht (CStartMake (T:=T)). destruct (m_started (pool s)) eqn:E; [|lia].
  split; [done|exact Hcl'|..]; cbn; rewrite ?E; try done; try lia.
  intros En. destruct (He En) as (_ & ? & _). lia.
Qed.

Lemma control_start_make n s t : control n s → clients s !! t = Some CStartMake →
  control n (goto t (CLaunch 0)
    (with_pool (set_workers (replicate (m_threadCount (pool s)) WNew) (pool s)) s)).
Proof.
  intros Hc Ht. set (s' := goto _ _ _). pose proof Hc as [Hn Hcl Hf Hst Hex Hp Hsp He Hun Hla Hul].
  destruct (Hcl _ _ Ht) as [Hw Hl].
  assert (Hcl' : ∀ u d, clients s' !! u = Some d → client_ok n s' d).
  { apply (clients_goto n s s' t (CLaunch 0)); [done| |].
    + cbn. rewrite length_replicate. split_and!; [done|lia|done|].
      intros j w [-> _]%lookup_replicate. split; [lia|done].
    + intros u d Hne Hu. destruct (start_alone n s t _ u d Hc Ht eq_refl Hne Hu).
      by eapply (other_ok n s s' d); eauto. }
  client_counts Ht (CLaunch (T:=T) 0). destruct (m_started (pool s)) eqn:E; [|lia].
  split; [done|exact Hcl'|..]; cbn; rewrite ?E; try done; try lia.
  - intros H1' H2'. destruct (Hsp H1' H2') as [?|[?|?]]; [left; lia|right; left; lia|by right; right].
  - intros En. destruct (He En) as (_ & ? & _). lia.
  - congruence.
Qed.

Lemma control_launch n s t i : control n s → clients s !! t = Some (CLaunch i) →
  workers s !! i = Some WNew →
  control n (log_launched (goto t (CLaunch (S i)) (with_worker i WPop s))).
Proof.
  intros Hc Ht Hi. set (s' := log_launched _). pose proof Hc as [Hn Hcl Hf Hst Hex Hp Hsp He Hun Hla Hul].
  destruct (Hcl _ _ Ht) as (Hlen & Hle & Hl & Hnew). pose proof (lookup_lt_Some _ _ _ Hi) as Hlt.
  assert (Hcl' : ∀ u d, clients s' !! u = Some d → client_ok n s' d).
  { apply (clients_goto n s s' t (CLaunch (S i))); [done| |].
    + cbn. rewrite length_insert. split_and!; [done|lia|done|]. intros j w.
      destruct (decide (i = j)) as [<-|Hne].
      * rewrite list_lookup_insert_eq by done. intros [= <-]. split; [done|lia].
      * rewrite list_lookup_insert_ne by done. intros Hj. rewrite (Hnew j w Hj). lia.
    + intros u d Hne Hu. destruct (start_alone n s t _ u d Hc Ht eq_refl Hne Hu).
      by eapply (other_ok n s s' d); eauto. }
  client_counts Ht (CLaunch (T:=T) (S i)). destruct (m_started (pool s)) eqn:E; [|lia].
  split; [done|exact Hcl'|..]; cbn; rewrite ?E; try done; try lia.
  - intros H1' H2'. destruct (Hsp H1' H2') as [?|[?|?]]; [left; lia|right; left; lia|by right; right].
  - intros En. destruct (He En) as (_ & ? & _). lia.
  - intros _. right. destruct (decide (i = 0)) as [->|Hne].
    + exists WPop. by rewrite list_lookup_insert_eq.
    + rewrite bool_decide_true in Hl by lia. destruct (Hla Hl) as [Hen|(w & Hw & ?)].
      * destruct (He Hen) as (_ & ? & _). lia.
      * exists w. by rewrite list_lookup_insert_ne.
Qed.

Lemma control_stop_first n s t : control n s → clients s !! t = Some CStop →
  m_stopped (pool s) = false →
  control n (goto t CStopQueue (with_pool (set_stopped true (pool s)) s)).
Proof.
  intros Hc Ht Hs. set (s' := goto _ _ _). pose proof Hc as [Hn Hcl Hf Hst Hex Hp Hsp He Hun Hla Hul].
  assert (Hcl' : ∀ u d, clients s' !! u = Some d → client_ok n s' d).
  { apply (clients_goto n s s' t CStopQueue); [done|done|]. intros u d _ Hu.
    by eapply (client_ok_same n s s' d); eauto. }
  client_counts Ht (CStopQueue (T:=T)). pose proof (Hf Hs) as E. rewrite E in *.
  split; [done|exact Hcl'|..]; cbn; rewrite ?E; try done; try lia.
  - intros En. destruct (He En) as (_ & ? & ? & ?). split_and!; auto. lia.
Qed.

Lemma control_join_end n s t i : control n s → clients s !! t = Some (CJoin i) →
  control n (log_ended (goto t CIdle (with_pool (set_workers [] (pool s)) s))).
Proof.
  intros Hc Ht. set (s' := log_ended _). pose proof Hc as [Hn Hcl Hf Hst Hex Hp Hsp He Hun Hla Hul].
  destruct (Hcl _ _ Ht) as [Hclosed _].
  assert (Hcl' : ∀ u d, clients s' !! u = Some d → client_ok n s' d).
  { apply (clients_goto n s s' t CIdle); [done|done|]. intros u d _ Hu. specialize (Hcl u d Hu).
    pose proof (tally_pos starting _ _ _ Hu). pose proof (tally_pos stopping _ _ _ Ht).
    destruct d; cbn in *; try done; try lia. }
  client_counts Ht (CIdle (T:=T)). assert (E : m_started (pool s) = true) by (apply Hp; lia).
  rewrite E in *. split; [done|exact Hcl'|..]; cbn; rewrite ?E; try done; try lia.
  - intros _. split_and!; [done|lia|done|done].
Qed.

Lemma inv_client n s t c s' : 0 < n → inv n s → clients s !! t = Some c → client_step s t c s' → inv n s'.
Proof.
  intros Hn0 [Hc Hd] Ht Hs. pose proof (c_clients _ _ Hc _ _ Ht) as Hok.
  pose proof (c_starting _ _ Hc) as Hst. pose proof (c_exclusive _ _ Hc) as Hex.
  pose proof (tally_pos starting _ _ _ Ht) as Hts. pose proof (tally_pos stopping _ _ _ Ht) as Htp.
  pose proof (early_starting (clients s)) as Hes.
  assert (Hdata : ∀ s', m_tasks (pool s') = m_tasks (pool s) → workers s' = workers s →
    submitted s' = submitted s → begun s' = begun s → finished s' = finished s →
    ended s' = ended s → launched s' = launched s → data s').
  { intros s2 E1 E2 E3 E4 E5 E6 E7. destruct Hd. split; rewrite ?E1, ?E2, ?E3, ?E4, ?E5, ?E6, ?E7; done. }
  destruct Hs as [| |i Hi|i Hi|i Hi|Hsp|Hsp|b q Hq|i Hi|i Hi|i Hi|task Hsp|task Hsp|task q Hrd Hq|task q e Hrd Hq].
  - split; [by apply control_start_store|by apply Hdata].
  - split; [by apply control_start_make|]. destruct Hok as [Hw Hl]. destruct Hd as [Ho Hf Hr Hdn He].
    rewrite Hw in Hr. split; cbn; try done.
    + rewrite Hr. f_equiv. clear. induction (m_threadCount (pool s)); cbn; done.
    + by intros i [? _]%lookup_replicate.
  - split; [by apply control_launch|]. destruct Hd as [Ho Hf Hr Hdn He]. split; cbn; try done.
    + pose proof (runs_insert (workers s) i WNew WPop Hi) as H. cbn in H. rewrite !app_nil_r in H. by rewrite H.
    + intros j. destruct (decide (i = j)) as [<-|Hne].
      * rewrite list_lookup_insert_eq by (by eapply lookup_lt_Some). done.
      * rewrite list_lookup_insert_ne by done. apply Hdn.
    + intros En. destruct (c_ended _ _ Hc En) as (_ & _ & E & _). by rewrite E in Hi.
  - split; [|by apply Hdata]. apply (control_goto n s t (CLaunch i) CStop); try done; cbn in *;
      try lia. right. destruct (m_started (pool s)); lia.
  - split; [|by apply Hdata]. apply (control_goto n s t (CLaunch i) CIdle); try done; cbn in *; try lia.
    right. destruct Hok as (Hlen & Hle & Hl & _). apply lookup_ge_None in Hi.
    rewrite Hl. apply bool_decide_true. lia.
  - split; [by apply control_stop_first|by apply Hdata].
  - split; [|by apply Hdata]. apply (control_goto n s t CStop CIdle); try done; cbn in *; try lia.
    right. destruct (m_started (pool s)) eqn:E; [right|by left].
    destruct (c_stopped _ _ Hc E Hsp) as [?|[?|?]]; [lia|left; lia|by right; left].
  - pose proof (wq_stop_closed _ _ _ Hq) as Hcq. split.
    + apply (control_goto n s t CStopQueue (CJoin 0)); try done; cbn in *; try lia.
      split; [done|]. intros j w Hj. lia.
    + destruct Hd as [Ho Hf Hr Hdn He]. pose proof (tq_stop_ok _ _ _ Hq Ho).
      destruct (tq_stop_spec _ _ _ Hq) as [_ Hit]. split; cbn; rewrite ?Hit; try done.
      intros j Hj. split; [done|by apply (Hdn j)].
  - split; [|by apply Hdata]. apply (control_goto n s t (CJoin i) (CJoin (S i))); try done; cbn in *; try lia.
    destruct Hok as [? Hj]. split; [done|]. intros j w Hlt Hw.
    destruct (decide (j = i)) as [->|?]; [left; congruence|]. apply (Hj j); [lia|done].
  - split; [|by apply Hdata]. apply (control_goto n s t (CJoin i) (CJoin (S i))); try done; cbn in *; try lia.
    destruct Hok as [? Hj]. split; [done|]. intros j w Hlt Hw.
    destruct (decide (j = i)) as [->|?]; [right; congruence|]. apply (Hj j); [lia|done].
  - split; [by eapply control_join_end|]. destruct Hok as [Hcd Hj].
    destruct Hd as [Ho Hf Hr Hdn He]. apply lookup_ge_None in Hi.
    assert (Hall : ∀ j w, workers s !! j = Some w → w = WDone ∨ w = WNew).
    { intros j w Hw. apply (Hj j); [|done]. apply lookup_lt_Some in Hw. lia. }
    assert (runs (workers s) = []) as Hrs.
    { clear -Hall. induction (workers s) as [|w ws IH]; [done|]. cbn.
      destruct (Hall 0 w eq_refl) as [->| ->]; apply IH; intros j; apply (Hall (S j)). }
    rewrite Hrs, app_nil_r in Hr. split; cbn; try done; [by rewrite app_nil_r|].
    intros _ Hl. destruct (c_launched _ _ Hc Hl) as [En|(w & Hw & Hne)]; [by apply He|].
    destruct (Hall 0 w Hw) as [->|?]; [by apply (Hdn 0)|done].
  - split; [|by apply Hdata]. apply (control_goto n s t (CSubStopped task) (CSubPush task)); try done; cbn in *; lia.
  - split; [|by apply Hdata]. apply (control_goto n s t (CSubStopped task) CIdle); try done; cbn in *; lia.
  - pose proof (wq_push_closed _ _ _ _ Hq) as Hcq. split.
    + apply (control_goto n s t (CSubPush task) CIdle); try done; cbn in *; try lia. by rewrite Hcq.
    + destruct Hd as [Ho Hf Hr Hdn He]. pose proof (tq_push_ok _ _ _ _ Hq Ho).
      apply tq_push_spec in Hq as [(_ & ? & _)|(Hop & _ & Hit)]; [done|].
      split; cbn; rewrite ?Hit; try done.
      * by rewrite Hf, app_assoc.
      * intros j Hj. destruct (Hdn j Hj). congruence.
      * intros En. destruct (c_ended _ _ Hc En) as (_ & _ & _ & ?). congruence.
  - split; [|by apply Hdata]. apply (control_goto n s t (CSubPush task) CIdle); try done; cbn in *; lia.
Qed.

Lemma pool_inv_calls n s t s' : inv n s → clients s !! t = Some CIdle → calls s t s' → inv n s'.
Proof.
  intros [Hc Hd] Ht Hs. pose proof Hc as [Hn Hcl Hf Hst Hex Hp Hsp He Hun Hla Hul].
  assert (Hdata : ∀ c x, m_tasks x = m_tasks (pool s) → m_workers x = workers s →
    data (goto t c (with_pool x s))).
  { intros c x E1 E2. destruct Hd. split; cbn; rewrite ?E1, ?E2; done. }
  pose proof (Hdata CIdle (pool s) eq_refl eq_refl) as Hsame.
  destruct Hs as [E Hno|E|Hno|task E|task E]; try done.
  - split; [|by apply Hdata]. set (s1 := goto _ _ _). destruct (Hun E) as [Hw Hl]. rewrite E in *.
    assert (Hcl' : ∀ u d, clients s1 !! u = Some d → client_ok n s1 d).
    { apply (clients_goto n s s1 t CStartStore); [done|by split|]. intros u d _ Hu.
      eapply (client_ok_same n s s1 d); eauto. }
    client_counts Ht (CStartStore (T:=T)). split; [done|exact Hcl'|..]; cbn; try done; try lia.
    intros En. destruct (He En) as (? & _). done.
  - split; [|apply (Hdata _ (pool s)); done].
    apply (control_goto n s t CIdle CStop); try done; cbn; lia.
  - split; [|apply (Hdata _ (pool s)); done].
    apply (control_goto n s t CIdle (CSubStopped task)); try done; cbn; lia.
Qed.

Lemma pool_inv_init n q k : tq_ok q → tq_items q = [] → inv n (init (mkPool n q [] false true) k).
Proof.
  intros Hok Hq. assert (H0 : ∀ f : client T → nat, f CIdle = 0 → tally f (replicate k CIdle) = 0).
  { intros f Hf. apply tally_zero. by apply Forall_replicate. }
  split; split; cbn; rewrite ?H0 by done; try done; try lia.
  - by intros t c [-> _]%lookup_replicate.
Qed.

Lemma pool_inv n q k s : 0 < n → tq_ok q → tq_items q = [] →
  reachable (mkPool n q [] false true) k s → inv n s.
Proof.
  intros Hn Hok Hq Hr.
  assert (H : ∀ s1 s2, rtc step s1 s2 → inv n s1 → inv n s2).
  { induction 1 as [|x y z [[(t & c & Ht & Hs)|(i & w & Hi & Hs)]|(t & Ht & Hs)] _ IH]; [done|..];
      intros Hi'; apply IH; [by eapply inv_client|by eapply inv_worker|by eapply pool_inv_calls]. }
  eapply H; [exact Hr|]. by apply pool_inv_init.
Qed.

End clients.

(** ** Progress *)

Section progress.
Context {Q T : Type} `{!TaskQueue Q T, !WorkQueue Q T}.
Implicit Types (s : sys Q T) (c : client T) (w : worker T).
Abbreviation items s := (tq_items (m_tasks (pool s))).
Abbreviation closed s := (tq_closed (m_tasks (pool s))).
Abbreviation workers s := (m_workers (pool s)).

Definition sized (n : nat) s : Prop := m_threadCount (pool s) = n ∧ length (workers s) ≤ n.

Lemma sized_internal n s s' : sized n s → internal s s' → sized n s'.
Proof.
  intros [Hn Hl] [(t & c & _ & Hs)|(i & w & _ & Hs)]; destruct Hs; split; cbn in *;
    rewrite ?length_insert, ?length_replicate; try done; lia.
Qed.

Lemma sized_calls n s t s' : sized n s → calls s t s' → sized n s'.
Proof. by intros [Hn Hl] []. Qed.

Lemma sized_reachable n q k s : reachable (mkPool n q [] false true) k s → sized n s.
Proof.
  intros Hr. assert (H : ∀ s1 s2, rtc step s1 s2 → sized n s1 → sized n s2).
  { induction 1 as [|x y z [Hs|(t & _ & Hs)] _ IH]; [done|..]; intros Hi; apply IH;
      [by eapply sized_internal|by eapply sized_calls]. }
  eapply H; [exact Hr|]. split; cbn; [done|lia].
Qed.

(** Goes down with every step of a thread that is in a call and of a worker. *)
Definition client_weight (n : nat) c : nat :=
  match c with
  | CIdle => 0
  | CSubPush _ => 3
  | CSubStopped _ => 4
  | CJoin i => S (n - i)
  | CStopQueue => n + 2
  | CStop => n + 3
  | CLaunch _ => n + 4
  | CStartMake => 3 * n + 5
  | CStartStore => 3 * n + 6
  end.
Definition worker_weight w : nat :=
  match w with WNew => 2 | WPop => 1 | WRun _ => 2 | WDone => 0 end.
Definition measure (n : nat) s : nat :=
  tally (client_weight n) (clients s) + 2 * length (items s) + tally worker_weight (workers s).

Lemma new_weight k : tally worker_weight (replicate k (WNew (T:=T))) = 2 * k.
Proof. unfold tally. induction k as [|k IH]; cbn in *; lia. Qed.

Lemma measure_internal n s s' : sized n s → internal s s' → measure n s' < measure n s.
Proof.
  intros [Hn Hl] [(t & c & Ht & Hs)|(i & w & Hi & Hs)]; unfold measure.
  - pose proof (λ c', tally_insert (client_weight n) _ _ _ c' Ht) as Hw.
    destruct Hs as [| |i Hi|i Hi|i Hi|Hsp|Hsp|b q Hq|i Hi|i Hi|i Hi|task Hsp|task Hsp|task q Hr Hq|task q e Hr Hq];
      cbn [clients goto with_pool with_worker pool log_launched log_ended log_submitted set_stopped
        set_workers set_tasks m_tasks m_workers].
    + specialize (Hw CStartMake). cbn in Hw. lia.
    + specialize (Hw (CLaunch 0)). cbn in Hw. rewrite new_weight, Hn. lia.
    + specialize (Hw (CLaunch (S i))). cbn in Hw.
      pose proof (tally_insert worker_weight _ _ _ WPop Hi) as Hv. cbn in Hv. lia.
    + specialize (Hw CStop). cbn in Hw. lia.
    + specialize (Hw CIdle). cbn in Hw. lia.
    + specialize (Hw CStopQueue). cbn in Hw. lia.
    + specialize (Hw CIdle). cbn in Hw. lia.
    + specialize (Hw (CJoin 0)). cbn [client_weight] in Hw. destruct (tq_stop_spec _ _ _ Hq) as [_ ->]. lia.
    + specialize (Hw (CJoin (S i))). cbn [client_weight] in Hw. apply lookup_lt_Some in Hi. lia.
    + specialize (Hw (CJoin (S i))). cbn [client_weight] in Hw. apply lookup_lt_Some in Hi. lia.
    + specialize (Hw CIdle). cbn [client_weight] in Hw. change (tally worker_weight []) with 0. lia.
    + specialize (Hw (CSubPush task)). cbn in Hw. lia.
    + specialize (Hw CIdle). cbn in Hw. lia.
    + specialize (Hw CIdle). cbn in Hw.
      apply tq_push_spec in Hq as [(_ & ? & _)|(_ & _ & ->)]; [done|]. rewrite length_app. cbn. lia.
    + specialize (Hw CIdle). cbn in Hw. lia.
  - pose proof (λ w', tally_insert worker_weight _ _ _ w' Hi) as Hw.
    destruct Hs as [task q Hrd Hp|q e Hrd Hp|task];
      cbn [clients goto with_pool with_worker pool log_begun log_finished set_workers set_tasks m_tasks m_workers].
    + specialize (Hw (WRun task)). cbn in Hw.
      apply wq_pop_spec in Hp as [(_ & ? & _)|(v & l & -> & _ & -> & _)]; [done|]. cbn. lia.
    + specialize (Hw WDone). cbn in Hw. lia.
    + specialize (Hw WPop). cbn in Hw. lia.
Qed.

Lemma measure_nsteps n k s s' : sized n s → nsteps internal k s s' → k + measure n s' ≤ measure n s.
Proof.
  intros Hs Hk. induction Hk as [|k x y z H _ IH]; [lia|].
  pose proof (measure_internal n x y Hs H). pose proof (sized_internal n x y Hs H) as Hy.
  specialize (IH Hy). lia.
Qed.

Lemma measure_bound n s : sized n s →
  measure n s ≤ (3 * n + 6) * length (clients s) + 2 * length (items s) + 2 * n.
Proof.
  intros [_ Hl]. unfold measure.
  pose proof (tally_bound (client_weight n) (clients s) (3 * n + 6)) as H1.
  pose proof (tally_bound worker_weight (workers s) 2) as H2.
  assert (∀ c, client_weight n c ≤ 3 * n + 6) as Hc by (intros []; cbn; lia).
  assert (∀ w, worker_weight w ≤ 2) as Hw by (intros []; cbn; lia).
  specialize (H1 Hc). specialize (H2 Hw). lia.
Qed.

(** A worker that can neither take a task nor end is waiting at an empty, open queue. *)
Lemma rest_worker s i w : (∀ s', ¬ internal s s') → workers s !! i = Some w →
  w = WNew ∨ w = WDone ∨ w = WPop ∧ items s = [] ∧ closed s = false.
Proof.
  intros Hq Hi. destruct w as [| |task|]; [by left| | |by right; left].
  - right; right. destruct (wq_ready (m_tasks (pool s))) eqn:E.
    + destruct (wq_pop (m_tasks (pool s))) as [r q'] eqn:Ep.
      pose proof (wq_pop_spec _ _ _ Ep) as [(_ & -> & _)|(v & l & _ & -> & _)];
        edestruct Hq; right; exists i, WPop; (split; [done|]); [by eapply worker_end|by eapply worker_pop].
    + pose proof (wq_ready_spec (m_tasks (pool s))) as H. rewrite E in H.
      destruct (closed s) eqn:Ec; [destruct H as [_ H]; by discriminate (H (or_introl eq_refl))|].
      destruct (items s) eqn:Ei; [done|]. destruct H as [_ H]. discriminate H. by right.
  - edestruct Hq. right. exists i, (WRun task). split; [done|]. apply worker_ran.
Qed.

Lemma rest_client n s t c : inv n s → (∀ s', ¬ internal s s') → clients s !! t = Some c →
  c = CIdle ∨ ∃ task, c = CSubPush task ∧ items s ≠ [] ∧ closed s = false.
Proof.
  intros [Hc Hd] Hq Ht. pose proof (c_clients _ _ Hc _ _ Ht) as Hok.
  assert (Hno : ∀ s', client_step s t c s' → False).
  { intros s' Hs. apply (Hq s'). left. by exists t, c. }
  destruct c as [| | |i| | |i|task|task]; [by left|exfalso..|].
  - eapply Hno, start_store.
  - eapply Hno, start_make.
  - destruct Hok as (_ & _ & _ & Hnew). destruct (workers s !! i) as [w|] eqn:E.
    + assert (w = WNew) as -> by (by apply (Hnew i w E)). by eapply Hno, launch.
    + by eapply Hno, launch_end.
  - destruct (m_stopped (pool s)) eqn:E; [by eapply Hno, stop_again|by eapply Hno, stop_first].
  - destruct (tq_stop (m_tasks (pool s))) as [r q'] eqn:E.
    destruct (tq_stop_spec _ _ _ E) as [[b ->] _]. by eapply Hno, stop_queue.
  - destruct Hok as [Hcl _]. destruct (workers s !! i) as [w|] eqn:E; [|by eapply Hno, join_end].
    destruct (rest_worker s i w Hq E) as [->|[->|(_ & _ & ?)]];
      [by eapply Hno, join_skip|by eapply Hno, join|congruence].
  - destruct (m_stopped (pool s)) eqn:E; [by eapply Hno, sub_reject|by eapply Hno, sub_accept].
  - right. exists task. split; [done|].
    destruct (tq_ready (m_tasks (pool s))) eqn:Er.
    + exfalso. destruct (tq_push task (m_tasks (pool s))) as [r q'] eqn:E.
      pose proof (tq_push_spec _ _ _ _ E) as [(_ & -> & _)|(_ & -> & _)];
        [by eapply Hno, sub_throw|by eapply Hno, sub_push].
    + split; [apply tq_full; [apply (d_ok _ Hd)|done]|].
      destruct (closed s) eqn:Ec; [|done]. by rewrite wq_closed_ready in Er.
Qed.

(** At rest, tasks are left in the queue only if no worker was ever started. *)
Lemma rest_items n s : inv n s → (∀ s', ¬ internal s s') → launched s = true → items s = [].
Proof.
  intros [Hc Hd] Hq Hl. destruct (c_launched _ _ Hc Hl) as [En|(w & Hw & Hne)].
  - by apply (d_ended _ Hd).
  - destruct (rest_worker s 0 w Hq Hw) as [->|[->|(_ & ? & _)]]; [done| |done].
    by apply (d_done _ Hd 0).
Qed.

Lemma rest_idle n s t c : inv n s → (∀ s', ¬ internal s s') → clients s !! t = Some c → c = CIdle.
Proof.
  intros Hi Hq Ht. destruct (rest_client n s t c Hi Hq Ht) as [->|(task & -> & Hne & Hop)]; [done|].
  exfalso. pose proof Hi as [Hc Hd]. pose proof (c_clients _ _ Hc _ _ Ht) as Hst. cbn in Hst.
  destruct (c_unlaunched _ _ Hc Hst) as [Hl|[Hp|[Hp|He]]].
  - by apply Hne, (rest_items n).
  - apply tally_witness in Hp as (u & d & Hu & Hd0).
    destruct (rest_client n s u d Hi Hq Hu) as [->|(? & -> & _)]; cbn in Hd0; lia.
  - apply tally_witness in Hp as (u & d & Hu & Hd0).
    destruct (rest_client n s u d Hi Hq Hu) as [->|(? & -> & _)]; cbn in Hd0; lia.
  - destruct (c_ended _ _ Hc He) as (_ & _ & _ & ?). congruence.
Qed.

Lemma rest_runs s : (∀ s', ¬ internal s s') → runs (workers s) = [].
Proof.
  intros Hq. assert (H : ∀ i w, workers s !! i = Some w → running w = []).
  { intros i w Hi. destruct (rest_worker s i w Hq Hi) as [->|[->|(-> & _)]]; done. }
  clear Hq. unfold runs. induction (workers s) as [|w ws IH]; [done|]. cbn.
  rewrite (H 0 w eq_refl). apply IH. intros i. apply (H (S i)).
Qed.

End progress.

(** ** Properties *)

(** In every interleaving of clients and workers, tasks begin in the order in which
    [submit] put them into the queue, each once: the tasks accepted are those begun followed
    by those still queued, and those begun are the finished and the running ones.  Once
    [stop] has returned from joining the workers, every accepted task has finished, if any
    worker was started; and nothing is accepted any more. *)
Lemma pool_exactly_once {Q T} `{!TaskQueue Q T, !WorkQueue Q T} n (q : Q) x k (s : sys Q T) :
  ThreadPool_make n q = Ok x → tq_ok q → tq_items q = [] → reachable x k s →
  submitted s = begun s ++ tq_items (m_tasks (pool s)) ∧
  begun s ≡ₚ finished s ++ runs (m_workers (pool s)) ∧
  (ended s = true → launched s = true → finished s ≡ₚ submitted s) ∧
  (ended s = true → ∀ s', step s s' → submitted s' = submitted s).
Proof.
  unfold ThreadPool_make. destruct (Nat.eqb_spec n 0) as [|Hn]; [done|]. intros [= <-] Hok Hq Hr.
  destruct (pool_inv n q k s ltac:(lia) Hok Hq Hr) as [Hc [_ Hf Hru _ He]]. split_and!; try done.
  - intros E1 E2. destruct (c_ended _ _ Hc E1) as (_ & _ & Hw & _).
    rewrite Hf, (He E1 E2), app_nil_r, Hru, Hw. by rewrite app_nil_r.
  - intros E s' [[(t & c & _ & Hs)|(i & w & _ & Hs)]|(t & _ & Hs)]; destruct Hs; try done.
    destruct (c_ended _ _ Hc E) as (_ & _ & _ & Hcl).
    match goal with H : tq_push _ _ = _ |- _ => apply tq_push_spec in H as [(_ & ? & _)|(? & _)] end;
      congruence.
Qed.

(** C17: The pool leaves nothing undone, when tasks return and [start] and [stop] do not overlap.
    From every reachable state the calls and the workers
    come to rest by themselves within the stated number of steps, whatever the schedule (a
    worker whose [popFor] times out only waits again); at rest no call of [start], [stop] or
    [submit] is blocked; and if a worker was started, the queue is empty and every accepted
    task has finished. *)
Theorem pool_no_stranded {Q T} `{!TaskQueue Q T, !WorkQueue Q T} n (q : Q) x k (s : sys Q T) :
  ThreadPool_make n q = Ok x → tq_ok q → tq_items q = [] → reachable x k s →
  (∀ j s', nsteps internal j s s' →
     j ≤ (3 * n + 6) * length (clients s) + 2 * pendingTaskCount (pool s) + 2 * n) ∧
  ((∀ s', ¬ internal s s') →
     Forall (λ c, c = CIdle) (clients s) ∧
     (launched s = true → pendingTaskCount (pool s) = 0 ∧ finished s ≡ₚ submitted s)).
Proof.
  unfold ThreadPool_make. destruct (Nat.eqb_spec n 0) as [|Hn]; [done|]. intros [= <-] Hok Hq Hr.
  pose proof (pool_inv n q k s ltac:(lia) Hok Hq Hr) as Hi. split.
  - intros j s' Hj. pose proof (sized_reachable n q k s Hr) as Hs.
    pose proof (measure_nsteps n j s s' Hs Hj). pose proof (measure_bound n s Hs).
    unfold pendingTaskCount. lia.
  - intros Hrest. split.
    + apply Forall_forall. intros c [t Ht]%list_elem_of_lookup. by eapply rest_idle.
    + intros Hl. pose proof (rest_items n s Hi Hrest Hl) as Hit. destruct Hi as [_ [_ Hf Hru _ _]].
      unfold pendingTaskCount. rewrite Hit. split; [done|].
      by rewrite Hf, Hit, app_nil_r, Hru, (rest_runs s Hrest), app_nil_r.
Qed.

(** ** Instances *)

(** One worker, one client: start, submit a task, run it, stop. *)
Definition empty_queue : BlockingQueue Z := BlockingQueue_make 0.
Definition small_pool : ThreadPool (BlockingQueue Z) Z := mkPool 1 empty_queue [] false true.
Definition stopped_pool : ThreadPool (BlockingQueue Z) Z :=
  mkPool 1 (mkQueue 0 [] true) [] true true.
Definition stopped_sys : sys (BlockingQueue Z) Z :=
  mkSys stopped_pool [CIdle] [7%Z] [7%Z] [7%Z] true true.

(** Take the step of the only client, of the only worker, or a call of the client. *)
Tactic Notation "moves" uconstr(rule) :=
  eapply rtc_l; [left; left; exists 0; eexists; split; [reflexivity|eapply rule; reflexivity]|].
Tactic Notation "works" uconstr(rule) :=
  eapply rtc_l; [left; right; exists 0; eexists; split; [reflexivity|eapply rule; reflexivity]|].
Tactic Notation "asks" uconstr(rule) :=
  eapply rtc_l; [right; exists 0; split; [reflexivity|eapply rule; reflexivity]|].

Lemma stopped_reachable : reachable small_pool 1 stopped_sys.
Proof.
  unfold reachable. asks call_start. moves start_store. moves start_make. moves launch.
  moves launch_end. asks (call_submit _ _ 7%Z). moves sub_accept. moves sub_push.
  works worker_pop. works worker_ran. asks call_stop. moves stop_first. moves stop_queue.
  works worker_end. moves join. moves join_end. apply rtc_refl.
Qed.

Lemma stopped_rest s' : ¬ internal stopped_sys s'.
Proof.
  intros [(t & c & Ht & Hs)|(i & w & Hi & _)]; [|done].
  destruct t as [|t]; [|done]. injection Ht as <-. inversion Hs.
Qed.

Lemma pool_no_stranded_witness : pendingTaskCount (pool stopped_sys) = 0 ∧
  finished stopped_sys ≡ₚ submitted stopped_sys.
Proof.
  destruct (pool_no_stranded 1 empty_queue small_pool 1 stopped_sys) as (_ & H);
    [reflexivity|unfold tq_ok; cbn; lia|reflexivity|apply stopped_reachable|].
  exact (proj2 (H stopped_rest) eq_refl).
Defined.
