(* ===== verification/ShardedExecutor.v ===== *)
(** * [dbase::thread::ShardedExecutor] (code/src/thread/sharded_executor.cpp, sharded_executor.h)

    A key selects one of several serial executors.  [start] and [stop] are modelled on the
    members of the executors, in the thread that calls them; the threads at work are those of
    [SerialExecutor], one system per shard, and a step of the whole is a step of one shard.  A
    task carries its key; [std::hash] is a parameter. *)

From stdpp Require Import base list relations.
From Stdlib Require Import ZArith Lia.
From S2P Require Import Prelude BlockingQueue SerialExecutor.

Section sharded.
Context {Q K T : Type} `{!EqDecision K, !TaskQueue Q (K * T)} (hash : K → nat).
Abbreviation Task := (K * T)%type.
Abbreviation Executor := (SerialExecutor Q).

(** ** Construction, [start] and [stop] *)

Definition ShardedExecutor_make (shardCount : nat) (q : Q) : res (list Executor) :=
  if Nat.eqb shardCount 0 then Throw invalid_argument
  else Ok (replicate shardCount (SerialExecutor_make q)).

(** [SerialExecutor::start] and [stop], without interruption *)
Definition executor_start (x : Executor) : res () * Executor :=
  if m_started x then (Throw logic_error, x)
  else (Ok tt, set_stopped false (set_started true x)).
Definition executor_stop (x : Executor) : Executor :=
  if m_stopped x then x else set_tasks (tq_stop (m_tasks x)).2 (set_stopped true x).

Fixpoint start_each (xs : list Executor) : res () * list Executor :=
  match xs with
  | [] => (Ok tt, [])
  | x :: xs =>
      match executor_start x with
      | (Ok _, x') => let '(r, xs') := start_each xs in (r, x' :: xs')
      | (e, x') => (e, x' :: xs)
      end
  end.
Definition stop (xs : list Executor) : list Executor := executor_stop <$> xs.
Definition start (xs : list Executor) : res () * list Executor :=
  match start_each xs with
  | (Ok _, xs') => (Ok tt, xs')
  | (e, xs') => (e, stop xs')
  end.

Definition started (xs : list Executor) : bool := forallb SerialExecutor.started xs.
Definition stopped (xs : list Executor) : bool := forallb SerialExecutor.stopped xs.
Definition pendingTaskCount (xs : list Executor) : nat :=
  sum_list_with (λ x, length (tq_items (m_tasks x))) xs.

Definition executorAt {A} (xs : list A) (shardIndex : nat) : res A :=
  match xs !! shardIndex with
  | None => Throw out_of_range
  | Some x => Ok x
  end.

Definition shardIndexFor (shardCount : nat) (key : K) : nat := hash key mod shardCount.
Definition executorForKey {A} (xs : list A) (key : K) : res A :=
  match xs !! shardIndexFor (length xs) key with
  | None => Undef
  | Some x => Ok x
  end.

Lemma stop_stopped xs : stopped (stop xs) = true.
Proof.
  unfold stopped, stop, SerialExecutor.stopped. induction xs as [|x xs IH]; [done|]. cbn.
  rewrite IH, andb_true_r. unfold executor_stop. by destruct (SerialExecutor.m_stopped x) eqn:E.
Qed.

(** ** The shards at work *)

Abbreviation shards := (list (SerialExecutor.sys Q Task)).

(** A submission goes to the shard of its key. *)
Definition routed (n i t : nat) (s : SerialExecutor.sys Q Task) : Prop :=
  ∀ task, threads s !! t = Some (SubStopped task) → shardIndexFor n (fst task) = i.

Inductive sharded_step (ss : shards) : shards → Prop :=
  | shard_internal i s s' : ss !! i = Some s → internal s s' → sharded_step ss (<[i := s']> ss)
  | shard_call i s t s' : ss !! i = Some s → threads s !! t = Some Client → calls s t s' →
      routed (length ss) i t s' → sharded_step ss (<[i := s']> ss).

Definition sharded_init (n : nat) (q : Q) (clients workers : nat) : shards :=
  replicate n (init q clients workers).

Definition sharded_reachable (n : nat) (q : Q) (clients workers : nat) : shards → Prop :=
  rtc sharded_step (sharded_init n q clients workers).

(** ** The invariant *)

(** Every task of shard [i], submitted or being submitted, has its key there. *)
Definition at_home (n i : nat) (s : SerialExecutor.sys Q Task) : Prop :=
  Forall (λ task, shardIndexFor n (fst task) = i) (submitted s) ∧
  ∀ t task, threads s !! t = Some (SubStopped task) ∨ threads s !! t = Some (SubPush task) →
    shardIndexFor n (fst task) = i.

Lemma home_goto n i t s s' p : at_home n i s → submitted s' = submitted s →
  threads s' = <[t := p]> (threads s) →
  (∀ task, p = SubStopped task ∨ p = SubPush task → shardIndexFor n (fst task) = i) → at_home n i s'.
Proof.
  intros [Hs Ht] E1 E2 Hp. split; [by rewrite E1|]. intros u task. rewrite E2.
  destruct (decide (u = t)) as [->|Hne].
  - destruct (decide (t < length (threads s))) as [Hlt|Hge].
    + rewrite list_lookup_insert_eq by done. intros [[= ->]|[= ->]]; auto.
    + rewrite list_insert_ge by lia. apply Ht.
  - rewrite list_lookup_insert_ne by done. apply Ht.
Qed.

Lemma home_internal n i s s' : at_home n i s → internal s s' → at_home n i s'.
Proof.
  intros Hh (t & p & Ht & Hm). pose proof Hh as [Hs Hth].
  destruct Hm; try (eapply (home_goto n i t s); try done; intros task' [?|?]; simplify_eq;
    try (by destruct w); apply (Hth t); by auto).
  split; cbn.
  - apply Forall_app. split; [done|]. apply Forall_singleton. apply (Hth t). by right.
  - intros u task'. destruct (decide (u = t)) as [->|Hne].
    + rewrite list_lookup_insert_eq by (by eapply lookup_lt_Some). by intros [?|?].
    + rewrite list_lookup_insert_ne by done. apply Hth.
Qed.

Lemma home_calls n i s t s' : at_home n i s → threads s !! t = Some Client → calls s t s' →
  routed n i t s' → at_home n i s'.
Proof.
  intros Hh Ht Hc Hr. destruct Hc; try done; eapply (home_goto n i t s); try done; intros task' [?|?];
    simplify_eq. apply Hr. cbn. apply list_lookup_insert_eq. by eapply lookup_lt_Some.
Qed.

Lemma shards_ok n q clients workers ss : sharded_reachable n q clients workers ss →
  length ss = n ∧ ∀ i s, ss !! i = Some s → reachable q clients workers s ∧ at_home n i s.
Proof.
  intros Hr. unfold sharded_reachable in Hr.
  assert (H : ∀ s1 s2, rtc sharded_step s1 s2 →
    length s1 = n ∧ (∀ i s, s1 !! i = Some s → reachable q clients workers s ∧ at_home n i s) →
    length s2 = n ∧ (∀ i s, s2 !! i = Some s → reachable q clients workers s ∧ at_home n i s)).
  { induction 1 as [|x y z Hs _ IH]; [done|]. intros [Hn Hx]. apply IH.
    assert (Hone : ∀ i s s', x !! i = Some s → step s s' → at_home n i s' →
      ∀ j u, <[i := s']> x !! j = Some u → reachable q clients workers u ∧ at_home n j u).
    { intros i s s' Hi Hst Hh j u Hj. destruct (decide (i = j)) as [<-|Hne].
      - rewrite list_lookup_insert_eq in Hj by (by eapply lookup_lt_Some). injection Hj as <-.
        split; [|done]. eapply rtc_r; [apply (Hx i s Hi)|done].
      - rewrite list_lookup_insert_ne in Hj by done. by apply Hx. }
    destruct Hs as [i s s' Hi Hs|i s t s' Hi Ht Hc Hro]; rewrite length_insert; (split; [done|]).
    - apply (Hone i s s' Hi); [by left|]. eapply home_internal; [apply (Hx i s Hi)|done].
    - apply (Hone i s s' Hi); [right; by exists t|]. rewrite Hn in Hro.
      eapply home_calls; [apply (Hx i s Hi)|done..]. }
  apply (H _ _ Hr). split; [apply length_replicate|]. intros i s [-> _]%lookup_replicate.
  split; [apply rtc_refl|]. split; [constructor|]. intros t task Ht. exfalso. cbn in Ht.
  assert (He : ∀ p, (replicate clients Client ++ replicate workers Worker) !! t = Some p →
    p = Client ∨ p = (Worker (T:=Task))).
  { intros p [Hp|[_ Hp]]%lookup_app_Some; apply lookup_replicate in Hp as [-> _]; auto. }
  destruct Ht as [Ht|Ht]; apply He in Ht as [?|?]; done.
Qed.

End sharded.

(** ** Properties *)

(** Tasks with the same key are run by one shard, in the order in which they were put
    into its queue, each at most once and never two at the same time, in every interleaving of
    the threads of all shards: the tasks of a key begun so far are a prefix of those submitted,
    and no other shard has seen the key. *)
Lemma sharded_key_order {Q K T} `{!EqDecision K, !TaskQueue Q (K * T)} (hash : K → nat)
    n (q : Q) xs clients workers ss key i s :
  ShardedExecutor_make n q = Ok xs → tq_ok q → tq_items q = [] →
  sharded_reachable hash n q clients workers ss → ss !! i = Some s →
  if decide (i = shardIndexFor hash n key)
  then filter (λ task, fst task = key) (executed s) `prefix_of` filter (λ task, fst task = key) (submitted s) ∧
    ∀ t1 t2 task1 task2, threads s !! t1 = Some (DrainRun task1) →
      threads s !! t2 = Some (DrainRun task2) → t1 = t2
  else filter (λ task, fst task = key) (submitted s) = [].
Proof.
  intros _ Hok Hq Hr Hi. destruct (shards_ok hash n q clients workers ss Hr) as [_ Hall].
  destruct (Hall i s Hi) as [Hrs [Hhome _]].
  pose proof (serial_inv q clients workers s Hok Hq Hrs) as Hinv. case_decide as E.
  - split.
    + rewrite (inv_fifo _ _ Hinv), filter_app. by eexists.
    + intros t1 t2 task1 task2 H1 H2. destruct (decide (t1 = t2)) as [|Hne]; [done|].
      pose proof (tally_two holder _ _ _ _ _ H1 H2 Hne) as H. simpl in H.
      pose proof (inv_run _ _ Hinv). destruct (m_running (exec s)); lia.
  - clear -Hhome E. induction Hhome as [|task l Ht _ IH]; [done|].
    rewrite filter_cons_False; [done|]. intros <-. by apply E.
Qed.

(** [start] on executors that are started throws, as it should, and stops all of them. *)
Theorem start_again_stops {Q K T} `{!TaskQueue Q (K * T)} x (xs : list (SerialExecutor Q)) :
  Forall (λ y, SerialExecutor.started y = true) (x :: xs) →
  ∃ xs', start (K:=K) (T:=T) (x :: xs) = (Throw logic_error, xs') ∧ stopped xs' = true.
Proof.
  intros Hall. inversion Hall as [|? ? Hx _]; subst. apply andb_prop in Hx as [Hx _].
  exists (stop (x :: xs)). split; [|apply stop_stopped]. unfold start. cbn [start_each].
  unfold executor_start. by rewrite Hx.
Qed.

(** ** Instances *)

(** Two shards; the task with key 3 goes to shard 1 and is being submitted. *)
Definition two_shards : list (sys (BlockingQueue (nat * Z)) (nat * Z)) :=
  let s := init (BlockingQueue_make 0) 1 1 in
  [s; goto 0 (SubStopped (3, 7%Z)) (goto 0 Client (with_exec (SerialExecutor.set_stopped false
        (exec (goto 0 StartStore (with_exec (SerialExecutor.set_started true (exec s)) s))))
        (goto 0 StartStore (with_exec (SerialExecutor.set_started true (exec s)) s))))].

Lemma two_reachable : sharded_reachable (λ k, k) 2 (BlockingQueue_make 0) 1 1 two_shards.
Proof.
  unfold sharded_reachable.
  eapply rtc_l; [eapply (shard_call _ _ 1 _ 0); [reflexivity|reflexivity|by apply call_start|done]|].
  eapply rtc_l.
  { eapply (shard_internal _ _ 1); [reflexivity|]. exists 0, StartStore.
    split; [reflexivity|apply start_store]. }
  eapply rtc_l.
  { eapply (shard_call _ _ 1 _ 0); [reflexivity|reflexivity|by apply (call_submit _ _ (3, 7%Z))|].
    intros task [= <-]. reflexivity. }
  apply rtc_refl.
Qed.
