(* ===== verification/TimerQueue.v ===== *)
(** * [dbase::thread::TimerQueue] (code/src/thread/timer_queue.cpp, timer_queue.h)

    A worker thread that runs tasks at given times, and any number of threads that add and
    cancel them.  A step is one access to an atomic member, one section under the mutex, or
    one notification; the worker keeps the mutex from one round of its inner loop to the next
    ([WScan]), and then no other thread takes it.  Time passes at any moment.  Only the
    worker waits on the condition variable; it wakes by a notification, spuriously, or when
    its time is up, takes the mutex and tests its predicate again.  Times and counters are
    unbounded integers (64 bits of nanoseconds, ids and generations are not exhausted).
    [ran] is the history of the tasks the worker executed, with the time: it ran them itself, or
    handed a copy to the pool of [setThreadPool] ([executeTask]).  The pool runs the copies it
    was given at any later moment, in any order ([pool_ran]).  A task that the worker runs
    returns or throws; an exception, also that of [submit], leaves the thread and ends the
    program ([WCrashed]; that other threads may still take steps adds runs and takes none). *)

From stdpp Require Import base gmap list relations.
From Stdlib Require Import ZArith Lia.
From S2P Require Import Prelude.

Local Open Scope Z_scope.
#[local] Arguments tally : simpl never.

Record TimerTask : Type := mkTask {
  id : Z;
  expiration : Z;
  interval : Z;
  repeat : bool;
  generation : Z;
}.

Definition set_expiration (e : Z) (t : TimerTask) : TimerTask :=
  mkTask (id t) e (interval t) (repeat t) (generation t).

(** [TimerTaskCompare]: the one that is later sinks. *)
Definition later (lhs rhs : TimerTask) : bool :=
  if negb (expiration lhs =? expiration rhs)
  then expiration rhs <? expiration lhs
  else id rhs <? id lhs.

(** [m_tasks.top()] and [m_tasks.pop()] *)
Fixpoint top (q : list TimerTask) : option TimerTask :=
  match q with
  | [] => None
  | x :: q =>
      match top q with
      | None => Some x
      | Some y => Some (if later x y then y else x)
      end
  end.

Fixpoint remove_id (i : Z) (q : list TimerTask) : list TimerTask :=
  match q with
  | [] => []
  | x :: q => if id x =? i then q else x :: remove_id i q
  end.
Definition pop (q : list TimerTask) : list TimerTask :=
  match top q with Some t => remove_id (id t) q | None => q end.

Record TimerQueue : Type := mkQueue {
  m_tasks : list TimerTask;
  m_cancelled : gset Z;
  m_nextId : Z;
  m_started : bool;
  m_stopped : bool;
  m_cancelGeneration : Z;
  stop_requested : bool;   (* of the thread's stop token *)
}.

Definition TimerQueue_make : TimerQueue := mkQueue [] ∅ 0 false true 0 false.

Definition set_tasks (x : list TimerTask) (q : TimerQueue) : TimerQueue :=
  mkQueue x (m_cancelled q) (m_nextId q) (m_started q) (m_stopped q) (m_cancelGeneration q) (stop_requested q).
Definition set_cancelled (x : gset Z) (q : TimerQueue) : TimerQueue :=
  mkQueue (m_tasks q) x (m_nextId q) (m_started q) (m_stopped q) (m_cancelGeneration q) (stop_requested q).
Definition set_nextId (x : Z) (q : TimerQueue) : TimerQueue :=
  mkQueue (m_tasks q) (m_cancelled q) x (m_started q) (m_stopped q) (m_cancelGeneration q) (stop_requested q).
Definition set_started (x : bool) (q : TimerQueue) : TimerQueue :=
  mkQueue (m_tasks q) (m_cancelled q) (m_nextId q) x (m_stopped q) (m_cancelGeneration q) (stop_requested q).
Definition set_stopped (x : bool) (q : TimerQueue) : TimerQueue :=
  mkQueue (m_tasks q) (m_cancelled q) (m_nextId q) (m_started q) x (m_cancelGeneration q) (stop_requested q).
Definition set_generation (x : Z) (q : TimerQueue) : TimerQueue :=
  mkQueue (m_tasks q) (m_cancelled q) (m_nextId q) (m_started q) (m_stopped q) x (stop_requested q).
Definition set_stop_requested (x : bool) (q : TimerQueue) : TimerQueue :=
  mkQueue (m_tasks q) (m_cancelled q) (m_nextId q) (m_started q) (m_stopped q) (m_cancelGeneration q) x.

Definition started (q : TimerQueue) : bool := m_started q && negb (m_stopped q).
Definition stopped (q : TimerQueue) : bool := m_stopped q.
Definition size (q : TimerQueue) : nat := length (m_tasks q).

Definition isCancelledLocked (t : TimerTask) (q : TimerQueue) : bool :=
  (generation t <? m_cancelGeneration q) || bool_decide (id t ∈ m_cancelled q).

(** The sections under the mutex *)
Definition forget (t : TimerTask) (q : TimerQueue) : TimerQueue :=
  set_cancelled (m_cancelled q ∖ {[id t]}) q.
Definition cancel (i : Z) (q : TimerQueue) : bool * TimerQueue :=
  (negb (bool_decide (i ∈ m_cancelled q)), set_cancelled ({[i]} ∪ m_cancelled q) q).
Definition cancelAll (q : TimerQueue) : TimerQueue :=
  set_generation (m_cancelGeneration q + 1) (set_cancelled ∅ q).
Definition stop_clear (q : TimerQueue) : TimerQueue :=
  set_cancelled ∅ (set_tasks [] (set_generation (m_cancelGeneration q + 1) q)).
Definition pushTask (t : TimerTask) (q : TimerQueue) : TimerQueue := set_tasks (t :: m_tasks q) q.

(** A task to be added: a time for [runAt], an interval for [runEvery]. *)
Inductive Request : Type :=
  | RunAt (timePoint : Z)
  | RunEvery (interval : Z).

Definition make_task (r : Request) (now : Z) (q : TimerQueue) : TimerTask :=
  match r with
  | RunAt timePoint => mkTask (m_nextId q + 1) timePoint 0 false (m_cancelGeneration q)
  | RunEvery interval =>
      mkTask (m_nextId q + 1) (now + interval * 1000000) interval true (m_cancelGeneration q)
  end.

(** ** The threads *)

Inductive worker : Type :=
  | WNone                      (* the thread is not started *)
  | WTop                       (* [while (!stopToken.stop_requested())] *)
  | WTest                      (* to lock and test the predicate of [wait] *)
  | WWait                      (* blocked in [wait] *)
  | WScan                      (* holds the mutex, before a round of the inner loop *)
  | WSleep (t : TimerTask)     (* blocked in [wait_until] *)
  | WSleepTest (t : TimerTask) (* to lock and test the predicate of [wait_until] *)
  | WPopped (t : TimerTask)    (* to lock and test for cancellation *)
  | WExec (t : TimerTask)      (* to execute *)
  | WAfter (t : TimerTask)     (* executed a repeating task, to lock and test again *)
  | WRearm (t : TimerTask)     (* to load [m_stopped] and the stop token *)
  | WPush (t : TimerTask)      (* to push the task again *)
  | WEnd
  | WCrashed.                  (* an exception left the thread *)

Inductive pc : Type :=
  | TIdle
  | TStartStore                (* [start]: [m_started] set, to store [m_stopped] *)
  | TStartLaunch               (* [start]: to start the thread *)
  | TRunStopped (r : Request)  (* [runAt], [runEvery]: [m_started] seen set, to load [m_stopped] *)
  | TRunAlloc (r : Request)    (* to lock and number the task *)
  | TRunPush (t : TimerTask)   (* to lock and push it *)
  | TNotify                    (* to notify *)
  | TStopLock                  (* [stop]: [m_stopped] set, to lock and clear *)
  | TStopNotify
  | TStopRequest
  | TStopJoin.

(** [m_threadPool]: whether there is one, the copies it has accepted and not yet run, and the
    history of those it ran *)
Record Pool : Type := mkPool {
  m_threadPool : bool;
  submitted : list TimerTask;
  pool_ran : list (TimerTask * Z);
}.

Record sys : Type := mkSys {
  tq : TimerQueue;
  wk : worker;
  threads : list pc;
  clock : Z;
  ran : list (TimerTask * Z);
  pool : Pool;
}.

Definition with_tq (q : TimerQueue) (s : sys) : sys :=
  mkSys q (wk s) (threads s) (clock s) (ran s) (pool s).
Definition with_wk (w : worker) (s : sys) : sys :=
  mkSys (tq s) w (threads s) (clock s) (ran s) (pool s).
Definition goto (i : nat) (p : pc) (s : sys) : sys :=
  mkSys (tq s) (wk s) (<[i := p]> (threads s)) (clock s) (ran s) (pool s).
Definition with_clock (c : Z) (s : sys) : sys :=
  mkSys (tq s) (wk s) (threads s) c (ran s) (pool s).
Definition log_ran (t : TimerTask) (s : sys) : sys :=
  mkSys (tq s) (wk s) (threads s) (clock s) (ran s ++ [(t, clock s)]) (pool s).
Definition with_pool (p : Pool) (s : sys) : sys :=
  mkSys (tq s) (wk s) (threads s) (clock s) (ran s) p.

Definition setThreadPool (b : bool) (s : sys) : sys :=
  with_pool (mkPool b (submitted (pool s)) (pool_ran (pool s))) s.
Definition submit (t : TimerTask) (s : sys) : sys :=
  with_pool (mkPool (m_threadPool (pool s)) (submitted (pool s) ++ [t]) (pool_ran (pool s))) s.

(** [executeTask], and whether it returned: the task is run here and may throw, or it is handed
    to the pool, which may refuse it. *)
Inductive executeTask (t : TimerTask) (s : sys) : sys → bool → Prop :=
  | exec_here returned : m_threadPool (pool s) = false → executeTask t s (log_ran t s) returned
  | exec_submit : m_threadPool (pool s) = true → executeTask t s (submit t (log_ran t s)) true
  | exec_refused : m_threadPool (pool s) = true → executeTask t s s false.

Definition locked (s : sys) : bool := match wk s with WScan => true | _ => false end.

(** [m_cv.notify_all()] *)
Definition notified (w : worker) : worker :=
  match w with WWait => WTest | WSleep t => WSleepTest t | w => w end.
Definition notify_all (s : sys) : sys := with_wk (notified (wk s)) s.

Definition halting (q : TimerQueue) : bool := stop_requested q || m_stopped q.

(** The predicate of [wait_until] *)
Definition changed (t : TimerTask) (q : TimerQueue) : bool :=
  match top (m_tasks q) with None => true | Some u => negb (id u =? id t) end.

(** [workerLoop] *)
Inductive wstep (s : sys) : worker → sys → Prop :=
  | w_end : stop_requested (tq s) = true → wstep s WTop (with_wk WEnd s)
  | w_enter : stop_requested (tq s) = false → wstep s WTop (with_wk WTest s)
  | w_wait : halting (tq s) = false → m_tasks (tq s) = [] → wstep s WTest (with_wk WWait s)
  | w_break : halting (tq s) = true → wstep s WTest (with_wk WEnd s)
  | w_scan : halting (tq s) = false → m_tasks (tq s) ≠ [] → wstep s WTest (with_wk WScan s)
  | w_spurious : wstep s WWait (with_wk WTest s)
  | w_empty : m_tasks (tq s) = [] → wstep s WScan (with_wk WTop s)
  | w_drop t : top (m_tasks (tq s)) = Some t → isCancelledLocked t (tq s) = true →
      wstep s WScan (with_tq (set_tasks (pop (m_tasks (tq s))) (forget t (tq s))) s)
  | w_sleep t : top (m_tasks (tq s)) = Some t → isCancelledLocked t (tq s) = false →
      clock s < expiration t → halting (tq s) = false → wstep s WScan (with_wk (WSleep t) s)
  | w_sleep_stop t : top (m_tasks (tq s)) = Some t → isCancelledLocked t (tq s) = false →
      clock s < expiration t → halting (tq s) = true → wstep s WScan (with_wk WEnd s)
  | w_due t : top (m_tasks (tq s)) = Some t → isCancelledLocked t (tq s) = false →
      expiration t ≤ clock s →
      wstep s WScan (with_wk (WPopped t) (with_tq (set_tasks (pop (m_tasks (tq s))) (tq s)) s))
  | w_wake t : wstep s (WSleep t) (with_wk (WSleepTest t) s)
  | w_return t : halting (tq s) = true → wstep s (WSleepTest t) (with_wk WEnd s)
  | w_again t : halting (tq s) = false → changed t (tq s) || (expiration t <=? clock s) = true →
      wstep s (WSleepTest t) (with_wk WScan s)
  | w_resume t : halting (tq s) = false → changed t (tq s) = false →
      wstep s (WSleepTest t) (with_wk (WSleep t) s)
  | w_skip t : isCancelledLocked t (tq s) = true →
      wstep s (WPopped t) (with_wk WTop (with_tq (forget t (tq s)) s))
  | w_check t : isCancelledLocked t (tq s) = false →
      wstep s (WPopped t) (with_wk (WExec t) s)
  | w_execute t s1 : executeTask t s s1 true → wstep s (WExec t) (with_wk (if repeat t then WAfter t else WTop) s1)
  | w_throw t s1 : executeTask t s s1 false → wstep s (WExec t) (with_wk WCrashed s1)
  | w_cancelled t : isCancelledLocked t (tq s) = true →
      wstep s (WAfter t) (with_wk WTop (with_tq (forget t (tq s)) s))
  | w_alive t : isCancelledLocked t (tq s) = false → wstep s (WAfter t) (with_wk (WRearm t) s)
  | w_halt t : halting (tq s) = true → wstep s (WRearm t) (with_wk WTop s)
  | w_rearm t : halting (tq s) = false →
      wstep s (WRearm t) (with_wk (WPush (set_expiration (clock s + interval t * 1000000) t)) s)
  | w_push t : wstep s (WPush t) (with_wk WTop (with_tq (pushTask t (tq s)) s)).

(** A thread goes on with the call it is in. *)
Inductive tstep (s : sys) (i : nat) : pc → sys → Prop :=
  | start_store : tstep s i TStartStore (goto i TStartLaunch (with_tq (set_stopped false (tq s)) s))
  | start_launch : tstep s i TStartLaunch (goto i TIdle (with_wk WTop s))
  | start_throw : tstep s i TStartLaunch (goto i TIdle (with_tq (set_stopped true (tq s)) s))
  | run_accept r : m_stopped (tq s) = false → tstep s i (TRunStopped r) (goto i (TRunAlloc r) s)
  | run_reject r : m_stopped (tq s) = true → tstep s i (TRunStopped r) (goto i TIdle s)
  | run_alloc r : locked s = false → tstep s i (TRunAlloc r)
      (goto i (TRunPush (make_task r (clock s) (tq s))) (with_tq (set_nextId (m_nextId (tq s) + 1) (tq s)) s))
  | run_push t : locked s = false → tstep s i (TRunPush t) (goto i TNotify (with_tq (pushTask t (tq s)) s))
  | run_notify : tstep s i TNotify (goto i TIdle (notify_all s))
  | stop_lock : locked s = false →
      tstep s i TStopLock (goto i TStopNotify (with_tq (stop_clear (tq s)) s))
  | stop_notify : tstep s i TStopNotify (goto i TStopRequest (notify_all s))
  | stop_request : tstep s i TStopRequest (goto i TStopJoin
      (with_tq (set_stop_requested (match wk s with WNone => false | _ => true end) (tq s)) s))
  | stop_join : wk s = WNone ∨ wk s = WEnd → tstep s i TStopJoin (goto i TIdle s).

(** A thread calls the queue. *)
Inductive calls (s : sys) (i : nat) : sys → Prop :=
  | call_start : m_started (tq s) = false →
      calls s i (goto i TStartStore (with_tq (set_started true (tq s)) s))
  | call_stop : m_stopped (tq s) = false →
      calls s i (goto i TStopLock (with_tq (set_stopped true (tq s)) s))
  | call_run r : m_started (tq s) = true → (∀ iv, r = RunEvery iv → 0 < iv) →
      calls s i (goto i (TRunStopped r) s)
  | call_cancel j : locked s = false →
      calls s i (let '(inserted, q) := cancel j (tq s) in
                 if inserted then notify_all (with_tq q s) else with_tq q s)
  | call_cancelAll : locked s = false → calls s i (goto i TNotify (with_tq (cancelAll (tq s)) s))
  | call_setThreadPool b : locked s = false → calls s i (setThreadPool b s)
  | call_refused : calls s i s.   (* the call throws or returns without a change *)

Inductive step (s : sys) : sys → Prop :=
  | step_worker s' : wstep s (wk s) s' → step s s'
  | step_thread i p s' : threads s !! i = Some p → tstep s i p s' → step s s'
  | step_call i s' : threads s !! i = Some TIdle → calls s i s' → step s s'
  | step_time c : clock s ≤ c → step s (with_clock c s)
  | step_pool l1 t l2 : submitted (pool s) = l1 ++ t :: l2 →     (* the pool runs a task *)
      step s (with_pool (mkPool (m_threadPool (pool s)) (l1 ++ l2) (pool_ran (pool s) ++ [(t, clock s)])) s).

Definition init (n : nat) (now : Z) : sys := mkSys TimerQueue_make WNone (replicate n TIdle) now [] (mkPool false [] []).

Definition reachable (n : nat) (now : Z) : sys → Prop := rtc step (init n now).

(** ** The queue *)

Definition key_le (t u : TimerTask) : Prop :=
  expiration t < expiration u ∨ expiration t = expiration u ∧ id t ≤ id u.

Lemma task_later_spec t u : if later t u then key_le u t else key_le t u.
Proof.
  unfold later, key_le. destruct (Z.eqb_spec (expiration t) (expiration u)); cbn [negb].
  - destruct (Z.ltb_spec (id u) (id t)); lia.
  - destruct (Z.ltb_spec (expiration u) (expiration t)); lia.
Qed.

Lemma top_spec q : match top q with
  | None => q = []
  | Some t => t ∈ q ∧ ∀ u, u ∈ q → key_le t u
  end.
Proof.
  induction q as [|x q IH]; [done|]. cbn. destruct (top q) as [y|].
  - destruct IH as [Hy Hmin]. pose proof (task_later_spec x y) as Hl. destruct (later x y).
    + split; [by right|]. intros u [->|Hu]%elem_of_cons; auto.
    + split; [left|]. intros u [->|Hu]%elem_of_cons; [right; lia|].
      specialize (Hmin u Hu). unfold key_le in *. lia.
  - subst q. split; [left|]. intros u [->|Hu]%elem_of_cons; [right; lia|by apply elem_of_nil in Hu].
Qed.

Lemma remove_id_perm t q : t ∈ q → NoDup (id <$> q) → q ≡ₚ t :: remove_id (id t) q.
Proof.
  induction q as [|x q IH]; intros Ht Hn; [by apply elem_of_nil in Ht|]. cbn in *.
  apply NoDup_cons in Hn as [Hx Hn]. destruct (Z.eqb_spec (id x) (id t)) as [E|E].
  - apply elem_of_cons in Ht as [->|Ht]; [done|]. destruct Hx. rewrite E. by apply list_elem_of_fmap_2.
  - apply elem_of_cons in Ht as [->|Ht]; [done|]. rewrite (IH Ht Hn) at 1. apply Permutation_swap.
Qed.

Lemma pop_perm q t : top q = Some t → NoDup (id <$> q) → q ≡ₚ t :: pop q.
Proof.
  intros Ht Hn. unfold pop. rewrite Ht. apply remove_id_perm; [|done].
  pose proof (top_spec q) as H. rewrite Ht in H. apply H.
Qed.

(** ** Where a task can be *)

Definition held (w : worker) : list TimerTask :=
  match w with
  | WPopped t | WExec t | WAfter t | WRearm t | WPush t => [t]
  | _ => []
  end.
Definition pending (p : pc) : list TimerTask := match p with TRunPush t => [t] | _ => [] end.
Definition occ (s : sys) : list TimerTask :=
  m_tasks (tq s) ++ held (wk s) ++ (threads s ≫= pending).

Lemma pending_insert ts i p p' : ts !! i = Some p →
  (<[i := p']> ts ≫= pending) ++ pending p ≡ₚ (ts ≫= pending) ++ pending p'.
Proof.
  revert i. induction ts as [|x ts IH]; intros [|i] Hi; try done; cbn in *.
  - injection Hi as ->. rewrite (Permutation_app_comm (_ ++ _) (pending p)), <- app_assoc.
    apply Permutation_app_head, Permutation_app_comm.
  - rewrite <- !app_assoc. f_equiv. by apply IH.
Qed.

Lemma pending_keep ts i p p' : ts !! i = Some p → pending p = [] → pending p' = [] →
  (<[i := p']> ts ≫= pending) ≡ₚ (ts ≫= pending).
Proof.
  intros Hi E E'. pose proof (pending_insert ts i p p' Hi) as H. by rewrite E, E', !app_nil_r in H.
Qed.

(** What a step does to the tasks, the set of cancelled ids and the counters. *)
Inductive effect (s s' : sys) : Prop :=
  | eff_keep l : occ s ≡ₚ l ++ occ s' →
      (∀ i, i ∈ m_cancelled (tq s) → i ∈ m_cancelled (tq s') ∨ i ∈ id <$> l) →
      m_cancelGeneration (tq s') = m_cancelGeneration (tq s) →
      m_nextId (tq s') = m_nextId (tq s) → effect s s'
  | eff_rearm t e o : occ s ≡ₚ t :: o → occ s' ≡ₚ set_expiration e t :: o → tq s' = tq s → effect s s'
  | eff_new t : occ s' ≡ₚ t :: occ s → id t = m_nextId (tq s) + 1 →
      generation t = m_cancelGeneration (tq s) → m_cancelled (tq s') = m_cancelled (tq s) →
      m_cancelGeneration (tq s') = m_cancelGeneration (tq s) →
      m_nextId (tq s') = m_nextId (tq s) + 1 → effect s s'
  | eff_clear l : occ s ≡ₚ l ++ occ s' →
      m_cancelGeneration (tq s') = m_cancelGeneration (tq s) + 1 →
      m_nextId (tq s') = m_nextId (tq s) → effect s s'.

(** The ids are distinct and given out, the generations are not from the future. *)
Record tasks_ok (s : sys) : Prop := {
  ok_distinct : NoDup (id <$> occ s);
  ok_range : ∀ t, t ∈ occ s → 0 < id t ≤ m_nextId (tq s) ∧ generation t ≤ m_cancelGeneration (tq s);
  ok_next : 0 ≤ m_nextId (tq s);
}.

Lemma tasks_effect s s' : tasks_ok s → effect s s' → tasks_ok s'.
Proof.
  intros [Hd Hr Hn] [l Ho _ Hg Hi|t e o Ho Ho' Hq|t Ho Hid Hge _ Hg Hi|l Ho Hg Hi].
  - rewrite Ho, fmap_app in Hd. apply NoDup_app in Hd as (_ & _ & Hd). split; [done| |lia].
    intros t Ht. rewrite Hg, Hi. apply Hr. rewrite Ho. set_solver.
  - split; rewrite ?Ho', ?Hq; [by rewrite Ho in Hd| |done].
    intros u Hu. rewrite Ho' in Hu. apply elem_of_cons in Hu as [->|Hu];
      [apply (Hr t); rewrite Ho; left|apply Hr; rewrite Ho; by right].
  - split; rewrite ?Ho, ?Hg, ?Hi; [|..|lia].
    + cbn. apply NoDup_cons. split; [|done]. intros (u & E & Hu)%list_elem_of_fmap.
      destruct (Hr u Hu). lia.
    + intros u Hu. rewrite Ho in Hu. apply elem_of_cons in Hu as [->|Hu]; [lia|].
      destruct (Hr u Hu). lia.
  - rewrite Ho, fmap_app in Hd. apply NoDup_app in Hd as (_ & _ & Hd). split; [done| |lia].
    intros t Ht. rewrite Hg, Hi. destruct (Hr t); [rewrite Ho; set_solver|lia].
Qed.

(** A step that moves no task and forgets no cancellation. *)
Lemma eff_same s s' : occ s' ≡ₚ occ s → m_cancelled (tq s) ⊆ m_cancelled (tq s') →
  m_cancelGeneration (tq s') = m_cancelGeneration (tq s) → m_nextId (tq s') = m_nextId (tq s) →
  effect s s'.
Proof. intros Ho Hc Hg Hn. apply (eff_keep _ _ []); [done| |done..]. intros i Hi. left. set_solver. Qed.

Lemma tasks_queue s : tasks_ok s → NoDup (id <$> m_tasks (tq s)).
Proof. intros [Hd _ _]. unfold occ in Hd. rewrite fmap_app in Hd. by apply NoDup_app in Hd as (? & _). Qed.

Lemma executeTask_core t s s' b : executeTask t s s' b → tq s' = tq s ∧ threads s' = threads s ∧ clock s' = clock s.
Proof. by destruct 1. Qed.

(** The cases of [executeTask] *)
Ltac inv_execute := try match goal with H : executeTask _ _ _ _ |- _ => inversion H; subst; clear H end.

Lemma wstep_effect s s' : tasks_ok s → wstep s (wk s) s' → effect s s'.
Proof.
  intros Hok Hs. pose proof (tasks_queue s Hok) as Hn.
  assert (Hsame : ∀ w', held w' = held (wk s) → effect s (with_wk w' s)).
  { intros w' E. apply eff_same; try done. unfold occ. cbn. by rewrite E. }
  assert (Hdrop : ∀ t w' q, held (wk s) = [t] → held w' = [] → m_tasks q = m_tasks (tq s) →
    (∀ i, i ∈ m_cancelled (tq s) → i ∈ m_cancelled q ∨ i = id t) →
    m_cancelGeneration q = m_cancelGeneration (tq s) → m_nextId q = m_nextId (tq s) → ∀ r,
    ∀ pl, effect s (mkSys q w' (threads s) (clock s) r pl)).
  { intros t w' q E E' Eq Hc Hg Hi r pl. apply (eff_keep _ _ [t]); cbn; try done.
    - unfold occ. cbn. rewrite E, E', Eq. cbn. apply Permutation_sym, Permutation_middle.
    - intros i Hin. destruct (Hc i Hin) as [?| ->]; [by left|right; left]. }
  destruct (wk s) as [| | | | |t|t|t|t|t|t|t| |] eqn:Ew; inversion Hs; subst;
    try (apply Hsame; done).
  - match goal with H : top _ = Some ?t |- _ =>
      pose proof (pop_perm _ _ H Hn) as Hp; apply (eff_keep _ _ [t]); cbn; try done end.
    + unfold occ. cbn. rewrite Ew. cbn. exact (Permutation_app_tail _ Hp).
    + intros i Hi. destruct (decide (i = id t)) as [->|?]; [right; left|left; set_solver].
  - match goal with H : top _ = Some ?t |- _ => pose proof (pop_perm _ _ H Hn) as Hp end.
    apply eff_same; try done. unfold occ. cbn. rewrite Ew. cbn. symmetry.
    etrans; [exact (Permutation_app_tail _ Hp)|]. cbn. apply Permutation_middle.
  - apply (Hdrop t); try done. intros i Hi. cbn. destruct (decide (i = id t)); [by right|left; set_solver].
  - match goal with H : executeTask _ _ _ _ |- _ => destruct (executeTask_core _ _ _ _ H) as (E1 & E2 & E3) end.
    destruct (repeat t).
    + apply eff_same; cbn; rewrite ?E1; try done. unfold occ. cbn. by rewrite E1, E2, Ew.
    + unfold with_wk. rewrite E1, E2, E3. apply (Hdrop t); try done; by left.
  - match goal with H : executeTask _ _ _ _ |- _ => destruct (executeTask_core _ _ _ _ H) as (E1 & E2 & E3) end.
    unfold with_wk. rewrite E1, E2, E3. apply (Hdrop t); try done; by left.
  - apply (Hdrop t); try done. intros i Hi. cbn. destruct (decide (i = id t)); [by right|left; set_solver].
  - apply (Hdrop t); try done. by left.
  - set (e := clock s + _).
    apply (eff_rearm _ _ t e (m_tasks (tq s) ++ (threads s ≫= pending))); [| |done]; unfold occ; cbn;
      rewrite ?Ew; cbn; apply Permutation_sym, Permutation_middle.
  - apply eff_same; try done. unfold occ. cbn. rewrite Ew. cbn. apply Permutation_middle.
Qed.

Lemma tstep_effect s i p s' : threads s !! i = Some p → tstep s i p s' → effect s s'.
Proof.
  intros Hi Hs.
  assert (Hkeep : ∀ p' q w c, pending p = [] → pending p' = [] → m_tasks q = m_tasks (tq s) →
    held w = held (wk s) → m_cancelled q = m_cancelled (tq s) →
    m_cancelGeneration q = m_cancelGeneration (tq s) → m_nextId q = m_nextId (tq s) →
    effect s (mkSys q w (<[i := p']> (threads s)) c (ran s) (pool s))).
  { intros p' q w c E E' Eq Ew Ec Eg En. apply eff_same; cbn; [|by rewrite Ec|done..].
    unfold occ. cbn. by rewrite Eq, Ew, (pending_keep _ _ _ p' Hi E E'). }
  assert (Hnot : ∀ w, held (notified w) = held w) by (by intros []).
  destruct Hs as [| | |r Hr|r Hr|r Hl|t Hl| |Hl| | |Hj]; try (apply Hkeep; cbn; done).
  - apply (eff_keep _ _ (held (wk s))); cbn; try done; [|by intros; left].
    unfold occ. cbn. rewrite (pending_keep _ _ _ TIdle Hi) by done.
    rewrite !app_assoc. f_equiv. apply Permutation_app_comm.
  - set (t := make_task r (clock s) (tq s)). apply (eff_new _ _ t); cbn; try done;
      [|by destruct r|by destruct r]. unfold occ. cbn.
    pose proof (pending_insert _ _ _ (TRunPush t) Hi) as H. cbn in H. rewrite app_nil_r in H.
    fold t. rewrite H, !app_assoc. rewrite (Permutation_app_comm _ [t]). done.
  - apply eff_same; try done. unfold occ. cbn.
    pose proof (pending_insert _ _ _ TNotify Hi) as H. cbn in H. rewrite app_nil_r in H.
    rewrite <- H, !app_assoc, (Permutation_app_comm _ [t]). done.
  - apply (eff_clear _ _ (m_tasks (tq s))); cbn; try done.
    unfold occ. cbn. by rewrite (pending_keep _ _ _ TStopNotify Hi).
Qed.

Lemma step_effect s s' : tasks_ok s → step s s' → effect s s'.
Proof.
  intros Hok [s1 Hs|i p s1 Hi Hs|i s1 Hi Hs|c Hc|l1 t l2 Hp].
  - by apply wstep_effect.
  - by eapply tstep_effect.
  - assert (Hkeep : ∀ p' q, pending p' = [] → m_tasks q = m_tasks (tq s) →
      occ (mkSys q (wk s) (<[i := p']> (threads s)) (clock s) (ran s) (pool s)) ≡ₚ occ s).
    { intros p' q E' Eq. unfold occ. cbn. by rewrite Eq, (pending_keep _ _ _ p' Hi). }
    destruct Hs as [E|E|r E Hr|j El|El|b El|]; try (apply eff_same; try done; by apply Hkeep).
    + unfold cancel. destruct (negb _); apply eff_same; cbn; try done; try set_solver.
      unfold occ. cbn. by destruct (wk s).
    + apply (eff_clear _ _ []); cbn; try done. symmetry. by apply Hkeep.
  - by apply eff_same.
  - by apply eff_same.
Qed.

Lemma idle_pending n : replicate n TIdle ≫= pending = [].
Proof. by induction n. Qed.

Lemma tasks_reachable n now s : reachable n now s → tasks_ok s.
Proof.
  intros Hr. assert (H : ∀ s1 s2, rtc step s1 s2 → tasks_ok s1 → tasks_ok s2).
  { induction 1 as [|x y z Hs _ IH]; [done|]. intros Hx. eauto using tasks_effect, step_effect. }
  eapply H; [exact Hr|]. assert (E : occ (init n now) = []).
  { unfold occ. cbn. apply idle_pending. }
  split; rewrite ?E; cbn; [constructor|by intros t ?%elem_of_nil|lia].
Qed.

(** ** Cancellation *)

(** Task [i] will not be accepted for execution any more. *)
Definition dead (s : sys) (i : Z) : Prop :=
  i ∈ m_cancelled (tq s) ∨ ∀ t, t ∈ occ s → id t = i → generation t < m_cancelGeneration (tq s).

Lemma dead_effect s s' i : tasks_ok s → 0 < i ≤ m_nextId (tq s) → effect s s' → dead s i → dead s' i.
Proof.
  intros [Hd Hr _] Hi Heff Hdead.
  destruct Heff as [l Ho Hc Hg _|t e o Ho Ho' Hq|t Ho Hid _ Hc Hg _|l Ho Hg _].
  - destruct Hdead as [Hin|Hgen].
    + destruct (Hc i Hin) as [?|Hl]; [by left|right]. intros t Ht <-. exfalso.
      rewrite Ho, fmap_app in Hd. apply NoDup_app in Hd as (_ & Hdis & _).
      by apply (Hdis (id t)), list_elem_of_fmap_2.
    + right. intros t Ht Hti. rewrite Hg. apply Hgen; [|done]. rewrite Ho. set_solver.
  - destruct Hdead as [Hin|Hgen]; [left; by rewrite Hq|right]. intros u Hu Hui. rewrite Hq.
    rewrite Ho' in Hu. apply elem_of_cons in Hu as [->|Hu];
      [apply (Hgen t); [rewrite Ho; left|done]|apply (Hgen u); [rewrite Ho; by right|done]].
  - destruct Hdead as [Hin|Hgen]; [left; by rewrite Hc|right]. intros u Hu Hui. rewrite Hg.
    rewrite Ho in Hu. apply elem_of_cons in Hu as [->|Hu]; [lia|by apply Hgen].
  - right. intros t Ht _. rewrite Hg. destruct (Hr t); [rewrite Ho; set_solver|lia].
Qed.

Lemma effect_next s s' : effect s s' → m_nextId (tq s) ≤ m_nextId (tq s').
Proof. intros []; [lia|by rewrite H1|lia|lia]. Qed.

(** How a step changes the history and the task about to be executed. *)
Lemma step_exec s s' : step s s' →
  (ran s' = ran s ∧ (wk s' = wk s ∨ (∀ t, wk s' ≠ WExec t) ∨
     ∃ t, wk s = WPopped t ∧ wk s' = WExec t ∧ isCancelledLocked t (tq s) = false)) ∨
  (∃ t, wk s = WExec t ∧ ran s' = ran s ++ [(t, clock s)] ∧ ∀ u, wk s' ≠ WExec u).
Proof.
  assert (Hn : ∀ w, notified w = w ∨ ∀ t, notified w ≠ WExec t) by (intros []; cbn; auto).
  intros [s1 Hs|i p s1 _ Hs|i s1 _ Hs|c Hc|l1 t l2 Hp].
  - destruct (wk s) eqn:Ew; inversion Hs; subst; inv_execute;
      first [right; eexists; split; [reflexivity|]; split; [done|intros u; cbn; by try destruct (repeat _)]
            |left; split; [done|]; first [by left; done|right; left; intros u; cbn; by try destruct (repeat _)|right; right; by eexists]].
  - left. destruct Hs; cbn; (split; [done|]);
      first [by left|by right; left|destruct (Hn (wk s)); auto].
  - left. destruct Hs; cbn; try (split; [done|]; auto; done).
    unfold cancel. destruct (negb _); cbn; (split; [done|]); auto. destruct (Hn (wk s)); auto.
  - left. auto.
  - left. auto.
Qed.

(** Task [i] is cancelled for good and not about to be executed. *)
Definition quiet (s : sys) (i : Z) : Prop := dead s i ∧ ∀ t, wk s = WExec t → id t ≠ i.

Lemma quiet_step s s' i : tasks_ok s → 0 < i ≤ m_nextId (tq s) → step s s' → quiet s i →
  quiet s' i ∧ ∃ l, ran s' = ran s ++ l ∧ ∀ e, e ∈ l → id (fst e) ≠ i.
Proof.
  intros Hok Hi Hs [Hd Hx]. pose proof (dead_effect s s' i Hok Hi (step_effect _ _ Hok Hs) Hd) as Hd'.
  destruct (step_exec s s' Hs) as [[Hr Hw]|(t & Ht & Hr & Hw)].
  - split; [|exists []; split; [by rewrite app_nil_r|by intros e ?%elem_of_nil]]. split; [done|].
    intros t Ht. destruct Hw as [E|[E|(u & Hu & Hu' & Hc)]]; [apply Hx; congruence|by destruct (E t)|].
    assert (u = t) as -> by congruence. unfold isCancelledLocked in Hc. apply orb_false_iff in Hc as [Hg Hin].
    intros <-. destruct Hd as [?|Hgen]; [by rewrite bool_decide_true in Hin|].
    assert (Hocc : t ∈ occ s) by (unfold occ; rewrite Hu; cbn; set_solver).
    specialize (Hgen t Hocc eq_refl). lia.
  - split; [split; [done|intros u Hu; by destruct (Hw u)]|]. exists [(t, clock s)]. split; [done|].
    intros e ->%list_elem_of_singleton. by apply Hx.
Qed.

Lemma quiet_run s s' i : tasks_ok s → 0 < i ≤ m_nextId (tq s) → rtc step s s' → quiet s i →
  ∃ l, ran s' = ran s ++ l ∧ ∀ e, e ∈ l → id (fst e) ≠ i.
Proof.
  intros Hok Hi Hr. induction Hr as [s|s s1 s2 Hs Hr IH]; intros Hq.
  - exists []. split; [by rewrite app_nil_r|by intros e ?%elem_of_nil].
  - destruct (quiet_step s s1 i Hok Hi Hs Hq) as (Hq1 & l & Hl & Hne).
    pose proof (step_effect s s1 Hok Hs) as He. pose proof (effect_next _ _ He).
    destruct IH as (l' & Hl' & Hne'); [by eapply tasks_effect|lia|done|].
    exists (l ++ l'). split; [by rewrite Hl', Hl, app_assoc|]. intros e [?|?]%elem_of_app; auto.
Qed.

(** Once cancelled, [i] runs at most once more, and only if the worker was about to run it. *)
Lemma dead_run s s' i : tasks_ok s → 0 < i ≤ m_nextId (tq s) → rtc step s s' → dead s i →
  ∃ l, ran s' = ran s ++ l ∧ ∀ k t m, l !! k = Some (t, m) → id t = i → k = 0%nat ∧ wk s = WExec t.
Proof.
  intros Hok Hi Hr. induction Hr as [s|s s1 s2 Hs Hr IH]; intros Hd.
  - exists []. split; [by rewrite app_nil_r|done].
  - pose proof (step_effect s s1 Hok Hs) as He. pose proof (effect_next _ _ He).
    pose proof (tasks_effect _ _ Hok He) as Hok1. pose proof (dead_effect s s1 i Hok Hi He Hd) as Hd1.
    assert (Hquiet : quiet s i ∨ ∃ t, wk s = WExec t ∧ id t = i).
    { unfold quiet. destruct (wk s) as [| | | | | | | |t| | | | |] eqn:Ew; try (left; split; done).
      destruct (decide (id t = i)); [right; eauto|left; split; [done|congruence]]. }
    destruct Hquiet as [Hq|(t & Ht & Hti)].
    { destruct (quiet_run s s2 i Hok Hi (rtc_l _ _ _ _ Hs Hr) Hq) as (l & Hl & Hne). exists l.
      split; [done|]. intros k t m Hk Hid. apply list_elem_of_lookup_2, Hne in Hk. done. }
    destruct (step_exec s s1 Hs) as [[Hran Hw]|(u & Hu & Hran & Hw)].
    + destruct Hw as [E|[E|(u & Hu & _)]]; [| |congruence].
      * destruct IH as (l & Hl & Hk); [done|lia|done|]. exists l. rewrite Hl, Hran. split; [done|].
        intros k v m Hv Hid. rewrite <- E. eauto.
      * destruct (quiet_run s1 s2 i Hok1 ltac:(lia) Hr) as (l & Hl & Hne).
        { split; [done|]. intros u Hu. by destruct (E u). }
        exists l. rewrite Hl, Hran. split; [done|]. intros k v m Hv Hid.
        apply list_elem_of_lookup_2, Hne in Hv. done.
    + destruct (quiet_run s1 s2 i Hok1 ltac:(lia) Hr) as (l & Hl & Hne).
      { split; [done|]. intros v Hv. by destruct (Hw v). }
      exists ((u, clock s) :: l). rewrite Hl, Hran, <- app_assoc. split; [done|].
      intros [|k] v m Hv Hid; cbn in Hv; [split; congruence|].
      apply list_elem_of_lookup_2, Hne in Hv. done.
Qed.

(** ** Running on time *)

Definition oneshots (s : sys) : list Z :=
  id ∘ fst <$> filter (λ e : TimerTask * Z, repeat (fst e) = false) (ran s).

Record time_ok (s : sys) : Prop := {
  tm_ran : ∀ t m, (t, m) ∈ ran s → expiration t ≤ m ∧ id t ≤ m_nextId (tq s);
  tm_due : ∀ t, wk s = WPopped t ∨ wk s = WExec t → expiration t ≤ clock s;
  tm_gone : ∀ i, i ∈ oneshots s → i ∉ id <$> occ s;
  tm_once : NoDup (oneshots s);
}.

Lemma oneshots_ran s i : i ∈ oneshots s → ∃ t m, (t, m) ∈ ran s ∧ id t = i.
Proof.
  intros ([t m] & -> & [_ Ht]%list_elem_of_filter)%list_elem_of_fmap. by exists t, m.
Qed.

(** An id that is not in use does not come back. *)
Lemma gone_effect s s' i : i ≤ m_nextId (tq s) → effect s s' → i ∉ id <$> occ s → i ∉ id <$> occ s'.
Proof.
  intros Hi [l Ho _ _ _|t e o Ho Ho' _|t Ho Hid _ _ _ _|l Ho _ _]; rewrite Ho; try rewrite Ho'.
  - rewrite fmap_app. set_solver.
  - done.
  - cbn. rewrite elem_of_cons. intros ? [->|?]; [lia|done].
  - rewrite fmap_app. set_solver.
Qed.

Lemma due_step s s' : step s s' → (∀ t, wk s = WPopped t ∨ wk s = WExec t → expiration t ≤ clock s) →
  ∀ t, wk s' = WPopped t ∨ wk s' = WExec t → expiration t ≤ clock s'.
Proof.
  assert (Hn : ∀ w t, notified w = WPopped t ∨ notified w = WExec t → w = WPopped t ∨ w = WExec t)
    by (intros []; cbn; naive_solver).
  intros [s1 Hs|i p s1 _ Hs|i s1 _ Hs|c Hc|l1 t l2 Hp] Hd.
  - destruct (wk s) eqn:Ew; inversion Hs; subst; inv_execute; cbn; intros u Hu; try (by destruct Hu);
      try (rewrite Ew in Hu; by destruct Hu);
      try (destruct Hu as [[= <-]|?]; done); try (destruct Hu as [?|[= <-]]; [done|]; apply Hd; by left).
    all: by destruct (repeat t), Hu.
  - destruct Hs; cbn; try done; intros u Hu; first [by destruct Hu|by apply Hd, Hn|by apply Hd].
  - destruct Hs; cbn; try done. unfold cancel. destruct (negb _); cbn; [|done]. intros u Hu. by apply Hd, Hn.
  - cbn. intros t Ht. specialize (Hd t Ht). lia.
  - done.
Qed.

Lemma time_step s s' : tasks_ok s → time_ok s → step s s' → time_ok s'.
Proof.
  intros Hok [Hr Hd Hg Ho] Hs. pose proof (step_effect s s' Hok Hs) as He.
  pose proof (effect_next _ _ He) as Hn. pose proof (due_step s s' Hs Hd) as Hd'.
  assert (Hg' : ∀ i, i ∈ oneshots s → i ∉ id <$> occ s').
  { intros i Hi. apply (gone_effect s); [|done|by apply Hg].
    apply oneshots_ran in Hi as (t & m & Ht & <-). by apply (Hr t m). }
  destruct (step_exec s s' Hs) as [[E _]|(t & Ht & E & _)].
  - split; try done; unfold oneshots; rewrite ?E; try done.
    intros t m Ht. destruct (Hr t m Ht). split; [done|lia].
  - assert (Hocc : t ∈ occ s) by (unfold occ; rewrite Ht; cbn; set_solver).
    assert (Eo : oneshots s' = oneshots s ++ (if repeat t then [] else [id t])).
    { unfold oneshots. rewrite E, filter_app, fmap_app. f_equal.
      rewrite filter_cons. cbn. case_decide as Er; by destruct (repeat t). }
    destruct (ok_range _ Hok t Hocc) as [Hrange _].
    assert (Hlast : repeat t = false → id t ∉ id <$> occ s').
    { intros Er. inversion Hs as [s1 Hw|i p s1 _ Hw|i s1 _ Hw|c Hc|l1 t0 l2 Hp]; subst.
      - assert (Hsub : ∃ q, occ s' = q ∧ occ s ≡ₚ t :: q).
        { exists (m_tasks (tq s) ++ (threads s ≫= pending)). rewrite Ht in Hw.
          inversion Hw; subst; inv_execute; unfold occ; cbn; rewrite ?Er, Ht; cbn;
            (split; [done|symmetry; apply Permutation_middle]). }
        destruct Hok as [Hdis _ _], Hsub as (q & -> & Hq). rewrite Hq in Hdis. by apply NoDup_cons in Hdis as [? _].
      - exfalso. clear -Hw E. destruct Hw; cbn in E;
          apply (f_equal length) in E; rewrite length_app in E; cbn in E; lia.
      - exfalso. clear -Hw E. destruct Hw; cbn in E; try (destruct (negb _) in E; cbn in E);
          apply (f_equal length) in E; rewrite length_app in E; cbn in E; lia.
      - exfalso. cbn in E. apply (f_equal length) in E. rewrite length_app in E. cbn in E. lia.
      - exfalso. cbn in E. apply (f_equal length) in E. rewrite length_app in E. cbn in E. lia. }
    split; [|done| |]; rewrite ?Eo.
    + rewrite E. intros u m [Hu|[= -> ->]%list_elem_of_singleton]%elem_of_app.
      * destruct (Hr u m Hu). split; [done|lia].
      * split; [apply Hd; by right|lia].
    + intros i [Hi|Hi]%elem_of_app; [by apply Hg'|]. destruct (repeat t) eqn:Er.
      * by apply elem_of_nil in Hi.
      * apply list_elem_of_singleton in Hi as ->. by apply Hlast.
    + apply NoDup_app. split_and!; [done| |destruct (repeat t); [constructor|apply NoDup_singleton]].
      intros i Hi. destruct (repeat t); [by intros ?%elem_of_nil|].
      intros ->%list_elem_of_singleton. apply (Hg _ Hi). by apply list_elem_of_fmap_2.
Qed.

(** ** Sleeping *)

Definition starting (p : pc) : nat := match p with TStartStore | TStartLaunch => 1 | _ => 0 end.
Definition storing (p : pc) : nat := match p with TStartStore => 1 | _ => 0 end.
Definition stopping (p : pc) : nat :=
  match p with TStopLock | TStopNotify | TStopRequest | TStopJoin => 1 | _ => 0 end.
Definition late (p : pc) : nat := match p with TStopRequest | TStopJoin => 1 | _ => 0 end.
(** About to notify *)
Definition notifier (p : pc) : nat := match p with TNotify | TStopLock | TStopNotify => 1 | _ => 0 end.

Definition blocked (w : worker) : bool := match w with WWait | WSleep _ => true | _ => false end.

Record flags_ok (s : sys) : Prop := {
  fl_starting : (tally starting (threads s) ≤ if m_started (tq s) then 1 else 0)%nat;
  fl_none : (m_started (tq s) = false ∨ 0 < tally starting (threads s))%nat → wk s = WNone;
  fl_before : (m_started (tq s) = false ∨ 0 < tally storing (threads s))%nat →
    m_stopped (tq s) = true ∧ stop_requested (tq s) = false ∧ tally stopping (threads s) = 0%nat;
  fl_stopping : (0 < tally stopping (threads s))%nat → m_stopped (tq s) = true;
  fl_request : stop_requested (tq s) = true → m_stopped (tq s) = true;
  fl_late : (0 < tally late (threads s))%nat → blocked (wk s) = false;
}.

Record sleep_ok (s : sys) : Prop := {
  sl_wait : wk s = WWait → (0 < tally notifier (threads s))%nat ∨
    m_stopped (tq s) = false ∧ m_tasks (tq s) = [];
  sl_sleep : ∀ t, wk s = WSleep t → (0 < tally notifier (threads s))%nat ∨
    m_stopped (tq s) = false ∧ top (m_tasks (tq s)) = Some t;
  sl_same : ∀ t, wk s = WSleep t ∨ wk s = WSleepTest t → id t ≤ m_nextId (tq s) ∧
    ∀ u, u ∈ occ s → id u = id t → u = t;
}.

Lemma halting_false s : flags_ok s → m_stopped (tq s) = false → halting (tq s) = false.
Proof.
  intros Hf E. unfold halting. rewrite E. destruct (stop_requested (tq s)) eqn:Er; [|done].
  pose proof (fl_request _ Hf Er). congruence.
Qed.

Lemma halting_stopped q : halting q = false → m_stopped q = false.
Proof. unfold halting. by intros [_ ?]%orb_false_iff. Qed.

Lemma late_stopping ts : (tally late ts ≤ tally stopping ts)%nat.
Proof. unfold tally. induction ts as [|[] ts IH]; simpl in *; lia. Qed.
Lemma storing_starting ts : (tally storing ts ≤ tally starting ts)%nat.
Proof. unfold tally. induction ts as [|[] ts IH]; simpl in *; lia. Qed.

Lemma notified_blocked w : blocked (notified w) = false.
Proof. by destruct w. Qed.

(** The counts after thread [i] moves from [p] to [p']. *)
Ltac pc_counts Hi p' :=
  pose proof (tally_insert starting _ _ _ p' Hi); pose proof (tally_insert storing _ _ _ p' Hi);
  pose proof (tally_insert stopping _ _ _ p' Hi); pose proof (tally_insert late _ _ _ p' Hi);
  pose proof (tally_insert notifier _ _ _ p' Hi);
  pose proof (tally_pos starting _ _ _ Hi); pose proof (tally_pos storing _ _ _ Hi);
  pose proof (tally_pos stopping _ _ _ Hi); pose proof (tally_pos late _ _ _ Hi);
  pose proof (tally_pos notifier _ _ _ Hi);
  cbn [starting storing stopping late notifier] in *.

Lemma flags_worker s s' : flags_ok s → wstep s (wk s) s' → flags_ok s'.
Proof.
  intros [Hs Hn Hb Hst Hr Hl] Hw. pose proof (late_stopping (threads s)) as Hls.
  assert (E : threads s' = threads s ∧ m_started (tq s') = m_started (tq s) ∧
    m_stopped (tq s') = m_stopped (tq s) ∧ stop_requested (tq s') = stop_requested (tq s))
    by (by destruct Hw; inv_execute).
  destruct E as (E1 & E2 & E3 & E4). split; rewrite ?E1, ?E2, ?E3, ?E4; try done.
  - intros H. specialize (Hn H). rewrite Hn in Hw. inversion Hw.
  - intros H. assert (m_stopped (tq s) = true) as Hm by (apply Hst; lia).
    inversion Hw; subst; inv_execute; cbn; try done;
      repeat match goal with H : halting _ = false |- _ => apply halting_stopped in H end; try congruence;
      try (match goal with H : _ = wk s |- _ => rewrite <- H; done end).
    all: by destruct (repeat _).
Qed.

(** A move that leaves the flags alone. *)
Lemma flags_goto s i p p' s' : flags_ok s → threads s !! i = Some p →
  threads s' = <[i := p']> (threads s) → m_started (tq s') = m_started (tq s) →
  m_stopped (tq s') = m_stopped (tq s) → stop_requested (tq s') = stop_requested (tq s) →
  (wk s' = wk s ∨ wk s' = notified (wk s)) → starting p' = starting p → storing p' = storing p →
  (stopping p' ≤ stopping p)%nat → ((late p' ≤ late p)%nat ∨ wk s' = notified (wk s)) → flags_ok s'.
Proof.
  intros [Hs Hn Hb Hst Hr Hl] Hi E1 E2 E3 E4 Hw P1 P2 P3 P4.
  pose proof (tally_insert starting _ _ _ p' Hi). pose proof (tally_insert storing _ _ _ p' Hi).
  pose proof (tally_insert stopping _ _ _ p' Hi). pose proof (tally_insert late _ _ _ p' Hi).
  split; rewrite ?E1, ?E2, ?E3, ?E4; try done; try lia.
  - intros Hc. assert (wk s = WNone) as Ew by (apply Hn; destruct Hc; [by left|right; lia]).
    destruct Hw as [Hw|Hw]; by rewrite Hw, Ew.
  - intros Hc. destruct Hb as (? & ? & ?); [destruct Hc; [by left|right; lia]|]. split_and!; try done. lia.
  - intros Hc. apply Hst. lia.
  - intros Hc. destruct Hw as [Hw|Hw]; [|rewrite Hw; apply notified_blocked].
    destruct P4 as [P4|Hw']; [rewrite Hw; apply Hl; lia|rewrite Hw'; apply notified_blocked].
Qed.

Lemma flags_thread s i p s' : flags_ok s → threads s !! i = Some p → tstep s i p s' → flags_ok s'.
Proof.
  intros Hf Hi Hw. pose proof Hf as [Hs Hn Hb Hst Hr Hl].
  pose proof (late_stopping (threads s)) as Hls. pose proof (storing_starting (threads s)) as Hss.
  destruct Hw as [| | |r E|r E|r E|t E| |E| | |E];
    try (eapply (flags_goto s i); try done; cbn; by auto with lia).
  - pc_counts Hi TStartLaunch. destruct Hb as (B1 & B2 & B3); [right; lia|].
    destruct (m_started (tq s)) eqn:Es; [|lia]. split; cbn; rewrite ?Es; try done; try lia.
    + intros _. apply Hn. right; lia.
    + congruence.
  - pc_counts Hi TIdle. pose proof (storing_starting (<[i := TIdle]> (threads s))).
    destruct (m_started (tq s)) eqn:Es; [|lia].
    split; cbn; rewrite ?Es; try done; try lia.
    intros ?. apply Hst. lia.
  - pc_counts Hi TIdle. pose proof (storing_starting (<[i := TIdle]> (threads s))).
    destruct (m_started (tq s)) eqn:Es; [|lia].
    split; cbn; rewrite ?Es; try done; try lia.
    intros ?. apply Hl. lia.
  - pc_counts Hi TStopJoin. assert (Hm : m_stopped (tq s) = true) by (apply Hst; lia).
    split; cbn; rewrite ?Hm; try done; try lia.
    + intros Hc. apply Hn. destruct Hc; [by left|right; lia].
    + intros Hc. destruct Hb as (? & ? & ?); [destruct Hc; [by left|right; lia]|]. lia.
    + intros ?. apply Hl. lia.
Qed.

Lemma flags_calls s i s' : flags_ok s → threads s !! i = Some TIdle → calls s i s' → flags_ok s'.
Proof.
  intros Hf Hi Hw. pose proof Hf as [Hs Hn Hb Hst Hr Hl].
  pose proof (late_stopping (threads s)) as Hls. pose proof (storing_starting (threads s)) as Hss.
  assert (Hid : <[i := TIdle]> (threads s) = threads s) by (by apply list_insert_id).
  destruct Hw as [E|E|r E Hiv|j E|E|b E|]; try done;
    try (eapply (flags_goto s i); try done; cbn; by auto with lia).
  - pc_counts Hi TStartStore. destruct Hb as (B1 & B2 & B3); [by left|]. rewrite E in *.
    split; cbn; try done; try lia.
    + intros _. apply Hn. by left.
    + intros _. split_and!; try done. lia.
  - pc_counts Hi TStopLock.
    assert (Hm : m_started (tq s) = true).
    { destruct (m_started (tq s)); [done|]. destruct Hb; [by left|congruence]. }
    split; cbn; rewrite ?Hm in *; try done; try lia.
    + intros Hc. apply Hn. destruct Hc; [done|right; lia].
    + intros [?|?]; [done|]. destruct Hb as (? & _); [right; lia|congruence].
    + intros ?. apply Hl. lia.
  - unfold cancel. destruct (negb _); eapply (flags_goto s i TIdle TIdle); try done; cbn; auto; by rewrite Hid.
Qed.

Lemma pending_elem ts i p' u : u ∈ <[i := p']> ts ≫= pending → u ∈ pending p' ∨ u ∈ ts ≫= pending.
Proof.
  rewrite !list_elem_of_bind. intros (p & Hu & Hp). apply list_elem_of_lookup in Hp as [j Hj].
  destruct (decide (i = j)) as [<-|Hne].
  - apply list_lookup_insert_Some in Hj as [(_ & -> & _)|[? _]]; [by left|done].
  - rewrite list_lookup_insert_ne in Hj by done. right. exists p. split; [done|].
    by eapply list_elem_of_lookup_2.
Qed.

(** Steps of the other threads only bring in tasks with new ids. *)
Lemma thread_occ s i p s' u : threads s !! i = Some p → tstep s i p s' → u ∈ occ s' →
  u ∈ occ s ∨ m_nextId (tq s) < id u.
Proof.
  intros Hi Hs. unfold occ. rewrite !elem_of_app.
  assert (Hnot : held (notified (wk s)) = held (wk s)) by (by destruct (wk s)).
  destruct Hs as [| | |r Hr|r Hr|r Hl|t Hl| |Hl| | |Hj]; cbn; rewrite ?Hnot;
    intros [Hu|[Hu|Hu%pending_elem]]; try (by left; auto); try (by apply elem_of_nil in Hu);
    try (cbn in Hu; destruct Hu as [Hu|Hu]; [by apply elem_of_nil in Hu|by left; auto]).
  - cbn in Hu. destruct Hu as [->%list_elem_of_singleton|Hu]; [|by left; auto].
    right. destruct r; cbn; lia.
  - apply elem_of_cons in Hu as [->|Hu]; left; [|by left]. right; right. apply list_elem_of_bind.
    exists (TRunPush t). split; [left|]. by eapply list_elem_of_lookup_2.
Qed.

Lemma sleep_goto s s' : sleep_ok s → tasks_ok s → m_nextId (tq s) ≤ m_nextId (tq s') →
  (∀ u, u ∈ occ s' → u ∈ occ s ∨ m_nextId (tq s) < id u) →
  (wk s' = notified (wk s) ∨ wk s' = wk s ∧
    ((0 < tally notifier (threads s'))%nat ∨
     (tally notifier (threads s) ≤ tally notifier (threads s'))%nat ∧
     m_stopped (tq s') = m_stopped (tq s) ∧ m_tasks (tq s') = m_tasks (tq s))) → sleep_ok s'.
Proof.
  intros [Hw Hs He] Hok Hn Ho Hcase.
  assert (Hsame : ∀ t, wk s = WSleep t ∨ wk s = WSleepTest t → id t ≤ m_nextId (tq s') ∧
    ∀ u, u ∈ occ s' → id u = id t → u = t).
  { intros t Ht. destruct (He t Ht) as [Hle Hu]. split; [lia|]. intros u Hin Hid.
    destruct (Ho u Hin) as [?|?]; [auto|lia]. }
  destruct Hcase as [E|[E Hcase]].
  - split; rewrite E; try (by destruct (wk s)).
    intros t Ht. apply Hsame. destruct (wk s); cbn in Ht; naive_solver.
  - split; rewrite E; [intros Ht|intros t Ht|done].
    + destruct Hcase as [?|(Hle & -> & ->)]; [by left|]. destruct (Hw Ht) as [?|?]; [left; lia|by right].
    + destruct Hcase as [?|(Hle & -> & ->)]; [by left|]. destruct (Hs t Ht) as [?|?]; [left; lia|by right].
Qed.

Lemma same_id s t u : tasks_ok s → t ∈ occ s → u ∈ occ s → id t = id u → t = u.
Proof.
  intros [Hd _ _] Ht Hu E. induction (occ s) as [|x l IH]; [by apply elem_of_nil in Ht|].
  cbn in Hd. apply NoDup_cons in Hd as [Hx Hd].
  apply elem_of_cons in Ht as [->|Ht], Hu as [->|Hu]; [done| | |auto]; destruct Hx.
  - rewrite E. by apply list_elem_of_fmap_2.
  - rewrite <- E. by apply list_elem_of_fmap_2.
Qed.

Lemma sleep_worker s s' : sleep_ok s → tasks_ok s → wstep s (wk s) s' → sleep_ok s'.
Proof.
  intros [Hw Hs He] Hok Hst.
  assert (Hother : (∀ t, wk s' ≠ WSleep t) → (∀ t, wk s' ≠ WSleepTest t) → wk s' ≠ WWait → sleep_ok s').
  { intros H1 H2 H3. split; [done|by intros t ?%H1|by intros t [?%H1|?%H2]]. }
  assert (Htop : ∀ u, top (m_tasks (tq s)) = Some u → u ∈ occ s).
  { intros u Hu. pose proof (top_spec (m_tasks (tq s))) as H. rewrite Hu in H. unfold occ.
    apply elem_of_app. left. apply H. }
  destruct (wk s) as [| | | | |t|t|t|t|t|t|t| |] eqn:Ew; inversion Hst as [E|E|E1 E2|E|E1 E2|
    |E|t' E1 E2|t' E1 E2 E3 E4|t' E1 E2 E3 E4|t' E1 E2 E3|t'|t' E|t' E1 E2|t' E1 E2|t' E|t' E|t' s1 E|t' s1 E
    |t' E|t' E|t' E|t' E|t']; subst; inv_execute;
    try (apply Hother; [intros ?|intros ?|]; cbn; rewrite ?Ew; by try destruct (repeat t)).
  - split; cbn; try done; [|by intros t [?|?]]. intros _. right. split; [by apply halting_stopped|done].
  - split; cbn; try done.
    + intros u [= <-]. right. split; [by apply halting_stopped|done].
    + intros u [[= <-]|?]; [|done]. destruct (ok_range _ Hok t') as [? _]; [by apply Htop|].
      split; [lia|]. intros v Hv Hid. apply (same_id s); try done.
      * unfold occ in Hv |- *. cbn in Hv. by rewrite Ew.
      * by apply Htop.
  - split; cbn; try done. intros u [?|[= <-]]; [done|].
    destruct (He t) as [? Hu]; [by left|]. split; [done|]. unfold occ in *. rewrite Ew in Hu. exact Hu.
  - assert (top (m_tasks (tq s)) = Some t) as Ht.
    { unfold changed in E2. destruct (top (m_tasks (tq s))) as [u|] eqn:Et; [|done]. f_equal.
      destruct (He t) as [_ Hu]; [by right|]. apply Hu; [by apply Htop|].
      apply negb_false_iff in E2. lia. }
    split; cbn; try done.
    + intros u [= <-]. right. split; [by apply halting_stopped|done].
    + intros u [[= <-]|?]; [|done]. destruct (He t) as [? Hu]; [by right|]. split; [done|].
      unfold occ in *. rewrite Ew in Hu. exact Hu.
Qed.

Lemma sleep_thread s i p s' : flags_ok s → sleep_ok s → tasks_ok s → threads s !! i = Some p →
  tstep s i p s' → sleep_ok s'.
Proof.
  intros Hf Hsl Hok Hi Hs. pose proof (effect_next _ _ (tstep_effect s i p s' Hi Hs)) as Hn.
  pose proof (λ u, thread_occ s i p s' u Hi Hs) as Ho. pose proof (storing_starting (threads s)) as Hss.
  pose proof Hf as [_ Hnone Hbef _ _ _].
  assert (Hidle : ∀ x, wk x = WNone ∨ wk x = WTop → sleep_ok x).
  { intros x [E|E]; split; rewrite E; try done; by intros t [?|?]. }
  destruct Hs as [| | |r E|r E|r E|t E| |E| | |E].
  - pc_counts Hi TStartLaunch. apply Hidle. left. apply Hnone. right. lia.
  - apply Hidle. by right.
  - pc_counts Hi TIdle. apply Hidle. left. apply Hnone. right. lia.
  - pc_counts Hi (TRunAlloc r). apply (sleep_goto s); try done. right. split; [done|right].
    split_and!; try done. cbn. lia.
  - pc_counts Hi TIdle. apply (sleep_goto s); try done. right. split; [done|right].
    split_and!; try done. cbn. lia.
  - pc_counts Hi (TRunPush (make_task r (clock s) (tq s))). apply (sleep_goto s); try done. right.
    split; [done|right]. split_and!; try done. cbn. lia.
  - pc_counts Hi TNotify. apply (sleep_goto s); try done. right. split; [done|left]. cbn. lia.
  - apply (sleep_goto s); try done. by left.
  - pc_counts Hi TStopNotify. apply (sleep_goto s); try done. right. split; [done|left]. cbn. lia.
  - apply (sleep_goto s); try done. by left.
  - pc_counts Hi TStopJoin. apply (sleep_goto s); try done. right. split; [done|right].
    split_and!; try done. cbn. lia.
  - pc_counts Hi TIdle. apply (sleep_goto s); try done. right. split; [done|right].
    split_and!; try done. cbn. lia.
Qed.

Lemma sleep_calls s i s' : sleep_ok s → tasks_ok s → threads s !! i = Some TIdle → calls s i s' →
  sleep_ok s'.
Proof.
  intros Hsl Hok Hi Hs.
  assert (Hocc : ∀ p' q w, pending p' = [] → m_tasks q = m_tasks (tq s) → held w = held (wk s) → ∀ u,
    u ∈ occ (mkSys q w (<[i := p']> (threads s)) (clock s) (ran s) (pool s)) →
    u ∈ occ s ∨ m_nextId (tq s) < id u).
  { intros p' q w E E' Ew u. unfold occ. cbn. rewrite E', Ew, !elem_of_app.
    intros [?|[?|[Hu|?]%pending_elem]]; auto. rewrite E in Hu. by apply elem_of_nil in Hu. }
  destruct Hs as [E|E|r E Hr|j E|E|b E|]; try done.
  - pc_counts Hi TStartStore. apply (sleep_goto s); try done; [by apply Hocc|].
    right. split; [done|right]. split_and!; try done. cbn. lia.
  - pc_counts Hi TStopLock. apply (sleep_goto s); try done; [by apply Hocc|].
    right. split; [done|left]. cbn. lia.
  - pc_counts Hi (TRunStopped r). apply (sleep_goto s); try done; [by apply Hocc|].
    right. split; [done|right]. split_and!; try done. cbn. lia.
  - unfold cancel. destruct (negb _); apply (sleep_goto s); try done.
    + intros u Hu. left. unfold occ in *. cbn in Hu. by destruct (wk s).
    + by left.
    + intros u Hu. by left.
    + right. split; [done|by right].
  - pc_counts Hi TNotify. apply (sleep_goto s); try done; [by apply Hocc|].
    right. split; [done|left]. cbn. lia.
  - apply (sleep_goto s); try done; [intros u Hu; by left|]. right. split; [done|by right].
Qed.

Record queue_ok (s : sys) : Prop := {
  q_tasks : tasks_ok s;
  q_time : time_ok s;
  q_flags : flags_ok s;
  q_sleep : sleep_ok s;
}.

Lemma queue_step s s' : queue_ok s → step s s' → queue_ok s'.
Proof.
  intros [H1 H2 H3 H4] Hs. split.
  - eapply tasks_effect; [done|by apply step_effect].
  - by eapply time_step.
  - destruct Hs; [by eapply flags_worker|by eapply flags_thread|by eapply flags_calls|..]; destruct H3; by split.
  - destruct Hs; [by eapply sleep_worker|by eapply sleep_thread|by eapply sleep_calls|..]; destruct H4; by split.
Qed.

Lemma queue_init n now : queue_ok (init n now).
Proof.
  assert (H0 : ∀ f : pc → nat, f TIdle = 0%nat → tally f (replicate n TIdle) = 0%nat).
  { intros f Hf. apply tally_zero. by apply Forall_replicate. }
  split.
  - apply (tasks_reachable n now). apply rtc_refl.
  - split; cbn; [by intros t m ?%elem_of_nil|by intros t [?|?]|by intros i ?%elem_of_nil|constructor].
  - split; cbn; rewrite ?H0 by done; try done; lia.
  - split; cbn; try done. by intros t [?|?].
Qed.

Lemma queue_reachable n now s : reachable n now s → queue_ok s.
Proof.
  intros Hr. assert (H : ∀ s1 s2, rtc step s1 s2 → queue_ok s1 → queue_ok s2).
  { induction 1; [done|]. eauto using queue_step. }
  eapply H; [exact Hr|apply queue_init].
Qed.

(** ** The pool *)

(** How often a task is in a list *)
Definition times (i : Z) (l : list TimerTask) : nat := length (filter (λ t, id t = i) l).

Lemma times_app i l1 l2 : times i (l1 ++ l2) = (times i l1 + times i l2)%nat.
Proof. unfold times. by rewrite filter_app, length_app. Qed.

Lemma times_none i l : (∀ t, t ∈ l → id t ≠ i) → times i l = 0%nat.
Proof.
  intros H. unfold times. induction l as [|t l IH]; [done|]. rewrite filter_cons_False by (apply H; left).
  apply IH. intros u Hu. apply H. by right.
Qed.

(** Only the first entry is of task [i]. *)
Lemma times_first i (l : list (TimerTask * Z)) :
  (∀ k e, l !! k = Some e → id (fst e) = i → k = 0%nat) → (times i (fst <$> l) ≤ 1)%nat.
Proof.
  destruct l as [|e l]; intros H; [cbn; lia|]. change (fst <$> e :: l) with ([fst e] ++ (fst <$> l)). rewrite times_app, (times_none i (fst <$> l)).
  - unfold times. pose proof (length_filter (λ t, id t = i) [fst e]). cbn in *. lia.
  - intros t (e' & -> & [k Hk]%list_elem_of_lookup)%list_elem_of_fmap Hid. by specialize (H (S k) e' Hk Hid).
Qed.

(** A step of the pool takes a copy that was submitted; only an execution adds one. *)
Lemma pool_step s s' i : step s s' → ∃ l l', ran s' = ran s ++ l ∧ pool_ran (pool s') = pool_ran (pool s) ++ l' ∧
  (times i (fst <$> l') + times i (submitted (pool s')) ≤ times i (submitted (pool s)) + times i (fst <$> l))%nat.
Proof.
  assert (Hsame : ∀ x, ran x = ran s → pool_ran (pool x) = pool_ran (pool s) → submitted (pool x) = submitted (pool s) →
    ∃ l l', ran x = ran s ++ l ∧ pool_ran (pool x) = pool_ran (pool s) ++ l' ∧
      (times i (fst <$> l') + times i (submitted (pool x)) ≤ times i (submitted (pool s)) + times i (fst <$> l))%nat).
  { intros x E1 E2 E3. exists [], []. rewrite E1, E2, E3, !app_nil_r. split_and!; try done. lia. }
  intros [s1 Hs|j p s1 _ Hs|j s1 _ Hs|c Hc|l1 t l2 Hp].
  - destruct Hs; inv_execute; try (by apply Hsame); exists [(t, clock s)], [];
      cbn [ran pool pool_ran submitted submit with_wk with_pool log_ran fmap list_fmap fst];
      rewrite ?app_nil_r, ?times_app; split_and!; try done; rewrite (times_none i []) by (by intros u ?%elem_of_nil); lia.
  - destruct Hs; by apply Hsame.
  - destruct Hs; try (by apply Hsame). unfold cancel. destruct (negb _); by apply Hsame.
  - by apply Hsame.
  - exists [], [(t, clock s)]. cbn [ran pool pool_ran submitted with_pool fmap list_fmap fst].
    rewrite app_nil_r, Hp, !times_app. split_and!; try done. change (t :: l2) with ([t] ++ l2). rewrite times_app. lia.
Qed.

Lemma pool_run s s' i : rtc step s s' → ∃ l l', ran s' = ran s ++ l ∧ pool_ran (pool s') = pool_ran (pool s) ++ l' ∧
  (times i (fst <$> l') + times i (submitted (pool s')) ≤ times i (submitted (pool s)) + times i (fst <$> l))%nat.
Proof.
  induction 1 as [s|s s1 s2 Hs _ (l2 & l2' & E2 & E2' & H2)]; [exists [], []; rewrite !app_nil_r; split_and!; try done; lia|].
  destruct (pool_step s s1 i Hs) as (l1 & l1' & E1 & E1' & H1). exists (l1 ++ l2), (l1' ++ l2').
  rewrite E2, E1, E2', E1', !fmap_app, !times_app, !app_assoc. split_and!; try done. lia.
Qed.

(** ** Properties *)

(** C16: When [cancel] with the id of a task, [cancelAll] or [stop] has taken the mutex, the
    worker executes the task at most once more in any later interleaving, and only if it had
    already made its last test for cancellation and was about to; [cancelAll] does not revive a
    task that was cancelled before, and a repeating task is not pushed back.  To execute is to
    run the task or, when there is a thread pool, to hand a copy to it.  Copies the pool was
    given before are not recalled: from then on the pool runs the task at most as often as it
    had copies of it left, and once more if the worker hands over another ([l], [l']; the run
    [pool_runs_cancelled] shows that it does run them). *)
Theorem cancel_is_final n now s s1 s2 i : reachable n now s → 0 < i ≤ m_nextId (tq s) → step s s1 →
  (tq s1 = snd (cancel i (tq s)) ∨ tq s1 = cancelAll (tq s) ∨ tq s1 = stop_clear (tq s)) →
  rtc step s1 s2 →
  ∃ l l', ran s2 = ran s1 ++ l ∧ pool_ran (pool s2) = pool_ran (pool s1) ++ l' ∧
    (∀ k t m, l !! k = Some (t, m) → id t = i → k = 0%nat ∧ wk s1 = WExec t) ∧
    (times i (fst <$> l') ≤ times i (submitted (pool s1)) + times i (fst <$> l))%nat ∧ (times i (fst <$> l) ≤ 1)%nat.
Proof.
  intros Hr Hi Hs Hq Hr2. pose proof (tasks_reachable _ _ _ Hr) as Hok.
  pose proof (step_effect s s1 Hok Hs) as He. pose proof (effect_next _ _ He).
  assert (Hgen : m_cancelGeneration (tq s1) = m_cancelGeneration (tq s) + 1 → dead s1 i).
  { intros Hg. right. intros t Ht _.
    destruct He as [? ? ? Hg' ?|? ? ? ? ? Hq'|? ? ? ? ? Hg' ?|l Ho _ _]; [lia|rewrite Hq' in Hg; lia|lia|].
    destruct (ok_range _ Hok t) as [_ ?]; [rewrite Ho; set_solver|lia]. }
  assert (Hdead : dead s1 i).
  { destruct Hq as [Hq|[Hq|Hq]]; [left|apply Hgen|apply Hgen]; rewrite Hq; cbn; [set_solver|done..]. }
  destruct (dead_run s1 s2 i) as (l & Hl & Hone); [by eapply tasks_effect|lia|done|done|].
  destruct (pool_run s1 s2 i Hr2) as (l0 & l' & Hl0 & Hl' & Ht).
  assert (l0 = l) as -> by (apply (app_inv_head (ran s1)); by rewrite <- Hl0).
  exists l, l'. split_and!; try done; [lia|]. apply times_first. intros k [t m] Hk Hid. by apply (Hone k t m).
Qed.

(** No task runs before its time, and a task of [runAt] or [runAfter] runs at most once.
    No wake-up is lost: while no other thread is in a call, a worker that is blocked without a
    time limit has an empty queue, a worker that is blocked until some time has it from the
    task that is first in the queue, so that it does not sleep past any task, and the queue is
    not stopped; a [stop] that waits for the worker never waits for a blocked one. *)
Lemma timer_queue_on_time n now s : reachable n now s →
  (∀ t m, (t, m) ∈ ran s → expiration t ≤ m) ∧ NoDup (oneshots s) ∧
  (Forall (λ p, p = TIdle) (threads s) →
     (wk s = WWait → m_stopped (tq s) = false ∧ m_tasks (tq s) = []) ∧
     (∀ t, wk s = WSleep t → m_stopped (tq s) = false ∧ t ∈ m_tasks (tq s) ∧
        ∀ u, u ∈ m_tasks (tq s) → expiration t ≤ expiration u)) ∧
  (TStopJoin ∈ threads s → blocked (wk s) = false).
Proof.
  intros Hr. destruct (queue_reachable n now s Hr) as [_ [Hra _ _ Ho] Hf [Hw Hs _]].
  split_and!; try done.
  - intros t m Ht. by apply (Hra t m).
  - intros Hidle. assert (tally notifier (threads s) = 0%nat) as Hno.
    { apply tally_zero. eapply Forall_impl; [exact Hidle|]. by intros p ->. }
    rewrite Hno in *. split.
    + intros Ht. destruct (Hw Ht) as [?|?]; [lia|done].
    + intros t Ht. destruct (Hs t Ht) as [?|[? Htop]]; [lia|].
      pose proof (top_spec (m_tasks (tq s))) as Htp. rewrite Htop in Htp. destruct Htp as [? Hmin].
      split_and!; try done. intros u Hu. destruct (Hmin u Hu); lia.
  - intros Hin. apply (fl_late _ Hf). apply list_elem_of_lookup in Hin as [i Hi].
    pose proof (tally_pos late _ _ _ Hi). cbn in *. lia.
Qed.

(** ** Instances *)

(** Take a step of the worker, of the only thread, or a call of that thread. *)
Tactic Notation "works" uconstr(rule) :=
  eapply rtc_l; [eapply step_worker; eapply rule; try reflexivity|].
Tactic Notation "goes" uconstr(rule) :=
  eapply rtc_l; [eapply (step_thread _ 0); [reflexivity|eapply rule; try reflexivity]|].
Tactic Notation "asks" uconstr(rule) :=
  eapply rtc_l; [eapply (step_call _ 0); [reflexivity|eapply rule; try reflexivity]|].

(** A repeating task that is due at 7000000 and was popped, and a worker asleep for it. *)
Definition task1 : TimerTask := mkTask 1 7000000 7 true 0.
Definition asleep : sys :=
  mkSys (mkQueue [task1] ∅ 1 true false 0 false) (WSleep task1) [TIdle] 0 [] (mkPool false [] []).
Definition about_to_run : sys :=
  mkSys (mkQueue [] ∅ 1 true false 0 false) (WExec task1) [TIdle] 7000000 [] (mkPool false [] []).

Lemma asleep_reachable : reachable 1 0 asleep.
Proof.
  unfold reachable. asks call_start. goes start_store. goes start_launch.
  asks (call_run _ _ (RunEvery 7)); [by intros iv [= <-]|]. goes run_accept. goes run_alloc. goes run_push.
  works w_enter. works w_scan; [done|]. works w_sleep. goes run_notify.
  works w_resume. apply rtc_refl.
Qed.

Lemma about_reachable : reachable 1 0 about_to_run.
Proof.
  unfold reachable. etrans; [apply asleep_reachable|].
  eapply rtc_l; [apply (step_time _ 7000000); done|]. works w_wake. works w_again. works w_due.
  works w_check. apply rtc_refl.
Qed.

(** Cancelled just after the last test: the task runs once and is then forgotten. *)
Definition cancelled_now : sys := with_tq (snd (cancel 1 (tq about_to_run))) about_to_run.
Definition cancelled_ran : sys :=
  mkSys (mkQueue [] ∅ 1 true false 0 false) WTop [TIdle] 7000000 [(task1, 7000000)] (mkPool false [] []).

Lemma cancel_is_final_witness : ∃ l l', ran cancelled_ran = ran cancelled_now ++ l ∧
  pool_ran (pool cancelled_ran) = pool_ran (pool cancelled_now) ++ l' ∧
  (∀ k t m, l !! k = Some (t, m) → id t = 1 → k = 0%nat ∧ wk cancelled_now = WExec t) ∧
  (times 1 (fst <$> l') ≤ times 1 (submitted (pool cancelled_now)) + times 1 (fst <$> l))%nat ∧ (times 1 (fst <$> l) ≤ 1)%nat.
Proof.
  apply (cancel_is_final 1 0 about_to_run cancelled_now cancelled_ran 1).
  - apply about_reachable.
  - cbn. lia.
  - eapply (step_call _ 0); [reflexivity|]. exact (call_cancel about_to_run 0 1 eq_refl).
  - left. reflexivity.
  - works w_execute; [by constructor|]. works w_cancelled. apply rtc_refl.
Defined.

(** With a pool that is slower than the interval copies pile up, and the pool runs them after
    the task was cancelled: here two of them. *)
Theorem pool_runs_cancelled : ∃ s s1 s2, reachable 1 0 s ∧ step s s1 ∧ tq s1 = snd (cancel 1 (tq s)) ∧ rtc step s1 s2 ∧
  pool_ran (pool s1) = [] ∧ times 1 (fst <$> pool_ran (pool s2)) = 2%nat.
Proof.
  set (task2 := mkTask 1 14000000 7 true 0).
  set (p2 := mkPool true [task1; task2] []).
  set (s := mkSys (mkQueue [] ∅ 1 true false 0 false) (WAfter task2) [TIdle] 14000000 [(task1, 7000000); (task2, 14000000)] p2).
  exists s, (with_tq (snd (cancel 1 (tq s))) s),
    (with_pool (mkPool true [] [(task1, 14000000); (task2, 14000000)]) (with_tq (snd (cancel 1 (tq s))) s)).
  split_and!; try reflexivity.
  - unfold reachable. etrans; [apply about_reachable|]. asks (call_setThreadPool _ _ true).
    works w_execute; [by constructor|]. works w_alive. works w_rearm. works w_push. works w_enter. works w_scan; [done|].
    eapply rtc_l; [apply (step_time _ 14000000); done|]. works w_due. works w_check. works w_execute; [by constructor|].
    apply rtc_refl.
  - eapply (step_call _ 0); [reflexivity|]. exact (call_cancel s 0 1 eq_refl).
  - eapply rtc_l; [apply (step_pool _ [] task1 [task2]); reflexivity|].
    eapply rtc_l; [apply (step_pool _ [] task2 []); reflexivity|]. apply rtc_refl.
Qed.

(** An id that was never given out can be cancelled, which returns [true]; the task that is
    given this id later is dropped without running. *)
Theorem cancel_unknown_id :
  fst (cancel 1 TimerQueue_make) = true ∧
  ∃ s, reachable 1 0 s ∧ m_nextId (tq s) = 1 ∧
    top (m_tasks (tq s)) = Some (mkTask 1 5 0 false 0) ∧
    isCancelledLocked (mkTask 1 5 0 false 0) (tq s) = true.
Proof.
  split; [reflexivity|].
  exists (mkSys (mkQueue [mkTask 1 5 0 false 0] {[1]} 1 true false 0 false) WTop [TNotify] 0 [] (mkPool false [] [])).
  split; [|repeat split]. unfold reachable.
  asks (call_cancel _ _ 1). asks call_start. goes start_store. goes start_launch.
  asks (call_run _ _ (RunAt 5)); [done|]. goes run_accept. goes run_alloc. goes run_push. apply rtc_refl.
Qed.

(** [submit] of a pool that was stopped throws [std::logic_error]; nothing between it and the
    thread's function catches it, and the program ends. *)
Theorem refused_submit_crashes : ∃ s, reachable 1 0 s ∧ wk s = WCrashed ∧ ran s = [].
Proof.
  exists (mkSys (mkQueue [] ∅ 1 true false 0 false) WCrashed [TIdle] 7000000 [] (mkPool true [] [])).
  split; [|done]. unfold reachable. etrans; [apply about_reachable|]. asks (call_setThreadPool _ _ true).
  works w_throw; [by apply exec_refused|]. apply rtc_refl.
Qed.
