(* ===== verification/Latch.v ===== *)
(** * [dbase::sync::CountDownLatch] (code/src/sync/count_down_latch.cpp)

    A count and the threads blocked until it is zero.  The body of an operation under the
    mutex is one step; [countDown] notifies while it holds the mutex.  A blocked thread may
    wake spuriously, and in [waitFor] when its time is up. *)

From stdpp Require Import base list relations.
From Stdlib Require Import ZArith Lia.
From S2P Require Import Prelude.

Local Open Scope Z_scope.

Record CountDownLatch : Type := mkLatch { m_count : Z }.

Definition CountDownLatch_make (count : Z) : res CountDownLatch :=
  if count <? 0 then Throw invalid_argument else Ok (mkLatch count).

Definition count (l : CountDownLatch) : Z := m_count l.

(** Whether it notifies *)
Definition countDown : M CountDownLatch bool :=
  let! l := get in
  if m_count l =? 0 then ret false
  else
    put (mkLatch (m_count l - 1));;;
    let! l := get in
    ret (m_count l =? 0).

(** ** Threads *)

Inductive pc : Type :=
  | Outside
  | Testing (timed : bool)    (* in [wait] or [waitFor], to lock and test the count *)
  | Blocked (timed : bool)    (* on [m_cv] *)
  | Expired                   (* the time of [waitFor] is up, to test once more *)
  | Returned (result : bool). (* what [waitFor] returns; [wait] returns like [true] *)

Definition wake (p : pc) : pc := match p with Blocked b => Testing b | p => p end.

(** [downs] counts the calls of [countDown]. *)
Record sys : Type := mkSys { latch : CountDownLatch; threads : list pc; downs : nat }.

Inductive internal : sys → sys → Prop :=
  | test_pass l ts d t p : ts !! t = Some p → p ∈ [Testing false; Testing true; Expired] →
      m_count l = 0 → internal (mkSys l ts d) (mkSys l (<[t := Returned true]> ts) d)
  | test_block l ts d t b : ts !! t = Some (Testing b) → m_count l ≠ 0 →
      internal (mkSys l ts d) (mkSys l (<[t := Blocked b]> ts) d)
  | test_expired l ts d t : ts !! t = Some Expired → m_count l ≠ 0 →
      internal (mkSys l ts d) (mkSys l (<[t := Returned false]> ts) d).

Inductive external : sys → sys → Prop :=
  | call_wait l ts d t b : ts !! t = Some Outside →
      external (mkSys l ts d) (mkSys l (<[t := Testing b]> ts) d)
  | call_countDown l l' ts d t n : ts !! t = Some Outside → countDown l = (Ok n, l') →
      external (mkSys l ts d) (mkSys l' (if n : bool then wake <$> ts else ts) (S d))
  | return_ l ts d t r : ts !! t = Some (Returned r) →
      external (mkSys l ts d) (mkSys l (<[t := Outside]> ts) d)
  | wake_spurious l ts d t b : ts !! t = Some (Blocked b) →
      external (mkSys l ts d) (mkSys l (<[t := Testing b]> ts) d)
  | wake_time l ts d t : ts !! t = Some (Blocked true) →
      external (mkSys l ts d) (mkSys l (<[t := Expired]> ts) d).

Definition step (s s' : sys) : Prop := internal s s' ∨ external s s'.

Definition init (l : CountDownLatch) (n : nat) : sys := mkSys l (replicate n Outside) 0.

(** ** The invariant *)

Definition blocked (p : pc) : nat := match p with Blocked _ => 1 | _ => 0 end.
Definition passed (p : pc) : nat := match p with Returned true => 1 | _ => 0 end.

Record inv (c : Z) (s : sys) : Prop := {
  inv_count : m_count (latch s) = Z.max 0 (c - Z.of_nat (downs s));
  inv_blocked : m_count (latch s) = 0 → tally blocked (threads s) = 0%nat;
  inv_passed : m_count (latch s) ≠ 0 → tally passed (threads s) = 0%nat;
}.

Lemma countDown_cases l n l' : countDown l = (Ok n, l') →
  (m_count l = 0 ∧ n = false ∧ l' = l) ∨
  (m_count l ≠ 0 ∧ n = (m_count l - 1 =? 0) ∧ l' = mkLatch (m_count l - 1)).
Proof.
  unfold countDown. run. destruct (Z.eqb_spec (m_count l) 0); intros [= <- <-]; [by left|by right].
Qed.

Lemma wake_blocked ts : tally blocked (wake <$> ts) = 0%nat ∧ tally passed (wake <$> ts) = tally passed ts.
Proof.
  induction ts as [|p ts [IH1 IH2]]; [done|]. unfold tally in *.
  rewrite fmap_cons. destruct p as [| | | |[]]; cbn [sum_list_with wake blocked passed]; lia.
Qed.

Lemma latch_inv_step c s s' : 0 ≤ c → step s s' → inv c s → inv c s'.
Proof.
  intros Hc [Hi|He] [Hn Hb Hp]; [destruct Hi as [l ts d t p Ht Hin H0|l ts d t b Ht H0|l ts d t Ht H0]
    |destruct He as [l ts d t b Ht|l l' ts d t n Ht He|l ts d t r Ht|l ts d t b Ht|l ts d t Ht]].
  all: simpl in *.
  5:{ apply countDown_cases in He as [(H0 & -> & ->)|(H0 & -> & ->)].
      - constructor; cbn [latch downs threads m_count] in *; auto; lia.
      - destruct (wake_blocked ts) as [H1 H2].
        destruct (Z.eqb_spec (m_count l - 1) 0); constructor; cbn [latch downs threads m_count] in *; rewrite ?H1, ?H2; auto; lia. }
  all: pose proof (λ p' f, tally_insert f _ _ _ p' Ht) as Hm; constructor; simpl; try done.
  all: match goal with
    | |- _ → tally ?f (<[_ := ?p']> _) = _ => specialize (Hm p' f)
    end; try (intros Hx; specialize (Hb Hx)); try (intros Hx; specialize (Hp Hx));
    try (rewrite !elem_of_cons, elem_of_nil in Hin; destruct Hin as [->|[->|[->|[]]]]);
    try destruct r; simpl in *; try done; try lia.
Qed.

Definition awake (p : pc) : nat := match p with Testing _ | Expired => 1 | _ => 0 end.

Lemma latch_internal_awake s s' : internal s s' →
  tally awake (threads s) = S (tally awake (threads s')).
Proof.
  intros [l ts d t p Ht Hin _|l ts d t b Ht _|l ts d t Ht _]; simpl.
  - pose proof (tally_insert awake _ _ _ (Returned true) Ht).
    rewrite !elem_of_cons, elem_of_nil in Hin. destruct Hin as [->|[->|[->|[]]]]; simpl in *; lia.
  - pose proof (tally_insert awake _ _ _ (Blocked b) Ht). simpl in *. lia.
  - pose proof (tally_insert awake _ _ _ (Returned false) Ht). simpl in *. lia.
Qed.

Lemma latch_nsteps k s s' : nsteps internal k s s' → (k ≤ tally awake (threads s))%nat.
Proof.
  induction 1 as [|k x y z H _ IH]; [lia|]. apply latch_internal_awake in H. lia.
Qed.

Lemma latch_inv_reachable c n s : 0 ≤ c → rtc step (init (mkLatch c) n) s → inv c s.
Proof.
  intros Hc Hr. assert (inv c (init (mkLatch c) n)) as H0.
  { assert (∀ f : pc → nat, f Outside = 0%nat → tally f (replicate n Outside) = 0%nat) as Hz
      by (intros f Hf; apply tally_zero; by apply Forall_replicate).
    constructor; simpl; [lia|intros _; by apply Hz..]. }
  induction Hr as [|x y z Hs _ IH]; [done|]. apply IH. by eapply latch_inv_step.
Qed.

(** ** Properties *)

(** A latch made with a count [c]: in every interleaving its count is [c] less the calls
    of [countDown], but not below zero; a [wait] has returned, or a [waitFor] with [true],
    only if there were at least [c] of them; the threads come to rest after at most one step
    each, and at rest a thread is blocked only if there were fewer than [c]. *)
Lemma latch_exact c l n s : CountDownLatch_make c = Ok l → rtc step (init l n) s →
  count (latch s) = Z.max 0 (c - Z.of_nat (downs s)) ∧
  (∀ t, threads s !! t = Some (Returned true) → c ≤ Z.of_nat (downs s)) ∧
  (∀ k s', nsteps internal k s s' → (k ≤ length (threads s))%nat) ∧
  ((∀ s', ¬ internal s s') → ∀ t p, threads s !! t = Some p →
    awake p = 0%nat ∧ (blocked p = 1%nat → Z.of_nat (downs s) < c)).
Proof.
  unfold CountDownLatch_make. destruct (Z.ltb_spec c 0) as [|Hc]; [done|]. intros [= <-] Hr.
  destruct (latch_inv_reachable c n s Hc Hr) as [Hn Hb Hp]. split_and!.
  - done.
  - intros t Ht. pose proof (tally_pos passed _ _ _ Ht) as H. simpl in H.
    destruct (decide (m_count (latch s) = 0)); [lia|]. rewrite Hp in H by done. lia.
  - intros k s' Hk. apply latch_nsteps in Hk.
    pose proof (tally_bound awake (threads s) 1). rewrite Nat.mul_1_l in *.
    etransitivity; [exact Hk|]. apply H. intros []; simpl; lia.
  - destruct s as [l ts d]. simpl in *. intros Hq t p Ht. split.
    + destruct p as [|b|b| |r]; try done; exfalso.
      * destruct (decide (m_count l = 0)) as [E|E].
        -- apply (Hq (mkSys l (<[t := Returned true]> ts) d)). eapply test_pass; [exact Ht| |done].
           rewrite !elem_of_cons. destruct b; tauto.
        -- apply (Hq (mkSys l (<[t := Blocked b]> ts) d)). by apply test_block.
      * destruct (decide (m_count l = 0)) as [E|E].
        -- apply (Hq (mkSys l (<[t := Returned true]> ts) d)). eapply test_pass; [exact Ht| |done].
           rewrite !elem_of_cons. tauto.
        -- apply (Hq (mkSys l (<[t := Returned false]> ts) d)). by apply test_expired.
    + intros Hbl. pose proof (tally_pos blocked _ _ _ Ht).
      destruct (decide (m_count l = 0)) as [E|E]; [rewrite (Hb E) in *; lia|lia].
Qed.

(** One waiter released by the second of two calls. *)
