(* ===== verification/DoubleLink.v ===== *)
(** * [dbase::time::DoubleLink] (code/include/dbase/time/timer_wheel.h)

    The intrusive doubly linked list with sentinels, over a heap of nodes.  A pointer is
    a client node or one of the two sentinels embedded in a list; [None] is [nullptr].
    Loading or storing through a null or dangling pointer is undefined.  The header's
    [count_] is a [uint32_t]. *)

From S2P Require Import Prelude.
From stdpp Require Import base list gmap strings.
From Stdlib Require Import ZArith Lia.

Local Open Scope Z_scope.

Inductive ptr : Type :=
  | NodeP (n : nat)
  | HeadP (l : nat)
  | TailP (l : nat).

#[global] Instance ptr_eq_dec : EqDecision ptr.
Proof. solve_decision. Defined.

#[global] Instance ptr_countable : Countable ptr.
Proof.
  refine (inj_countable'
    (λ p, match p with NodeP n => inl n | HeadP l => inr (inl l) | TailP l => inr (inr l) end)
    (λ s : nat + (nat + nat),
      match s with inl n => NodeP n | inr (inl l) => HeadP l | inr (inr l) => TailP l end) _).
  by intros [].
Defined.

Record DoubleLinkNode : Type := mkLink {
  pOwner : option nat;
  pNext : option ptr;
  pPrev : option ptr;
}.

Definition detached_node : DoubleLinkNode := mkLink None None None.

(** All nodes, and the [count_] of each list. *)
Record Heap : Type := mkHeap { nodes : gmap ptr DoubleLinkNode; counts : gmap nat Z }.

(** ** Memory access *)

Definition load (p : option ptr) : M Heap DoubleLinkNode :=
  let! h := get in
  lift match p ≫= (nodes h !!.) with Some n => Ok n | None => Undef end.

Definition store (p : option ptr) (f : DoubleLinkNode → DoubleLinkNode) : M Heap () :=
  let! n := load p in
  modify (λ h, mkHeap (match p with Some p => <[p := f n]> (nodes h) | None => nodes h end)
                      (counts h)).

Definition set_next (p q : option ptr) : M Heap () :=
  store p (λ n, mkLink (pOwner n) q (pPrev n)).
Definition set_prev (p q : option ptr) : M Heap () :=
  store p (λ n, mkLink (pOwner n) (pNext n) q).
Definition set_owner (p : option ptr) (l : option nat) : M Heap () :=
  store p (λ n, mkLink l (pNext n) (pPrev n)).

Definition add_count (l : option nat) (d : Z) : M Heap () :=
  let! h := get in
  match l with
  | Some l =>
      match counts h !! l with
      | Some c => modify (λ h, mkHeap (nodes h) (<[l := u32 (c + d)]> (counts h)))
      | None => undef
      end
  | None => undef
  end.

(** ** Operations *)

(** [DoubleLink()] for list [l] *)
Definition DoubleLink_make (l : nat) : M Heap () :=
  modify (λ h, mkHeap (<[HeadP l := mkLink None (Some (TailP l)) None]>
                        (<[TailP l := mkLink None None (Some (HeadP l))]> (nodes h)))
                      (<[l := 0]> (counts h))).

(** [DoubleLinkNode()] *)
Definition DoubleLinkNode_make (n : nat) : M Heap () :=
  modify (λ h, mkHeap (<[NodeP n := detached_node]> (nodes h)) (counts h)).

Definition Size (l : nat) : M Heap Z :=
  let! h := get in lift match counts h !! l with Some c => Ok c | None => Undef end.

Definition Empty (l : nat) : M Heap bool :=
  let! head := load (Some (HeadP l)) in
  ret (bool_decide (pNext head = Some (TailP l))).

Definition isDetached (p : ptr) : M Heap bool :=
  let! n := load (Some p) in
  ret (bool_decide (pOwner n = None) && bool_decide (pNext n = None)
       && bool_decide (pPrev n = None)).

Definition isLinked (p : ptr) : M Heap bool :=
  let! n := load (Some p) in
  ret (negb (bool_decide (pOwner n = None)) && negb (bool_decide (pNext n = None))
       && negb (bool_decide (pPrev n = None))).

Definition GetFirst (l : nat) : M Heap (option ptr) :=
  let! e := Empty l in
  if e then ret None else let! head := load (Some (HeadP l)) in ret (pNext head).

Definition Push (l : nat) (node : option ptr) : M Heap () :=
  match node with
  | None => ret tt
  | Some p =>
      let! d := isDetached p in
      if negb d then ret tt
      else
        let! tail := load (Some (TailP l)) in
        set_next (pPrev tail) node;;;
        let! tail := load (Some (TailP l)) in
        set_prev node (pPrev tail);;;
        set_next node (Some (TailP l));;;
        set_owner node (Some l);;;
        set_prev (Some (TailP l)) node;;;
        add_count (Some l) 1
  end.

Definition PushFront (l : nat) (node : option ptr) : M Heap () :=
  match node with
  | None => ret tt
  | Some p =>
      let! d := isDetached p in
      if negb d then ret tt
      else
        set_prev node (Some (HeadP l));;;
        let! head := load (Some (HeadP l)) in
        set_next node (pNext head);;;
        let! head := load (Some (HeadP l)) in
        set_prev (pNext head) node;;;
        set_next (Some (HeadP l)) node;;;
        set_owner node (Some l);;;
        add_count (Some l) 1
  end.

Definition Remove (node : option ptr) : M Heap () :=
  match node with
  | None => ret tt
  | Some p =>
      let! k := isLinked p in
      if negb k then ret tt
      else
        let! n := load node in
        set_next (pPrev n) (pNext n);;;
        let! n := load node in
        set_prev (pNext n) (pPrev n);;;
        let! n := load node in
        add_count (pOwner n) (-1);;;
        set_owner node None;;;
        set_next node None;;;
        set_prev node None
  end.

Definition Pop (l : nat) : M Heap (option ptr) :=
  let! e := Empty l in
  if e then ret None
  else
    let! head := load (Some (HeadP l)) in
    let r := pNext head in
    Remove r;;;
    ret r.

(** [while (Pop() != nullptr)] *)
Fixpoint Clear_loop (fuel : nat) (l : nat) : M Heap () :=
  match fuel with
  | O => lift NoFuel
  | S fuel =>
      let! r := Pop l in
      match r with None => ret tt | Some _ => Clear_loop fuel l end
  end.

(** Each round removes a node. *)
Definition Clear (l : nat) : M Heap () :=
  let! h := get in Clear_loop (S (base.size (nodes h))) l.

(** [~DoubleLinkNode()] *)
Definition DoubleLinkNode_destroy (n : nat) : M Heap () :=
  let! node := load (Some (NodeP n)) in
  if bool_decide (pOwner node = None) then ret tt else Remove (Some (NodeP n)).

Definition DoubleLink_destroy (l : nat) : M Heap () := Clear l.

(** ** Chains of links *)

Definition next (h : Heap) (p : ptr) : option ptr := nodes h !! p ≫= pNext.
Definition prev (h : Heap) (p : ptr) : option ptr := nodes h !! p ≫= pPrev.
Definition owner (h : Heap) (p : ptr) : option nat := nodes h !! p ≫= pOwner.

(** [ps] follows [a], linked in both directions. *)
Fixpoint chain (h : Heap) (a : ptr) (ps : list ptr) : Prop :=
  match ps with
  | [] => True
  | b :: ps => next h a = Some b ∧ prev h b = Some a ∧ chain h b ps
  end.

Definition last_or (a : ptr) (ps : list ptr) : ptr := default a (last ps).

Lemma last_or_cons a b ps : last_or a (b :: ps) = last_or b ps.
Proof. unfold last_or. destruct ps as [|c ps]; [done|]. rewrite last_cons_cons.
  destruct (last (c :: ps)) eqn:E; [done|]. by apply last_None in E. Qed.

Lemma chain_app h a ps qs : chain h a (ps ++ qs) ↔ chain h a ps ∧ chain h (last_or a ps) qs.
Proof.
  revert a. induction ps as [|b ps IH]; intros a; simpl; [unfold last_or; simpl; tauto|].
  rewrite IH, last_or_cons. tauto.
Qed.

Lemma last_or_elem a ps : last_or a ps ∈ a :: ps.
Proof.
  unfold last_or. destruct (last ps) eqn:E; simpl; [|set_solver].
  apply list_elem_of_further, last_Some_elem_of. done.
Qed.

(** A chain depends on the links inside it only. *)
Lemma chain_ext h h' a ps : chain h a ps → NoDup (a :: ps) →
  (∀ p, p ∈ a :: ps → p ≠ last_or a ps → next h' p = next h p) →
  (∀ p, p ∈ ps → prev h' p = prev h p) → chain h' a ps.
Proof.
  revert a. induction ps as [|b ps IH]; intros a Hc Hnd Hn Hp; [done|].
  simpl in Hc. destruct Hc as (H1 & H2 & Hc). apply NoDup_cons in Hnd as [Ha Hnd].
  rewrite last_or_cons in Hn. simpl. split_and!.
  - rewrite Hn; [done|set_solver|]. intros ->. by apply Ha, last_or_elem.
  - rewrite Hp; [done|set_solver].
  - apply IH; [done|done| |set_solver]. intros p Hin. apply Hn. set_solver.
Qed.

(** ** Stores as functions on heaps *)

Definition valid (h : Heap) (p : ptr) : Prop := is_Some (nodes h !! p).

Definition put (f : DoubleLinkNode → DoubleLinkNode) (p : ptr) (h : Heap) : Heap :=
  mkHeap (alter f p (nodes h)) (counts h).
Definition put_next (p : ptr) (q : option ptr) : Heap → Heap :=
  put (λ n, mkLink (pOwner n) q (pPrev n)) p.
Definition put_prev (p : ptr) (q : option ptr) : Heap → Heap :=
  put (λ n, mkLink (pOwner n) (pNext n) q) p.
Definition put_owner (p : ptr) (l : option nat) : Heap → Heap :=
  put (λ n, mkLink l (pNext n) (pPrev n)) p.

Lemma store_run h p f : valid h p → store (Some p) f h = (Ok tt, put f p h).
Proof.
  intros [n Hn]. unfold store, load, put. run. simpl. rewrite Hn. run. unfold modify.
  do 2 f_equal. apply map_eq. intros x. destruct (decide (x = p)) as [->|Hne].
  - by rewrite lookup_insert_eq, lookup_alter_eq, Hn.
  - by rewrite lookup_insert_ne, lookup_alter_ne.
Qed.

Lemma load_run h p n : nodes h !! p = Some n → load (Some p) h = (Ok n, h).
Proof. intros Hn. unfold load. run. simpl. by rewrite Hn. Qed.

Lemma valid_put h f p x : valid (put f p h) x ↔ valid h x.
Proof.
  unfold valid, put. simpl. destruct (decide (x = p)) as [->|Hne].
  - rewrite lookup_alter_eq. destruct (nodes h !! p); simpl; split; intros [? ?]; by eexists.
  - by rewrite lookup_alter_ne.
Qed.

(** Reading a field after a store. *)
Section fields.
Context {A : Type} (g : DoubleLinkNode → option A) (f : DoubleLinkNode → DoubleLinkNode).

Lemma field_put_same h p v : valid h p → (∀ n, g (f n) = v) →
  ∀ x, nodes (put f p h) !! x ≫= g = if decide (x = p) then v else nodes h !! x ≫= g.
Proof.
  intros [n Hn] Hf x. unfold put. simpl. case_decide as E; [subst x|by rewrite lookup_alter_ne].
  rewrite lookup_alter_eq, Hn. simpl. by rewrite Hf.
Qed.

Lemma field_put_other h p : (∀ n, g (f n) = g n) →
  ∀ x, nodes (put f p h) !! x ≫= g = nodes h !! x ≫= g.
Proof.
  intros Hf x. unfold put. simpl. destruct (decide (x = p)) as [->|Hne].
  - rewrite lookup_alter_eq. destruct (nodes h !! p); simpl; [apply Hf|done].
  - by rewrite lookup_alter_ne.
Qed.
End fields.

Lemma next_put_next h p q x : valid h p →
  next (put_next p q h) x = if decide (x = p) then q else next h x.
Proof. intros Hp. by apply (field_put_same pNext). Qed.
Lemma prev_put_prev h p q x : valid h p →
  prev (put_prev p q h) x = if decide (x = p) then q else prev h x.
Proof. intros Hp. by apply (field_put_same pPrev). Qed.
Lemma owner_put_owner h p l x : valid h p →
  owner (put_owner p l h) x = if decide (x = p) then l else owner h x.
Proof. intros Hp. by apply (field_put_same pOwner). Qed.
Lemma next_put_prev h p q x : next (put_prev p q h) x = next h x.
Proof. by apply (field_put_other pNext). Qed.
Lemma next_put_owner h p l x : next (put_owner p l h) x = next h x.
Proof. by apply (field_put_other pNext). Qed.
Lemma prev_put_next h p q x : prev (put_next p q h) x = prev h x.
Proof. by apply (field_put_other pPrev). Qed.
Lemma prev_put_owner h p l x : prev (put_owner p l h) x = prev h x.
Proof. by apply (field_put_other pPrev). Qed.
Lemma owner_put_next h p q x : owner (put_next p q h) x = owner h x.
Proof. by apply (field_put_other pOwner). Qed.
Lemma owner_put_prev h p q x : owner (put_prev p q h) x = owner h x.
Proof. by apply (field_put_other pOwner). Qed.

Definition put_count (l : nat) (c : Z) (h : Heap) : Heap :=
  mkHeap (nodes h) (<[l := c]> (counts h)).

Lemma add_count_run h l c d : counts h !! l = Some c →
  add_count (Some l) d h = (Ok tt, put_count l (u32 (c + d)) h).
Proof. intros Hc. unfold add_count. run. by rewrite Hc. Qed.

Create Rewrite HintDb links.
#[export] Hint Rewrite next_put_prev next_put_owner prev_put_next prev_put_owner
  owner_put_next owner_put_prev : links.

Ltac valid_tac := unfold put_next, put_prev, put_owner; rewrite ?valid_put; done.
Ltac links := repeat first [progress autorewrite with links
  | rewrite next_put_next by valid_tac | rewrite prev_put_prev by valid_tac
  | rewrite owner_put_owner by valid_tac].

Section run_stores.
Context {B : Type} (h : Heap) (p : ptr) (k : () → M Heap B) (Hp : valid h p).
Lemma bind_set_next q : bind (set_next (Some p) q) k h = k tt (put_next p q h).
Proof. apply (bind_Ok _ _ _ _ _ (store_run h p _ Hp)). Qed.
Lemma bind_set_prev q : bind (set_prev (Some p) q) k h = k tt (put_prev p q h).
Proof. apply (bind_Ok _ _ _ _ _ (store_run h p _ Hp)). Qed.
Lemma bind_set_owner l : bind (set_owner (Some p) l) k h = k tt (put_owner p l h).
Proof. apply (bind_Ok _ _ _ _ _ (store_run h p _ Hp)). Qed.
End run_stores.

Ltac stores := repeat first [rewrite bind_set_next by valid_tac
  | rewrite bind_set_prev by valid_tac | rewrite bind_set_owner by valid_tac].

(** The links after putting [n] between [q] and [r], in list [l]. *)
Definition inserted (h : Heap) (l n : nat) (q r : ptr) (c : Z) (h' : Heap) : Prop :=
  (∀ x, next h' x = if decide (x = q) then Some (NodeP n)
                    else if decide (x = NodeP n) then Some r else next h x) ∧
  (∀ x, prev h' x = if decide (x = r) then Some (NodeP n)
                    else if decide (x = NodeP n) then Some q else prev h x) ∧
  (∀ x, owner h' x = if decide (x = NodeP n) then Some l else owner h x) ∧
  (∀ x, valid h' x ↔ valid h x) ∧ counts h' = <[l := u32 (c + 1)]> (counts h).

Lemma detached_run h n : nodes h !! NodeP n = Some detached_node →
  isDetached (NodeP n) h = (Ok true, h).
Proof. intros Hn. unfold isDetached. by rewrite (bind_Ok _ _ _ _ _ (load_run _ _ _ Hn)). Qed.

Lemma valid_nodes h p : valid h p → ∃ n, nodes h !! p = Some n ∧ pNext n = next h p ∧
  pPrev n = prev h p ∧ pOwner n = owner h p.
Proof. intros [n Hn]. exists n. unfold next, prev, owner. by rewrite Hn. Qed.

Lemma Push_links h l n q c :
  nodes h !! NodeP n = Some detached_node → prev h (TailP l) = Some q →
  valid h q → valid h (TailP l) → q ≠ NodeP n → q ≠ TailP l → counts h !! l = Some c →
  ∃ h', Push l (Some (NodeP n)) h = (Ok tt, h') ∧ inserted h l n q (TailP l) c h'.
Proof.
  intros Hn Hq Hvq Hvt Hqn Hqt Hc. assert (valid h (NodeP n)) as Hvn by (by eexists).
  unfold Push. rewrite (bind_Ok _ _ _ _ _ (detached_run h n Hn)). cbn [negb].
  destruct (valid_nodes h (TailP l) Hvt) as (t & Ht & _ & Htp & _).
  rewrite (bind_Ok _ _ _ _ _ (load_run _ _ _ Ht)), Htp, Hq. stores.
  set (h1 := put_next q _ h). assert (valid h1 (TailP l)) as Hvt1 by (unfold h1; valid_tac).
  destruct (valid_nodes h1 (TailP l) Hvt1) as (t1 & Ht1 & _ & Htp1 & _).
  rewrite (bind_Ok _ _ _ _ _ (load_run _ _ _ Ht1)), Htp1.
  unfold h1 at 1. rewrite prev_put_next, Hq. unfold h1. stores.
  rewrite (add_count_run _ _ c) by done. eexists; split; [done|].
  unfold inserted. split_and!.
  - intros x. change (next (put_count _ _ ?h) x) with (next h x). links.
    repeat case_decide; congruence.
  - intros x. change (prev (put_count _ _ ?h) x) with (prev h x). links.
    repeat case_decide; congruence.
  - intros x. change (owner (put_count _ _ ?h) x) with (owner h x). links. done.
  - intros x. change (valid (put_count _ _ ?h) x) with (valid h x).
    unfold put_next, put_prev, put_owner. by rewrite !valid_put.
  - done.
Qed.

Lemma PushFront_links h l n r c :
  nodes h !! NodeP n = Some detached_node → next h (HeadP l) = Some r →
  valid h r → valid h (HeadP l) → r ≠ NodeP n → r ≠ HeadP l → counts h !! l = Some c →
  ∃ h', PushFront l (Some (NodeP n)) h = (Ok tt, h') ∧ inserted h l n (HeadP l) r c h'.
Proof.
  intros Hn Hr Hvr Hvh Hrn Hrh Hc. assert (valid h (NodeP n)) as Hvn by (by eexists).
  unfold PushFront. rewrite (bind_Ok _ _ _ _ _ (detached_run h n Hn)). cbn [negb]. stores.
  set (h1 := put_prev (NodeP n) _ h). assert (valid h1 (HeadP l)) as Hv1 by (unfold h1; valid_tac).
  destruct (valid_nodes h1 (HeadP l) Hv1) as (t & Ht & Htn & _ & _).
  rewrite (bind_Ok _ _ _ _ _ (load_run _ _ _ Ht)), Htn.
  unfold h1 at 1. rewrite next_put_prev, Hr. unfold h1. clear t Ht Htn. stores.
  set (h2 := put_next (NodeP n) _ _).
  assert (valid h2 (HeadP l)) as Hv2 by (unfold h2; valid_tac).
  destruct (valid_nodes h2 (HeadP l) Hv2) as (t & Ht & Htn & _ & _).
  rewrite (bind_Ok _ _ _ _ _ (load_run _ _ _ Ht)), Htn.
  unfold h2 at 1. rewrite next_put_next, decide_False, next_put_prev, Hr by (done || valid_tac).
  unfold h2. stores.
  rewrite (add_count_run _ _ c) by done. eexists; split; [done|].
  unfold inserted. split_and!.
  - intros x. change (next (put_count _ _ ?h) x) with (next h x). links.
    repeat case_decide; congruence.
  - intros x. change (prev (put_count _ _ ?h) x) with (prev h x). links.
    repeat case_decide; congruence.
  - intros x. change (owner (put_count _ _ ?h) x) with (owner h x). links. done.
  - intros x. change (valid (put_count _ _ ?h) x) with (valid h x).
    unfold put_next, put_prev, put_owner. by rewrite !valid_put.
  - done.
Qed.

(** The links after taking [n] out from between [q] and [r], in list [l]. *)
Definition removed (h : Heap) (l n : nat) (q r : ptr) (c : Z) (h' : Heap) : Prop :=
  (∀ x, next h' x = if decide (x = q) then Some r
                    else if decide (x = NodeP n) then None else next h x) ∧
  (∀ x, prev h' x = if decide (x = r) then Some q
                    else if decide (x = NodeP n) then None else prev h x) ∧
  (∀ x, owner h' x = if decide (x = NodeP n) then None else owner h x) ∧
  (∀ x, valid h' x ↔ valid h x) ∧ counts h' = <[l := u32 (c + -1)]> (counts h).

Lemma Remove_links h l n q r c :
  owner h (NodeP n) = Some l → next h (NodeP n) = Some r → prev h (NodeP n) = Some q →
  valid h q → valid h r → q ≠ NodeP n → r ≠ NodeP n → counts h !! l = Some c →
  ∃ h', Remove (Some (NodeP n)) h = (Ok tt, h') ∧ removed h l n q r c h'.
Proof.
  intros Ho Hr Hq Hvq Hvr Hqn Hrn Hc.
  assert (valid h (NodeP n)) as Hvn.
  { unfold owner in Ho. unfold valid. by destruct (nodes h !! NodeP n). }
  destruct (valid_nodes h (NodeP n) Hvn) as (t & Ht & Htn & Htp & Hto).
  unfold Remove, isLinked. run. rewrite (bind_Ok _ _ _ _ _ (load_run _ _ _ Ht)).
  rewrite Hto, Htn, Htp, Ho, Hr, Hq. run. cbn [negb bool_decide].
  rewrite !bool_decide_false by done. cbn [negb andb].
  rewrite (bind_Ok _ _ _ _ _ (load_run _ _ _ Ht)), Htn, Htp, Hr, Hq. stores.
  set (h1 := put_next q _ h). assert (valid h1 (NodeP n)) as Hv1 by (unfold h1; valid_tac).
  destruct (valid_nodes h1 (NodeP n) Hv1) as (t1 & Ht1 & Htn1 & Htp1 & _).
  rewrite (bind_Ok _ _ _ _ _ (load_run _ _ _ Ht1)), Htn1, Htp1. unfold h1 at 1 2.
  rewrite next_put_next, decide_False, prev_put_next, Hr, Hq by done. unfold h1. stores.
  set (h2 := put_prev r _ _). assert (valid h2 (NodeP n)) as Hv2 by (unfold h2; valid_tac).
  destruct (valid_nodes h2 (NodeP n) Hv2) as (t2 & Ht2 & _ & _ & Hto2).
  rewrite (bind_Ok _ _ _ _ _ (load_run _ _ _ Ht2)), Hto2.
  unfold h2 at 1. rewrite owner_put_prev, owner_put_next, Ho.
  rewrite (bind_Ok _ _ _ _ _ (add_count_run h2 l c (-1) Hc)).
  set (h3 := put_count _ _ h2). assert (valid h3 (NodeP n)) as Hv3 by done.
  stores. unfold set_prev. rewrite store_run by valid_tac.
  eexists; split; [done|].
  assert (∀ x, next h3 x = next h2 x ∧ prev h3 x = prev h2 x ∧ owner h3 x = owner h2 x) as H3 by done.
  fold (put_prev (NodeP n) None (put_next (NodeP n) None (put_owner (NodeP n) None h3))).
  unfold removed. split_and!.
  - intros x. links. rewrite (proj1 (H3 x)). unfold h2. links. repeat case_decide; congruence.
  - intros x. links. rewrite (proj1 (proj2 (H3 x))). unfold h2. links.
    repeat case_decide; congruence.
  - intros x. links. rewrite (proj2 (proj2 (H3 x))). unfold h2. links. done.
  - intros x. unfold put_prev at 1, put_next at 1, put_owner. rewrite !valid_put.
    change (valid h3 x) with (valid h2 x). unfold h2, put_prev, put_next. by rewrite !valid_put.
  - done.
Qed.

(** ** Heaps that represent lists *)

Abbreviation links_of l ns := ((NodeP <$> ns) ++ [TailP l]) (only parsing).
Definition cells (l : nat) (ns : list nat) : list ptr := HeadP l :: (NodeP <$> ns) ++ [TailP l].

Record rep (h : Heap) (L : gmap nat (list nat)) : Prop := {
  rep_chain : ∀ l ns, L !! l = Some ns → chain h (HeadP l) (links_of l ns);
  rep_owner : ∀ l ns n, L !! l = Some ns → n ∈ ns → owner h (NodeP n) = Some l;
  rep_nodup : ∀ l ns, L !! l = Some ns → NoDup ns;
  rep_count : ∀ l ns, L !! l = Some ns → counts h !! l = Some (u32 (zlen ns));
  rep_free : ∀ n, valid h (NodeP n) → (∀ l ns, L !! l = Some ns → n ∉ ns) →
    nodes h !! NodeP n = Some detached_node;
}.

Lemma cells_node l ns n : NodeP n ∈ cells l ns ↔ n ∈ ns.
Proof.
  unfold cells. rewrite elem_of_cons, elem_of_app, list_elem_of_singleton, list_elem_of_fmap.
  naive_solver.
Qed.

Lemma cells_nodup l ns : NoDup ns → NoDup (cells l ns).
Proof.
  intros Hn. apply NoDup_cons. split.
  - rewrite elem_of_app, list_elem_of_singleton, list_elem_of_fmap. naive_solver.
  - apply NoDup_app. split_and!; [|set_solver|apply NoDup_singleton].
    apply NoDup_fmap_2; [|done]. by intros ?? [=].
Qed.

(** Different lists share no cell. *)
Lemma cells_foreign h L l l' ns ns' p : rep h L → L !! l = Some ns → L !! l' = Some ns' →
  l ≠ l' → p ∈ cells l ns → p ∉ cells l' ns'.
Proof.
  intros Hr Hl Hl' Hne Hp Hp'. destruct p as [n|k|k].
  - apply cells_node in Hp, Hp'. apply (rep_owner _ _ Hr _ _ _ Hl) in Hp.
    apply (rep_owner _ _ Hr _ _ _ Hl') in Hp'. congruence.
  - unfold cells in *. set_solver.
  - unfold cells in *. set_solver.
Qed.

Lemma chain_valid h a ps p : chain h a ps → p ∈ ps → valid h p.
Proof.
  revert a. induction ps as [|b ps IH]; intros a; [set_solver|]. simpl. intros (_ & Hb & Hc).
  rewrite elem_of_cons. intros [->|Hp]; [|by apply (IH b)].
  unfold prev in Hb. unfold valid. by destruct (nodes h !! b).
Qed.

Lemma rep_valid h L l ns p : rep h L → L !! l = Some ns → p ∈ cells l ns → valid h p.
Proof.
  intros Hr Hl. pose proof (rep_chain _ _ Hr _ _ Hl) as Hc.
  unfold cells. rewrite elem_of_cons. intros [->|Hp]; [|by eapply chain_valid].
  destruct (links_of l ns) as [|b ps] eqn:E; [by apply app_nil in E as []|].
  destruct Hc as (Hb & _). unfold next in Hb. unfold valid. by destruct (nodes h !! HeadP l).
Qed.

(** A linked node is in one list. *)
Lemma detached_free h L n : rep h L → nodes h !! NodeP n = Some detached_node →
  ∀ l ns, L !! l = Some ns → n ∉ ns.
Proof.
  intros Hr Hn l ns Hl Hin. pose proof (rep_owner _ _ Hr _ _ _ Hl Hin) as Ho.
  unfold owner in Ho. by rewrite Hn in Ho.
Qed.

(** The other lists, when only cells of [l] and a free node change. *)
Lemma chain_frame h h' L l l' ns ns' n :
  rep h L → L !! l = Some ns → L !! l' = Some ns' → l ≠ l' → n ∉ ns' →
  (∀ x, x ∉ cells l ns → x ≠ NodeP n → next h' x = next h x ∧ prev h' x = prev h x) →
  chain h' (HeadP l') (links_of l' ns').
Proof.
  intros Hr Hl Hl' Hne Hn Hx.
  assert (∀ x, x ∈ cells l' ns' → next h' x = next h x ∧ prev h' x = prev h x) as Hx'.
  { intros x Hin. apply Hx.
    - intros Hc. by apply (cells_foreign h L l l' ns ns' x) in Hc.
    - intros ->. by apply cells_node in Hin. }
  apply (chain_ext h).
  - by apply (rep_chain _ _ Hr).
  - apply cells_nodup. by apply (rep_nodup _ _ Hr l').
  - intros x Hin _. by apply Hx'.
  - intros x Hin. apply Hx'. unfold cells. set_solver.
Qed.

(** A list cut at some place: the cells left and right of the cut. *)
Section cut.
Context (h : Heap) (L : gmap nat (list nat)) (l : nat) (ns1 ns2 : list nat) (r : ptr) (rs : list ptr).
Let q := last_or (HeadP l) (NodeP <$> ns1).
Context (Hnd : NoDup (ns1 ++ ns2)) (Hr : links_of l ns2 = r :: rs).

Lemma cut_cells : cells l (ns1 ++ ns2) = (HeadP l :: (NodeP <$> ns1)) ++ r :: rs.
Proof. unfold cells. by rewrite fmap_app, <- app_assoc, Hr. Qed.

Lemma cut_facts :
  NoDup (HeadP l :: (NodeP <$> ns1)) ∧ NoDup (r :: rs) ∧ (q ∉ r :: rs) ∧
  (∀ p, p ∈ HeadP l :: (NodeP <$> ns1) → p ∉ r :: rs) ∧
  q ∈ cells l (ns1 ++ ns2) ∧ r ∈ cells l (ns1 ++ ns2).
Proof.
  pose proof (cells_nodup l _ Hnd) as Hn. rewrite cut_cells in *.
  apply NoDup_app in Hn as (H1 & H2 & H3).
  pose proof (last_or_elem (HeadP l) (NodeP <$> ns1)) as Hq. fold q in Hq.
  split_and!; auto; set_solver.
Qed.

(** Relinking across the cut keeps both sides. *)
Lemma cut_sides h' n :
  chain h (HeadP l) (NodeP <$> ns1) → chain h r rs → n ∉ ns1 ++ ns2 →
  (∀ x, x ≠ q → x ≠ NodeP n → next h' x = next h x) →
  (∀ x, x ≠ r → x ≠ NodeP n → prev h' x = prev h x) →
  chain h' (HeadP l) (NodeP <$> ns1) ∧ chain h' r rs.
Proof.
  intros Hc1 Hc2 Hn Hnx Hpx. destruct cut_facts as (H1 & H2 & Hq & Hd & _ & _).
  assert (∀ p, p ∈ cells l (ns1 ++ ns2) → p ≠ NodeP n) as Hnn.
  { intros p Hp ->. by apply cells_node in Hp. }
  rewrite cut_cells in Hnn. split.
  - apply (chain_ext h); [done..| |].
    + intros p Hp Hl. apply Hnx; [done|]. apply Hnn. set_solver.
    + intros p Hp. apply Hpx; [|apply Hnn; set_solver]. intros ->.
      apply (Hd r); set_solver.
  - apply (chain_ext h); [done..| |].
    + intros p Hp _. apply Hnx; [|apply Hnn; set_solver]. by intros ->.
    + intros p Hp. apply Hpx; [|apply Hnn; set_solver]. intros ->.
      by apply NoDup_cons in H2 as [? _].
Qed.

End cut.

(** Nodes of no list stay detached when only [n] and cells of [l] change. *)
Lemma free_frame h h' L l ns n x :
  rep h L → L !! l = Some ns → x ≠ n → (∀ l ns, L !! l = Some ns → x ∉ ns) →
  valid h (NodeP x) → (∀ x, valid h' x ↔ valid h x) →
  (∀ y, y ∉ cells l ns → y ≠ NodeP n →
    next h' y = next h y ∧ prev h' y = prev h y ∧ owner h' y = owner h y) →
  nodes h' !! NodeP x = Some detached_node.
Proof.
  intros Hr Hl Hne Hx Hv Hvx Hy. pose proof (rep_free _ _ Hr x Hv Hx) as Hd.
  assert (valid h' (NodeP x)) as Hv' by (by apply Hvx).
  destruct (valid_nodes h' (NodeP x) Hv') as ([o nx px] & Hnode & E1 & E2 & E3). simpl in *.
  destruct (Hy (NodeP x)) as (Y1 & Y2 & Y3).
  { rewrite cells_node. by apply (Hx l). }
  { congruence. }
  rewrite Hnode. unfold detached_node. rewrite E1, E2, E3, Y1, Y2, Y3.
  unfold next, prev, owner. by rewrite Hd.
Qed.

Lemma count_step (c d : Z) : u32 (u32 c + d) = u32 (c + d).
Proof. unfold u32, wrap. by rewrite Zplus_mod_idemp_l. Qed.

Lemma rep_insert h L l ns1 ns2 n r rs c h' :
  rep h L → L !! l = Some (ns1 ++ ns2) → nodes h !! NodeP n = Some detached_node →
  links_of l ns2 = r :: rs → counts h !! l = Some c →
  inserted h l n (last_or (HeadP l) (NodeP <$> ns1)) r c h' →
  rep h' (<[l := ns1 ++ n :: ns2]> L).
Proof.
  intros Hr Hl Hn Hrs Hc (Hnx & Hpx & Hox & Hv & Hcnt).
  pose proof (detached_free _ _ _ Hr Hn) as Hfree.
  pose proof (rep_nodup _ _ Hr _ _ Hl) as Hnd. pose proof (Hfree _ _ Hl) as Hnl.
  destruct (cut_facts l ns1 ns2 r rs Hnd Hrs) as (_ & _ & Hqr & _ & Hqc & Hrc).
  set (q := last_or (HeadP l) (NodeP <$> ns1)) in *.
  assert (q ≠ NodeP n) as Hqn by (intros E; rewrite E in Hqc; by apply cells_node in Hqc).
  assert (r ≠ NodeP n) as Hrn by (intros E; rewrite E in Hrc; by apply cells_node in Hrc).
  assert (Hout : ∀ y, y ∉ cells l (ns1 ++ ns2) → y ≠ NodeP n →
    next h' y = next h y ∧ prev h' y = prev h y ∧ owner h' y = owner h y).
  { intros y Hy Hyn. rewrite Hnx, Hpx, Hox. rewrite !(decide_False (P := y = NodeP n)) by done.
    rewrite !decide_False by (intros E; rewrite E in Hy; contradiction). done. }
  constructor; intros l'; try (intros ns'; destruct (decide (l' = l)) as [->|Hne];
    [rewrite lookup_insert_eq|rewrite lookup_insert_ne by done]).
  - intros [= <-].
    pose proof (rep_chain _ _ Hr _ _ Hl) as Hch.
    rewrite fmap_app, <- app_assoc, Hrs, chain_app in Hch. destruct Hch as (Hch1 & _ & _ & Hch2).
    destruct (cut_sides h l ns1 ns2 r rs Hnd Hrs h' n) as [Hc1 Hc2]; [done..| | |].
    + intros x Hx1 Hx2. fold q in Hx1. by rewrite Hnx, !decide_False.
    + intros x Hx1 Hx2. by rewrite Hpx, !decide_False.
    + rewrite fmap_app, fmap_cons, <- app_assoc. simpl. rewrite Hrs, chain_app.
      split; [done|]. fold q. simpl. rewrite !Hnx, !Hpx.
      split_and!; try done; repeat case_decide; congruence.
  - intros Hl'. apply (chain_frame h h' L l l' (ns1 ++ ns2) ns' n); [done..|congruence|by apply (Hfree l')|].
    intros x Hx Hxn. by destruct (Hout x Hx Hxn) as (? & ? & _).
  - intros x [= <-]. rewrite Hox, elem_of_app, elem_of_cons. intros Hx.
    case_decide as E; [done|]. apply (rep_owner _ _ Hr l (ns1 ++ ns2)); [done|].
    rewrite elem_of_app. naive_solver.
  - intros x Hl' Hx. rewrite Hox, decide_False; [by apply (rep_owner _ _ Hr l' ns')|].
    intros [= ->]. by apply (Hfree _ _ Hl').
  - intros [= <-]. rewrite <- Permutation_middle. by apply NoDup_cons.
  - apply (rep_nodup _ _ Hr).
  - intros [= <-]. rewrite Hcnt, lookup_insert_eq. f_equal.
    rewrite (rep_count _ _ Hr _ _ Hl) in Hc. injection Hc as <-. rewrite count_step.
    f_equal. rewrite !zlen_app, zlen_cons. lia.
  - rewrite Hcnt, lookup_insert_ne by done. apply (rep_count _ _ Hr).
  - intros Hvx Hx. rename l' into x. apply Hv in Hvx.
    apply (free_frame h h' L l (ns1 ++ ns2) n x); try done.
    + intros ->. apply (Hx l (ns1 ++ n :: ns2)); [by rewrite lookup_insert_eq|set_solver].
    + intros l0 ns Hl0 Hin. destruct (decide (l0 = l)) as [->|Hne].
      * apply (Hx l (ns1 ++ n :: ns2)); [by rewrite lookup_insert_eq|set_solver].
      * apply (Hx l0 ns); [by rewrite lookup_insert_ne|done].
Qed.

(** The list that is left, and the node that was taken out. *)
Lemma removed_chain h h' l ns1 ns2 n r rs c :
  NoDup (ns1 ++ ns2) → links_of l ns2 = r :: rs → n ∉ ns1 ++ ns2 →
  removed h l n (last_or (HeadP l) (NodeP <$> ns1)) r c h' →
  chain h (HeadP l) (links_of l (ns1 ++ n :: ns2)) →
  chain h' (HeadP l) (links_of l (ns1 ++ ns2)).
Proof.
  intros Hnd Hrs Hnl (Hnx & Hpx & _) Hch.
  set (q := last_or (HeadP l) (NodeP <$> ns1)) in *.
  rewrite fmap_app, fmap_cons, <- app_assoc in Hch. simpl in Hch. rewrite Hrs in Hch.
  rewrite chain_app in Hch. fold q in Hch. simpl in Hch.
  destruct Hch as (Hch1 & _ & _ & _ & _ & Hch2).
  destruct (cut_sides h l ns1 ns2 r rs Hnd Hrs h' n) as [Hc1 Hc2]; [done..| | |].
  - intros x Hx1 Hx2. fold q in Hx1. by rewrite Hnx, !decide_False.
  - intros x Hx1 Hx2. by rewrite Hpx, !decide_False.
  - rewrite fmap_app, <- app_assoc, Hrs, chain_app. fold q. simpl.
    rewrite Hnx, Hpx, (decide_True (P := q = q)), (decide_True (P := r = r)) by done. done.
Qed.

Lemma removed_detached h l n q r c h' : removed h l n q r c h' → q ≠ NodeP n → r ≠ NodeP n →
  valid h (NodeP n) → nodes h' !! NodeP n = Some detached_node.
Proof.
  intros (Hnx & Hpx & Hox & Hv & _) Hq Hr Hn.
  destruct (valid_nodes h' (NodeP n)) as ([o nx px] & Hnode & E1 & E2 & E3); [by apply Hv|].
  simpl in *. rewrite Hnode. unfold detached_node.
  rewrite E1, E2, E3, Hnx, Hpx, Hox, !(decide_True (P := NodeP n = NodeP n)),
    !decide_False by congruence. done.
Qed.

Lemma rep_remove h L l ns1 ns2 n r rs c h' :
  rep h L → L !! l = Some (ns1 ++ n :: ns2) → links_of l ns2 = r :: rs →
  counts h !! l = Some c →
  removed h l n (last_or (HeadP l) (NodeP <$> ns1)) r c h' →
  rep h' (<[l := ns1 ++ ns2]> L).
Proof.
  intros Hr Hl Hrs Hc Hrem. pose proof Hrem as (Hnx & Hpx & Hox & Hv & Hcnt).
  pose proof (rep_nodup _ _ Hr _ _ Hl) as Hnd0. pose proof Hnd0 as Hnd.
  rewrite <- Permutation_middle in Hnd. apply NoDup_cons in Hnd as [Hnl Hnd].
  destruct (cut_facts l ns1 ns2 r rs Hnd Hrs) as (_ & Hrr & Hqr & _ & Hqc & Hrc).
  set (q := last_or (HeadP l) (NodeP <$> ns1)) in *.
  assert (q ≠ NodeP n) as Hqn by (intros E; rewrite E in Hqc; by apply cells_node in Hqc).
  assert (r ≠ NodeP n) as Hrn by (intros E; rewrite E in Hrc; by apply cells_node in Hrc).
  assert (Hsub : ∀ y, y ∈ cells l (ns1 ++ ns2) → y ∈ cells l (ns1 ++ n :: ns2))
    by (clear; intros y; unfold cells; rewrite !fmap_app, fmap_cons, !elem_of_cons, !elem_of_app,
      !elem_of_cons; tauto).
  assert (Hout : ∀ y, y ∉ cells l (ns1 ++ n :: ns2) → y ≠ NodeP n →
    next h' y = next h y ∧ prev h' y = prev h y ∧ owner h' y = owner h y).
  { intros y Hy Hyn. rewrite Hnx, Hpx, Hox. rewrite !(decide_False (P := y = NodeP n)) by done.
    rewrite !decide_False by (intros E; rewrite E in Hy; apply Hy, Hsub; done). done. }
  assert (Hother : ∀ l' ns', l' ≠ l → L !! l' = Some ns' → n ∉ ns').
  { intros l' ns' Hne Hl' Hin. apply (rep_owner _ _ Hr _ _ _ Hl') in Hin.
    rewrite (rep_owner _ _ Hr _ _ n Hl) in Hin by set_solver. congruence. }
  constructor; intros l'; try (intros ns'; destruct (decide (l' = l)) as [->|Hne];
    [rewrite lookup_insert_eq|rewrite lookup_insert_ne by done]).
  - intros [= <-]. apply (removed_chain h h' l ns1 ns2 n r rs c); [done..|by apply (rep_chain _ _ Hr)].
  - intros Hl'. apply (chain_frame h h' L l l' (ns1 ++ n :: ns2) ns' n);
      [done..|congruence|by apply (Hother l')|].
    intros x Hx Hxn. by destruct (Hout x Hx Hxn) as (? & ? & _).
  - intros x [= <-] Hx. rewrite Hox, decide_False.
    + apply (rep_owner _ _ Hr l (ns1 ++ n :: ns2)); [done|]. rewrite elem_of_app in *.
      rewrite elem_of_cons. tauto.
    + by intros [= ->].
  - intros x Hl' Hx. rewrite Hox, decide_False; [by apply (rep_owner _ _ Hr l' ns')|].
    intros [= ->]. by apply (Hother l' ns').
  - by intros [= <-].
  - apply (rep_nodup _ _ Hr).
  - intros [= <-]. rewrite Hcnt, lookup_insert_eq. f_equal.
    rewrite (rep_count _ _ Hr _ _ Hl) in Hc. injection Hc as <-. rewrite count_step.
    f_equal. rewrite !zlen_app, zlen_cons. lia.
  - rewrite Hcnt, lookup_insert_ne by done. apply (rep_count _ _ Hr).
  - intros Hvx Hx. rename l' into x. apply Hv in Hvx. destruct (decide (x = n)) as [->|Hne].
    + by apply (removed_detached h l n q r c).
    + apply (free_frame h h' L l (ns1 ++ n :: ns2) n x); try done.
      intros l0 ns Hl0 Hin. destruct (decide (l0 = l)) as [->|Hne0].
      * rewrite Hl in Hl0. injection Hl0 as <-.
        apply (Hx l (ns1 ++ ns2)); [by rewrite lookup_insert_eq|].
        rewrite elem_of_app in *. rewrite elem_of_cons in Hin. tauto.
      * apply (Hx l0 ns); [by rewrite lookup_insert_ne|done].
Qed.

(** ** The operations on represented lists *)

Definition free (L : gmap nat (list nat)) (n : nat) : Prop :=
  ∀ l ns, L !! l = Some ns → n ∉ ns.

Section operations.
Context (h : Heap) (L : gmap nat (list nat)) (Hr : rep h L).

(** A member of a list: its links. *)
Lemma member_links l ns1 n ns2 : L !! l = Some (ns1 ++ n :: ns2) →
  ∃ r rs, links_of l ns2 = r :: rs ∧ owner h (NodeP n) = Some l ∧
    next h (NodeP n) = Some r ∧ prev h (NodeP n) = Some (last_or (HeadP l) (NodeP <$> ns1)) ∧
    valid h r ∧ valid h (last_or (HeadP l) (NodeP <$> ns1)) ∧ r ≠ NodeP n ∧
    last_or (HeadP l) (NodeP <$> ns1) ≠ NodeP n.
Proof.
  intros Hl. pose proof (rep_chain _ _ Hr _ _ Hl) as Hc.
  destruct (links_of l ns2) as [|r rs] eqn:E; [by apply app_nil in E as []|].
  exists r, rs. rewrite fmap_app, fmap_cons, <- app_assoc in Hc. simpl in Hc.
  rewrite E, chain_app in Hc. destruct Hc as (_ & H1 & H2 & H3 & _).
  pose proof (cells_nodup l _ (rep_nodup _ _ Hr _ _ Hl)) as Hnd.
  pose proof (last_or_elem (HeadP l) (NodeP <$> ns1)) as Hq.
  assert (cells l (ns1 ++ n :: ns2)
          = (HeadP l :: (NodeP <$> ns1)) ++ NodeP n :: r :: rs) as Hcells.
  { unfold cells. rewrite fmap_app, fmap_cons, <- app_assoc. simpl. by rewrite E. }
  assert (∀ p, p ∈ cells l (ns1 ++ n :: ns2) → valid h p) as Hv
    by (intros p; by apply (rep_valid h L l)).
  rewrite Hcells in Hnd, Hv. apply NoDup_app in Hnd as (_ & Hd & [Hn _]%NoDup_cons).
  split_and!; try done.
  - apply (rep_owner _ _ Hr l (ns1 ++ n :: ns2)); [done|]. rewrite elem_of_app, elem_of_cons. auto.
  - apply Hv. rewrite elem_of_app, !elem_of_cons. auto.
  - apply Hv. rewrite elem_of_app. auto.
  - intros ->. apply Hn. apply elem_of_cons. auto.
  - intros Hqn. rewrite Hqn in Hq. apply (Hd _ Hq). apply elem_of_cons. auto.
Qed.

Lemma Remove_member l ns1 n ns2 : L !! l = Some (ns1 ++ n :: ns2) →
  ∃ h', Remove (Some (NodeP n)) h = (Ok tt, h') ∧ rep h' (<[l := ns1 ++ ns2]> L) ∧
    (∀ x, valid h' x ↔ valid h x).
Proof.
  intros Hl. pose proof (rep_count _ _ Hr _ _ Hl) as Hc.
  destruct (member_links l ns1 n ns2 Hl) as (r & rs & E & Ho & Hnx & Hpx & ? & ? & ? & ?).
  destruct (Remove_links h l n _ r (u32 (zlen (ns1 ++ n :: ns2))) Ho Hnx Hpx) as (h' & Hrun & Hrm); try done.
  exists h'. split_and!; [done| |apply Hrm].
  eapply rep_remove; done.
Qed.

Lemma Remove_free n : valid h (NodeP n) → free L n → Remove (Some (NodeP n)) h = (Ok tt, h).
Proof.
  intros Hv Hf. pose proof (rep_free _ _ Hr n Hv Hf) as Hd.
  unfold Remove, isLinked. run. by rewrite (bind_Ok _ _ _ _ _ (load_run _ _ _ Hd)).
Qed.

Lemma detached_member l ns n : L !! l = Some ns → n ∈ ns →
  isDetached (NodeP n) h = (Ok false, h).
Proof.
  intros Hl Hin. pose proof (rep_owner _ _ Hr _ _ _ Hl Hin) as Ho.
  assert (valid h (NodeP n)) as Hv by (eapply rep_valid; [done..|by apply cells_node]).
  destruct (valid_nodes _ _ Hv) as (t & Ht & _ & _ & Hto).
  unfold isDetached. rewrite (bind_Ok _ _ _ _ _ (load_run _ _ _ Ht)), Hto, Ho.
  by rewrite bool_decide_false.
Qed.

Lemma sentinels l ns : L !! l = Some ns → valid h (HeadP l) ∧ valid h (TailP l) ∧
  prev h (TailP l) = Some (last_or (HeadP l) (NodeP <$> ns)) ∧
  ∃ r rs, links_of l ns = r :: rs ∧ next h (HeadP l) = Some r.
Proof.
  intros Hl. pose proof (rep_chain _ _ Hr _ _ Hl) as Hc.
  split_and!.
  - eapply rep_valid; [done..|]. by apply elem_of_cons; left.
  - eapply rep_valid; [done..|]. unfold cells. rewrite elem_of_cons, elem_of_app,
      list_elem_of_singleton. auto.
  - rewrite chain_app in Hc. by destruct Hc as (_ & _ & ? & _).
  - destruct (links_of l ns) as [|r rs] eqn:E; [by apply app_nil in E as []|].
    exists r, rs. split; [done|]. by destruct Hc.
Qed.

Lemma Push_free l ns n : L !! l = Some ns → valid h (NodeP n) → free L n →
  ∃ h', Push l (Some (NodeP n)) h = (Ok tt, h') ∧ rep h' (<[l := ns ++ [n]]> L) ∧
    (∀ x, valid h' x ↔ valid h x).
Proof.
  intros Hl Hv Hf. pose proof (rep_free _ _ Hr n Hv Hf) as Hd.
  destruct (sentinels l ns Hl) as (Hvh & Hvt & Hpt & _).
  pose proof (rep_nodup _ _ Hr _ _ Hl) as Hnd. rewrite <- (app_nil_r ns) in Hnd.
  destruct (cut_facts l ns [] (TailP l) [] Hnd eq_refl) as (_ & _ & Hq & _ & Hqc & _).
  rewrite app_nil_r in Hqc.
  destruct (Push_links h l n _ (u32 (zlen ns)) Hd Hpt) as (h' & Hrun & Hin); try done.
  - by apply (rep_valid h L l ns).
  - intros E. rewrite E in Hqc. apply cells_node in Hqc. by apply (Hf l ns).
  - intros E. apply Hq. rewrite E. by apply elem_of_cons; left.
  - by apply (rep_count _ _ Hr).
  - exists h'. split_and!; [done| |apply Hin]. eapply rep_insert; try done.
    + by rewrite app_nil_r.
    + by apply (rep_count _ _ Hr).
Qed.

Lemma PushFront_free l ns n : L !! l = Some ns → valid h (NodeP n) → free L n →
  ∃ h', PushFront l (Some (NodeP n)) h = (Ok tt, h') ∧ rep h' (<[l := n :: ns]> L) ∧
    (∀ x, valid h' x ↔ valid h x).
Proof.
  intros Hl Hv Hf. pose proof (rep_free _ _ Hr n Hv Hf) as Hd.
  destruct (sentinels l ns Hl) as (Hvh & Hvt & _ & r & rs & Hrs & Hnh).
  pose proof (rep_nodup _ _ Hr _ _ Hl) as Hnd.
  destruct (cut_facts l [] ns r rs Hnd Hrs) as (_ & _ & Hq & _ & _ & Hrc).
  destruct (PushFront_links h l n r (u32 (zlen ns)) Hd Hnh) as (h' & Hrun & Hin); try done.
  - by apply (rep_valid h L l ns).
  - intros ->. apply cells_node in Hrc. by apply (Hf l ns).
  - intros ->. apply Hq. by apply elem_of_cons; left.
  - by apply (rep_count _ _ Hr).
  - exists h'. split_and!; [done| |apply Hin].
    apply (rep_insert h L l [] ns n r rs (u32 (zlen ns)) h'); try done.
    by apply (rep_count _ _ Hr).
Qed.

Lemma Empty_run l ns : L !! l = Some ns → Empty l h = (Ok (bool_decide (ns = [])), h).
Proof.
  intros Hl. destruct (sentinels l ns Hl) as (Hvh & _ & _ & r & rs & Hrs & Hnh).
  destruct (valid_nodes _ _ Hvh) as (t & Ht & Htn & _).
  unfold Empty. rewrite (bind_Ok _ _ _ _ _ (load_run _ _ _ Ht)), Htn, Hnh.
  unfold ret. do 2 f_equal. apply bool_decide_ext. destruct ns; simpl in Hrs.
  - injection Hrs as <- _. done.
  - injection Hrs as <- _. done.
Qed.

Lemma Pop_list l ns : L !! l = Some ns →
  match ns with
  | [] => Pop l h = (Ok None, h)
  | n :: ns => ∃ h', Pop l h = (Ok (Some (NodeP n)), h') ∧ rep h' (<[l := ns]> L) ∧
      (∀ x, valid h' x ↔ valid h x)
  end.
Proof.
  intros Hl. unfold Pop. destruct ns as [|n ns].
  - by rewrite (bind_Ok _ _ _ _ _ (Empty_run l [] Hl)).
  - destruct (Remove_member l [] n ns Hl) as (h' & Hrun & Hrep & Hv). exists h'.
    rewrite (bind_Ok _ _ _ _ _ (Empty_run l _ Hl)), bool_decide_false by done.
    destruct (sentinels l _ Hl) as (Hvh & _ & _ & r & rs & Hrs & Hnh).
    destruct (valid_nodes _ _ Hvh) as (t & Ht & Htn & _).
    rewrite (bind_Ok _ _ _ _ _ (load_run _ _ _ Ht)), Htn, Hnh.
    injection Hrs as <- _. by rewrite (bind_Ok _ _ _ _ _ Hrun).
Qed.

End operations.

Lemma Clear_loop_run l ns : ∀ fuel h L, rep h L → L !! l = Some ns → (length ns < fuel)%nat →
  ∃ h', Clear_loop fuel l h = (Ok tt, h') ∧ rep h' (<[l := []]> L) ∧
    (∀ x, valid h' x ↔ valid h x).
Proof.
  induction ns as [|n ns IH]; intros fuel h L Hr Hl Hf;
    (destruct fuel as [|fuel]; [simpl in Hf; lia|]); cbn [Clear_loop];
    pose proof (Pop_list h L Hr l _ Hl) as Hp; cbv iota in Hp.
  - rewrite (bind_Ok _ _ _ _ _ Hp). exists h. by rewrite insert_id.
  - destruct Hp as (h1 & Hp & Hr1 & Hv1). rewrite (bind_Ok _ _ _ _ _ Hp).
    destruct (IH fuel h1 _ Hr1) as (h' & Hc & Hr' & Hv'); [by rewrite lookup_insert_eq|
      simpl in Hf; lia|].
    exists h'. rewrite insert_insert_eq in Hr'. split_and!; [done..|].
    intros x. by rewrite Hv', Hv1.
Qed.

Lemma Clear_run h L l ns : rep h L → L !! l = Some ns →
  ∃ h', Clear l h = (Ok tt, h') ∧ rep h' (<[l := []]> L) ∧ (∀ x, valid h' x ↔ valid h x).
Proof.
  intros Hr Hl. unfold Clear. run. apply (Clear_loop_run l ns); [done..|].
  apply Nat.lt_succ_r. pose proof (rep_nodup _ _ Hr _ _ Hl) as Hnd.
  rewrite <- (length_fmap NodeP ns), <- (size_dom (D := gset ptr)).
  rewrite <- (size_list_to_set (C := gset ptr)) by (apply NoDup_fmap_2; [by intros ?? [=]|done]).
  apply subseteq_size. intros p Hp%elem_of_list_to_set. apply elem_of_dom.
  apply (rep_valid h L l ns); [done..|]. unfold cells. apply elem_of_cons. right.
  apply elem_of_app. by left.
Qed.

(** ** Refinement: a family of disjoint lists *)

Inductive op : Type :=
  | OpPush (l n : nat) | OpPushFront (l n : nat) | OpPop (l : nat) | OpRemove (n : nat)
  | OpClear (l : nat) | OpSize (l : nat) | OpEmpty (l : nat) | OpGetFirst (l : nat).

Inductive answer : Type :=
  | AUnit | APtr (p : option ptr) | ASize (c : Z) | ABool (b : bool).

Definition exec (o : op) : M Heap answer :=
  match o with
  | OpPush l n => Push l (Some (NodeP n));;; ret AUnit
  | OpPushFront l n => PushFront l (Some (NodeP n));;; ret AUnit
  | OpPop l => let! r := Pop l in ret (APtr r)
  | OpRemove n => Remove (Some (NodeP n));;; ret AUnit
  | OpClear l => Clear l;;; ret AUnit
  | OpSize l => let! c := Size l in ret (ASize c)
  | OpEmpty l => let! e := Empty l in ret (ABool e)
  | OpGetFirst l => let! r := GetFirst l in ret (APtr r)
  end.

(** What each operation does to the lists. *)
Inductive allowed (L : gmap nat (list nat)) : op → answer → gmap nat (list nat) → Prop :=
  | push_new l ns n : L !! l = Some ns → free L n →
      allowed L (OpPush l n) AUnit (<[l := ns ++ [n]]> L)
  | push_linked l n : ¬ free L n → allowed L (OpPush l n) AUnit L
  | push_front_new l ns n : L !! l = Some ns → free L n →
      allowed L (OpPushFront l n) AUnit (<[l := n :: ns]> L)
  | push_front_linked l n : ¬ free L n → allowed L (OpPushFront l n) AUnit L
  | pop_some l n ns : L !! l = Some (n :: ns) →
      allowed L (OpPop l) (APtr (Some (NodeP n))) (<[l := ns]> L)
  | pop_none l : L !! l = Some [] → allowed L (OpPop l) (APtr None) L
  | remove_linked l ns1 n ns2 : L !! l = Some (ns1 ++ n :: ns2) →
      allowed L (OpRemove n) AUnit (<[l := ns1 ++ ns2]> L)
  | remove_free n : free L n → allowed L (OpRemove n) AUnit L
  | clear_all l ns : L !! l = Some ns → allowed L (OpClear l) AUnit (<[l := []]> L)
  | size_of l ns : L !! l = Some ns → allowed L (OpSize l) (ASize (u32 (zlen ns))) L
  | empty_of l ns : L !! l = Some ns → allowed L (OpEmpty l) (ABool (bool_decide (ns = []))) L
  | first_of l ns : L !! l = Some ns → allowed L (OpGetFirst l) (APtr (NodeP <$> head ns)) L.

Inductive history : gmap nat (list nat) → list (op * res answer) → gmap nat (list nat) → Prop :=
  | history_nil L : history L [] L
  | history_cons L o a L' evs L'' :
      allowed L o a L' → history L' evs L'' → history L ((o, Ok a) :: evs) L''.

Fixpoint run_ops (os : list op) (h : Heap) : list (op * res answer) * Heap :=
  match os with
  | [] => ([], h)
  | o :: os =>
      let '(r, h1) := exec o h in
      let '(evs, h2) := run_ops os h1 in ((o, r) :: evs, h2)
  end.

(** The lists and nodes of an operation exist. *)
Definition op_ok (h : Heap) (L : gmap nat (list nat)) (o : op) : Prop :=
  match o with
  | OpPush l n | OpPushFront l n => is_Some (L !! l) ∧ valid h (NodeP n)
  | OpRemove n => valid h (NodeP n)
  | OpPop l | OpClear l | OpSize l | OpEmpty l | OpGetFirst l => is_Some (L !! l)
  end.

Lemma free_or_member L n : free L n ∨ ∃ l ns1 ns2, L !! l = Some (ns1 ++ n :: ns2).
Proof.
  destruct (decide (map_Forall (λ _ ns, n ∉ ns) L)) as [Hf|Hf]; [by left|right].
  apply map_not_Forall in Hf as (l & ns & Hl & Hin); [|apply _].
  apply dec_stable in Hin. apply list_elem_of_split in Hin as (ns1 & ns2 & ->). eauto.
Qed.

Lemma member_not_free L l ns1 n ns2 : L !! l = Some (ns1 ++ n :: ns2) → ¬ free L n.
Proof. intros Hl Hf. apply (Hf _ _ Hl). apply elem_of_app. right. by apply elem_of_cons; left. Qed.

Lemma push_refused h L l ns1 n ns2 : rep h L → L !! l = Some (ns1 ++ n :: ns2) →
  ∀ k, Push k (Some (NodeP n)) h = (Ok tt, h) ∧ PushFront k (Some (NodeP n)) h = (Ok tt, h).
Proof.
  intros Hr Hl k. pose proof (detached_member h L Hr l _ n Hl) as Hd.
  unfold Push, PushFront.
  rewrite !(bind_Ok _ _ _ _ _ (Hd ltac:(apply elem_of_app; right; by apply elem_of_cons; left))).
  done.
Qed.

(** After [l] is updated the same lists exist. *)
Lemma dom_kept (L : gmap nat (list nat)) l ns ns' k : L !! l = Some ns →
  is_Some (L !! k) → is_Some (<[l := ns']> L !! k).
Proof. intros. rewrite lookup_insert_is_Some. destruct (decide (l = k)); auto. Qed.

Lemma exec_on_lists o h L : rep h L → op_ok h L o →
  ∃ a h' L', exec o h = (Ok a, h') ∧ allowed L o a L' ∧ rep h' L' ∧
    (∀ x, valid h' x ↔ valid h x) ∧ (∀ k, is_Some (L !! k) → is_Some (L' !! k)).
Proof.
  intros Hr Ho. destruct o as [l n|l n|l|n|l|l|l|l]; simpl in Ho; cbn [exec].
  - destruct Ho as [[ns Hl] Hv]. destruct (free_or_member L n) as [Hf|(k & n1 & n2 & Hk)].
    + destruct (Push_free h L Hr l ns n Hl Hv Hf) as (h' & Hrun & Hr' & Hv').
      rewrite (bind_Ok _ _ _ _ _ Hrun).
      eexists _, h', _. split_and!; [done|by constructor|done|done|]. intros j.
      by apply (dom_kept _ _ ns).
    + rewrite (bind_Ok _ _ _ _ _ (proj1 (push_refused _ _ _ _ _ _ Hr Hk l))).
      eexists _, h, L. split_and!; [done| |done..]. apply push_linked. by eapply member_not_free.
  - destruct Ho as [[ns Hl] Hv]. destruct (free_or_member L n) as [Hf|(k & n1 & n2 & Hk)].
    + destruct (PushFront_free h L Hr l ns n Hl Hv Hf) as (h' & Hrun & Hr' & Hv').
      rewrite (bind_Ok _ _ _ _ _ Hrun).
      eexists _, h', _. split_and!; [done|by constructor|done|done|]. intros j.
      by apply (dom_kept _ _ ns).
    + rewrite (bind_Ok _ _ _ _ _ (proj2 (push_refused _ _ _ _ _ _ Hr Hk l))).
      eexists _, h, L. split_and!; [done| |done..].
      apply push_front_linked. by eapply member_not_free.
  - destruct Ho as [ns Hl]. pose proof (Pop_list h L Hr l ns Hl) as Hp. destruct ns as [|n ns].
    + rewrite (bind_Ok _ _ _ _ _ Hp). eexists _, h, L. split_and!; [done|by constructor|done..].
    + destruct Hp as (h' & Hrun & Hr' & Hv'). rewrite (bind_Ok _ _ _ _ _ Hrun).
      eexists _, h', _. split_and!; [done|by constructor|done|done|]. intros j.
      by apply (dom_kept _ _ (n :: ns)).
  - destruct (free_or_member L n) as [Hf|(k & n1 & n2 & Hk)].
    + rewrite (bind_Ok _ _ _ _ _ (Remove_free h L Hr n Ho Hf)).
      eexists _, h, L. split_and!; [done|by constructor|done..].
    + destruct (Remove_member h L Hr k n1 n n2 Hk) as (h' & Hrun & Hr' & Hv').
      rewrite (bind_Ok _ _ _ _ _ Hrun).
      eexists _, h', _. split_and!; [done|by apply remove_linked|done|done|]. intros j.
      by eapply dom_kept.
  - destruct Ho as [ns Hl]. destruct (Clear_run h L l ns Hr Hl) as (h' & Hrun & Hr' & Hv').
    rewrite (bind_Ok _ _ _ _ _ Hrun).
    eexists _, h', _. split_and!; [done|by eapply clear_all|done|done|]. intros j.
    by apply (dom_kept _ _ ns).
  - destruct Ho as [ns Hl]. unfold Size. run. rewrite (rep_count _ _ Hr _ _ Hl). run.
    eexists _, h, L. split_and!; [done|by constructor|done..].
  - destruct Ho as [ns Hl]. rewrite (bind_Ok _ _ _ _ _ (Empty_run h L Hr l ns Hl)).
    eexists _, h, L. split_and!; [done|by constructor|done..].
  - destruct Ho as [ns Hl]. unfold GetFirst. run.
    rewrite (bind_Ok _ _ _ _ _ (Empty_run h L Hr l ns Hl)).
    destruct (sentinels h L Hr l ns Hl) as (Hvh & _ & _ & r & rs & Hrs & Hnh).
    destruct (valid_nodes _ _ Hvh) as (t & Ht & Htn & _).
    destruct ns as [|n ns].
    + eexists _, h, L. split_and!; [done|by apply (first_of L l [])|done..].
    + rewrite bool_decide_false by done. run.
      rewrite (bind_Ok _ _ _ _ _ (load_run _ _ _ Ht)), Htn, Hnh. injection Hrs as <- _.
      eexists _, h, L. split_and!; [done|by apply (first_of L l (n :: ns))|done..].
Qed.

(** C20: the pointer structure is a family of disjoint lists: on any sequence of
    operations on existing lists and nodes every answer is the one of the lists, pushing
    a linked node is refused, removing an unlinked one does nothing, and the links, owners
    and counts of all lists stay consistent; no null or dangling pointer is followed. *)
Theorem doublelink_refines os h L : rep h L → Forall (op_ok h L) os →
  let '(evs, h') := run_ops os h in ∃ L', history L evs L' ∧ rep h' L'.
Proof.
  revert h L. induction os as [|o os IH]; intros h L Hr Hok; simpl.
  { exists L. split; [constructor|done]. }
  apply Forall_cons in Hok as [Ho Hok].
  destruct (exec_on_lists o h L Hr Ho) as (a & h1 & L1 & -> & Ha & Hr1 & Hv & Hd).
  assert (Forall (op_ok h1 L1) os) as Hok1.
  { eapply Forall_impl; [done|]. intros [] Hx; simpl in *; rewrite ?Hv; naive_solver. }
  specialize (IH h1 L1 Hr1 Hok1). destruct (run_ops os h1) as [evs h2].
  destruct IH as (L2 & Hh & Hr2). exists L2. split; [|done]. by eapply history_cons.
Qed.

(** ** Witness *)

Definition ex_heap : Heap :=
  snd ((DoubleLink_make 0;;; DoubleLink_make 1;;; DoubleLinkNode_make 0;;; DoubleLinkNode_make 1)
       (mkHeap ∅ ∅)).

Lemma ex_rep : rep ex_heap {[0%nat := []; 1%nat := []]}.
Proof.
  assert (∀ l ns, ({[0%nat := []; 1%nat := []]} : gmap nat (list nat)) !! l = Some ns →
    ns = [] ∧ (l = 0%nat ∨ l = 1%nat)) as HL.
  { intros l ns [[<- <-]|[_ [<- <-]%lookup_singleton_Some]]%lookup_insert_Some; auto. }
  constructor.
  - intros l ns [-> [-> | ->]]%HL; done.
  - intros l ns n [-> _]%HL. set_solver.
  - intros l ns [-> _]%HL. apply NoDup_nil_2.
  - intros l ns [-> [-> | ->]]%HL; done.
  - intros n Hv _. do 2 (destruct n as [|n]; [done|]). exfalso.
    unfold valid, ex_heap in Hv. simpl in Hv. rewrite !lookup_insert_ne in Hv by done.
    by destruct Hv.
Qed.

Lemma doublelink_refines_witness :
  let os := [OpPush 0 0; OpPush 0 1; OpPush 1 0; OpRemove 0; OpPushFront 1 0; OpPop 0; OpSize 1] in
  fst (run_ops os ex_heap) =
    zip os (Ok <$> [AUnit; AUnit; AUnit; AUnit; AUnit; APtr (Some (NodeP 1)); ASize 1]) ∧
  ∃ L', history {[0%nat := []; 1%nat := []]} (fst (run_ops os ex_heap)) L'.
Proof.
  intros os. split; [vm_compute; reflexivity|].
  pose proof (doublelink_refines os ex_heap _ ex_rep
    ltac:(repeat constructor; vm_compute; eexists; reflexivity)) as H.
  destruct (run_ops os ex_heap) as [evs h']. destruct H as (L' & H & _). exists L'. exact H.
Defined.
