(* ===== verification/TimerWheel.v ===== *)
(** * [dbase::time::TimerMgr] (code/src/time/timer_wheel.cpp, timer_wheel.h)

    Five timing wheels: 256 slots of one tick and four times 64 slots, each of a full
    turn of the wheel below.  A timer is a number; its [timeout_] member is an entry of
    [timeouts].  A slot is the list of its timers, as the intrusive [DoubleLink] holds
    them (file DoubleLink); a timer is in at most one list, which makes it registered.
    The system clocks are fields that the environment advances.  [fired] is the log of
    the [onTimeOut] calls; what a callback does to the manager is an argument. *)

From S2P Require Import Prelude.
From stdpp Require Import base list gmap strings.
From Stdlib Require Import ZArith Lia.

Local Open Scope Z_scope.

Definition WHEEL_CNT : nat := 5.
Definition ELEMENT_CNT_PER_WHEEL : list Z := [256; 64; 64; 64; 64].
Definition RIGHT_SHIFT_PER_WHEEL : list Z := [8; 6; 6; 6; 6].
Definition BASE_TICK_PER_WHEEL : list Z :=
  [1; 256; 256 * 64; 256 * 64 * 64; 256 * 64 * 64 * 64].

Definition element_cnt (w : nat) : Z := nth w ELEMENT_CNT_PER_WHEEL 0.
Definition right_shift (w : nat) : Z := nth w RIGHT_SHIFT_PER_WHEEL 0.
Definition base_tick (w : nat) : Z := nth w BASE_TICK_PER_WHEEL 0.

Record Wheel : Type := mkWheel {
  wheel_no : nat;
  tlist : list (list nat);
  cur_slot : Z;
}.

Record TimerMgr : Type := mkMgr {
  wheels_ : list Wheel;
  is_ms_timer_ : bool;
  last_tick_ : Z;
  nowS : Z;
  nowMs : Z;
  timeouts : gmap nat Z;
  fired : list nat;
}.

Definition Wheel_make (no : nat) : Wheel :=
  mkWheel no (replicate (Z.to_nat (element_cnt no)) []) 0.
Definition slotCount (wh : Wheel) : Z := element_cnt (wheel_no wh).

Definition TimerMgr_make (s ms : Z) : TimerMgr :=
  mkMgr (Wheel_make <$> [0; 1; 2; 3; 4]%nat) false 0 s ms ∅ [].

(** ** Access *)

Definition wheel_at (w : nat) (m : TimerMgr) : res Wheel :=
  match wheels_ m !! w with Some wh => Ok wh | None => Undef end.

Definition list_at (wh : Wheel) (s : Z) : res (list nat) :=
  match tlist wh !! Z.to_nat s with Some l => Ok l | None => Undef end.

Definition set_wheels (ws : list Wheel) : M TimerMgr () :=
  modify (λ m, mkMgr ws (is_ms_timer_ m) (last_tick_ m) (nowS m) (nowMs m) (timeouts m) (fired m)).
Definition set_last_tick (t : Z) : M TimerMgr () :=
  modify (λ m, mkMgr (wheels_ m) (is_ms_timer_ m) t (nowS m) (nowMs m) (timeouts m) (fired m)).
Definition set_ms (b : bool) : M TimerMgr () :=
  modify (λ m, mkMgr (wheels_ m) b (last_tick_ m) (nowS m) (nowMs m) (timeouts m) (fired m)).
Definition log_fired (t : nat) : M TimerMgr () :=
  modify (λ m, mkMgr (wheels_ m) (is_ms_timer_ m) (last_tick_ m) (nowS m) (nowMs m)
                     (timeouts m) (fired m ++ [t])).

Definition set_slot (w : nat) (s : Z) (l : list nat) : M TimerMgr () :=
  let! m := get in
  let! wh := lift (wheel_at w m) in
  let! _ := lift (list_at wh s) in
  set_wheels (<[w := mkWheel (wheel_no wh) (<[Z.to_nat s := l]> (tlist wh)) (cur_slot wh)]>
                (wheels_ m)).

(** ** Timers and their lists *)

Definition setTimeOut (t : nat) (timeout : Z) : M TimerMgr () :=
  modify (λ m, mkMgr (wheels_ m) (is_ms_timer_ m) (last_tick_ m) (nowS m) (nowMs m)
                     (<[t := timeout]> (timeouts m)) (fired m)).
Definition getTimeOut (t : nat) (m : TimerMgr) : Z := default 0 (timeouts m !! t).

Definition isRegistered (t : nat) (m : TimerMgr) : bool :=
  existsb (λ wh, existsb (λ l, bool_decide (t ∈ l)) (tlist wh)) (wheels_ m).

(** [DoubleLink::Push] *)
Definition Push (w : nat) (s : Z) (t : nat) : M TimerMgr () :=
  let! m := get in
  let! wh := lift (wheel_at w m) in
  let! l := lift (list_at wh s) in
  if isRegistered t m then ret tt else set_slot w s (l ++ [t]).

(** [DoubleLink::Remove] *)
Definition Remove (t : nat) : M TimerMgr () :=
  let! m := get in
  set_wheels ((λ wh, mkWheel (wheel_no wh) (filter (λ x, x ≠ t) <$> tlist wh) (cur_slot wh))
              <$> wheels_ m).

(** [DoubleLink::Pop] of a list *)
Definition Pop (w : nat) (s : Z) : M TimerMgr (option nat) :=
  let! m := get in
  let! wh := lift (wheel_at w m) in
  let! l := lift (list_at wh s) in
  match l with
  | [] => ret None
  | t :: l => set_slot w s l;;; ret (Some t)
  end.

(** ** Registration *)

Definition getNow (m : TimerMgr) : Z := if is_ms_timer_ m then nowMs m else nowS m.

Definition unRegisterTimer (timer : option nat) : M TimerMgr Z :=
  match timer with
  | None => ret (-1)
  | Some t =>
      let! m := get in
      if negb (isRegistered t m) then ret (-1) else Remove t;;; ret 0
  end.

(** The [while] loop of [registerTimer]: [wheel_no + 1 < WHEEL_CNT] bounds it. *)
Fixpoint find_wheel (fuel : nat) (m : TimerMgr) (wheel_no : nat) (offset left : Z)
    : res (nat * Z * Z) :=
  match fuel with
  | O => NoFuel
  | S fuel =>
      if (wheel_no + 1 <? WHEEL_CNT)%nat && (element_cnt wheel_no <=? offset) then
        let? wheel := wheel_at wheel_no m in
        let slots := u32 (u32 (element_cnt wheel_no - cur_slot wheel)
                          - (if (wheel_no =? 0)%nat then 0 else 1)) in
        find_wheel fuel m (wheel_no + 1)
          (Z.shiftr offset (right_shift wheel_no))
          (u32 (left - u32 (base_tick wheel_no * slots)))
      else Ok (wheel_no, offset, left)
  end.

Definition registerTimer (timer : option nat) (timeout : Z) : M TimerMgr Z :=
  match timer with
  | None => ret (-1)
  | Some t =>
      let! m := get in
      (if isRegistered t m then unRegisterTimer (Some t);;; ret tt else ret tt);;;
      let! m := get in
      let timeout :=
        if (0 <? last_tick_ m) && (last_tick_ m <? getNow m)
        then u32 (u64 (u64 (getNow m - last_tick_ m) + timeout)) else timeout in
      let timeout := if timeout =? 0 then 1 else timeout in
      let! (wheel_no, offset, left_) := lift (find_wheel WHEEL_CNT m 0 timeout timeout) in
      let left_ := u32 (left_ - u32 (base_tick wheel_no * u32 (offset - 1))) in
      let! wheel := lift (wheel_at wheel_no m) in
      let slot := u32 (offset + cur_slot wheel) mod element_cnt wheel_no in
      setTimeOut t left_;;;
      Push wheel_no slot t;;;
      ret 0
  end.

(** ** Advancing *)

Section callbacks.
(** What the callback of a timer does to the manager. *)
Context (onTimeOut : nat → M TimerMgr ()).

(** [while (!cur_list.Empty())] *)
Fixpoint drain (fuel : nat) (w : nat) (s : Z) : M TimerMgr () :=
  match fuel with
  | O => lift NoFuel
  | S fuel =>
      let! popped := Pop w s in
      match popped with
      | None => ret tt
      | Some t =>
          let! m := get in
          (if (w =? 0)%nat || (getTimeOut t m =? 0)
           then log_fired t;;; onTimeOut t
           else registerTimer (Some t) (getTimeOut t m);;; ret tt);;;
          drain fuel w s
      end
  end.

(** [for (wheel_no = 0; wheel_no < WHEEL_CNT; ++wheel_no)], [n] wheels left.  Draining
    pushes into other slots only, so the length of the list bounds it. *)
Fixpoint step_from (n : nat) (w : nat) : M TimerMgr () :=
  match n with
  | O => ret tt
  | S n =>
      let! m := get in
      let! wheel := lift (wheel_at w m) in
      let cur := u32 (cur_slot wheel + 1) mod element_cnt w in
      set_wheels (<[w := mkWheel (wheel_no wheel) (tlist wheel) cur]> (wheels_ m));;;
      let! l := lift (list_at wheel cur) in
      drain (S (length l)) w cur;;;
      if negb (cur =? 0) then ret tt else step_from n (S w)
  end.

Definition step : M TimerMgr () := step_from WHEEL_CNT 0.

(** [while (count > 0)] of [tickInternal] *)
Fixpoint steps (count : nat) : M TimerMgr () :=
  match count with
  | O => ret tt
  | S count =>
      let! m := get in
      set_last_tick (u64 (last_tick_ m + 1));;;
      step;;;
      steps count
  end.

Definition tickInternal (cur_tick : Z) : M TimerMgr () :=
  let! m := get in
  if cur_tick <=? last_tick_ m then ret tt
  else steps (Z.to_nat (cur_tick - last_tick_ m)).

Definition tick : M TimerMgr () := let! m := get in tickInternal (nowS m).
Definition tickMs : M TimerMgr () := let! m := get in tickInternal (nowMs m).

End callbacks.

(** ** Setup *)

Definition resetWheels : M TimerMgr () :=
  let! m := get in
  set_wheels ((λ wh, mkWheel (wheel_no wh) (tlist wh) 0) <$> wheels_ m).

Definition initTick : M TimerMgr () :=
  set_ms false;;;
  let! m := get in set_last_tick (nowS m);;;
  resetWheels.

Definition initTickMs : M TimerMgr () :=
  set_ms true;;;
  let! m := get in set_last_tick (nowMs m);;;
  resetWheels.

(** [Wheel::clear] pops every timer of every list. *)
Definition Wheel_clear (wh : Wheel) : Wheel :=
  mkWheel (wheel_no wh) ((λ _, []) <$> tlist wh) (cur_slot wh).

Definition clear : M TimerMgr () :=
  let! m := get in
  set_wheels ((λ wh, let wh := Wheel_clear wh in mkWheel (wheel_no wh) (tlist wh) 0)
              <$> wheels_ m).

(** The environment advances the clocks. *)
Definition wait (s ms : Z) (m : TimerMgr) : TimerMgr :=
  mkMgr (wheels_ m) (is_ms_timer_ m) (last_tick_ m) (nowS m + s) (nowMs m + ms)
        (timeouts m) (fired m).

(** ** Arithmetic of the wheels *)

Lemma wheel_consts w : (w < 5)%nat →
  0 < base_tick w ∧ 1 < element_cnt w ≤ 256 ∧ element_cnt w = 2 ^ right_shift w ∧
  0 < right_shift w ∧ base_tick w * element_cnt w ≤ 2 ^ 32.
Proof. intros Hw. do 5 (destruct w as [|w]; [vm_compute; repeat split; discriminate|]). lia. Qed.

Lemma base_tick_S w : (w < 4)%nat → base_tick (S w) = base_tick w * element_cnt w.
Proof. intros Hw. do 4 (destruct w as [|w]; [done|]). lia. Qed.

(** The tick at which wheel [w] next reaches slot [s], at tick [T]. *)
Definition cascade (T : Z) (w : nat) (s : Z) : Z :=
  (T / base_tick w + (s - T / base_tick w) mod element_cnt w) * base_tick w.

Definition cursor_of (T : Z) (w : nat) : Z := (T / base_tick w) mod element_cnt w.

Section wheel_arith.
Context (w : nat) (Hw : (w < 5)%nat) (T : Z).
Let B := base_tick w.
Let N := element_cnt w.

Lemma consts : 0 < B ∧ 1 < N ≤ 256.
Proof. destruct (wheel_consts w Hw) as (? & ? & _). done. Qed.

(** A slot other than the current one. *)
Lemma cascade_other s : 0 ≤ s < N → s ≠ cursor_of T w →
  1 ≤ (s - T / B) mod N < N.
Proof.
  intros Hs Hne. pose proof consts. unfold cursor_of in Hne. fold B N in Hne.
  pose proof (Z.mod_pos_bound (s - T / B) N ltac:(lia)).
  enough ((s - T / B) mod N ≠ 0) by lia. intros E. apply Hne.
  apply Z.mod_divide in E as [k Hk]; [|lia].
  replace (T / B) with (s + - k * N) by lia. rewrite Z.mod_add, Z.mod_small; lia.
Qed.

Lemma cascade_future s : 0 ≤ s < N → s ≠ cursor_of T w → T < cascade T w s.
Proof.
  intros Hs Hne. pose proof consts. pose proof (cascade_other s Hs Hne) as Hd.
  unfold cascade. fold B N. pose proof (Z.mul_succ_div_gt T B ltac:(lia)). nia.
Qed.

(** Time passing does not change when a slot is reached. *)
Lemma cascade_next s : 0 ≤ s < N → s ≠ cursor_of T w →
  cascade (T + 1) w s = cascade T w s.
Proof.
  intros Hs Hne. pose proof consts. pose proof (cascade_other s Hs Hne) as Hd.
  unfold cascade. fold B N.
  destruct (Z.eq_dec ((T + 1) / B) (T / B)) as [->|Hq]; [done|].
  assert ((T + 1) / B = T / B + 1) as ->.
  { pose proof (Z.div_mod T B ltac:(lia)). pose proof (Z.mod_pos_bound T B ltac:(lia)).
    pose proof (Z.div_le_mono T (T + 1) B ltac:(lia) ltac:(lia)).
    assert ((T + 1) / B < T / B + 2); [|lia]. apply Z.div_lt_upper_bound; nia. }
  f_equal.
  assert ((s - (T / B + 1)) mod N = (s - T / B) mod N - 1) as ->; [|lia].
  symmetry. apply (Z.mod_unique_pos _ _ ((s - T / B) / N)); [lia|].
  pose proof (Z.div_mod (s - T / B) N ltac:(lia)). lia.
Qed.

(** The current slot is reached now, on the ticks at which the wheel moves. *)
Lemma cascade_now : T mod B = 0 → cascade T w (cursor_of T w) = T.
Proof.
  intros HT. pose proof consts. unfold cascade, cursor_of. fold B N.
  replace ((_ - T / B) mod N) with 0.
  - pose proof (Z.div_mod T B ltac:(lia)). lia.
  - rewrite Zminus_mod_idemp_l, Z.sub_diag. done.
Qed.

(** The slot [registerTimer] computes. *)
Lemma cascade_offset k : 0 ≤ k < N →
  cascade T w ((k + cursor_of T w) mod N) = (T / B + k) * B.
Proof.
  intros Hk. pose proof consts. unfold cascade, cursor_of. fold B N. do 2 f_equal.
  rewrite Zplus_mod_idemp_r, Zminus_mod_idemp_l.
  replace (k + T / B - T / B) with k by lia. by apply Z.mod_small.
Qed.

Lemma offset_other k : 1 ≤ k < N → (k + cursor_of T w) mod N ≠ cursor_of T w.
Proof.
  intros Hk E. pose proof consts. unfold cursor_of in E. fold B N in E.
  rewrite Zplus_mod_idemp_r in E.
  assert ((k + T / B - T / B) mod N = 0) as Hz
    by (by rewrite Zminus_mod, E, Z.sub_diag).
  replace (k + T / B - T / B) with k in Hz by lia. rewrite Z.mod_small in Hz; lia.
Qed.

(** The cursor after a step: it moves on the multiples of the tick of the wheel. *)
Lemma cursor_next : 0 ≤ T → (T + 1) mod B = 0 →
  u32 (cursor_of T w + 1) mod N = cursor_of (T + 1) w.
Proof.
  intros HT0 HT. pose proof consts. unfold cursor_of. fold B N.
  pose proof (Z.mod_pos_bound (T / B) N ltac:(lia)).
  unfold u32. rewrite wrap_small by lia. rewrite Zplus_mod_idemp_l. f_equal.
  apply Z.mod_divide in HT as [q Hq]; [|lia].
  rewrite Hq, Z.div_mul by lia. replace T with (q * B + -1) by lia.
  rewrite Z.div_add_l by lia.
  assert (-1 / B = -1) as ->; [|lia].
  symmetry. apply (Z.div_unique_pos _ _ _ (B - 1)); lia.
Qed.

Lemma cursor_same : (T + 1) mod B ≠ 0 → cursor_of (T + 1) w = cursor_of T w.
Proof.
  intros HT. pose proof consts. unfold cursor_of. fold B N. f_equal.
  pose proof (Z.div_mod (T + 1) B ltac:(lia)).
  pose proof (Z.mod_pos_bound (T + 1) B ltac:(lia)).
  apply (Z.div_unique_pos _ _ _ ((T + 1) mod B - 1)); lia.
Qed.

End wheel_arith.

(** The wheel above moves when this one is back at slot 0. *)
Lemma carry w T : (w < 4)%nat → T mod base_tick w = 0 →
  (cursor_of T w =? 0) = (T mod base_tick (S w) =? 0).
Proof.
  intros Hw HT. destruct (wheel_consts w ltac:(lia)) as (? & ? & _).
  rewrite base_tick_S by done. rewrite Z.rem_mul_r by lia. rewrite HT.
  unfold cursor_of. pose proof (Z.mod_pos_bound (T / base_tick w) (element_cnt w) ltac:(lia)).
  apply eq_true_iff_eq. rewrite !Z.eqb_eq. nia.
Qed.

(** ** Slots and cursors *)

Definition slot (m : TimerMgr) (w i : nat) : option (list nat) :=
  wheels_ m !! w ≫= λ wh, tlist wh !! i.
Definition cursor (m : TimerMgr) (w : nat) : option Z := cur_slot <$> wheels_ m !! w.

Lemma u32_sub_sub a b : u32 (u32 a - u32 b) = u32 (a - b).
Proof. unfold u32, wrap. by rewrite <- Zminus_mod. Qed.

(** What the loop of [registerTimer] has subtracted from the timeout at wheel [w]: the
    ticks until that wheel next moves. *)
Definition until_move (T : Z) (w : nat) : Z :=
  if (w =? 0)%nat then 0 else base_tick w - T mod base_tick w.

Lemma until_move_S T w : (w < 4)%nat →
  until_move T (S w) =
  until_move T w + base_tick w * (element_cnt w - cursor_of T w - if (w =? 0)%nat then 0 else 1).
Proof.
  intros Hw. unfold until_move. simpl. rewrite base_tick_S by done.
  destruct (wheel_consts w ltac:(lia)) as (? & ? & _).
  rewrite Z.rem_mul_r by lia. fold (cursor_of T w).
  destruct w as [|w]; simpl Nat.eqb; cbv iota; [|lia].
  change (base_tick 0) with 1. rewrite Z.mod_1_r. lia.
Qed.

Lemma find_wheel_spec (K : nat) T m t : (K ≤ 4)%nat → 1 ≤ t < base_tick K * element_cnt K →
  (∀ w, (w ≤ K)%nat → cursor m w = Some (cursor_of T w)) →
  ∀ fuel w offset, (w ≤ K)%nat → (5 - w ≤ fuel)%nat →
  offset = t / base_tick w → 1 ≤ offset →
  ∃ w', find_wheel fuel m w offset (u32 (t - until_move T w))
        = Ok (w', t / base_tick w', u32 (t - until_move T w')) ∧
        (w' ≤ K)%nat ∧ 1 ≤ t / base_tick w' < element_cnt w'.
Proof.
  intros HK Ht Hcur. induction fuel as [|fuel IH]; intros w offset Hw Hf Ho H1; [lia|].
  destruct (wheel_consts w ltac:(lia)) as (HB & HN & Hsh & Hs & _).
  assert (t / base_tick w < element_cnt w ∨ (w < K)%nat) as Hend.
  { destruct (decide (w = K)) as [->|]; [left|lia]. apply Z.div_lt_upper_bound; lia. }
  cbn [find_wheel]. unfold WHEEL_CNT. rewrite <- Ho in Hend.
  destruct ((w + 1 <? 5)%nat && (element_cnt w <=? offset)) eqn:E.
  2: { exists w. rewrite Ho. split_and!; [done|done|lia|]. rewrite <- Ho.
       apply andb_false_iff in E as [E|E]; [|lia]. apply Nat.ltb_ge in E. lia. }
  apply andb_true_iff in E as [E1 E2]. apply Nat.ltb_lt in E1. apply Z.leb_le in E2.
  specialize (Hcur w Hw) as Hc. unfold cursor in Hc. unfold wheel_at.
  destruct (wheels_ m !! w) as [wh|]; [|done]. simpl in Hc. injection Hc as Hc. cbn [res_bind].
  assert (0 ≤ cursor_of T w < element_cnt w) by (apply Z.mod_pos_bound; lia).
  rewrite Hc. set (d := if (w =? 0)%nat then 0 else 1).
  assert (0 ≤ d ≤ 1) by (unfold d; destruct (w =? 0)%nat; lia).
  assert (u32 (u32 (element_cnt w - cursor_of T w) - d) = element_cnt w - cursor_of T w - d)
    as ->.
  { unfold u32. rewrite (wrap_small 32 (element_cnt w - cursor_of T w)) by lia.
    apply wrap_small. lia. }
  rewrite u32_sub_sub.
  replace (t - until_move T w - _) with (t - until_move T (S w))
    by (rewrite until_move_S by lia; lia).
  rewrite Nat.add_1_r. apply IH; [lia|lia| |].
  - rewrite Z.shiftr_div_pow2 by lia. rewrite base_tick_S by lia.
    rewrite <- Z.div_div by lia. by rewrite <- Ho, <- Hsh.
  - rewrite Z.shiftr_div_pow2 by lia. rewrite <- Hsh. apply Z.div_le_lower_bound; lia.
Qed.

Definition with_wheels (ws : list Wheel) (m : TimerMgr) : TimerMgr := snd (set_wheels ws m).

Lemma slot_Some m w i l : slot m w i = Some l →
  ∃ wh, wheels_ m !! w = Some wh ∧ tlist wh !! i = Some l.
Proof. unfold slot. intros (wh & ? & ?)%bind_Some. eauto. Qed.

Lemma slot_access m w i l : slot m w i = Some l →
  ∃ wh, wheel_at w m = Ok wh ∧ list_at wh (Z.of_nat i) = Ok l.
Proof.
  intros (wh & Hw & Hl)%slot_Some. exists wh. unfold wheel_at, list_at.
  by rewrite Hw, Nat2Z.id, Hl.
Qed.

Lemma set_slot_run m w i l old : slot m w i = Some old → ∃ ws,
  set_slot w (Z.of_nat i) l m = (Ok tt, with_wheels ws m) ∧
  (∀ w' i', slot (with_wheels ws m) w' i'
            = if decide (w' = w ∧ i' = i) then Some l else slot m w' i') ∧
  ∀ w', cursor (with_wheels ws m) w' = cursor m w'.
Proof.
  intros (wh & Hw & Hl)%slot_Some.
  exists (<[w := mkWheel (wheel_no wh) (<[i := l]> (tlist wh)) (cur_slot wh)]> (wheels_ m)).
  pose proof (lookup_lt_Some _ _ _ Hw) as Hlw. pose proof (lookup_lt_Some _ _ _ Hl) as Hli.
  split_and!.
  - unfold set_slot, wheel_at, list_at. run. rewrite Hw. run.
    rewrite Nat2Z.id, Hl. run. done.
  - intros w' i'. unfold slot. simpl. destruct (decide (w' = w)) as [->|Hne].
    + rewrite list_lookup_insert_eq, Hw by done. simpl.
      destruct (decide (i' = i)) as [->|]; [|by rewrite decide_False, list_lookup_insert_ne by naive_solver].
      by rewrite list_lookup_insert_eq, decide_True.
    + by rewrite list_lookup_insert_ne, decide_False by naive_solver.
  - intros w'. unfold cursor. simpl. destruct (decide (w' = w)) as [->|Hne].
    + by rewrite list_lookup_insert_eq, Hw.
    + by rewrite list_lookup_insert_ne.
Qed.

Lemma Remove_run m t : ∃ ws, Remove t m = (Ok tt, with_wheels ws m) ∧
  (∀ w i, slot (with_wheels ws m) w i = filter (λ x, x ≠ t) <$> slot m w i) ∧
  ∀ w, cursor (with_wheels ws m) w = cursor m w.
Proof.
  eexists; split; [done|]. unfold slot, cursor. simpl. split; intros w.
  - intros i. rewrite list_lookup_fmap. destruct (wheels_ m !! w); [|done]. simpl.
    by rewrite list_lookup_fmap.
  - rewrite list_lookup_fmap. by destruct (wheels_ m !! w).
Qed.

Lemma isRegistered_spec t m :
  isRegistered t m = true ↔ ∃ w i l, slot m w i = Some l ∧ t ∈ l.
Proof.
  unfold isRegistered. rewrite existsb_exists. split.
  - intros (wh & [w Hw]%list_elem_of_In%list_elem_of_lookup & (l & Hl & Ht)%existsb_exists).
    apply list_elem_of_In, list_elem_of_lookup in Hl as [i Hi].
    apply bool_decide_eq_true in Ht. exists w, i, l. unfold slot. by rewrite Hw.
  - intros (w & i & l & (wh & Hw & Hl)%slot_Some & Ht). exists wh.
    split; [by apply list_elem_of_In, list_elem_of_lookup; exists w|].
    apply existsb_exists. exists l. split; [by apply list_elem_of_In, list_elem_of_lookup; exists i|].
    by apply bool_decide_eq_true.
Qed.

(** ** Invariant: where each timer is and when it is due

    [τ w] is the tick wheel [w] is at: during a step the wheels move one by one.  [hot]
    is the wheel whose current slot is being emptied. *)

Definition due (τ : nat → Z) (w i : nat) (left_ : Z) : Z :=
  cascade (τ w) w (Z.of_nat i) + if (w =? 0)%nat then 0 else left_.

Definition place_ok (τ : nat → Z) (hot : option nat) (m : TimerMgr) (dl : gmap nat Z)
    (t : nat) (w i : nat) : Prop :=
  (w < 5)%nat ∧ Z.of_nat i < element_cnt w ∧
  (Z.of_nat i ≠ cursor_of (τ w) w ∨ hot = Some w) ∧
  0 ≤ getTimeOut t m < 2 * base_tick w ∧ dl !! t = Some (due τ w i (getTimeOut t m)).

Record placed (τ : nat → Z) (hot : option nat) (m : TimerMgr)
    (loc : gmap nat (nat * nat)) (dl : gmap nat Z) : Prop := {
  pl_cursor : ∀ w, (w < 5)%nat → cursor m w = Some (cursor_of (τ w) w);
  pl_shape : ∀ w i, (w < 5)%nat → Z.of_nat i < element_cnt w → is_Some (slot m w i);
  pl_slot : ∀ w i l, slot m w i = Some l → NoDup l ∧ ∀ t, t ∈ l ↔ loc !! t = Some (w, i);
  pl_loc : ∀ t w i, loc !! t = Some (w, i) → place_ok τ hot m dl t w i;
  pl_dl : ∀ t, loc !! t = None → dl !! t = None;
}.

Section placed.
Context (τ : nat → Z) (hot : option nat).

Lemma placed_registered m loc dl t : placed τ hot m loc dl →
  isRegistered t m = bool_decide (is_Some (loc !! t)).
Proof.
  intros Hp. apply eq_true_iff_eq. rewrite isRegistered_spec, bool_decide_eq_true. split.
  - intros (w & i & l & Hs & Ht). apply (pl_slot _ _ _ _ _ Hp) in Hs as [_ Hs].
    apply Hs in Ht. by eexists.
  - intros [[w i] Hl]. destruct (pl_loc _ _ _ _ _ Hp t w i Hl) as (Hw & Hi & _).
    destruct (pl_shape _ _ _ _ _ Hp w i Hw Hi) as [l Hs].
    exists w, i, l. split; [done|]. by apply (pl_slot _ _ _ _ _ Hp w i l Hs).
Qed.

(** Any update of the slots that drops [t]. *)
Lemma placed_drop m m' loc dl t :
  placed τ hot m loc dl → timeouts m' = timeouts m →
  (∀ w, cursor m' w = cursor m w) →
  (∀ w i, slot m' w i = filter (λ x, x ≠ t) <$> slot m w i) →
  placed τ hot m' (base.delete t loc) (base.delete t dl).
Proof.
  intros [Hcur Hshape Hslot Hloc Hdl] Ht Hc Hs. constructor.
  - intros w Hw. rewrite Hc. auto.
  - intros w i Hw Hi. rewrite Hs. destruct (Hshape w i Hw Hi) as [l ->]. by eexists.
  - intros w i l. rewrite Hs. intros (l0 & Hl & ->)%fmap_Some.
    destruct (Hslot w i l0 Hl) as [Hn Hin]. split; [by apply NoDup_filter|].
    intros x. rewrite list_elem_of_filter, Hin, lookup_delete_Some. naive_solver.
  - intros x w i [Hne Hx]%lookup_delete_Some.
    destruct (Hloc x w i Hx) as (? & ? & ? & Hleft & Hd).
    unfold place_ok, getTimeOut in *. rewrite Ht, lookup_delete_ne by done. done.
  - intros x Hx. destruct (decide (x = t)) as [->|Hne]; [by rewrite lookup_delete_eq|].
    rewrite lookup_delete_ne by done. rewrite lookup_delete_ne in Hx by done. by apply Hdl.
Qed.

Lemma placed_push m m' loc dl t w i l left_ :
  placed τ hot m loc dl → loc !! t = None → slot m w i = Some l →
  (w < 5)%nat → Z.of_nat i < element_cnt w → Z.of_nat i ≠ cursor_of (τ w) w →
  0 ≤ left_ < 2 * base_tick w →
  timeouts m' = <[t := left_]> (timeouts m) →
  (∀ w', cursor m' w' = cursor m w') →
  (∀ w' i', slot m' w' i' = if decide (w' = w ∧ i' = i) then Some (l ++ [t]) else slot m w' i') →
  placed τ hot m' (<[t := (w, i)]> loc) (<[t := due τ w i left_]> dl).
Proof.
  intros [Hcur Hshape Hslot Hloc Hdl] Hnew Hl Hw Hi Hne Hleft Ht Hc Hs. constructor.
  - intros w' Hw'. rewrite Hc. auto.
  - intros w' i' Hw' Hi'. rewrite Hs. case_decide; [by eexists|auto].
  - intros w' i' l'. rewrite Hs. case_decide as E; intros Hl'.
    + destruct E as [-> ->]. injection Hl' as <-. destruct (Hslot w i l Hl) as [Hn Hin].
      split.
      * apply NoDup_app. split_and!; [done| |apply NoDup_singleton].
        intros x Hx ->%list_elem_of_singleton. apply Hin in Hx. congruence.
      * intros x. rewrite elem_of_app, list_elem_of_singleton, Hin.
        destruct (decide (x = t)) as [->|Hx]; [rewrite lookup_insert_eq; naive_solver|].
        rewrite lookup_insert_ne by done. naive_solver.
    + destruct (Hslot w' i' l' Hl') as [Hn Hin]. split; [done|]. intros x. rewrite Hin.
      destruct (decide (x = t)) as [->|Hx]; [|by rewrite lookup_insert_ne].
      rewrite lookup_insert_eq, Hnew. naive_solver.
  - intros x w' i'. unfold place_ok, getTimeOut. rewrite Ht.
    destruct (decide (x = t)) as [->|Hx].
    + rewrite !lookup_insert_eq. intros [= <- <-]. simpl. split_and!; auto; lia.
    + rewrite !lookup_insert_ne by done. apply Hloc.
  - intros x Hx. destruct (decide (x = t)) as [->|Hne']; [by rewrite lookup_insert_eq in Hx|].
    rewrite lookup_insert_ne by done. rewrite lookup_insert_ne in Hx by done. by apply Hdl.
Qed.

Lemma Pop_run m loc dl w i t l : placed τ hot m loc dl → slot m w i = Some (t :: l) →
  ∃ ws, let m' := with_wheels ws m in
  Pop w (Z.of_nat i) m = (Ok (Some t), m') ∧
  placed τ hot m' (base.delete t loc) (base.delete t dl) ∧ slot m' w i = Some l.
Proof.
  intros Hp Hl. destruct (set_slot_run m w i l _ Hl) as (ws & Hr & Hs & Hc).
  exists ws. split_and!.
  - unfold Pop. run. destruct (slot_access _ _ _ _ Hl) as (wh & -> & Hli). run. rewrite Hli.
    run. by rewrite (bind_Ok _ _ _ _ _ Hr).
  - apply (placed_drop m); [done..|]. intros w' i'. rewrite Hs.
    destruct (pl_slot _ _ _ _ _ Hp w i _ Hl) as [[Htl Hnl]%NoDup_cons Hin].
    assert (∀ l' : list nat, t ∉ l' → filter (λ x, x ≠ t) l' = l') as Hid.
    { intros l' Hn. apply (filter_ne_absent id). by rewrite list_fmap_id. }
    case_decide as E.
    + destruct E as [-> ->]. rewrite Hl. simpl. rewrite filter_cons_False by tauto.
      by rewrite Hid.
    + destruct (slot m w' i') as [l'|] eqn:Hl'; [|done]. simpl. f_equal. symmetry.
      apply Hid. intros Ht. apply (pl_slot _ _ _ _ _ Hp w' i' l' Hl') in Ht.
      assert (loc !! t = Some (w, i)) as Ht2 by (apply Hin; set_solver).
      rewrite Ht in Ht2. injection Ht2 as -> ->. tauto.
  - rewrite Hs. by rewrite decide_True.
Qed.

End placed.

(** The parts of the manager that registration does not change. *)
Definition same_env (m m' : TimerMgr) : Prop :=
  is_ms_timer_ m' = is_ms_timer_ m ∧ last_tick_ m' = last_tick_ m ∧
  nowS m' = nowS m ∧ nowMs m' = nowMs m.

Lemma same_env_trans m m1 m2 : same_env m m1 → same_env m1 m2 → same_env m m2.
Proof. intros (? & ? & ? & ?) (? & ? & ? & ?). split_and!; congruence. Qed.

(** The clock is not ahead of the wheels. *)
Definition no_lag (m : TimerMgr) : Prop := last_tick_ m = 0 ∨ getNow m ≤ last_tick_ m.

Lemma Push_run m w i l t : slot m w i = Some l → isRegistered t m = false → ∃ ws,
  Push w (Z.of_nat i) t m = (Ok tt, with_wheels ws m) ∧
  (∀ w' i', slot (with_wheels ws m) w' i'
            = if decide (w' = w ∧ i' = i) then Some (l ++ [t]) else slot m w' i') ∧
  ∀ w', cursor (with_wheels ws m) w' = cursor m w'.
Proof.
  intros Hl Hn. destruct (set_slot_run m w i (l ++ [t]) l Hl) as (ws & Hr & Hsl & Hc).
  destruct (slot_access m w i l Hl) as (wh & Hwa & Hla).
  exists ws. split_and!; [|done..]. unfold Push. run. rewrite Hwa. run. rewrite Hla. run.
  by rewrite Hn.
Qed.

(** The ticks left after the wheel that takes the timer has reached its slot. *)
Lemma register_left T w t : (w < 5)%nat → 0 ≤ T → 1 ≤ t < 2 ^ 32 →
  1 ≤ t / base_tick w < element_cnt w →
  u32 (u32 (t - until_move T w) - u32 (base_tick w * u32 (t / base_tick w - 1)))
  = if (w =? 0)%nat then 1 else t mod base_tick w + T mod base_tick w.
Proof.
  intros Hw HT Ht Ho. destruct (wheel_consts w Hw) as (HB & HN & _ & _ & HBN).
  unfold u32 at 4. rewrite (wrap_small 32 (_ - 1)) by lia. rewrite u32_sub_sub.
  pose proof (Z.div_mod t (base_tick w) ltac:(lia)).
  pose proof (Z.mod_pos_bound t (base_tick w) ltac:(lia)).
  pose proof (Z.mod_pos_bound T (base_tick w) ltac:(lia)).
  unfold until_move. destruct w as [|w]; simpl Nat.eqb; cbv iota; unfold u32.
  - change (base_tick 0) with 1 in *. rewrite wrap_small; lia.
  - assert (2 * base_tick (S w) ≤ 2 ^ 32) by nia. rewrite wrap_small; nia.
Qed.

(** The slot and the remaining time [registerTimer] computes keep the deadline. *)
Definition reg_slot (T d : Z) (w : nat) : Z := (d / base_tick w + cursor_of T w) mod element_cnt w.
Definition reg_left (T d : Z) (w : nat) : Z :=
  if (w =? 0)%nat then 1 else d mod base_tick w + T mod base_tick w.

Lemma reg_place τ T d w : (w < 5)%nat → τ w = T → 0 ≤ T → 1 ≤ d / base_tick w < element_cnt w →
  let s := reg_slot T d w in
  0 ≤ s < element_cnt w ∧ s ≠ cursor_of T w ∧ 0 ≤ reg_left T d w < 2 * base_tick w ∧
  due τ w (Z.to_nat s) (reg_left T d w) = T + d.
Proof.
  intros Hw Hτ HT Ho s. destruct (wheel_consts w Hw) as (HB & HN & _ & _ & HBN).
  assert (0 ≤ s < element_cnt w) as Hs by (apply Z.mod_pos_bound; lia).
  assert (cascade T w s = (T / base_tick w + d / base_tick w) * base_tick w) as Hcas
    by (apply cascade_offset; lia).
  pose proof (Z.div_mod d (base_tick w) ltac:(lia)).
  pose proof (Z.div_mod T (base_tick w) ltac:(lia)).
  pose proof (Z.mod_pos_bound d (base_tick w) ltac:(lia)).
  pose proof (Z.mod_pos_bound T (base_tick w) ltac:(lia)).
  split_and!; [lia..|apply offset_other; lia| | |].
  1,2: unfold reg_left; destruct w as [|w]; simpl Nat.eqb; cbv iota; [by change (base_tick 0) with 1|lia].
  unfold due. rewrite Z2Nat.id, Hτ, Hcas by lia. unfold reg_left.
  destruct w as [|w]; simpl Nat.eqb; cbv iota; [|lia].
  change (base_tick 0) with 1. rewrite !Z.div_1_r. lia.
Qed.

(** Placing an unregistered timer: it is due [timeout] ticks from now. *)
Lemma register_fresh τ hot m loc dl t K T timeout :
  placed τ hot m loc dl → loc !! t = None → no_lag m → 0 ≤ T →
  (K ≤ 4)%nat → (∀ w, (w ≤ K)%nat → τ w = T) →
  0 ≤ timeout < base_tick K * element_cnt K →
  ∃ m' loc', registerTimer (Some t) timeout m = (Ok 0, m') ∧
    placed τ hot m' loc' (<[t := T + Z.max 1 timeout]> dl) ∧ same_env m m' ∧
    fired m' = fired m ∧
    (∀ w i, Z.of_nat i = cursor_of (τ w) w → slot m' w i = slot m w i).
Proof.
  intros Hp Hnew Hlag HT HK Hτ Ht.
  destruct (wheel_consts K ltac:(lia)) as (HBK & HNK & _ & _ & HBNK).
  unfold registerTimer. run. rewrite (placed_registered _ _ _ _ _ _ Hp).
  rewrite bool_decide_false by (rewrite Hnew; by intros [? ?]). run.
  replace ((0 <? last_tick_ m) && (last_tick_ m <? getNow m)) with false
    by (unfold no_lag in Hlag; lia).
  assert ((if timeout =? 0 then 1 else timeout) = Z.max 1 timeout) as -> by (destruct (timeout =? 0) eqn:E; lia).
  set (d := Z.max 1 timeout). assert (1 ≤ d < base_tick K * element_cnt K) as Hd.
  { unfold d. nia. }
  clearbody d. clear Ht timeout.
  assert (∀ w, (w ≤ K)%nat → cursor m w = Some (cursor_of T w)) as Hcur.
  { intros w Hw. rewrite (pl_cursor _ _ _ _ _ Hp), Hτ by lia. done. }
  destruct (find_wheel_spec K T m d HK Hd Hcur WHEEL_CNT 0 d) as (w & Hf & Hw & Ho);
    [lia|unfold WHEEL_CNT; lia|by rewrite Z.div_1_r|lia|].
  change (until_move T 0) with 0 in Hf. rewrite Z.sub_0_r in Hf.
  unfold u32 in Hf at 1. rewrite wrap_small in Hf by lia. rewrite Hf. run. cbv beta iota.
  rewrite register_left by lia.
  destruct (wheel_consts w ltac:(lia)) as (HB & HN & _ & _ & HBN).
  specialize (Hcur w Hw). unfold cursor, wheel_at in *.
  destruct (wheels_ m !! w) as [wh|] eqn:Ewh; [|done]. simpl in Hcur. injection Hcur as Hcur.
  run. rewrite Hcur.
  assert (0 ≤ cursor_of T w < element_cnt w) by (apply Z.mod_pos_bound; lia).
  unfold u32. rewrite wrap_small by lia.
  fold (reg_slot T d w). set (s := reg_slot T d w).
  destruct (reg_place τ T d w) as (Hs & Hoth & Hleft & Hdue); [lia|by apply Hτ|lia..|].
  fold s in Hs, Hoth, Hdue. fold (reg_left T d w). unfold setTimeOut. run.
  set (m1 := mkMgr (wheels_ m) _ _ _ _ _ _).
  assert (Hslot1 : ∀ w i, slot m1 w i = slot m w i) by done.
  destruct (pl_shape _ _ _ _ _ Hp w (Z.to_nat s)) as [l Hl]; [lia|lia|].
  destruct (Push_run m1 w (Z.to_nat s) l t Hl) as (ws & HPush & Hsl & Hc).
  { change (isRegistered t m1) with (isRegistered t m).
    rewrite (placed_registered _ _ _ _ _ _ Hp).
    by rewrite bool_decide_false by (rewrite Hnew; by intros [? ?]). }
  rewrite Z2Nat.id in HPush by lia.
  rewrite (bind_Ok _ _ _ _ _ HPush).
  exists (with_wheels ws m1), (<[t := (w, Z.to_nat s)]> loc).
  split_and!; try done.
  - rewrite <- Hdue. eapply placed_push; try done; rewrite ?Z2Nat.id, ?Hτ by lia; lia || done.
  - intros w' i Hi. rewrite Hsl, decide_False; [done|]. intros [-> ->].
    rewrite Z2Nat.id, Hτ in Hi by lia. done.
Qed.

(** ** What callbacks call *)

Inductive call : Type :=
  | Register (t : nat) (timeout : Z)
  | Unregister (t : nat).

Definition call_timer (c : call) : nat :=
  match c with Register t _ => t | Unregister t => t end.

(** The calls the callback of a timer makes, from the tick of the manager and the log of
    the timers fired so far, this one included. *)
Definition callback : Type := nat → Z → list nat → list call.

Fixpoint run_calls (cs : list call) : M TimerMgr () :=
  match cs with
  | [] => ret tt
  | Register t timeout :: cs => registerTimer (Some t) timeout;;; run_calls cs
  | Unregister t :: cs => unRegisterTimer (Some t);;; run_calls cs
  end.

Definition calling (cb : callback) : nat → M TimerMgr () :=
  λ t, let! m := get in run_calls (cb t (last_tick_ m) (fired m)).

(** What a call at tick [T] does to the deadlines. *)
Definition call_effect (T : Z) (dl : gmap nat Z) (c : call) : gmap nat Z :=
  match c with
  | Register t timeout => <[t := T + Z.max 1 timeout]> dl
  | Unregister t => base.delete t dl
  end.
Definition calls_effect (T : Z) (cs : list call) (dl : gmap nat Z) : gmap nat Z :=
  foldl (call_effect T) dl cs.

(** ** A step fires exactly the timers that are due *)

(** Timers due at [T] fire one after the other: each leaves the deadlines, then its
    callback makes its calls.  [log] is what fired before; the clock of the manager shows
    [start] at tick 0. *)
Inductive fires (start : Z) (cb : callback) (T : Z)
    : list nat → gmap nat Z → list nat → gmap nat Z → Prop :=
  | fires_nil log dl : fires start cb T log dl [] dl
  | fires_cons log dl t fs dl' :
      dl !! t = Some T →
      fires start cb T (log ++ [t])
        (calls_effect T (cb t (start + T) (log ++ [t])) (base.delete t dl)) fs dl' →
      fires start cb T log dl (t :: fs) dl'.

Lemma fires_trans start cb T log dl fs dl1 fs' dl2 :
  fires start cb T log dl fs dl1 → fires start cb T (log ++ fs) dl1 fs' dl2 →
  fires start cb T log dl (fs ++ fs') dl2.
Proof.
  induction 1 as [|log dl t fs dl1 Ht _ IH]; intros H2; [by rewrite app_nil_r in H2|].
  simpl. apply fires_cons; [done|]. apply IH. by rewrite <- app_assoc.
Qed.

Lemma placed_ext τ hot m m' loc dl : placed τ hot m loc dl →
  wheels_ m' = wheels_ m → timeouts m' = timeouts m → placed τ hot m' loc dl.
Proof.
  intros [Hcur Hshape Hslot Hloc Hdl] Hw Ht.
  constructor; unfold cursor, slot, place_ok, getTimeOut in *; rewrite ?Hw, ?Ht; done.
Qed.

(** An emptied slot. *)
Lemma placed_cool τ k i m loc dl : placed τ (Some k) m loc dl →
  Z.of_nat i = cursor_of (τ k) k → slot m k i = Some [] → placed τ None m loc dl.
Proof.
  intros Hp Hi Hs. constructor; try apply Hp.
  intros t w j Hl. destruct (pl_loc _ _ _ _ _ Hp t w j Hl) as (Hw & Hj & Hc & Hr).
  split; [done|]. split; [done|]. split; [|exact Hr]. left.
  destruct Hc as [?|[= ->]]; [done|]. intros E. assert (j = i) as -> by lia.
  by apply (pl_slot _ _ _ _ _ Hp w i [] Hs), elem_of_nil in Hl.
Qed.

(** The slots under the cursors do not grow. *)
Definition shrinks (τ : nat → Z) (m m' : TimerMgr) : Prop :=
  ∀ w i l, Z.of_nat i = cursor_of (τ w) w → slot m w i = Some l →
  ∃ l', slot m' w i = Some l' ∧ (length l' ≤ length l)%nat.

Lemma shrinks_refl τ m : shrinks τ m m.
Proof. intros w i l _ Hl. exists l. done. Qed.

Lemma shrinks_trans τ m m1 m2 : shrinks τ m m1 → shrinks τ m1 m2 → shrinks τ m m2.
Proof.
  intros H1 H2 w i l Hi Hl. destruct (H1 w i l Hi Hl) as (l1 & Hl1 & ?).
  destruct (H2 w i l1 Hi Hl1) as (l2 & ? & ?). exists l2. split; [done|lia].
Qed.

Lemma no_lag_env m m' : same_env m m' → no_lag m → no_lag m'.
Proof.
  intros (E1 & E2 & E3 & E4). unfold no_lag, getNow. by rewrite E1, E2, E3, E4.
Qed.

Lemma unregister_spec τ hot m loc dl t : placed τ hot m loc dl →
  ∃ m', unRegisterTimer (Some t) m
        = (Ok (if decide (is_Some (dl !! t)) then 0 else -1), m') ∧
    placed τ hot m' (base.delete t loc) (base.delete t dl) ∧ same_env m m' ∧
    fired m' = fired m ∧ shrinks τ m m'.
Proof.
  intros Hp. unfold unRegisterTimer. run. rewrite (placed_registered _ _ _ _ _ _ Hp).
  assert (is_Some (loc !! t) ↔ is_Some (dl !! t)) as Hiff.
  { split.
    - intros [[w i] Hl]. destruct (pl_loc _ _ _ _ _ Hp t w i Hl) as (_ & _ & _ & _ & Hd).
      by eexists.
    - rewrite <- !not_eq_None_Some. intros Hd Hl. by apply Hd, (pl_dl _ _ _ _ _ Hp). }
  rewrite (bool_decide_ext _ _ Hiff). case_bool_decide as E; simpl.
  - destruct (Remove_run m t) as (ws & Hr & Hs & Hc). rewrite (bind_Ok _ _ _ _ _ Hr).
    exists (with_wheels ws m). rewrite decide_True by done. split_and!; try done.
    + by apply (placed_drop τ hot m).
    + intros w i l _ Hl. exists (filter (λ x, x ≠ t) l). rewrite Hs, Hl.
      split; [done|apply length_filter].
  - exists m. rewrite decide_False by done. split_and!; try done.
    + rewrite <- Hiff in E. apply eq_None_not_Some in E.
      rewrite !delete_id; [done| |done]. by apply (pl_dl _ _ _ _ _ Hp).
    + apply shrinks_refl.
Qed.

(** [registerTimer], also of a registered timer and while a slot is being emptied. *)
Lemma register_any τ hot m loc dl t K T timeout :
  placed τ hot m loc dl → no_lag m → 0 ≤ T →
  (K ≤ 4)%nat → (∀ w, (w ≤ K)%nat → τ w = T) →
  0 ≤ timeout < base_tick K * element_cnt K →
  ∃ m' loc', registerTimer (Some t) timeout m = (Ok 0, m') ∧
    placed τ hot m' loc' (<[t := T + Z.max 1 timeout]> dl) ∧ same_env m m' ∧
    fired m' = fired m ∧ shrinks τ m m'.
Proof.
  intros Hp Hlag HT HK Hτ Ht.
  destruct (unregister_spec _ _ _ _ _ t Hp) as (m1 & Hu & Hp1 & He1 & Hf1 & Hs1).
  assert (registerTimer (Some t) timeout m = registerTimer (Some t) timeout m1) as ->.
  { assert (isRegistered t m1 = false) as Hn1.
    { rewrite (placed_registered _ _ _ _ _ _ Hp1), bool_decide_false; [done|].
      rewrite lookup_delete_eq. by intros [? ?]. }
    unfold registerTimer. run. rewrite Hn1.
    destruct (isRegistered t m) eqn:Er; [run; by rewrite (bind_Ok _ _ _ _ _ Hu)|].
    unfold unRegisterTimer in Hu. rewrite bind_get, Er in Hu. simpl in Hu.
    by injection Hu as _ ->. }
  destruct (register_fresh τ hot m1 (base.delete t loc) (base.delete t dl) t K T timeout)
    as (m' & loc' & Hr & Hp' & He & Hf & Hs'); try done.
  { by rewrite lookup_delete_eq. }
  { by apply (no_lag_env m). }
  exists m', loc'. rewrite insert_delete_eq in Hp'.
  split_and!; [done|done|by apply (same_env_trans _ m1)|by rewrite Hf|].
  apply (shrinks_trans _ _ m1); [done|]. intros w i l Hi Hl. exists l. by rewrite Hs'.
Qed.

(** Calls whose timeouts the wheels up to [K] hold. *)
Definition call_fits (K : nat) (c : call) : Prop :=
  match c with Register _ d => 0 ≤ d < base_tick K * element_cnt K | Unregister _ => True end.

Lemma run_calls_spec τ hot K T cs : ∀ m loc dl,
  placed τ hot m loc dl → no_lag m → 0 ≤ T →
  (K ≤ 4)%nat → (∀ w, (w ≤ K)%nat → τ w = T) → Forall (call_fits K) cs →
  ∃ m' loc', run_calls cs m = (Ok tt, m') ∧ placed τ hot m' loc' (calls_effect T cs dl) ∧
    same_env m m' ∧ fired m' = fired m ∧ shrinks τ m m'.
Proof.
  induction cs as [|c cs IH]; intros m loc dl Hp Hlag HT HK Hτ Hcs.
  { exists m, loc. split_and!; try done. apply shrinks_refl. }
  apply Forall_cons in Hcs as [Hc Hcs].
  assert (∃ m1 loc1, (∀ A (k : M TimerMgr A), (match c with
      | Register t d => registerTimer (Some t) d;;; k
      | Unregister t => unRegisterTimer (Some t);;; k end) m = k m1) ∧
    placed τ hot m1 loc1 (call_effect T dl c) ∧ same_env m m1 ∧ fired m1 = fired m ∧
    shrinks τ m m1) as (m1 & loc1 & Hr & Hp1 & He1 & Hf1 & Hs1).
  { destruct c as [t d|t].
    - destruct (register_any τ hot m loc dl t K T d) as (m1 & loc1 & Hr & ?); [done..|].
      exists m1, loc1. split; [|done]. intros A k. by rewrite (bind_Ok _ _ _ _ _ Hr).
    - destruct (unregister_spec τ hot m loc dl t Hp) as (m1 & Hr & ?).
      exists m1, (base.delete t loc). split; [|done].
      intros A k. by rewrite (bind_Ok _ _ _ _ _ Hr). }
  destruct (IH m1 loc1 (call_effect T dl c)) as (m2 & loc2 & Hr2 & Hp2 & He2 & Hf2 & Hs2);
    try done; [by apply (no_lag_env m)|].
  exists m2, loc2. split_and!; [|done|by apply (same_env_trans _ m1)|congruence|
    by apply (shrinks_trans _ _ m1)].
  specialize (Hr _ (run_calls cs)). destruct c; cbn [run_calls]; by rewrite Hr.
Qed.

(** Emptying the current slot of wheel [k] at tick [T]; the callbacks register with
    timeouts that the wheels up to [K], which have all moved, hold. *)
Lemma drain_spec start cb τ k K i T fuel : ∀ l m loc dl,
  (length l < fuel)%nat → (k ≤ K ≤ 4)%nat → (∀ w, (w ≤ K)%nat → τ w = T) →
  0 ≤ T → T mod base_tick k = 0 → Z.of_nat i = cursor_of T k →
  (∀ t log, Forall (call_fits K) (cb t (start + T) log)) →
  placed τ (Some k) m loc dl → slot m k i = Some l → no_lag m → last_tick_ m = start + T →
  ∃ m' loc' fs dl', drain (calling cb) fuel k (Z.of_nat i) m = (Ok tt, m') ∧
    placed τ None m' loc' dl' ∧ same_env m m' ∧ fired m' = fired m ++ fs ∧
    fires start cb T (fired m) dl fs dl'.
Proof.
  induction fuel as [|fuel IH]; intros l m loc dl Hf Hk Hτ HT HTB Hi Hcb Hp Hs Hlag Hst; [lia|].
  cbn [drain]. destruct l as [|t l].
  - destruct (slot_access _ _ _ _ Hs) as (wh & Hw & Hl). exists m, loc, [], dl.
    rewrite app_nil_r.
    split_and!; [|by apply (placed_cool τ k i); [|rewrite Hτ by lia|]|done..|constructor].
    unfold Pop. run. rewrite Hw. run. rewrite Hl. run. done.
  - destruct (Pop_run _ _ _ _ _ _ _ _ _ Hp Hs) as (ws & Hpop & Hp1 & Hs1).
    set (m1 := with_wheels ws m) in *. rewrite (bind_Ok _ _ _ _ _ Hpop). run.
    assert (loc !! t = Some (k, i)) as Ht
      by (apply (pl_slot _ _ _ _ _ Hp k i _ Hs); set_solver).
    destruct (pl_loc _ _ _ _ _ Hp t k i Ht) as (_ & _ & _ & Hleft & Hdue).
    change (getTimeOut t m1) with (getTimeOut t m) in *.
    set (left_ := getTimeOut t m) in *.
    assert (Hnow : cascade T k (Z.of_nat i) = T) by (rewrite Hi; apply cascade_now; lia).
    unfold due in Hdue. rewrite Hτ, Hnow in Hdue by lia.
    destruct ((k =? 0)%nat || (left_ =? 0)) eqn:E.
    + (* it fires, and its callback makes its calls *)
      unfold log_fired. run. set (m2 := mkMgr (wheels_ m1) _ _ _ _ _ _).
      assert (dl !! t = Some T) as HdT by (rewrite Hdue; f_equal; destruct (k =? 0)%nat; lia).
      unfold calling at 1. run. change (last_tick_ m2) with (last_tick_ m). rewrite Hst.
      change (fired m2) with (fired m ++ [t]).
      set (cs := cb t (start + T) (fired m ++ [t])).
      destruct (run_calls_spec τ (Some k) K T cs m2 (base.delete t loc) (base.delete t dl))
        as (m3 & loc3 & Hr3 & Hp3 & He3 & Hf3 & Hs3); try done; try lia.
      { by apply (placed_ext _ _ m1). }
      { apply Hcb. }
      rewrite (bind_Ok _ _ _ _ _ Hr3).
      destruct (Hs3 k i l) as (l3 & Hl3 & Hlen); [by rewrite Hτ by lia|done|].
      destruct (IH l3 m3 loc3 (calls_effect T cs (base.delete t dl)))
        as (m' & loc' & fs & dl' & Hr & Hp' & He & Hfm & Hfs); try done.
      * simpl in Hf. lia.
      * by apply (no_lag_env m2).
      * destruct He3 as (_ & -> & _). done.
      * exists m', loc', (t :: fs), dl'. rewrite Hf3 in Hfm, Hfs.
        split_and!; [done|done|by apply (same_env_trans _ m3)| |by apply fires_cons].
        rewrite Hfm. change (fired m2) with (fired m ++ [t]). by rewrite <- app_assoc.
    + (* it moves to a lower wheel *)
      destruct (wheel_consts k ltac:(lia)) as (HB & HN & _).
      destruct (register_fresh τ (Some k) m1 (base.delete t loc) (base.delete t dl) t k T left_)
        as (m2 & loc2 & Hr2 & Hp2 & He2 & Hf2 & Hsl2);
        [done|by rewrite lookup_delete_eq|done|done|lia|intros; apply Hτ; lia|nia|].
      run. rewrite (bind_Ok _ _ _ _ _ Hr2).
      assert (<[t := T + Z.max 1 left_]> (base.delete t dl) = dl) as Hdl.
      { rewrite insert_delete_eq. apply insert_id. rewrite Hdue. f_equal.
        apply orb_false_iff in E as [-> E]. clear -E Hleft. lia. }
      rewrite Hdl in Hp2.
      destruct (IH l m2 loc2 dl) as (m' & loc' & fs & dl' & Hr & Hp' & He & Hfm & Hfs); try done.
      * simpl in Hf. lia.
      * rewrite Hsl2; [done|]. by rewrite Hτ by lia.
      * by apply (no_lag_env m1).
      * destruct He2 as (_ & -> & _). done.
      * exists m', loc', fs, dl'. run. rewrite Hf2 in Hfm, Hfs.
        split_and!; [done|done| |done|done].
        apply (same_env_trans _ m2); [exact He2|exact He].
Qed.

(** Wheels that move on, with the current slot of [hot] still to be emptied. *)
Lemma placed_time τ τ' hot0 hot m m' loc dl : placed τ hot0 m loc dl →
  timeouts m' = timeouts m → (∀ w i, slot m' w i = slot m w i) →
  (∀ w, (w < 5)%nat → cursor m' w = Some (cursor_of (τ' w) w)) →
  (∀ w, (w < 5)%nat → τ' w = τ w ∨ τ' w = τ w + 1 ∧ hot0 ≠ Some w) →
  (∀ w, (w < 5)%nat → hot0 = Some w → hot = Some w) →
  (∀ w, (w < 5)%nat → cursor_of (τ' w) w = cursor_of (τ w) w ∨ hot = Some w) →
  placed τ' hot m' loc dl.
Proof.
  intros [Hcur Hshape Hslot Hloc Hdl] Ht Hs Hc Hτ Hhh Hh. constructor.
  - done.
  - intros w i ? ?. rewrite Hs. auto.
  - intros w i l. rewrite Hs. auto.
  - intros t w i Hl. destruct (Hloc t w i Hl) as (Hw & Hi & Hne & Hleft & Hd).
    unfold place_ok, getTimeOut in *. rewrite Ht. split_and!; try done; try apply Hleft.
    + destruct Hne as [Hne|Hne]; [|auto]. destruct (Hh w Hw) as [->|Hhw]; auto.
    + rewrite Hd. unfold due. do 2 f_equal. destruct (Hτ w Hw) as [-> |[-> ?]]; [done|].
      destruct Hne as [Hne|Hne]; [|done]. symmetry. apply cascade_next; [done|lia|done].
  - done.
Qed.

(** Wheels below [w] are at tick [T + 1], the others at [T]. *)
Definition moved (T : Z) (w v : nat) : Z := if (v <? w)%nat then T + 1 else T.

Lemma moved_S T w v : v ≠ w → moved T (S w) v = moved T w v.
Proof.
  intros Hne. unfold moved. destruct (Nat.ltb_spec v (S w)), (Nat.ltb_spec v w); done || lia.
Qed.

(** The cursor of one wheel moves. *)
Lemma placed_move T w m loc dl : (w < 5)%nat → 0 ≤ T → (T + 1) mod base_tick w = 0 →
  placed (moved T w) None m loc dl →
  ∃ wheel, wheel_at w m = Ok wheel ∧
    u32 (cur_slot wheel + 1) mod element_cnt w = cursor_of (T + 1) w ∧
    let m' := with_wheels (<[w := mkWheel (wheel_no wheel) (tlist wheel) (cursor_of (T + 1) w)]>
                             (wheels_ m)) m in
    placed (moved T (S w)) (Some w) m' loc dl ∧ (∀ i, slot m w i = tlist wheel !! i) ∧
    (∀ v i, slot m' v i = slot m v i).
Proof.
  intros Hw HT HTB Hp. pose proof (pl_cursor _ _ _ _ _ Hp w Hw) as Hc.
  unfold cursor in Hc. unfold wheel_at.
  destruct (wheels_ m !! w) as [wheel|] eqn:Ew; [|done]. injection Hc as Hc.
  assert (moved T w w = T) as Hm by (unfold moved; by rewrite Nat.ltb_irrefl).
  assert (moved T (S w) w = T + 1) as HmS
    by (unfold moved; destruct (Nat.ltb_spec w (S w)); lia).
  rewrite Hm in Hc. exists wheel. rewrite Hc. split; [done|]. split; [by apply cursor_next|].
  set (m' := with_wheels _ m). pose proof (lookup_lt_Some _ _ _ Ew) as Hlen.
  assert (Hsl : ∀ v i, slot m' v i = slot m v i).
  { intros v i. unfold slot, m'. simpl. destruct (decide (v = w)) as [->|].
    - by rewrite list_lookup_insert_eq, Ew.
    - by rewrite list_lookup_insert_ne. }
  split_and!; [|intros i; unfold slot; by rewrite Ew|done].
  apply (placed_time (moved T w) _ None _ m); try done.
  - intros v Hv. unfold cursor, m'. simpl. destruct (decide (v = w)) as [->|Hne].
    + by rewrite list_lookup_insert_eq, HmS.
    + rewrite list_lookup_insert_ne, moved_S by done. by apply (pl_cursor _ _ _ _ _ Hp).
  - intros v Hv. destruct (decide (v = w)) as [->|Hne]; [rewrite HmS, Hm; auto|].
    rewrite moved_S by done. auto.
  - intros v Hv. destruct (decide (v = w)) as [->|Hne]; [auto|]. rewrite moved_S by done. auto.
Qed.

(** Without a carry the wheels above are at the same slots one tick later. *)
Lemma no_carry w v T : (w < v)%nat → (v < 5)%nat → (T + 1) mod base_tick w = 0 →
  cursor_of (T + 1) w ≠ 0 → (T + 1) mod base_tick v ≠ 0.
Proof.
  intros Hwv Hv HT Hc. induction Hwv as [|v Hwv IH]; intros Ev.
  - pose proof (carry w (T + 1) ltac:(lia) HT) as Hca. rewrite Ev in Hca. lia.
  - apply IH; [lia|]. rewrite base_tick_S in Ev by lia.
    destruct (wheel_consts v ltac:(lia)) as (? & ? & _).
    apply Z.mod_divide in Ev as [q Hq]; [|nia]. apply Z.mod_divide; [lia|].
    exists (q * element_cnt v). lia.
Qed.

Lemma placed_settle T w hot m loc dl : (w < 5)%nat → (T + 1) mod base_tick w = 0 →
  cursor_of (T + 1) w ≠ 0 → hot = None ∨ hot = Some w →
  placed (moved T (S w)) hot m loc dl → placed (λ _, T + 1) hot m loc dl.
Proof.
  intros Hw HT Hc Hhot Hp.
  assert (∀ v, (v < 5)%nat → cursor_of (T + 1) v = cursor_of (moved T (S w) v) v) as Hcv.
  { intros v Hv. unfold moved. destruct (Nat.ltb_spec v (S w)); [done|].
    apply cursor_same; [done|]. apply (no_carry w); done || lia. }
  apply (placed_time (moved T (S w)) _ hot _ m); try done.
  - intros v Hv. rewrite (pl_cursor _ _ _ _ _ Hp), Hcv by done. done.
  - intros v Hv. unfold moved. destruct (Nat.ltb_spec v (S w)); [auto|right].
    split; [done|]. destruct Hhot as [-> | ->]; [done|]. intros [= ->]. lia.
  - intros v Hv. left. by apply Hcv.
Qed.

(** A call a callback may make at tick [T]: when the first wheel is back at slot 0, the
    wheels above have yet to move, and only timeouts that the first wheel holds are
    counted from [T]. *)
Definition call_ok (T : Z) (c : call) : Prop :=
  match c with
  | Register _ d => 0 ≤ d < 2 ^ 32 ∧ (d < 256 ∨ T mod 256 ≠ 0)
  | Unregister _ => True
  end.

Definition callback_ok (start : Z) (cb : callback) : Prop :=
  ∀ t T log, Forall (call_ok T) (cb t (start + T) log).

Lemma fits_all start cb T t log : callback_ok start cb →
  Forall (call_fits 4) (cb t (start + T) log).
Proof.
  intros Hcb. apply (Forall_impl _ _ _ (Hcb t T log)). intros [x d|x]; [|done].
  intros [Hd _]. exact Hd.
Qed.

Lemma fits_carry start cb T w t log : callback_ok start cb → (w < 5)%nat → T mod 256 = 0 →
  Forall (call_fits w) (cb t (start + T) log).
Proof.
  intros Hcb Hw HT. apply (Forall_impl _ _ _ (Hcb t T log)). intros [x d|x]; [|done].
  intros [Hd [?|?]]; [|done]. simpl.
  assert (256 ≤ base_tick w * element_cnt w); [|lia].
  do 5 (destruct w as [|w]; [by vm_compute|]). lia.
Qed.

Lemma carry_256 T w : (w < 5)%nat → (T + 1) mod base_tick w = 0 → cursor_of (T + 1) w = 0 →
  (T + 1) mod 256 = 0.
Proof.
  intros Hw HT Hc. destruct w as [|w].
  - pose proof (carry 0 (T + 1) ltac:(lia) HT) as H. rewrite Hc in H.
    change (base_tick 1) with 256 in H. lia.
  - assert (∃ q, base_tick (S w) = q * 256) as [q Hq].
    { exists (base_tick (S w) / 256). do 4 (destruct w as [|w]; [done|]). lia. }
    destruct (wheel_consts (S w) Hw) as (? & _).
    apply Z.mod_divide in HT as [p Hp]; [|lia]. rewrite Hp, Hq, Z.mul_assoc. by apply Z.mod_mul.
Qed.

Section advance.
Context (start : Z) (cb : callback) (Hcb : callback_ok start cb).

(** The slot wheel [w] has moved to. *)
Lemma drain_moved T w m loc dl l : (w < 5)%nat → 0 ≤ T → (T + 1) mod base_tick w = 0 →
  let cur := cursor_of (T + 1) w in
  placed (moved T (S w)) (Some w) m loc dl → slot m w (Z.to_nat cur) = Some l →
  no_lag m → last_tick_ m = start + (T + 1) →
  ∃ m' loc' fs dl', drain (calling cb) (S (length l)) w cur m = (Ok tt, m') ∧
    placed (if cur =? 0 then moved T (S w) else λ _, T + 1) None m' loc' dl' ∧
    same_env m m' ∧ fired m' = fired m ++ fs ∧
    fires start cb (T + 1) (fired m) dl fs dl'.
Proof.
  intros Hw HT HTB cur. destruct (wheel_consts w ltac:(lia)) as (HB & HN & _).
  assert (0 ≤ cur < element_cnt w) as Hcr by (apply Z.mod_pos_bound; lia).
  assert (cursor_of (T + 1) w = cur) as Hcur by done. clearbody cur. intros Hp Hl Hlag Hst.
  assert (∃ i, cur = Z.of_nat i) as [i ->] by (exists (Z.to_nat cur); lia).
  rewrite Nat2Z.id in Hl. destruct (Z.of_nat i =? 0) eqn:Ez.
  - apply (drain_spec start cb _ w w _ (T + 1) _ l m loc dl); try done; try lia.
    + intros v Hv. unfold moved. destruct (Nat.ltb_spec v (S w)); lia.
    + intros t log. apply fits_carry; [done|done|]. apply (carry_256 T w); [done..|lia].
  - apply (drain_spec start cb (λ _, T + 1) w 4 _ (T + 1) _ l m loc dl); try done; try lia.
    + intros t log. by apply fits_all.
    + apply (placed_settle T w); auto. lia.
Qed.

Lemma step_from_spec T n : ∀ w m loc dl, (w + n = 5)%nat → 0 ≤ T →
  (n = 0%nat ∨ (T + 1) mod base_tick w = 0) →
  placed (moved T w) None m loc dl → no_lag m → last_tick_ m = start + (T + 1) →
  ∃ m' loc' fs dl', step_from (calling cb) n w m = (Ok tt, m') ∧
    placed (λ _, T + 1) None m' loc' dl' ∧ same_env m m' ∧ fired m' = fired m ++ fs ∧
    fires start cb (T + 1) (fired m) dl fs dl'.
Proof.
  induction n as [|n IH]; intros w m loc dl Hw HT HTB Hp Hlag Hst; cbn [step_from].
  { exists m, loc, [], dl. rewrite app_nil_r. split_and!; try done; [|constructor].
    assert (∀ v, (v < 5)%nat → moved T w v = T + 1) as Hm.
    { intros v Hv. unfold moved. destruct (Nat.ltb_spec v w); lia. }
    apply (placed_time (moved T w) _ None _ m); try done.
    - intros v Hv. rewrite (pl_cursor _ _ _ _ _ Hp), Hm by done. done.
    - intros v Hv. rewrite Hm; auto.
    - intros v Hv. rewrite Hm; auto. }
  destruct HTB as [Hn0|HTB]; [lia|].
  destruct (placed_move T w m loc dl) as (wheel & Hwa & Hcur & Hp1 & Hsw & Hsm); [lia|done..|].
  set (cur := cursor_of (T + 1) w) in *.
  run. rewrite Hwa. run. rewrite Hcur. unfold set_wheels at 1. run.
  match goal with |- context [(mkMgr ?ws _ _ _ _ _ _)] =>
    change (mkMgr ws _ _ _ _ _ _) with (with_wheels ws m) end.
  set (m1 := with_wheels _ m) in *.
  destruct (wheel_consts w ltac:(lia)) as (HB & HN & _).
  assert (0 ≤ cur < element_cnt w) as Hcr by (apply Z.mod_pos_bound; lia).
  destruct (pl_shape _ _ _ _ _ Hp w (Z.to_nat cur)) as [l Hl]; [lia|lia|].
  unfold list_at. rewrite <- Hsw, Hl. run.
  destruct (drain_moved T w m1 loc dl l)
    as (m2 & loc2 & fs & dl2 & Hr & Hp2 & He2 & Hf2 & Hd2); try done; try lia.
  { by rewrite Hsm. }
  rewrite (bind_Ok _ _ _ _ _ Hr). fold cur in Hp2.
  destruct (cur =? 0) eqn:Ez; cbn [negb]; [|by exists m2, loc2, fs, dl2].
  destruct (IH (S w) m2 loc2 dl2) as (m' & loc' & fs' & dl' & -> & Hp' & He' & Hf' & Hd');
    try done; [lia| |by apply (no_lag_env m1)|by destruct He2 as (_ & -> & _)|].
  { destruct n as [|n]; [by left|right]. unfold cur in Ez.
    rewrite carry in Ez by (done || lia). lia. }
  exists m', loc', (fs ++ fs'), dl'. split_and!; [done..| | |].
  - apply (same_env_trans _ m2); [exact He2|exact He'].
  - by rewrite Hf', Hf2, app_assoc.
  - apply (fires_trans _ _ _ _ _ _ dl2); [exact Hd2|]. by rewrite Hf2 in Hd'.
Qed.

(** No timer of a settled manager is due already. *)
Lemma placed_future T m loc dl t : placed (λ _, T) None m loc dl → dl !! t ≠ Some T.
Proof.
  intros Hp Ht. destruct (loc !! t) as [[w i]|] eqn:El;
    [|apply (pl_dl _ _ _ _ _ Hp) in El; congruence].
  destruct (pl_loc _ _ _ _ _ Hp t w i El) as (Hw & Hi & [Hne|Hne] & Hleft & Hdue); [|done].
  rewrite Ht in Hdue. injection Hdue as Hdue.
  pose proof (cascade_future w Hw T (Z.of_nat i) ltac:(lia) Hne).
  unfold due in Hdue. destruct (w =? 0)%nat; lia.
Qed.

(** One step at tick [T]: timers due at [T + 1] fire until none is left. *)
Lemma step_spec T m loc dl : 0 ≤ T → placed (λ _, T) None m loc dl → no_lag m →
  last_tick_ m = start + (T + 1) →
  ∃ m' loc' fs dl', step (calling cb) m = (Ok tt, m') ∧
    placed (λ _, T + 1) None m' loc' dl' ∧ same_env m m' ∧
    fired m' = fired m ++ fs ∧ fires start cb (T + 1) (fired m) dl fs dl'.
Proof.
  intros HT Hp Hlag Hst. apply (step_from_spec T 5 0 m loc dl); try done.
  right. apply Z.mod_1_r.
Qed.

End advance.

(** ** The manager as a schedule of deadlines *)

(** Operations of a client that polls once per tick: the clock of the manager advances
    by one tick and the matching [tick] function runs. *)
Inductive op : Type :=
  | OpCall (c : call)
  | OpTick.

Definition poll (cb : callback) (m : TimerMgr) : res () * TimerMgr :=
  if is_ms_timer_ m then tickMs (calling cb) (wait 0 1 m) else tick (calling cb) (wait 1 0 m).

Definition exec (cb : callback) (o : op) (m : TimerMgr) : res Z * TimerMgr :=
  match o with
  | OpCall (Register t timeout) => registerTimer (Some t) timeout m
  | OpCall (Unregister t) => unRegisterTimer (Some t) m
  | OpTick => (let! _ := poll cb in ret 0) m
  end.

Definition op_ok (o : op) : Prop :=
  match o with OpCall (Register _ timeout) => 0 ≤ timeout < 2 ^ 32 | _ => True end.

(** Specification: a tick counter and a deadline for each registered timer.  Each
    operation has a result and the timers it fires.  A tick fires timers due then until
    none is left. *)
Definition schedule : Type := Z * gmap nat Z.

Inductive allowed (start : Z) (cb : callback) (log : list nat)
    : schedule → op → Z → list nat → schedule → Prop :=
  | allowed_register T dl t timeout :
      allowed start cb log (T, dl) (OpCall (Register t timeout)) 0 []
              (T, <[t := T + Z.max 1 timeout]> dl)
  | allowed_unregister T dl t :
      allowed start cb log (T, dl) (OpCall (Unregister t))
              (if decide (is_Some (dl !! t)) then 0 else -1) [] (T, base.delete t dl)
  | allowed_tick T dl fs dl' :
      fires start cb (T + 1) log dl fs dl' → (∀ t, dl' !! t ≠ Some (T + 1)) →
      allowed start cb log (T, dl) OpTick 0 fs (T + 1, dl').

(** A started manager, polled up to the present. *)
Definition running (start : Z) (m : TimerMgr) (s : schedule) : Prop :=
  0 ≤ fst s ∧ 0 < last_tick_ m < 2 ^ 64 ∧ getNow m = last_tick_ m ∧
  last_tick_ m = start + fst s ∧ ∃ loc, placed (λ _, fst s) None m loc (snd s).

Section polling.
Context (start : Z) (cb : callback) (Hcb : callback_ok start cb).

Lemma running_env m m' T dl dl' : running start m (T, dl) → same_env m m' →
  (∃ loc, placed (λ _, T) None m' loc dl') → running start m' (T, dl').
Proof.
  intros (HT & Hl & Hn & Hs & _) (E1 & E2 & E3 & E4) Hp. unfold running, getNow in *.
  rewrite E1, E2, E3, E4. done.
Qed.

Lemma register_spec m T dl t timeout : running start m (T, dl) → 0 ≤ timeout < 2 ^ 32 →
  ∃ m', registerTimer (Some t) timeout m = (Ok 0, m') ∧ fired m' = fired m ∧
    running start m' (T, <[t := T + Z.max 1 timeout]> dl) ∧ last_tick_ m' = last_tick_ m.
Proof.
  intros Hrun Ht. pose proof Hrun as (HT & Hl & Hn & Hs & loc & Hp). cbn [fst snd] in *.
  destruct (register_any (λ _, T) None m loc dl t 4 T timeout)
    as (m' & loc' & Hr & Hp' & He & Hf & _); try done; [right; lia|].
  exists m'. split_and!; [done|done| |by destruct He as (_ & -> & _)].
  apply (running_env m m' T dl); [done..|by exists loc'].
Qed.

Lemma poll_spec m T dl : running start m (T, dl) → last_tick_ m < 2 ^ 64 - 1 →
  ∃ m' fs dl', poll cb m = (Ok tt, m') ∧ fired m' = fired m ++ fs ∧
    fires start cb (T + 1) (fired m) dl fs dl' ∧ (∀ t, dl' !! t ≠ Some (T + 1)) ∧
    running start m' (T + 1, dl') ∧ last_tick_ m' = last_tick_ m + 1.
Proof.
  intros (HT & Hl & Hn & Hst & loc & Hp) Hb. cbn [fst snd] in *.
  set (m1 := mkMgr (wheels_ m) (is_ms_timer_ m) (last_tick_ m + 1)
    (if is_ms_timer_ m then nowS m + 0 else nowS m + 1)
    (if is_ms_timer_ m then nowMs m + 1 else nowMs m + 0) (timeouts m) (fired m)).
  assert (placed (λ _, T) None m1 loc dl) as Hp1 by (by apply (placed_ext _ _ m)).
  assert (getNow m1 = last_tick_ m1) as Hn1.
  { unfold getNow in *. simpl. destruct (is_ms_timer_ m); lia. }
  destruct (step_spec start cb Hcb T m1 loc dl)
    as (m' & loc' & fs & dl' & Hs & Hp' & He & Hf & Hfs);
    [done|done|right; lia|simpl; lia|].
  exists m', fs, dl'. split_and!; try done.
  - unfold poll, tick, tickMs, tickInternal, getNow in *.
    destruct (is_ms_timer_ m) eqn:Em; run; simpl in *;
      (replace (_ <=? last_tick_ m) with false by lia);
      (match goal with |- context [Z.to_nat ?x] => replace x with 1 by lia end);
      change (Z.to_nat 1) with 1%nat; cbn [steps]; run; unfold set_last_tick; run; simpl;
      unfold u64; rewrite wrap_small by lia; rewrite Em in *;
      fold m1; by rewrite (bind_Ok _ _ _ _ _ Hs).
  - intros t. by apply (placed_future _ m' loc').
  - destruct He as (E1 & E2 & E3 & E4). unfold running, getNow in *. simpl in *.
    rewrite E1, E2, E3, E4. split_and!; try lia; try done. by exists loc'.
  - destruct He as (_ & -> & _). done.
Qed.

Lemma exec_on_schedule o m s : running start m s → op_ok o → last_tick_ m < 2 ^ 64 - 1 →
  ∃ z m' fs s', exec cb o m = (Ok z, m') ∧ fired m' = fired m ++ fs ∧
    allowed start cb (fired m) s o z fs s' ∧
    running start m' s' ∧ last_tick_ m' ≤ last_tick_ m + 1.
Proof.
  destruct s as [T dl]. intros Hrun Ho Hb. destruct o as [[t timeout|t]|].
  - destruct (register_spec m T dl t timeout) as (m' & Hr & Hf & Hrun' & Hl); [done..|].
    exists 0, m', [], (T, <[t := T + Z.max 1 timeout]> dl). rewrite app_nil_r.
    split_and!; [done|done|constructor|done|lia].
  - pose proof Hrun as (_ & _ & _ & _ & loc & Hp).
    destruct (unregister_spec _ _ _ _ _ t Hp) as (m' & Hr & Hp' & He & Hf & _).
    eexists _, m', [], (T, base.delete t dl). rewrite app_nil_r.
    split_and!; [exact Hr|done|constructor| |].
    + apply (running_env m m' T dl); eauto.
    + destruct He as (_ & -> & _). lia.
  - destruct (poll_spec m T dl) as (m' & fs & dl' & Hr & Hf & Hfs & Hn & Hrun' & Hl); [done..|].
    exists 0, m', fs, (T + 1, dl').
    split_and!; [|done|by constructor|done|lia].
    cbn [exec]. by rewrite (bind_Ok _ _ _ _ _ Hr).
Qed.

End polling.

(** Each operation with its result and the timers it fired. *)
Fixpoint run_ops (cb : callback) (os : list op) (m : TimerMgr)
    : list (op * res Z * list nat) * TimerMgr :=
  match os with
  | [] => ([], m)
  | o :: os =>
      let '(r, m1) := exec cb o m in
      let '(evs, m2) := run_ops cb os m1 in
      ((o, r, drop (length (fired m)) (fired m1)) :: evs, m2)
  end.

Inductive history (start : Z) (cb : callback)
    : list nat → schedule → list (op * res Z * list nat) → schedule → Prop :=
  | history_nil log s : history start cb log s [] s
  | history_cons log s o z fs s' evs s'' :
      allowed start cb log s o z fs s' → history start cb (log ++ fs) s' evs s'' →
      history start cb log s ((o, Ok z, fs) :: evs) s''.

(** Callbacks that do not mention [t]. *)
Definition leaves (t : nat) (cb : callback) : Prop :=
  ∀ x T log, Forall (λ c, call_timer c ≠ t) (cb x T log).

Definition times (t : nat) (fs : list nat) : nat := length (filter (λ x, x = t) fs).

Lemma fired_times_app t fs fs' : times t (fs ++ fs') = (times t fs + times t fs')%nat.
Proof. unfold times. by rewrite filter_app, length_app. Qed.

Lemma calls_effect_other T cs t : ∀ dl, Forall (λ c, call_timer c ≠ t) cs →
  calls_effect T cs dl !! t = dl !! t.
Proof.
  unfold calls_effect. induction cs as [|c cs IH]; intros dl Hcs; [done|].
  apply Forall_cons in Hcs as [Hc Hcs]. simpl. rewrite IH by done.
  destruct c; simpl in *; [by rewrite lookup_insert_ne|by rewrite lookup_delete_ne].
Qed.

Lemma fires_of start cb T t log dl fs dl' : leaves t cb → fires start cb T log dl fs dl' →
  times t fs = 0%nat ∧ dl' !! t = dl !! t ∨
  times t fs = 1%nat ∧ dl !! t = Some T ∧ dl' !! t = None.
Proof.
  intros Hcb. induction 1 as [|log dl x fs dl' Hx _ IH]; [by left|].
  rewrite !(calls_effect_other _ _ t) in IH by apply Hcb.
  unfold times in *. destruct (decide (x = t)) as [->|Hne].
  - right. rewrite filter_cons_True by done. rewrite lookup_delete_eq in IH. cbn [length].
    destruct IH as [(-> & ->)|(_ & ? & _)]; [done|congruence].
  - rewrite filter_cons_False by done. by rewrite lookup_delete_ne in IH.
Qed.

Lemma ticks_spec start cb t n : callback_ok start cb → leaves t cb →
  ∀ m T dl, running start m (T, dl) → last_tick_ m + Z.of_nat n < 2 ^ 64 →
  ∃ fs, fired (Nat.iter n (λ m, snd (poll cb m)) m) = fired m ++ fs ∧
    (dl !! t = None → times t fs = 0%nat) ∧
    ∀ D, dl !! t = Some D → T < D →
      times t fs = if decide (D ≤ T + Z.of_nat n) then 1%nat else 0%nat.
Proof.
  intros Hok Ht. induction n as [|n IH]; intros m T dl Hrun Hb.
  { exists []. rewrite app_nil_r. split_and!; [done..|]. intros D _ HD.
    by rewrite decide_False by lia. }
  destruct (poll_spec start cb Hok m T dl Hrun)
    as (m1 & fs & dl1 & Hr & Hf & Hfs & Hnone & Hrun1 & Hl1); [lia|].
  destruct (IH m1 (T + 1) dl1 Hrun1) as (fs1 & Hf1 & HN1 & HD1); [lia|].
  exists (fs ++ fs1). rewrite Nat.iter_succ_r, Hr. cbn [snd]. rewrite Hf1, Hf, app_assoc.
  specialize (Hnone t). rewrite fired_times_app.
  destruct (fires_of _ _ _ _ _ _ _ _ Ht Hfs) as [(-> & E)|(-> & E & E')].
  - rewrite E in *. split_and!; [done|auto|]. intros D HD HTD.
    rewrite (HD1 D HD) by (rewrite HD in Hnone; assert (D ≠ T + 1) by congruence; lia).
    simpl. repeat case_decide; lia.
  - split_and!; [done|congruence|]. intros D HD HTD. rewrite E in HD. injection HD as <-.
    rewrite (HN1 E'), decide_True by lia. lia.
Qed.

(** C11: a manager polled once per tick is a schedule of deadlines: a timer registered
    with timeout [d] at tick [T] is due at [T + max 1 d]; each tick fires timers due
    then, one at a time and in the order of the log, until none is left; registration
    replaces, unregistration removes, whatever wheels and cascades the timers go through.
    Callbacks may register and unregister any timers, also their own and those still to
    fire in the same tick.  The one condition on them ([callback_ok]): at a tick divisible
    by 256 they register with timeouts below 256 ([callback_at_carry_is_early] is what
    happens otherwise).  Polling late is [late_poll_delays]. *)
Theorem timer_wheel_refines start cb os m s : callback_ok start cb →
  running start m s → Forall op_ok os → last_tick_ m + zlen os < 2 ^ 64 →
  let '(evs, m') := run_ops cb os m in
  ∃ s', history start cb (fired m) s evs s' ∧ running start m' s'.
Proof.
  intros Hcb. revert m s.
  induction os as [|o os IH]; intros m s Hrun Hok Hb; cbn [run_ops].
  { exists s. split; [constructor|done]. }
  apply Forall_cons in Hok as [Ho Hok]. rewrite zlen_cons in Hb. pose proof (zlen_nonneg os).
  destruct (exec_on_schedule start cb Hcb o m s)
    as (z & m1 & fs & s1 & -> & Hf & Ha & Hrun1 & Hl); [done..|lia|].
  specialize (IH m1 s1 Hrun1 Hok ltac:(lia)).
  destruct (run_ops cb os m1) as [evs m2]. destruct IH as (s2 & Hh & Hrun2).
  exists s2. split; [|done]. rewrite Hf, drop_app_length. rewrite Hf in Hh.
  by apply (history_cons _ _ _ s o z fs s1).
Qed.

(** C33: a timer fires on time, exactly once: registered with timeout [d] among any other
    timers and polled for [n] ticks, it has fired once if [n] is at least [max 1 d] and
    has not fired otherwise.  Meanwhile the callbacks, its own included, may register and
    unregister any timers but this one; as in [timer_wheel_refines], those that run at a
    tick divisible by 256 register with timeouts below 256, without which
    [callback_at_carry_is_early]. *)
Theorem timer_fires_on_time start cb m T dl t timeout n : callback_ok start cb →
  leaves t cb → running start m (T, dl) →
  0 ≤ timeout < 2 ^ 32 → last_tick_ m + Z.of_nat n < 2 ^ 64 →
  ∃ m1 fs, registerTimer (Some t) timeout m = (Ok 0, m1) ∧
    fired (Nat.iter n (λ m, snd (poll cb m)) m1) = fired m ++ fs ∧
    times t fs = if decide (Z.max 1 timeout ≤ Z.of_nat n) then 1%nat else 0%nat.
Proof.
  intros Hcb Hleave Hrun Ht Hb.
  destruct (register_spec start m T dl t timeout) as (m1 & Hr & Hf & Hrun1 & Hl); [done..|].
  destruct (ticks_spec start cb t n Hcb Hleave m1 _ _ Hrun1) as (fs & Hf2 & _ & Hfs); [lia|].
  exists m1, fs. rewrite Hf2, Hf. split_and!; [done..|].
  rewrite (Hfs (T + Z.max 1 timeout)) by (rewrite ?lookup_insert_eq; done || lia).
  repeat case_decide; done || lia.
Qed.

(** ** Witnesses and examples *)

Definition ex_mgr : TimerMgr := snd (initTick (TimerMgr_make 1000 0)).

Lemma ex_wheels w : wheels_ ex_mgr !! w = if decide (w < 5)%nat then Some (Wheel_make w) else None.
Proof. by do 5 (destruct w as [|w]; [done|]). Qed.

Lemma ex_slot w i l : slot ex_mgr w i = Some l ↔
  l = [] ∧ (w < 5)%nat ∧ (i < Z.to_nat (element_cnt w))%nat.
Proof.
  unfold slot. rewrite ex_wheels. case_decide; [|naive_solver].
  cbn [mbind option_bind tlist Wheel_make]. rewrite lookup_replicate. tauto.
Qed.

Lemma ex_running : running 1000 ex_mgr (0, ∅).
Proof.
  split_and!; [done..|]. exists ∅. constructor.
  - intros w Hw. unfold cursor. rewrite ex_wheels, decide_True by done. cbn.
    unfold cursor_of. destruct (wheel_consts w Hw) as (? & ? & _).
    by rewrite Z.div_0_l, Z.mod_0_l by lia.
  - intros w i Hw Hi. exists []. apply ex_slot. split_and!; [done|done|lia].
  - intros w i l [-> _]%ex_slot. split; [apply NoDup_nil_2|]. set_solver.
  - intros t w i. by rewrite lookup_empty.
  - done.
Qed.

(** Callbacks that leave the manager alone, and callbacks that register their own timer
    again. *)
Definition passive : callback := λ _ _ _, [].
Definition periodic (timeout : Z) : callback := λ t _ _, [Register t timeout].

(** Timer 1 restarts itself and cancels timer 3, which is due at the same tick. *)
Definition ex_callback : callback :=
  λ t _ _, if (t =? 1)%nat then [Register 1 2; Unregister 3] else [].

Lemma ex_callback_ok : callback_ok 1000 ex_callback.
Proof.
  intros t T log. unfold ex_callback. destruct (t =? 1)%nat; repeat constructor; simpl; lia.
Qed.

Lemma timer_wheel_refines_witness :
  let os := [OpCall (Register 1 2); OpCall (Register 2 300); OpCall (Register 3 2); OpTick;
             OpCall (Unregister 2); OpTick; OpTick; OpTick] in
  fst (run_ops ex_callback os ex_mgr) =
    [(OpCall (Register 1 2), Ok 0, []); (OpCall (Register 2 300), Ok 0, []);
     (OpCall (Register 3 2), Ok 0, []); (OpTick, Ok 0, []);
     (OpCall (Unregister 2), Ok 0, []); (OpTick, Ok 0, [1%nat]); (OpTick, Ok 0, []);
     (OpTick, Ok 0, [1%nat])] ∧
  ∃ s', history 1000 ex_callback [] (0, ∅) (fst (run_ops ex_callback os ex_mgr)) s'.
Proof.
  intros os. split; [vm_compute; reflexivity|].
  pose proof (timer_wheel_refines 1000 ex_callback os ex_mgr (0, ∅) ex_callback_ok ex_running
    ltac:(repeat constructor; vm_compute; discriminate) ltac:(vm_compute; reflexivity)) as H.
  destruct (run_ops ex_callback os ex_mgr) as [evs m']. destruct H as (s' & H & _).
  exists s'. exact H.
Defined.

Lemma timer_fires_on_time_witness : ∃ m1 fs,
  registerTimer (Some 7%nat) 300 ex_mgr = (Ok 0, m1) ∧
  fired (Nat.iter 300 (λ m, snd (poll ex_callback m)) m1) = fs ∧ times 7 fs = 1%nat.
Proof.
  destruct (timer_fires_on_time 1000 ex_callback ex_mgr 0 ∅ 7 300 300 ex_callback_ok
    ltac:(intros x T log; unfold ex_callback; destruct (x =? 1)%nat;
          repeat constructor; discriminate)
    ex_running ltac:(lia) ltac:(vm_compute; reflexivity)) as (m1 & fs & Hr & Hf & Ht).
  exists m1, fs. split; [exact Hr|]. split; [exact Hf|exact Ht].
Defined.

(** A timer of 56 ticks registered at tick 200 fires at tick 256, when wheel 0 is back at
    slot 0 but wheel 1 has not moved yet; its callback registers it for 300 more ticks,
    and it fires again after 44. *)
Theorem callback_at_carry_is_early :
  let polls n cb m := Nat.iter n (λ m, snd (poll cb m)) m in
  let m := snd (registerTimer (Some 7%nat) 56 (polls 200%nat passive ex_mgr)) in
  fired (polls 56%nat (periodic 300) m) = [7%nat] ∧
  fired (polls 99%nat (periodic 300) m) = [7%nat] ∧
  fired (polls 100%nat (periodic 300) m) = [7; 7]%nat.
Proof. vm_compute. auto. Qed.

(** Polled 1000 ticks late, a timer due after 300 ticks does not fire: the cascade at
    tick 256 adds the lag to its remaining time. *)
Theorem late_poll_delays :
  let m := snd (registerTimer (Some 7%nat) 300 ex_mgr) in
  let m' := snd (tick (calling passive) (wait 1000 0 m)) in
  last_tick_ m' = 2000 ∧ fired m' = [] ∧ isRegistered 7 m' = true.
Proof. vm_compute. auto. Qed.
