(* ===== verification/Log.v ===== *)
(** * [dbase::log]: events, the formatter and [Logger] (code/src/log/log.cpp, log.h)

    Levels, events and their text, and the synchronous logger.  A sink is a number; what a
    logger does to its sinks is the list of calls it makes ([SinkCall]).  An event comes ready
    made: [makeLogEvent] fills in the clock, the identifiers of process and thread and the
    source location.  The text of a date is a parameter. *)

From S2P Require Import Prelude.
From stdpp Require Import base list strings.
From Stdlib Require Import ZArith Lia Ascii.

Local Open Scope Z_scope.

Inductive Level : Type := Trace | Debug | Info | Warn | Error | Fatal.

#[global] Instance Level_eq_dec : EqDecision Level.
Proof. solve_decision. Defined.

(** [static_cast<int>] *)
Definition level_int (l : Level) : Z :=
  match l with Trace => 0 | Debug => 1 | Info => 2 | Warn => 3 | Error => 4 | Fatal => 5 end.

Inductive PatternStyle : Type := Compact | Source | SourceFunction | Threaded.

Record LogEvent : Type := mkEvent {
  level : Level;
  message : str;
  file : str;
  function : str;
  line : Z;
  pid : Z;
  tid : Z;
  timestampUs : Z;
}.

(** The members of a default-initialised event *)
Definition LogEvent_default : LogEvent := mkEvent Info [] [] [] 0 0 0 0.

Definition toString (l : Level) : str :=
  lit match l with
      | Trace => "TRACE" | Debug => "DEBUG" | Info => "INFO" | Warn => "WARN" | Error => "ERROR" | Fatal => "FATAL"
      end.

Definition toSpdlogString (l : Level) : str :=
  lit match l with
      | Trace => "trace" | Debug => "debug" | Info => "info" | Warn => "warn" | Error => "error" | Fatal => "critical"
      end.

Section formatter.
(** [dbase::time::formatTimestampMs] *)
Context (formatTimestampMs : Z → str → str).

(** The format [{:03}] of an [int] *)
Definition pad3 (n : Z) : str :=
  let ds := to_string (Z.abs n) in
  if n <? 0 then lit "-" ++ replicate (2 - length ds) "0"%char ++ ds else replicate (3 - length ds) "0"%char ++ ds.

Definition formatTimestampUs (us : Z) : str :=
  let ms := Z.rem (Z.quot us 1000) 1000 in
  formatTimestampMs (Z.quot us 1000) (lit "%Y-%m-%d %H:%M:%S") ++ lit "." ++ pad3 ms.

Definition bracket (s : str) : str := lit "[" ++ s ++ lit "] ".

Definition formatCompact (e : LogEvent) : str :=
  bracket (formatTimestampUs (timestampUs e)) ++ bracket (toSpdlogString (level e)) ++ message e.

Definition formatSource (e : LogEvent) : str :=
  bracket (formatTimestampUs (timestampUs e)) ++ bracket (toSpdlogString (level e)) ++
  bracket (file e ++ lit ":" ++ to_string (line e)) ++ message e.

Definition formatSourceFunction (e : LogEvent) : str :=
  bracket (formatTimestampUs (timestampUs e)) ++ bracket (toSpdlogString (level e)) ++
  bracket (file e ++ lit ":" ++ to_string (line e)) ++ bracket (function e) ++ message e.

Definition formatThreaded (e : LogEvent) : str :=
  bracket (formatTimestampUs (timestampUs e)) ++ bracket (toSpdlogString (level e)) ++
  bracket (to_string (pid e) ++ lit ":" ++ to_string (tid e)) ++
  bracket (file e ++ lit ":" ++ to_string (line e)) ++ bracket (function e) ++ message e.

Definition format (style : PatternStyle) (e : LogEvent) : str :=
  match style with
  | Compact => formatCompact e
  | Source => formatSource e
  | SourceFunction => formatSourceFunction e
  | Threaded => formatThreaded e
  end.

(** Whatever the style, the line ends with the message. *)
Lemma format_message style e : ∃ head, format style e = head ++ message e.
Proof.
  destruct style; unfold format, formatCompact, formatSource, formatSourceFunction, formatThreaded;
    rewrite ?app_assoc; by eexists.
Qed.

(** ** [Logger] *)

Inductive SinkCall : Type :=
  | Write (e : LogEvent) (formatted : str)
  | Flush.

Record Logger : Type := mkLogger {
  m_level : Level;
  m_flushOn : Level;
  m_style : PatternStyle;                  (* of [m_formatter] *)
  m_sinks : list nat;
  calls : list (nat * SinkCall);           (* history: calls made to sinks *)
}.

Definition call_all (sinks : list nat) (c : SinkCall) : list (nat * SinkCall) := (λ s, (s, c)) <$> sinks.

(** What one event leads to *)
Definition emit (sinks : list nat) (style : PatternStyle) (flushOn : Level) (e : LogEvent) : list (nat * SinkCall) :=
  call_all sinks (Write e (format style e)) ++
  if level_int flushOn <=? level_int (level e) then call_all sinks Flush else [].

(** [console]: the [ConsoleSink] that every logger starts with *)
Definition Logger_make (style : PatternStyle) (console : nat) : Logger := mkLogger Info Error style [console] [].

Definition shouldLog (l : Level) (g : Logger) : bool := level_int (m_level g) <=? level_int l.

Definition setLevel (l : Level) : M Logger () :=
  modify (λ g, mkLogger l (m_flushOn g) (m_style g) (m_sinks g) (calls g)).
Definition setFlushOn (l : Level) : M Logger () :=
  modify (λ g, mkLogger (m_level g) l (m_style g) (m_sinks g) (calls g)).
Definition setPatternStyle (s : PatternStyle) : M Logger () :=
  modify (λ g, mkLogger (m_level g) (m_flushOn g) s (m_sinks g) (calls g)).
(** A null pointer is ignored. *)
Definition addSink (sink : option nat) : M Logger () :=
  modify (λ g, match sink with
               | None => g
               | Some s => mkLogger (m_level g) (m_flushOn g) (m_style g) (m_sinks g ++ [s]) (calls g)
               end).
Definition clearSinks : M Logger () :=
  modify (λ g, mkLogger (m_level g) (m_flushOn g) (m_style g) [] (calls g)).

Definition record (cs : list (nat * SinkCall)) : M Logger () :=
  modify (λ g, mkLogger (m_level g) (m_flushOn g) (m_style g) (m_sinks g) (calls g ++ cs)).

Definition flush : M Logger () :=
  let! g := get in record (call_all (m_sinks g) Flush).

Definition log (e : LogEvent) : M Logger () :=
  let! g := get in
  if negb (shouldLog (level e) g) then ret tt
  else record (emit (m_sinks g) (m_style g) (m_flushOn g) e).

(** [resetDefaultSinks] *)
Definition resetDefaultSinks (console : nat) : M Logger () := clearSinks;;; addSink (Some console).

Lemma log_run e g : log e g = (Ok tt, mkLogger (m_level g) (m_flushOn g) (m_style g) (m_sinks g)
  (calls g ++ if shouldLog (level e) g then emit (m_sinks g) (m_style g) (m_flushOn g) e else [])).
Proof.
  unfold log. rewrite bind_get. destruct (shouldLog (level e) g); cbn; [done|].
  rewrite app_nil_r. by destruct g.
Qed.

End formatter.
