(* ===== verification/AsyncLogger.v ===== *)
(** * [dbase::log::AsyncLogger] (code/src/log/async_logger.cpp, async_logger.h)

    A bounded queue of events that a worker thread writes to the sinks.  A state holds the
    members, the program counter of the worker and of every thread that uses the logger, and
    history; an action is one step of one thread, so that a list of actions is an
    interleaving.  The body of a critical section is one step; a thread that has evaluated the
    predicate of a wait and is about to block is a state of its own, in which it still holds
    the mutex ([locked]), because [m_stopping] and [m_processedSequence] change, and the
    condition variables are notified, without the mutex.  The calls made to the sinks for one
    event are one step; sinks return and do not throw.  Sequence numbers stay below 2^64. *)

From S2P Require Import Prelude Log.
From stdpp Require Import base list strings.
From Stdlib Require Import ZArith Lia Ascii.

Inductive AsyncOverflowPolicy : Type := Block | DiscardNewest.

#[global] Instance AsyncOverflowPolicy_eq_dec : EqDecision AsyncOverflowPolicy.
Proof. solve_decision. Defined.

Record QueueItem : Type := mkItem { event : LogEvent; sequence : nat; flushOnly : bool }.

(** What the worker copies before it handles a batch *)
Record Copies : Type := mkCopies { k_flushOn : Level; k_sinks : list nat; k_style : PatternStyle }.

Inductive WorkerPC : Type :=
  | WTop
  | WLock (fl : Level)                                   (* about to lock, or to lock again *)
  | WChecked (fl : Level)                                (* about to block, with the mutex *)
  | WBlocked (fl : Level)
  | WNotify (k : Copies) (batch : list QueueItem)
  | WBatch (k : Copies) (batch : list QueueItem)
  | WStore (k : Copies) (it : QueueItem) (batch : list QueueItem)
  | WNotifyFlush (k : Copies) (batch : list QueueItem)
  | WFinal
  | WFlush (sinks : list nat)
  | WEnd.

Inductive ThreadPC : Type :=
  | Idle
  | PSeq (e : LogEvent) (flushOnly : bool)               (* about to take a sequence number *)
  | PEnqueue (it : QueueItem)                            (* [enqueueItem], about to lock *)
  | PChecked (it : QueueItem)
  | PBlocked (it : QueueItem)
  | PNotify (it : QueueItem)
  | FWait (target : nat)                                 (* the wait of [flush] *)
  | FChecked (target : nat)
  | FBlocked (target : nat)
  | FCopy                                                (* [flush] calls the sinks itself *)
  | FSinks (sinks : list nat)
  | SNotify
  | SNotifyFlush
  | SJoin.

Record AsyncLogger : Type := mkAsync {
  m_queue : list QueueItem;
  m_level : Level;
  m_flushOn : Level;
  m_style : PatternStyle;
  m_sinks : list nat;
  m_queueCapacity : nat;
  m_overflowPolicy : AsyncOverflowPolicy;
  m_droppedCount : nat;
  m_nextSequence : nat;
  m_processedSequence : nat;
  m_stopping : bool;
}.

(** [accepted]: the items in the order in which they entered the queue; [handled]: those the
    worker is done with, and with which copies; [refused]: items not taken because of
    [m_stopping]; [calls]: calls made to sinks. *)
Record State : Type := mkState {
  logger : AsyncLogger;
  worker : WorkerPC;
  threads : list ThreadPC;
  accepted : list QueueItem;
  handled : list (Copies * QueueItem);
  refused : nat;
  calls : list (nat * SinkCall);
}.

Definition set_queue q g := mkAsync q (m_level g) (m_flushOn g) (m_style g) (m_sinks g) (m_queueCapacity g)
  (m_overflowPolicy g) (m_droppedCount g) (m_nextSequence g) (m_processedSequence g) (m_stopping g).
Definition set_levels l f g := mkAsync (m_queue g) l f (m_style g) (m_sinks g) (m_queueCapacity g)
  (m_overflowPolicy g) (m_droppedCount g) (m_nextSequence g) (m_processedSequence g) (m_stopping g).
Definition set_output st ss g := mkAsync (m_queue g) (m_level g) (m_flushOn g) st ss (m_queueCapacity g)
  (m_overflowPolicy g) (m_droppedCount g) (m_nextSequence g) (m_processedSequence g) (m_stopping g).
Definition set_counts d n p g := mkAsync (m_queue g) (m_level g) (m_flushOn g) (m_style g) (m_sinks g)
  (m_queueCapacity g) (m_overflowPolicy g) d n p (m_stopping g).
Definition set_stopping b g := mkAsync (m_queue g) (m_level g) (m_flushOn g) (m_style g) (m_sinks g)
  (m_queueCapacity g) (m_overflowPolicy g) (m_droppedCount g) (m_nextSequence g) (m_processedSequence g) b.

Definition with_logger (f : AsyncLogger → AsyncLogger) (s : State) : State :=
  mkState (f (logger s)) (worker s) (threads s) (accepted s) (handled s) (refused s) (calls s).
Definition goto_w (w : WorkerPC) (s : State) : State :=
  mkState (logger s) w (threads s) (accepted s) (handled s) (refused s) (calls s).
Definition goto (t : nat) (p : ThreadPC) (s : State) : State :=
  mkState (logger s) (worker s) (<[t := p]> (threads s)) (accepted s) (handled s) (refused s) (calls s).
Definition with_threads (ts : list ThreadPC) (s : State) : State :=
  mkState (logger s) (worker s) ts (accepted s) (handled s) (refused s) (calls s).
Definition call_sinks (cs : list (nat * SinkCall)) (s : State) : State :=
  mkState (logger s) (worker s) (threads s) (accepted s) (handled s) (refused s) (calls s ++ cs).
Definition refuse (s : State) : State :=
  mkState (logger s) (worker s) (threads s) (accepted s) (handled s) (S (refused s)) (calls s).
Definition accept (it : QueueItem) (s : State) : State :=
  mkState (set_queue (m_queue (logger s) ++ [it]) (logger s)) (worker s) (threads s) (accepted s ++ [it])
    (handled s) (refused s) (calls s).

(** ** The mutex and the condition variables *)

Definition holds (p : ThreadPC) : bool := match p with PChecked _ | FChecked _ => true | _ => false end.
Definition locked (s : State) : bool :=
  match worker s with WChecked _ => true | _ => false end || existsb holds (threads s).

Definition wake_cv (p : ThreadPC) : ThreadPC := match p with PBlocked it => PEnqueue it | p => p end.
Definition wake_worker (w : WorkerPC) : WorkerPC := match w with WBlocked fl => WLock fl | w => w end.
Definition wake_flush (p : ThreadPC) : ThreadPC := match p with FBlocked n => FWait n | p => p end.

(** [m_cv.notify_all()] and [m_flushCv.notify_all()] *)
Definition notify_cv (s : State) : State := goto_w (wake_worker (worker s)) (with_threads (wake_cv <$> threads s) s).
Definition notify_flush (s : State) : State := with_threads (wake_flush <$> threads s) s.

(** ** The members *)

Definition AsyncLogger_make (style : PatternStyle) (queueCapacity : nat) (policy : AsyncOverflowPolicy) (console : nat) :
    AsyncLogger :=
  mkAsync [] Info Error style [console] (if (queueCapacity =? 0)%nat then (Z.to_nat 8192) else queueCapacity) policy 0 0 0 false.

Definition shouldLog (l : Level) (g : AsyncLogger) : bool := (level_int (m_level g) <=? level_int l)%Z.

Definition full (g : AsyncLogger) : bool := (m_queueCapacity g <=? length (m_queue g))%nat.

(** Where [enqueueItem] returns to, with [false] *)
Definition not_taken (it : QueueItem) : ThreadPC := if flushOnly it then FCopy else Idle.

Definition enqueueItem (t : nat) (it : QueueItem) (s : State) : State :=
  let g := logger s in
  if m_stopping g then goto t (not_taken it) (refuse s)
  else if bool_decide (m_overflowPolicy g = Block) || flushOnly it then
    if full g then goto t (PChecked it) s else goto t (PNotify it) (accept it s)
  else if full g then
    goto t (not_taken it)
      (with_logger (set_counts (S (m_droppedCount g)) (m_nextSequence g) (m_processedSequence g)) s)
  else goto t (PNotify it) (accept it s).

Section steps.
(** [dbase::time::formatTimestampMs] *)
Context (dates : Z → str → str).

(** The calls for one item of a batch *)
Definition handle (k : Copies) (it : QueueItem) : list (nat * SinkCall) :=
  if flushOnly it then call_all (k_sinks k) Flush
  else emit dates (k_sinks k) (k_style k) (k_flushOn k) (event it).

Definition worker_step (s : State) : option State :=
  let g := logger s in
  match worker s with
  | WTop => Some (goto_w (WLock (m_flushOn g)) s)
  | WLock fl =>
      if locked s then None
      else match m_queue g with
           | [] => Some (goto_w (if m_stopping g then WFinal else WChecked fl) s)
           | batch => Some (goto_w (WNotify (mkCopies fl (m_sinks g) (m_style g)) batch) (with_logger (set_queue []) s))
           end
  | WChecked fl => Some (goto_w (WBlocked fl) s)
  | WBlocked _ => None
  | WNotify k batch => Some (goto_w (WBatch k batch) (notify_cv s))
  | WBatch k [] => Some (goto_w WTop s)
  | WBatch k (it :: batch) =>
      Some (mkState g (WStore k it batch) (threads s) (accepted s) (handled s ++ [(k, it)]) (refused s)
              (calls s ++ handle k it))
  | WStore k it batch =>
      Some (goto_w (WNotifyFlush k batch)
              (with_logger (set_counts (m_droppedCount g) (m_nextSequence g) (sequence it)) s))
  | WNotifyFlush k batch => Some (goto_w (WBatch k batch) (notify_flush s))
  | WFinal => if locked s then None else Some (goto_w (WFlush (m_sinks g)) s)
  | WFlush sinks => Some (goto_w WEnd (call_sinks (call_all sinks Flush) s))
  | WEnd => None
  end.

Definition thread_step (t : nat) (s : State) : option State :=
  let g := logger s in
  match threads s !! t with
  | None | Some Idle => None
  | Some (PSeq e fo) =>
      let n := S (m_nextSequence g) in
      Some (goto t (PEnqueue (mkItem e n fo))
              (with_logger (set_counts (m_droppedCount g) n (m_processedSequence g)) s))
  | Some (PEnqueue it) => if locked s then None else Some (enqueueItem t it s)
  | Some (PChecked it) => Some (goto t (PBlocked it) s)
  | Some (PBlocked _) => None
  | Some (PNotify it) => Some (goto t (if flushOnly it then FWait (sequence it) else Idle) (notify_cv s))
  | Some (FWait n) =>
      if locked s then None
      else Some (goto t (if (n <=? m_processedSequence g)%nat then Idle else FChecked n) s)
  | Some (FChecked n) => Some (goto t (FBlocked n) s)
  | Some (FBlocked _) => None
  | Some FCopy => if locked s then None else Some (goto t (FSinks (m_sinks g)) s)
  | Some (FSinks sinks) => Some (goto t Idle (call_sinks (call_all sinks Flush) s))
  | Some SNotify => Some (goto t SNotifyFlush (notify_cv s))
  | Some SNotifyFlush => Some (goto t SJoin (notify_flush s))
  | Some SJoin => match worker s with WEnd => Some (goto t Idle s) | _ => None end
  end.

Inductive Call : Type :=
  | CLog (e : LogEvent)
  | CFlush
  | CStop
  | CSetLevel (l : Level)
  | CSetFlushOn (l : Level)
  | CSetPatternStyle (st : PatternStyle)
  | CAddSink (sink : option nat)
  | CClearSinks.

(** Calls that lock for a moment *)
Definition brief (f : AsyncLogger → AsyncLogger) (s : State) : option State :=
  if locked s then None else Some (with_logger f s).

Definition begin (t : nat) (c : Call) (s : State) : option State :=
  let g := logger s in
  match c with
  | CLog e => Some (if shouldLog (level e) g then goto t (PSeq e false) s else s)
  | CFlush => Some (goto t (if m_stopping g then FCopy else PSeq LogEvent_default true) s)
  | CStop => Some (if m_stopping g then s else goto t SNotify (with_logger (set_stopping true) s))
  | CSetLevel l => Some (with_logger (set_levels l (m_flushOn g)) s)
  | CSetFlushOn l => Some (with_logger (set_levels (m_level g) l) s)
  | CSetPatternStyle st => brief (set_output st (m_sinks g)) s
  | CAddSink sink => match sink with None => Some s | Some x => brief (set_output (m_style g) (m_sinks g ++ [x])) s end
  | CClearSinks => brief (set_output (m_style g) []) s
  end.

Inductive Action : Type :=
  | Worker
  | Thread (t : nat)
  | Begin (t : nat) (c : Call)         (* a thread that is idle calls a member *)
  | Spurious (t : nat)                 (* wakes up without being notified *)
  | SpuriousWorker.

Definition exec (a : Action) (s : State) : option State :=
  match a with
  | Worker => worker_step s
  | Thread t => thread_step t s
  | Begin t c => match threads s !! t with Some Idle => begin t c s | _ => None end
  | Spurious t => match threads s !! t with Some p => Some (goto t (wake_flush (wake_cv p)) s) | None => None end
  | SpuriousWorker => Some (goto_w (wake_worker (worker s)) s)
  end.

Fixpoint run (acts : list Action) (s : State) : option State :=
  match acts with
  | [] => Some s
  | a :: acts => match exec a s with Some s' => run acts s' | None => None end
  end.

(** Steps that the threads take by themselves *)
Definition internal (a : Action) : bool := match a with Worker | Thread _ => true | _ => false end.

Definition at_rest (s : State) : Prop := ∀ a, internal a = true → exec a s = None.

End steps.

(** A new logger and [n] threads *)
Definition init (style : PatternStyle) (queueCapacity : nat) (policy : AsyncOverflowPolicy) (console n : nat) : State :=
  mkState (AsyncLogger_make style queueCapacity policy console) WTop (replicate n Idle) [] [] 0 [].

(** ** The invariant *)

Definition worker_items (w : WorkerPC) : list QueueItem :=
  match w with
  | WNotify _ b | WBatch _ b | WStore _ _ b | WNotifyFlush _ b => b
  | _ => []
  end.

(** The worker has left its loop. *)
Definition leaving (w : WorkerPC) : bool := match w with WFinal | WFlush _ | WEnd => true | _ => false end.

Definition is_write (c : nat * SinkCall) : bool := match c.2 with Write _ _ => true | Flush => false end.

(** Items that have a number and are not in the queue yet *)
Definition in_flight (p : ThreadPC) : nat := match p with PEnqueue _ | PChecked _ | PBlocked _ => 1%nat | _ => 0%nat end.

(** Threads about to notify [m_cv] *)
Definition notifying (p : ThreadPC) : nat := match p with PNotify _ | SNotify => 1%nat | _ => 0%nat end.

Definition writes (dates : Z → str → str) (h : list (Copies * QueueItem)) : list (nat * SinkCall) :=
  concat ((λ x, filter is_write (handle dates x.1 x.2)) <$> h).

Record inv (dates : Z → str → str) (s : State) : Prop := {
  iv_order : accepted s = (handled s).*2 ++ worker_items (worker s) ++ m_queue (logger s);
  iv_calls : filter is_write (calls s) = writes dates (handled s);
  iv_capacity : (length (m_queue (logger s)) ≤ m_queueCapacity (logger s))%nat ∧ (0 < m_queueCapacity (logger s))%nat;
  iv_count : (m_nextSequence (logger s) = length (accepted s) + m_droppedCount (logger s) + refused s
    + tally in_flight (threads s))%nat;
  iv_leaving : leaving (worker s) = true → m_stopping (logger s) = true ∧ m_queue (logger s) = [];
  iv_worker : match worker s with
              | WChecked _ => m_queue (logger s) = []
              | WBlocked _ => m_queue (logger s) = [] ∨ tally notifying (threads s) ≠ 0%nat
              | _ => True
              end;
  iv_blocked : ∀ t it, threads s !! t = Some (PBlocked it) →
    full (logger s) = true ∨ match worker s with WNotify _ _ => True | _ => False end;
  iv_checked : ∀ t it, threads s !! t = Some (PChecked it) → full (logger s) = true;
}.

Lemma filter_flushes sinks : filter is_write (call_all sinks Flush) = [].
Proof. unfold call_all. induction sinks as [|x sinks IH]; [done|]. cbn [fmap list_fmap]. by rewrite filter_cons_False by (by intros ?). Qed.

Lemma writes_snoc dates h x : writes dates (h ++ [x]) = writes dates h ++ filter is_write (handle dates x.1 x.2).
Proof. unfold writes. rewrite fmap_app, concat_app. cbn. by rewrite app_nil_r. Qed.

Lemma locked_worker s fl : locked s = false → worker s ≠ WChecked fl.
Proof. unfold locked. by intros H E; rewrite E in H. Qed.

Lemma locked_thread s t p : locked s = false → threads s !! t = Some p → holds p = false.
Proof.
  unfold locked. intros [_ H]%orb_false_iff Ht. destruct (holds p) eqn:E; [|done].
  rewrite (proj2 (existsb_exists _ _)) in H; [done|]. exists p. split; [|done].
  apply list_elem_of_In. by eapply list_elem_of_lookup_2.
Qed.

(** A thread goes on and the queue is as before. *)
Lemma inv_thread dates s t p p' g' ref' cs : inv dates s → threads s !! t = Some p →
  m_queue g' = m_queue (logger s) → m_queueCapacity g' = m_queueCapacity (logger s) →
  (m_stopping (logger s) = true → m_stopping g' = true) →
  (m_nextSequence g' + m_droppedCount (logger s) + refused s + in_flight p =
     m_nextSequence (logger s) + m_droppedCount g' + ref' + in_flight p')%nat →
  filter is_write cs = [] →
  ((notifying p ≤ notifying p')%nat ∨ ∀ fl, worker s ≠ WBlocked fl) →
  (∀ it, p' = PBlocked it ∨ p' = PChecked it → full (logger s) = true) →
  inv dates (mkState g' (worker s) (<[t := p']> (threads s)) (accepted s) (handled s) ref' (calls s ++ cs)).
Proof.
  intros [H1 H2 H3 H4 H5 H6 H7 H8] Ht Eq Ec Es En Hcs Hnt Hp.
  assert (Ef : full g' = full (logger s)) by (unfold full; by rewrite Eq, Ec).
  pose proof (tally_insert in_flight _ _ _ p' Ht). pose proof (tally_insert notifying _ _ _ p' Ht).
  split; cbn [logger worker threads accepted handled refused calls]; rewrite ?Eq, ?Ec, ?Ef; try done.
  - by rewrite filter_app, Hcs, app_nil_r.
  - lia.
  - intros Hl. destruct (H5 Hl). auto.
  - destruct (worker s) eqn:Ew; try done. destruct H6 as [?|?]; [by left|]. right.
    destruct Hnt as [?|Hn]; [lia|]. by destruct (Hn fl).
  - intros t' it [(-> & -> & _)|(Hne & Ht')]%list_lookup_insert_Some; [left; eauto|by eapply H7].
  - intros t' it [(-> & -> & _)|(Hne & Ht')]%list_lookup_insert_Some; [by eauto|by eapply H8].
Qed.

(** The same when the thread only moves *)
Lemma inv_move dates s t p p' : inv dates s → threads s !! t = Some p → in_flight p = in_flight p' →
  ((notifying p ≤ notifying p')%nat ∨ ∀ fl, worker s ≠ WBlocked fl) →
  (∀ it, p' = PBlocked it ∨ p' = PChecked it → full (logger s) = true) → inv dates (goto t p' s).
Proof.
  intros Hi Ht Hf Hn Hp. pose proof (inv_thread dates s t p p' (logger s) (refused s) [] Hi Ht) as H.
  rewrite app_nil_r in H. apply H; auto with lia.
Qed.

Lemma tally_fmap_same {A} (f : A → nat) (w : A → A) l : (∀ x, f (w x) = f x) → tally f (w <$> l) = tally f l.
Proof. intros H. induction l as [|x l IH]; [done|]. cbn [fmap list_fmap]. by rewrite !tally_cons, H, IH. Qed.

(** Nobody is left asleep. *)
Lemma inv_notify_cv dates s : inv dates s → inv dates (notify_cv s) ∧ ∀ fl, worker (notify_cv s) ≠ WBlocked fl.
Proof.
  intros [H1 H2 H3 H4 H5 H6 H7 H8]. split; [|by cbn; destruct (worker s)].
  assert (Hw : ∀ t p it, (wake_cv <$> threads s) !! t = Some p → p ≠ PBlocked it).
  { intros t p it (p0 & -> & _)%list_lookup_fmap_Some. by destruct p0. }
  split; cbn [notify_cv goto_w with_threads logger worker threads accepted handled refused calls]; try done.
  - rewrite H1. by destruct (worker s).
  - rewrite tally_fmap_same; [done|by intros []].
  - intros Hl. apply H5. by destruct (worker s).
  - by destruct (worker s).
  - intros t it Ht. by destruct (Hw _ _ it Ht).
  - intros t it (p0 & E & Ht)%list_lookup_fmap_Some. destruct p0; try done. injection E as ->. by eapply H8.
Qed.

Lemma inv_notify_flush dates s : inv dates s → inv dates (notify_flush s).
Proof.
  intros [H1 H2 H3 H4 H5 H6 H7 H8].
  split; cbn [notify_flush with_threads logger worker threads accepted handled refused calls]; try done.
  - rewrite tally_fmap_same; [done|by intros []].
  - destruct (worker s); try done. rewrite tally_fmap_same; [done|by intros []].
  - intros t it (p0 & E & Ht)%list_lookup_fmap_Some. destruct p0; try done. injection E as ->. by eapply H7.
  - intros t it (p0 & E & Ht)%list_lookup_fmap_Some. destruct p0; try done. injection E as ->. by eapply H8.
Qed.

Lemma notify_cv_lookup s t p : threads s !! t = Some p → threads (notify_cv s) !! t = Some (wake_cv p).
Proof. intros Ht. cbn. by rewrite list_lookup_fmap, Ht. Qed.

Lemma notify_flush_lookup s t p : threads s !! t = Some p → threads (notify_flush s) !! t = Some (wake_flush p).
Proof. intros Ht. cbn. by rewrite list_lookup_fmap, Ht. Qed.

(** ** Steps keep it *)

Lemma inv_accept dates s t it : inv dates s → threads s !! t = Some (PEnqueue it) → locked s = false →
  m_stopping (logger s) = false → full (logger s) = false → inv dates (goto t (PNotify it) (accept it s)).
Proof.
  intros [H1 H2 H3 H4 H5 H6 H7 H8] Ht Hl Hs Hf.
  pose proof (tally_insert in_flight _ _ _ (PNotify it) Ht) as Hi.
  pose proof (tally_insert notifying _ _ _ (PNotify it) Ht) as Hn. cbn [in_flight notifying] in *.
  assert (Hlen : (length (m_queue (logger s)) < m_queueCapacity (logger s))%nat).
  { unfold full in Hf. apply Nat.leb_gt in Hf. done. }
  split; cbn [goto accept logger worker threads accepted handled refused calls set_queue m_queue m_queueCapacity
    m_nextSequence m_droppedCount m_stopping]; rewrite ?length_app; cbn [length]; try done; try lia.
  - by rewrite H1, !app_assoc.
  - intros Hlv. destruct (H5 Hlv). congruence.
  - destruct (worker s) eqn:Ew; try done; [by destruct (locked_worker s fl)|]. right. lia.
  - intros t' it' [(_ & [=] & _)|(_ & Ht')]%list_lookup_insert_Some.
    destruct (H7 t' it' Ht') as [?|?]; [congruence|by right].
  - intros t' it' [(_ & [=] & _)|(_ & Ht')]%list_lookup_insert_Some.
    pose proof (locked_thread s t' _ Hl Ht') as [=].
Qed.

Lemma enqueue_inv dates s t it : inv dates s → threads s !! t = Some (PEnqueue it) → locked s = false →
  inv dates (enqueueItem t it s).
Proof.
  intros Hi Ht Hl. unfold enqueueItem. cbv zeta.
  assert (Hfail : in_flight (not_taken it) = 0%nat ∧ notifying (not_taken it) = 0%nat) by (unfold not_taken; by destruct (flushOnly it)).
  assert (Hno : ∀ it', not_taken it = PBlocked it' ∨ not_taken it = PChecked it' → full (logger s) = true).
  { unfold not_taken. destruct (flushOnly it); naive_solver. }
  destruct Hfail as [F1 F2].
  destruct (m_stopping (logger s)) eqn:Es.
  { pose proof (inv_thread dates s t _ (not_taken it) (logger s) (S (refused s)) [] Hi Ht) as H. rewrite app_nil_r in H.
    apply H; try done; [rewrite F1; cbn; lia|left; cbn; lia]. }
  assert (Hdrop : full (logger s) = true → inv dates (goto t (not_taken it) (with_logger (set_counts
    (S (m_droppedCount (logger s))) (m_nextSequence (logger s)) (m_processedSequence (logger s))) s))).
  { intros Hf. pose proof (inv_thread dates s t _ (not_taken it) (set_counts
      (S (m_droppedCount (logger s))) (m_nextSequence (logger s)) (m_processedSequence (logger s)) (logger s))
      (refused s) [] Hi Ht) as H. rewrite app_nil_r in H. apply H; try done; [rewrite F1; cbn; lia|left; cbn; lia]. }
  destruct (_ || _); destruct (full (logger s)) eqn:Ef; auto using inv_accept.
  eapply inv_move; try done. by left.
Qed.

Lemma thread_step_inv dates t s s' : inv dates s → thread_step t s = Some s' → inv dates s'.
Proof.
  intros Hi. unfold thread_step. cbv zeta. destruct (threads s !! t) as [p|] eqn:Ht; [|done].
  destruct p as [|e fo|it|it|it|it|n|n|n| |sinks| | |]; try done.
  - intros [= <-]. pose proof (inv_thread dates s t _ (PEnqueue (mkItem e (S (m_nextSequence (logger s))) fo))
      (set_counts (m_droppedCount (logger s)) (S (m_nextSequence (logger s))) (m_processedSequence (logger s)) (logger s))
      (refused s) [] Hi Ht) as H. rewrite app_nil_r in H. apply H; try done; [cbn; lia|by left|naive_solver].
  - destruct (locked s) eqn:Hl; [done|]. intros [= <-]. by apply enqueue_inv.
  - intros [= <-]. eapply inv_move; try done; [by left|]. intros it' _. by eapply iv_checked.
  - intros [= <-]. destruct (inv_notify_cv dates s Hi) as [Hi' Hw]. eapply inv_move; [done|by apply notify_cv_lookup|..].
    + by destruct (flushOnly it).
    + by right.
    + destruct (flushOnly it); naive_solver.
  - destruct (locked s); [done|]. intros [= <-]. eapply inv_move; try done; destruct (_ <=? _)%nat; try done; try (by left); naive_solver.
  - intros [= <-]. eapply inv_move; try done; [by left|naive_solver].
  - destruct (locked s); [done|]. intros [= <-]. eapply inv_move; try done; [by left|naive_solver].
  - intros [= <-]. apply (inv_thread dates s t (FSinks sinks) Idle (logger s) (refused s)); try done;
      [by apply filter_flushes|by left|naive_solver].
  - intros [= <-]. destruct (inv_notify_cv dates s Hi) as [Hi' Hw]. eapply inv_move; [done|by apply notify_cv_lookup|done|by right|naive_solver].
  - intros [= <-]. eapply inv_move; [by apply inv_notify_flush|by apply notify_flush_lookup|done|by left|naive_solver].
  - destruct (worker s) eqn:Ew; try done. intros [= <-]. eapply inv_move; try done; [by left|naive_solver].
Qed.

(** The worker moves, and what it has taken over is the same. *)
Lemma inv_goto_w dates s w' : inv dates s → worker_items w' = worker_items (worker s) →
  (leaving w' = true → m_stopping (logger s) = true ∧ m_queue (logger s) = []) →
  match w' with
  | WChecked _ => m_queue (logger s) = []
  | WBlocked _ => m_queue (logger s) = [] ∨ tally notifying (threads s) ≠ 0%nat
  | _ => True
  end →
  (match worker s with WNotify _ _ => ∀ t it, threads s !! t ≠ Some (PBlocked it) | _ => True end) →
  inv dates (goto_w w' s).
Proof.
  intros [H1 H2 H3 H4 H5 H6 H7 H8] Ew Hl Hw Hn. split; try done; [by cbn; rewrite Ew|].
  intros t it Ht. cbn in Ht |- *. destruct (H7 t it Ht) as [?|Hm]; [by left|]. destruct (worker s); try done. by destruct (Hn t it).
Qed.

Lemma filter_handle dates k it : filter is_write (handle dates k it) = writes dates [(k, it)].
Proof. unfold writes. cbn. by rewrite app_nil_r. Qed.

Lemma worker_step_inv dates s s' : inv dates s → worker_step dates s = Some s' → inv dates s'.
Proof.
  intros Hi. unfold worker_step. cbv zeta. destruct (worker s) as [|fl|fl|fl|k b|k b|k it b|k b| |sinks|] eqn:Ew; try done.
  - intros [= <-]. apply inv_goto_w; rewrite ?Ew; done.
  - destruct (locked s) eqn:Hl; [done|]. destruct (m_queue (logger s)) as [|it q] eqn:Eq; intros [= <-].
    + apply inv_goto_w; rewrite ?Ew, ?Eq; destruct (m_stopping (logger s)) eqn:Es; try done; by rewrite Eq.
    + destruct Hi as [H1 H2 H3 H4 H5 H6 H7 H8].
      split; cbn [goto_w with_logger set_queue logger worker threads accepted handled refused calls m_queue m_queueCapacity
        m_nextSequence m_droppedCount m_stopping worker_items]; try done; rewrite ?app_nil_r.
      * by rewrite H1, Ew, Eq.
      * cbn. lia.
      * intros t it' Ht. by right.
      * intros t it' Ht. pose proof (locked_thread s t _ Hl Ht) as [=].
  - intros [= <-]. pose proof (iv_worker _ _ Hi) as Hw. rewrite Ew in Hw. apply inv_goto_w; rewrite ?Ew; try done; auto.
  - intros [= <-]. destruct (inv_notify_cv dates s Hi) as [Hi' Hw]. apply inv_goto_w; cbn; rewrite ?Ew; try done.
    intros t it (p0 & E & Ht)%list_lookup_fmap_Some. by destruct p0.
  - destruct b as [|it b]; intros [= <-]; [apply inv_goto_w; rewrite ?Ew; done|].
    destruct Hi as [H1 H2 H3 H4 H5 H6 H7 H8].
    split; cbn [logger worker threads accepted handled refused calls worker_items]; try done.
    + rewrite H1, Ew, fmap_app, <- app_assoc. done.
    + by rewrite filter_app, H2, writes_snoc.
    + intros t it' Ht. destruct (H7 t it' Ht) as [?|Hm]; [by left|]. by rewrite Ew in Hm.
  - intros [= <-]. destruct Hi as [H1 H2 H3 H4 H5 H6 H7 H8].
    split; cbn [goto_w with_logger set_counts logger worker threads accepted handled refused calls worker_items m_queue
      m_queueCapacity m_nextSequence m_droppedCount m_stopping]; try done; [by rewrite H1, Ew|].
    intros t it' Ht. destruct (H7 t it' Ht) as [?|Hm]; [by left|]. by rewrite Ew in Hm.
  - intros [= <-]. pose proof (inv_notify_flush dates s Hi) as Hi'. apply inv_goto_w; cbn; rewrite ?Ew; done.
  - destruct (locked s); [done|]. intros [= <-]. pose proof (iv_leaving _ _ Hi) as Hl. rewrite Ew in Hl.
    apply inv_goto_w; rewrite ?Ew; try done; auto.
  - intros [= <-]. pose proof (iv_leaving _ _ Hi) as Hl. rewrite Ew in Hl.
    destruct Hi as [H1 H2 H3 H4 H5 H6 H7 H8].
    split; cbn [goto_w call_sinks logger worker threads accepted handled refused calls worker_items]; try done; auto.
    + by rewrite H1, Ew.
    + by rewrite filter_app, H2, filter_flushes, app_nil_r.
    + intros t it' Ht. destruct (H7 t it' Ht) as [?|Hm]; [by left|]. by rewrite Ew in Hm.
Qed.

Lemma with_logger_inv dates s f : inv dates s → m_queue (f (logger s)) = m_queue (logger s) →
  m_queueCapacity (f (logger s)) = m_queueCapacity (logger s) →
  (m_stopping (logger s) = true → m_stopping (f (logger s)) = true) →
  m_nextSequence (f (logger s)) = m_nextSequence (logger s) → m_droppedCount (f (logger s)) = m_droppedCount (logger s) →
  inv dates (with_logger f s).
Proof.
  intros [H1 H2 H3 H4 H5 H6 H7 H8] E1 E2 E3 E4 E5.
  assert (Ef : full (f (logger s)) = full (logger s)) by (unfold full; by rewrite E1, E2).
  split; cbn [with_logger logger worker threads accepted handled refused calls]; rewrite ?E1, ?E2, ?E4, ?E5, ?Ef; try done.
  intros Hl. destruct (H5 Hl). auto.
Qed.

Lemma begin_inv dates t c s s' : inv dates s → threads s !! t = Some Idle → begin t c s = Some s' → inv dates s'.
Proof.
  intros Hi Ht. unfold begin, brief. cbv zeta.
  destruct c as [e| | |l|l|st|sink|].
  - intros [= <-]. destruct (shouldLog _ _); [|done]. eapply inv_move; try done; [by left|naive_solver].
  - intros [= <-]. eapply inv_move; try done; destruct (m_stopping (logger s)); try done; try (by left); naive_solver.
  - intros [= <-]. destruct (m_stopping (logger s)); [done|].
    eapply inv_move; [by apply with_logger_inv|done|done|left; cbn; lia|naive_solver].
  - intros [= <-]. by apply with_logger_inv.
  - intros [= <-]. by apply with_logger_inv.
  - destruct (locked s); [done|]. intros [= <-]. by apply with_logger_inv.
  - destruct sink; [|by intros [= <-]]. destruct (locked s); [done|]. intros [= <-]. by apply with_logger_inv.
  - destruct (locked s); [done|]. intros [= <-]. by apply with_logger_inv.
Qed.

Lemma exec_inv dates a s s' : inv dates s → exec dates a s = Some s' → inv dates s'.
Proof.
  intros Hi. destruct a as [|t|t c|t|]; cbn [exec].
  - by apply worker_step_inv.
  - by apply thread_step_inv.
  - destruct (threads s !! t) as [[]|] eqn:Ht; try done. by apply begin_inv.
  - destruct (threads s !! t) as [p|] eqn:Ht; [|done]. intros [= <-].
    eapply inv_move; [done|done|by destruct p|left; by destruct p|].
    intros it H. apply (iv_checked _ _ Hi t it). destruct p; naive_solver.
  - intros [= <-]. assert (Hid : goto_w (worker s) s = s) by by destruct s.
    destruct (worker s) eqn:Ew; cbn [wake_worker]; rewrite ?Hid; try done. apply inv_goto_w; rewrite ?Ew; done.
Qed.

Lemma run_inv dates acts : ∀ s s', inv dates s → run dates acts s = Some s' → inv dates s'.
Proof.
  induction acts as [|a acts IH]; intros s s' Hi; cbn [run]; [by intros [= <-]|].
  destruct (exec dates a s) as [s1|] eqn:E; [|done]. apply IH. by eapply exec_inv.
Qed.

Lemma logger_init_inv dates style cap policy console n : inv dates (init style cap policy console n).
Proof.
  assert (Hz : ∀ f : ThreadPC → nat, f Idle = 0%nat → tally f (replicate n Idle) = 0%nat).
  { intros f Hf. apply tally_zero. by apply Forall_replicate. }
  split; cbn [init AsyncLogger_make logger worker threads accepted handled refused calls m_queue m_queueCapacity m_nextSequence
    m_droppedCount]; try done.
  - destruct (Nat.eqb_spec cap 0); cbn [length]; lia.
  - by rewrite Hz.
  - intros t it [H _]%lookup_replicate. done.
  - intros t it [H _]%lookup_replicate. done.
Qed.

(** ** Steps come to an end

    [notice] pays for waking everybody, [unit_cost] for an item of a batch, [item_cost] for one
    in the queue, which may also have to pay for a batch. *)

Section measure.
Context (n : nat).   (* threads *)
Definition notice : nat := 2 * n + 4.
Definition unit_cost : nat := notice + 2.
Definition item_cost : nat := unit_cost + notice + 3.
Definition entry_cost : nat := item_cost + notice + 4.

Definition worker_weight (w : WorkerPC) : nat :=
  match w with
  | WTop => 4
  | WLock _ => 3
  | WChecked _ => 1
  | WBlocked _ => 0
  | WNotify _ b => 5 + unit_cost * length b + notice
  | WBatch _ b => 5 + unit_cost * length b
  | WStore _ _ b => 5 + unit_cost * length b + notice + 1
  | WNotifyFlush _ b => 5 + unit_cost * length b + notice
  | WFinal => 2
  | WFlush _ => 1
  | WEnd => 0
  end.

Definition thread_weight (p : ThreadPC) : nat :=
  match p with
  | Idle => 0
  | PSeq _ _ => entry_cost + 3
  | PEnqueue _ => entry_cost + 2
  | PChecked _ => entry_cost + 1
  | PBlocked _ => entry_cost
  | PNotify _ => notice + 3
  | FWait _ => 2
  | FChecked _ => 1
  | FBlocked _ => 0
  | FCopy => 2
  | FSinks _ => 1
  | SNotify => 1 + 2 * notice
  | SNotifyFlush => 1 + notice
  | SJoin => 1
  end.
End measure.

Definition measure (s : State) : nat :=
  let n := length (threads s) in
  worker_weight n (worker s) + tally (thread_weight n) (threads s) + item_cost n * length (m_queue (logger s)).

Lemma tally_fmap_bound {A} (f : A → nat) (w : A → A) c l : (∀ x, f (w x) ≤ f x + c)%nat →
  (tally f (w <$> l) ≤ tally f l + c * length l)%nat.
Proof.
  intros H. induction l as [|x l IH]; [cbn; lia|]. cbn [fmap list_fmap length]. rewrite !tally_cons. specialize (H x). lia.
Qed.

(** What notifying costs *)
Lemma notify_cv_measure s t p : threads s !! t = Some p → wake_cv p = p →
  ∀ p', (thread_weight (length (threads s)) p' + notice (length (threads s)) ≤ thread_weight (length (threads s)) p)%nat →
  (measure (goto t p' (notify_cv s)) < measure s)%nat.
Proof.
  intros Ht Hp p' Hle. unfold measure. cbn [goto notify_cv goto_w with_threads logger worker threads].
  rewrite length_insert, length_fmap. set (n := length (threads s)) in *.
  assert (Ht' : (wake_cv <$> threads s) !! t = Some p) by (rewrite list_lookup_fmap, Ht; cbn; by rewrite Hp).
  pose proof (tally_insert (thread_weight n) _ _ _ p' Ht') as E.
  pose proof (tally_fmap_bound (thread_weight n) wake_cv 2 (threads s) ltac:(intros []; cbn; lia)) as E2. fold n in E2.
  assert (worker_weight n (wake_worker (worker s)) ≤ worker_weight n (worker s) + 3)%nat by (destruct (worker s); cbn; lia).
  unfold notice in *. lia.
Qed.

Lemma notify_flush_measure s : 
  (tally (thread_weight (length (threads s))) (wake_flush <$> threads s) ≤
   tally (thread_weight (length (threads s))) (threads s) + 2 * length (threads s))%nat.
Proof. apply tally_fmap_bound. intros []; cbn; lia. Qed.

Lemma goto_measure s t p p' : threads s !! t = Some p →
  (thread_weight (length (threads s)) p' < thread_weight (length (threads s)) p)%nat →
  ∀ g' cs acc ref, (length (m_queue g') = length (m_queue (logger s)))%nat →
  (measure (mkState g' (worker s) (<[t := p']> (threads s)) acc (handled s) ref cs) < measure s)%nat.
Proof.
  intros Ht Hlt g' cs acc ref Hq. unfold measure. cbn [logger worker threads]. rewrite length_insert, Hq.
  pose proof (tally_insert (thread_weight (length (threads s))) _ _ _ p' Ht). lia.
Qed.

Lemma enqueue_measure s t it : threads s !! t = Some (PEnqueue it) → (measure (enqueueItem t it s) < measure s)%nat.
Proof.
  intros Ht. unfold enqueueItem. cbv zeta. set (n := length (threads s)).
  assert (Hn : (thread_weight n (not_taken it) ≤ 2)%nat) by (unfold not_taken; destruct (flushOnly it); cbn; lia).
  assert (Hacc : (measure (goto t (PNotify it) (accept it s)) < measure s)%nat).
  { unfold measure. cbn [goto accept logger worker threads m_queue set_queue]. rewrite length_insert, length_app. fold n.
    pose proof (tally_insert (thread_weight n) _ _ _ (PNotify it) Ht) as E. cbn [thread_weight] in E. unfold entry_cost in E.
    cbn [length]. lia. }
  destruct (m_stopping (logger s)); [|destruct (_ || _); destruct (full (logger s)); try done];
    apply (goto_measure s t (PEnqueue it) _ Ht); try done; cbn [thread_weight]; fold n; unfold entry_cost; lia.
Qed.

Lemma thread_measure t s s' : thread_step t s = Some s' → (measure s' < measure s)%nat.
Proof.
  unfold thread_step. cbv zeta. destruct (threads s !! t) as [p|] eqn:Ht; [|done].
  destruct p as [|e fo|it|it|it|it|n|n|n| |sinks| | |]; try done.
  - intros [= <-]. apply (goto_measure s t _ _ Ht); try done. cbn; lia.
  - destruct (locked s); [done|]. intros [= <-]. by apply enqueue_measure.
  - intros [= <-]. apply (goto_measure s t _ _ Ht); try done. cbn; lia.
  - intros [= <-]. eapply notify_cv_measure; [done|done|]. destruct (flushOnly it); cbn; lia.
  - destruct (locked s); [done|]. intros [= <-]. apply (goto_measure s t _ _ Ht); try done. destruct (_ <=? _)%nat; cbn; lia.
  - intros [= <-]. apply (goto_measure s t _ _ Ht); try done. cbn; lia.
  - destruct (locked s); [done|]. intros [= <-]. apply (goto_measure s t _ _ Ht); try done. cbn; lia.
  - intros [= <-]. apply (goto_measure s t _ _ Ht); try done. cbn; lia.
  - intros [= <-]. eapply notify_cv_measure; [done|done|]. cbn; lia.
  - intros [= <-]. unfold measure. cbn [goto notify_flush with_threads logger worker threads].
    rewrite length_insert, length_fmap. pose proof (notify_flush_measure s) as E. set (n := length (threads s)) in *.
    pose proof (tally_insert (thread_weight n) _ _ _ SJoin (notify_flush_lookup s t _ Ht)) as E2.
    cbn [wake_flush thread_weight notify_flush with_threads threads] in E2.
    unfold notice in *. lia.
  - destruct (worker s) eqn:Ew; try done. intros [= <-]. apply (goto_measure s t _ _ Ht); try done. cbn; lia.
Qed.

Lemma worker_measure dates s s' : worker_step dates s = Some s' → (measure s' < measure s)%nat.
Proof.
  unfold worker_step. cbv zeta. unfold measure. set (n := length (threads s)).
  destruct (worker s) as [|fl|fl|fl|k b|k b|k it b|k b| |sinks|] eqn:Ew; try done.
  - intros [= <-]. cbn [goto_w logger worker threads worker_weight]. fold n. lia.
  - destruct (locked s); [done|]. destruct (m_queue (logger s)) as [|it q] eqn:Eq; intros [= <-].
    + cbn [goto_w logger worker threads]. fold n. rewrite Eq. cbn [length]. destruct (m_stopping (logger s)); cbn [worker_weight]; lia.
    + cbn [goto_w with_logger set_queue logger worker threads m_queue worker_weight length]. fold n. unfold item_cost. lia.
  - intros [= <-]. cbn [goto_w logger worker threads worker_weight]. fold n. lia.
  - intros [= <-]. cbn [goto_w notify_cv with_threads logger worker threads worker_weight]. rewrite length_fmap. fold n.
    pose proof (tally_fmap_bound (thread_weight n) wake_cv 2 (threads s) ltac:(intros []; cbn; lia)) as E. fold n in E.
    unfold notice. lia.
  - destruct b as [|it b]; intros [= <-]; cbn [goto_w logger worker threads worker_weight length]; fold n; unfold unit_cost; lia.
  - intros [= <-]. cbn [goto_w with_logger set_counts logger worker threads worker_weight m_queue]. fold n. lia.
  - intros [= <-]. cbn [goto_w notify_flush with_threads logger worker threads worker_weight]. rewrite length_fmap. fold n.
    pose proof (notify_flush_measure s) as E. fold n in E. unfold notice. lia.
  - destruct (locked s); [done|]. intros [= <-]. cbn [goto_w logger worker threads worker_weight]. fold n. lia.
  - intros [= <-]. cbn [goto_w call_sinks logger worker threads worker_weight]. fold n. lia.
Qed.

Lemma run_measure dates acts : ∀ s s', forallb internal acts = true → run dates acts s = Some s' →
  (length acts + measure s' ≤ measure s)%nat.
Proof.
  induction acts as [|a acts IH]; intros s s' Ha; cbn [run length]; [by intros [= <-]; lia|].
  cbn in Ha. apply andb_true_iff in Ha as [Ha Has]. destruct (exec dates a s) as [s1|] eqn:E; [|done]. intros Hr.
  specialize (IH _ _ Has Hr).
  assert (measure s1 < measure s)%nat by (destruct a; try done; [by eapply worker_measure|by eapply thread_measure]). lia.
Qed.

(** ** At rest *)

Lemma rest_unlocked dates s : at_rest dates s → locked s = false.
Proof.
  intros Hr. unfold locked. apply orb_false_iff. split.
  - pose proof (Hr Worker eq_refl) as Hw. cbn in Hw. unfold worker_step in Hw. destruct (worker s); done.
  - destruct (existsb holds (threads s)) eqn:E; [|done]. apply existsb_exists in E as (p & Hp & Hh).
    apply list_elem_of_In, list_elem_of_lookup in Hp as [t Ht]. pose proof (Hr (Thread t) eq_refl) as H. cbn in H.
    unfold thread_step in H. rewrite Ht in H. by destruct p.
Qed.

Lemma rest_logger_worker dates s : at_rest dates s → worker s = WEnd ∨ ∃ fl, worker s = WBlocked fl.
Proof.
  intros Hr. pose proof (rest_unlocked dates s Hr) as Hl. pose proof (Hr Worker eq_refl) as Hw. cbn in Hw.
  unfold worker_step in Hw. rewrite Hl in Hw. destruct (worker s); try done; eauto; [by destruct (m_queue (logger s))|by destruct batch].
Qed.

Lemma rest_thread dates s t p : at_rest dates s → threads s !! t = Some p →
  p = Idle ∨ (∃ it, p = PBlocked it) ∨ (∃ n, p = FBlocked n) ∨ p = SJoin ∧ worker s ≠ WEnd.
Proof.
  intros Hr Ht. pose proof (rest_unlocked dates s Hr) as Hl. pose proof (Hr (Thread t) eq_refl) as H. cbn in H.
  unfold thread_step in H. rewrite Ht, Hl in H. destruct p; try done; eauto 6. destruct (worker s); try done; do 3 right; by split.
Qed.

Lemma rest_done dates s : inv dates s → at_rest dates s →
  m_queue (logger s) = [] ∧ accepted s = (handled s).*2 ∧
  ∀ t p, threads s !! t = Some p → p = Idle ∨ (∃ n, p = FBlocked n) ∨ p = SJoin ∧ worker s ≠ WEnd.
Proof.
  intros Hi Hr.
  assert (Hn : tally notifying (threads s) = 0%nat).
  { apply tally_zero, Forall_lookup. intros t p Ht.
    destruct (rest_thread dates s t p Hr Ht) as [->|[[it ->]|[[n ->]|[-> _]]]]; done. }
  assert (Hq : m_queue (logger s) = []).
  { pose proof (iv_worker _ _ Hi) as Hw. pose proof (iv_leaving _ _ Hi) as Hl.
    destruct (rest_logger_worker dates s Hr) as [Ew|[fl Ew]]; rewrite Ew in *; [by apply Hl|]. by destruct Hw. }
  split_and!; [done| |].
  - rewrite (iv_order _ _ Hi), Hq. destruct (rest_logger_worker dates s Hr) as [Ew|[fl Ew]]; rewrite Ew; cbn; by rewrite app_nil_r.
  - intros t p Ht. destruct (rest_thread dates s t p Hr Ht) as [?|[[it ->]|?]]; auto. exfalso.
    destruct (iv_blocked _ _ Hi t it Ht) as [Hf|Hf].
    + unfold full in Hf. apply Nat.leb_le in Hf. rewrite Hq in Hf. pose proof (iv_capacity _ _ Hi) as [_ ?]. cbn in Hf. lia.
    + by destruct (rest_logger_worker dates s Hr) as [Ew|[fl Ew]]; rewrite Ew in Hf.
Qed.

(** ** The theorems *)

(** C14: nothing accepted is lost, in every interleaving: the items that entered the queue are,
    in this order, those the worker has handled, those of its batch, and those in the queue,
    which never exceeds its capacity; the writes that the sinks see are those that
    [Logger::log] would make for the handled items, in order, with the sinks, style and level
    that the worker copied; every item that got a number was accepted, dropped, refused
    because of [stop], or is on its way; and when the worker has ended (so when [stop] has
    returned to the caller that stopped it) everything accepted was written. *)
Theorem logger_in_order dates style cap policy console n acts s :
  run dates acts (init style cap policy console n) = Some s →
  accepted s = (handled s).*2 ++ worker_items (worker s) ++ m_queue (logger s) ∧
  (length (m_queue (logger s)) ≤ m_queueCapacity (logger s))%nat ∧
  filter is_write (calls s) = writes dates (handled s) ∧
  (m_nextSequence (logger s) = length (accepted s) + m_droppedCount (logger s) + refused s
     + tally in_flight (threads s))%nat ∧
  (worker s = WEnd → m_stopping (logger s) = true ∧ accepted s = (handled s).*2).
Proof.
  intros Hr. pose proof (run_inv dates acts _ _ (logger_init_inv dates style cap policy console n) Hr) as Hi.
  pose proof Hi as [H1 H2 [H3 _] H4 H5 _ _ _]. split_and!; try done. intros Ew. rewrite Ew in *.
  destruct (H5 eq_refl) as [Hs Hq]. split; [done|]. rewrite H1, Hq. cbn. by rewrite app_nil_r.
Qed.

(** C15: the worker catches up: from every reachable state the threads take at most [measure s]
    steps by themselves, and when none of them can move the queue is empty, everything
    accepted was handled, and no thread is blocked in [log]; a thread that does not return is
    waiting in [flush], or in the [join] of [stop] for a worker that sleeps. *)
Theorem logger_drains dates style cap policy console n acts s acts' s' :
  run dates acts (init style cap policy console n) = Some s →
  forallb internal acts' = true → run dates acts' s = Some s' →
  (length acts' ≤ measure s)%nat ∧
  (at_rest dates s' →
     m_queue (logger s') = [] ∧ accepted s' = (handled s').*2 ∧
     ∀ t p, threads s' !! t = Some p → p = Idle ∨ (∃ k, p = FBlocked k) ∨ p = SJoin ∧ worker s' ≠ WEnd).
Proof.
  intros Hr Ha Hr'. pose proof (run_inv dates acts _ _ (logger_init_inv dates style cap policy console n) Hr) as Hi.
  pose proof (run_measure dates acts' s s' Ha Hr') as Hm. split; [lia|].
  intros Hrest. apply (rest_done dates); [|done]. by eapply run_inv.
Qed.

(** ** Runs *)

Definition ex_dates : Z → str → str := λ _ _, [].
Definition ex_event : LogEvent := mkEvent Warn (lit "m") [] [] 1 2 3 4.

(** No thread can move: cases for up to two threads *)
Ltac resting :=
  intros [|t| | |]; intros; try discriminate; [vm_compute; reflexivity|];
  destruct t as [|[|t]]; vm_compute; reflexivity.

Definition after (acts : list Action) (s : State) : State := default s (run ex_dates acts s).

(** Two threads log, one is refused for lack of room; then the logger is stopped. *)
Definition ex_log : list Action :=
  [Begin 0 (CLog ex_event); Begin 1 (CLog ex_event); Thread 0; Thread 1; Thread 0; Thread 1; Thread 0;
   Worker; Worker; Worker; Worker; Worker; Worker; Worker; Begin 1 CStop].
Definition ex_stop : list Action := [Thread 1; Worker; Worker; Worker; Worker; Thread 1; Thread 1].

Lemma logger_in_order_witness : ∃ s,
  run ex_dates (ex_log ++ ex_stop) (init Compact 1 DiscardNewest 7 2) = Some s ∧ worker s = WEnd ∧
  length (accepted s) = 1%nat ∧ m_droppedCount (logger s) = 1%nat ∧ accepted s = (handled s).*2.
Proof.
  assert (E : ∃ s, run ex_dates (ex_log ++ ex_stop) (init Compact 1 DiscardNewest 7 2) = Some s ∧ worker s = WEnd ∧
    length (accepted s) = 1%nat ∧ m_droppedCount (logger s) = 1%nat) by (vm_compute; eexists; repeat split; reflexivity).
  destruct E as (s & E & Hw & Ha & Hd).
  destruct (logger_in_order ex_dates Compact 1 DiscardNewest 7 2 (ex_log ++ ex_stop) s E) as (_ & _ & _ & _ & H).
  exists s. exact (conj E (conj Hw (conj Ha (conj Hd (proj2 (H Hw)))))).
Defined.

Lemma logger_drains_witness : ∃ s s',
  run ex_dates ex_log (init Compact 1 DiscardNewest 7 2) = Some s ∧ run ex_dates ex_stop s = Some s' ∧
  at_rest ex_dates s' ∧ m_queue (logger s') = [] ∧ accepted s' = (handled s').*2.
Proof.
  assert (E : ∃ s s', run ex_dates ex_log (init Compact 1 DiscardNewest 7 2) = Some s ∧ run ex_dates ex_stop s = Some s' ∧
    at_rest ex_dates s').
  { exists (after ex_log (init Compact 1 DiscardNewest 7 2)), (after (ex_log ++ ex_stop) (init Compact 1 DiscardNewest 7 2)).
    split; [vm_compute; reflexivity|]. split; [vm_compute; reflexivity|]. resting. }
  destruct E as (s & s' & E & E' & Hr).
  destruct (logger_drains ex_dates Compact 1 DiscardNewest 7 2 ex_log s ex_stop s' E eq_refl E') as [_ H].
  destruct (H Hr) as (Hq & Ha & _). exists s, s'. exact (conj E (conj E' (conj Hr (conj Hq Ha)))).
Defined.

(** [stop] sets the flag and notifies between the check and the blocking of the worker: [join]
    never returns. *)
Theorem stop_can_hang : ∃ s,
  run ex_dates [Worker; Worker; Begin 0 CStop; Thread 0; Worker; Thread 0] (init Compact 1 Block 7 1) = Some s ∧
  at_rest ex_dates s ∧ threads s = [SJoin].
Proof.
  exists (after [Worker; Worker; Begin 0 CStop; Thread 0; Worker; Thread 0] (init Compact 1 Block 7 1)).
  split; [vm_compute; reflexivity|]. split; [resting|vm_compute; reflexivity].
Qed.

(** The worker stores the number and notifies between the check and the blocking of [flush]. *)
Theorem flush_can_hang : ∃ s,
  run ex_dates [Begin 0 CFlush; Thread 0; Thread 0; Worker; Worker; Thread 0; Worker; Thread 0; Worker; Worker; Worker;
    Thread 0; Worker; Worker; Worker; Worker] (init Compact 1 Block 7 1) = Some s ∧
  at_rest ex_dates s ∧ threads s = [FBlocked 1] ∧ m_processedSequence (logger s) = 1%nat.
Proof.
  exists (after [Begin 0 CFlush; Thread 0; Thread 0; Worker; Worker; Thread 0; Worker; Thread 0; Worker; Worker; Worker;
    Thread 0; Worker; Worker; Worker; Worker] (init Compact 1 Block 7 1)).
  split; [vm_compute; reflexivity|]. split; [resting|vm_compute; split; reflexivity].
Qed.

(** Numbers are taken before the mutex: the items of two calls of [flush] enter the queue in the
    other order, the number goes back, and one caller waits for ever. *)
Theorem flush_numbers_go_back : ∃ s,
  run ex_dates [Begin 0 CFlush; Begin 1 CFlush; Thread 0; Thread 1; Thread 1; Thread 1; Thread 0; Thread 0;
    Worker; Worker; Worker; Worker; Worker; Worker; Worker; Worker; Worker; Worker; Worker; Worker; Worker;
    Thread 0; Thread 1; Thread 1] (init Compact 2 Block 7 2) = Some s ∧
  at_rest ex_dates s ∧ threads s = [Idle; FBlocked 2] ∧ length (handled s) = 2%nat.
Proof.
  exists (after [Begin 0 CFlush; Begin 1 CFlush; Thread 0; Thread 1; Thread 1; Thread 1; Thread 0; Thread 0;
    Worker; Worker; Worker; Worker; Worker; Worker; Worker; Worker; Worker; Worker; Worker; Worker; Worker;
    Thread 0; Thread 1; Thread 1] (init Compact 2 Block 7 2)).
  split; [vm_compute; reflexivity|]. split; [resting|vm_compute; split; reflexivity].
Qed.

(** An item with a larger number is handled first: [flush] returns while its own item is still
    in the queue, and no sink was flushed. *)
Theorem flush_returns_early : ∃ s,
  run ex_dates [Begin 0 CFlush; Thread 0; Begin 1 (CLog ex_event); Thread 1; Thread 1; Thread 1;
    Worker; Worker; Worker; Worker; Worker; Worker; Thread 0; Thread 0; Thread 0] (init Compact 2 Block 7 2) = Some s ∧
  threads s = [Idle; Idle] ∧ length (m_queue (logger s)) = 1%nat ∧ forallb is_write (calls s) = true.
Proof.
  exists (after [Begin 0 CFlush; Thread 0; Begin 1 (CLog ex_event); Thread 1; Thread 1; Thread 1;
    Worker; Worker; Worker; Worker; Worker; Worker; Thread 0; Thread 0; Thread 0] (init Compact 2 Block 7 2)).
  split; [vm_compute; reflexivity|]. vm_compute. repeat split; reflexivity.
Qed.
