(* ===== verification/Sink.v ===== *)
(** * The file sinks of [dbase::log] (code/src/log/sink.cpp, sink.h)

    [FileSink], [RotatingFileSink] and [DailyFileSink] over a model of one directory: a map from
    names to contents, and an output stream that keeps up to [bufsize] bytes to itself.  How
    much of them it passes on after a write is an answer of the state ([spills]), as are whether
    the next operation on the directory fails ([failures]; one that fails changes nothing),
    whether the next [file_size] does ([size_failures]) and how the next operation of the stream
    goes wrong ([faults]).  A stream that went wrong takes nothing more until it is opened
    again.  A name is made of the stem and the extension of the path.  [ConsoleSink] writes to
    the standard streams. *)

From S2P Require Import Prelude Str Log.
From stdpp Require Import base gmap list strings.
From Stdlib Require Import ZArith Lia Ascii.

(** ** The directory and the stream *)

(** A stream operation that fails passes on [sent] bytes of what the stream has, and keeps what
    comes after the first [gone]. *)
Record Fault : Type := mkFault { sent : nat; gone : nat }.

Record Disk : Type := mkDisk {
  files : gmap str str;
  failures : list bool;
  size_failures : list bool;
  spills : list nat;
  faults : list (option Fault);
  m_stream : option (str * str);     (* the name of the file, and what the stream keeps *)
  m_bad : bool;                      (* [!m_stream.good()] *)
}.

Section stream.
Context (bufsize : nat).

Definition set_files x d := mkDisk x (failures d) (size_failures d) (spills d) (faults d) (m_stream d) (m_bad d).
Definition set_stream x d := mkDisk (files d) (failures d) (size_failures d) (spills d) (faults d) x (m_bad d).
Definition set_bad x d := mkDisk (files d) (failures d) (size_failures d) (spills d) (faults d) (m_stream d) x.

(** Whether the next operation succeeds *)
Definition succeeds : M Disk bool :=
  let! d := get in
  modify (λ d, mkDisk (files d) (tail (failures d)) (size_failures d) (spills d) (faults d) (m_stream d) (m_bad d));;;
  ret (negb (default false (head (failures d)))).

(** An operation, or [std::runtime_error] (of which [std::filesystem::filesystem_error] is one) *)
Definition attempt (f : Disk → Disk) : M Disk () :=
  let! ok := succeeds in
  if ok then modify f else throw runtime_error.

Definition content (p : str) (d : Disk) : str := default [] (files d !! p).

Definition exists_ (p : str) : M Disk bool :=
  attempt id;;; let! d := get in ret (bool_decide (is_Some (files d !! p))).

Definition fileSizeOrZero (p : str) : M Disk nat :=
  let! d := get in
  modify (λ d, mkDisk (files d) (failures d) (tail (size_failures d)) (spills d) (faults d) (m_stream d) (m_bad d));;;
  ret (if default false (head (size_failures d)) then 0%nat else length (content p d)).

Definition ensureParentDirectory : M Disk () := attempt id.
Definition removeIfExists (p : str) : M Disk () := attempt (λ d, set_files (delete p (files d)) d).
Definition renameFile (from to : str) : M Disk () :=
  attempt (λ d, set_files (<[to := content from d]> (delete from (files d))) d).

(** [std::ofstream]: [open] with [trunc] or [app], [operator<<], [flush], [close].  An [open]
    that succeeds clears the state; one that fails, or of a stream that is open, sets it. *)
Definition opened_on (p : str) (truncate : bool) (d : Disk) : Disk :=
  set_bad false (set_stream (Some (p, [])) (set_files (<[p := if truncate then [] else content p d]> (files d)) d)).

Definition stream_open (p : str) (truncate : bool) : M Disk () :=
  let! d := get in
  match m_stream d with
  | Some _ => modify (set_bad true)
  | None =>
      let! ok := succeeds in
      if ok then modify (opened_on p truncate) else modify (set_bad true);;; throw runtime_error
  end.

(** Pass on the first [n] bytes and keep what comes after the first [m]. *)
Definition pass_on (n m : nat) (d : Disk) : Disk :=
  match m_stream d with
  | None => d
  | Some (p, buf) => set_stream (Some (p, drop m buf)) (set_files (<[p := content p d ++ take n buf]> (files d)) d)
  end.

Definition next_fault : M Disk (option Fault) :=
  let! d := get in
  modify (λ d, mkDisk (files d) (failures d) (size_failures d) (spills d) (tail (faults d)) (m_stream d) (m_bad d));;;
  ret (default None (head (faults d))).

(** How many bytes of [buf] go to the file although nobody asked for it *)
Definition next_spill (buf : str) : M Disk nat :=
  let! d := get in
  modify (λ d, mkDisk (files d) (failures d) (size_failures d) (tail (spills d)) (faults d) (m_stream d) (m_bad d));;;
  ret (Nat.max (default 0%nat (head (spills d))) (length buf - bufsize)).

(** [m_stream << text] *)
Definition stream_insert (text : str) : M Disk () :=
  let! d := get in
  match m_stream d with
  | None => modify (set_bad true)
  | Some (p, buf) =>
      if m_bad d then ret tt
      else
        let! f := next_fault in
        modify (set_stream (Some (p, buf ++ text)));;;
        match f with
        | Some f => modify (λ d, set_bad true (pass_on (sent f) (gone f) d))
        | None => let! n := next_spill (buf ++ text) in modify (pass_on n n)
        end
  end.

Definition keeps (d : Disk) : nat := match m_stream d with Some (_, buf) => length buf | None => 0 end.

(** [m_stream.flush()] *)
Definition stream_flush : M Disk () :=
  let! d := get in
  if m_bad d then ret tt
  else
    let! f := next_fault in
    match f with
    | Some f => modify (λ d, set_bad true (pass_on (sent f) (gone f) d))
    | None => modify (λ d, pass_on (keeps d) (keeps d) d)
    end.

(** [m_stream.close()]: the file is closed also when writing the rest fails, which sets the
    state; a stream that went wrong still tries. *)
Definition stream_close : M Disk () :=
  let! f := next_fault in
  match f with
  | Some f => modify (λ d, set_bad true (pass_on (sent f) (gone f) d))
  | None => modify (λ d, pass_on (keeps d) (keeps d) d)
  end;;;
  modify (set_stream None).

(** [if (!m_stream.good()) throw std::runtime_error(...)] *)
Definition check_good : M Disk () :=
  let! d := get in if m_bad d then throw runtime_error else ret tt.

Definition newline : ascii := Ascii.ascii_of_nat 10.

(** [m_stream << formatted << '\n'] and the check *)
Definition stream_write (formatted : str) : M Disk () :=
  stream_insert formatted;;; stream_insert [newline];;; check_good.

Definition is_open (d : Disk) : bool := bool_decide (is_Some (m_stream d)).

Definition line_of (formatted : str) : str := formatted ++ [newline].

(** [flush] of the three sinks *)
Definition flush : M Disk () :=
  let! d := get in if is_open d then stream_flush;;; check_good else ret tt.

(** ** [FileSink] *)

Definition FileSink_open (filePath : str) (truncate : bool) : M Disk () :=
  ensureParentDirectory;;; stream_open filePath truncate.

Definition FileSink_write (filePath : str) (formatted : str) : M Disk () :=
  let! d := get in
  (if negb (is_open d) then FileSink_open filePath false else ret tt);;;
  stream_write formatted.

(** ** [RotatingFileSink] *)

Section rotating.
Context (stem ext : str) (maxFileSize maxFiles : nat).

Definition filePath : str := stem ++ ext.
Definition rotatedPath (index : nat) : str := stem ++ lit "." ++ to_string (Z.of_nat index) ++ ext.

Definition currentFileSizeNoLock : M Disk nat := fileSizeOrZero filePath.

Definition openNoLock (truncate : bool) : M Disk () :=
  ensureParentDirectory;;; stream_open filePath truncate.

Definition move_if_exists (from to : str) : M Disk () :=
  let! there := exists_ from in
  if there then removeIfExists to;;; renameFile from to else ret tt.

(** [for (i = m_maxFiles; i > 1; --i)] *)
Fixpoint shift_rotated (i : nat) : M Disk () :=
  match i with
  | S (S _ as j) => move_if_exists (rotatedPath j) (rotatedPath i);;; shift_rotated j
  | _ => ret tt
  end.

Definition rotateNoLock : M Disk () :=
  let! d := get in
  (if is_open d then stream_flush;;; stream_close else ret tt);;;
  removeIfExists (rotatedPath maxFiles);;;
  shift_rotated maxFiles;;;
  move_if_exists filePath (rotatedPath 1);;;
  openNoLock true.

Definition RotatingFileSink_make (truncate : bool) : M Disk () :=
  if (maxFileSize =? 0)%nat then throw invalid_argument
  else if (maxFiles =? 0)%nat then throw invalid_argument
  else openNoLock truncate.

Definition RotatingFileSink_write (formatted : str) : M Disk () :=
  let! d := get in
  (if negb (is_open d) then openNoLock false else ret tt);;;
  let incomingBytes := (length formatted + 1)%nat in
  let! currentBytes := currentFileSizeNoLock in
  (if (0 <? currentBytes)%nat && (maxFileSize <? currentBytes + incomingBytes)%nat then rotateNoLock else ret tt);;;
  stream_write formatted.

End rotating.

(** ** [DailyFileSink] *)

Section daily.
Context (stem ext : str).

Definition datedPath (date : str) : str :=
  match ext with
  | [] => stem ++ lit "." ++ date
  | _ => stem ++ lit "." ++ date ++ ext
  end.

(** The disk and [m_currentDate] *)
Record Daily : Type := mkDaily { disk : Disk; m_currentDate : str }.

Definition on_disk (m : M Disk ()) : M Daily () :=
  let! d := get in
  let '(r, k) := m (disk d) in
  put (mkDaily k (m_currentDate d));;; lift r.

Definition openForDateNoLock (date : str) (truncate : bool) : M Daily () :=
  let! d := get in
  (if is_open (disk d) then on_disk (stream_flush;;; stream_close) else ret tt);;;
  on_disk ensureParentDirectory;;;
  on_disk (stream_open (datedPath date) truncate);;;
  modify (λ d, mkDaily (disk d) date).

Definition DailyFileSink_write (eventDate formatted : str) : M Daily () :=
  let! d := get in
  (if negb (is_open (disk d)) || negb (bool_decide (eventDate = m_currentDate d)) then openForDateNoLock eventDate false
   else ret tt);;;
  on_disk (stream_write formatted).

Definition DailyFileSink_flush : M Daily () := on_disk flush.

End daily.
End stream.

(** ** Runs of a sink *)

Inductive SinkOp (X : Type) : Type := OpWrite (x : X) | OpFlush.
Arguments OpWrite {X} _.
Arguments OpFlush {X}.

(** The lines whose [write] returned; whoever calls the sink may catch an exception. *)
Fixpoint run_sink {D X : Type} (write : X → M D ()) (flush : M D ()) (ops : list (SinkOp X)) : M D (list X) :=
  match ops with
  | [] => ret []
  | o :: ops => λ d,
      match (match o with OpWrite l => write l | OpFlush => flush end) d with
      | (Ok _, d') =>
          (let! ls := run_sink write flush ops in
           ret (match o with OpWrite l => l :: ls | OpFlush => ls end)) d'
      | (Throw _, d') => run_sink write flush ops d'
      | (Undef, d') => (Undef, d')
      | (NoFuel, d') => (NoFuel, d')
      end
  end.

(** The lines that are to be written *)
Definition lines {X : Type} (ops : list (SinkOp X)) : list X :=
  concat ((λ o, match o with OpWrite l => [l] | OpFlush => [] end) <$> ops).

(** ** Paths *)

Lemma to_string_inj i j : to_string (Z.of_nat i) = to_string (Z.of_nat j) → i = j.
Proof.
  intros E. destruct (to_string_numeral (Z.of_nat i)) as (ds & Hne & Hd & Hi), (to_string_numeral (Z.of_nat j)) as (ds' & Hne' & Hd' & Hj).
  assert (Hm : ∀ l : str, all_digits (Str.minus :: l) → False).
  { intros l Hl. by apply Forall_cons in Hl as [? _]. }
  destruct Hi as [[Ei Vi]|[Ei Vi]], Hj as [[Ej Vj]|[Ej Vj]]; rewrite Ei, Ej in E; try (subst; exfalso; eauto; fail).
  - subst ds'. lia.
  - injection E as ->. lia.
Qed.

Section rotating_facts.
Context (bufsize : nat) (stem ext : str) (maxFileSize maxFiles : nat) (longest : nat).
(** That an operation on the directory may fail, and that [file_size] never does *)
Context (broken sized : Prop).
Abbreviation filePath := (filePath stem ext).
Abbreviation rotatedPath := (rotatedPath stem ext).

(** The file with number [i], the current one being 0 *)
Definition path (i : nat) : str := match i with O => filePath | S _ => rotatedPath i end.

Lemma path_inj i j : path i = path j → i = j.
Proof.
  assert (Hlen : ∀ k, length (rotatedPath k) ≠ length filePath).
  { intros k. unfold Sink.rotatedPath, Sink.filePath, lit. rewrite !length_app. cbn. lia. }
  destruct i, j; cbn [path]; intros E; try done; try (by destruct (Hlen _ (f_equal length E))).
  - symmetry in E. by destruct (Hlen _ (f_equal length E)).
  - unfold Sink.rotatedPath in E. apply app_inv_head, app_inv_head, app_inv_tail, to_string_inj in E. done.
Qed.

(** ** What the files hold *)

Definition text (ls : list str) : str := concat (line_of <$> ls).

Lemma text_app ls ls' : text (ls ++ ls') = text ls ++ text ls'.
Proof. unfold text. by rewrite fmap_app, concat_app. Qed.

Lemma text_nil ls : text ls = [] → ls = [].
Proof. destruct ls as [|l ls]; [done|]. unfold text, line_of. cbn. by destruct l. Qed.

Definition pending (d : Disk) : str := match m_stream d with Some (_, b) => b | None => [] end.

(** What the outside still answers; the stream does not fail. *)
Definition env_ok (d : Disk) : Prop :=
  (failures d ≠ [] → broken) ∧ faults d = [] ∧ (is_Some (m_stream d) → m_bad d = false) ∧ (sized → size_failures d = []).

(** File [i] holds the lines [slots i]; what the stream keeps belongs to file 0. *)
Record shows (others : gmap str str) (slots : nat → list str) (d : Disk) : Prop := {
  sh_current : content filePath d ++ pending d = text (slots 0%nat);
  sh_rotated : ∀ i, (0 < i ≤ maxFiles)%nat → content (path i) d = text (slots i);
  sh_stream : ∀ p b, m_stream d = Some (p, b) → p = filePath ∧ (length b ≤ bufsize)%nat;
  sh_others : ∀ p, (∀ i, (i ≤ maxFiles)%nat → p ≠ path i) → files d !! p = others !! p;
  sh_env : env_ok d;
}.

(** From the oldest to the newest *)
Fixpoint flat (n : nat) (slots : nat → list str) : list str :=
  slots n ++ match n with O => [] | S m => flat m slots end.

Definition fits (slots : nat → list str) : Prop :=
  ∀ i, (i ≤ maxFiles)%nat → (length (text (slots i)) ≤ bufsize + Nat.max maxFileSize longest)%nat.

(** Lines were moved or dropped from the front. *)
Record rotated (slots slots' : nat → list str) : Prop := {
  ro_suffix : ∃ older, flat maxFiles slots = older ++ flat maxFiles slots';
  ro_fits : fits slots → fits slots';
}.

Lemma rotated_refl slots : rotated slots slots.
Proof. split; [by exists []|done]. Qed.

Lemma rotated_trans s1 s2 s3 : rotated s1 s2 → rotated s2 s3 → rotated s1 s3.
Proof.
  intros [[o1 E1] F1] [[o2 E2] F2]. split; [|auto]. exists (o1 ++ o2). by rewrite E1, E2, app_assoc.
Qed.

Lemma flat_ext n s1 s2 : (∀ i, (i ≤ n)%nat → s1 i = s2 i) → flat n s1 = flat n s2.
Proof. induction n as [|n IH]; intros H; cbn; rewrite H by lia; [done|]. f_equal. apply IH. intros i Hi. apply H. lia. Qed.

Definition moved (j : nat) (slots : nat → list str) : nat → list str :=
  λ i, if decide (i = S j) then slots j else if decide (i = j) then [] else slots i.

Lemma flat_moved n j slots : (S j ≤ n)%nat → slots (S j) = [] → flat n (moved j slots) = flat n slots.
Proof.
  intros Hn Hs. induction n as [|n IH]; [lia|]. cbn [flat]. destruct (decide (S j = S n)) as [[= ->]|Hne].
  - assert (E : ∀ i, (i < n)%nat → moved n slots i = slots i).
    { intros i Hi. unfold moved. by rewrite !decide_False by lia. }
    assert (E1 : moved n slots (S n) = slots n) by (unfold moved; by rewrite decide_True).
    assert (E2 : moved n slots n = []) by (unfold moved; by rewrite decide_False, decide_True by lia).
    rewrite E1, Hs. cbn. destruct n as [|n]; cbn [flat]; rewrite E2; cbn; [by rewrite !app_nil_r|].
    f_equal. apply flat_ext. intros i Hi. apply E. lia.
  - rewrite IH by lia. f_equal. unfold moved. by rewrite !decide_False by lia.
Qed.

Lemma rotated_moved j slots : (S j ≤ maxFiles)%nat → slots (S j) = [] → rotated slots (moved j slots).
Proof.
  intros Hj Hs. split; [exists []; by rewrite flat_moved|]. intros Hf i Hi. unfold moved.
  destruct (decide _); [apply Hf; lia|]. destruct (decide _); [cbn; lia|]. by apply Hf.
Qed.

Definition dropped (slots : nat → list str) : nat → list str := λ i, if decide (i = maxFiles) then [] else slots i.

Lemma rotated_dropped slots : rotated slots (dropped slots).
Proof.
  split.
  - exists (slots maxFiles). unfold dropped. destruct maxFiles as [|n]; cbn [flat]; rewrite decide_True by done; [done|].
    cbn. f_equal. apply flat_ext. intros i Hi. by rewrite decide_False by lia.
  - intros Hf i Hi. unfold dropped. destruct (decide _); [cbn; lia|]. by apply Hf.
Qed.

(** ** The operations *)

Definition calm (d d' : Disk) : Prop :=
  (failures d' ≠ [] → failures d ≠ []) ∧ faults d' = faults d ∧ m_bad d' = m_bad d ∧ (size_failures d = [] → size_failures d' = []).

Definition same (d d' : Disk) : Prop := files d' = files d ∧ m_stream d' = m_stream d ∧ calm d d'.

Lemma env_ok_same d d' : m_stream d' = m_stream d → calm d d' → env_ok d → env_ok d'.
Proof. intros Es (Hf & Ef & Eb & Hz) (H1 & H2 & H3 & H4). unfold env_ok. rewrite Ef, Es, Eb. naive_solver. Qed.

Lemma shows_same others slots d d' : same d d' → shows others slots d → shows others slots d'.
Proof.
  intros (Ef & Es & Hc) [H1 H2 H3 H4 H5]. pose proof (env_ok_same d d' Es Hc H5). unfold content, pending in *.
  split; unfold content, pending; rewrite ?Ef, ?Es; auto.
Qed.

Lemma succeeds_wp {A} (k : bool → M Disk A) d Q E :
  (∀ d', same d d' → wp (k true) d' Q E) → (∀ d', same d d' → failures d ≠ [] → wp (k false) d' Q E) →
  wp (bind succeeds k) d Q E.
Proof.
  intros HQ HE. unfold succeeds. apply wp_bind, wp_get, wp_modify_seq, wp_ret.
  assert (Hs : same d (mkDisk (files d) (tail (failures d)) (size_failures d) (spills d) (faults d) (m_stream d) (m_bad d))).
  { unfold same, calm. split_and!; try done. cbn. by destruct (failures d). }
  destruct (failures d) as [|[] fs] eqn:Ef; [apply HQ, Hs| |apply HQ, Hs]. by apply HE.
Qed.

Lemma attempt_wp f d (Q : () → Disk → Prop) (E : exn → Disk → Prop) :
  (∀ d', same d d' → Q tt (f d')) → (∀ d', same d d' → failures d ≠ [] → E runtime_error d') →
  wp (attempt f) d Q E.
Proof.
  intros HQ HE. apply succeeds_wp; intros d' Hsm; [by apply wp_modify, HQ|]. intros Hf. by apply HE.
Qed.

Lemma content_insert p q x d : content q (set_files (<[p := x]> (files d)) d) = if decide (p = q) then x else content q d.
Proof.
  unfold content. cbn. destruct (decide (p = q)) as [->|Hn]; [by rewrite lookup_insert_eq|by rewrite lookup_insert_ne].
Qed.

Lemma content_delete p q d : content q (set_files (delete p (files d)) d) = if decide (p = q) then [] else content q d.
Proof.
  unfold content. cbn. destruct (decide (p = q)) as [->|Hn]; [by rewrite lookup_delete_eq|by rewrite lookup_delete_ne].
Qed.

(** An empty file may go. *)
Lemma shows_delete others slots d i : shows others slots d → (0 < i ≤ maxFiles)%nat → slots i = [] →
  shows others slots (set_files (delete (path i) (files d)) d).
Proof.
  intros [H1 H2 H3 H4 H5] Hi Hs. split; [| |done| |done].
  - rewrite content_delete, decide_False; [done|]. intros E. apply (path_inj i 0) in E. lia.
  - intros j Hj. rewrite content_delete. destruct (decide _) as [->%path_inj|]; [by rewrite Hs|by apply H2].
  - intros p Hp. cbn. rewrite lookup_delete_ne; [by apply H4|]. intros <-. by apply (Hp i); [lia|].
Qed.

Lemma shows_ext others slots slots' d : (∀ i, (i ≤ maxFiles)%nat → slots i = slots' i) →
  shows others slots d → shows others slots' d.
Proof.
  intros He [H1 H2 H3 H4 H5]. split; try done; [by rewrite <- He by lia|]. intros i Hi. rewrite <- He by lia. by apply H2.
Qed.

Definition settled (others : gmap str str) (slots : nat → list str) (d : Disk) : Prop :=
  broken ∧ ∃ slots', shows others slots' d ∧ rotated slots slots'.

Lemma settled_here others slots d d' : shows others slots d → same d d' → failures d ≠ [] → settled others slots d'.
Proof.
  intros H Hs Hf. split; [by apply (sh_env _ _ _ H)|]. exists slots. split; [by eapply shows_same|apply rotated_refl].
Qed.

Lemma settled_trans others s1 s2 d : rotated s1 s2 → settled others s2 d → settled others s1 d.
Proof. intros H (Hb & s3 & Hs & Hr). split; [done|]. exists s3. split; [done|]. by eapply rotated_trans. Qed.

(** File [j] becomes file [j + 1]. *)
Lemma shows_rename others slots d j : shows others slots d → m_stream d = None → (S j ≤ maxFiles)%nat →
  shows others (moved j slots) (set_files (<[path (S j) := content (path j) d]> (delete (path j) (files d))) d).
Proof.
  intros [H1 H2 H3 H4 H5] Hst Hj. unfold pending in H1. rewrite Hst, app_nil_r in H1.
  assert (Hc : ∀ i, (i ≤ maxFiles)%nat → content (path i) (set_files (<[path (S j) := content (path j) d]> (delete (path j) (files d))) d)
    = text (moved j slots i)).
  { intros i Hi. assert (Ha : ∀ k, (k ≤ maxFiles)%nat → content (path k) d = text (slots k)).
    { intros [|k] Hk; [done|]. apply H2. lia. }
    unfold moved. unfold content at 1. cbn [files set_files].
    destruct (decide (i = S j)) as [->|Hne]; [rewrite lookup_insert_eq; apply Ha; lia|].
    rewrite lookup_insert_ne by (intros E%path_inj; done).
    destruct (decide (i = j)) as [->|Hne']; [by rewrite lookup_delete_eq|].
    rewrite lookup_delete_ne by (intros E%path_inj; done). by apply Ha. }
  split.
  - unfold pending. cbn [m_stream set_files]. rewrite Hst, app_nil_r. apply (Hc 0%nat). lia.
  - intros i Hi. apply Hc. lia.
  - done.
  - intros p Hp. cbn. rewrite lookup_insert_ne, lookup_delete_ne; [by apply H4|..]; intros <-; [by apply (Hp j); [lia|]|by apply (Hp (S j))].
  - done.
Qed.

Lemma move_run others slots d j : shows others slots d → m_stream d = None → (S j ≤ maxFiles)%nat → slots (S j) = [] →
  wp (move_if_exists (path j) (path (S j))) d
    (λ _ d', shows others (moved j slots) d' ∧ m_stream d' = None) (λ _ d', settled others slots d').
Proof.
  intros Hs Hst Hj He. unfold move_if_exists.
  apply (wp_seq _ _ _ (λ b d', b = bool_decide (is_Some (files d' !! path j)) ∧ shows others slots d' ∧ m_stream d' = None)).
  { unfold exists_. apply (wp_seq _ _ _ (λ _ d', shows others slots d' ∧ m_stream d' = None)).
    - apply attempt_wp; intros d' Hsm; [|by apply (settled_here _ _ d)]. split; [by eapply shows_same|].
      destruct Hsm as (_ & Es & _). by rewrite <- Hst.
    - intros [] d1 [Hs1 Hst1]. by apply wp_get, wp_ret. }
  clear d Hs Hst. intros b d (-> & Hs & Hst). case_bool_decide as Hx.
  - unfold removeIfExists, renameFile. apply (wp_seq _ _ _ (λ _ d', shows others slots d' ∧ m_stream d' = None)).
    + apply attempt_wp; intros d' Hsm; [|by apply (settled_here _ _ d)].
      destruct Hsm as (Ef & Es & Hfl) eqn:Hq. split; [|by cbn; rewrite Es]. apply shows_delete; [by eapply shows_same|lia|done].
    + intros [] d1 [Hs1 Hst1]. apply attempt_wp; intros d' Hsm; [|by apply (settled_here _ _ d1)].
      destruct Hsm as (Ef & Es & Hfl) eqn:Hq. split; [|by cbn; rewrite Es]. apply shows_rename; [by eapply shows_same|congruence|done].
  - apply wp_ret. split; [|done]. eapply shows_ext; [|exact Hs]. intros i Hi. unfold moved.
    assert (slots j = []) as Hsj.
    { assert (Hc : content (path j) d = []) by (unfold content; destruct (files d !! path j); [by destruct Hx|done]).
      destruct Hs as [H1 H2 _ _ _]. apply text_nil. destruct j as [|j].
      - unfold pending in H1. rewrite Hst, app_nil_r in H1. by rewrite <- H1.
      - rewrite <- H2 by lia. done. }
    destruct (decide (i = S j)) as [->|]; [congruence|]. destruct (decide (i = j)) as [->|]; congruence.
Qed.

Lemma shift_run others : ∀ i slots d, shows others slots d → m_stream d = None → (0 < i ≤ maxFiles)%nat → slots i = [] →
  wp (shift_rotated stem ext i) d
    (λ _ d', m_stream d' = None ∧ ∃ slots', shows others slots' d' ∧ rotated slots slots' ∧ slots' 1%nat = [])
    (λ _ d', settled others slots d').
Proof.
  induction i as [|[|j] IH]; intros slots d Hs Hst Hi He; [lia|apply wp_ret; eauto using rotated_refl|].
  cbn [shift_rotated]. apply (wp_seq _ _ _ (λ _ d', shows others (moved (S j) slots) d' ∧ m_stream d' = None)).
  - apply (move_run others slots d (S j)); try done. lia.
  - intros [] d1 [Hs1 Hst1]. assert (Hr : rotated slots (moved (S j) slots)) by (apply rotated_moved; [lia|done]).
    eapply wp_mono; [apply (IH (moved (S j) slots)); try done; [lia|]|..].
    + unfold moved. by rewrite decide_False, decide_True by lia.
    + intros [] d2 (Hst2 & slots' & Hs2 & Hr2 & H1). split; [done|]. exists slots'. split_and!; try done. by eapply rotated_trans.
    + intros x d2 Hd2. by eapply settled_trans.
Qed.

(** [text] went to the stream of file [p]. *)
Definition appended (p t : str) (d d' : Disk) : Prop :=
  ∃ buf x y, m_stream d = Some (p, buf) ∧ buf ++ t = x ++ y ∧ files d' = <[p := content p d ++ x]> (files d) ∧
    m_stream d' = Some (p, y) ∧ (length y ≤ bufsize)%nat ∧ calm d d'.

Lemma appended_trans p t1 t2 d1 d2 d3 : appended p t1 d1 d2 → appended p t2 d2 d3 → appended p (t1 ++ t2) d1 d3.
Proof.
  intros (b1 & x1 & y1 & S1 & E1 & F1 & S1' & _ & (A1 & A2 & A3 & A4)) (b2 & x2 & y2 & S2 & E2 & F2 & S2' & L2 & (B1 & B2 & B3 & B4)).
  assert (b2 = y1) as -> by congruence.
  exists b1, (x1 ++ x2), y2. unfold calm. split_and!; try done; try (congruence || auto; fail).
  - by rewrite app_assoc, E1, <- !app_assoc, E2.
  - rewrite F2. unfold content at 1. rewrite F1, lookup_insert_eq, insert_insert_eq. cbn. by rewrite app_assoc.
Qed.

(** A stream that is open, in a good state, and does not fail *)
Definition clean (d : Disk) : Prop := m_bad d = false ∧ faults d = [].

Lemma clean_appended p t d d' : clean d → appended p t d d' → clean d'.
Proof. intros [Hb Hf] (b & x & y & _ & _ & _ & _ & _ & (_ & Ef & Eb & _)). unfold clean. by rewrite Ef, Eb. Qed.

Lemma clean_shows others slots d p b : shows others slots d → m_stream d = Some (p, b) → clean d.
Proof. intros H E. destruct (sh_env _ _ _ H) as (_ & Hf & Hb & _). split; [apply Hb; by rewrite E|done]. Qed.

Lemma next_fault_clean d : faults d = [] → next_fault d = (Ok None, d).
Proof. destruct d. cbn. by intros ->. Qed.

Lemma insert_run p buf t d : m_stream d = Some (p, buf) → clean d →
  wp (stream_insert bufsize t) d (λ _ d', appended p t d d') nothrow.
Proof.
  intros Hst [Hb Hf]. unfold stream_insert. apply wp_get. rewrite Hst, Hb.
  eapply wp_run_seq; [by apply next_fault_clean|]. apply wp_modify_seq. unfold next_spill.
  apply wp_bind, wp_get, wp_modify_seq, wp_ret, wp_modify. set (k := Nat.max _ _). unfold pass_on. cbn [m_stream set_stream].
  exists buf, (take k (buf ++ t)), (drop k (buf ++ t)). unfold calm. split_and!; try done.
  - by rewrite take_drop.
  - rewrite length_drop. unfold k. lia.
Qed.

Lemma pass_all_run p buf d : m_stream d = Some (p, buf) →
  appended p [] d (pass_on (keeps d) (keeps d) d) ∧ pending (pass_on (keeps d) (keeps d) d) = [].
Proof.
  intros Hst. unfold pass_on, keeps, pending. rewrite Hst. cbn. rewrite drop_all. split; [|done].
  exists buf, buf, []. unfold calm. rewrite firstn_all. split_and!; try done. cbn. lia.
Qed.

Lemma stream_flush_run p buf d : m_stream d = Some (p, buf) → clean d →
  wp stream_flush d (λ _ d', appended p [] d d' ∧ pending d' = []) nothrow.
Proof.
  intros Hst [Hb Hf]. unfold stream_flush. apply wp_get. rewrite Hb.
  eapply wp_run_seq; [by apply next_fault_clean|]. by eapply wp_modify, pass_all_run.
Qed.

Lemma stream_close_run p buf d : m_stream d = Some (p, buf) → clean d →
  wp stream_close d (λ _ d', ∃ d1, appended p [] d d1 ∧ pending d1 = [] ∧ d' = set_stream None d1) nothrow.
Proof.
  intros Hst [Hb Hf]. unfold stream_close. eapply wp_run_seq; [by apply next_fault_clean|]. apply wp_modify_seq, wp_modify.
  destruct (pass_all_run p buf d Hst) as [Ha Hp]. eauto.
Qed.

Lemma check_good_run d (Q : () → Disk → Prop) E : clean d → Q tt d → wp check_good d Q E.
Proof. intros [Hb _] HQ. unfold check_good. apply wp_get. rewrite Hb. by apply wp_ret. Qed.

Lemma write_run p buf l d : m_stream d = Some (p, buf) → clean d →
  wp (stream_write bufsize l) d (λ _ d', appended p (line_of l) d d') nothrow.
Proof.
  intros Hst Hc. unfold stream_write. apply (wp_calm _ _ _ (λ _ d', appended p l d d')); [by eapply insert_run|].
  intros [] d1 Ha1. pose proof (clean_appended _ _ _ _ Hc Ha1) as Hc1. pose proof Ha1 as (_ & _ & y & _ & _ & _ & Hst1 & _).
  apply (wp_calm _ _ _ (λ _ d', appended p [newline] d1 d')); [by eapply insert_run|].
  intros [] d2 Ha2. apply check_good_run; [by eapply clean_appended|]. by eapply appended_trans.
Qed.

Lemma shows_appended others slots slots' t d d' : shows others slots d → appended filePath t d d' →
  text (slots' 0%nat) = text (slots 0%nat) ++ t → (∀ i, (0 < i)%nat → slots' i = slots i) → shows others slots' d'.
Proof.
  intros [H1 H2 H3 H4 H5] (b & x & y & Hst & E & Ef & Es & Hl & Hc) E0 Ei. unfold pending in H1. rewrite Hst in H1. split.
  - unfold pending, content. rewrite Es, Ef, lookup_insert_eq. cbn. by rewrite E0, <- H1, <- !app_assoc, E.
  - intros i Hi. unfold content. rewrite Ef, Ei by lia. rewrite lookup_insert_ne; [by apply H2|]. intros Ep. apply (path_inj 0) in Ep. lia.
  - rewrite Es. by intros p0 b0 [= <- <-].
  - intros p0 Hp. rewrite Ef, lookup_insert_ne; [by apply H4|]. intros <-. by apply (Hp 0%nat); [lia|].
  - destruct Hc as (A1 & A2 & A3 & A4), H5 as (B1 & B2 & B3 & B4). unfold env_ok. rewrite A2, A3, B3 by (rewrite Hst; eauto). naive_solver.
Qed.

Lemma shows_flushed others slots d d' : shows others slots d → appended filePath [] d d' → shows others slots d'.
Proof. intros H Ha. eapply shows_appended; [done..| |done]. by rewrite app_nil_r. Qed.

Lemma close_run others slots d : shows others slots d → is_open d = true →
  wp (stream_flush;;; stream_close) d (λ _ d', shows others slots d' ∧ m_stream d' = None) nothrow.
Proof.
  intros Hs Ho. apply bool_decide_eq_true in Ho as [[p b] Hst]. destruct (sh_stream _ _ _ Hs p b Hst) as [-> _].
  apply (wp_calm _ _ _ (λ _ d', appended filePath [] d d')).
  { eapply wp_mono; [eapply stream_flush_run; [done|by eapply clean_shows]| |done]. by intros [] d' [? _]. }
  intros [] d1 Ha. pose proof (shows_flushed _ _ _ _ Hs Ha) as Hs1. pose proof Ha as (_ & _ & y & _ & _ & _ & Hst1 & _).
  eapply wp_mono; [eapply stream_close_run; [done|by eapply clean_shows]| |done].
  intros [] d' (d2 & Ha2 & Hp & ->). split; [|done]. destruct (shows_flushed _ _ _ _ Hs1 Ha2) as [H1 H2 H3 H4 H5].
  split; try done; [by rewrite Hp in H1|]. destruct H5 as (B1 & B2 & _ & B4). split_and!; try done. by intros [? ?].
Qed.

(** Opening with [trunc] empties the current file. *)
Definition opened (truncate : bool) (slots : nat → list str) : nat → list str :=
  λ i, if decide (i = 0%nat) then (if truncate then [] else slots 0%nat) else slots i.

Lemma opened_false i slots : opened false slots i = slots i.
Proof. unfold opened. by destruct (decide (i = 0%nat)) as [->|]. Qed.

Lemma shows_opened others slots d truncate : shows others slots d → m_stream d = None →
  shows others (opened truncate slots) (opened_on filePath truncate d).
Proof.
  intros [H1 H2 H3 H4 H5] Hst. unfold pending in H1. rewrite Hst, app_nil_r in H1.
  split; cbn [m_stream opened_on set_bad set_stream set_files files].
  - unfold pending, content. cbn. rewrite lookup_insert_eq, app_nil_r. cbn. unfold opened. rewrite decide_True by done.
    by destruct truncate.
  - intros i Hi. unfold content, opened. cbn. rewrite decide_False by lia. rewrite lookup_insert_ne; [by apply H2|].
    intros E. apply (path_inj 0) in E. lia.
  - intros p b [= <- <-]. split; [done|cbn; lia].
  - intros p Hp. rewrite lookup_insert_ne; [by apply H4|]. intros <-. by apply (Hp 0%nat); [lia|].
  - destruct H5 as (B1 & B2 & _ & B4). by split_and!.
Qed.

Lemma shows_bad others slots d : shows others slots d → m_stream d = None → shows others slots (set_bad true d).
Proof.
  intros [H1 H2 H3 H4 H5] Hst. split; try done. destruct H5 as (B1 & B2 & B3 & B4). split_and!; try done.
  cbn. rewrite Hst. by intros [? ?].
Qed.

Lemma open_run others slots d truncate : shows others slots d → m_stream d = None →
  wp (openNoLock stem ext truncate) d
    (λ _ d', shows others (opened truncate slots) d' ∧ m_stream d' = Some (filePath, []))
    (λ _ d', settled others slots d').
Proof.
  intros Hs Hst. unfold openNoLock, ensureParentDirectory, stream_open.
  apply (wp_seq _ _ _ (λ _ d', shows others slots d' ∧ m_stream d' = None)).
  - apply attempt_wp; intros d' Hsm; [|by apply (settled_here _ _ d)]. split; [by eapply shows_same|].
    destruct Hsm as (Ef & Es & Hfl). unfold id. congruence.
  - intros [] d1 [Hs1 Hst1]. apply wp_get. rewrite Hst1. apply succeeds_wp; intros d' Hsm.
    + apply wp_modify. split; [|done]. apply shows_opened; [by eapply shows_same|]. destruct Hsm as (_ & Es & _). congruence.
    + intros Hf. apply wp_modify_seq. destruct (settled_here _ _ _ _ Hs1 Hsm Hf) as (Hbr & s' & Hs' & Hr).
      split; [done|]. exists s'. split; [|done]. apply shows_bad; [done|]. destruct Hsm as (_ & Es & _). congruence.
Qed.

Lemma rotate_run others slots d : shows others slots d → (0 < maxFiles)%nat →
  wp (rotateNoLock stem ext maxFiles) d
    (λ _ d', m_stream d' = Some (filePath, []) ∧ ∃ slots', shows others slots' d' ∧ rotated slots slots' ∧ slots' 0%nat = [])
    (λ _ d', settled others slots d').
Proof.
  intros Hs Hm. unfold rotateNoLock. apply wp_get.
  apply (wp_calm _ _ _ (λ _ d', shows others slots d' ∧ m_stream d' = None)).
  { destruct (is_open d) eqn:Ho; [by apply close_run|]. apply bool_decide_eq_false in Ho.
    apply wp_ret. split; [done|]. destruct (m_stream d); [by destruct Ho|done]. }
  intros [] d1 [Hs1 Hst1].
  assert (Hmax : maxFiles = S (pred maxFiles)) by lia.
  apply (wp_seq _ _ _ (λ _ d', shows others (dropped slots) d' ∧ m_stream d' = None)).
  { unfold removeIfExists. apply attempt_wp; intros d' Hsm; [|by apply (settled_here _ _ d1)].
    destruct (shows_same others slots d1 d' Hsm Hs1) as [H1 H2 H3 H4 H5], Hsm as (Ef & Es & Hfl).
    split; [|by cbn; congruence].
    replace (rotatedPath maxFiles) with (path maxFiles) by by rewrite Hmax.
    split; [| |done| |done].
    - unfold dropped. rewrite content_delete, !decide_False; [done|lia|]. intros E. apply (path_inj maxFiles 0) in E. lia.
    - intros i Hi. rewrite content_delete. unfold dropped. destruct (decide (i = maxFiles)) as [->|Hne]; [by rewrite decide_True|].
      rewrite decide_False by (intros E%path_inj; congruence). by apply H2.
    - intros p Hp. cbn. rewrite lookup_delete_ne; [by apply H4|]. intros <-. by apply (Hp maxFiles). }
  intros [] d2 [Hs2 Hst2]. pose proof (rotated_dropped slots) as Hr2.
  apply (wp_seq _ _ _ (λ _ d', m_stream d' = None ∧ ∃ slots', shows others slots' d' ∧ rotated slots slots' ∧ slots' 1%nat = [])).
  { eapply wp_mono; [apply (shift_run others maxFiles (dropped slots)); try done; unfold dropped; by rewrite decide_True|..].
    - intros [] d' (Hst & s' & H & Hr & H1). split; [done|]. exists s'. split_and!; try done. by eapply rotated_trans.
    - intros x d' Hd. by eapply settled_trans. }
  intros [] d3 (Hst3 & s3 & Hs3 & Hr3 & He3).
  apply (wp_seq _ _ _ (λ _ d', shows others (moved 0 s3) d' ∧ m_stream d' = None)).
  { eapply wp_mono; [apply (move_run others s3 d3 0)|done|]; try done. intros x d' Hd. by eapply settled_trans. }
  intros [] d4 [Hs4 Hst4]. assert (Hr4 : rotated slots (moved 0 s3)).
  { eapply rotated_trans; [done|]. by apply rotated_moved. }
  assert (Hz : moved 0 s3 0%nat = []) by (unfold moved; by rewrite decide_False, decide_True by lia).
  eapply wp_mono; [by eapply (open_run others (moved 0 s3) d4 true)|..].
  - intros [] d5 [Hs5 Hst5]. split; [done|]. exists (moved 0 s3). split_and!; try done.
    eapply shows_ext; [|exact Hs5]. intros i Hi. unfold opened. destruct (decide (i = 0%nat)) as [->|]; [by rewrite Hz|done].
  - intros x d5 Hd. by eapply settled_trans.
Qed.

Definition added (l : str) (slots : nat → list str) : nat → list str :=
  λ i, if decide (i = 0%nat) then slots 0%nat ++ [l] else slots i.

Lemma flat_added n l slots : flat n (added l slots) = flat n slots ++ [l].
Proof.
  induction n as [|n IH]; cbn [flat]; [unfold added; rewrite decide_True by done; by rewrite !app_nil_r|].
  rewrite IH. unfold added at 1. by rewrite decide_False, app_assoc by lia.
Qed.

Lemma length_line l : length (line_of l) = (length l + 1)%nat.
Proof. unfold line_of. by rewrite length_app. Qed.

Lemma stream_write_run others slots d l p b : shows others slots d → m_stream d = Some (p, b) →
  wp (stream_write bufsize l) d (λ _ d', shows others (added l slots) d') nothrow.
Proof.
  intros Hs Hst. destruct (sh_stream _ _ _ Hs p b Hst) as [-> _].
  eapply wp_mono; [eapply write_run; [done|by eapply clean_shows]| |done]. intros [] d' Ha.
  eapply shows_appended; [done..| |].
  - unfold added. rewrite decide_True by done. rewrite text_app. f_equal. unfold text. cbn. by rewrite app_nil_r.
  - intros i Hi. unfold added. by rewrite decide_False by lia.
Qed.

Lemma size_run others slots d : shows others slots d → 
  wp (currentFileSizeNoLock stem ext) d
    (λ n d', shows others slots d' ∧ m_stream d' = m_stream d ∧ content filePath d' = content filePath d ∧
       (sized → n = length (content filePath d))) nothrow.
Proof.
  intros Hs. unfold currentFileSizeNoLock, fileSizeOrZero. apply wp_get, wp_modify_seq, wp_ret.
  destruct (sh_env _ _ _ Hs) as (B1 & B2 & B3 & B4). split_and!; try done.
  - eapply shows_same; [|exact Hs]. unfold same, calm. split_and!; try done. cbn. by intros ->.
  - intros Hz. by rewrite (B4 Hz).
Qed.

Lemma fits_added l slots : (length l + 1 ≤ longest)%nat → fits slots →
  (length (text (slots 0%nat)) + (length l + 1) ≤ bufsize + Nat.max maxFileSize longest)%nat → fits (added l slots).
Proof.
  intros Hl Hf H0 i Hi. unfold added. destruct (decide _); [|by apply Hf].
  rewrite text_app, length_app. unfold text at 2. cbn [fmap list_fmap concat]. rewrite app_nil_r, length_line. lia.
Qed.

(** A line was added to what there was, or an exception thrown before it. *)
Lemma rotating_write_run others slots d l : shows others slots d → (sized → fits slots) → (0 < maxFiles)%nat →
  (length l + 1 ≤ longest)%nat →
  wp (RotatingFileSink_write bufsize stem ext maxFileSize maxFiles l) d
    (λ _ d', ∃ slots', shows others slots' d' ∧ (sized → fits slots') ∧ ∃ older, flat maxFiles slots ++ [l] = older ++ flat maxFiles slots')
    (λ _ d', settled others slots d').
Proof.
  intros Hs Hf Hm Hl. unfold RotatingFileSink_write. apply wp_get.
  apply (wp_seq _ _ _ (λ _ d', shows others slots d' ∧ ∃ b, m_stream d' = Some (filePath, b))).
  { unfold is_open. case_bool_decide as Ho; cbn [negb].
    - apply wp_ret. destruct Ho as [[p b] Hst]. split; [done|]. destruct (sh_stream _ _ _ Hs p b Hst) as [-> _]. eauto.
    - eapply wp_mono; [eapply (open_run others slots d false)|..]; try done.
      + destruct (m_stream d); [by destruct Ho|done].
      + intros [] d' [Hd ?]. split; [|eauto]. eapply shows_ext; [|exact Hd]. intros i _. apply opened_false. }
  intros [] d0 (Hs0 & b & Hst0). cbv zeta.
  apply (wp_calm _ _ _ _ _ _ (size_run _ _ _ Hs0)). intros n d1 (Hs1 & Hst1 & Hc1 & Hn). rewrite Hst0 in Hst1. rewrite <- Hc1 in Hn.
  apply (wp_seq _ _ _ (λ _ d', is_Some (m_stream d') ∧ ∃ slots', shows others slots' d' ∧ rotated slots slots' ∧
    (sized → length (text (slots' 0%nat)) + (length l + 1) ≤ bufsize + Nat.max maxFileSize longest)%nat)).
  { destruct (_ && _) eqn:Ec.
    - eapply wp_mono; [by apply rotate_run| |done]. intros [] d2 (Hst2 & s2 & Hs2 & Hr2 & He). split; [by rewrite Hst2|].
      exists s2. split_and!; try done. rewrite He. cbn. lia.
    - apply wp_ret. split; [by rewrite Hst1|]. exists slots. split_and!; [done|apply rotated_refl|]. intros Hz. specialize (Hn Hz).
      rewrite <- (sh_current _ _ _ Hs1), length_app. unfold pending. rewrite Hst1.
      pose proof (proj2 (sh_stream _ _ _ Hs1 _ _ Hst1)).
      apply andb_false_iff in Ec as [Ec%Nat.ltb_ge|Ec%Nat.ltb_ge]; lia. }
  intros [] d2 ([[p b2] Hst2] & s2 & Hs2 & [[older Ho] Hf2] & Hlen).
  eapply wp_mono; [by eapply stream_write_run| |done]. intros [] d3 Hs3. exists (added l s2). split_and!; [done| |].
  - intros Hz. apply fits_added; auto.
  - exists older. by rewrite flat_added, Ho, app_assoc.
Qed.

Lemma flush_run others slots d : shows others slots d →
  wp flush d (λ _ d', shows others slots d') nothrow.
Proof.
  intros Hs. unfold flush. apply wp_get. unfold is_open. case_bool_decide as Ho; [|by apply wp_ret].
  destruct Ho as [[p b] Hst]. destruct (sh_stream _ _ _ Hs p b Hst) as [-> _]. pose proof (clean_shows _ _ _ _ _ Hs Hst) as Hc.
  apply (wp_calm _ _ _ _ _ _ (stream_flush_run _ _ _ Hst Hc)). intros [] d' [Ha _].
  apply check_good_run; [by eapply clean_appended|by eapply shows_flushed].
Qed.

Lemma rotating_run others ops : ∀ slots d, shows others slots d → (sized → fits slots) → (0 < maxFiles)%nat →
  Forall (λ o, match o with OpWrite l => (length l + 1 ≤ longest)%nat | OpFlush => True end) ops →
  wp (run_sink (RotatingFileSink_write bufsize stem ext maxFileSize maxFiles) flush ops) d
    (λ ls d', (ls `sublist_of` lines ops ∧ (broken ∨ ls = lines ops)) ∧
       ∃ slots', shows others slots' d' ∧ (sized → fits slots') ∧ ∃ older, flat maxFiles slots ++ ls = older ++ flat maxFiles slots')
    nothrow.
Proof.
  induction ops as [|o ops IH]; intros slots d Hs Hf Hm Hops.
  { apply wp_ret. split; [by split; [|right]|]. exists slots. split_and!; try done. exists []. by rewrite app_nil_r. }
  apply Forall_cons in Hops as [Ho Hops]. unfold wp. cbn [run_sink].
  assert (Hstep : wp (match o with OpWrite l => RotatingFileSink_write bufsize stem ext maxFileSize maxFiles l | OpFlush => flush end) d
    (λ _ d', ∃ slots', shows others slots' d' ∧ (sized → fits slots') ∧
       ∃ older, flat maxFiles slots ++ match o with OpWrite l => [l] | OpFlush => [] end = older ++ flat maxFiles slots')
    (λ _ d', settled others slots d')).
  { destruct o as [l|]; [by apply rotating_write_run|].
    eapply wp_mono; [by apply flush_run| |done]. intros [] d' Hd. exists slots. split_and!; try done. exists []. by rewrite app_nil_r. }
  unfold wp in Hstep.
  destruct ((match o with OpWrite l => RotatingFileSink_write bufsize stem ext maxFileSize maxFiles l | OpFlush => flush end) d)
    as [[] d1]; try done.
  - destruct Hstep as (s1 & Hs1 & Hf1 & older & Ho1).
    apply (wp_seq _ _ _ _ _ _ (IH s1 d1 Hs1 Hf1 Hm Hops)). intros ls d2 ([Hsub Hall] & s2 & Hs2 & Hf2 & older2 & Ho2).
    apply wp_ret. split.
    { unfold lines. cbn [fmap list_fmap concat]. fold (lines ops). destruct o; cbn [app]; [|done].
      split; [by apply sublist_skip|]. destruct Hall as [?| ->]; auto. }
    exists s2. split_and!; try done. exists (older ++ older2). rewrite <- app_assoc, <- Ho2, app_assoc, <- Ho1.
    destruct o; by rewrite <- app_assoc.
  - destruct Hstep as (Hbr & s1 & Hs1 & [[older Ho1] Hr]). eapply wp_mono; [apply (IH s1 d1 Hs1); auto| |done].
    intros ls d2 ([Hsub _] & s2 & Hs2 & Hf2 & older2 & Ho2).
    split; [split; [unfold lines; cbn [fmap list_fmap concat]; by apply sublist_inserts_l|by left]|].
    exists s2. split_and!; try done. exists (older ++ older2).
    by rewrite Ho1, <- app_assoc, Ho2, app_assoc.
Qed.

Lemma fits_opened truncate slots : fits slots → fits (opened truncate slots).
Proof. intros Hf i Hi. unfold opened. destruct (decide _); [destruct truncate; [cbn; lia|]; apply Hf; lia|by apply Hf]. Qed.

Lemma make_run slots d truncate : m_stream d = None → env_ok d →
  (∀ i, (i ≤ maxFiles)%nat → content (path i) d = text (slots i)) →
  wp (RotatingFileSink_make stem ext maxFileSize maxFiles truncate) d
    (λ _ d', (0 < maxFiles)%nat ∧ shows (files d) (opened truncate slots) d') (λ _ _, True).
Proof.
  intros Hst He Hc. unfold RotatingFileSink_make. destruct (Nat.eqb_spec maxFileSize 0); [done|].
  destruct (Nat.eqb_spec maxFiles 0); [done|].
  assert (Hs : shows (files d) slots d).
  { split; try done.
    - unfold pending. rewrite Hst, app_nil_r. apply (Hc 0%nat). lia.
    - intros i Hi. apply Hc. lia.
    - congruence. }
  eapply wp_mono; [by eapply open_run| |done]. intros [] d' [? _]. split; [lia|done].
Qed.
End rotating_facts.

(** C26: what a rotating log keeps while its stream does not fail.  Start a sink on a directory
    whose files hold whole lines, and let it write and flush, whatever operations on the
    directory fail, as long as the operations of the open stream itself (the insertions, [flush]
    and [close]) succeed ([faults d0 = []]).  Every line whose [write] returned entered the log
    (all of them, if nothing fails), and the files, from the oldest to the newest, with what the
    stream still keeps, hold exactly the last of all lines, in order: only whole lines, and only
    the oldest ones, are ever dropped.  Unless a [file_size] fails ([size_failures]), no file is
    longer than the larger of [maxFileSize] and the longest line, plus the buffer of the stream.
    No other file of the directory is touched.  What a failing stream and a failing [file_size]
    do is shown by [write_returns_whole], [failed_write_leaves_part], [rotation_loses_lines] and
    [failed_size_stops_rotation]. *)
Theorem rotating_keeps_newest bufsize stem ext maxFileSize maxFiles longest d0 slots0 truncate d1 ops :
  m_stream d0 = None → faults d0 = [] →
  (∀ i, (i ≤ maxFiles)%nat → content (path stem ext i) d0 = text (slots0 i)) →
  fits bufsize maxFileSize maxFiles longest slots0 →
  Forall (λ o, match o with OpWrite l => (length l + 1 ≤ longest)%nat | OpFlush => True end) ops →
  RotatingFileSink_make stem ext maxFileSize maxFiles truncate d0 = (Ok tt, d1) →
  ∃ ls d slots older,
    run_sink (RotatingFileSink_write bufsize stem ext maxFileSize maxFiles) flush ops d1 = (Ok ls, d) ∧
    ls `sublist_of` lines ops ∧ (failures d0 = [] → ls = lines ops) ∧
    flat maxFiles (opened truncate slots0) ++ ls = older ++ flat maxFiles slots ∧
    content (filePath stem ext) d ++ pending d = text (slots 0%nat) ∧
    (∀ i, (0 < i ≤ maxFiles)%nat → content (rotatedPath stem ext i) d = text (slots i)) ∧
    (size_failures d0 = [] →
     ∀ i, (i ≤ maxFiles)%nat → (length (content (path stem ext i) d) ≤ bufsize + Nat.max maxFileSize longest)%nat) ∧
    (∀ p, (∀ i, (i ≤ maxFiles)%nat → p ≠ path stem ext i) → files d !! p = files d0 !! p).
Proof.
  intros Hst Hfa Hc Hf Hops Hmake.
  assert (He : env_ok (failures d0 ≠ []) (size_failures d0 = []) d0).
  { split_and!; try done. rewrite Hst. by intros [? ?]. }
  pose proof (make_run bufsize stem ext maxFileSize maxFiles longest _ _ slots0 d0 truncate Hst He Hc) as Hm.
  unfold wp in Hm. rewrite Hmake in Hm. destruct Hm as (Hpos & Hs).
  pose proof (fits_opened bufsize maxFileSize maxFiles longest truncate slots0 Hf) as Hf1.
  destruct (wp_inv _ _ _ (rotating_run bufsize stem ext maxFileSize maxFiles longest _ _ (files d0) ops _ d1 Hs (λ _, Hf1) Hpos Hops))
    as (ls & d & E & (Hsub & Hall) & slots & [H1 H2 H3 H4 H5] & Hf2 & older & Ho).
  exists ls, d, slots, older. split_and!; try done.
  - intros Hn. by destruct Hall.
  - intros [|i] Hi; [lia|]. exact (H2 (S i) Hi).
  - intros Hz. specialize (Hf2 Hz). intros [|i] Hi; [|by rewrite (H2 (S i)) by lia; apply Hf2].
    pose proof (Hf2 0%nat ltac:(lia)) as Hl. rewrite <- H1, length_app in Hl. cbn [path]. lia.
Qed.

(** ** Daily files *)

Section daily_facts.
Context (bufsize : nat) (stem ext : str).
Abbreviation datedPath := (datedPath stem ext).

Lemma datedPath_inj a b : datedPath a = datedPath b → a = b.
Proof.
  unfold Sink.datedPath. destruct ext; intros E; [by apply app_inv_head, app_inv_head in E|].
  by apply app_inv_head, app_inv_head, app_inv_tail in E.
Qed.

(** What file [p] holds once the stream has passed everything on *)
Definition whole (p : str) (d : Disk) : str :=
  content p d ++ match m_stream d with Some (p', b) => if decide (p' = p) then b else [] | None => [] end.

Lemma whole_same p d d' : same d d' → whole p d' = whole p d.
Proof. intros (Ef & Es & _). unfold whole, content. by rewrite Ef, Es. Qed.

Lemma whole_appended p q t d d' : appended bufsize q t d d' → whole p d' = whole p d ++ if decide (p = q) then t else [].
Proof.
  intros (b & x & y & Hst & E & Ef & Es & _). unfold whole, content. rewrite Es, Ef, Hst.
  destruct (decide (q = p)) as [->|Hn].
  - rewrite lookup_insert_eq, decide_True by done. cbn. by rewrite <- !app_assoc, E.
  - by rewrite lookup_insert_ne, decide_False, !app_nil_r by congruence.
Qed.

Lemma whole_flushed p q d d' : appended bufsize q [] d d' → whole p d' = whole p d.
Proof. intros Ha. rewrite (whole_appended p _ _ _ _ Ha). by destruct (decide _); rewrite app_nil_r. Qed.

(** The stream does not fail. *)
Definition untroubled (d : Disk) : Prop := faults d = [] ∧ (is_Some (m_stream d) → m_bad d = false).

Lemma untroubled_clean d p b : untroubled d → m_stream d = Some (p, b) → clean d.
Proof. intros [Hf Hb] E. split; [apply Hb; by rewrite E|done]. Qed.

Lemma untroubled_appended q t d d' : untroubled d → appended bufsize q t d d' → untroubled d'.
Proof.
  intros Hu Ha. pose proof Ha as (b & _ & _ & Hst & _). pose proof (clean_appended _ _ _ _ _ (untroubled_clean _ _ _ Hu Hst) Ha) as [? ?].
  by split.
Qed.

Lemma untroubled_same d d' : same d d' → untroubled d → untroubled d'.
Proof. intros (_ & Es & _ & Ef & Eb & _). unfold untroubled. by rewrite Es, Ef, Eb. Qed.

Lemma whole_close d : untroubled d → is_open d = true →
  wp (stream_flush;;; stream_close) d (λ _ d', untroubled d' ∧ m_stream d' = None ∧ ∀ p, whole p d' = whole p d) nothrow.
Proof.
  intros Hu Ho. apply bool_decide_eq_true in Ho as [[q b] Hst]. pose proof (untroubled_clean _ _ _ Hu Hst) as Hc.
  apply (wp_calm _ _ _ _ _ _ (stream_flush_run bufsize _ _ _ Hst Hc)). intros [] d1 [Ha _].
  pose proof (untroubled_appended _ _ _ _ Hu Ha) as Hu1. pose proof Ha as (_ & _ & y & _ & _ & _ & Hst1 & _).
  eapply wp_mono; [apply (stream_close_run bufsize _ _ _ Hst1), (untroubled_clean _ _ _ Hu1 Hst1)| |done].
  intros [] d' (d2 & Ha2 & Hp & ->). split_and!; [|done|].
  - destruct (untroubled_appended _ _ _ _ Hu1 Ha2) as [? _]. split; [done|]. by intros [? ?].
  - intros p. rewrite <- (whole_flushed p _ _ _ Ha), <- (whole_flushed p _ _ _ Ha2).
    destruct Ha2 as (_ & _ & y2 & _ & _ & _ & Hst2 & _). unfold pending in Hp. rewrite Hst2 in Hp. subst y2.
    unfold whole, content. cbn. rewrite Hst2. by destruct (decide _).
Qed.

Lemma whole_open q truncate d : untroubled d → m_stream d = None →
  wp (stream_open q truncate) d
    (λ _ d', untroubled d' ∧ m_stream d' = Some (q, []) ∧ ∀ p, whole p d' = if truncate && bool_decide (p = q) then [] else whole p d)
    (λ _ d', untroubled d' ∧ m_stream d' = None ∧ ∀ p, whole p d' = whole p d).
Proof.
  intros Hu Hst. unfold stream_open. apply wp_get. rewrite Hst. apply succeeds_wp; intros d' Hsm.
  - pose proof (untroubled_same _ _ Hsm Hu) as [Hf _]. apply wp_modify. split_and!; [by split|done|].
    intros p. rewrite <- (whole_same p d d' Hsm). destruct Hsm as (Ef & Es & _). unfold whole, content. cbn. rewrite Es, Hst.
    destruct (decide (q = p)) as [->|Hn].
    + rewrite lookup_insert_eq, bool_decide_true by done. by destruct truncate; cbn; rewrite ?app_nil_r.
    + rewrite lookup_insert_ne, bool_decide_false, andb_false_r by congruence. done.
  - intros _. pose proof (untroubled_same _ _ Hsm Hu) as [Hf _]. apply wp_modify_seq. pose proof Hsm as (_ & Es & _).
    split_and!; [split; [done|]; cbn; rewrite Es, Hst; by intros [? ?]|by cbn; rewrite Es|].
    intros p. by apply (whole_same p d d').
Qed.

Lemma whole_write l d q b : untroubled d → m_stream d = Some (q, b) →
  wp (stream_write bufsize l) d
    (λ _ d', untroubled d' ∧ (∃ b', m_stream d' = Some (q, b')) ∧
       ∀ p, whole p d' = whole p d ++ if decide (p = q) then line_of l else []) nothrow.
Proof.
  intros Hu Hst. eapply wp_mono; [apply (write_run bufsize _ _ l _ Hst), (untroubled_clean _ _ _ Hu Hst)| |done].
  intros [] d' Ha. split_and!; [by eapply untroubled_appended| |intros p; by apply whole_appended].
  destruct Ha as (_ & _ & y & _ & _ & _ & Hst' & _). eauto.
Qed.

(** The stream, if open, is that of the current date. *)
Definition dated (d : Daily) : Prop :=
  untroubled (disk d) ∧ ∀ p b, m_stream (disk d) = Some (p, b) → p = datedPath (m_currentDate d).

Lemma on_disk_run m d Q E : wp m (disk d) (λ _ k, Q tt (mkDaily k (m_currentDate d))) (λ x k, E x (mkDaily k (m_currentDate d))) →
  wp (on_disk m) d Q E.
Proof. intros H. unfold on_disk. apply wp_get. unfold wp in *. by destruct (m (disk d)) as [[[]| | |] k]. Qed.

Lemma parent_run d : untroubled d →
  wp ensureParentDirectory d (λ _ d', untroubled d' ∧ m_stream d' = m_stream d ∧ ∀ p, whole p d' = whole p d)
    (λ _ d', untroubled d' ∧ m_stream d' = m_stream d ∧ ∀ p, whole p d' = whole p d).
Proof.
  intros Hu. apply attempt_wp; intros d' Hsm; [|intros _]; (split; [by eapply untroubled_same|]);
    (split; [|intros p; by apply whole_same]); by destruct Hsm as (_ & ? & _).
Qed.

Lemma openForDate_run date truncate d : untroubled (disk d) →
  wp (openForDateNoLock stem ext date truncate) d
    (λ _ d', untroubled (disk d') ∧ m_currentDate d' = date ∧ m_stream (disk d') = Some (datedPath date, []) ∧
       ∀ p, whole p (disk d') = if truncate && bool_decide (p = datedPath date) then [] else whole p (disk d))
    (λ _ d', dated d' ∧ ∀ p, whole p (disk d') = whole p (disk d)).
Proof.
  intros Hu. unfold openForDateNoLock. apply wp_get.
  apply (wp_calm _ _ _ (λ _ d', untroubled (disk d') ∧ m_stream (disk d') = None ∧ ∀ p, whole p (disk d') = whole p (disk d))).
  { destruct (is_open (disk d)) eqn:Ho.
    - apply on_disk_run. eapply wp_mono; [by apply whole_close|naive_solver|done].
    - apply bool_decide_eq_false in Ho. apply wp_ret. split_and!; try done. destruct (m_stream (disk d)); [by destruct Ho|done]. }
  intros [] d1 (Hu1 & Hst1 & Hw1).
  apply (wp_seq _ _ _ (λ _ d', untroubled (disk d') ∧ m_stream (disk d') = None ∧ ∀ p, whole p (disk d') = whole p (disk d))).
  { apply on_disk_run. eapply wp_mono; [by apply parent_run|..].
    - intros [] k (Hk & Hs & Hw). cbn. split_and!; [done|congruence|]. intros p. by rewrite Hw.
    - intros x k (Hk & Hs & Hw). unfold dated. cbn. split; [split; [done|intros p b E; congruence]|]. intros p. by rewrite Hw. }
  intros [] d2 (Hu2 & Hst2 & Hw2).
  apply (wp_seq _ _ _ (λ _ d', untroubled (disk d') ∧ m_stream (disk d') = Some (datedPath date, []) ∧
    ∀ p, whole p (disk d') = if truncate && bool_decide (p = datedPath date) then [] else whole p (disk d))).
  { apply on_disk_run. eapply wp_mono; [by apply whole_open|..].
    - intros [] k (Hk & Hs & Hw). cbn. split_and!; [done..|]. intros p. by rewrite Hw, Hw2.
    - intros x k (Hk & Hs & Hw). unfold dated. cbn. split; [split; [done|intros p b E; congruence]|]. intros p. by rewrite Hw. }
  intros [] d3 (Hu3 & Hst3 & Hw3). by apply wp_modify.
Qed.

Lemma daily_write_run date l d : dated d →
  wp (DailyFileSink_write bufsize stem ext date l) d
    (λ _ d', dated d' ∧ ∀ p, whole p (disk d') = whole p (disk d) ++ if decide (p = datedPath date) then line_of l else [])
    (λ _ d', dated d' ∧ ∀ p, whole p (disk d') = whole p (disk d)).
Proof.
  intros [Hu Hd]. unfold DailyFileSink_write. apply wp_get.
  apply (wp_seq _ _ _ (λ _ d', untroubled (disk d') ∧ m_currentDate d' = date ∧ (∃ b, m_stream (disk d') = Some (datedPath date, b)) ∧
    ∀ p, whole p (disk d') = whole p (disk d))).
  { destruct (negb (is_open (disk d)) || negb (bool_decide (date = m_currentDate d))) eqn:Ec.
    - eapply wp_mono; [by apply openForDate_run| |done]. intros [] d' (Hk & Hc & Hs & Hw). cbn in Hw. eauto.
    - apply orb_false_iff in Ec as [Eo%negb_false_iff Ed%negb_false_iff]. unfold is_open in Eo.
      apply bool_decide_eq_true in Eo as [[p b] Hst]. apply bool_decide_eq_true in Ed as ->.
      apply wp_ret. split_and!; try done. rewrite <- (Hd p b Hst). eauto. }
  intros [] d1 (Hu1 & Hc & (b & Hst) & Hw). apply on_disk_run.
  eapply wp_mono; [by eapply whole_write| |done].
  intros [] k (Hk & [b' Hst'] & Hw'). unfold dated. cbn.
  split; [split; [done|intros p b0; rewrite Hst', Hc; congruence]|]. intros p. by rewrite Hw', Hw.
Qed.

Lemma daily_flush_run d : dated d → wp DailyFileSink_flush d (λ _ d', dated d' ∧ ∀ p, whole p (disk d') = whole p (disk d)) nothrow.
Proof.
  intros [Hu Hd]. apply on_disk_run. unfold flush. apply wp_get. unfold is_open. case_bool_decide as Ho; [|by apply wp_ret; destruct d].
  destruct Ho as [[q b] Hst]. apply (wp_calm _ _ _ _ _ _ (stream_flush_run bufsize _ _ _ Hst (untroubled_clean _ _ _ Hu Hst))).
  intros [] k [Ha _]. pose proof (untroubled_appended _ _ _ _ Hu Ha) as Hk. pose proof Ha as (_ & _ & y & _ & _ & _ & Hst' & _).
  apply check_good_run; [by eapply untroubled_clean|]. split; [|intros p; by eapply whole_flushed].
  split; [done|]. cbn. rewrite Hst'. intros p b0 [= <- <-]. by eapply Hd.
Qed.

(** The lines of one day *)
Definition of_day (date : str) (ls : list (str * str)) : list str := snd <$> filter (λ x, x.1 = date) ls.

Lemma daily_run ops : ∀ d, dated d →
  wp (run_sink (λ x, DailyFileSink_write bufsize stem ext x.1 x.2) DailyFileSink_flush ops) d
    (λ ls d', ls `sublist_of` lines ops ∧ dated d' ∧
       ∀ date, whole (datedPath date) (disk d') = whole (datedPath date) (disk d) ++ text (of_day date ls)) nothrow.
Proof.
  induction ops as [|o ops IH]; intros d Hd.
  { apply wp_ret. split_and!; try done. intros date. cbn. by rewrite app_nil_r. }
  unfold wp. cbn [run_sink].
  set (step := match o with OpWrite l => DailyFileSink_write bufsize stem ext l.1 l.2 | OpFlush => DailyFileSink_flush end).
  assert (Hstep : wp step d (λ _ d', dated d' ∧ ∀ date, whole (datedPath date) (disk d') = whole (datedPath date) (disk d) ++
       text (of_day date (match o with OpWrite l => [l] | OpFlush => [] end)))
    (λ _ d', dated d' ∧ ∀ p, whole p (disk d') = whole p (disk d))).
  { unfold step. destruct o as [[day l]|].
    - eapply wp_mono; [by apply daily_write_run| |done]. intros [] d' [Hd' Hw]. split; [done|]. intros date. rewrite Hw. f_equal.
      unfold of_day. cbn [fst snd]. destruct (decide (datedPath date = datedPath day)) as [E%datedPath_inj|Hn].
      + subst. rewrite filter_cons_True by done. unfold text. cbn. by rewrite app_nil_r.
      + rewrite filter_cons_False; [done|]. cbn. congruence.
    - eapply wp_mono; [by apply daily_flush_run| |done]. intros [] d' [Hd' Hw]. split; [done|]. intros date. rewrite Hw. cbn. by rewrite app_nil_r. }
  unfold wp in Hstep. destruct (step d) as [[] d1]; try done; destruct Hstep as [Hd1 Hw1].
  - apply (wp_seq _ _ _ _ _ _ (IH d1 Hd1)). intros ls d2 (Hsub & Hd2 & Hw2). apply wp_ret. split_and!; [|done|].
    + unfold lines. cbn [fmap list_fmap concat]. fold (lines ops). destruct o; cbn [app]; [by apply sublist_skip|done].
    + intros date. rewrite Hw2, Hw1, <- app_assoc. f_equal. destruct o as [x|]; [|done].
      rewrite <- text_app. f_equal. unfold of_day. by rewrite <- fmap_app, <- filter_app.
  - eapply wp_mono; [by apply IH| |done]. intros ls d2 (Hsub & Hd2 & Hw2). split_and!; [|done|].
    + unfold lines. cbn [fmap list_fmap concat]. by apply sublist_inserts_l.
    + intros date. by rewrite Hw2, Hw1.
Qed.
End daily_facts.

(** Every line of a daily log is in the file of its day, in order, whatever operations on the
    directory fail, while the stream does not; a line whose [write] threw is in no file. *)
Lemma daily_exact bufsize stem ext today truncate d0 d1 ops : m_stream (disk d0) = None → faults (disk d0) = [] →
  openForDateNoLock stem ext today truncate d0 = (Ok tt, d1) →
  ∃ ls d, run_sink (λ x, DailyFileSink_write bufsize stem ext x.1 x.2) DailyFileSink_flush ops d1 = (Ok ls, d) ∧
    ls `sublist_of` lines ops ∧
    ∀ date, whole (datedPath stem ext date) (disk d) =
      (if truncate && bool_decide (date = today) then [] else content (datedPath stem ext date) (disk d0)) ++ text (of_day date ls).
Proof.
  intros Hst Hfa E. assert (Hu : untroubled (disk d0)) by (split; [done|]; rewrite Hst; by intros [? ?]).
  pose proof (openForDate_run 0 stem ext today truncate d0 Hu) as Ho. unfold wp in Ho. rewrite E in Ho.
  destruct Ho as (Hu1 & Hc & Hs & Hw).
  assert (Hd : dated stem ext d1) by (split; [done|]; intros p b; rewrite Hs, Hc; congruence).
  destruct (wp_inv _ _ _ (daily_run bufsize stem ext ops d1 Hd)) as (ls & d & Er & Hsub & _ & Hw2).
  exists ls, d. split_and!; try done. intros date. rewrite Hw2, Hw. f_equal.
  unfold whole. rewrite Hst, app_nil_r.
  assert (Hb : bool_decide (datedPath stem ext date = datedPath stem ext today) = bool_decide (date = today)).
  { apply bool_decide_ext. split; [apply datedPath_inj|by intros ->]. }
  by rewrite Hb.
Qed.

(** ** A run: two rotated files, lines of two bytes, files of five, no buffer; and one with a
    buffer, in which the file gets longer than [maxFileSize]. *)

Definition ex_disk : Disk := mkDisk ∅ [] [] [] [] None false.
Definition ex_ops : list (SinkOp str) := [OpWrite (lit "a"); OpWrite (lit "b"); OpWrite (lit "c"); OpFlush; OpWrite (lit "d"); OpWrite (lit "e")].

Lemma rotating_keeps_newest_witness : ∃ d1 ls d slots older,
  RotatingFileSink_make (lit "app") (lit ".log") 5 1 false ex_disk = (Ok tt, d1) ∧
  run_sink (RotatingFileSink_write 0 (lit "app") (lit ".log") 5 1) flush ex_ops d1 = (Ok ls, d) ∧
  ls = lines ex_ops ∧ ls = older ++ flat 1 slots ∧
  content (filePath (lit "app") (lit ".log")) d ++ pending d = text (slots 0%nat).
Proof.
  destruct (rotating_keeps_newest 0 (lit "app") (lit ".log") 5 1 5 ex_disk (λ _, []) false
    (snd (RotatingFileSink_make (lit "app") (lit ".log") 5 1 false ex_disk)) ex_ops eq_refl eq_refl) as (ls & d & slots & older & E & _ & Hall & Ho & H0 & _).
  - intros i _. reflexivity.
  - intros i _. cbn. lia.
  - repeat constructor; cbn; lia.
  - vm_compute. reflexivity.
  - exists (snd (RotatingFileSink_make (lit "app") (lit ".log") 5 1 false ex_disk)), ls, d, slots, older.
    split; [vm_compute; reflexivity|]. split; [exact E|]. split; [exact (Hall eq_refl)|]. split; [|exact H0].
    exact Ho.
Defined.

(** [currentFileSizeNoLock] asks for the size of the file and does not see what the stream
    keeps: with a buffer of 100 bytes ten lines of two bytes go into a file of at most 5. *)
Theorem rotation_ignores_buffer :
  let k := RotatingFileSink_write 100 (lit "app") (lit ".log") 5 1 in
  let d1 := snd (RotatingFileSink_make (lit "app") (lit ".log") 5 1 false ex_disk) in
  let d := snd (run_sink k flush (replicate 10 (OpWrite (lit "x")) ++ [OpFlush]) d1) in
  length (content (filePath (lit "app") (lit ".log")) d) = 20%nat.
Proof. vm_compute. reflexivity. Qed.

(** ** A stream that fails *)

Lemma insert_good bufsize t d d' : stream_insert bufsize t d = (Ok tt, d') → m_bad d' = false →
  ∃ p b b', m_stream d = Some (p, b) ∧ m_stream d' = Some (p, b') ∧ m_bad d = false ∧
    content p d' ++ b' = content p d ++ b ++ t.
Proof.
  unfold stream_insert. cbn. destruct (m_stream d) as [[p b]|] eqn:Est; [|by intros [= <-]].
  destruct (m_bad d) eqn:Hb; [intros [= <-]; congruence|]. destruct (default None (head (faults d))) as [f|] eqn:Ef.
  - unfold next_fault, bind, get, modify, ret. rewrite Ef. by intros [= <-].
  - unfold next_fault, next_spill, bind, get, modify, ret. rewrite Ef. intros [= <-] _. unfold pass_on. cbn.
    eexists p, b, _. split_and!; try done. unfold content. cbn. rewrite lookup_insert_eq. cbn. by rewrite <- app_assoc, take_drop.
Qed.

(** Whatever fails, a [write] that returns has put its line, whole, after what there was in the
    file and in the buffer of the stream, and a [flush] that returns has emptied the buffer. *)
Theorem write_returns_whole bufsize l d d' :
  (stream_write bufsize l d = (Ok tt, d') →
   ∃ p b b', m_stream d = Some (p, b) ∧ m_stream d' = Some (p, b') ∧ content p d' ++ b' = content p d ++ b ++ line_of l) ∧
  (flush d = (Ok tt, d') → pending d' = []).
Proof.
  split.
  - unfold stream_write, bind. assert (Hi : ∀ t k, ∃ k', stream_insert bufsize t k = (Ok tt, k')).
    { intros t k. unfold stream_insert, next_fault, next_spill, bind, get, modify, ret. destruct (m_stream k) as [[p b]|]; [|eauto].
      destruct (m_bad k); [eauto|]. destruct (default None (head (faults k))); eauto. }
    destruct (Hi l d) as [d1 E1]. rewrite E1. destruct (Hi [newline] d1) as [d2 E2]. rewrite E2.
    unfold check_good, bind, get. destruct (m_bad d2) eqn:Hb; [done|]. intros [= <-].
    destruct (insert_good _ _ _ _ E2 Hb) as (p & b1 & b2 & S1 & S2 & Hb1 & C2).
    destruct (insert_good _ _ _ _ E1 Hb1) as (p' & b & b1' & S & S1' & _ & C1).
    assert (p' = p ∧ b1' = b1) as [-> ->] by (by rewrite S1 in S1'; simplify_eq).
    exists p, b, b2. split_and!; try done. rewrite C2, app_assoc, C1. unfold line_of. by rewrite <- !app_assoc.
  - unfold flush, stream_flush, check_good, next_fault, is_open, bind, get, modify, ret. case_bool_decide as Ho.
    + destruct (m_bad d) eqn:Hb; [by rewrite Hb|]. destruct (default None (head (faults d))) as [f|]; cbn; [done|].
      destruct Ho as [[p b] Hst]. unfold pass_on, keeps. cbn. rewrite Hst. cbn. rewrite Hb. intros [= <-]. unfold pending. cbn. by rewrite drop_all.
    + intros [= <-]. unfold pending. destruct (m_stream d); [by destruct Ho|done].
Qed.

(** A [write] that fails may leave a part of its line; the stream takes nothing more until it
    is opened again, and nothing but a rotation opens it. *)
Theorem failed_write_leaves_part :
  let d0 := mkDisk ∅ [] [] [] [None; None; Some (mkFault 1 1)] None false in
  let d1 := snd (RotatingFileSink_make (lit "app") (lit ".log") 50 1 false d0) in
  let '(r, d) := run_sink (RotatingFileSink_write 0 (lit "app") (lit ".log") 50 1) flush
    [OpWrite (lit "a"); OpWrite (lit "bc"); OpWrite (lit "d"); OpFlush] d1 in
  r = Ok [lit "a"] ∧ content (lit "app.log") d = lit "a" ++ [newline] ++ lit "b".
Proof. vm_compute. by split. Qed.

(** [rotateNoLock] does not look at the state of the stream after [flush] and [close]: when both
    fail the buffered lines are gone, although every [write] and [flush] returned. *)
Theorem rotation_loses_lines :
  let d0 := mkDisk ∅ [] [] [0; 2]%nat (replicate 4 None ++ [Some (mkFault 0 0); Some (mkFault 0 0)]) None false in
  let d1 := snd (RotatingFileSink_make (lit "app") (lit ".log") 3 1 false d0) in
  let '(r, d) := run_sink (RotatingFileSink_write 100 (lit "app") (lit ".log") 3 1) flush
    [OpWrite (lit "a"); OpWrite []; OpWrite (lit "c"); OpFlush] d1 in
  r = Ok [lit "a"; []; lit "c"] ∧ content (lit "app.1.log") d = line_of (lit "a") ∧ content (lit "app.log") d = line_of (lit "c").
Proof. vm_compute. by split. Qed.

(** A [file_size] that fails counts as an empty file, and the file grows. *)
Theorem failed_size_stops_rotation :
  let d0 := mkDisk ∅ [] (replicate 10 true) [] [] None false in
  let d1 := snd (RotatingFileSink_make (lit "app") (lit ".log") 3 1 false d0) in
  let d := snd (run_sink (RotatingFileSink_write 0 (lit "app") (lit ".log") 3 1) flush (replicate 10 (OpWrite (lit "x"))) d1) in
  length (content (lit "app.log") d) = 20%nat.
Proof. vm_compute. reflexivity. Qed.

(** A [FileSink] whose stream went wrong once throws for ever: nothing clears the state. *)
Theorem file_sink_stays_bad bufsize p l d : is_open d = true → m_bad d = true →
  FileSink_write bufsize p l d = (Throw runtime_error, d).
Proof.
  intros Ho Hb. unfold FileSink_write, bind at 1, get. rewrite Ho. cbn [negb].
  pose proof Ho as Ho'. apply bool_decide_eq_true in Ho' as [[q b] Hst].
  unfold stream_write, stream_insert, check_good, bind, get, ret. rewrite Hst, Hb. cbn. rewrite Hst, Hb. cbn. by rewrite Hb.
Qed.
