(* ===== verification/ObjectPool.v ===== *)
(** * [dbase::memory::ObjectPool] (code/include/dbase/memory/object_pool.h)

    A pool of idle objects that threads borrow and give back.  Objects are numbered; a state
    says where each of them is: idle in the pool, in the hands of a thread inside a member
    function, lent as a [unique_ptr] ([out]) or as a [shared_ptr] ([shared]), or freed.  An
    action is one step of one thread: a critical section, an access to an atomic, a call of a
    user's callback (with its outcome).  [bad] records that a step touched the members of a
    pool that was destroyed.  A reset callback that throws inside the deleter of a
    [shared_ptr] ends the program and is left out; allocation succeeds. *)

From S2P Require Import Prelude.
From stdpp Require Import base gmap list.
From Stdlib Require Import ZArith Lia.

Inductive Outcome : Type := Fine | Null | Throws.   (* of a callback *)

(** [sh]: inside [makeShared]; [del]: inside the deleter *)
Inductive PC : Type :=
  | Idle
  | ACount (sh : bool)
  | ALock (sh : bool)
  | ACreate (sh : bool)
  | AFactory (sh : bool) (f : bool)
  | ACounted (sh : bool) (o : nat)
  | CMake
  | RCopy (o : nat) (del : bool)
  | RCall (o : nat) (r del : bool)
  | RCount (o : nat)
  | RPush (o : nat)
  | VLock (count : nat)
  | VCreate (n : nat) (created : list nat)
  | VFactory (n : nat) (created : list nat) (f : bool)
  | VCounted (n : nat) (created : list nat) (o : nat)
  | VPush (created : list nat)
  | DCheck (o : nat).

Record ObjectPool : Type := mkPool {
  m_maxIdle : nat;
  m_idle : list nat;            (* the back of the vector first *)
  m_resetCallback : bool;
  m_factoryCallback : bool;
  m_totalCreated : nat;
  m_totalAcquired : nat;
  m_totalReleased : nat;
}.

Record State : Type := mkState {
  pool : ObjectPool;
  alive : bool;
  threads : list PC;
  next : nat;                   (* objects made so far *)
  out : list nat;
  shared : list nat;
  freed : list nat;
  dirty : gset nat;             (* used since they were made or reset *)
  bad : bool;
}.

Definition set_idle l p := mkPool (m_maxIdle p) l (m_resetCallback p) (m_factoryCallback p) (m_totalCreated p)
  (m_totalAcquired p) (m_totalReleased p).
Definition set_callbacks r f p := mkPool (m_maxIdle p) (m_idle p) r f (m_totalCreated p)
  (m_totalAcquired p) (m_totalReleased p).
Definition set_totals c a r p := mkPool (m_maxIdle p) (m_idle p) (m_resetCallback p) (m_factoryCallback p) c a r.

Definition goto (t : nat) (p : PC) (s : State) : State :=
  mkState (pool s) (alive s) (<[t := p]> (threads s)) (next s) (out s) (shared s) (freed s) (dirty s) (bad s).
(** Access to the members *)
Definition on_pool (f : ObjectPool → ObjectPool) (s : State) : State :=
  mkState (f (pool s)) (alive s) (threads s) (next s) (out s) (shared s) (freed s) (dirty s) (bad s || negb (alive s)).
Definition made (s : State) : State :=
  mkState (pool s) (alive s) (threads s) (S (next s)) (out s) (shared s) (freed s) (dirty s) (bad s).
Definition free (os : list nat) (s : State) : State :=
  mkState (pool s) (alive s) (threads s) (next s) (out s) (shared s) (os ++ freed s) (dirty s) (bad s).
Definition give (sh : bool) (o : nat) (s : State) : State :=
  mkState (pool s) (alive s) (threads s) (next s) (if sh then out s else o :: out s) (if sh then o :: shared s else shared s)
    (freed s) (dirty s) (bad s).
Definition take_back (o : nat) (s : State) : State :=
  mkState (pool s) (alive s) (threads s) (next s) (filter (λ x, x ≠ o) (out s)) (filter (λ x, x ≠ o) (shared s))
    (freed s) (dirty s) (bad s).
Definition set_dirty (d : gset nat) (s : State) : State :=
  mkState (pool s) (alive s) (threads s) (next s) (out s) (shared s) (freed s) d (bad s).

(** ** The members *)

Definition count_created (p : ObjectPool) : ObjectPool :=
  set_totals (S (m_totalCreated p)) (m_totalAcquired p) (m_totalReleased p) p.
Definition count_acquired (p : ObjectPool) : ObjectPool :=
  set_totals (m_totalCreated p) (S (m_totalAcquired p)) (m_totalReleased p) p.
Definition count_released (p : ObjectPool) : ObjectPool :=
  set_totals (m_totalCreated p) (m_totalAcquired p) (S (m_totalReleased p)) p.

(** The last loop of [reserve]: what goes into the pool, and what is left over *)
Fixpoint fill (maxIdle : nat) (created idle : list nat) : list nat * list nat :=
  match created with
  | [] => (idle, [])
  | o :: created => if (maxIdle <=? length idle)%nat then (idle, o :: created) else fill maxIdle created (o :: idle)
  end.

Definition clear (s : State) : State := free (m_idle (pool s)) (on_pool (set_idle []) s).

(** A factory that throws leaves [createObject]; one that returns null is ignored. *)
Definition throws (f : bool) (x : Outcome) : bool := f && match x with Throws => true | _ => false end.

Definition thread_step (t : nat) (x : Outcome) (s : State) : option State :=
  let p := pool s in
  match threads s !! t with
  | None | Some Idle => None
  | Some (ACount sh) => Some (goto t (ALock sh) (on_pool count_acquired s))
  | Some (ALock sh) =>
      match m_idle p with
      | o :: idle => Some (goto t Idle (give sh o (on_pool (set_idle idle) s)))
      | [] => Some (goto t (ACreate sh) (on_pool id s))
      end
  | Some (ACreate sh) => Some (goto t (AFactory sh (m_factoryCallback p)) (on_pool id s))
  | Some (AFactory sh f) => Some (if throws f x then goto t Idle s else goto t (ACounted sh (next s)) (made s))
  | Some (ACounted sh o) => Some (goto t Idle (give sh o (on_pool count_created s)))
  | Some CMake => Some (goto t Idle (give false (next s) (made s)))
  | Some (RCopy o del) => Some (goto t (RCall o (m_resetCallback p) del) (on_pool id s))
  | Some (RCall o r del) =>
      if throws r x then if del then None else Some (goto t Idle (free [o] s))
      else Some (goto t (RCount o) (if r then set_dirty (dirty s ∖ {[o]}) s else s))
  | Some (RCount o) =>
      let s := on_pool count_released s in
      Some (if (m_maxIdle p =? 0)%nat then goto t Idle (free [o] s) else goto t (RPush o) s)
  | Some (RPush o) =>
      Some (if (length (m_idle p) <? m_maxIdle p)%nat then goto t Idle (on_pool (set_idle (o :: m_idle p)) s)
            else goto t Idle (free [o] (on_pool id s)))
  | Some (VLock count) =>
      let idle := length (m_idle p) in
      Some (goto t (if (count <=? idle)%nat || (m_maxIdle p <=? idle)%nat then Idle
                    else VCreate ((if (count <? m_maxIdle p)%nat then count else m_maxIdle p) - idle) []) (on_pool id s))
  | Some (VCreate O created) => Some (goto t (VPush created) s)
  | Some (VCreate (S n) created) => Some (goto t (VFactory n created (m_factoryCallback p)) (on_pool id s))
  | Some (VFactory n created f) =>
      Some (if throws f x then goto t Idle (free created s) else goto t (VCounted n created (next s)) (made s))
  | Some (VCounted n created o) => Some (goto t (VCreate n (created ++ [o])) (on_pool count_created s))
  | Some (VPush created) =>
      let '(idle, rest) := fill (m_maxIdle p) created (m_idle p) in
      Some (goto t Idle (free rest (on_pool (set_idle idle) s)))
  | Some (DCheck o) => Some (if alive s then goto t (RCopy o true) s else goto t Idle (free [o] s))
  end.

Inductive Call : Type :=
  | CAcquire
  | CMakeShared
  | CRelease (o : option nat)       (* null: nothing happens *)
  | CReserve (count : nat)
  | CCreate
  | CClear
  | CSetResetCallback (set : bool)
  | CSetFactoryCallback (set : bool)
  (* what the user does with objects *)
  | CDrop (o : nat)                 (* the last [shared_ptr] to [o] goes *)
  | CFree (o : nat)                 (* a [unique_ptr] is destroyed outside the pool *)
  | CUse (o : nat).

Definition is_in (o : nat) (l : list nat) : bool := bool_decide (o ∈ l).

Definition begin (t : nat) (c : Call) (s : State) : option State :=
  let p := pool s in
  match c with
  | CAcquire => Some (goto t (ACount false) s)
  | CMakeShared => Some (goto t (ACount true) s)
  | CRelease None => Some s
  | CRelease (Some o) => if is_in o (out s) then Some (goto t (RCopy o false) (take_back o s)) else None
  | CReserve count =>
      Some (if (count =? 0)%nat || (m_maxIdle p =? 0)%nat then on_pool id s else goto t (VLock count) (on_pool id s))
  | CCreate => Some (goto t CMake (on_pool count_created s))
  | CClear => Some (clear s)
  | CSetResetCallback b => Some (on_pool (set_callbacks b (m_factoryCallback p)) s)
  | CSetFactoryCallback b => Some (on_pool (set_callbacks (m_resetCallback p) b) s)
  | CDrop o => if is_in o (shared s) then Some (goto t (DCheck o) (take_back o s)) else None
  | CFree o => if is_in o (out s) then Some (free [o] (take_back o s)) else None
  | CUse o => if is_in o (out s ++ shared s) then Some (set_dirty ({[o]} ∪ dirty s) s) else None
  end.

Inductive Action : Type :=
  | Thread (t : nat) (x : Outcome)
  | Begin (t : nat) (c : Call)
  | Destroy.                        (* [~ObjectPool] *)

Definition exec (a : Action) (s : State) : option State :=
  match a with
  | Thread t x => thread_step t x s
  | Begin t c => match threads s !! t with Some Idle => begin t c s | _ => None end
  | Destroy =>
      if alive s then
        Some (mkState (set_idle [] (pool s)) false (threads s) (next s) (out s) (shared s) (m_idle (pool s) ++ freed s)
                (dirty s) (bad s))
      else None
  end.

Fixpoint run (acts : list Action) (s : State) : option State :=
  match acts with
  | [] => Some s
  | a :: acts => match exec a s with Some s' => run acts s' | None => None end
  end.

Definition ObjectPool_make (maxIdle : nat) : ObjectPool := mkPool maxIdle [] false false 0 0 0.
Definition init (maxIdle n : nat) : State := mkState (ObjectPool_make maxIdle) true (replicate n Idle) 0 [] [] [] ∅ false.

(** Not inside the pool: idle, or in a deleter that has not looked at the lifetime token yet *)
Definition quiet (p : PC) : bool := match p with Idle | DCheck _ => true | _ => false end.

(** The pool is destroyed when no thread is inside a member, or in a deleter that has found it
    alive, and its members are not called afterwards; shared objects may be dropped before,
    during and after. *)
Definition proper (a : Action) (s : State) : bool :=
  match a with
  | Thread _ _ => true
  | Begin _ c => alive s || match c with CDrop _ | CFree _ | CUse _ | CRelease None => true | _ => false end
  | Destroy => forallb quiet (threads s)
  end.
Fixpoint proper_run (acts : list Action) (s : State) : bool :=
  match acts with
  | [] => true
  | a :: acts => proper a s && match exec a s with Some s' => proper_run acts s' | None => true end
  end.

(** ** Where the objects are *)

Definition holds (p : PC) : list nat :=
  match p with
  | ACounted _ o | RCopy o _ | RCall o _ _ | RCount o | RPush o | DCheck o => [o]
  | VCreate _ c | VFactory _ c _ | VPush c => c
  | VCounted _ c o => o :: c
  | _ => []
  end.

Definition cnt (o : nat) (l : list nat) : nat := tally (λ x, if bool_decide (x = o) then 1%nat else 0%nat) l.

Definition places (o : nat) (s : State) : nat :=
  cnt o (m_idle (pool s)) + tally (λ p, cnt o (holds p)) (threads s) + cnt o (out s) + cnt o (shared s) + cnt o (freed s).

(** Objects made and not counted yet, and counted and not made yet *)
Definition uncounted (p : PC) : nat := match p with ACounted _ _ | VCounted _ _ _ => 1%nat | _ => 0%nat end.
Definition unmade (p : PC) : nat := match p with CMake => 1%nat | _ => 0%nat end.

(** What a thread holds that is clean; [rs]: the reset callback is set. *)
Definition clean_in (rs : bool) (p : PC) : list nat :=
  match p with
  | RCount o | RPush o => if rs then [o] else []
  | VCreate _ c | VFactory _ c _ | VPush c => c
  | VCounted _ c o => o :: c
  | ACounted _ o => [o]
  | _ => []
  end.

(** The reset callback was copied *)
Definition resets (p : PC) : Prop := match p with RCall _ r _ => r = true | _ => True end.

Record inv (rs : bool) (s : State) : Prop := {
  iv_places : ∀ o, places o s = if (o <? next s)%nat then 1%nat else 0%nat;
  iv_max : (length (m_idle (pool s)) ≤ m_maxIdle (pool s))%nat;
  iv_count : (m_totalCreated (pool s) + tally uncounted (threads s) = next s + tally unmade (threads s))%nat;
  iv_dirty : ∀ o, o ∈ dirty s → (o < next s)%nat;
  iv_clean : rs = true → m_resetCallback (pool s) = true ∧ Forall (λ o, o ∉ dirty s) (m_idle (pool s)) ∧
    ∀ t p, threads s !! t = Some p → resets p ∧ Forall (λ o, o ∉ dirty s) (clean_in rs p);
  iv_bad : bad s = false;
  iv_dead : alive s = false → m_idle (pool s) = [] ∧ ∀ t p, threads s !! t = Some p → quiet p = true;
}.

Lemma cnt_nil o : cnt o [] = 0%nat.
Proof. done. Qed.
Lemma cnt_cons o x l : cnt o (x :: l) = ((if bool_decide (x = o) then 1 else 0) + cnt o l)%nat.
Proof. apply tally_cons. Qed.
Lemma cnt_app o l l' : cnt o (l ++ l') = (cnt o l + cnt o l')%nat.
Proof. apply tally_app. Qed.

Lemma cnt_elem o l : o ∈ l ↔ (0 < cnt o l)%nat.
Proof.
  induction l as [|x l IH]; [rewrite cnt_nil; split; [by intros ?%not_elem_of_nil|lia]|].
  rewrite elem_of_cons, cnt_cons, IH. case_bool_decide as E; split.
  - lia.
  - by left.
  - intros [->|?]; [done|lia].
  - right. lia.
Qed.

Lemma cnt_filter o x l : cnt o (filter (λ y, y ≠ x) l) = if bool_decide (o = x) then 0%nat else cnt o l.
Proof.
  induction l as [|y l IH]; [by case_bool_decide|]. rewrite filter_cons. destruct (decide (y ≠ x)) as [Hn|Hn].
  - rewrite !cnt_cons, IH. repeat case_bool_decide; subst; done || congruence.
  - apply dec_stable in Hn as ->. rewrite IH, cnt_cons. repeat case_bool_decide; subst; done || congruence.
Qed.

Lemma fill_cnt m created : ∀ idle o,
  (cnt o (fill m created idle).1 + cnt o (fill m created idle).2 = cnt o created + cnt o idle)%nat.
Proof.
  induction created as [|x created IH]; intros idle o; cbn [fill fst snd]; [rewrite cnt_nil; lia|].
  destruct (_ <=? _)%nat; cbn [fst snd]; [rewrite cnt_cons; lia|]. rewrite IH, !cnt_cons. lia.
Qed.

Lemma fill_max m created : ∀ idle, (length idle ≤ m)%nat → (length (fill m created idle).1 ≤ m)%nat.
Proof.
  induction created as [|x created IH]; intros idle H; cbn [fill fst]; [done|].
  destruct (Nat.leb_spec m (length idle)); cbn [fst]; [done|]. apply IH. cbn. lia.
Qed.

Lemma fill_Forall P m created : ∀ idle, Forall P created → Forall P idle → Forall P (fill m created idle).1.
Proof.
  induction created as [|x created IH]; intros idle Hc Hi; cbn [fill fst]; [done|].
  apply Forall_cons in Hc as [Hx Hc]. destruct (_ <=? _)%nat; cbn [fst]; [done|]. apply IH; [done|]. by constructor.
Qed.

(** Where else the object of a thread can be *)
Lemma place_thread o s t p : threads s !! t = Some p → (cnt o (holds p) ≤ tally (λ p, cnt o (holds p)) (threads s))%nat.
Proof. intros Ht. apply (tally_pos (λ p, cnt o (holds p)) _ t p Ht). Qed.

(** A thread goes from [p] to [p']. *)
Lemma pool_inv_thread rs s s' t p p' : inv rs s → threads s !! t = Some p → threads s' = <[t := p']> (threads s) →
  (∀ o, cnt o (m_idle (pool s')) + cnt o (holds p') + cnt o (out s') + cnt o (shared s') + cnt o (freed s')
        + (if (o <? next s)%nat then 1 else 0)
      = cnt o (m_idle (pool s)) + cnt o (holds p) + cnt o (out s) + cnt o (shared s) + cnt o (freed s)
        + (if (o <? next s')%nat then 1 else 0))%nat →
  (next s ≤ next s')%nat →
  (length (m_idle (pool s')) ≤ m_maxIdle (pool s'))%nat →
  (m_totalCreated (pool s') + uncounted p' + unmade p + next s = m_totalCreated (pool s) + uncounted p + unmade p' + next s')%nat →
  dirty s' ⊆ dirty s →
  (rs = true → m_resetCallback (pool s') = m_resetCallback (pool s) ∧
    (Forall (λ o, o ∉ dirty s) (m_idle (pool s)) → Forall (λ o, o ∉ dirty s) (clean_in rs p) →
     Forall (λ o, o ∉ dirty s') (m_idle (pool s')) ∧ (resets p → m_resetCallback (pool s) = true →
       resets p' ∧ Forall (λ o, o ∉ dirty s') (clean_in rs p')))) →
  alive s' = alive s → (bad s' = bad s ∨ alive s = true ∧ bad s' = (bad s || negb (alive s))) →
  (alive s = true ∨ quiet p' = true ∧ m_idle (pool s') = m_idle (pool s)) → inv rs s'.
Proof.
  intros [H1 H2 H3 H4 H5 H6 H7] Ht Ets Hpl Hnx Hmx Htc Hd Hcl Eal Hbad Hq.
  split; try done.
  - intros o. specialize (H1 o). specialize (Hpl o). unfold places in *. rewrite Ets.
    pose proof (tally_insert (λ p, cnt o (holds p)) _ _ _ p' Ht) as E. cbn beta in E. lia.
  - rewrite Ets. pose proof (tally_insert uncounted _ _ _ p' Ht). pose proof (tally_insert unmade _ _ _ p' Ht). lia.
  - intros o Ho. specialize (H4 o (Hd o Ho)). lia.
  - intros Hrs. destruct (H5 Hrs) as (Hr & Hi & Hts). destruct (Hcl Hrs) as [Er Hc]. destruct (Hts t p Ht) as [Hp1 Hp2].
    destruct (Hc Hi Hp2) as [Hi' Hp']. destruct (Hp' Hp1 Hr) as [Hp3 Hp4]. split_and!; [congruence|done|].
    intros t' q. rewrite Ets. intros [(-> & <- & _)|(_ & Hq')]%list_lookup_insert_Some; [done|].
    destruct (Hts t' q Hq') as [Hq1 Hq2]. split; [done|]. eapply Forall_impl; [exact Hq2|]. cbn. intros o Ho Hin. by apply Ho, Hd.
  - destruct Hbad as [->|[Hal ->]]; [done|]. by rewrite H6, Hal.
  - rewrite Eal. intros Hal. destruct (H7 Hal) as [Hi Hqs]. destruct Hq as [?|[Hq Ei]]; [congruence|]. split; [congruence|].
    intros t' q. rewrite Ets. intros [(-> & <- & _)|(_ & Hq')]%list_lookup_insert_Some; eauto.
Qed.

Lemma below_S o n : ((if (o <? S n)%nat then 1 else 0) = (if bool_decide (n = o) then 1 else 0) + (if (o <? n)%nat then 1 else 0))%nat.
Proof. case_bool_decide; destruct (Nat.ltb_spec o (S n)), (Nat.ltb_spec o n); lia. Qed.

Lemma inv_alive rs s t p : inv rs s → threads s !! t = Some p → quiet p = false → alive s = true.
Proof.
  intros Hi Ht Hq. destruct (alive s) eqn:E; [done|]. destruct (iv_dead _ _ Hi E) as [_ H]. specialize (H t p Ht). congruence.
Qed.

Lemma fresh_clean rs s : inv rs s → next s ∉ dirty s.
Proof. intros Hi Hin. pose proof (iv_dirty _ _ Hi _ Hin). lia. Qed.

Ltac step Hi Ht :=
  eapply (pool_inv_thread _ _ _ _ _ _ Hi Ht); [reflexivity|..];
  cbn [goto on_pool made free give take_back set_dirty set_idle set_totals count_created count_acquired count_released
    pool alive threads next out shared freed dirty bad m_maxIdle m_idle m_resetCallback m_factoryCallback m_totalCreated
    holds uncounted unmade quiet id];
  [intros ?o; rewrite ?below_S, ?cnt_app, ?cnt_cons, ?cnt_nil; try lia|try lia|try (apply Hi)|try lia|try done|try (intros Hrs; split; [done|])
  |try done|try (by left); try (by right)|try (by left)].

(** The objects of the new state are clean. *)
Ltac clean := cbn [clean_in resets]; intros; split; [|intros; split]; rewrite ?Forall_cons, ?Forall_app in *; try done; naive_solver.

Lemma pool_thread_step_inv rs t x s s' : inv rs s → thread_step t x s = Some s' → inv rs s'.
Proof.
  intros Hi. unfold thread_step. cbv zeta. destruct (threads s !! t) as [p|] eqn:Ht; [|done].
  pose proof (inv_alive rs s t p Hi Ht) as Hal. pose proof (fresh_clean rs s Hi) as Hfr.
  destruct p as [|sh|sh|sh|sh f|sh o| |o del|o r del|o|o|count|n created|n created f|n created o|created|o]; try done; cbn [quiet] in Hal.
  - intros [= <-]. specialize (Hal eq_refl). step Hi Ht. clean.
  - specialize (Hal eq_refl). destruct (m_idle (pool s)) as [|o idle] eqn:Ei; intros [= <-].
    + step Hi Ht; rewrite ?Ei; clean.
    + pose proof (iv_max _ _ Hi) as Hmx. rewrite Ei in Hmx. cbn in Hmx.
      destruct sh; step Hi Ht; rewrite ?Ei, ?cnt_cons; try lia; clean.
  - intros [= <-]. specialize (Hal eq_refl). step Hi Ht. clean.
  - destruct (throws f x); intros [= <-]; specialize (Hal eq_refl); step Hi Ht; clean.
  - intros [= <-]. specialize (Hal eq_refl). destruct sh; step Hi Ht; clean.
  - intros [= <-]. specialize (Hal eq_refl). step Hi Ht. clean.
  - intros [= <-]. specialize (Hal eq_refl). step Hi Ht. clean.
  - specialize (Hal eq_refl). destruct (throws r x); [destruct del; [done|]|]; intros [= <-]; [step Hi Ht; clean|].
    destruct r; step Hi Ht; [set_solver| |clean]. cbn [clean_in resets]. intros Hidle _. split.
    + eapply Forall_impl; [exact Hidle|]. cbn. set_solver.
    + intros _ _. split; [done|]. destruct rs; [|done]. apply Forall_singleton. set_solver.
  - specialize (Hal eq_refl). intros [= <-]. destruct (_ =? _)%nat; step Hi Ht; clean.
  - specialize (Hal eq_refl). intros [= <-]. destruct (Nat.ltb_spec (length (m_idle (pool s))) (m_maxIdle (pool s)));
      step Hi Ht; rewrite ?Hrs; cbn [length]; try lia; clean.
  - specialize (Hal eq_refl). intros [= <-]. destruct (_ || _); step Hi Ht; clean.
  - specialize (Hal eq_refl). destruct n as [|n]; intros [= <-]; step Hi Ht; clean.
  - specialize (Hal eq_refl). intros [= <-]. destruct (throws f x); step Hi Ht; clean.
  - specialize (Hal eq_refl). intros [= <-]. step Hi Ht; clean.
  - specialize (Hal eq_refl). destruct (fill _ _ _) as [idle rest] eqn:Ef. intros [= <-].
    pose proof (fill_cnt (m_maxIdle (pool s)) created (m_idle (pool s))) as Hc. rewrite Ef in Hc. cbn [fst snd] in Hc.
    pose proof (fill_max (m_maxIdle (pool s)) created (m_idle (pool s)) (iv_max _ _ Hi)) as Hm. rewrite Ef in Hm.
    step Hi Ht; [specialize (Hc o); lia|done|]. cbn [clean_in resets]. intros Hidle Hcr. split; [|done].
    pose proof (fill_Forall _ (m_maxIdle (pool s)) created _ Hcr Hidle) as H. by rewrite Ef in H.
  - intros [= <-]. destruct (alive s) eqn:Ea; step Hi Ht; try clean; try (by right).
Qed.

(** The same for steps in which the thread stays idle *)
Ltac step_idle Hi Ht :=
  eapply (pool_inv_thread _ _ _ _ _ Idle Hi Ht); [symmetry; by apply list_insert_id|..];
  cbn [clear goto on_pool made free give take_back set_dirty set_idle set_totals set_callbacks count_created count_acquired count_released
    pool alive threads next out shared freed dirty bad m_maxIdle m_idle m_resetCallback m_factoryCallback m_totalCreated
    holds uncounted unmade quiet id length];
  [intros ?o; rewrite ?below_S, ?cnt_app, ?cnt_cons, ?cnt_nil; try lia|try lia|try (apply Hi); try lia|try lia|try done|try (intros Hrs; split; [done|])
  |try done|try (by left); try (by right)|try (by left)].

(** An object that is lent is nowhere else. *)
Lemma lent_alone rs s o : inv rs s → o ∈ out s ∨ o ∈ shared s →
  (cnt o (out s) + cnt o (shared s) = 1)%nat ∧ cnt o (m_idle (pool s)) = 0%nat ∧ tally (λ p, cnt o (holds p)) (threads s) = 0%nat ∧
  cnt o (freed s) = 0%nat ∧ (o < next s)%nat.
Proof.
  intros Hi Ho. pose proof (iv_places _ _ Hi o) as H. unfold places in H.
  assert (0 < cnt o (out s) + cnt o (shared s))%nat by (destruct Ho as [Ho%cnt_elem|Ho%cnt_elem]; lia).
  destruct (Nat.ltb_spec o (next s)); lia.
Qed.

(** Taking it back *)
Lemma take_back_cnt rs s o o' : inv rs s → o ∈ out s ∨ o ∈ shared s →
  (cnt o' (filter (λ x, x ≠ o) (out s)) + cnt o' (filter (λ x, x ≠ o) (shared s)) + (if bool_decide (o = o') then 1 else 0)
   = cnt o' (out s) + cnt o' (shared s))%nat.
Proof.
  intros Hi Ho. rewrite !cnt_filter. destruct (lent_alone rs s o Hi Ho) as (H & _).
  destruct (decide (o = o')) as [->|Hn]; [rewrite !bool_decide_true by done|rewrite !bool_decide_false by congruence]; lia.
Qed.

Lemma use_inv rs s o : inv rs s → o ∈ out s ++ shared s → inv rs (set_dirty ({[o]} ∪ dirty s) s).
Proof.
  intros Hi Ho%elem_of_app. destruct (lent_alone rs s o Hi Ho) as (_ & Hidle & Hth & _ & Hlt).
  destruct Hi as [H1 H2 H3 H4 H5 H6 H7]. split; try done.
  - intros o' [->%elem_of_singleton|Ho']%elem_of_union; [done|by apply H4].
  - intros Hrs. destruct (H5 Hrs) as (Hr & Hi & Hts). split_and!; [done|..].
    + apply Forall_forall. intros o' Ho'. rewrite Forall_forall in Hi. specialize (Hi o' Ho'). cbn in *.
      apply cnt_elem in Ho'. intros [->%elem_of_singleton|?]%elem_of_union; [lia|done].
    + intros t p Ht. destruct (Hts t p Ht) as [Hp Hc]. split; [done|]. apply Forall_forall. intros o' Ho'.
      rewrite Forall_forall in Hc. specialize (Hc o' Ho'). cbn in *. intros [->%elem_of_singleton|?]%elem_of_union; [|done].
      pose proof (place_thread o s t p Ht) as Hle.
      assert (o ∈ holds p) as ?%cnt_elem; [|lia]. destruct p; cbn in *; try destruct rs; set_solver.
Qed.

Definition keeps_reset (c : Call) : bool := match c with CSetResetCallback b => b | _ => true end.

Lemma pool_begin_inv rs t c s s' : inv rs s → threads s !! t = Some Idle → (rs = true → keeps_reset c = true) →
  (alive s = true ∨ match c with CDrop _ | CFree _ | CUse _ | CRelease None => True | _ => False end) →
  begin t c s = Some s' → inv rs s'.
Proof.
  intros Hi Ht Hrs Hal. unfold begin. cbv zeta.
  destruct c as [| |[o|]|count| | |b|b|o|o|o].
  - destruct Hal as [Hal|[]]. intros [= <-]. step Hi Ht. clean.
  - destruct Hal as [Hal|[]]. intros [= <-]. step Hi Ht. clean.
  - destruct Hal as [Hal|[]]. unfold is_in. case_bool_decide as Ho; [|done]. intros [= <-].
    step Hi Ht; [pose proof (take_back_cnt rs s o o0 Hi ltac:(by left)); lia|clean].
  - by intros [= <-].
  - destruct Hal as [Hal|[]]. intros [= <-]. destruct (_ || _); [step_idle Hi Ht|step Hi Ht]; clean.
  - destruct Hal as [Hal|[]]. intros [= <-]. step Hi Ht. clean.
  - destruct Hal as [Hal|[]]. intros [= <-]. step_idle Hi Ht. clean.
  - destruct Hal as [Hal|[]]. intros [= <-]. step_idle Hi Ht. intros Er. destruct (iv_clean _ _ Hi Er) as (Hr & _).
    specialize (Hrs Er). cbn in Hrs. subst b. split; [done|clean].
  - destruct Hal as [Hal|[]]. intros [= <-]. step_idle Hi Ht. clean.
  - unfold is_in. case_bool_decide as Ho; [|done]. intros [= <-].
    step Hi Ht; [pose proof (take_back_cnt rs s o o0 Hi ltac:(by right)); lia|clean|by right].
  - unfold is_in. case_bool_decide as Ho; [|done]. intros [= <-].
    step_idle Hi Ht; [pose proof (take_back_cnt rs s o o0 Hi ltac:(by left)); lia|clean|by right].
  - unfold is_in. case_bool_decide as Ho; [|done]. intros [= <-]. by apply use_inv.
Qed.

(** [~ObjectPool] frees the idle objects. *)
Lemma destroy_inv rs s : inv rs s → forallb quiet (threads s) = true →
  inv rs (mkState (set_idle [] (pool s)) false (threads s) (next s) (out s) (shared s) (m_idle (pool s) ++ freed s) (dirty s) (bad s)).
Proof.
  intros [H1 H2 H3 H4 H5 H6 H7] Hq. split; cbn [pool set_idle m_idle m_maxIdle threads next dirty alive bad m_totalCreated m_resetCallback length];
    try done; try lia.
  - intros o. rewrite <- H1. unfold places. cbn [pool set_idle m_idle threads out shared freed]. rewrite cnt_app, cnt_nil. lia.
  - intros Hrs. by destruct (H5 Hrs) as (? & _ & ?).
  - intros _. split; [done|]. intros t p Ht. rewrite forallb_forall in Hq.
    specialize (Hq p ltac:(apply list_elem_of_In; by eapply list_elem_of_lookup_2)). done.
Qed.

Definition keeps (a : Action) : bool := match a with Begin _ c => keeps_reset c | _ => true end.

Lemma pool_exec_inv rs a s s' : inv rs s → proper a s = true → (rs = true → keeps a = true) → exec a s = Some s' → inv rs s'.
Proof.
  intros Hi Hp Hk. destruct a as [t x|t c|]; cbn [exec proper keeps] in *.
  - by apply pool_thread_step_inv.
  - destruct (threads s !! t) as [[]|] eqn:Ht; try done. apply pool_begin_inv; try done.
    apply orb_true_iff in Hp as [?|Hp]; [by left|right]. by destruct c as [| |[]| | | | | | | |].
  - destruct (alive s); [|done]. intros [= <-]. by apply destroy_inv.
Qed.

Lemma pool_run_inv rs acts : ∀ s s', inv rs s → proper_run acts s = true → (rs = true → forallb keeps acts = true) →
  run acts s = Some s' → inv rs s'.
Proof.
  induction acts as [|a acts IH]; intros s s' Hi Hp Hk; cbn [run]; [by intros [= <-]|].
  cbn in Hp. apply andb_true_iff in Hp as [Hp Hps]. destruct (exec a s) as [s1|] eqn:E; [|done].
  assert (rs = true → keeps a = true ∧ forallb keeps acts = true) as Hk'.
  { intros Hrs. specialize (Hk Hrs). by apply andb_true_iff in Hk. }
  apply IH; [|done|naive_solver]. eapply pool_exec_inv; [done|done|naive_solver|done].
Qed.

Lemma init_inv_pool rs m n : inv rs (on_pool (set_callbacks rs false) (init m n)).
Proof.
  assert (Hz : ∀ f : PC → nat, f Idle = 0%nat → tally f (replicate n Idle) = 0%nat).
  { intros f Hf. apply tally_zero. by apply Forall_replicate. }
  split; cbn [on_pool set_callbacks init ObjectPool_make pool alive threads next out shared freed dirty bad m_maxIdle m_idle
    m_resetCallback m_totalCreated length]; try done; try lia.
  - intros o. unfold places. cbn [on_pool set_callbacks init ObjectPool_make pool threads out shared freed m_idle].
    rewrite Hz; [|done]. rewrite cnt_nil. by destruct (Nat.ltb_spec o 0); [lia|].
  - by rewrite !Hz.
  - intros ->. split_and!; try done. intros t p [-> _]%lookup_replicate. by split; [|constructor].
Qed.

(** ** The theorem *)

(** C27: who owns an object of a pool, in every interleaving of threads that acquire, release,
    reserve, clear and drop shared objects, whatever the callbacks do, when the pool is used
    properly ([proper_run]): it is destroyed while no thread is inside a member or in a deleter
    that has already found it alive, and its members are not called afterwards; shared objects
    may be dropped at any time, also by deleters that begin before the destructor and go on
    after it.  (A deleter that has found the pool alive is not protected from the destructor,
    [deleter_races_with_destructor].)  Every object that was made is in exactly one
    place (idle, in the hands of one thread, lent once, or freed once), so none is lent twice,
    freed twice or lost; at most [maxIdle] objects are idle; [totalCreated] counts the objects
    made; no step touches a destroyed pool; and with a reset callback in place ([rs]) every
    idle object was reset after its last use, so that [acquire] hands out clean objects. *)
Theorem pool_ownership rs m n acts s :
  proper_run acts (on_pool (set_callbacks rs false) (init m n)) = true → (rs = true → forallb keeps acts = true) →
  run acts (on_pool (set_callbacks rs false) (init m n)) = Some s →
  (∀ o, places o s = if (o <? next s)%nat then 1%nat else 0%nat) ∧
  (length (m_idle (pool s)) ≤ m_maxIdle (pool s))%nat ∧
  (m_totalCreated (pool s) + tally uncounted (threads s) = next s + tally unmade (threads s))%nat ∧
  bad s = false ∧ (alive s = false → m_idle (pool s) = []) ∧
  (rs = true → Forall (λ o, o ∉ dirty s) (m_idle (pool s))).
Proof.
  intros Hp Hk Hr. destruct (pool_run_inv rs acts _ s (init_inv_pool rs m n) Hp Hk Hr) as [H1 H2 H3 H4 H5 H6 H7].
  split_and!; try done.
  - intros Ha. by apply H7.
  - intros Hrs. by apply H5.
Qed.

(** One thread acquires, uses and releases; another makes a shared object, drops it and gets
    the first one; the pool is destroyed while a deleter is about to look. *)
Definition ex_acts : list Action :=
  [Begin 0 CAcquire; Begin 1 CMakeShared] ++ concat (replicate 5 [Thread 0 Fine; Thread 1 Null]) ++
  [Begin 0 (CUse 0); Begin 0 (CRelease (Some 0%nat)); Begin 1 (CDrop 1)] ++ replicate 4 (Thread 0 Fine) ++
  replicate 5 (Thread 1 Fine) ++ [Begin 1 CAcquire; Thread 1 Fine; Thread 1 Fine; Begin 0 CMakeShared] ++ replicate 5 (Thread 0 Fine) ++
  [Begin 0 (CDrop 2); Destroy; Thread 0 Fine].

Lemma pool_ownership_witness : ∃ s,
  run ex_acts (on_pool (set_callbacks true false) (init 1 2)) = Some s ∧ out s = [0%nat] ∧ freed s = [2; 1]%nat ∧ bad s = false.
Proof.
  assert (E : ∃ s, run ex_acts (on_pool (set_callbacks true false) (init 1 2)) = Some s ∧ out s = [0%nat] ∧ freed s = [2; 1]%nat).
  { eexists. split; [vm_compute; reflexivity|]. vm_compute. split; reflexivity. }
  destruct E as (s & E & Ho & Hf).
  destruct (pool_ownership true 1 2 ex_acts s ltac:(vm_compute; reflexivity) ltac:(intros; vm_compute; reflexivity) E)
    as (_ & _ & _ & Hb & _).
  exists s. exact (conj E (conj Ho (conj Hf Hb))).
Defined.

(** The deleter of a shared object has seen that the pool is alive, and keeps nothing: the pool
    is destroyed before [release] runs. *)
Theorem deleter_races_with_destructor : ∃ s,
  run ([Begin 0 CMakeShared] ++ replicate 5 (Thread 0 Fine) ++ [Begin 0 (CDrop 0); Thread 0 Fine; Destroy; Thread 0 Fine])
    (init 1 1) = Some s ∧ bad s = true.
Proof. eexists. split; [vm_compute; reflexivity|reflexivity]. Qed.
