(* ===== verification/Double.v ===== *)
(** * [double]: binary64 arithmetic

    A [double] is a binary64 number of the Standard Library's specification of IEEE 754
    arithmetic, without the payload of a NaN.  Operations round to nearest, ties to even.
    [round_half] is what the components need of the rounding of a product: the result is
    within half a unit in the last place; [of_size_exact]: integers below [2^53] are
    represented exactly. *)

From S2P Require Import Prelude.
From stdpp Require Import base list.
From Stdlib Require Import ZArith Lia SpecFloat.

Local Open Scope Z_scope.

Abbreviation double := spec_float.

Definition d_add : double → double → double := SFadd 53 1024.
Definition d_mul : double → double → double := SFmul 53 1024.
Definition d_div : double → double → double := SFdiv 53 1024.
Definition d_zero : double := S754_zero false.

Definition is_nan (x : double) : bool := match x with S754_nan => true | _ => false end.

(** [static_cast<double>] of an unsigned integer *)
Definition of_size (n : Z) : double := binary_normalize 53 1024 n 0 false.

(** [static_cast<std::size_t>]: truncation, undefined out of range *)
Definition to_size (x : double) : res Z :=
  match x with
  | S754_zero _ => Ok 0
  | S754_finite s m e =>
      let n := if e <? 0 then Z.pos m / 2 ^ (- e) else Z.pos m * 2 ^ e in
      if n =? 0 then Ok 0 else if s then Undef else if n <? 2 ^ 64 then Ok n else Undef
  | _ => Undef
  end.

#[global] Instance double_eq_dec : EqDecision double.
Proof. solve_decision. Defined.

(** ** Rounding *)

(** [x] is [M] shifted right by [k]; its bits say how the bits shifted out compare to a half. *)
Definition shr_ok (M k : Z) (x : shr_record) : Prop :=
  ∃ rem, M = shr_m x * 2 ^ k + rem ∧ 0 ≤ rem < 2 ^ k ∧
    match shr_r x, shr_s x with
    | false, false => rem = 0
    | false, true => 0 < 2 * rem < 2 ^ k
    | true, false => 2 * rem = 2 ^ k
    | true, true => 2 ^ k < 2 * rem
    end.

Lemma shr_1_ok M k x : 0 ≤ k → 0 ≤ shr_m x → shr_ok M k x → shr_ok M (k + 1) (shr_1 x) ∧ 0 ≤ shr_m (shr_1 x).
Proof.
  destruct x as [m r s]. intros Hk Hm (rem & -> & Hr & H). cbn [shr_m shr_r shr_s] in *.
  assert (E : ∃ b, shr_1 (Build_shr_record m r s) = Build_shr_record (m / 2) b (r || s) ∧ m mod 2 = Z.b2z b).
  { rewrite <-Z.div2_div, Zmod_odd. exists (Z.odd m). destruct m as [|[p|p|]|]; first [done|lia]. }
  destruct E as (b & -> & Hb). cbn [shr_m]. split; [|apply Z.div_pos; lia].
  exists (Z.b2z b * 2 ^ k + rem). cbn [shr_m shr_r shr_s]. rewrite Z.pow_add_r, Z.pow_1_r by lia.
  pose proof (Z.div_mod m 2 ltac:(lia)). split_and!; [nia|destruct b; cbn; lia|destruct b; cbn; lia|].
  destruct b, r, s; cbn [Z.b2z orb] in *; lia.
Qed.

Lemma iter_pos_nat {A} (f : A → A) p : ∀ x, iter_pos f p x = Nat.iter (Pos.to_nat p) f x.
Proof.
  induction p as [p IH|p IH|]; intros x; cbn [iter_pos]; [| |done]; rewrite !IH, <-Nat.iter_add.
  - rewrite Pos2Nat.inj_xI. change (f x) with (Nat.iter 1 f x). rewrite <-Nat.iter_add. f_equal. lia.
  - f_equal. lia.
Qed.

Lemma shr_ok_iter M n : 0 ≤ M →
  shr_ok M (Z.of_nat n) (Nat.iter n shr_1 (Build_shr_record M false false)) ∧
  0 ≤ shr_m (Nat.iter n shr_1 (Build_shr_record M false false)).
Proof.
  intros HM. induction n as [|n [IH1 IH2]]; cbn [Nat.iter].
  - split; [|done]. exists 0. cbn. lia.
  - rewrite Nat2Z.inj_succ. apply shr_1_ok; [lia|done|done].
Qed.

Lemma round_nearest_half M k x : 0 ≤ k → shr_ok M k x →
  2 * Z.abs (round_nearest_even (shr_m x) (loc_of_shr_record x) * 2 ^ k - M) ≤ 2 ^ k.
Proof.
  destruct x as [m r s]. intros Hk (rem & -> & Hr & H). cbn [shr_m shr_r shr_s] in *.
  destruct r, s; cbn [loc_of_shr_record round_nearest_even]; try destruct (Z.even m); lia.
Qed.

Lemma digits2_log2 p : Z.pos (digits2_pos p) = Z.log2 (Z.pos p) + 1.
Proof. induction p as [p IH|p IH|]; cbn [digits2_pos]; [| |done]; rewrite Pos2Z.inj_succ, IH; destruct p; cbn; lia. Qed.

Lemma log2_bounds M d : 0 < M → Z.log2 M = d → 2 ^ d ≤ M < 2 ^ (d + 1).
Proof. intros HM <-. apply Z.log2_spec. done. Qed.

(** The result [q * 2 ^ (e + k)] of rounding [M * 2 ^ e], of [k] bits too many *)
Lemma round_half s M e k : 0 < M → Z.log2 M = 52 + k → 0 ≤ k → -1074 ≤ e + k < 900 →
  ∃ q, 2 * Z.abs (q * 2 ^ k - M) ≤ 2 ^ k ∧ 2 ^ 52 ≤ q ≤ 2 ^ 53 ∧
    binary_round_aux 53 1024 s M e loc_Exact =
      if q =? 2 ^ 53 then S754_finite s (2 ^ 52) (e + k + 1) else S754_finite s (Z.to_pos q) (e + k).
Proof.
  intros HM Hl Hk He.
  assert (E1 : shr_fexp 53 1024 M e loc_Exact = (Nat.iter (Z.to_nat k) shr_1 (Build_shr_record M false false), e + k)).
  { unfold shr_fexp, shr, fexp, emin. cbn [shr_record_of_loc].
    replace (Zdigits2 M) with (53 + k) by (destruct M; [lia| |lia]; cbn [Zdigits2]; rewrite digits2_log2; lia).
    replace (Z.max _ _ - e) with k by lia. destruct k as [|k|]; [by rewrite Z.add_0_r| |lia].
    by rewrite iter_pos_nat, Z2Nat.inj_pos. }
  unfold binary_round_aux. rewrite E1. clear E1.
  set (x := Nat.iter _ _ _). pose proof (shr_ok_iter M (Z.to_nat k) ltac:(lia)) as [Hx Hx0]. fold x in Hx, Hx0.
  rewrite Z2Nat.id in Hx by lia. pose proof (round_nearest_half M k x Hk Hx) as Hq.
  set (q := round_nearest_even _ _) in *. clearbody q x. exists q. split; [done|].
  pose proof (log2_bounds M _ HM Hl) as HMb. replace (52 + k + 1) with (53 + k) in HMb by lia.
  rewrite !Z.pow_add_r in HMb by lia. pose proof (Z.pow_pos_nonneg 2 k ltac:(lia) Hk).
  assert (Hqb : 2 ^ 52 ≤ q ≤ 2 ^ 53) by nia. split; [done|].
  unfold shr_fexp, shr, fexp, emin. cbn [shr_record_of_loc].
  destruct (Z.eqb_spec q (2 ^ 53)) as [->|Hn].
  - change (Zdigits2 (2 ^ 53)) with 54. replace (Z.max _ _ - (e + k)) with 1 by lia.
    change (shr_m (iter_pos shr_1 1 (Build_shr_record (2 ^ 53) false false))) with (2 ^ 52).
    destruct (Z.leb_spec (e + k + 1) (1024 - 53)); [done|lia].
  - replace (Zdigits2 q) with 53.
    2:{ destruct q; [lia| |lia]. cbn [Zdigits2]. rewrite digits2_log2, (Z.log2_unique _ 52); lia. }
    replace (Z.max _ _ - (e + k)) with 0 by lia. destruct q; [lia| |lia]. cbn [shr_m Z.to_pos].
    destruct (Z.leb_spec (e + k) (1024 - 53)); [done|lia].
Qed.

(** Integers below [2^53] are exact. *)
Lemma of_size_exact n : 0 < n < 2 ^ 53 →
  of_size n = S754_finite false (Z.to_pos (n * 2 ^ (52 - Z.log2 n))) (Z.log2 n - 52).
Proof.
  intros [H0 H]. assert (Hl : 0 ≤ Z.log2 n ≤ 52) by (split; [apply Z.log2_nonneg|]; apply Z.log2_lt_pow2 in H; lia).
  pose proof (log2_bounds n _ H0 eq_refl) as Hb.
  destruct n as [|p|]; [lia| |lia]. unfold of_size, binary_normalize, binary_round.
  rewrite digits2_log2. unfold fexp, emin. replace (Z.max _ _) with (Z.log2 (Z.pos p) - 52) by lia.
  set (l := Z.log2 (Z.pos p)) in *.
  assert (E : shl_align p 0 (l - 52) = (Z.to_pos (Z.pos p * 2 ^ (52 - l)), l - 52)).
  { unfold shl_align. rewrite Z.sub_0_r. destruct (l - 52) eqn:Ed; [replace (52 - l) with 0 by lia; by rewrite Z.mul_1_r|lia|].
    f_equal. replace (52 - l) with (Z.pos p0) by lia. rewrite <-Z.shiftl_mul_pow2 by lia. cbn [Z.shiftl].
    unfold Z.shiftl. rewrite <-(Pos.iter_swap_gen _ _ Z.pos xO (Z.mul 2)); done. }
  rewrite E. cbv beta iota. clear E.
  assert (Hp : 2 ^ 52 ≤ Z.pos p * 2 ^ (52 - l) < 2 ^ 53).
  { assert (H52 : 2 ^ 52 = 2 ^ l * 2 ^ (52 - l)) by (rewrite <-Z.pow_add_r by lia; f_equal; lia).
    assert (H53 : 2 ^ 53 = 2 ^ (l + 1) * 2 ^ (52 - l)) by (rewrite <-Z.pow_add_r by lia; f_equal; lia).
    pose proof (Z.pow_pos_nonneg 2 (52 - l) ltac:(lia) ltac:(lia)). nia. }
  rewrite Z2Pos.id by lia. set (M := Z.pos p * _) in *. clearbody M.
  destruct (round_half false M (l - 52) 0) as (q & Hq & Hqb & ->); [lia|apply Z.log2_unique; lia|lia|lia|].
  assert (q = M) as -> by lia. destruct (Z.eqb_spec M (2 ^ 53)); [lia|]. by rewrite Z.add_0_r.
Qed.
