(* ===== verification/Metrics.v ===== *)
(** * [dbase::metrics] (code/include/dbase/metrics, code/src/metrics/registry.cpp)

    Counters, gauges, histograms and the registry that names them.  A histogram keeps the
    last samples in a ring and computes percentiles in binary64 arithmetic ([Double]); the
    index of a percentile is shown to be the exact one.  Operations on a histogram and on the
    registry hold a mutex, so an interleaving is a sequence of them; the compare-and-swap
    loop of [Gauge::inc] is a step relation.  A metric is never removed, so a reference to
    one is its name.  [std::sort] is the class [StdSort]; the text of a [double] and the
    order of an [unordered_map] are arguments of [dumpText]. *)

From S2P Require Import Prelude Error Str Double.
From stdpp Require Import base gmap list strings sorting.
From Stdlib Require Import ZArith Lia SpecFloat.

Local Open Scope Z_scope.

(** ** [Histogram] *)

Record HistogramSnapshot : Type := mkSnapshot {
  count : Z; sum : double; min : double; max : double; avg : double;
  p50 : double; p90 : double; p95 : double; p99 : double;
}.

Record Histogram : Type := mkHistogram {
  m_maxSamples : nat;
  m_samples : list double;
  m_nextIndex : nat;
  m_totalCount : Z;
  m_totalSum : double;
}.

Definition Histogram_make (maxSamples : nat) : Histogram :=
  mkHistogram (if (maxSamples =? 0)%nat then 1 else maxSamples) [] 0 0 d_zero.

Definition observe (value : double) : M Histogram () :=
  modify (λ h, mkHistogram (m_maxSamples h) (m_samples h) (m_nextIndex h) (u64 (m_totalCount h + 1)) (m_totalSum h));;;
  modify (λ h, mkHistogram (m_maxSamples h) (m_samples h) (m_nextIndex h) (m_totalCount h) (d_add (m_totalSum h) value));;;
  let! h := get in
  if (length (m_samples h) <? m_maxSamples h)%nat then
    put (mkHistogram (m_maxSamples h) (m_samples h ++ [value]) (m_nextIndex h) (m_totalCount h) (m_totalSum h))
  else if (length (m_samples h) <=? m_nextIndex h)%nat then undef
  else
    let next := S (m_nextIndex h) in
    put (mkHistogram (m_maxSamples h) (<[m_nextIndex h := value]> (m_samples h)) (if (m_maxSamples h <=? next)%nat then 0%nat else next)
           (m_totalCount h) (m_totalSum h)).

(** [std::sort] with [operator<], which orders numbers that are not NaN *)
Definition not_after (x y : double) : Prop := SFltb y x = false.

Class StdSort : Type := {
  std_sort : list double → list double;
  std_sort_perm l : Forall (λ x, is_nan x = false) l → std_sort l ≡ₚ l;
  std_sort_sorted l : Forall (λ x, is_nan x = false) l → StronglySorted not_after (std_sort l);
}.

(** The constants 0.50, 0.90, 0.95 and 0.99 *)
Definition c50 : double := S754_finite false 4503599627370496 (-53).
Definition c90 : double := S754_finite false 8106479329266893 (-53).
Definition c95 : double := S754_finite false 8556839292003942 (-53).
Definition c99 : double := S754_finite false 8917127262193582 (-53).

Definition indexForPercentile (size : Z) (percentile : double) : res Z :=
  if size =? 0 then Ok 0
  else
    let raw := d_mul percentile (of_size (size - 1)) in
    let? idx := to_size raw in
    Ok (if size <=? idx then size - 1 else idx).

(** [sorted[i]] *)
Definition at_index (l : list double) (i : Z) : res double :=
  match l !! Z.to_nat i with Some x => Ok x | None => Undef end.

Section snapshot.
Context `{StdSort}.

Definition percentile (sorted : list double) (p : double) : res double :=
  let? i := indexForPercentile (Z.of_nat (length sorted)) p in
  at_index sorted i.

Definition snapshot (h : Histogram) : res HistogramSnapshot :=
  let n := m_totalCount h in
  let total := m_totalSum h in
  match m_samples h with
  | [] => Ok (mkSnapshot n total d_zero d_zero d_zero d_zero d_zero d_zero d_zero)
  | _ =>
      if existsb is_nan (m_samples h) then Undef   (* the order of [std::sort] is not a strict weak order *)
      else
        let sorted := std_sort (m_samples h) in
        let? mn := at_index sorted 0 in
        let? mx := at_index sorted (Z.of_nat (length sorted) - 1) in
        let av := if n =? 0 then d_zero else d_div total (of_size n) in
        let? q50 := percentile sorted c50 in
        let? q90 := percentile sorted c90 in
        let? q95 := percentile sorted c95 in
        let? q99 := percentile sorted c99 in
        Ok (mkSnapshot n total mn mx av q50 q90 q95 q99)
  end.

End snapshot.

(** ** The index of a percentile *)

(** A product of [c/100], rounded, and an integer lies in the same unit interval as the exact one. *)
Lemma percent_arith q u mp N c P T : T = u * P → 0 < u → 0 < P → 2 * Z.abs (q * u - mp * N) ≤ u → 0 < N → 0 < c < 100 →
  2 * (Z.abs (100 * mp - c * T) * N) < 100 * u → Z.abs (100 * mp - c * T) * N + 50 * u < T →
  q / P = c * N / 100.
Proof.
  intros -> Hu HP Hq HN Hc HA HB. pose proof (Z.div_mod (c * N) 100 ltac:(lia)) as Hd.
  pose proof (Z.mod_pos_bound (c * N) 100 ltac:(lia)) as Hr.
  set (f := c * N / 100) in *. set (r := (c * N) mod 100) in *. clearbody f r.
  set (δ := 100 * mp - c * (u * P)) in *.
  assert (Hx : 100 * (mp * N) = 100 * f * (u * P) + r * (u * P) + δ * N).
  { replace (100 * f * (u * P) + r * (u * P)) with ((c * N) * (u * P)) by (rewrite Hd; ring). subst δ. ring. }
  assert (Hδ : - (Z.abs δ * N) ≤ δ * N ≤ Z.abs δ * N) by nia.
  set (X := mp * N) in *. clearbody X δ. set (Y := Z.abs δ * N) in *. clearbody Y. set (W := δ * N) in *. clearbody W.
  clear Hd.
  assert (H1 : 200 * f * (u * P) + 2 * r * (u * P) - 2 * Y - 100 * u ≤ 200 * (q * u)) by lia.
  assert (H2 : 200 * (q * u) ≤ 200 * f * (u * P) + 2 * r * (u * P) + 2 * Y + 100 * u) by lia.
  symmetry. apply (Z.div_unique _ _ f (q - P * f)); [|lia]. left. split.
  - destruct (decide (r = 0)) as [->|Hr0]; [|nia].
    assert (- 200 * u < 200 * u * (q - f * P)) by lia. nia.
  - assert (r * (u * P) ≤ 99 * (u * P)) by nia. assert (200 * u * (q - f * P - P) < 0) by lia. nia.
Qed.

(** How close a constant [mp / 2^53] is to [c / 100] *)
Definition close (mp : positive) (c : Z) : Prop :=
  2 ^ 52 ≤ Z.pos mp < 2 ^ 53 ∧ 0 < c < 100 ∧ 2 * Z.abs (100 * Z.pos mp - c * 2 ^ 53) ≤ c - 1.

Lemma to_size_rounded q d D : 2 ^ 52 ≤ q ≤ 2 ^ 53 → d = - D → 1 < D →
  to_size (if q =? 2 ^ 53 then S754_finite false (2 ^ 52) (d + 1) else S754_finite false (Z.to_pos q) d) = Ok (q / 2 ^ D).
Proof.
  intros Hq -> HD. pose proof (Z.pow_pos_nonneg 2 D ltac:(lia) ltac:(lia)).
  assert (Hlt : 0 ≤ q / 2 ^ D < 2 ^ 64).
  { split; [apply Z.div_pos; lia|]. apply Z.div_lt_upper_bound; [lia|]. nia. }
  destruct (Z.eqb_spec q (2 ^ 53)) as [->|Hn]; cbn [to_size]; cbv zeta.
  - destruct (Z.ltb_spec (- D + 1) 0); [|lia].
    replace (Z.pos (2 ^ 52) / 2 ^ (- (- D + 1))) with (2 ^ 53 / 2 ^ D).
    2:{ replace D with (- (- D + 1) + 1) at 1 by lia. rewrite Z.pow_add_r by lia.
        replace (2 ^ 53) with (Z.pos (2 ^ 52) * 2 ^ 1) by done. apply Z.div_mul_cancel_r; [|done].
        pose proof (Z.pow_pos_nonneg 2 (- (- D + 1)) ltac:(lia) ltac:(lia)). lia. }
    destruct (Z.eqb_spec (2 ^ 53 / 2 ^ D) 0) as [->|]; [done|]. destruct (Z.ltb_spec (2 ^ 53 / 2 ^ D) (2 ^ 64)); [done|lia].
  - destruct (Z.ltb_spec (- D) 0); [|lia]. rewrite Z2Pos.id, Z.opp_involutive by lia.
    destruct (Z.eqb_spec (q / 2 ^ D) 0) as [->|]; [done|]. destruct (Z.ltb_spec (q / 2 ^ D) (2 ^ 64)); [done|lia].
Qed.

Lemma percent_floor mp c N : close mp c → 0 < N < 2 ^ 46 →
  to_size (d_mul (S754_finite false mp (-53)) (of_size N)) = Ok (c * N / 100).
Proof.
  intros (Hmp & Hc & Hδ) HN. rewrite of_size_exact by lia. set (l := Z.log2 N).
  assert (Hl : 0 ≤ l ≤ 45).
  { split; [apply Z.log2_nonneg|]. destruct HN as [HN0 HN]. apply Z.log2_lt_pow2 in HN; lia. }
  pose proof (log2_bounds N l ltac:(lia) eq_refl) as Hb. rewrite Z.pow_add_r, Z.pow_1_r in Hb by lia. clearbody l.
  assert (H52 : 2 ^ 52 = 2 ^ l * 2 ^ (52 - l)) by (rewrite <-Z.pow_add_r by lia; f_equal; lia).
  assert (H45 : 2 ^ l ≤ 2 ^ 45) by (apply Z.pow_le_mono_r; lia).
  pose proof (Z.pow_pos_nonneg 2 (52 - l) ltac:(lia) ltac:(lia)) as Hs.
  assert (Hm : 2 ^ 52 ≤ N * 2 ^ (52 - l) < 2 ^ 53) by nia.
  unfold d_mul, SFmul. cbn [xorb]. rewrite Pos2Z.inj_mul, Z2Pos.id by lia.
  set (M := Z.pos mp * _). assert (HM : 2 ^ 104 ≤ M < 2 ^ 106) by nia.
  assert (Hk : ∃ k, Z.log2 M = 52 + k ∧ (k = 52 ∧ M < 2 ^ 105 ∨ k = 53)).
  { destruct (Z.ltb_spec M (2 ^ 105)).
    - exists 52. split; [apply Z.log2_unique; lia|by left].
    - exists 53. split; [apply Z.log2_unique; lia|by right]. }
  destruct Hk as (k & Hlog & Hk).
  destruct (round_half false M (-53 + (l - 52)) k ltac:(lia) Hlog ltac:(lia) ltac:(lia)) as (q & Hq & Hqb & ->).
  rewrite (to_size_rounded q _ (105 - l - k)) by lia. f_equal.
  set (u := 2 ^ (k - 52 + l)).
  assert (Hu : 2 ^ k = 2 ^ (52 - l) * u) by (unfold u; rewrite <-Z.pow_add_r by lia; f_equal; lia).
  assert (Hq' : 2 * Z.abs (q * u - Z.pos mp * N) ≤ u).
  { rewrite Hu in Hq. replace (q * (2 ^ (52 - l) * u) - M) with (2 ^ (52 - l) * (q * u - Z.pos mp * N)) in Hq by (unfold M; ring).
    rewrite Z.abs_mul, (Z.abs_eq (2 ^ (52 - l))) in Hq by lia. nia. }
  assert (Hu1 : u = 2 ^ l ∧ Z.pos mp * N < 2 ^ 53 * u ∨ u = 2 * 2 ^ l).
  { unfold u. destruct Hk as [[-> HM']| ->].
    - left. replace (52 - 52 + l) with l by lia. split; [done|]. unfold M in HM'. nia.
    - right. replace (53 - 52 + l) with (1 + l) by lia. by rewrite Z.pow_add_r by lia. }
  pose proof (Z.pow_pos_nonneg 2 (105 - l - k) ltac:(lia) ltac:(lia)) as HP.
  assert (HT : 2 ^ 53 = u * 2 ^ (105 - l - k)) by (unfold u; rewrite <-Z.pow_add_r by lia; f_equal; lia).
  assert (Hu0 : 0 < u) by lia. clearbody u. clear Hq Hqb Hu HM Hlog H52 Hs Hm M Hk.
  assert (H1 : 2 * (Z.abs (100 * Z.pos mp - c * 2 ^ 53) * N) ≤ (c - 1) * N).
  { rewrite Z.mul_assoc. apply Z.mul_le_mono_nonneg_r; lia. }
  assert (H2 : (c - 1) * N ≤ 98 * N) by (apply Z.mul_le_mono_nonneg_r; lia).
  assert (H3 : (c - 1) * 2 ^ 53 * N ≤ 100 * Z.pos mp * N) by (apply Z.mul_le_mono_nonneg_r; lia).
  apply (percent_arith q u (Z.pos mp) N c (2 ^ (105 - l - k)) (2 ^ 53)); try done; try lia.
Qed.

(** The index is the exact one. *)
Lemma index_exact mp c n : close mp c → 0 < n ≤ 2 ^ 46 →
  indexForPercentile n (S754_finite false mp (-53)) = Ok (c * (n - 1) / 100).
Proof.
  intros Hc Hn. pose proof Hc as (_ & Hc' & _). unfold indexForPercentile. destruct (Z.eqb_spec n 0); [lia|].
  assert (E : to_size (d_mul (S754_finite false mp (-53)) (of_size (n - 1))) = Ok (c * (n - 1) / 100)).
  { destruct (decide (n = 1)) as [->|]; [by rewrite Z.mul_0_r|]. apply percent_floor; [done|lia]. }
  cbv zeta. rewrite E. cbn [res_bind]. destruct (Z.leb_spec n (c * (n - 1) / 100)) as [H|]; [|done].
  assert (c * (n - 1) / 100 < n); [|lia]. apply Z.div_lt_upper_bound; nia.
Qed.

Lemma close_constants : close 4503599627370496 50 ∧ close 8106479329266893 90 ∧ close 8556839292003942 95 ∧ close 8917127262193582 99.
Proof. unfold close. lia. Qed.

(** ** The ring of samples *)

Definition window (m : nat) (xs : list double) : list double := drop (length xs - m) xs.

Definition observed (xs : list double) (h : Histogram) : Prop :=
  let i := m_nextIndex h in
  (0 < m_maxSamples h)%nat ∧ (i < m_maxSamples h)%nat ∧
  length (m_samples h) = Nat.min (m_maxSamples h) (length xs) ∧ (length xs < m_maxSamples h → i = 0)%nat ∧
  drop i (m_samples h) ++ take i (m_samples h) = window (m_maxSamples h) xs ∧
  m_totalCount h = u64 (Z.of_nat (length xs)) ∧ m_totalSum h = foldl d_add d_zero xs.

Lemma observed_make m : observed [] (Histogram_make m).
Proof. unfold observed, Histogram_make. destruct m as [|m]; cbn; split_and!; try done; lia. Qed.

Lemma window_snoc m xs x : (0 < m)%nat →
  window m (xs ++ [x]) = (if (length xs <? m)%nat then xs else drop 1 (window m xs)) ++ [x].
Proof.
  intros Hm. unfold window. rewrite length_app. cbn [length]. destruct (Nat.ltb_spec (length xs) m).
  - by replace (length xs + 1 - m)%nat with 0%nat by lia.
  - rewrite drop_app_le, drop_drop by lia. do 2 f_equal. lia.
Qed.

(** One turn of a full ring *)
Lemma ring_turn (l : list double) i x : (i < length l)%nat →
  drop (S i) (<[i := x]> l) ++ take (S i) (<[i := x]> l) = drop 1 (drop i l ++ take i l) ++ [x].
Proof.
  intros Hi. rewrite drop_insert_lt by lia. rewrite (take_S_r _ _ x) by (by apply list_lookup_insert_eq).
  rewrite take_insert_ge by lia. rewrite drop_app_le by (rewrite length_drop; lia). rewrite drop_drop.
  replace (i + 1)%nat with (S i) by lia. by rewrite app_assoc.
Qed.

Lemma observe_ok xs h x : observed xs h → ∃ h', observe x h = (Ok tt, h') ∧ observed (xs ++ [x]) h' ∧ m_maxSamples h' = m_maxSamples h.
Proof.
  intros (Hm & Hi & Hl & H0 & Hr & Hc & Hs). unfold observe. run. cbn [m_samples m_maxSamples m_nextIndex m_totalCount m_totalSum].
  assert (Hc' : u64 (m_totalCount h + 1) = u64 (Z.of_nat (length xs + 1))).
  { rewrite Hc. unfold u64, wrap. by rewrite Zplus_mod_idemp_l, Nat2Z.inj_add. }
  assert (Hs' : d_add (m_totalSum h) x = foldl d_add d_zero (xs ++ [x])) by (by rewrite foldl_app, Hs).
  destruct (Nat.ltb_spec (length (m_samples h)) (m_maxSamples h)).
  - eexists. split; [reflexivity|]. split; [|done]. unfold observed.
    cbn [m_samples m_maxSamples m_nextIndex m_totalCount m_totalSum]. rewrite H0 in * by lia.
    rewrite !length_app, window_snoc by done. cbn [length]. split_and!; try done; try lia.
    rewrite drop_0, take_0, app_nil_r in *. destruct (Nat.ltb_spec (length xs) (m_maxSamples h)); [|lia].
    rewrite Hr. unfold window. by replace (length xs - m_maxSamples h)%nat with 0%nat by lia.
  - destruct (Nat.leb_spec (length (m_samples h)) (m_nextIndex h)); [lia|].
    eexists. split; [reflexivity|]. split; [|done]. unfold observed.
    cbn [m_samples m_maxSamples m_nextIndex m_totalCount m_totalSum]. rewrite !length_app, length_insert, window_snoc by done.
    cbn [length]. destruct (Nat.ltb_spec (length xs) (m_maxSamples h)); [lia|].
    pose proof (ring_turn (m_samples h) (m_nextIndex h) x ltac:(lia)) as Ht. rewrite Hr in Ht.
    destruct (Nat.leb_spec (m_maxSamples h) (S (m_nextIndex h))); split_and!; try done; try lia.
    rewrite <-Ht, drop_0, take_0, app_nil_r, drop_ge, take_ge by (rewrite length_insert; lia). done.
Qed.

Fixpoint observe_all (xs : list double) : M Histogram () :=
  match xs with [] => ret tt | x :: xs => observe x;;; observe_all xs end.

Lemma observe_all_ok xs : ∀ ys h, observed ys h →
  ∃ h', observe_all xs h = (Ok tt, h') ∧ observed (ys ++ xs) h' ∧ m_maxSamples h' = m_maxSamples h.
Proof.
  induction xs as [|x xs IH]; intros ys h H; cbn [observe_all].
  - exists h. by rewrite app_nil_r.
  - destruct (observe_ok ys h x H) as (h1 & E1 & H1 & M1). destruct (IH _ _ H1) as (h2 & E2 & H2 & M2).
    exists h2. rewrite (bind_Ok _ _ _ _ _ E1), <-app_assoc in *. split_and!; [done|done|congruence].
Qed.

(** ** Percentiles *)

Definition below (v : double) (l : list double) : nat := length (filter (λ w, SFltb w v = true) l).
Definition above (v : double) (l : list double) : nat := length (filter (λ w, SFltb v w = true) l).

(** [v] is the element of [l] at index [i] in ascending order. *)
Definition at_rank (l : list double) (i : Z) (v : double) : Prop :=
  v ∈ l ∧ Z.of_nat (below v l) ≤ i ∧ Z.of_nat (above v l) ≤ Z.of_nat (length l) - 1 - i.

#[global] Instance at_rank_Proper : Proper ((≡ₚ) ==> eq ==> eq ==> iff) at_rank.
Proof. intros l l' Hl i ? <- v ? <-. unfold at_rank, below, above. by rewrite !Hl. Qed.

Lemma SFltb_irrefl x : SFltb x x = false.
Proof.
  unfold SFltb, SFcompare. destruct x as [|[]| |[] m e]; try done; rewrite Z.compare_refl; change (Pos.compare_cont Eq m m) with (m ?= m)%positive;
    by rewrite Pos.compare_refl.
Qed.

Lemma sorted_lookup l i j x y : StronglySorted not_after l → l !! i = Some x → l !! j = Some y → (i ≤ j)%nat → SFltb y x = false.
Proof.
  intros Hs. revert i j. induction Hs as [|z l Hs IH Hz]; intros i j Hi Hj Hij; [done|].
  destruct i as [|i], j as [|j]; cbn in Hi, Hj; simplify_eq.
  - apply SFltb_irrefl.
  - rewrite Forall_forall in Hz. apply Hz. by eapply list_elem_of_lookup_2.
  - lia.
  - eapply IH; [done|done|lia].
Qed.

Lemma filter_none {A} (P : A → Prop) `{∀ x, Decision (P x)} (l : list A) : (∀ x, x ∈ l → ¬ P x) → filter P l = [].
Proof.
  induction l as [|x l IH]; intros Hn; [done|]. rewrite filter_cons_False by (apply Hn; left). apply IH. intros y Hy. apply Hn. by right.
Qed.

Lemma sorted_rank l i v : StronglySorted not_after l → l !! i = Some v → at_rank l (Z.of_nat i) v.
Proof.
  intros Hs Hi. pose proof (lookup_lt_Some _ _ _ Hi) as Hlt. split; [by eapply list_elem_of_lookup_2|].
  assert (Hb : (below v l ≤ i)%nat).
  { unfold below. rewrite <-(take_drop i l), filter_app, (filter_none _ (drop i l)), app_nil_r.
    - etrans; [apply length_filter|]. rewrite length_take. lia.
    - intros x [j Hj]%list_elem_of_lookup_1. rewrite lookup_drop in Hj. rewrite (sorted_lookup l i (i + j) v x); [done..|lia]. }
  assert (Ha : (above v l ≤ length l - S i)%nat).
  { unfold above. rewrite <-(take_drop (S i) l) at 1. rewrite filter_app, (filter_none _ (take (S i) l)).
    - cbn. etrans; [apply length_filter|]. by rewrite length_drop.
    - intros x [j Hj]%list_elem_of_lookup_1. apply lookup_take_Some in Hj as [Hj ?]. rewrite (sorted_lookup l j i x v); [done..|lia]. }
  lia.
Qed.

Section percentiles.
Context `{StdSort}.

Lemma at_index_ok l i : 0 ≤ i < Z.of_nat (length l) → ∃ v, at_index l i = Ok v ∧ l !! Z.to_nat i = Some v.
Proof.
  intros Hi. unfold at_index. destruct (lookup_lt_is_Some_2 l (Z.to_nat i)) as [v Hv]; [lia|]. rewrite Hv. eauto.
Qed.

Lemma rank_bounds c n : 0 < c < 100 → 0 < n → 0 ≤ c * (n - 1) / 100 < n.
Proof. intros Hc Hn. split; [apply Z.div_pos; nia|]. apply Z.div_lt_upper_bound; nia. Qed.

Lemma percentile_ok l mp c : close mp c → 0 < Z.of_nat (length l) ≤ 2 ^ 46 →
  ∃ v, percentile l (S754_finite false mp (-53)) = Ok v ∧ l !! Z.to_nat (c * (Z.of_nat (length l) - 1) / 100) = Some v.
Proof.
  intros Hc Hn. unfold percentile. rewrite (index_exact mp c) by done. cbn [res_bind].
  apply at_index_ok. apply rank_bounds; [apply Hc|lia].
Qed.

(** The elements of a sorted list at ascending indices *)
Lemma sorted_sub l ks vs : StronglySorted not_after l → StronglySorted le ks → Forall2 (λ i v, l !! i = Some v) ks vs →
  StronglySorted not_after vs.
Proof.
  intros Hl Hks Hf. revert vs Hf. induction Hks as [|i ks Hks IH Hi]; intros vs Hf; inversion Hf as [|? v ? vs' Hv Hf']; subst; constructor.
  - by apply IH.
  - apply Forall_forall. intros w [j Hj]%list_elem_of_lookup_1.
    destruct (Forall2_lookup_r _ _ _ _ _ Hf' Hj) as (k & Hk & Hw). rewrite Forall_forall in Hi.
    eapply sorted_lookup; [done|exact Hv|exact Hw|]. apply Hi. by eapply list_elem_of_lookup_2.
Qed.

(** A snapshot of samples that contain no NaN *)
Lemma snapshot_ok h n : let l := m_samples h in
  Z.of_nat (length l) = n → 0 < n ≤ 2 ^ 46 → Forall (λ x, is_nan x = false) l →
  ∃ s, snapshot h = Ok s ∧ count s = m_totalCount h ∧ sum s = m_totalSum h ∧
    avg s = (if count s =? 0 then d_zero else d_div (sum s) (of_size (count s))) ∧
    at_rank l 0 (min s) ∧ at_rank l (50 * (n - 1) / 100) (p50 s) ∧ at_rank l (90 * (n - 1) / 100) (p90 s) ∧
    at_rank l (95 * (n - 1) / 100) (p95 s) ∧ at_rank l (99 * (n - 1) / 100) (p99 s) ∧ at_rank l (n - 1) (max s) ∧
    StronglySorted not_after [min s; p50 s; p90 s; p95 s; p99 s; max s].
Proof.
  cbv zeta. unfold snapshot. generalize (m_samples h). intros l Hn Hb Hf.
  pose proof (std_sort_perm l Hf) as Hp. pose proof (std_sort_sorted l Hf) as Hs.
  assert (Hl : Z.of_nat (length (std_sort l)) = n) by (by rewrite Hp).
  assert (Hnan : existsb is_nan l = false).
  { apply not_true_is_false. rewrite existsb_exists. intros (x & Hx%list_elem_of_In & Hxn).
    rewrite Forall_forall in Hf. specialize (Hf x Hx). cbn in Hf. congruence. }
  destruct l as [|x l'] eqn:El; [cbn in Hn; lia|]. rewrite <-El in *. rewrite Hnan. clear El x l'.
  set (srt := std_sort l) in *. clearbody srt.
  destruct (at_index_ok srt 0 ltac:(lia)) as (mn & -> & Lmn).
  destruct (at_index_ok srt (n - 1) ltac:(lia)) as (mx & Emx & Lmx). rewrite Hl, Emx.
  destruct close_constants as (C1 & C2 & C3 & C4).
  destruct (percentile_ok srt _ _ C1 ltac:(lia)) as (v1 & E1 & L1).
  destruct (percentile_ok srt _ _ C2 ltac:(lia)) as (v2 & E2 & L2).
  destruct (percentile_ok srt _ _ C3 ltac:(lia)) as (v3 & E3 & L3).
  destruct (percentile_ok srt _ _ C4 ltac:(lia)) as (v4 & E4 & L4).
  unfold c50, c90, c95, c99. cbv zeta. cbn [res_bind]. rewrite E1, E2, E3, E4. cbn [res_bind].
  rewrite Hl in L1, L2, L3, L4. eexists. split; [reflexivity|]. cbn [count sum avg min max p50 p90 p95 p99].
  assert (Hr : ∀ i v, 0 ≤ i → srt !! Z.to_nat i = Some v → at_rank l i v).
  { intros i v Hi Hv. rewrite <-Hp. rewrite <-(Z2Nat.id i) by done. by apply sorted_rank. }
  pose proof (λ c Hc, rank_bounds c n Hc ltac:(lia)) as Hrb.
  split_and!; try done; try (apply Hr; [|done]; first [lia|apply Hrb; lia]).
  apply (sorted_sub srt [Z.to_nat 0; Z.to_nat (50 * (n - 1) / 100); Z.to_nat (90 * (n - 1) / 100);
    Z.to_nat (95 * (n - 1) / 100); Z.to_nat (99 * (n - 1) / 100); Z.to_nat (n - 1)]); [done| |by repeat constructor].
  repeat constructor; apply Z2Nat.inj_le; Z.to_euclidean_division_equations; lia.
Qed.

End percentiles.

(** ** An instance of [StdSort] *)

Definition key (x : double) : Z * Z * Z :=
  match x with
  | S754_infinity true => (-2, 0, 0)
  | S754_finite true m e => (-1, - e, - Z.pos m)
  | S754_zero _ => (0, 0, 0)
  | S754_finite false m e => (1, e, Z.pos m)
  | S754_infinity false => (2, 0, 0)
  | S754_nan => (3, 0, 0)
  end.

Definition kle (x y : double) : Prop :=
  let '(a, b, c) := key x in let '(a', b', c') := key y in a < a' ∨ a = a' ∧ (b < b' ∨ b = b' ∧ c ≤ c').

#[global] Instance kle_dec x y : Decision (kle x y).
Proof. unfold kle. destruct (key x) as [[a b] c], (key y) as [[a' b'] c']. solve_decision. Defined.

#[global] Instance kle_trans : Transitive kle.
Proof. intros x y z. unfold kle. destruct (key x) as [[a b] c], (key y) as [[a' b'] c'], (key z) as [[a'' b''] c'']. lia. Qed.

#[global] Instance kle_total : Total kle.
Proof. intros x y. unfold kle. destruct (key x) as [[a b] c], (key y) as [[a' b'] c']. lia. Qed.

Lemma kle_not_after x y : kle x y → is_nan x = false → is_nan y = false → not_after x y.
Proof.
  unfold kle, not_after, SFltb, SFcompare. intros Hk Hx Hy.
  destruct x as [|[]| |[] m e], y as [|[]| |[] m' e']; cbn [key] in Hk; try done; try lia;
    destruct (Z.compare_spec e' e); try done; try lia; change (Pos.compare_cont Eq m' m) with (m' ?= m)%positive;
    destruct (Pos.compare_spec m' m); try done; lia.
Qed.

Lemma sorted_not_after l : Forall (λ x, is_nan x = false) l → StronglySorted kle l → StronglySorted not_after l.
Proof.
  intros Hf Hs. induction Hs as [|x l Hs IH Hx]; constructor; apply Forall_cons in Hf as [Hn Hf]; [by apply IH|].
  rewrite Forall_forall in *. intros y Hy. apply kle_not_after; [by apply Hx|done|by apply Hf].
Qed.

#[global] Instance std_sort_merge : StdSort.
Proof.
  refine {| std_sort := merge_sort kle |}.
  - intros l _. apply merge_sort_Permutation.
  - intros l Hf. apply sorted_not_after; [by rewrite merge_sort_Permutation|]. apply StronglySorted_merge_sort; apply _.
Defined.

(** ** [Counter], [Gauge] and the registry *)

Inductive MetricType : Type := TCounter | TGauge | THistogram.

#[global] Instance MetricType_eq_dec : EqDecision MetricType.
Proof. solve_decision. Defined.

Inductive Metric : Type :=
  | MCounter (m_value : Z)
  | MGauge (m_value : double)
  | MHistogram (h : Histogram).

Definition type (m : Metric) : MetricType :=
  match m with MCounter _ => TCounter | MGauge _ => TGauge | MHistogram _ => THistogram end.

(** [std::atomic<std::int64_t>::fetch_add] wraps. *)
Definition counter_inc (value m_value : Z) : Z := swrap 64 (m_value + value).
Definition counter_reset (value m_value : Z) : Z := value.

Definition gauge_set (value m_value : double) : double := value.
(** [inc] without interference; see [gauge_step] *)
Definition gauge_inc (value m_value : double) : double := d_add m_value value.
Definition gauge_dec (value m_value : double) : double := gauge_inc (SFopp value) m_value.

Abbreviation MetricRegistry := (gmap str Metric).

Definition getOrCreate (name : str) (expectedType : MetricType) (fresh : Metric) : M MetricRegistry str :=
  let! m_metrics := get in
  match m_metrics !! name with
  | Some metric => if decide (type metric = expectedType) then ret name else throw logic_error
  | None => put (<[name := fresh]> m_metrics);;; ret name
  end.

Definition counter (name : str) : M MetricRegistry str := getOrCreate name TCounter (MCounter 0).
Definition gauge (name : str) : M MetricRegistry str := getOrCreate name TGauge (MGauge d_zero).
Definition histogram (name : str) (maxSamples : nat) : M MetricRegistry str :=
  getOrCreate name THistogram (MHistogram (Histogram_make maxSamples)).

Definition find (name : str) : M MetricRegistry (Result str) :=
  let! m_metrics := get in
  match m_metrics !! name with
  | None => ret (makeErrorResult NotFound (lit "metric not found: " ++ name))
  | Some _ => ret (Value name)
  end.

(** Use of a reference: the object behind it, which must have the type of the reference *)
Definition on_counter (ref : str) (f : Z → Z) : M MetricRegistry () :=
  let! r := get in
  match r !! ref with Some (MCounter v) => put (<[ref := MCounter (f v)]> r) | _ => undef end.
Definition on_gauge (ref : str) (f : double → double) : M MetricRegistry () :=
  let! r := get in
  match r !! ref with Some (MGauge v) => put (<[ref := MGauge (f v)]> r) | _ => undef end.
Definition on_histogram (ref : str) (f : M Histogram ()) : M MetricRegistry () :=
  let! r := get in
  match r !! ref with
  | Some (MHistogram h) => let '(x, h) := f h in put (<[ref := MHistogram h]> r);;; lift x
  | _ => undef
  end.

Section dump.
Context `{StdSort}.
Variable fixed6 : double → str.   (* [operator<<] with [std::fixed] and [setprecision(6)] *)

Definition dump_line (name key text : str) : str := name ++ key ++ lit " " ++ text ++ [byte_of_Z 10].

Definition dump_metric (name : str) (metric : Metric) : res str :=
  match metric with
  | MCounter v => Ok (dump_line name [] (to_string v))
  | MGauge v => Ok (dump_line name [] (fixed6 v))
  | MHistogram h =>
      let? snap := snapshot h in
      Ok (dump_line name (lit ".count") (to_string (count snap)) ++ dump_line name (lit ".sum") (fixed6 (sum snap)) ++
          dump_line name (lit ".min") (fixed6 (min snap)) ++ dump_line name (lit ".max") (fixed6 (max snap)) ++
          dump_line name (lit ".avg") (fixed6 (avg snap)) ++ dump_line name (lit ".p50") (fixed6 (p50 snap)) ++
          dump_line name (lit ".p90") (fixed6 (p90 snap)) ++ dump_line name (lit ".p95") (fixed6 (p95 snap)) ++
          dump_line name (lit ".p99") (fixed6 (p99 snap)))
  end.

(** [entries]: the metrics in the order of the map *)
Fixpoint dumpText (entries : list (str * Metric)) : res str :=
  match entries with
  | [] => Ok []
  | (name, metric) :: entries =>
      let? t := dump_metric name metric in
      let? ts := dumpText entries in
      Ok (t ++ ts)
  end.
End dump.

(** Programs that use a registry: calls that ask for a metric, and uses of references *)
Inductive Use : Type :=
  | UInc (v : Z) | UReset (v : Z)                              (* of a [Counter&] *)
  | USet (v : double) | UGaugeInc (v : double) | UDec (v : double)   (* of a [Gauge&] *)
  | UObserve (v : double).                                     (* of a [Histogram&] *)

Inductive Call : Type :=
  | CGet (t : MetricType) (name : str) (maxSamples : nat)
  | CUse (ref : str) (u : Use).

Definition use_type (u : Use) : MetricType :=
  match u with UInc _ | UReset _ => TCounter | UObserve _ => THistogram | _ => TGauge end.

Definition use (ref : str) (u : Use) : M MetricRegistry () :=
  match u with
  | UInc v => on_counter ref (counter_inc v)
  | UReset v => on_counter ref (counter_reset v)
  | USet v => on_gauge ref (gauge_set v)
  | UGaugeInc v => on_gauge ref (gauge_inc v)
  | UDec v => on_gauge ref (gauge_dec v)
  | UObserve v => on_histogram ref (observe v)
  end.

Definition ask (t : MetricType) (name : str) (maxSamples : nat) : M MetricRegistry str :=
  match t with TCounter => counter name | TGauge => gauge name | THistogram => histogram name maxSamples end.

(** A program holds the references it was given; it catches the exception of a mismatch. *)
Record Program : Type := mkProgram { registry : MetricRegistry; refs : list (str * MetricType) }.

Definition call (c : Call) (p : Program) : res Program :=
  match c with
  | CGet t name n =>
      match ask t name n (registry p) with
      | (Ok ref, r) => Ok (mkProgram r ((ref, t) :: refs p))
      | (Throw _, r) => Ok (mkProgram r (refs p))
      | _ => Undef
      end
  | CUse ref u =>
      if decide ((ref, use_type u) ∈ refs p) then
        match use ref u (registry p) with
        | (Ok _, r) => Ok (mkProgram r (refs p))
        | _ => Undef
        end
      else Ok p                        (* no such reference *)
  end.

Fixpoint calls (cs : list Call) (p : Program) : res Program :=
  match cs with [] => Ok p | c :: cs => let? p := call c p in calls cs p end.

(** What the metric called [name] should be: the first request makes it, uses of its type change it. *)
Definition fresh (t : MetricType) (maxSamples : nat) : Metric :=
  match t with
  | TCounter => MCounter 0 | TGauge => MGauge d_zero | THistogram => MHistogram (Histogram_make maxSamples)
  end.
Definition used (u : Use) (m : Metric) : Metric :=
  match u, m with
  | UInc v, MCounter c => MCounter (counter_inc v c)
  | UReset v, MCounter c => MCounter v
  | USet v, MGauge g => MGauge v
  | UGaugeInc v, MGauge g => MGauge (d_add g v)
  | UDec v, MGauge g => MGauge (d_add g (SFopp v))
  | UObserve v, MHistogram h => MHistogram (observe v h).2
  | _, m => m
  end.
Definition metric_after (name : str) (c : Call) (m : option Metric) : option Metric :=
  match c with
  | CGet t n k => if decide (n = name) then Some (default (fresh t k) m) else m
  | CUse ref u => if decide (ref = name) then used u <$> m else m
  end.

(** The references are to objects of their types, and the rings of histograms are sound. *)
Record registry_ok (p : Program) : Prop := {
  ro_refs : ∀ ref t, (ref, t) ∈ refs p ↔ ∃ m, registry p !! ref = Some m ∧ type m = t;
  ro_rings : ∀ n h, registry p !! n = Some (MHistogram h) → ∃ xs, observed xs h;
}.

Lemma used_type u m : type (used u m) = type m.
Proof. by destruct u, m. Qed.

Lemma use_ok p ref u : registry_ok p → (ref, use_type u) ∈ refs p →
  ∃ m, registry p !! ref = Some m ∧ use ref u (registry p) = (Ok tt, <[ref := used u m]> (registry p)) ∧
    (∀ h, used u m = MHistogram h → ∃ xs, observed xs h).
Proof.
  intros [Hr Hh] (m & Hm & Ht)%Hr. exists m. split; [done|].
  destruct u, m as [c|g|h]; try done; cbn [use used]; unfold on_counter, on_gauge, on_histogram; run; rewrite Hm; try done.
  destruct (Hh _ _ Hm) as [xs Hx]. destruct (observe_ok xs h v Hx) as (h' & -> & Ho & _). split; [done|].
  intros ? [= <-]. eauto.
Qed.

Lemma ask_ok t name n r : ask t name n r =
  match r !! name with
  | Some m => if decide (type m = t) then (Ok name, r) else (Throw logic_error, r)
  | None => (Ok name, <[name := fresh t n]> r)
  end.
Proof.
  destruct t; cbn [ask]; unfold counter, gauge, histogram, getOrCreate; run; destruct (r !! name) as [m|]; try done; by case_decide.
Qed.

Lemma call_ok p c : registry_ok p →
  ∃ p', call c p = Ok p' ∧ registry_ok p' ∧ ∀ name, registry p' !! name = metric_after name c (registry p !! name).
Proof.
  intros Hi. pose proof Hi as [Hr Hh]. destruct c as [t name n|ref u]; cbn [call].
  - rewrite ask_ok. destruct (registry p !! name) as [m|] eqn:Em; [case_decide as Et|]; (eexists; split; [reflexivity|]); (split; [split|]);
      cbn [registry refs metric_after]; try done.
    + intros ref t'. rewrite elem_of_cons, Hr. split; [intros [[= -> ->]|]; eauto|eauto].
    + intros nm. case_decide as En; [|done]. by rewrite <-En, Em.
    + intros nm. case_decide as En; [|done]. by rewrite <-En, Em.
    + intros ref t'. rewrite elem_of_cons, Hr. destruct (decide (ref = name)) as [->|Hn].
      * rewrite lookup_insert_eq, Em. split; [|intros (m & [= <-] & <-); left; by destruct t].
        intros [[= ->]|(m & ? & _)]; [|done]. eexists. split; [done|]. by destruct t.
      * rewrite lookup_insert_ne by done. split; [intros [[= -> ->]|]; [done|done]|by right].
    + intros nm h. rewrite lookup_insert_Some. intros [[-> Hf]|[_ Hm]]; [|eauto]. destruct t; try done.
      injection Hf as <-. exists []. apply observed_make.
    + intros nm. case_decide as En; [subst; by rewrite lookup_insert_eq, Em|by rewrite lookup_insert_ne].
  - case_decide as Hin.
    + destruct (use_ok p ref u Hi Hin) as (m & Em & -> & Ho). eexists. split; [reflexivity|].
      split; [split|]; cbn [registry refs metric_after].
      * intros ref' t. rewrite Hr. destruct (decide (ref' = ref)) as [->|Hn]; [|by rewrite lookup_insert_ne].
        rewrite lookup_insert_eq, Em. pose proof (used_type u m). naive_solver.
      * intros nm h. rewrite lookup_insert_Some. intros [[-> Hf]|[_ Hm]]; eauto.
      * intros nm. case_decide as En; [subst; by rewrite lookup_insert_eq, Em|by rewrite lookup_insert_ne].
    + exists p. split_and!; [done|done|]. intros nm. cbn [metric_after]. case_decide as En; [|done]. subst nm.
      destruct (registry p !! ref) as [m|] eqn:Em; [|done]. cbn. f_equal.
      assert (Ht : type m ≠ use_type u) by (intros Ht; apply Hin, Hr; eauto). by destruct u, m.
Qed.

(** A registry and the references it has given out, after any calls: nothing is undefined (so
    every cast of [getOrCreate] was to the object's type), a name keeps its type, all references
    to a name see one metric, which is what the requests and uses addressed to it make. *)
Lemma registry_refines cs : ∃ p, calls cs (mkProgram ∅ []) = Ok p ∧
  (∀ ref t, (ref, t) ∈ refs p ↔ ∃ m, registry p !! ref = Some m ∧ type m = t) ∧
  ∀ name, registry p !! name = foldl (λ m c, metric_after name c m) None cs.
Proof.
  enough (H : ∀ p, registry_ok p → ∃ p', calls cs p = Ok p' ∧ registry_ok p' ∧
    ∀ name, registry p' !! name = foldl (λ m c, metric_after name c m) (registry p !! name) cs).
  { destruct (H (mkProgram ∅ [])) as (p & E & Hp & Hn).
    - split; cbn [registry refs]; [|by intros n h; rewrite lookup_empty]. intros ref t. rewrite lookup_empty.
      split; [by intros ?%not_elem_of_nil|by intros (? & ? & _)].
    - exists p. split_and!; [done|apply Hp|]. intros name. by rewrite Hn. }
  induction cs as [|c cs IH]; intros p Hp; cbn [calls foldl]; [by exists p|].
  destruct (call_ok p c Hp) as (p1 & -> & H1 & N1). destruct (IH p1 H1) as (p2 & E2 & H2 & N2).
  exists p2. cbn [res_bind]. split_and!; [done|done|]. intros name. by rewrite N2, N1.
Qed.

(** ** [Gauge::inc] with other threads

    [m_value] is atomic; [compare_exchange_weak] may fail without a reason ([spurious]). *)

Inductive GaugeOp : Type := GSet (v : double) | GInc (v : double) | GDec (v : double).

(** What a call does to the value when no other thread interferes *)
Definition gauge_apply (op : GaugeOp) (x : double) : double :=
  match op with GSet v => gauge_set v x | GInc v => gauge_inc v x | GDec v => gauge_dec v x end.

Inductive GaugePC : Type :=
  | GIdle
  | GLoad (op : GaugeOp)
  | GCas (op : GaugeOp) (current : double).

(** [done]: the calls in the order in which they took effect *)
Record GaugeState : Type := mkGauge {
  g_value : double;
  g_threads : list GaugePC;
  g_done : list (nat * GaugeOp);
}.

Inductive GaugeAction : Type := GBegin (t : nat) (op : GaugeOp) | GThread (t : nat) (spurious : bool).

Definition gauge_step (a : GaugeAction) (s : GaugeState) : option GaugeState :=
  match a with
  | GBegin t op =>
      match g_threads s !! t, op with
      | Some GIdle, GSet v => Some (mkGauge v (g_threads s) (g_done s ++ [(t, op)]))
      | Some GIdle, _ => Some (mkGauge (g_value s) (<[t := GLoad op]> (g_threads s)) (g_done s))
      | _, _ => None
      end
  | GThread t spurious =>
      match g_threads s !! t with
      | Some (GLoad op) => Some (mkGauge (g_value s) (<[t := GCas op (g_value s)]> (g_threads s)) (g_done s))
      | Some (GCas op current) =>
          if bool_decide (g_value s = current) && negb spurious then
            Some (mkGauge (gauge_apply op current) (<[t := GIdle]> (g_threads s)) (g_done s ++ [(t, op)]))
          else Some (mkGauge (g_value s) (<[t := GCas op (g_value s)]> (g_threads s)) (g_done s))
      | _ => None
      end
  end.

Fixpoint gauge_run (acts : list GaugeAction) (s : GaugeState) : option GaugeState :=
  match acts with [] => Some s | a :: acts => match gauge_step a s with Some s => gauge_run acts s | None => None end end.

Definition gauge_init (n : nat) : GaugeState := mkGauge d_zero (replicate n GIdle) [].

Definition of_thread (t : nat) (l : list (nat * GaugeOp)) : list GaugeOp := (filter (λ x, x.1 = t) l).*2.
Definition begun (acts : list GaugeAction) : list (nat * GaugeOp) :=
  omap (λ a, match a with GBegin t op => Some (t, op) | _ => None end) acts.
Definition pending (p : option GaugePC) : list GaugeOp :=
  match p with Some (GLoad op) | Some (GCas op _) => [op] | _ => [] end.

Lemma of_thread_snoc t l t' op : of_thread t (l ++ [(t', op)]) = of_thread t l ++ (if decide (t' = t) then [op] else []).
Proof. unfold of_thread. rewrite filter_app, fmap_app, filter_cons. cbn [fst]. by case_decide. Qed.

Lemma gauge_run_snoc acts a s s' : gauge_run (acts ++ [a]) s = Some s' → ∃ s1, gauge_run acts s = Some s1 ∧ gauge_step a s1 = Some s'.
Proof.
  revert s. induction acts as [|b acts IH]; intros s; cbn [app gauge_run].
  - destruct (gauge_step a s) eqn:E; [|done]. intros [= <-]. eauto.
  - destruct (gauge_step b s); [|done]. apply IH.
Qed.

Definition gauge_ok (acts : list GaugeAction) (s : GaugeState) : Prop :=
  g_value s = foldl (λ x c, gauge_apply c.2 x) d_zero (g_done s) ∧
  ∀ t, of_thread t (g_done s) ++ pending (g_threads s !! t) = of_thread t (begun acts).

(** Every call of [inc] and [dec] takes effect once, between its beginning and its end: the
    value is that of the finished calls one after the other, and the calls of a thread are in
    its own order, the last one perhaps still running. *)
Lemma gauge_linearizable acts n s : gauge_run acts (gauge_init n) = Some s → gauge_ok acts s.
Proof.
  revert s. induction acts as [|a acts IH] using rev_ind; intros s.
  - intros [= <-]. split; [done|]. intros t. cbn [gauge_init g_done g_threads]. destruct (replicate n GIdle !! t) eqn:E; [|done].
    by apply lookup_replicate in E as [-> _].
  - intros (s1 & Hr & Hs)%gauge_run_snoc. destruct (IH _ Hr) as [Hv Ht]. clear IH Hr.
    assert (Hb : begun (acts ++ [a]) = begun acts ++ begun [a]) by apply omap_app.
    unfold gauge_ok. rewrite Hb. destruct a as [t op|t sp]; cbn [gauge_step] in Hs; destruct (g_threads s1 !! t) as [p|] eqn:Et; try done.
    + destruct p; try done. assert (Hn : ∀ t', of_thread t' (begun acts ++ begun [GBegin t op]) =
        of_thread t' (begun acts) ++ (if decide (t = t') then [op] else [])) by (intros; apply of_thread_snoc).
      destruct op as [v|v|v]; injection Hs as <-; cbn [g_value g_threads g_done];
        (split; [by rewrite ?foldl_app|]); intros t'; rewrite Hn, <-Ht; specialize (Ht t').
      * rewrite of_thread_snoc. case_decide; [|by rewrite !app_nil_r]. subst t'. rewrite Et. cbn. by rewrite !app_nil_r.
      * destruct (decide (t = t')) as [<-|?]; [|by rewrite list_lookup_insert_ne, app_nil_r].
        rewrite list_lookup_insert_eq, Et by (by eapply lookup_lt_Some). cbn. by rewrite app_nil_r.
      * destruct (decide (t = t')) as [<-|?]; [|by rewrite list_lookup_insert_ne, app_nil_r].
        rewrite list_lookup_insert_eq, Et by (by eapply lookup_lt_Some). cbn. by rewrite app_nil_r.
    + change (begun [GThread t sp]) with (@nil (nat * GaugeOp)). rewrite app_nil_r. pose proof (lookup_lt_Some _ _ _ Et) as Hlt.
      destruct p as [|op|op cur]; [done| |destruct (bool_decide _ && negb sp) eqn:Ec]; injection Hs as <-; cbn [g_value g_threads g_done];
        (split; [try done|]); try intros t'; try rewrite <-Ht; try specialize (Ht t').
      * destruct (decide (t = t')) as [<-|?]; [by rewrite list_lookup_insert_eq, Et|by rewrite list_lookup_insert_ne].
      * apply andb_true_iff in Ec as [<-%bool_decide_eq_true _]. by rewrite foldl_app, <-Hv.
      * rewrite of_thread_snoc. destruct (decide (t = t')) as [<-|?]; [|by rewrite list_lookup_insert_ne, app_nil_r].
        rewrite list_lookup_insert_eq, Et by done. cbn. by rewrite app_nil_r.
      * destruct (decide (t = t')) as [<-|?]; [by rewrite list_lookup_insert_eq, Et|by rewrite list_lookup_insert_ne].
Qed.

(** ** Properties *)

(** C31: what a snapshot of a histogram says, for any samples (at most 2^46 are retained, and
    none of those is a NaN): count and sum are those of all
    samples (in 64-bit and binary64 arithmetic), and the order statistics are those of the
    last [maxSamples] of them: with [n] samples retained, [p95] is the sample at index
    [floor (95 (n - 1) / 100)] in ascending order, computed exactly although the code
    multiplies [0.95] in binary64, and likewise for the others; minimum, percentiles and
    maximum are in ascending order.  [observe] is never out of bounds. *)
Theorem histogram_percentiles `{StdSort} m xs :
  let win := window (Nat.max 1 m) xs in
  let n := Z.of_nat (length win) in
  Z.of_nat m ≤ 2 ^ 46 → Forall (λ x, is_nan x = false) win →
  ∃ h s, observe_all xs (Histogram_make m) = (Ok tt, h) ∧ snapshot h = Ok s ∧
    count s = u64 (Z.of_nat (length xs)) ∧ sum s = foldl d_add d_zero xs ∧
    (xs = [] → s = mkSnapshot 0 d_zero d_zero d_zero d_zero d_zero d_zero d_zero d_zero) ∧
    (xs ≠ [] →
      avg s = (if count s =? 0 then d_zero else d_div (sum s) (of_size (count s))) ∧
      at_rank win 0 (min s) ∧ at_rank win (50 * (n - 1) / 100) (p50 s) ∧ at_rank win (90 * (n - 1) / 100) (p90 s) ∧
      at_rank win (95 * (n - 1) / 100) (p95 s) ∧ at_rank win (99 * (n - 1) / 100) (p99 s) ∧ at_rank win (n - 1) (max s) ∧
      StronglySorted not_after [min s; p50 s; p90 s; p95 s; p99 s; max s]).
Proof.
  intros win n Hm Hf. destruct (observe_all_ok xs [] _ (observed_make m)) as (h & Eh & Ho & Hmax). cbn [app] in Ho.
  exists h. assert (Hmx : m_maxSamples h = Nat.max 1 m) by (rewrite Hmax; by destruct m).
  destruct Ho as (H0 & Hi & Hl & _ & Hr & Hc & Hs). rewrite Hmx in *. fold win in Hr.
  assert (Hp : m_samples h ≡ₚ win) by (rewrite <-Hr, Permutation_app_comm; by rewrite take_drop).
  destruct xs as [|x xs'] eqn:Ex.
  - exists (mkSnapshot 0 d_zero d_zero d_zero d_zero d_zero d_zero d_zero d_zero). split_and!; try done.
    unfold snapshot. rewrite Nat.min_0_r in Hl. apply nil_length_inv in Hl. by rewrite Hl, Hc, Hs.
  - rewrite <-Ex in *. destruct (snapshot_ok h n) as (s & Es & H1 & H2 & H3 & H4 & H5 & H6 & H7 & H8 & H9 & H10).
    + by rewrite Hp.
    + unfold n. rewrite <-Hp, Hl, Ex. cbn [length]. lia.
    + by rewrite Hp.
    + exists s. split_and!; [done|done|congruence|congruence|by rewrite Ex|].
      intros _. rewrite <-!Hp. split_and!; done.
Qed.

Lemma histogram_percentiles_witness : ∃ h s,
  observe_all (of_size <$> [7; 3; 9; 1; 5; 8]) (Histogram_make 4) = (Ok tt, h) ∧ snapshot h = Ok s ∧
  m_samples h = of_size <$> [5; 8; 9; 1] ∧ count s = 6 ∧ min s = of_size 1 ∧ p50 s = of_size 5 ∧ p99 s = of_size 8 ∧ max s = of_size 9.
Proof.
  destruct (histogram_percentiles 4 (of_size <$> [7; 3; 9; 1; 5; 8])) as (h & s & Eh & Es & _).
  - lia.
  - vm_compute. repeat constructor.
  - exists h, s. split; [exact Eh|]. split; [exact Es|].
    assert (E : h = (observe_all (of_size <$> [7; 3; 9; 1; 5; 8]) (Histogram_make 4)).2) by (by rewrite Eh).
    subst h. vm_compute in Es. injection Es as <-. split_and!; vm_compute; reflexivity.
Defined.

(** A NaN among the samples makes [operator<] no strict weak order, and [std::sort] undefined. *)
Theorem nan_sample_undefined : let r := observe_all [of_size 1; S754_nan] (Histogram_make 4) in r.1 = Ok tt ∧ snapshot r.2 = Undef.
Proof. split; vm_compute; reflexivity. Qed.
