(* ===== verification/KcpSession.v ===== *)
(** * [dbase::net::KcpSession] (code/src/net/kcp_session.cpp, kcp_session.h)

    A session over UDP, driven by the vendored protocol [ikcp].  The control block of [ikcp]
    is a parameter: the class [Kcp] has its operations and [KcpLaws] what ikcp.h documents of
    them when the peer conforms to the protocol (the C code of [ikcp] is not modelled; datagrams
    with inconsistent fragment numbers are outside the laws).  [inbox] are the complete messages that [ikcp_recv] is going to return.  The state
    of a run holds the object and the world around it: the clock, the timers of the loop that
    call [updateInLoop], the functors that other threads queue, and a trace.  [Arrived] and
    [Received] entries of the trace are history only: the messages an input made complete, and
    those taken out by [ikcp_recv].

    As in [Connection], the n-th callback invoked makes the calls of the n-th entry of
    [script].  Handlers run in the thread of the loop.  [m_kcp] and [m_udpSocket] are not null
    after the constructor.  The datagrams that [ikcp_update] passes to [kcpOutput] are in the
    trace; what [kcpOutput] returns is not used by [ikcp]. *)

From S2P Require Import Prelude Error.
From stdpp Require Import base gmap list strings.
From Stdlib Require Import ZArith Lia.

Local Open Scope Z_scope.

(** ** The protocol *)

Class Kcp (K : Type) : Type := {
  ikcp_create : Z → option K;
  ikcp_settoken : Z → K → Z * K;
  ikcp_setmtu : Z → K → Z * K;
  ikcp_wndsize : Z → Z → K → K;
  ikcp_nodelay : Z → Z → Z → Z → K → K;
  ikcp_send : str → K → Z * K;
  ikcp_input : str → K → Z * K;
  ikcp_update : Z → K → list str * K;     (* with what it passes to the output function *)
  ikcp_check : Z → K → Z;
  ikcp_peeksize : K → Z;
  ikcp_recv : Z → K → Z * str * K;        (* the buffer's size; the result and the buffer *)
  ikcp_waitsnd : K → Z;
  ikcp_stats : K → Z * Z * Z * Z;         (* [ikcp_rtt], [pktloss], [tx_bandwidth], [rx_bandwidth] *)
  inbox : K → list str;
}.

Definition INT_MAX : Z := 2 ^ 31 - 1.

Class KcpLaws (K : Type) `{Kcp K} : Prop := {
  create_inbox conv k : ikcp_create conv = Some k → inbox k = [];
  settoken_inbox token k : inbox (ikcp_settoken token k).2 = inbox k;
  setmtu_inbox mtu k : inbox (ikcp_setmtu mtu k).2 = inbox k;
  wndsize_inbox s r k : inbox (ikcp_wndsize s r k) = inbox k;
  nodelay_inbox n i r c k : inbox (ikcp_nodelay n i r c k) = inbox k;
  send_inbox data k : inbox (ikcp_send data k).2 = inbox k;
  update_inbox now k : inbox (ikcp_update now k).2 = inbox k;
  input_inbox data k : ∃ new, inbox (ikcp_input data k).2 = inbox k ++ new;
  peeksize_none k : inbox k = [] → ikcp_peeksize k < 0;
  peeksize_some k msg rest : inbox k = msg :: rest → ikcp_peeksize k = zlen msg ∧ zlen msg ≤ INT_MAX;
  recv_some k msg rest len : inbox k = msg :: rest → zlen msg ≤ len →
    ∃ k', ikcp_recv len k = (zlen msg, msg, k') ∧ inbox k' = rest;
}.

(** ** The object *)

Inductive State : Type := Connecting | Connected | Disconnecting | Disconnected.

#[global] Instance State_eq_dec : EqDecision State.
Proof. solve_decision. Defined.

Record Options : Type := mkOptions {
  conv : Z; token : Z; mtu : Z; sndWnd : Z; rcvWnd : Z; nodelay : Z; interval : Z; resend : Z; nc : Z;
  idleTimeout : Z;          (* milliseconds *)
  maxMessageBytes : Z;
}.

Definition Options_default : Options := mkOptions 0 0 1400 128 128 1 20 2 1 0 (16 * 1024 * 1024).

(** Which callbacks are set *)
Record Callbacks : Type := mkCallbacks {
  m_messageCallback : bool; m_writeCompleteCallback : bool; m_closeCallback : bool; m_errorCallback : bool;
}.

Inductive Event : Type := OnMessage (data : str) | OnWriteComplete | OnClose | OnError (e : Error).

(** What the user calls *)
Inductive Op : Type := OpSend (data : str) | OpShutdown | OpForceClose | OpConnectDestroyed.

Inductive Task : Type := TSend (data : str) | TInput (packet : str) | TShutdown | TForceClose.

Inductive Item : Type :=
  | Callback (e : Event)
  | Output (datagram : str)
  | Accepted (data : str)
  | Arrived (msgs : list str)
  | Received (msg : str)
  | Destroyed.

Section session.
Context {K : Type} `{Kcp K}.

Record Session : Type := mkSession {
  m_options : Options;
  m_kcp : K;
  m_state : State;
  m_updateTimerId : Z;
  m_callbacks : Callbacks;
  m_lastActiveTickMs : Z;
  m_stats : Z * Z * Z * Z;
  (* the world *)
  now : Z;                    (* nanoseconds *)
  timers : list (Z * Z);      (* armed timers: identifier and due time *)
  nextTimerId : Z;
  pending : list Task;
  script : list (list Op);
  trace : list Item;
}.

Definition set_kcp x s := mkSession (m_options s) x (m_state s) (m_updateTimerId s) (m_callbacks s) (m_lastActiveTickMs s) (m_stats s)
  (now s) (timers s) (nextTimerId s) (pending s) (script s) (trace s).
Definition set_state x s := mkSession (m_options s) (m_kcp s) x (m_updateTimerId s) (m_callbacks s) (m_lastActiveTickMs s) (m_stats s)
  (now s) (timers s) (nextTimerId s) (pending s) (script s) (trace s).
Definition set_timer i ts n s := mkSession (m_options s) (m_kcp s) (m_state s) i (m_callbacks s) (m_lastActiveTickMs s) (m_stats s)
  (now s) ts n (pending s) (script s) (trace s).
Definition set_active x s := mkSession (m_options s) (m_kcp s) (m_state s) (m_updateTimerId s) (m_callbacks s) x (m_stats s)
  (now s) (timers s) (nextTimerId s) (pending s) (script s) (trace s).
Definition set_stats x s := mkSession (m_options s) (m_kcp s) (m_state s) (m_updateTimerId s) (m_callbacks s) (m_lastActiveTickMs s) x
  (now s) (timers s) (nextTimerId s) (pending s) (script s) (trace s).
Definition set_now x s := mkSession (m_options s) (m_kcp s) (m_state s) (m_updateTimerId s) (m_callbacks s) (m_lastActiveTickMs s)
  (m_stats s) x (timers s) (nextTimerId s) (pending s) (script s) (trace s).
Definition set_pending x s := mkSession (m_options s) (m_kcp s) (m_state s) (m_updateTimerId s) (m_callbacks s) (m_lastActiveTickMs s)
  (m_stats s) (now s) (timers s) (nextTimerId s) x (script s) (trace s).
Definition set_script x s := mkSession (m_options s) (m_kcp s) (m_state s) (m_updateTimerId s) (m_callbacks s) (m_lastActiveTickMs s)
  (m_stats s) (now s) (timers s) (nextTimerId s) (pending s) x (trace s).
Definition set_trace x s := mkSession (m_options s) (m_kcp s) (m_state s) (m_updateTimerId s) (m_callbacks s) (m_lastActiveTickMs s)
  (m_stats s) (now s) (timers s) (nextTimerId s) (pending s) (script s) x.

Definition record (i : list Item) : M Session () := modify (λ s, set_trace (trace s ++ i) s).
Definition setState (st : State) : M Session () := modify (set_state st).
Definition in_state (st : State) (s : Session) : bool := bool_decide (m_state s = st).

(** ** Time and statistics *)

Definition toTickMs (tp : Z) : Z := Z.quot tp 1000000.
Definition fromTickMs (tick : Z) : Z := tick * 1000000.
Definition nowMs (s : Session) : Z := u32 (Z.quot (now s) 1000000).
Definition idleFor (s : Session) : Z := Z.quot (now s - fromTickMs (m_lastActiveTickMs s)) 1000000.
Definition touchActive : M Session () := modify (λ s, set_active (toTickMs (now s)) s).
Definition refreshStats : M Session () := modify (λ s, set_stats (ikcp_stats (m_kcp s)) s).

(** A call of the protocol that changes its control block *)
Definition on_kcp {A} (f : K → A * K) : M Session A :=
  λ s, let '(a, k) := f (m_kcp s) in (Ok a, set_kcp k s).

Definition update (nowMs : Z) : M Session () :=
  let! datagrams := on_kcp (ikcp_update nowMs) in
  record (Output <$> datagrams).

(** [kcpOutput], with the answer of [sendTo]: the number of bytes or an error *)
Definition kcpOutput (len : Z) (answer : Result Z) : Z :=
  if len <=? 0 then -1 else match answer with Err _ => -1 | Value n => swrap 32 n end.

(** ** Timers *)

Definition runAfter (delayMs : Z) : M Session Z :=
  let! s := get in
  put (set_timer (m_updateTimerId s) ((nextTimerId s, now s + delayMs * 1000000) :: timers s) (nextTimerId s + 1) s);;;
  ret (nextTimerId s).

Definition cancelTimer (timerId : Z) : M Session () :=
  modify (λ s, set_timer (m_updateTimerId s) (filter (λ t, fst t ≠ timerId) (timers s)) (nextTimerId s) s).

Definition cancelUpdateTimer : M Session () :=
  let! s := get in
  if negb (m_updateTimerId s =? 0) then
    cancelTimer (m_updateTimerId s);;;
    modify (λ s, set_timer 0 (timers s) (nextTimerId s) s)
  else ret tt.

Definition update_delay (next nowMsValue : Z) : Z := if next <=? nowMsValue then 0 else u32 (next - nowMsValue).

Definition scheduleUpdate (nowMsValue : Z) : M Session () :=
  let! s := get in
  if in_state Disconnected s then ret tt
  else
    let next := ikcp_check nowMsValue (m_kcp s) in
    let delay := update_delay next nowMsValue in
    cancelUpdateTimer;;;
    let! id := runAfter delay in
    modify (λ s, set_timer id (timers s) (nextTimerId s) s).

(** ** Handlers; [user] is the callbacks *)

Section handlers.
Context (user : Event → M Session ()).

Definition callback (sel : Callbacks → bool) (e : Event) : M Session () :=
  let! s := get in
  if sel (m_callbacks s) then record [Callback e];;; user e else ret tt.

Definition handleError (e : Error) : M Session () := callback m_errorCallback (OnError e).

Definition handleClose : M Session () :=
  let! s := get in
  if in_state Disconnected s then ret tt
  else
    cancelUpdateTimer;;;
    setState Disconnected;;;
    callback m_closeCallback OnClose.

(** [for (;;)] of [drainRecvQueue]; [true]: the loop was left by [return] *)
Fixpoint drain_loop (fuel : nat) : M Session bool :=
  match fuel with
  | O => lift NoFuel
  | S fuel =>
      let! s := get in
      let peek := ikcp_peeksize (m_kcp s) in
      if peek <? 0 then ret false
      else if swrap 32 (maxMessageBytes (m_options s)) <? peek then
        handleError (mkError InvalidState (lit "KcpSession message too large"));;;
        handleClose;;;
        ret true
      else
        let! r := on_kcp (λ k, let '(n, payload, k) := ikcp_recv peek k in ((n, payload), k)) in
        let '(n, payload) := r in
        if n <? 0 then ret false
        else
          record [Received payload];;;
          touchActive;;;
          callback m_messageCallback (OnMessage (ztake n payload));;;
          drain_loop fuel
  end.

Definition drainRecvQueue : M Session () :=
  let! s := get in
  let! returned := drain_loop (S (length (inbox (m_kcp s)))) in
  if returned : bool then ret tt
  else
    let! s := get in
    if m_writeCompleteCallback (m_callbacks s) && (ikcp_waitsnd (m_kcp s) =? 0) then callback m_writeCompleteCallback OnWriteComplete
    else ret tt.

Definition sendInLoop (data : str) : M Session () :=
  let! s := get in
  if in_state Disconnected s || in_state Disconnecting s then ret tt
  else if INT_MAX <? zlen data then
    handleError (mkError InvalidArgument (lit "KcpSession send payload too large"))
  else
    let! r := on_kcp (ikcp_send data) in
    if r <? 0 then handleError (mkError IOError (lit "KcpSession ikcp_send failed"))
    else
      record [Accepted data];;;
      touchActive;;;
      let! s := get in
      let now := nowMs s in
      update now;;;
      refreshStats;;;
      scheduleUpdate now.

(** The last lines of [inputPacketInLoop] and [updateInLoop] *)
Definition close_if_done : M Session () :=
  let! s := get in
  if in_state Disconnecting s && (ikcp_waitsnd (m_kcp s) =? 0) then handleClose else ret tt.

Definition inputPacketInLoop (packet : str) : M Session () :=
  let! s := get in
  if in_state Disconnected s then ret tt
  else
    let! r := on_kcp (ikcp_input packet) in
    let! s' := get in
    record [Arrived (drop (length (inbox (m_kcp s))) (inbox (m_kcp s')))];;;
    if r <? 0 then handleError (mkError ParseError (lit "KcpSession ikcp_input failed: " ++ to_string r))
    else
      touchActive;;;
      drainRecvQueue;;;
      let! s := get in
      let now := nowMs s in
      update now;;;
      refreshStats;;;
      scheduleUpdate now;;;
      close_if_done.

Definition updateInLoop : M Session () :=
  let! s := get in
  if in_state Disconnected s then ret tt
  else
    let now := nowMs s in
    update now;;;
    refreshStats;;;
    drainRecvQueue;;;
    scheduleUpdate now;;;
    let! s := get in
    if (0 <? idleTimeout (m_options s)) && (idleTimeout (m_options s) <=? idleFor s) then
      handleError (mkError Timeout (lit "KcpSession idle timeout"));;;
      handleClose
    else close_if_done.

Definition shutdownInLoop : M Session () :=
  let! s := get in
  if in_state Disconnected s then ret tt
  else
    setState Disconnecting;;;
    if ikcp_waitsnd (m_kcp s) =? 0 then handleClose else ret tt.

Definition connectEstablished : M Session () :=
  setState Connected;;;
  let! s := get in
  scheduleUpdate (nowMs s).

Definition connectDestroyed : M Session () :=
  let! s := get in
  if in_state Disconnected s then ret tt
  else
    cancelUpdateTimer;;;
    setState Disconnected;;;
    record [Destroyed].

(** [EventLoop::runInLoop]; [here] is [isInLoopThread()]. *)
Definition runInLoop (here : bool) (t : Task) (m : M Session ()) : M Session () :=
  if here then m else modify (λ s, set_pending (pending s ++ [t]) s).

Definition send (here : bool) (data : str) : M Session () :=
  if bool_decide (data = []) then ret tt else runInLoop here (TSend data) (sendInLoop data).
Definition inputPacket (here : bool) (packet : str) : M Session () :=
  if bool_decide (packet = []) then ret tt else runInLoop here (TInput packet) (inputPacketInLoop packet).
Definition shutdown (here : bool) : M Session () := runInLoop here TShutdown shutdownInLoop.
Definition forceClose (here : bool) : M Session () := runInLoop here TForceClose handleClose.

Definition run_op (here : bool) (o : Op) : M Session () :=
  match o with
  | OpSend data => send here data
  | OpShutdown => shutdown here
  | OpForceClose => forceClose here
  | OpConnectDestroyed => if here then connectDestroyed else undef   (* [assertInLoopThread] *)
  end.

Fixpoint run_ops (os : list Op) : M Session () :=
  match os with [] => ret tt | o :: os => run_op true o;;; run_ops os end.

Definition run_task (t : Task) : M Session () :=
  match t with
  | TSend data => sendInLoop data
  | TInput packet => inputPacketInLoop packet
  | TShutdown => shutdownInLoop
  | TForceClose => handleClose
  end.

End handlers.

(** ** Runs *)

(** The constructor; [t] is the clock. *)
Definition KcpSession_make (loop socket : bool) (options : Options) (cbs : Callbacks) (t : Z) (sc : list (list Op)) : res Session :=
  if negb loop then Throw invalid_argument
  else if negb socket then Throw invalid_argument
  else if conv options =? 0 then Throw invalid_argument
  else
    match ikcp_create (conv options) with
    | None => Throw runtime_error
    | Some k =>
        let '(r, k) := if negb (token options =? 0) then ikcp_settoken (token options) k else (0, k) in
        if negb (r =? 0) then Throw runtime_error
        else
          let '(r, k) := ikcp_setmtu (mtu options) k in
          if negb (r =? 0) then Throw runtime_error
          else
            let k := ikcp_wndsize (sndWnd options) (rcvWnd options) k in
            let k := ikcp_nodelay (nodelay options) (interval options) (resend options) (nc options) k in
            Ok (mkSession options k Connecting 0 cbs (toTickMs t) (ikcp_stats k) t [] 1 [] sc [])
    end.

(** The callbacks follow the script; [n] bounds their nesting. *)
Fixpoint react (n : nat) (e : Event) : M Session () :=
  match n with
  | O => lift NoFuel
  | S n =>
      let! s := get in
      match script s with
      | [] => ret tt
      | os :: rest => put (set_script rest s);;; run_ops (react n) os
      end
  end.

Inductive Action : Type :=
  | Input (here : bool) (packet : str)   (* [inputPacket] *)
  | Call (o : Op)                        (* a call in the thread of the loop *)
  | Remote (o : Op)                      (* a call in another thread *)
  | RunTask                              (* the loop runs the oldest functor *)
  | Timer                                (* the loop runs the oldest armed timer *)
  | Pass (ns : Z).                       (* time passes *)

Definition act (a : Action) : M Session () :=
  let! s := get in
  let user := react (S (length (script s))) in
  match a with
  | Input here packet => inputPacket user here packet
  | Call o => run_op user true o
  | Remote o => run_op user false o
  | RunTask =>
      match pending s with
      | [] => ret tt
      | t :: ts => put (set_pending ts s);;; run_task user t
      end
  | Timer =>
      match timers s with
      | [] => ret tt
      | t :: ts => put (set_timer (m_updateTimerId s) ts (nextTimerId s) s);;; updateInLoop user
      end
  | Pass ns => put (set_now (now s + ns) s)
  end.

Fixpoint acts (l : list Action) : M Session () :=
  match l with [] => ret tt | a :: l => act a;;; acts l end.

(** A session as the server and the client make it *)
Definition established (l : list Action) : M Session () := connectEstablished;;; acts l.

End session.

Arguments Session K : clear implicits.

(** ** The invariant *)

Section facts.
Context {K : Type} `{KcpLaws K}.
Implicit Types (s : Session K).

Definition closes (tr : list Item) : nat := tally (λ i, match i with Callback OnClose => 1%nat | _ => 0%nat end) tr.
Definition received (tr : list Item) : list str := omap (λ i, match i with Received msg => Some msg | _ => None end) tr.
Definition arrived (tr : list Item) : list str := mjoin (omap (λ i, match i with Arrived msgs => Some msgs | _ => None end) tr).
Definition messages (tr : list Item) : list str := omap (λ i, match i with Callback (OnMessage msg) => Some msg | _ => None end) tr.

Record inv (s : Session K) : Prop := {
  iv_timer : timers s = [] ∨ ∃ due, timers s = [(m_updateTimerId s, due)];
  iv_next : 0 ≤ m_updateTimerId s < nextTimerId s ∧ (m_updateTimerId s = 0 → timers s = []);
  iv_closed : m_state s = Disconnected → timers s = [] ∧
    (closes (trace s) = (if m_closeCallback (m_callbacks s) then 1 else 0)%nat ∨ closes (trace s) = 0%nat ∧ Destroyed ∈ trace s);
  iv_open : m_state s ≠ Disconnected → closes (trace s) = 0%nat;
  iv_msgs : received (trace s) ++ inbox (m_kcp s) = arrived (trace s);
  iv_cb : messages (trace s) = if m_messageCallback (m_callbacks s) then received (trace s) else [];
  iv_max : Forall (λ m, zlen m ≤ swrap 32 (maxMessageBytes (m_options s))) (received (trace s));
}.

Definition rank (st : State) : nat := match st with Connecting => 0 | Connected => 1 | Disconnecting => 2 | Disconnected => 3 end.

(** What a handler may do to a session *)
Record goes (s s' : Session K) : Prop := {
  go_options : m_options s' = m_options s;
  go_callbacks : m_callbacks s' = m_callbacks s;
  go_now : now s' = now s;
  go_rank : (rank (m_state s) ≤ rank (m_state s'))%nat;
  go_armed : timers s ≠ [] → m_state s' ≠ Disconnected → timers s' ≠ [];
  go_script : (length (script s') ≤ length (script s))%nat;
  go_trace : trace s `prefix_of` trace s';
}.

(** The trace has grown. *)
Ltac grown := solve [done|reflexivity|eexists; cbn; rewrite <-?app_assoc; reflexivity].

(** A callback does not change what there is to receive. *)
Definition calls (s s' : Session K) : Prop := goes s s' ∧ inbox (m_kcp s') = inbox (m_kcp s).

#[global] Instance goes_preorder : PreOrder goes.
Proof.
  split; [intros s; split; try done; lia|]. intros s1 s2 s3 [? ? ? ? Ha1 ? ?] [? ? ? ? Ha2 ? ?]. split; try congruence; try lia; [|by etrans].
  intros Ht Hn. apply Ha2; [|done]. apply Ha1; [done|]. intros E. rewrite E in *. destruct (m_state s3); cbn in *; try lia; done.
Qed.

#[global] Instance calls_preorder : PreOrder calls.
Proof.
  split; [intros s; by split|]. intros s1 s2 s3 [H1 E1] [H2 E2]. split; [by transitivity s2|congruence].
Qed.

Lemma kcp_closes_app tr tr' : closes (tr ++ tr') = (closes tr + closes tr')%nat.
Proof. apply tally_app. Qed.
Lemma received_app tr tr' : received (tr ++ tr') = received tr ++ received tr'.
Proof. apply omap_app. Qed.
Lemma arrived_app tr tr' : arrived (tr ++ tr') = arrived tr ++ arrived tr'.
Proof. unfold arrived. by rewrite omap_app, join_app. Qed.
Lemma messages_app tr tr' : messages (tr ++ tr') = messages tr ++ messages tr'.
Proof. apply omap_app. Qed.

(** Entries of the trace that the invariant does not look at *)
Definition plain (i : Item) : Prop :=
  match i with Output _ | Accepted _ | Destroyed | Callback OnWriteComplete | Callback (OnError _) => True | _ => False end.

Lemma plain_trace l : Forall plain l → closes l = 0%nat ∧ received l = [] ∧ arrived l = [] ∧ messages l = [].
Proof.
  induction 1 as [|i l Hi _ (IH1 & IH2 & IH3 & IH4)]; [done|]. unfold closes, received, arrived, messages in *.
  destruct i as [[]| | | | |]; try done; cbn [omap list_omap]; rewrite tally_cons, IH1; auto.
Qed.

(** Members that the invariant does not look at, and plain entries of the trace, can change. *)
Lemma inv_same s s' l : inv s → Forall plain l →
  m_options s' = m_options s → inbox (m_kcp s') = inbox (m_kcp s) → m_state s' = m_state s → m_updateTimerId s' = m_updateTimerId s →
  m_callbacks s' = m_callbacks s → timers s' = timers s → nextTimerId s' = nextTimerId s → trace s' = trace s ++ l → inv s'.
Proof.
  intros [H1 H2 H3 H4 H5 H6 H7] (L1 & L2 & L3 & L4)%plain_trace E1 E2 E3 E4 E5 E6 E7 E8.
  split; rewrite ?E1, ?E2, ?E3, ?E4, ?E5, ?E6, ?E7, ?E8, ?kcp_closes_app, ?received_app, ?arrived_app, ?messages_app, ?L1, ?L2, ?L3, ?L4,
    ?app_nil_r, ?Nat.add_0_r; try done.
  intros Hd. destruct (H3 Hd) as [? Hc]. split; [done|]. rewrite elem_of_app. naive_solver.
Qed.

Lemma calls_same s s' : m_options s' = m_options s → m_callbacks s' = m_callbacks s → now s' = now s → m_state s' = m_state s →
  timers s' = timers s → script s' = script s → inbox (m_kcp s') = inbox (m_kcp s) → trace s `prefix_of` trace s' → calls s s'.
Proof. intros E1 E2 E3 E4 E5 E6 E7 E8. split; [split|]; try congruence; rewrite ?E4, ?E5, ?E6; try lia; try congruence. Qed.

Lemma touchActive_ok s : inv s → wp touchActive s (λ _ s', inv s' ∧ calls s s' ∧ s' = set_active (toTickMs (now s)) s) nothrow.
Proof.
  intros Hi. apply wp_modify. split_and!; [|apply calls_same; grown|done]. eapply (inv_same s _ []); try done. by rewrite app_nil_r.
Qed.

Lemma refreshStats_ok s : inv s → wp refreshStats s (λ _ s', inv s' ∧ calls s s' ∧ s' = set_stats (ikcp_stats (m_kcp s)) s) nothrow.
Proof.
  intros Hi. apply wp_modify. split_and!; [|apply calls_same; grown|done]. eapply (inv_same s _ []); try done. by rewrite app_nil_r.
Qed.

Lemma update_ok t s : inv s →
  wp (update t) s (λ _ s', inv s' ∧ calls s s' ∧ m_state s' = m_state s ∧ timers s' = timers s) nothrow.
Proof.
  intros Hi. unfold update, wp, bind, on_kcp, record, modify. pose proof (update_inbox t (m_kcp s)) as Hu.
  destruct (ikcp_update t (m_kcp s)) as [ds k]. cbn [snd] in Hu. split_and!; [|apply calls_same; grown|done|done].
  eapply (inv_same s _ (Output <$> ds)); try done. apply Forall_fmap, Forall_true. done.
Qed.

(** Cancelling leaves no timer. *)
Lemma cancelUpdateTimer_ok s : inv s → wp cancelUpdateTimer s (λ _ s', s' = set_timer 0 [] (nextTimerId s) s) nothrow.
Proof.
  intros [H1 [H2 H2'] _ _ _ _ _]. unfold cancelUpdateTimer, cancelTimer. apply wp_get. destruct (Z.eqb_spec (m_updateTimerId s) 0) as [E|E]; cbn [negb].
  - apply wp_ret. specialize (H2' E). destruct s. cbn in *. by subst.
  - apply wp_run_seq with tt (set_timer (m_updateTimerId s) [] (nextTimerId s) s); [|done]. unfold modify. do 3 f_equal.
    destruct H1 as [->|[due ->]]; [done|]. rewrite filter_cons_False; [done|]. cbn. auto.
Qed.

Lemma scheduleUpdate_ok t s : inv s → wp (scheduleUpdate t) s (λ _ s', inv s' ∧ calls s s' ∧ m_state s' = m_state s ∧ m_kcp s' = m_kcp s ∧
    (m_state s ≠ Disconnected → timers s' = [(m_updateTimerId s', now s + update_delay (ikcp_check t (m_kcp s)) t * 1000000)])) nothrow.
Proof.
  intros Hi. unfold scheduleUpdate. apply wp_get. unfold in_state. case_bool_decide as Hd; [apply wp_ret; by split_and!|].
  eapply wp_seq; [by apply cancelUpdateTimer_ok|]. intros _ s1 ->. unfold runAfter, wp, bind, get, put, ret, modify. cbv beta iota.
  destruct Hi as [H1 [H2 H2'] H3 H4 H5 H6 H7]. split_and!; try done.
  split; cbn [timers m_updateTimerId nextTimerId m_state trace m_callbacks m_options m_kcp set_timer]; try done; [by right; eexists|lia].
Qed.

(** ** The handlers *)

Section handlers_ok.
Context (user : Event → M (Session K) ()) (n : nat).
Hypothesis user_ok : ∀ e s, inv s → (length (script s) < n)%nat → wp (user e) s (λ _ s', inv s' ∧ calls s s') nothrow.

Lemma callback_plain sel e s : plain (Callback e) → inv s → (length (script s) < n)%nat →
  wp (callback user sel e) s (λ _ s', inv s' ∧ calls s s') nothrow.
Proof.
  intros He Hi Hn. unfold callback. apply wp_get. destruct (sel (m_callbacks s)); [|apply wp_ret; by split].
  unfold record. apply wp_modify_seq. eapply wp_mono; [apply user_ok|..]; try done.
  - eapply (inv_same s _ [Callback e]); try done. by constructor.
  - intros _ s' [H1 H2]. split; [done|]. etrans; [|exact H2]. apply calls_same; grown.
Qed.

Lemma handleError_ok e s : inv s → (length (script s) < n)%nat →
  wp (handleError user e) s (λ _ s', inv s' ∧ calls s s') nothrow.
Proof. by apply callback_plain. Qed.

(** A session that is closed, with its callback *)
Lemma kcp_inv_close s : inv s → m_state s ≠ Disconnected →
  let s' := set_state Disconnected (set_timer 0 [] (nextTimerId s) s) in
  inv (if m_closeCallback (m_callbacks s) then set_trace (trace s ++ [Callback OnClose]) s' else s').
Proof.
  intros [H1 [H2 H2'] H3 H4 H5 H6 H7] Hd. cbv zeta. specialize (H4 Hd).
  destruct (m_closeCallback (m_callbacks s)) eqn:Ec;
    split; cbn [set_trace set_state set_timer timers m_updateTimerId nextTimerId m_state trace m_callbacks m_options m_kcp]; rewrite ?Ec;
    rewrite ?kcp_closes_app, ?received_app, ?arrived_app, ?messages_app, ?app_nil_r; try done; try (by left);
    try (split; [lia|done]); intros _; (split; [done|]); left; rewrite H4; done.
Qed.

Lemma calls_close s s' : m_state s' = Disconnected → m_options s' = m_options s → m_callbacks s' = m_callbacks s → now s' = now s →
  script s' = script s → inbox (m_kcp s') = inbox (m_kcp s) → trace s `prefix_of` trace s' → calls s s'.
Proof.
  intros Hd E1 E2 E3 E4 E5 E6. split; [split|done]; try done; [rewrite Hd; destruct (m_state s); cbn; lia|by rewrite E4].
Qed.

Lemma calls_closed s s' : calls s s' → m_state s = Disconnected → m_state s' = Disconnected.
Proof. intros [[_ _ _ Hr _ _ _] _] E. rewrite E in Hr. destruct (m_state s'); cbn in Hr; try lia. done. Qed.

Lemma handleClose_ok s : inv s → (length (script s) < n)%nat →
  wp (handleClose user) s (λ _ s', inv s' ∧ calls s s' ∧ m_state s' = Disconnected) nothrow.
Proof.
  intros Hi Hn. unfold handleClose. apply wp_get. unfold in_state. case_bool_decide as Hd; [apply wp_ret; by split_and!|].
  eapply wp_seq; [by apply cancelUpdateTimer_ok|]. intros _ s1 ->. unfold setState, callback. apply wp_modify_seq, wp_get.
  cbn [m_callbacks set_state set_timer]. pose proof (kcp_inv_close s Hi Hd) as Hc. cbv zeta in Hc.
  destruct (m_closeCallback (m_callbacks s)) eqn:Ec; [|apply wp_ret; split_and!; [done|apply calls_close; grown|done]].
  unfold record. apply wp_modify_seq. eapply wp_mono; [apply user_ok; done|..]; [|done].
  intros _ s' [H1 H2]. assert (Hs : calls s s') by (etrans; [|exact H2]; apply calls_close; grown).
  split_and!; [done|done|]. by apply (calls_closed _ _ H2).
Qed.

Lemma calls_script s s' : calls s s' → (length (script s) < n)%nat → (length (script s') < n)%nat.
Proof. intros [[] _] ?. lia. Qed.

(** Plain entries of the trace *)
Lemma record_ok l s : Forall plain l → inv s →
  wp (record l) s (λ _ s', inv s' ∧ calls s s' ∧ s' = set_trace (trace s ++ l) s) nothrow.
Proof. intros Hl Hi. apply wp_modify. split_and!; [by eapply (inv_same s _ l)|apply calls_same; grown|done]. Qed.

Lemma sendInLoop_ok data s : inv s → (length (script s) < n)%nat →
  wp (sendInLoop user data) s (λ _ s', inv s' ∧ calls s s') nothrow.
Proof.
  intros Hi Hn. unfold sendInLoop. apply wp_get. destruct (_ || _); [apply wp_ret; by split|].
  destruct (_ <? _); [by apply handleError_ok|].
  eapply wp_seq with (P := λ _ s', inv s' ∧ calls s s').
  { unfold on_kcp, wp. pose proof (send_inbox data (m_kcp s)) as Hs. destruct (ikcp_send data (m_kcp s)) as [r k]. cbn [snd] in Hs.
    split; [|apply calls_same; grown]. eapply (inv_same s _ []); try done. by rewrite app_nil_r. }
  intros r s1 [H1 C1]. pose proof (calls_script _ _ C1 Hn) as N1. destruct (r <? 0).
  { eapply wp_mono; [by apply handleError_ok|..]; [|done]. intros _ s2 [? ?]. split; [done|]. by etrans. }
  eapply wp_seq; [apply record_ok; [by repeat constructor|done]|]. intros _ s2 (H2 & C2 & _).
  eapply wp_seq; [by apply touchActive_ok|]. intros _ s3 (H3 & C3 & _). apply wp_get.
  eapply wp_seq; [by apply update_ok|]. intros _ s4 (H4 & C4 & _).
  eapply wp_seq; [by apply refreshStats_ok|]. intros _ s5 (H5 & C5 & _).
  eapply wp_mono; [by apply scheduleUpdate_ok|..]; [|done]. intros _ s6 (H6 & C6 & _). split; [done|].
  do 5 (etrans; [eassumption|]). done.
Qed.

Lemma shutdownInLoop_ok s : inv s → (length (script s) < n)%nat →
  wp (shutdownInLoop user) s (λ _ s', inv s' ∧ calls s s') nothrow.
Proof.
  intros Hi Hn. unfold shutdownInLoop. apply wp_get. unfold in_state. case_bool_decide as Hd; [apply wp_ret; by split|].
  assert (H1 : inv (set_state Disconnecting s)).
  { destruct Hi as [H1 H2 H3 H4 H5 H6 H7]. split; try done. intros _. by apply H4. }
  assert (C1 : calls s (set_state Disconnecting s)).
  { split; [split|]; try done. cbn. destruct (m_state s); cbn; try lia. done. }
  unfold setState. apply wp_modify_seq. destruct (_ =? 0); [|apply wp_ret; by split].
  eapply wp_mono; [by apply handleClose_ok|..]; [|done]. intros _ s' (? & ? & _). split; [done|]. by etrans.
Qed.

Lemma connectDestroyed_ok s : inv s → wp connectDestroyed s (λ _ s', inv s' ∧ calls s s') nothrow.
Proof.
  intros Hi. unfold connectDestroyed. apply wp_get. unfold in_state. case_bool_decide as Hd; [apply wp_ret; by split|].
  eapply wp_seq; [by apply cancelUpdateTimer_ok|]. intros _ s1 ->. unfold setState, record. apply wp_modify_seq, wp_modify.
  split; [|apply calls_close; grown]. destruct Hi as [H1 [H2 H2'] H3 H4 H5 H6 H7]. specialize (H4 Hd).
  split; cbn [set_trace set_state set_timer timers m_updateTimerId nextTimerId m_state trace m_callbacks m_options m_kcp];
    rewrite ?kcp_closes_app, ?received_app, ?arrived_app, ?messages_app, ?app_nil_r; try done; try (by left); try (split; [lia|done]).
  intros _. split; [done|]. right. rewrite H4. split; [done|]. apply elem_of_app. right. by left.
Qed.

Lemma run_op_ok o s : inv s → (length (script s) < n)%nat → wp (run_op user true o) s (λ _ s', inv s' ∧ calls s s') nothrow.
Proof.
  intros Hi Hn. destruct o as [data| | |]; cbn [run_op].
  - unfold send. case_bool_decide; [apply wp_ret; by split|]. by apply sendInLoop_ok.
  - by apply shutdownInLoop_ok.
  - eapply wp_mono; [by apply handleClose_ok|..]; [|done]. intros _ s' (? & ? & _). by split.
  - by apply connectDestroyed_ok.
Qed.

Lemma run_ops_ok os : ∀ s, inv s → (length (script s) < n)%nat → wp (run_ops user os) s (λ _ s', inv s' ∧ calls s s') nothrow.
Proof.
  induction os as [|o os IH]; intros s Hi Hn; cbn [run_ops]; [apply wp_ret; by split|].
  eapply wp_seq; [by apply run_op_ok|]. intros _ s1 [H1 C1]. pose proof (calls_script _ _ C1 Hn).
  eapply wp_mono; [by apply IH|..]; [|done]. intros _ s2 [? ?]. split; [done|]. by etrans.
Qed.

End handlers_ok.

Lemma kcp_react_ok n : ∀ e s, inv s → (length (script s) < n)%nat → wp (react n e) s (λ _ s', inv s' ∧ calls s s') nothrow.
Proof.
  induction n as [|n IH]; intros e s Hi Hn; [lia|]. cbn [react]. apply wp_get.
  destruct (script s) as [|os rest] eqn:Es; [apply wp_ret; by split|]. unfold put. eapply wp_run_seq; [done|]. cbn in Hn.
  eapply wp_mono; [eapply (run_ops_ok (react n) n IH os)|..]; [|cbn; lia| |done].
  - eapply (inv_same s _ []); try done. by rewrite app_nil_r.
  - intros _ s' [H1 C1]. split; [done|]. etrans; [|exact C1]. split; [split|]; try done. cbn. rewrite Es. cbn. lia.
Qed.

(** ** Receiving *)

Section receive_ok.
Context (user : Event → M (Session K) ()) (n : nat).
Hypothesis user_ok : ∀ e s, inv s → (length (script s) < n)%nat → wp (user e) s (λ _ s', inv s' ∧ calls s s') nothrow.

Lemma goes_script s s' : goes s s' → (length (script s) < n)%nat → (length (script s') < n)%nat.
Proof. intros [] ?. lia. Qed.

(** A message is taken out and handed to the callback. *)
Lemma inv_receive s k msg rest : inv s → inbox (m_kcp s) = msg :: rest → inbox k = rest →
  zlen msg ≤ swrap 32 (maxMessageBytes (m_options s)) →
  inv (set_trace (trace s ++ [Received msg] ++ (if m_messageCallback (m_callbacks s) then [Callback (OnMessage msg)] else []))
         (set_active (toTickMs (now s)) (set_kcp k s))).
Proof.
  intros [H1 H2 H3 H4 H5 H6 H7] Hb Hk Hm.
  split; cbn [set_trace set_active set_kcp timers m_updateTimerId nextTimerId m_state trace m_callbacks m_options m_kcp];
    destruct (m_messageCallback (m_callbacks s)) eqn:Ec; rewrite ?kcp_closes_app, ?received_app, ?arrived_app, ?messages_app, ?app_nil_r;
    try done; try (intros Hd; destruct (H3 Hd) as [? Hc]; split; [done|]; rewrite elem_of_app; unfold closes in *; cbn; rewrite Nat.add_0_r; naive_solver);
    try (intros Hd; specialize (H4 Hd); unfold closes in *; cbn; lia); try (by rewrite <-H5, Hb, Hk, <-app_assoc);
    try (by rewrite H6); try (apply Forall_app; split; [done|by repeat constructor]).
Qed.

Lemma drain_loop_ok fuel : ∀ s, inv s → (length (script s) < n)%nat → (length (inbox (m_kcp s)) < fuel)%nat →
  wp (drain_loop user fuel) s (λ r s', inv s' ∧ goes s s' ∧ (if r : bool then m_state s' = Disconnected else inbox (m_kcp s') = [])) nothrow.
Proof.
  induction fuel as [|fuel IH]; intros s Hi Hn Hf; [lia|]. cbn [drain_loop]. apply wp_get.
  destruct (inbox (m_kcp s)) as [|msg rest] eqn:Eb.
  { pose proof (peeksize_none _ Eb). destruct (Z.ltb_spec (ikcp_peeksize (m_kcp s)) 0); [|lia]. apply wp_ret. by split_and!. }
  destruct (peeksize_some _ _ _ Eb) as [Hp Hmax]. rewrite Hp. destruct (Z.ltb_spec (zlen msg) 0) as [?|_]; [unfold zlen in *; lia|].
  destruct (Z.ltb_spec (swrap 32 (maxMessageBytes (m_options s))) (zlen msg)) as [_|Hsz].
  { eapply wp_seq; [by apply (handleError_ok user n)|]. intros _ s1 [H1 C1]. pose proof (calls_script n _ _ C1 Hn) as N1.
    eapply wp_seq; [by apply (handleClose_ok user n)|]. intros _ s2 (H2 & C2 & D2). apply wp_ret. split_and!; [done| |done].
    transitivity s1; [apply C1|apply C2]. }
  destruct (recv_some _ _ _ (zlen msg) Eb ltac:(lia)) as (k & Hr & Hk).
  unfold on_kcp. eapply wp_run_seq; [cbv beta; rewrite Hr; reflexivity|]. cbv beta iota.
  destruct (Z.ltb_spec (zlen msg) 0) as [?|_]; [unfold zlen in *; lia|]. rewrite ztake_all by lia.
  pose proof (inv_receive s k msg rest Hi Eb Hk Hsz) as H1.
  unfold record at 1, touchActive. apply wp_modify_seq, wp_modify_seq.
  set (s1 := set_active _ _).
  assert (N1 : (length (script s1) < n)%nat) by done.
  eapply wp_seq with (P := λ _ s', inv s' ∧ goes s s' ∧ inbox (m_kcp s') = rest).
  { unfold callback. apply wp_get. cbn [s1 m_callbacks set_trace set_active set_kcp].
    destruct (m_messageCallback (m_callbacks s)) eqn:Ec.
    - unfold record. apply wp_modify_seq. eapply wp_mono; [eapply user_ok|..]; [|exact N1| |done].
      + cbn [s1 trace set_trace set_active set_kcp]. rewrite <-app_assoc. exact H1.
      + intros _ s2 [H2 [C2 E2]]. split_and!; [done| |by rewrite E2]. etrans; [|exact C2]. split; grown.
    - apply wp_ret. split_and!; [|split; grown|done]. by rewrite app_nil_r in H1. }
  intros _ s2 (H2 & C2 & E2). pose proof (goes_script _ _ C2 Hn) as N2. cbn in Hf.
  eapply wp_mono; [apply IH; [done|done|rewrite E2; lia]|..]; [|done].
  intros r s3 (H3 & C3 & D3). split_and!; [done|by transitivity s2|done].
Qed.

Lemma drainRecvQueue_ok s : inv s → (length (script s) < n)%nat →
  wp (drainRecvQueue user) s (λ _ s', inv s' ∧ goes s s' ∧ (m_state s' = Disconnected ∨ inbox (m_kcp s') = [])) nothrow.
Proof.
  intros Hi Hn. unfold drainRecvQueue. apply wp_get. eapply wp_seq; [apply drain_loop_ok; [done|done|lia]|].
  intros [] s1 (H1 & C1 & D1); [apply wp_ret; eauto|]. apply wp_get. destruct (_ && _); [|apply wp_ret; eauto].
  pose proof (goes_script _ _ C1 Hn) as N1. eapply wp_mono; [by apply (callback_plain user n)|..]; [|done].
  intros _ s2 [H2 [C2 E2]]. split_and!; [done|by transitivity s1|]. right. congruence.
Qed.

Lemma close_if_done_ok s : inv s → (length (script s) < n)%nat →
  wp (close_if_done user) s (λ _ s', inv s' ∧ calls s s' ∧
    (m_state s' = Disconnected ∨ s' = s ∧ (m_state s' = Disconnecting → ikcp_waitsnd (m_kcp s') ≠ 0))) nothrow.
Proof.
  intros Hi Hn. unfold close_if_done, in_state. apply wp_get. destruct (bool_decide _ && _) eqn:E.
  - eapply wp_mono; [by apply (handleClose_ok user n)|..]; [|done]. intros _ s' (? & ? & ?). eauto.
  - apply wp_ret. split_and!; [done|done|]. right. split; [done|]. intros Hd Hw. by rewrite bool_decide_true, Hw in E.
Qed.

(** What holds after a round of [updateInLoop]: everything received was handed over, a
    session that is shutting down still has something to send, and one that was idle for
    too long is closed. *)
Definition settled (s : Session K) : Prop :=
  m_state s = Disconnected ∨
  inbox (m_kcp s) = [] ∧ (m_state s = Disconnecting → ikcp_waitsnd (m_kcp s) ≠ 0) ∧
  (0 < idleTimeout (m_options s) → idleFor s < idleTimeout (m_options s)) ∧ timers s ≠ [].

Lemma updateInLoop_ok s : inv s → (length (script s) < n)%nat →
  wp (updateInLoop user) s (λ _ s', inv s' ∧ goes s s' ∧ settled s') nothrow.
Proof.
  intros Hi Hn. unfold updateInLoop, in_state. apply wp_get. case_bool_decide as Hd; [apply wp_ret; split_and!; [done|done|by left]|].
  eapply wp_seq; [by apply update_ok|]. intros _ s1 (H1 & [C1 _] & _).
  eapply wp_seq; [by apply refreshStats_ok|]. intros _ s2 (H2 & [C2 _] & _).
  assert (C02 : goes s s2) by (by transitivity s1). pose proof (goes_script _ _ C02 Hn) as N2.
  eapply wp_seq; [by apply drainRecvQueue_ok|]. intros _ s3 (H3 & C3 & D3).
  eapply wp_seq; [by apply scheduleUpdate_ok|]. intros _ s4 (H4 & [C4 E4] & S4 & K4 & T4).
  assert (C04 : goes s s4) by (transitivity s2; [done|]; by transitivity s3). pose proof (goes_script _ _ C04 Hn) as N4.
  apply wp_get. destruct (_ && _) eqn:Eidle.
  - eapply wp_seq; [by apply (handleError_ok user n)|]. intros _ s5 [H5 C5]. pose proof (calls_script n _ _ C5 N4) as N5.
    eapply wp_mono; [by apply (handleClose_ok user n)|..]; [|done]. intros _ s6 (H6 & [C6 _] & D6). split_and!; [done| |by left].
    transitivity s4; [done|]. transitivity s5; [apply C5|done].
  - eapply wp_mono; [by apply close_if_done_ok|..]; [|done]. intros _ s5 (H5 & [C5 _] & D5).
    split_and!; [done|by transitivity s4|]. destruct D5 as [D5|[-> D5]]; [by left|].
    destruct (decide (m_state s4 = Disconnected)) as [?|Hd4]; [by left|]. right. rewrite S4 in Hd4.
    destruct D3 as [?|D3]; [done|]. split_and!; [congruence|done|lia|]. by rewrite T4.
Qed.

Lemma inputPacketInLoop_ok packet s : inv s → (length (script s) < n)%nat →
  wp (inputPacketInLoop user packet) s (λ _ s', inv s' ∧ goes s s') nothrow.
Proof.
  intros Hi Hn. unfold inputPacketInLoop, in_state. apply wp_get. case_bool_decide as Hd; [apply wp_ret; by split|].
  destruct (input_inbox packet (m_kcp s)) as [new Hnew]. unfold on_kcp.
  destruct (ikcp_input packet (m_kcp s)) as [r k] eqn:Ek. cbn [snd] in Hnew.
  eapply wp_run_seq; [by rewrite Ek|]. apply wp_get. unfold record at 1. apply wp_modify_seq.
  cbn [m_kcp set_kcp trace]. rewrite Hnew, drop_app_length. set (s1 := set_trace _ _).
  assert (H1 : inv s1).
  { destruct Hi as [H1 H2 H3 H4 H5 H6 H7]. split; cbn [s1 set_trace set_kcp timers m_updateTimerId nextTimerId m_state trace m_callbacks m_options m_kcp];
      rewrite ?kcp_closes_app, ?received_app, ?arrived_app, ?messages_app, ?app_nil_r; try done.
    - intros Hd'. specialize (H4 Hd'). unfold closes in *. cbn. lia.
    - rewrite Hnew, app_assoc, H5. unfold arrived. cbn. by rewrite app_nil_r. }
  assert (C1 : goes s s1) by (split; grown). assert (N1 : (length (script s1) < n)%nat) by done. clearbody s1. destruct (r <? 0).
  { eapply wp_mono; [by apply (handleError_ok user n)|..]; [|done]. intros _ s2 [H2 [C2 _]]. split; [done|by transitivity s1]. }
  eapply wp_seq; [by apply touchActive_ok|]. intros _ s2 (H2 & [C2 _] & _).
  assert (C02 : goes s s2) by (by transitivity s1). pose proof (goes_script _ _ C02 Hn) as N2.
  eapply wp_seq; [by apply drainRecvQueue_ok|]. intros _ s3 (H3 & C3 & D3). apply wp_get.
  eapply wp_seq; [by apply update_ok|]. intros _ s4 (H4 & [C4 _] & _).
  eapply wp_seq; [by apply refreshStats_ok|]. intros _ s5 (H5 & [C5 _] & _).
  eapply wp_seq; [by apply scheduleUpdate_ok|]. intros _ s6 (H6 & [C6 _] & _).
  assert (C06 : goes s s6) by (do 4 (etrans; [eassumption|]); done). pose proof (goes_script _ _ C06 Hn) as N6.
  eapply wp_mono; [by apply close_if_done_ok|..]; [|done]. intros _ s7 (H7 & [C7 _] & _). split; [done|by transitivity s6].
Qed.

End receive_ok.

(** ** Runs *)

(** [connectDestroyed] asserts that it is called in the loop. *)
Definition action_ok (a : Action) : bool := match a with Remote OpConnectDestroyed => false | _ => true end.

Definition armed (s : Session K) : Prop := m_state s ≠ Disconnected → timers s ≠ [].

Lemma goes_disconnected s s' : goes s s' → m_state s = Disconnected → m_state s' = Disconnected.
Proof. intros [_ _ _ Hr _ _ _] E. rewrite E in Hr. destruct (m_state s'); cbn in Hr; try lia. done. Qed.

Lemma goes_keeps_armed s s' : goes s s' → armed s → armed s'.
Proof.
  intros Hg Ha Hd. apply (go_armed _ _ Hg); [|done]. apply Ha. intros E. by apply Hd, (goes_disconnected s).
Qed.

Lemma inv_world s s' : inv s → m_options s' = m_options s → m_kcp s' = m_kcp s → m_state s' = m_state s → m_updateTimerId s' = m_updateTimerId s →
  m_callbacks s' = m_callbacks s → timers s' = timers s → nextTimerId s' = nextTimerId s → trace s' = trace s → inv s'.
Proof. intros Hi ? E2 ? ? ? ? ? ?. eapply (inv_same s _ []); try done; [by rewrite E2|by rewrite app_nil_r]. Qed.

Definition same (s s' : Session K) : Prop :=
  m_callbacks s' = m_callbacks s ∧ m_options s' = m_options s ∧ trace s `prefix_of` trace s' ∧ (rank (m_state s) ≤ rank (m_state s'))%nat.

#[global] Instance same_preorder : PreOrder same.
Proof.
  split; [by intros s|]. intros s1 s2 s3 (? & ? & ? & ?) (? & ? & ? & ?). split_and!; [congruence|congruence|by etrans|lia].
Qed.

Lemma goes_same s s' : goes s s' → same s s'.
Proof. intros []. by split_and!. Qed.

Lemma kcp_act_ok a s : action_ok a = true → inv s → armed s →
  wp (act a) s (λ _ s', inv s' ∧ armed s' ∧ same s s' ∧ (a = Timer → settled s')) nothrow.
Proof.
  intros Ha Hi Har. unfold act. apply wp_get. set (n := S (length (script s))). pose proof (kcp_react_ok n) as Hu.
  assert (Hn : (length (script s) < n)%nat) by (unfold n; lia). destruct a as [here packet|o|o| | |ns]; try done; cbn [action_ok] in Ha.
  - unfold inputPacket. case_bool_decide; [apply wp_ret; by split_and!|]. destruct here; cbn [runInLoop].
    + eapply wp_mono; [by apply (inputPacketInLoop_ok _ n Hu)|..]; [|done]. intros _ s' [? ?]. split_and!; [done|by eapply goes_keeps_armed|by apply goes_same|done].
    + apply wp_modify. split_and!; [by eapply inv_world|done|done|done].
  - eapply wp_mono; [by apply (run_op_ok _ n Hu)|..]; [|done]. intros _ s' [? [? _]]. split_and!; [done|by eapply goes_keeps_armed|by apply goes_same|done].
  - destruct o; try done; cbn [run_op]; unfold send, shutdown, forceClose; try case_bool_decide; try (apply wp_ret; by split_and!);
      cbn [runInLoop]; apply wp_modify; split_and!; (by eapply inv_world) || done.
  - destruct (pending s) as [|tk ts]; [apply wp_ret; by split_and!|]. unfold put. eapply wp_run_seq; [done|].
    assert (H1 : inv (set_pending ts s)) by (by eapply inv_world). assert (A1 : armed (set_pending ts s)) by done.
    eapply wp_mono with (Q := λ _ s', inv s' ∧ goes (set_pending ts s) s'); [|intros _ s' [? ?]; split_and!; [done|by eapply goes_keeps_armed|by apply (goes_same (set_pending ts s))|done]|done].
    destruct tk as [data|packet| |]; cbn [run_task].
    + eapply wp_mono; [by apply (sendInLoop_ok _ n Hu)|..]; [|done]. intros _ s' [? [? _]]. by split.
    + by apply (inputPacketInLoop_ok _ n Hu).
    + eapply wp_mono; [by apply (shutdownInLoop_ok _ n Hu)|..]; [|done]. intros _ s' [? [? _]]. by split.
    + eapply wp_mono; [by apply (handleClose_ok _ n Hu)|..]; [|done]. intros _ s' (? & [? _] & _). by split.
  - destruct (timers s) as [|tm ts] eqn:Et.
    { apply wp_ret. split_and!; [done|done|done|]. intros _. left. destruct (decide (m_state s = Disconnected)) as [?|Hd]; [done|]. by specialize (Har Hd). }
    unfold put. eapply wp_run_seq; [done|]. set (s1 := set_timer _ _ _ _).
    assert (H1 : inv s1).
    { destruct Hi as [H1 [H2 H2'] H3 H4 H5 H6 H7]. assert (ts = []) as ->.
      { destruct H1 as [E|[due E]]; rewrite Et in E; [done|]. by injection E. }
      split; cbn [s1 set_timer timers m_updateTimerId nextTimerId m_state trace m_callbacks m_options m_kcp]; try done; [by left|].
      intros Hd. destruct (H3 Hd) as [_ ?]. by split. }
    eapply wp_mono; [by apply (updateInLoop_ok _ n Hu)|..]; [|done]. intros _ s' (? & G & Hs). split_and!; [done| |by apply goes_same in G|done].
    intros Hd. destruct Hs as [?|(_ & _ & _ & ?)]; done.
  - unfold put. apply (wp_run _ _ tt (set_now (now s + ns) s)); [done|]. split_and!; [by eapply inv_world|done|done|done].
Qed.

Lemma acts_ok l : ∀ s, forallb action_ok l = true → inv s → armed s →
  wp (acts l) s (λ _ s', inv s' ∧ armed s' ∧ same s s' ∧ (last l = Some Timer → settled s')) nothrow.
Proof.
  induction l as [|a l IH] using rev_ind; intros s Ha Hi Har; [apply wp_ret; by split_and!|].
  rewrite forallb_app in Ha. apply andb_true_iff in Ha as [Hl Ha]. cbn in Ha. rewrite andb_true_r in Ha.
  assert (E : ∀ l' s', acts (l' ++ [a]) s' = (acts l';;; act a) s').
  { intros l'. induction l' as [|b l' IHl]; intros s'; cbn [app acts].
    - unfold bind, ret. destruct (act a s') as [[[]| | |] s'']; done.
    - rewrite bind_assoc. apply bind_ext. intros. apply IHl. }
  unfold wp. rewrite E. fold (wp (acts l;;; act a) s (λ _ s', inv s' ∧ armed s' ∧ same s s' ∧ (last (l ++ [a]) = Some Timer → settled s')) nothrow).
  eapply wp_seq; [by apply IH|]. intros _ s1 (H1 & A1 & S1 & _). eapply wp_mono; [by apply kcp_act_ok|..]; [|done].
  intros _ s2 (? & ? & S2 & Ht). split_and!; [done|done|by transitivity s1|]. rewrite last_snoc. intros [= ->]. by apply Ht.
Qed.

Lemma inv_connected s : inv s → trace s = [] → inv (set_state Connected s).
Proof.
  intros [H1 H2 H3 H4 H5 H6 H7] Ht. split; try done. intros _. cbn [trace set_state]. by rewrite Ht.
Qed.

Lemma make_ok options cbs t sc s : KcpSession_make true true options cbs t sc = Ok s → inv s ∧ trace s = [] ∧ m_callbacks s = cbs ∧ m_options s = options.
Proof.
  unfold KcpSession_make. cbn [negb]. destruct (conv options =? 0); [done|]. destruct (ikcp_create _) as [k0|] eqn:Ek; [|done].
  apply create_inbox in Ek. assert (E1 : inbox (if negb (token options =? 0) then ikcp_settoken (token options) k0 else (0, k0)).2 = []).
  { destruct (negb _); [by rewrite settoken_inbox|done]. }
  destruct (if negb (token options =? 0) then _ else _) as [r1 k1]. cbn [snd] in E1. destruct (negb (r1 =? 0)); [done|].
  pose proof (setmtu_inbox (mtu options) k1) as E2. destruct (ikcp_setmtu (mtu options) k1) as [r2 k2]. cbn [snd] in E2.
  destruct (negb (r2 =? 0)); [done|]. intros [= <-]. split_and!; try done.
  split; cbn [timers m_updateTimerId nextTimerId m_state trace m_callbacks m_options m_kcp]; try done; [by left| |].
  - rewrite nodelay_inbox, wndsize_inbox. by rewrite E2, E1.
  - by destruct (m_messageCallback cbs).
Qed.

End facts.

(** An instance: every byte of a datagram is a message, and nothing waits after an update. *)
Record ToyKcp : Type := mkToy { toy_in : str; toy_out : list str }.

#[global] Instance toy_kcp : Kcp ToyKcp := {|
  ikcp_create _ := Some (mkToy [] []);
  ikcp_settoken _ k := (0, k);
  ikcp_setmtu m k := (if m <? 50 then -1 else 0, k);
  ikcp_wndsize _ _ k := k;
  ikcp_nodelay _ _ _ _ k := k;
  ikcp_send data k := (0, mkToy (toy_in k) (toy_out k ++ [data]));
  ikcp_input data k := (0, mkToy (toy_in k ++ data) (toy_out k));
  ikcp_update _ k := (toy_out k, mkToy (toy_in k) []);
  ikcp_check t _ := u32 (t + 20);
  ikcp_peeksize k := match toy_in k with [] => -1 | _ => 1 end;
  ikcp_recv len k := match toy_in k with [] => (-1, [], k) | b :: bs => (1, [b], mkToy bs (toy_out k)) end;
  ikcp_waitsnd k := Z.of_nat (length (toy_out k));
  ikcp_stats _ := (0, 0, 0, 0);
  inbox k := (λ b, [b]) <$> toy_in k;
|}.

#[global] Instance toy_kcp_laws : KcpLaws ToyKcp.
Proof.
  split; try done.
  - by intros conv k [= <-].
  - intros data k. exists ((λ b, [b]) <$> data). cbn. by rewrite fmap_app.
  - intros k Hk. cbn in *. by destruct (toy_in k).
  - intros k msg rest Hk. cbn in *. destruct (toy_in k) as [|b bs]; [done|]. injection Hk as <- <-. unfold zlen, INT_MAX. cbn. lia.
  - intros k msg rest len Hk _. cbn in *. destruct (toy_in k) as [|b bs]; [done|]. injection Hk as <- <-. by eexists.
Qed.

(** How long [scheduleUpdate] waits: what [ikcp_check] asks for, or not at all when the
    32-bit clock wraps in the meantime. *)
Lemma update_delay_exact now d : 0 ≤ now < 2 ^ 32 → 0 ≤ d < 2 ^ 32 →
  update_delay (u32 (now + d)) now = if now + d <? 2 ^ 32 then d else 0.
Proof.
  intros Hn Hd. unfold update_delay, u32, wrap. destruct (Z.ltb_spec (now + d) (2 ^ 32)).
  - rewrite (Z.mod_small (now + d)) by lia. destruct (Z.leb_spec (now + d) now); [lia|]. rewrite Z.mod_small; lia.
  - rewrite <-(Z_mod_plus_full (now + d) (-1)), Z.mod_small by lia. destruct (Z.leb_spec (now + d + -1 * 2 ^ 32) now); [done|lia].
Qed.

(** ** Properties *)

(** C23: a session through any run: datagrams that arrive in any state, calls of the user in and
    out of the loop and in callbacks, time-outs.  While it is not closed exactly one update
    timer is armed, so the protocol keeps being driven; closing disarms it and is reported at
    most once; every message the protocol completes is handed to the callback once, in order,
    and none exceeds the limit; after a round of [updateInLoop] ([settled]) nothing is left
    to hand over, a session shutting down has something unacknowledged, and one idle for too
    long is closed. *)
Theorem kcp_session_runs {K} `{KcpLaws K} options cbs t sc l s0 :
  KcpSession_make true true options cbs t sc = Ok s0 → forallb action_ok l = true →
  ∃ s, established l s0 = (Ok tt, s) ∧
    (m_state s ≠ Disconnected → closes (trace s) = 0%nat ∧ ∃ due, timers s = [(m_updateTimerId s, due)]) ∧
    (m_state s = Disconnected → timers s = [] ∧
      (closes (trace s) = (if m_closeCallback cbs then 1 else 0)%nat ∨ closes (trace s) = 0%nat ∧ Destroyed ∈ trace s)) ∧
    received (trace s) ++ inbox (m_kcp s) = arrived (trace s) ∧
    messages (trace s) = (if m_messageCallback cbs then received (trace s) else []) ∧
    Forall (λ m, zlen m ≤ swrap 32 (maxMessageBytes options)) (received (trace s)) ∧
    (last l = Some Timer → settled s).
Proof.
  intros (Hi & Htr & Ecb & Eop)%make_ok Hl. subst cbs options.
  assert (E : wp (established l) s0 (λ _ s, inv s ∧ armed s ∧ (m_callbacks s = m_callbacks s0 ∧ m_options s = m_options s0) ∧
    (last l = Some Timer → settled s)) nothrow).
  { unfold established, connectEstablished. apply wp_bind, wp_modify_seq, wp_get. set (s1 := set_state Connected s0).
    assert (H1 : inv s1) by (by apply inv_connected).
    eapply wp_mono; [by apply scheduleUpdate_ok|..]; [|done]. intros _ s2 (H2 & [C2 _] & S2 & _ & T2).
    assert (A2 : armed s2) by (intros Hd; rewrite S2 in Hd; by rewrite (T2 Hd)).
    eapply wp_mono; [by apply acts_ok|..]; [|done]. intros _ s3 (? & ? & S3 & ?). apply goes_same in C2.
    destruct (transitivity C2 S3) as (? & ? & _). by split_and!. }
  apply wp_inv in E as ([] & s & Es & [H1 H2 H3 H4 H5 H6 H7] & Ha & (Ec & Eo) & Ht). exists s. rewrite <-Ec, <-Eo.
  split_and!; try done. intros Hd. split; [by apply H4|]. destruct H1 as [?|?]; [by specialize (Ha Hd)|done].
Qed.

Definition ex_options : Options := mkOptions 7 9 1400 128 128 1 20 2 1 1000 (16 * 1024 * 1024).
Definition ex_callbacks : Callbacks := mkCallbacks true true true true.
Definition ex_make (options : Options) (sc : list (list Op)) : Session ToyKcp :=
  match KcpSession_make true true options ex_callbacks 5000000 sc with
  | Ok s => s
  | _ => mkSession options (mkToy [] []) Disconnected 0 ex_callbacks 0 (0, 0, 0, 0) 0 [] 1 [] [] []
  end.
(** Two datagrams, an answer sent from a callback, and a shutdown from another thread *)
Definition ex_acts : list Action :=
  [Input true (lit "ab"); Input false (lit "c"); Remote OpShutdown; Timer; RunTask; RunTask; Pass 20000000; Timer].

Lemma kcp_session_runs_witness : ∃ s, established ex_acts (ex_make ex_options [[OpSend (lit "yes")]]) = (Ok tt, s) ∧
  messages (trace s) = [lit "a"; lit "b"; lit "c"] ∧ closes (trace s) = 1%nat ∧ settled s.
Proof.
  destruct (kcp_session_runs ex_options ex_callbacks 5000000 [[OpSend (lit "yes")]] ex_acts
    (ex_make ex_options [[OpSend (lit "yes")]])) as (s & Es & _ & _ & _ & _ & _ & Hs); [vm_compute; reflexivity|reflexivity|].
  exists s. split; [exact Es|]. specialize (Hs eq_refl).
  assert (E : s = (established ex_acts (ex_make ex_options [[OpSend (lit "yes")]])).2) by (by rewrite Es).
  split; [subst s; vm_compute; reflexivity|]. split; [subst s; vm_compute; reflexivity|exact Hs].
Defined.

(** [drainRecvQueue] does not look at the state: a callback closes the session, and the
    messages that are left are handed to it after the close callback. *)
Theorem message_after_close : trace (established [Input true (lit "ab")] (ex_make ex_options [[OpForceClose]])).2 =
  [Arrived [lit "a"; lit "b"]; Received (lit "a"); Callback (OnMessage (lit "a")); Callback OnClose;
   Received (lit "b"); Callback (OnMessage (lit "b")); Callback OnWriteComplete].
Proof. vm_compute. reflexivity. Qed.

(** A limit above [INT_MAX] becomes negative: every message closes the session. *)
Theorem large_limit_closes :
  let options := mkOptions 7 9 1400 128 128 1 20 2 1 0 (2 ^ 31) in
  trace (established [Input true (lit "a")] (ex_make options [])).2 =
  [Arrived [lit "a"]; Callback (OnError (mkError InvalidState (lit "KcpSession message too large"))); Callback OnClose].
Proof. vm_compute. reflexivity. Qed.
