(* ===== verification/KcpServer.v ===== *)
(** * [dbase::net::KcpServer] and [KcpPacket] (code/src/net/kcp_server.cpp, kcp_server.h, kcp_packet.cpp)

    A UDP socket in the base loop whose datagrams are routed to sessions by conversation,
    token and peer.  The state of a run holds the server, the sessions made so far (numbered),
    the queue of functors of every loop (loop 0 is the base loop), what the socket is going to
    return, and history: [sent], what the server and other threads have given to the loop of a
    session, and [closed], the sessions erased and whether the user's close callback was called.  A label is what happens
    next, so the lists of labels are the interleavings of the loops.  The close callback of a
    session is its last call of the server; its body runs after the handler that closed.

    What the server relies on in a session is the class [ServedSession], with its laws; they
    are discharged by [KcpSession] at the end.  The connection callback makes the calls
    [m_connectionCallback] on the new session. *)

From S2P Require Import Prelude Error Endian Acceptor KcpSession.
From stdpp Require Import base gmap list strings.
From Stdlib Require Import ZArith Lia.

Local Open Scope Z_scope.

(** ** [KcpPacket] *)

Record KcpPacketHeader : Type := mkHeader { h_conv : Z; h_token : Z }.

Definition kHeaderSize : Z := 8.

Definition decode32uLE (data : str) : res Z :=
  match data with
  | d0 :: d1 :: d2 :: d3 :: _ =>
      Ok (Z.lor (Z.lor (Z.lor (Z_of_byte d0) (Z.shiftl (Z_of_byte d1) 8)) (Z.shiftl (Z_of_byte d2) 16)) (Z.shiftl (Z_of_byte d3) 24))
  | _ => Undef
  end.

Definition tryParseHeader (packet : str) : res (option KcpPacketHeader) :=
  if zlen packet <? kHeaderSize then Ok None
  else
    let? c := decode32uLE packet in
    let? t := decode32uLE (zdrop 4 packet) in
    Ok (Some (mkHeader c t)).

(** ** What the server uses of a session *)

Class ServedSession (T Act : Type) : Type := {
  ks_make : Options → Callbacks → res T;
  ks_establish : M T ();
  ks_input : str → M T ();
  ks_act : Act → M T ();            (* anything else that happens in its loop *)
  ks_closes : T → nat;              (* calls of its close callback *)
}.

Class ServedSessionLaws (T Act : Type) `{ServedSession T Act} : Type := {
  ks_new : T → Prop;
  ks_ok : T → Prop;
  ks_make_total o cbs : match ks_make o cbs with Ok _ | Throw _ => True | _ => False end;
  ks_make_new o cbs t : m_closeCallback cbs = true → ks_make o cbs = Ok t → ks_new t;
  ks_new_closes t : ks_new t → ks_closes t = 0%nat;
  ks_establish_ok t : ks_new t → wp ks_establish t (λ _ t', ks_ok t' ∧ ks_closes t' = 0%nat) nothrow;
  ks_input_ok p t : ks_ok t → wp (ks_input p) t (λ _ t', ks_ok t' ∧ (ks_closes t ≤ ks_closes t' ≤ 1)%nat) nothrow;
  ks_act_ok a t : ks_ok t → wp (ks_act a) t (λ _ t', ks_ok t' ∧ (ks_closes t ≤ ks_closes t' ≤ 1)%nat) nothrow;
}.

(** ** The server *)

Record SessionOptions : Type := mkSessionOptions {
  so_mtu : Z; so_sndWnd : Z; so_rcvWnd : Z; so_nodelay : Z; so_interval : Z; so_resend : Z; so_nc : Z;
  so_idleTimeout : Z; so_maxMessageBytes : Z;
}.

Record SessionKey : Type := mkKey { k_conv : Z; k_token : Z; k_peer : str }.

#[global] Instance SessionKey_eq_dec : EqDecision SessionKey.
Proof. solve_decision. Defined.
#[global] Instance SessionKey_countable : Countable SessionKey.
Proof.
  refine (inj_countable' (λ k, (k_conv k, k_token k, k_peer k)) (λ x, mkKey x.1.1 x.1.2 x.2) _). by intros [].
Defined.

Definition kUdpReadBufferSize : Z := 64 * 1024.

(** [receiveFrom]: a datagram, or an error other than that there is none *)
Inductive Answer : Type := Datagram (peer bytes : str) | RecvError.

Section server.
Context {T Act : Type} `{ServedSession T Act}.
Context (hash_str : str → Z) (hash_u32 : Z → Z).

Inductive Job : Type := JEstablish | JInput (packet : str) | JAct (a : Act).

Inductive Functor : Type :=
  | FInit
  | FJob (i : nat) (j : Job)
  | FErase (i : nat).       (* the functor of [handleSessionClose] *)

Record KcpServer : Type := mkServer {
  m_channel : bool;         (* enabled for reading *)
  m_threadPool : option EventLoopThreadPool;
  m_started : bool;
  m_edgeTriggered : bool;
  m_threadCount : Z;
  m_sessionOptions : SessionOptions;
  m_threadInitCallback : bool;
  m_connectionCallback : list Act;
  m_callbacks : Callbacks;  (* the message, write-complete, close and error callbacks *)
  m_sessions : gmap SessionKey (nat * nat);
}.

Record Entry : Type := mkEntry {
  e_session : T;
  e_key : SessionKey;
  e_loop : nat;
  e_log : list (nat * Job);  (* what has run on it and in which loop *)
}.

Record Sys : Type := mkSys {
  server : KcpServer;
  sessions : list Entry;
  queues : list (list Functor);
  socket : list Answer;
  sent : list (nat * Job);
  closed : list (nat * bool);
}.

Definition set_sessions x v := mkServer (m_channel v) (m_threadPool v) (m_started v) (m_edgeTriggered v) (m_threadCount v)
  (m_sessionOptions v) (m_threadInitCallback v) (m_connectionCallback v) (m_callbacks v) x.
Definition set_running p v := mkServer true p true (m_edgeTriggered v) (m_threadCount v) (m_sessionOptions v)
  (m_threadInitCallback v) (m_connectionCallback v) (m_callbacks v) (m_sessions v).
Definition set_threads n init v := mkServer (m_channel v) (m_threadPool v) (m_started v) (m_edgeTriggered v) n
  (m_sessionOptions v) init (m_connectionCallback v) (m_callbacks v) (m_sessions v).
Definition set_setup edge o cb cbs v := mkServer (m_channel v) (m_threadPool v) (m_started v) edge (m_threadCount v)
  o (m_threadInitCallback v) cb cbs (m_sessions v).

Definition with_server (f : KcpServer → KcpServer) (s : Sys) : Sys :=
  mkSys (f (server s)) (sessions s) (queues s) (socket s) (sent s) (closed s).
Definition with_queues q (s : Sys) : Sys := mkSys (server s) (sessions s) q (socket s) (sent s) (closed s).
Definition with_entries es (s : Sys) : Sys := mkSys (server s) es (queues s) (socket s) (sent s) (closed s).
Definition with_socket a (s : Sys) : Sys := mkSys (server s) (sessions s) (queues s) a (sent s) (closed s).
Definition with_history x c (s : Sys) : Sys := mkSys (server s) (sessions s) (queues s) (socket s) x c.

Definition queueInLoop (l : nat) (f : Functor) : M Sys () :=
  let! s := get in
  match queues s !! l with
  | None => undef
  | Some q => put (with_queues (<[l := q ++ [f]]> (queues s)) s)
  end.

(** [handleSessionClose], the functor: the entry of the session, if any, is erased. *)
Definition erase_session (i : nat) (m : gmap SessionKey (nat * nat)) : gmap SessionKey (nat * nat) :=
  match list_find (λ kv, kv.2.1 = i) (map_to_list m) with
  | Some (_, (k, _)) => delete k m
  | None => m
  end.

Definition eraseInLoop (i : nat) : M Sys () :=
  modify (with_server (λ v, set_sessions (erase_session i (m_sessions v)) v));;;
  modify (λ s, with_history (sent s) (closed s ++ [(i, m_closeCallback (m_callbacks (server s)))]) s).

(** From the loop of the session *)
Definition handleSessionClose (l i : nat) : M Sys () :=
  if bool_decide (l = 0%nat) then eraseInLoop i else queueInLoop 0 (FErase i).

Fixpoint times (n : nat) (m : M Sys ()) : M Sys () :=
  match n with O => ret tt | S n => m;;; times n m end.

(** [m] runs on session [i]; each call of its close callback is a call of [handleSessionClose]. *)
Definition on_session (i : nat) (log : list (nat * Job)) (m : M T ()) : M Sys () :=
  let! s := get in
  match sessions s !! i with
  | None => undef
  | Some e =>
      let '(r, t) := m (e_session e) in
      put (with_entries (<[i := mkEntry t (e_key e) (e_loop e) (e_log e ++ log)]> (sessions s)) s);;;
      times (ks_closes t - ks_closes (e_session e)) (handleSessionClose (e_loop e) i);;;
      lift r
  end.

Definition run_job (j : Job) : M T () :=
  match j with JEstablish => ks_establish | JInput p => ks_input p | JAct a => ks_act a end.

Definition run_functor (l : nat) (f : Functor) : M Sys () :=
  match f with
  | FInit => ret tt
  | FJob i j => on_session i [(l, j)] (run_job j)
  | FErase i => eraseInLoop i
  end.

(** From the thread of the base loop *)
Definition runInLoop (l : nat) (f : Functor) : M Sys () :=
  if bool_decide (l = 0%nat) then run_functor 0 f else queueInLoop l f.

Definition note (i : nat) (j : Job) : M Sys () := modify (λ s, with_history (sent s ++ [(i, j)]) (closed s) s).
Definition give (l i : nat) (j : Job) : M Sys () := note i j;;; runInLoop l (FJob i j).

Fixpoint give_all (l i : nat) (js : list Job) : M Sys () :=
  match js with [] => ret tt | j :: js => give l i j;;; give_all l i js end.

Definition makeSessionKey (conv token : Z) (peer : str) : SessionKey := mkKey conv token peer.

Definition buildSessionOptions (conv token : Z) (o : SessionOptions) : Options :=
  mkOptions conv token (so_mtu o) (so_sndWnd o) (so_rcvWnd o) (so_nodelay o) (so_interval o) (so_resend o) (so_nc o)
    (so_idleTimeout o) (so_maxMessageBytes o).

Definition findSession (key : SessionKey) (v : KcpServer) : option (nat * nat) := m_sessions v !! key.

Definition createSession (conv token : Z) (peer : str) : M Sys () :=
  let! s := get in
  let v := server s in
  let! ioLoop := lift (match m_threadPool v with
                       | None => Ok 0%nat
                       | Some p => getLoopForHash (Z.lxor (Z.lxor (hash_str peer) (hash_u32 conv)) (hash_u32 token)) p
                       end) in
  let options := buildSessionOptions conv token (m_sessionOptions v) in
  let cbs := m_callbacks v in
  let! session := lift (ks_make options (mkCallbacks (m_messageCallback cbs) (m_writeCompleteCallback cbs) true (m_errorCallback cbs))) in
  let i := length (sessions s) in
  let key := makeSessionKey conv token peer in
  modify (λ s, with_entries (sessions s ++ [mkEntry session key ioLoop []]) s);;;
  modify (with_server (λ v, match m_sessions v !! key with
                            | Some _ => v
                            | None => set_sessions (<[key := (i, ioLoop)]> (m_sessions v)) v
                            end));;;
  give ioLoop i JEstablish;;;
  give_all ioLoop i (JAct <$> m_connectionCallback v).

(** The body of the loop of [handleRead] *)
Definition handle_datagram (peer packet : str) : M Sys () :=
  let! parsed := lift (tryParseHeader packet) in
  match parsed with
  | None => ret tt
  | Some header =>
      let key := makeSessionKey (h_conv header) (h_token header) peer in
      let! s := get in
      (match findSession key (server s) with
       | None => createSession (h_conv header) (h_token header) peer
       | Some _ => ret tt
       end);;;
      let! s := get in
      match findSession key (server s) with
      | None => ret tt
      | Some (i, ioLoop) => give ioLoop i (JInput packet)
      end
  end.

Fixpoint handleRead_loop (answers : list Answer) : M Sys () :=
  match answers with
  | [] => ret tt
  | RecvError :: answers => modify (with_socket answers);;; throw runtime_error
  | Datagram peer bytes :: answers =>
      modify (with_socket answers);;;
      handle_datagram peer (ztake kUdpReadBufferSize bytes);;;
      handleRead_loop answers
  end.

Definition handleRead : M Sys () :=
  let! s := get in handleRead_loop (socket s).

Fixpoint queue_each (ls : list nat) (f : Functor) : M Sys () :=
  match ls with [] => ret tt | l :: ls => queueInLoop l f;;; queue_each ls f end.

Definition start : M Sys () :=
  let! s := get in
  if m_started (server s) then ret tt
  else
    let '(r, p) := pool_start (EventLoopThreadPool_make (m_threadCount (server s))) in
    lift r;;;
    modify (λ s, with_queues (match queues s with q :: _ => [q] | [] => [[]] end ++ replicate (length (m_loops p)) []) s);;;
    (if m_threadInitCallback (server s) then queue_each (m_loops p) FInit else ret tt);;;
    modify (with_server (set_running (Some p))).

Definition setThreadCount (n : Z) : M Sys () :=
  let! s := get in
  if m_started (server s) then throw logic_error
  else modify (with_server (λ v, set_threads n (m_threadInitCallback v) v)).
Definition setThreadInitCallback (cb : bool) : M Sys () :=
  let! s := get in
  if m_started (server s) then throw logic_error
  else modify (with_server (λ v, set_threads (m_threadCount v) cb v)).
(** The setters that only store *)
Definition setup (edge : bool) (o : SessionOptions) (connection : list Act) (cbs : Callbacks) : M Sys () :=
  modify (with_server (set_setup edge o connection cbs)).

Definition connectionCount (v : KcpServer) : Z := Z.of_nat (size (m_sessions v)).

(** ** Runs *)

Inductive Label : Type :=
  | LSetThreadCount (n : Z)
  | LSetThreadInitCallback (cb : bool)
  | LSetup (edge : bool) (o : SessionOptions) (connection : list Act) (cbs : Callbacks)
  | LStart
  | LArrive (a : Answer)
  | LRead                             (* the poller reports the socket *)
  | LRun (l : nat)                    (* loop [l] runs its next functor *)
  | LPost (i : nat) (a : Act)         (* a call of session [i] in another thread *)
  | LAct (i : nat) (a : Act).         (* something happens to session [i] in its loop *)

Definition run_label (x : Label) : M Sys () :=
  let! s := get in
  match x with
  | LSetThreadCount n => setThreadCount n
  | LSetThreadInitCallback cb => setThreadInitCallback cb
  | LSetup edge o connection cbs => setup edge o connection cbs
  | LStart => start
  | LArrive a => put (with_socket (socket s ++ [a]) s)
  | LRead => if m_channel (server s) then handleRead else ret tt
  | LRun l =>
      match queues s !! l with
      | Some (f :: q) => put (with_queues (<[l := q]> (queues s)) s);;; run_functor l f
      | _ => ret tt
      end
  | LPost i a =>
      match sessions s !! i with
      | Some e => note i (JAct a);;; queueInLoop (e_loop e) (FJob i (JAct a))
      | None => ret tt
      end
  | LAct i a =>                       (* once it is established *)
      match sessions s !! i with
      | Some e => if bool_decide (e_log e = []) then ret tt else on_session i [] (ks_act a)
      | None => ret tt
      end
  end.

(** Whoever runs the loop may catch an exception and go on. *)
Definition catching (m : M Sys ()) : M Sys () :=
  λ s, match m s with (Throw _, s') => (Ok tt, s') | out => out end.

Fixpoint run_labels (xs : list Label) : M Sys () :=
  match xs with
  | [] => ret tt
  | x :: xs => catching (run_label x);;; run_labels xs
  end.

Definition SessionOptions_default : SessionOptions := mkSessionOptions 1400 128 128 1 20 2 1 0 (16 * 1024 * 1024).

Definition KcpServer_make : KcpServer :=
  mkServer false None false false 0 SessionOptions_default false [] (mkCallbacks false false false false) ∅.
Definition launch : Sys := mkSys KcpServer_make [] [[]] [] [] [].

End server.

Arguments Job _ : clear implicits.
Arguments Functor _ : clear implicits.
Arguments KcpServer _ : clear implicits.
Arguments Entry _ _ : clear implicits.
Arguments Sys _ _ : clear implicits.
Arguments Label _ : clear implicits.

(** ** The invariant *)

Section facts.
Context {T Act : Type} {Ops : ServedSession T Act} {Laws : ServedSessionLaws T Act}.
Context (hash_str : str → Z) (hash_u32 : Z → Z).
Implicit Types (s : Sys T Act) (e : Entry T Act) (x : nat → list (nat * Job Act)).

(** The jobs for session [i] in a queue and in the history *)
Definition jobs (i : nat) (q : list (Functor Act)) : list (Job Act) :=
  omap (λ f, match f with FJob i' j => if decide (i' = i) then Some j else None | _ => None end) q.
Definition jobs_of (i : nat) (l : list (nat * Job Act)) : list (Job Act) :=
  omap (λ y, if decide (y.1 = i) then Some y.2 else None) l.
Definition input_of (j : Job Act) : option str := match j with JInput p => Some p | _ => None end.
Definition inputs (l : list (Job Act)) : list str := omap input_of l.
Definition is_erase (i : nat) (f : Functor Act) : nat :=
  match f with FErase i' => if decide (i' = i) then 1 else 0 | _ => 0 end%nat.
Definition erases (i : nat) s : nat := tally (tally (is_erase i)) (queues s).
Definition erased (i : nat) s : nat := tally (λ y : nat * bool, if decide (y.1 = i) then 1 else 0)%nat (closed s).
Definition queue (l : nat) s : list (Functor Act) := default [] (queues s !! l).

Definition registered s (i : nat) e : Prop := m_sessions (server s) !! e_key e = Some (i, e_loop e).

(** The life of a session *)
Inductive life s (i : nat) e : Prop :=
  | life_open : ks_closes (e_session e) = 0%nat → registered s i e → erases i s = 0%nat → erased i s = 0%nat → life s i e
  | life_closing : ks_closes (e_session e) = 1%nat → registered s i e → erases i s = 1%nat → erased i s = 0%nat → life s i e
  | life_gone : ks_closes (e_session e) = 1%nat → ¬ registered s i e → erases i s = 0%nat → erased i s = 1%nat → life s i e.

(** A packet of the session's conversation *)
Definition for_key (k : SessionKey) (j : Job Act) : Prop :=
  match j with JInput p => tryParseHeader p = Ok (Some (mkHeader (k_conv k) (k_token k))) | _ => True end.

Definition not_est (j : Job Act) : Prop := match j with JEstablish => False | _ => True end.
Definition is_act (j : Job Act) : Prop := match j with JAct _ => True | _ => False end.

(** [x] is about to be run on the session. *)
Record entry_ok s (x : list (nat * Job Act)) (i : nat) e : Prop := {
  eo_session : if decide (e_log e = []) then ks_new (e_session e) else ks_ok (e_session e);
  eo_life : life s i e;
  eo_bound : (e_loop e < length (queues s))%nat;
  eo_log : Forall (λ y, y.1 = e_loop e) (e_log e ++ x);
  eo_first : ∃ rest, jobs_of i (sent s) = JEstablish :: rest ∧ Forall not_est rest;
  eo_keys : Forall (for_key (e_key e)) (jobs_of i (sent s));
  eo_jobs : e_loop e ≠ 0%nat → (e_log e ++ x).*2 ++ jobs i (queue (e_loop e) s) = jobs_of i (sent s);
  eo_zero : e_loop e = 0%nat →
    inputs (e_log e ++ x).*2 = inputs (jobs_of i (sent s)) ∧ Forall is_act (jobs i (queue 0 s)) ∧
    ∃ rest, (e_log e ++ x).*2 = JEstablish :: rest ∧ Forall not_est rest;
}.

Definition placed s (l : nat) (f : Functor Act) : Prop :=
  match f with
  | FInit => True
  | FJob i _ => ∃ e, sessions s !! i = Some e ∧ e_loop e = l
  | FErase i => l = 0%nat ∧ is_Some (sessions s !! i)
  end.

Record sinv s x : Prop := {
  si_entries : ∀ i e, sessions s !! i = Some e → entry_ok s (x i) i e;
  si_reg : ∀ k i l, m_sessions (server s) !! k = Some (i, l) → ∃ e, sessions s !! i = Some e ∧ e_key e = k ∧ e_loop e = l;
  si_queue : ∀ l q f, queues s !! l = Some q → f ∈ q → placed s l f;
  si_sent : ∀ y, y ∈ sent s → (y.1 < length (sessions s))%nat;
  si_closed : ∀ y, y ∈ closed s → (y.1 < length (sessions s))%nat;
  si_pool : match m_threadPool (server s) with
            | None => sessions s = [] ∧ queues s = [[]] ∧ m_channel (server s) = false ∧ m_started (server s) = false ∧
                      0 ≤ m_threadCount (server s) < 2 ^ 63
            | Some p => ∃ n, pool_at n 0 p ∧ length (queues s) = S n ∧ m_started (server s) = true
            end;
}.

Definition none : nat → list (nat * Job Act) := λ _, [].
Definition only (i : nat) (y : list (nat * Job Act)) : nat → list (nat * Job Act) := λ i', if decide (i' = i) then y else [].

Lemma jobs_app i q q' : jobs i (q ++ q') = jobs i q ++ jobs i q'.
Proof. apply omap_app. Qed.
Lemma jobs_of_app i l l' : jobs_of i (l ++ l') = jobs_of i l ++ jobs_of i l'.
Proof. apply omap_app. Qed.
Lemma inputs_app l l' : inputs (l ++ l') = inputs l ++ inputs l'.
Proof. apply omap_app. Qed.

(** What [entry_ok] looks at *)
Lemma entry_ok_same s s' y i e : entry_ok s y i e → sent s' = sent s →
  (registered s' i e ↔ registered s i e) → erases i s' = erases i s → erased i s' = erased i s →
  (length (queues s) ≤ length (queues s'))%nat → jobs i (queue (e_loop e) s') = jobs i (queue (e_loop e) s) → entry_ok s' y i e.
Proof.
  intros [H1 H2 H3 H4 H5 H6 H7 H8] Es Er Ee Ec Eq Ej. split; try done; rewrite ?Es; try done; try lia.
  - destruct H2; [apply life_open|apply life_closing|apply life_gone]; rewrite ?Er, ?Ee, ?Ec; done.
  - intros Hl. rewrite Ej. auto.
  - intros Hl. specialize (H8 Hl). rewrite Hl in Ej. by rewrite Ej.
Qed.

(** The entry in the registry of a session *)
Lemma erase_session_eq s x i e : sinv s x → sessions s !! i = Some e → registered s i e →
  erase_session i (m_sessions (server s)) = delete (e_key e) (m_sessions (server s)).
Proof.
  intros Hi He Hr. unfold erase_session. destruct (list_find _ _) as [[n [k v]]|] eqn:Ef.
  - apply list_find_Some in Ef as (Hn & Hv & _). apply list_elem_of_lookup_2, elem_of_map_to_list in Hn. cbn in Hv.
    destruct v as [i' l]. cbn in Hv. subst i'. destruct (si_reg _ _ Hi _ _ _ Hn) as (e' & He' & <- & _). congruence.
  - apply list_find_None in Ef. rewrite Forall_forall in Ef.
    exfalso. apply (Ef (e_key e, (i, e_loop e))); [by apply elem_of_map_to_list|done].
Qed.

Lemma placed_insert s s' l f i e e' : sessions s !! i = Some e → e_loop e' = e_loop e → sessions s' = <[i := e']> (sessions s) →
  placed s l f → placed s' l f.
Proof.
  intros He El Es. pose proof (lookup_lt_Some _ _ _ He) as Hlt. destruct f as [|j jb|j]; cbn [placed]; [done| |]; rewrite Es.
  - intros (e0 & He0 & Hl). destruct (decide (j = i)) as [->|?]; [|rewrite list_lookup_insert_ne by done; eauto].
    rewrite list_lookup_insert_eq by done. simplify_eq. eauto.
  - intros [-> Hj]. split; [done|]. destruct (decide (j = i)) as [->|?]; [rewrite list_lookup_insert_eq by done; eauto|].
    by rewrite list_lookup_insert_ne.
Qed.

(** One entry is replaced. *)
Lemma sinv_entry s s' x i e e' : sinv s x → sessions s !! i = Some e → e_key e' = e_key e → e_loop e' = e_loop e →
  sessions s' = <[i := e']> (sessions s) → sent s' = sent s → length (queues s') = length (queues s) →
  (∀ l q f, queues s' !! l = Some q → f ∈ q → placed s l f) →
  (∀ k v, m_sessions (server s') !! k = Some v → m_sessions (server s) !! k = Some v) →
  (∀ y, y ∈ closed s' → y ∈ closed s ∨ y.1 = i) →
  m_threadPool (server s') = m_threadPool (server s) → m_started (server s') = m_started (server s) →
  (∀ j e0, j ≠ i → sessions s !! j = Some e0 → entry_ok s' [] j e0) → entry_ok s' [] i e' → sinv s' none.
Proof.
  intros [H1 H2 H3 H4 H5 H6] He Ek El Es Esent Eq Hq Hm Hc Ep Est Hj Hi. pose proof (lookup_lt_Some _ _ _ He) as Hlt. split.
  - intros j e0. rewrite Es. intros [(-> & <- & _)|[Hn He0]]%list_lookup_insert_Some; [done|]. by apply Hj.
  - intros k j l [e0 (He0 & Hk & Hl)]%Hm%H2. rewrite Es. destruct (decide (j = i)) as [->|?].
    + exists e'. rewrite list_lookup_insert_eq by done. simplify_eq. by rewrite Ek, El.
    + exists e0. by rewrite list_lookup_insert_ne.
  - intros l q f Hl Hf. eapply placed_insert; eauto.
  - intros y. rewrite Esent, Es, length_insert. apply H4.
  - intros y. rewrite Es, length_insert. intros [?| ->]%Hc; auto.
  - rewrite Ep, Est. destruct (m_threadPool (server s)); [by rewrite Eq|]. destruct H6 as (H6 & _). by rewrite H6 in He.
Qed.

Lemma only_eq i y : only i y i = y.
Proof. unfold only. by rewrite decide_True. Qed.
Lemma only_ne i j y : j ≠ i → only i y j = [].
Proof. intros. unfold only. by rewrite decide_False. Qed.

(** The entry of the session that has run [log] *)
Lemma entry_ok_ran s s' i e t log : entry_ok s log i e → e_log e ++ log ≠ [] → ks_ok t →
  sent s' = sent s → length (queues s') = length (queues s) → jobs i (queue (e_loop e) s') = jobs i (queue (e_loop e) s) →
  life s' i (mkEntry t (e_key e) (e_loop e) (e_log e ++ log)) → entry_ok s' [] i (mkEntry t (e_key e) (e_loop e) (e_log e ++ log)).
Proof.
  intros [H1 H2 H3 H4 H5 H6 H7 H8] Hne Hok Es Eq Ej Hl. split; cbn [e_session e_key e_loop e_log]; rewrite ?app_nil_r, ?Es; try done.
  - by rewrite decide_False.
  - by rewrite Eq.
  - intros Hl0. rewrite Ej. auto.
  - intros Hl0. specialize (H8 Hl0). rewrite Hl0 in Ej. by rewrite Ej.
Qed.

(** A functor is appended to a queue. *)
Definition push (l : nat) (f : Functor Act) (qs : list (list (Functor Act))) : list (list (Functor Act)) :=
  alter (λ q, q ++ [f]) l qs.

Lemma kcps_queueInLoop_run l f s : (l < length (queues s))%nat →
  queueInLoop l f s = (Ok tt, with_queues (push l f (queues s)) s).
Proof.
  intros Hl. unfold queueInLoop. run. destruct (lookup_lt_is_Some_2 _ _ Hl) as [q Hq]. rewrite Hq. unfold put, push. do 2 f_equal.
  apply list_eq. intros k. destruct (decide (k = l)) as [->|?].
  - by rewrite list_lookup_insert_eq, list_lookup_alter_eq, Hq.
  - by rewrite list_lookup_insert_ne, list_lookup_alter_ne.
Qed.

Lemma push_jobs i l l' f s : (l < length (queues s))%nat →
  jobs i (queue l' (with_queues (push l f (queues s)) s)) = jobs i (queue l' s) ++ (if decide (l' = l) then jobs i [f] else []).
Proof.
  intros Hl. unfold queue, push. cbn [queues with_queues]. destruct (decide (l' = l)) as [->|?].
  - rewrite list_lookup_alter_eq. destruct (lookup_lt_is_Some_2 _ _ Hl) as [q Hq]. rewrite Hq. cbn. apply jobs_app.
  - by rewrite list_lookup_alter_ne, app_nil_r.
Qed.

Lemma push_erases i l f s : (l < length (queues s))%nat → erases i (with_queues (push l f (queues s)) s) = (erases i s + is_erase i f)%nat.
Proof.
  intros Hl. unfold erases, push. cbn [queues with_queues]. destruct (lookup_lt_is_Some_2 _ _ Hl) as [q Hq].
  pose proof (tally_insert (tally (is_erase i)) (queues s) l q (q ++ [f]) Hq) as Ht. rewrite tally_app in Ht.
  replace (alter (λ q, q ++ [f]) l (queues s)) with (<[l := q ++ [f]]> (queues s)); [unfold tally in *; cbn in *; lia|].
  apply list_eq. intros k. destruct (decide (k = l)) as [->|?].
  - rewrite list_lookup_insert_eq, list_lookup_alter_eq, Hq by (by eapply lookup_lt_Some). done.
  - by rewrite list_lookup_insert_ne, list_lookup_alter_ne.
Qed.

Lemma push_elem l f s l' q g : push l f (queues s) !! l' = Some q → g ∈ q → (l' = l ∧ g = f) ∨ ∃ q0, queues s !! l' = Some q0 ∧ g ∈ q0.
Proof.
  unfold push. destruct (decide (l' = l)) as [->|?]; [|rewrite list_lookup_alter_ne by done; eauto].
  rewrite list_lookup_alter_eq. destruct (queues s !! l) as [q0|]; [|done]. intros [= <-]. rewrite elem_of_app, list_elem_of_singleton.
  intros [?|?]; eauto.
Qed.

Lemma push_length l f s : length (push l f (queues s)) = length (queues s).
Proof. apply length_alter. Qed.

Lemma erased_snoc i s y : erased i (with_history (sent s) (closed s ++ [y]) s) = (erased i s + (if decide (y.1 = i) then 1 else 0))%nat.
Proof. unfold erased. cbn [closed with_history]. rewrite tally_app. unfold tally at 2. cbn. lia. Qed.

(** Erasing leaves the other sessions registered. *)
Lemma erase_registered s x i e j e0 : sinv s x → sessions s !! i = Some e → registered s i e → j ≠ i →
  delete (e_key e) (m_sessions (server s)) !! e_key e0 = Some (j, e_loop e0) ↔ registered s j e0.
Proof.
  intros Hi He Hr Hn. unfold registered in *. rewrite lookup_delete_Some. split; [by intros [_ ?]|]. intros Hj. split; [|done].
  intros E. rewrite E in Hr. congruence.
Qed.

(** Sessions keep their keys and loops. *)
Definition ids s : list (SessionKey * nat) := (λ e, (e_key e, e_loop e)) <$> sessions s.

(** Nothing is registered. *)
Definition kept s s' : Prop := ids s' = ids s ∧ m_sessions (server s') ⊆ m_sessions (server s).

#[global] Instance kept_preorder : PreOrder kept.
Proof. split; [by intros s|]. intros s1 s2 s3 [E1 H1] [E2 H2]. split; [congruence|by etrans]. Qed.

Lemma ids_insert s s' i e e' : sessions s !! i = Some e → e_key e' = e_key e → e_loop e' = e_loop e →
  sessions s' = <[i := e']> (sessions s) → m_sessions (server s') ⊆ m_sessions (server s) → kept s s'.
Proof.
  intros He Ek El Es Hm. split; [|done]. unfold ids. rewrite Es, list_fmap_insert, Ek, El. apply list_insert_id. by rewrite list_lookup_fmap, He.
Qed.

(** A session closes: its functor is queued, or the entry is erased at once. *)
Lemma close_ok s i e t log : sinv s (only i log) → sessions s !! i = Some e → e_log e ++ log ≠ [] →
  ks_ok t → ks_closes (e_session e) = 0%nat → ks_closes t = 1%nat →
  let s1 := with_entries (<[i := mkEntry t (e_key e) (e_loop e) (e_log e ++ log)]> (sessions s)) s in
  ∃ s', handleSessionClose (e_loop e) i s1 = (Ok tt, s') ∧ sinv s' none ∧ kept s s' ∧ sent s' = sent s.
Proof.
  intros Hs He Hne Hok H0 H1. cbv zeta. pose proof (si_entries _ _ Hs i e He) as Hi. rewrite only_eq in Hi.
  destruct (eo_life _ _ _ _ Hi) as [_ Hr Ee Ec|?|?]; [|congruence..].
  assert (Hlen : (0 < length (queues s))%nat) by (pose proof (eo_bound _ _ _ _ Hi); lia).
  assert (Ho : ∀ j e0, j ≠ i → sessions s !! j = Some e0 → entry_ok s [] j e0).
  { intros j e0 Hn Hj. pose proof (si_entries _ _ Hs j e0 Hj) as H. by rewrite only_ne in H. }
  unfold handleSessionClose. case_bool_decide as Hl.
  - pose proof (erase_session_eq s _ i e Hs He Hr) as Eer. eexists. split; [reflexivity|]. split.
    2:{ split; [|done]. eapply (ids_insert s _ i e (mkEntry t (e_key e) (e_loop e) (e_log e ++ log))); try done.
        cbn [with_history with_server with_entries server set_sessions m_sessions]. rewrite Eer. apply delete_subseteq. }
    eapply (sinv_entry s _ _ i e (mkEntry t (e_key e) (e_loop e) (e_log e ++ log))); try done; cbn [with_history with_server with_entries server sessions queues closed sent set_sessions m_sessions];
      rewrite ?Eer; try done.
    + intros l q f Hq Hf. by eapply (si_queue _ _ Hs).
    + intros k v. rewrite lookup_delete_Some. by intros [_ ?].
    + intros y. rewrite elem_of_app, list_elem_of_singleton. intros [?| ->]; auto.
    + intros j e0 Hn Hj. eapply (entry_ok_same s); [by apply Ho|done| |done| |done|done].
      * unfold registered. cbn [with_history with_server with_entries server set_sessions m_sessions]. rewrite Eer. by eapply erase_registered.
      * unfold erased. cbn [closed with_history with_server with_entries]. rewrite tally_app. unfold tally at 2. cbn.
        rewrite decide_False by done. lia.
    + eapply (entry_ok_ran s); try done. apply life_gone; cbn [e_session]; try done.
      * unfold registered. cbn [with_history with_server with_entries server set_sessions m_sessions e_key]. rewrite Eer.
        by rewrite lookup_delete_eq.
      * unfold erased in *. cbn [closed with_history with_server with_entries]. rewrite tally_app, Ec. unfold tally. cbn. by rewrite decide_True.
  - rewrite kcps_queueInLoop_run by done. eexists. split; [reflexivity|]. split; [|split; [by eapply (ids_insert s _ i e (mkEntry t (e_key e) (e_loop e) (e_log e ++ log)))|done]]. set (s1 := with_entries _ s).
    assert (Hp : ∀ j e0, e_loop e0 = e_loop e0 → jobs j (queue (e_loop e0) (with_queues (push 0 (FErase i) (queues s1)) s1)) = jobs j (queue (e_loop e0) s)).
    { intros j e0 _. rewrite push_jobs by done. case_decide; by rewrite app_nil_r. }
    eapply (sinv_entry s _ _ i e (mkEntry t (e_key e) (e_loop e) (e_log e ++ log))); try done; cbn [with_queues queues].
    + apply (push_length 0 (FErase i) s1).
    + intros l q f Hq Hf. destruct (push_elem _ _ _ _ _ _ Hq Hf) as [[-> ->]|(q0 & Hq0 & Hf0)]; [split; [done|by exists e]|].
      by eapply (si_queue _ _ Hs).
    + by left.
    + intros j e0 Hn Hj. eapply (entry_ok_same s); [by apply Ho|done|done| |done| |by apply Hp].
      * rewrite push_erases by done. cbn [is_erase]. rewrite decide_False by done. change (erases j s1) with (erases j s). lia.
      * cbn [with_queues queues]. by rewrite (push_length 0 (FErase i) s1).
    + eapply (entry_ok_ran s); try done; [apply (push_length 0 (FErase i) s1)|by apply Hp|]. apply life_closing; cbn [e_session]; try done.
      rewrite push_erases by done. cbn [is_erase]. rewrite decide_True by done. change (erases i s1) with (erases i s). lia.
Qed.

(** Whether a job can run now *)
Definition ready (j : Job Act) e : Prop := match j with JEstablish => e_log e = [] | _ => e_log e ≠ [] end.

(** What runs on a session *)
Lemma on_session_ok i log (m : M T ()) s e : sinv s (only i log) → sessions s !! i = Some e → e_log e ++ log ≠ [] →
  wp m (e_session e) (λ _ t, ks_ok t ∧ (ks_closes (e_session e) ≤ ks_closes t ≤ 1)%nat) nothrow →
  wp (on_session i log m) s (λ _ s', sinv s' none ∧ kept s s' ∧ sent s' = sent s) nothrow.
Proof.
  intros Hs He Hne Hm. apply wp_inv in Hm as ([] & t & Em & Hok & Hc). unfold on_session. apply wp_get. rewrite He, Em.
  unfold put. eapply wp_run_seq; [done|]. set (e' := mkEntry t _ _ _).
  pose proof (si_entries _ _ Hs i e He) as Hi. rewrite only_eq in Hi.
  destruct (decide (ks_closes t = ks_closes (e_session e))) as [E|E].
  - rewrite E, Nat.sub_diag. cbn [times]. unfold wp, bind, ret, lift. split; [|split; [by eapply (ids_insert s _ i e e')|done]].
    eapply (sinv_entry s _ _ i e e'); try done; cbn [with_entries queues closed].
    + intros l q f Hq Hf. by eapply (si_queue _ _ Hs).
    + by left.
    + intros j e0 Hn Hj. pose proof (si_entries _ _ Hs j e0 Hj) as H. rewrite only_ne in H by done. by eapply entry_ok_same.
    + eapply (entry_ok_ran s); try done.
      destruct (eo_life _ _ _ _ Hi); [apply life_open|apply life_closing|apply life_gone]; cbn [e_session]; congruence || done.
  - replace (ks_closes t - ks_closes (e_session e))%nat with 1%nat by lia. cbn [times].
    destruct (close_ok s i e t log Hs He Hne Hok ltac:(lia) ltac:(lia)) as (s' & Es' & H'). cbv zeta in Es'.
    unfold wp, bind, ret, lift. fold e' in Es'. by rewrite Es'.
Qed.

Lemma run_job_ok i l j s e : sinv s (only i [(l, j)]) → sessions s !! i = Some e → ready j e →
  wp (on_session i [(l, j)] (run_job j)) s (λ _ s', sinv s' none ∧ kept s s' ∧ sent s' = sent s) nothrow.
Proof.
  intros Hs He Hr. eapply on_session_ok; [done|done|by destruct (e_log e)|].
  pose proof (eo_session _ _ _ _ (si_entries _ _ Hs i e He)) as Hst. destruct j as [|p|a]; cbn [ready run_job] in *.
  - rewrite decide_True in Hst by done. pose proof (ks_new_closes _ Hst) as H0. eapply wp_mono; [by apply ks_establish_ok|..]; [|done].
    intros _ t [? ?]. split; [done|]. lia.
  - rewrite decide_False in Hst by done. by apply ks_input_ok.
  - rewrite decide_False in Hst by done. by apply ks_act_ok.
Qed.

(** ** Giving and taking jobs *)

Lemma jobs_other i i' (j : Job Act) : i' ≠ i → jobs i' [FJob i j] = [].
Proof. intros. unfold jobs. cbn. by rewrite decide_False. Qed.
Lemma jobs_self i (j : Job Act) : jobs i [FJob i j] = [j].
Proof. unfold jobs. cbn. by rewrite decide_True. Qed.
Lemma jobs_of_snoc i l i' (j : Job Act) : jobs_of i (l ++ [(i', j)]) = jobs_of i l ++ (if decide (i' = i) then [j] else []).
Proof. rewrite jobs_of_app. unfold jobs_of at 2. cbn. by case_decide. Qed.

(** Sessions and registry stay, queues and history change. *)
Lemma sinv_same s s' x x' i e : sinv s x → sessions s !! i = Some e → server s' = server s → sessions s' = sessions s → closed s' = closed s →
  length (queues s') = length (queues s) → (∀ l q f, queues s' !! l = Some q → f ∈ q → placed s l f) →
  (∀ y, y ∈ sent s' → y ∈ sent s ∨ y.1 = i) →
  (∀ i' e', sessions s !! i' = Some e' → entry_ok s' (x' i') i' e') → sinv s' x'.
Proof.
  intros [H1 H2 H3 H4 H5 H6] He Ev Es Ec Eq Hq Hs He'. split; rewrite ?Ev, ?Es, ?Ec, ?Eq; try done.
  - intros l q f Hl Hf. specialize (Hq l q f Hl Hf). unfold placed. by rewrite Es.
  - intros y [?| ->]%Hs; [by apply H4|]. by eapply lookup_lt_Some.
  - destruct (m_threadPool (server s)); [done|]. destruct H6 as (H6 & _). by rewrite H6 in He.
Qed.

(** A job is queued in the loop of its session. *)
Lemma post_ok s i e j : sinv s none → sessions s !! i = Some e → not_est j → for_key (e_key e) j →
  (e_loop e = 0%nat → is_act j) →
  sinv (with_queues (push (e_loop e) (FJob i j) (queues s)) (with_history (sent s ++ [(i, j)]) (closed s) s)) none.
Proof.
  intros Hs He Hne Hk Hz. set (s0 := with_history _ _ s). pose proof (si_entries _ _ Hs i e He) as Hi. change (none i) with (@nil (nat * Job Act)) in Hi.
  assert (Hb : (e_loop e < length (queues s0))%nat) by apply Hi.
  eapply (sinv_same s _ none none i e); try done; cbn [with_queues queues].
  - apply (push_length _ _ s0).
  - intros l q f Hq Hf. destruct (push_elem (e_loop e) (FJob i j) s0 _ _ _ Hq Hf) as [[-> ->]|(q0 & Hq0 & Hf0)]; [by exists e|].
    by eapply (si_queue _ _ Hs).
  - intros y. cbn. rewrite elem_of_app, list_elem_of_singleton. intros [?| ->]; auto.
  - intros i' e' He'. change (none i') with (@nil (nat * Job Act)). pose proof (si_entries _ _ Hs i' e' He') as Hi'. change (none i') with (@nil (nat * Job Act)) in Hi'.
    assert (Er : erases i' (with_queues (push (e_loop e) (FJob i j) (queues s0)) s0) = erases i' s).
    { rewrite push_erases by done. cbn [is_erase]. change (erases i' s0) with (erases i' s). lia. }
    assert (El : life s i' e' → life (with_queues (push (e_loop e) (FJob i j) (queues s0)) s0) i' e').
    { intros []; [apply life_open|apply life_closing|apply life_gone]; rewrite ?Er; done. }
    destruct Hi' as [H1 H2 H3 H4 H5 H6 H7 H8]. specialize (El H2).
    assert (Ej : ∀ l, jobs i' (queue l (with_queues (push (e_loop e) (FJob i j) (queues s0)) s0)) =
      jobs i' (queue l s) ++ (if decide (l = e_loop e ∧ i = i') then [j] else [])).
    { intros l. rewrite push_jobs by done. change (queue l s0) with (queue l s). f_equal. destruct (decide (i = i')) as [<-|?].
      - rewrite jobs_self. repeat case_decide; naive_solver.
      - rewrite jobs_other by done. repeat case_decide; naive_solver. }
    split; try done; cbn [with_queues with_history sent queues s0]; rewrite ?jobs_of_snoc, ?(push_length _ _ s0); try done.
    + destruct H5 as (rest & -> & Hr). exists (rest ++ (if decide (i = i') then [j] else [])). split; [done|].
      apply Forall_app. split; [done|]. destruct (decide (i = i')); by repeat constructor.
    + destruct (decide (i = i')) as [E|]; [|by rewrite app_nil_r]. subst i'. simplify_eq. apply Forall_app. split; [done|by constructor].
    + intros Hl. rewrite Ej, app_assoc, (H7 Hl). f_equal.
      destruct (decide (e_loop e' = e_loop e ∧ i = i')) as [E1|E1], (decide (i = i')) as [E2|E2]; try done; [by destruct E1|].
      subst i'. simplify_eq. exfalso. by apply E1.
    + intros Hl. destruct (H8 Hl) as (Hin & Hact & Hrest). rewrite Ej. split_and!; [|apply Forall_app; split; [done|]|done].
      * destruct (decide (i = i')) as [E|]; [|by rewrite (app_nil_r (jobs_of _ _))]. subst i'. simplify_eq. specialize (Hz Hl). destruct j; try done.
        rewrite inputs_app, <-Hin. cbn. by rewrite (app_nil_r (inputs _)).
      * destruct (decide (0%nat = e_loop e ∧ i = i')) as [E|]; [|done]. destruct E as [E1 <-]. constructor; [|done]. apply Hz. congruence.
Qed.

(** A job is about to run in the base loop. *)
Lemma hold_ok s i e j : sinv s none → sessions s !! i = Some e → e_loop e = 0%nat → not_est j → for_key (e_key e) j →
  sinv (with_history (sent s ++ [(i, j)]) (closed s) s) (only i [(0%nat, j)]) ∧ ready j e.
Proof.
  intros Hs He Hl Hne Hk. pose proof (si_entries _ _ Hs i e He) as Hi. change (none i) with (@nil (nat * Job Act)) in Hi. split.
  - eapply (sinv_same s _ none _ i e); try done.
    + intros l q f Hq Hf. by eapply (si_queue _ _ Hs).
    + intros y. cbn. rewrite elem_of_app, list_elem_of_singleton. intros [?| ->]; auto.
    + intros i' e' He'. pose proof (si_entries _ _ Hs i' e' He') as Hi'. change (none i') with (@nil (nat * Job Act)) in Hi'.
      destruct (decide (i' = i)) as [->|Hn].
      * rewrite only_eq. simplify_eq. destruct Hi' as [H1 H2 H3 H4 H5 H6 H7 H8]. rewrite app_nil_r in *.
        assert (El : life (with_history (sent s ++ [(i, j)]) (closed s) s) i e) by (by destruct H2; [apply life_open|apply life_closing|apply life_gone]).
        split; try done; cbn [with_history sent]; rewrite ?jobs_of_snoc, ?decide_True by done.
        -- apply Forall_app. split; [done|by repeat constructor].
        -- destruct H5 as (rest & -> & Hr). exists (rest ++ [j]). split; [done|]. apply Forall_app. split; [done|by constructor].
        -- apply Forall_app. split; [done|by constructor].
        -- intros _. destruct (H8 Hl) as (Hin & Hact & rest & Hr & Hrn). rewrite fmap_app, !inputs_app, Hin. split_and!; [done|done|].
           exists (rest ++ [j]). rewrite Hr. split; [done|]. apply Forall_app. split; [done|by constructor].
      * rewrite only_ne by done. destruct Hi' as [H1 H2 H3 H4 H5 H6 H7 H8]. rewrite app_nil_r in *.
        assert (El : life (with_history (sent s ++ [(i, j)]) (closed s) s) i' e') by (by destruct H2; [apply life_open|apply life_closing|apply life_gone]).
        split; try done; cbn [with_history sent]; rewrite ?jobs_of_snoc, ?decide_False, ?app_nil_r by done; done.
  - destruct (eo_zero _ _ _ _ Hi Hl) as (_ & _ & rest & Hr & _). rewrite app_nil_r in Hr. destruct j; [done| |]; cbn [ready]; by destruct (e_log e).
Qed.

Lemma give_ok s i e j : sinv s none → sessions s !! i = Some e → not_est j → for_key (e_key e) j →
  wp (give (e_loop e) i j) s (λ _ s', sinv s' none ∧ kept s s' ∧ sent s' = sent s ++ [(i, j)]) nothrow.
Proof.
  intros Hs He Hne Hk. unfold give, note, runInLoop. apply wp_modify_seq. case_bool_decide as Hl.
  - destruct (hold_ok s i e j Hs He Hl Hne Hk) as [Hh Hr]. cbn [run_functor]. by eapply run_job_ok.
  - pose proof (si_entries _ _ Hs i e He) as Hi. unfold wp. rewrite kcps_queueInLoop_run by (exact (eo_bound _ _ _ _ Hi)). split; [|done]. by apply (post_ok s i e j Hs He Hne Hk).
Qed.

(** ** The loops *)

Definition popped (l : nat) (q : list (Functor Act)) s : Sys T Act := with_queues (<[l := q]> (queues s)) s.

Lemma pop_sinv s l f q x' : sinv s none → queues s !! l = Some (f :: q) →
  (∀ i e, sessions s !! i = Some e → entry_ok (popped l q s) (x' i) i e) → sinv (popped l q s) x'.
Proof.
  intros [H1 H2 H3 H4 H5 H6] Hq He. split; try done.
  - intros l' q' g Hq' Hg. cbn in Hq'. apply list_lookup_insert_Some in Hq' as [(-> & <- & _)|(_ & Hq')].
    + apply (H3 l' _ g Hq). by right.
    + by apply (H3 l' q').
  - cbn. rewrite length_insert. destruct (m_threadPool (server s)); [done|]. destruct H6 as (_ & H6 & _). rewrite H6 in Hq.
    destruct l as [|[|]]; done.
Qed.

Lemma pop_queue l q s l' f : queues s !! l = Some (f :: q) → queue l' (popped l q s) = if decide (l' = l) then q else queue l' s.
Proof.
  intros Hq. unfold queue. cbn. case_decide; [subst; by rewrite list_lookup_insert_eq by (by eapply lookup_lt_Some)|].
  by rewrite list_lookup_insert_ne.
Qed.

Lemma pop_erases l q s f i : queues s !! l = Some (f :: q) → (erases i (popped l q s) + is_erase i f = erases i s)%nat.
Proof.
  intros Hq. unfold erases. cbn [queues popped with_queues]. pose proof (tally_insert (tally (is_erase i)) (queues s) l (f :: q) q Hq) as Ht.
  rewrite tally_cons in Ht. lia.
Qed.

Lemma pop_jobs l q s f i l' : queues s !! l = Some (f :: q) → jobs i (queue l' s) = (if decide (l' = l) then jobs i [f] else []) ++ jobs i (queue l' (popped l q s)).
Proof.
  intros Hq. rewrite (pop_queue _ _ _ _ _ Hq). case_decide; [|done]. subst. unfold queue. rewrite Hq. cbn [default]. apply (jobs_app i [f] q).
Qed.

(** The sessions that the functor does not concern *)
Lemma pop_entry s l f q i e : sinv s none → queues s !! l = Some (f :: q) → sessions s !! i = Some e → is_erase i f = 0%nat → jobs i [f] = [] →
  entry_ok (popped l q s) [] i e.
Proof.
  intros Hs Hq He Hf Hj. pose proof (pop_erases l q s f i Hq). eapply (entry_ok_same s); try done.
  - by apply (si_entries _ _ Hs).
  - lia.
  - cbn. by rewrite length_insert.
  - rewrite (pop_jobs l q s f i (e_loop e) Hq), Hj. by case_decide.
Qed.

Lemma pop_job s l q i j e : sinv s none → queues s !! l = Some (FJob i j :: q) → sessions s !! i = Some e →
  sinv (popped l q s) (only i [(l, j)]) ∧ ready j e.
Proof.
  intros Hs Hq He. pose proof (si_entries _ _ Hs i e He) as Hi. change (none i) with (@nil (nat * Job Act)) in Hi.
  assert (El : e_loop e = l).
  { destruct (si_queue _ _ Hs l _ (FJob i j) Hq) as (e0 & He0 & El); [by left|]. congruence. }
  pose proof (λ l', pop_jobs l q s _ i l' Hq) as Hj. rewrite jobs_self in Hj.
  destruct Hi as [H1 H2 H3 H4 H5 H6 H7 H8]. rewrite app_nil_r in *. split.
  - eapply pop_sinv; [done|done|]. intros i' e' He'. destruct (decide (i' = i)) as [->|Hn].
    2:{ rewrite only_ne by done. eapply pop_entry; try done. by apply jobs_other. }
    rewrite only_eq. simplify_eq. pose proof (pop_erases (e_loop e) q s _ i Hq) as He2. cbn [is_erase] in He2.
    split; try done; cbn [popped with_queues queues sent].
    + destruct H2; [apply life_open|apply life_closing|apply life_gone]; try done; lia.
    + by rewrite length_insert.
    + apply Forall_app. split; [done|by repeat constructor].
    + intros Hl. rewrite <-(H7 Hl), (Hj (e_loop e)), decide_True, fmap_app, <-app_assoc by done. done.
    + intros Hl. destruct (H8 Hl) as (Hin & Hact & rest & Hr & Hrn). rewrite (Hj 0%nat), decide_True in Hact by done.
      apply Forall_cons in Hact as [Hja Hact]. destruct j as [| |a]; try done. rewrite fmap_app, inputs_app, Hin. cbn. rewrite app_nil_r.
      split_and!; [done|done|]. exists (rest ++ [JAct a]). rewrite Hr. split; [done|]. apply Forall_app. split; [done|by repeat constructor].
  - destruct (decide (l = 0%nat)) as [Hl|Hl].
    + rewrite <-El in Hl. destruct (H8 Hl) as (_ & Hact & rest & Hr & _). rewrite (Hj 0%nat), decide_True in Hact by congruence.
      apply Forall_cons in Hact as [Hja _]. destruct j as [| |a]; try done. cbn. by destruct (e_log e).
    + rewrite <-El in Hl. specialize (H7 Hl). rewrite (Hj (e_loop e)), decide_True in H7 by done.
      destruct H5 as (rest & Hr & Hrn). rewrite Hr in H7. destruct (e_log e) as [|y lg] eqn:Elog; cbn in H7; injection H7 as H7 H7'.
      * by subst j.
      * assert (Hjr : j ∈ rest) by (rewrite <-H7'; rewrite elem_of_app; right; left). rewrite Forall_forall in Hrn.
        specialize (Hrn j Hjr). destruct j; cbn [ready]; by rewrite ?Elog.
Qed.

(** The functor of [handleSessionClose] *)
Lemma pop_erase_ok s l q i : sinv s none → queues s !! l = Some (FErase i :: q) → wp (eraseInLoop i) (popped l q s) (λ _ s', sinv s' none) nothrow.
Proof.
  intros Hs Hq. destruct (si_queue _ _ Hs l _ (FErase i) Hq) as [-> [e He]]; [by left|].
  pose proof (si_entries _ _ Hs i e He) as Hi. change (none i) with (@nil (nat * Job Act)) in Hi.
  pose proof (pop_erases 0 q s _ i Hq) as He2. cbn [is_erase] in He2. rewrite decide_True in He2 by done.
  destruct (eo_life _ _ _ _ Hi) as [? ? ? ?|Hc Hr Hn Hd|? ? ? ?]; [lia| |lia].
  pose proof (erase_session_eq s _ i e Hs He Hr) as Eer.
  unfold eraseInLoop. apply wp_modify_seq, wp_modify.
  eapply (sinv_entry s _ _ i e e); try done; cbn [popped with_history with_server with_queues server sessions queues closed sent set_sessions m_sessions];
    rewrite ?Eer, ?length_insert; try done.
  - by rewrite list_insert_id.
  - intros l q' f Hq' Hf. apply list_lookup_insert_Some in Hq' as [(<- & <- & _)|(_ & Hq')].
    + apply (si_queue _ _ Hs 0%nat _ f Hq). by right.
    + by apply (si_queue _ _ Hs l q').
  - intros k v. rewrite lookup_delete_Some. by intros [_ ?].
  - intros y. rewrite elem_of_app, list_elem_of_singleton. intros [?| ->]; auto.
  - intros j e0 Hnj Hj. assert (H0 : entry_ok (popped 0 q s) [] j e0).
    { eapply pop_entry; try done. cbn. by rewrite decide_False. }
    eapply (entry_ok_same (popped 0 q s)); [done|done| |done| |done|done].
    + unfold registered. cbn [with_history with_server popped with_queues server set_sessions m_sessions]. rewrite Eer. by eapply (erase_registered s).
    + unfold erased. cbn [closed with_history with_server popped with_queues]. rewrite tally_app. unfold tally at 2. cbn.
      rewrite decide_False by done. lia.
  - destruct Hi as [H1 H2 H3 H4 H5 H6 H7 H8].
    assert (Ej : ∀ l, jobs i (queue l (popped 0 q s)) = jobs i (queue l s)).
    { intros l. rewrite (pop_jobs 0 q s _ i l Hq). by destruct (decide (l = 0%nat)). }
    split; try done; cbn [with_history with_server popped with_queues queues sent]; rewrite ?length_insert; try done.
    + apply life_gone; try done.
      * unfold registered. cbn [with_history with_server popped with_queues server set_sessions m_sessions]. rewrite Eer. by rewrite lookup_delete_eq.
      * unfold erases in *. cbn [queues with_history with_server popped with_queues] in *. lia.
      * unfold erased in *. cbn [closed with_history with_server popped with_queues]. rewrite tally_app, Hd. unfold tally. cbn. by rewrite decide_True.
    + intros Hl. specialize (Ej (e_loop e)). unfold queue in *. cbn [queues with_history with_server popped with_queues] in *. rewrite Ej. auto.
    + intros Hl. specialize (Ej 0%nat). unfold queue in *. cbn [queues with_history with_server popped with_queues] in *. rewrite Ej. auto.
Qed.

Lemma run_functor_ok s l f q : sinv s none → queues s !! l = Some (f :: q) → wp (run_functor l f) (popped l q s) (λ _ s', sinv s' none) nothrow.
Proof.
  intros Hs Hq. destruct f as [|i j|i]; cbn [run_functor].
  - apply wp_ret. eapply pop_sinv; [done|done|]. intros i e He. by eapply pop_entry.
  - destruct (si_queue _ _ Hs l _ (FJob i j) Hq) as (e & He & _); [by left|].
    destruct (pop_job s l q i j e Hs Hq He) as [H1 H2]. eapply wp_mono; [by eapply run_job_ok|..]; [|done]. by intros _ s' (? & _).
  - by eapply pop_erase_ok.
Qed.

(** ** New sessions *)

Lemma fresh_jobs s x l : sinv s x → jobs (length (sessions s)) (queue l s) = [].
Proof.
  intros Hs. unfold queue. destruct (queues s !! l) as [q|] eqn:Hq; [|done]. cbn [default].
  assert (Hp : ∀ f, f ∈ q → placed s l f) by (intros f Hf; by eapply (si_queue _ _ Hs)). clear Hq.
  induction q as [|f q IH]; [done|]. assert (IHq : jobs (length (sessions s)) q = []) by (apply IH; intros g Hg; apply Hp; by right).
  rewrite (jobs_app _ [f] q), IHq, app_nil_r. specialize (Hp f ltac:(by left)). destruct f as [|j jb|j]; [done| |done].
  apply jobs_other. destruct Hp as (e & He & _). apply lookup_lt_Some in He. lia.
Qed.

Lemma fresh_erases s x : sinv s x → erases (length (sessions s)) s = 0%nat.
Proof.
  intros Hs. apply tally_zero, Forall_forall. intros q [l Hl]%list_elem_of_lookup_1. apply tally_zero, Forall_forall. intros f Hf.
  pose proof (si_queue _ _ Hs l q f Hl Hf) as Hp. destruct f as [| |j]; [done..|]. destruct Hp as [_ [e He]].
  apply lookup_lt_Some in He. cbn. rewrite decide_False by lia. done.
Qed.

Lemma fresh_sent s x : sinv s x → jobs_of (length (sessions s)) (sent s) = [].
Proof.
  intros Hs. pose proof (si_sent _ _ Hs) as H. induction (sent s) as [|y l IH]; [done|]. unfold jobs_of in *. cbn.
  rewrite decide_False; [apply IH; intros z Hz; apply H; by right|]. specialize (H y ltac:(by left)). lia.
Qed.

Lemma fresh_erased s x : sinv s x → erased (length (sessions s)) s = 0%nat.
Proof.
  intros Hs. apply tally_zero, Forall_forall. intros y Hy. pose proof (si_closed _ _ Hs y Hy). rewrite decide_False by lia. done.
Qed.

(** The state in which a session was made and [connectEstablished] is about to be given to its loop *)
Definition made (key : SessionKey) (t : T) (l : nat) s : Sys T Act :=
  with_history (sent s ++ [(length (sessions s), JEstablish)]) (closed s)
    (with_server (λ v, set_sessions (<[key := (length (sessions s), l)]> (m_sessions v)) v)
      (with_entries (sessions s ++ [mkEntry t key l []]) s)).

Lemma made_lookup key t l s i e : sessions (made key t l s) !! i = Some e →
  sessions s !! i = Some e ∧ i ≠ length (sessions s) ∨ i = length (sessions s) ∧ e = mkEntry t key l [].
Proof.
  cbn. intros [He|[Hge He]]%lookup_app_Some.
  - left. split; [done|]. apply lookup_lt_Some in He. lia.
  - right. apply list_lookup_singleton_Some in He as [? <-]. split; [lia|done].
Qed.

(** The queues [qs] are those of [s], perhaps with the functor. *)
Lemma made_sinv key t l s qs x : sinv s none → m_sessions (server s) !! key = None → is_Some (m_threadPool (server s)) →
  length qs = length (queues s) →
  (∀ l' q f, qs !! l' = Some q → f ∈ q → placed (made key t l s) l' f) →
  (∀ i e, sessions s !! i = Some e → entry_ok (with_queues qs (made key t l s)) (x i) i e) →
  entry_ok (with_queues qs (made key t l s)) (x (length (sessions s))) (length (sessions s)) (mkEntry t key l []) →
  sinv (with_queues qs (made key t l s)) x.
Proof.
  intros [H1 H2 H3 H4 H5 H6] Hk Hp Eq Hq Ho Hn. split.
  - intros i e [[He _]|[-> ->]]%(made_lookup key t l s); [by apply Ho|done].
  - intros k i l'. cbn. intros [[<- [= <- <-]]|[_ Hm]]%lookup_insert_Some.
    + exists (mkEntry t key l []). by rewrite lookup_app_r, Nat.sub_diag by lia.
    + destruct (H2 _ _ _ Hm) as (e & He & Ee). exists e. split; [|done]. by apply lookup_app_l_Some.
  - exact Hq.
  - intros y. cbn. rewrite length_app, elem_of_app, list_elem_of_singleton. cbn. intros [Hy| ->]; cbn; [specialize (H4 y Hy); lia|lia].
  - intros y Hy. cbn. rewrite length_app. specialize (H5 y Hy). lia.
  - cbn. destruct (m_threadPool (server s)); [|by destruct Hp]. by rewrite Eq.
Qed.

(** The other sessions *)
Lemma made_other key t l s qs i e : sinv s none → m_sessions (server s) !! key = None → sessions s !! i = Some e →
  length qs = length (queues s) → erases i (with_queues qs s) = erases i s → jobs i (queue (e_loop e) (with_queues qs s)) = jobs i (queue (e_loop e) s) →
  entry_ok (with_queues qs (made key t l s)) [] i e.
Proof.
  intros Hs Hk He Eq Er Ej. pose proof (si_entries _ _ Hs i e He) as Hi. change (none i) with (@nil (nat * Job Act)) in Hi.
  assert (Hn : length (sessions s) ≠ i) by (apply lookup_lt_Some in He; lia).
  assert (Hreg : registered (with_queues qs (made key t l s)) i e ↔ registered s i e).
  { unfold registered. cbn. rewrite lookup_insert_Some. split; [intros [[_ [= ? ?]]|[_ ?]]; [done|done]|]. intros Hr. right.
    split; [|done]. intros E. rewrite E in Hk. congruence. }
  destruct Hi as [H1 H2 H3 H4 H5 H6 H7 H8].
  assert (Es : jobs_of i (sent (with_queues qs (made key t l s))) = jobs_of i (sent s)).
  { cbn [sent with_queues with_history made]. rewrite jobs_of_snoc, decide_False by done. by rewrite app_nil_r. }
  split; rewrite ?Es; try done.
  - destruct H2; [apply life_open|apply life_closing|apply life_gone]; rewrite ?Hreg; try done; change (erases i (with_queues qs (made key t l s))) with (erases i (with_queues qs s)); by rewrite Er.
  - cbn. by rewrite Eq.
  - intros Hl. rewrite <-(H7 Hl), <-Ej. done.
  - intros Hl. specialize (H8 Hl). rewrite Hl in Ej. by rewrite <-Ej in H8.
Qed.

Lemma made_new key t l s qs (x : list (nat * Job Act)) : sinv s none → m_sessions (server s) !! key = None → ks_new t → (l < length (queues s))%nat →
  length qs = length (queues s) → erases (length (sessions s)) (with_queues qs s) = 0%nat →
  x = (if decide (l = 0%nat) then [(0%nat, JEstablish)] else []) →
  jobs (length (sessions s)) (queue l (with_queues qs s)) = (if decide (l = 0%nat) then [] else [JEstablish]) →
  entry_ok (with_queues qs (made key t l s)) x (length (sessions s)) (mkEntry t key l []).
Proof.
  intros Hs Hk Ht Hl Eq Er Ex Ej.
  assert (Es : jobs_of (length (sessions s)) (sent (with_queues qs (made key t l s))) = [JEstablish]).
  { cbn [sent with_queues with_history made]. rewrite jobs_of_snoc, decide_True by done. by rewrite (fresh_sent s none Hs). }
  split; cbn [e_session e_log e_key e_loop app]; rewrite ?Es; try done.
  - apply life_open; cbn [e_session].
    + by apply ks_new_closes.
    + unfold registered. cbn. by rewrite lookup_insert_eq.
    + exact Er.
    + exact (fresh_erased s none Hs).
  - cbn. by rewrite Eq.
  - rewrite Ex. destruct (decide _); [subst l; by repeat constructor|done].
  - exists []. by split.
  - by repeat constructor.
  - intros Hl0. rewrite decide_False in Ex by done; rewrite decide_False in Ej by done. subst x. exact Ej.
  - intros Hl0. rewrite decide_True in Ex by done; rewrite decide_True in Ej by done. subst x l. split_and!; [done|change (Forall is_act (jobs (length (sessions s)) (queue 0 (with_queues qs s)))); by rewrite Ej|exists []; by split].
Qed.

Lemma made_ids key t l s : ids (made key t l s) = ids s ++ [(key, l)].
Proof. unfold ids. cbn. by rewrite fmap_app. Qed.

(** [createSession], up to [connectEstablished] *)
Lemma create_ok key t l s : sinv s none → m_sessions (server s) !! key = None → is_Some (m_threadPool (server s)) → ks_new t →
  (l < length (queues s))%nat →
  wp (runInLoop l (FJob (length (sessions s)) JEstablish)) (made key t l s)
    (λ _ s', sinv s' none ∧ kept (made key t l s) s' ∧ sent s' = sent s ++ [(length (sessions s), JEstablish)]) nothrow.
Proof.
  intros Hs Hk Hp Ht Hl. set (n := length (sessions s)).
  assert (Hpl : ∀ l' f, placed s l' f → placed (made key t l s) l' f).
  { intros l' [|j jb|j]; cbn; [done|intros (e & He & El); exists e; split; [by apply lookup_app_l_Some|done]|].
    intros [? [e He]]. split; [done|]. exists e. by apply lookup_app_l_Some. }
  assert (Hlast : sessions (made key t l s) !! n = Some (mkEntry t key l [])).
  { cbn. unfold n. by rewrite lookup_app_r, Nat.sub_diag by lia. }
  unfold runInLoop. case_bool_decide as Hl0.
  - assert (H1 : sinv (made key t l s) (only n [(0%nat, JEstablish)])).
    { apply (made_sinv key t l s (queues s)); try done.
      - intros l' q f Hq Hf. apply Hpl. by eapply (si_queue _ _ Hs).
      - intros i e He. rewrite only_ne by (apply lookup_lt_Some in He; unfold n; lia). by apply made_other.
      - change (length (sessions s)) with n. rewrite only_eq. apply made_new; try done; [by apply (fresh_erases s none)|by rewrite decide_True|].
        rewrite decide_True by done. by apply (fresh_jobs s none). }
    cbn [run_functor]. eapply wp_mono; [eapply run_job_ok; [exact H1|exact Hlast|done]|..]; [|done].
    intros _ s' (H' & E1 & E2). split_and!; [done|done|done].
  - unfold wp. rewrite kcps_queueInLoop_run by done. split_and!; [|done|done].
    set (qs := push l (FJob n JEstablish) (queues (made key t l s))).
    assert (Eqs : with_queues qs s = with_queues (push l (FJob n JEstablish) (queues s)) s) by done.
    apply (made_sinv key t l s qs); try done.
    + apply length_alter.
    + intros l' q f Hq Hf. destruct (push_elem l (FJob n JEstablish) s _ _ _ Hq Hf) as [[-> ->]|(q0 & Hq0 & Hf0)].
      * exists (mkEntry t key l []). by split.
      * apply Hpl. by eapply (si_queue _ _ Hs).
    + intros i e He. apply made_other; try done; [apply length_alter| |].
      * rewrite Eqs, push_erases by done. cbn. lia.
      * rewrite Eqs, push_jobs by done. rewrite jobs_other by (apply lookup_lt_Some in He; unfold n; lia). case_decide; by rewrite app_nil_r.
    + apply made_new; try done; [apply length_alter| |by rewrite decide_False|].
      * rewrite Eqs, push_erases by done. change (erases (length (sessions s)) s) with (erases n s). pose proof (fresh_erases s none Hs). cbn. unfold n. lia.
      * rewrite Eqs, push_jobs, decide_True, decide_False by done. change (length (sessions s)) with n. rewrite jobs_self. unfold n. by rewrite (fresh_jobs s none l Hs).
Qed.

(** Calls of the connection callback *)
Lemma give_all_ok i l key js : ∀ s, sinv s none → ids s !! i = Some (key, l) → Forall is_act js →
  wp (give_all l i js) s (λ _ s', sinv s' none ∧ kept s s' ∧ sent s' = sent s ++ ((λ j, (i, j)) <$> js)) nothrow.
Proof.
  induction js as [|j js IH]; intros s Hs Hi Hj; cbn [give_all]; [apply wp_ret; by rewrite app_nil_r|].
  apply Forall_cons in Hj as [Hj Hjs]. unfold ids in Hi. rewrite list_lookup_fmap in Hi. destruct (sessions s !! i) as [e|] eqn:He; [|done].
  cbn in Hi. injection Hi as Ek El. eapply wp_seq; [rewrite <-El; apply (give_ok s i e j Hs He); by destruct j|].
  intros _ s1 (H1 & I1 & S1). eapply wp_mono; [apply IH; [done| |done]|..]; [|..|done].
  - rewrite (proj1 I1). unfold ids. rewrite list_lookup_fmap, He. cbn. by rewrite Ek, El.
  - intros _ s2 (H2 & I2 & S2). split_and!; [done|by etrans|]. rewrite S2, S1, <-app_assoc. done.
Qed.

(** ** Datagrams *)

Hypothesis hash_str_pos : ∀ a, 0 ≤ hash_str a.
Hypothesis hash_u32_pos : ∀ a, 0 ≤ hash_u32 a.

Lemma tryParseHeader_total p : ∃ o, tryParseHeader p = Ok o.
Proof.
  unfold tryParseHeader, kHeaderSize. destruct (Z.ltb_spec (zlen p) 8) as [|Hl]; [eauto|].
  unfold zlen in Hl. do 8 (destruct p as [|? p]; [cbn in Hl; lia|]). cbn. eauto.
Qed.

(** The options and callbacks of a new session *)
Definition new_session s (h : KcpPacketHeader) : res T :=
  let cbs := m_callbacks (server s) in
  ks_make (buildSessionOptions (h_conv h) (h_token h) (m_sessionOptions (server s)))
    (mkCallbacks (m_messageCallback cbs) (m_writeCompleteCallback cbs) true (m_errorCallback cbs)).

(** What becomes of a datagram: a short one is dropped; one of a known session goes to the
    loop of that session, any other makes a session first, and is lost only when the
    connection callback closes it. *)
Definition routed s (peer packet : str) s' : Prop :=
  match tryParseHeader packet with
  | Ok None => s' = s
  | Ok (Some h) =>
      let key := mkKey (h_conv h) (h_token h) peer in
      match m_sessions (server s) !! key with
      | Some (i, l) => ids s' = ids s ∧ sent s' = sent s ++ [(i, JInput packet)]
      | None =>
          let i := length (sessions s) in
          let before := sent s ++ (i, JEstablish) :: ((λ a, (i, JAct a)) <$> m_connectionCallback (server s)) in
          (∃ l, ids s' = ids s ++ [(key, l)]) ∧
          (sent s' = before ++ [(i, JInput packet)] ∨ sent s' = before ∧ m_sessions (server s') !! key = None)
      end
  | _ => False
  end.

Lemma ids_lookup s i key l : ids s !! i = Some (key, l) → ∃ e, sessions s !! i = Some e ∧ e_key e = key ∧ e_loop e = l.
Proof. unfold ids. rewrite list_lookup_fmap. destruct (sessions s !! i) as [e|]; [|done]. intros [= <- <-]. eauto. Qed.

Lemma createSession_ok s h peer : sinv s none → is_Some (m_threadPool (server s)) → let key := mkKey (h_conv h) (h_token h) peer in
  m_sessions (server s) !! key = None →
  wp (createSession hash_str hash_u32 (h_conv h) (h_token h) peer) s
    (λ _ s', sinv s' none ∧ (∃ t l, kept (made key t l s) s') ∧
       sent s' = sent s ++ (length (sessions s), JEstablish) :: ((λ a, (length (sessions s), JAct a)) <$> m_connectionCallback (server s)))
    (λ err s', s' = s ∧ new_session s h = Throw err).
Proof.
  intros Hs [p Hp] key Hk. unfold createSession. apply wp_get. rewrite Hp.
  pose proof (si_pool _ _ Hs) as Hpool. rewrite Hp in Hpool. destruct Hpool as (n & Hat & Hlen & _).
  destruct (getLoopForHash_run n 0 p (Z.lxor (Z.lxor (hash_str peer) (hash_u32 (h_conv h))) (hash_u32 (h_token h))) Hat) as (l & -> & Hln & _).
  { apply Z.lxor_nonneg. split; [intros _; done|intros _]. apply Z.lxor_nonneg. by split. }
  apply wp_lift_seq. fold (new_session s h). pose proof (ks_make_total (buildSessionOptions (h_conv h) (h_token h) (m_sessionOptions (server s)))
    (mkCallbacks (m_messageCallback (m_callbacks (server s))) (m_writeCompleteCallback (m_callbacks (server s))) true (m_errorCallback (m_callbacks (server s))))) as Htot.
  fold (new_session s h) in Htot. destruct (new_session s h) as [t|err| |] eqn:Em; [|by split|done|done]. clear Htot.
  apply wp_lift_seq. apply wp_modify_seq, wp_modify_seq. unfold new_session in Em. apply ks_make_new in Em; [|done].
  unfold give, note. eapply wp_calm with (P := λ _ s', sinv s' none ∧ kept (made key t l s) s' ∧ sent s' = sent s ++ [(length (sessions s), JEstablish)]).
  - apply wp_modify_seq.
    assert (E : with_history (sent s ++ [(length (sessions s), JEstablish)]) (closed s)
      (with_server (λ v, match m_sessions v !! makeSessionKey (h_conv h) (h_token h) peer with Some _ => v
        | None => set_sessions (<[makeSessionKey (h_conv h) (h_token h) peer := (length (sessions s), l)]> (m_sessions v)) v end)
        (with_entries (sessions s ++ [mkEntry t (makeSessionKey (h_conv h) (h_token h) peer) l []]) s)) = made key t l s).
    { unfold made, with_server, with_entries. cbn [server]. unfold makeSessionKey. fold key. by rewrite Hk. }
    cbn [sent closed with_server with_entries]. rewrite E. apply create_ok; try done; lia.
  - intros _ s1 (H1 & I1 & S1). eapply wp_mono; [apply (give_all_ok _ l key)|..].
    + done.
    + rewrite (proj1 I1), made_ids. unfold ids. by rewrite lookup_app_r, length_fmap, Nat.sub_diag by (rewrite length_fmap; lia).
    + apply Forall_fmap, Forall_true. done.
    + intros _ s2 (H2 & I2 & S2). split_and!; [done|exists t, l; by etrans|]. rewrite S2, S1, <-app_assoc. by rewrite <-list_fmap_compose.
    + done.
Qed.

Lemma handle_datagram_ok s peer packet : sinv s none → is_Some (m_threadPool (server s)) →
  wp (handle_datagram hash_str hash_u32 peer packet) s (λ _ s', sinv s' none ∧ routed s peer packet s')
    (λ err s', s' = s ∧ ∃ h, tryParseHeader packet = Ok (Some h) ∧ m_sessions (server s) !! mkKey (h_conv h) (h_token h) peer = None ∧
       new_session s h = Throw err).
Proof.
  intros Hs Hp. unfold handle_datagram, routed. destruct (tryParseHeader_total packet) as [o Eo]. rewrite Eo. apply wp_lift_seq.
  destruct o as [h|]; [|apply wp_ret; by split]. apply wp_get. unfold findSession, makeSessionKey. set (key := mkKey (h_conv h) (h_token h) peer).
  assert (Hg : ∀ s i l, sinv s none → m_sessions (server s) !! key = Some (i, l) →
    wp (give l i (JInput packet)) s (λ _ s', sinv s' none ∧ kept s s' ∧ sent s' = sent s ++ [(i, JInput packet)]) nothrow).
  { intros s0 i l Hs0 Hm. destruct (si_reg _ _ Hs0 _ _ _ Hm) as (e & He & Ek & <-). apply give_ok; [done|done|done|]. rewrite Ek. cbn. rewrite Eo. by destruct h. }
  destruct (m_sessions (server s) !! key) as [[i l]|] eqn:Ek.
  - eapply wp_run_seq; [done|]. apply wp_get. rewrite Ek. eapply wp_mono; [by apply Hg|..]; [|done].
    intros _ s' (? & [? _] & ?). by split_and!.
  - eapply wp_seq with (P := λ _ s', sinv s' none ∧ (∃ t l, kept (made key t l s) s') ∧
      sent s' = sent s ++ (length (sessions s), JEstablish) :: ((λ a, (length (sessions s), JAct a)) <$> m_connectionCallback (server s))).
    + eapply wp_mono; [by apply createSession_ok|done|]. intros e s' [-> He]. eauto 10.
    + intros _ s1 (H1 & (t & l & I1 & M1) & S1). rewrite made_ids in I1. apply wp_get.
      destruct (m_sessions (server s1) !! key) as [[i l']|] eqn:Ek1; [|apply wp_ret; split; [done|]; split; [by exists l|by right]].
      assert (i = length (sessions s)) as ->.
      { pose proof (lookup_weaken _ _ _ _ Ek1 M1) as Hm. cbn in Hm. rewrite lookup_insert_eq in Hm. congruence. }
      eapply wp_mono; [by apply Hg|..]; [|done]. intros _ s2 (H2 & [I2 _] & S2). split; [done|]. rewrite I2, S2, S1. split; [by exists l|by left].
Qed.

(** ** Labels *)

(** The server and the socket change, the registry and the pool do not. *)
Lemma sinv_world s s' : sinv s none → sessions s' = sessions s → queues s' = queues s → sent s' = sent s → closed s' = closed s →
  m_sessions (server s') = m_sessions (server s) → m_threadPool (server s') = m_threadPool (server s) →
  m_channel (server s') = m_channel (server s) → m_started (server s') = m_started (server s) →
  (m_threadPool (server s) = None → 0 ≤ m_threadCount (server s') < 2 ^ 63) → sinv s' none.
Proof.
  intros [H1 H2 H3 H4 H5 H6] Es Eq Et Ec Em Ep Eh Est Hn. split; rewrite ?Es, ?Eq, ?Et, ?Ec, ?Em, ?Ep, ?Eh, ?Est; try done.
  - intros i e He. eapply (entry_ok_same s); [by apply H1|done| | | |by rewrite Eq|].
    + unfold registered. by rewrite Em.
    + unfold erases. by rewrite Eq.
    + unfold erased. by rewrite Ec.
    + unfold queue. by rewrite Eq.
  - intros l q f Hl Hf. specialize (H3 l q f Hl Hf). unfold placed. by rewrite Es.
  - destruct (m_threadPool (server s)); [done|]. destruct H6 as (? & ? & ? & ? & _). split_and!; try done; by apply Hn.
Qed.

Lemma pool_count s : sinv s none → m_threadPool (server s) = None → 0 ≤ m_threadCount (server s) < 2 ^ 63.
Proof. intros Hs E. pose proof (si_pool _ _ Hs) as H. rewrite E in H. by destruct H as (_ & _ & _ & _ & ?). Qed.

Lemma routed_pool s s' peer packet : sinv s none → is_Some (m_threadPool (server s)) → routed s peer packet s' → sinv s' none →
  is_Some (m_threadPool (server s')).
Proof.
  intros Hs Hp Hr Hs'. assert (H : s' = s ∨ ids s' ≠ []).
  { unfold routed in Hr. destruct (tryParseHeader packet) as [[h|]| | |]; try done; [|by left]. right. cbv zeta in Hr.
    destruct (m_sessions (server s) !! _) as [[i l]|] eqn:Ek.
    - destruct Hr as [-> _]. destruct (si_reg _ _ Hs _ _ _ Ek) as (e & He & _). unfold ids. intros E. apply fmap_nil_inv in E. by rewrite E in He.
    - destruct Hr as [[l ->] _]. by destruct (ids s). }
  destruct H as [->|H]; [done|]. pose proof (si_pool _ _ Hs') as Hpool. destruct (m_threadPool (server s')); [done|].
  destruct Hpool as (E & _). unfold ids in H. by rewrite E in H.
Qed.

Lemma handleRead_loop_ok answers : ∀ s, sinv s none → is_Some (m_threadPool (server s)) →
  wp (handleRead_loop hash_str hash_u32 answers) s (λ _ s', sinv s' none) (λ _ s', sinv s' none).
Proof.
  induction answers as [|[peer bytes|] answers IH]; intros s Hs Hp; cbn [handleRead_loop]; [by apply wp_ret| |].
  - assert (H1 : sinv (with_socket answers s) none) by (eapply (sinv_world s); try done; exact (pool_count s Hs)).
    apply wp_modify_seq. eapply wp_seq with (P := λ _ s', sinv s' none ∧ is_Some (m_threadPool (server s'))).
    + eapply wp_mono; [by apply handle_datagram_ok|..].
      * intros _ s' [H' Hr]. split; [done|]. by eapply (routed_pool (with_socket answers s)).
      * by intros err s' [-> _].
    + intros _ s' [H' Hp']. by apply IH.
  - apply wp_modify_seq. unfold wp, throw. eapply (sinv_world s); try done. exact (pool_count s Hs).
Qed.

Definition label_ok (y : Label Act) : bool := match y with LSetThreadCount n => (0 <=? n) && (n <? 2 ^ 63) | _ => true end.

(** The queues of the loops when they start *)
Lemma start_sinv s p n q : sinv s none → m_threadPool (server s) = None → pool_at n 0 p →
  length q = S n → (∀ l fs f, q !! l = Some fs → f ∈ fs → f = FInit) →
  sinv (with_server (set_running (Some p)) (with_queues q s)) none.
Proof.
  intros [H1 H2 H3 H4 H5 H6] Ep Hat Hq Hf. rewrite Ep in H6. destruct H6 as (E & _). split; try done.
  - intros i e. cbn. by rewrite E.
  - intros l fs f Hl Hin. by rewrite (Hf l fs f Hl Hin).
  - cbn. exists n. by split_and!.
Qed.

Lemma kcps_queue_each_run ls : ∀ s, (∀ l, l ∈ ls → (l < length (queues s))%nat) → (∀ l fs f, queues s !! l = Some fs → f ∈ fs → f = FInit) →
  ∃ q, queue_each ls FInit s = (Ok tt, with_queues q s) ∧ length q = length (queues s) ∧ (∀ l fs f, q !! l = Some fs → f ∈ fs → f = FInit).
Proof.
  induction ls as [|l ls IH]; intros s Hl Hf; cbn [queue_each].
  - exists (queues s). by destruct s.
  - assert (Hlt : (l < length (queues s))%nat) by (apply Hl; left).
    destruct (IH (with_queues (push l FInit (queues s)) s)) as (q & E & Hq & Hqf).
    + intros l' Hl'. cbn. rewrite push_length. apply Hl. by right.
    + intros l' fs f Hfs Hin. destruct (push_elem _ _ _ _ _ _ Hfs Hin) as [[_ ->]|(q0 & Hq0 & Hf0)]; [done|]. by eapply Hf.
    + exists q. rewrite (bind_Ok _ _ _ _ _ (kcps_queueInLoop_run l FInit s Hlt)), E. split_and!; [done| |done]. rewrite Hq. apply push_length.
Qed.

Lemma start_ok s : sinv s none → wp start s (λ _ s', sinv s' none) nothrow.
Proof.
  intros Hs. unfold start. apply wp_get. pose proof (si_pool _ _ Hs) as Hpool. destruct (m_threadPool (server s)) as [p|] eqn:Ep.
  { destruct Hpool as (n & _ & _ & ->). by apply wp_ret. }
  destruct Hpool as (_ & Eq & _ & -> & Hc). destruct (pool_start_run _ Hc) as (p & -> & Hat). cbv beta iota.
  assert (Hl : m_loops p = seq 1 (Z.to_nat (m_threadCount (server s)))) by apply Hat.
  apply wp_lift_seq, wp_modify_seq. rewrite Eq, Hl, length_seq. set (qs := [[]] ++ replicate _ []).
  assert (Hqs : length qs = S (Z.to_nat (m_threadCount (server s)))) by (cbn; by rewrite length_replicate).
  assert (Hfs : ∀ l fs (f : Functor Act), qs !! l = Some fs → f ∈ fs → f = FInit).
  { intros l fs f Hfs Hin. exfalso. apply list_elem_of_lookup_2 in Hfs. unfold qs in Hfs. rewrite elem_of_app, list_elem_of_singleton in Hfs.
    destruct Hfs as [->|[-> _]%elem_of_replicate]; by apply not_elem_of_nil in Hin. }
  destruct (m_threadInitCallback (server s)).
  - destruct (kcps_queue_each_run (seq 1 (Z.to_nat (m_threadCount (server s)))) (with_queues qs s)) as (q & E & Hq & Hf); [|done|].
    { intros l Hl'. cbn [queues with_queues]. rewrite Hqs. apply elem_of_seq in Hl'. lia. }
    eapply wp_run_seq; [exact E|]. apply wp_modify. eapply (start_sinv s p _ q); try done. cbn in Hq. by rewrite Hq.
  - apply wp_run_seq with tt (with_queues qs s); [done|]. apply wp_modify. by eapply start_sinv.
Qed.

Lemma run_label_ok y s : label_ok y = true → sinv s none → wp (run_label hash_str hash_u32 y) s (λ _ s', sinv s' none) (λ _ s', sinv s' none).
Proof.
  intros Hy Hs. unfold run_label. apply wp_get. destruct y as [n|cb|edge o cn cbs| |a| |l|i a|i a]; cbn [label_ok] in Hy.
  - unfold setThreadCount. apply wp_get. destruct (m_started (server s)); [done|]. apply wp_modify. eapply (sinv_world s); try done. intros _. cbn. lia.
  - unfold setThreadInitCallback. apply wp_get. destruct (m_started (server s)); [done|]. apply wp_modify. eapply (sinv_world s); try done. exact (pool_count s Hs).
  - apply wp_modify. eapply (sinv_world s); try done. exact (pool_count s Hs).
  - eapply wp_mono; [by apply start_ok|done|done].
  - apply (wp_run _ _ tt (with_socket (socket s ++ [a]) s)); [done|]. eapply (sinv_world s); try done. exact (pool_count s Hs).
  - destruct (m_channel (server s)) eqn:Ec; [|by apply wp_ret]. unfold handleRead. apply wp_get. apply handleRead_loop_ok; [done|].
    pose proof (si_pool _ _ Hs) as Hp. destruct (m_threadPool (server s)); [done|]. destruct Hp as (_ & _ & ? & _). congruence.
  - destruct (queues s !! l) as [[|f q]|] eqn:Eq; try (by apply wp_ret). eapply wp_run_seq; [done|].
    eapply wp_mono; [by eapply run_functor_ok|done|done].
  - destruct (sessions s !! i) as [e|] eqn:He; [|by apply wp_ret]. pose proof (si_entries _ _ Hs i e He) as Hi.
    unfold note. apply wp_modify_seq. unfold wp. rewrite kcps_queueInLoop_run by (exact (eo_bound _ _ _ _ Hi)). by apply (post_ok s i e (JAct a)).
  - destruct (sessions s !! i) as [e|] eqn:He; [|by apply wp_ret]. case_bool_decide as Hl; [by apply wp_ret|].
    pose proof (si_entries _ _ Hs i e He) as Hi. pose proof (eo_session _ _ _ _ Hi) as Hses. rewrite decide_False in Hses by done.
    eapply wp_mono; [apply (on_session_ok i [] (ks_act a) s e); [|done|by rewrite app_nil_r|by apply ks_act_ok]|..]; [|by intros _ s' (? & _)|done].
    destruct Hs as [H1 H2 H3 H4 H5 H6]. split; try done. intros j e0 Hj. unfold only. destruct (decide (j = i)); by apply H1.
Qed.

Lemma run_labels_ok ys : ∀ s, forallb label_ok ys = true → sinv s none → ∃ s', run_labels hash_str hash_u32 ys s = (Ok tt, s') ∧ sinv s' none.
Proof.
  induction ys as [|y ys IH]; intros s Hy Hs; cbn [run_labels]; [by exists s|]. apply andb_true_iff in Hy as [Hy Hys].
  pose proof (run_label_ok y s Hy Hs) as H. unfold wp in H. unfold bind at 1, catching.
  destruct (run_label hash_str hash_u32 y s) as [[[]|err| |] s1]; try done; by apply IH.
Qed.

Lemma launch_sinv : sinv launch none.
Proof.
  split; cbn.
  - intros i e. by rewrite lookup_nil.
  - intros k i l. by rewrite lookup_empty.
  - intros [|[|]] q f; cbn; intros [= <-]. by intros ?%not_elem_of_nil.
  - by intros y ?%not_elem_of_nil.
  - by intros y ?%not_elem_of_nil.
  - done.
Qed.

Lemma acts_no_inputs (js : list (Job Act)) : Forall is_act js → inputs js = [].
Proof. induction 1 as [|j js Hj _ IH]; [done|]. by destruct j. Qed.

(** What the invariant says of a session *)
Lemma entry_log s i e : entry_ok s [] i e → Forall (λ y, y.1 = e_loop e) (e_log e) ∧
  (e_log e = [] ∨ ∃ rest, (e_log e).*2 = JEstablish :: rest ∧ Forall not_est rest) ∧
  inputs (e_log e).*2 ++ inputs (jobs i (queue (e_loop e) s)) = inputs (jobs_of i (sent s)).
Proof.
  intros [H1 H2 H3 H4 H5 H6 H7 H8]. rewrite app_nil_r in *. split; [done|]. destruct (decide (e_loop e = 0%nat)) as [Hl|Hl].
  - destruct (H8 Hl) as (Hin & Hact & rest & Hr & Hrn). split; [right; eauto|]. rewrite Hin, Hl.
    by rewrite (acts_no_inputs (jobs i (queue 0 s)) Hact), app_nil_r.
  - specialize (H7 Hl). split; [|by rewrite <-H7, inputs_app]. destruct H5 as (rest & Hr & Hrn). rewrite Hr in H7.
    destruct (e_log e) as [|y lg] eqn:El; [by left|]. right. cbn in H7. injection H7 as E H7. exists (lg.*2). rewrite fmap_cons, E. split; [done|].
    rewrite <-H7 in Hrn. by apply Forall_app in Hrn as [? _].
Qed.
End facts.

(** ** Sessions of [KcpSession] *)

Section instance.
Context {K : Type} `{KcpLaws K}.
Context (t0 : Z) (sc : list (list Op)).
Implicit Types s : Session K.

(** What happens to a session in its loop *)
Inductive SessionAct : Type := ASend (data : str) | AShutdown | AForceClose | ATimer | APass (ns : Z).

Definition action_of (a : SessionAct) : KcpSession.Action :=
  match a with
  | ASend data => KcpSession.Call (OpSend data)
  | AShutdown => KcpSession.Call OpShutdown
  | AForceClose => KcpSession.Call OpForceClose
  | ATimer => KcpSession.Timer
  | APass ns => KcpSession.Pass ns
  end.

#[export] Instance kcp_served : ServedSession (Session K) SessionAct := {|
  ks_make o cbs := KcpSession_make true true o cbs t0 sc;
  ks_establish := connectEstablished;
  ks_input p := act (KcpSession.Input true p);
  ks_act a := act (action_of a);
  ks_closes s := closes (trace s);
|}.

(** A session that reports its close once *)
Definition served_new (s : Session K) : Prop := inv s ∧ trace s = [] ∧ m_closeCallback (KcpSession.m_callbacks s) = true.
Definition served (s : Session K) : Prop := inv s ∧ armed s ∧ m_closeCallback (KcpSession.m_callbacks s) = true.

Lemma inv_closes s : inv s → (closes (trace s) ≤ 1)%nat.
Proof.
  intros Hi. destruct (decide (m_state s = Disconnected)) as [Hd|Hd]; [|rewrite (iv_open _ Hi Hd); lia].
  destruct (iv_closed _ Hi Hd) as [_ [->|[-> _]]]; [destruct (m_closeCallback _)|]; lia.
Qed.

Lemma same_closes s s' : same s s' → (closes (trace s) ≤ closes (trace s'))%nat.
Proof. intros (_ & _ & [l ->] & _). rewrite kcp_closes_app. lia. Qed.

Lemma served_act a s : action_ok a = true → served s →
  wp (act a) s (λ _ s', served s' ∧ (closes (trace s) ≤ closes (trace s') ≤ 1)%nat) nothrow.
Proof.
  intros Ha (Hi & Har & Hc). eapply wp_mono; [by apply kcp_act_ok|..]; [|done]. intros _ s' (Hi' & Har' & Hs & _).
  split; [split_and!; [done|done|by rewrite (proj1 Hs)]|]. split; [by apply same_closes|by apply inv_closes].
Qed.

Lemma served_establish s : served_new s → wp connectEstablished s (λ _ s', served s' ∧ closes (trace s') = 0%nat) nothrow.
Proof.
  intros (Hi & Ht & Hc). unfold connectEstablished. apply wp_modify_seq, wp_get.
  assert (H1 : inv (set_state Connected s)) by (by apply inv_connected).
  eapply wp_mono; [by apply scheduleUpdate_ok|..]; [|done]. intros _ s2 (H2 & [C2 _] & S2 & _ & T2). apply goes_same in C2.
  assert (Hd : m_state s2 ≠ Disconnected) by (by rewrite S2).
  split; [split_and!; [done|intros _; by rewrite T2|by rewrite (proj1 C2)]|]. by apply (iv_open _ H2).
Qed.

#[export] Instance kcp_served_laws : ServedSessionLaws (H := kcp_served) (Session K) SessionAct.
Proof.
  refine {| ks_new := served_new; ks_ok := served |}.
  - intros o cbs. cbn. unfold KcpSession_make. cbn [negb]. destruct (conv o =? 0); [done|]. destruct (ikcp_create _); [|done].
    destruct (if negb (token o =? 0) then _ else _) as [r1 k1]. destruct (negb (r1 =? 0)); [done|].
    destruct (ikcp_setmtu (mtu o) k1) as [r2 k2]. by destruct (negb (r2 =? 0)).
  - intros o cbs t Hc (Hi & Ht & Ecb & _)%make_ok. split_and!; [done|done|by rewrite Ecb].
  - intros t (_ & Ht & _). cbn. by rewrite Ht.
  - exact served_establish.
  - intros p t. by apply served_act.
  - intros a t. apply served_act. by destruct a.
Defined.

End instance.

(** ** Properties *)

(** Bytes put side by side *)
Lemma lor_shiftl_add a b k : 0 ≤ k → 0 ≤ a < 2 ^ k → Z.lor a (Z.shiftl b k) = a + 2 ^ k * b.
Proof.
  intros Hk Ha. assert (Hl : Z.land a (Z.shiftl b k) = 0).
  { rewrite <-(Z.mod_small a (2 ^ k)) by done. apply Z.bits_inj'. intros n Hn. rewrite Z.land_spec, Z.bits_0.
    destruct (Z.lt_ge_cases n k); [|by rewrite Z.mod_pow2_bits_high]. by rewrite Z.shiftl_spec_low, andb_false_r. }
  pose proof (Z.add_lor_land a (Z.shiftl b k)) as E. rewrite Hl in E. rewrite Z.shiftl_mul_pow2 in * by done. lia.
Qed.

Lemma decode32uLE_value d0 d1 d2 d3 rest : decode32uLE (d0 :: d1 :: d2 :: d3 :: rest) = Ok (le_value [d0; d1; d2; d3]).
Proof.
  cbn [decode32uLE le_value]. f_equal. pose proof (Z_of_byte_range d0). pose proof (Z_of_byte_range d1). pose proof (Z_of_byte_range d2).
  rewrite (lor_shiftl_add (Z_of_byte d0)) by lia. rewrite (lor_shiftl_add (_ + 2 ^ 8 * _)) by lia.
  rewrite (lor_shiftl_add (_ + _ + 2 ^ 16 * _)) by lia. lia.
Qed.

Lemma decode32uLE_bytes z rest : 0 ≤ z < 2 ^ 32 → decode32uLE (le_bytes 4 z ++ rest) = Ok z.
Proof.
  intros Hz. pose proof (le_value_le_bytes 4 z) as E. rewrite Z.mod_small in E by done. rewrite <-E at 2. apply decode32uLE_value.
Qed.

(** The header is the conversation and the token, least significant byte first. *)
Lemma header_roundtrip c t rest : 0 ≤ c < 2 ^ 32 → 0 ≤ t < 2 ^ 32 →
  tryParseHeader (le_bytes 4 c ++ le_bytes 4 t ++ rest) = Ok (Some (mkHeader c t)).
Proof.
  intros Hc Ht. unfold tryParseHeader, kHeaderSize, zlen. rewrite !length_app, !length_le_bytes.
  destruct (Z.ltb_spec (Z.of_nat (4 + (4 + length rest))) 8); [lia|]. unfold zdrop.
  rewrite drop_app_length' by (by rewrite length_le_bytes). by rewrite !decode32uLE_bytes.
Qed.

(** C24: the server through any run: settings, [start], datagrams and errors of the socket, loops
    that run their functors in any order, calls of the sessions from any thread.  The registry
    holds sessions under their own key and loop.  Every session made is open and registered, or
    closed with its erasure queued once in the base loop, or erased, once, so that a new
    datagram makes a new session; what runs on it runs in its own loop, beginning with
    [connectEstablished]; the datagrams it has handled and the ones still queued are those
    routed to it, in order, and all carry its conversation and token.  The next datagram is
    ignored when it is shorter than a header; it goes to the session registered for its
    conversation, token and sender; it makes one, which gets [connectEstablished], the calls of
    the connection callback and the datagram, in this order, when there is none; and it throws,
    changing nothing, exactly when the constructor of the session does. *)
Theorem kcp_server_routes {T Act} `{ServedSessionLaws T Act} (hash_str : str → Z) (hash_u32 : Z → Z) ys :
  (∀ x, 0 ≤ hash_str x) → (∀ x, 0 ≤ hash_u32 x) → forallb label_ok ys = true →
  ∃ s, run_labels hash_str hash_u32 ys launch = (Ok tt, s) ∧
    (∀ k i l, m_sessions (server s) !! k = Some (i, l) → ∃ e, sessions s !! i = Some e ∧ e_key e = k ∧ e_loop e = l) ∧
    (∀ i e, sessions s !! i = Some e → life s i e ∧ Forall (λ y, y.1 = e_loop e) (e_log e) ∧
       (e_log e = [] ∨ ∃ rest, (e_log e).*2 = JEstablish :: rest ∧ Forall not_est rest) ∧
       inputs (e_log e).*2 ++ inputs (jobs i (queue (e_loop e) s)) = inputs (jobs_of i (sent s)) ∧
       Forall (for_key (e_key e)) (jobs_of i (sent s))) ∧
    (m_started (server s) = true → ∀ peer packet,
       wp (handle_datagram hash_str hash_u32 peer packet) s (λ _ s', routed s peer packet s')
         (λ err s', s' = s ∧ ∃ h, tryParseHeader packet = Ok (Some h) ∧
            m_sessions (server s) !! mkKey (h_conv h) (h_token h) peer = None ∧ new_session s h = Throw err)).
Proof.
  intros Hs Hu Hy. destruct (run_labels_ok hash_str hash_u32 Hs Hu ys launch Hy launch_sinv) as (s & E & Hi).
  exists s. split; [exact E|]. split; [exact (si_reg _ _ Hi)|]. split.
  - intros i e He. pose proof (si_entries _ _ Hi i e He) as He'. split; [exact (eo_life _ _ _ _ He')|].
    destruct (entry_log _ _ _ He') as (? & ? & ?). split_and!; try done. exact (eo_keys _ _ _ _ He').
  - intros Hst peer packet. assert (Hp : is_Some (m_threadPool (server s))).
    { pose proof (si_pool _ _ Hi) as Hp. destruct (m_threadPool (server s)); [done|]. destruct Hp as (_ & _ & _ & ? & _). congruence. }
    eapply wp_mono; [by apply handle_datagram_ok|..]; [|done]. by intros _ s' [_ ?].
Qed.

Definition ex_hash (l : str) : Z := le_value l.
Definition ex_header (c t : Z) : str := le_bytes 4 c ++ le_bytes 4 t.
(** Two io threads; datagrams of two peers, one that closes its session and talks again *)
Definition ex_labels : list (Label SessionAct) :=
  [LSetThreadCount 2; LSetup false SessionOptions_default [ASend (lit "hi")] (mkCallbacks true true true true); LStart;
   LArrive (Datagram (lit "p") (ex_header 1 2)); LArrive (Datagram (lit "q") (ex_header 1 2)); LRead;
   LArrive (Datagram (lit "p") (ex_header 1 2 ++ lit "x")); LArrive (Datagram (lit "p") (lit "short")); LRead;
   LRun 2; LRun 1; LRun 2; LRun 1; LRun 2; LRun 2; LPost 0 AForceClose; LRun 2; LRun 0;
   LArrive (Datagram (lit "p") (ex_header 1 2)); LRead].

Definition ex_run (ys : list (Label SessionAct)) : res () * Sys (Session ToyKcp) SessionAct :=
  run_labels (H := kcp_served 0 []) ex_hash Z.abs ys launch.

Lemma kcp_server_routes_witness : let s := (ex_run ex_labels).2 in
  ex_run ex_labels = (Ok tt, s) ∧ e_loop <$> sessions s = [2; 1; 2]%nat ∧ closed s = [(0%nat, true)] ∧
  (∀ i e, sessions s !! i = Some e → life (Ops := kcp_served 0 []) s i e) ∧
  wp (handle_datagram (H := kcp_served 0 []) ex_hash Z.abs (lit "r") (ex_header 5 0)) s (λ _ s', routed s (lit "r") (ex_header 5 0) s')
    (λ err s', s' = s ∧ ∃ h, tryParseHeader (ex_header 5 0) = Ok (Some h) ∧
       m_sessions (server s) !! mkKey (h_conv h) (h_token h) (lit "r") = None ∧ new_session (Ops := kcp_served 0 []) s h = Throw err).
Proof.
  destruct (kcp_server_routes (H := kcp_served 0 []) (H0 := kcp_served_laws 0 []) ex_hash Z.abs ex_labels) as (s & Es & _ & He & Hr).
  - intros x. apply le_value_range.
  - apply Z.abs_nonneg.
  - reflexivity.
  - fold (ex_run ex_labels) in Es. cbv zeta. assert (E : (ex_run ex_labels).2 = s) by (by rewrite Es). rewrite E. split; [exact Es|].
    split; [rewrite <-E; vm_compute; reflexivity|]. split; [rewrite <-E; vm_compute; reflexivity|].
    split; [intros i e Hi; by apply He|]. apply Hr. rewrite <-E. vm_compute. reflexivity.
Defined.

(** A datagram of eight zero bytes makes [handleRead] throw: the constructor of the session
    refuses conversation 0, and nothing on the way to [EventLoop::loop] catches it.  The
    datagrams behind it are not read. *)
Theorem zero_conv_escapes : let s := (ex_run (take 3 ex_labels)).2 in
  let '(r, s') := handleRead (H := kcp_served 0 []) ex_hash Z.abs
    (with_socket [Datagram (lit "p") (ex_header 0 0); Datagram (lit "q") (ex_header 1 2)] s) in
  r = Throw invalid_argument ∧ sessions s' = [] ∧ socket s' = [Datagram (lit "q") (ex_header 1 2)].
Proof. vm_compute. by split_and!. Qed.
