(* ===== verification/KcpClient.v ===== *)
(** * [dbase::net::KcpClient] (code/src/net/kcp_client.cpp, kcp_client.h)

    One session of [KcpSession] at a time, over a connected UDP socket in one loop.  The sessions
    made so far are numbered, and so are the channels: [registered] holds the channels the poller
    knows, also those whose object has been destroyed.  [closed] is history: the sessions that
    reported their close, and whether the callback of the user was called.  A close is reported
    after the handler that caused it; the callbacks of the user call the session ([script] of the
    session, [m_connectionCallback]), not the client. *)

From S2P Require Import Prelude Error KcpSession KcpServer.
From stdpp Require Import base list strings.
From Stdlib Require Import ZArith Lia.

Local Open Scope Z_scope.

(** The system calls of [connect] *)
Inductive Sock : Type := SockOk | CreateFails | ConnectFails.
(** [receive]: a datagram, or an error other than that there is none *)
Inductive Received : Type := Packet (bytes : str) | ReceiveError.

Section client.
Context {K : Type} `{Kcp K}.
Context (t0 : Z) (sc : list (list Op)).

Record KcpClient : Type := mkClient {
  m_options : Options;
  m_channel : option nat;
  m_started : bool;
  m_edgeTriggered : bool;
  m_connectionCallback : list Op;
  m_callbacks : Callbacks;
  m_session : option nat;
}.

Inductive Functor : Type := FStop (i : nat) | FRemoveChannel.

Record Sys : Type := mkSys {
  client : KcpClient;
  sessions : list (Session K);
  queue : list Functor;
  registered : list nat;
  channels : nat;             (* channels made so far *)
  socket : list Received;
  closed : list (nat * bool);
}.

Definition set_channel x c := mkClient (m_options c) x (m_started c) (m_edgeTriggered c) (m_connectionCallback c) (m_callbacks c) (m_session c).
Definition set_started x c := mkClient (m_options c) (m_channel c) x (m_edgeTriggered c) (m_connectionCallback c) (m_callbacks c) (m_session c).
Definition set_session x c := mkClient (m_options c) (m_channel c) (m_started c) (m_edgeTriggered c) (m_connectionCallback c) (m_callbacks c) x.
Definition set_setup e cn cbs c := mkClient (m_options c) (m_channel c) (m_started c) e cn cbs (m_session c).

Definition with_client (f : KcpClient → KcpClient) s := mkSys (f (client s)) (sessions s) (queue s) (registered s) (channels s) (socket s) (closed s).
Definition with_sessions x s := mkSys (client s) x (queue s) (registered s) (channels s) (socket s) (closed s).
Definition with_queue x s := mkSys (client s) (sessions s) x (registered s) (channels s) (socket s) (closed s).
Definition with_registered x s := mkSys (client s) (sessions s) (queue s) x (channels s) (socket s) (closed s).
Definition with_channels x s := mkSys (client s) (sessions s) (queue s) (registered s) x (socket s) (closed s).
Definition with_socket x s := mkSys (client s) (sessions s) (queue s) (registered s) (channels s) x (closed s).
Definition with_closed x s := mkSys (client s) (sessions s) (queue s) (registered s) (channels s) (socket s) x.

Definition handleSessionClose (i : nat) : M Sys () :=
  modify (with_client (λ c, if bool_decide (m_session c = Some i) then set_session None c else c));;;
  modify (λ s, with_closed (closed s ++ [(i, m_closeCallback (m_callbacks (client s)))]) s).

Fixpoint times (n : nat) (m : M Sys ()) : M Sys () :=
  match n with O => ret tt | S n => m;;; times n m end.

(** [m] runs on session [i]. *)
Definition on_session (i : nat) (m : M (Session K) ()) : M Sys () :=
  let! s := get in
  match sessions s !! i with
  | None => undef
  | Some t =>
      let '(r, t') := m t in
      put (with_sessions (<[i := t']> (sessions s)) s);;;
      times (closes (trace t') - closes (trace t)) (handleSessionClose i);;;
      lift r
  end.

Fixpoint call_all (i : nat) (os : list Op) : M Sys () :=
  match os with [] => ret tt | o :: os => on_session i (act (Call o));;; call_all i os end.

(** The constructor: [options.conv] must not be 0. *)
Definition KcpClient_make (options : Options) : res KcpClient :=
  if conv options =? 0 then Throw invalid_argument
  else Ok (mkClient options None false false [] (mkCallbacks false false false false) None).

(** A new channel takes the place of the old one, which stays in the poller when it was there. *)
Definition enable_channel : M Sys () :=
  let! s := get in
  modify (with_client (set_channel (Some (channels s))));;;
  modify (with_registered (registered s ++ [channels s]));;;
  modify (with_channels (S (channels s))).

Definition connect (sock : Sock) : M Sys () :=
  let! s := get in
  if m_started (client s) then ret tt
  else
    match sock with
    | CreateFails => throw runtime_error
    | ConnectFails => modify (with_socket []);;; throw runtime_error
    | SockOk =>
        modify (with_socket []);;;
        enable_channel;;;
        let c := client s in
        let cbs := m_callbacks c in
        let! session := lift (KcpSession_make true true (m_options c)
          (mkCallbacks (m_messageCallback cbs) (m_writeCompleteCallback cbs) true (m_errorCallback cbs)) t0 sc) in
        let i := length (sessions s) in
        modify (λ s, with_sessions (sessions s ++ [session]) s);;;
        modify (with_client (set_session (Some i)));;;
        on_session i connectEstablished;;;
        call_all i (m_connectionCallback c);;;
        modify (with_client (set_started true))
    end.

Definition disconnect (here : bool) : M Sys () :=
  let! s := get in
  match m_session (client s) with
  | None => ret tt
  | Some i => on_session i (act (if here then Call OpShutdown else Remote OpShutdown))
  end.

Definition run_functor (f : Functor) : M Sys () :=
  match f with
  | FStop i => on_session i (act (Call OpForceClose));;; on_session i (act (Call OpConnectDestroyed))
  | FRemoveChannel =>
      let! s := get in
      match m_channel (client s) with
      | None => ret tt
      | Some ch =>
          modify (with_registered (filter (λ x, x ≠ ch) (registered s)));;;
          modify (with_client (set_channel None))
      end
  end.

Definition runInLoop (here : bool) (f : Functor) : M Sys () :=
  if here then run_functor f else modify (λ s, with_queue (queue s ++ [f]) s).

Definition stop (here : bool) : M Sys () :=
  let! s := get in
  if negb (m_started (client s)) then ret tt
  else
    modify (with_client (set_session None));;;
    (match m_session (client s) with None => ret tt | Some i => runInLoop here (FStop i) end);;;
    let! s := get in
    (match m_channel (client s) with None => ret tt | Some _ => runInLoop here FRemoveChannel end);;;
    modify (with_client (set_started false)).

Fixpoint handleRead_loop (i : nat) (answers : list Received) : M Sys () :=
  match answers with
  | [] => ret tt
  | ReceiveError :: answers => modify (with_socket answers);;; throw runtime_error
  | Packet bytes :: answers =>
      modify (with_socket answers);;;
      on_session i (act (Input true (ztake kUdpReadBufferSize bytes)));;;
      handleRead_loop i answers
  end.

Definition handleRead : M Sys () :=
  let! s := get in
  match m_session (client s) with
  | None => ret tt
  | Some i => handleRead_loop i (socket s)
  end.

(** ** Runs *)

Inductive Label : Type :=
  | LSetup (edge : bool) (connection : list Op) (cbs : Callbacks)   (* the setters *)
  | LConnect (sock : Sock)
  | LDisconnect (here : bool)
  | LStop (here : bool)
  | LRun                                (* the loop runs its next functor *)
  | LArrive (a : Received)
  | LEvent (ch : nat)                   (* the poller reports a channel it knows *)
  | LAct (i : nat) (a : Action).        (* something happens to session [i] *)

Definition run_label (y : Label) : M Sys () :=
  let! s := get in
  match y with
  | LSetup edge connection cbs => modify (with_client (set_setup edge connection cbs))
  | LConnect sock => connect sock
  | LDisconnect here => disconnect here
  | LStop here => stop here
  | LRun =>
      match queue s with
      | [] => ret tt
      | f :: q => put (with_queue q s);;; run_functor f
      end
  | LArrive a => put (with_socket (socket s ++ [a]) s)
  | LEvent ch =>
      if bool_decide (ch ∈ registered s) then
        if bool_decide (m_channel (client s) = Some ch) then handleRead else undef   (* the channel is destroyed *)
      else ret tt
  | LAct i a => match sessions s !! i with Some _ => on_session i (act a) | None => ret tt end
  end.

(** Whoever runs the loop may catch an exception and go on. *)
Definition catching (m : M Sys ()) : M Sys () :=
  λ s, match m s with (Throw _, s') => (Ok tt, s') | out => out end.

Fixpoint run_labels (ys : list Label) : M Sys () :=
  match ys with [] => ret tt | y :: ys => catching (run_label y);;; run_labels ys end.

Definition launch (c : KcpClient) : Sys := mkSys c [] [] [] 0 [] [].

End client.

Arguments Sys _ : clear implicits.

(** ** The invariant *)

Section facts.
Context {K : Type} `{KcpLaws K}.
Context (t0 : Z) (sc : list (list Op)) (o : Options).
Implicit Types (s : Sys K) (t : Session K).

Definition reported (i : nat) s : nat := tally (λ y : nat * bool, if decide (y.1 = i) then 1 else 0)%nat (closed s).

(** Session [x] is being stopped. *)
Record core (x : option nat) s : Prop := {
  co_sessions : ∀ i t, sessions s !! i = Some t → served t ∧ reported i s = closes (trace t) ∧
    (m_session (client s) = Some i → closes (trace t) = 0%nat) ∧
    (m_session (client s) ≠ Some i → x ≠ Some i → m_state t = Disconnected);
  co_current : ∀ i, m_session (client s) = Some i → (i < length (sessions s))%nat ∧ is_Some (m_channel (client s));
  co_options : m_options (client s) = o;
  co_queue : queue s = [];
  co_registered : registered s = option_list (m_channel (client s));
  co_closed : ∀ y, y ∈ closed s → (y.1 < length (sessions s))%nat;
}.

Definition cinv s : Prop := core None s ∧ (m_started (client s) = true ↔ is_Some (m_channel (client s))).

(** What the handlers of a session leave of the client *)
Definition kept s s' : Prop :=
  m_channel (client s') = m_channel (client s) ∧ m_started (client s') = m_started (client s) ∧
  length (sessions s') = length (sessions s) ∧ (m_session (client s) = None → m_session (client s') = None).

#[global] Instance kcpc_kept_preorder : PreOrder kept.
Proof. split; [by intros s|]. intros s1 s2 s3 (? & ? & ? & ?) (? & ? & ? & ?). split_and!; try congruence. auto. Qed.

Lemma reported_snoc i s y : reported i (with_closed (closed s ++ [y]) s) = (reported i s + if decide (y.1 = i) then 1 else 0)%nat.
Proof. unfold reported. cbn [closed with_closed]. rewrite tally_app. unfold tally at 2. cbn. lia. Qed.

(** A handler of session [i] that does not report its close *)
Lemma quiet_core x s i t t' : core x s → sessions s !! i = Some t → served t' → closes (trace t') = closes (trace t) →
  (m_state t = Disconnected → m_state t' = Disconnected) → core x (with_sessions (<[i := t']> (sessions s)) s).
Proof.
  intros [H1 H2 H3 H4 H5 H6] Hi Ht' Hc Hd. split; cbn [sessions client queue registered closed with_sessions]; rewrite ?length_insert; try done.
  intros j u [(-> & <- & Hlt)|[Hne Hj]]%list_lookup_insert_Some; [|by apply H1]. destruct (H1 j t Hi) as (_ & Hr & Hcur & Hdis).
  split_and!; [done|by rewrite Hc|by rewrite Hc|auto].
Qed.

(** The one that does *)
Definition reports (i : nat) s : Sys K :=
  let s1 := with_client (λ c, if bool_decide (m_session c = Some i) then set_session None c else c) s in
  with_closed (closed s1 ++ [(i, m_closeCallback (m_callbacks (client s1)))]) s1.

Lemma reports_core x s i t t' : core x s → sessions s !! i = Some t → served t' → closes (trace t) = 0%nat → closes (trace t') = 1%nat →
  core x (reports i (with_sessions (<[i := t']> (sessions s)) s)).
Proof.
  intros [H1 H2 H3 H4 H5 H6] Hi Ht' Hc Hc'. assert (Hd : m_state t' = Disconnected).
  { destruct (decide (m_state t' = Disconnected)) as [?|Hd]; [done|]. destruct Ht' as (Hinv & _). rewrite (iv_open _ Hinv Hd) in Hc'. done. }
  assert (Hses : ∀ j, m_session (client (reports i (with_sessions (<[i := t']> (sessions s)) s))) = Some j ↔ m_session (client s) = Some j ∧ j ≠ i).
  { intros j. unfold reports. cbn [client with_closed with_client with_sessions]. case_bool_decide as Hb; cbn [m_session set_session]; [|naive_solver].
    rewrite Hb. split; [done|]. intros [[= ->] ?]. done. }
  assert (Hch : m_channel (client (reports i (with_sessions (<[i := t']> (sessions s)) s))) = m_channel (client s) ∧
    m_options (client (reports i (with_sessions (<[i := t']> (sessions s)) s))) = m_options (client s)).
  { unfold reports. cbn [client with_closed with_client with_sessions]. by case_bool_decide. }
  destruct Hch as [Ech Eop]. split; rewrite ?Ech, ?Eop; try done.
  - intros j u Hj. cbn [reports sessions with_closed with_client with_sessions] in Hj. unfold reports. rewrite reported_snoc. fold (reports i (with_sessions (<[i := t']> (sessions s)) s)).
    cbn [fst]. change (reported j (with_client _ _)) with (reported j s). rewrite !Hses.
    apply list_lookup_insert_Some in Hj as [(-> & <- & Hlt)|[Hne Hj]].
    + destruct (H1 j t Hi) as (_ & Hr & _). rewrite decide_True by done. split_and!; [done|lia|by intros [_ ?]|done].
    + destruct (H1 j u Hj) as (Hs & Hr & Hcur & Hdis). rewrite decide_False by done. split_and!; [done|lia|by intros [? _]; auto|].
      intros Hn. apply Hdis. intros E. apply Hn. by split.
  - intros j [Hj _]%Hses. cbn. rewrite length_insert. by apply H2.
  - intros y. cbn. rewrite length_insert, elem_of_app, list_elem_of_singleton. intros [?| ->]; [by apply H6|]. by apply lookup_lt_Some in Hi.
Qed.

Lemma kcpc_on_session_ok x s i t m P : core x s → sessions s !! i = Some t →
  wp m t (λ _ t', served t' ∧ (closes (trace t) ≤ closes (trace t') ≤ 1)%nat ∧ (m_state t = Disconnected → m_state t' = Disconnected) ∧ P t') nothrow →
  wp (on_session i m) s (λ _ s', core x s' ∧ kept s s' ∧ ∃ t', sessions s' !! i = Some t' ∧ P t') nothrow.
Proof.
  intros Hc Hi Hm. apply wp_inv in Hm as ([] & t' & Em & Ht' & Hcl & Hd & HP). unfold on_session. apply wp_get. rewrite Hi, Em.
  eapply wp_run_seq; [done|]. pose proof (lookup_lt_Some _ _ _ Hi) as Hlt.
  assert (Hn : (closes (trace t') - closes (trace t) = 0 ∧ closes (trace t') = closes (trace t) ∨
    closes (trace t') - closes (trace t) = 1 ∧ closes (trace t) = 0 ∧ closes (trace t') = 1)%nat) by lia.
  destruct Hn as [[-> E]|(-> & E0 & E1)]; cbn [times].
  - eapply wp_run_seq; [done|]. eapply wp_run; [done|]. split; [by eapply quiet_core|]. split.
    + unfold kept. cbn [client sessions with_sessions]. rewrite length_insert. by split_and!.
    + exists t'. cbn. by rewrite list_lookup_insert_eq.
  - apply (wp_run _ _ tt (reports i (with_sessions (<[i := t']> (sessions s)) s))); [done|]. split; [by eapply reports_core|]. split.
    + unfold kept, reports. cbn [client with_closed with_client with_sessions sessions]. rewrite length_insert. case_bool_decide; cbn; by split_and!.
    + exists t'. cbn. by rewrite list_lookup_insert_eq.
Qed.

Lemma rank_closed t t' : (rank (m_state t) ≤ rank (m_state t'))%nat → m_state t = Disconnected → m_state t' = Disconnected.
Proof. intros Hr E. rewrite E in Hr. destruct (m_state t'); cbn in Hr; try lia. done. Qed.

Lemma kcpc_act a t : action_ok a = true → served t →
  wp (act a) t (λ _ t', served t' ∧ (closes (trace t) ≤ closes (trace t') ≤ 1)%nat ∧ (m_state t = Disconnected → m_state t' = Disconnected) ∧ True) nothrow.
Proof.
  intros Ha (Hi & Har & Hc). eapply wp_mono; [by apply kcp_act_ok|..]; [|done]. intros _ t' (Hi' & Har' & Hs & _).
  split_and!; [split_and!; [done|done|by rewrite (proj1 Hs)]|by apply same_closes|by apply inv_closes| |done].
  intros E. by apply (rank_closed t t'); [apply Hs|].
Qed.

Lemma kcpc_forceClose t : served t → wp (act (Call OpForceClose)) t
  (λ _ t', served t' ∧ (closes (trace t) ≤ closes (trace t') ≤ 1)%nat ∧ (m_state t = Disconnected → m_state t' = Disconnected) ∧ m_state t' = Disconnected) nothrow.
Proof.
  intros (Hi & Har & Hc). unfold act. apply wp_get. cbn [run_op]. unfold forceClose, KcpSession.runInLoop.
  eapply wp_mono; [apply (handleClose_ok _ _ (kcp_react_ok _)); [done|lia]|..]; [|done]. intros _ t' (Hi' & [Hg _] & Hd).
  pose proof (goes_same _ _ Hg) as Hs. split_and!; [split_and!; [done|by eapply goes_keeps_armed|by rewrite (proj1 Hs)]|by apply same_closes|by apply inv_closes|done|done].
Qed.

(** Every session the client has made *)
Lemma kcpc_act_ok s i t a : core None s → sessions s !! i = Some t → action_ok a = true → wp (on_session i (act a)) s (λ _ s', core None s' ∧ kept s s') nothrow.
Proof.
  intros Hc Hi Ha. eapply wp_mono; [apply (kcpc_on_session_ok None s i t _ (λ _, True) Hc Hi)|..]; [|by intros _ s' (? & ? & _)|done].
  apply kcpc_act; [done|]. by apply (co_sessions _ _ Hc i t).
Qed.

Lemma kept_lookup s s' i t : kept s s' → sessions s !! i = Some t → ∃ t', sessions s' !! i = Some t'.
Proof. intros (_ & _ & El & _) Hi%lookup_lt_Some. rewrite <-El in Hi. by apply lookup_lt_is_Some_2. Qed.

Lemma call_all_ok i os : ∀ s t, core None s → sessions s !! i = Some t → wp (call_all i os) s (λ _ s', core None s' ∧ kept s s') nothrow.
Proof.
  induction os as [|op os IH]; intros s t Hc Hi; cbn [call_all]; [by apply wp_ret|]. eapply wp_seq; [by apply (kcpc_act_ok s i t)|].
  intros _ s1 [Hc1 Hk1]. destruct (kept_lookup _ _ _ _ Hk1 Hi) as [t1 Hi1]. eapply wp_mono; [by apply (IH s1 t1)|..]; [|done].
  intros _ s2 [? ?]. split; [done|by transitivity s1].
Qed.

Lemma kcpc_handleRead_loop_ok i answers : ∀ s t, core None s → sessions s !! i = Some t →
  wp (handleRead_loop i answers) s (λ _ s', core None s' ∧ kept s s') (λ _ s', core None s' ∧ kept s s').
Proof.
  induction answers as [|[bytes|] answers IH]; intros s t Hc Hi; cbn [handleRead_loop]; [by apply wp_ret| |].
  - apply wp_modify_seq. assert (Hc0 : core None (with_socket answers s)) by (by destruct Hc).
    eapply wp_calm; [by apply (kcpc_act_ok (with_socket answers s) i t)|]. intros _ s1 [Hc1 Hk1]. destruct (kept_lookup _ _ _ _ Hk1 Hi) as [t1 Hi1].
    eapply wp_mono; [by apply (IH s1 t1)|..]; intros ? s2 [? Hk2]; (split; [done|]); exact (transitivity (y := s1) Hk1 Hk2).
  - apply wp_modify_seq. unfold wp, throw. split; [by destruct Hc|done].
Qed.

(** The stop of a session, when the client has already let go of it *)
Lemma stop_session_ok s i t : core (Some i) s → sessions s !! i = Some t → wp (run_functor (FStop i)) s (λ _ s', core None s' ∧ kept s s') nothrow.
Proof.
  intros Hc Hi. cbn [run_functor]. eapply wp_seq; [apply (kcpc_on_session_ok (Some i) s i t _ (λ t', m_state t' = Disconnected) Hc Hi)|].
  { apply kcpc_forceClose. by apply (co_sessions _ _ Hc i t). }
  intros _ s1 (Hc1 & Hk1 & t1 & Hi1 & Hd1). assert (Hc1' : core None s1).
  { destruct Hc1 as [H1 H2 H3 H4 H5 H6]. split; try done. intros j u Hj. destruct (H1 j u Hj) as (? & ? & ? & Hdis). split_and!; try done.
    intros Hm _. destruct (decide (j = i)) as [->|Hne]; [congruence|]. apply Hdis; congruence. }
  eapply wp_mono; [by apply (kcpc_act_ok s1 i t1)|..]; [|done]. intros _ s2 [? ?]. split; [done|by transitivity s1].
Qed.

(** Stopped: no channel, and every session closed *)
Definition stopped s : Prop := m_session (client s) = None ∧ m_channel (client s) = None ∧ m_started (client s) = false.

Lemma remove_ok s : core None s → m_session (client s) = None →
  wp (run_functor FRemoveChannel) s (λ _ s', core None s' ∧ m_session (client s') = None ∧ m_channel (client s') = None) nothrow.
Proof.
  intros Hc Hs. cbn [run_functor]. apply wp_get. destruct (m_channel (client s)) as [ch|] eqn:Ech; [|apply wp_ret; by split_and!].
  apply wp_modify_seq, wp_modify. split_and!; [|done|done]. destruct Hc as [H1 H2 H3 H4 H5 H6]. split; try done.
  - cbn [client with_client with_registered m_session set_channel]. intros i Hi. congruence.
  - cbn. rewrite H5, Ech. cbn. by rewrite decide_False by (by intros ?).
Qed.

Lemma stop_ok s : cinv s → wp (stop true) s (λ _ s', cinv s' ∧ stopped s') nothrow.
Proof.
  intros [Hc Hst]. unfold stop. apply wp_get. destruct (m_started (client s)) eqn:Es; cbn [negb].
  2:{ apply wp_ret. assert (Ech : m_channel (client s) = None) by (destruct (m_channel (client s)); [|done]; destruct Hst as [_ Hst]; by specialize (Hst (mk_is_Some _ _ eq_refl))).
    assert (Ese : m_session (client s) = None).
    { destruct (m_session (client s)) as [i|] eqn:E; [|done]. destruct (co_current _ _ Hc i E) as [_ [? ?]]. congruence. }
    split; [split; [done|by rewrite Es]|by split_and!]. }
  apply wp_modify_seq. set (s1 := with_client (set_session None) s).
  assert (H1 : core (m_session (client s)) s1).
  { destruct Hc as [H1 H2 H3 H4 H5 H6]. split; try done. intros i t Hi. destruct (H1 i t Hi) as (? & ? & ? & Hd). split_and!; try done.
    intros _ Hx. by apply Hd. }
  eapply wp_seq with (P := λ _ s', core None s' ∧ m_session (client s') = None).
  { destruct (m_session (client s)) as [i|] eqn:E; [|by apply wp_ret]. destruct (co_current _ _ Hc i E) as [Hlt _].
    destruct (lookup_lt_is_Some_2 _ _ Hlt) as [t Hi]. cbn [runInLoop]. eapply wp_mono; [by apply (stop_session_ok s1 i t)|..]; [|done].
    intros _ s2 (? & (_ & _ & _ & Hn)). split; [done|by apply Hn]. }
  intros _ s2 [Hc2 Hn2]. apply wp_get. eapply wp_seq with (P := λ _ s', core None s' ∧ m_session (client s') = None ∧ m_channel (client s') = None).
  { destruct (m_channel (client s2)) eqn:Ech; [by apply remove_ok|by apply wp_ret]. }
  intros _ s3 (Hc3 & Hn3 & Hch3). apply wp_modify. split; [|by split_and!]. split; [by destruct Hc3|]. cbn. rewrite Hch3. split; [done|by intros [? ?]].
Qed.

Hypothesis options_ok : ∀ cbs, ∃ t, KcpSession_make true true o cbs t0 sc = Ok t.

(** [connect], up to [connectEstablished] *)
Lemma session_made s s0 t : core None s → m_session (client s) = None → m_channel (client s) = None →
  s0 = mkSys (set_session (Some (length (sessions s))) (set_channel (Some (channels s)) (client s))) (sessions s ++ [t]) (queue s) [channels s] (S (channels s)) [] (closed s) →
  served_new t → wp (on_session (length (sessions s)) connectEstablished) s0
    (λ _ s', core None s' ∧ is_Some (m_channel (client s')) ∧ ∃ t', sessions s' !! length (sessions s) = Some t') nothrow.
Proof.
  intros Hc Hses Hch -> Ht. unfold on_session. apply wp_get. cbn [sessions]. rewrite lookup_app_r, Nat.sub_diag by lia. cbn [lookup list_lookup].
  destruct (wp_inv _ _ _ (served_establish t Ht)) as ([] & t' & Em & Hs' & Hcl). rewrite Em. eapply wp_run_seq; [done|]. rewrite Hcl. cbn [Nat.sub times].
  assert (El : <[length (sessions s) := t']> (sessions s ++ [t]) = sessions s ++ [t']).
  { rewrite insert_app_r_alt, Nat.sub_diag by lia. done. }
  cbn [sessions with_sessions]. unfold with_sessions. cbn [client sessions queue registered channels socket closed]. rewrite El.
  eapply wp_run; [done|]. split; [|split; [by eexists|exists t'; cbn; by rewrite lookup_app_r, Nat.sub_diag by lia]].
  destruct Hc as [H1 H2 H3 H4 H5 H6].
  split; cbn [client sessions queue registered closed m_session m_channel m_options set_session set_channel]; try done.
  - intros i u. rewrite lookup_snoc_Some. intros [[Hlt Hi]|[-> ->]].
    + destruct (H1 i u Hi) as (? & ? & _ & Hd). split_and!; [done|done|intros [= E]; lia|]. intros _ _. apply Hd; congruence.
    + split_and!; [done| |done|done]. rewrite Hcl. unfold reported. cbn [closed]. apply tally_zero, Forall_forall. intros y Hy%H6.
      rewrite decide_False; [done|lia].
  - intros i [= <-]. rewrite length_app. cbn. split; [lia|by eexists].
  - intros y Hy%H6. rewrite length_app. lia.
Qed.

Lemma connect_ok s sock : cinv s → wp (connect t0 sc sock) s (λ _ s', cinv s') (λ _ s', cinv s').
Proof.
  intros [Hc Hst]. unfold connect. apply wp_get. destruct (m_started (client s)) eqn:Es; [apply wp_ret; split; [done|by rewrite Es]|].
  assert (Hch : m_channel (client s) = None) by (destruct (m_channel (client s)); [|done]; destruct Hst as [_ Hst]; by specialize (Hst (mk_is_Some _ _ eq_refl))).
  assert (Hses : m_session (client s) = None).
  { destruct (m_session (client s)) as [i|] eqn:E; [|done]. destruct (co_current _ _ Hc i E) as [_ [? ?]]. congruence. }
  destruct sock; [|split; [done|by rewrite Es]|apply wp_modify_seq; split; [by destruct Hc|cbn; by rewrite Es]].
  apply wp_modify_seq. unfold enable_channel. apply wp_bind, wp_get, wp_modify_seq, wp_modify_seq, wp_modify.
  rewrite (co_options _ _ Hc). destruct (options_ok (mkCallbacks (m_messageCallback (m_callbacks (client s))) (m_writeCompleteCallback (m_callbacks (client s))) true
    (m_errorCallback (m_callbacks (client s))))) as [t Et]. rewrite Et. apply wp_lift_seq, wp_modify_seq, wp_modify_seq.
  assert (Ht : served_new t) by (apply make_ok in Et as (? & ? & Ecb & _); split_and!; [done|done|by rewrite Ecb]).
  eapply wp_calm; [apply (session_made s _ t Hc Hses Hch); [|done]|].
  { unfold with_client, with_sessions, with_channels, with_registered, with_socket. cbn. by rewrite (co_registered _ _ Hc), Hch. }
  intros _ s1 (Hc1 & Hch1 & t1 & Hi1). eapply wp_calm; [by apply (call_all_ok _ _ s1 t1)|]. intros _ s2 (Hc2 & (Ech2 & _)). apply wp_modify.
  split; [by destruct Hc2|]. cbn. rewrite Ech2. done.
Qed.

(** ** Labels *)

(** [stop] is called in the loop. *)
Definition label_ok (y : Label) : bool :=
  match y with LStop here => here | LAct _ a => action_ok a | _ => true end.

Lemma kept_cinv s s' : core None s' → kept s s' → cinv s → cinv s'.
Proof. intros Hc (Ech & Es & _) [_ Hst]. split; [done|]. by rewrite Ech, Es. Qed.

Lemma handleRead_ok s : cinv s → wp handleRead s (λ _ s', cinv s') (λ _ s', cinv s').
Proof.
  intros Hi. pose proof (proj1 Hi) as Hc. unfold handleRead. apply wp_get. destruct (m_session (client s)) as [i|] eqn:Es; [|by apply wp_ret].
  destruct (co_current _ _ Hc i Es) as [Hlt _]. destruct (lookup_lt_is_Some_2 _ _ Hlt) as [t Ht].
  eapply wp_mono; [by apply (kcpc_handleRead_loop_ok i (socket s) s t)|..]; intros ? s' [? ?]; by eapply kept_cinv.
Qed.

Lemma kcpc_run_label_ok y s : label_ok y = true → cinv s →
  wp (run_label t0 sc y) s (λ _ s', cinv s' ∧ (y = LStop true → stopped s')) (λ _ s', cinv s' ∧ y ≠ LStop true).
Proof.
  intros Hy Hi. pose proof Hi as [Hc Hst]. unfold run_label. apply wp_get.
  assert (Hact : ∀ i t a, sessions s !! i = Some t → action_ok a = true → wp (on_session i (act a)) s (λ _ s', cinv s') nothrow).
  { intros i t a Ht Ha. eapply wp_mono; [by apply (kcpc_act_ok s i t)|..]; [|done]. intros _ s' [? ?]. by eapply kept_cinv. }
  destruct y as [edge cn cbs|sock|here|here| |a|ch|i a]; cbn [label_ok] in Hy.
  - apply wp_modify. split; [|done]. split; [by destruct Hc|done].
  - eapply wp_mono; [by apply connect_ok|by intros ? s' ?|by intros ? s' ?].
  - unfold disconnect. apply wp_get. destruct (m_session (client s)) as [i|] eqn:Es; [|by apply wp_ret].
    destruct (co_current _ _ Hc i Es) as [Hlt _]. destruct (lookup_lt_is_Some_2 _ _ Hlt) as [t Ht].
    eapply wp_mono; [apply (Hact i t); [done|by destruct here]|by intros ? s' ?|by intros ? s' ?].
  - subst here. eapply wp_mono; [by apply stop_ok|by intros ? s' [? ?]|done].
  - rewrite (co_queue _ _ Hc). by apply wp_ret.
  - eapply wp_run; [done|]. split; [|done]. split; [by destruct Hc|done].
  - rewrite (co_registered _ _ Hc). case_bool_decide as Hin; [|by apply wp_ret]. assert (Ech : m_channel (client s) = Some ch).
    { destruct (m_channel (client s)) as [ch'|]; cbn in Hin; [apply list_elem_of_singleton in Hin as ->; done|by apply not_elem_of_nil in Hin]. }
    rewrite bool_decide_eq_true_2 by done.
    eapply wp_mono; [by apply handleRead_ok|by intros ? s' ?|by intros ? s' ?].
  - destruct (sessions s !! i) as [t|] eqn:Ht; [|by apply wp_ret]. eapply wp_mono; [by apply (Hact i t)|by intros ? s' ?|by intros ? s' ?].
Qed.

Lemma kcpc_run_labels_ok ys : ∀ s, forallb label_ok ys = true → cinv s →
  ∃ s', run_labels t0 sc ys s = (Ok tt, s') ∧ cinv s' ∧ (last ys = Some (LStop true) → stopped s').
Proof.
  induction ys as [|y ys IH]; intros s Hy Hs; cbn [run_labels]; [by exists s|]. apply andb_true_iff in Hy as [Hy Hys].
  pose proof (kcpc_run_label_ok y s Hy Hs) as Hr. unfold wp in Hr. unfold bind at 1, catching.
  destruct (run_label t0 sc y s) as [[[]|err| |] s1]; try done; destruct Hr as [H1 Hstop].
  - destruct ys as [|y' ys]; [|by apply IH]. exists s1. split_and!; [done|done|]. intros [= ->]. by apply Hstop.
  - destruct ys as [|y' ys]; [|by apply IH]. exists s1. split_and!; [done|done|]. by intros [= ->].
Qed.

End facts.

(** ** Properties *)

(** C25: the client through any run in which the options make a session and [stop] is called in the
    loop.  The poller knows exactly the channel of the client, and there is one as long as the
    client is started.  Every session made so far is the session of the client and has reported
    no close, or is disconnected; the client has seen each close that was reported, none twice;
    after [stop] there is no channel and every session is disconnected, and without [stop] a client
    whose session has closed does not make another: [connect] does nothing and [handleRead] leaves
    the socket unread. *)
Theorem kcp_client_sessions {K} `{KcpLaws K} t0 sc o c ys : KcpClient_make o = Ok c →
  (∀ cbs, ∃ t, KcpSession_make true true o cbs t0 sc = Ok t) → forallb label_ok ys = true →
  ∃ s, run_labels t0 sc ys (launch c) = (Ok tt, s) ∧
    (m_started (client s) = true ↔ is_Some (m_channel (client s))) ∧ registered s = option_list (m_channel (client s)) ∧
    (∀ i t, sessions s !! i = Some t → reported i s = closes (trace t) ∧ (closes (trace t) ≤ 1)%nat ∧
      (if decide (m_session (client s) = Some i) then closes (trace t) = 0%nat else m_state t = Disconnected)) ∧
    (last ys = Some (LStop true) → stopped s) ∧
    (m_started (client s) = true → m_session (client s) = None → ∀ sock, connect t0 sc sock s = (Ok tt, s) ∧ handleRead s = (Ok tt, s)).
Proof.
  intros Hm Ho Hy. unfold KcpClient_make in Hm. destruct (conv o =? 0); [done|]. injection Hm as <-. set (c := mkClient _ _ _ _ _ _ _).
  assert (Hi : cinv o (launch c : Sys K)).
  { split; [|split; [done|by intros [? ?]]]. split; try done. intros y ?%not_elem_of_nil. done. }
  destruct (kcpc_run_labels_ok t0 sc o Ho ys (launch c) Hy Hi) as (s & E & [Hc Hst] & Hstop). exists s.
  split; [exact E|]. split; [exact Hst|]. split; [apply (co_registered _ _ _ Hc)|]. split; [|split; [exact Hstop|]].
  - intros i t Ht. destruct (co_sessions _ _ _ Hc i t Ht) as ((Hinv & _) & Hr & Hcur & Hd). split_and!; [done|by apply inv_closes|].
    destruct (decide (m_session (client s) = Some i)); [by apply Hcur|by apply Hd].
  - intros Hs Hn sock. unfold connect, handleRead. run. by rewrite Hs, Hn.
Qed.

Definition ex_client : KcpClient := mkClient ex_options None false false [] (mkCallbacks false false false false) None.
(** A session that answers, is closed by its user, is stopped, and a second one *)
Definition ex_labels : list Label :=
  [LSetup false [OpSend (lit "hi")] (mkCallbacks true true true true); LConnect ConnectFails; LConnect SockOk; LArrive (Packet (lit "ab")); LEvent 0;
   LAct 0 Timer; LAct 0 (Call OpForceClose); LArrive (Packet (lit "c")); LEvent 0; LStop true; LConnect SockOk; LDisconnect false; LAct 1 RunTask].

Lemma kcp_client_sessions_witness : ∃ s : Sys ToyKcp, run_labels 0 [] ex_labels (launch ex_client) = (Ok tt, s) ∧
  registered s = [1%nat] ∧ closed s = [(0%nat, true); (1%nat, true)] ∧ reported 1 s = 1%nat.
Proof.
  destruct (kcp_client_sessions (K := ToyKcp) 0 [] ex_options ex_client ex_labels) as (s & E & _ & Hr & _ & _ & _);
    [reflexivity|intros cbs; eexists; reflexivity|reflexivity|].
  exists s. assert (Es : s = (run_labels 0 [] ex_labels (launch ex_client)).2) by (rewrite E; reflexivity).
  split; [exact E|]. rewrite Hr, Es. split; [vm_compute; reflexivity|]. split; vm_compute; reflexivity.
Defined.

(** [stop] in another thread only queues the removal of the channel.  When [connect] runs first,
    the channel it replaces is destroyed in the poller, and the removal hits the new one. *)
Theorem stop_then_connect : let s := (run_labels 0 [] [LConnect SockOk; LStop false; LConnect SockOk; LRun; LRun] (launch ex_client : Sys ToyKcp)).2 in
  registered s = [0%nat] ∧ m_channel (client s) = None ∧ m_started (client s) = true ∧ m_session (client s) = Some 1%nat ∧ (run_label 0 [] (LEvent 0) s).1 = Undef.
Proof. vm_compute. by split_and!. Qed.

(** When the constructor of the session throws, the channel stays in the poller and [connect]
    can be called again: the channel it then replaces is destroyed there. *)
Theorem failed_connect_leaves_channel :
  let c := mkClient (mkOptions 7 9 10 128 128 1 20 2 1 0 1000) None false false [] (mkCallbacks false false false false) None in
  let s := (run_labels 0 [] [LConnect SockOk; LConnect SockOk] (launch c : Sys ToyKcp)).2 in
  registered s = [0%nat; 1%nat] ∧ m_channel (client s) = Some 1%nat ∧ m_started (client s) = false.
Proof. vm_compute. by split_and!. Qed.
