(* ===== verification/TreeConfig.v ===== *)
(** * [dbase::config::JsonConfig], [TomlConfig], [XmlConfig] (code/src/config/json_config.cpp, toml_config.cpp, xml_config.cpp)

    The conversions of the trees of nlohmann json, toml++ and pugixml to a [ConfigValue].  The
    trees are inductive types with a constructor for each type of node of the library; the
    parsers, the printing of dates and [strtod] are parameters.  A JSON object and a TOML table
    are association lists in the order the library iterates over them, with distinct keys. *)

From stdpp Require Import base list gmap strings.
From Stdlib Require Import ZArith Lia Ascii.
From S2P Require Import Prelude Error Str ConfigValue Config.

Local Open Scope Z_scope.

Section trees.
Context {D : Type}.
Abbreviation V := (ConfigValue D).

(** [std::unordered_map::emplace] *)
Definition emplace (key : str) (v : V) (o : list (str * V)) : list (str * V) :=
  if bool_decide (key ∈ o.*1) then o else o ++ [(key, v)].

Definition treeParseError (message : str) : Error := mkError ParseError message.

(** The loops over arrays and objects, which stop at the first error *)
Section loops.
Context {A : Type} (convert : A → Result V).

Fixpoint convert_items (l : list A) (arr : list V) : Result V :=
  match l with
  | [] => Value (Array arr)
  | item :: l =>
      match convert item with
      | Err e => Err e
      | Value v => convert_items l (arr ++ [v])
      end
  end.

Fixpoint convert_fields (l : list (str * A)) (obj : list (str * V)) : Result V :=
  match l with
  | [] => Value (Object obj)
  | (key, child) :: l =>
      match convert child with
      | Err e => Err e
      | Value v => convert_fields l (emplace key v obj)
      end
  end.
End loops.

(** The end of the three [parse] functions *)
Definition config_of (root : V) : res (Result (Config D)) :=
  match setRoot root Config_make with
  | (Ok _, config) => Ok (Value config)
  | (Throw e, _) => Throw e
  | (Undef, _) => Undef
  | (NoFuel, _) => NoFuel
  end.

(** ** JSON *)

(** [nlohmann::json::value_t] *)
Inductive Json : Type :=
  | JNull
  | JObject (o : list (str * Json))
  | JArray (a : list Json)
  | JString (s : str)
  | JBoolean (b : bool)
  | JInteger (z : Z)
  | JUnsigned (z : Z)
  | JFloat (d : D)
  | JBinary (bytes : str)
  | JDiscarded.

(** [is_number_integer] holds of unsigned numbers too. *)
Definition is_number_integer (value : Json) : bool :=
  match value with JInteger _ | JUnsigned _ => true | _ => false end.

(** [get<std::int64_t>] converts. *)
Definition get_int64 (value : Json) : Z :=
  match value with JInteger z | JUnsigned z => swrap 64 z | _ => 0 end.

Fixpoint convertJson (value : Json) : Result V :=
  if is_number_integer value then Value (Int (get_int64 value))
  else
    match value with
    | JNull => Value Null
    | JBoolean b => Value (Bool b)
    | JUnsigned z => Value (UInt z)
    | JFloat d => Value (Double d)
    | JString s => Value (String s)
    | JArray a => convert_items convertJson a []
    | JObject o => convert_fields convertJson o []
    | _ => Err (treeParseError (lit "unsupported json value type"))
    end.

(** [Json::parse]: a document or the message of the exception *)
Definition json_parse (Json_parse : str → str + Json) (content : str) : res (Result (Config D)) :=
  match Json_parse content with
  | inl what => Ok (Err (treeParseError what))
  | inr root =>
      match convertJson root with
      | Err e => Ok (Err e)
      | Value v => config_of v
      end
  end.

(** ** TOML *)

(** [toml::node_type]; [X] is the type of dates, times and both. *)
Inductive Toml {X : Type} : Type :=
  | TBoolean (b : bool)
  | TInteger (z : Z)
  | TFloat (d : D)
  | TString (s : str)
  | TTime (x : X)
  | TArray (a : list Toml)
  | TTable (t : list (str * Toml)).
Arguments Toml : clear implicits.

Fixpoint convertToml {X} (formatNode : X → str) (node : Toml X) : Result V :=
  match node with
  | TBoolean b => Value (Bool b)
  | TInteger raw => if 0 <=? raw then Value (UInt (u64 raw)) else Value (Int raw)
  | TFloat d => Value (Double d)
  | TString s => Value (String s)
  | TTime x => Value (String (formatNode x))
  | TArray a => convert_items (convertToml formatNode) a []
  | TTable t => convert_fields (convertToml formatNode) t []
  end.

(** [toml::parse]: the root table or the message of the exception *)
Definition toml_parse {X} (formatNode : X → str) (toml_parse_ : str → str + list (str * Toml X)) (content : str) : res (Result (Config D)) :=
  match toml_parse_ content with
  | inl what => Ok (Err (treeParseError what))
  | inr root =>
      match convertToml formatNode (TTable root) with
      | Err e => Ok (Err e)
      | Value v => config_of v
      end
  end.

(** ** XML *)

(** [pugi::xml_node]; the other types of node have no text. *)
Inductive XmlNode : Type :=
  | Element (name : str) (attributes : list (str * str)) (children : list XmlNode)
  | Pcdata (value : str)
  | Cdata (value : str)
  | OtherNode.

(** [std::isspace] in the C locale *)
Definition isspace (c : ascii) : bool := let z := Z_of_byte c in (z =? 32) || ((9 <=? z) && (z <=? 13)).

Fixpoint skip_space (s : str) : str :=
  match s with
  | c :: s' => if isspace c then skip_space s' else s
  | [] => []
  end.
Definition xml_trim (input : str) : str := rev (skip_space (rev (skip_space input))).

Definition xml_toLower (input : str) : str := lowerAscii <$> input.

Definition xml_tryParseBool (text : str) : option bool :=
  let lowered := xml_toLower (xml_trim text) in
  if bool_decide (lowered = lit "true") || bool_decide (lowered = lit "1") || bool_decide (lowered = lit "yes")
     || bool_decide (lowered = lit "on") then Some true
  else if bool_decide (lowered = lit "false") || bool_decide (lowered = lit "0") || bool_decide (lowered = lit "no")
     || bool_decide (lowered = lit "off") then Some false
  else None.

Definition xml_tryParseInt (text : str) : option Z :=
  let s := xml_trim text in
  match s with
  | [] => None
  | _ => match from_chars INT64_MIN INT64_MAX s with
         | FC_ok v n => if n =? size s then Some v else None
         | _ => None
         end
  end.

Context (strtod : str → D * Z).

Definition xml_tryParseDouble (text : str) : option D :=
  let s := xml_trim text in
  match s with
  | [] => None
  | _ => let '(v, n) := strtod s in if n =? size s then Some v else None
  end.

Definition parseScalar (raw : str) : V :=
  let value := xml_trim raw in
  match value with
  | [] => String []
  | _ =>
      match xml_tryParseBool value with
      | Some b => Bool b
      | None =>
          match xml_tryParseInt value with
          | Some z => if 0 <=? z then UInt (u64 z) else Int z
          | None =>
              match xml_tryParseDouble value with
              | Some d => Double d
              | None => String value
              end
          end
      end
  end.

Definition direct_text (child : XmlNode) : str :=
  match child with Pcdata value | Cdata value => value | _ => [] end.
Definition collectDirectText (children : list XmlNode) : str := xml_trim (mjoin (direct_text <$> children)).

(** [groupedChildren] and [order] *)
Definition group_step (g : gmap str (list V) * list str) (child : str * V) : gmap str (list V) * list str :=
  let '(groupedChildren, order) := g in
  let '(name, v) := child in
  (<[name := default [] (groupedChildren !! name) ++ [v]]> groupedChildren,
   match groupedChildren !! name with None => order ++ [name] | Some _ => order end).

Definition group_value (group : list V) : V :=
  match group with [v] => v | _ => Array group end.

(** The values of the elements among the children are built as they are grouped: building
    has no effects. *)
Fixpoint buildElementValue (node : XmlNode) : V :=
  match node with
  | Element name attributes children =>
      let result := foldl (λ o a, emplace (lit "@" ++ a.1) (parseScalar a.2) o) [] attributes in
      let elements := (fix elements (l : list XmlNode) : list (str * V) :=
        match l with
        | [] => []
        | child :: l =>
            match child with
            | Element name _ _ => (name, buildElementValue child) :: elements l
            | _ => elements l
            end
        end) children in
      let '(groupedChildren, order) := foldl group_step (∅, []) elements in
      let result := foldl (λ o name, emplace name (group_value (default [] (groupedChildren !! name))) o) result order in
      let text := collectDirectText children in
      match result with
      | [] => parseScalar text
      | _ => Object (match text with [] => result | _ => emplace (lit "#text") (String text) result end)
      end
  | _ => parseScalar []
  end.

Definition document_element (doc : list XmlNode) : option (str * XmlNode) :=
  head (omap (λ n, match n with Element name _ _ => Some (name, n) | _ => None end) doc).

(** [load_buffer]: the nodes of the document, or a description and an offset *)
Definition xml_parse (load_buffer : str → (str * Z) + list XmlNode) (content : str) : res (Result (Config D)) :=
  match load_buffer content with
  | inl (description, offset) =>
      Ok (Err (treeParseError (description ++ lit " (offset=" ++ to_string offset ++ lit ")")))
  | inr doc =>
      match document_element doc with
      | None => Ok (Err (treeParseError (lit "xml document has no root element")))
      | Some (name, rootNode) => config_of (Object (emplace name (buildElementValue rootNode) []))
      end
  end.

(** [fromString] and [fromFile] of the three classes *)
Definition from_file {Path : Type} (parse : str → res (Result (Config D))) (readText : Path → Result str) (path : Path)
    : res (Result (Config D)) :=
  match readText path with
  | Err e => Ok (Err e)
  | Value text => parse text
  end.

Definition json_fromString Json_parse content : res (Result (Config D)) := json_parse Json_parse content.
Definition json_fromFile {Path : Type} Json_parse (readText : Path → Result str) path : res (Result (Config D)) :=
  from_file (json_parse Json_parse) readText path.
Definition toml_fromString {X} (formatNode : X → str) toml_parse_ content : res (Result (Config D)) := toml_parse formatNode toml_parse_ content.
Definition toml_fromFile {X} {Path : Type} (formatNode : X → str) toml_parse_ (readText : Path → Result str) path : res (Result (Config D)) :=
  from_file (toml_parse formatNode toml_parse_) readText path.
Definition xml_fromString load_buffer content : res (Result (Config D)) := xml_parse load_buffer content.
Definition xml_fromFile {Path : Type} load_buffer (readText : Path → Result str) path : res (Result (Config D)) :=
  from_file (xml_parse load_buffer) readText path.

End trees.

Arguments Json : clear implicits.
Arguments Toml : clear implicits.

(** ** Objects *)

Section facts.
Context {D : Type}.
Abbreviation V := (ConfigValue D).
Implicit Types (o : list (str * V)) (v : V) (k : str).

Lemma find_emplace k key v o : obj_find k (emplace key v o) =
  match obj_find k o with Some w => Some w | None => if decide (key = k) then Some v else None end.
Proof.
  unfold emplace. case_bool_decide as Hin.
  - destruct (decide (key = k)) as [->|?]; [|by destruct (obj_find k o)]. by destruct (obj_find_Some k o Hin) as [w ->].
  - rewrite obj_find_app. destruct (obj_find k o); [done|]. by rewrite obj_find_cons.
Qed.

Lemma emplace_keys key v o : NoDup o.*1 → NoDup (emplace key v o).*1.
Proof.
  intros Hn. unfold emplace. case_bool_decide as Hin; [done|]. rewrite fmap_app. apply NoDup_app. split_and!; [done| |by apply NoDup_singleton].
  intros k' Hk ->%list_elem_of_singleton. done.
Qed.

Lemma emplace_fresh key v o : key ∉ o.*1 → emplace key v o = o ++ [(key, v)].
Proof. intros Hk. unfold emplace. by rewrite bool_decide_eq_false_2. Qed.

Lemma emplace_nonempty key v o : emplace key v o ≠ [].
Proof. unfold emplace. case_bool_decide as Hin; [|by destruct o]. by destruct o; [apply not_elem_of_nil in Hin|]. Qed.

(** A loop of [emplace]: of equal keys the first counts. *)
Lemma find_emplaces {A} (f : A → str) (g : A → V) k l : ∀ o,
  obj_find k (foldl (λ o x, emplace (f x) (g x) o) o l) =
  match obj_find k o with Some w => Some w | None => obj_find k ((λ x, (f x, g x)) <$> l) end.
Proof.
  induction l as [|x l IH]; intros o; cbn [foldl fmap list_fmap]; [by destruct (obj_find k o)|].
  rewrite IH, find_emplace, obj_find_cons. by destruct (obj_find k o), (decide (f x = k)).
Qed.

Lemma emplaces_keys {A} (f : A → str) (g : A → V) l : ∀ o, NoDup o.*1 → NoDup (foldl (λ o x, emplace (f x) (g x) o) o l).*1.
Proof. induction l as [|x l IH]; intros o Hn; [done|]. by apply IH, emplace_keys. Qed.

Lemma emplaces_nil {A} (f : A → str) (g : A → V) l o : foldl (λ o x, emplace (f x) (g x) o) o l = [] → o = [] ∧ l = [].
Proof.
  revert o. induction l as [|x l IH]; intros o; cbn [foldl]; [done|]. intros [E _]%IH. by apply emplace_nonempty in E.
Qed.

(** With distinct keys a loop of [emplace] keeps everything. *)
Lemma emplaces_all l : ∀ o, NoDup (o.*1 ++ l.*1) → foldl (λ o x, emplace x.1 x.2 o) o l = o ++ l.
Proof.
  induction l as [|[k v] l IH]; intros o Hn; cbn [foldl fst snd]; [by rewrite app_nil_r|].
  rewrite fmap_cons in Hn. cbn [fst] in Hn. rewrite emplace_fresh.
  - rewrite IH; [by rewrite <-app_assoc|]. by rewrite fmap_app, <-app_assoc.
  - intros Hin. apply NoDup_app in Hn as (_ & Hn & _). apply (Hn k Hin). left.
Qed.

(** ** Elements *)

Context (strtod : str → D * Z).

(** The elements among the children that have a name *)
Definition has_name k (n : XmlNode) : bool := match n with Element name _ _ => bool_decide (name = k) | _ => false end.
Definition named k (children : list XmlNode) : list XmlNode := filter (λ n, has_name k n = true) children.

(** The value of the first attribute whose key is [k] *)
Definition attribute k (attributes : list (str * str)) : option str :=
  snd <$> head (filter (λ a, lit "@" ++ a.1 = k) attributes).

(** What a field of an element stands for *)
Definition field (attributes : list (str * str)) (children : list XmlNode) k : option V :=
  match attribute k attributes with
  | Some value => Some (parseScalar strtod value)
  | None =>
      match named k children with
      | [] => if decide (k = lit "#text" ∧ collectDirectText children ≠ []) then Some (String (collectDirectText children)) else None
      | [child] => Some (buildElementValue strtod child)
      | group => Some (Array (buildElementValue strtod <$> group))
      end
  end.

Definition elements (children : list XmlNode) : list (str * V) :=
  omap (λ n, match n with Element name _ _ => Some (name, buildElementValue strtod n) | _ => None end) children.

Lemma build_unfold name attributes children : buildElementValue strtod (Element name attributes children) =
  let result := foldl (λ o a, emplace (lit "@" ++ a.1) (parseScalar strtod a.2) o) [] attributes in
  let '(groupedChildren, order) := foldl group_step (∅, []) (elements children) in
  let result := foldl (λ o name, emplace name (group_value (default [] (groupedChildren !! name))) o) result order in
  let text := collectDirectText children in
  match result with
  | [] => parseScalar strtod text
  | _ => Object (match text with [] => result | _ => emplace (lit "#text") (String text) result end)
  end.
Proof.
  cbn [buildElementValue]. match goal with |- context [foldl group_step (∅, []) ?x] => replace x with (elements children); [done|] end.
  induction children as [|n children IH]; [done|]. destruct n; cbn; by rewrite <-IH.
Qed.

(** The elements with a name, as [elements] has them *)
Lemma named_elements k children : (filter (λ e, e.1 = k) (elements children)).*2 = buildElementValue strtod <$> named k children.
Proof.
  induction children as [|n children IH]; [done|]. unfold elements, named in *. destruct n as [name a c|value|value|]; cbn [omap list_omap]; try exact IH.
  rewrite !filter_cons. cbn [has_name fst].
  destruct (decide (name = k)) as [Hk|Hk]; destruct (decide (bool_decide (name = k) = true)) as [Hb|Hb]; rewrite bool_decide_eq_true in Hb; try done.
  rewrite !fmap_cons. by rewrite IH.
Qed.

(** Grouping: every name with its values in order *)
Definition grouped (l : list (str * V)) (g : gmap str (list V) * list str) : Prop :=
  NoDup g.2 ∧ ∀ k, (k ∈ g.2 ↔ k ∈ l.*1) ∧
    g.1 !! k = match (filter (λ e, e.1 = k) l).*2 with [] => None | vs => Some vs end.

Lemma group_grouped l : grouped l (foldl group_step (∅, []) l).
Proof.
  induction l as [|[name v] l IH] using rev_ind.
  { split; [by apply NoDup_nil|]. intros k. split; [done|]. cbn. apply lookup_empty. }
  rewrite foldl_app. cbn [foldl]. destruct (foldl group_step (∅, []) l) as [g order]. destruct IH as [Hn H].
  unfold group_step. cbn [fst snd] in *.
  assert (Hname : g !! name = None ↔ name ∉ order).
  { destruct (H name) as [Hin ->]. rewrite Hin. destruct ((filter (λ e, e.1 = name) l).*2) as [|w vs] eqn:E; split; try done.
    - intros _ (e & -> & He)%list_elem_of_fmap. apply fmap_nil_inv in E. assert (Hf : e ∈ filter (λ e', e'.1 = e.1) l) by (by apply list_elem_of_filter).
      rewrite E in Hf. by apply not_elem_of_nil in Hf.
    - intros Hx. exfalso. apply Hx. assert (Hw : w ∈ (filter (λ e, e.1 = name) l).*2) by (rewrite E; left).
      apply list_elem_of_fmap in Hw as (e & _ & [<- He]%list_elem_of_filter). by apply list_elem_of_fmap_2. }
  split.
  - destruct (g !! name) as [vs|] eqn:E; [done|]. apply NoDup_app. split_and!; [done| |by apply NoDup_singleton].
    intros x Hx ->%list_elem_of_singleton. by apply Hname.
  - intros k. destruct (H k) as [Hin Hk]. rewrite fmap_app, filter_app, fmap_app, elem_of_app, <-Hin. cbn [fst snd]. split.
    + destruct (g !! name) as [vs|] eqn:E; [|by rewrite elem_of_app].
      split; [by left|]. intros [?|Hx]; [done|]. apply list_elem_of_singleton in Hx as ->. cbn. destruct (decide (name ∈ order)) as [?|Hno]; [done|].
      by apply Hname in Hno.
    + destruct (decide (name = k)) as [->|Hne].
      * rewrite lookup_insert_eq, Hk, filter_cons_True by done. cbn. by destruct ((filter (λ e, e.1 = k) l).*2).
      * rewrite lookup_insert_ne, Hk, filter_cons_False by done. by rewrite filter_nil, app_nil_r.
Qed.

Lemma find_each (f : str → V) k (order : list str) : obj_find k ((λ n, (n, f n)) <$> order) = if decide (k ∈ order) then Some (f k) else None.
Proof.
  induction order as [|n order IH]; [done|]. rewrite fmap_cons, obj_find_cons, IH. destruct (decide (n = k)) as [->|Hne].
  - by rewrite decide_True by left.
  - destruct (decide (k ∈ order)) as [?|?]; [by rewrite decide_True by (by right)|]. rewrite decide_False; [done|]. by intros [->|?]%elem_of_cons.
Qed.

Lemma find_attributes k attributes :
  obj_find k ((λ a, (lit "@" ++ a.1, parseScalar strtod a.2)) <$> attributes) = parseScalar strtod <$> attribute k attributes.
Proof.
  induction attributes as [|a attributes IH]; [done|]. rewrite fmap_cons, obj_find_cons, IH. unfold attribute. rewrite filter_cons.
  by destruct (decide (lit "@" ++ a.1 = k)).
Qed.

Lemma scalar_shape raw : match parseScalar strtod raw with Object _ | Array _ | Null => False | _ => True end.
Proof.
  unfold parseScalar. destruct (xml_trim raw); [done|]. destruct (xml_tryParseBool _); [done|].
  destruct (xml_tryParseInt _) as [z|]; [by destruct (0 <=? z)|]. by destruct (xml_tryParseDouble _).
Qed.

(** The fields built from attributes and elements *)
Lemma find_fields k attributes children g order : grouped (elements children) (g, order) →
  obj_find k (foldl (λ o name, emplace name (group_value (default [] (g !! name))) o)
    (foldl (λ o a, emplace (lit "@" ++ a.1) (parseScalar strtod a.2) o) [] attributes) order) =
  match attribute k attributes with
  | Some value => Some (parseScalar strtod value)
  | None => match named k children with
            | [] => None
            | group => Some (group_value (buildElementValue strtod <$> group))
            end
  end.
Proof.
  intros [_ Hg]. destruct (Hg k) as [Hin Hk]. cbn [fst snd] in *. rewrite named_elements in Hk.
  rewrite (find_emplaces (λ n, n) (λ n, group_value (default [] (g !! n)))), (find_emplaces (λ a, lit "@" ++ a.1) (λ a, parseScalar strtod a.2)).
  cbn [obj_find filter list_filter head fmap option_fmap option_map]. rewrite find_attributes.
  destruct (attribute k attributes) as [value|]; [done|]. cbn. rewrite find_each, Hk.
  assert (Hn : k ∈ order ↔ named k children ≠ []).
  { rewrite Hin. pose proof (named_elements k children) as E. split.
    - intros (e & -> & He)%list_elem_of_fmap Hnil. rewrite Hnil in E. apply fmap_nil_inv in E.
      assert (Hf : e ∈ filter (λ e', e'.1 = e.1) (elements children)) by (by apply list_elem_of_filter). rewrite E in Hf. by apply not_elem_of_nil in Hf.
    - intros Hnil. destruct (filter (λ e, e.1 = k) (elements children)) as [|e l] eqn:Ef.
      + cbn in E. symmetry in E. by apply fmap_nil_inv in E.
      + assert (He : e ∈ filter (λ e, e.1 = k) (elements children)) by (rewrite Ef; left).
        apply list_elem_of_filter in He as [<- He]. by apply list_elem_of_fmap_2. }
  destruct (named k children) as [|c cs]; [rewrite decide_False; [done|by intros ?%Hn]|]. by rewrite decide_True by (by apply Hn).
Qed.

(** What an element becomes *)
Definition element_spec (attributes : list (str * str)) (children : list XmlNode) v : Prop :=
  match v with
  | Object o => NoDup o.*1 ∧ ∀ k, obj_find k o = field attributes children k
  | _ => attributes = [] ∧ (∀ k, named k children = []) ∧ v = parseScalar strtod (collectDirectText children)
  end.

Lemma element_exact name attributes children : element_spec attributes children (buildElementValue strtod (Element name attributes children)).
Proof.
  rewrite build_unfold. pose proof (group_grouped (elements children)) as Hg. destruct (foldl group_step (∅, []) (elements children)) as [g order].
  cbv zeta. pose proof (λ k, find_fields k attributes children g order Hg) as Hf. set (o := foldl _ _ order) in *.
  assert (Hkeys : NoDup o.*1) by (apply (emplaces_keys (λ n, n)), (emplaces_keys (λ a, lit "@" ++ a.1)); constructor).
  assert (Hscalar : o = [] → attributes = [] ∧ ∀ k, named k children = []).
  { intros Ho. split; [by apply emplaces_nil in Ho as [[_ ?]%emplaces_nil _]|]. intros k. specialize (Hf k). rewrite Ho in Hf.
    destruct (attribute k attributes); [done|]. by destruct (named k children). }
  destruct o as [|f o'] eqn:Eo.
  - pose proof (scalar_shape (collectDirectText children)) as Hs. destruct (Hscalar eq_refl) as [? ?]. unfold element_spec.
    by destruct (parseScalar strtod (collectDirectText children)).
  - cbn [element_spec]. clear Hscalar. destruct (collectDirectText children) as [|c text] eqn:Et.
    + split; [done|]. intros k. rewrite Hf. unfold field. rewrite Et. destruct (attribute k attributes); [done|].
      destruct (named k children) as [|? []]; try done. by rewrite decide_False by (by intros [_ ?]).
    + split; [by apply emplace_keys|]. intros k. rewrite find_emplace, Hf. unfold field. rewrite Et. destruct (attribute k attributes); [done|].
      destruct (named k children) as [|? []]; try done. destruct (decide (lit "#text" = k)) as [<-|Hne]; [by rewrite decide_True|].
      rewrite decide_False; [done|]. by intros [? _].
Qed.

End facts.

(** ** Round trips *)

(** The tree the parser makes: an integer without a sign is a [number_unsigned]. *)
Fixpoint to_json {D} (v : ConfigValue D) : Json D :=
  match v with
  | Null => JNull
  | Bool b => JBoolean b
  | Int z => if z <? 0 then JInteger z else JUnsigned z
  | UInt z => JUnsigned z
  | Double d => JFloat d
  | String s => JString s
  | Array a => JArray (to_json <$> a)
  | Object o => JObject ((λ e, (e.1, to_json e.2)) <$> o)
  end.

(** Values a JSON document stands for, with integers of 64 signed bits and distinct keys *)
Fixpoint json_value {D} (v : ConfigValue D) : bool :=
  match v with
  | Int z => (INT64_MIN <=? z) && (z <=? INT64_MAX)
  | UInt _ => false
  | Array a => forallb json_value a
  | Object o => bool_decide (NoDup o.*1) && forallb (λ e, json_value e.2) o
  | _ => true
  end.

Fixpoint to_toml {D X} (v : ConfigValue D) : Toml D X :=
  match v with
  | Null => TArray []
  | Bool b => TBoolean b
  | Int z | UInt z => TInteger z
  | Double d => TFloat d
  | String s => TString s
  | Array a => TArray (to_toml <$> a)
  | Object o => TTable ((λ e, (e.1, to_toml e.2)) <$> o)
  end.

(** Values a TOML document stands for: no null, non-negative integers are unsigned. *)
Fixpoint toml_value {D} (v : ConfigValue D) : bool :=
  match v with
  | Null => false
  | Int z => (INT64_MIN <=? z) && (z <? 0)
  | UInt z => (0 <=? z) && (z <=? INT64_MAX)
  | Array a => forallb toml_value a
  | Object o => bool_decide (NoDup o.*1) && forallb (λ e, toml_value e.2) o
  | _ => true
  end.

Section roundtrip.
Context {D : Type}.
Implicit Types v : ConfigValue D.

Lemma items_all {A} (convert : A → Result (ConfigValue D)) (inject : ConfigValue D → A) l : ∀ arr,
  Forall (λ v, convert (inject v) = Value v) l → convert_items convert (inject <$> l) arr = Value (Array (arr ++ l)).
Proof.
  induction l as [|v l IH]; intros arr; cbn; [by rewrite app_nil_r|]. intros [-> H]%Forall_cons. by rewrite IH, <-app_assoc.
Qed.

Lemma fields_all {A} (convert : A → Result (ConfigValue D)) (inject : ConfigValue D → A) l : ∀ obj,
  Forall (λ e, convert (inject e.2) = Value e.2) l → NoDup (obj.*1 ++ l.*1) →
  convert_fields convert ((λ e, (e.1, inject e.2)) <$> l) obj = Value (Object (obj ++ l)).
Proof.
  induction l as [|[k v] l IH]; intros obj; cbn; [intros; by rewrite (app_nil_r obj)|]. intros [Hc H]%Forall_cons Hn. cbn [snd] in Hc. rewrite Hc.
  rewrite emplace_fresh; [|intros Hin; apply NoDup_app in Hn as (_ & Hn & _); apply (Hn k Hin); left].
  rewrite IH, <-app_assoc; [done|done|]. by rewrite fmap_app, <-app_assoc.
Qed.

Lemma Forall_implied {A} (f : A → bool) (P : A → Prop) l : forallb f l = true → Forall (λ x, f x = true → P x) l → Forall P l.
Proof. rewrite forallb_forall, !Forall_forall. intros Hf H x Hx. apply H; [done|]. by apply Hf, list_elem_of_In. Qed.

Lemma json_roundtrip v : json_value v = true → convertJson (to_json v) = Value v.
Proof.
  induction v as [v Ha Ho|a IH|o IH] using ConfigValue_nested_ind; cbn [json_value].
  - destruct v; try done. cbn [json_value]. intros H. cbn [to_json].
    destruct (z <? 0); cbn [convertJson is_number_integer get_int64]; unfold INT64_MIN, INT64_MAX, swrap in *; do 2 f_equal; rewrite Z.mod_small; lia.
  - intros H. cbn. rewrite items_all; [done|]. by eapply Forall_implied.
  - intros [Hn H]%andb_true_iff. apply bool_decide_eq_true in Hn. cbn. rewrite fields_all; [done| |done]. by eapply (Forall_implied (λ e, json_value e.2)).
Qed.

Lemma toml_roundtrip {X} (formatNode : X → str) v : toml_value v = true → convertToml formatNode (to_toml v) = Value v.
Proof.
  induction v as [v Ha Ho|a IH|o IH] using ConfigValue_nested_ind; cbn [toml_value].
  - destruct v as [| |z|z| | | |]; try done; cbn [toml_value to_toml convertToml]; unfold INT64_MIN, INT64_MAX; intros H.
    + destruct (Z.leb_spec 0 z); [lia|done].
    + destruct (Z.leb_spec 0 z); [|lia]. unfold u64, wrap. rewrite Z.mod_small; [done|lia].
  - intros H. cbn. rewrite items_all; [done|]. by eapply Forall_implied.
  - intros [Hn H]%andb_true_iff. apply bool_decide_eq_true in Hn. cbn. rewrite fields_all; [done| |done]. by eapply (Forall_implied (λ e, toml_value e.2)).
Qed.

End roundtrip.

(** ** Properties *)

Lemma config_of_run {D} (root : ConfigValue D) : config_of root = Ok (Value (mkConfig root true ∅)).
Proof. done. Qed.

(** C39: the documents of the tree formats.  When the parser of JSON or TOML returns the tree of a
    value, the configuration read has exactly that value as its root; the keys of an object are
    distinct and integers lie between INT64_MIN and INT64_MAX, whether JSON has them as signed or
    unsigned numbers (larger ones wrap, [json_unsigned_wraps]), and a TOML tree has no null.  For every XML document
    the root of the configuration holds the document element under its name, and every element
    becomes a scalar when it has neither attributes nor child elements, and otherwise an object
    with distinct keys in which a key stands for the first attribute of that name (after an at
    sign), or the child element of that name, or, when there are several, the array of them in
    document order, or the trimmed text of the element; and nothing else is in it. *)
Theorem tree_configs_exact {D X} (strtod : str → D * Z) (formatNode : X → str) Json_parse toml_parse_ load_buffer content (v : ConfigValue D) :
  (json_value v = true → Json_parse content = inr (to_json v) →
     json_fromString Json_parse content = Ok (Value (mkConfig v true ∅))) ∧
  (∀ root, toml_value v = true → toml_parse_ content = inr root → TTable root = to_toml v →
     toml_fromString formatNode toml_parse_ content = Ok (Value (mkConfig v true ∅))) ∧
  (∀ before name attributes children after, (∀ n, n ∈ before → ∀ name' a c, n ≠ Element name' a c) →
     load_buffer content = inr (before ++ Element name attributes children :: after) →
     xml_fromString strtod load_buffer content =
       Ok (Value (mkConfig (Object [(name, buildElementValue strtod (Element name attributes children))]) true ∅))) ∧
  (∀ name attributes children, element_spec strtod attributes children (buildElementValue strtod (Element name attributes children))).
Proof.
  split_and!.
  - intros Hv Hp. unfold json_fromString, json_parse. by rewrite Hp, json_roundtrip.
  - intros root Hv Hp Er. unfold toml_fromString, toml_parse. by rewrite Hp, Er, toml_roundtrip.
  - intros before name attributes children after Hb Hp. unfold xml_fromString, xml_parse. rewrite Hp.
    assert (E : document_element (before ++ Element name attributes children :: after) = Some (name, Element name attributes children)).
    { unfold document_element. clear Hp. induction before as [|n before IH]; [done|]. rewrite <-app_comm_cons. destruct n as [name' a c| | |]; try (apply IH; set_solver).
      by destruct (Hb (Element name' a c) ltac:(left) name' a c). }
    rewrite E. apply config_of_run.
  - apply element_exact.
Qed.

Definition ex_value : ConfigValue Z := Object [(lit "port", UInt 80); (lit "hosts", Array [String (lit "a"); Int (-1)])].
Definition ex_json_value : ConfigValue Z := Object [(lit "port", Int 80); (lit "hosts", Array [String (lit "a"); Null])].
Definition ex_xml : list XmlNode := [OtherNode; Element (lit "net") [(lit "port", lit " 80 ")]
  [Pcdata (lit " x"); Element (lit "h") [] [Cdata (lit "a")]; Element (lit "h") [] [Pcdata (lit "b ")]; Element (lit "n") [] [Pcdata (lit "-7")]]].
Definition ex_strtod (s : str) : Z * Z := (0, 0).

Lemma tree_configs_exact_witness :
  json_fromString (λ _, inr (to_json ex_json_value)) [] = Ok (Value (mkConfig ex_json_value true ∅)) ∧
  toml_fromString (λ _ : (), []) (λ _, inr [(lit "port", TInteger 80); (lit "hosts", TArray [TString (lit "a"); TInteger (-1)])]) []
    = Ok (Value (mkConfig ex_value true ∅)) ∧
  xml_fromString ex_strtod (λ _, inr ex_xml) [] = Ok (Value (mkConfig (Object [(lit "net",
    Object [(lit "@port", UInt 80); (lit "h", Array [String (lit "a"); String (lit "b")]); (lit "n", Int (-7)); (lit "#text", String (lit "x"))])]) true ∅)).
Proof.
  split; [|split].
  - apply (tree_configs_exact (X := ()) ex_strtod (λ _, []) (λ _, inr (to_json ex_json_value)) (λ _, inl []) (λ _, inl ([], 0)) [] ex_json_value); reflexivity.
  - eapply (tree_configs_exact (X := ()) ex_strtod (λ _, []) (λ _, inl []) (λ _, inr _) (λ _, inl ([], 0)) [] ex_value); reflexivity.
  - destruct (tree_configs_exact (X := ()) ex_strtod (λ _, []) (λ _, inl []) (λ _, inl []) (λ _, inr ex_xml) [] ex_value) as (_ & _ & Hx & _).
    rewrite (Hx [OtherNode] (lit "net") [(lit "port", lit " 80 ")]
      [Pcdata (lit " x"); Element (lit "h") [] [Cdata (lit "a")]; Element (lit "h") [] [Pcdata (lit "b ")]; Element (lit "n") [] [Pcdata (lit "-7")]] []).
    + vm_compute. reflexivity.
    + intros n ->%list_elem_of_singleton. done.
    + reflexivity.
Defined.

(** [is_number_integer] is true of unsigned numbers as well, so the branch for them is never
    taken and a number of 2^63 or more is read as a negative one. *)
Theorem json_unsigned_wraps : convertJson (JUnsigned (2 ^ 64 - 1) : Json Z) = Value (Int (-1)).
Proof. reflexivity. Qed.

(** In XML, unlike in an ini file, the texts 0 and 1 are booleans: they cannot be read as integers. *)
Theorem xml_zero_not_integer : (λ s, tryGetInt (parseScalar ex_strtod (lit s))) <$> ["0"; "1"; "2"]%string =
  [Ok (Err (makeTypeError (lit "int64") (lit "bool"))); Ok (Err (makeTypeError (lit "int64") (lit "bool"))); Ok (Value 2)].
Proof. vm_compute. reflexivity. Qed.
