(* ===== verification/Coro.v ===== *)
(** * [dbase::coro::CoroutineScheduler] and [Task] (code/src/coro/coroutine_scheduler.cpp, coroutine_scheduler.h, task.h)

    A coroutine is what it does when it runs, as a value of type [Code]: a finite program, so
    that one that schedules itself for ever is not among them; [Mark] is an effect of the user.  The frames of a coroutine are a stack, the awaited one first: a task is awaited
    as a temporary, so its frame is destroyed when the awaiting coroutine goes on.  A
    handle is the depth of its frame, 0 for the root; using the handle of a destroyed frame is
    undefined.  Results of [Task<T>] are not modelled.  Coroutines call [Spawn] and [Schedule];
    [Resume], [Restart] and [Destroy] are calls of the owner of the scheduler.  [e_code] and
    [e_log] are history: what the coroutine was made from and what it has done. *)

From stdpp Require Import base list gmap.
From Stdlib Require Import ZArith Lia.
From S2P Require Import Prelude.

Local Open Scope Z_scope.

Inductive Code : Type :=
  | Return
  | Raise                              (* an exception leaves the coroutine *)
  | Yield (k : Code)                   (* co_await sched.Yield() *)
  | Await (child k : Code)             (* co_await child() *)
  | DoSpawn (task k : Code)            (* sched.Schedule(sched.Spawn(task())) *)
  | DoSchedule (id : Z) (k : Code)
  | ScheduleSelf (k : Code)
  | Mark (n : Z) (k : Code).

Record Entry : Type := mkEntry {
  root : option (list Code);   (* [Some []]: at its final suspension point *)
  current : option nat;
  e_code : Code;
  e_log : list Z;
}.

Record Sched : Type := mkSched {
  coros_ : gmap Z Entry;
  next_id_ : Z;
  ready_ : list Z;
  tls_in_coro_ : bool;
  tls_sched_ : bool;           (* [tls_sched_ == this] *)
  tls_id_ : Z;
}.

Definition Sched_make : Sched := mkSched ∅ 1 [] false false 0.

Definition set_coros m s := mkSched m (next_id_ s) (ready_ s) (tls_in_coro_ s) (tls_sched_ s) (tls_id_ s).
Definition set_next n s := mkSched (coros_ s) n (ready_ s) (tls_in_coro_ s) (tls_sched_ s) (tls_id_ s).
Definition set_ready r s := mkSched (coros_ s) (next_id_ s) r (tls_in_coro_ s) (tls_sched_ s) (tls_id_ s).
Definition set_tls i d id s := mkSched (coros_ s) (next_id_ s) (ready_ s) i d id.

Definition set_root r e := mkEntry r (current e) (e_code e) (e_log e).
Definition set_current h e := mkEntry (root e) h (e_code e) (e_log e).
Definition note_mark n e := mkEntry (root e) (current e) (e_code e) (e_log e ++ [n]).

Definition GetEntry (id : Z) (s : Sched) : option Entry := coros_ s !! id.
Definition on_entry (id : Z) (f : Entry → Entry) : M Sched () := modify (λ s, set_coros (alter f id (coros_ s)) s).

Definition AllocId : M Sched Z :=
  let! s := get in
  modify (set_next (u64 (next_id_ s + 1)));;;
  ret (next_id_ s).

(** [task.release()], [None] for an empty task *)
Definition Create (task : option Code) : M Sched (Z * option Z) :=
  match task with
  | None => ret (-1, None)
  | Some c =>
      let! id := AllocId in
      modify (λ s, match GetEntry id s with
                   | Some _ => s
                   | None => set_coros (<[id := mkEntry (Some [c]) (Some 0%nat) c []]> (coros_ s)) s
                   end);;;
      ret (0, Some id)
  end.

Definition Spawn (task : option Code) : M Sched Z :=
  let! r := Create task in
  if negb (r.1 =? 0) then ret 0 else ret (default 0 r.2).

Definition UpdateCurrent (h : nat) : M Sched () :=
  let! s := get in
  if negb (tls_sched_ s) || (tls_id_ s =? 0) then ret tt
  else on_entry (tls_id_ s) (set_current (Some h)).

Definition Schedule (id : Z) : M Sched () :=
  if id =? 0 then ret tt
  else
    let! s := get in
    match GetEntry id s with
    | None => ret tt
    | Some e => match current e with
                | None => ret tt
                | Some _ => modify (set_ready (ready_ s ++ [id]))
                end
    end.

(** ** Running *)

(** How a coroutine stops running: at its end, by an exception, or suspended with its frames *)
Inductive Stop : Type := Done | Raised | Suspended (frames : list Code).

(** The code of a frame at depth [d] of coroutine [id].  An awaited task starts at once; when it
    ends, its caller goes on, and an exception of it is thrown again in the caller. *)
Fixpoint exec (id : Z) (d : nat) (c : Code) : M Sched Stop :=
  match c with
  | Return => ret Done
  | Raise => ret Raised
  | Yield k => UpdateCurrent d;;; ret (Suspended [k])
  | Await child k =>
      let! r := exec id (S d) child in
      match r with
      | Done => exec id d k
      | Raised => ret Raised
      | Suspended frames => ret (Suspended (frames ++ [k]))
      end
  | DoSpawn task k =>
      let! i := Spawn (Some task) in
      Schedule i;;;
      exec id d k
  | DoSchedule i k => Schedule i;;; exec id d k
  | ScheduleSelf k => Schedule id;;; exec id d k
  | Mark n k => on_entry id (note_mark n);;; exec id d k
  end.

(** The innermost frame goes on, then the ones that wait for it. *)
Fixpoint resume_frames (id : Z) (frames : list Code) : M Sched Stop :=
  match frames with
  | [] => ret Done
  | c :: rest =>
      let! r := exec id (length rest) c in
      match r with
      | Done => resume_frames id rest
      | Raised => ret Raised
      | Suspended frames => ret (Suspended (frames ++ rest))
      end
  end.

(** [h.done()] *)
Definition handle_done (frames : list Code) (h : nat) : res bool :=
  match frames with
  | [] => if bool_decide (h = 0%nat) then Ok true else Undef
  | _ => if bool_decide (h < length frames)%nat then Ok false else Undef
  end.

Definition frames_of (e : Entry) : res (list Code) := match root e with Some frames => Ok frames | None => Undef end.

Definition resume_handle (id : Z) (frames : list Code) (h : nat) : M Sched () :=
  if negb (bool_decide (S h = length frames)) then undef     (* only the innermost frame is suspended at a yield *)
  else
    let! r := resume_frames id frames in
    on_entry id (set_root (Some (match r with Suspended frames => frames | _ => [] end))).

Definition Resume (id : Z) : M Sched Z :=
  let! s := get in
  match GetEntry id s with
  | None => ret (-1)
  | Some e =>
      match current e with
      | None => ret (-1)
      | Some h =>
          modify (set_tls true true id);;;
          let! frames := lift (frames_of e) in
          let! finished := lift (handle_done frames h) in
          (if finished : bool then ret tt else resume_handle id frames h);;;
          let! s' := get in
          (match GetEntry id s' with
           | None => undef
           | Some e' =>
               match current e' with
               | None => ret tt
               | Some h' =>
                   let! frames := lift (frames_of e') in
                   let! finished := lift (handle_done frames h') in
                   if finished : bool then on_entry id (set_current None) else ret tt
               end
           end);;;
          modify (set_tls (tls_in_coro_ s) (tls_sched_ s) (tls_id_ s));;;
          ret 0
      end
  end.

Definition Restart (id : Z) (task : option Code) : M Sched Z :=
  let! s := get in
  match GetEntry id s with
  | None => ret (-1)
  | Some _ =>
      on_entry id (λ e, set_current None (set_root None e));;;
      match task with
      | None => ret (-2)
      | Some c => on_entry id (λ _, mkEntry (Some [c]) (Some 0%nat) c []);;; ret 0
      end
  end.

Definition Destroy (id : Z) : M Sched Z :=
  let! s := get in
  match GetEntry id s with
  | None => ret (-1)
  | Some _ => modify (set_coros (delete id (coros_ s)));;; ret 0
  end.

Definition IsInCoroutine (s : Sched) : bool := tls_in_coro_ s && tls_sched_ s.

Fixpoint RunOnce_loop (ready : list Z) : M Sched Z :=
  match ready with
  | [] => ret 0
  | id :: ready =>
      modify (set_ready ready);;;
      let! s := get in
      match GetEntry id s with
      | Some e =>
          match current e with
          | Some _ => let! _ := Resume id in ret 1
          | None => RunOnce_loop ready
          end
      | None => RunOnce_loop ready
      end
  end.
Definition RunOnce : M Sched Z := let! s := get in RunOnce_loop (ready_ s).

Fixpoint RunAll_loop (fuel : nat) (n : Z) : M Sched Z :=
  match fuel with
  | O => lift NoFuel
  | S fuel =>
      let! r := RunOnce in
      if 0 <? r then if n =? 2 ^ 31 - 1 then undef else RunAll_loop fuel (n + 1)
      else ret n
  end.

(** What is left to do: an upper bound of the rounds of [RunAll] *)
Fixpoint work (c : Code) : nat :=
  match c with
  | Return | Raise => 1
  | Yield k | DoSchedule _ k | ScheduleSelf k | Mark _ k => S (work k)
  | Await child k => work child + work k
  | DoSpawn task k => S (S (work task + work k))
  end.
Definition frames_work (frames : list Code) : nat := sum_list_with work frames.
Definition entry_work (e : Entry) : nat := match root e with Some frames => frames_work frames | None => 0 end.
Definition total (m : gmap Z Entry) : nat := map_fold (λ _ e n, entry_work e + n)%nat 0%nat m.

Definition RunAll : M Sched Z := let! s := get in RunAll_loop (S (total (coros_ s))) 0.

(** ** Runs *)

Inductive Call : Type :=
  | CSpawn (task : Code)
  | CSchedule (id : Z)
  | CResume (id : Z)
  | CRestart (id : Z) (task : option Code)
  | CDestroy (id : Z)
  | CRunOnce
  | CRunAll.

Definition call (x : Call) : M Sched Z :=
  match x with
  | CSpawn c => Spawn (Some c)
  | CSchedule id => Schedule id;;; ret 0
  | CResume id => Resume id
  | CRestart id task => Restart id task
  | CDestroy id => Destroy id
  | CRunOnce => RunOnce
  | CRunAll => RunAll
  end.

Fixpoint calls (xs : list Call) : M Sched () :=
  match xs with [] => ret tt | x :: xs => call x;;; calls xs end.

(** ** What a coroutine does *)

(** Whether it ends with an exception *)
Fixpoint raises (c : Code) : bool :=
  match c with
  | Return => false
  | Raise => true
  | Await child k => raises child || raises k
  | Yield k | DoSpawn _ k | DoSchedule _ k | ScheduleSelf k | Mark _ k => raises k
  end.

(** The depth of the last frame it is suspended in *)
Fixpoint last_yield (c : Code) : option nat :=
  match c with
  | Return | Raise => None
  | Yield k => match last_yield k with Some d => Some d | None => Some 0%nat end
  | Await child k =>
      match (if raises child then None else last_yield k) with Some d => Some d | None => S <$> last_yield child end
  | DoSpawn _ k | DoSchedule _ k | ScheduleSelf k | Mark _ k => last_yield k
  end.

Fixpoint marks (c : Code) : list Z :=
  match c with
  | Return | Raise => []
  | Mark n k => n :: marks k
  | Await child k => marks child ++ if raises child then [] else marks k
  | Yield k | DoSpawn _ k | DoSchedule _ k | ScheduleSelf k => marks k
  end.

(** The last suspension is in the root: its handle is the one that is left in [current] at the end. *)
Definition ends_in_root (c : Code) : bool := match last_yield c with Some (S _) => false | _ => true end.

(** The same of every coroutine it spawns *)
Fixpoint spawns_safe (c : Code) : bool :=
  match c with
  | Return | Raise => true
  | DoSpawn task k => ends_in_root task && spawns_safe task && spawns_safe k
  | Await child k => spawns_safe child && spawns_safe k
  | Yield k | DoSchedule _ k | ScheduleSelf k | Mark _ k => spawns_safe k
  end.
Definition safe (c : Code) : bool := ends_in_root c && spawns_safe c.

(** Frames: the first goes on, and unless it ends with an exception the others follow. *)
Fixpoint frames_raise (frames : list Code) : bool :=
  match frames with [] => false | c :: rest => raises c || frames_raise rest end.
Fixpoint frames_marks (frames : list Code) : list Z :=
  match frames with [] => [] | c :: rest => marks c ++ if raises c then [] else frames_marks rest end.
Fixpoint frames_last (frames : list Code) : option nat :=
  match frames with
  | [] => None
  | c :: rest =>
      match (if raises c then None else frames_last rest) with
      | Some d => Some d
      | None => (λ d, d + length rest)%nat <$> last_yield c
      end
  end.

(** The frame suspended last, when the frames are those of a suspended coroutine *)
Definition last_frame (frames : list Code) : nat := default (length frames - 1)%nat (frames_last frames).

Lemma frames_raise_app l l' : frames_raise (l ++ l') = frames_raise l || frames_raise l'.
Proof. induction l as [|c l IH]; cbn; [done|]. by rewrite IH, orb_assoc. Qed.

Lemma frames_marks_app l l' : frames_marks (l ++ l') = frames_marks l ++ if frames_raise l then [] else frames_marks l'.
Proof.
  induction l as [|c l IH]; cbn; [done|]. rewrite IH. destruct (raises c); cbn; [by rewrite !app_nil_r|]. by rewrite app_assoc.
Qed.

Lemma frames_last_app l l' : frames_last (l ++ l') =
  match (if frames_raise l then None else frames_last l') with Some d => Some d | None => (λ d, d + length l')%nat <$> frames_last l end.
Proof.
  induction l as [|c l IH]; cbn [app frames_last frames_raise]; [by destruct (frames_last l')|].
  rewrite IH, length_app. destruct (raises c); cbn [orb].
  - destruct (last_yield c); cbn; [f_equal; lia|done].
  - destruct (if frames_raise l then None else frames_last l'); [done|]. destruct (frames_last l); [done|].
    destruct (last_yield c); cbn; [f_equal; lia|done].
Qed.

Lemma frames_one k : frames_raise [k] = raises k ∧ frames_marks [k] = marks k ∧ frames_last [k] = last_yield k ∧ frames_work [k] = work k.
Proof.
  unfold frames_work. cbn. split_and!; [by destruct (raises k)|by destruct (raises k); rewrite app_nil_r| |lia].
  destruct (raises k), (last_yield k); cbn; by rewrite ?Nat.add_0_r.
Qed.

Lemma frames_work_app l l' : frames_work (l ++ l') = (frames_work l + frames_work l')%nat.
Proof. apply sum_list_with_app. Qed.

Lemma work_pos c : (0 < work c)%nat.
Proof. induction c; cbn; lia. Qed.

(** ** Entries *)

Record entry_ok (e : Entry) : Prop := {
  eo_handle : match root e with
              | None => current e = None
              | Some [] => current e = None
              | Some frames => current e = Some (length frames - 1)%nat
              end;
  eo_last : ∀ frames, root e = Some frames → last_frame frames = 0%nat;
  eo_safe : ∀ frames, root e = Some frames → forallb spawns_safe frames = true;
  eo_marks : ∀ frames, root e = Some frames → e_log e ++ frames_marks frames = marks (e_code e);
}.

(** Entry [id] is being run. *)
Definition map_ok (id : Z) (s : Sched) : Prop :=
  ∀ i e, coros_ s !! i = Some e → 0 < i < next_id_ s ∧ (i ≠ id → entry_ok e).

Definition bound (s : Sched) : Z := next_id_ s + Z.of_nat (total (coros_ s)).

Lemma total_insert m i e : m !! i = None → total (<[i := e]> m) = (entry_work e + total m)%nat.
Proof. intros Hi. unfold total. rewrite map_fold_insert_L; [done| |done]. intros; lia. Qed.

Lemma total_delete m i e : m !! i = Some e → total m = (entry_work e + total (delete i m))%nat.
Proof. intros Hi. unfold total. rewrite (map_fold_delete_L _ _ i e); [done| |done]. intros; lia. Qed.

Lemma total_alter m i e f : m !! i = Some e → (total (alter f i m) + entry_work e = total m + entry_work (f e))%nat.
Proof.
  intros Hi. rewrite (total_delete m i e Hi), (total_delete (alter f i m) i (f e)) by (by rewrite lookup_alter_eq, Hi).
  rewrite delete_alter_eq. lia.
Qed.

Lemma last_frame_app l l' : l ≠ [] → last_frame (l ++ l') =
  match (if frames_raise l then None else frames_last l') with Some d => d | None => (last_frame l + length l')%nat end.
Proof.
  intros Hl. unfold last_frame. rewrite frames_last_app. destruct (if frames_raise l then None else frames_last l'); [done|].
  destruct (frames_last l); cbn; [done|]. rewrite length_app. destruct l; [done|]. cbn. lia.
Qed.

(** ** One coroutine runs *)

Record kept (id : Z) (s s' : Sched) (e e' : Entry) : Prop := {
  k_in : coros_ s' !! id = Some e';
  k_root : root e' = root e;
  k_code : e_code e' = e_code e;
  k_tls : tls_sched_ s' = tls_sched_ s ∧ tls_id_ s' = tls_id_ s;
  k_next : next_id_ s ≤ next_id_ s';
  k_map : map_ok id s';
}.

Lemma kept_trans id s1 s2 s3 e1 e2 e3 : kept id s1 s2 e1 e2 → kept id s2 s3 e2 e3 → kept id s1 s3 e1 e3.
Proof. intros [? ? ? [? ?] ? ?] [? ? ? [? ?] ? ?]. split; try congruence; try lia; try done. split; congruence. Qed.

Lemma Schedule_ok i s : wp (Schedule i) s (λ _ s', ∃ r, s' = set_ready r s) nothrow.
Proof.
  assert (Hs : ∃ r, s = set_ready r s) by (exists (ready_ s); by destruct s).
  unfold Schedule. destruct (i =? 0); [by apply wp_ret|]. apply wp_get. destruct (GetEntry i s) as [e|]; [|by apply wp_ret].
  destruct (current e); [|by apply wp_ret]. apply wp_modify. by eexists.
Qed.

Definition fresh_entry (c : Code) : Entry := mkEntry (Some [c]) (Some 0%nat) c [].

Lemma fresh_ok c : safe c = true → entry_ok (fresh_entry c).
Proof.
  intros [Hr Hs]%andb_true_iff. destruct (frames_one c) as (_ & Em & El & _). split; cbn [root current e_code e_log fresh_entry]; [done|..];
    intros frames [= <-].
  - unfold last_frame, ends_in_root in *. rewrite El. destruct (last_yield c) as [[|]|]; done.
  - cbn. by rewrite Hs.
  - by rewrite Em.
Qed.

Definition spawned (c : Code) (s : Sched) : Sched :=
  set_coros (<[next_id_ s := fresh_entry c]> (coros_ s)) (set_next (next_id_ s + 1) s).

Lemma map_ok_fresh id s : map_ok id s → coros_ s !! next_id_ s = None.
Proof. intros Hm. destruct (coros_ s !! next_id_ s) as [e|] eqn:E; [|done]. apply Hm in E as [? _]. lia. Qed.

Lemma Spawn_run id c s : map_ok id s → 0 < next_id_ s < 2 ^ 64 - 1 → Spawn (Some c) s = (Ok (next_id_ s), spawned c s).
Proof.
  intros Hm Hn. unfold Spawn, Create, AllocId. run. unfold bind, modify, ret, get, GetEntry, set_next. cbv beta iota zeta. cbn [coros_].
  rewrite (map_ok_fresh id s Hm). unfold u64, wrap. rewrite Z.mod_small by lia. done.
Qed.

Lemma spawned_bound id c s : map_ok id s → bound (spawned c s) = bound s + 1 + Z.of_nat (work c).
Proof.
  intros Hm. unfold bound, spawned. cbn [coros_ next_id_ set_coros set_next]. rewrite total_insert by (by eapply map_ok_fresh).
  destruct (frames_one c) as (_ & _ & _ & Ew). unfold entry_work. cbn [root fresh_entry]. rewrite Ew. lia.
Qed.

Lemma spawned_map id c s : safe c = true → map_ok id s → 0 < next_id_ s → map_ok id (spawned c s).
Proof.
  intros Hc Hm Hn i e. unfold spawned. cbn [coros_ next_id_ set_coros set_next]. destruct (decide (i = next_id_ s)) as [->|Hne].
  - rewrite lookup_insert_eq. intros [= <-]. split; [lia|]. intros _. by apply fresh_ok.
  - rewrite lookup_insert_ne by done. intros [? ?]%Hm. split; [lia|done].
Qed.

(** How far the code got *)
Definition stop_marks (r : Stop) : list Z := match r with Suspended frames => frames_marks frames | _ => [] end.
Definition stop_work (r : Stop) : nat := match r with Suspended frames => frames_work frames | _ => 0%nat end.
Definition stop_current (d : nat) (e : Entry) (r : Stop) : option nat :=
  match r with Suspended frames => Some (d + length frames - 1)%nat | _ => current e end.
Definition stop_ok (c : Code) (r : Stop) : Prop :=
  match r with
  | Done => last_yield c = None ∧ raises c = false
  | Raised => last_yield c = None ∧ raises c = true
  | Suspended frames => frames ≠ [] ∧ frames_raise frames = raises c ∧ last_yield c = Some (last_frame frames) ∧
      forallb spawns_safe frames = true
  end.

Record ran (id : Z) (d : nat) (todo : nat) (does : list Z) (s s' : Sched) (e : Entry) (r : Stop) : Prop := {
  rn_entry : ∃ e', kept id s s' e e' ∧ current e' = stop_current d e r ∧ e_log e' ++ stop_marks r = e_log e ++ does;
  rn_bound : bound s' + Z.of_nat (stop_work r) < bound s + Z.of_nat todo;
}.

(** The coroutine is run by [Resume]. *)
Record running (id : Z) (s : Sched) (e : Entry) : Prop := {
  ru_tls : tls_sched_ s = true ∧ tls_id_ s = id ∧ id ≠ 0;
  ru_in : coros_ s !! id = Some e;
  ru_map : map_ok id s;
}.

Lemma running_kept id s s' e e' : running id s e → kept id s s' e e' → running id s' e'.
Proof. intros [(? & ? & ?) ? ?] [? ? ? [? ?] ? ?]. split; [|done|done]. split_and!; congruence. Qed.

Lemma ready_kept id s e r : running id s e → kept id s (set_ready r s) e e.
Proof. by intros [? ? ?]. Qed.

(** Changes of the entry itself *)
Lemma own_kept id s e f : running id s e → root (f e) = root e → e_code (f e) = e_code e →
  kept id s (set_coros (alter f id (coros_ s)) s) e (f e) ∧ bound (set_coros (alter f id (coros_ s)) s) = bound s.
Proof.
  intros [? Hin Hm] Hr Hc. split.
  - split; cbn [coros_ next_id_ tls_sched_ tls_id_ set_coros]; try done; [by rewrite lookup_alter_eq, Hin|].
    intros i e0. destruct (decide (i = id)) as [->|Hne]; cbn [coros_ next_id_ set_coros].
    + rewrite lookup_alter_eq, Hin. intros [= <-]. by destruct (Hm id e Hin).
    + rewrite lookup_alter_ne by done. apply Hm.
  - unfold bound. cbn [coros_ next_id_ set_coros]. pose proof (total_alter (coros_ s) id e f Hin) as Ht.
    assert (entry_work (f e) = entry_work e) by (unfold entry_work; by rewrite Hr). lia.
Qed.

Lemma spawned_kept id c s e : safe c = true → running id s e → kept id s (spawned c s) e e.
Proof.
  intros Hc [? Hin Hm]. destruct (Hm id e Hin) as [Hid _]. split; cbn [coros_ next_id_ tls_sched_ tls_id_ set_coros set_next spawned]; try done.
  - rewrite lookup_insert_ne by lia. done.
  - lia.
  - apply spawned_map; [done|done|lia].
Qed.

Lemma UpdateCurrent_run id s e d : running id s e → UpdateCurrent d s = (Ok tt, set_coros (alter (set_current (Some d)) id (coros_ s)) s).
Proof.
  intros [(Ht & Hi & Hn) ? ?]. unfold UpdateCurrent. run. rewrite Ht, Hi. cbn [negb orb]. destruct (Z.eqb_spec id 0); done.
Qed.

(** Running the rest of some code after a step *)
Lemma ran_step id d w w' does pre s s1 s' e e1 r : kept id s s1 e e1 → current e1 = current e → e_log e1 = e_log e ++ pre →
  bound s1 + Z.of_nat w ≤ bound s + Z.of_nat w' →
  ran id d w does s1 s' e1 r → ran id d w' (pre ++ does) s s' e r.
Proof.
  intros Hk Hc Hl Hb [(e' & Hk' & Hc' & Hm') Hb']. split; [|lia]. exists e'. split_and!; [by eapply kept_trans| |].
  - rewrite Hc'. unfold stop_current. destruct r; by rewrite ?Hc.
  - by rewrite Hm', Hl, app_assoc.
Qed.

Definition exec_spec (id : Z) (d : nat) (c : Code) (s : Sched) (e : Entry) : Prop :=
  wp (exec id d c) s (λ r s', stop_ok c r ∧ ran id d (work c) (marks c) s s' e r) nothrow.

Definition exec_fine (id : Z) (c : Code) : Prop :=
  ∀ d s e, running id s e → spawns_safe c = true → bound s + Z.of_nat (work c) < 2 ^ 64 - 1 → exec_spec id d c s e.

Lemma ran_nothing id d s e r : running id s e → r = Done ∨ r = Raised → ran id d 1 [] s s e r.
Proof. intros [? ? ?] [->| ->]; (split; [|cbn; lia]); exists e; (split_and!; [done|done|done]). Qed.

Lemma yield_ok id k : exec_fine id (Yield k).
Proof.
  intros d s e Hr Hs Hb. unfold exec_spec. cbn [exec work marks]. eapply wp_run_seq; [by eapply UpdateCurrent_run|]. apply wp_ret.
  destruct (own_kept id s e (set_current (Some d)) Hr eq_refl eq_refl) as [Hk Eb]. destruct (frames_one k) as (Er & Em & El & Ew). split.
  - cbn [stop_ok last_yield raises]. split_and!; [done|by rewrite Er| |cbn in Hs |- *; by rewrite Hs]. unfold last_frame. rewrite El. by destruct (last_yield k).
  - split; [|rewrite Eb; cbn [stop_work]; rewrite Ew; lia]. eexists. split_and!; [done|cbn; f_equal; lia|]. cbn [stop_marks set_current e_log]. by rewrite Em.
Qed.

(** What an awaited task makes of its caller *)
Lemma await_suspended id d child k s s1 e frames : spawns_safe k = true → stop_ok child (Suspended frames) →
  ran id (S d) (work child) (marks child) s s1 e (Suspended frames) →
  stop_ok (Await child k) (Suspended (frames ++ [k])) ∧ ran id d (work (Await child k)) (marks (Await child k)) s s1 e (Suspended (frames ++ [k])).
Proof.
  intros Hsk (Hne & Er & El & Hsf) [(e1 & Hk1 & Hc1 & Hm1) Hb1]. cbn [stop_current stop_marks stop_work] in *.
  destruct (frames_one k) as (Er1 & Em1 & El1 & Ew1). split.
  - cbn [stop_ok last_yield raises]. split_and!; [by destruct frames|by rewrite frames_raise_app, Er, Er1| |rewrite forallb_app, Hsf; cbn; by rewrite Hsk].
    rewrite last_frame_app by done. rewrite El1, Er, El. cbn [fmap option_fmap option_map length]. rewrite Nat.add_1_r.
    by destruct (if raises child then None else last_yield k).
  - split; [|cbn [stop_work work]; rewrite frames_work_app, Ew1; lia]. exists e1. split_and!; [done| |].
    + cbn [stop_current]. rewrite Hc1, length_app. cbn. f_equal. lia.
    + cbn [stop_marks marks]. rewrite frames_marks_app, Er, app_assoc, Hm1, <-app_assoc, Em1. by destruct (raises child).
Qed.

Lemma await_ok id child k : exec_fine id child → exec_fine id k → exec_fine id (Await child k).
Proof.
  intros IHc IH d s e Hr [Hsc Hsk]%andb_true_iff Hb. unfold exec_spec. cbn [exec]. pose proof (work_pos k).
  eapply wp_seq; [apply (IHc (S d) s e Hr Hsc); cbn [work] in Hb; lia|]. intros [| |frames] s1 (Hok & Hrn).
  - destruct Hok as [El Er], Hrn as [(e1 & Hk1 & Hc1 & Hm1) Hb1]. cbn in Hc1, Hm1, Hb1. rewrite app_nil_r in Hm1. cbn [work] in Hb.
    eapply wp_mono; [apply (IH d s1 e1)|..]; [by eapply running_kept|done|lia| |done]. intros r s2 [Hok2 Hr2]. split.
    + destruct r; cbn [stop_ok last_yield raises] in *; rewrite El, Er; cbn [orb]; by destruct (last_yield k).
    + cbn [work marks]. rewrite Er. eapply (ran_step id d (work k)); [exact Hk1|done|done|lia|done].
  - destruct Hok as [El Er]. apply wp_ret. split; [by cbn; rewrite El, Er|]. cbn [work marks]. rewrite Er, app_nil_r.
    destruct Hrn as [(e1 & Hk1 & Hc1 & Hm1) Hb1]. split; [by exists e1|cbn in *; lia].
  - apply wp_ret. by apply await_suspended.
Qed.

(** [Schedule] only changes the queue. *)
Lemma schedule_ok id i k d s e : exec_fine id k → running id s e → spawns_safe k = true → bound s + Z.of_nat (S (work k)) < 2 ^ 64 - 1 →
  wp (Schedule i;;; exec id d k) s (λ r s', stop_ok k r ∧ ran id d (S (work k)) (marks k) s s' e r) nothrow.
Proof.
  intros IH Hr Hs Hb. eapply wp_seq; [apply Schedule_ok|]. intros _ s2 [rd ->]. pose proof (ready_kept id s e rd Hr) as Hk.
  assert (Eb : bound (set_ready rd s) = bound s) by done.
  eapply wp_mono; [apply (IH d (set_ready rd s) e)|..]; [by eapply running_kept|done|lia| |done].
  intros r s3 [Hok3 Hr3]. split; [done|]. eapply (ran_step id d (work k) _ (marks k) []); [exact Hk|done|by rewrite app_nil_r|lia|done].
Qed.

Lemma spawn_ok id task k : exec_fine id k → exec_fine id (DoSpawn task k).
Proof.
  intros IH d s e Hr [Hst Hsk]%andb_true_iff Hb. unfold exec_spec. cbn [exec work marks] in *. pose proof (ru_map _ _ _ Hr) as Hm.
  destruct (Hm id e (ru_in _ _ _ Hr)) as [Hid _]. assert (Hn : next_id_ s ≤ bound s) by (unfold bound; lia).
  eapply wp_run_seq; [apply (Spawn_run id task s Hm); lia|].
  pose proof (spawned_kept id task s e Hst Hr) as Hk1. pose proof (spawned_bound id task s Hm) as Eb1.
  eapply wp_mono; [apply (schedule_ok id _ k d (spawned task s) e IH)|..]; [by eapply running_kept|done|lia| |done].
  intros r s3 [Hok3 Hr3]. split; [by destruct r|]. eapply (ran_step id d (S (work k)) _ (marks k) []); [exact Hk1|done|by rewrite app_nil_r|lia|done].
Qed.

Lemma mark_ok id n k : exec_fine id k → exec_fine id (Mark n k).
Proof.
  intros IH d s e Hr Hs Hb. unfold exec_spec. cbn [exec work marks spawns_safe] in *. apply wp_modify_seq.
  destruct (own_kept id s e (note_mark n) Hr eq_refl eq_refl) as [Hk Eb].
  eapply wp_mono; [apply (IH d _ (note_mark n e))|..]; [by eapply running_kept|done|lia| |done]. intros r s3 [Hok3 Hr3]. split; [by destruct r|].
  eapply (ran_step id d (work k) _ (marks k) [n]); [exact Hk|done|done|lia|done].
Qed.

Lemma exec_ok id c : exec_fine id c.
Proof.
  induction c as [| |k IH|child IHc k IH|task IHt k IH|i k IH|k IH|n k IH].
  - intros d s e Hr _ _. apply wp_ret. split; [done|]. apply ran_nothing; [done|by left].
  - intros d s e Hr _ _. apply wp_ret. split; [done|]. apply ran_nothing; [done|by right].
  - apply yield_ok.
  - by apply await_ok.
  - by apply spawn_ok.
  - intros d s e Hr Hs Hb. eapply wp_mono; [by apply (schedule_ok id _ k)|intros [] s' [? ?]; by split|done].
  - intros d s e Hr Hs Hb. eapply wp_mono; [by apply (schedule_ok id _ k)|intros [] s' [? ?]; by split|done].
  - by apply mark_ok.
Qed.

(** The frames of a coroutine go on. *)
Lemma resume_frames_ok id frames : ∀ s e, running id s e → forallb spawns_safe frames = true → frames ≠ [] →
  bound s + Z.of_nat (frames_work frames) < 2 ^ 64 - 1 →
  wp (resume_frames id frames) s (λ r s', ran id 0 (frames_work frames) (frames_marks frames) s s' e r ∧
    match r with
    | Suspended frames' => frames' ≠ [] ∧ frames_last frames = Some (last_frame frames') ∧ forallb spawns_safe frames' = true
    | _ => frames_last frames = None
    end) nothrow.
Proof.
  induction frames as [|c rest IH]; intros s e Hr Hs Hn Hb; [by destruct Hn|]. cbn [forallb] in Hs. apply andb_true_iff in Hs as [Hsc Hsr].
  unfold frames_work in *. cbn [resume_frames frames_marks sum_list_with frames_last] in *. fold (frames_work rest) in *.
  eapply wp_seq; [apply (exec_ok id c (length rest) s e Hr Hsc); lia|]. intros [| |frames'] s1 (Hok & [(e1 & Hk1 & Hc1 & Hm1) Hb1]);
    cbn [stop_ok stop_current stop_marks stop_work] in *.
  - destruct Hok as [El Er]. rewrite El, Er. rewrite app_nil_r in Hm1. destruct rest as [|c' rest'] eqn:Erest.
    { apply wp_ret. split; [|done]. rewrite app_nil_r. split; [exists e1; split_and!; [done|done|by rewrite app_nil_r]|]. cbn in *. lia. }
    rewrite <-Erest in *. eapply wp_mono; [apply (IH s1 e1)|..]; [by eapply running_kept|done|by rewrite Erest|lia| |done].
    intros r s2 [Hrn Hl]. split; [eapply (ran_step id 0 (frames_work rest)); [exact Hk1|done|done|lia|done]|].
    destruct r as [| |fr]; [by rewrite Hl|by rewrite Hl|]. destruct Hl as (? & -> & ?). done.
  - destruct Hok as [El Er]. rewrite El, Er. apply wp_ret. split; [|done]. rewrite app_nil_r. split; [|cbn; lia].
    exists e1. by split_and!.
  - destruct Hok as (Hne & Er & El & Hsf). apply wp_ret. split; [split|].
    + exists e1. split_and!; [done| |].
      * cbn. rewrite Hc1, length_app. f_equal. lia.
      * cbn [stop_marks]. rewrite frames_marks_app, Er, app_assoc, Hm1, <-app_assoc. done.
    + cbn [stop_work]. rewrite frames_work_app. lia.
    + split_and!; [by destruct frames'| |by rewrite forallb_app, Hsf].
      rewrite last_frame_app by done. rewrite El, Er. cbn [fmap option_fmap option_map]. by destruct (if raises c then None else frames_last rest).
Qed.

(** ** The scheduler *)

Record sched_ok (s : Sched) : Prop := {
  so_map : map_ok 0 s;
  so_next : 0 < next_id_ s;
}.

Lemma entry_total m i e : m !! i = Some e → (entry_work e ≤ total m)%nat.
Proof. intros ->%total_delete. lia. Qed.

(** An entry is replaced. *)
Lemma map_ok_close id s e f : map_ok id s → coros_ s !! id = Some e → entry_ok (f e) → map_ok 0 (set_coros (alter f id (coros_ s)) s).
Proof.
  intros Hm Hin Hf i e0. cbn [coros_ next_id_ set_coros]. destruct (decide (i = id)) as [->|Hne].
  - rewrite lookup_alter_eq, Hin. intros [= <-]. split; [by apply (Hm id e)|done].
  - rewrite lookup_alter_ne by done. intros [? ?]%Hm. split; [done|]. auto.
Qed.

(** The entry after its frames went on: suspended again, or finished *)
Lemma suspended_ok e frames : frames ≠ [] → last_frame frames = 0%nat → forallb spawns_safe frames = true →
  current e = Some (length frames - 1)%nat → e_log e ++ frames_marks frames = marks (e_code e) → entry_ok (set_root (Some frames) e).
Proof. intros Hne Hl Hs Hc Hm. split; cbn [root current e_code e_log set_root]; [by destruct frames|..]; by intros ? [= <-]. Qed.

Lemma finished_ok e : e_log e = marks (e_code e) → entry_ok (set_current None (set_root (Some []) e)).
Proof. intros Hm. split; cbn [root current e_code e_log set_root set_current]; [done|..]; intros ? [= <-]; [done|done|]. by rewrite app_nil_r. Qed.

Definition live (id : Z) (s : Sched) : Prop := ∃ e, coros_ s !! id = Some e ∧ current e ≠ None.

(** What a call leaves *)
Record after (s s' : Sched) : Prop := {
  af_ok : sched_ok s';
  af_next : next_id_ s ≤ next_id_ s';
  af_tls : tls_in_coro_ s' = tls_in_coro_ s ∧ tls_sched_ s' = tls_sched_ s ∧ tls_id_ s' = tls_id_ s;
}.

Lemma set_tls_map id i d t s : map_ok id s → map_ok id (set_tls i d t s).
Proof. done. Qed.

Lemma live_entry s id e h : sched_ok s → coros_ s !! id = Some e → current e = Some h → ∃ frames,
  root e = Some frames ∧ frames ≠ [] ∧ S h = length frames ∧ last_frame frames = 0%nat ∧ forallb spawns_safe frames = true ∧
  e_log e ++ frames_marks frames = marks (e_code e) ∧ (frames_work frames ≤ total (coros_ s))%nat.
Proof.
  intros [Hm _] Hin Hc. destruct (Hm id e Hin) as [Hid He]. destruct He as [Hh Hl Hs Hk]; [lia|]. pose proof (entry_total _ _ _ Hin) as Ht.
  unfold entry_work in Ht. destruct (root e) as [frames|]; [|congruence]. exists frames. rewrite Hc in Hh.
  destruct frames as [|c fr]; [done|]. injection Hh as Eh. split_and!; auto; [cbn in *; lia].
Qed.

(** The entry when [h.resume()] returns *)
Record resumed (id : Z) (s s' : Sched) (e' : Entry) : Prop := {
  rs_in : coros_ s' !! id = Some e';
  rs_map : map_ok id s';
  rs_next : next_id_ s ≤ next_id_ s';
  rs_bound : bound s' < bound s;
  rs_entry : (∃ c fr, root e' = Some (c :: fr) ∧ current e' = Some (length fr) ∧ entry_ok e') ∨
             (root e' = Some [] ∧ current e' = Some 0%nat ∧ e_log e' = marks (e_code e'));
}.

Lemma resume_handle_ok id s e frames h : running id s e → root e = Some frames → current e = Some h → frames ≠ [] → S h = length frames →
  last_frame frames = 0%nat → forallb spawns_safe frames = true → e_log e ++ frames_marks frames = marks (e_code e) →
  (frames_work frames ≤ total (coros_ s))%nat → 0 < next_id_ s → bound s < 2 ^ 62 →
  wp (resume_handle id frames h) s (λ _ s', ∃ e', resumed id s s' e') nothrow.
Proof.
  intros Hrun Hroot Hc Hne Hh Hlast Hsafe Hmarks Hw Hn Hb. unfold resume_handle. rewrite bool_decide_eq_true_2 by done. cbn [negb].
  eapply wp_seq; [apply (resume_frames_ok id frames s e Hrun Hsafe Hne); unfold bound in *; lia|].
  intros r s1 [[(e1 & Hk1 & Hc1 & Hm1) Hb1] Hl]. apply wp_modify. set (fr := match r with Suspended fr => fr | _ => [] end).
  pose proof (k_in _ _ _ _ _ Hk1) as Hin1. pose proof (k_map _ _ _ _ _ Hk1) as Hmap1. pose proof (k_code _ _ _ _ _ Hk1) as Hcode.
  exists (set_root (Some fr) e1). split.
  - cbn [coros_ set_coros]. by rewrite lookup_alter_eq, Hin1.
  - intros i e0. cbn [coros_ next_id_ set_coros]. destruct (decide (i = id)) as [->|?].
    + rewrite lookup_alter_eq, Hin1. intros [= <-]. split; [by apply (Hmap1 id e1)|done].
    + rewrite lookup_alter_ne by done. apply Hmap1.
  - exact (k_next _ _ _ _ _ Hk1).
  - unfold bound in *. cbn [coros_ next_id_ set_coros]. pose proof (total_alter (coros_ s1) id e1 (set_root (Some fr)) Hin1) as Ht.
    assert (E1 : entry_work e1 = frames_work frames) by (unfold entry_work; by rewrite (k_root _ _ _ _ _ Hk1), Hroot).
    assert (E2 : entry_work (set_root (Some fr) e1) = stop_work r) by (by destruct r). lia.
  - assert (Hlen : frames_last frames = None → h = 0%nat).
    { intros El. unfold last_frame in Hlast. rewrite El in Hlast. cbn in Hlast. lia. }
    destruct r as [| |fr']; cbn [stop_current stop_marks] in *; subst fr; cbn [root current e_code e_log set_root].
    + right. rewrite app_nil_r, Hmarks in Hm1. rewrite Hc1, Hc, Hcode, (Hlen Hl). done.
    + right. rewrite app_nil_r, Hmarks in Hm1. rewrite Hc1, Hc, Hcode, (Hlen Hl). done.
    + left. destruct Hl as (Hne' & El & Hsf). destruct fr' as [|c fr']; [done|]. exists c, fr'. rewrite Hc1. cbn [length Nat.add].
      split_and!; [done|f_equal; lia|]. apply suspended_ok; [done| |done|by rewrite Hc1|].
      * unfold last_frame in Hlast. rewrite El in Hlast. exact Hlast.
      * by rewrite Hm1, Hmarks, Hcode.
Qed.

Lemma Resume_ok id s : sched_ok s → bound s < 2 ^ 62 → live id s → wp (Resume id) s (λ r s', r = 0 ∧ after s s' ∧ bound s' < bound s) nothrow.
Proof.
  intros Hs Hb (e & Hin & Hlive). unfold Resume. apply wp_get. unfold GetEntry. rewrite Hin. destruct (current e) as [h|] eqn:Hc; [|done]. clear Hlive.
  destruct (live_entry s id e h Hs Hin Hc) as (frames & Hroot & Hne & Hh & Hlast & Hsafe & Hmarks & Hw). destruct Hs as [Hm Hn].
  assert (Hid : 0 < id < next_id_ s) by (by apply (Hm id e)). apply wp_modify_seq. set (s0 := set_tls true true id s).
  unfold frames_of. rewrite Hroot. apply wp_lift_seq. assert (Ed : handle_done frames h = Ok false).
  { unfold handle_done. destruct frames; [done|]. rewrite bool_decide_eq_true_2; [done|lia]. }
  rewrite Ed. apply wp_lift_seq.
  assert (Hrun : running id s0 e).
  { split; [cbn; split_and!; [done|done|lia]|done|]. intros i e0 H0. destruct (Hm i e0 H0) as [? He0]. split; [done|]. intros _. apply He0. lia. }
  eapply wp_seq; [by apply (resume_handle_ok id s0 e frames h)|]. intros _ s1 (e1 & [Hin1 Hmap1 Hnx1 Hb1 Hent]). change (next_id_ s0) with (next_id_ s) in Hnx1.
  change (bound s0) with (bound s) in Hb1. apply wp_get. unfold GetEntry. rewrite Hin1. destruct Hent as [(c & fr & Hr & Hcur & Hok)|(Hr & Hcur & Hlog)].
  - assert (Ed' : handle_done (c :: fr) (length fr) = Ok false).
    { unfold handle_done. rewrite bool_decide_eq_true_2; [done|]. cbn. lia. }
    rewrite Hcur, Hr. apply wp_bind, wp_lift_seq. rewrite Ed'. apply wp_lift_seq, wp_ret, wp_modify_seq, wp_ret. split_and!; [done| |done].
    split; [split; [|exact (Z.lt_le_trans _ _ _ Hn Hnx1)]|done|done]. intros i e0 H0. destruct (Hmap1 i e0 H0) as [? He0]. split; [done|]. intros _.
    destruct (decide (i = id)) as [->|?]; [|by apply He0]. cbn in H0. congruence.
  - rewrite Hcur, Hr. apply (wp_run _ _ 0 (set_tls (tls_in_coro_ s) (tls_sched_ s) (tls_id_ s) (set_coros (alter (set_current None) id (coros_ s1)) s1))); [done|].
    assert (Eb : bound (set_coros (alter (set_current None) id (coros_ s1)) s1) = bound s1).
    { unfold bound. cbn [coros_ next_id_ set_coros]. pose proof (total_alter (coros_ s1) id e1 (set_current None) Hin1) as Ht.
      change (entry_work (set_current None e1)) with (entry_work e1) in Ht. lia. }
    split_and!; [done| |change (bound (set_coros (alter (set_current None) id (coros_ s1)) s1) < bound s); lia]. split; [split; [|exact (Z.lt_le_trans _ _ _ Hn Hnx1)]|done|done].
    apply set_tls_map, (map_ok_close id s1 e1); [done|done|]. pose proof (finished_ok e1 Hlog) as Hf. destruct e1; cbn in *. by rewrite Hr in *.
Qed.

#[global] Instance after_trans : Transitive after.
Proof. intros s1 s2 s3 [? ? (? & ? & ?)] [? ? (? & ? & ?)]. split; [done|lia|]. split_and!; congruence. Qed.

Lemma after_refl s : sched_ok s → after s s.
Proof. by intros. Qed.

Lemma set_ready_ok r s : sched_ok s → sched_ok (set_ready r s).
Proof. by intros []. Qed.

Lemma RunOnce_loop_ok ready : ∀ s, sched_ok s → bound s < 2 ^ 62 → ready_ s = ready →
  wp (RunOnce_loop ready) s (λ r s', after s s' ∧ (r = 0 ∧ ready_ s' = [] ∧ bound s' = bound s ∨ r = 1 ∧ bound s' < bound s)) nothrow.
Proof.
  induction ready as [|id ready IH]; intros s Hs Hb Hrd; cbn [RunOnce_loop]; [apply wp_ret; split; [by apply after_refl|by left]|].
  apply wp_modify_seq, wp_get. assert (H1 : sched_ok (set_ready ready s)) by (by apply set_ready_ok). assert (Eb : bound (set_ready ready s) = bound s) by done.
  assert (Hskip : wp (RunOnce_loop ready) (set_ready ready s) (λ r s', after s s' ∧ (r = 0 ∧ ready_ s' = [] ∧ bound s' = bound s ∨ r = 1 ∧ bound s' < bound s)) nothrow).
  { eapply wp_mono; [by apply IH|..]; [|done]. intros r s' [[? ? ?] ?]. by split. }
  destruct (GetEntry id (set_ready ready s)) as [e|] eqn:Ee; [|done]. destruct (current e) as [h|] eqn:Ec; [|done].
  eapply wp_seq; [apply Resume_ok; [done|done|]; exists e; split; [done|by rewrite Ec]|]. intros r s' (_ & [? ? ?] & ?). apply wp_ret.
  split; [done|]. right. split; [done|lia].
Qed.

Lemma RunAll_loop_ok (n0 : Z) fuel : ∀ n s, sched_ok s → n0 ≤ next_id_ s → bound s - n0 < Z.of_nat fuel → 0 ≤ n → n + (bound s - n0) < 2 ^ 31 →
  n0 < 2 ^ 61 → wp (RunAll_loop fuel n) s (λ r s', after s s' ∧ ready_ s' = [] ∧ bound s' ≤ bound s) nothrow.
Proof.
  induction fuel as [|fuel IH]; intros n s Hs Hn0 Hf Hn Hm Hs0; cbn [RunAll_loop].
  { unfold bound in *. lia. }
  assert (Hb : bound s < 2 ^ 62) by lia. unfold RunOnce. eapply wp_seq with (P := λ r s', after s s' ∧
    (r = 0 ∧ ready_ s' = [] ∧ bound s' = bound s ∨ r = 1 ∧ bound s' < bound s)); [apply wp_get; by apply RunOnce_loop_ok|].
  intros r s1 [Ha [(-> & Hr & Eb)|[-> Hlt]]]; cbn [Z.ltb Z.compare].
  - apply wp_ret. split_and!; [done|done|lia].
  - assert (Hn1 : n0 ≤ next_id_ s1) by (pose proof (af_next _ _ Ha); lia). assert (Hb1 : n0 ≤ bound s1) by (unfold bound; lia).
    destruct (Z.eqb_spec n (2 ^ 31 - 1)) as [->|?]; [lia|]. eapply wp_mono; [apply IH|..]; try done; try lia; [by apply af_ok in Ha|].
    intros r s2 (? & ? & ?). split_and!; [by transitivity s1|done|lia].
Qed.

(** The most work a call can bring, and whether its coroutine may be run *)
Definition cost (x : Call) : Z :=
  match x with CSpawn c => 1 + Z.of_nat (work c) | CRestart _ (Some c) => Z.of_nat (work c) | _ => 0 end.
Definition call_safe (x : Call) : bool :=
  match x with CSpawn c | CRestart _ (Some c) => safe c | _ => true end.

Lemma after_map s m : sched_ok s → (∀ i e, m !! i = Some e → 0 < i < next_id_ s ∧ entry_ok e) → after s (set_coros m s).
Proof. intros [? ?] Hm. split; [split; [|done]|done|done]. intros i e He. destruct (Hm i e He). by split. Qed.

Lemma Restart_ok id task s : sched_ok s → match task with Some c => safe c = true | None => True end →
  wp (Restart id task) s (λ _ s', after s s' ∧ bound s' ≤ bound s + match task with Some c => Z.of_nat (work c) | None => 0 end) nothrow.
Proof.
  intros Hs Hc. unfold Restart. apply wp_get. unfold GetEntry. destruct (coros_ s !! id) as [e|] eqn:He.
  2:{ apply wp_ret. split; [by apply after_refl|]. destruct task; lia. }
  assert (Hw : ∀ f, entry_ok (f e) → after s (set_coros (alter f id (coros_ s)) s) ∧
    bound (set_coros (alter f id (coros_ s)) s) ≤ bound s + Z.of_nat (entry_work (f e))).
  { intros f Hf. split.
    - apply after_map; [done|]. intros i e0. destruct (decide (i = id)) as [->|?].
      + rewrite lookup_alter_eq, He. intros [= <-]. split; [by apply (so_map _ Hs id e)|done].
      + rewrite lookup_alter_ne by done. intros H0. destruct (so_map _ Hs i e0 H0) as [? He0]. split; [done|]. apply He0. lia.
    - unfold bound. cbn [coros_ next_id_ set_coros]. pose proof (total_alter (coros_ s) id e f He). lia. }
  apply wp_modify_seq. destruct task as [c|].
  - apply (wp_run _ _ 0 (set_coros (alter (λ _, fresh_entry c) id (coros_ s)) s)).
    { unfold bind, on_entry, modify, ret. unfold set_coros. cbn. do 2 f_equal. apply map_eq. intros i.
      destruct (decide (i = id)) as [->|?]; [by rewrite !lookup_alter_eq, He|by rewrite !lookup_alter_ne]. }
    destruct (Hw (λ _, fresh_entry c)) as [? Hb]; [by apply fresh_ok|]. split; [done|]. destruct (frames_one c) as (_ & _ & _ & Ew).
    unfold entry_work in Hb. cbn [root fresh_entry] in Hb. by rewrite Ew in Hb.
  - apply wp_ret. destruct (Hw (λ e, set_current None (set_root None e))) as [? Hb]; [by split|]. split; [done|]. cbn in Hb. lia.
Qed.

Lemma Destroy_ok id s : sched_ok s → wp (Destroy id) s (λ _ s', after s s' ∧ bound s' ≤ bound s) nothrow.
Proof.
  intros Hs. unfold Destroy. apply wp_get. unfold GetEntry. destruct (coros_ s !! id) as [e|] eqn:He; [|apply wp_ret; split; [by apply after_refl|lia]].
  apply wp_modify_seq, wp_ret. split.
  - apply after_map; [done|]. intros i e0 [_ H0]%lookup_delete_Some. destruct (so_map _ Hs i e0 H0) as [? He0]. split; [done|]. apply He0. lia.
  - unfold bound. cbn [coros_ next_id_ set_coros]. rewrite (total_delete (coros_ s) id e He). lia.
Qed.

Lemma coro_call_ok x s : sched_ok s → call_safe x = true → bound s + cost x < 2 ^ 31 →
  wp (call x) s (λ _ s', after s s' ∧ bound s' ≤ bound s + cost x ∧ (x = CRunAll → ready_ s' = [])) nothrow.
Proof.
  intros Hs Hx Hb. destruct x as [c|id|id|id task|id| |]; cbn [call call_safe cost] in *.
  - assert (Hn : 0 < next_id_ s < 2 ^ 64 - 1) by (pose proof (so_next _ Hs); unfold bound in Hb; lia).
    eapply wp_run; [exact (Spawn_run 0 c s (so_map _ Hs) Hn)|]. rewrite (spawned_bound 0 c s (so_map _ Hs)). split_and!; [|lia|done].
    split; [|cbn; lia|done]. split; [|cbn; lia]. apply spawned_map; [done|apply Hs|apply Hs].
  - eapply wp_seq; [apply Schedule_ok|]. intros _ s' [r ->]. apply wp_ret. split_and!; [|change (bound s ≤ bound s + 0); lia|done]. by destruct Hs.
  - destruct (decide (is_Some (coros_ s !! id ≫= current))) as [[h Hh]|Hd].
    + apply bind_Some in Hh as (e & He & Hc). eapply wp_mono; [apply Resume_ok; [done|lia|]|..]; [exists e; by rewrite Hc| |done].
      intros _ s' (_ & ? & ?). split_and!; [done|lia|done].
    + eapply (wp_run _ _ (-1) s).
      * unfold Resume. run. unfold GetEntry. destruct (coros_ s !! id) as [e|]; [|done]. cbn in Hd. destruct (current e); [|done].
        destruct Hd. by eexists.
      * split_and!; [by apply after_refl|lia|done].
  - eapply wp_mono; [apply (Restart_ok id task s Hs); by destruct task|..]; [|done]. intros _ s' [? ?]. split_and!; [done|by destruct task|done].
  - eapply wp_mono; [by apply Destroy_ok|..]; [|done]. intros _ s' [? ?]. split_and!; [done|lia|done].
  - unfold RunOnce. apply wp_get. eapply wp_mono; [apply RunOnce_loop_ok; [done|lia|done]|..]; [|done].
    intros r s' [? Hr]. split_and!; [done|lia|done].
  - unfold RunAll. apply wp_get. pose proof (so_next _ Hs). eapply wp_mono; [apply (RunAll_loop_ok (next_id_ s)); [done|lia|unfold bound; lia|lia| |]|..];
      [unfold bound in *; lia|unfold bound in Hb; lia| |done].
    intros _ s' (? & ? & ?). split_and!; [done|lia|done].
Qed.

Definition budget (xs : list Call) : Z := foldr (λ x n, cost x + n) 0 xs.

Lemma cost_nonneg x : 0 ≤ cost x.
Proof. destruct x as [| | |id [c|]| | |]; cbn; lia. Qed.
Lemma budget_nonneg xs : 0 ≤ budget xs.
Proof. induction xs as [|x xs IH]; cbn; [lia|]. pose proof (cost_nonneg x). unfold budget in IH. lia. Qed.

Lemma calls_ok xs : ∀ s, sched_ok s → forallb call_safe xs = true → bound s + budget xs < 2 ^ 31 →
  wp (calls xs) s (λ _ s', after s s' ∧ (last xs = Some CRunAll → ready_ s' = [])) nothrow.
Proof.
  induction xs as [|x xs IH]; intros s Hs Hx Hb; cbn [calls]; [apply wp_ret; split; [by apply after_refl|done]|].
  cbn [forallb budget foldr] in *. apply andb_true_iff in Hx as [Hx Hxs]. fold (budget xs) in Hb. pose proof (budget_nonneg xs).
  eapply wp_seq; [apply coro_call_ok; [done|done|lia]|]. intros _ s1 (Ha & Hb1 & Hr). destruct xs as [|y xs].
  { apply wp_ret. split; [done|]. intros [= E]. by apply Hr. }
  eapply wp_mono; [apply IH|..]; [by destruct Ha|done|lia| |done]. intros _ s2 [Ha2 Hr2]. split; [by transitivity s1|exact Hr2].
Qed.

(** ** Properties *)

(** C28: the scheduler through any calls, of finite coroutines whose last suspension is in the root.  No
    destroyed frame is used; [Resume], [RunOnce] and [RunAll] return, [RunAll] with nothing left in
    the queue, and outside of a coroutine.  However the coroutines were interleaved, each has done
    exactly the first part of what it does when it runs alone, and all of it when it is finished;
    it can be resumed as long as it is not. *)
Theorem coroutines_run xs : forallb call_safe xs = true → budget xs < 2 ^ 31 - 1 → ∃ s, calls xs Sched_make = (Ok tt, s) ∧
  IsInCoroutine s = false ∧ (last xs = Some CRunAll → ready_ s = []) ∧
  ∀ id e, coros_ s !! id = Some e → match root e with
    | Some frames => e_log e ++ frames_marks frames = marks (e_code e) ∧ (current e = None ↔ frames = [])
    | None => current e = None
    end.
Proof.
  intros Hx Hb. assert (Hs : sched_ok Sched_make) by (split; [intros i e; cbn; by rewrite lookup_empty|done]).
  destruct (wp_inv _ _ _ (calls_ok xs Sched_make Hs Hx ltac:(change (1 + budget xs < 2 ^ 31); lia))) as ([] & s & E & Ha & Hr).
  exists s. destruct Ha as [[Hm _] _ (Ht1 & Ht2 & _)]. split_and!; [done|unfold IsInCoroutine; by rewrite Ht1|done|].
  intros id e He. destruct (Hm id e He) as [? Hok]. destruct Hok as [Hh _ _ Hk]; [lia|]. destruct (root e) as [frames|]; [|done].
  split; [by apply Hk|]. destruct frames; rewrite Hh; done.
Qed.

(** Two coroutines that take turns, one of them awaiting a task that yields *)
Definition ex_a : Code := Mark 1 (Await (ScheduleSelf (Yield (Mark 2 Return))) (ScheduleSelf (Yield (Mark 3 Return)))).
Definition ex_b : Code := Mark 10 (DoSpawn (Mark 20 Return) (ScheduleSelf (Yield (Mark 11 Raise)))).
Definition ex_calls : list Call := [CSpawn ex_a; CSpawn ex_b; CSchedule 1; CSchedule 2; CRunAll].

Lemma coroutines_run_witness : ∃ s, calls ex_calls Sched_make = (Ok tt, s) ∧ ready_ s = [] ∧
  (e_log <$> coros_ s !! 1) = Some [1; 2; 3] ∧ (e_log <$> coros_ s !! 2) = Some [10; 11] ∧ (e_log <$> coros_ s !! 3) = Some [20].
Proof.
  destruct (coroutines_run ex_calls) as (s & E & _ & Hr & _); [reflexivity|vm_compute; reflexivity|]. exists s. split; [exact E|].
  split; [by apply Hr|]. assert (Es : s = (calls ex_calls Sched_make).2) by (by rewrite E). rewrite Es. split; [|split]; vm_compute; reflexivity.
Defined.

(** A coroutine that awaits a task which yields, and then ends: its last suspension is in the
    frame of the task, which the caller destroys before it ends; [Resume] then asks the handle of
    the destroyed frame whether it is done. *)
Theorem nested_yield_dangles : (calls [CSpawn (Await (Yield Return) (Mark 1 Return)); CResume 1; CResume 1] Sched_make).1 = Undef.
Proof. vm_compute. reflexivity. Qed.
