(* ===== verification/Application.v ===== *)
(** * [dbase::app::Application] (code/src/app/application.cpp, application.h)

    The command line, the built-in options, the stages of [run] and its loop.  The answers of the
    file system are a parameter; paths are strings, with the POSIX rules of
    [std::filesystem::path].  [effects] is history: what the application did to the outside.
    [run] gets the rounds of its waiting loop: whether a stop was requested and whether a signal
    was caught while it waited; when they end it is still running.  A signal without the handlers
    ends the process and is not modelled. *)

From stdpp Require Import base list gmap strings.
From Stdlib Require Import ZArith Lia Ascii.
From S2P Require Import Prelude Error Str.

Local Open Scope Z_scope.

(** ** Paths *)

Definition slash : ascii := byte_of_Z 47.
Definition period : ascii := byte_of_Z 46.

(** A reversed path: its last component, and the rest from the slash on *)
Fixpoint last_component (rp : str) : str * str :=
  match rp with
  | [] => ([], [])
  | c :: rp' => if bool_decide (c = slash) then ([], rp) else let '(f, d) := last_component rp' in (f ++ [c], d)
  end.

Fixpoint skip_slashes (rp : str) : str :=
  match rp with c :: rp' => if bool_decide (c = slash) then skip_slashes rp' else rp | [] => [] end.

Definition parent_path (p : str) : str :=
  let d := (last_component (rev p)).2 in
  match d, skip_slashes d with
  | [], _ => []
  | _, [] => [slash]
  | _, rp => rev rp
  end.

Definition filename (p : str) : str := (last_component (rev p)).1.

(** The position of the last dot, when it is not the first character *)
Definition stem (p : str) : str :=
  let f := filename p in
  if bool_decide (f = [period]) || bool_decide (f = [period; period]) then f
  else match find_char period (rev f) with
       | None => f
       | Some n => if (S n =? length f)%nat then f else take (length f - S n) f
       end.

(** ** The application *)

Record Options : Type := mkOptions {
  name : str; version : str; workingDirectory : str; pidFile : str; configFile : str;
  handleSignals : bool; createPidFile : bool;
}.

(** The startup callback: its error, and whether it requests a stop or a signal comes meanwhile *)
Record Startup : Type := mkStartup { su_error : option Error; su_stop : bool; su_signal : bool }.

Inductive Instance_ : Type := NoInstance | ThisInstance | OtherInstance.

Inductive Effect : Type :=
  | MadeDirectories (p : str)
  | ChangedDirectory (p : str)
  | OpenedPidFile (p : str)
  | InstalledHandlers
  | CalledStartup
  | CalledShutdown
  | RemovedFile (p : str).

Record App : Type := mkApp {
  m_argv : list str;
  m_options : Options;
  m_cliOptions : gmap str str;
  m_cliFlags : list str;
  m_positionalArgs : list str;
  m_startupCallback : option Startup;
  m_shutdownCallback : bool;
  m_stopRequested : bool;
  m_pidFileCreated : bool;
  s_instance : Instance_;
  s_stopSignalRequested : bool;
  effects : list Effect;
}.

(** What the file system answers *)
Record Files : Type := mkFiles {
  createDirectories : str → option Error;
  current_path : str → option str;          (* the message of the error *)
  open_pid : str → bool;
  write_pid : str → bool;
}.

Definition set_cli o f p a := mkApp (m_argv a) (m_options a) o f p (m_startupCallback a) (m_shutdownCallback a) (m_stopRequested a)
  (m_pidFileCreated a) (s_instance a) (s_stopSignalRequested a) (effects a).
Definition set_options o a := mkApp (m_argv a) o (m_cliOptions a) (m_cliFlags a) (m_positionalArgs a) (m_startupCallback a) (m_shutdownCallback a)
  (m_stopRequested a) (m_pidFileCreated a) (s_instance a) (s_stopSignalRequested a) (effects a).
Definition set_stop b a := mkApp (m_argv a) (m_options a) (m_cliOptions a) (m_cliFlags a) (m_positionalArgs a) (m_startupCallback a) (m_shutdownCallback a)
  b (m_pidFileCreated a) (s_instance a) (s_stopSignalRequested a) (effects a).
Definition set_created b a := mkApp (m_argv a) (m_options a) (m_cliOptions a) (m_cliFlags a) (m_positionalArgs a) (m_startupCallback a) (m_shutdownCallback a)
  (m_stopRequested a) b (s_instance a) (s_stopSignalRequested a) (effects a).
Definition set_statics i g a := mkApp (m_argv a) (m_options a) (m_cliOptions a) (m_cliFlags a) (m_positionalArgs a) (m_startupCallback a) (m_shutdownCallback a)
  (m_stopRequested a) (m_pidFileCreated a) i g (effects a).
Definition set_callbacks u d a := mkApp (m_argv a) (m_options a) (m_cliOptions a) (m_cliFlags a) (m_positionalArgs a) u d
  (m_stopRequested a) (m_pidFileCreated a) (s_instance a) (s_stopSignalRequested a) (effects a).
Definition set_effects e a := mkApp (m_argv a) (m_options a) (m_cliOptions a) (m_cliFlags a) (m_positionalArgs a) (m_startupCallback a) (m_shutdownCallback a)
  (m_stopRequested a) (m_pidFileCreated a) (s_instance a) (s_stopSignalRequested a) e.

Definition does (e : Effect) : M App () := modify (λ a, set_effects (effects a ++ [e]) a).

Definition App_make (argv : list str) (o : Options) : App := mkApp argv o ∅ [] [] None false false false NoInstance false [].

(** ** The command line *)

Definition equals : ascii := byte_of_Z 61.

Definition parse_arg (arg : str) : M App (option Error) :=
  let! a := get in
  if startsWith arg (lit "--") then
    match find_ch arg equals 0 with
    | None =>
        let! flag := lift (substr_from arg 2) in
        modify (set_cli (m_cliOptions a) (m_cliFlags a ++ [flag]) (m_positionalArgs a));;; ret None
    | Some eqPos =>
        let! key := lift (substr arg 2 (eqPos - 2)) in
        let! value := lift (substr_from arg (eqPos + 1)) in
        if bool_decide (key = []) then ret (Some (mkError InvalidArgument (lit "empty cli option name")))
        else modify (set_cli (<[key := value]> (m_cliOptions a)) (m_cliFlags a) (m_positionalArgs a));;; ret None
    end
  else modify (set_cli (m_cliOptions a) (m_cliFlags a) (m_positionalArgs a ++ [arg]));;; ret None.

Fixpoint parse_args (args : list str) : M App (option Error) :=
  match args with
  | [] => ret None
  | arg :: args =>
      let! e := parse_arg arg in
      match e with
      | Some e => ret (Some e)
      | None => parse_args args
      end
  end.

Definition parseCommandLine : M App (option Error) :=
  let! a := get in parse_args (tail (m_argv a)).

Definition hasFlag (n : str) (a : App) : bool := existsb (λ flag, bool_decide (flag = n)) (m_cliFlags a).
Definition hasOption (n : str) (a : App) : bool := bool_decide (is_Some (m_cliOptions a !! n)).
Definition getOption (n defaultValue : str) (a : App) : str := default defaultValue (m_cliOptions a !! n).

Definition given (n : str) (old : str) (a : App) : str := if hasOption n a then getOption n [] a else old.

Definition applyBuiltinOptions : M App (option Error) :=
  let! a := get in
  let o := m_options a in
  let n := given (lit "name") (name o) a in
  let n := match n with
           | [] =>
               let n := match m_argv a with [] => [] | arg :: _ => stem arg end in
               match n with [] => lit "application" | _ => n end
           | _ => n
           end in
  modify (set_options (mkOptions n (given (lit "version") (version o) a) (given (lit "workdir") (workingDirectory o) a)
    (given (lit "pid-file") (pidFile o) a) (given (lit "config") (configFile o) a) (handleSignals o)
    (hasOption (lit "pid-file") a || createPidFile o)));;;
  ret None.

(** ** The stages of [run] *)

Section run.
Context (fs : Files).

Definition prepareWorkingDirectory : M App (option Error) :=
  let! a := get in
  let w := workingDirectory (m_options a) in
  if bool_decide (w = []) then ret None
  else
    match createDirectories fs w with
    | Some e => ret (Some e)
    | None =>
        does (MadeDirectories w);;;
        match current_path fs w with
        | Some message => ret (Some (mkError IOError (lit "set current_path failed: " ++ w ++ lit ": " ++ message)))
        | None => does (ChangedDirectory w);;; ret None
        end
    end.

Definition createPidFileIfNeeded : M App (option Error) :=
  let! a := get in
  let p := pidFile (m_options a) in
  if negb (createPidFile (m_options a)) || bool_decide (p = []) then ret None
  else
    match createDirectories fs (parent_path p) with
    | Some e => ret (Some e)
    | None =>
        does (MadeDirectories (parent_path p));;;
        if negb (open_pid fs p) then ret (Some (mkError IOError (lit "open pid file failed: " ++ p)))
        else
          does (OpenedPidFile p);;;
          if negb (write_pid fs p) then ret (Some (mkError IOError (lit "write pid file failed: " ++ p)))
          else modify (set_created true);;; ret None
    end.

Definition removePidFileIfNeeded : M App () :=
  let! a := get in
  if negb (m_pidFileCreated a) || bool_decide (pidFile (m_options a) = []) then ret tt
  else
    does (RemovedFile (pidFile (m_options a)));;;
    modify (set_created false).

Definition installSignalHandlers : M App (option Error) :=
  let! a := get in
  if negb (handleSignals (m_options a)) then ret None else does InstalledHandlers;;; ret None.

Definition onSignal : M App () := modify (λ a, set_statics (s_instance a) true a).
Definition requestStop : M App () := modify (set_stop true).

Definition stopRequested (a : App) : bool := m_stopRequested a.

Definition call_startup (u : Startup) : M App (option Error) :=
  does CalledStartup;;;
  (if su_stop u then requestStop else ret tt);;;
  (if su_signal u then onSignal else ret tt);;;
  ret (su_error u).

(** The loop: [true] when it ends *)
Fixpoint wait_loop (rounds : list (bool * bool)) : M App bool :=
  match rounds with
  | [] => ret false
  | (stop, signal) :: rounds =>
      (if stop then requestStop else ret tt);;;
      (if signal then onSignal else ret tt);;;
      let! a := get in
      if m_stopRequested a then ret true
      else if s_stopSignalRequested a then requestStop;;; ret true
      else wait_loop rounds
  end.

(** A stage, and the exit code when it fails *)
Definition stage (m : M App (option Error)) (code : Z) (k : M App (option Z)) : M App (option Z) :=
  let! e := m in
  match e with Some _ => ret (Some code) | None => k end.

Definition run (rounds : list (bool * bool)) : M App (option Z) :=
  let! a := get in
  match s_instance a with
  | OtherInstance => ret (Some 2)
  | _ =>
      modify (set_statics ThisInstance false);;;
      modify (set_stop false);;;
      stage parseCommandLine 2 (
      stage applyBuiltinOptions 2 (
      stage prepareWorkingDirectory 3 (
      stage createPidFileIfNeeded 4 (
      stage installSignalHandlers 5 (
      stage (match m_startupCallback a with None => ret None | Some u => call_startup u end) 6 (
      let! ended := wait_loop rounds in
      if negb ended then ret None
      else
        (if m_shutdownCallback a then does CalledShutdown else ret tt);;;
        ret (Some 0)))))))
  end.

(** The destructor *)
Definition App_destroy : M App () :=
  removePidFileIfNeeded;;;
  modify (λ a, match s_instance a with ThisInstance => set_statics NoInstance (s_stopSignalRequested a) a | _ => a end).

End run.

(** ** Command lines *)

Inductive Arg : Type := AFlag (flag : str) | AOption (key value : str) | APositional (text : str).

Definition render (x : Arg) : str :=
  match x with
  | AFlag flag => lit "--" ++ flag
  | AOption key value => lit "--" ++ key ++ equals :: value
  | APositional text => text
  end.

Definition arg_ok (x : Arg) : bool :=
  match x with
  | AFlag flag => bool_decide (equals ∉ flag)
  | AOption key _ => negb (bool_decide (key = [])) && bool_decide (equals ∉ key)
  | APositional text => negb (startsWith text (lit "--"))
  end.

Definition takes (x : Arg) (a : App) : App :=
  match x with
  | AFlag flag => set_cli (m_cliOptions a) (m_cliFlags a ++ [flag]) (m_positionalArgs a) a
  | AOption key value => set_cli (<[key := value]> (m_cliOptions a)) (m_cliFlags a) (m_positionalArgs a) a
  | APositional text => set_cli (m_cliOptions a) (m_cliFlags a) (m_positionalArgs a ++ [text]) a
  end.

Lemma dashes_equals : equals ∉ lit "--".
Proof. by apply (bool_decide_unpack (equals ∉ lit "--")). Qed.

Lemma starts_dashes s : startsWith (lit "--" ++ s) (lit "--") = true.
Proof.
  unfold startsWith, size, zlen. rewrite length_app. cbn [length lit]. apply andb_true_iff. split; [apply Z.leb_le; cbn; lia|].
  by rewrite bool_decide_eq_true_2.
Qed.

Lemma cli_find_equals p rest : equals ∉ p → find_ch (p ++ equals :: rest) equals 0 = Some (zlen p).
Proof. intros Hp. rewrite (looks_find_ch _ _ 0) by (pose proof (zlen_nonneg (p ++ equals :: rest)); lia). by rewrite zdrop_0, find_sub_char. Qed.

Lemma find_equals_None p : equals ∉ p → find_ch p equals 0 = None.
Proof. intros Hp. rewrite (looks_find_ch _ _ 0) by (pose proof (zlen_nonneg p); lia). by rewrite zdrop_0, find_sub_char_None. Qed.

Lemma parse_arg_run x a : arg_ok x = true → parse_arg (render x) a = (Ok None, takes x a).
Proof.
  intros Hx. unfold parse_arg. run. destruct x as [flag|key value|text]; cbn [render arg_ok takes] in *.
  - rewrite starts_dashes. apply bool_decide_eq_true in Hx. rewrite find_equals_None by (by rewrite elem_of_app; intros [?%dashes_equals|?]).
    unfold substr_from, size, zlen. rewrite length_app. change (length (lit "--")) with 2%nat. destruct (Z.ltb_spec (Z.of_nat (2 + length flag)) 2); [lia|]. run. reflexivity.
  - rewrite starts_dashes. apply andb_true_iff in Hx as [Hk Hn]. apply bool_decide_eq_true in Hn. apply negb_true_iff, bool_decide_eq_false in Hk.
    rewrite app_assoc, cli_find_equals by (by rewrite elem_of_app; intros [?%dashes_equals|?]). rewrite <-app_assoc.
    unfold substr, substr_from, size, zlen. rewrite !length_app. change (length (lit "--")) with 2%nat. cbn [length].
    destruct (Z.ltb_spec (Z.of_nat (2 + (length key + S (length value)))) 2); [lia|].
    destruct (Z.ltb_spec (Z.of_nat (2 + (length key + S (length value)))) (Z.of_nat (2 + length key) + 1)); [lia|]. run.
    assert (E1 : ztake (Z.of_nat (2 + length key) - 2) (zdrop 2 (lit "--" ++ key ++ equals :: value)) = key).
    { change (zdrop 2 (lit "--" ++ key ++ equals :: value)) with (key ++ equals :: value). unfold ztake.
      replace (Z.to_nat (Z.of_nat (2 + length key) - 2)) with (length key) by lia. by rewrite take_app_length. }
    assert (E2 : zdrop (Z.of_nat (2 + length key) + 1) (lit "--" ++ key ++ equals :: value) = value).
    { unfold zdrop. replace (Z.to_nat (Z.of_nat (2 + length key) + 1)) with (2 + S (length key))%nat by lia.
      change (lit "--" ++ key ++ equals :: value) with ("-"%char :: "-"%char :: key ++ equals :: value). cbn [Nat.add drop].
      replace (key ++ equals :: value) with ((key ++ [equals]) ++ value) by (by rewrite <-app_assoc). rewrite drop_app_length'; [done|].
      rewrite length_app. cbn. lia. }
    rewrite E1, E2. by rewrite bool_decide_eq_false_2.
  - apply negb_true_iff in Hx. by rewrite Hx.
Qed.

Lemma parse_args_run xs : ∀ a, forallb arg_ok xs = true → parse_args (render <$> xs) a = (Ok None, foldl (λ a x, takes x a) a xs).
Proof.
  induction xs as [|x xs IH]; intros a; cbn [forallb fmap list_fmap parse_args foldl]; [done|]. intros [Hx Hxs]%andb_true_iff.
  rewrite (bind_Ok _ _ _ _ _ (parse_arg_run x a Hx)). by apply IH.
Qed.

Lemma taken_all argv o xs : let a := foldl (λ a x, takes x a) (App_make argv o) xs in
  m_cliFlags a = omap (λ x, match x with AFlag f => Some f | _ => None end) xs ∧
  m_positionalArgs a = omap (λ x, match x with APositional t => Some t | _ => None end) xs ∧
  ∀ k, m_cliOptions a !! k = last (omap (λ x, match x with AOption k' v => if decide (k' = k) then Some v else None | _ => None end) xs).
Proof.
  cbv zeta. induction xs as [|x xs (IH1 & IH2 & IH3)] using rev_ind; [by split_and!|]. rewrite foldl_app, !omap_app. cbn [foldl].
  destruct x as [f|k v|t]; cbn [takes m_cliFlags m_positionalArgs m_cliOptions set_cli omap list_omap]; rewrite ?app_nil_r, ?IH1, ?IH2;
    (split_and!; [done|done|]); intros k'; rewrite omap_app; cbn [omap list_omap]; rewrite ?app_nil_r; try apply IH3.
  destruct (decide (k = k')) as [->|Hne]; [by rewrite lookup_insert_eq, last_snoc|]. rewrite lookup_insert_ne, app_nil_r by done. apply IH3.
Qed.

(** The command line the application was started with is read back: flags and other arguments
    in order, and for every option the last value given. *)
Lemma command_line_roundtrip argv0 xs o : forallb arg_ok xs = true → ∃ a,
  parseCommandLine (App_make (argv0 :: (render <$> xs)) o) = (Ok None, a) ∧
  m_cliFlags a = omap (λ x, match x with AFlag f => Some f | _ => None end) xs ∧
  m_positionalArgs a = omap (λ x, match x with APositional t => Some t | _ => None end) xs ∧
  ∀ k, m_cliOptions a !! k = last (omap (λ x, match x with AOption k' v => if decide (k' = k) then Some v else None | _ => None end) xs).
Proof.
  intros Hx. unfold parseCommandLine. run. cbn [m_argv App_make tail]. rewrite parse_args_run by done. eexists. split; [done|].
  apply taken_all.
Qed.

(** ** The life of the application *)

Lemma find_char_lt c s i : find_char c s = Some i → (i < length s)%nat.
Proof.
  revert i. induction s as [|x s IH]; intros i; cbn; [done|]. case_bool_decide; [intros [= <-]; lia|]. destruct (find_char c s); [|done].
  intros [= <-]. specialize (IH _ eq_refl). lia.
Qed.

Lemma starts_two arg : startsWith arg (lit "--") = true → 2 ≤ zlen arg.
Proof. unfold startsWith, size. intros [H _]%andb_true_iff. change (zlen (lit "--")) with 2 in H. lia. Qed.

(** An effect of the first stages *)
Definition plain (e : Effect) : Prop := match e with OpenedPidFile _ | RemovedFile _ | CalledShutdown => False | _ => True end.

(** Before the pid file is made *)
Definition before (a : App) : Prop := m_pidFileCreated a = false ∧ s_instance a = ThisInstance ∧ Forall plain (effects a).

(** After it, and until the destructor *)
Record pid_ok (fs : Files) (a : App) : Prop := {
  po_effects : Forall (λ e, plain e ∨ e = OpenedPidFile (pidFile (m_options a))) (effects a);
  po_created : m_pidFileCreated a = true ↔ OpenedPidFile (pidFile (m_options a)) ∈ effects a ∧ write_pid fs (pidFile (m_options a)) = true;
  po_name : m_pidFileCreated a = true → pidFile (m_options a) ≠ [];
  po_instance : s_instance a = ThisInstance;
}.

Lemma before_pid_ok fs a : before a → pid_ok fs a.
Proof.
  intros (Hc & Hi & He). split; [|rewrite Hc; split; [done|]|by rewrite Hc|done].
  - eapply Forall_impl; [exact He|]. by left.
  - intros [Hin _]. rewrite Forall_forall in He. by apply He in Hin.
Qed.

Lemma parse_arg_before arg a : before a → wp (parse_arg arg) a (λ _ a', before a') nothrow.
Proof.
  intros Hb. unfold parse_arg. apply wp_get. destruct (startsWith arg (lit "--")) eqn:Es; [|by apply wp_modify_seq, wp_ret].
  apply starts_two in Es. destruct (find_ch arg equals 0) as [p|] eqn:Ef.
  - unfold find_ch, size in Ef. rewrite zdrop_0 in Ef. destruct (zlen arg <? 0); [done|]. destruct (find_char equals arg) as [i|] eqn:Ei; [|done].
    injection Ef as <-. apply find_char_lt in Ei. unfold substr, substr_from, size. destruct (Z.ltb_spec (zlen arg) 2); [lia|].
    destruct (Z.ltb_spec (zlen arg) (0 + Z.of_nat i + 1)); [unfold zlen in *; lia|]. apply wp_lift_seq, wp_lift_seq.
    case_bool_decide; [by apply wp_ret|by apply wp_modify_seq, wp_ret].
  - unfold substr_from, size. destruct (Z.ltb_spec (zlen arg) 2); [lia|]. by apply wp_lift_seq, wp_modify_seq, wp_ret.
Qed.

Lemma parse_args_before args : ∀ a, before a → wp (parse_args args) a (λ _ a', before a') nothrow.
Proof.
  induction args as [|arg args IH]; intros a Hb; cbn [parse_args]; [by apply wp_ret|]. eapply wp_seq; [by apply parse_arg_before|].
  intros [e|] a' Hb'; [by apply wp_ret|by apply IH].
Qed.

Lemma does_before e a : before a → plain e → before (set_effects (effects a ++ [e]) a).
Proof. intros (? & ? & ?) ?. split_and!; [done|done|]. cbn. by apply Forall_app_2; [|apply Forall_singleton]. Qed.

Lemma does_pid_ok fs e a : pid_ok fs a → plain e → pid_ok fs (set_effects (effects a ++ [e]) a).
Proof.
  intros [H1 H2 H3 H4] He. split; try done; cbn [effects m_options m_pidFileCreated set_effects].
  - apply Forall_app_2; [done|]. apply Forall_singleton. by left.
  - rewrite H2, elem_of_app, list_elem_of_singleton. split; [intros [? ?]; by split; [left|]|]. intros [[?|<-] ?]; [done|]. done.
Qed.

Lemma prepare_before fs a : before a → wp (prepareWorkingDirectory fs) a (λ _ a', before a') nothrow.
Proof.
  intros Hb. unfold prepareWorkingDirectory. apply wp_get. case_bool_decide; [by apply wp_ret|]. destruct (createDirectories fs _); [by apply wp_ret|].
  apply wp_modify_seq. assert (H1 := does_before (MadeDirectories (workingDirectory (m_options a))) a Hb I).
  destruct (current_path fs _); [by apply wp_ret|]. apply wp_modify_seq, wp_ret. by apply (does_before _ (set_effects _ a)).
Qed.

Lemma createPid_ok fs a : before a → wp (createPidFileIfNeeded fs) a (λ _ a', pid_ok fs a') nothrow.
Proof.
  intros Hb. assert (Hp := before_pid_ok fs a Hb). unfold createPidFileIfNeeded. apply wp_get. destruct (negb (createPidFile (m_options a))); [by apply wp_ret|].
  cbn [orb]. case_bool_decide as Hn; [by apply wp_ret|]. destruct (createDirectories fs _); [by apply wp_ret|]. apply wp_modify_seq.
  assert (Hb1 := does_before (MadeDirectories (parent_path (pidFile (m_options a)))) a Hb I). set (a1 := set_effects _ a) in *.
  destruct (open_pid fs _); cbn [negb]; [|apply wp_ret; by apply before_pid_ok]. apply wp_modify_seq. destruct Hb1 as (Hc & Hi & He).
  assert (Hin : OpenedPidFile (pidFile (m_options a)) ∈ effects a1 ++ [OpenedPidFile (pidFile (m_options a))]) by (apply elem_of_app; right; by left).
  assert (Hall : Forall (λ e, plain e ∨ e = OpenedPidFile (pidFile (m_options a))) (effects a1 ++ [OpenedPidFile (pidFile (m_options a))])).
  { apply Forall_app_2; [eapply Forall_impl; [exact He|by left]|apply Forall_singleton; by right]. }
  destruct (write_pid fs (pidFile (m_options a))) eqn:Ew; cbn [negb].
  - apply wp_modify_seq, wp_ret. split; [exact Hall|split; [intros _; by split|done]|done|exact Hi].
  - apply wp_ret. split; [exact Hall| | |exact Hi]; cbn [m_pidFileCreated m_options set_effects].
    + rewrite Hc. split; [done|]. intros [_ Hw]. cbn in Hw. congruence.
    + by rewrite Hc.
Qed.

Lemma stage_ok m code k a P Q : wp m a P nothrow → (∀ e a', P (Some e) a' → Q (Some code) a') → (∀ a', P None a' → wp k a' Q nothrow) →
  wp (stage m code k) a Q nothrow.
Proof. intros Hm Hf Hk. eapply wp_seq; [exact Hm|]. intros [e|] a' HP; [by apply wp_ret, (Hf e)|by apply Hk]. Qed.

Lemma startup_ok fs u a : pid_ok fs a → wp (match u with None => ret None | Some u => call_startup u end) a (λ _ a', pid_ok fs a') nothrow.
Proof.
  intros Hp. destruct u as [u|]; [|by apply wp_ret]. unfold call_startup. apply wp_modify_seq. assert (H1 := does_pid_ok fs CalledStartup a Hp I).
  destruct H1 as [H1 H2 H3 H4]. by destruct (su_stop u), (su_signal u).
Qed.

Lemma wait_ok fs rounds : ∀ a, pid_ok fs a → wp (wait_loop rounds) a (λ _ a', pid_ok fs a') nothrow.
Proof.
  induction rounds as [|[stop signal] rounds IH]; intros a Hp; cbn [wait_loop]; [by apply wp_ret|].
  eapply wp_seq with (P := λ _ a', pid_ok fs a'); [destruct stop; [apply wp_modify; by destruct Hp|by apply wp_ret]|]. intros _ a1 H1.
  eapply wp_seq with (P := λ _ a', pid_ok fs a'); [destruct signal; [apply wp_modify; by destruct H1|by apply wp_ret]|]. intros _ a2 H2.
  apply wp_get. destruct (m_stopRequested a2); [by apply wp_ret|]. destruct (s_stopSignalRequested a2); [|by apply IH].
  apply wp_modify_seq, wp_ret. by destruct H2.
Qed.

(** What [run] leaves: the shutdown callback is the last thing it does. *)
Definition ran_to (fs : Files) (d : bool) (r : option Z) (a : App) : Prop :=
  ∃ a1, pid_ok fs a1 ∧ a = (if bool_decide (r = Some 0) && d then set_effects (effects a1 ++ [CalledShutdown]) a1 else a1).

Lemma run_ok fs argv o u d rounds : wp (run fs rounds) (set_callbacks u d (App_make argv o)) (ran_to fs d) nothrow.
Proof.
  unfold run. apply wp_get. cbn [s_instance set_callbacks App_make]. apply wp_modify_seq, wp_modify_seq.
  assert (Hfail : ∀ code a, code ≠ 0 → pid_ok fs a → ran_to fs d (Some code) a).
  { intros code a Hne Hp. exists a. split; [done|]. by rewrite bool_decide_eq_false_2 by congruence. }
  eapply (stage_ok _ _ _ _ (λ _ a', before a')); [unfold parseCommandLine; apply wp_get, parse_args_before; by split_and!|intros e a1 H1; by apply Hfail, before_pid_ok|].
  intros a1 H1. eapply (stage_ok _ _ _ _ (λ _ a', before a')); [unfold applyBuiltinOptions; by apply wp_get, wp_modify_seq, wp_ret|intros e a2 H2; by apply Hfail, before_pid_ok|].
  intros a2 H2. eapply stage_ok; [by apply prepare_before|intros e a3 H3; by apply Hfail, before_pid_ok|].
  intros a3 H3. eapply stage_ok; [by apply createPid_ok|intros e a4 H4; by apply Hfail|].
  intros a4 H4. eapply (stage_ok _ _ _ _ (λ _ a', pid_ok fs a')); [|intros e a5 H5; by apply Hfail|].
  { unfold installSignalHandlers. apply wp_get. destruct (handleSignals _); cbn [negb]; [|by apply wp_ret]. apply wp_modify_seq, wp_ret. by apply does_pid_ok. }
  intros a5 H5. eapply stage_ok; [by apply startup_ok|intros e a6 H6; by apply Hfail|].
  intros a6 H6. eapply wp_seq; [by apply (wait_ok fs)|]. intros ended a7 H7. destruct ended; cbn [negb].
  - destruct d; [apply wp_modify_seq, wp_ret|eapply wp_run_seq; [done|]; apply wp_ret]; by exists a7.
  - apply wp_ret. by exists a7.
Qed.

(** From the constructor to the destructor *)
Definition lifetime (fs : Files) (rounds : list (bool * bool)) : M App (option Z) :=
  let! r := run fs rounds in
  (App_destroy;;; ret r).

Lemma removed_iff fs a1 l q : pid_ok fs a1 → l = [] ∨ l = [CalledShutdown] →
  ∃ a, App_destroy (set_effects (effects a1 ++ l) a1) = (Ok tt, a) ∧ s_instance a = NoInstance ∧
    (RemovedFile q ∈ effects a ↔ q = pidFile (m_options a) ∧ OpenedPidFile q ∈ effects a ∧ write_pid fs q = true) ∧
    (CalledShutdown ∈ effects a ↔ l = [CalledShutdown]).
Proof.
  intros [H1 H2 H3 H4] Hl. unfold App_destroy, removePidFileIfNeeded. run. cbn [m_pidFileCreated m_options set_effects].
  rewrite Forall_forall in H1. assert (Hno : RemovedFile q ∉ effects a1) by (intros Hin; apply H1 in Hin as [?|?]; done).
  assert (Hns : CalledShutdown ∉ effects a1) by (intros Hin; apply H1 in Hin as [?|?]; done).
  assert (Hq : OpenedPidFile q ∈ effects a1 → q = pidFile (m_options a1)) by (intros Hin; apply H1 in Hin as [?|[= ->]]; done).
  assert (Hll : (RemovedFile q ∉ l) ∧ (OpenedPidFile q ∉ l)) by (destruct Hl as [->| ->]; split; set_solver).
  assert (Hls : CalledShutdown ∈ l ↔ l = [CalledShutdown]) by (destruct Hl as [->| ->]; set_solver).
  destruct (m_pidFileCreated a1) eqn:Ec; cbn [negb orb].
  - rewrite bool_decide_eq_false_2 by (by apply H3). destruct H2 as [H2 _]. destruct (H2 eq_refl) as [Hin Hw].
    eexists. split; [unfold bind, does, modify; cbn; by rewrite H4|]. cbn. split; [done|]. rewrite !elem_of_app. split; [|set_solver].
    split; [intros [[?|?]|[= ->]%list_elem_of_singleton]; [done|set_solver|by split_and!; [done|left; left|]]|].
    intros (-> & _). right. by left.
  - eexists. split; [unfold bind, modify; cbn; by rewrite H4|]. cbn. split; [done|]. rewrite !elem_of_app. split; [|set_solver].
    split; [set_solver|]. intros (-> & [Hin|?] & Hw); [|set_solver]. exfalso. destruct H2 as [_ H2]. by specialize (H2 (conj Hin Hw)).
Qed.

(** The application through its life, whatever the file system answers and however long it runs:
    the pid file is removed at the end exactly when it was opened and written, and nothing else
    is; the shutdown callback is called exactly when [run] returns 0; and another application can
    run afterwards. *)
Theorem application_lifecycle fs argv o u d rounds q : ∃ r a,
  lifetime fs rounds (set_callbacks u d (App_make argv o)) = (Ok r, a) ∧ s_instance a = NoInstance ∧
  (RemovedFile q ∈ effects a ↔ q = pidFile (m_options a) ∧ OpenedPidFile q ∈ effects a ∧ write_pid fs q = true) ∧
  (CalledShutdown ∈ effects a ↔ r = Some 0 ∧ d = true).
Proof.
  destruct (wp_inv _ _ _ (run_ok fs argv o u d rounds)) as (r & a & Er & a1 & Hp & Ea). unfold lifetime. rewrite (bind_Ok _ _ _ _ _ Er).
  set (l := if bool_decide (r = Some 0) && d then [CalledShutdown] else []). assert (Hl : l = [] ∨ l = [CalledShutdown]) by (unfold l; destruct (_ && _); auto).
  destruct (removed_iff fs a1 l q Hp Hl) as (a' & Ed & Hi & Hr & Hs). exists r, a'.
  assert (Ea' : a = set_effects (effects a1 ++ l) a1) by (rewrite Ea; unfold l; destruct (_ && _); [done|]; rewrite app_nil_r; by destruct a1).
  rewrite Ea', (bind_Ok _ _ _ _ _ Ed). split; [done|]. split; [done|]. split; [done|]. rewrite Hs. unfold l. destruct (bool_decide (r = Some 0)) eqn:Eb, d; cbn [andb];
    rewrite ?bool_decide_eq_true, ?bool_decide_eq_false in Eb; naive_solver.
Qed.

(** A pid file without a directory: its parent path is empty, and where making the empty
    directory is an error (as in libstdc++) [run] fails with code 4. *)
Theorem plain_pid_file_fails fs e rounds o : createDirectories fs [] = Some e → workingDirectory o = [] →
  (run fs rounds (App_make [lit "app"; lit "--pid-file=app.pid"] o)).1 = Ok (Some 4).
Proof.
  intros He Hw. destruct o as [n v w p c h cr], fs as [cd cp op wr]. cbn in He, Hw. subst w. vm_compute. rewrite He. reflexivity.
Qed.

(** [run] clears the request: a stop requested before it is forgotten. *)
Theorem early_stop_lost fs : ((requestStop;;; run fs [(false, false)]) (App_make [lit "app"] (mkOptions [] [] [] [] [] true false))).1 = Ok None.
Proof. vm_compute. reflexivity. Qed.
